(* ===== verification/_CoqProject ===== *)
-Q . S2P
Prelude.v
DeltaOp.v
Aggregator.v
WriteSet.v
MVHashMap.v
LastInputOutput.v
Scheduler.v
CommitProtocol.v
CommitProgress.v
SchedulerSafety.v
SchedulerProgress.v
SchedulerRace.v
View.v
BlockExecutor.v
BlockFiller.v
FillerSafety.v
ParallelExecutor.v
Serializability.v
InOrder.v
ParallelExample.v
U64.v
Position.v
FrozenSubtrees.v
Accumulator.v
AccumulatorProof.v
MerkleAccumulator.v
BitVec.v
ValidatorVerifier.v
ConsensusData.v
EpochChange.v
Certificates.v
PendingVotes.v
RoundState.v
BlockTree.v
SafetyRules.v
SafetyRulesSpec.v
ConsensusSafety.v
ConsensusExample.v
RoundExample.v
BlockTreeExample.v
SchemaDb.v
LedgerStore.v
LedgerProofs.v
TrustedState.v
AptosDb.v
StateProofs.v
LedgerExample.v
NibblePath.v
SparseMerkle.v
JmtNode.v
JellyfishMerkle.v
JellyfishTree.v
JellyfishUpdate.v
JellyfishInsert.v
JellyfishSound.v
JmtCodec.v
StateMerkleDb.v
StateMerklePipeline.v
StateMerkleSafety.v
StateMerklePruner.v
StateMerkleExample.v
