(* ===== verification/Prelude.v ===== *)
(** * Verification of the Anthemius blockchain node

    The repository is a fork of the Aptos node with a block executor that is guided by the
    dependencies of the transactions.  This library models its core in Rocq, function by
    function, and proves it correct: how a block is chosen, executed in parallel, agreed
    upon, committed to disk, and proved to clients.

    ** The program and where it is modelled

    A block goes through the parts of the node in this order.  Names in brackets are files
    under [src/]; definitions keep the names of the source.

    - Choosing a block.  [mempool/src/core_mempool/filler.rs] picks transactions under gas
      limits and emits the dependency graph and gas estimates that guide the execution:
      [BlockFiller.v], with its guarantees in [FillerSafety.v].
    - Executing it.  The virtual machine reads state through views
      ([aptos-move/block-executor/src/view.rs]: [View.v]) over a multi-version map
      ([aptos-move/mvhashmap]: [MVHashMap.v]), and leaves writes ([types/src/write_set.rs],
      [aptos-aggregator/src/transaction.rs]: [WriteSet.v]) and aggregator deltas
      ([aptos-aggregator]: [DeltaOp.v], [Aggregator.v]).  The reads and outputs of the last
      incarnation are in [txn_last_input_output.rs] ([LastInputOutput.v]).  Worker threads
      ([executor.rs]: [BlockExecutor.v] for what they do to the data, [ParallelExecutor.v]
      for how their accesses interleave) get tasks from a scheduler ([scheduler.rs]:
      [Scheduler.v]).
    - Agreeing on it.  Validators sign under the safety rules ([consensus/safety-rules]:
      [SafetyRules.v]), with the data of [consensus/consensus-types] ([ConsensusData.v]),
      validator sets and aggregate signatures ([types/src/validator_verifier.rs],
      [aggregate_signature.rs]: [ValidatorVerifier.v]) and bit vectors
      ([crates/aptos-bitvec]: [BitVec.v]).  Votes are collected
      ([consensus/src/pending_votes.rs]: [PendingVotes.v]) into certificates
      ([types/src/ledger_info.rs], [timeout_2chain.rs]: [Certificates.v]), which move a
      validator from round to round ([consensus/src/liveness/round_state.rs],
      [sync_info.rs]: [RoundState.v]).  The blocks above the last committed one are kept in a
      tree ([consensus/src/block_storage/block_tree.rs], [block_store.rs]: [BlockTree.v]).
    - Committing it.  The transaction infos become leaves of a Merkle accumulator
      ([types/src/proof/position]: [Position.v], [FrozenSubtrees.v];
      [types/src/proof/accumulator]: [Accumulator.v]; [storage/accumulator]:
      [MerkleAccumulator.v]), stored in columns ([storage/schemadb]: [SchemaDb.v]) by the
      ledger store ([storage/aptosdb/src/ledger_store]: [LedgerStore.v]), in the commits of
      [storage/aptosdb/src/lib.rs], with truncation and recovery after a crash
      ([AptosDb.v]).
    - Keeping the state.  Every version of the state is a sparse Merkle tree over hash values
      ([crates/aptos-crypto/src/hash.rs], [types/src/nibble]: [NibblePath.v];
      [types/src/proof/definition.rs]: [SparseMerkle.v]), stored as the nodes of a Jellyfish
      Merkle tree ([storage/jellyfish-merkle]: [JmtNode.v] for nodes, [JellyfishMerkle.v] for
      updates and reads, [JmtCodec.v] for the bytes).  What a store of nodes says is defined
      in [JellyfishTree.v] ([tree_at], [has_tree]); [JellyfishUpdate.v], [JellyfishInsert.v]
      and [JellyfishSound.v] prove an update, from its ranges of keys up to the whole batch.
      The database has node caches and pruners ([storage/aptosdb/src/state_merkle_db.rs],
      [versioned_node_cache.rs], [lru_node_cache.rs], [pruner/state_store]:
      [StateMerkleDb.v]), and two committing threads, two pruning threads and readers share
      it ([state_store/state_snapshot_committer.rs], [state_merkle_batch_committer.rs]:
      [StateMerklePipeline.v]); [StateMerkleSafety.v] has the invariant of all interleavings
      and [StateMerklePruner.v] what pruners delete.
    - Proving it to clients.  [types/src/proof/definition.rs]: [AccumulatorProof.v] for
      accumulators, [LedgerProofs.v] for transaction infos against a ledger info.
      [types/src/waypoint.rs], [epoch_change.rs], [epoch_state.rs]: [EpochChange.v].
      [types/src/trusted_state.rs]: [TrustedState.v]; the state proofs a node serves:
      [StateProofs.v].

    [Prelude.v] has what all share (results, panics, ordered maps, loops over entries, the
    tactics and hints for computations that may panic) and [U64.v] the 64-bit integers.
    [ParallelExample.v], [ConsensusExample.v], [RoundExample.v], [BlockTreeExample.v],
    [LedgerExample.v] and [StateMerkleExample.v] are concrete systems: they instantiate every parameter and run the
    definitions, and show that the hypotheses of the theorems can be met.

    ** How the code is represented

    [Result] is [result], and code that may panic ([panic!], [expect], [assert!], an index
    out of range, checked arithmetic) is in the monad [comp], so that "does not panic" is
    part of every theorem that says a computation is [Ret].  The workspace builds with
    overflow checks, so [+] and [-] on machine integers panic out of range.  Integers are
    [Z] with their width written out; hash maps are [gmap]s, ordered maps are [gmap]s that
    are iterated in key order ([btree_iter]).  Stateful code passes its state; the safety
    rules use a state and error monad ([action]).  Threads are step relations:
    [SchedulerSafety.sys_act] runs one scheduler method a step, [ParallelExecutor.mach_step]
    makes one access to shared data a step, [StateMerklePipeline.pipeline_step] one call on
    the database of the state tree: a call that reads many nodes sees the caches as they were
    when it began, and a run of a pruner and the record of its progress are one step.  The
    threads of one tree update share nothing until their batches are joined, and are run in
    order.  The methods of the scheduler and of the
    concurrent maps are atomic steps, as the locks of the source make them, but for the one
    place where they do not ([SchedulerRace.v]).  Traits are type classes ([Verifier],
    [HashReader], [SecureStorage], [KeyOrder]).

    ** What is a parameter

    Cryptography (BLS signatures: [Bls]; hashers: [MerkleHasher], [ConsensusEnv],
    [TransactionInfos]), the storage backend of the safety rules ([SecureStorage]), BCS
    encoding of [u128] ([BcsU128]), the clock and the duration of a round ([RoundState.v]),
    the results of executing and saving a block ([StateCompute]) and the orders in which a
    hash set ([BlockTree.v]) and a hash map ([JellyfishMerkle.v]) are iterated, the hashers
    of the state tree ([SparseMerkleHashers]), the bytes of its leaves ([LeafBcs]), the LRU
    cache ([LruCache]),
    and the virtual machine (a [program] that reads and finishes).  Theorems that need more
    than their types say so: [HasherInjective], the injectivity of [waypoint_hash] and
    [PendingVotes.no_collision] and [SparseMerkle.no_collision] are the usual idealisation of collision resistance,
    signatures that verify aggregate to one that verifies ([BlsCorrect]), a system of
    validators is assumed not to forge signatures ([ConsensusSafety.v]), the id of a block
    determines its parent and its round ([BlockTree.v]), storage keeps what was last written
    to it ([DurableStorage]), node hashes that come with an update are those of the new state
    ([JellyfishInsert.cache_ok]), the last epoch ending is known when a version is merklized
    ([StateMerklePipeline.covers_epochs]), RocksDB keeps its keys in order and writes a batch atomically.

    ** What the theorems show

    - Execution.  Every run of the parallel machine that commits a block has the outputs of
      running its transactions in order ([InOrder.parallel_is_in_order]) and returns what
      the sequential executor returns ([InOrder.parallel_equals_sequential]).  Below it:
      the scheduler implements an abstract commit protocol ([CommitProtocol.v],
      [SchedulerSafety.scheduler_refines_protocol]) whose invariant makes commits certified
      and final; it never panics and never gets stuck ([SchedulerProgress.v]); reads of the
      multi-version map are the latest lower write with the deltas above it
      ([MVHashMap.read_correct]); merging and squashing of deltas and change sets is
      sequential composition ([DeltaOp.v], [Aggregator.v], [WriteSet.v]); a race on module
      code is noticed ([LastInputOutput.module_race_detected]).
    - The filler.  Its blocks meet what the scheduler assumes, keep the order of each
      sender, and bound every chain of dependent transactions ([FillerSafety.v]).
    - Consensus.  No two quorum certificates of an epoch commit conflicting blocks
      ([ConsensusSafety.two_chain_agreement]); the durable state of a validator never goes
      back and votes are durable before they are released ([SafetyRulesSpec.v]).  The votes
      or timeouts of a quorum always make a certificate, and every certificate made
      verifies ([PendingVotes.quorum_certified], [PendingVotes.pending_votes_sound]); rounds
      only go up ([RoundState.rounds_increase]).  The block store does not panic while the
      certificates it is given agree, and a commit keeps what is above the new root
      ([BlockTree.block_store_safe]); pruning removes exactly the rest, and paths are found
      exactly to descendants ([BlockTree.block_tree_exact]).
    - Storage.  The accumulator is the Merkle tree of the whole list
      ([Accumulator.append_builds_the_tree]); a commit is atomic across crashes
      ([AptosDb.commit_crash_safe]) and goes through when its arguments fit
      ([AptosDb.commit_succeeds]).
    - State.  An update of the state tree never fails or panics, its root hash is that of the
      updated state, and its batch is the exact difference of the two trees
      ([JellyfishSound.update_is_exact]).  Whatever the interleaving of committers, pruners
      and readers, merklization never fails ([StateMerkleSafety.merklize_never_fails]), a
      version that passes the check before reads is read in full as long as the epoch
      snapshot pruner has not passed it ([StateMerkleSafety.readable_versions]), and no read
      is ever wrong ([StateMerkleSafety.reads_right_or_fail]).  Pruners reach their targets
      and delete exactly what became stale ([StateMerklePruner.pruner_catches_up]).  Keys,
      nodes and stale indices are read back from their bytes, in key order ([JmtCodec.v]).
    - Proofs.  What the store serves, clients accept ([LedgerProofs.served_proofs_verify],
      [StateProofs.client_catches_up]); what clients accept is true
      ([LedgerProofs.accepted_data_extends], [AccumulatorProof.inclusion_proof_sound],
      [SparseMerkle.verified_is_true], [TrustedState.ratchet_sound]).
    - Defects.  Some theorems show what the code does against its intent, for instance
      [SchedulerRace.unvalidated_commit], [AptosDb.second_restart_panics],
      [ConsensusExample.stale_timeout_certificate_accepted], [BlockTree.orphan_stays],
      [StateMerkleExample.check_misses_epoch_snapshot_pruner],
      [StateMerkleExample.snapshot_before_passes_over],
      [StateMerkleExample.uncached_committer_fails],
      [StateMerklePruner.reopened_pruner_spins], and the theorems at the ends of
      [BlockExecutor.v], [FillerSafety.v] and [SafetyRules.v].

    ** Bounds and fuel

    Loops that are not structural take fuel, and the theorems show it is enough: the
    iterators over frozen subtrees end within 65 and 129 calls
    ([FrozenSubtrees.subtree_iterators]), the verification of a range within 65 rounds
    ([AccumulatorProof.range_verification_ends]), the iterators of columns within one call
    more than they have rows, the truncation loop within one round per version, pruning of
    the block tree within one step per block, a path in it within as many steps as the round
    of its block; the recursions on the state tree within 65 levels, the nibbles of a key and
    one; a pruner within one run more than its column has rows.
    Accumulators are bounded by [2^63] leaves where the code is, and by 32 less in the
    storage theorems, so that no intermediate position overflows.  The index and wave of the
    scheduler are 32 bits each of a packed word; the theorems assume fewer than [2^32]
    transactions and say where the wave would overflow.

    ** Not modelled

    - The virtual machine, Move and its framework, gas metering and transaction prologues:
      a language implementation of its own; here a transaction is any program over reads.
    - Of the state: values, their index and usage counts, the in-memory tree of
      [storage/scratchpad] (the hashes it gives the committer are a hypothesis), the iterator,
      range proofs and the restore of a state.  Events, transaction bodies, the pruning of
      the ledger, backup: columns of their own.
    - The rest of consensus: round manager, fetching of missing blocks, recovery of the block
      tree from the consensus database, proposer election, quorum store, networking.
      Agreement rests on the safety rules alone; the rest is for liveness.
      The durations of rounds are computed in floating point.
    - [execution/executor], [state-sync], the mempool beyond the filler, the network stack,
      the API, configuration, command line tools, tests and dashboards: asynchronous I/O
      and glue around the parts above. *)
From Corelib Require Export ssreflect.
From stdpp Require Export prelude gmap sorting list.
From Stdlib Require Export ZArith Lia.
#[global] Open Scope general_if_scope.

(** ** Results, panics and early returns *)

(** [Result<T, E>] of Rust; [E] comes first so that [result E] is a monad. *)
Inductive result (E T : Type) : Type :=
  | Ok (t : T)
  | Err (e : E).
Arguments Ok {E T} t.
Arguments Err {E T} e.

(** A computation that may panic ([panic!], [expect], a failed [assert!], an
    index out of bounds, [unreachable!]). *)
Inductive comp (T : Type) : Type :=
  | Ret (t : T)
  | Panic.
Arguments Ret {T} t.
Arguments Panic {T}.

#[global] Instance result_ret {E} : MRet (result E) := λ T t, Ok t.
#[global] Instance result_bind {E} : MBind (result E) := λ T U f r,
  match r with Ok t => f t | Err e => Err e end.
#[global] Instance result_fmap {E} : FMap (result E) := λ T U f r,
  match r with Ok t => Ok (f t) | Err e => Err e end.

#[global] Instance comp_ret : MRet comp := λ T t, Ret t.
#[global] Instance comp_bind : MBind comp := λ T U f r,
  match r with Ret t => f t | Panic => Panic end.
#[global] Instance comp_fmap : FMap comp := λ T U f r,
  match r with Ret t => Ret (f t) | Panic => Panic end.

#[global] Instance result_eq_dec {E T} `{EqDecision E, EqDecision T} :
  EqDecision (result E T).
Proof. solve_decision. Defined.
#[global] Instance comp_eq_dec {T} `{EqDecision T} : EqDecision (comp T).
Proof. solve_decision. Defined.

Definition map_err {E F T} (f : E → F) (r : result E T) : result F T :=
  match r with Ok t => Ok t | Err e => Err (f e) end.

Definition unwrap_or {E T} (d : T) (r : result E T) : T :=
  match r with Ok t => t | Err _ => d end.

Definition is_ok {E T} (r : result E T) : bool :=
  match r with Ok _ => true | Err _ => false end.

(** [o.expect(..)]. *)
Definition expect {T} (o : option T) : comp T :=
  match o with Some t => Ret t | None => Panic end.

(** [.expect(..)] on a [Result]. *)
Definition expect_ok {E T} (r : result E T) : comp T :=
  match r with Ok t => Ret t | Err _ => Panic end.

(** [assert!(b)]. *)
Definition rust_assert (b : bool) : comp unit := if b then Ret tt else Panic.

(** [?] inside a computation that may panic. *)
Definition try {E T U} (r : result E T) (f : T → comp (result E U)) : comp (result E U) :=
  match r with Ok t => f t | Err e => Ret (Err e) end.

Declare Scope rust_scope.
Delimit Scope rust_scope with rust.

(** [let x = r?; k] in such a computation. *)
Notation "'let?' x := r 'in' k" := (try r (λ x, k))
  (at level 200, x pattern, right associativity, format "'let?'  x  :=  r  'in' '//' k") : rust_scope.

(** [let x = c?; k], where [c] may panic too. *)
Notation "'let*' x := c 'in' k" := (mbind (λ r, try r (λ x, k)) c)
  (at level 200, x pattern, right associativity, format "'let*'  x  :=  c  'in' '//' k") : rust_scope.

(** [for a in l { s = f(s, a)?; }]. *)
Fixpoint try_fold {A S E} (f : S → A → comp (result E S)) (s : S) (l : list A) : comp (result E S) :=
  match l with
  | [] => Ret (Ok s)
  | a :: l' => r ← f s a; try r (λ s, try_fold f s l')
  end.

(** Facts that hold of ordered iteration by construction. *)
Create HintDb rust discriminated.

(** ** Loops over the entries of a map *)

(** [for (k, b) in l { s[k] = f(s[k], b)?; }] on a state with keyed slots. *)
Section each.
Context {S K X B E : Type}.
Context (get : S → K → X) (put : S → K → X → S) (f : X → B → comp (result E X)).

Fixpoint each (l : list (K * B)) (s : S) : comp (result E S) :=
  match l with
  | [] => Ret (Ok s)
  | (k, b) :: l' =>
      r ← f (get s k) b;
      try r (λ x, each l' (put s k x))
  end.

Context (get_put_eq : ∀ s k x, get (put s k x) k = x).
Context (get_put_ne : ∀ s k k' x, k ≠ k' → get (put s k x) k' = get s k').

(** With distinct keys, every slot is updated from its initial contents, and the
    first failure is a failure of one of them. *)
Lemma each_spec l s :
  NoDup l.*1 →
  match each l s with
  | Ret (Ok s') => ∀ k,
      (k ∉ l.*1 → get s' k = get s k) ∧
      (∀ b, (k, b) ∈ l → f (get s k) b = Ret (Ok (get s' k)))
  | Ret (Err e) => ∃ k b, (k, b) ∈ l ∧ f (get s k) b = Ret (Err e)
  | Panic => ∃ k b, (k, b) ∈ l ∧ f (get s k) b = Panic
  end.
Proof.
  revert s; induction l as [|[k0 b0] l IH]; intros s Hnd; simpl.
  { intros k; split; [done|]. intros b []%elem_of_nil. }
  apply NoDup_cons in Hnd as [Hk0 Hnd].
  destruct (f (get s k0) b0) as [[x|e]|] eqn:Hf; simpl.
  2,3: exists k0, b0; split; [constructor|done].
  specialize (IH (put s k0 x) Hnd).
  assert (∀ k b, (k, b) ∈ l → get (put s k0 x) k = get s k) as Hne.
  { intros k b Hin. apply get_put_ne. intros ->.
    apply Hk0, list_elem_of_fmap. by exists (k, b). }
  destruct (each l (put s k0 x)) as [[s'|e]|].
  - intros k; destruct (IH k) as [IH1 IH2]; split.
    + intros [? ?]%not_elem_of_cons. rw IH1 // get_put_ne //.
    + intros b [[= -> ->]|Hin]%elem_of_cons.
      * rw IH1 // get_put_eq //.
      * rw -(IH2 b) //. by erewrite Hne.
  - destruct IH as (k & b & Hin & Hf'). erewrite Hne in Hf' by done.
    exists k, b; split; [by constructor|done].
  - destruct IH as (k & b & Hin & Hf'). erewrite Hne in Hf' by done.
    exists k, b; split; [by constructor|done].
Qed.
End each.

(** The slots of a map: [entry(k)], and writing back ([None] removes). *)
Definition map_get {K V} `{Countable K} (m : gmap K V) (k : K) : option V := m !! k.
Definition map_put {K V} `{Countable K} (m : gmap K V) (k : K) (x : option V) : gmap K V :=
  partial_alter (λ _, x) k m.

Lemma map_get_put_eq {K V} `{Countable K} (m : gmap K V) k x : map_get (map_put m k x) k = x.
Proof. apply lookup_partial_alter_eq. Qed.
Lemma map_get_put_ne {K V} `{Countable K} (m : gmap K V) k k' x :
  k ≠ k' → map_get (map_put m k x) k' = map_get m k'.
Proof. apply lookup_partial_alter_ne. Qed.

(** ** Machine integers and bytes *)

Definition u128 (x : Z) : Prop := (0 ≤ x < 2 ^ 128)%Z.
Definition u64 (x : Z) : Prop := (0 ≤ x < 2 ^ 64)%Z.

(** [x as uN]. *)
Definition wrap (bits x : Z) : Z := (x mod 2 ^ bits)%Z.

Abbreviation bytes := (list Z) (only parsing).

(** The [bcs] crate on [u128]: a parameter of the development.  The law is the
    documented round trip of the format. *)
Class BcsU128 : Type := {
  bcs_to_bytes : Z → bytes;
  bcs_from_bytes : bytes → option Z;
}.
Class BcsU128Laws `{BcsU128} : Prop := {
  bcs_roundtrip v : u128 v → bcs_from_bytes (bcs_to_bytes v) = Some v;
  bcs_from_range b v : bcs_from_bytes b = Some v → u128 v;
}.

(** A concrete codec (sixteen little-endian bytes), which shows the laws can be met. *)
Module LittleEndian.
Local Open Scope Z_scope.
Fixpoint encode (n : nat) (v : Z) : bytes :=
  match n with O => [] | S n' => v mod 256 :: encode n' (v / 256) end.
Fixpoint decode (b : bytes) : Z :=
  match b with [] => 0 | x :: b' => x + 256 * decode b' end.

Definition byte_ok (x : Z) : bool := (0 <=? x) && (x <? 256).

#[local] Instance le_bcs : BcsU128 := {
  bcs_to_bytes := encode 16;
  bcs_from_bytes b :=
    if (length b =? 16)%nat && forallb byte_ok b then Some (decode b) else None;
}.

Lemma decode_encode n v : 0 ≤ v < 256 ^ Z.of_nat n → decode (encode n v) = v.
Proof.
  revert v; induction n as [|n IH]; intros v Hv; simpl.
  - change (256 ^ Z.of_nat 0) with 1 in Hv. lia.
  - rw IH; [|pose proof (Z_div_mod_eq_full v 256); lia].
    rw Nat2Z.inj_succ Z.pow_succ_r in Hv; [lia|].
    split; [apply Z.div_pos; lia|apply Z.div_lt_upper_bound; lia].
Qed.

Lemma encode_ok n v : length (encode n v) = n ∧ forallb byte_ok (encode n v) = true.
Proof.
  revert v; induction n as [|n IH]; intros v; simpl; [done|].
  destruct (IH (v / 256)) as [-> ->]. split; [done|].
  rw andb_true_r. unfold byte_ok.
  pose proof (Z.mod_pos_bound v 256 ltac:(lia)).
  apply andb_true_iff; rw Z.leb_le Z.ltb_lt. lia.
Qed.

Lemma decode_range b :
  forallb byte_ok b = true → 0 ≤ decode b < 256 ^ Z.of_nat (length b).
Proof.
  induction b as [|x b IH]; cbn [forallb decode length].
  - change (256 ^ Z.of_nat 0) with 1. lia.
  - unfold byte_ok at 1. rw !andb_true_iff Z.leb_le Z.ltb_lt.
    intros [[? ?] ?%IH]. rw Nat2Z.inj_succ Z.pow_succ_r; lia.
Qed.

#[local] Instance le_bcs_laws : BcsU128Laws.
Proof.
  split.
  - intros v Hv. unfold bcs_from_bytes, bcs_to_bytes, le_bcs.
    destruct (encode_ok 16 v) as [-> ->]. cbn [andb Nat.eqb].
    rw decode_encode //.
  - intros b v. unfold bcs_from_bytes, le_bcs.
    destruct (Nat.eqb_spec (length b) 16) as [Hl|]; simpl; [|done].
    destruct (forallb byte_ok b) eqn:Hb; [|done]. intros [= <-].
    apply decode_range in Hb. rw Hl in Hb. exact Hb.
Qed.
End LittleEndian.

(** ** Ordered maps *)

(** Rust's [Ord] on the keys of a [BTreeMap]. *)
Class KeyOrder (K : Type) : Type := {
  key_le : relation K;
  key_le_dec :: RelDecision key_le;
  key_le_trans :: Transitive key_le;
  key_le_total :: Total key_le;
  key_le_antisymm :: AntiSymm (=) key_le;
}.

#[global] Program Instance nat_key_order : KeyOrder nat := {| key_le := le |}.
#[global] Program Instance Z_key_order : KeyOrder Z := {| key_le := Z.le |}.

Definition pair_le {A B} `{KeyOrder A, KeyOrder B} : relation (A * B) := λ x y,
  (key_le x.1 y.1 ∧ ¬ key_le y.1 x.1) ∨ (x.1 = y.1 ∧ key_le x.2 y.2).

(** Lexicographic order, as [#[derive(Ord)]] gives it. *)
#[global] Program Instance pair_key_order {A B} `{EqDecision A, KeyOrder A, KeyOrder B} :
  KeyOrder (A * B) := {| key_le := pair_le |}.
Next Obligation. intros A B ? ? ? [a b] [a' b']. unfold pair_le. apply _. Defined.
Next Obligation.
  intros A B ? ? ? [a b] [a' b'] [a'' b'']. unfold pair_le; simpl.
  intros [[H1 H2]|[-> H1]] [[H3 H4]|[-> H3]]; [left|left|left|right].
  - split; [by etrans|]. intros H5. apply H2. by etrans.
  - done.
  - done.
  - split; [done|by etrans].
Qed.
Next Obligation.
  intros A B ? ? ? [a b] [a' b']. unfold pair_le; simpl.
  destruct (decide (a = a')) as [->|Hne].
  - destruct (total key_le b b'); [left|right]; by right.
  - destruct (total key_le a a') as [Hle|Hle]; [left|right]; left;
      (split; [done|]); intros Hle'; apply Hne; by apply (anti_symm key_le).
Qed.
Next Obligation.
  intros A B ? ? ? [a b] [a' b']. unfold pair_le; simpl.
  intros [[H1 H2]|[-> H1]] [[H3 H4]|[? H3]]; try done.
  - by subst.
  - f_equal. by apply (anti_symm key_le).
Qed.

Section btree.
Context {K V : Type} `{Countable K, KeyOrder K}.

Definition entry_le : relation (K * V) := λ x y, key_le x.1 y.1.

#[global] Instance entry_le_dec : RelDecision entry_le.
Proof. intros [k v] [k' v']. unfold entry_le. apply _. Defined.
#[global] Instance entry_le_trans : Transitive entry_le.
Proof. intros [k v] [k' v'] [k'' v'']. unfold entry_le. apply transitivity. Qed.
#[global] Instance entry_le_total : Total entry_le.
Proof. intros [k v] [k' v']. apply (total key_le). Qed.

(** [BTreeMap::iter]: the entries in ascending key order. *)
Definition btree_iter (m : gmap K V) : list (K * V) :=
  merge_sort entry_le (map_to_list m).

Lemma btree_iter_perm (m : gmap K V) : btree_iter m ≡ₚ map_to_list m.
Proof. apply merge_sort_Permutation. Qed.

Lemma elem_of_btree_iter (m : gmap K V) k v : (k, v) ∈ btree_iter m ↔ m !! k = Some v.
Proof. rw btree_iter_perm. apply elem_of_map_to_list. Qed.

Lemma btree_iter_nil (m : gmap K V) : btree_iter m = [] ↔ m = ∅.
Proof.
  split.
  - intros Hnil. apply map_empty. intros k. destruct (m !! k) as [v|] eqn:Hk; [|done].
    apply elem_of_btree_iter in Hk. rewrite Hnil in Hk. by apply elem_of_nil in Hk.
  - intros ->. apply Permutation_nil_r. etrans; [apply btree_iter_perm|]. by rw map_to_list_empty.
Qed.

Lemma btree_iter_sorted (m : gmap K V) : StronglySorted entry_le (btree_iter m).
Proof. apply StronglySorted_merge_sort; apply _. Qed.

Lemma btree_keys_sorted (m : gmap K V) : StronglySorted key_le (btree_iter m).*1.
Proof.
  pose proof (btree_iter_sorted m) as Hs. induction Hs as [|[k v] l Hs IH Hall]; [constructor|]. constructor; [done|].
  apply Forall_fmap. eapply Forall_impl; [exact Hall|]. by intros [k' v'].
Qed.

Lemma NoDup_btree_iter (m : gmap K V) : NoDup (btree_iter m).*1.
Proof. rw btree_iter_perm. apply NoDup_fst_map_to_list. Qed.

Lemma elem_of_btree_keys (m : gmap K V) k : k ∈ (btree_iter m).*1 ↔ is_Some (m !! k).
Proof.
  rewrite list_elem_of_fmap. split; [|intros [v Hv]; exists (k, v); by rewrite elem_of_btree_iter].
  intros ([k' v] & -> & Hv%elem_of_btree_iter). by exists v.
Qed.
End btree.

(** [BTreeMap::range(0..i)] on [usize] keys. *)
Definition btree_below {V} (i : nat) (m : gmap nat V) : list (nat * V) :=
  filter (λ kv, (kv.1 < i)%nat) (btree_iter m).

(** Strictly ascending keys. *)
Definition ascending {V} (l : list (nat * V)) : Prop :=
  StronglySorted (λ x y : nat * V, (x.1 < y.1)%nat) l.

Lemma ascending_intro {V} (l : list (nat * V)) :
  StronglySorted entry_le l → NoDup l.*1 → ascending l.
Proof.
  induction 1 as [|[k v] l Hs IH Hall]; simpl; intros Hnd; [constructor|].
  apply NoDup_cons in Hnd as [Hk Hnd].
  constructor; [by apply IH|].
  apply Forall_forall. intros [k' v'] Hin. simpl.
  rw Forall_forall in Hall. specialize (Hall _ Hin). unfold entry_le in Hall; simpl in Hall.
  assert (k ≠ k'); [|lia]. intros ->. apply Hk, list_elem_of_fmap. by exists (k', v').
Qed.

Lemma StronglySorted_filter {A} (R : relation A) (P : A → Prop) `{∀ x, Decision (P x)} l :
  StronglySorted R l → StronglySorted R (filter P l).
Proof.
  induction 1 as [|x l Hs IH Hall]; [constructor|].
  rw filter_cons. case_decide; [|done]. constructor; [done|].
  rw !Forall_forall in Hall |- *. intros y [_ Hy]%list_elem_of_filter. by apply Hall.
Qed.

#[export] Hint Resolve btree_iter_sorted NoDup_btree_iter StronglySorted_filter ascending_intro : rust.

Lemma btree_below_ascending {V} i (m : gmap nat V) : ascending (btree_below i m).
Proof.
  apply StronglySorted_filter, ascending_intro; auto with rust.
Qed.

#[export] Hint Resolve btree_below_ascending : rust.

Lemma elem_of_btree_below {V} i (m : gmap nat V) k v :
  (k, v) ∈ btree_below i m ↔ (k < i)%nat ∧ m !! k = Some v.
Proof. unfold btree_below. by rw list_elem_of_filter elem_of_btree_iter. Qed.

Lemma ascending_ext {V} (l1 l2 : list (nat * V)) :
  ascending l1 → ascending l2 → (∀ x, x ∈ l1 ↔ x ∈ l2) → l1 = l2.
Proof.
  intros Hs1; revert l2; induction Hs1 as [|x l1 Hs1 IH Hx]; intros l2 Hs2 Heq.
  - destruct l2 as [|y l2]; [done|]. exfalso. apply (not_elem_of_nil y), Heq. constructor.
  - destruct Hs2 as [|y l2 Hs2 Hy]; [exfalso; apply (not_elem_of_nil x), Heq; constructor|].
    rw !Forall_forall in Hx, Hy.
    assert (x = y) as ->.
    { assert (x ∈ y :: l2) as [->|H1]%elem_of_cons by (apply Heq; constructor); [done|].
      assert (y ∈ x :: l1) as [->|H2]%elem_of_cons by (apply Heq; constructor); [done|].
      specialize (Hx _ H2). specialize (Hy _ H1). lia. }
    f_equal. apply IH; [done|]. intros z. split; intros Hz.
    + assert (z ∈ y :: l2) as [->|?]%elem_of_cons by (apply Heq; by constructor); [|done].
      specialize (Hx _ Hz). lia.
    + assert (z ∈ y :: l1) as [->|?]%elem_of_cons by (apply Heq; by constructor); [|done].
      specialize (Hy _ Hz). lia.
Qed.

(** A range only depends on the entries inside it. *)
Lemma btree_below_ext {V} i (m1 m2 : gmap nat V) :
  (∀ j, (j < i)%nat → m1 !! j = m2 !! j) → btree_below i m1 = btree_below i m2.
Proof.
  intros Heq. apply ascending_ext; [auto with rust..|].
  intros [k v]. rw !elem_of_btree_below.
  split; intros [Hk Hv]; (split; [done|]); rw -Hv; [by rw Heq|by rw -Heq].
Qed.

Lemma btree_below_nil {V} i : btree_below i (∅ : gmap nat V) = [].
Proof.
  apply elem_of_nil_inv. intros [k v]. rw elem_of_btree_below lookup_empty. naive_solver.
Qed.

(** A key that occurs once has one value. *)
Lemma NoDup_fst_inj {A B} (l : list (A * B)) x y z : NoDup l.*1 → (x, y) ∈ l → (x, z) ∈ l → y = z.
Proof.
  induction l as [|[x' y'] l IH]; [by intros _ ?%elem_of_nil|]. cbn. intros [Hn Hnd]%NoDup_cons.
  intros [E|Hy]%elem_of_cons [E'|Hz]%elem_of_cons; simplify_eq; [done| | |by apply IH].
  all: exfalso; apply Hn, list_elem_of_fmap; by eexists (_, _).
Qed.

(** Filters that keep all or nothing. *)
Lemma list_filter_all {A} (P : A → Prop) `{∀ x, Decision (P x)} (l : list A) : Forall P l → filter P l = l.
Proof. induction 1 as [|x l Hx _ IH]; [done|]. by rewrite filter_cons_True // IH. Qed.

Lemma list_filter_none {A} (P : A → Prop) `{∀ x, Decision (P x)} (l : list A) : Forall (λ x, ¬ P x) l → filter P l = [].
Proof. induction 1 as [|x l Hx _ IH]; [done|]. by rewrite filter_cons_False. Qed.

(** Testing a bit by masking it. *)
Lemma land_pow2 b n : (0 ≤ n → (Z.land b (2 ^ n) =? 0) = negb (Z.testbit b n))%Z.
Proof.
  intros Hn. destruct (Z.testbit b n) eqn:Hb; simpl.
  - apply Z.eqb_neq. intros H0. assert (Z.testbit (Z.land b (2 ^ n)) n = true) as H1.
    { by rewrite Z.land_spec Hb Z.pow2_bits_true. }
    by rewrite H0 Z.bits_0 in H1.
  - apply Z.eqb_eq, Z.bits_inj'. intros k Hk. rewrite Z.land_spec Z.bits_0 Z.pow2_bits_eqb; [lia|].
    destruct (Z.eqb_spec n k) as [<-|]; by rewrite ?Hb ?andb_false_r.
Qed.

(** Invariants of a step relation. *)
Lemma rtc_invariant {A} (R : A → A → Prop) (P : A → Prop) x y :
  (∀ a b, P a → R a b → P b) → rtc R x y → P x → P y.
Proof. intros Hstep Hr. induction Hr; eauto. Qed.

(** Inversion of computations that returned. *)
Lemma bind_Ret {T U} (m : comp T) (f : T → comp U) y :
  (m ≫= f) = Ret y ↔ ∃ x, m = Ret x ∧ f x = Ret y.
Proof. destruct m; simpl; naive_solver. Qed.

Lemma expect_Ret {T} (o : option T) x : expect o = Ret x ↔ o = Some x.
Proof. destruct o; simpl; naive_solver. Qed.

Lemma rust_assert_Ret b x : rust_assert b = Ret x ↔ b = true.
Proof. destruct b, x; simpl; naive_solver. Qed.

(** Passes a returned value on to the rest of a computation. *)
Lemma bind_Ret_l {T U} (x : T) (f : T → comp U) : (Ret x ≫= f) = f x.
Proof. done. Qed.

Lemma fmap_Ret_l {T U} (x : T) (f : T → U) : f <$> Ret x = Ret (f x).
Proof. done. Qed.

Ltac run :=
  cbn [rust_assert negb];
  repeat match goal with
  | |- context [mbind ?f (Ret ?x)] => rewrite (bind_Ret_l x f); cbv beta iota; cbn [rust_assert negb]
  | |- context [fmap ?f (Ret ?x)] => rewrite (fmap_Ret_l x f); cbv beta iota; cbn [rust_assert negb]
  end.

(** Inverts [H], an equation between a computation and [Ret _], one bind at a time. *)
Ltac returned H :=
  let T := type of H in
  lazymatch T with
  | expect _ = Ret _ => apply expect_Ret in H
  | rust_assert _ = Ret _ => apply rust_assert_Ret in H
  | mbind _ _ = Ret _ =>
      let x := fresh "r" in let Hx := fresh "Hr" in
      apply bind_Ret in H as (x & Hx & H); cbv beta in H; returned Hx; returned H
  | (match ?r with pair _ _ => _ end) = Ret _ => tryif is_var r then (destruct r as [? ?]; returned H) else idtac
  | _ => idtac
  end.
