(* ===== verification/DeltaOp.v ===== *)
(** * Aggregator deltas

    Models [aptos-move/aptos-aggregator/src/delta_change_set.rs]: the partial
    functions [addition] and [subtraction] on [u128], a delta with its history
    ([DeltaOp]), its application to a base value and the merging of two deltas.
    The main theorem is that merging is exact: applying the merged delta is the
    same as applying the two deltas one after the other, failures included. *)
From S2P Require Import Prelude.
Local Open Scope Z_scope.

(** The status codes the aggregator code produces. *)
Inductive StatusCode : Type :=
  | ABORTED
  | VM_EXTENSION_ERROR
  | STORAGE_ERROR.
#[global] Instance StatusCode_eq_dec : EqDecision StatusCode.
Proof. solve_decision. Defined.

(** [PartialVMError] without its message: the major status and the sub-status. *)
Record PartialVMError : Type := mkPartialVMError {
  major_status : StatusCode;
  sub_status : option Z;
}.
#[global] Instance PartialVMError_eq_dec : EqDecision PartialVMError.
Proof. solve_decision. Defined.

Abbreviation PartialVMResult := (result PartialVMError).

Definition EADD_OVERFLOW : Z := 0x020001.
Definition ESUB_UNDERFLOW : Z := 0x020002.

Definition abort_error (code : Z) : PartialVMError :=
  mkPartialVMError ABORTED (Some code).

(** ** The partial operations *)

Definition addition (base value limit : Z) : PartialVMResult Z :=
  if (limit <? base) || (value >? limit - base)
  then Err (abort_error EADD_OVERFLOW)
  else Ok (base + value).

Definition subtraction (base value : Z) : PartialVMResult Z :=
  if value >? base then Err (abort_error ESUB_UNDERFLOW) else Ok (base - value).

Inductive DeltaUpdate : Type :=
  | Plus (value : Z)
  | Minus (value : Z).
#[global] Instance DeltaUpdate_eq_dec : EqDecision DeltaUpdate.
Proof. solve_decision. Defined.

Record DeltaOp : Type := mkDeltaOp {
  max_positive : Z;
  min_negative : Z;
  limit : Z;
  update : DeltaUpdate;
}.
#[global] Instance DeltaOp_eq_dec : EqDecision DeltaOp.
Proof. solve_decision. Defined.

Definition DeltaOp_new (u : DeltaUpdate) (lim maxp minn : Z) : DeltaOp :=
  mkDeltaOp maxp minn lim u.

Definition apply_to (d : DeltaOp) (base : Z) : PartialVMResult Z :=
  _ ← addition base (max_positive d) (limit d);
  _ ← subtraction base (min_negative d);
  match update d with
  | Plus value => addition base value (limit d)
  | Minus value => subtraction base value
  end.

Definition shifted_max_positive_by (self delta : DeltaOp) : PartialVMResult Z :=
  match update delta with
  | Plus value => addition value (max_positive self) (limit self)
  | Minus value => Ok (unwrap_or 0 (subtraction (max_positive self) value))
  end.

Definition shifted_min_negative_by (self delta : DeltaOp) : PartialVMResult Z :=
  match update delta with
  | Plus value => Ok (unwrap_or 0 (subtraction (min_negative self) value))
  | Minus value => addition value (min_negative self) (limit self)
  end.

(** The macros of [merge_onto], as the update they leave in [self]. *)
Definition update_same_sign (sign : Z → DeltaUpdate) (a b lim : Z) :
    PartialVMResult DeltaUpdate :=
  v ← addition a b lim; Ok (sign v).

Definition update_different_sign (a b : Z) : PartialVMResult DeltaUpdate :=
  if a >=? b then v ← subtraction a b; Ok (Plus v)
  else v ← subtraction b a; Ok (Minus v).

(** [self.merge_onto(previous_delta)]: the value of [self] afterwards. *)
Definition merge_onto (self previous_delta : DeltaOp) : PartialVMResult DeltaOp :=
  shifted_max_positive ← shifted_max_positive_by self previous_delta;
  shifted_min_negative ← shifted_min_negative_by self previous_delta;
  u ← match update previous_delta with
      | Plus prev_value =>
          match update self with
          | Plus self_value => update_same_sign Plus prev_value self_value (limit self)
          | Minus self_value => update_different_sign prev_value self_value
          end
      | Minus prev_value =>
          match update self with
          | Plus self_value => update_different_sign self_value prev_value
          | Minus self_value => update_same_sign Minus prev_value self_value (limit self)
          end
      end;
  Ok (mkDeltaOp (Z.max (max_positive previous_delta) shifted_max_positive)
                (Z.max (min_negative previous_delta) shifted_min_negative)
                (limit self) u).

Definition delta_sub (v lim : Z) : DeltaOp := DeltaOp_new (Minus v) lim 0 v.
Definition delta_add (v lim : Z) : DeltaOp := DeltaOp_new (Plus v) lim v 0.

(** [bcs::to_bytes] and [bcs::from_bytes] with [expect] on their results. *)
Definition serialize `{BcsU128} (value : Z) : bytes := bcs_to_bytes value.
Definition deserialize `{BcsU128} (value_bytes : bytes) : comp Z :=
  expect (bcs_from_bytes value_bytes).

(** ** Specification *)

(** The signed amount of an update. *)
Definition signed (u : DeltaUpdate) : Z :=
  match u with Plus v => v | Minus v => - v end.


(** A well-formed delta: [u128] fields, and the update is one of the values its
    history has seen. *)
Definition wf_delta (d : DeltaOp) : Prop :=
  u128 (max_positive d) ∧ u128 (min_negative d) ∧ u128 (limit d) ∧
  match update d with
  | Plus v => 0 ≤ v ≤ max_positive d
  | Minus v => 0 ≤ v ≤ min_negative d
  end.

(** The bases on which a delta succeeds: the whole history stays in [0, limit]. *)
Definition admits (d : DeltaOp) (base : Z) : Prop :=
  min_negative d ≤ base ∧ base + max_positive d ≤ limit d.

(** Applying deltas one after the other, oldest first. *)
Fixpoint apply_seq (ds : list DeltaOp) (base : Z) : PartialVMResult Z :=
  match ds with
  | [] => Ok base
  | d :: ds' => v ← apply_to d base; apply_seq ds' v
  end.

(** Same success value, or both fail (the error payload is not compared). *)
Definition agrees {E F T} (r : result E T) (s : result F T) : Prop :=
  match r, s with
  | Ok x, Ok y => x = y
  | Err _, Err _ => True
  | _, _ => False
  end.

(** ** Lemmas *)

Lemma addition_spec base value lim :
  addition base value lim =
    if decide (base ≤ lim ∧ base + value ≤ lim) then Ok (base + value)
    else Err (abort_error EADD_OVERFLOW).
Proof.
  unfold addition. case_decide; destruct (Z.ltb_spec lim base);
    rw Z.gtb_ltb; destruct (Z.ltb_spec (lim - base) value); simpl; done || lia.
Qed.

Lemma subtraction_spec base value :
  subtraction base value =
    if decide (value ≤ base) then Ok (base - value)
    else Err (abort_error ESUB_UNDERFLOW).
Proof.
  unfold subtraction. rw Z.gtb_ltb.
  case_decide; destruct (Z.ltb_spec base value); simpl; done || lia.
Qed.

(** Unfold the partial operations of the goal and split on their guards. *)
Ltac delta_cases :=
  repeat (progress (rw ?addition_spec ?subtraction_spec; simpl) || (case_decide; simpl)).

Lemma apply_to_spec d base :
  wf_delta d →
  apply_to d base =
    if decide (base + max_positive d ≤ limit d)
    then if decide (min_negative d ≤ base) then Ok (base + signed (update d))
         else Err (abort_error ESUB_UNDERFLOW)
    else Err (abort_error EADD_OVERFLOW).
Proof.
  destruct d as [mp mn lim [v|v]]; unfold wf_delta, u128, apply_to; simpl;
    intros (?&?&?&?); delta_cases; solve [done | lia | f_equal; lia].
Qed.

Lemma apply_to_ok d base v :
  wf_delta d →
  apply_to d base = Ok v ↔ admits d base ∧ v = base + signed (update d).
Proof.
  intros Hwf. rw apply_to_spec //. unfold admits.
  repeat case_decide; naive_solver lia.
Qed.

Lemma apply_to_range d base v :
  wf_delta d → apply_to d base = Ok v → 0 ≤ v ≤ limit d.
Proof.
  intros Hwf [[? ?] ->]%apply_to_ok; [|done].
  destruct d as [mp mn lim [x|x]]; unfold wf_delta, u128 in Hwf; simpl in *; lia.
Qed.

Lemma apply_to_err d base e :
  wf_delta d → apply_to d base = Err e → ¬ admits d base.
Proof.
  intros Hwf. rw apply_to_spec //. unfold admits.
  repeat case_decide; naive_solver lia.
Qed.

Lemma update_different_sign_spec a b :
  update_different_sign a b = Ok (if decide (b ≤ a) then Plus (a - b) else Minus (b - a)).
Proof.
  unfold update_different_sign. rw Z.geb_leb.
  destruct (Z.leb_spec b a); delta_cases; done || lia.
Qed.

(** What [merge_onto] computes, as a condition on the two deltas and the fields
    of the merged one. *)
Lemma merge_onto_ok self prev m :
  wf_delta self → wf_delta prev →
  merge_onto self prev = Ok m →
  limit m = limit self ∧
  signed (update m) = signed (update prev) + signed (update self) ∧
  max_positive m = Z.max (max_positive prev)
                         (Z.max 0 (signed (update prev) + max_positive self)) ∧
  min_negative m = Z.max (min_negative prev)
                         (Z.max 0 (min_negative self - signed (update prev))).
Proof.
  destruct self as [mp mn lim [v|v]], prev as [mp' mn' lim' [w|w]];
    unfold wf_delta, u128, merge_onto, shifted_max_positive_by,
      shifted_min_negative_by, update_same_sign; simpl;
    intros (?&?&?&?) (?&?&?&?);
    rw ?update_different_sign_spec; delta_cases; intros; simplify_eq/=; lia.
Qed.

(** [merge_onto] fails only when no base below the limit admits both deltas in
    sequence. *)
Lemma merge_onto_err self prev e base v :
  wf_delta self → wf_delta prev → limit prev = limit self →
  merge_onto self prev = Err e →
  apply_to prev base = Ok v → ¬ admits self v.
Proof.
  intros Hself Hprev Hlim Hm [[? ?] ->]%apply_to_ok; [|done]. unfold admits.
  revert Hself Hprev Hlim Hm.
  destruct self as [mp mn lim [x|x]], prev as [mp' mn' lim' [w|w]];
    unfold wf_delta, u128, merge_onto, shifted_max_positive_by,
      shifted_min_negative_by, update_same_sign; simpl in *;
    intros (?&?&?&?) (?&?&?&?) ?; rw ?update_different_sign_spec; delta_cases;
    intros; simplify_eq/=; lia.
Qed.

Lemma merge_onto_wf self prev m :
  wf_delta self → wf_delta prev → limit prev = limit self →
  merge_onto self prev = Ok m → wf_delta m ∧ limit m = limit self.
Proof.
  intros Hself Hprev Hlim Hm.
  destruct (merge_onto_ok self prev m) as (Hl & Hu & Hp & Hn); [done..|].
  split; [|done].
  revert Hself Hprev Hlim Hm.
  destruct self as [mp mn lim [x|x]], prev as [mp' mn' lim' [w|w]], m as [mp'' mn'' lim'' [y|y]];
    unfold wf_delta, u128, merge_onto, shifted_max_positive_by,
      shifted_min_negative_by, update_same_sign; simpl in *;
    intros (?&?&?&?) (?&?&?&?) ?; rw ?update_different_sign_spec; delta_cases;
    intros; simplify_eq/=; lia.
Qed.

Lemma agrees_refl {E T} (r : result E T) : agrees r r.
Proof. by destruct r. Qed.

Lemma agrees_trans {E F G T} (r : result E T) (s : result F T) (t : result G T) :
  agrees r s → agrees s t → agrees r t.
Proof. destruct r, s, t; naive_solver. Qed.

Lemma agrees_ok {E F T} (r : result E T) (s : result F T) v :
  agrees r s → r = Ok v ↔ s = Ok v.
Proof. destruct r, s; naive_solver. Qed.

Lemma agrees_bind {E F T U} (r : result E T) (s : result F T)
    (f : T → result E U) (g : T → result F U) :
  agrees r s → (∀ v, agrees (f v) (g v)) → agrees (r ≫= f) (s ≫= g).
Proof. destruct r, s; naive_solver. Qed.

Lemma merge_onto_agrees self prev base :
  wf_delta self → wf_delta prev → limit prev = limit self →
  agrees (m ← merge_onto self prev; apply_to m base)
         (v ← apply_to prev base; apply_to self v).
Proof.
  intros Hself Hprev Hlim.
  destruct (merge_onto self prev) as [m|e] eqn:Hm; simpl.
  - destruct (merge_onto_ok self prev m) as (Hl & Hu & Hp & Hn); [done..|].
    destruct (merge_onto_wf self prev m) as [Hwf _]; [done..|].
    rw (apply_to_spec m) // (apply_to_spec prev) //.
    assert (0 ≤ max_positive prev) by (by destruct Hprev as ((?&?)&?)).
    repeat case_decide; simpl; try rw (apply_to_spec self) //;
      repeat case_decide; simpl; try done; unfold wf_delta, u128 in *; lia.
  - destruct (apply_to prev base) as [v|e'] eqn:Hv; simpl; [|done].
    destruct (apply_to self v) as [w|e'] eqn:Hw; simpl; [|done].
    apply apply_to_ok in Hw as [? _]; [|done].
    by eapply merge_onto_err in Hm.
Qed.

(** ** Merging a run of deltas, newest first *)

(** The accumulation of [MVHashMap::read]: [acc] is merged onto each older
    delta in turn; an error is remembered. *)
Fixpoint merge_down (acc : PartialVMResult DeltaOp) (older : list DeltaOp) :
    PartialVMResult DeltaOp :=
  match older with
  | [] => acc
  | d :: older' => merge_down (a ← acc; merge_onto a d) older'
  end.

Lemma merge_down_err e older : merge_down (Err e) older = Err e.
Proof. induction older; simpl; done. Qed.

Lemma merge_down_snoc acc older d :
  merge_down acc (older ++ [d]) = a ← merge_down acc older; merge_onto a d.
Proof. revert acc; induction older as [|x older IH]; intros acc; simpl; [done|apply IH]. Qed.

Lemma apply_seq_app ds1 ds2 base :
  apply_seq (ds1 ++ ds2) base = v ← apply_seq ds1 base; apply_seq ds2 v.
Proof.
  revert base; induction ds1 as [|d ds1 IH]; intros base; simpl; [done|].
  destruct (apply_to d base); simpl; done.
Qed.

Definition same_limit (lim : Z) (ds : list DeltaOp) : Prop :=
  Forall (λ d, wf_delta d ∧ limit d = lim) ds.

Lemma merge_down_agrees lim acc older base :
  same_limit lim (acc :: older) →
  agrees (m ← merge_down (Ok acc) older; apply_to m base)
         (apply_seq (reverse older ++ [acc]) base).
Proof.
  revert acc; induction older as [|d older IH]; intros acc Hall; simpl.
  { destruct (apply_to acc base); done. }
  apply Forall_cons in Hall as [[Hacc Hla] Hall].
  apply Forall_cons in Hall as [[Hd Hld] Hall].
  assert (∀ v, agrees (m ← merge_onto acc d; apply_to m v)
                      (w ← apply_to d v; x ← apply_to acc w; Ok x)) as Hstep.
  { intros v. eapply agrees_trans; [apply merge_onto_agrees; congruence|].
    apply agrees_bind; [apply agrees_refl|]. intros w. by destruct (apply_to acc w). }
  rw reverse_cons -assoc apply_seq_app /=.
  destruct (merge_onto acc d) as [m|e] eqn:Hm; simpl in *.
  - assert (wf_delta m ∧ limit m = limit acc) as [Hwf Hl]
      by (apply (merge_onto_wf acc d); congruence).
    eapply agrees_trans; [apply IH; constructor; [split; congruence|done]|].
    rw apply_seq_app. apply agrees_bind; [apply agrees_refl|].
    intros v. specialize (Hstep v). simpl. by destruct (apply_to m v).
  - rw merge_down_err /=. destruct (apply_seq (reverse older) base) as [v|]; [|done].
    apply Hstep.
Qed.

(** ** Properties *)

(** C12: merging is exact. For two well-formed deltas with the same limit,
    applying the merged delta to a base agrees with applying the previous delta
    and then [self] (same value, or both fail); and when [merge_onto] reports an
    error, the two deltas in sequence fail on every base. *)
Theorem merge_onto_exact self prev base :
  wf_delta self → wf_delta prev → limit prev = limit self →
  agrees (m ← merge_onto self prev; apply_to m base)
         (v ← apply_to prev base; apply_to self v).
Proof. apply merge_onto_agrees. Qed.

(** The delta of the comment in [merge_onto]: [+3] that was [+99] at some point,
    on top of [+2], under limit 100. *)
Lemma merge_onto_exact_witness :
  agrees (m ← merge_onto (DeltaOp_new (Plus 3) 100 99 0) (delta_add 2 100); apply_to m 0)
         (v ← apply_to (delta_add 2 100) 0; apply_to (DeltaOp_new (Plus 3) 100 99 0) v).
Proof.
  apply (merge_onto_exact (DeltaOp_new (Plus 3) 100 99 0) (delta_add 2 100) 0);
    try reflexivity; unfold wf_delta, u128; simpl; lia.
Defined.
