(* ===== verification/Aggregator.v ===== *)
(** * The aggregator extension of the VM

    Models [aptos-move/aptos-aggregator/src/aggregator_extension.rs] (the state
    of one aggregator inside a transaction, and the table of all of them) and
    [aptos-move/framework/src/natives/aggregator_natives/context.rs] (the change
    set of a session and the squashing of two sessions).  An aggregator either
    knows its value or carries a signed delta with the extreme values it went
    through; the theorems show that working on the delta and materialising it
    later is the same as working on the value directly. *)
From S2P Require Import Prelude DeltaOp.
Local Open Scope Z_scope.

(** ** One aggregator *)

Inductive AggregatorState : Type :=
  | Data
  | PositiveDelta
  | NegativeDelta.
#[global] Instance AggregatorState_eq_dec : EqDecision AggregatorState.
Proof. solve_decision. Defined.

Record History : Type := mkHistory {
  h_max_positive : Z;
  h_min_negative : Z;
}.

Definition History_new : History := mkHistory 0 0.

Definition record_positive (h : History) (value : Z) : History :=
  mkHistory (Z.max (h_max_positive h) value) (h_min_negative h).

Definition record_negative (h : History) (value : Z) : History :=
  mkHistory (h_max_positive h) (Z.max (h_min_negative h) value).

Record Aggregator : Type := mkAggregator {
  agg_value : Z;
  agg_state : AggregatorState;
  agg_limit : Z;
  agg_history : option History;
}.

Definition set_value (v : Z) (a : Aggregator) : Aggregator :=
  mkAggregator v (agg_state a) (agg_limit a) (agg_history a).
Definition set_state (s : AggregatorState) (a : Aggregator) : Aggregator :=
  mkAggregator (agg_value a) s (agg_limit a) (agg_history a).
Definition set_history (h : option History) (a : Aggregator) : Aggregator :=
  mkAggregator (agg_value a) (agg_state a) (agg_limit a) h.

(** [Aggregator::record]; [unreachable!] when the value is known. *)
Definition record (self : Aggregator) : comp Aggregator :=
  match agg_history self with
  | Some history =>
      match agg_state self with
      | PositiveDelta => Ret (set_history (Some (record_positive history (agg_value self))) self)
      | NegativeDelta => Ret (set_history (Some (record_negative history (agg_value self))) self)
      | Data => Panic
      end
  | None => Ret self
  end.

(** A fallible operation that may also panic: the new aggregator, or the error
    with the aggregator left as it was. *)
Abbreviation agg_result := (comp (PartialVMResult Aggregator)).

Definition recorded (self : Aggregator) : agg_result := a ← record self; Ret (Ok a).

Definition add (self : Aggregator) (value : Z) : agg_result :=
  match agg_state self with
  | Data =>
      try (addition (agg_value self) value (agg_limit self)) (λ v,
      Ret (Ok (set_value v self)))
  | PositiveDelta =>
      try (addition (agg_value self) value (agg_limit self)) (λ v,
      recorded (set_value v self))
  | NegativeDelta =>
      if agg_value self <=? value
      then try (subtraction value (agg_value self)) (λ v,
           recorded (set_state PositiveDelta (set_value v self)))
      else try (subtraction (agg_value self) value) (λ v,
           recorded (set_value v self))
  end.

Definition sub (self : Aggregator) (value : Z) : agg_result :=
  match agg_state self with
  | Data =>
      try (subtraction (agg_value self) value) (λ v,
      Ret (Ok (set_value v self)))
  | PositiveDelta =>
      if agg_value self >=? value
      then try (subtraction (agg_value self) value) (λ v,
           recorded (set_value v self))
      else try (subtraction (agg_limit self) value) (λ _,
           try (subtraction value (agg_value self)) (λ v,
           recorded (set_state NegativeDelta (set_value v self))))
  | NegativeDelta =>
      try (addition (agg_value self) value (agg_limit self)) (λ v,
      recorded (set_value v self))
  end.

Definition extension_error : PartialVMError := mkPartialVMError VM_EXTENSION_ERROR None.

(** [read_and_materialize], given what the table resolver returns for the
    aggregator: [Err] when the lookup fails, [Ok None] when there is no entry. *)
Definition read_and_materialize `{BcsU128} (resolved : result unit (option bytes))
    (self : Aggregator) : comp (PartialVMResult (Aggregator * Z)) :=
  if decide (agg_state self = Data) then Ret (Ok (self, agg_value self)) else
  try (map_err (λ _, extension_error) resolved) (λ entry,
  match entry with
  | None => Ret (Err extension_error)
  | Some bs =>
      value_from_storage ← deserialize bs;
      history ← expect (agg_history self);
      try (addition value_from_storage (h_max_positive history) (agg_limit self)) (λ _,
      try (subtraction value_from_storage (h_min_negative history)) (λ _,
      match agg_state self with
      | PositiveDelta =>
          try (addition value_from_storage (agg_value self) (agg_limit self)) (λ v,
          Ret (Ok (mkAggregator v Data (agg_limit self) None, v)))
      | NegativeDelta =>
          try (subtraction value_from_storage (agg_value self)) (λ v,
          Ret (Ok (mkAggregator v Data (agg_limit self) None, v)))
      | Data => Panic
      end))
  end).

(** ** Invariant and specification of one aggregator *)

(** The signed delta an aggregator in a delta state stands for. *)
Definition agg_signed (a : Aggregator) : Z :=
  match agg_state a with NegativeDelta => - agg_value a | _ => agg_value a end.

(** Well-formed aggregators: [Data] has a known value and no history; a delta
    has a history that covers its value. *)
Definition wf_agg (a : Aggregator) : Prop :=
  u128 (agg_limit a) ∧
  match agg_state a, agg_history a with
  | Data, None => 0 ≤ agg_value a ≤ agg_limit a
  | PositiveDelta, Some h =>
      u128 (h_max_positive h) ∧ u128 (h_min_negative h) ∧
      0 ≤ agg_value a ≤ h_max_positive h
  | NegativeDelta, Some h =>
      u128 (h_max_positive h) ∧ u128 (h_min_negative h) ∧
      0 ≤ agg_value a ≤ h_min_negative h
  | _, _ => False
  end.

Inductive agg_op : Type := OpAdd (v : Z) | OpSub (v : Z).

Definition op_amount (o : agg_op) : Z := match o with OpAdd v | OpSub v => v end.

Definition run_op (o : agg_op) (a : Aggregator) : agg_result :=
  match o with OpAdd v => add a v | OpSub v => sub a v end.

(** A sequence of operations; the first error ends it. *)
Fixpoint run_ops (os : list agg_op) (a : Aggregator) : agg_result :=
  match os with
  | [] => Ret (Ok a)
  | o :: os' =>
      r ← run_op o a;
      try r (λ a', run_ops os' a')
  end.

(** The aggregator that [get_aggregator] creates, and the one that knows [base]. *)
Definition delta_aggregator (lim : Z) : Aggregator :=
  mkAggregator 0 PositiveDelta lim (Some History_new).
Definition data_aggregator (base lim : Z) : Aggregator :=
  mkAggregator base Data lim None.

(** [a] in a delta state simulates [d] that knows its value, for storage value
    [base]: its history is admissible and [d] holds [base] plus the delta. *)
Definition simulates (base : Z) (a d : Aggregator) : Prop :=
  wf_agg a ∧ agg_state a ≠ Data ∧ agg_limit d = agg_limit a ∧
  agg_state d = Data ∧ agg_history d = None ∧
  agg_value d = base + agg_signed a ∧
  ∃ h, agg_history a = Some h ∧
       h_min_negative h ≤ base ∧ base + h_max_positive h ≤ agg_limit a.

(** [a] in a delta state whose history no longer admits [base]. *)
Definition doomed (base : Z) (a : Aggregator) : Prop :=
  wf_agg a ∧ agg_state a ≠ Data ∧
  ∃ h, agg_history a = Some h ∧
       ¬ (h_min_negative h ≤ base ∧ base + h_max_positive h ≤ agg_limit a).

(** ** Lemmas on one aggregator *)

(** Case analysis on every guard of [add], [sub] and [read_and_materialize]. *)
Ltac agg_cases :=
  repeat (progress (rw ?addition_spec ?subtraction_spec ?Z.geb_leb; simpl)
          || (case_decide; simpl)
          || match goal with
             | |- context [Z.leb ?x ?y] => destruct (Z.leb_spec x y); simpl
             end).

(** Close the conjunctions of [simulates] and [doomed]. *)
Ltac agg_finish :=
  split_and!; try done; try lia; eexists; (split; [reflexivity|]); simpl; lia.

Lemma run_op_wf o a :
  wf_agg a → u128 (op_amount o) →
  ∃ r, run_op o a = Ret r ∧
       ∀ a', r = Ok a' → wf_agg a' ∧ agg_limit a' = agg_limit a ∧
                         (agg_state a' = Data ↔ agg_state a = Data).
Proof.
  unfold wf_agg, u128.
  destruct a as [v [] lim [[mp mn]|]], o as [w|w]; simpl; intros [? Hwf] ?; try done;
    unfold add, sub; agg_cases; eexists; (split; [reflexivity|]);
    intros a' ?; simplify_eq/=; (split; [|done]); lia.
Qed.

Lemma run_op_simulates base a d o :
  simulates base a d → u128 (op_amount o) → 0 ≤ base →
  match run_op o a, run_op o d with
  | Ret (Ok a'), Ret (Ok d') => simulates base a' d'
  | Ret (Ok a'), Ret (Err _) => doomed base a'
  | Ret (Err _), Ret (Err _) => True
  | _, _ => False
  end.
Proof.
  unfold simulates, doomed, wf_agg, u128, agg_signed.
  destruct a as [v [] lim [[mp mn]|]], d as [dv ds dlim dh], o as [w|w]; simpl;
    intros ([? Hwf] & Hs & -> & -> & -> & -> & h & Hh & Hadm) ? ?; try done;
    injection Hh as <-; simpl in *;
    unfold add, sub; simpl; agg_cases; try done; try lia; agg_finish.
Qed.

Lemma run_op_doomed base a o a' :
  doomed base a → u128 (op_amount o) → run_op o a = Ret (Ok a') → doomed base a'.
Proof.
  unfold doomed, wf_agg, u128.
  destruct a as [v [] lim [[mp mn]|]], o as [w|w]; simpl;
    intros ([? Hwf] & Hs & h & Hh & Hadm) ?; try done;
    injection Hh as <-; simpl in *;
    unfold add, sub, recorded; simpl; agg_cases; intros ?; simplify_eq/=; agg_finish.
Qed.

(** Operations never panic on well-formed aggregators, and keep the invariant. *)
Lemma run_ops_wf os a :
  wf_agg a → Forall (λ o, u128 (op_amount o)) os →
  ∃ r, run_ops os a = Ret r ∧
       ∀ a', r = Ok a' → wf_agg a' ∧ agg_limit a' = agg_limit a ∧
                         (agg_state a' = Data ↔ agg_state a = Data).
Proof.
  intros Hwf Hos; revert a Hwf; induction Hos as [|o os Ho Hos IH]; intros a Hwf; simpl.
  { eexists; split; [done|]. by intros a' [= <-]. }
  destruct (run_op_wf o a Hwf Ho) as ([a1|e] & -> & Ha1); simpl.
  - destruct (Ha1 a1 eq_refl) as (Hwf1 & Hl & Hd).
    destruct (IH a1 Hwf1) as (r & -> & Hr). exists r; split; [done|].
    intros a' ->. destruct (Hr a' eq_refl) as (?&?&?). split_and!; [done|congruence|].
    by rw -Hd.
  - eexists; split; [done|]. done.
Qed.

Lemma run_ops_doomed base os a a' :
  doomed base a → Forall (λ o, u128 (op_amount o)) os →
  run_ops os a = Ret (Ok a') → doomed base a'.
Proof.
  intros Hd Hos; revert a Hd; induction Hos as [|o os Ho Hos IH]; intros a Hd; simpl.
  { by intros [= <-]. }
  destruct (run_op o a) as [[a1|]|] eqn:H1; simpl; try done.
  apply IH. by eapply run_op_doomed.
Qed.

Lemma run_ops_simulates base os a d :
  simulates base a d → Forall (λ o, u128 (op_amount o)) os → 0 ≤ base →
  match run_ops os a, run_ops os d with
  | Ret (Ok a'), Ret (Ok d') => simulates base a' d'
  | Ret (Ok a'), Ret (Err _) => doomed base a'
  | Ret (Err _), Ret (Err _) => True
  | _, _ => False
  end.
Proof.
  intros Hs Hos Hb; revert a d Hs; induction Hos as [|o os Ho Hos IH]; intros a d Hs; simpl; [done|].
  pose proof (run_op_simulates base a d o Hs Ho Hb) as H1.
  destruct (run_op o a) as [[a1|]|] eqn:Ha, (run_op o d) as [[d1|]|] eqn:Hd; simpl in *; try done.
  - by apply IH.
  - destruct (run_ops_wf os a1) as ([a2|] & Hr & _); [by destruct H1|done| |].
    + rw Hr. by eapply run_ops_doomed.
    + by rw Hr.
Qed.

(** [serialize] then [deserialize] is the identity on [u128]. *)
Lemma deserialize_serialize `{BcsU128Laws} v : u128 v → deserialize (serialize v) = Ret v.
Proof. intros Hv. unfold deserialize, serialize. by rw bcs_roundtrip. Qed.

Section materialize.
Context `{BcsU128Laws}.

(** The value read from a delta, if any. *)
Definition run_and_read (os : list agg_op) (a : Aggregator) (base : Z) :
    comp (PartialVMResult Z) :=
  r ← run_ops os a;
  try r (λ a' : Aggregator,
  (fmap snd : PartialVMResult _ → _) <$>
    read_and_materialize (Ok (Some (serialize base))) a').

Lemma materialize_simulates base a d :
  simulates base a d → u128 base →
  read_and_materialize (Ok (Some (serialize base))) a =
    Ret (Ok (data_aggregator (agg_value d) (agg_limit a), agg_value d)).
Proof.
  intros Hs Hb. unfold read_and_materialize.
  destruct Hs as ([? Hwf] & Hst & Hl & Hd & Hdh & Hv & h & Hh & Hadm).
  case_decide; [done|]. simpl. rw deserialize_serialize //=. rw Hh /=.
  destruct a as [v [] lim [[mp mn]|]]; simpl in *; simplify_eq/=; unfold u128 in *;
    unfold agg_signed, data_aggregator in *; simpl in *; agg_cases;
    try lia; repeat f_equal; lia.
Qed.

Lemma materialize_doomed base a :
  doomed base a → u128 base →
  ∃ e, read_and_materialize (Ok (Some (serialize base))) a = Ret (Err e).
Proof.
  intros Hs Hb. unfold read_and_materialize.
  destruct Hs as ([? Hwf] & Hst & h & Hh & Hadm).
  case_decide; [done|]. simpl. rw deserialize_serialize //=. rw Hh /=.
  destruct a as [v [] lim [[mp mn]|]]; simpl in *; simplify_eq/=; unfold u128 in *;
    agg_cases; try lia; by eexists.
Qed.

Lemma fresh_simulates base lim :
  u128 lim → 0 ≤ base ≤ lim →
  simulates base (delta_aggregator lim) (data_aggregator base lim).
Proof.
  unfold simulates, wf_agg, u128, agg_signed; simpl. intros ? ?.
  split_and!; try done; try lia. eexists; split; [done|]; simpl; lia.
Qed.

(** C18: delta mode is exact. Running any sequence of additions and
    subtractions on a fresh delta aggregator and then materialising it against
    the stored value [base] never panics and agrees with running them on an
    aggregator that knows [base]: the same value is read, or both fail. *)
Theorem delta_aggregator_exact os base lim :
  u128 lim → 0 ≤ base ≤ lim → Forall (λ o, u128 (op_amount o)) os →
  ∃ r s, run_and_read os (delta_aggregator lim) base = Ret r ∧
         run_ops os (data_aggregator base lim) = Ret s ∧
         agrees r (agg_value <$> s).
Proof.
  intros Hlim Hb Hos. unfold run_and_read.
  assert (u128 base) by (unfold u128 in *; lia).
  pose proof (run_ops_simulates base os _ _ (fresh_simulates base lim Hlim Hb) Hos ltac:(lia)) as Hrun.
  destruct (run_ops os (delta_aggregator lim)) as [[a'|e]|],
    (run_ops os (data_aggregator base lim)) as [[d'|e']|]; simpl in *; try done.
  - rw (materialize_simulates base a' d') //=. by eexists _, _.
  - destruct (materialize_doomed base a') as [e ->]; [done..|]. by eexists _, _.
  - by eexists _, _.
Qed.
End materialize.

Lemma delta_aggregator_exact_witness :
  let ops := [OpSub 40; OpAdd 90; OpSub 10] in
  ∃ r s, @run_and_read LittleEndian.le_bcs ops (delta_aggregator 100) 50 = Ret r ∧
         run_ops ops (data_aggregator 50 100) = Ret s ∧ agrees r (agg_value <$> s).
Proof.
  apply (@delta_aggregator_exact LittleEndian.le_bcs LittleEndian.le_bcs_laws);
    unfold u128; simpl; [lia..|repeat constructor; simpl; lia].
Defined.

(** ** The aggregators of a transaction *)

Section context.
Context {AccountAddress : Type} `{Countable AccountAddress, !KeyOrder AccountAddress}.

(** [AggregatorID]: the table handle and the key, both account addresses. *)
Definition AggregatorID : Type := AccountAddress * AccountAddress.
#[global] Instance AggregatorID_eq_dec : EqDecision AggregatorID := _.
#[global] Instance AggregatorID_countable : Countable AggregatorID := _.
#[global] Instance AggregatorID_order : KeyOrder AggregatorID := _.

Record AggregatorData : Type := mkAggregatorData {
  new_aggregators : gset AggregatorID;
  destroyed_aggregators : gset AggregatorID;
  aggregators : gmap AggregatorID Aggregator;
}.

Definition AggregatorData_default : AggregatorData := mkAggregatorData ∅ ∅ ∅.

(** [get_aggregator]: the table afterwards and the aggregator under [id]. *)
Definition get_aggregator (self : AggregatorData) (id : AggregatorID) (lim : Z) :
    AggregatorData * Aggregator :=
  match aggregators self !! id with
  | Some a => (self, a)
  | None =>
      let a := mkAggregator 0 PositiveDelta lim (Some History_new) in
      (mkAggregatorData (new_aggregators self) (destroyed_aggregators self)
         (<[id := a]> (aggregators self)), a)
  end.

(** Writing back through the mutable reference [get_aggregator] returns. *)
Definition put_aggregator (self : AggregatorData) (id : AggregatorID) (a : Aggregator) :
    AggregatorData :=
  mkAggregatorData (new_aggregators self) (destroyed_aggregators self)
    (<[id := a]> (aggregators self)).

Definition create_new_aggregator (self : AggregatorData) (id : AggregatorID) (lim : Z) :
    AggregatorData :=
  mkAggregatorData ({[id]} ∪ new_aggregators self) (destroyed_aggregators self)
    (<[id := mkAggregator 0 Data lim None]> (aggregators self)).

Definition remove_aggregator (self : AggregatorData) (id : AggregatorID) : AggregatorData :=
  let aggs := delete id (aggregators self) in
  if decide (id ∈ new_aggregators self)
  then mkAggregatorData (new_aggregators self ∖ {[id]}) (destroyed_aggregators self) aggs
  else mkAggregatorData (new_aggregators self) ({[id]} ∪ destroyed_aggregators self) aggs.

(** The native functions [add], [sub] and [read] on the table (gas and argument
    decoding left out). *)
Definition native_add (data : AggregatorData) (id : AggregatorID) (lim value : Z) :
    comp (PartialVMResult AggregatorData) :=
  let '(data', a) := get_aggregator data id lim in
  r ← add a value;
  try r (λ a', Ret (Ok (put_aggregator data' id a'))).

Definition native_sub (data : AggregatorData) (id : AggregatorID) (lim value : Z) :
    comp (PartialVMResult AggregatorData) :=
  let '(data', a) := get_aggregator data id lim in
  r ← sub a value;
  try r (λ a', Ret (Ok (put_aggregator data' id a'))).

Definition native_read `{BcsU128} (resolver : AggregatorID → result unit (option bytes))
    (data : AggregatorData) (id : AggregatorID) (lim : Z) :
    comp (PartialVMResult (AggregatorData * Z)) :=
  let '(data', a) := get_aggregator data id lim in
  r ← read_and_materialize (resolver id) a;
  try r (λ av : Aggregator * Z, Ret (Ok (put_aggregator data' id av.1, av.2))).

(** ** Change sets *)

Inductive AggregatorChange : Type :=
  | Write (value : Z)
  | Merge (delta : DeltaOp)
  | Delete.

(** The body of the first loop of [into_change_set]. *)
Definition aggregator_change (a : Aggregator) : comp AggregatorChange :=
  match agg_state a with
  | Data => Ret (Write (agg_value a))
  | PositiveDelta =>
      history ← expect (agg_history a);
      Ret (Merge (DeltaOp_new (Plus (agg_value a)) (agg_limit a)
                    (h_max_positive history) (h_min_negative history)))
  | NegativeDelta =>
      history ← expect (agg_history a);
      Ret (Merge (DeltaOp_new (Minus (agg_value a)) (agg_limit a)
                    (h_max_positive history) (h_min_negative history)))
  end.

Fixpoint collect_changes (l : list (AggregatorID * Aggregator))
    (changes : gmap AggregatorID AggregatorChange) : comp (gmap AggregatorID AggregatorChange) :=
  match l with
  | [] => Ret changes
  | (id, a) :: l' =>
      change ← aggregator_change a;
      collect_changes l' (<[id := change]> changes)
  end.

Definition into_change_set (data : AggregatorData) :
    comp (gmap AggregatorID AggregatorChange) :=
  changes ← collect_changes (btree_iter (aggregators data)) ∅;
  Ret (set_fold (λ id m, <[id := Delete]> m) changes (destroyed_aggregators data)).

(** One round of the loop of [AggregatorChangeSet::squash]. *)
Definition squash_entry (entry : option AggregatorChange) (other_change : AggregatorChange) :
    comp (PartialVMResult (option AggregatorChange)) :=
  match entry with
  | None => Ret (Ok (Some other_change))
  | Some entry_mut =>
      match entry_mut, other_change with
      | (Write _ | Merge _), Write data => Ret (Ok (Some (Write data)))
      | (Write _ | Merge _), Delete => Ret (Ok (Some Delete))
      | Write data, Merge delta =>
          try (apply_to delta data) (λ new_data, Ret (Ok (Some (Write new_data))))
      | Merge delta1, Merge delta2 =>
          try (merge_onto delta2 delta1) (λ d, Ret (Ok (Some (Merge d))))
      | Delete, _ => Panic
      end
  end.

Definition squash (self other : gmap AggregatorID AggregatorChange) :
    comp (PartialVMResult (gmap AggregatorID AggregatorChange)) :=
  each map_get map_put squash_entry (btree_iter other) self.

(** What a change does to the stored value ([None]: no entry). *)
Definition apply_change (c : option AggregatorChange) (v : option Z) :
    PartialVMResult (option Z) :=
  match c with
  | None => Ok v
  | Some (Write x) => Ok (Some x)
  | Some Delete => Ok None
  | Some (Merge d) =>
      match v with
      | Some x => Some <$> apply_to d x
      | None => Err extension_error
      end
  end.

(** The deltas of both change sets are well formed, with one limit per key. *)
Definition compatible (c1 c2 : option AggregatorChange) : Prop :=
  match c1, c2 with
  | Some (Merge d1), Some (Merge d2) =>
      wf_delta d1 ∧ wf_delta d2 ∧ limit d1 = limit d2
  | _, _ => True
  end.

(** ** Lemmas on change sets *)

Lemma aggregator_change_spec a :
  wf_agg a → agg_state a ≠ Data →
  ∃ h d, agg_history a = Some h ∧ aggregator_change a = Ret (Merge d) ∧
         wf_delta d ∧ limit d = agg_limit a ∧ signed (update d) = agg_signed a ∧
         max_positive d = h_max_positive h ∧ min_negative d = h_min_negative h.
Proof.
  destruct a as [v [] lim [h|]]; unfold wf_agg; simpl; intros [? Hwf] ?; try done;
    eexists h, _; (split; [done|]); (split; [done|]); unfold wf_delta; simpl; naive_solver.
Qed.

Lemma aggregator_change_simulates base a d :
  simulates base a d →
  ∃ δ, aggregator_change a = Ret (Merge δ) ∧ wf_delta δ ∧ limit δ = agg_limit a ∧
       apply_to δ base = Ok (agg_value d).
Proof.
  intros (Hwf & Hst & Hl & Hd & Hdh & Hv & h & Hh & Hadm).
  destruct (aggregator_change_spec a) as (h' & δ & Hh' & Hc & Hδ & Hlim & Hs & Hp & Hn); [done..|].
  simplify_eq. exists δ; split_and!; [done..|].
  apply apply_to_ok; [done|]. unfold admits. rw Hs Hp Hn Hlim. done.
Qed.

Lemma aggregator_change_doomed base a :
  doomed base a →
  ∃ δ, aggregator_change a = Ret (Merge δ) ∧ wf_delta δ ∧ limit δ = agg_limit a ∧
       ∀ v, apply_to δ base ≠ Ok v.
Proof.
  intros (Hwf & Hst & h & Hh & Hadm).
  destruct (aggregator_change_spec a) as (h' & δ & Hh' & Hc & Hδ & Hlim & Hs & Hp & Hn); [done..|].
  simplify_eq. exists δ; split_and!; [done..|].
  intros v. rw apply_to_ok //. unfold admits. rw Hp Hn Hlim. naive_solver.
Qed.

(** What one round of [squash] gives. *)
Lemma squash_entry_spec c1 c2 :
  compatible c1 (Some c2) →
  match squash_entry c1 c2 with
  | Ret (Ok c) => ∀ v w, (x ← apply_change c1 v; apply_change (Some c2) x) = Ok w →
                         apply_change c v = Ok w
  | Ret (Err _) => ∀ v w, (x ← apply_change c1 v; apply_change (Some c2) x) ≠ Ok w
  | Panic => c1 = Some Delete
  end.
Proof.
  destruct c1 as [[d|d1|]|], c2 as [d2|d2|]; simpl; intros Hc; try done;
    try (intros [v|] w; simpl; try destruct (apply_to d1 v); done).
  - destruct (apply_to d2 d); simpl; naive_solver.
  - destruct Hc as (Hw1 & Hw2 & Hl).
    pose proof (merge_onto_agrees d2 d1) as Hm.
    destruct (merge_onto d2 d1) as [m|e]; simpl in *; intros [v|] w; simpl; try done.
    all: specialize (Hm v Hw2 Hw1 Hl).
    all: destruct (apply_to d1 v) as [x|]; simpl in *; try done.
    all: destruct (apply_to d2 x); simpl in *; try done.
    all: try destruct (apply_to m v); simpl in *; naive_solver.
Qed.

(** Squashing two sessions. When [squash] succeeds, the squashed change of
    every aggregator gives whatever the two changes give one after the other;
    when it fails, some aggregator's two changes fail in sequence on every stored
    value; it panics only if the second session touched an aggregator the first
    one had deleted. *)
Theorem squash_sequential self other :
  (∀ id, compatible (self !! id) (other !! id)) →
  match squash self other with
  | Ret (Ok m) => ∀ id v w,
      (x ← apply_change (self !! id) v; apply_change (other !! id) x) = Ok w →
      apply_change (m !! id) v = Ok w
  | Ret (Err _) => ∃ id, ∀ v w,
      (x ← apply_change (self !! id) v; apply_change (other !! id) x) ≠ Ok w
  | Panic => ∃ id, self !! id = Some Delete ∧ is_Some (other !! id)
  end.
Proof.
  intros Hc. unfold squash.
  pose proof (each_spec map_get map_put squash_entry map_get_put_eq map_get_put_ne
                (btree_iter other) self (NoDup_btree_iter other)) as Hl.
  unfold map_get in Hl.
  destruct (each _ _ _ _ _) as [[m|e]|].
  - intros id v w. destruct (Hl id) as [Hl1 Hl2]. specialize (Hc id).
    destruct (other !! id) as [c2|] eqn:Ho.
    + pose proof (squash_entry_spec _ _ Hc) as Hsp.
      apply elem_of_btree_iter, Hl2 in Ho. rw Ho in Hsp. apply Hsp.
    + rw Hl1; [|by destruct (apply_change _ v)].
      rw list_elem_of_fmap. intros ([k c] & -> & Hin%elem_of_btree_iter). simpl in *. congruence.
  - destruct Hl as (id & c2 & Hin%elem_of_btree_iter & Hs). exists id.
    specialize (Hc id). rw Hin in Hc. rw Hin.
    pose proof (squash_entry_spec _ _ Hc) as Hsp. by rw Hs in Hsp.
  - destruct Hl as (id & c2 & Hin%elem_of_btree_iter & Hs). exists id.
    specialize (Hc id). rw Hin in Hc.
    pose proof (squash_entry_spec _ _ Hc) as Hsp. rw Hs in Hsp. eauto.
Qed.
End context.

(** The delta a session emits is exact. After any sequence of additions and
    subtractions that succeeds on a fresh delta aggregator, the session's change
    is a well-formed delta, and applying it to a stored value agrees with having
    run the operations on that value. *)
Theorem session_delta_exact os lim a base :
  u128 lim → 0 ≤ base ≤ lim → Forall (λ o, u128 (op_amount o)) os →
  run_ops os (delta_aggregator lim) = Ret (Ok a) →
  ∃ d s, aggregator_change a = Ret (Merge d) ∧ wf_delta d ∧ limit d = lim ∧
         run_ops os (data_aggregator base lim) = Ret s ∧
         agrees (apply_to d base) (agg_value <$> s).
Proof.
  intros Hlim Hb Hos Hrun.
  pose proof (run_ops_simulates base os _ _ (fresh_simulates base lim Hlim Hb) Hos ltac:(lia)) as Hs.
  destruct (run_ops_wf os (delta_aggregator lim)) as (r & Hr & Hwf);
    [by apply (fresh_simulates base lim)|done|].
  rw Hrun in Hs. rw Hrun in Hr. injection Hr as <-.
  destruct (Hwf a eq_refl) as (_ & Hl & _). simpl in Hl.
  destruct (run_ops os (data_aggregator base lim)) as [[d'|e]|]; try done.
  - destruct (aggregator_change_simulates base a d' Hs) as (δ & Hc & Hδ & Hlδ & Ha).
    eexists δ, _; do 2 (split; [done|]); split; [congruence|]; split; [done|]. by rw Ha.
  - destruct (aggregator_change_doomed base a Hs) as (δ & Hc & Hδ & Hlδ & Ha).
    eexists δ, _; do 2 (split; [done|]); split; [congruence|]; split; [done|].
    destruct (apply_to δ base) as [t|]; [|done]. by destruct (Ha t).
Qed.

Lemma session_delta_exact_witness :
  let ops := [OpSub 40; OpAdd 90; OpSub 10] in
  let a := mkAggregator 40 PositiveDelta 100 (Some (mkHistory 50 40)) in
  ∃ d s, aggregator_change a = Ret (Merge d) ∧ wf_delta d ∧ limit d = 100 ∧
         run_ops ops (data_aggregator 50 100) = Ret s ∧ agrees (apply_to d 50) (agg_value <$> s).
Proof.
  apply session_delta_exact; unfold u128; simpl; [lia..|repeat constructor; simpl; lia|reflexivity].
Defined.

Lemma squash_sequential_witness :
  let self : gmap (Z * Z) AggregatorChange := {[ (1, 1) := Merge (delta_add 5 100) ]} in
  let other : gmap (Z * Z) AggregatorChange := {[ (1, 1) := Merge (delta_sub 2 100) ]} in
  match squash self other with
  | Ret (Ok m) => ∀ id v w,
      (x ← apply_change (self !! id) v; apply_change (other !! id) x) = Ok w →
      apply_change (m !! id) v = Ok w
  | Ret (Err _) => ∃ id, ∀ v w,
      (x ← apply_change (self !! id) v; apply_change (other !! id) x) ≠ Ok w
  | Panic => ∃ id, self !! id = Some Delete ∧ is_Some (other !! id)
  end.
Proof.
  apply (squash_sequential (AccountAddress := Z)). intros id.
  destruct (decide (id = (1, 1))) as [->|Hne].
  - rw !lookup_singleton_eq. simpl. unfold wf_delta, u128; simpl. lia.
  - rw !lookup_singleton_ne //.
Defined.
