(* ===== verification/WriteSet.v ===== *)
(** * Write sets, change sets and transaction outputs

    Models [types/src/write_set.rs], the change set of
    [types/src/transaction/change_set.rs], the materialisation of deltas in
    [aptos-aggregator/src/delta_change_set.rs] and their combination in
    [aptos-aggregator/src/transaction.rs].  Squashing two change sets is shown
    to be their sequential composition on every stored value. *)
From S2P Require Import Prelude DeltaOp.
Local Open Scope Z_scope.

(** ** Write operations *)

Inductive WriteOp : Type :=
  | Creation (data : bytes)
  | Modification (data : bytes)
  | Deletion.
#[global] Instance WriteOp_eq_dec : EqDecision WriteOp.
Proof. solve_decision. Defined.

(** The trait [TransactionWrite]. *)
Class TransactionWrite (V : Type) : Type := {
  extract_raw_bytes : V → option bytes;
}.

#[global] Instance WriteOp_transaction_write : TransactionWrite WriteOp := {
  extract_raw_bytes op :=
    match op with Creation v | Modification v => Some v | Deletion => None end;
}.

(** [AggregatorValue::from_write]. *)
Definition from_write `{BcsU128, TransactionWrite V} (write : V) : comp (option Z) :=
  match extract_raw_bytes write with
  | Some bs => Some <$> deserialize bs
  | None => Ret None
  end.

(** The errors of squashing ([anyhow::Error] in the source). *)
Inductive SquashError (VMStatus : Type) : Type :=
  | CannotSquash
  | AlreadyDeleted
  | BcsError
  | DeltaError (e : PartialVMError)
  | CheckError (e : VMStatus).
Arguments CannotSquash {VMStatus}.
Arguments AlreadyDeleted {VMStatus}.
Arguments BcsError {VMStatus}.
Arguments DeltaError {VMStatus} e.
Arguments CheckError {VMStatus} e.

(** The occupied-entry case shared by [WriteSetMut::squash] and
    [ChangeSetExt::squash_change_set]; [None] removes the entry. *)
Definition squash_occupied {S} (r op : WriteOp) : result (SquashError S) (option WriteOp) :=
  match r, op with
  | (Modification _ | Creation _), Creation _ => Err CannotSquash
  | Deletion, (Deletion | Modification _) => Err CannotSquash
  | Modification _, Modification data => Ok (Some (Modification data))
  | Creation _, Modification data => Ok (Some (Creation data))
  | Modification _, Deletion => Ok (Some Deletion)
  | Deletion, Creation data => Ok (Some (Modification data))
  | Creation _, Deletion => Ok None
  end.

Section writeset.
Context {StateKey : Type} `{Countable StateKey, !KeyOrder StateKey}.
Context {VMStatus ContractEvent : Type}.

Abbreviation WriteSetMut := (gmap StateKey WriteOp).
Abbreviation DeltaChangeSet := (gmap StateKey DeltaOp).
Abbreviation squash_result := (result (SquashError VMStatus)).

(** One round of the loop of [WriteSetMut::squash]. *)
Definition WriteSetMut_squash_entry (entry : option WriteOp) (op : WriteOp) :
    comp (squash_result (option WriteOp)) :=
  match entry with
  | Some r => Ret (squash_occupied r op)
  | None => Ret (Ok (Some op))
  end.

Definition WriteSetMut_squash (self other : WriteSetMut) : comp (squash_result WriteSetMut) :=
  each map_get map_put WriteSetMut_squash_entry (btree_iter other) self.

(** ** Change sets *)

Record ChangeSet : Type := mkChangeSet {
  cs_write_set : WriteSetMut;
  cs_events : list ContractEvent;
}.

(** [ChangeSet::new] with the given [CheckChangeSet]. *)
Definition ChangeSet_new (write_set : WriteSetMut) (events : list ContractEvent)
    (checker : ChangeSet → result VMStatus unit) : squash_result ChangeSet :=
  let myself := mkChangeSet write_set events in
  match checker myself with
  | Ok _ => Ok myself
  | Err e => Err (CheckError e)
  end.

Record ChangeSetExt : Type := mkChangeSetExt {
  delta_change_set : DeltaChangeSet;
  change_set : ChangeSet;
  checker : ChangeSet → result VMStatus unit;
}.

(** The two entries of a key: in the write set and in the delta set. *)
Definition slot : Type := option WriteOp * option DeltaOp.
Definition slots_get (s : WriteSetMut * DeltaChangeSet) (k : StateKey) : slot :=
  (map_get s.1 k, map_get s.2 k).
Definition slots_put (s : WriteSetMut * DeltaChangeSet) (k : StateKey) (x : slot) :
    WriteSetMut * DeltaChangeSet :=
  (map_put s.1 k x.1, map_put s.2 k x.2).

(** One round of the loop of [squash_delta_change_set]. *)
Definition squash_delta_entry `{BcsU128} (s : slot) (op : DeltaOp) : comp (squash_result slot) :=
  match s.1 with
  | Some (Creation data) =>
      match bcs_from_bytes data with
      | None => Ret (Err BcsError)
      | Some val =>
          try (map_err DeltaError (apply_to op val)) (λ v,
          Ret (Ok (Some (Creation (bcs_to_bytes v)), s.2)))
      end
  | Some (Modification data) =>
      match bcs_from_bytes data with
      | None => Ret (Err BcsError)
      | Some val =>
          try (map_err DeltaError (apply_to op val)) (λ v,
          Ret (Ok (Some (Modification (bcs_to_bytes v)), s.2)))
      end
  | Some Deletion => Ret (Err AlreadyDeleted)
  | None =>
      match s.2 with
      | Some entry =>
          try (map_err DeltaError (merge_onto op entry)) (λ d, Ret (Ok (None, Some d)))
      | None => Ret (Ok (None, Some op))
      end
  end.

Definition squash_delta_change_set `{BcsU128} (self : ChangeSetExt) (other : DeltaChangeSet) :
    comp (squash_result ChangeSetExt) :=
  r ← each slots_get slots_put squash_delta_entry (btree_iter other)
        (cs_write_set (change_set self), delta_change_set self);
  try r (λ s : WriteSetMut * DeltaChangeSet,
  try (ChangeSet_new s.1 (cs_events (change_set self)) (checker self)) (λ cs,
  Ret (Ok (mkChangeSetExt s.2 cs (checker self))))).

(** One round of the loop of [squash_change_set]. *)
Definition squash_change_entry (s : slot) (op : WriteOp) : comp (squash_result slot) :=
  match s.1 with
  | Some r => try (squash_occupied r op) (λ w, Ret (Ok (w, s.2)))
  | None => Ret (Ok (Some op, None))
  end.

Definition squash_change_set (self : ChangeSetExt) (other : ChangeSet) :
    comp (squash_result ChangeSetExt) :=
  r ← each slots_get slots_put squash_change_entry (btree_iter (cs_write_set other))
        (cs_write_set (change_set self), delta_change_set self);
  try r (λ s : WriteSetMut * DeltaChangeSet,
  try (ChangeSet_new s.1 (cs_events (change_set self) ++ cs_events other) (checker self)) (λ cs,
  Ret (Ok (mkChangeSetExt s.2 cs (checker self))))).

Definition ChangeSetExt_squash `{BcsU128} (self other : ChangeSetExt) :
    comp (squash_result ChangeSetExt) :=
  r ← squash_change_set self (change_set other);
  try r (λ self', squash_delta_change_set self' (delta_change_set other)).

(** ** Materialising deltas *)

(** [DeltaOp::try_into_write_op], with the VM status of an error reduced to its code. *)
Definition try_into_write_op `{BcsU128} (state_view : StateKey → result unit (option bytes))
    (self : DeltaOp) (state_key : StateKey) : comp (PartialVMResult WriteOp) :=
  match state_view state_key with
  | Err _ => Ret (Err (mkPartialVMError STORAGE_ERROR None))
  | Ok (Some bs) =>
      base ← deserialize bs;
      Ret ((λ result, Modification (serialize result)) <$> apply_to self base)
  | Ok None => Ret (Err (mkPartialVMError STORAGE_ERROR None))
  end.

Fixpoint materialize_loop `{BcsU128} (state_view : StateKey → result unit (option bytes))
    (l : list (StateKey * DeltaOp)) (acc : list (StateKey * WriteOp)) :
    comp (PartialVMResult (list (StateKey * WriteOp))) :=
  match l with
  | [] => Ret (Ok acc)
  | (state_key, delta_op) :: l' =>
      r ← try_into_write_op state_view delta_op state_key;
      try r (λ write_op, materialize_loop state_view l' (acc ++ [(state_key, write_op)]))
  end.

(** [DeltaChangeSet::try_into_write_set_mut]. *)
Definition try_into_write_set_mut `{BcsU128} (state_view : StateKey → result unit (option bytes))
    (self : DeltaChangeSet) : comp (PartialVMResult WriteSetMut) :=
  r ← materialize_loop state_view (btree_iter self) [];
  Ret ((list_to_map ∘ reverse) <$> (r : PartialVMResult (list (StateKey * WriteOp)))).

(** ** Transaction outputs *)

Inductive TransactionStatus : Type :=
  | Discard (e : VMStatus)
  | Keep (e : VMStatus)
  | Retry.

Definition is_discarded (s : TransactionStatus) : bool :=
  match s with Discard _ => true | Keep _ => false | Retry => true end.

Record TransactionOutput : Type := mkTransactionOutput {
  out_write_set : WriteSetMut;
  out_events : list ContractEvent;
  out_gas_used : Z;
  out_status : TransactionStatus;
}.

Record TransactionOutputExt : Type := mkTransactionOutputExt {
  ext_delta_change_set : DeltaChangeSet;
  ext_output : TransactionOutput;
}.

(** [merge_delta_writes]: panics when the squash fails. *)
Definition merge_delta_writes (output : TransactionOutput) (delta_writes : WriteSetMut) :
    comp TransactionOutput :=
  r ← WriteSetMut_squash (out_write_set output) delta_writes;
  match r with
  | Ok write_set => Ret (mkTransactionOutput write_set (out_events output)
                           (out_gas_used output) (out_status output))
  | Err _ => Panic
  end.

Definition into_transaction_output `{BcsU128} (state_view : StateKey → result unit (option bytes))
    (self : TransactionOutputExt) : comp TransactionOutput :=
  if is_discarded (out_status (ext_output self))
     || bool_decide (ext_delta_change_set self = ∅)
  then Ret (ext_output self)
  else
    r ← try_into_write_set_mut state_view (ext_delta_change_set self);
    match r with
    | Ok materialized_deltas => merge_delta_writes (ext_output self) materialized_deltas
    | Err _ => Panic
    end.

Definition output_with_delta_writes (self : TransactionOutputExt) (delta_writes : WriteSetMut) :
    comp TransactionOutput :=
  if is_discarded (out_status (ext_output self))
     || bool_decide (ext_delta_change_set self = ∅)
  then Ret (ext_output self)
  else
    _ ← rust_assert (size (ext_delta_change_set self) =? size delta_writes)%nat;
    merge_delta_writes (ext_output self) delta_writes.

(** ** Specification: changes as partial functions on the stored value *)

(** A write is valid on a stored value: creations on absent entries,
    modifications and deletions on present ones. *)
Definition valid_write (op : WriteOp) (v : option bytes) : Prop :=
  match op with Creation _ => v = None | _ => is_Some v end.

#[global] Instance valid_write_dec op v : Decision (valid_write op v).
Proof. destruct op; simpl; apply _. Defined.

(** What a slot does to the stored value; [None] when it is not applicable. *)
Definition apply_slot `{BcsU128} (s : slot) (v : option bytes) : option (option bytes) :=
  match s with
  | (None, None) => Some v
  | (Some op, None) => if decide (valid_write op v) then Some (extract_raw_bytes op) else None
  | (None, Some d) =>
      match v ≫= bcs_from_bytes with
      | Some x => match apply_to d x with Ok y => Some (Some (bcs_to_bytes y)) | Err _ => None end
      | None => None
      end
  | (Some _, Some _) => None
  end.

(** Deltas on one key are well formed and share their limit. *)
Definition slots_compatible (s1 s2 : slot) : Prop :=
  match s1.2, s2.2 with
  | Some d1, Some d2 => wf_delta d1 ∧ wf_delta d2 ∧ limit d1 = limit d2
  | None, Some d2 => wf_delta d2
  | Some d1, None => wf_delta d1
  | None, None => True
  end.

Definition ext_slot (c : ChangeSetExt) (k : StateKey) : slot :=
  slots_get (cs_write_set (change_set c), delta_change_set c) k.

Lemma ext_slot_lookup c k :
  ext_slot c k = (cs_write_set (change_set c) !! k, delta_change_set c !! k).
Proof. done. Qed.

(** ** Lemmas *)

Lemma slots_get_put_eq s k x : slots_get (slots_put s k x) k = x.
Proof. unfold slots_get, slots_put; simpl. rw !map_get_put_eq. by destruct x. Qed.
Lemma slots_get_put_ne s k k' x : k ≠ k' → slots_get (slots_put s k x) k' = slots_get s k'.
Proof. intros ?. unfold slots_get, slots_put; simpl. by rw !map_get_put_ne. Qed.

Context `{BcsU128Laws}.

Lemma squash_change_entry_ok s v x op :
  apply_slot s v = Some x → valid_write op x →
  ∃ s', squash_change_entry s op = Ret (Ok s') ∧ apply_slot s' v = Some (extract_raw_bytes op).
Proof.
  destruct s as [[r|] [d|]]; simpl; try done.
  - case_decide as Hv; [|done]. intros [= <-] Hop.
    destruct r, op; simpl in *; try done; try (by destruct Hop); eexists; (split; [reflexivity|]);
      simpl; rw ?Hv; try case_decide; naive_solver.
  - destruct v as [b|]; simpl; [|done].
    destruct (bcs_from_bytes b); [|done]. destruct (apply_to d _); [|done].
    intros [= <-] Hop. destruct op; simpl in *; [done|..]; eexists; (split; [reflexivity|]);
      simpl; try case_decide; naive_solver.
  - intros [= <-] Hop. eexists; split; [reflexivity|]. simpl. by case_decide.
Qed.

Lemma squash_delta_entry_ok s v x d y :
  slots_compatible s (None, Some d) →
  apply_slot s v = Some x → apply_slot (None, Some d) x = Some y →
  ∃ s', squash_delta_entry s d = Ret (Ok s') ∧ apply_slot s' v = Some y.
Proof.
  destruct s as [[r|] [d1|]]; simpl; try done; intros Hc.
  - case_decide as Hv; [|done]. intros [= <-].
    destruct r as [b|b|]; simpl in *; [..|done];
      destruct (bcs_from_bytes b) as [z|] eqn:Hb; try done;
      unfold squash_delta_entry; simpl; rw Hb;
      destruct (apply_to d z) as [w|] eqn:Hw; try done; intros [= <-]; simpl;
      (eexists; split; [reflexivity|]); simpl; by case_decide.
  - destruct Hc as (Hw1 & Hw2 & Hl).
    destruct v as [b|]; simpl; [|done].
    destruct (bcs_from_bytes b) as [z|] eqn:Hb; [|done].
    destruct (apply_to d1 z) as [w|] eqn:Hw; [|done]. intros [= <-]. simpl.
    apply apply_to_range in Hw as Hr; [|done].
    rw bcs_roundtrip; [unfold wf_delta, u128 in *; lia|].
    destruct (apply_to d w) as [t|] eqn:Ht; [|done]. intros [= <-].
    pose proof (merge_onto_agrees d d1 z Hw2 Hw1 Hl) as Hm. rw Hw /= Ht in Hm.
    unfold squash_delta_entry; simpl.
    destruct (merge_onto d d1) as [m|]; simpl in *; [|done].
    eexists; split; [reflexivity|]; simpl. rw Hb.
    destruct (apply_to m z); simpl in *; naive_solver.
  - intros [= <-]. destruct v as [b|]; simpl; [|done].
    destruct (bcs_from_bytes b) as [z|] eqn:Hb; [|done].
    intros Hy. eexists; split; [reflexivity|]; simpl. by rw Hb.
Qed.

(** A loop of [each] whose every round succeeds on the initial slots succeeds. *)
Lemma each_slots_ok {B} (f : slot → B → comp (squash_result slot)) (m : gmap StateKey B) s :
  (∀ k b, m !! k = Some b → ∃ x, f (slots_get s k) b = Ret (Ok x)) →
  ∃ s', each slots_get slots_put f (btree_iter m) s = Ret (Ok s') ∧
    ∀ k, match m !! k with
         | Some b => f (slots_get s k) b = Ret (Ok (slots_get s' k))
         | None => slots_get s' k = slots_get s k
         end.
Proof.
  intros Hok.
  pose proof (each_spec slots_get slots_put f slots_get_put_eq slots_get_put_ne
                (btree_iter m) s (NoDup_btree_iter m)) as Hl.
  destruct (each _ _ _ _ _) as [[s'|e]|].
  - exists s'; split; [done|]. intros k. destruct (Hl k) as [Hl1 Hl2].
    destruct (m !! k) as [b|] eqn:Hk; [by apply Hl2, elem_of_btree_iter|].
    apply Hl1. rw list_elem_of_fmap. intros ([k' b] & -> & Hin%elem_of_btree_iter).
    simpl in *. congruence.
  - destruct Hl as (k & b & Hin%elem_of_btree_iter & Hf).
    destruct (Hok k b Hin) as [x Hx]. congruence.
  - destruct Hl as (k & b & Hin%elem_of_btree_iter & Hf).
    destruct (Hok k b Hin) as [x Hx]. congruence.
Qed.

Lemma apply_slot_write_only w d v x :
  apply_slot (w, d) v = Some x → w = None ∨ d = None.
Proof. destruct w, d; naive_solver. Qed.

(** Squashing change sets is sequential composition. If on a given state
    the changes of [self] and then of [other] are applicable key by key, the
    squash succeeds (no bail-out, no panic), the events are concatenated, and the
    squashed change set takes every stored value where the two changes in
    sequence take it. *)
Theorem ChangeSetExt_squash_sequential (self other : ChangeSetExt)
    (st st' : StateKey → option bytes) :
  (∀ cs, checker self cs = Ok tt) →
  (∀ k, slots_compatible (ext_slot self k) (ext_slot other k)) →
  (∀ k, (x ← apply_slot (ext_slot self k) (st k); apply_slot (ext_slot other k) x) = Some (st' k)) →
  ∃ r, ChangeSetExt_squash self other = Ret (Ok r) ∧
       cs_events (change_set r) = cs_events (change_set self) ++ cs_events (change_set other) ∧
       ∀ k, apply_slot (ext_slot r k) (st k) = Some (st' k).
Proof.
  intros Hchk Hcomp Hseq. unfold ChangeSetExt_squash, squash_change_set.
  set (s0 := (cs_write_set (change_set self), delta_change_set self)) in *.
  destruct (each_slots_ok squash_change_entry (cs_write_set (change_set other)) s0)
    as (s1 & -> & Hs1).
  { intros k op Hop. specialize (Hseq k). apply bind_Some in Hseq as (x & Hx & Hseq).
    change (apply_slot (slots_get s0 k) (st k) = Some x) in Hx.
    rw (ext_slot_lookup other k) Hop in Hseq.
    destruct (delta_change_set other !! k); simpl in Hseq; [done|].
    case_decide as Hv; [|done].
    destruct (squash_change_entry_ok _ _ _ op Hx Hv) as (s' & -> & _). eauto. }
  simpl. unfold ChangeSet_new. rw Hchk /=. unfold squash_delta_change_set; simpl.
  rw -(surjective_pairing s1).
  assert (∀ k d, delta_change_set other !! k = Some d →
            slots_get s1 k = slots_get s0 k ∧ ext_slot other k = (None, Some d)) as Hdelta.
  { intros k d Hd. specialize (Hseq k). specialize (Hs1 k).
    apply bind_Some in Hseq as (x & Hx & Hseq).
    change (apply_slot (slots_get s0 k) (st k) = Some x) in Hx.
    rw (ext_slot_lookup other k) Hd in Hseq. rw (ext_slot_lookup other k) Hd.
    destruct (cs_write_set (change_set other) !! k); simpl in *; [done|]. done. }
  destruct (each_slots_ok squash_delta_entry (delta_change_set other) s1) as (s2 & -> & Hs2).
  { intros k d Hd. destruct (Hdelta k d Hd) as [-> Ho]. specialize (Hseq k). specialize (Hcomp k).
    change (slots_compatible (slots_get s0 k) (ext_slot other k)) in Hcomp.
    apply bind_Some in Hseq as (x & Hx & Hseq).
    change (apply_slot (slots_get s0 k) (st k) = Some x) in Hx. rw Ho in Hseq, Hcomp.
    destruct (squash_delta_entry_ok _ _ _ d _ Hcomp Hx Hseq) as (s' & -> & _). eauto. }
  simpl. unfold ChangeSet_new. rw Hchk /=. eexists; split; [reflexivity|]. split; [done|].
  intros k. change (apply_slot (slots_get s2 k) (st k) = Some (st' k)).
  specialize (Hs1 k). specialize (Hs2 k). specialize (Hseq k). specialize (Hcomp k).
  change (slots_compatible (slots_get s0 k) (ext_slot other k)) in Hcomp.
  apply bind_Some in Hseq as (x & Hx & Hseq).
  change (apply_slot (slots_get s0 k) (st k) = Some x) in Hx.
  destruct (delta_change_set other !! k) as [d|] eqn:Hd.
  - destruct (Hdelta k d Hd) as [Heq Ho]. rw Ho in Hseq, Hcomp. rw Heq in Hs2.
    destruct (squash_delta_entry_ok _ _ _ d _ Hcomp Hx Hseq) as (s' & Hs' & Ha).
    rw Hs' in Hs2. injection Hs2 as <-. exact Ha.
  - rw Hs2. rw (ext_slot_lookup other k) Hd in Hseq.
    destruct (cs_write_set (change_set other) !! k) as [op|] eqn:Hop; simpl in Hseq.
    + case_decide as Hv; [|done]. injection Hseq as <-.
      destruct (squash_change_entry_ok _ _ _ op Hx Hv) as (s' & Hs' & Ha).
      rw Hs' in Hs1. injection Hs1 as <-. exact Ha.
    + rw Hs1 Hx. done.
Qed.
End writeset.

(** A key created by the first change set and incremented by the second one. *)
Lemma ChangeSetExt_squash_sequential_witness :
  let to_bytes := LittleEndian.encode 16 in
  let accept : @ChangeSet Z _ _ unit → result unit unit := λ _, Ok tt in
  let self := mkChangeSetExt ∅ (mkChangeSet {[ 1 := Creation (to_bytes 5) ]} [tt]) accept in
  let other := mkChangeSetExt {[ 1 := delta_add 3 100 ]} (mkChangeSet ∅ []) accept in
  ∃ r, @ChangeSetExt_squash Z _ _ _ unit unit LittleEndian.le_bcs self other = Ret (Ok r) ∧
       cs_events (change_set r) = [tt] ∧
       ∀ k, @apply_slot LittleEndian.le_bcs (ext_slot r k) None =
            Some (if decide (k = 1) then Some (to_bytes 8) else None).
Proof.
  intros to_bytes accept self other.
  apply (@ChangeSetExt_squash_sequential Z _ _ _ unit unit LittleEndian.le_bcs
           LittleEndian.le_bcs_laws self other (λ _, None)
           (λ k, if decide (k = 1) then Some (LittleEndian.encode 16 8) else None)).
  - done.
  - intros k. rw !ext_slot_lookup /=. destruct (decide (k = 1)) as [->|Hne].
    + change (wf_delta (delta_add 3 100)). unfold wf_delta, u128; simpl. lia.
    + rw !lookup_singleton_ne //.
  - intros k. rw !ext_slot_lookup; simpl change_set; simpl delta_change_set; simpl cs_write_set.
    destruct (decide (k = 1)) as [->|Hne].
    + rw !lookup_empty !lookup_singleton_eq. vm_compute. reflexivity.
    + rw !lookup_empty !lookup_singleton_ne //.
Defined.
