(* ===== verification/MVHashMap.v ===== *)
(** * The multi-version data structure

    Models [aptos-move/mvhashmap/src/lib.rs]: per key, the entries written by
    the transactions of the block, each with an estimate flag; a read by
    transaction [i] scans the entries below [i] from the top, accumulating deltas
    until it meets a write.  Concurrent maps are modelled by their sequential
    contents: every method of the source holds the map's lock on its key for the
    time it accesses it, so a method is one atomic step. *)
From S2P Require Import Prelude DeltaOp WriteSet.
Local Open Scope nat_scope.

Abbreviation TxnIndex := nat (only parsing).
Abbreviation Incarnation := nat (only parsing).
Abbreviation Version := (nat * nat)%type (only parsing).

Definition FLAG_DONE : nat := 0.
Definition FLAG_ESTIMATE : nat := 1.

Inductive EntryCell (V : Type) : Type :=
  | Write (incarnation : Incarnation) (data : V)
  | Delta (delta : DeltaOp).
Arguments Write {V} incarnation data.
Arguments Delta {V} delta.

Record Entry (V : Type) : Type := mkEntry {
  flag : nat;
  cell : EntryCell V;
}.
Arguments mkEntry {V} flag cell.
Arguments flag {V} e : rename.
Arguments cell {V} e : rename.

Definition new_write_from {V} (f : nat) (incarnation : Incarnation) (data : V) : Entry V :=
  mkEntry f (Write incarnation data).
Definition new_delta_from {V} (f : nat) (data : DeltaOp) : Entry V :=
  mkEntry f (Delta data).
Definition Entry_mark_estimate {V} (e : Entry V) : Entry V := mkEntry FLAG_ESTIMATE (cell e).

Record VersionedValue (V : Type) : Type := mkVersionedValue {
  versioned_map : gmap TxnIndex (Entry V);
  contains_delta : bool;
}.
Arguments mkVersionedValue {V} versioned_map contains_delta.
Arguments versioned_map {V} v : rename.
Arguments contains_delta {V} v : rename.

Definition VersionedValue_default {V} : VersionedValue V := mkVersionedValue ∅ false.

Inductive MVHashMapError : Type :=
  | NotFound
  | Unresolved (delta : DeltaOp)
  | Dependency (dep : TxnIndex)
  | DeltaApplicationFailure.

Inductive MVHashMapOutput (V : Type) : Type :=
  | Resolved (value : Z)
  | VersionOutput (version : Version) (data : V).
Arguments Resolved {V} value.
Arguments VersionOutput {V} version data.

Section mvhashmap.
Context {K V : Type} `{Countable K, TransactionWrite V, BcsU128}.

Record MVHashMap : Type := mkMVHashMap {
  data : gmap K (VersionedValue V);
  delta_keys : list K;
}.

Definition MVHashMap_new : MVHashMap := mkMVHashMap ∅ [].

(** [self.data.entry(key).or_default()]. *)
Definition entry_or_default (self : MVHashMap) (key : K) : VersionedValue V :=
  default VersionedValue_default (data self !! key).

Definition entry_map_for_key (self : MVHashMap) (key : K) :
    MVHashMap * option (gmap TxnIndex (Entry V)) :=
  (mkMVHashMap (delete key (data self)) (delta_keys self),
   versioned_map <$> data self !! key).

Definition aggregator_keys (self : MVHashMap) : MVHashMap * list K :=
  (mkMVHashMap (data self) [], delta_keys self).

(** The assertion of [add_write]: an overwritten write has a lower incarnation. *)
Definition lower_incarnation (prev_entry : option (Entry V)) (incarnation : Incarnation) : bool :=
  match prev_entry with
  | Some entry => match cell entry with Write i _ => i <? incarnation | Delta _ => true end
  | None => true
  end.

Definition add_write (self : MVHashMap) (key : K) (version : Version) (value : V) :
    comp MVHashMap :=
  let '(txn_idx, incarnation) := version in
  let v := entry_or_default self key in
  let prev_entry := versioned_map v !! txn_idx in
  let v' := mkVersionedValue
              (<[txn_idx := new_write_from FLAG_DONE incarnation value]> (versioned_map v))
              (contains_delta v) in
  _ ← rust_assert (lower_incarnation prev_entry incarnation);
  Ret (mkMVHashMap (<[key := v']> (data self)) (delta_keys self)).

Definition add_delta (self : MVHashMap) (key : K) (txn_idx : TxnIndex) (delta : DeltaOp) :
    MVHashMap :=
  let v := entry_or_default self key in
  let m := <[txn_idx := new_delta_from FLAG_DONE delta]> (versioned_map v) in
  if contains_delta v
  then mkMVHashMap (<[key := mkVersionedValue m true]> (data self)) (delta_keys self)
  else mkMVHashMap (<[key := mkVersionedValue m true]> (data self)) (delta_keys self ++ [key]).

Definition mark_estimate (self : MVHashMap) (key : K) (txn_idx : TxnIndex) : comp MVHashMap :=
  v ← expect (data self !! key);
  e ← expect (versioned_map v !! txn_idx);
  Ret (mkMVHashMap
         (<[key := mkVersionedValue (<[txn_idx := Entry_mark_estimate e]> (versioned_map v))
                     (contains_delta v)]> (data self))
         (delta_keys self)).

Definition mv_delete (self : MVHashMap) (key : K) (txn_idx : TxnIndex) : comp MVHashMap :=
  v ← expect (data self !! key);
  Ret (mkMVHashMap
         (<[key := mkVersionedValue (delete txn_idx (versioned_map v)) (contains_delta v)]>
            (data self))
         (delta_keys self)).

(** The traversal of [read], over the entries from the highest index down; the
    accumulator holds the merged deltas seen so far, or the fact that merging
    failed. *)
Fixpoint read_loop (iter : list (TxnIndex * Entry V)) (accumulator : option (result unit DeltaOp)) :
    comp (result MVHashMapError (MVHashMapOutput V)) :=
  match iter with
  | [] =>
      match accumulator with
      | Some (Ok a) => Ret (Err (Unresolved a))
      | Some (Err _) => Ret (Err DeltaApplicationFailure)
      | None => Ret (Err NotFound)
      end
  | (idx, entry) :: iter' =>
      if flag entry =? FLAG_ESTIMATE then Ret (Err (Dependency idx)) else
      match cell entry, accumulator with
      | Write incarnation d, None => Ret (Ok (VersionOutput (idx, incarnation) d))
      | Write incarnation d, Some acc =>
          maybe_value ← from_write d;
          match maybe_value with
          | None => Ret (Ok (VersionOutput (idx, incarnation) d))
          | Some value =>
              Ret (a ← map_err (λ _, DeltaApplicationFailure) acc;
                   map_err (λ _, DeltaApplicationFailure) (Resolved <$> apply_to a value))
          end
      | Delta delta, Some acc =>
          read_loop iter' (Some (a ← acc;
                                 match merge_onto a delta with Ok a' => Ok a' | Err _ => Err tt end))
      | Delta delta, None => read_loop iter' (Some (Ok delta))
      end
  end.

Definition read (self : MVHashMap) (key : K) (txn_idx : TxnIndex) :
    comp (result MVHashMapError (MVHashMapOutput V)) :=
  match data self !! key with
  | Some v => read_loop (reverse (btree_below txn_idx (versioned_map v))) None
  | None => Ret (Err NotFound)
  end.

(** ** Specification of [read] *)

(** The entries a read of [key] by [txn_idx] may see, oldest first. *)
Definition visible (self : MVHashMap) (key : K) (txn_idx : TxnIndex) : list (TxnIndex * Entry V) :=
  match data self !! key with
  | Some v => btree_below txn_idx (versioned_map v)
  | None => []
  end.

(** A run of finished delta entries with the given deltas. *)
Definition delta_run (es : list (TxnIndex * Entry V)) (ds : list DeltaOp) : Prop :=
  Forall2 (λ e d, flag e.2 ≠ FLAG_ESTIMATE ∧ cell e.2 = Delta d) es ds.

(** The specification: what the entries below the reader mean. *)
Definition read_meaning (es : list (TxnIndex * Entry V))
    (r : result MVHashMapError (MVHashMapOutput V)) : Prop :=
  match r with
  | Ok (VersionOutput (i, inc) v) =>
      ∃ pre f post ds,
        es = pre ++ (i, mkEntry f (Write inc v)) :: post ∧ f ≠ FLAG_ESTIMATE ∧
        delta_run post ds ∧ (ds = [] ∨ extract_raw_bytes v = None)
  | Ok (Resolved x) =>
      ∃ pre i f inc v post ds b base,
        es = pre ++ (i, mkEntry f (Write inc v)) :: post ∧ f ≠ FLAG_ESTIMATE ∧
        delta_run post ds ∧ ds ≠ [] ∧
        extract_raw_bytes v = Some b ∧ bcs_from_bytes b = Some base ∧
        apply_seq ds base = Ok x
  | Err (Dependency i) =>
      ∃ pre e post ds,
        es = pre ++ (i, e) :: post ∧ flag e = FLAG_ESTIMATE ∧ delta_run post ds
  | Err (Unresolved d) =>
      ∃ ds, delta_run es ds ∧ ds ≠ [] ∧ ∀ base, agrees (apply_to d base) (apply_seq ds base)
  | Err NotFound => es = []
  | Err DeltaApplicationFailure =>
      ∃ pre post ds,
        es = pre ++ post ∧ delta_run post ds ∧ ds ≠ [] ∧
        match last pre with
        | None => ∀ base x, apply_seq ds base ≠ Ok x
        | Some (_, e) => ∃ inc v b base,
            cell e = Write inc v ∧ flag e ≠ FLAG_ESTIMATE ∧
            extract_raw_bytes v = Some b ∧ bcs_from_bytes b = Some base ∧
            ∀ x, apply_seq ds base ≠ Ok x
        end
  end.

(** All deltas of a key are well formed and share one limit. *)
Definition one_limit (lim : Z) (es : list (TxnIndex * Entry V)) : Prop :=
  ∀ i e d, (i, e) ∈ es → cell e = Delta d → wf_delta d ∧ limit d = lim.

(** Writes below a delta hold a value that decodes. *)
Definition decodable (es : list (TxnIndex * Entry V)) : Prop :=
  ∀ i e inc v b, (i, e) ∈ es → cell e = Write inc v → extract_raw_bytes v = Some b →
    is_Some (bcs_from_bytes b).

(** ** Lemmas *)

(** The accumulator holds the merge of the deltas seen so far. *)
Definition acc_ok (ds : list DeltaOp) (acc : option (result unit DeltaOp)) : Prop :=
  match acc with
  | None => ds = []
  | Some r => ∃ newest older, ds = reverse older ++ [newest] ∧
                r = map_err (λ _, tt) (merge_down (Ok newest) older)
  end.

Lemma acc_ok_step ds acc d :
  acc_ok ds acc →
  acc_ok (d :: ds)
    (Some match acc with
          | Some r => a ← r; match merge_onto a d with Ok a' => Ok a' | Err _ => Err tt end
          | None => Ok d
          end).
Proof.
  destruct acc as [r|]; simpl.
  - intros (newest & older & -> & ->). exists newest, (older ++ [d]).
    rw reverse_snoc merge_down_snoc. split; [done|].
    destruct (merge_down (Ok newest) older) as [a|]; simpl; [|done].
    by destruct (merge_onto a d).
  - intros ->. by exists d, [].
Qed.

(** What the accumulated delta does, in terms of the deltas in sequence. *)
Lemma acc_ok_agrees lim ds r base :
  same_limit lim ds → acc_ok ds (Some r) →
  ds ≠ [] ∧ agrees (a ← r; map_err (λ _, tt) (apply_to a base)) (apply_seq ds base).
Proof.
  intros Hl (newest & older & -> & ->). split; [by intros []%app_nil|].
  assert (same_limit lim (newest :: older)) as Hl'.
  { apply Forall_app in Hl as [Ho [Hn _]%Forall_cons].
    constructor; [done|by apply Forall_reverse]. }
  pose proof (merge_down_agrees lim newest older base Hl') as Hm.
  destruct (merge_down (Ok newest) older) as [a|]; simpl in *; [|done].
  by destruct (apply_to a base).
Qed.

Lemma delta_run_limit lim es ds :
  one_limit lim es → delta_run es ds → same_limit lim ds.
Proof.
  intros Hl Hr. induction Hr as [|[i e] d es ds [Hf Hc] Hr IH]; [constructor|].
  constructor; [eapply Hl; [constructor|done]|].
  apply IH. intros j e' d' Hin. apply (Hl j). by constructor.
Qed.

Lemma one_limit_app lim es1 es2 : one_limit lim (es1 ++ es2) → one_limit lim es2.
Proof. intros Hl i e d Hin. apply (Hl i). apply elem_of_app. by right. Qed.

(** A failing run of deltas under a write, or under nothing. *)
Lemma read_failure_meaning pre e i inc v b base post ds lim r :
  cell e = Write inc v → flag e ≠ FLAG_ESTIMATE →
  extract_raw_bytes v = Some b → bcs_from_bytes b = Some base →
  one_limit lim post → delta_run post ds → acc_ok ds (Some r) →
  read_meaning (pre ++ (i, e) :: post)
    (a ← map_err (λ _, DeltaApplicationFailure) r;
     map_err (λ _, DeltaApplicationFailure) (Resolved <$> apply_to a base)).
Proof.
  intros Hc Hf Hb Hbase Hl Hr Hacc.
  destruct (acc_ok_agrees lim ds r base) as [Hne Hag]; [by eapply delta_run_limit|done|].
  destruct e as [f c]; simpl in *; subst c.
  assert ((∀ x, apply_seq ds base ≠ Ok x) →
          read_meaning (pre ++ (i, mkEntry f (Write inc v)) :: post) (Err DeltaApplicationFailure)).
  { intros Hfail. exists (pre ++ [(i, mkEntry f (Write inc v))]), post, ds.
    rw -assoc last_snoc. split_and!; [done..|]. by exists inc, v, b, base. }
  destruct r as [a|[]]; simpl in *.
  - destruct (apply_to a base) as [x|] eqn:Ha; simpl in *.
    + destruct (apply_seq ds base) as [y|] eqn:Hy; [subst y|done].
      by exists pre, i, f, inc, v, post, ds, b, base.
    + destruct (apply_seq ds base); naive_solver.
  - destruct (apply_seq ds base); naive_solver.
Qed.

Lemma read_loop_meaning lim iter acc seen ds r :
  one_limit lim (reverse iter ++ seen) → delta_run seen ds → acc_ok ds acc →
  read_loop iter acc = Ret r →
  read_meaning (reverse iter ++ seen) r.
Proof.
  revert acc seen ds; induction iter as [|[idx e] iter IH]; intros acc seen ds Hl Hrun Hacc.
  - destruct acc as [[a|[]]|]; simpl in *; intros [= <-].
    + exists ds. assert (ds ≠ []) by (destruct Hacc as (?&?&->&_); by intros []%app_nil).
      split; [done|]. split; [done|]. intros base.
      destruct (acc_ok_agrees lim ds (Ok a) base) as [_ Hag];
        [by eapply delta_run_limit|done|]. simpl in Hag. by destruct (apply_to a base).
    + exists [], seen, ds. split; [done|]. split; [done|].
      split; [destruct Hacc as (?&?&->&_); by intros []%app_nil|].
      intros base x. destruct (acc_ok_agrees lim ds (Err tt) base) as [_ Hag];
        [by eapply delta_run_limit|done|]. by destruct (apply_seq ds base).
    + subst ds. by apply Forall2_nil_inv_r in Hrun.
  - simpl. rw reverse_cons -assoc /=. rw reverse_cons -assoc /= in Hl.
    destruct (Nat.eqb_spec (flag e) FLAG_ESTIMATE) as [Hf|Hf].
    { intros [= <-]. by exists (reverse iter), e, seen, ds. }
    assert (one_limit lim seen) as Hls by (by apply one_limit_app, (one_limit_app _ [_]) in Hl).
    destruct (cell e) as [inc v|d] eqn:Hc.
    + destruct acc as [acc|].
      * unfold from_write. destruct (extract_raw_bytes v) as [b|] eqn:Hb; simpl.
        -- unfold deserialize. destruct (bcs_from_bytes b) as [base|] eqn:Hbase; simpl; [|done].
           intros [= <-]. by eapply read_failure_meaning.
        -- intros [= <-]. destruct e as [f c]; simpl in *; subst c.
           exists (reverse iter), f, seen, ds. eauto.
      * intros [= <-]. destruct e as [f c]; simpl in *; subst c ds.
        exists (reverse iter), f, seen, []. eauto.
    + pose proof (acc_ok_step ds acc d Hacc) as Hacc'. intros Hr.
      apply (IH _ ((idx, e) :: seen) (d :: ds)) in Hacc'; [done|done|by constructor|].
      destruct acc; exact Hr.
Qed.

Lemma read_loop_total iter acc :
  decodable (reverse iter) → ∃ r, read_loop iter acc = Ret r.
Proof.
  revert acc; induction iter as [|[idx e] iter IH]; intros acc Hd; simpl.
  { destruct acc as [[]|]; eauto. }
  case_match; [eauto|].
  assert (decodable (reverse iter)) as Hd'.
  { intros i e' inc v b Hin. apply (Hd i). rw reverse_cons elem_of_app. by left. }
  destruct (cell e) as [inc v|d] eqn:Hc; destruct acc as [acc|]; eauto.
  unfold from_write. destruct (extract_raw_bytes v) as [b|] eqn:Hb; simpl; [|eauto].
  destruct (Hd idx e inc v b) as [x Hx]; [|done..|].
  { rw reverse_cons elem_of_app list_elem_of_singleton. by right. }
  unfold deserialize. rw Hx. simpl. eauto.
Qed.

(** ** Effect of the operations on single entries *)

Definition entry_at (self : MVHashMap) (key : K) (i : TxnIndex) : option (Entry V) :=
  data self !! key ≫= λ v, versioned_map v !! i.

Lemma visible_spec self key idx i e :
  (i, e) ∈ visible self key idx ↔ i < idx ∧ entry_at self key i = Some e.
Proof.
  unfold visible, entry_at. destruct (data self !! key); simpl; [apply elem_of_btree_below|].
  rw elem_of_nil. naive_solver.
Qed.

Lemma visible_ascending self key idx : ascending (visible self key idx).
Proof.
  unfold visible. destruct (data self !! key); [auto with rust|constructor].
Qed.

Lemma read_visible self key idx : read self key idx = read_loop (reverse (visible self key idx)) None.
Proof. unfold read, visible. by destruct (data self !! key). Qed.

(** A read depends only on the entries of its key below the reader. *)
Lemma read_ext self self' key idx :
  (∀ i, i < idx → entry_at self key i = entry_at self' key i) →
  read self key idx = read self' key idx.
Proof.
  intros Heq. rw !read_visible. do 2 f_equal.
  apply ascending_ext; [apply visible_ascending..|].
  intros [i e]. rw !visible_spec.
  split; intros [Hi He]; (split; [done|]); rw -He; [by rw -Heq|by rw Heq].
Qed.

Lemma entry_or_default_at self key i :
  versioned_map (entry_or_default self key) !! i = entry_at self key i.
Proof. unfold entry_or_default, entry_at. by destruct (data self !! key). Qed.

Lemma entry_at_insert self dk key v key' i :
  entry_at (mkMVHashMap (<[key := v]> (data self)) dk) key' i =
    if decide (key = key') then versioned_map v !! i else entry_at self key' i.
Proof. unfold entry_at; simpl. rw lookup_insert. by case_decide. Qed.

Lemma add_write_at self key i inc v self' key' j :
  add_write self key (i, inc) v = Ret self' →
  entry_at self' key' j =
    if decide (key = key' ∧ i = j) then Some (mkEntry FLAG_DONE (Write inc v))
    else entry_at self key' j.
Proof.
  unfold add_write. destruct (rust_assert _); simpl; [|done]. intros [= <-].
  rw entry_at_insert /= lookup_insert entry_or_default_at.
  repeat case_decide; naive_solver.
Qed.

Lemma add_delta_at self key i d key' j :
  entry_at (add_delta self key i d) key' j =
    if decide (key = key' ∧ i = j) then Some (mkEntry FLAG_DONE (Delta d))
    else entry_at self key' j.
Proof.
  unfold add_delta. destruct (contains_delta _);
    rw entry_at_insert /= lookup_insert entry_or_default_at;
    repeat case_decide; naive_solver.
Qed.

Lemma mark_estimate_at self key i self' key' j :
  mark_estimate self key i = Ret self' →
  entry_at self' key' j =
    if decide (key = key' ∧ i = j) then Entry_mark_estimate <$> entry_at self key j
    else entry_at self key' j.
Proof.
  unfold mark_estimate. destruct (data self !! key) as [v|] eqn:Hv; simpl; [|done].
  destruct (versioned_map v !! i) as [e|] eqn:He; simpl; [|done]. intros [= <-].
  rw entry_at_insert /= lookup_insert.
  assert (∀ j, entry_at self key j = versioned_map v !! j) as Hat
    by (intros; unfold entry_at; by rw Hv).
  repeat case_decide; destruct_and?; subst; rw ?Hat ?He //; naive_solver.
Qed.

Lemma mv_delete_at self key i self' key' j :
  mv_delete self key i = Ret self' →
  entry_at self' key' j =
    if decide (key = key' ∧ i = j) then None else entry_at self key' j.
Proof.
  unfold mv_delete. destruct (data self !! key) as [v|] eqn:Hv; simpl; [|done].
  intros [= <-]. rw entry_at_insert /= lookup_delete.
  assert (∀ j, entry_at self key j = versioned_map v !! j) as Hat
    by (intros; unfold entry_at; by rw Hv).
  repeat case_decide; destruct_and?; subst; rw ?Hat //; naive_solver.
Qed.

(** ** Properties *)

(** C19: reads mean what the multi-version map stores. On deltas that are well
    formed and share a limit, and writes that decode, a read returns (it does not
    panic) and its outcome describes the entries below the reader: the version of
    the top write when no delta is above it (or when the write is a deletion); the
    value of applying the deltas above the top write in order; a merged delta
    equivalent to all the deltas when there is no write; a dependency exactly on
    the topmost estimate above any write; a delta failure only when applying the
    deltas in order fails. *)
Theorem read_correct lim self key txn_idx :
  one_limit lim (visible self key txn_idx) → decodable (visible self key txn_idx) →
  ∃ r, read self key txn_idx = Ret r ∧ read_meaning (visible self key txn_idx) r.
Proof.
  intros Hl Hd. rw read_visible.
  destruct (read_loop_total (reverse (visible self key txn_idx)) None) as [r Hr];
    [by rw reverse_involutive|].
  exists r; split; [done|].
  apply (read_loop_meaning lim _ _ [] []) in Hr; rw ?reverse_involutive ?app_nil_r in Hr |- *;
    try done; constructor.
Qed.

(** speculation does not leak downwards. Whatever transaction [i] does to the
    map (write, delta, marking an estimate, deleting), the reads of transactions
    up to and including [i] are unchanged. *)
Theorem reads_below_unchanged self self' key i key' j :
  (∃ inc v, add_write self key (i, inc) v = Ret self') ∨
  (∃ d, self' = add_delta self key i d) ∨
  mark_estimate self key i = Ret self' ∨
  mv_delete self key i = Ret self' →
  j ≤ i → read self' key' j = read self key' j.
Proof.
  intros Hop Hj. apply read_ext. intros x Hx.
  destruct Hop as [(inc & v & Hop)|[(d & ->)|[Hop|Hop]]].
  - rw (add_write_at _ _ _ _ _ _ _ _ Hop). case_decide; [lia|done].
  - rw add_delta_at. case_decide; [lia|done].
  - rw (mark_estimate_at _ _ _ _ _ _ Hop). case_decide; [lia|done].
  - rw (mv_delete_at _ _ _ _ _ _ Hop). case_decide; [lia|done].
Qed.
End mvhashmap.
Arguments MVHashMap : clear implicits.
Arguments MVHashMap K V {_ _}.

(** A small map: a created aggregator holding 5, then deltas [+3] and [-1]. *)
Definition example_map : MVHashMap Z WriteOp :=
  mkMVHashMap
    {[ 7%Z := mkVersionedValue
         (<[0 := mkEntry FLAG_DONE (Write 0 (Creation (LittleEndian.encode 16 5)))]>
          (<[1 := mkEntry FLAG_DONE (Delta (delta_add 3 100))]>
           {[2 := mkEntry FLAG_DONE (Delta (delta_sub 1 100))]})) true ]} [7%Z].

Lemma read_correct_witness :
  ∃ r, @read Z WriteOp _ _ _ LittleEndian.le_bcs example_map 7%Z 3 = Ret r ∧
       @read_meaning WriteOp _ LittleEndian.le_bcs (visible example_map 7%Z 3) r.
Proof.
  assert (visible example_map 7%Z 3 =
    [(0, mkEntry FLAG_DONE (Write 0 (Creation (LittleEndian.encode 16 5))));
     (1, mkEntry FLAG_DONE (Delta (delta_add 3 100)));
     (2, mkEntry FLAG_DONE (Delta (delta_sub 1 100)))]) as Hv by (vm_compute; reflexivity).
  apply (@read_correct Z WriteOp _ _ _ LittleEndian.le_bcs 100); rw Hv.
  - intros i e d Hin Hc.
    repeat (apply elem_of_cons in Hin as [Hin|Hin]; [simplify_eq/=; try done;
      unfold wf_delta, u128; simpl; lia|]). by apply elem_of_nil in Hin.
  - intros i e inc v b Hin Hc Hb.
    repeat (apply elem_of_cons in Hin as [Hin|Hin];
      [simplify_eq/=; try done; vm_compute; by eexists|]). by apply elem_of_nil in Hin.
Defined.

Lemma reads_below_unchanged_witness :
  @read Z WriteOp _ _ _ LittleEndian.le_bcs (add_delta example_map 7%Z 2 (delta_add 9 100)) 7%Z 2 =
  @read Z WriteOp _ _ _ LittleEndian.le_bcs example_map 7%Z 2.
Proof.
  apply (@reads_below_unchanged Z WriteOp _ _ _ LittleEndian.le_bcs example_map _ 7%Z 2);
    [right; left; eexists; reflexivity|lia].
Defined.
