(* ===== verification/LastInputOutput.v ===== *)
(** * Recorded inputs and outputs of the last incarnation

    Models [block-executor/src/txn_last_input_output.rs], with the traits and
    status types of [block-executor/src/task.rs] and [errors.rs]: for each
    transaction the read set and the output of its last execution, and the two
    shared sets of module paths that detect a race between module publishing and
    module loading.  Besides the sequential meaning of [record], the accesses to
    the shared sets are modelled one by one, as steps of concurrent threads. *)
From S2P Require Import Prelude DeltaOp WriteSet MVHashMap.
Local Open Scope nat_scope.

(** ** [errors.rs] and [task.rs] *)

Inductive Error (E : Type) : Type :=
  | ModulePathReadWrite
  | UserError (e : E)
  | SKIP.
Arguments ModulePathReadWrite {E}.
Arguments UserError {E} e.
Arguments SKIP {E}.

Module ExecutionStatus.
Inductive t (T E : Type) : Type :=
  | Success (output : T)
  | Abort (err : E)
  | SkipRest (output : T).
Arguments Success {T E} output.
Arguments Abort {T E} err.
Arguments SkipRest {T E} output.
End ExecutionStatus.

Class ModulePath (K AccessPath : Type) : Type := {
  module_path : K → option AccessPath;
}.

Class TransactionOutputTrait (T K V : Type) : Type := {
  get_writes : T → list (K * V);
  get_deltas : T → list (K * DeltaOp);
  skip_output : T;
}.

(** ** Read descriptors *)

Module ReadKind.
Inductive t : Type :=
  | Version (txn_idx : TxnIndex) (incarnation : Incarnation)
  | Resolved (value : Z)
  | Unresolved (delta : DeltaOp)
  | Storage
  | DeltaApplicationFailure.
#[global] Instance t_eq_dec : EqDecision t.
Proof. solve_decision. Defined.
End ReadKind.

Record ReadDescriptor (K : Type) : Type := mkReadDescriptor {
  access_path : K;
  kind : ReadKind.t;
}.
Arguments mkReadDescriptor {K} access_path kind.
Arguments access_path {K} r : rename.
Arguments kind {K} r : rename.

Section descriptors.
Context {K : Type}.

Definition from_version (k : K) (txn_idx : TxnIndex) (incarnation : Incarnation) :=
  mkReadDescriptor k (ReadKind.Version txn_idx incarnation).
Definition from_resolved (k : K) (value : Z) := mkReadDescriptor k (ReadKind.Resolved value).
Definition from_unresolved (k : K) (delta : DeltaOp) :=
  mkReadDescriptor k (ReadKind.Unresolved delta).
Definition from_storage (k : K) := mkReadDescriptor k ReadKind.Storage.
Definition from_delta_application_failure (k : K) :=
  mkReadDescriptor k ReadKind.DeltaApplicationFailure.

Definition validate_version (r : ReadDescriptor K) (version : Version) : bool :=
  let '(txn_idx, incarnation) := version in
  bool_decide (kind r = ReadKind.Version txn_idx incarnation).
Definition validate_resolved (r : ReadDescriptor K) (value : Z) : bool :=
  bool_decide (kind r = ReadKind.Resolved value).
Definition validate_unresolved (r : ReadDescriptor K) (delta : DeltaOp) : bool :=
  bool_decide (kind r = ReadKind.Unresolved delta).
Definition validate_storage (r : ReadDescriptor K) : bool :=
  bool_decide (kind r = ReadKind.Storage).
Definition validate_delta_application_failure (r : ReadDescriptor K) : bool :=
  bool_decide (kind r = ReadKind.DeltaApplicationFailure).
End descriptors.

(** ** The table *)

Section last_input_output.
Context {K V T E AccessPath : Type}.
Context `{Countable K, Countable AccessPath}.
Context `{!ModulePath K AccessPath, !TransactionOutputTrait T K V}.

Abbreviation TxnInput := (list (ReadDescriptor K)).
Abbreviation TxnOutput := (ExecutionStatus.t T (Error E)).

Record TxnLastInputOutput : Type := mkTxnLastInputOutput {
  inputs : list (option TxnInput);
  outputs : list (option TxnOutput);
  module_writes : gset AccessPath;
  module_reads : gset AccessPath;
  module_read_write_intersection : bool;
}.

Definition TxnLastInputOutput_new (num_txns : nat) : TxnLastInputOutput :=
  mkTxnLastInputOutput (replicate num_txns None) (replicate num_txns None) ∅ ∅ false.

(** [append_and_check]: the set appended to, and whether the check hit; a hit
    leaves the rest of the paths out. *)
Fixpoint append_and_check (paths : list AccessPath) (set_to_append set_to_check : gset AccessPath) :
    gset AccessPath * bool :=
  match paths with
  | [] => (set_to_append, false)
  | path :: paths' =>
      let set_to_append' := {[path]} ∪ set_to_append in
      if decide (path ∈ set_to_check) then (set_to_append', true)
      else append_and_check paths' set_to_append' set_to_check
  end.

Definition read_modules (input : TxnInput) : list AccessPath :=
  omap (λ desc, module_path (access_path desc)) input.

Definition written_modules (output : TxnOutput) : list AccessPath :=
  match output with
  | ExecutionStatus.Success o | ExecutionStatus.SkipRest o =>
      omap (λ kv : K * V, module_path kv.1) (get_writes o)
  | ExecutionStatus.Abort _ => []
  end.

(** Storing into a slot of a [Vec]; out of range panics. *)
Definition vec_store {A} (l : list A) (i : nat) (x : A) : comp (list A) :=
  if decide (i < length l) then Ret (<[i := x]> l) else Panic.

(** The module check of [record]. *)
Definition record_modules (self : TxnLastInputOutput) (input : TxnInput) (output : TxnOutput) :
    TxnLastInputOutput :=
  if module_read_write_intersection self then self else
  let '(reads, hit1) := append_and_check (read_modules input) (module_reads self) (module_writes self) in
  if hit1
  then mkTxnLastInputOutput (inputs self) (outputs self) (module_writes self) reads true
  else
    let '(writes, hit2) := append_and_check (written_modules output) (module_writes self) reads in
    mkTxnLastInputOutput (inputs self) (outputs self) writes reads hit2.

Definition record (self : TxnLastInputOutput) (txn_idx : TxnIndex) (input : TxnInput)
    (output : TxnOutput) : comp TxnLastInputOutput :=
  let self := record_modules self input output in
  ins ← vec_store (inputs self) txn_idx (Some input);
  outs ← vec_store (outputs self) txn_idx (Some output);
  Ret (mkTxnLastInputOutput ins outs (module_writes self) (module_reads self)
         (module_read_write_intersection self)).

Definition module_publishing_may_race (self : TxnLastInputOutput) : bool :=
  module_read_write_intersection self.

Definition read_set (self : TxnLastInputOutput) (txn_idx : TxnIndex) : comp (option TxnInput) :=
  expect (inputs self !! txn_idx).

Definition modified_keys (self : TxnLastInputOutput) (txn_idx : TxnIndex) : comp (gset K) :=
  o ← expect (outputs self !! txn_idx);
  match o with
  | None => Ret ∅
  | Some (ExecutionStatus.Success t) | Some (ExecutionStatus.SkipRest t) =>
      Ret (list_to_set ((get_writes t).*1 ++ (get_deltas t).*1))
  | Some (ExecutionStatus.Abort _) => Ret ∅
  end.

(** [take_output]: the recorded output, which is taken out of the table. *)
Definition take_output (self : TxnLastInputOutput) (txn_idx : TxnIndex) :
    comp (TxnLastInputOutput * TxnOutput) :=
  o ← expect (outputs self !! txn_idx);
  output ← expect o;
  Ret (mkTxnLastInputOutput (inputs self) (<[txn_idx := None]> (outputs self))
         (module_writes self) (module_reads self) (module_read_write_intersection self), output).

(** ** Sequential behaviour *)

Lemma append_and_check_spec paths app chk :
  match append_and_check paths app chk with
  | (app', true) => app ⊆ app' ∧ ∃ p, p ∈ paths ∧ p ∈ chk ∧ p ∈ app'
  | (app', false) => app' = list_to_set paths ∪ app ∧ ∀ p, p ∈ paths → p ∉ chk
  end.
Proof.
  revert app; induction paths as [|p paths IH]; intros app; simpl.
  { split; [set_solver|]. intros p []%elem_of_nil. }
  case_decide as Hp.
  { split; [set_solver|]. exists p. set_solver. }
  specialize (IH ({[p]} ∪ app)).
  destruct (append_and_check paths ({[p]} ∪ app) chk) as [app' []].
  - destruct IH as [Hsub (q & Hq & Hqc & Hqa)]. split; [set_solver|]. exists q. set_solver.
  - destruct IH as [-> Hall]. split; [set_solver|].
    intros q [->|Hq]%elem_of_cons; [done|by apply Hall].
Qed.

(** The invariant of the module sets: unless the flag is up they are disjoint. *)
Definition modules_ok (self : TxnLastInputOutput) : Prop :=
  module_read_write_intersection self = false → module_reads self ## module_writes self.

Lemma record_modules_ok self input output :
  modules_ok self →
  modules_ok (record_modules self input output) ∧
  (module_read_write_intersection (record_modules self input output) = false →
   list_to_set (read_modules input) ⊆ module_reads (record_modules self input output) ∧
   list_to_set (written_modules output) ⊆ module_writes (record_modules self input output)).
Proof.
  unfold modules_ok, record_modules. intros Hok.
  destruct (module_read_write_intersection self) eqn:Hf; [by rw Hf|].
  specialize (Hok eq_refl).
  pose proof (append_and_check_spec (read_modules input) (module_reads self) (module_writes self)) as H1.
  destruct (append_and_check (read_modules input) _ _) as [reads []]; [done|].
  destruct H1 as [-> H1].
  match goal with |- context [append_and_check ?p ?a ?c] =>
    pose proof (append_and_check_spec p a c) as H2; destruct (append_and_check p a c) as [writes []]
  end; [done|].
  destruct H2 as [-> H2]; simpl. split; [intros _|intros _; set_solver].
  intros p Hr Hw. apply elem_of_union in Hw as [Hw|Hw].
  - apply elem_of_list_to_set in Hw. by apply (H2 p).
  - apply elem_of_union in Hr as [Hr|Hr]; [|by apply (Hok p)].
    apply elem_of_list_to_set in Hr. by apply (H1 p).
Qed.
End last_input_output.

(** ** The module check under concurrency

    Each thread runs [record_modules]; its accesses to the flag and to the two
    concurrent sets are separate steps, interleaved freely with those of the
    other threads. *)
Section module_race.
Context {AccessPath : Type} `{Countable AccessPath}.

Record Shared : Type := mkShared {
  sh_reads : gset AccessPath;
  sh_writes : gset AccessPath;
  sh_flag : bool;
}.

(** Where a thread is inside [record]: before loading the flag; before the next
    insertion into the read set, or between an insertion and its check; the same
    for the write set; about to store the flag; done with the check. *)
Inductive record_pc : Type :=
  | LoadFlag (reads writes : list AccessPath)
  | InsertRead (reads writes : list AccessPath)
  | CheckRead (path : AccessPath) (reads writes : list AccessPath)
  | InsertWrite (writes : list AccessPath)
  | CheckWrite (path : AccessPath) (writes : list AccessPath)
  | StoreFlag
  | Recorded.

Definition record_step (sh : Shared) (pc : record_pc) : Shared * record_pc :=
  match pc with
  | LoadFlag rs ws => (sh, if sh_flag sh then Recorded else InsertRead rs ws)
  | InsertRead [] ws => (sh, InsertWrite ws)
  | InsertRead (p :: rs) ws =>
      (mkShared ({[p]} ∪ sh_reads sh) (sh_writes sh) (sh_flag sh), CheckRead p rs ws)
  | CheckRead p rs ws => (sh, if decide (p ∈ sh_writes sh) then StoreFlag else InsertRead rs ws)
  | InsertWrite [] => (sh, Recorded)
  | InsertWrite (p :: ws) =>
      (mkShared (sh_reads sh) ({[p]} ∪ sh_writes sh) (sh_flag sh), CheckWrite p ws)
  | CheckWrite p ws => (sh, if decide (p ∈ sh_reads sh) then StoreFlag else InsertWrite ws)
  | StoreFlag => (mkShared (sh_reads sh) (sh_writes sh) true, Recorded)
  | Recorded => (sh, Recorded)
  end.

(** One step of some thread. *)
Inductive race_step : relation (Shared * list record_pc) :=
  | race_step_intro sh pcs i pc sh' pc' :
      pcs !! i = Some pc → record_step sh pc = (sh', pc') →
      race_step (sh, pcs) (sh', <[i := pc']> pcs).

(** The threads of a block: thread [i] records the modules read and written by
    its transaction. *)
Definition race_init (jobs : list (list AccessPath * list AccessPath)) : Shared * list record_pc :=
  (mkShared ∅ ∅ false, (λ j, LoadFlag j.1 j.2) <$> jobs).

(** What thread [i] has published, given its job. *)
Definition thread_ok (sh : Shared) (job : list AccessPath * list AccessPath) (pc : record_pc) : Prop :=
  match pc with
  | LoadFlag rs ws => (rs, ws) = job
  | InsertRead rs ws => ws = job.2 ∧ ∀ p, p ∈ job.1 → p ∈ rs ∨ p ∈ sh_reads sh
  | CheckRead _ rs ws => ws = job.2 ∧ ∀ p, p ∈ job.1 → p ∈ rs ∨ p ∈ sh_reads sh
  | InsertWrite ws | CheckWrite _ ws =>
      (∀ p, p ∈ job.1 → p ∈ sh_reads sh) ∧ (∀ p, p ∈ job.2 → p ∈ ws ∨ p ∈ sh_writes sh)
  | StoreFlag => True
  | Recorded => sh_flag sh = true ∨
      ((∀ p, p ∈ job.1 → p ∈ sh_reads sh) ∧ (∀ p, p ∈ job.2 → p ∈ sh_writes sh))
  end.

(** The path a thread has inserted and not yet checked. *)
Definition checking (pc : record_pc) : option AccessPath :=
  match pc with CheckRead p _ _ | CheckWrite p _ => Some p | _ => None end.

(** Every path in both sets has been noticed or is about to be. *)
Definition noticed (sh : Shared) (pcs : list record_pc) : Prop :=
  sh_flag sh = true ∨ StoreFlag ∈ pcs ∨
  ∀ p, p ∈ sh_reads sh → p ∈ sh_writes sh → ∃ i pc, pcs !! i = Some pc ∧ checking pc = Some p.

Definition race_inv (jobs : list (list AccessPath * list AccessPath))
    (s : Shared * list record_pc) : Prop :=
  Forall2 (thread_ok s.1) jobs s.2 ∧ noticed s.1 s.2.

(** The sets and the flag only grow, so other threads keep their assertion. *)
Lemma thread_ok_mono sh sh' job pc :
  sh_reads sh ⊆ sh_reads sh' → sh_writes sh ⊆ sh_writes sh' →
  (sh_flag sh = true → sh_flag sh' = true) →
  thread_ok sh job pc → thread_ok sh' job pc.
Proof. intros Hr Hw Hf. destruct pc; simpl; try done; set_solver. Qed.

Lemma record_step_mono sh pc sh' pc' :
  record_step sh pc = (sh', pc') →
  sh_reads sh ⊆ sh_reads sh' ∧ sh_writes sh ⊆ sh_writes sh' ∧
  (sh_flag sh = true → sh_flag sh' = true).
Proof.
  destruct pc as [rs ws|[|p rs] ws|p rs ws|[|p ws]|p ws| |]; simpl; intros [= <- <-]; simpl;
    split_and!; try done; set_solver.
Qed.

Lemma record_step_thread_ok sh job pc sh' pc' :
  record_step sh pc = (sh', pc') → thread_ok sh job pc → thread_ok sh' job pc'.
Proof.
  destruct job as [jr jw].
  destruct pc as [rs ws|[|p rs] ws|p rs ws|[|p ws]|p ws| |]; simpl; intros [= <- <-]; simpl;
    repeat case_match; simpl; try (by left); try done; try naive_solver set_solver.
Qed.

(** What a step does to a path in both sets: it was in both before, and then
    the thread that was checking it raises the flag; or the step inserted it and
    the thread checks it next. *)
Lemma record_step_checks sh pc sh' pc' q :
  record_step sh pc = (sh', pc') → q ∈ sh_reads sh' → q ∈ sh_writes sh' →
  (q ∈ sh_reads sh ∧ q ∈ sh_writes sh ∧ (checking pc = Some q → pc' = StoreFlag)) ∨
  checking pc' = Some q.
Proof.
  destruct pc as [rs ws|[|p rs] ws|p rs ws|[|p ws]|p ws| |]; simpl; intros [= <- <-]; simpl;
    intros Hr Hw; try (left; split_and!; done);
    try (destruct (decide (p = q)) as [->|Hne]; [by right|left; set_solver]);
    left; split_and!; try done; intros [= ->]; by case_decide.
Qed.

Lemma noticed_step sh pcs i pc sh' pc' :
  pcs !! i = Some pc → record_step sh pc = (sh', pc') →
  noticed sh pcs → noticed sh' (<[i := pc']> pcs).
Proof.
  intros Hi Hstep Hn.
  assert (i < length pcs) as Hlen by (by eapply lookup_lt_Some).
  destruct (record_step_mono _ _ _ _ Hstep) as (_ & _ & Hflag).
  destruct Hn as [Hf|[Hs|Hn]]; [left; by apply Hflag|..].
  { apply list_elem_of_lookup in Hs as [j Hj].
    destruct (decide (i = j)) as [<-|Hne].
    - simplify_eq. injection Hstep as <- <-. by left.
    - right; left. apply list_elem_of_lookup. exists j. by rw list_lookup_insert_ne. }
  assert (pc' = StoreFlag ∨ pc' ≠ StoreFlag) as [->|Hns] by (destruct pc'; naive_solver).
  { right; left. apply list_elem_of_lookup. exists i. by apply list_lookup_insert_eq. }
  right; right. intros q Hr Hw.
  destruct (record_step_checks _ _ _ _ q Hstep Hr Hw) as [(Hr0 & Hw0 & Hc)|Hc].
  - destruct (Hn q Hr0 Hw0) as (j & pcj & Hj & Hcj).
    assert (i ≠ j) by (intros <-; simplify_eq; naive_solver).
    exists j, pcj. by rw list_lookup_insert_ne.
  - exists i, pc'. by rw list_lookup_insert_eq.
Qed.

Lemma race_inv_step jobs s s' : race_inv jobs s → race_step s s' → race_inv jobs s'.
Proof.
  intros [Hth Hn] Hstep. destruct Hstep as [sh pcs i pc sh' pc' Hi Hst]; simpl in *.
  destruct (record_step_mono _ _ _ _ Hst) as (Hr & Hw & Hf).
  split; [|by eapply noticed_step]; simpl.
  destruct (Forall2_lookup_r _ _ _ _ _ Hth Hi) as (job & Hjob & Hok).
  assert (<[i := job]> jobs = jobs) as <- by (by apply list_insert_id).
  apply Forall2_insert; [|by eapply record_step_thread_ok].
  eapply Forall2_impl; [done|]. intros; by eapply thread_ok_mono.
Qed.

Lemma race_inv_reachable jobs s : rtc race_step (race_init jobs) s → race_inv jobs s.
Proof.
  intros Hr. remember (race_init jobs) as s0. assert (race_inv jobs s0) as Hinv.
  { subst. split; simpl.
    - apply Forall2_fmap_r, Forall_Forall2_diag, Forall_forall. by intros [].
    - right; right; simpl. set_solver. }
  clear Heqs0. induction Hr as [|s0 s1 s2 Hs Hr IH]; [done|]. by apply IH, (race_inv_step _ s0).
Qed.

(** Module races are always caught. However the threads' accesses to the
    flag and to the shared sets interleave, once all of them are done with the
    check either the flag is up (and the block falls back to sequential
    execution) or no module written by one transaction was read by any. *)
Theorem module_race_detected jobs sh pcs :
  rtc race_step (race_init jobs) (sh, pcs) →
  Forall (λ pc, pc = Recorded) pcs →
  sh_flag sh = true ∨
  ∀ i j ri wi rj wj p, jobs !! i = Some (ri, wi) → jobs !! j = Some (rj, wj) → p ∈ ri → p ∉ wj.
Proof.
  intros [Hth Hn]%race_inv_reachable Hdone; simpl in *.
  destruct (sh_flag sh) eqn:Hf; [by left|right].
  rw Forall_forall in Hdone.
  assert (∀ i r w, jobs !! i = Some (r, w) →
            (∀ p, p ∈ r → p ∈ sh_reads sh) ∧ (∀ p, p ∈ w → p ∈ sh_writes sh)) as Hpub.
  { intros i r w Hi. destruct (Forall2_lookup_l _ _ _ _ _ Hth Hi) as (pc & Hpc & Hok).
    rw (Hdone pc) in Hok; [by eapply list_elem_of_lookup_2|]. destruct Hok; [congruence|done]. }
  intros i j ri wi rj wj p Hi Hj Hr Hw.
  destruct (Hpub _ _ _ Hi) as [Hri _]. destruct (Hpub _ _ _ Hj) as [_ Hwj].
  destruct Hn as [?|[Hs|Hn]]; [congruence|by apply Hdone in Hs|].
  destruct (Hn p (Hri p Hr) (Hwj p Hw)) as (k & pc & Hk & Hc).
  apply list_elem_of_lookup_2, Hdone in Hk. by subst.
Qed.
End module_race.

(** Two threads, one reading module 5 and one writing it, interleaved so that
    both insert before either checks. *)
Lemma module_race_detected_witness :
  sh_flag (mkShared {[5%Z]} {[5%Z]} true) = true ∨
  ∀ i j ri wi rj wj p, [([5%Z], []); ([], [5%Z])] !! i = Some (ri, wi) →
    [([5%Z], []); ([], [5%Z])] !! j = Some (rj, wj) → p ∈ ri → p ∉ wj.
Proof.
  apply (module_race_detected [([5%Z], []); ([], [5%Z])] (mkShared {[5%Z]} {[5%Z]} true)
           [Recorded; Recorded]).
  - assert (∀ i (s s' : @Shared Z _ _ * list record_pc), (∃ pc sh' pc', s.2 !! i = Some pc ∧ record_step s.1 pc = (sh', pc') ∧
              s' = (sh', <[i := pc']> s.2)) → race_step s s') as Hs.
    { intros i [sh pcs] s' (pc & sh' & pc' & ? & ? & ->). by econstructor. }
    do 3 (eapply rtc_l; [apply (Hs 1); do 3 eexists; split_and!; reflexivity|simpl]).
    do 2 (eapply rtc_l; [apply (Hs 0); do 3 eexists; split_and!; reflexivity|simpl]).
    do 2 (eapply rtc_l; [apply (Hs 1); do 3 eexists; split_and!; reflexivity|simpl]).
    do 2 (eapply rtc_l; [apply (Hs 0); do 3 eexists; split_and!; reflexivity|simpl]).
    vm_compute. apply rtc_refl.
  - repeat constructor.
Defined.
