(* ===== verification/Scheduler.v ===== *)
(** * The dependency-guided scheduler

    Models [block-executor/src/scheduler.rs].  The scheduler hands out execution
    tasks through two FIFO channels (fed from the hint graph and from finished
    parents) and validation tasks through a shared counter that packs a wave and
    an index; it commits transactions in order.  Each method below is the whole
    method of the source, executed as one atomic step; the places where the source
    takes a lock with [try_lock]/[try_read] take the outcome as a parameter.  The
    interleaving of methods by concurrent threads is in [SchedulerSafety.v], the
    interleaving inside [try_validate_next_version] in [SchedulerRace.v]. *)
From S2P Require Import Prelude MVHashMap.
Local Open Scope nat_scope.

Abbreviation Wave := nat (only parsing).
Abbreviation DependencyCondvar := nat (only parsing).

Definition TXN_IDX_MASK : Z := Z.shiftl 1 32 - 1.

Inductive ExecutionMode : Type := Standard | Pythia | Pythia_Sig.
#[global] Instance ExecutionMode_eq_dec : EqDecision ExecutionMode.
Proof. solve_decision. Defined.

Inductive SchedulerTask : Type :=
  | ExecutionTask (version : Version) (condvar : option DependencyCondvar)
  | ValidationTask (version : Version) (wave : Wave)
  | SigTask (index : nat)
  | PrologueTask
  | NoTask
  | Done.

Inductive ExecStatus : Type :=
  | ReadyToExecute (incarnation : Incarnation) (condvar : option DependencyCondvar)
  | Executing (incarnation : Incarnation)
  | Suspended (incarnation : Incarnation) (condvar : DependencyCondvar)
  | Executed (incarnation : Incarnation)
  | Committed (incarnation : Incarnation)
  | Aborting (incarnation : Incarnation).

(** [PartialEq for ExecutionStatus]: condition variables are not compared. *)
Definition status_eq (a b : ExecStatus) : bool :=
  match a, b with
  | ReadyToExecute a _, ReadyToExecute b _
  | Executing a, Executing b
  | Suspended a _, Suspended b _
  | Executed a, Executed b
  | Committed a, Committed b
  | Aborting a, Aborting b => a =? b
  | _, _ => false
  end.

Record ValidationStatus : Type := mkValidationStatus {
  max_triggered_wave : Wave;
  required_wave : Wave;
  maybe_max_validated_wave : option Wave;
}.

Definition ValidationStatus_new : ValidationStatus := mkValidationStatus 0 0 None.

(** The scheduler.  [txn_status] is split into its two locked halves. *)
Record Scheduler : Type := mkScheduler {
  num_txns : nat;
  validation_idx : Z;
  done_marker : bool;
  exec_status : list ExecStatus;
  val_status : list ValidationStatus;
  hint_graph : list (list nat);
  channels : list TxnIndex;
  priochannels : list TxnIndex;
  sig_val_idx : nat;
  mode : ExecutionMode;
  critical_path_parent : list (list TxnIndex);
  children : list (list TxnIndex);
}.

(** Field updates. *)
Definition set_validation_idx (x : Z) (s : Scheduler) : Scheduler :=
  mkScheduler (num_txns s) x (done_marker s) (exec_status s) (val_status s) (hint_graph s)
    (channels s) (priochannels s) (sig_val_idx s) (mode s) (critical_path_parent s) (children s).
Definition set_done (x : bool) (s : Scheduler) : Scheduler :=
  mkScheduler (num_txns s) (validation_idx s) x (exec_status s) (val_status s) (hint_graph s)
    (channels s) (priochannels s) (sig_val_idx s) (mode s) (critical_path_parent s) (children s).
Definition set_exec (i : nat) (x : ExecStatus) (s : Scheduler) : Scheduler :=
  mkScheduler (num_txns s) (validation_idx s) (done_marker s) (<[i := x]> (exec_status s))
    (val_status s) (hint_graph s) (channels s) (priochannels s) (sig_val_idx s) (mode s)
    (critical_path_parent s) (children s).
Definition set_val (i : nat) (x : ValidationStatus) (s : Scheduler) : Scheduler :=
  mkScheduler (num_txns s) (validation_idx s) (done_marker s) (exec_status s)
    (<[i := x]> (val_status s)) (hint_graph s) (channels s) (priochannels s) (sig_val_idx s)
    (mode s) (critical_path_parent s) (children s).
Definition set_channels (x : list TxnIndex) (s : Scheduler) : Scheduler :=
  mkScheduler (num_txns s) (validation_idx s) (done_marker s) (exec_status s) (val_status s)
    (hint_graph s) x (priochannels s) (sig_val_idx s) (mode s) (critical_path_parent s) (children s).
Definition set_priochannels (x : list TxnIndex) (s : Scheduler) : Scheduler :=
  mkScheduler (num_txns s) (validation_idx s) (done_marker s) (exec_status s) (val_status s)
    (hint_graph s) (channels s) x (sig_val_idx s) (mode s) (critical_path_parent s) (children s).

(** [self.channels.0.send(tx)]: unbounded channels never refuse. *)
Definition send (tx : TxnIndex) (s : Scheduler) : Scheduler := set_channels (channels s ++ [tx]) s.
Definition send_prio (tx : TxnIndex) (s : Scheduler) : Scheduler :=
  set_priochannels (priochannels s ++ [tx]) s.

(** [self.critical_path_parent[dep].push(tx)]; an index out of range panics. *)
Definition push_parent (dep tx : TxnIndex) (s : Scheduler) : comp Scheduler :=
  l ← expect (critical_path_parent s !! dep);
  Ret (mkScheduler (num_txns s) (validation_idx s) (done_marker s) (exec_status s) (val_status s)
         (hint_graph s) (channels s) (priochannels s) (sig_val_idx s) (mode s)
         (<[dep := l ++ [tx]]> (critical_path_parent s)) (children s)).

(** ** Construction *)

(** The loop over the parents of a transaction in [Scheduler::new]: the highest
    path cost among them, the parent that has it ([50000]: none), and the
    children lists. *)
Fixpoint new_parents (i : TxnIndex) (parents : list nat) (path_cost : list Z)
    (my_cost parent : Z) (children : list (list TxnIndex)) :
    comp (Z * Z * list (list TxnIndex)) :=
  match parents with
  | [] => Ret (my_cost, parent, children)
  | node :: parents' =>
      cost ← expect (path_cost !! node);
      kids ← expect (children !! node);
      if (my_cost <? cost)%Z
      then new_parents i parents' path_cost cost (Z.of_nat node) (<[node := kids ++ [i]]> children)
      else new_parents i parents' path_cost my_cost parent (<[node := kids ++ [i]]> children)
  end.

(** The main loop of [Scheduler::new], from transaction [i] on, for [n] rounds. *)
Fixpoint new_loop (n : nat) (i : TxnIndex) (hint_graph : list (list nat)) (path_cost : list Z)
    (children cpp : list (list TxnIndex)) (send_vec : list TxnIndex) :
    comp (list (list TxnIndex) * list (list TxnIndex) * list TxnIndex) :=
  match n with
  | 0 => Ret (children, cpp, send_vec)
  | S n' =>
      parents ← expect (hint_graph !! i);
      '(my_cost, parent, children) ← new_parents i parents path_cost 0 50000 children;
      cost ← expect (path_cost !! i);
      _ ← rust_assert (cost + my_cost <? 2 ^ 32)%Z;
      let path_cost := <[i := (cost + my_cost)%Z]> path_cost in
      if (parent =? 50000)%Z
      then new_loop n' (S i) hint_graph path_cost children cpp (send_vec ++ [i])
      else
        l ← expect (cpp !! Z.to_nat parent);
        new_loop n' (S i) hint_graph path_cost children
          (<[Z.to_nat parent := l ++ [i]]> cpp) send_vec
  end.

Definition Scheduler_new (num : nat) (dependencies : list (list nat)) (gas_estimates : list Z)
    (m : ExecutionMode) : comp Scheduler :=
  _ ← rust_assert ((num <=? length gas_estimates) && (num <=? length dependencies));
  '(kids, cpp, send_vec) ←
    new_loop num 0 dependencies gas_estimates (replicate num []) (replicate num []) [];
  let leaf i := bool_decide (kids !! i = Some []) in
  Ret (mkScheduler num 0 false (replicate num (ReadyToExecute 0 None))
         (replicate num ValidationStatus_new) dependencies
         (List.filter leaf send_vec) (List.filter (λ i, negb (leaf i)) send_vec)
         0 m cpp kids).

(** ** Committing *)

(** [try_commit]; [got_val] and [got_exec] say whether the two read locks were
    free.  Returns the scheduler, the commit state, and the committed index. *)
Definition try_commit (got_val got_exec : bool) (s : Scheduler) (commit_state : TxnIndex * Wave) :
    comp (Scheduler * (TxnIndex * Wave) * option TxnIndex) :=
  let '(commit_idx, commit_wave) := commit_state in
  if commit_idx =? num_txns s then
    if negb (bool_decide (mode s = Pythia_Sig)) || (num_txns s <=? sig_val_idx s)
    then Ret (set_done true s, commit_state, None)
    else Ret (s, commit_state, None)
  else
    validation_status ← expect (val_status s !! commit_idx);
    status ← expect (exec_status s !! commit_idx);
    if got_val && got_exec then
      match status with
      | Executed incarnation =>
          let commit_wave := max commit_wave (max_triggered_wave validation_status) in
          match maybe_max_validated_wave validation_status with
          | Some validated_wave =>
              if max commit_wave (required_wave validation_status) <=? validated_wave
              then Ret (set_exec commit_idx (Committed incarnation) s,
                        (commit_idx + 1, commit_wave), Some commit_idx)
              else Ret (s, (commit_idx, commit_wave), None)
          | None => Ret (s, (commit_idx, commit_wave), None)
          end
      | _ => Ret (s, commit_state, None)
      end
    else Ret (s, commit_state, None).

(** ** Status changes *)

Definition try_abort (s : Scheduler) (txn_idx : TxnIndex) (incarnation : Incarnation) :
    comp (Scheduler * bool) :=
  status ← expect (exec_status s !! txn_idx);
  if status_eq status (Executed incarnation)
  then Ret (set_exec txn_idx (Aborting incarnation) s, true)
  else Ret (s, false).

Definition is_executed (s : Scheduler) (txn_idx : TxnIndex) (include_committed : bool) :
    option Incarnation :=
  match exec_status s !! txn_idx with
  | None => None
  | Some (Executed incarnation) => Some incarnation
  | Some (Committed incarnation) => if include_committed then Some incarnation else None
  | Some _ => None
  end.

(** The loop of [try_incarnate] over the dependencies, last first: the scheduler
    afterwards, and whether every dependency is executed. *)
Fixpoint check_dependencies (txn_idx : TxnIndex) (deps : list nat) (s : Scheduler) :
    comp (Scheduler * bool) :=
  match deps with
  | [] => Ret (s, true)
  | dep :: deps' =>
      if bool_decide (is_executed s dep true = None) then
        s' ← push_parent dep txn_idx s;
        if bool_decide (is_executed s' dep true = None) then Ret (s', false)
        else check_dependencies txn_idx deps' s'
      else check_dependencies txn_idx deps' s
  end.

Definition try_incarnate (s : Scheduler) (txn_idx : TxnIndex) :
    comp (Scheduler * option (Incarnation * option DependencyCondvar)) :=
  match exec_status s !! txn_idx with
  | Some (ReadyToExecute incarnation maybe_condvar) =>
      deps ← expect (hint_graph s !! txn_idx);
      '(s', ready) ← check_dependencies txn_idx (reverse deps) s;
      if ready : bool
      then Ret (set_exec txn_idx (Executing incarnation) s', Some (incarnation, maybe_condvar))
      else Ret (s', None)
  | _ => Ret (s, None)
  end.

Definition try_execute_next_version (s : Scheduler) (idx_to_execute : TxnIndex) :
    comp (Scheduler * option (Version * option DependencyCondvar)) :=
  if num_txns s <=? idx_to_execute then Ret (s, None) else
  '(s', r) ← try_incarnate s idx_to_execute;
  match (r : option (Incarnation * option DependencyCondvar)) with
  | Some (incarnation, maybe_condvar) =>
      Ret (s', Some ((idx_to_execute, incarnation), maybe_condvar))
  | None => Ret (s', None)
  end.

Definition set_executed_status (s : Scheduler) (txn_idx : TxnIndex) (incarnation : Incarnation) :
    comp Scheduler :=
  _ ← expect (exec_status s !! txn_idx);
  Ret (set_exec txn_idx (Executed incarnation) s).

Definition set_aborted_status (s : Scheduler) (txn_idx : TxnIndex) (incarnation : Incarnation) :
    comp Scheduler :=
  _ ← expect (exec_status s !! txn_idx);
  Ret (set_exec txn_idx (ReadyToExecute (incarnation + 1) None) s).

(** [suspend] and [resume] have no caller in the crate. *)
Definition suspend (s : Scheduler) (txn_idx : TxnIndex) (dep_condvar : DependencyCondvar) :
    comp Scheduler :=
  status ← expect (exec_status s !! txn_idx);
  match status with
  | Executing incarnation => Ret (set_exec txn_idx (Suspended incarnation dep_condvar) s)
  | _ => Panic
  end.

Definition resume (s : Scheduler) (txn_idx : TxnIndex) : comp Scheduler :=
  status ← expect (exec_status s !! txn_idx);
  match status with
  | Suspended incarnation dep_condvar =>
      Ret (set_exec txn_idx (ReadyToExecute incarnation (Some dep_condvar)) s)
  | _ => Ret s
  end.

(** ** The validation index *)

Definition unpack_validation_idx (v : Z) : TxnIndex * Wave :=
  (Z.to_nat (Z.land v TXN_IDX_MASK), Z.to_nat (Z.shiftr v 32)).

(** [decrease_validation_idx]: the scheduler and the new wave, if the index was
    above the target.  The [u32] addition on the wave panics on overflow; the
    shift drops the bits above 64. *)
Definition decrease_validation_idx (s : Scheduler) (target_idx : TxnIndex) :
    comp (Scheduler * option Wave) :=
  let '(txn_idx, wave) := unpack_validation_idx (validation_idx s) in
  if target_idx <? txn_idx then
    let packed := Z.lor (Z.of_nat target_idx) (wrap 64 (Z.shiftl (Z.of_nat wave + 1) 32)) in
    _ ← rust_assert (Z.of_nat wave + 1 <? 2 ^ 32)%Z;
    Ret (set_validation_idx packed s, Some (wave + 1))
  else Ret (s, None).

(** [try_validate_next_version], with [got_lock] the outcome of [valock.try_lock].
    Returns the scheduler, the new value of the caller's [finished_val_flag], and
    the version with its wave. *)
Definition try_validate_next_version (got_lock : bool) (s : Scheduler) (finished_val_flag : bool) :
    Scheduler * bool * option (Version * Wave) :=
  if got_lock then
    let '(idx_to_validate, wave) := unpack_validation_idx (validation_idx s) in
    if num_txns s <=? idx_to_validate then (s, true, None) else
    match is_executed s idx_to_validate false with
    | None => (s, finished_val_flag, None)
    | Some incarnation =>
        let '(idx_to_validate, wave) := unpack_validation_idx (validation_idx s) in
        (set_validation_idx (wrap 64 (validation_idx s + 1)) s, finished_val_flag,
         Some ((idx_to_validate, incarnation), wave))
    end
  else (s, finished_val_flag, None).

(** ** Tasks *)

Definition try_exec (s : Scheduler) : comp (Scheduler * SchedulerTask) :=
  '(s1, r1) ←
    match priochannels s with
    | txn_to_exec :: rest => try_execute_next_version (set_priochannels rest s) txn_to_exec
    | [] => Ret (s, None)
    end;
  match (r1 : option (Version * option DependencyCondvar)) with
  | Some (version, cv) => Ret (s1, ExecutionTask version cv)
  | None =>
      '(s2, r2) ←
        match channels s1 with
        | txn_to_exec :: rest => try_execute_next_version (set_channels rest s1) txn_to_exec
        | [] => Ret (s1, None)
        end;
      match (r2 : option (Version * option DependencyCondvar)) with
      | Some (version, cv) => Ret (s2, ExecutionTask version cv)
      | None => Ret (s2, NoTask)
      end
  end.

Definition next_task (got_lock : bool) (s : Scheduler) (finished_val_flag : bool) :
    comp (Scheduler * bool * SchedulerTask) :=
  if finished_val_flag && done_marker s then Ret (s, finished_val_flag, Done) else
  '(s1, ex) ← try_exec s;
  match ex with
  | NoTask =>
      if finished_val_flag then Ret (s1, finished_val_flag, NoTask) else
      let '(s2, flag, r) := try_validate_next_version got_lock s1 finished_val_flag in
      match r with
      | Some (version, wave) => Ret (s2, flag, ValidationTask version wave)
      | None => Ret (s2, flag, NoTask)
      end
  | _ => Ret (s1, finished_val_flag, ex)
  end.

(** [wait_for_dependency]: registers the waiter and never returns a condition variable. *)
Definition wait_for_dependency (s : Scheduler) (txn_idx dep_txn_idx : TxnIndex) :
    comp (Scheduler * option DependencyCondvar) :=
  s' ← push_parent dep_txn_idx txn_idx s;
  Ret (s', None).

Definition finish_validation (s : Scheduler) (txn_idx : TxnIndex) (wave : Wave) : comp Scheduler :=
  vs ← expect (val_status s !! txn_idx);
  let validated :=
    match maybe_max_validated_wave vs with
    | None => wave
    | Some prev_wave => max prev_wave wave
    end in
  Ret (set_val txn_idx
         (mkValidationStatus (max_triggered_wave vs) (required_wave vs) (Some validated)) s).

(** The loop of [finish_execution] over the registered children; [next] is the
    task found so far ([got_next] is [next ≠ NoTask]). *)
Fixpoint release_children (txs : list TxnIndex) (s : Scheduler) (next : SchedulerTask) :
    comp (Scheduler * SchedulerTask) :=
  match txs with
  | [] => Ret (s, next)
  | tx :: txs' =>
      kids ← expect (children s !! tx);
      match kids with
      | [] => release_children txs' (send tx s) next
      | _ :: _ =>
          match next with
          | NoTask =>
              '(s', r) ← try_execute_next_version s tx;
              match (r : option (Version * option DependencyCondvar)) with
              | Some (version, cv) => release_children txs' s' (ExecutionTask version cv)
              | None => release_children txs' s' NoTask
              end
          | _ => release_children txs' (send_prio tx s) next
          end
      end
  end.

Definition finish_execution (s : Scheduler) (txn_idx : TxnIndex) (incarnation : Incarnation)
    (revalidate_suffix : bool) : comp (Scheduler * SchedulerTask) :=
  s' ← set_executed_status s txn_idx incarnation;
  txs ← expect (critical_path_parent s' !! txn_idx);
  release_children txs s' NoTask.

Definition finish_abort (s : Scheduler) (txn_idx : TxnIndex) (incarnation : Incarnation) :
    comp (Scheduler * SchedulerTask) :=
  vs ← expect (val_status s !! txn_idx);
  s1 ← set_aborted_status s txn_idx incarnation;
  '(s2, r) ← decrease_validation_idx s1 txn_idx;
  let s3 :=
    match (r : option Wave) with
    | Some wave => set_val txn_idx
                     (mkValidationStatus wave (required_wave vs) (maybe_max_validated_wave vs)) s2
    | None => s2
    end in
  '(s4, inc) ← try_incarnate s3 txn_idx;
  match (inc : option (Incarnation * option DependencyCondvar)) with
  | Some (new_incarnation, maybe_condvar) =>
      Ret (s4, ExecutionTask (txn_idx, new_incarnation) maybe_condvar)
  | None => Ret (s4, NoTask)
  end.
