(* ===== verification/CommitProtocol.v ===== *)
(** * The commit protocol of the scheduler

    An abstract specification of what [scheduler.rs] promises, as a small step
    relation over the transaction statuses, the validation counter with its waves,
    the commit state and one token per worker thread.  Channels, hints and
    critical-path lists, which only decide who executes when, are left out.
    [SchedulerSafety.v] proves that every method of [Scheduler.v] implements steps
    of this relation; the invariant proved here by rule induction is what makes
    committing sound.

    Two ghost logs are kept: [p_issued] holds one ticket per validation task handed
    out, with the incarnations all lower transactions had at that moment, and
    [p_checked] the outcome of every read-set check made for a ticket. *)
From S2P Require Import Prelude MVHashMap Scheduler.
Local Open Scope nat_scope.

(** ** State *)

Record ticket : Type := mkTicket {
  t_idx : TxnIndex;
  t_inc : Incarnation;
  t_wave : Wave;
  t_snap : list Incarnation;
}.

Inductive token : Type :=
  | Idle
  | TExec (i : TxnIndex) (inc : Incarnation)
  | TVal (k : ticket)
  | TChecked (k : ticket)
  | TAbort (i : TxnIndex) (inc : Incarnation).

Record proto : Type := mkProto {
  p_num : nat;
  p_status : list ExecStatus;
  p_val : list ValidationStatus;
  p_idx : TxnIndex;
  p_wave : Wave;
  p_commit : TxnIndex * Wave;
  p_threads : list token;
  p_issued : list ticket;
  p_checked : list (ticket * bool);
  p_started : list Version;
}.

(** The incarnation a status is about. *)
Definition live (st : ExecStatus) : Incarnation :=
  match st with
  | ReadyToExecute inc _ | Executing inc | Suspended inc _
  | Executed inc | Committed inc | Aborting inc => inc
  end.

(** The incarnation whose output is in place, if the transaction has one. *)
Definition settled (st : ExecStatus) : option Incarnation :=
  match st with
  | Executed inc | Committed inc | Aborting inc => Some inc
  | _ => None
  end.

Definition is_ready (st : ExecStatus) : bool :=
  match st with ReadyToExecute _ _ => true | _ => false end.

Definition triggered (vs : list ValidationStatus) (i : nat) : Wave :=
  from_option max_triggered_wave 0 (vs !! i).

Definition snapshot (sts : list ExecStatus) (i : TxnIndex) : list Incarnation :=
  live <$> take (S i) sts.

Definition proto_init (n threads : nat) : proto :=
  mkProto n (replicate n (ReadyToExecute 0 None)) (replicate n ValidationStatus_new) 0 0 (0, 0)
    (replicate threads Idle) [] [] [].

(** The transaction a token has exclusive rights over. *)
Definition owned (tk : token) : option TxnIndex :=
  match tk with TExec i _ | TAbort i _ => Some i | _ => None end.

Definition record_wave (w : Wave) (vs : ValidationStatus) : ValidationStatus :=
  mkValidationStatus (max_triggered_wave vs) (required_wave vs)
    (Some (match maybe_max_validated_wave vs with None => w | Some w' => max w' w end)).

Definition trigger_wave (w : Wave) (vs : ValidationStatus) : ValidationStatus :=
  mkValidationStatus w (required_wave vs) (maybe_max_validated_wave vs).

(** ** Steps *)

(** What a step means to the data of the block: thread [t] completes an execution, a
    successful or a failed validation, or an abort, or waits for a lower transaction;
    every other step is quiet. *)
Inductive event : Type :=
  | Quiet
  | Waits (t : nat) (dep : TxnIndex)
  | Finished (t : nat)
  | Accepted (t : nat)
  | Refused (t : nat)
  | Undone (t : nat).

Inductive proto_act : event → proto → proto → Prop :=
  | step_incarnate n sts vs idx wv cm ths iss chk log t i inc cv :
      ths !! t = Some Idle → sts !! i = Some (ReadyToExecute inc cv) →
      proto_act Quiet (mkProto n sts vs idx wv cm ths iss chk log)
        (mkProto n (<[i := Executing inc]> sts) vs idx wv cm (<[t := TExec i inc]> ths)
           iss chk ((i, inc) :: log))
  | step_executed n sts vs idx wv cm ths iss chk log t i inc :
      ths !! t = Some (TExec i inc) →
      proto_act (Finished t) (mkProto n sts vs idx wv cm ths iss chk log)
        (mkProto n (<[i := Executed inc]> sts) vs idx wv cm (<[t := Idle]> ths) iss chk log)
  | step_issue n sts vs idx wv cm ths iss chk log t inc :
      ths !! t = Some Idle → idx < n → sts !! idx = Some (Executed inc) →
      let k := mkTicket idx inc wv (snapshot sts idx) in
      proto_act Quiet (mkProto n sts vs idx wv cm ths iss chk log)
        (mkProto n sts vs (S idx) wv cm (<[t := TVal k]> ths) (k :: iss) chk log)
  | step_valid n sts vs idx wv cm ths iss chk log t k :
      ths !! t = Some (TVal k) →
      proto_act (Accepted t) (mkProto n sts vs idx wv cm ths iss chk log)
        (mkProto n sts vs idx wv cm (<[t := TChecked k]> ths) iss ((k, true) :: chk) log)
  | step_stale n sts vs idx wv cm ths iss chk log t k :
      ths !! t = Some (TVal k) → sts !! t_idx k ≠ Some (Executed (t_inc k)) →
      proto_act (Refused t) (mkProto n sts vs idx wv cm ths iss chk log)
        (mkProto n sts vs idx wv cm (<[t := TChecked k]> ths) iss ((k, false) :: chk) log)
  | step_abort n sts vs idx wv cm ths iss chk log t k :
      ths !! t = Some (TVal k) → sts !! t_idx k = Some (Executed (t_inc k)) →
      proto_act (Refused t) (mkProto n sts vs idx wv cm ths iss chk log)
        (mkProto n (<[t_idx k := Aborting (t_inc k)]> sts) vs idx wv cm
           (<[t := TAbort (t_idx k) (t_inc k)]> ths) iss ((k, false) :: chk) log)
  | step_record n sts vs idx wv cm ths iss chk log t k v :
      ths !! t = Some (TChecked k) → vs !! t_idx k = Some v →
      proto_act Quiet (mkProto n sts vs idx wv cm ths iss chk log)
        (mkProto n sts (<[t_idx k := record_wave (t_wave k) v]> vs) idx wv cm
           (<[t := Idle]> ths) iss chk log)
  | step_aborted n sts vs idx wv cm ths iss chk log t i inc v :
      ths !! t = Some (TAbort i inc) → vs !! i = Some v →
      proto_act (Undone t) (mkProto n sts vs idx wv cm ths iss chk log)
        (if i <? idx
         then mkProto n (<[i := ReadyToExecute (inc + 1) None]> sts)
                (<[i := trigger_wave (wv + 1) v]> vs) i (wv + 1) cm (<[t := Idle]> ths) iss chk log
         else mkProto n (<[i := ReadyToExecute (inc + 1) None]> sts) vs idx wv cm
                (<[t := Idle]> ths) iss chk log)
  | step_commit n sts vs idx wv ci cw ths iss chk log inc v w :
      sts !! ci = Some (Executed inc) → vs !! ci = Some v →
      maybe_max_validated_wave v = Some w →
      max (max cw (max_triggered_wave v)) (required_wave v) ≤ w →
      proto_act Quiet (mkProto n sts vs idx wv (ci, cw) ths iss chk log)
        (mkProto n (<[ci := Committed inc]> sts) vs idx wv
           (S ci, max cw (max_triggered_wave v)) ths iss chk log)
  | step_raise n sts vs idx wv ci cw ths iss chk log v :
      vs !! ci = Some v →
      proto_act Quiet (mkProto n sts vs idx wv (ci, cw) ths iss chk log)
        (mkProto n sts vs idx wv (ci, max cw (max_triggered_wave v)) ths iss chk log).

Definition proto_step (a b : proto) : Prop := ∃ e, proto_act e a b.

(** ** The invariant *)

(** A ticket is superseded once the validation counter went back to or below its
    transaction in a later wave. *)
Definition superseded (vs : list ValidationStatus) (k : ticket) : Prop :=
  ∃ j, j ≤ t_idx k ∧ t_wave k < triggered vs j.

(** A ticket is current when everything up to its transaction still has the
    incarnations it had when the ticket was issued. *)
Definition current (sts : list ExecStatus) (k : ticket) : Prop :=
  ∀ j, j ≤ t_idx k →
    ∃ st inc, sts !! j = Some st ∧ settled st = Some inc ∧ t_snap k !! j = Some inc.

Record owner_inv (sts : list ExecStatus) (ths : list token) : Prop := mkOwnerInv {
  own_exec t i inc : ths !! t = Some (TExec i inc) → sts !! i = Some (Executing inc);
  own_abort t i inc : ths !! t = Some (TAbort i inc) → sts !! i = Some (Aborting inc);
  own_excl t t' tk tk' i :
    ths !! t = Some tk → ths !! t' = Some tk' → owned tk = Some i → owned tk' = Some i → t = t';
  own_executing i inc : sts !! i = Some (Executing inc) → ∃ t, ths !! t = Some (TExec i inc);
  own_aborting i inc : sts !! i = Some (Aborting inc) → ∃ t, ths !! t = Some (TAbort i inc);
  own_suspended i inc cv : sts !! i ≠ Some (Suspended inc cv);
}.

(** The validation counter never passes a transaction without an output. *)
Definition gate_inv (sts : list ExecStatus) (idx : nat) : Prop :=
  ∀ j, j < idx → ∃ st inc, sts !! j = Some st ∧ settled st = Some inc.

Definition wave_inv (vs : list ValidationStatus) (wv : Wave) : Prop := ∀ j, triggered vs j ≤ wv.

Definition ticket_inv (sts : list ExecStatus) (vs : list ValidationStatus) (idx : nat) (wv : Wave)
    (iss : list ticket) : Prop :=
  ∀ k, k ∈ iss →
    t_wave k ≤ wv ∧ t_snap k !! t_idx k = Some (t_inc k) ∧
    (superseded vs k ∨ t_idx k < idx ∧ current sts k).

Definition ticket_inc_inv (sts : list ExecStatus) (iss : list ticket) : Prop :=
  ∀ k, k ∈ iss →
    ∃ st, sts !! t_idx k = Some st ∧ (t_inc k < live st ∨ settled st = Some (t_inc k)).

Record token_inv (ths : list token) (iss : list ticket) (chk : list (ticket * bool)) : Prop :=
  mkTokenInv {
  tok_val t k : ths !! t = Some (TVal k) → k ∈ iss;
  tok_checked t k : ths !! t = Some (TChecked k) → ∃ b, (k, b) ∈ chk;
  tok_issued k b : (k, b) ∈ chk → k ∈ iss;
}.

Definition failed_inv (sts : list ExecStatus) (chk : list (ticket * bool)) : Prop :=
  ∀ k, (k, false) ∈ chk → sts !! t_idx k ≠ Some (Executed (t_inc k)).

Definition validated_inv (vs : list ValidationStatus) (chk : list (ticket * bool)) : Prop :=
  ∀ i v w, vs !! i = Some v → maybe_max_validated_wave v = Some w →
    ∃ k b, (k, b) ∈ chk ∧ t_idx k = i ∧ t_wave k = w.

Record commit_inv (sts : list ExecStatus) (vs : list ValidationStatus) (cm : nat * Wave) : Prop :=
  mkCommitInv {
  com_prefix j : j < cm.1 → ∃ inc, sts !! j = Some (Committed inc);
  com_only j inc : sts !! j = Some (Committed inc) → j < cm.1;
  com_wave j : j < cm.1 → triggered vs j ≤ cm.2;
}.

Definition cert_inv (sts : list ExecStatus) (chk : list (ticket * bool)) : Prop :=
  ∀ j inc, sts !! j = Some (Committed inc) →
    ∃ k, (k, true) ∈ chk ∧ t_idx k = j ∧ t_inc k = inc ∧ current sts k.

Record started_inv (sts : list ExecStatus) (log : list Version) : Prop := mkStartedInv {
  sta_live i inc : (i, inc) ∈ log →
    ∃ st, sts !! i = Some st ∧ (inc < live st ∨ inc = live st ∧ is_ready st = false);
  sta_nodup : NoDup log;
}.

Record proto_inv (a : proto) : Prop := mkProtoInv {
  inv_status_len : length (p_status a) = p_num a;
  inv_val_len : length (p_val a) = p_num a;
  inv_idx : p_idx a ≤ p_num a;
  inv_commit_idx : (p_commit a).1 ≤ p_num a;
  inv_owner : owner_inv (p_status a) (p_threads a);
  inv_gate : gate_inv (p_status a) (p_idx a);
  inv_wave : wave_inv (p_val a) (p_wave a);
  inv_ticket : ticket_inv (p_status a) (p_val a) (p_idx a) (p_wave a) (p_issued a);
  inv_ticket_inc : ticket_inc_inv (p_status a) (p_issued a);
  inv_token : token_inv (p_threads a) (p_issued a) (p_checked a);
  inv_failed : failed_inv (p_status a) (p_checked a);
  inv_validated : validated_inv (p_val a) (p_checked a);
  inv_commit : commit_inv (p_status a) (p_val a) (p_commit a);
  inv_cert : cert_inv (p_status a) (p_checked a);
  inv_started : started_inv (p_status a) (p_started a);
}.

(** ** Updating one status *)

Lemma lookup_upd {A} (l : list A) (i j : nat) (x y : A) :
  l !! i = Some x → <[i := y]> l !! j = if decide (i = j) then Some y else l !! j.
Proof.
  intros Hi. rw list_lookup_insert. apply lookup_lt_Some in Hi.
  repeat case_decide; naive_solver.
Qed.

(** Rewrites every lookup in an updated list and splits on the index. *)
Ltac upd :=
  repeat match goal with
    | Hi : ?l !! ?i = Some ?x, H : context [ <[?i := ?y]> ?l !! ?j ] |- _ =>
        rewrite (lookup_upd l i j x y Hi) in H
    | Hi : ?l !! ?i = Some ?x |- context [ <[?i := ?y]> ?l !! ?j ] =>
        rewrite (lookup_upd l i j x y Hi)
    end;
  repeat case_decide; simplify_eq/=.

(** What an update of a status does not undo: the output in place. *)
Definition keeps (st st' : ExecStatus) : Prop :=
  ∀ inc, settled st = Some inc → settled st' = Some inc.

Section status_update.
Context (sts : list ExecStatus) (i : nat) (st st' : ExecStatus) (Hi : sts !! i = Some st).

Lemma gate_update idx : keeps st st' → gate_inv sts idx → gate_inv (<[i := st']> sts) idx.
Proof.
  intros Hk Hg j Hj. destruct (Hg j Hj) as (s & inc & Hs & Hset).
  upd; [|eauto]. exists st', inc. split; [done|]. by apply Hk.
Qed.

Lemma current_update k : keeps st st' → current sts k → current (<[i := st']> sts) k.
Proof.
  intros Hk Hc j Hj. destruct (Hc j Hj) as (s & inc & Hs & Hset & Hsn).
  upd; [|eauto]. exists st', inc. split; [done|]. split; [by apply Hk|done].
Qed.

Lemma ticket_update vs idx wv iss :
  keeps st st' → ticket_inv sts vs idx wv iss → ticket_inv (<[i := st']> sts) vs idx wv iss.
Proof.
  intros Hk Ht k Hin. destruct (Ht k Hin) as (? & ? & [|[??]]); [by auto|].
  split_and!; [done|done|right; split; [done|by apply current_update]].
Qed.

Lemma ticket_inc_update iss :
  live st ≤ live st' →
  (∀ inc, settled st = Some inc → settled st' = Some inc ∨ inc < live st') →
  ticket_inc_inv sts iss → ticket_inc_inv (<[i := st']> sts) iss.
Proof.
  intros Hl Hk Ht k Hin. destruct (Ht k Hin) as (s & Hs & Hc).
  upd; [|eauto]. exists st'. split; [done|]. destruct Hc as [Hc|Hc]; [left; lia|].
  destruct (Hk _ Hc); auto.
Qed.

Lemma failed_update chk :
  (∀ k, (k, false) ∈ chk → t_idx k = i → st' ≠ Executed (t_inc k)) →
  failed_inv sts chk → failed_inv (<[i := st']> sts) chk.
Proof. intros Hne Hf k Hin Heq. upd; [by eapply Hne|by eapply Hf]. Qed.

Lemma commit_update vs cm :
  (∀ inc, st ≠ Committed inc) → (∀ inc, st' ≠ Committed inc) →
  commit_inv sts vs cm → commit_inv (<[i := st']> sts) vs cm.
Proof.
  intros Hst Hst' [H1 H2 H3]. split; [|intros j inc Hj; upd; naive_solver|done].
  intros j Hj. destruct (H1 j Hj) as [inc ?]. upd; naive_solver.
Qed.

Lemma cert_update chk :
  keeps st st' → (∀ inc, st' ≠ Committed inc) →
  cert_inv sts chk → cert_inv (<[i := st']> sts) chk.
Proof.
  intros Hk Hst' Hc j inc Hj. upd; [naive_solver|].
  destruct (Hc j inc) as (k & ? & ? & ? & ?); [done|].
  exists k. split_and!; [done..|]. by apply current_update.
Qed.

Lemma started_update log :
  live st ≤ live st' → (is_ready st' = false ∨ live st < live st') →
  started_inv sts log → started_inv (<[i := st']> sts) log.
Proof.
  intros Hl Hr [H1 H2]. split; [|done]. intros j inc Hin.
  destruct (H1 j inc Hin) as (s & Hs & Hc). upd; [|eauto].
  exists st'. split; [done|]. destruct Hr, Hc as [?|[-> ?]]; try (left; lia).
  destruct (decide (live st = live st')); [by right|left; lia].
Qed.
End status_update.

(** ** Moving one token *)

Lemma owner_move sts ths i st st' t tk tk' :
  sts !! i = Some st → ths !! t = Some tk → owner_inv sts ths →
  (owned tk = Some i ∨ ¬ ∃ t' tk', ths !! t' = Some tk' ∧ owned tk' = Some i) →
  (owned tk = None ∨ owned tk = Some i) →
  match st' with
  | Executing inc => tk' = TExec i inc
  | Aborting inc => tk' = TAbort i inc
  | Suspended _ _ => False
  | _ => owned tk' = None
  end →
  owner_inv (<[i := st']> sts) (<[t := tk']> ths).
Proof.
  intros Hi Ht [H1 H2 H3 H4 H5 H6] Hfree Htk Hst'.
  assert (Hown : ∀ t' x, ths !! t' = Some x → owned x = Some i → t' = t).
  { intros t' x Hx Ho. destruct Hfree as [Hf|Hf]; [by eapply H3|]. destruct Hf. eauto. }
  assert (Htk' : ∀ x, owned tk' = Some x → x = i) by (destruct st'; naive_solver).
  split.
  - intros t' j inc Hx. upd; [destruct st'; naive_solver|destruct st'; naive_solver| |by eauto].
    by destruct (Hown t' (TExec j inc)).
  - intros t' j inc Hx. upd; [destruct st'; naive_solver|destruct st'; naive_solver| |by eauto].
    by destruct (Hown t' (TAbort j inc)).
  - intros t1 t2 k1 k2 j Hk1 Hk2 Ho1 Ho2. upd; [done| | |by eauto].
    + apply Htk' in Ho1 as ->. by destruct (Hown t2 k2).
    + apply Htk' in Ho2 as ->. by destruct (Hown t1 k1).
  - intros j inc Hj. upd; [by exists t; upd|]. destruct (H4 j inc Hj) as [t' Ht'].
    exists t'. upd; naive_solver.
  - intros j inc Hj. upd; [by exists t; upd|]. destruct (H5 j inc Hj) as [t' Ht'].
    exists t'. upd; naive_solver.
  - intros j inc cv Hj. upd; naive_solver.
Qed.

(** A thread that owns nothing moves to a token that owns nothing. *)
Lemma owner_idle sts ths t tk tk' :
  ths !! t = Some tk → owned tk = None → owned tk' = None →
  owner_inv sts ths → owner_inv sts (<[t := tk']> ths).
Proof.
  intros Ht Hn Hn' [H1 H2 H3 H4 H5 H6]. split; [..|done].
  - intros t' j inc Hx. upd; eauto.
  - intros t' j inc Hx. upd; eauto.
  - intros t1 t2 k1 k2 j Hk1 Hk2 Ho1 Ho2. upd; eauto.
  - intros j inc Hj. destruct (H4 j inc Hj) as [t' Ht']. exists t'. upd; naive_solver.
  - intros j inc Hj. destruct (H5 j inc Hj) as [t' Ht']. exists t'. upd; naive_solver.
Qed.

(** Only the owner of a transaction keeps it executing or aborting. *)
Lemma unowned sts ths i st :
  owner_inv sts ths → sts !! i = Some st →
  (∀ inc, st ≠ Executing inc) → (∀ inc, st ≠ Aborting inc) →
  ¬ ∃ t tk, ths !! t = Some tk ∧ owned tk = Some i.
Proof.
  intros [H1 H2 _ _ _ _] Hi He Ha (t & tk & Ht & Ho).
  destruct tk; simplify_eq/=; [apply H1 in Ht|apply H2 in Ht]; naive_solver.
Qed.

Lemma token_move ths iss chk t tk tk' :
  ths !! t = Some tk →
  match tk' with
  | TVal k => k ∈ iss
  | TChecked k => ∃ b, (k, b) ∈ chk
  | _ => True
  end →
  token_inv ths iss chk → token_inv (<[t := tk']> ths) iss chk.
Proof.
  intros Ht Hk [H1 H2 H3]. split; [| |done]; intros t' k Hx; upd; eauto.
Qed.

Lemma settled_live st inc : settled st = Some inc → live st = inc.
Proof. by destruct st; intros [=]. Qed.

Lemma snapshot_lookup sts i j st :
  j ≤ i → sts !! j = Some st → snapshot sts i !! j = Some (live st).
Proof.
  intros Hj Hst. rw /snapshot list_lookup_fmap lookup_take_lt; [lia|]. by rw Hst.
Qed.

(** A log of checks only grows. *)
Lemma checked_more sts vs ths iss chk k b :
  k ∈ iss → (b = false → sts !! t_idx k ≠ Some (Executed (t_inc k))) →
  token_inv ths iss chk → failed_inv sts chk → validated_inv vs chk → cert_inv sts chk →
  token_inv ths iss ((k, b) :: chk) ∧ failed_inv sts ((k, b) :: chk) ∧
  validated_inv vs ((k, b) :: chk) ∧ cert_inv sts ((k, b) :: chk).
Proof.
  intros Hk Hb [T1 T2 T3] Hf Hv Hc. split_and!.
  - split; [done| |].
    + intros t k' Ht. destruct (T2 t k' Ht) as [b' ?]. exists b'. by apply list_elem_of_further.
    + intros k' b' [[= -> ->]|Hin]%elem_of_cons; eauto.
  - intros k' [[= -> ?]|Hin]%elem_of_cons; eauto.
  - intros i v w Hi Hw. destruct (Hv i v w Hi Hw) as (k' & b' & ? & ? & ?).
    exists k', b'. split_and!; [by apply list_elem_of_further|done..].
  - intros j inc Hj. destruct (Hc j inc Hj) as (k' & ? & ? & ? & ?).
    exists k'. split_and!; [by apply list_elem_of_further|done..].
Qed.

(** ** Each step preserves the invariant *)

Ltac shape := rewrite ?length_insert; try assumption.

Lemma incarnate_inv n sts vs idx wv cm ths iss chk log t i inc cv :
  ths !! t = Some Idle → sts !! i = Some (ReadyToExecute inc cv) →
  proto_inv (mkProto n sts vs idx wv cm ths iss chk log) →
  proto_inv (mkProto n (<[i := Executing inc]> sts) vs idx wv cm (<[t := TExec i inc]> ths)
               iss chk ((i, inc) :: log)).
Proof.
  intros Ht Hi [L1 L2 L3 L4 Ho Hg Hw Htk Htki Htok Hf Hv Hc Hce Hs]; simpl in *.
  assert (Hk : keeps (ReadyToExecute inc cv) (Executing inc)) by done.
  split; simpl; shape.
  - eapply owner_move; [done..| |by left|done].
    right. eapply unowned; [done..|]; naive_solver.
  - by eapply gate_update.
  - by eapply ticket_update.
  - eapply ticket_inc_update; [done..| |done]. naive_solver.
  - by eapply token_move.
  - by eapply failed_update.
  - eapply commit_update; [done|naive_solver..].
  - eapply cert_update; [done|done|naive_solver|done].
  - assert (Hnew : (i, inc) ∉ log).
    { intros Hin. destruct Hs as [Hs _]. destruct (Hs i inc Hin) as (st & ? & ?).
      simplify_eq/=. naive_solver lia. }
    destruct (started_update _ _ _ (Executing inc) Hi log) as [H1 H2]; [done|by left|done|].
    split; [|by constructor].
    intros j inc' [[= -> ->]|Hin]%elem_of_cons; [|by eauto].
    exists (Executing inc). upd. split; [done|by right].
Qed.

Lemma executed_inv n sts vs idx wv cm ths iss chk log t i inc :
  ths !! t = Some (TExec i inc) →
  proto_inv (mkProto n sts vs idx wv cm ths iss chk log) →
  proto_inv (mkProto n (<[i := Executed inc]> sts) vs idx wv cm (<[t := Idle]> ths) iss chk log).
Proof.
  intros Ht [L1 L2 L3 L4 Ho Hg Hw Htk Htki Htok Hf Hv Hc Hce Hs]; simpl in *.
  assert (Hi := own_exec _ _ Ho _ _ _ Ht).
  assert (Hk : keeps (Executing inc) (Executed inc)) by done.
  split; simpl; shape.
  - eapply owner_move; [done..|by left|by right|done].
  - by eapply gate_update.
  - by eapply ticket_update.
  - eapply ticket_inc_update; [done..| |done]. naive_solver.
  - by eapply token_move.
  - eapply failed_update; [done| |done]. intros k Hin <- [= Heq].
    destruct (Htki k) as (st & Hst & Hor); [by eapply tok_issued|].
    rewrite Hi in Hst. simplify_eq/=. naive_solver lia.
  - eapply commit_update; [done|naive_solver..].
  - eapply cert_update; [done|done|naive_solver|done].
  - eapply started_update; [done|done|by left|done].
Qed.

Lemma issue_inv n sts vs idx wv cm ths iss chk log t inc :
  ths !! t = Some Idle → idx < n → sts !! idx = Some (Executed inc) →
  proto_inv (mkProto n sts vs idx wv cm ths iss chk log) →
  let k := mkTicket idx inc wv (snapshot sts idx) in
  proto_inv (mkProto n sts vs (S idx) wv cm (<[t := TVal k]> ths) (k :: iss) chk log).
Proof.
  intros Ht Hlt Hi [L1 L2 L3 L4 Ho Hg Hw Htk Htki Htok Hf Hv Hc Hce Hs] k; simpl in *.
  assert (Hg' : gate_inv sts (S idx)).
  { intros j Hj. destruct (decide (j = idx)) as [->|]; [by exists (Executed inc), inc|].
    apply Hg. lia. }
  split; simpl; shape.
  - by eapply owner_idle.
  - intros k' [->|Hin]%elem_of_cons.
    + split_and!; [done|by rewrite /= (snapshot_lookup _ _ _ _ _ Hi)|].
      right. split; [simpl; lia|]. intros j Hj. simpl in *.
      destruct (Hg' j) as (st & inc' & Hst & Hset); [lia|]. exists st, inc'.
      split_and!; [done..|]. rewrite (snapshot_lookup _ _ _ _ Hj Hst). f_equal. by apply settled_live.
    + destruct (Htk k' Hin) as (? & ? & [?|[? ?]]); split_and!; auto.
  - intros k' [->|Hin]%elem_of_cons; [|by eauto]. exists (Executed inc). by auto.
  - eapply token_move; [done|by apply list_elem_of_here|].
    destruct Htok as [T1 T2 T3]. split; [|done|]; intros; apply list_elem_of_further; eauto.
Qed.

Lemma valid_inv n sts vs idx wv cm ths iss chk log t k :
  ths !! t = Some (TVal k) →
  proto_inv (mkProto n sts vs idx wv cm ths iss chk log) →
  proto_inv (mkProto n sts vs idx wv cm (<[t := TChecked k]> ths) iss ((k, true) :: chk) log).
Proof.
  intros Ht [L1 L2 L3 L4 Ho Hg Hw Htk Htki Htok Hf Hv Hc Hce Hs]; simpl in *.
  destruct (checked_more sts vs ths iss chk k true) as (? & ? & ? & ?);
    [by eapply tok_val|done..|].
  split; simpl; shape; [by eapply owner_idle|].
  eapply token_move; [done| |done]. exists true. by apply list_elem_of_here.
Qed.

Lemma stale_inv n sts vs idx wv cm ths iss chk log t k :
  ths !! t = Some (TVal k) → sts !! t_idx k ≠ Some (Executed (t_inc k)) →
  proto_inv (mkProto n sts vs idx wv cm ths iss chk log) →
  proto_inv (mkProto n sts vs idx wv cm (<[t := TChecked k]> ths) iss ((k, false) :: chk) log).
Proof.
  intros Ht Hst [L1 L2 L3 L4 Ho Hg Hw Htk Htki Htok Hf Hv Hc Hce Hs]; simpl in *.
  destruct (checked_more sts vs ths iss chk k false) as (? & ? & ? & ?);
    [by eapply tok_val|done..|].
  split; simpl; shape; [by eapply owner_idle|].
  eapply token_move; [done| |done]. exists false. by apply list_elem_of_here.
Qed.

Lemma abort_inv n sts vs idx wv cm ths iss chk log t k :
  ths !! t = Some (TVal k) → sts !! t_idx k = Some (Executed (t_inc k)) →
  proto_inv (mkProto n sts vs idx wv cm ths iss chk log) →
  proto_inv (mkProto n (<[t_idx k := Aborting (t_inc k)]> sts) vs idx wv cm
               (<[t := TAbort (t_idx k) (t_inc k)]> ths) iss ((k, false) :: chk) log).
Proof.
  intros Ht Hi [L1 L2 L3 L4 Ho Hg Hw Htk Htki Htok Hf Hv Hc Hce Hs]; simpl in *.
  assert (Hk : keeps (Executed (t_inc k)) (Aborting (t_inc k))) by (by intros ? [= ->]).
  destruct (checked_more (<[t_idx k := Aborting (t_inc k)]> sts) vs ths iss chk k false)
    as (? & ? & ? & ?); [by eapply tok_val|intros _ ?; by upd|done| |done| |].
  { eapply failed_update; [done| |done]. intros ? ? ? [=]. }
  { eapply cert_update; [done|done|naive_solver|done]. }
  split; simpl; shape.
  - eapply owner_move; [done..| |by left|done].
    right. eapply unowned; [done..|]; naive_solver.
  - by eapply gate_update.
  - by eapply ticket_update.
  - eapply ticket_inc_update; [done..| |done]. naive_solver.
  - by eapply token_move.
  - eapply commit_update; [done|naive_solver..].
  - eapply started_update; [done|done|by left|done].
Qed.

Lemma triggered_upd vs i j v v' :
  vs !! i = Some v →
  triggered (<[i := v']> vs) j = if decide (i = j) then max_triggered_wave v' else triggered vs j.
Proof. intros Hi. rw /triggered (lookup_upd _ _ _ _ _ Hi). by case_decide. Qed.

Lemma triggered_same vs i j v v' :
  vs !! i = Some v → max_triggered_wave v' = max_triggered_wave v →
  triggered (<[i := v']> vs) j = triggered vs j.
Proof.
  intros Hi Heq. rw (triggered_upd _ _ _ _ _ Hi). case_decide; [|done]. subst j.
  by rw /triggered Hi.
Qed.

Lemma record_inv n sts vs idx wv cm ths iss chk log t k v :
  ths !! t = Some (TChecked k) → vs !! t_idx k = Some v →
  proto_inv (mkProto n sts vs idx wv cm ths iss chk log) →
  proto_inv (mkProto n sts (<[t_idx k := record_wave (t_wave k) v]> vs) idx wv cm
               (<[t := Idle]> ths) iss chk log).
Proof.
  intros Ht Hi [L1 L2 L3 L4 Ho Hg Hw Htk Htki Htok Hf Hv Hc Hce Hs]; simpl in *.
  assert (Htr : ∀ j, triggered (<[t_idx k := record_wave (t_wave k) v]> vs) j = triggered vs j)
    by (intros j; by apply (triggered_same _ _ _ v)).
  split; simpl; shape.
  - by eapply owner_idle.
  - intros j. rw Htr. apply Hw.
  - intros k' Hin. destruct (Htk k' Hin) as (? & ? & [(j & ? & ?)|?]); split_and!; auto.
    left. exists j. by rw Htr.
  - by eapply token_move.
  - intros i v' w Hv' Hw'. upd; [|by eauto].
    destruct (tok_checked _ _ _ Htok _ _ Ht) as [b Hb].
    destruct (maybe_max_validated_wave v) as [w'|] eqn:Hm; [|by exists k, b].
    destruct (decide (w' ≤ t_wave k)).
    + exists k, b. split_and!; [done..|lia].
    + destruct (Hv _ _ _ Hi Hm) as (k' & b' & ? & ? & ?). exists k', b'. split_and!; [done..|lia].
  - destruct Hc as [C1 C2 C3]. split; [done..|]. intros j Hj. rw Htr. by apply C3.
Qed.

Lemma current_below sts i st' k :
  t_idx k < i → current sts k → current (<[i := st']> sts) k.
Proof.
  intros Hlt Hc j Hj. rw list_lookup_insert_ne; [lia|]. by apply Hc.
Qed.

(** The part of an abort that does not depend on the validation counter. *)
Lemma aborted_status n sts vs idx wv cm ths iss chk log t i inc :
  ths !! t = Some (TAbort i inc) →
  proto_inv (mkProto n sts vs idx wv cm ths iss chk log) →
  let sts' := <[i := ReadyToExecute (inc + 1) None]> sts in
  owner_inv sts' (<[t := Idle]> ths) ∧ ticket_inc_inv sts' iss ∧ failed_inv sts' chk ∧
  commit_inv sts' vs cm ∧ cert_inv sts' chk ∧ started_inv sts' log ∧ cm.1 ≤ i.
Proof.
  intros Ht [L1 L2 L3 L4 Ho Hg Hw Htk Htki Htok Hf Hv Hc Hce Hs] sts'; simpl in *.
  assert (Hi := own_abort _ _ Ho _ _ _ Ht).
  assert (Hci : cm.1 ≤ i).
  { destruct (decide (i < cm.1)) as [Hlt|]; [|lia]. apply Hc in Hlt as [? ?]. naive_solver. }
  split_and!; [..|done].
  - eapply owner_move; [done..|by left|by right|done].
  - eapply ticket_inc_update; [done|simpl; lia| |done]. intros inc' [= <-]. right. simpl. lia.
  - by eapply failed_update.
  - eapply commit_update; [done|naive_solver..].
  - intros j inc' Hj. unfold sts' in *. upd.
    destruct (Hce j inc') as (k & ? & ? & ? & ?); [done|]. exists k. split_and!; [done..|].
    apply current_below; [|done]. apply (com_only _ _ _ Hc) in Hj. lia.
  - eapply started_update; [done|simpl; lia|right; simpl; lia|done].
Qed.

Lemma aborted_inv n sts vs idx wv cm ths iss chk log t i inc v :
  ths !! t = Some (TAbort i inc) → vs !! i = Some v →
  proto_inv (mkProto n sts vs idx wv cm ths iss chk log) →
  proto_inv
    (if i <? idx
     then mkProto n (<[i := ReadyToExecute (inc + 1) None]> sts)
            (<[i := trigger_wave (wv + 1) v]> vs) i (wv + 1) cm (<[t := Idle]> ths) iss chk log
     else mkProto n (<[i := ReadyToExecute (inc + 1) None]> sts) vs idx wv cm
            (<[t := Idle]> ths) iss chk log).
Proof.
  intros Ht Hi Hinv.
  destruct (aborted_status _ _ _ _ _ _ _ _ _ _ _ _ _ Ht Hinv) as (? & ? & ? & Hc' & ? & ? & Hci).
  destruct Hinv as [L1 L2 L3 L4 Ho Hg Hw Htk Htki Htok Hf Hv Hc Hce Hs]; simpl in *.
  assert (Hgate : ∀ m, m ≤ i → m ≤ idx → gate_inv (<[i := ReadyToExecute (inc + 1) None]> sts) m).
  { intros m Hm Hm' j Hj. rw list_lookup_insert_ne; [lia|]. apply Hg. lia. }
  destruct (Nat.ltb_spec i idx) as [Hlt|Hge].
  - assert (Htr : ∀ j, triggered (<[i := trigger_wave (wv + 1) v]> vs) j =
                       if decide (i = j) then wv + 1 else triggered vs j)
      by (intros j; by rw (triggered_upd _ _ _ _ _ Hi)).
    split; simpl; shape.
    + lia.
    + apply Hgate; lia.
    + intros j. rw Htr. case_decide; [done|]. specialize (Hw j). lia.
    + intros k Hin. destruct (Htk k Hin) as (? & ? & Hor). split_and!; [lia|done|].
      destruct (decide (i ≤ t_idx k)).
      { left. exists i. split; [done|]. rw Htr decide_True //. lia. }
      destruct Hor as [(j & ? & ?)|[? ?]].
      * left. exists j. split; [done|]. rw Htr. case_decide; lia.
      * right. split; [lia|]. apply current_below; [lia|done].
    + by eapply token_move.
    + intros j v' w Hj Hw'. upd; eauto.
    + destruct Hc' as [C1 C2 C3]. split; [done..|]. intros j Hj. rw Htr decide_False; [|by apply C3].
      lia.
  - split; simpl; shape.
    + apply Hgate; lia.
    + intros k Hin. destruct (Htk k Hin) as (? & ? & [?|[? ?]]); split_and!; auto.
      right. split; [done|]. apply current_below; [lia|done].
    + by eapply token_move.
Qed.

Lemma raise_inv n sts vs idx wv ci cw ths iss chk log v :
  vs !! ci = Some v →
  proto_inv (mkProto n sts vs idx wv (ci, cw) ths iss chk log) →
  proto_inv (mkProto n sts vs idx wv (ci, max cw (max_triggered_wave v)) ths iss chk log).
Proof.
  intros Hv [L1 L2 L3 L4 Ho Hg Hw Htk Htki Htok Hf Hva Hc Hce Hs]; simpl in *.
  split; simpl; shape. destruct Hc as [C1 C2 C3]; split; simpl in *; [done..|].
  intros j Hj. specialize (C3 j Hj). lia.
Qed.

(** The argument for committing: the recorded wave belongs to a check of the
    incarnation in place, the check succeeded, and nothing below has changed since
    its ticket was issued. *)
Lemma commit_certificate n sts vs idx wv ci cw ths iss chk log inc v w :
  sts !! ci = Some (Executed inc) → vs !! ci = Some v →
  maybe_max_validated_wave v = Some w →
  max (max cw (max_triggered_wave v)) (required_wave v) ≤ w →
  proto_inv (mkProto n sts vs idx wv (ci, cw) ths iss chk log) →
  ∃ k, (k, true) ∈ chk ∧ t_idx k = ci ∧ t_inc k = inc ∧ current sts k.
Proof.
  intros Hi Hv Hm Hle [L1 L2 L3 L4 Ho Hg Hw Htk Htki Htok Hf Hva Hc Hce Hs]; simpl in *.
  destruct (Hva _ _ _ Hv Hm) as (k & b & Hin & Hk & Hwk).
  destruct (Htk k) as (_ & Hsn & [(j & Hj & Hjw)|[_ Hcur]]); [by eapply tok_issued| |].
  - exfalso. destruct (decide (j = ci)) as [->|Hne].
    + rw /triggered Hv /= in Hjw. lia.
    + pose proof (com_wave _ _ _ Hc j) as Hc3. simpl in Hc3. lia.
  - destruct (Hcur (t_idx k)) as (st & inc' & Hst & Hset & Hsn'); [lia|].
    rewrite Hk in Hst. simplify_eq/=.
    destruct b; [by exists k|]. exfalso. by apply (Hf k Hin).
Qed.

Lemma committed_inv n sts vs idx wv ci cw ths iss chk log inc v w :
  sts !! ci = Some (Executed inc) → vs !! ci = Some v →
  maybe_max_validated_wave v = Some w →
  max (max cw (max_triggered_wave v)) (required_wave v) ≤ w →
  proto_inv (mkProto n sts vs idx wv (ci, cw) ths iss chk log) →
  proto_inv (mkProto n (<[ci := Committed inc]> sts) vs idx wv
               (S ci, max cw (max_triggered_wave v)) ths iss chk log).
Proof.
  intros Hi Hv Hm Hle Hinv.
  destruct (commit_certificate _ _ _ _ _ _ _ _ _ _ _ _ _ _ Hi Hv Hm Hle Hinv) as (k & ? & ? & ? & ?).
  destruct Hinv as [L1 L2 L3 L4 Ho Hg Hw Htk Htki Htok Hf Hva Hc Hce Hs]; simpl in *.
  assert (Hk : keeps (Executed inc) (Committed inc)) by (by intros ? [= ->]).
  split; simpl; shape.
  - apply lookup_lt_Some in Hi. lia.
  - destruct Ho as [O1 O2 O3 O4 O5 O6]. split.
    + intros t i inc' Ht. apply O1 in Ht. by upd.
    + intros t i inc' Ht. apply O2 in Ht. by upd.
    + done.
    + intros i inc' Hx. upd. by eauto.
    + intros i inc' Hx. upd. by eauto.
    + intros i inc' cv Hx. upd. by eapply O6.
  - by eapply gate_update.
  - by eapply ticket_update.
  - eapply ticket_inc_update; [done..| |done]. naive_solver.
  - eapply failed_update; [done| |done]. intros ? ? ? [=].
  - destruct Hc as [C1 C2 C3]. split; simpl in *.
    + intros j Hj. upd; [by eauto|]. apply C1. lia.
    + intros j inc' Hj. upd; [lia|]. apply C2 in Hj. lia.
    + intros j Hj. destruct (decide (j = ci)) as [->|]; [rw /triggered Hv /=; lia|].
      specialize (C3 j). lia.
  - intros j inc' Hj. upd.
    + exists k. split_and!; [done..|]. by eapply current_update.
    + destruct (Hce j inc') as (k' & ? & ? & ? & ?); [done|]. exists k'. split_and!; [done..|].
      by eapply current_update.
  - eapply started_update; [done|done|by left|done].
Qed.

Lemma proto_step_inv a b : proto_inv a → proto_step a b → proto_inv b.
Proof.
  intros Hinv [e Hstep]. destruct Hstep.
  - by eapply incarnate_inv.
  - by eapply executed_inv.
  - by eapply issue_inv.
  - by apply valid_inv.
  - by apply stale_inv.
  - by apply abort_inv.
  - by apply record_inv.
  - by apply aborted_inv.
  - by eapply committed_inv.
  - by eapply raise_inv.
Qed.

Lemma proto_init_inv n threads : proto_inv (proto_init n threads).
Proof.
  split; simpl; rewrite ?length_replicate; try lia; try done.
  - split.
    + intros t i inc [[=] _]%lookup_replicate.
    + intros t i inc [[=] _]%lookup_replicate.
    + intros t t' tk tk' i Ht _ Ho _. apply lookup_replicate in Ht as [-> _]. discriminate.
    + intros i inc [[=] _]%lookup_replicate.
    + intros i inc [[=] _]%lookup_replicate.
    + intros i inc cv [[=] _]%lookup_replicate.
  - intros j Hj. lia.
  - intros j. rw /triggered. destruct (replicate _ _ !! j) eqn:Hj; [|done].
    apply lookup_replicate in Hj as [-> _]. done.
  - intros k Hin. by apply elem_of_nil in Hin.
  - intros k Hin. by apply elem_of_nil in Hin.
  - split.
    + intros t k [[=] _]%lookup_replicate.
    + intros t k [[=] _]%lookup_replicate.
    + intros k b Hin. by apply elem_of_nil in Hin.
  - intros k Hin. by apply elem_of_nil in Hin.
  - intros i v w [-> _]%lookup_replicate [=].
  - split; simpl; [lia| |lia]. intros j inc [[=] _]%lookup_replicate.
  - intros j inc [[=] _]%lookup_replicate.
  - split; [|constructor]. intros i inc Hin. by apply elem_of_nil in Hin.
Qed.

Definition proto_reachable (n threads : nat) (a : proto) : Prop :=
  rtc proto_step (proto_init n threads) a.

Lemma proto_reachable_inv n threads a : proto_reachable n threads a → proto_inv a.
Proof.
  intros Hr. eapply rtc_invariant; [apply proto_step_inv|exact Hr|apply proto_init_inv].
Qed.

Lemma proto_reachable_num n threads a : proto_reachable n threads a → p_num a = n.
Proof.
  intros Hr. apply (rtc_invariant proto_step (λ a, p_num a = n) _ _) in Hr; [done| |done].
  intros x y Hx [e Hs]. destruct Hs; simpl in *; try done. by case_match.
Qed.
