(* ===== verification/CommitProgress.v ===== *)
(** * Progress of the commit protocol

    The second invariant of [CommitProtocol.v]: every transaction the validation
    counter has passed has a ticket that is still good and is either in the hands
    of a thread, recorded, or being aborted; and the wave the committer waits for
    is never above the waves that were triggered.  Together they show that the
    committer never waits for a validation nobody will perform. *)
From S2P Require Import Prelude MVHashMap Scheduler CommitProtocol.
Local Open Scope nat_scope.

(** Ticket [k] is on its way into the validation status of its transaction, or
    already there, or the transaction is being aborted. *)
Definition pending (sts : list ExecStatus) (vs : list ValidationStatus) (ths : list token)
    (k : ticket) : Prop :=
  (∃ t, ths !! t = Some (TVal k) ∨ ths !! t = Some (TChecked k)) ∨
  (∃ v w, vs !! t_idx k = Some v ∧ maybe_max_validated_wave v = Some w ∧ t_wave k ≤ w) ∨
  (∃ inc, sts !! t_idx k = Some (Aborting inc)).

Record progress_inv (a : proto) : Prop := mkProgressInv {
  pr_commit : (p_commit a).1 ≤ p_idx a;
  pr_required i v : p_val a !! i = Some v → required_wave v = 0;
  pr_wave : (p_commit a).2 = 0 ∨
    ∃ j, j ≤ (p_commit a).1 ∧ (p_commit a).2 ≤ triggered (p_val a) j;
  pr_ticket i : i < p_idx a →
    ∃ k, t_idx k = i ∧ ¬ superseded (p_val a) k ∧
         pending (p_status a) (p_val a) (p_threads a) k;
}.

(** Moving the token of another thread, or recording what it held, keeps a ticket pending. *)
Lemma pending_token sts vs ths k t tk tk' :
  ths !! t = Some tk → tk ≠ TVal k → tk ≠ TChecked k →
  pending sts vs ths k → pending sts vs (<[t := tk']> ths) k.
Proof.
  intros Ht H1 H2 [(t' & Ht')|[?|?]]; [|by right; left|by right; right].
  left. exists t'. upd; naive_solver.
Qed.

Lemma pending_status sts vs ths k i st st' :
  sts !! i = Some st → (∀ inc, st ≠ Aborting inc) →
  pending sts vs ths k → pending (<[i := st']> sts) vs ths k.
Proof.
  intros Hi Hst [?|[?|(inc & Hinc)]]; [by left|by right; left|].
  right; right. exists inc. upd; naive_solver.
Qed.

Lemma pending_below sts vs ths k i st' :
  t_idx k < i → pending sts vs ths k → pending (<[i := st']> sts) vs ths k.
Proof.
  intros Hi [?|[?|(inc & Hinc)]]; [by left|by right; left|].
  right; right. exists inc. rw list_lookup_insert_ne //. lia.
Qed.

(** Steps that move only a token which is no ticket, or change a status. *)
Lemma progress_frame n sts sts' vs idx wv cm ths ths' iss chk log iss' chk' log' :
  (∀ k, pending sts vs ths k → pending sts' vs ths' k) →
  progress_inv (mkProto n sts vs idx wv cm ths iss chk log) →
  progress_inv (mkProto n sts' vs idx wv cm ths' iss' chk' log').
Proof.
  intros Hp [P1 P2 P3 P4]; split; simpl in *; [done..|].
  intros i Hi. destruct (P4 i Hi) as (k & ? & ? & ?). exists k. auto.
Qed.

Lemma triggered_mono_superseded vs vs' k :
  (∀ j, j ≤ t_idx k → triggered vs' j = triggered vs j) → ¬ superseded vs k → ¬ superseded vs' k.
Proof. intros Heq Hns (j & Hj & Hlt). apply Hns. exists j. rewrite Heq // in Hlt. Qed.

Lemma issue_progress n sts vs idx wv cm ths iss chk log t inc :
  ths !! t = Some Idle → wave_inv vs wv →
  progress_inv (mkProto n sts vs idx wv cm ths iss chk log) →
  let k := mkTicket idx inc wv (snapshot sts idx) in
  progress_inv (mkProto n sts vs (S idx) wv cm (<[t := TVal k]> ths) (k :: iss) chk log).
Proof.
  intros Ht Hw [P1 P2 P3 P4] k; split; simpl in *; [lia|done|done|].
  intros i Hi. destruct (decide (i = idx)) as [->|].
  - exists k. split_and!; [done| |].
    + intros (j & _ & Hlt). specialize (Hw j). simpl in Hlt. lia.
    + left. exists t. left. by upd.
  - destruct (P4 i) as (k' & ? & ? & ?); [lia|]. exists k'. split_and!; [done..|].
    by eapply pending_token.
Qed.

Lemma checked_progress n sts vs idx wv cm ths iss chk log t k b :
  ths !! t = Some (TVal k) →
  progress_inv (mkProto n sts vs idx wv cm ths iss chk log) →
  progress_inv (mkProto n sts vs idx wv cm (<[t := TChecked k]> ths) iss ((k, b) :: chk) log).
Proof.
  intros Ht. apply progress_frame. intros k' [(t' & Ht')|[?|?]]; [|by right; left|by right; right].
  left. exists t'. upd; naive_solver.
Qed.

Lemma abort_progress n sts vs idx wv cm ths iss chk log t k :
  ths !! t = Some (TVal k) → sts !! t_idx k = Some (Executed (t_inc k)) →
  progress_inv (mkProto n sts vs idx wv cm ths iss chk log) →
  progress_inv (mkProto n (<[t_idx k := Aborting (t_inc k)]> sts) vs idx wv cm
               (<[t := TAbort (t_idx k) (t_inc k)]> ths) iss ((k, false) :: chk) log).
Proof.
  intros Ht Hi. apply progress_frame. intros k' Hp.
  destruct (decide (t_idx k' = t_idx k)) as [Heq|Hne].
  { right; right. exists (t_inc k). rewrite Heq. by upd. }
  eapply pending_token; [done|naive_solver..|].
  eapply pending_status; [done|naive_solver|done].
Qed.

Lemma record_progress n sts vs idx wv cm ths iss chk log t k v :
  ths !! t = Some (TChecked k) → vs !! t_idx k = Some v →
  progress_inv (mkProto n sts vs idx wv cm ths iss chk log) →
  progress_inv (mkProto n sts (<[t_idx k := record_wave (t_wave k) v]> vs) idx wv cm
               (<[t := Idle]> ths) iss chk log).
Proof.
  intros Ht Hi [P1 P2 P3 P4].
  assert (Htr : ∀ j, triggered (<[t_idx k := record_wave (t_wave k) v]> vs) j = triggered vs j)
    by (intros j; by apply (triggered_same _ _ _ v)).
  split; simpl in *; [done| | |].
  - intros i v' Hv. upd; eauto.
  - destruct P3 as [?|(j & ? & ?)]; [by left|right]. exists j. by rw Htr.
  - intros i Hlt. destruct (P4 i Hlt) as (k' & Hk' & Hns & Hp). exists k'. split; [done|].
    split; [eapply triggered_mono_superseded; [intros j _; apply Htr|done]|].
    destruct Hp as [(t' & Ht')|[(v' & w & Hv' & Hw & Hle)|?]]; [| |by right; right].
    + destruct (decide (t' = t)) as [->|].
      * destruct Ht' as [?|?]; simplify_eq. right; left.
        exists (record_wave (t_wave k) v). eexists. upd. split_and!; [done..|].
        case_match; lia.
      * left. exists t'. rw !list_lookup_insert_ne //.
    + right; left. destruct (decide (t_idx k = t_idx k')) as [Heq|].
      * rewrite -Heq in Hv'. simplify_eq. exists (record_wave (t_wave k) v). eexists.
        rewrite -Heq. upd. split_and!; [done..|]. rewrite Hw. lia.
      * exists v', w. rw list_lookup_insert_ne //.
Qed.

Lemma aborted_progress n sts vs idx wv cm ths iss chk log t i inc v :
  ths !! t = Some (TAbort i inc) → vs !! i = Some v → cm.1 ≤ i → wave_inv vs wv →
  progress_inv (mkProto n sts vs idx wv cm ths iss chk log) →
  progress_inv
    (if i <? idx
     then mkProto n (<[i := ReadyToExecute (inc + 1) None]> sts)
            (<[i := trigger_wave (wv + 1) v]> vs) i (wv + 1) cm (<[t := Idle]> ths) iss chk log
     else mkProto n (<[i := ReadyToExecute (inc + 1) None]> sts) vs idx wv cm
            (<[t := Idle]> ths) iss chk log).
Proof.
  intros Ht Hi Hci Hw [P1 P2 P3 P4]; simpl in *.
  assert (Hpend : ∀ k, t_idx k < i → pending sts vs ths k →
            pending (<[i := ReadyToExecute (inc + 1) None]> sts) vs (<[t := Idle]> ths) k).
  { intros k Hk Hp. eapply pending_token; [done..|]. by apply pending_below. }
  destruct (Nat.ltb_spec i idx) as [Hlt|Hge].
  - assert (Htr : ∀ j, triggered (<[i := trigger_wave (wv + 1) v]> vs) j =
                       if decide (i = j) then wv + 1 else triggered vs j)
      by (intros j; by rw (triggered_upd _ _ _ _ _ Hi)).
    split; simpl; [done|intros j v' Hv; upd; eauto| |].
    + destruct P3 as [?|(j & ? & ?)]; [by left|right]. exists j. rw Htr. split; [done|].
      specialize (Hw j). case_decide; lia.
    + intros j Hj. destruct (P4 j) as (k & <- & Hns & Hp); [lia|]. exists k. split; [done|]. split.
      * eapply triggered_mono_superseded; [|done]. intros j' Hj'. rw Htr decide_False //. lia.
      * apply Hpend in Hp as [?|[(v' & w & ? & ? & ?)|?]]; [by left| |by right; right|done].
        right; left. exists v', w. rw list_lookup_insert_ne //. lia.
  - split; simpl; [done..|]. intros j Hj. destruct (P4 j Hj) as (k & <- & Hns & Hp). exists k.
    split_and!; [done..|]. apply Hpend; [lia|done].
Qed.

Lemma committed_progress n sts vs idx wv ci cw ths iss chk log inc v w :
  sts !! ci = Some (Executed inc) → vs !! ci = Some v →
  maybe_max_validated_wave v = Some w →
  max (max cw (max_triggered_wave v)) (required_wave v) ≤ w →
  proto_inv (mkProto n sts vs idx wv (ci, cw) ths iss chk log) →
  progress_inv (mkProto n sts vs idx wv (ci, cw) ths iss chk log) →
  progress_inv (mkProto n (<[ci := Committed inc]> sts) vs idx wv
               (S ci, max cw (max_triggered_wave v)) ths iss chk log).
Proof.
  intros Hi Hv Hm Hle [L1 L2 L3 L4 Ho Hg Hw Htk Htki Htok Hf Hva Hc Hce Hs] [P1 P2 P3 P4];
    simpl in *.
  assert (Htv : triggered vs ci = max_triggered_wave v) by (by rw /triggered Hv).
  destruct (Hva _ _ _ Hv Hm) as (k & b & Hin & Hk & Hwk).
  assert (Hlt : ci < idx).
  { destruct (Htk k) as (_ & _ & [(j & Hj & Hjw)|[? _]]); [by eapply tok_issued| |lia].
    exfalso. destruct (decide (j = ci)) as [->|]; [lia|].
    pose proof (com_wave _ _ _ Hc j) as Hc3. simpl in Hc3. lia. }
  split; simpl; [lia|done| |].
  - destruct P3 as [P3|(j & ? & ?)].
    + destruct (decide (max_triggered_wave v = 0)); [left; lia|]. right. exists ci. lia.
    + right. destruct (decide (cw ≤ max_triggered_wave v)); [exists ci; lia|exists j; lia].
  - intros j Hj. destruct (P4 j Hj) as (k' & ? & ? & ?). exists k'. split_and!; [done..|].
    eapply pending_status; [done|naive_solver|done].
Qed.

Lemma raise_progress n sts vs idx wv ci cw ths iss chk log v :
  vs !! ci = Some v →
  progress_inv (mkProto n sts vs idx wv (ci, cw) ths iss chk log) →
  progress_inv (mkProto n sts vs idx wv (ci, max cw (max_triggered_wave v)) ths iss chk log).
Proof.
  intros Hv [P1 P2 P3 P4]; split; simpl in *; [done..| |done].
  assert (Htv : triggered vs ci = max_triggered_wave v) by (by rw /triggered Hv).
  destruct P3 as [P3|(j & ? & ?)].
  - destruct (decide (max_triggered_wave v = 0)); [left; lia|]. right. exists ci. lia.
  - right. destruct (decide (cw ≤ max_triggered_wave v)); [exists ci; lia|exists j; lia].
Qed.

Lemma proto_step_progress a b : proto_inv a → progress_inv a → proto_step a b → progress_inv b.
Proof.
  intros Hinv Hp [e Hstep]. destruct Hstep.
  - eapply progress_frame; [|done]. intros k Hk. eapply pending_token; [done..|].
    eapply pending_status; [done|naive_solver|done].
  - eapply progress_frame; [|done]. intros k Hk. eapply pending_token; [done..|].
    eapply pending_status; [by eapply own_exec; [apply Hinv|]|naive_solver|done].
  - eapply issue_progress; [done|apply Hinv|done].
  - by apply checked_progress.
  - by apply checked_progress.
  - by apply abort_progress.
  - by apply record_progress.
  - apply aborted_progress; [done..| |apply Hinv|done].
    by eapply aborted_status in Hinv as (_ & _ & _ & _ & _ & _ & ?).
  - by eapply committed_progress.
  - by eapply raise_progress.
Qed.

Lemma proto_reachable_progress n threads a : proto_reachable n threads a → progress_inv a.
Proof.
  intros Hr. apply (rtc_invariant proto_step (λ a, proto_inv a ∧ progress_inv a) _ _) in Hr;
    [by destruct Hr| |].
  - intros x y [??] ?. split; [by eapply proto_step_inv|by eapply proto_step_progress].
  - split; [apply proto_init_inv|]. split; simpl; [done| |by left|lia].
    intros i v Hv. by apply lookup_replicate in Hv as [-> _].
Qed.

(** Nothing but validations stand between an executed transaction the counter has
    passed and its commit. *)
Lemma commit_ready a ci cw inc :
  proto_inv a → progress_inv a → p_commit a = (ci, cw) →
  ci < p_idx a → p_status a !! ci = Some (Executed inc) →
  (∀ t tk, p_threads a !! t = Some tk → tk = Idle) →
  ∃ v w, p_val a !! ci = Some v ∧ maybe_max_validated_wave v = Some w ∧
    max (max cw (max_triggered_wave v)) (required_wave v) ≤ w.
Proof.
  intros Hinv [P1 P2 P3 P4] Hcm Hlt Hst Hidle. rewrite Hcm /= in P3.
  destruct (P4 ci Hlt) as (k & Hk & Hns & [(t & Ht)|[(v & w & Hv & Hw & Hle)|(inc' & Hab)]]).
  - exfalso. destruct Ht as [Ht|Ht]; by apply Hidle in Ht.
  - rewrite Hk in Hv. exists v, w. split_and!; [done..|]. rewrite (P2 _ _ Hv).
    assert (Hall : ∀ j, j ≤ ci → triggered (p_val a) j ≤ t_wave k).
    { intros j Hj. destruct (decide (triggered (p_val a) j ≤ t_wave k)); [done|].
      exfalso. apply Hns. exists j. lia. }
    assert (Htv : triggered (p_val a) ci = max_triggered_wave v) by (by rw /triggered Hv).
    pose proof (Hall ci). destruct P3 as [?|(j & Hj & ?)]; [lia|]. pose proof (Hall j Hj). lia.
  - congruence.
Qed.
