(* ===== verification/SchedulerSafety.v ===== *)
(** * Safety of the scheduler under interleaving

    The worker threads of [executor.rs] ([work_task_with_scope]) as a step relation
    over the scheduler of [Scheduler.v]: every thread holds its current task, and a
    step runs one scheduler method.  Each step is shown to implement steps of
    [CommitProtocol.v], so its invariant holds of every reachable scheduler. *)
From S2P Require Import Prelude MVHashMap Scheduler CommitProtocol.
Local Open Scope nat_scope.

(** ** The packed validation index *)

Definition pack (idx : TxnIndex) (wave : Wave) : Z := (Z.of_nat idx + Z.of_nat wave * 2 ^ 32)%Z.

Lemma unpack_pack idx wave :
  (Z.of_nat idx < 2 ^ 32)%Z → unpack_validation_idx (pack idx wave) = (idx, wave).
Proof.
  intros Hi. rw /unpack_validation_idx /pack.
  change TXN_IDX_MASK with (Z.ones 32). rw Z.land_ones //.
  rw Z.shiftr_div_pow2 // Z_mod_plus_full Z_div_plus_full // Z.mod_small; [lia|].
  rw Z.div_small; [lia|]. f_equal; lia.
Qed.

(** The value [decrease_validation_idx] stores is the target with the next wave. *)
Lemma packed_next target wave :
  (Z.of_nat target < 2 ^ 32)%Z → (Z.of_nat wave + 1 < 2 ^ 32)%Z →
  Z.lor (Z.of_nat target) (wrap 64 (Z.shiftl (Z.of_nat wave + 1) 32)) = pack target (wave + 1).
Proof.
  intros Ht Hw. rw /wrap /pack Z.shiftl_mul_pow2 // Z.mod_small; [lia|].
  replace (Z.of_nat (wave + 1)) with (Z.of_nat wave + 1)%Z by lia.
  assert (Hl : Z.land (Z.of_nat target) ((Z.of_nat wave + 1) * 2 ^ 32) = 0%Z); [|
    by rw -(Z.add_lor_land (Z.of_nat target)) Hl Z.add_0_r].
  apply Z.bits_inj'. intros n Hn. rw Z.land_spec Z.bits_0.
  destruct (decide (n < 32)%Z) as [Hlt|Hge].
  - rw (Z.mul_pow2_bits_low _ 32 n) // andb_false_r //.
  - rw (Z.bits_above_log2 (Z.of_nat target)) //; [lia|].
    destruct (decide (Z.of_nat target = 0)%Z) as [->|]; [simpl; lia|].
    apply Z.log2_lt_pow2; [lia|]. eapply Z.lt_le_trans; [exact Ht|].
    apply Z.pow_le_mono_r; lia.
Qed.

(** ** The worker threads *)

(** What a thread is doing between two scheduler methods: it holds a task, or it is
    inside [validate] after [try_abort] succeeded ([Rejected]) or after it decided
    to record the validation ([Checked]). *)
Inductive phase : Type :=
  | Holding (task : SchedulerTask)
  | Rejected (version : Version)
  | Checked (version : Version) (wave : Wave).

(** A worker: its phase and its [finished_val_flag]. *)
Abbreviation worker := (phase * bool)%type.

Record sys : Type := mkSys {
  sched : Scheduler;
  commit_state : TxnIndex * Wave;
  workers : list worker;
}.

(** [sig_val_idx.fetch_add(25)]. *)
Definition fetch_sig (s : Scheduler) : Scheduler :=
  mkScheduler (num_txns s) (validation_idx s) (done_marker s) (exec_status s) (val_status s)
    (hint_graph s) (channels s) (priochannels s) (sig_val_idx s + 25) (mode s)
    (critical_path_parent s) (children s).

(** Tasks that touch no transaction status. *)
Definition side_task (task : SchedulerTask) : Prop :=
  match task with SigTask _ | PrologueTask => True | _ => False end.

Inductive sys_act : event → sys → sys → Prop :=
  | sys_commit got_val got_exec s cm ws s' cm' r :
      try_commit got_val got_exec s cm = Ret (s', cm', r) →
      sys_act Quiet (mkSys s cm ws) (mkSys s' cm' ws)
  | sys_next t flag got_lock s cm ws s' flag' task :
      ws !! t = Some (Holding NoTask, flag) →
      next_task got_lock s flag = Ret (s', flag', task) →
      sys_act Quiet (mkSys s cm ws) (mkSys s' cm (<[t := (Holding task, flag')]> ws))
  | sys_sig t flag s cm ws :
      ws !! t = Some (Holding NoTask, flag) → mode s = Pythia_Sig →
      sys_act Quiet (mkSys s cm ws)
        (mkSys (fetch_sig s) cm
           (<[t := (Holding (if sig_val_idx s <=? num_txns s then SigTask (sig_val_idx s)
                             else NoTask), flag)]> ws))
  | sys_prologue t flag s cm ws :
      ws !! t = Some (Holding NoTask, flag) →
      sys_act Quiet (mkSys s cm ws) (mkSys s cm (<[t := (Holding PrologueTask, flag)]> ws))
  | sys_side t flag s cm ws task :
      ws !! t = Some (Holding task, flag) → side_task task →
      sys_act Quiet (mkSys s cm ws) (mkSys s cm (<[t := (Holding NoTask, flag)]> ws))
  | sys_wait t flag s cm ws i inc dep s' cv :
      ws !! t = Some (Holding (ExecutionTask (i, inc) None), flag) → dep < i →
      wait_for_dependency s i dep = Ret (s', cv) →
      sys_act (Waits t dep) (mkSys s cm ws) (mkSys s' cm ws)
  | sys_executed t flag s cm ws i inc updates_outside s' next :
      ws !! t = Some (Holding (ExecutionTask (i, inc) None), flag) →
      finish_execution s i inc updates_outside = Ret (s', next) →
      sys_act (Finished t) (mkSys s cm ws) (mkSys s' cm (<[t := (Holding next, flag)]> ws))
  | sys_valid t flag s cm ws version wave :
      ws !! t = Some (Holding (ValidationTask version wave), flag) →
      sys_act (Accepted t) (mkSys s cm ws) (mkSys s cm (<[t := (Checked version wave, flag)]> ws))
  | sys_invalid t flag s cm ws i inc wave s' aborted :
      ws !! t = Some (Holding (ValidationTask (i, inc) wave), flag) →
      try_abort s i inc = Ret (s', aborted) →
      sys_act (Refused t) (mkSys s cm ws)
        (mkSys s' cm (<[t := (if aborted : bool then Rejected (i, inc)
                              else Checked (i, inc) wave, flag)]> ws))
  | sys_recorded t flag s cm ws i inc wave s' :
      ws !! t = Some (Checked (i, inc) wave, flag) →
      finish_validation s i wave = Ret s' →
      sys_act Quiet (mkSys s cm ws) (mkSys s' cm (<[t := (Holding NoTask, flag)]> ws))
  | sys_aborted t flag s cm ws i inc s' next :
      ws !! t = Some (Rejected (i, inc), flag) →
      finish_abort s i inc = Ret (s', next) →
      sys_act (Undone t) (mkSys s cm ws) (mkSys s' cm (<[t := (Holding next, flag)]> ws)).

Definition sys_step (x y : sys) : Prop := ∃ e, sys_act e x y.

Definition sys_init (s : Scheduler) (threads : nat) : sys :=
  mkSys s (0, 0) (replicate threads (Holding NoTask, false)).

(** ** Refinement *)

(** The token a worker stands for. *)
Definition worker_token (w : worker) (tk : token) : Prop :=
  match w.1 with
  | Holding (ExecutionTask (i, inc) _) => tk = TExec i inc
  | Holding (ValidationTask (i, inc) wave) =>
      ∃ k, tk = TVal k ∧ t_idx k = i ∧ t_inc k = inc ∧ t_wave k = wave
  | Holding _ => tk = Idle
  | Rejected (i, inc) => tk = TAbort i inc
  | Checked (i, inc) wave =>
      ∃ k, tk = TChecked k ∧ t_idx k = i ∧ t_inc k = inc ∧ t_wave k = wave
  end.

Record sim (x : sys) (a : proto) : Prop := mkSim {
  sim_num : num_txns (sched x) = p_num a;
  sim_small : (Z.of_nat (p_num a) < 2 ^ 32)%Z;
  sim_wave : (Z.of_nat (p_wave a) < 2 ^ 32)%Z;
  sim_status : exec_status (sched x) = p_status a;
  sim_val : val_status (sched x) = p_val a;
  sim_packed : validation_idx (sched x) = pack (p_idx a) (p_wave a);
  sim_commit : commit_state x = p_commit a;
  sim_workers : Forall2 worker_token (workers x) (p_threads a);
}.

(** The part of the scheduler the protocol speaks of. *)
Definition core (s : Scheduler) : nat * Z * list ExecStatus * list ValidationStatus :=
  (num_txns s, validation_idx s, exec_status s, val_status s).

Lemma sim_core s s' cm ws a : core s' = core s → sim (mkSys s cm ws) a → sim (mkSys s' cm ws) a.
Proof. intros [= ? ? ? ?] [? ? ? ? ? ? ? ?]; simpl in *. split; simpl; congruence. Qed.

Lemma sim_token x a t w :
  sim x a → workers x !! t = Some w → ∃ tk, p_threads a !! t = Some tk ∧ worker_token w tk.
Proof. intros Hs Ht. eapply Forall2_lookup_l; [apply Hs|done]. Qed.

Lemma push_parent_core dep tx s s' : push_parent dep tx s = Ret s' → core s' = core s.
Proof. rw /push_parent => H. returned H. by simplify_eq. Qed.

Lemma check_dependencies_core tx deps s s' b :
  check_dependencies tx deps s = Ret (s', b) → core s' = core s.
Proof.
  revert s. induction deps as [|d deps IH]; simpl; intros s Hc; [by simplify_eq|].
  case_bool_decide; [|by apply IH].
  returned Hc. apply push_parent_core in Hr. case_bool_decide; [by injection Hc as <- <-|].
  rewrite -Hr. by apply IH.
Qed.

(** An incarnation either changes nothing the protocol sees, or takes a ready transaction. *)
Lemma try_incarnate_core s i s' r :
  try_incarnate s i = Ret (s', r) →
  match r with
  | None => core s' = core s
  | Some (inc, cv) =>
      exec_status s !! i = Some (ReadyToExecute inc cv) ∧
      core s' = core (set_exec i (Executing inc) s)
  end.
Proof.
  rw /try_incarnate => H.
  destruct (exec_status s !! i) as [[inc cv| | | | |]|] eqn:Hi; try by injection H as <- <-.
  returned H. destruct b; injection H as <- <-; apply check_dependencies_core in Hr0; [|done].
  split; [done|]. move: Hr0. rw /core /set_exec /= => -[= -> -> -> ->] //.
Qed.

Lemma worker_move ws ths t w tk w' tk' :
  Forall2 worker_token ws ths → ws !! t = Some w → ths !! t = Some tk →
  worker_token w' tk' → Forall2 worker_token (<[t := w']> ws) (<[t := tk']> ths).
Proof. intros Hf _ _ Hw. by apply Forall2_insert. Qed.

(** A worker without a task may keep the token [Idle] whatever side task it takes. *)
Lemma sim_idle s cm ws a t w w' :
  sim (mkSys s cm ws) a → ws !! t = Some w → worker_token w Idle → worker_token w' Idle →
  (∀ tk, worker_token w tk → tk = Idle) →
  sim (mkSys s cm (<[t := w']> ws)) a.
Proof.
  intros Hs Ht Hw Hw' Honly. destruct (sim_token _ _ _ _ Hs Ht) as (tk & Htk & Htok).
  apply Honly in Htok as ->. destruct Hs; split; simpl in *; try done.
  rw -(list_insert_id (p_threads a) t Idle) //. by apply Forall2_insert.
Qed.

(** What a step of the workers does to the protocol: the event itself, then quiet
    steps. *)
Definition act_effect (e : event) (a b : proto) : Prop :=
  match e with
  | Quiet => rtc (proto_act Quiet) a b
  | Waits _ _ => a = b
  | _ => ∃ a1, proto_act e a a1 ∧ rtc (proto_act Quiet) a1 b
  end.

Lemma quiet_inv a b : proto_inv a → proto_act Quiet a b → proto_inv b.
Proof. intros Hinv Hstep. eapply proto_step_inv; [done|by eexists]. Qed.

Lemma quiet_run a b : rtc (proto_act Quiet) a b → rtc proto_step a b.
Proof. intros Hr. induction Hr; [apply rtc_refl|eapply rtc_l; [by eexists|done]]. Qed.

Lemma act_effect_run e a b : act_effect e a b → rtc proto_step a b.
Proof.
  destruct e; simpl; [apply quiet_run|intros ->; apply rtc_refl|..];
    (intros (a1 & Ha & Hr); eapply rtc_l; [by eexists|by apply quiet_run]).
Qed.

(** [try_incarnate] and [try_execute_next_version] by an idle worker. *)
Lemma try_incarnate_sim s cm ws a t flag i s' r :
  sim (mkSys s cm ws) a → ws !! t = Some (Holding NoTask, flag) →
  try_incarnate s i = Ret (s', r) →
  match r with
  | None => sim (mkSys s' cm ws) a
  | Some (inc, cv) => ∃ a', proto_act Quiet a a' ∧
      sim (mkSys s' cm (<[t := (Holding (ExecutionTask (i, inc) cv), flag)]> ws)) a'
  end.
Proof.
  intros Hs Ht Hr. apply try_incarnate_core in Hr.
  destruct r as [[inc cv]|]; [|by eapply sim_core].
  destruct Hr as [Hi Hc]. destruct (sim_token _ _ _ _ Hs Ht) as (tk & Htk & ->).
  destruct a as [n sts vs idx wv cm' ths iss chk log], Hs; simpl in *; subst.
  eexists. split; [by eapply step_incarnate|].
  eapply sim_core; [exact Hc|]. split; simpl; try done. by apply Forall2_insert.
Qed.

Lemma incarnate_sim s cm ws a t flag i s' r :
  sim (mkSys s cm ws) a → ws !! t = Some (Holding NoTask, flag) →
  try_execute_next_version s i = Ret (s', r) →
  match r with
  | None => sim (mkSys s' cm ws) a
  | Some (v, cv) => ∃ a', proto_act Quiet a a' ∧
      sim (mkSys s' cm (<[t := (Holding (ExecutionTask v cv), flag)]> ws)) a'
  end.
Proof.
  intros Hs Ht H. rewrite /try_execute_next_version in H.
  destruct (num_txns s <=? i); [by injection H as <- <-|]. returned H.
  eapply try_incarnate_sim in Hr; [|done..].
  by destruct o as [[inc cv]|]; injection H as <- <-.
Qed.

(** The tasks [try_exec] and [finish_execution] can return. *)
Definition exec_or_none (task : SchedulerTask) : Prop :=
  match task with ExecutionTask _ _ | NoTask => True | _ => False end.

Lemma release_children_sim txs s next cm ws a t flag s' next' :
  exec_or_none next →
  sim (mkSys s cm (<[t := (Holding next, flag)]> ws)) a → t < length ws →
  release_children txs s next = Ret (s', next') →
  ∃ a', rtc (proto_act Quiet) a a' ∧ sim (mkSys s' cm (<[t := (Holding next', flag)]> ws)) a'.
Proof.
  intros Hn Hs Ht. revert s next a Hn Hs. induction txs as [|tx txs IH]; intros s next a Hn Hs H.
  { simpl in H. injection H as <- <-. exists a. split; [apply rtc_refl|done]. }
  simpl in H. returned H. destruct r as [|c cs]; [eapply IH; [done| |done]; by apply (sim_core s)|].
  destruct next as [v cv| | | | |]; try done.
  - eapply (IH _ (ExecutionTask v cv)); [done| |done]. by apply (sim_core s).
  - returned H. eapply (incarnate_sim _ _ _ _ t flag) in Hr0;
      [|done|by apply list_lookup_insert_eq].
    destruct o as [[v cv]|].
    + destruct Hr0 as (a1 & Hstep & Hs1). rewrite list_insert_insert_eq in Hs1.
      destruct (IH _ (ExecutionTask v cv) _ I Hs1 H) as (a2 & ? & ?). exists a2. split; [by eapply rtc_l|done].
    + by eapply IH.
Qed.

(** [try_exec] by an idle worker. *)
Lemma try_exec_sim s cm ws a t flag s' task :
  sim (mkSys s cm ws) a → ws !! t = Some (Holding NoTask, flag) →
  try_exec s = Ret (s', task) →
  exec_or_none task ∧
  ∃ a', rtc (proto_act Quiet) a a' ∧ sim (mkSys s' cm (<[t := (Holding task, flag)]> ws)) a'.
Proof.
  intros Hs Ht H. rewrite /try_exec in H. returned H.
  assert (Hp : match o with
               | None => sim (mkSys s0 cm ws) a
               | Some (v, cv) => ∃ a', proto_act Quiet a a' ∧
                   sim (mkSys s0 cm (<[t := (Holding (ExecutionTask v cv), flag)]> ws)) a'
               end).
  { destruct (priochannels s) as [|tx rest]; [by injection Hr as <- <-|].
    eapply incarnate_sim; [|done|done]. by apply (sim_core s). }
  destruct o as [[v cv]|].
  { injection H as <- <-. split; [done|]. destruct Hp as (a' & ? & ?).
    exists a'. split; [by apply rtc_once|done]. }
  returned H.
  assert (Hc : match o with
               | None => sim (mkSys s1 cm ws) a
               | Some (v, cv) => ∃ a', proto_act Quiet a a' ∧
                   sim (mkSys s1 cm (<[t := (Holding (ExecutionTask v cv), flag)]> ws)) a'
               end).
  { destruct (channels s0) as [|tx rest]; [by injection Hr0 as <- <-|].
    eapply incarnate_sim; [|done|done]. by apply (sim_core s0). }
  destruct o as [[v cv]|]; injection H as <- <-; (split; [done|]).
  - destruct Hc as (a' & ? & ?). exists a'. split; [by apply rtc_once|done].
  - exists a. split; [apply rtc_refl|]. by rewrite list_insert_id.
Qed.

Lemma is_executed_spec s i inc :
  is_executed s i false = Some inc → exec_status s !! i = Some (Executed inc).
Proof. rw /is_executed. destruct (exec_status s !! i) as [[]|]; naive_solver. Qed.

(** [try_validate_next_version] hands out exactly the version at the counter. *)
Lemma validate_next_sim got_lock s cm ws a t flag s' flag' r :
  sim (mkSys s cm ws) a → proto_inv a → ws !! t = Some (Holding NoTask, flag) →
  try_validate_next_version got_lock s flag = (s', flag', r) →
  let task := match r with Some (v, wave) => ValidationTask v wave | None => NoTask end in
  ∃ a', rtc (proto_act Quiet) a a' ∧ sim (mkSys s' cm (<[t := (Holding task, flag')]> ws)) a'.
Proof.
  intros Hs Hinv Ht H.
  assert (Hnone : ∀ f, sim (mkSys s cm (<[t := (Holding NoTask, f)]> ws)) a)
    by (intros f; by eapply sim_idle).
  destruct got_lock; [|by injection H as <- <- <-; exists a; split; [apply rtc_refl|]].
  rewrite /try_validate_next_version (sim_packed _ _ Hs) in H.
  assert (Hsmall : (Z.of_nat (p_idx a) < 2 ^ 32)%Z).
  { pose proof (sim_small _ _ Hs). pose proof (inv_idx _ Hinv). lia. }
  rewrite unpack_pack // in H. destruct (Nat.leb_spec (num_txns s) (p_idx a)) as [|Hlt];
    [by injection H as <- <- <-; exists a; split; [apply rtc_refl|]|].
  destruct (is_executed s (p_idx a) false) as [inc|] eqn:He;
    [|by injection H as <- <- <-; exists a; split; [apply rtc_refl|]].
  apply is_executed_spec in He. destruct (sim_token _ _ _ _ Hs Ht) as (tk & Htk & ->).
  destruct a as [n sts vs idx wv cm' ths iss chk log], Hs; simpl in *; subst.
  injection H as <- <- <-. eexists. split; [by eapply rtc_once, step_issue|].
  split; simpl; try done.
  - rewrite /wrap /pack Z.mod_small; lia.
  - apply Forall2_insert; [done|]. by eexists.
Qed.

Lemma next_task_sim got_lock s cm ws a t flag s' flag' task :
  sim (mkSys s cm ws) a → proto_inv a → ws !! t = Some (Holding NoTask, flag) →
  next_task got_lock s flag = Ret (s', flag', task) →
  ∃ a', rtc (proto_act Quiet) a a' ∧ sim (mkSys s' cm (<[t := (Holding task, flag')]> ws)) a'.
Proof.
  intros Hs Hinv Ht H. rewrite /next_task in H.
  destruct (flag && done_marker s).
  { injection H as <- <- <-. exists a. split; [apply rtc_refl|]. by eapply sim_idle. }
  returned H. eapply try_exec_sim in Hr as (Hen & a1 & Hs1 & Hsim1); [|done..].
  destruct s1 as [v cv| | | | |]; try done; [injection H as <- <- <-; by exists a1|].
  rewrite list_insert_id // in Hsim1.
  destruct flag; [injection H as <- <- <-; exists a1; by rewrite list_insert_id|].
  destruct (try_validate_next_version got_lock s0 false) as [[s2 f2] r2] eqn:Hv.
  eapply validate_next_sim in Hv as (a2 & Hs2 & Hsim2); [|done| |done].
  - exists a2. split; [by transitivity a1|]. by destruct r2 as [[v w]|]; injection H as <- <- <-.
  - eapply rtc_invariant; [apply quiet_inv|exact Hs1|done].
Qed.

Lemma finish_execution_sim s cm ws a t flag i inc upd s' next :
  sim (mkSys s cm ws) a → ws !! t = Some (Holding (ExecutionTask (i, inc) None), flag) →
  finish_execution s i inc upd = Ret (s', next) →
  ∃ a', act_effect (Finished t) a a' ∧ sim (mkSys s' cm (<[t := (Holding next, flag)]> ws)) a'.
Proof.
  intros Hs Ht H. rewrite /finish_execution /set_executed_status in H. returned H. simplify_eq.
  destruct (sim_token _ _ _ _ Hs Ht) as (tk & Htk & ->).
  destruct a as [n sts vs idx wv cm' ths iss chk log].
  set (a1 := mkProto n (<[i := Executed inc]> sts) vs idx wv cm' (<[t := Idle]> ths) iss chk log).
  assert (Hs1 : sim (mkSys (set_exec i (Executed inc) s) cm
                       (<[t := (Holding NoTask, flag)]> ws)) a1).
  { destruct Hs; split; simpl in *; try congruence. by apply Forall2_insert. }
  eapply release_children_sim in H as (a2 & ? & ?);
    [|done|exact Hs1|by eapply lookup_lt_Some].
  exists a2. split; [|done]. exists a1. split; [by eapply step_executed|done].
Qed.

Lemma finish_validation_sim s cm ws a t flag i inc w s' :
  sim (mkSys s cm ws) a → ws !! t = Some (Checked (i, inc) w, flag) →
  finish_validation s i w = Ret s' →
  ∃ a', proto_act Quiet a a' ∧ sim (mkSys s' cm (<[t := (Holding NoTask, flag)]> ws)) a'.
Proof.
  intros Hs Ht H. rewrite /finish_validation in H. returned H. injection H as <-.
  destruct (sim_token _ _ _ _ Hs Ht) as (tk & Htk & k & -> & <- & <- & <-).
  destruct a as [n sts vs idx wv cm' ths iss chk log], Hs; simpl in *; subst.
  eexists. split; [by eapply step_record|]. split; simpl; try done. by apply Forall2_insert.
Qed.

Lemma status_eq_executed st inc : status_eq st (Executed inc) = true ↔ st = Executed inc.
Proof. destruct st; simpl; rewrite ?Nat.eqb_eq; naive_solver. Qed.

Lemma try_abort_sim s cm ws a t flag i inc w s' b :
  sim (mkSys s cm ws) a → ws !! t = Some (Holding (ValidationTask (i, inc) w), flag) →
  try_abort s i inc = Ret (s', b) →
  ∃ a', proto_act (Refused t) a a' ∧
    sim (mkSys s' cm (<[t := (if b then Rejected (i, inc) else Checked (i, inc) w, flag)]> ws)) a'.
Proof.
  intros Hs Ht H. rewrite /try_abort in H. returned H.
  destruct (sim_token _ _ _ _ Hs Ht) as (tk & Htk & k & -> & <- & <- & <-).
  destruct a as [n sts vs idx wv cm' ths iss chk log], Hs; simpl in *; subst.
  destruct (status_eq r (Executed (t_inc k))) eqn:He; injection H as <- <-; eexists.
  - apply status_eq_executed in He as ->. split; [by eapply step_abort|].
    split; simpl; try done. by apply Forall2_insert.
  - split; [eapply step_stale; [done|]|].
    { intros Heq. simplify_eq. by rewrite (proj2 (status_eq_executed _ _) eq_refl) in He. }
    split; simpl; try done. apply Forall2_insert; [done|]. by eexists.
Qed.

Lemma decrease_spec s idx wv target s' r :
  (Z.of_nat idx < 2 ^ 32)%Z → validation_idx s = pack idx wv →
  decrease_validation_idx s target = Ret (s', r) →
  if target <? idx
  then r = Some (wv + 1) ∧ s' = set_validation_idx (pack target (wv + 1)) s ∧
       (Z.of_nat (wv + 1) < 2 ^ 32)%Z
  else r = None ∧ s' = s.
Proof.
  intros Hi Hp H. rewrite /decrease_validation_idx Hp unpack_pack // in H.
  destruct (Nat.ltb_spec target idx); [|by injection H as <- <-].
  returned H. injection H as <- <-. apply Z.ltb_lt in Hr.
  split_and!; [done|by rewrite packed_next; [lia..|]|lia].
Qed.

Lemma finish_abort_sim s cm ws a t flag i inc s' next :
  sim (mkSys s cm ws) a → proto_inv a → ws !! t = Some (Rejected (i, inc), flag) →
  finish_abort s i inc = Ret (s', next) →
  ∃ a', act_effect (Undone t) a a' ∧ sim (mkSys s' cm (<[t := (Holding next, flag)]> ws)) a'.
Proof.
  intros Hs Hinv Ht H. rewrite /finish_abort /set_aborted_status in H. returned H.
  injection Hr0 as <-. destruct (sim_token _ _ _ _ Hs Ht) as (tk & Htk & ->).
  assert (Hsmall : (Z.of_nat (p_idx a) < 2 ^ 32)%Z).
  { pose proof (sim_small _ _ Hs). pose proof (inv_idx _ Hinv). lia. }
  eapply decrease_spec in Hr2; [|exact Hsmall|exact (sim_packed _ _ Hs)].
  match type of Hr3 with try_incarnate ?x _ = _ => set (s3 := x) in * end.
  assert (Hstep : ∃ a1, proto_act (Undone t) a a1 ∧
            sim (mkSys s3 cm (<[t := (Holding NoTask, flag)]> ws)) a1).
  { destruct a as [n sts vs idx wv cm' ths iss chk log], Hs; simpl in *; subst.
    eexists. split; [by eapply step_aborted|]. unfold s3. destruct (i <? idx).
    - destruct Hr2 as (-> & -> & ?). split; simpl; try done. by apply Forall2_insert.
    - destruct Hr2 as (-> & ->). split; simpl; try done. by apply Forall2_insert. }
  destruct Hstep as (a1 & Hstep & Hs1). clearbody s3.
  eapply try_incarnate_sim in Hr3;
    [|exact Hs1|apply list_lookup_insert_eq; by eapply lookup_lt_Some].
  destruct o0 as [[inc' cv]|]; injection H as <- <-.
  - destruct Hr3 as (a2 & Hstep2 & Hs2). rewrite list_insert_insert_eq in Hs2.
    exists a2. split; [|done]. exists a1. split; [done|by apply rtc_once].
  - exists a1. split; [|done]. exists a1. split; [done|apply rtc_refl].
Qed.

Lemma try_commit_sim gv ge s cm ws a s' cm' r :
  sim (mkSys s cm ws) a → try_commit gv ge s cm = Ret (s', cm', r) →
  ∃ a', rtc (proto_act Quiet) a a' ∧ sim (mkSys s' cm' ws) a'.
Proof.
  intros Hs H. assert (Hid : ∀ x, core x = core s → ∃ a', rtc (proto_act Quiet) a a' ∧ sim (mkSys x cm ws) a').
  { intros x Hx. exists a. split; [apply rtc_refl|]. by apply (sim_core s). }
  destruct cm as [ci cw]. rewrite /try_commit in H.
  destruct (ci =? num_txns s); [by case_match; injection H as <- <- <-; apply Hid|].
  returned H. destruct (gv && ge); [|injection H as <- <- <-; by apply Hid].
  destruct r1 as [| | |inc| |]; try (injection H as <- <- <-; by apply Hid).
  destruct a as [n sts vs idx wv cm'' ths iss chk log], Hs; simpl in *; subst.
  assert (Hraise : ∀ x, core x = core s →
            ∃ a', rtc (proto_act Quiet) (mkProto (num_txns s) (exec_status s) (val_status s) idx wv
                                    (ci, cw) ths iss chk log) a' ∧
              sim (mkSys x (ci, max cw (max_triggered_wave r0)) ws) a').
  { intros x Hx. eexists. split; [by eapply rtc_once, step_raise|]. by apply (sim_core s). }
  destruct (maybe_max_validated_wave r0) as [w|] eqn:Hm; [|injection H as <- <- <-; by apply Hraise].
  match type of H with context [?x <=? ?y] => destruct (Nat.leb_spec x y) end;
    [|injection H as <- <- <-; by apply Hraise].
  injection H as <- <- <-. eexists. split; [by eapply rtc_once, step_commit|].
  rewrite Nat.add_1_r. by split.
Qed.

(** ** The simulation *)

Lemma sys_act_sim e x y a :
  sys_act e x y → sim x a → proto_inv a → ∃ b, act_effect e a b ∧ sim y b.
Proof.
  intros Hstep Hs Hinv. destruct Hstep as
    [gv ge s cm ws s' cm' r H|t f gl s cm ws s' f' task Ht H|t f s cm ws Ht Hm|t f s cm ws Ht
    |t f s cm ws task Ht Hside|t f s cm ws i inc dep s' cv Ht Hd H|t f s cm ws i inc u s' next Ht H
    |t f s cm ws [i inc] w Ht|t f s cm ws i inc w s' b Ht H|t f s cm ws i inc w s' Ht H
    |t f s cm ws i inc s' next Ht H].
  - by eapply try_commit_sim.
  - by eapply next_task_sim.
  - exists a. split; [apply rtc_refl|]. apply (sim_core s); [done|].
    eapply sim_idle; [done..|by case_match|done].
  - exists a. split; [apply rtc_refl|]. by eapply sim_idle.
  - exists a. split; [apply rtc_refl|]. destruct task; try done; by eapply sim_idle.
  - exists a. split; [done|]. rewrite /wait_for_dependency in H. returned H.
    injection H as <- <-. apply push_parent_core in Hr. by apply (sim_core s).
  - by eapply finish_execution_sim.
  - destruct (sim_token _ _ _ _ Hs Ht) as (tk & Htk & k & -> & <- & <- & <-).
    destruct a as [n sts vs idx wv cm' ths iss chk log], Hs; simpl in *; subst.
    eexists. split; [eexists; split; [by eapply step_valid|apply rtc_refl]|]. split; simpl; try done.
    apply Forall2_insert; [done|]. by eexists.
  - eapply try_abort_sim in H as (b' & ? & ?); [|done..]. exists b'. split; [|done].
    exists b'. split; [done|apply rtc_refl].
  - eapply finish_validation_sim in H as (b' & ? & ?); [|done..].
    exists b'. split; [by apply rtc_once|done].
  - by eapply finish_abort_sim.
Qed.

Lemma sys_step_sim x y a :
  sys_step x y → sim x a → proto_inv a → ∃ b, rtc proto_step a b ∧ sim y b.
Proof.
  intros [e He] Hs Hinv. destruct (sys_act_sim _ _ _ _ He Hs Hinv) as (b & Hb & Hsb).
  exists b. split; [by eapply act_effect_run|done].
Qed.

Lemma Scheduler_new_core n deps gas m s :
  Scheduler_new n deps gas m = Ret s →
  core s = (n, 0%Z, replicate n (ReadyToExecute 0 None), replicate n ValidationStatus_new).
Proof. rw /Scheduler_new => H. returned H. by injection H as <-. Qed.

(** The states a scheduler for [n] transactions reaches with [threads] workers. *)
Definition reachable (n threads : nat) (deps : list (list nat)) (gas : list Z) (m : ExecutionMode)
    (x : sys) : Prop :=
  (Z.of_nat n < 2 ^ 32)%Z ∧
  ∃ s, Scheduler_new n deps gas m = Ret s ∧ rtc sys_step (sys_init s threads) x.

Lemma sim_init n threads deps gas m s :
  (Z.of_nat n < 2 ^ 32)%Z → Scheduler_new n deps gas m = Ret s →
  sim (sys_init s threads) (proto_init n threads).
Proof.
  intros Hn Hs. apply Scheduler_new_core in Hs as [= H1 H2 H3 H4].
  split; simpl; try done. apply Forall2_replicate. done.
Qed.

(** A run of the scheduler is a run of the protocol. *)
Lemma run_sim x y a :
  rtc sys_step x y → sim x a → proto_inv a → ∃ b, rtc proto_step a b ∧ sim y b.
Proof.
  intros Hr. revert a. induction Hr as [x|x y z Hxy _ IH]; intros a Hs Hinv.
  { exists a. split; [apply rtc_refl|done]. }
  destruct (sys_step_sim _ _ _ Hxy Hs Hinv) as (b & Hab & Hb).
  destruct (IH b) as (c & Hbc & Hc); [done|by eapply rtc_invariant; [apply proto_step_inv|..]|].
  exists c. split; [by transitivity b|done].
Qed.

Lemma reachable_sim n threads deps gas m x :
  reachable n threads deps gas m x → ∃ a, proto_reachable n threads a ∧ sim x a.
Proof.
  intros (Hn & s & Hs & Hr).
  eapply run_sim in Hr; [exact Hr|by eapply sim_init|apply proto_init_inv].
Qed.

Lemma proto_step_committed a b i inc :
  proto_inv a → proto_step a b →
  p_status a !! i = Some (Committed inc) → p_status b !! i = Some (Committed inc).
Proof.
  intros Hinv [e Hstep] Hi. pose proof (inv_owner _ Hinv) as Ho.
  destruct Hstep; simpl in *; try done; try (by upd).
  - apply (own_exec _ _ Ho) in H. by upd.
  - apply (own_abort _ _ Ho) in H. destruct (i0 <? idx); simpl; by upd.
Qed.

Lemma proto_run_committed a b i inc :
  proto_inv a → rtc proto_step a b →
  p_status a !! i = Some (Committed inc) → p_status b !! i = Some (Committed inc).
Proof.
  intros Hinv Hr Hi.
  apply (rtc_invariant proto_step (λ a, proto_inv a ∧ p_status a !! i = Some (Committed inc)) _ _) in Hr;
    [by destruct Hr| |done].
  intros x y [??] ?. split; [by eapply proto_step_inv|by eapply proto_step_committed].
Qed.

(** ** Running the system *)

(** One scheduler method by one thread, as a function. *)
Inductive action : Type :=
  | DoCommit
  | DoNext (t : nat)
  | DoWait (t dep : nat)
  | DoExecuted (t : nat)
  | DoValid (t : nat)
  | DoInvalid (t : nat)
  | DoRecorded (t : nat)
  | DoAborted (t : nat).

Definition do_action (act : action) (x : sys) : option sys :=
  let s := sched x in
  let cm := commit_state x in
  let ws := workers x in
  match act with
  | DoCommit =>
      match try_commit true true s cm with
      | Ret (s', cm', _) => Some (mkSys s' cm' ws)
      | Panic => None
      end
  | DoNext t =>
      match ws !! t with
      | Some (Holding NoTask, flag) =>
          match next_task true s flag with
          | Ret (s', flag', task) => Some (mkSys s' cm (<[t := (Holding task, flag')]> ws))
          | Panic => None
          end
      | _ => None
      end
  | DoWait t dep =>
      match ws !! t with
      | Some (Holding (ExecutionTask (i, inc) None), flag) =>
          if decide (dep < i) then
            match wait_for_dependency s i dep with
            | Ret (s', _) => Some (mkSys s' cm ws)
            | Panic => None
            end
          else None
      | _ => None
      end
  | DoExecuted t =>
      match ws !! t with
      | Some (Holding (ExecutionTask (i, inc) None), flag) =>
          match finish_execution s i inc false with
          | Ret (s', next) => Some (mkSys s' cm (<[t := (Holding next, flag)]> ws))
          | Panic => None
          end
      | _ => None
      end
  | DoValid t =>
      match ws !! t with
      | Some (Holding (ValidationTask version wave), flag) =>
          Some (mkSys s cm (<[t := (Checked version wave, flag)]> ws))
      | _ => None
      end
  | DoInvalid t =>
      match ws !! t with
      | Some (Holding (ValidationTask (i, inc) wave), flag) =>
          match try_abort s i inc with
          | Ret (s', aborted) =>
              Some (mkSys s' cm (<[t := (if aborted : bool then Rejected (i, inc)
                                         else Checked (i, inc) wave, flag)]> ws))
          | Panic => None
          end
      | _ => None
      end
  | DoRecorded t =>
      match ws !! t with
      | Some (Checked (i, inc) wave, flag) =>
          match finish_validation s i wave with
          | Ret s' => Some (mkSys s' cm (<[t := (Holding NoTask, flag)]> ws))
          | Panic => None
          end
      | _ => None
      end
  | DoAborted t =>
      match ws !! t with
      | Some (Rejected (i, inc), flag) =>
          match finish_abort s i inc with
          | Ret (s', next) => Some (mkSys s' cm (<[t := (Holding next, flag)]> ws))
          | Panic => None
          end
      | _ => None
      end
  end.

Fixpoint do_actions (acts : list action) (x : sys) : option sys :=
  match acts with
  | [] => Some x
  | act :: acts' => y ← do_action act x; do_actions acts' y
  end.

Definition action_event (act : action) : event :=
  match act with
  | DoCommit | DoNext _ | DoRecorded _ => Quiet
  | DoWait t dep => Waits t dep
  | DoExecuted t => Finished t
  | DoValid t => Accepted t
  | DoInvalid t => Refused t
  | DoAborted t => Undone t
  end.

Lemma do_action_act act x y : do_action act x = Some y → sys_act (action_event act) x y.
Proof.
  destruct x as [s cm ws], act; simpl; intros H; repeat case_match; simplify_eq.
  - by eapply sys_commit.
  - by eapply sys_next.
  - by eapply sys_wait.
  - by eapply sys_executed.
  - by eapply sys_valid.
  - change (Rejected (n, n0)) with (if true then Rejected (n, n0) else Checked (n, n0) wave).
    by eapply sys_invalid.
  - change (Checked (n, n0) wave) with (if false then Rejected (n, n0) else Checked (n, n0) wave).
    by eapply sys_invalid.
  - by eapply sys_recorded.
  - by eapply sys_aborted.
Qed.

Lemma do_actions_run acts x y : do_actions acts x = Some y → rtc sys_step x y.
Proof.
  revert x. induction acts as [|act acts IH]; simpl; intros x H; [by simplify_eq; apply rtc_refl|].
  apply bind_Some in H as (z & Hz & H). apply do_action_act in Hz. by eapply rtc_l; [eexists|apply IH].
Qed.

(** Runs a block of two transactions, the second with a hint on the first. *)
Definition example_run (acts : list action) : option sys :=
  match Scheduler_new 2 [[]; [0]] [10%Z; 20%Z] Standard with
  | Ret s => do_actions acts (sys_init s 2)
  | Panic => None
  end.

Lemma example_reachable acts x :
  example_run acts = Some x → reachable 2 2 [[]; [0]] [10%Z; 20%Z] Standard x.
Proof.
  rw /example_run. destruct (Scheduler_new 2 [[]; [0]] [10%Z; 20%Z] Standard) as [s|] eqn:Hs; [|done].
  intros H. split; [done|]. exists s. split; [done|]. by eapply do_actions_run.
Qed.

(** Transaction 1 is executed, fails its validation, is executed again, and both
    transactions are validated and committed. *)
Definition example_acts : list action :=
  [DoNext 0; DoExecuted 0; DoNext 0; DoExecuted 0; DoNext 0; DoNext 1; DoValid 0; DoRecorded 0;
   DoCommit; DoInvalid 1; DoAborted 1; DoExecuted 1; DoNext 0; DoValid 0; DoRecorded 0; DoCommit].

Lemma example_final : ∃ x, example_run example_acts = Some x ∧
  exec_status (sched x) = [Committed 0; Committed 1] ∧ commit_state x = (2, 1).
Proof. eexists. split; [vm_compute; reflexivity|]. by vm_compute. Qed.

(** The moment transaction 1 is being aborted by thread 1. *)
Lemma example_aborting : ∃ x, example_run (take 10 example_acts) = Some x ∧
  exec_status (sched x) = [Committed 0; Aborting 0] ∧
  workers x !! 1 = Some (Rejected (1, 0), false).
Proof. eexists. split; [vm_compute; reflexivity|]. by vm_compute. Qed.

(** ** What the scheduler guarantees *)





(** Commits are final and in order.  The committed transactions are exactly
    those below the commit index, and no later step of any thread changes the
    status of a committed transaction or takes the commit index back over it. *)
Theorem commits_final n threads deps gas m x y :
  reachable n threads deps gas m x → rtc sys_step x y →
  (∀ i, i < (commit_state x).1 ↔ ∃ inc, exec_status (sched x) !! i = Some (Committed inc)) ∧
  (∀ i inc, exec_status (sched x) !! i = Some (Committed inc) →
            exec_status (sched y) !! i = Some (Committed inc) ∧ i < (commit_state y).1).
Proof.
  intros Hr Hxy. destruct (reachable_sim _ _ _ _ _ _ Hr) as (a & Ha & Hs).
  apply proto_reachable_inv in Ha. destruct (run_sim _ _ _ Hxy Hs Ha) as (b & Hab & Hb).
  assert (Hinvb : proto_inv b) by (by eapply rtc_invariant; [apply proto_step_inv|..]).
  rewrite (sim_status _ _ Hs) (sim_commit _ _ Hs) (sim_status _ _ Hb) (sim_commit _ _ Hb).
  split; [intros i; split|intros i inc Hi].
  - apply (inv_commit _ Ha).
  - intros [inc Hi]. by eapply com_only; [apply (inv_commit _ Ha)|].
  - eapply proto_run_committed in Hi; [|done..]. split; [done|].
    by eapply com_only; [apply (inv_commit _ Hinvb)|].
Qed.

Lemma commits_final_witness : ∃ x, example_run (take 10 example_acts) = Some x ∧
  0 < (commit_state x).1.
Proof.
  destruct example_aborting as (x & Hx & Hst & _).
  destruct (commits_final _ _ _ _ _ _ x (example_reachable _ _ Hx)) as [Hp _]; [apply rtc_refl|].
  exists x. split; [exact Hx|]. apply Hp. exists 0. by rewrite Hst.
Defined.

(** Execution is exclusive.  In every reachable state at most one worker holds
    a given transaction for execution or for abort, and the status is then
    [Executing] or [Aborting] with that worker's incarnation: the two
    [debug_assert!]s of [set_executed_status] and [set_aborted_status] always hold. *)
Theorem execution_exclusive n threads deps gas m x t t' f f' i inc inc' p p' :
  reachable n threads deps gas m x →
  workers x !! t = Some (p, f) → workers x !! t' = Some (p', f') →
  (∃ cv, p = Holding (ExecutionTask (i, inc) cv)) ∨ p = Rejected (i, inc) →
  (∃ cv, p' = Holding (ExecutionTask (i, inc') cv)) ∨ p' = Rejected (i, inc') →
  t = t' ∧
  exec_status (sched x) !! i =
    Some (match p with Rejected _ => Aborting inc | _ => Executing inc end).
Proof.
  intros Hr Ht Ht' Hp Hp'. destruct (reachable_sim _ _ _ _ _ _ Hr) as (a & Ha & Hs).
  apply proto_reachable_inv, inv_owner in Ha as Ho.
  destruct (sim_token _ _ _ _ Hs Ht) as (tk & Htk & Hw).
  destruct (sim_token _ _ _ _ Hs Ht') as (tk' & Htk' & Hw').
  assert (owned tk = Some i) by (destruct Hp as [[cv ->]| ->]; by rewrite Hw).
  assert (owned tk' = Some i) by (destruct Hp' as [[cv ->]| ->]; by rewrite Hw').
  split; [by eapply own_excl|]. rewrite (sim_status _ _ Hs).
  destruct Hp as [[cv ->]| ->]; red in Hw; simpl in Hw; subst tk;
    [by eapply (own_exec _ _ Ho)|by eapply (own_abort _ _ Ho)].
Qed.

Lemma execution_exclusive_witness : ∃ x, example_run (take 10 example_acts) = Some x ∧
  exec_status (sched x) !! 1 = Some (Aborting 0).
Proof.
  destruct example_aborting as (x & Hx & _ & Hw). exists x. split; [exact Hx|].
  destruct (execution_exclusive _ _ _ _ _ _ _ _ _ _ 1 0 0 _ _ (example_reachable _ _ Hx) Hw Hw)
    as [_ H]; [by right|by right|exact H].
Defined.
