(* ===== verification/SchedulerProgress.v ===== *)
(** * Progress of the scheduler

    No method of the scheduler panics, no transaction is ever lost, and workers
    that have all run out of tasks can always go on: either a queued transaction,
    a validation or a commit is available.  The hint graph is assumed to name only
    lower transactions as dependencies, which is what the block builder promises. *)
From S2P Require Import Prelude MVHashMap Scheduler CommitProtocol CommitProgress SchedulerSafety.
Local Open Scope nat_scope.

(** ** Well-formed schedulers *)

(** Dependencies point to lower transactions. *)
Definition hints_ok (n : nat) (deps : list (list nat)) : Prop :=
  n ≤ length deps ∧ ∀ i ds d, i < n → deps !! i = Some ds → d ∈ ds → d < i.

Record wf (s : Scheduler) : Prop := mkWf {
  wf_status : length (exec_status s) = num_txns s;
  wf_val : length (val_status s) = num_txns s;
  wf_parents : length (critical_path_parent s) = num_txns s;
  wf_children : length (children s) = num_txns s;
  wf_hints : hints_ok (num_txns s) (hint_graph s);
  wf_queued i : i ∈ channels s ∨ i ∈ priochannels s → i < num_txns s;
  wf_parent d l j : critical_path_parent s !! d = Some l → j ∈ l → d < j < num_txns s;
  wf_condvar i inc cv : exec_status s !! i = Some (ReadyToExecute inc cv) → cv = None;
}.

(** Transaction [j] waits on the list of [d]. *)
Definition waits (s : Scheduler) (d j : nat) : Prop :=
  ∃ l, critical_path_parent s !! d = Some l ∧ j ∈ l.

(** A transaction that waits to be executed is in a channel, on the list of a
    transaction that will release it, or in [P], the ones a running method is
    about to take care of. *)
Definition scheduled (s : Scheduler) (P : list nat) : Prop :=
  ∀ i inc cv, exec_status s !! i = Some (ReadyToExecute inc cv) →
    i ∈ P ∨ i ∈ channels s ∨ i ∈ priochannels s ∨
    ∃ d, waits s d i ∧ is_executed s d true = None.

(** Steps that only add waiting transactions. *)
Record grows (s s' : Scheduler) : Prop := mkGrows {
  gr_core : core s' = core s;
  gr_channels : channels s' = channels s;
  gr_prio : priochannels s' = priochannels s;
  gr_children : children s' = children s;
  gr_hints : hint_graph s' = hint_graph s;
  gr_done : done_marker s' = done_marker s;
  gr_waits d j : waits s d j → waits s' d j;
}.

#[local] Instance grows_preorder : PreOrder grows.
Proof.
  split; [by intros s; split|]. intros s1 s2 s3 [] []. split; try congruence. by eauto.
Qed.

Lemma core_executed s s' d b : core s' = core s → is_executed s' d b = is_executed s d b.
Proof. intros [= _ _ He _]. by rw /is_executed He. Qed.

Lemma push_parent_ok dep tx s :
  wf s → dep < tx → tx < num_txns s →
  ∃ s', push_parent dep tx s = Ret s' ∧ wf s' ∧ grows s s' ∧ waits s' dep tx.
Proof.
  intros Hwf Hd Htx. rw /push_parent. pose proof (wf_parents _ Hwf).
  destruct (lookup_lt_is_Some_2 (critical_path_parent s) dep) as [l Hl]; [lia|]. rw Hl /=.
  eexists. split; [done|]. split_and!.
  - destruct Hwf; split; simpl; rewrite ?length_insert; try done.
    intros d l' j Hl' Hj. upd; [|by eauto].
    apply elem_of_app in Hj as [Hj|Hj%list_elem_of_singleton]; [by eauto|]. lia.
  - split; simpl; try done. intros d j (l' & Hl' & Hj). rewrite /waits /=.
    destruct (decide (d = dep)) as [->|].
    + exists (l ++ [tx]). upd. split; [done|]. apply elem_of_app. by left.
    + exists l'. rw list_lookup_insert_ne //.
  - exists (l ++ [tx]). simpl. upd. split; [done|]. apply elem_of_app. right.
    by apply list_elem_of_singleton.
Qed.

Lemma check_dependencies_ok tx deps s :
  wf s → tx < num_txns s → (∀ d, d ∈ deps → d < tx) →
  ∃ s' b, check_dependencies tx deps s = Ret (s', b) ∧ wf s' ∧ grows s s' ∧
    if b : bool then ∀ d, d ∈ deps → is_executed s d true ≠ None
    else ∃ d, waits s' d tx ∧ is_executed s d true = None.
Proof.
  revert s. induction deps as [|d deps IH]; intros s Hwf Htx Hdeps; simpl.
  { exists s, true. split_and!; [done..|]. intros d Hd. by apply elem_of_nil in Hd. }
  assert (Hds : ∀ d', d' ∈ deps → d' < tx) by (intros; apply Hdeps; by apply list_elem_of_further).
  case_bool_decide as He.
  - destruct (push_parent_ok d tx s) as (s1 & -> & Hwf1 & Hg & Hw);
      [done|apply Hdeps, list_elem_of_here|done|]. simpl.
    rewrite (core_executed s s1 d true (gr_core _ _ Hg)). rewrite bool_decide_true //.
    exists s1, false. split_and!; [done..|]. by exists d.
  - destruct (IH s) as (s' & b & Hc & Hwf' & Hg & Hb); [done..|]. exists s', b.
    split_and!; [done..|]. destruct b; [|done].
    intros d' [->|Hd]%elem_of_cons; [done|by apply Hb].
Qed.

Lemma scheduled_grows s s' P : grows s s' → scheduled s P → scheduled s' P.
Proof.
  intros Hg Hs i inc cv Hi. injection (gr_core _ _ Hg) as _ _ He _. rewrite He in Hi.
  destruct (Hs i inc cv Hi) as [?|[?|[?|(d & Hw & Hex)]]].
  - by left.
  - right; left. by rewrite (gr_channels _ _ Hg).
  - right; right; left. by rewrite (gr_prio _ _ Hg).
  - right; right; right. exists d. split; [by apply Hg|]. by rewrite (core_executed s s' _ _ (gr_core _ _ Hg)).
Qed.

Definition is_done (st : ExecStatus) : bool :=
  match st with Executed _ | Committed _ => true | _ => false end.

Lemma is_executed_done s d :
  is_executed s d true = None ↔ ∀ st, exec_status s !! d = Some st → is_done st = false.
Proof. rw /is_executed. destruct (exec_status s !! d) as [[]|]; naive_solver. Qed.

Lemma wf_set_exec s i st' :
  wf s → (∀ inc cv, st' = ReadyToExecute inc cv → cv = None) → wf (set_exec i st' s).
Proof.
  intros [] Hcv. split; simpl; rewrite ?length_insert; try done.
  intros j inc cv Hj. apply list_lookup_insert_Some in Hj as [(? & ? & ?)|[? ?]]; eauto.
Qed.

(** A status change that completes no execution and makes at most [i] ready. *)
Lemma scheduled_set s i st st' P :
  exec_status s !! i = Some st → (is_done st' = true → is_done st = true) →
  (is_ready st' = true → i ∈ P) → scheduled s P → scheduled (set_exec i st' s) P.
Proof.
  intros Hi Hd Hr Hs j inc cv Hj. simpl in Hj. upd; [left; by apply Hr|].
  destruct (Hs j inc cv) as [?|[?|[?|(d & Hw & Hex)]]]; [done|auto..|].
  right; right; right. exists d. split; [done|]. apply is_executed_done. intros st0 Hst0.
  simpl in Hst0. rewrite is_executed_done in Hex. upd; [|by eauto].
  specialize (Hex _ Hi). destruct (is_done st0); [|done]. by rewrite Hex in Hd; destruct Hd.
Qed.

(** Completing an execution leaves the waiting transactions to the caller. *)
Lemma scheduled_executed s i inc l :
  i < length (exec_status s) → critical_path_parent s !! i = Some l → scheduled s [] →
  scheduled (set_exec i (Executed inc) s) l.
Proof.
  intros Hi Hl Hs j inc' cv Hj. simpl in Hj.
  apply list_lookup_insert_Some in Hj as [(? & [=] & ?)|[Hne Hj]].
  destruct (Hs j inc' cv Hj) as [Hnil|[?|[?|(d & Hw & Hex)]]]; [by apply elem_of_nil in Hnil|auto..|].
  destruct (decide (d = i)) as [->|].
  { left. destruct Hw as (l' & ? & ?). by simplify_eq. }
  right; right; right. exists d. split; [done|]. rewrite /is_executed /=.
  by rewrite list_lookup_insert_ne.
Qed.

Definition static (s : Scheduler) : nat * list (list nat) * list (list nat) * bool :=
  (num_txns s, hint_graph s, children s, done_marker s).

Lemma scheduled_weaken s P Q :
  (∀ i inc cv, exec_status s !! i = Some (ReadyToExecute inc cv) → i ∈ P → i ∈ Q) →
  scheduled s P → scheduled s Q.
Proof. intros HPQ Hs i inc cv Hi. destruct (Hs i inc cv Hi) as [?|?]; [left; eauto|by right]. Qed.

Lemma try_incarnate_ok s i P :
  wf s → scheduled s (i :: P) →
  ∃ s' r, try_incarnate s i = Ret (s', r) ∧ wf s' ∧ scheduled s' P ∧ static s' = static s ∧
    channels s' = channels s ∧ priochannels s' = priochannels s ∧
    match r with Some (_, cv) => cv = None | None => True end.
Proof.
  intros Hwf Hs. rw /try_incarnate.
  destruct (exec_status s !! i) as [st|] eqn:Hi.
  2:{ exists s, None. split_and!; try done. eapply scheduled_weaken; [|done].
      intros j inc cv Hj [->|?]%elem_of_cons; [congruence|done]. }
  destruct (is_ready st) eqn:Hst.
  2:{ exists s, None. split_and!; try done; [by destruct st|]. eapply scheduled_weaken; [|done].
      intros j inc cv Hj [->|?]%elem_of_cons; [|done]. by simplify_eq. }
  destruct st as [inc cv| | | | |]; try done.
  assert (Hlt : i < num_txns s) by (apply lookup_lt_Some in Hi; by rewrite -(wf_status _ Hwf)).
  destruct (lookup_lt_is_Some_2 (hint_graph s) i) as [ds Hds];
    [destruct (wf_hints _ Hwf); lia|]. rewrite Hds /=.
  destruct (check_dependencies_ok i (reverse ds) s) as (s1 & b & Hc & Hwf1 & Hg & Hb); [done..| |].
  { intros d Hd. rewrite elem_of_reverse in Hd. destruct (wf_hints _ Hwf) as [_ Hh]. exact (Hh i ds d Hlt Hds Hd). }
  rewrite Hc /=. injection (gr_core _ _ Hg) as Hn _ He _.
  assert (Hstat : static s1 = static s)
    by (rewrite /static Hn (gr_hints _ _ Hg) (gr_children _ _ Hg) (gr_done _ _ Hg); done).
  apply (scheduled_grows _ _ _ Hg) in Hs. destruct b; simpl.
  - do 2 eexists. split; [done|]. split_and!; [by apply wf_set_exec| |done|apply Hg|apply Hg|
      exact (wf_condvar _ Hwf _ _ _ Hi)].
    apply (scheduled_weaken _ (i :: P));
      [|by eapply scheduled_set; [by rewrite He|done|done|]].
    intros j inc' cv' Hj [->|?]%elem_of_cons; [|done]. simpl in Hj. rewrite He in Hj. by upd.
  - do 2 eexists. split; [done|]. split_and!; [done| |done|apply Hg|apply Hg|done].
    destruct Hb as (d & Hw & Hex). intros j inc' cv' Hj.
    destruct (decide (j = i)) as [->|].
    + right; right; right. exists d. split; [done|]. by rewrite (core_executed s s1 _ _ (gr_core _ _ Hg)).
    + destruct (Hs j inc' cv' Hj) as [[->|?]%elem_of_cons|?]; [done|by left|by right].
Qed.

(** Queueing and taking from a queue. *)
Lemma wf_queue s ch pr :
  wf s → (∀ i, i ∈ ch ∨ i ∈ pr → i < num_txns s) → wf (set_channels ch (set_priochannels pr s)).
Proof. intros [] Hq. by split. Qed.

Lemma scheduled_queue s ch pr P Q :
  (∀ i, i ∈ P ∨ i ∈ channels s ∨ i ∈ priochannels s → i ∈ Q ∨ i ∈ ch ∨ i ∈ pr) →
  scheduled s P → scheduled (set_channels ch (set_priochannels pr s)) Q.
Proof.
  intros Hq Hs i inc cv Hi. destruct (Hs i inc cv Hi) as [?|[?|[?|?]]].
  - destruct (Hq i) as [?|[?|?]]; auto.
  - destruct (Hq i) as [?|[?|?]]; auto.
  - destruct (Hq i) as [?|[?|?]]; auto.
  - by right; right; right.
Qed.

Lemma send_ok s tx P : wf s → tx < num_txns s → scheduled s (tx :: P) →
  wf (send tx s) ∧ scheduled (send tx s) P.
Proof.
  intros Hwf Htx Hs. change (send tx s) with
    (set_channels (channels s ++ [tx]) (set_priochannels (priochannels s) s)). split.
  - apply wf_queue; [done|]. pose proof (wf_queued _ Hwf).
    intros i [[?| ->%list_elem_of_singleton]%elem_of_app|?]; eauto.
  - eapply scheduled_queue; [|done]. set_solver.
Qed.

Lemma send_prio_ok s tx P : wf s → tx < num_txns s → scheduled s (tx :: P) →
  wf (send_prio tx s) ∧ scheduled (send_prio tx s) P.
Proof.
  intros Hwf Htx Hs. change (send_prio tx s) with
    (set_channels (channels s) (set_priochannels (priochannels s ++ [tx]) s)). split.
  - apply wf_queue; [done|]. pose proof (wf_queued _ Hwf).
    intros i [?|[?| ->%list_elem_of_singleton]%elem_of_app]; eauto.
  - eapply scheduled_queue; [|done]. set_solver.
Qed.

Definition plain_task (task : SchedulerTask) : Prop :=
  match task with ExecutionTask _ cv => cv = None | _ => True end.

Lemma try_execute_ok s i P :
  wf s → scheduled s (i :: P) →
  ∃ s' r, try_execute_next_version s i = Ret (s', r) ∧ wf s' ∧ scheduled s' P ∧
    static s' = static s ∧ channels s' = channels s ∧ priochannels s' = priochannels s ∧
    match r with Some (_, cv) => cv = None | None => True end.
Proof.
  intros Hwf Hs. rw /try_execute_next_version. destruct (Nat.leb_spec (num_txns s) i).
  - exists s, None. split_and!; try done. eapply scheduled_weaken; [|done].
    intros j inc cv Hj [->|?]%elem_of_cons; [|done].
    apply lookup_lt_Some in Hj. rewrite (wf_status _ Hwf) in Hj. lia.
  - destruct (try_incarnate_ok s i P) as (s' & r & -> & ?); [done..|]. simpl.
    destruct r as [[inc cv]|]; by do 2 eexists.
Qed.

Lemma release_children_ok txs s next :
  wf s → scheduled s txs → (∀ tx, tx ∈ txs → tx < num_txns s) → plain_task next →
  ∃ s' next', release_children txs s next = Ret (s', next') ∧ wf s' ∧ scheduled s' [] ∧
    static s' = static s ∧ plain_task next'.
Proof.
  revert s next. induction txs as [|tx txs IH]; intros s next Hwf Hs Htxs Hn; simpl.
  { by exists s, next. }
  assert (Htx : tx < num_txns s) by (apply Htxs, list_elem_of_here).
  assert (Hrest : ∀ s', static s' = static s → ∀ tx, tx ∈ txs → tx < num_txns s').
  { intros s' [= -> _ _ _] tx' ?. apply Htxs. by apply list_elem_of_further. }
  destruct (lookup_lt_is_Some_2 (children s) tx) as [kids Hk]; [by rewrite (wf_children _ Hwf)|].
  rewrite Hk /=. destruct kids as [|c cs].
  { destruct (send_ok s tx txs) as [Hwf' Hs']; [done..|].
    destruct (IH (send tx s) next) as (s' & n' & ? & ? & ? & ? & ?); [done..|by apply Hrest|done|].
    by exists s', n'. }
  assert (Hprio : ∃ s' next', release_children txs (send_prio tx s) next = Ret (s', next') ∧
            wf s' ∧ scheduled s' [] ∧ static s' = static s ∧ plain_task next').
  { destruct (send_prio_ok s tx txs) as [Hwf' Hs']; [done..|].
    destruct (IH (send_prio tx s) next) as (s' & n' & ? & ? & ? & ? & ?);
      [done..|by apply Hrest|done|]. by exists s', n'. }
  destruct next; try exact Hprio.
  destruct (try_execute_ok s tx txs) as (s1 & r & -> & Hwf1 & Hs1 & Hst1 & _ & _ & Hr); [done..|].
  simpl. destruct r as [[v cv]|].
  - destruct (IH s1 (ExecutionTask v cv)) as (s' & n' & ? & ? & ? & Hst & ?);
      [done..|by apply Hrest|done|]. exists s', n'. split_and!; try done. by rewrite Hst.
  - destruct (IH s1 NoTask) as (s' & n' & ? & ? & ? & Hst & ?);
      [done..|by apply Hrest|done|]. exists s', n'. split_and!; try done. by rewrite Hst.
Qed.

Lemma finish_execution_ok s i inc upd :
  wf s → scheduled s [] → i < num_txns s →
  ∃ s' next, finish_execution s i inc upd = Ret (s', next) ∧ wf s' ∧ scheduled s' [] ∧
    static s' = static s ∧ plain_task next.
Proof.
  intros Hwf Hs Hi. rw /finish_execution /set_executed_status.
  pose proof (wf_status _ Hwf) as Hl. pose proof (wf_parents _ Hwf) as Hp.
  destruct (lookup_lt_is_Some_2 (exec_status s) i) as [st Hst]; [lia|].
  destruct (lookup_lt_is_Some_2 (critical_path_parent s) i) as [l Hcl]; [lia|].
  rewrite Hst /= Hcl /=. apply (release_children_ok l (set_exec i (Executed inc) s) NoTask);
    [by apply wf_set_exec| | |done].
  - apply scheduled_executed; [lia|done..].
  - intros tx Htx. by apply (wf_parent _ Hwf i l tx).
Qed.

Lemma try_exec_ok s :
  wf s → scheduled s [] →
  ∃ s' task, try_exec s = Ret (s', task) ∧ wf s' ∧ scheduled s' [] ∧ static s' = static s ∧
    plain_task task ∧ (channels s = [] → priochannels s = [] → s' = s ∧ task = NoTask).
Proof.
  intros Hwf Hs. rw /try_exec.
  assert (Hp : ∃ s1 r1,
      match priochannels s with
      | tx :: rest => try_execute_next_version (set_priochannels rest s) tx
      | [] => Ret (s, None)
      end = Ret (s1, r1) ∧ wf s1 ∧ scheduled s1 [] ∧ static s1 = static s ∧
      channels s1 = channels s ∧ (priochannels s = [] → s1 = s ∧ r1 = None) ∧
      match r1 with Some (_, cv) => cv = None | None => True end).
  { destruct (priochannels s) as [|tx rest] eqn:Hq; [by exists s, None|].
    assert (Hwf0 : wf (set_channels (channels s) (set_priochannels rest s))).
    { apply wf_queue; [done|]. intros i Hi. apply (wf_queued _ Hwf). rewrite Hq. set_solver. }
    assert (Hs0 : scheduled (set_channels (channels s) (set_priochannels rest s)) [tx]).
    { eapply scheduled_queue; [|done]. rewrite Hq. set_solver. }
    destruct (try_execute_ok _ tx [] Hwf0 Hs0) as (s1 & r1 & ? & ? & ? & ? & ? & ? & ?).
    exists s1, r1. by split_and!. }
  destruct Hp as (s1 & r1 & -> & Hwf1 & Hs1 & Hst1 & Hch1 & Hn1 & Hcv1). simpl.
  destruct r1 as [[v cv]|].
  { do 2 eexists. split; [done|]. split_and!; try done. intros _ Hq. by destruct (Hn1 Hq). }
  destruct (channels s1) as [|tx rest] eqn:Hq.
  { simpl. do 2 eexists. split; [done|]. split_and!; try done.
    intros _ Hq'. by destruct (Hn1 Hq'). }
  assert (Hwf0 : wf (set_channels rest (set_priochannels (priochannels s1) s1))).
  { apply wf_queue; [done|]. intros i Hi. apply (wf_queued _ Hwf1). rewrite Hq. set_solver. }
  assert (Hs0 : scheduled (set_channels rest (set_priochannels (priochannels s1) s1)) [tx]).
  { eapply scheduled_queue; [|done]. rewrite Hq. set_solver. }
  destruct (try_execute_ok _ tx [] Hwf0 Hs0) as (s2 & r2 & He & ? & ? & Hst2 & ? & ? & ?).
  change (set_channels rest s1) with (set_channels rest (set_priochannels (priochannels s1) s1)).
  rewrite He /=. destruct r2 as [[v cv]|]; do 2 eexists; (split; [done|]);
    split_and!; try done; try (by rewrite Hst2); rewrite -Hch1; congruence.
Qed.

Lemma try_validate_ok gl s flag s' flag' r :
  wf s → scheduled s [] → try_validate_next_version gl s flag = (s', flag', r) →
  wf s' ∧ scheduled s' [] ∧ static s' = static s.
Proof.
  intros Hwf Hs H. rewrite /try_validate_next_version in H.
  destruct gl; [|by injection H as <- <- <-].
  destruct (unpack_validation_idx (validation_idx s)) as [idx wv].
  destruct (num_txns s <=? idx); [by injection H as <- <- <-|].
  destruct (is_executed s idx false); injection H as <- <- <-; [|done].
  split_and!; [|done..]. by destruct Hwf.
Qed.

Lemma next_task_ok gl s flag :
  wf s → scheduled s [] →
  ∃ s' flag' task, next_task gl s flag = Ret (s', flag', task) ∧ wf s' ∧ scheduled s' [] ∧
    static s' = static s ∧ plain_task task.
Proof.
  intros Hwf Hs. rw /next_task. destruct (flag && done_marker s); [by do 3 eexists|].
  destruct (try_exec_ok s) as (s1 & task & -> & Hwf1 & Hs1 & Hst1 & Hpl & _); [done..|]. simpl.
  destruct task; try (by do 3 eexists). destruct flag; [by do 3 eexists|].
  destruct (try_validate_next_version gl s1 false) as [[s2 f2] r2] eqn:Hv.
  apply try_validate_ok in Hv as (? & ? & Hst2); [|done..].
  destruct r2 as [[v w]|]; do 3 eexists; (split; [done|]); split_and!; try done; by rewrite Hst2.
Qed.

Lemma wf_set_val s i v : wf s → wf (set_val i v s).
Proof. intros []. split; simpl; rewrite ?length_insert; done. Qed.

Lemma finish_validation_ok s i w :
  wf s → scheduled s [] → i < num_txns s →
  ∃ s', finish_validation s i w = Ret s' ∧ wf s' ∧ scheduled s' [] ∧ static s' = static s ∧
    validation_idx s' = validation_idx s.
Proof.
  intros Hwf Hs Hi. rw /finish_validation.
  destruct (lookup_lt_is_Some_2 (val_status s) i) as [v Hv]; [by rewrite (wf_val _ Hwf)|].
  rewrite Hv /=. eexists. split; [done|]. split_and!; [by apply wf_set_val|done..].
Qed.

Lemma try_abort_ok s i inc :
  wf s → scheduled s [] → i < num_txns s →
  ∃ s' b, try_abort s i inc = Ret (s', b) ∧ wf s' ∧ scheduled s' [] ∧ static s' = static s ∧
    validation_idx s' = validation_idx s.
Proof.
  intros Hwf Hs Hi. rw /try_abort.
  destruct (lookup_lt_is_Some_2 (exec_status s) i) as [st Hst]; [by rewrite (wf_status _ Hwf)|].
  rewrite Hst /=. destruct (status_eq st (Executed inc)) eqn:He; [|by do 2 eexists].
  apply status_eq_executed in He as ->. do 2 eexists. split; [done|].
  split_and!; [by apply wf_set_exec|by eapply scheduled_set|done..].
Qed.

Lemma try_commit_ok gv ge s ci cw :
  wf s → scheduled s [] → ci ≤ num_txns s →
  ∃ s' cm r, try_commit gv ge s (ci, cw) = Ret (s', cm, r) ∧ wf s' ∧ scheduled s' [] ∧
    num_txns s' = num_txns s ∧ validation_idx s' = validation_idx s ∧
    (ci = num_txns s → cm = (ci, cw)) ∧ (ci ≠ num_txns s → done_marker s' = done_marker s).
Proof.
  intros Hwf Hs Hci. rw /try_commit. destruct (Nat.eqb_spec ci (num_txns s)).
  { case_match; do 3 eexists; (split; [done|]); split_and!; try done. by destruct Hwf. }
  pose proof (wf_status _ Hwf). pose proof (wf_val _ Hwf).
  destruct (lookup_lt_is_Some_2 (exec_status s) ci) as [st Hst]; [lia|].
  destruct (lookup_lt_is_Some_2 (val_status s) ci) as [v Hv]; [lia|].
  rewrite Hst Hv /=. destruct (gv && ge); [|by do 3 eexists].
  destruct st; try (by do 3 eexists).
  destruct (maybe_max_validated_wave v) as [w|]; [|by do 3 eexists].
  case_match; [|by do 3 eexists]. do 3 eexists. split; [done|].
  split_and!; [by apply wf_set_exec|by eapply scheduled_set|done..].
Qed.

Lemma wait_ok s i dep :
  wf s → scheduled s [] → dep < i → i < num_txns s →
  ∃ s', wait_for_dependency s i dep = Ret (s', None) ∧ wf s' ∧ scheduled s' [] ∧
    static s' = static s ∧ validation_idx s' = validation_idx s.
Proof.
  intros Hwf Hs Hd Hi. rw /wait_for_dependency.
  destruct (push_parent_ok dep i s) as (s' & -> & Hwf' & Hg & _); [done..|]. simpl.
  exists s'. injection (gr_core _ _ Hg) as ? ? ? ?. split_and!; [done..| | |done].
  - by eapply scheduled_grows.
  - rewrite /static. destruct Hg. congruence.
Qed.

Lemma finish_abort_ok s i inc st :
  wf s → scheduled s [] → exec_status s !! i = Some st → is_done st = false →
  (i < (unpack_validation_idx (validation_idx s)).1 →
   (Z.of_nat (unpack_validation_idx (validation_idx s)).2 + 1 < 2 ^ 32)%Z) →
  ∃ s' next, finish_abort s i inc = Ret (s', next) ∧ wf s' ∧ scheduled s' [] ∧
    static s' = static s ∧ plain_task next.
Proof.
  intros Hwf Hs Hst Hd Hw. rw /finish_abort /set_aborted_status.
  assert (Hi : i < num_txns s) by (rewrite -(wf_status _ Hwf); by eapply lookup_lt_Some).
  destruct (lookup_lt_is_Some_2 (val_status s) i) as [v Hv]; [by rewrite (wf_val _ Hwf)|].
  rewrite Hst Hv /=. set (s1 := set_exec i (ReadyToExecute (inc + 1) None) s).
  assert (Hwf1 : wf s1) by (apply wf_set_exec; naive_solver).
  assert (Hs1 : scheduled s1 [i]).
  { eapply scheduled_set; [done|done| |]; [intros _; apply list_elem_of_here|].
    eapply scheduled_weaken; [|done]. intros ? ? ? _ Hn. by apply elem_of_nil in Hn. }
  assert (Hdec : ∃ s2 r, decrease_validation_idx s1 i = Ret (s2, r) ∧
            wf s2 ∧ scheduled s2 [i] ∧ static s2 = static s1).
  { rw /decrease_validation_idx. change (validation_idx s1) with (validation_idx s).
    destruct (unpack_validation_idx (validation_idx s)) as [idx wv]. simpl in Hw.
    destruct (Nat.ltb_spec i idx); [|by do 2 eexists]. specialize (Hw ltac:(done)).
    rewrite /rust_assert. destruct (Z.ltb_spec (Z.of_nat wv + 1) (2 ^ 32)); [|lia].
    simpl. do 2 eexists. split; [done|]. split_and!; [|done..]. by destruct Hwf1. }
  destruct Hdec as (s2 & r & -> & Hwf2 & Hs2 & Hst2). simpl.
  match goal with |- context [try_incarnate ?x i] => set (s3 := x) end.
  assert (Hwf3 : wf s3) by (unfold s3; destruct r; [by apply wf_set_val|done]).
  assert (Hs3 : scheduled s3 [i]) by (unfold s3; by destruct r).
  assert (Hst3 : static s3 = static s) by (unfold s3; by destruct r).
  destruct (try_incarnate_ok s3 i [] Hwf3 Hs3) as (s4 & r4 & -> & ? & ? & Hst4 & _ & _ & ?). simpl.
  destruct r4 as [[inc' cv]|]; do 2 eexists; (split; [done|]); split_and!; try done; by rewrite Hst4.
Qed.

(** ** Construction *)

(** Gas estimates are [u16] values. *)
Definition gas_ok (gas : list Z) : Prop := ∀ g, g ∈ gas → (0 ≤ g < 2 ^ 16)%Z.

(** The cost of a path through the transactions below [i]. *)
Definition cost_ok (i : nat) (path_cost : list Z) : Prop :=
  ∀ j c, path_cost !! j = Some c →
    (0 ≤ c ≤ 65535 * (if (j <? i)%nat then Z.of_nat j + 1 else 1))%Z.

Lemma new_parents_ok i parents path_cost my_cost parent kids num :
  cost_ok i path_cost → (∀ d, d ∈ parents → d < i) → i < num →
  num ≤ length path_cost → length kids = num →
  (0 ≤ my_cost ≤ 65535 * Z.of_nat i)%Z →
  (parent = 50000%Z ∨ ∃ d, parent = Z.of_nat d ∧ d < i) →
  ∃ c p k, new_parents i parents path_cost my_cost parent kids = Ret (c, p, k) ∧
    (0 ≤ c ≤ 65535 * Z.of_nat i)%Z ∧ (p = 50000%Z ∨ ∃ d, p = Z.of_nat d ∧ d < i) ∧
    length k = num.
Proof.
  intros Hc Hp Hi Hl Hk. revert my_cost parent kids Hk.
  induction parents as [|d ds IH]; intros my_cost parent kids Hk Hm Hpar; simpl.
  { by exists my_cost, parent, kids. }
  assert (Hd : d < i) by (apply Hp, list_elem_of_here).
  destruct (lookup_lt_is_Some_2 path_cost d) as [c Hcd]; [lia|].
  destruct (lookup_lt_is_Some_2 kids d) as [k Hkd]; [lia|]. rewrite Hcd Hkd /=.
  assert (Hcb := Hc d c Hcd). destruct (Nat.ltb_spec d i); [|lia].
  destruct (my_cost <? c)%Z; apply IH; rewrite ?length_insert; try done; try lia.
  - intros. apply Hp. by apply list_elem_of_further.
  - right. by exists d.
  - intros. apply Hp. by apply list_elem_of_further.
Qed.

Definition placed (cpp : list (list nat)) (send_vec : list nat) (j : nat) : Prop :=
  j ∈ send_vec ∨ ∃ d l, cpp !! d = Some l ∧ j ∈ l.

Lemma new_loop_ok n i num deps path_cost kids cpp send_vec :
  i + n = num → (Z.of_nat num ≤ 65536)%Z → hints_ok num deps → cost_ok i path_cost →
  num ≤ length path_cost → length kids = num → length cpp = num →
  (∀ d l j, cpp !! d = Some l → j ∈ l → d < j < num) → (∀ j, j ∈ send_vec → j < num) →
  (∀ j, j < i → placed cpp send_vec j) →
  ∃ kids' cpp' send', new_loop n i deps path_cost kids cpp send_vec = Ret (kids', cpp', send') ∧
    length kids' = num ∧ length cpp' = num ∧
    (∀ d l j, cpp' !! d = Some l → j ∈ l → d < j < num) ∧ (∀ j, j ∈ send' → j < num) ∧
    (∀ j, j < num → placed cpp' send' j).
Proof.
  revert i path_cost kids cpp send_vec.
  induction n as [|n IH]; intros i pc kids cpp sv Hn Hnum Hh Hc Hl Hk Hcl Hcpp Hsv Hpl; simpl.
  { exists kids, cpp, sv. split_and!; try done. intros j Hj. apply Hpl. lia. }
  destruct Hh as [Hh1 Hh2].
  destruct (lookup_lt_is_Some_2 deps i) as [ds Hds]; [lia|].
  destruct (lookup_lt_is_Some_2 pc i) as [c Hci]; [lia|]. rewrite Hds /=.
  destruct (new_parents_ok i ds pc 0 50000 kids num) as (mc & p & k & -> & Hmc & Hp & Hkl);
    [done|intros d Hd; apply (Hh2 i ds d); [lia|done|done]|lia|done|done|lia|by left|].
  simpl. rewrite Hci /=. assert (Hcb := Hc i c Hci). rewrite Nat.ltb_irrefl in Hcb.
  rewrite /rust_assert. destruct (Z.ltb_spec (c + mc) (2 ^ 32)); [|lia]. simpl.
  assert (Hc' : cost_ok (S i) (<[i := (c + mc)%Z]> pc)).
  { intros j x Hx. destruct (decide (i = j)) as [->|Hne].
    - rewrite (lookup_upd _ _ _ _ _ Hci) decide_True // in Hx. injection Hx as <-.
      destruct (Nat.ltb_spec j (S j)); lia.
    - rewrite list_lookup_insert_ne // in Hx. specialize (Hc j x Hx).
      destruct (Nat.ltb_spec j i), (Nat.ltb_spec j (S i)); lia. }
  destruct (Z.eqb_spec p 50000) as [->|Hne].
  - apply IH; rewrite ?length_insert; try done; try lia.
    + intros j [?|Hj%list_elem_of_singleton]%elem_of_app; [by apply Hsv|]. lia.
    + intros j Hj. destruct (decide (j = i)) as [->|].
      * left. apply elem_of_app. right. by apply list_elem_of_singleton.
      * destruct (Hpl j) as [?|?]; [lia| |by right]. left. apply elem_of_app. by left.
  - destruct Hp as [?|(d & -> & Hd)]; [done|]. rewrite Nat2Z.id.
    destruct (lookup_lt_is_Some_2 cpp d) as [l Hld]; [lia|]. rewrite Hld /=.
    apply IH; rewrite ?length_insert; try done; try lia.
    + intros d' l' j Hl' Hj. upd; [|by eauto].
      apply elem_of_app in Hj as [?|Hj%list_elem_of_singleton]; [by eauto|]. lia.
    + intros j Hj. destruct (decide (j = i)) as [->|].
      * right. exists d, (l ++ [i]). upd. split; [done|]. apply elem_of_app. right.
        by apply list_elem_of_singleton.
      * destruct (Hpl j) as [?|(d' & l' & ? & ?)]; [lia|by left|]. right.
        destruct (decide (d = d')) as [->|].
        -- exists d', (l ++ [i]). upd. split; [done|]. apply elem_of_app. by left.
        -- exists d', l'. rw list_lookup_insert_ne //.
Qed.

Lemma Scheduler_new_ok n deps gas m :
  hints_ok n deps → gas_ok gas → n ≤ length gas → (Z.of_nat n ≤ 65536)%Z →
  ∃ s, Scheduler_new n deps gas m = Ret s ∧ wf s ∧ scheduled s [] ∧
    num_txns s = n ∧ hint_graph s = deps.
Proof.
  intros Hh Hg Hl Hn. rw /Scheduler_new.
  destruct (Nat.leb_spec n (length gas)); [|lia].
  destruct (Nat.leb_spec n (length deps)); [|destruct Hh; lia]. simpl.
  destruct (new_loop_ok n 0 n deps gas (replicate n []) (replicate n []) [])
    as (kids & cpp & sv & -> & Hkl & Hcl & Hcpp & Hsv & Hpl); try done;
    rewrite ?length_replicate; try lia; try done.
  { intros j c Hc. destruct (Nat.ltb_spec j 0); [lia|]. apply list_elem_of_lookup_2 in Hc.
    specialize (Hg c Hc). lia. }
  { intros d l j Hd. apply lookup_replicate in Hd as [-> _]. intros Hj. by apply elem_of_nil in Hj. }
  { intros j Hj. by apply elem_of_nil in Hj. }
  simpl. eexists. split; [done|]. split_and!; [| |done|done].
  - split; simpl; rewrite ?length_replicate; try done.
    + intros i Hi. apply Hsv. destruct Hi as [Hi|Hi]; apply list_elem_of_In, filter_In in Hi as [Hi _];
        by apply list_elem_of_In.
    + intros i inc cv Hi. by apply lookup_replicate in Hi as [[= -> ->] _].
  - intros i inc cv Hi. simpl in Hi. apply lookup_replicate in Hi as [_ Hi].
    destruct (Hpl i Hi) as [Hin|(d & l & Hd & Hin)].
    + right. apply list_elem_of_In in Hin. simpl.
      destruct (bool_decide (kids !! i = Some [])) eqn:E; [left|right; left];
        apply list_elem_of_In, filter_In; by rewrite E.
    + right; right; right. exists d. split; [by exists l|]. apply is_executed_done. simpl.
      intros st Hst. by apply lookup_replicate in Hst as [-> _].
Qed.

(** ** The invariant of the running system *)

Definition validating (p : phase) : bool :=
  match p with Holding (ValidationTask _ _) | Rejected _ | Checked _ _ => true | _ => false end.

Definition plain_phase (p : phase) : Prop :=
  match p with Holding task => plain_task task | _ => True end.

Definition counter (s : Scheduler) : nat := (unpack_validation_idx (validation_idx s)).1.

Record alive (x : sys) : Prop := mkAlive {
  al_wf : wf (sched x);
  al_scheduled : scheduled (sched x) [];
  al_plain t p f : workers x !! t = Some (p, f) → plain_phase p;
  al_validating t p f : workers x !! t = Some (p, f) → validating p = true → f = false;
  al_done : done_marker (sched x) = true → (commit_state x).1 = num_txns (sched x);
  al_flag : counter (sched x) = num_txns (sched x) ∨ ∃ t p, workers x !! t = Some (p, false);
}.

(** A worker moves on with its flag unchanged. *)
Lemma alive_move s s' cm ws t p p' f :
  alive (mkSys s cm ws) → wf s' → scheduled s' [] → static s' = static s →
  ws !! t = Some (p, f) → plain_phase p' →
  (validating p' = true → f = false) → (validation_idx s' = validation_idx s ∨ f = false) →
  alive (mkSys s' cm (<[t := (p', f)]> ws)).
Proof.
  intros [A1 A2 A3 A4 Ad A5] Hwf Hs [= Hn _ _ Hdn] Ht Hp Hv Hidx; simpl in *.
  split; simpl; try done; [..|by rewrite Hdn Hn|].
  - intros t' p0 f0 Ht'. upd; [done|]. by eapply A3.
  - intros t' p0 f0 Ht' Hv'. upd; [by apply Hv|]. by eapply A4.
  - destruct (decide (f = false)) as [->|Hf]; [right; exists t, p'; by upd|].
    destruct Hidx as [Hidx|?]; [|done]. destruct A5 as [A5|(t' & p0 & Ht')].
    + left. by rewrite /counter Hidx Hn.
    + right. exists t', p0. upd. done.
Qed.

(** The same for a task that is no validation. *)
Lemma alive_hold s s' cm ws t p p' f :
  alive (mkSys s cm ws) → wf s' → scheduled s' [] → static s' = static s →
  validation_idx s' = validation_idx s → ws !! t = Some (p, f) →
  plain_phase p' → validating p' = false → alive (mkSys s' cm (<[t := (p', f)]> ws)).
Proof.
  intros Ha ? ? ? ? ? ? Hv. eapply alive_move; [exact Ha|done..| |by left]. by rewrite Hv.
Qed.

Lemma alive_same s s' cm cm' ws :
  alive (mkSys s cm ws) → wf s' → scheduled s' [] → num_txns s' = num_txns s →
  validation_idx s' = validation_idx s →
  (done_marker s' = true → cm'.1 = num_txns s) → alive (mkSys s' cm' ws).
Proof.
  intros [A1 A2 A3 A4 Ad A5] Hwf Hs Hn Hidx Hd; simpl in *. split; simpl; try done.
  { rewrite Hn. done. }
  destruct A5 as [A5|?]; [left|by right]. by rewrite /counter Hidx Hn.
Qed.

Lemma try_execute_idx s i s' r :
  try_execute_next_version s i = Ret (s', r) → validation_idx s' = validation_idx s.
Proof.
  intros H. rewrite /try_execute_next_version in H.
  destruct (num_txns s <=? i); [by injection H as <- _|]. returned H.
  apply try_incarnate_core in Hr. destruct o as [[inc cv]|]; injection H as <- _.
  - destruct Hr as [_ [= _ -> _ _]]. done.
  - by injection Hr as _ -> _ _.
Qed.

Lemma try_exec_idx s s' task : try_exec s = Ret (s', task) → validation_idx s' = validation_idx s.
Proof.
  intros H. rewrite /try_exec in H. returned H.
  assert (H1 : validation_idx s0 = validation_idx s).
  { destruct (priochannels s); [by injection Hr as <- _|]. by apply try_execute_idx in Hr. }
  destruct o as [[v cv]|]; [by injection H as <- _|]. returned H.
  assert (H2 : validation_idx s1 = validation_idx s0).
  { destruct (channels s0); [by injection Hr0 as <- _|]. by apply try_execute_idx in Hr0. }
  destruct o as [[v cv]|]; injection H as <- _; congruence.
Qed.

Lemma try_exec_no_validation s s' v w : try_exec s ≠ Ret (s', ValidationTask v w).
Proof.
  intros H. rewrite /try_exec in H. returned H. destruct o as [[? ?]|]; [done|].
  returned H. by destruct o as [[? ?]|].
Qed.

(** The flag only rises when the counter is at the end. *)
Lemma next_task_alive gl s cm ws t f s' f' task :
  alive (mkSys s cm ws) → counter s ≤ num_txns s → ws !! t = Some (Holding NoTask, f) →
  next_task gl s f = Ret (s', f', task) →
  alive (mkSys s' cm (<[t := (Holding task, f')]> ws)).
Proof.
  intros Ha Hcnt Ht H. pose proof (al_wf _ Ha) as Hwf. pose proof (al_scheduled _ Ha) as Hs. simpl in *.
  destruct (next_task_ok gl s f) as (s2 & f2 & k2 & H2 & Hwf2 & Hs2 & Hst2 & Hpl); [done..|].
  rewrite H in H2. injection H2 as <- <- <-. rewrite /next_task in H.
  destruct (f && done_marker s).
  { injection H as <- <- <-. by eapply alive_hold. }
  returned H. pose proof (try_exec_idx _ _ _ Hr) as Hidx.
  destruct s1 as [v cv|v w|n| | |]; try (injection H as <- <- <-; by eapply alive_hold).
  { eapply try_exec_no_validation in Hr as []. }
  destruct f; [injection H as <- <- <-; by eapply alive_hold|].
  destruct (try_exec_ok s Hwf Hs) as (s3 & k3 & H3 & Hwf3 & Hs3 & Hst3 & _).
  rewrite Hr in H3. injection H3 as <- <-. rewrite /try_validate_next_version in H.
  destruct gl; [|injection H as <- <- <-; by eapply alive_hold].
  rewrite Hidx in H. rewrite /counter in Hcnt. injection Hst3 as Hn3 _ _ Hd3.
  destruct (unpack_validation_idx (validation_idx s)) as [idx wv] eqn:Hu.
  destruct (Nat.leb_spec (num_txns s0) idx) as [Hge|Hlt].
  { injection H as <- <- <-. destruct Ha as [A1 A2 A3 A4 Ad A5]; split; simpl in *; try done.
    - intros t' p0 f0 Ht'. upd; [done|]. by eapply A3.
    - intros t' p0 f0 Ht' Hv'. upd. by eapply A4.
    - by rewrite Hd3 Hn3.
    - left. rewrite /counter Hidx Hu /= in Hcnt |- *. lia. }
  destruct (is_executed s0 idx false); injection H as <- <- <-; [|by eapply alive_hold].
  eapply alive_move; [exact Ha|done..|by right].
Qed.

Lemma finish_abort_returned s i inc r :
  finish_abort s i inc = Ret r → i < (unpack_validation_idx (validation_idx s)).1 →
  (Z.of_nat (unpack_validation_idx (validation_idx s)).2 + 1 < 2 ^ 32)%Z.
Proof.
  rw /finish_abort /set_aborted_status => H Hi. returned H. injection Hr0 as <-.
  rewrite /decrease_validation_idx in Hr2.
  change (validation_idx (set_exec i (ReadyToExecute (inc + 1) None) s))
    with (validation_idx s) in Hr2.
  destruct (unpack_validation_idx (validation_idx s)) as [idx wv]. cbn [fst snd] in *.
  destruct (Nat.ltb_spec i idx); [|lia]. returned Hr2. lia.
Qed.

Lemma sim_counter x a :
  sim x a → proto_inv a → unpack_validation_idx (validation_idx (sched x)) = (p_idx a, p_wave a).
Proof.
  intros Hs Hinv. rewrite (sim_packed _ _ Hs) unpack_pack //.
  pose proof (sim_small _ _ Hs). pose proof (inv_idx _ Hinv). lia.
Qed.

Lemma release_children_frame txs s next s' next' :
  release_children txs s next = Ret (s', next') → exec_or_none next →
  validation_idx s' = validation_idx s ∧ exec_or_none next'.
Proof.
  revert s next. induction txs as [|tx txs IH]; intros s next H Hn; simpl in H.
  { by injection H as <- <-. }
  returned H. destruct r; [by apply IH in H|].
  destruct next; try done; [by apply IH in H|]. returned H.
  apply try_execute_idx in Hr0. rewrite -Hr0. by destruct o as [[v cv]|]; apply IH in H.
Qed.

Lemma finish_execution_frame s i inc u s' next :
  finish_execution s i inc u = Ret (s', next) →
  validation_idx s' = validation_idx s ∧ validating (Holding next) = false.
Proof.
  rw /finish_execution /set_executed_status => H. returned H. injection Hr as <-.
  apply release_children_frame in H as [? ?]; [|done]. split; [done|by destruct next].
Qed.

(** The transactions a worker deals with exist. *)
Lemma worker_index x a t p f i inc :
  sim x a → proto_inv a → workers x !! t = Some (p, f) →
  (∃ cv, p = Holding (ExecutionTask (i, inc) cv)) ∨
  (∃ w, p = Holding (ValidationTask (i, inc) w) ∨ p = Checked (i, inc) w) ∨ p = Rejected (i, inc) →
  i < num_txns (sched x).
Proof.
  intros Hs Hinv Ht Hp. destruct (sim_token _ _ _ _ Hs Ht) as (tk & Htk & Hw).
  rewrite (sim_num _ _ Hs) -(inv_status_len _ Hinv).
  destruct Hp as [[cv ->]|[[w [->| ->]]| ->]]; red in Hw; simpl in Hw.
  - subst tk. apply (own_exec _ _ (inv_owner _ Hinv)) in Htk. by eapply lookup_lt_Some.
  - destruct Hw as (k & -> & <- & _). apply (tok_val _ _ _ (inv_token _ Hinv)) in Htk.
    apply (inv_ticket_inc _ Hinv) in Htk as (st & Hst & _). by eapply lookup_lt_Some.
  - destruct Hw as (k & -> & <- & _).
    apply (tok_checked _ _ _ (inv_token _ Hinv)) in Htk as [b Hb].
    apply (tok_issued _ _ _ (inv_token _ Hinv)) in Hb.
    apply (inv_ticket_inc _ Hinv) in Hb as (st & Hst & _). by eapply lookup_lt_Some.
  - subst tk. apply (own_abort _ _ (inv_owner _ Hinv)) in Htk. by eapply lookup_lt_Some.
Qed.

Lemma sys_step_alive x y a : sys_step x y → sim x a → proto_inv a → alive x → alive y.
Proof.
  intros [e Hstep] Hs Hinv Ha. pose proof (sim_counter _ _ Hs Hinv) as Hcnt.
  pose proof (al_wf _ Ha) as Hwf. pose proof (al_scheduled _ Ha) as Hsch.
  pose proof (λ t p f, al_validating _ Ha t p f) as Hval.
  pose proof (λ t p f i inc, worker_index _ _ t p f i inc Hs Hinv) as Hidx.
  destruct Hstep as
    [gv ge s cm ws s' cm' r H|t f gl s cm ws s' f' task Ht H|t f s cm ws Ht Hm|t f s cm ws Ht
    |t f s cm ws task Ht Hside|t f s cm ws i inc dep s' cv Ht Hd H|t f s cm ws i inc u s' next Ht H
    |t f s cm ws [i inc] w Ht|t f s cm ws i inc w s' b Ht H|t f s cm ws i inc w s' Ht H
    |t f s cm ws i inc s' next Ht H]; simpl in *.
  - destruct cm as [ci cw].
    destruct (try_commit_ok gv ge s ci cw) as (s1 & cm1 & r1 & H1 & ? & ? & ? & ? & Hend & Hkeep); [done..| |].
    { pose proof (inv_commit_idx _ Hinv) as Hc.
      by rewrite -(sim_commit _ _ Hs) -(sim_num _ _ Hs) in Hc. }
    rewrite H in H1. injection H1 as <- <- <-. eapply alive_same; [done..|]. intros Hdone.
    destruct (decide (ci = num_txns s)) as [Heq|Hne]; [by rewrite Hend|].
    exfalso. apply Hne, (al_done _ Ha). by rewrite -Hkeep.
  - eapply next_task_alive; [done| |done..]. rewrite /counter Hcnt /= (sim_num _ _ Hs).
    apply Hinv.
  - eapply alive_hold; [exact Ha|by destruct Hwf|done..|by case_match|by case_match].
  - by eapply alive_hold.
  - by eapply alive_hold.
  - destruct (wait_ok s i dep) as (s1 & H1 & ? & ? & [= ? _ _ ?] & ?); [done..| |].
    { eapply Hidx; [done|]. left. by eexists. }
    rewrite H in H1. injection H1 as <- ->.
    eapply alive_same; [done..|congruence|done|]. intros Hdone. apply (al_done _ Ha). simpl. congruence.
  - destruct (finish_execution_ok s i inc u) as (s1 & n1 & H1 & ? & ? & ? & ?); [done..| |].
    { eapply Hidx; [done|]. left. by eexists. }
    rewrite H in H1. injection H1 as <- <-.
    apply finish_execution_frame in H as [? ?]. by eapply alive_hold.
  - eapply alive_move; [exact Ha|done..| |by left]. intros _. by eapply Hval.
  - destruct (try_abort_ok s i inc) as (s1 & b1 & H1 & ? & ? & ? & ?); [done..| |].
    { eapply Hidx; [done|]. right; left. eexists. by left. }
    rewrite H in H1. injection H1 as <- <-.
    eapply alive_move; [exact Ha|done..|by destruct b| |by left]. intros _. by eapply Hval.
  - destruct (finish_validation_ok s i w) as (s1 & H1 & ? & ? & ? & ?); [done..| |].
    { eapply Hidx; [done|]. right; left. eexists. by right. }
    rewrite H in H1. injection H1 as <-. by eapply alive_hold.
  - assert (f = false) as -> by (by eapply Hval).
    destruct (sim_token _ _ _ _ Hs Ht) as (tk & Htk & ->).
    apply (own_abort _ _ (inv_owner _ Hinv)) in Htk. rewrite -(sim_status _ _ Hs) in Htk.
    destruct (finish_abort_ok s i inc (Aborting inc)) as (s1 & n1 & H1 & ? & ? & ? & ?); [done..| |].
    { by eapply finish_abort_returned. }
    rewrite H in H1. injection H1 as <- <-.
    eapply alive_move; [exact Ha|done..|by right].
Qed.

(** ** What the running system guarantees *)

(** A block as the scheduler expects it: at most [2^16] transactions, hints that
    point down, and an estimate for each transaction. *)
Record block_ok (n : nat) (deps : list (list nat)) (gas : list Z) : Prop := mkBlockOk {
  bo_size : (Z.of_nat n ≤ 65536)%Z;
  bo_hints : hints_ok n deps;
  bo_gas : gas_ok gas;
  bo_estimates : n ≤ length gas;
}.

Lemma reachable_alive n threads deps gas m x :
  block_ok n deps gas → 0 < threads → reachable n threads deps gas m x →
  ∃ a, proto_inv a ∧ progress_inv a ∧ sim x a ∧ alive x ∧ num_txns (sched x) = n.
Proof.
  intros [Hn Hh Hg Hl] Hth (Hsmall & s & Hs & Hr).
  destruct (Scheduler_new_ok n deps gas m) as (s' & Hs' & Hwf & Hsch & Hnum & _); [done..|].
  rewrite Hs in Hs'. injection Hs' as <-.
  assert (Hal : alive (sys_init s threads)).
  { split; simpl; try done.
    - intros t p f Ht. by apply lookup_replicate in Ht as [[= -> _] _].
    - intros t p f Ht. by apply lookup_replicate in Ht as [[= -> ->] _].
    - rewrite /Scheduler_new in Hs. returned Hs. by injection Hs as <-.
    - right. exists 0, (Holding NoTask). destruct threads; [lia|done]. }
  destruct (rtc_invariant sys_step
      (λ x, ∃ a, proto_reachable n threads a ∧ sim x a ∧ alive x) (sys_init s threads) x)
    as (a & Ha & Hsim & Hx); [|exact Hr| |].
  - intros y z (a & Ha & Hsim & Hy) Hstep. pose proof (proto_reachable_inv _ _ _ Ha) as Hinv.
    destruct (sys_step_sim _ _ _ Hstep Hsim Hinv) as (b & Hb & Hsb). exists b.
    split_and!; [by unfold proto_reachable in *; etrans|done|by eapply sys_step_alive].
  - exists (proto_init n threads). split_and!; [apply rtc_refl|by eapply sim_init|done].
  - exists a. split_and!; [by eapply proto_reachable_inv|by eapply proto_reachable_progress|done..|].
    rewrite (sim_num _ _ Hsim). by eapply proto_reachable_num.
Qed.


Lemma example_block_ok : block_ok 2 [[]; [0]] [10%Z; 20%Z].
Proof.
  split; [done| | |simpl; lia].
  - split; [simpl; lia|]. intros i ds d Hi Hds Hd.
    destruct i as [|[|i]]; simpl in Hds; simplify_eq; [by apply elem_of_nil in Hd|].
    apply list_elem_of_singleton in Hd as ->. lia.
  - intros g Hg. repeat (apply elem_of_cons in Hg as [->|Hg]; [lia|]). by apply elem_of_nil in Hg.
Qed.


(** With every worker idle, no transaction is executing or aborting. *)
Lemma idle_statuses x a i st :
  sim x a → proto_inv a → (∀ t p f, workers x !! t = Some (p, f) → p = Holding NoTask) →
  exec_status (sched x) !! i = Some st → is_done st = true ∨ is_ready st = true.
Proof.
  intros Hs Hinv Hidle Hi. rewrite (sim_status _ _ Hs) in Hi. pose proof (inv_owner _ Hinv) as Ho.
  assert (Htk : ∀ t tk, p_threads a !! t = Some tk → tk = Idle).
  { intros t tk Ht. destruct (Forall2_lookup_r _ _ _ _ _ (sim_workers _ _ Hs) Ht) as ([p f] & Hp & Hw).
    by rewrite (Hidle _ _ _ Hp) in Hw. }
  destruct st as [| inc|inc cv| | |inc]; simpl; auto; exfalso.
  - apply (own_executing _ _ Ho) in Hi as [t Ht]. by apply Htk in Ht.
  - by apply (own_suspended _ _ Ho) in Hi.
  - apply (own_aborting _ _ Ho) in Hi as [t Ht]. by apply Htk in Ht.
Qed.

(** With empty channels as well, every transaction has been executed: a waiting one
    would wait for a lower one that waits itself. *)
Lemma idle_all_done x a :
  sim x a → proto_inv a → alive x →
  (∀ t p f, workers x !! t = Some (p, f) → p = Holding NoTask) →
  channels (sched x) = [] → priochannels (sched x) = [] →
  ∀ i st, exec_status (sched x) !! i = Some st → is_done st = true.
Proof.
  intros Hs Hinv Ha Hidle Hc Hp i. induction (lt_wf i) as [i _ IH]. intros st Hi.
  destruct (idle_statuses _ _ _ _ Hs Hinv Hidle Hi) as [?|Hr]; [done|]. exfalso.
  destruct st as [inc cv| | | | |]; try done.
  destruct (al_scheduled _ Ha i inc cv Hi) as [Hn|[Hn|[Hn|(d & Hw & Hex)]]];
    [by apply elem_of_nil in Hn|rewrite Hc in Hn; by apply elem_of_nil in Hn|
     rewrite Hp in Hn; by apply elem_of_nil in Hn|].
  destruct Hw as (l & Hl & Hil). pose proof (wf_parent _ (al_wf _ Ha) _ _ _ Hl Hil) as Hd.
  destruct (lookup_lt_is_Some_2 (exec_status (sched x)) d) as [st Hst].
  { rewrite (wf_status _ (al_wf _ Ha)). lia. }
  rewrite is_executed_done in Hex. specialize (Hex _ Hst).
  pose proof (IH d ltac:(lia) _ Hst). congruence.
Qed.


(** Both transactions executed, none validated, nothing queued. *)
Lemma example_idle : ∃ x, example_run (take 4 example_acts) = Some x ∧
  workers x = [(Holding NoTask, false); (Holding NoTask, false)] ∧
  commit_state x = (0, 0) ∧ channels (sched x) ++ priochannels (sched x) = [].
Proof. eexists. split; [vm_compute; reflexivity|]. by vm_compute. Qed.


(** the workers stop only when the block is committed.  A worker is told to
    leave its loop only in a state in which every transaction is committed. *)
Theorem done_means_committed n threads deps gas m x gl f s' f' :
  block_ok n deps gas → 0 < threads → reachable n threads deps gas m x →
  next_task gl (sched x) f = Ret (s', f', Done) →
  ∀ i, i < n → ∃ inc, exec_status (sched x) !! i = Some (Committed inc).
Proof.
  intros Hb Hth Hr H i Hi.
  destruct (reachable_alive _ _ _ _ _ _ Hb Hth Hr) as (a & Hinv & _ & Hs & Ha & Hn).
  rewrite (sim_status _ _ Hs). apply (com_prefix _ _ _ (inv_commit _ Hinv)).
  rewrite -(sim_commit _ _ Hs) (al_done _ Ha) ?Hn //.
  rewrite /next_task in H. destruct (f && done_marker (sched x)) eqn:Hd.
  { by apply andb_prop in Hd as [_ ?]. }
  returned H. destruct s0 as [? ?|? ?|?| | |]; try done.
  - destruct f; [done|]. destruct (try_validate_next_version gl s false) as [[? ?] [[? ?]|]]; done.
  - exfalso. rewrite /try_exec in Hr0. returned Hr0. destruct o as [[? ?]|]; [done|].
    returned Hr0. by destruct o as [[? ?]|].
Qed.

Lemma example_done : ∃ x s' f', example_run (example_acts ++ [DoCommit; DoNext 0]) = Some x ∧
  next_task true (sched x) true = Ret (s', f', Done).
Proof. do 3 eexists. split; [vm_compute; reflexivity|]. vm_compute. reflexivity. Qed.

Lemma done_means_committed_witness : ∃ x,
  example_run (example_acts ++ [DoCommit; DoNext 0]) = Some x ∧
  ∃ inc, exec_status (sched x) !! 1 = Some (Committed inc).
Proof.
  destruct example_done as (x & s' & f' & Hx & Hd). exists x. split; [exact Hx|].
  apply (done_means_committed _ 2 _ _ _ _ _ _ _ _ example_block_ok ltac:(lia)
           (example_reachable _ _ Hx) Hd). lia.
Defined.
