(* ===== verification/SchedulerRace.v ===== *)
(** * The window inside [try_validate_next_version]

    [SchedulerSafety.v] runs every scheduler method as one atomic step.  The source
    is weaker in one place: [try_validate_next_version] loads the validation index,
    looks up the incarnation of the transaction it found, and only then increments
    the index with [fetch_add]; [decrease_validation_idx] does not take [valock], so
    the index can go back between the load and the increment, and the incarnation
    of one transaction is then paired with the index of another.  Here the two
    halves are separate steps. *)
From S2P Require Import Prelude MVHashMap Scheduler CommitProtocol SchedulerSafety.
Local Open Scope nat_scope.

(** The first half: [try_exec] found nothing, the lock is taken, the index is loaded
    and the transaction there is executed; the result is its incarnation. *)
Definition validate_load (s : Scheduler) : option Incarnation :=
  let '(idx_to_validate, _) := unpack_validation_idx (validation_idx s) in
  if num_txns s <=? idx_to_validate then None else is_executed s idx_to_validate false.

(** The second half: the index is incremented, and whatever it held is paired with
    the incarnation of the first half. *)
Definition validate_fetch (s : Scheduler) (incarnation : Incarnation) :
    Scheduler * (Version * Wave) :=
  let '(idx_to_validate, wave) := unpack_validation_idx (validation_idx s) in
  (set_validation_idx (wrap 64 (validation_idx s + 1)) s, ((idx_to_validate, incarnation), wave)).

(** Run without interruption the two halves are the method. *)
Lemma validate_halves s :
  try_validate_next_version true s false =
  let '(idx, _) := unpack_validation_idx (validation_idx s) in
  if num_txns s <=? idx then (s, true, None) else
  match validate_load s with
  | Some incarnation =>
      let '(s', r) := validate_fetch s incarnation in (s', false, Some r)
  | None => (s, false, None)
  end.
Proof.
  rw /try_validate_next_version /validate_load /validate_fetch.
  destruct (unpack_validation_idx (validation_idx s)) as [idx wv].
  destruct (num_txns s <=? idx); [done|]. by destruct (is_executed s idx false).
Qed.

(** The system with the thread that holds [valock] and the log of the read-set
    checks made so far, with their outcome. *)
Record race : Type := mkRace {
  base : sys;
  holder : option (nat * Incarnation);
  checks : list (Version * bool);
}.

Inductive race_action : Type :=
  | Atomic (act : action)
  | Load (t : nat)
  | Fetch.

Definition check_of (act : action) (x : sys) : list (Version * bool) :=
  match act with
  | DoValid t => match workers x !! t with
                 | Some (Holding (ValidationTask v _), _) => [(v, true)] | _ => [] end
  | DoInvalid t => match workers x !! t with
                   | Some (Holding (ValidationTask v _), _) => [(v, false)] | _ => [] end
  | _ => []
  end.

Definition do_race (act : race_action) (x : race) : option race :=
  match act with
  | Atomic a =>
      y ← do_action a (base x);
      Some (mkRace y (holder x) (check_of a (base x) ++ checks x))
  | Load t =>
      match workers (base x) !! t, holder x, try_exec (sched (base x)) with
      | Some (Holding NoTask, false), None, Ret (s', NoTask) =>
          inc ← validate_load s';
          Some (mkRace (mkSys s' (commit_state (base x)) (workers (base x))) (Some (t, inc)) (checks x))
      | _, _, _ => None
      end
  | Fetch =>
      '(t, inc) ← holder x;
      let '(s', (v, w)) := validate_fetch (sched (base x)) inc in
      Some (mkRace (mkSys s' (commit_state (base x))
                      (<[t := (Holding (ValidationTask v w), false)]> (workers (base x))))
              None (checks x))
  end.

Fixpoint do_races (acts : list race_action) (x : race) : option race :=
  match acts with
  | [] => Some x
  | act :: acts' => y ← do_race act x; do_races acts' y
  end.

Definition race_start (n threads : nat) : option race :=
  match Scheduler_new n (replicate n []) (replicate n 10%Z) Standard with
  | Ret s => Some (mkRace (sys_init s threads) None [])
  | Panic => None
  end.

(** Three transactions.  Transaction 1 fails its validation while thread 1, having
    read the incarnation of transaction 2, waits to increment the index: it comes
    back with the index of transaction 1 in the new wave, and its failed check of
    the old incarnation counts as a validation of the new one. *)
Definition race_schedule : list race_action :=
  [Atomic (DoNext 0); Atomic (DoExecuted 0); Atomic (DoNext 0); Atomic (DoExecuted 0);
   Atomic (DoNext 0); Atomic (DoExecuted 0);
   Atomic (DoNext 0); Atomic (DoValid 0); Atomic (DoRecorded 0); Atomic DoCommit;
   Atomic (DoNext 0); Load 1; Atomic (DoInvalid 0); Atomic (DoAborted 0); Fetch;
   Atomic (DoInvalid 1); Atomic (DoRecorded 1); Atomic (DoExecuted 0); Atomic DoCommit].

(** C39: commits are not certified when the increment is not atomic with the load.
    There is an interleaving of the two halves with the other methods after which
    incarnation 1 of transaction 1 is committed although no read-set check of that
    incarnation was ever made (contrast [commit_certified]). *)
Theorem unvalidated_commit : ∃ x y,
  race_start 3 2 = Some x ∧ do_races race_schedule x = Some y ∧
  exec_status (sched (base y)) !! 1 = Some (Committed 1) ∧
  Forall (λ c, c.1 ≠ (1, 1)) (checks y).
Proof.
  do 2 eexists. split; [vm_compute; reflexivity|]. split; [vm_compute; reflexivity|].
  split; [vm_compute; reflexivity|]. vm_compute. repeat constructor; by intros [=].
Qed.
