(* ===== verification/View.v ===== *)
(** * Views of the state during block execution

    Models [block-executor/src/view.rs] and [output_delta_resolver.rs]: what a
    transaction sees when it reads a key, through the multi-version map in parallel
    execution and through a plain map in sequential execution, and how the deltas
    left in the multi-version map are turned into writes at the end.

    The virtual machine is not part of the model: a transaction is a [program] that
    reads keys and finishes with a status, which is all the code here can observe
    of it. *)
From S2P Require Import Prelude DeltaOp WriteSet MVHashMap LastInputOutput.
Local Open Scope nat_scope.

(** ** Reads *)

Inductive ReadResult (V : Type) : Type :=
  | Value (v : V)
  | U128 (value : Z)
  | UnresolvedDelta (delta : DeltaOp)
  | Nothing.
Arguments Value {V} v.
Arguments U128 {V} value.
Arguments UnresolvedDelta {V} delta.
Arguments Nothing {V}.

(** A transaction as the executor sees it: it reads state and ends with a status.
    The error of a failed read is [VErr]. *)
Inductive program (K VErr S : Type) : Type :=
  | Finish (status : S)
  | ReadState (key : K) (next : result VErr (option bytes) → program K VErr S).
Arguments Finish {K VErr S} status.
Arguments ReadState {K VErr S} key next.

Section view.
Context {K V VErr Status : Type}.
Context `{Countable K, TransactionWrite V, BcsU128}.

(** The base view ([TStateView::get_state_value]) and the two errors the view raises
    itself: a missing aggregator, and a delta that does not apply. *)
Context (base_view : K → result VErr (option bytes)).
Context (storage_error : VErr) (into_vm_status : PartialVMError → VErr).

(** One round of [MVHashMapView::read]: the result with the captured read, or the
    transaction to wait for, after which the source starts over. *)
Definition view_read (versioned_map : MVHashMap K V) (key : K) (txn_idx : TxnIndex) :
    comp (TxnIndex + ReadResult V * ReadDescriptor K) :=
  r ← read versioned_map key txn_idx;
  Ret match r with
      | Ok (VersionOutput (idx, incarnation) v) => inr (Value v, from_version key idx incarnation)
      | Ok (Resolved value) => inr (U128 value, from_resolved key value)
      | Err NotFound => inr (Nothing, from_storage key)
      | Err (Unresolved delta) => inr (UnresolvedDelta delta, from_unresolved key delta)
      | Err (Dependency dep_idx) => inl dep_idx
      | Err DeltaApplicationFailure => inr (U128 0, from_delta_application_failure key)
      end.

(** [LatestView::get_state_value] on the multi-version map, from the result of the read. *)
Definition mv_state_value (state_key : K) (r : ReadResult V) : comp (result VErr (option bytes)) :=
  match r with
  | Value v => Ret (Ok (extract_raw_bytes v))
  | U128 v => Ret (Ok (Some (serialize v)))
  | UnresolvedDelta delta =>
      match base_view state_key with
      | Err e => Ret (Err e)
      | Ok None => Ret (Err storage_error)
      | Ok (Some bs) =>
          from_storage ← deserialize bs;
          Ret (match apply_to delta from_storage with
               | Ok result => Ok (Some (serialize result))
               | Err pe => Err (into_vm_status pe)
               end)
      end
  | Nothing => Ret (base_view state_key)
  end.

(** [LatestView::get_state_value] on the plain map of sequential execution. *)
Definition btree_state_value (map : gmap K V) (state_key : K) : result VErr (option bytes) :=
  match map !! state_key with
  | Some v => Ok (extract_raw_bytes v)
  | None => base_view state_key
  end.

(** Running a program against a fixed multi-version map: the status and the
    captured reads, or the transaction a read has to wait for. *)
Fixpoint run_mv (versioned_map : MVHashMap K V) (txn_idx : TxnIndex) (p : program K VErr Status) :
    comp (TxnIndex + Status * list (ReadDescriptor K)) :=
  match p with
  | Finish status => Ret (inr (status, []))
  | ReadState key next =>
      r ← view_read versioned_map key txn_idx;
      match (r : TxnIndex + ReadResult V * ReadDescriptor K) with
      | inl dep => Ret (inl dep)
      | inr (res, desc) =>
          v ← mv_state_value key res;
          r' ← run_mv versioned_map txn_idx (next v);
          Ret match (r' : TxnIndex + Status * list (ReadDescriptor K)) with
              | inl dep => inl dep
              | inr (status, reads) => inr (status, desc :: reads)
              end
      end
  end.

(** Running a program against a plain map. *)
Fixpoint run_btree (map : gmap K V) (p : program K VErr Status) : Status :=
  match p with
  | Finish status => status
  | ReadState key next => run_btree map (next (btree_state_value map key))
  end.

(** ** Resolving deltas of the final outputs *)

(** One entry of the loop of [resolve] over the versions of a key: the latest value
    and the writes per transaction. *)
Definition resolve_entry (key : K) (acc : option Z * list (list (K * WriteOp)))
    (e : TxnIndex * Entry V) : comp (option Z * list (list (K * WriteOp))) :=
  let '(latest_value, ret) := acc in
  let '(idx, entry) := e in
  match cell entry with
  | Write _ d =>
      match extract_raw_bytes d with
      | Some bs => x ← deserialize bs; Ret (Some x, ret)
      | None => Ret (None, ret)
      end
  | Delta delta =>
      latest ← expect latest_value;
      match apply_to delta latest with
      | Ok aggregator_value =>
          l ← expect (ret !! idx);
          Ret (Some aggregator_value,
               <[idx := l ++ [(key, Modification (serialize aggregator_value))]]> ret)
      | Err _ => Panic
      end
  end.

Fixpoint resolve_entries (key : K) (es : list (TxnIndex * Entry V))
    (acc : option Z * list (list (K * WriteOp))) : comp (option Z * list (list (K * WriteOp))) :=
  match es with
  | [] => Ret acc
  | e :: es' => acc' ← resolve_entry key acc e; resolve_entries key es' acc'
  end.

(** The value of an aggregator in storage, if there is one. *)
Definition storage_value (key : K) : comp (option Z) :=
  match base_view key with
  | Ok (Some bs) => x ← deserialize bs; Ret (Some x)
  | _ => Ret None
  end.

(** The loop of [resolve] over the aggregator keys. *)
Fixpoint resolve_keys (keys : list K) (self : MVHashMap K V) (ret : list (list (K * WriteOp))) :
    comp (list (list (K * WriteOp))) :=
  match keys with
  | [] => Ret ret
  | key :: keys' =>
      latest_value ← storage_value key;
      let '(self', entries) := entry_map_for_key self key in
      indexed_entries ← expect entries;
      '(_, ret') ← resolve_entries key (btree_iter indexed_entries) (latest_value, ret);
      resolve_keys keys' self' ret'
  end.

Definition resolve (self : MVHashMap K V) (block_size : nat) : comp (list (list (K * WriteOp))) :=
  let '(self', keys) := aggregator_keys self in
  resolve_keys keys self' (replicate block_size []).

(** ** The resolver agrees with the view *)

Lemma resolve_entries_app key es1 es2 acc :
  resolve_entries key (es1 ++ es2) acc =
  acc' ← resolve_entries key es1 acc; resolve_entries key es2 acc'.
Proof.
  revert acc. induction es1 as [|e es1 IH]; intros acc; simpl; [done|].
  destruct (resolve_entry key acc e); simpl; [apply IH|done].
Qed.

(** Resolving only adds writes. *)
Definition more_writes (ret ret' : list (list (K * WriteOp))) : Prop :=
  ∀ i w l, ret !! i = Some l → w ∈ l → ∃ l', ret' !! i = Some l' ∧ w ∈ l'.

#[local] Instance more_writes_preorder : PreOrder more_writes.
Proof.
  split; [by intros ret i w l ? ?; exists l|].
  intros r1 r2 r3 H12 H23 i w l Hl Hw. destruct (H12 i w l Hl Hw) as (l' & ? & ?). eauto.
Qed.

Lemma resolve_entry_more key acc e acc' :
  resolve_entry key acc e = Ret acc' → more_writes acc.2 acc'.2.
Proof.
  destruct acc as [latest ret], e as [idx entry]. rw /resolve_entry => Hr.
  destruct (cell entry) as [inc d|delta].
  - destruct (extract_raw_bytes d); [returned Hr|]; injection Hr as <-; done.
  - returned Hr. destruct (apply_to delta r) as [x|]; [|done]. returned Hr. injection Hr as <-.
    intros i w l Hl Hw. simpl. destruct (decide (i = idx)) as [->|].
    + rw list_lookup_insert_eq; [by eapply lookup_lt_Some|].
      simplify_eq/=. eexists. split; [done|]. apply elem_of_app. by left.
    + rw list_lookup_insert_ne //. by exists l.
Qed.

Lemma resolve_entries_more key es acc acc' :
  resolve_entries key es acc = Ret acc' → more_writes acc.2 acc'.2.
Proof.
  revert acc. induction es as [|e es IH]; intros acc Hr; simpl in Hr; [by injection Hr as <-|].
  returned Hr. apply resolve_entry_more in Hr0. etrans; [exact Hr0|by apply IH].
Qed.

Lemma resolve_keys_more keys self ret ret' :
  resolve_keys keys self ret = Ret ret' → more_writes ret ret'.
Proof.
  revert self ret. induction keys as [|k keys IH]; intros self ret Hr; simpl in Hr;
    [by injection Hr as <-|].
  returned Hr. apply resolve_entries_more in Hr2. etrans; [exact Hr2|by eapply IH].
Qed.

(** A run of deltas from a known value. *)
Lemma resolve_run key es ds v ret acc :
  delta_run es ds → resolve_entries key es (v, ret) = Ret acc → ds ≠ [] →
  ∃ b x, v = Some b ∧ apply_seq ds b = Ok x ∧ acc.1 = Some x.
Proof.
  intros Hrun. revert v ret. induction Hrun as [|[idx e] d es ds [Hf Hc] Hrun IH];
    intros v ret Hr Hne; [done|]. simpl in Hr. rewrite /resolve_entry Hc in Hr. returned Hr.
  destruct (apply_to d r0) as [x|] eqn:Hx; [|done]. returned Hr0. injection Hr0 as <-.
  exists r0. simpl. rewrite Hx /=. destruct ds as [|d' ds].
  - apply Forall2_nil_inv_r in Hrun as ->. simpl in Hr. injection Hr as <-. by exists x.
  - destruct (IH _ _ Hr) as (b & y & [= <-] & ? & ?); [done|]. by exists y.
Qed.

Lemma resolve_decodable key es acc acc' :
  resolve_entries key es acc = Ret acc' → decodable es.
Proof.
  revert acc. induction es as [|[idx e] es IH]; intros acc Hr i e' inc v b Hin Hc Hb.
  { by apply elem_of_nil in Hin. }
  simpl in Hr. returned Hr. apply elem_of_cons in Hin as [[= -> ->]|Hin]; [|by eapply IH].
  destruct acc as [latest ret]. rewrite /resolve_entry Hc Hb in Hr0. returned Hr0.
  rewrite /deserialize in Hr1. destruct (bcs_from_bytes b); [done|discriminate].
Qed.

(** The value after the entries up to a delta is what a view above that delta reads. *)
Lemma resolved_value key lim es idx e d v0 ret acc :
  (∀ i x, (i, x) ∈ es ++ [(idx, e)] → flag x = FLAG_DONE) → one_limit lim (es ++ [(idx, e)]) →
  cell e = Delta d → storage_value key = Ret v0 →
  resolve_entries key (es ++ [(idx, e)]) (v0, ret) = Ret acc →
  ∃ x r res, acc.1 = Some x ∧ read_loop (reverse (es ++ [(idx, e)])) None = Ret r ∧
    (match r with
     | Ok (VersionOutput _ w) => Some (Value w)
     | Ok (Resolved value) => Some (U128 value)
     | Err NotFound => Some Nothing
     | Err (Unresolved delta) => Some (UnresolvedDelta delta)
     | Err (Dependency _) => None
     | Err DeltaApplicationFailure => Some (U128 0)
     end) = Some res ∧
    mv_state_value key res = Ret (Ok (Some (serialize x))).
Proof.
  intros Hf Hl Hd Hv0 Hr. set (all := es ++ [(idx, e)]) in *.
  destruct (read_loop_total (reverse all) None) as [r Hrd].
  { rw reverse_involutive. by eapply resolve_decodable. }
  assert (Hm : read_meaning all r).
  { apply (read_loop_meaning lim _ _ [] []) in Hrd; rw ?reverse_involutive ?app_nil_r in Hrd |- *;
      try done; constructor. }
  assert (Hlast : ∀ pre i x post, all = pre ++ (i, x) :: post → post = [] → cell x = Delta d).
  { intros pre i x post Heq ->. apply app_inj_tail in Heq as [_ [= _ <-]]. done. }
  destruct r as [[value|[i inc] w]|[|delta|dep|]]; simpl in Hm.
  - destruct Hm as (pre & i & f & inc & w & post & ds & b & bv & Heq & _ & Hrun & Hne & Hb & Hbv & Hseq).
    rewrite Heq resolve_entries_app in Hr. returned Hr. destruct r as [v1 ret1].
    simpl in Hr. rewrite Hb /deserialize Hbv /= in Hr.
    destruct (resolve_run _ _ _ _ _ _ Hrun Hr Hne) as (b' & x & [= <-] & Hx & Hacc).
    exists x, (Ok (Resolved value)), (U128 value). split_and!; [done..|]. simpl. congruence.
  - exfalso. destruct Hm as (pre & f & post & ds & Heq & _ & Hrun & Hor).
    destruct ds as [|d' ds].
    { apply Forall2_nil_inv_r in Hrun as ->. by specialize (Hlast _ _ _ _ Heq eq_refl). }
    destruct Hor as [?|Hb]; [done|]. rewrite Heq resolve_entries_app in Hr. returned Hr.
    destruct r as [v1 ret1]. simpl in Hr. rewrite Hb /= in Hr.
    by destruct (resolve_run _ _ _ _ _ _ Hrun Hr) as (? & ? & ? & _).
  - subst all. by apply app_nil in Hm as [_ ?].
  - destruct Hm as (ds & Hrun & Hne & Hag).
    destruct (resolve_run _ _ _ _ _ _ Hrun Hr Hne) as (b & x & -> & Hx & Hacc).
    exists x, (Err (Unresolved delta)), (UnresolvedDelta delta). split_and!; [done..|].
    rewrite /storage_value in Hv0. rewrite /mv_state_value.
    destruct (base_view key) as [[bs|]|]; [|done..]. returned Hv0. injection Hv0 as <-.
    rewrite Hr0 /=. specialize (Hag r). apply (agrees_ok _ _ x) in Hag.
    by rewrite (proj2 Hag Hx).
  - exfalso. destruct Hm as (pre & x & post & ds & Heq & Hfl & _).
    assert (flag x = FLAG_DONE) as Hx; [|by rewrite Hfl in Hx].
    apply (Hf dep). rewrite -/all Heq. apply elem_of_app. right. by apply list_elem_of_here.
  - exfalso. destruct Hm as (pre & post & ds & Heq & Hrun & Hne & Hm).
    destruct (last pre) as [[i x]|] eqn:Hlst.
    + destruct Hm as (inc & w & b & bv & Hc & _ & Hb & Hbv & Hno).
      apply last_Some in Hlst as [pre' ->]. rewrite Heq -assoc /= resolve_entries_app in Hr.
      returned Hr. destruct r as [v1 ret1]. simpl in Hr. rewrite Hc Hb /deserialize Hbv /= in Hr.
      destruct (resolve_run _ _ _ _ _ _ Hrun Hr Hne) as (b' & y & [= <-] & Hy & _). by apply (Hno y).
    + apply last_None in Hlst as ->. simpl in Heq. rewrite Heq in Hr.
      destruct (resolve_run _ _ _ _ _ _ Hrun Hr Hne) as (b' & y & _ & Hy & _). by apply (Hm b' y).
Qed.

Lemma resolve_keys_at keys self ret ret' key :
  resolve_keys keys self ret = Ret ret' → key ∈ keys → NoDup keys →
  ∃ v0 v ret1 acc, storage_value key = Ret v0 ∧ data self !! key = Some v ∧
    resolve_entries key (btree_iter (versioned_map v)) (v0, ret1) = Ret acc ∧
    more_writes acc.2 ret'.
Proof.
  revert self ret. induction keys as [|k keys IH]; intros self ret Hr Hin Hnd;
    [by apply elem_of_nil in Hin|].
  apply NoDup_cons in Hnd as [Hk Hnd]. simpl in Hr. returned Hr.
  apply fmap_Some in Hr1 as (v & Hv & ->).
  apply elem_of_cons in Hin as [->|Hin].
  - exists r, v, ret, (o, l). split_and!; [done..|]. by eapply resolve_keys_more.
  - destruct (IH _ _ Hr Hin Hnd) as (v0 & v' & ret1 & acc & ? & Hv' & ? & ?).
    exists v0, v', ret1, acc. split_and!; [done| |done..].
    simpl in Hv'. rewrite lookup_delete_ne in Hv'; [set_solver|done].
Qed.

Lemma resolve_last key es idx e d acc0 acc1 :
  cell e = Delta d → resolve_entries key (es ++ [(idx, e)]) acc0 = Ret acc1 →
  ∃ x l, acc1.1 = Some x ∧ acc1.2 !! idx = Some l ∧ (key, Modification (serialize x)) ∈ l.
Proof.
  intros Hd Hr. rewrite resolve_entries_app in Hr. returned Hr. destruct r as [v ret].
  simpl in Hr. rewrite Hd in Hr. returned Hr. destruct (apply_to d r0) as [x|]; [|done].
  returned Hr1. injection Hr1 as <-. injection Hr as <-. exists x. simpl. eexists.
  split; [done|]. rw list_lookup_insert_eq; [by eapply lookup_lt_Some|]. split; [done|].
  apply elem_of_app. right. by apply list_elem_of_singleton.
Qed.

(** The entries up to [idx] are the ones a reader at [idx + 1] sees. *)
Lemma visible_upto (self : MVHashMap K V) key v pre idx e post :
  data self !! key = Some v → btree_iter (versioned_map v) = pre ++ (idx, e) :: post →
  visible self key (S idx) = pre ++ [(idx, e)].
Proof.
  intros Hv Hit. rw /visible Hv.
  assert (Hasc : ascending (pre ++ (idx, e) :: post)).
  { rewrite -Hit. auto with rust. }
  apply StronglySorted_app in Hasc as (Hcross & Hpre & Hpost).
  apply StronglySorted_inv in Hpost as [_ Hpost]. rewrite Forall_forall in Hpost.
  apply ascending_ext; [auto with rust| |].
  - apply StronglySorted_app. split_and!; [|done|by repeat constructor].
    intros x y Hx ->%list_elem_of_singleton. apply Hcross; [done|]. by apply list_elem_of_here.
  - intros [k w]. rw elem_of_btree_below -elem_of_btree_iter Hit.
    rewrite !elem_of_app elem_of_cons list_elem_of_singleton. split.
    + intros [Hk [?|[?|Hin]]]; [by left|by right|]. apply Hpost in Hin. simpl in Hin. lia.
    + intros [Hin|Heq].
      * split; [|by left]. specialize (Hcross (k, w) (idx, e) Hin). simpl in Hcross.
        apply Nat.lt_lt_succ_r, Hcross. by apply list_elem_of_here.
      * injection Heq as -> ->. split; [lia|by right; left].
Qed.

(** delta outputs are materialised as the transactions saw them.  When every
    execution is done and the deltas of a key share a limit, the write that
    [resolve] produces for the delta of transaction [idx] holds exactly the value
    that a transaction right after [idx] reads for that key through [LatestView],
    although the view merges deltas lazily and the resolver applies them one by one. *)
Theorem resolver_agrees_with_view (self : MVHashMap K V) block_size ret key idx e d lim :
  NoDup (delta_keys self) → key ∈ delta_keys self →
  (∀ i x, entry_at self key i = Some x → flag x = FLAG_DONE) →
  (∀ i x d', entry_at self key i = Some x → cell x = Delta d' → wf_delta d' ∧ limit d' = lim) →
  entry_at self key idx = Some e → cell e = Delta d →
  resolve self block_size = Ret ret →
  ∃ x l r desc,
    ret !! idx = Some l ∧ (key, Modification (serialize x)) ∈ l ∧
    view_read self key (S idx) = Ret (inr (r, desc)) ∧
    mv_state_value key r = Ret (Ok (Some (serialize x))).
Proof.
  intros Hnd Hin Hf Hl He Hd Hr. rewrite /resolve /= in Hr.
  destruct (resolve_keys_at _ _ _ _ key Hr Hin Hnd) as (v0 & v & ret1 & acc & Hv0 & Hv & Hes & Hmore).
  simpl in Hv. rewrite /entry_at Hv /= in He.
  pose proof He as Hel. apply elem_of_btree_iter, list_elem_of_split in Hel as (pre & post & Hit).
  assert (Hat : ∀ i x, (i, x) ∈ pre ++ [(idx, e)] → entry_at self key i = Some x).
  { intros i x Hx. rewrite /entry_at Hv /=. apply elem_of_btree_iter. rewrite Hit.
    apply elem_of_app in Hx as [?|Hx%list_elem_of_singleton]; apply elem_of_app; [by left|].
    right. rewrite Hx. by apply list_elem_of_here. }
  rewrite Hit cons_middle assoc resolve_entries_app in Hes. returned Hes.
  destruct (resolve_last _ _ _ _ _ _ _ Hd Hr0) as (x & l & Hx & Hl1 & Hl2).
  destruct (resolved_value key lim pre idx e d v0 ret1 r) as (y & rd & res & Hy & Hrd & Hres & Hval);
    [by intros i z Hz%Hat; eauto|by intros i z d' Hz%Hat; eauto|done..|].
  apply resolve_entries_more in Hes. destruct (Hes _ _ _ Hl1 Hl2) as (l2 & Hl3 & Hl4).
  destruct (Hmore _ _ _ Hl3 Hl4) as (l3 & ? & ?).
  assert (Hview : ∃ desc, view_read self key (S idx) = Ret (inr (res, desc))).
  { rewrite /view_read read_visible (visible_upto _ _ _ _ _ _ _ Hv Hit) Hrd /=.
    destruct rd as [[?|[? ?]]|[| | |]]; simplify_eq/=; by eexists. }
  destruct Hview as [desc Hview]. exists x, l3, res, desc. split_and!; try done. congruence.
Qed.
End view.

Lemma resolver_agrees_with_view_witness :
  ∃ ret x l r desc,
    @resolve Z WriteOp unit _ _ _ LittleEndian.le_bcs (λ _, Ok None) example_map 3 = Ret ret ∧
    ret !! 2 = Some l ∧ (7%Z, Modification (@serialize LittleEndian.le_bcs x)) ∈ l ∧
    @view_read Z WriteOp _ _ _ LittleEndian.le_bcs example_map 7%Z 3 = Ret (inr (r, desc)) ∧
    @mv_state_value Z WriteOp unit _ LittleEndian.le_bcs (λ _, Ok None) tt (λ _, tt) 7%Z r =
      Ret (Ok (Some (@serialize LittleEndian.le_bcs x))).
Proof.
  set ret := [[]; [(7%Z, Modification (LittleEndian.encode 16 8))];
    [(7%Z, Modification (LittleEndian.encode 16 7))]].
  assert (∀ i x, entry_at example_map 7%Z i = Some x →
    x = mkEntry FLAG_DONE (Write 0 (Creation (LittleEndian.encode 16 5))) ∨
    x = mkEntry FLAG_DONE (Delta (delta_add 3 100)) ∨ x = mkEntry FLAG_DONE (Delta (delta_sub 1 100)))
    as Hat.
  { intros i x Hx. rewrite /entry_at /example_map /= lookup_singleton_eq /= in Hx.
    repeat apply lookup_insert_Some in Hx as [[_ <-]|[_ Hx]]; auto.
    apply lookup_singleton_Some in Hx as [_ <-]. auto. }
  exists ret. destruct (@resolver_agrees_with_view Z WriteOp unit _ _ _ LittleEndian.le_bcs
    (λ _, Ok None) tt (λ _, tt) example_map 3 ret 7%Z 2 (mkEntry FLAG_DONE (Delta (delta_sub 1 100)))
    (delta_sub 1 100) 100) as (x & l & r & desc & H).
  - apply NoDup_singleton.
  - by apply list_elem_of_singleton.
  - by intros i x [->|[->| ->]]%Hat.
  - intros i x d [->|[->| ->]]%Hat Hd; try done; injection Hd as <-; unfold wf_delta, u128; simpl; lia.
  - reflexivity.
  - reflexivity.
  - vm_compute. reflexivity.
  - exists x, l, r, desc. split; [vm_compute; reflexivity|exact H].
Defined.
