(* ===== verification/BlockExecutor.v ===== *)
(** * The block executor

    Models the data handling of [block-executor/src/executor.rs]: applying the
    output of an execution to the multi-version map and recording it ([execute]),
    checking a read set ([validate]), signature batches ([work_task_with_scope]),
    extracting the outputs after a parallel run, sequential execution and
    [execute_block] with its fallback.  The interleaving of these pieces by the
    worker threads is in [ParallelExecutor.v]. *)
From S2P Require Import Prelude DeltaOp WriteSet MVHashMap LastInputOutput View.
Local Open Scope nat_scope.

(** What the executor asks of the virtual machine ([task.rs], [ExecutorTask]): a
    program for a transaction at an index; the flag asks for materialised deltas,
    the pair is the prologue hint. *)
Class ExecutorTask (Txn K VErr T E : Type) : Type := {
  execute_transaction : Txn → TxnIndex → bool → bool * bool → program K VErr (ExecutionStatus.t T E);
}.

Section executor.
Context {Txn K V VErr T E AccessPath : Type}.
Context `{Countable K, Countable AccessPath, TransactionWrite V, BcsU128}.
Context `{!ModulePath K AccessPath, !TransactionOutputTrait T K V, !ExecutorTask Txn K VErr T E}.
Context (base_view : K → result VErr (option bytes)).

Abbreviation MV := (MVHashMap K V) (only parsing).
Abbreviation LIO := (@TxnLastInputOutput K T E AccessPath _ _) (only parsing).
Abbreviation Status := (ExecutionStatus.t T (Error E)) (only parsing).

(** ** [execute] *)

(** The writes of an output: the keys of the previous incarnation still to be
    removed, whether a write went outside them, and the map. *)
Fixpoint apply_writes (version : Version) (writes : list (K * V)) (prev : gset K) (outside : bool)
    (mv : MV) : comp (gset K * bool * MV) :=
  match writes with
  | [] => Ret (prev, outside, mv)
  | (k, v) :: writes' =>
      mv' ← add_write mv k version v;
      apply_writes version writes' (prev ∖ {[k]}) (outside || negb (bool_decide (k ∈ prev))) mv'
  end.

Fixpoint apply_deltas (idx : TxnIndex) (deltas : list (K * DeltaOp)) (prev : gset K) (outside : bool)
    (mv : MV) : gset K * bool * MV :=
  match deltas with
  | [] => (prev, outside, mv)
  | (k, d) :: deltas' =>
      apply_deltas idx deltas' (prev ∖ {[k]}) (outside || negb (bool_decide (k ∈ prev)))
        (add_delta mv k idx d)
  end.

(** [apply_updates]: first the writes, then the deltas. *)
Definition apply_updates (version : Version) (output : T) (prev : gset K) (mv : MV) :
    comp (gset K * bool * MV) :=
  '(prev, outside, mv) ← apply_writes version (get_writes output) prev false mv;
  Ret (apply_deltas version.1 (get_deltas output) prev outside mv).

(** Removing what the previous incarnation wrote and this one did not. *)
Fixpoint delete_keys (idx : TxnIndex) (ks : list K) (mv : MV) : comp MV :=
  match ks with
  | [] => Ret mv
  | k :: ks' => mv' ← mv_delete mv k idx; delete_keys idx ks' mv'
  end.

(** [execute] after the virtual machine returned: the new map, the recorded table,
    and whether the output went outside the previous one. *)
Definition execute_effects (version : Version) (execute_result : ExecutionStatus.t T E)
    (reads : list (ReadDescriptor K)) (lio : LIO) (mv : MV) : comp (LIO * MV * bool) :=
  prev ← modified_keys lio version.1;
  '(prev, outside, mv, result) ←
    match execute_result with
    | ExecutionStatus.Success output =>
        '(prev, outside, mv) ← apply_updates version output prev mv;
        Ret (prev, outside, mv, ExecutionStatus.Success output)
    | ExecutionStatus.SkipRest output =>
        '(prev, outside, mv) ← apply_updates version output prev mv;
        Ret (prev, outside, mv, ExecutionStatus.SkipRest output)
    | ExecutionStatus.Abort err => Ret (prev, false, mv, ExecutionStatus.Abort (UserError err))
    end;
  mv ← delete_keys version.1 (elements (prev : gset K)) mv;
  lio ← record lio version.1 reads result;
  Ret (lio, mv, outside).

(** ** [validate] *)

(** One element of the read set, read again. *)
Definition validate_read (mv : MV) (idx_to_validate : TxnIndex) (r : ReadDescriptor K) : comp bool :=
  res ← read mv (access_path r) idx_to_validate;
  Ret match res with
      | Ok (VersionOutput version _) => validate_version r version
      | Ok (Resolved value) => validate_resolved r value
      | Err (Dependency _) => false
      | Err (Unresolved delta) => validate_unresolved r delta
      | Err NotFound => validate_storage r
      | Err DeltaApplicationFailure => validate_delta_application_failure r
      end.

(** [read_set.iter().all(..)], which stops at the first failure. *)
Fixpoint validate_reads (mv : MV) (idx : TxnIndex) (reads : list (ReadDescriptor K)) : comp bool :=
  match reads with
  | [] => Ret true
  | r :: reads' =>
      b ← validate_read mv idx r;
      if b : bool then validate_reads mv idx reads' else Ret false
  end.

(** Marking the outputs of an aborted incarnation. *)
Fixpoint mark_keys (idx : TxnIndex) (ks : list K) (mv : MV) : comp MV :=
  match ks with
  | [] => Ret mv
  | k :: ks' => mv' ← mark_estimate mv k idx; mark_keys idx ks' mv'
  end.

(** ** Signature batches *)

(** The transactions a [SigTask(index)] verifies. *)
Definition sig_batch (block_len index : nat) : list nat :=
  List.filter (λ i, i <? block_len) (map (λ n, index + n) (seq 0 24)).

(** The transactions verified after [tasks] batches were handed out, the counter
    starting at zero and growing by 25. *)
Definition verified (block_len tasks : nat) : list nat :=
  concat (map (λ t, sig_batch block_len (25 * t)) (seq 0 tasks)).

(** ** Extracting the outputs of a parallel run *)

(** [ExtrResult]. *)
Inductive ExtrResult : Type :=
  | ExtrError (err : Error E)
  | ExtrValue (outputs : list T).

(** One chunk: the outputs until a [SkipRest], or the first abort. *)
Fixpoint extract_chunk (chunk : list Status) (inner_results : list T) : ExtrResult :=
  match chunk with
  | [] => ExtrValue inner_results
  | ExecutionStatus.Success t :: chunk' => extract_chunk chunk' (inner_results ++ [t])
  | ExecutionStatus.SkipRest t :: _ => ExtrValue (inner_results ++ [t])
  | ExecutionStatus.Abort err :: _ => ExtrError err
  end.

(** [par_chunks]. *)
Fixpoint par_chunks {A} (fuel chunk_size : nat) (l : list A) : list (list A) :=
  match fuel, l with
  | 0, _ | _, [] => []
  | S fuel', _ => take chunk_size l :: par_chunks fuel' chunk_size (drop chunk_size l)
  end.

Definition chunk_size (num_txns concurrency_level : nat) : nat :=
  (num_txns + 4 * concurrency_level - 1) / (4 * concurrency_level).

(** The loop over the chunk results: the outputs and the error, a chunk's error
    replacing the one found before. *)
Fixpoint collect_chunks (results : list ExtrResult) (final_results : list T)
    (maybe_err : option (Error E)) : list T * option (Error E) :=
  match results with
  | [] => (final_results, maybe_err)
  | ExtrError v :: _ => (final_results, Some v)
  | ExtrValue v :: results' => collect_chunks results' (final_results ++ v) maybe_err
  end.

(** [Vec::resize_with]. *)
Definition resize_with (n : nat) (x : T) (l : list T) : list T :=
  take n l ++ replicate (n - length l) x.

(** The end of [execute_transactions_parallel], from the recorded statuses, the race
    flag and the map. *)
Definition parallel_output (concurrency_level : nat) (statuses : list Status) (may_race : bool)
    (mv : MV) : comp (result (Error E) (list (T * list (K * WriteOp)))) :=
  let num_txns := length statuses in
  let maybe_err := if may_race then Some ModulePathReadWrite else None in
  let chunks := par_chunks num_txns (chunk_size num_txns concurrency_level) statuses in
  let '(final_results, maybe_err) :=
    collect_chunks (map (λ c, extract_chunk c []) chunks) [] maybe_err in
  let resolved :=
    deltas ← resolve base_view mv num_txns;
    Ret (Ok (zip (resize_with num_txns skip_output final_results) deltas)) in
  match maybe_err with
  | Some SKIP => resolved
  | Some err => Ret (Err err)
  | None => resolved
  end.

(** ** Sequential execution *)

Definition insert_writes (writes : list (K * V)) (data_map : gmap K V) : gmap K V :=
  fold_left (λ m kv, <[kv.1 := kv.2]> m) writes data_map.

Fixpoint sequential_loop (txns : list Txn) (idx : TxnIndex) (data_map : gmap K V) (ret : list T) :
    comp (result (Error E) (list T)) :=
  match txns with
  | [] => Ret (Ok ret)
  | txn :: txns' =>
      match run_btree base_view data_map (execute_transaction txn idx true (false, true)) with
      | ExecutionStatus.Success output =>
          _ ← rust_assert (length (get_deltas output) =? 0);
          sequential_loop txns' (idx + 1) (insert_writes (get_writes output) data_map) (ret ++ [output])
      | ExecutionStatus.SkipRest output =>
          _ ← rust_assert (length (get_deltas output) =? 0);
          Ret (Ok (ret ++ [output]))
      | ExecutionStatus.Abort err => Ret (Err (UserError err))
      end
  end.

Definition execute_transactions_sequential (block : list Txn) :
    comp (result (Error E) (list (T * list (K * WriteOp)))) :=
  r ← sequential_loop block 0 ∅ [];
  Ret match r with
      | Ok ret => Ok (map (λ out, (out, [])) (resize_with (length block) skip_output ret))
      | Err e => Err e
      end.

(** ** [execute_block] *)

(** [parallel] is what the parallel run returns, if it is made. *)
Definition execute_block (concurrency_level : nat) (block : list Txn)
    (parallel : comp (result (Error E) (list (T * list (K * WriteOp))))) :
    comp (result (Error E) (list (T * list (K * WriteOp)))) :=
  ret ← (if 1 <? concurrency_level then
           if bool_decide (block = []) then Ret (Ok []) else parallel
         else execute_transactions_sequential block);
  match (ret : result (Error E) (list (T * list (K * WriteOp)))) with
  | Err ModulePathReadWrite => execute_transactions_sequential block
  | _ => Ret ret
  end.

(** ** Validation is re-reading *)

(** A captured read is still good exactly when reading again captures it again. *)
Lemma validate_read_spec mv idx r :
  validate_read mv idx r = Ret true ↔ ∃ res, view_read mv (access_path r) idx = Ret (inr (res, r)).
Proof.
  clear base_view ExecutorTask0. rw /validate_read /view_read. destruct r as [k kd]. simpl.
  destruct (read mv k idx) as [res|]; simpl; [|naive_solver].
  destruct res as [[value|[j inc] v]|[|d|j|]]; simpl; split.
  all: try (intros [= Hb%bool_decide_eq_true]; simpl in Hb; subst kd; by eexists).
  all: intros [? [=]]; subst; f_equal; by apply bool_decide_eq_true.
Qed.

Lemma validate_reads_spec mv idx reads :
  validate_reads mv idx reads = Ret true ↔ Forall (λ r, validate_read mv idx r = Ret true) reads.
Proof.
  induction reads as [|r reads IH]; simpl; [done|]. rewrite Forall_cons -IH.
  destruct (validate_read mv idx r) as [[]|]; simpl; naive_solver.
Qed.

(** ** Extraction *)

Definition success (t : T) : Status := ExecutionStatus.Success t.

Lemma extract_chunk_success outs acc : extract_chunk (success <$> outs) acc = ExtrValue (acc ++ outs).
Proof.
  revert acc. induction outs as [|o outs IH]; intros acc; simpl; [by rewrite app_nil_r|].
  by rewrite IH -assoc.
Qed.

Lemma collect_success (outss : list (list T)) acc err :
  collect_chunks (map (λ c, extract_chunk c [])
    (fmap (M := list) (fmap (M := list) success) outss)) acc err =
  (acc ++ concat outss, err).
Proof.
  revert acc. induction outss as [|outs outss IH]; intros acc; simpl; [by rewrite app_nil_r|].
  by rewrite extract_chunk_success /= IH -assoc.
Qed.

Lemma par_chunks_fmap {A B} (f : A → B) fuel n (l : list A) :
  par_chunks fuel n (f <$> l) = fmap (M := list) (fmap (M := list) f) (par_chunks fuel n l).
Proof.
  revert l. induction fuel as [|fuel IH]; intros [|x l]; simpl; try done.
  by rewrite -fmap_cons -fmap_take -fmap_drop IH.
Qed.

(** Chunks of a positive size put the list together again. *)
Lemma par_chunks_concat {A} fuel n (l : list A) :
  0 < n → length l ≤ fuel → concat (par_chunks fuel n l) = l.
Proof.
  intros Hn. revert l. induction fuel as [|fuel IH]; intros [|x l] Hl; simpl in *; try done; try lia.
  rewrite IH; [|apply take_drop]. rewrite length_drop /=. lia.
Qed.

Lemma chunk_size_pos n c : 0 < n → 0 < c → 0 < chunk_size n c.
Proof. intros Hn Hc. rw /chunk_size. apply Nat.div_str_pos. lia. Qed.

Lemma resize_with_id n x l : length l = n → resize_with n x l = l.
Proof. intros <-. by rw /resize_with take_ge // Nat.sub_diag app_nil_r. Qed.

Lemma parallel_output_success concurrency_level (outs : list T) mv deltas :
  0 < concurrency_level → outs ≠ [] → resolve base_view mv (length outs) = Ret deltas →
  parallel_output concurrency_level (success <$> outs) false mv = Ret (Ok (zip outs deltas)).
Proof.
  intros Hc Hne Hr. rw /parallel_output length_fmap par_chunks_fmap collect_success /=.
  rewrite par_chunks_concat; [|done|by rewrite Hr /= resize_with_id].
  apply chunk_size_pos; [destruct outs; simpl; [done|lia]|done].
Qed.

(** extraction keeps all outputs in order.  When every transaction succeeded
    and no module race was seen, the parallel run returns, for every concurrency
    level, exactly the recorded outputs in block order, each with its resolved
    deltas. *)
Theorem parallel_output_complete concurrency_level (outs : list T) mv deltas :
  0 < concurrency_level → outs ≠ [] → resolve base_view mv (length outs) = Ret deltas →
  parallel_output concurrency_level (success <$> outs) false mv = Ret (Ok (zip outs deltas)).
Proof. apply parallel_output_success. Qed.

Lemma par_chunks_one {A} fuel (l : list A) :
  length l ≤ fuel → par_chunks fuel 1 l = map (λ x, [x]) l.
Proof.
  revert l. induction fuel as [|fuel IH]; intros [|x l] Hl; simpl in *; try done; try lia.
  rewrite drop_0 take_0 IH //. lia.
Qed.

Definition output_of (s : Status) : option T :=
  match s with
  | ExecutionStatus.Success t | ExecutionStatus.SkipRest t => Some t
  | ExecutionStatus.Abort _ => None
  end.

(** One transaction per chunk: every output is kept. *)
Lemma collect_singletons (statuses : list Status) acc err :
  Forall (λ s, is_Some (output_of s)) statuses →
  collect_chunks (map (λ c, extract_chunk c []) (map (λ x, [x]) statuses)) acc err =
  (acc ++ omap output_of statuses, err).
Proof.
  intros Hall. revert acc. induction Hall as [|s ss [t Ht] _ IH]; intros acc; simpl;
    [by rewrite app_nil_r|].
  destruct s; simplify_eq/=; by rewrite IH -assoc.
Qed.

Lemma omap_success (l : list T) : omap output_of (success <$> l) = l.
Proof. induction l as [|x l IH]; csimpl; [done|]. by rewrite IH. Qed.

(** a [SkipRest] does not skip the rest.  In a block of at most four
    transactions per worker every chunk holds one transaction, and the outputs
    after a transaction that asked to skip the rest are returned all the same:
    the parallel run returns the same outputs as if it had been a success. *)
Theorem skip_rest_ignored concurrency_level (pre : list T) (o : T) (post : list T) mv deltas :
  length (pre ++ o :: post) ≤ 4 * concurrency_level →
  resolve base_view mv (length (pre ++ o :: post)) = Ret deltas →
  parallel_output concurrency_level
    ((success <$> pre) ++ ExecutionStatus.SkipRest o :: (success <$> post)) false mv =
  Ret (Ok (zip (pre ++ o :: post) deltas)).
Proof.
  intros Hlen Hr. rw /parallel_output. rewrite length_app /= !length_fmap.
  rewrite length_app /= in Hlen, Hr.
  assert (Hc : chunk_size (length pre + S (length post)) concurrency_level = 1).
  { rw /chunk_size. symmetry. eapply (Nat.div_unique _ _ _ (length pre + length post)); lia. }
  rewrite Hc par_chunks_one; [by rewrite length_app /= !length_fmap|].
  rewrite collect_singletons.
  { apply Forall_app. split; [|constructor; [by eexists|]]; apply Forall_fmap, Forall_true;
      intros x; by exists x. }
  rewrite omap_app omap_success. csimpl. rewrite omap_success Hr /= resize_with_id //.
  by rewrite length_app.
Qed.

(** Without aborts the chunks leave the error alone; an abort in the first chunk replaces it. *)
Lemma extract_chunk_ok (chunk : list Status) acc :
  Forall (λ s, is_Some (output_of s)) chunk → ∃ v, extract_chunk chunk acc = ExtrValue v.
Proof.
  intros Hall. revert acc. induction Hall as [|s ss [t Ht] _ IH]; intros acc; simpl; [by eexists|].
  destruct s; simplify_eq/=; [apply IH|by eexists].
Qed.

Lemma collect_no_abort (chunks : list (list Status)) acc err :
  Forall (Forall (λ s, is_Some (output_of s))) chunks →
  (collect_chunks (map (λ c, extract_chunk c []) chunks) acc err).2 = err.
Proof.
  intros Hall. revert acc. induction Hall as [|c cs Hc _ IH]; intros acc; simpl; [done|].
  destruct (extract_chunk_ok c [] Hc) as [v ->]. apply IH.
Qed.

Lemma par_chunks_Forall {A} (P : A → Prop) fuel n (l : list A) :
  Forall P l → Forall (Forall P) (par_chunks fuel n l).
Proof.
  revert l. induction fuel as [|fuel IH]; intros [|x l] Hl; simpl; try constructor.
  - by apply Forall_take.
  - apply IH. by apply Forall_drop.
Qed.

(** the fallback.  When a module race was seen and no transaction aborted,
    [execute_block] returns what sequential execution returns, whatever the parallel
    run computed; but when the first transaction aborted, the abort replaces the
    race error and the speculative result is returned without the fallback. *)
Theorem race_fallback concurrency_level (block : list Txn) (statuses : list Status) mv :
  1 < concurrency_level → block ≠ [] →
  (Forall (λ s, is_Some (output_of s)) statuses →
   execute_block concurrency_level block
     (parallel_output concurrency_level statuses true mv) =
   execute_transactions_sequential block) ∧
  (∀ e rest, statuses = ExecutionStatus.Abort (UserError e) :: rest →
   execute_block concurrency_level block
     (parallel_output concurrency_level statuses true mv) = Ret (Err (UserError e))).
Proof.
  intros Hc Hb. rw /execute_block. destruct (Nat.ltb_spec 1 concurrency_level); [|lia].
  rewrite bool_decide_false //. rw /parallel_output. split.
  - intros Hall.
    match goal with |- context [collect_chunks ?x ?y ?z] =>
      pose proof (collect_no_abort _ y z (par_chunks_Forall _ (length statuses)
        (chunk_size (length statuses) concurrency_level) _ Hall)) as Herr;
      destruct (collect_chunks x y z) as [final err] end.
    simpl in Herr. subst err. simpl. by destruct (execute_transactions_sequential block).
  - intros e rest ->. simpl. destruct (chunk_size (S (length rest)) concurrency_level) eqn:Hs.
    { pose proof (chunk_size_pos (S (length rest)) concurrency_level). lia. }
    done.
Qed.
End executor.

(** ** Signatures *)

Lemma sig_batch_spec block_len index i :
  i ∈ sig_batch block_len index ↔ i < block_len ∧ index ≤ i < index + 24.
Proof.
  rw /sig_batch. rewrite list_elem_of_In filter_In in_map_iff. rewrite Nat.ltb_lt. split.
  - intros [(n & <- & Hn%in_seq) ?]. lia.
  - intros [? ?]. split; [|done]. exists (i - index). split; [lia|]. apply in_seq. lia.
Qed.

(** signature batches leave a gap.  However many signature tasks are handed out,
    the transactions verified in [Pythia_Sig] mode are those whose index is not 24
    modulo 25: the batch covers 24 transactions but the counter grows by 25, so
    every 25th transaction of a block is never verified. *)
Theorem signature_batches_leave_gap block_len tasks i :
  i ∈ verified block_len tasks ↔ i < block_len ∧ i < 25 * tasks ∧ i mod 25 ≠ 24.
Proof.
  rw /verified. rewrite list_elem_of_In in_concat. split.
  - intros (l & (t & <- & Ht%in_seq)%in_map_iff & Hi). apply list_elem_of_In, sig_batch_spec in Hi.
    split_and!; [lia..|]. replace i with ((i - 25 * t) + t * 25) by lia.
    rewrite Nat.Div0.mod_add Nat.mod_small; lia.
  - intros (Hi & Ht & Hm). exists (sig_batch block_len (25 * (i / 25))). split.
    + apply in_map_iff. exists (i / 25). split; [done|]. apply in_seq.
      pose proof (Nat.Div0.div_lt_upper_bound i 25 tasks). lia.
    + apply list_elem_of_In, sig_batch_spec. pose proof (Nat.div_mod_eq i 25).
      pose proof (Nat.mod_upper_bound i 25). lia.
Qed.

(** ** A small instance *)

Module Toy.
#[local] Instance output : TransactionOutputTrait Z nat WriteOp := {
  get_writes _ := [];
  get_deltas _ := [];
  skip_output := 0%Z;
}.
#[local] Instance path : ModulePath nat nat := { module_path _ := None }.
#[local] Instance task : ExecutorTask Z nat unit Z unit := {
  execute_transaction txn _ _ _ := Finish (ExecutionStatus.Success txn);
}.
Definition base (_ : nat) : result unit (option bytes) := Ok None.
End Toy.

Lemma parallel_output_complete_witness :
  @parallel_output nat WriteOp unit Z unit _ _ _ LittleEndian.le_bcs Toy.output Toy.base 2
    (success <$> [4%Z; 5%Z; 6%Z]) false MVHashMap_new =
  Ret (Ok [(4%Z, []); (5%Z, []); (6%Z, [])]).
Proof.
  apply (parallel_output_complete (VErr := unit) Toy.base 2 [4%Z; 5%Z; 6%Z] MVHashMap_new [[]; []; []]);
    [lia|done|vm_compute; reflexivity].
Defined.

Lemma skip_rest_ignored_witness :
  @parallel_output nat WriteOp unit Z unit _ _ _ LittleEndian.le_bcs Toy.output Toy.base 2
    [ExecutionStatus.SkipRest 4%Z; ExecutionStatus.Success 5%Z] false MVHashMap_new =
  Ret (Ok [(4%Z, []); (5%Z, [])]).
Proof.
  apply (skip_rest_ignored (VErr := unit) Toy.base 2 [] 4%Z [5%Z] MVHashMap_new [[]; []]);
    [simpl; lia|vm_compute; reflexivity].
Defined.

Lemma race_fallback_witness :
  @execute_block Z nat WriteOp unit Z unit _ _ _ Toy.output Toy.task Toy.base 2 [4%Z]
    (@parallel_output nat WriteOp unit Z unit _ _ _ LittleEndian.le_bcs Toy.output Toy.base 2
       [ExecutionStatus.Success 9%Z] true MVHashMap_new) =
  Ret (Ok [(4%Z, [])]).
Proof.
  destruct (@race_fallback Z nat WriteOp unit Z unit _ _ _ LittleEndian.le_bcs Toy.output Toy.task
              Toy.base 2 [4%Z] [ExecutionStatus.Success 9%Z] MVHashMap_new) as [H _]; [lia|done|].
  rewrite H; [repeat constructor; by eexists|vm_compute; reflexivity].
Defined.
