(* ===== verification/BlockFiller.v ===== *)
(** * The block filler

    Models [mempool/src/core_mempool/filler.rs]: the fillers that choose the
    transactions of a block.  [DependencyFiller] takes speculatively executed
    transactions with their read and write sets, estimates when each could finish
    on an unlimited machine, skips what would make the block too long, and emits
    with the block the gas estimates and the dependency graph the scheduler uses
    as hints. *)
From S2P Require Import Prelude.
Local Open Scope Z_scope.

Section filler.
Context {Tx : Type} (sender : Tx → bytes) (raw_txn_bytes_len : Tx → Z).

(** ** [SimpleFiller] *)

Record SimpleFiller : Type := mkSimpleFiller {
  sf_max_bytes : Z;
  sf_max_txns : Z;
  sf_current_bytes : Z;
  sf_full : bool;
  sf_block : list Tx;
}.

Definition SimpleFiller_new (max_bytes max_txns : Z) : SimpleFiller :=
  mkSimpleFiller max_bytes max_txns 0 false [].

Definition simple_add (self : SimpleFiller) (txn : Tx) : SimpleFiller * bool :=
  if sf_full self then (self, false) else
  if sf_max_bytes self <? sf_current_bytes self + raw_txn_bytes_len txn then
    (mkSimpleFiller (sf_max_bytes self) (sf_max_txns self) (sf_current_bytes self) true
       (sf_block self), false)
  else
    let block := sf_block self ++ [txn] in
    (mkSimpleFiller (sf_max_bytes self) (sf_max_txns self) (sf_current_bytes self)
       (Z.of_nat (length block) =? sf_max_txns self) block, true).

(** ** [DependencyFiller] *)

Record DependencyFiller : Type := mkDependencyFiller {
  gas_per_core : Z;
  gas_per_core_init : Z;
  total_max_gas : Z;
  max_bytes : Z;
  max_txns : Z;
  cores : Z;
  total_bytes : Z;
  total_estimated_gas : Z;
  full : bool;
  dependency_graph : list (gset Z);
  block : list Tx;
  estimated_gas : list Z;
}.

(** [gas_per_core * cores as u64] overflows in [u64]. *)
Definition DependencyFiller_new (gas_per_core max_bytes max_txns cores : Z) : comp DependencyFiller :=
  _ ← rust_assert (gas_per_core * cores <? 2 ^ 64);
  Ret (mkDependencyFiller gas_per_core gas_per_core (gas_per_core * cores) max_bytes max_txns cores
         0 0 false [] [] []).

Definition get_gas_estimates (self : DependencyFiller) : DependencyFiller * list Z :=
  (mkDependencyFiller (gas_per_core self) (gas_per_core_init self) (total_max_gas self)
     (max_bytes self) (max_txns self) (cores self) (total_bytes self) (total_estimated_gas self)
     (full self) (dependency_graph self) (block self) [], estimated_gas self).

Definition get_dependency_graph (self : DependencyFiller) : list (list Z) :=
  map elements (dependency_graph self).

Definition set_full (self : DependencyFiller) : DependencyFiller :=
  mkDependencyFiller (gas_per_core self) (gas_per_core_init self) (total_max_gas self)
    (max_bytes self) (max_txns self) (cores self) (total_bytes self) (total_estimated_gas self)
    true (dependency_graph self) (block self) (estimated_gas self).

Definition set_gas_per_core (self : DependencyFiller) (last_max : Z) : comp DependencyFiller :=
  _ ← rust_assert (negb (cores self =? 0));
  Ret (mkDependencyFiller (last_max / cores self) (gas_per_core_init self) (total_max_gas self)
         (max_bytes self) (max_txns self) (cores self) (total_bytes self) (total_estimated_gas self)
         (full self) (dependency_graph self) (block self) (estimated_gas self)).

(** [add] never adds anything. *)
Definition dependency_add (self : DependencyFiller) (txn : Tx) : DependencyFiller * bool :=
  if full self then (self, false) else
  if max_bytes self <? total_bytes self + raw_txn_bytes_len txn then (set_full self, false)
  else (self, false).

(** A speculatively executed transaction: the raw keys it writes and reads, and its gas. *)
Record Speculation : Type := mkSpeculation {
  writeset : list bytes;
  read_set : list bytes;
  gas : Z;
  tx : Tx;
}.

(** Per key or sender: when it was last touched, and by which transaction. *)
Abbreviation LastTouched := (gmap bytes (Z * Z)) (only parsing).

(** The loop over the read set: arrival time, dependencies, and whether to bail out. *)
Fixpoint scan_reads (reads : list bytes) (last_touched : LastTouched) (limit_hot_reads : bool)
    (hot_read_limit arrival_time : Z) (dependencies : gset Z) (hot_read_access : Z) :
    Z * gset Z * bool :=
  match reads with
  | [] => (arrival_time, dependencies, false)
  | r :: reads' =>
      match last_touched !! r with
      | Some (time, key) =>
          let arrival_time := Z.max arrival_time time in
          let hot := if limit_hot_reads && (hot_read_limit <? time)
                     then hot_read_access + 1 else hot_read_access in
          let dependencies := {[key]} ∪ dependencies in
          if 4 <=? hot then (arrival_time, dependencies, true)
          else scan_reads reads' last_touched limit_hot_reads hot_read_limit arrival_time
                 dependencies hot
      | None =>
          if 4 <=? hot_read_access then (arrival_time, dependencies, true)
          else scan_reads reads' last_touched limit_hot_reads hot_read_limit arrival_time
                 dependencies hot_read_access
      end
  end.

(** Recording that a key is touched until [finish_time]. *)
Definition touch (raw : bytes) (finish_time current_idx : Z) (last_touched : LastTouched) :
    LastTouched :=
  let curr_max := (default (0, 0) (last_touched !! raw)).1 in
  if curr_max <? finish_time then <[raw := (finish_time, current_idx)]> last_touched
  else last_touched.

(** The variables of the loop of [add_all]. *)
Record fill_state : Type := mkFill {
  f_self : DependencyFiller;
  f_last_touched : LastTouched;
  f_skipped_users : gset bytes;
  f_len : Z;
  f_return : list Speculation;
  f_non_user_skip : Z;
}.

(** A transaction that is not taken: it is returned; [skip] counts it as skipped
    itself and bars its sender, [fill] closes the block. *)
Definition give_back (s : fill_state) (e : Speculation) (skip fill : bool) : fill_state :=
  mkFill (if fill then set_full (f_self s) else f_self s) (f_last_touched s)
    (if skip then {[sender (tx e)]} ∪ f_skipped_users s else f_skipped_users s)
    (f_len s) (f_return s ++ [e]) (if skip then f_non_user_skip s + 1 else f_non_user_skip s).

(** A transaction that is taken. *)
Definition take_in (s : fill_state) (e : Speculation) (gas_used finish_time : Z)
    (dependencies : gset Z) : fill_state :=
  let self := f_self s in
  let current_idx := wrap 16 (Z.of_nat (length (block self))) in
  let lt := fold_left (λ m raw, touch raw finish_time current_idx m) (writeset e) (f_last_touched s) in
  let lt := touch (sender (tx e)) finish_time current_idx lt in
  let len := f_len s + 1 in
  mkFill
    (mkDependencyFiller (gas_per_core self) (gas_per_core_init self) (total_max_gas self)
       (max_bytes self) (max_txns self) (cores self) (total_bytes self)
       (total_estimated_gas self + gas_used) (full self || (max_txns self <=? len))
       (dependency_graph self ++ [dependencies]) (block self ++ [tx e])
       (estimated_gas self ++ [gas_used]))
    lt (f_skipped_users s) len (f_return s) (f_non_user_skip s).

(** The body of the loop of [add_all]. *)
Definition add_one (good_block : bool) (s : fill_state) (e : Speculation) : comp fill_state :=
  let self := f_self s in
  if full self then Ret (give_back s e false false) else
  let gas_used := wrap 16 (gas e / 10) in
  let user := sender (tx e) in
  if good_block && bool_decide (user ∈ f_skipped_users s) then Ret (give_back s e false false) else
  let limit_hot_reads := good_block && (1000 <=? f_len s) && (f_len s <=? 9000) in
  _ ← rust_assert (negb (cores self =? 0));
  let hot_read_limit := wrap 32 (total_estimated_gas self) / cores self in
  let '(arrival_time, dependencies, bail) :=
    scan_reads (read_set e) (f_last_touched s) limit_hot_reads hot_read_limit 0 ∅ 0 in
  if (bail : bool) then Ret (give_back s e true false) else
  let '(arrival_time, dependencies) :=
    match f_last_touched s !! user with
    | Some (time, key) => (Z.max arrival_time time, {[key]} ∪ dependencies)
    | None => (arrival_time, dependencies)
    end in
  let finish_time := arrival_time + gas_used in
  _ ← rust_assert (finish_time <? 2 ^ 32);
  if good_block && (wrap 32 (gas_per_core self) <? finish_time) then Ret (give_back s e true false) else
  _ ← rust_assert (total_estimated_gas self + gas_used <? 2 ^ 64);
  if total_max_gas self <? total_estimated_gas self + gas_used then Ret (give_back s e false true) else
  Ret (take_in s e gas_used finish_time dependencies).

Fixpoint add_loop (good_block : bool) (s : fill_state) (es : list Speculation) : comp fill_state :=
  match es with
  | [] => Ret s
  | e :: es' => s' ← add_one good_block s e; add_loop good_block s' es'
  end.

(** [add_all]: the filler, the two maps, the transactions not taken, and whether
    nearly the whole input was skipped. *)
Definition add_all (self : DependencyFiller) (result : list Speculation) (last_touched : LastTouched)
    (skipped_users : gset bytes) (good_block : bool) :
    comp (DependencyFiller * LastTouched * gset bytes * list Speculation * bool) :=
  s ← add_loop good_block
        (mkFill self last_touched skipped_users (Z.of_nat (length (block self))) [] 0) result;
  Ret (f_self s, f_last_touched s, f_skipped_users s, f_return s,
       Z.of_nat (length result) <=? f_non_user_skip s + 25).
End filler.
