(* ===== verification/ParallelExecutor.v ===== *)
(** * Parallel execution of a block

    The worker threads of [block-executor/src/executor.rs] with the data they share:
    the scheduler of [Scheduler.v], the multi-version map and the table of recorded
    inputs and outputs.  [execute] and [validate] are cut into the accesses to shared
    data they make, one access a step, so that the steps of different threads
    interleave anywhere in between. *)
From S2P Require Import Prelude DeltaOp WriteSet MVHashMap LastInputOutput Scheduler CommitProtocol SchedulerSafety View BlockExecutor.
Local Open Scope nat_scope.

Section machine.
Context {Txn K V VErr T E AccessPath : Type}.
Context `{Countable K, Countable AccessPath, TransactionWrite V, BcsU128}.
Context `{!ModulePath K AccessPath, !TransactionOutputTrait T K V, !ExecutorTask Txn K VErr T E}.
Context (base_view : K → result VErr (option bytes)).
Context (storage_error : VErr) (into_vm_status : PartialVMError → VErr).
Context (block : list Txn).

Abbreviation MV := (MVHashMap K V) (only parsing).
Abbreviation LIO := (@TxnLastInputOutput K T E AccessPath _ _) (only parsing).
Abbreviation Status := (ExecutionStatus.t T (Error E)) (only parsing).
Abbreviation Outcome := (ExecutionStatus.t T E) (only parsing).
Abbreviation Reads := (list (ReadDescriptor K)) (only parsing).

(** What [apply_updates] is called with: an aborted execution applies nothing. *)
Definition writes_of (r : Outcome) : list (K * V) :=
  match r with
  | ExecutionStatus.Success o | ExecutionStatus.SkipRest o => get_writes o
  | ExecutionStatus.Abort _ => []
  end.

Definition deltas_of (r : Outcome) : list (K * DeltaOp) :=
  match r with
  | ExecutionStatus.Success o | ExecutionStatus.SkipRest o => get_deltas o
  | ExecutionStatus.Abort _ => []
  end.

(** The status [execute] records for the outcome of the virtual machine. *)
Definition recorded (r : Outcome) : Status :=
  match r with
  | ExecutionStatus.Success o => ExecutionStatus.Success o
  | ExecutionStatus.SkipRest o => ExecutionStatus.SkipRest o
  | ExecutionStatus.Abort e => ExecutionStatus.Abort (UserError e)
  end.

(** Where a thread is inside [execute] or [validate]: running the virtual machine,
    applying the output, deleting what the previous incarnation wrote, done with
    recording; checking the read set, having found an invalid read; marking the
    outputs of an aborted incarnation. *)
Inductive work : Type :=
  | WNone
  | WRun (p : program K VErr Outcome) (reads : Reads)
  | WApply (writes : list (K * V)) (deltas : list (K * DeltaOp)) (prev : gset K)
      (result : Status) (reads : Reads)
  | WDelete (keys : list K) (result : Status) (reads : Reads)
  | WRecorded
  | WCheck (rest : Reads)
  | WInvalid
  | WMark (keys : list K).

Record machine : Type := mkMachine {
  m_sys : sys;
  m_mv : MV;
  m_lio : LIO;
  m_work : list work;
}.

(** The version thread [t] is executing, validating or aborting. *)
Definition executing (x : sys) (t : nat) (version : Version) : Prop :=
  ∃ flag, workers x !! t = Some (Holding (ExecutionTask version None), flag).
Definition validating (x : sys) (t : nat) (version : Version) : Prop :=
  ∃ wave flag, workers x !! t = Some (Holding (ValidationTask version wave), flag).
Definition aborting (x : sys) (t : nat) (version : Version) : Prop :=
  ∃ flag, workers x !! t = Some (Rejected version, flag).

(** One step of one thread.  The hint is the prologue flag of the transaction at the
    moment the virtual machine starts, which other threads may set at any time. *)
Inductive mach_step : machine → machine → Prop :=
  | mach_quiet x x' mv lio ws :
      sys_act Quiet x x' → mach_step (mkMachine x mv lio ws) (mkMachine x' mv lio ws)
  (** [execute] *)
  | mach_start x mv lio ws t i inc txn hint :
      executing x t (i, inc) → ws !! t = Some WNone → block !! i = Some txn →
      mach_step (mkMachine x mv lio ws)
        (mkMachine x mv lio (<[t := WRun (execute_transaction txn i false hint) []]> ws))
  | mach_read x mv lio ws t i inc key next reads res desc v :
      executing x t (i, inc) → ws !! t = Some (WRun (ReadState key next) reads) →
      view_read mv key i = Ret (inr (res, desc)) →
      mv_state_value base_view storage_error into_vm_status key res = Ret v →
      mach_step (mkMachine x mv lio ws)
        (mkMachine x mv lio (<[t := WRun (next v) (reads ++ [desc])]> ws))
  | mach_wait x x' mv lio ws t i inc key next reads dep :
      executing x t (i, inc) → ws !! t = Some (WRun (ReadState key next) reads) →
      view_read mv key i = Ret (inl dep) → sys_act (Waits t dep) x x' →
      mach_step (mkMachine x mv lio ws) (mkMachine x' mv lio ws)
  | mach_output x mv lio ws t i inc r reads prev :
      executing x t (i, inc) → ws !! t = Some (WRun (Finish r) reads) →
      modified_keys lio i = Ret prev →
      mach_step (mkMachine x mv lio ws)
        (mkMachine x mv lio
           (<[t := WApply (writes_of r) (deltas_of r) prev (recorded r) reads]> ws))
  | mach_write x mv lio ws t i inc k v writes deltas prev result reads mv' :
      executing x t (i, inc) → ws !! t = Some (WApply ((k, v) :: writes) deltas prev result reads) →
      add_write mv k (i, inc) v = Ret mv' →
      mach_step (mkMachine x mv lio ws)
        (mkMachine x mv' lio (<[t := WApply writes deltas (prev ∖ {[k]}) result reads]> ws))
  | mach_delta x mv lio ws t i inc k d deltas prev result reads :
      executing x t (i, inc) → ws !! t = Some (WApply [] ((k, d) :: deltas) prev result reads) →
      mach_step (mkMachine x mv lio ws)
        (mkMachine x (add_delta mv k i d) lio
           (<[t := WApply [] deltas (prev ∖ {[k]}) result reads]> ws))
  | mach_applied x mv lio ws t i inc prev result reads keys :
      executing x t (i, inc) → ws !! t = Some (WApply [] [] prev result reads) →
      keys ≡ₚ elements (prev : gset K) →
      mach_step (mkMachine x mv lio ws)
        (mkMachine x mv lio (<[t := WDelete keys result reads]> ws))
  | mach_delete x mv lio ws t i inc k keys result reads mv' :
      executing x t (i, inc) → ws !! t = Some (WDelete (k :: keys) result reads) →
      mv_delete mv k i = Ret mv' →
      mach_step (mkMachine x mv lio ws)
        (mkMachine x mv' lio (<[t := WDelete keys result reads]> ws))
  | mach_record x mv lio ws t i inc result reads lio' :
      executing x t (i, inc) → ws !! t = Some (WDelete [] result reads) →
      record lio i reads result = Ret lio' →
      mach_step (mkMachine x mv lio ws) (mkMachine x mv lio' (<[t := WRecorded]> ws))
  | mach_finished x x' mv lio ws t :
      ws !! t = Some WRecorded → sys_act (Finished t) x x' →
      mach_step (mkMachine x mv lio ws) (mkMachine x' mv lio (<[t := WNone]> ws))
  (** [validate] *)
  | mach_load x mv lio ws t i inc reads :
      validating x t (i, inc) → ws !! t = Some WNone → read_set lio i = Ret (Some reads) →
      mach_step (mkMachine x mv lio ws) (mkMachine x mv lio (<[t := WCheck reads]> ws))
  | mach_check x mv lio ws t i inc r rest (b : bool) :
      validating x t (i, inc) → ws !! t = Some (WCheck (r :: rest)) →
      validate_read mv i r = Ret b →
      mach_step (mkMachine x mv lio ws)
        (mkMachine x mv lio (<[t := if b then WCheck rest else WInvalid]> ws))
  | mach_accepted x x' mv lio ws t :
      ws !! t = Some (WCheck []) → sys_act (Accepted t) x x' →
      mach_step (mkMachine x mv lio ws) (mkMachine x' mv lio (<[t := WNone]> ws))
  | mach_refused x x' mv lio ws t :
      ws !! t = Some WInvalid → sys_act (Refused t) x x' →
      mach_step (mkMachine x mv lio ws) (mkMachine x' mv lio (<[t := WNone]> ws))
  | mach_marking x mv lio ws t i inc prev keys :
      aborting x t (i, inc) → ws !! t = Some WNone → modified_keys lio i = Ret prev →
      keys ≡ₚ elements (prev : gset K) →
      mach_step (mkMachine x mv lio ws) (mkMachine x mv lio (<[t := WMark keys]> ws))
  | mach_mark x mv lio ws t i inc k keys mv' :
      aborting x t (i, inc) → ws !! t = Some (WMark (k :: keys)) →
      mark_estimate mv k i = Ret mv' →
      mach_step (mkMachine x mv lio ws) (mkMachine x mv' lio (<[t := WMark keys]> ws))
  | mach_undone x x' mv lio ws t :
      ws !! t = Some (WMark []) → sys_act (Undone t) x x' →
      mach_step (mkMachine x mv lio ws) (mkMachine x' mv lio (<[t := WNone]> ws)).

Definition mach_init (s : Scheduler) (threads : nat) : machine :=
  mkMachine (sys_init s threads) MVHashMap_new (TxnLastInputOutput_new (length block))
    (replicate threads WNone).

(** The states the parallel run of the block reaches. *)
Definition mach_reachable (threads : nat) (deps : list (list nat)) (gas : list Z)
    (m : ExecutionMode) (x : machine) : Prop :=
  (Z.of_nat (length block) < 2 ^ 32)%Z ∧
  ∃ s, Scheduler_new (length block) deps gas m = Ret s ∧ rtc mach_step (mach_init s threads) x.
End machine.
