(* ===== verification/Serializability.v ===== *)
(** * Parallel execution is serializable

    The invariant of the machine of [ParallelExecutor.v] that relates the shared data
    to the commit protocol: what a finished incarnation wrote stays in the map until
    its transaction is aborted, a read set that was checked under a ticket stays
    valid as long as the ticket is current, and the captured reads determine the
    outcome.  Every committed transaction therefore has the outcome it gets when it
    is run, in one go, on the state its predecessors in the block leave. *)
From S2P Require Import Prelude DeltaOp WriteSet MVHashMap LastInputOutput Scheduler CommitProtocol SchedulerSafety View BlockExecutor ParallelExecutor.
Local Open Scope nat_scope.

(** ** Snapshots of tickets *)

(** What a ticket saw is in place, or has been replaced by a later incarnation. *)
Definition snap_ok (sts : list ExecStatus) (k : ticket) : Prop :=
  ∀ j, j ≤ t_idx k → ∃ inc st, t_snap k !! j = Some inc ∧ sts !! j = Some st ∧
    (inc < live st ∨ settled st = Some inc).

Definition snap_inv (a : proto) : Prop := ∀ k, k ∈ p_issued a → snap_ok (p_status a) k.

Lemma snap_update sts i st st' k :
  sts !! i = Some st → live st ≤ live st' →
  (∀ inc, settled st = Some inc → settled st' = Some inc ∨ inc < live st') →
  snap_ok sts k → snap_ok (<[i := st']> sts) k.
Proof.
  intros Hi Hl Hk Hs j Hj. destruct (Hs j Hj) as (inc & s & Hsn & Hst & Hc).
  exists inc. upd; [|eauto]. exists st'. split_and!; [done|done|].
  destruct Hc as [Hc|Hc]; [left; lia|]. destruct (Hk _ Hc); auto.
Qed.

Lemma proto_act_snap e a b : proto_inv a → proto_act e a b → snap_inv a → snap_inv b.
Proof.
  intros Hinv Hstep Hs. pose proof (inv_owner _ Hinv) as Ho.
  destruct Hstep; simpl in *; try done.
  - intros k Hk. eapply snap_update; [done..|naive_solver|by apply Hs].
  - intros k Hk. eapply snap_update; [by eapply own_exec|done|naive_solver|by apply Hs].
  - intros k' [->|Hk]%elem_of_cons; [|by apply Hs]. intros j Hj. simpl in *.
    assert (∃ st inc', sts !! j = Some st ∧ settled st = Some inc') as (st & inc' & Hst & Hset).
    { destruct (decide (j = idx)) as [->|]; [by eexists _, _|]. apply (inv_gate _ Hinv). simpl. lia. }
    exists (live st), st. rewrite (settled_live _ _ Hset). split_and!; [|done|by right].
    rewrite /snapshot list_lookup_fmap lookup_take_lt; [lia|]. by rewrite Hst /= (settled_live _ _ Hset).
  - intros k' Hk'. eapply snap_update; [done..|naive_solver|by apply Hs].
  - assert (Hi := own_abort _ _ Ho _ _ _ H). intros k' Hk'.
    assert (Hk : k' ∈ iss) by (by destruct (i <? idx)).
    assert (snap_ok (<[i := ReadyToExecute (inc + 1) None]> sts) k') as Hsn; [|by destruct (i <? idx)].
    eapply snap_update; [done|simpl; lia| |by apply Hs]. simpl. intros ? [= <-]. right. lia.
  - intros k' Hk'. eapply snap_update; [done..|naive_solver|by apply Hs].
Qed.

(** Executions in progress are logged. *)
Definition logged (a : proto) : Prop :=
  ∀ t i inc, p_threads a !! t = Some (TExec i inc) → (i, inc) ∈ p_started a.

Lemma logged_move (ths : list token) (t : nat) tk (log log' : list Version) :
  is_Some (ths !! t) → log ⊆ log' → (∀ i inc, tk = TExec i inc → (i, inc) ∈ log') →
  (∀ t i inc, ths !! t = Some (TExec i inc) → (i, inc) ∈ log) →
  ∀ t' i inc, <[t := tk]> ths !! t' = Some (TExec i inc) → (i, inc) ∈ log'.
Proof. intros [x Hx] Hl Htk Hlog t' i inc Ht'. upd; eauto. Qed.

Lemma proto_act_logged e a b : proto_act e a b → logged a → logged b.
Proof.
  intros Hstep Hl. destruct Hstep; try destruct (i <? idx); rewrite /logged /= in Hl |- *; try done;
    (eapply logged_move; [by eexists| | |exact Hl]); try done; try set_solver.
Qed.

Record ghost_inv (a : proto) : Prop := mkGhostInv { gi_snap : snap_inv a; gi_logged : logged a }.

Lemma proto_act_ghost e a b : proto_inv a → proto_act e a b → ghost_inv a → ghost_inv b.
Proof. intros ? ? [? ?]. split; [by eapply proto_act_snap|by eapply proto_act_logged]. Qed.

(** ** The invariant *)

Section serial.
Context {Txn K V VErr T E AccessPath : Type}.
Context `{Countable K, Countable AccessPath, TransactionWrite V, BcsU128}.
Context `{!ModulePath K AccessPath, !TransactionOutputTrait T K V, !ExecutorTask Txn K VErr T E}.
Context (base_view : K → result VErr (option bytes)).
Context (storage_error : VErr) (into_vm_status : PartialVMError → VErr).
Context (block : list Txn).

Abbreviation MV := (MVHashMap K V) (only parsing).
Abbreviation LIO := (@TxnLastInputOutput K T E AccessPath _ _) (only parsing).
Abbreviation Outcome := (ExecutionStatus.t T E) (only parsing).
Abbreviation Reads := (list (ReadDescriptor K)) (only parsing).
Abbreviation Work := (@work K V VErr T E _ _) (only parsing).
Abbreviation Program := (program K VErr Outcome) (only parsing).

(** Everything that was ever written, by key and version. *)
Definition history : Type := gmap (K * Version) V.

(** The value a captured read stands for. *)
Definition seen (h : history) (d : ReadDescriptor K) (v : result VErr (option bytes)) : Prop :=
  match kind d with
  | ReadKind.Version i inc =>
      ∃ x, h !! (access_path d, (i, inc)) = Some x ∧ v = Ok (extract_raw_bytes x)
  | ReadKind.Resolved z => v = Ok (Some (serialize z))
  | ReadKind.Unresolved delta =>
      mv_state_value base_view storage_error into_vm_status (access_path d)
        (UnresolvedDelta (V := V) delta) = Ret v
  | ReadKind.Storage => v = base_view (access_path d)
  | ReadKind.DeltaApplicationFailure => v = Ok (Some (serialize 0))
  end.

(** [replay h p ds q]: program [p], answered as the captured reads [ds] say, is now [q]. *)
Inductive replay (h : history) : Program → Reads → Program → Prop :=
  | replay_nil p : replay h p [] p
  | replay_snoc p ds d next v :
      replay h p ds (ReadState (access_path d) next) → seen h d v → replay h p (ds ++ [d]) (next v).

(** The cells an output leaves in the map. *)
Definition add_writes (inc : Incarnation) (ws : list (K * V)) (m : gmap K (EntryCell V)) :
    gmap K (EntryCell V) :=
  fold_left (λ m kv, <[kv.1 := Write inc kv.2]> m) ws m.
Definition add_deltas (ds : list (K * DeltaOp)) (m : gmap K (EntryCell V)) : gmap K (EntryCell V) :=
  fold_left (λ m kd, <[kd.1 := Delta kd.2]> m) ds m.
Definition output_cells (inc : Incarnation) (r : Outcome) : gmap K (EntryCell V) :=
  add_deltas (deltas_of r) (add_writes inc (writes_of r) ∅).

(** The entries of [i] are among the keys recorded for it. *)
Definition covered (lio : LIO) (mv : MV) (i : TxnIndex) : Prop :=
  ∃ prev, modified_keys lio i = Ret prev ∧ ∀ k, k ∉ prev → entry_at mv k i = None.

(** The outcome [r] is recorded for [i], with reads that explain it. *)
Definition explained (h : history) (lio : LIO) (i : TxnIndex) (r : Outcome) : Prop :=
  ∃ txn hint reads, block !! i = Some txn ∧ inputs lio !! i = Some (Some reads) ∧
    outputs lio !! i = Some (Some (recorded r)) ∧
    replay h (execute_transaction txn i false hint) reads (Finish r).

Definition slot_done (h : history) (lio : LIO) (mv : MV) (i : TxnIndex) (inc : Incarnation) : Prop :=
  ∃ r, explained h lio i r ∧ ∀ k, entry_at mv k i = mkEntry FLAG_DONE <$> output_cells inc r !! k.

Definition slot_inv (h : history) (lio : LIO) (mv : MV) (i : TxnIndex) (st : ExecStatus) : Prop :=
  match st with
  | ReadyToExecute _ _ => covered lio mv i
  | Executing _ | Suspended _ _ => True
  | Executed inc | Committed inc => slot_done h lio mv i inc
  | Aborting inc => ∃ r, explained h lio i r ∧ ∀ k, cell <$> entry_at mv k i = output_cells inc r !! k
  end.

Definition running (h : history) (i : TxnIndex) (reads : Reads) (p : Program) : Prop :=
  ∃ txn hint, block !! i = Some txn ∧ replay h (execute_transaction txn i false hint) reads p.

Definition unwritten (h : history) (i : TxnIndex) (inc : Incarnation) : Prop :=
  ∀ k, h !! (k, (i, inc)) = None.

(** A thread inside [execute]. *)
Definition exec_inv (h : history) (lio : LIO) (mv : MV) (i : TxnIndex) (inc : Incarnation)
    (w : Work) : Prop :=
  match w with
  | WNone => covered lio mv i ∧ unwritten h i inc
  | WRun p reads => covered lio mv i ∧ unwritten h i inc ∧ running h i reads p
  | WApply ws ds prev result reads => ∃ r m,
      running h i reads (Finish r) ∧ result = recorded r ∧
      add_deltas ds (add_writes inc ws m) = output_cells inc r ∧
      (∀ k, k ∉ prev → entry_at mv k i = mkEntry FLAG_DONE <$> m !! k) ∧
      (∀ k, k ∈ prev → m !! k = None) ∧
      (ws ≠ [] → ∀ k v, h !! (k, (i, inc)) = Some v →
        entry_at mv k i = Some (mkEntry FLAG_DONE (Write inc v)))
  | WDelete ks result reads => ∃ r,
      running h i reads (Finish r) ∧ result = recorded r ∧
      (∀ k, k ∉ ks → entry_at mv k i = mkEntry FLAG_DONE <$> output_cells inc r !! k) ∧
      (∀ k, k ∈ ks → output_cells inc r !! k = None)
  | WRecorded => slot_done h lio mv i inc
  | _ => False
  end.

(** Under a current ticket the read set stays the one that was loaded, and what was
    found valid stays valid, unless a lower transaction is being aborted. *)
Definition loaded (sts : list ExecStatus) (lio : LIO) (k : ticket) (reads : Reads) : Prop :=
  current sts k → inputs lio !! t_idx k = Some (Some reads).

Definition aborting_below (sts : list ExecStatus) (k : ticket) : Prop :=
  ∃ j inc, j < t_idx k ∧ sts !! j = Some (Aborting inc).

Definition watch (sts : list ExecStatus) (mv : MV) (k : ticket) (reads : Reads) : Prop :=
  current sts k →
  aborting_below sts k ∨ Forall (λ d, validate_read mv (t_idx k) d = Ret true) reads.

Definition work_inv (h : history) (lio : LIO) (mv : MV) (sts : list ExecStatus) (tk : token)
    (w : Work) : Prop :=
  match tk with
  | TExec i inc => exec_inv h lio mv i inc w
  | TVal k =>
      match w with
      | WNone | WInvalid => True
      | WCheck rest => ∃ done, loaded sts lio k (done ++ rest) ∧ watch sts mv k done
      | _ => False
      end
  | TAbort _ _ => match w with WNone | WMark _ => True | _ => False end
  | _ => w = WNone
  end.

Record data_inv (h : history) (a : proto) (mv : MV) (lio : LIO) (ws : list Work) : Prop := mkDataInv {
  di_slot i st : p_status a !! i = Some st → slot_inv h lio mv i st;
  di_work t tk : p_threads a !! t = Some tk →
    ∃ w, ws !! t = Some w ∧ work_inv h lio mv (p_status a) tk w;
  di_checked k : (k, true) ∈ p_checked a →
    ∃ reads, loaded (p_status a) lio k reads ∧ watch (p_status a) mv k reads;
  di_hist k i f inc v : entry_at mv k i = Some (mkEntry f (Write inc v)) → h !! (k, (i, inc)) = Some v;
  di_started k i inc v : h !! (k, (i, inc)) = Some v → (i, inc) ∈ p_started a;
  di_ghost : ghost_inv a;
}.

(** ** Steps of the protocol *)

(** A change of statuses a current ticket does not notice. *)
Definition passes (sts sts' : list ExecStatus) (k : ticket) : Prop :=
  current sts' k → current sts k ∧ (aborting_below sts k → aborting_below sts' k).

Lemma passes_refl sts k : passes sts sts k.
Proof. done. Qed.

Lemma passes_update sts i st st' k :
  sts !! i = Some st → snap_ok sts k →
  settled st' = None ∨
  (∀ inc, st ≠ Aborting inc) ∧
    (settled st' = settled st ∨ settled st = None ∧ settled st' = Some (live st)) →
  passes sts (<[i := st']> sts) k.
Proof.
  intros Hi Hsn Hst Hc. split.
  - intros j Hj. destruct (Hc j Hj) as (s & inc & Hs & Hset & Hs'). upd; [|eauto].
    destruct Hst as [Hst|[_ [Hst|[Hst1 Hst2]]]]; [congruence|exists st, inc; split_and!; congruence|].
    destruct (Hsn j Hj) as (inc' & s' & Hsn' & Hs'' & Hc'). simplify_eq.
    destruct Hc'; [lia|congruence].
  - intros (j & inc & Hj & Ha). exists j, inc. split; [done|]. upd; [|done].
    destruct (Hc j) as (s & inc' & Hs & Hset & _); [lia|]. upd.
    destruct Hst as [Hst|[Hst _]]; [congruence|by destruct (Hst inc)].
Qed.

Lemma loaded_pass sts sts' lio k reads :
  passes sts sts' k → loaded sts lio k reads → loaded sts' lio k reads.
Proof. intros Hp Hl Hc. by apply Hl, Hp. Qed.

Lemma watch_pass sts sts' mv k reads :
  passes sts sts' k → watch sts mv k reads → watch sts' mv k reads.
Proof. intros Hp Hw Hc. destruct (Hp Hc) as [Hc' Ha]. destruct (Hw Hc'); auto. Qed.

Lemma work_pass h lio mv sts sts' tk w :
  (∀ k, tk = TVal k → passes sts sts' k) →
  work_inv h lio mv sts tk w → work_inv h lio mv sts' tk w.
Proof.
  intros Hp. destruct tk as [| |k| |]; simpl; try done. destruct w; try done.
  intros (ds & ? & ?). exists ds. split; [by eapply loaded_pass; [apply Hp|]|by eapply watch_pass; [apply Hp|]].
Qed.

Lemma data_inv_step h a b mv lio ws ws' :
  data_inv h a mv lio ws → proto_inv a → ghost_inv b →
  (∀ k, k ∈ p_issued a → passes (p_status a) (p_status b) k) →
  (∀ i st, p_status b !! i = Some st → p_status a !! i = Some st ∨ slot_inv h lio mv i st) →
  (∀ t tk, p_threads b !! t = Some tk →
    p_threads a !! t = Some tk ∧ ws' !! t = ws !! t ∨
    ∃ w, ws' !! t = Some w ∧ work_inv h lio mv (p_status b) tk w) →
  (∀ k, (k, true) ∈ p_checked b → (k, true) ∈ p_checked a ∨
    ∃ reads, loaded (p_status b) lio k reads ∧ watch (p_status b) mv k reads) →
  p_started a ⊆ p_started b →
  data_inv h b mv lio ws'.
Proof.
  intros [Hsl Hwk Hch Hhi Hst _] Hinv Hsn Hp Hs Ht Hc Hlog.
  pose proof (inv_token _ Hinv) as Htok. split; [| | |done| |done].
  - intros i st Hi. destruct (Hs i st Hi); [by apply Hsl|done].
  - intros t tk Htk. destruct (Ht t tk Htk) as [[Htk' ->]|]; [|done].
    destruct (Hwk t tk Htk') as (w & ? & ?). exists w. split; [done|].
    eapply work_pass; [|done]. intros k ->. by eapply Hp, tok_val.
  - intros k Hk. destruct (Hc k Hk) as [Hk'|]; [|done].
    destruct (Hch k Hk') as (reads & ? & ?). exists reads.
    assert (passes (p_status a) (p_status b) k) by (by eapply Hp, tok_issued).
    split; [by eapply loaded_pass|by eapply watch_pass].
  - intros. by eapply Hlog, Hst.
Qed.

Lemma add_writes_dom inc ws m k : add_writes inc ws m !! k = if decide (k ∈ ws.*1) then add_writes inc ws m !! k else m !! k.
Proof.
  case_decide as Hk; [done|]. revert m Hk. induction ws as [|[k' v] ws IH]; intros m Hk; [done|].
  csimpl in Hk. apply not_elem_of_cons in Hk as [Hne Hk]. rewrite /= IH // lookup_insert_ne //.
Qed.

Lemma add_deltas_dom ds m k : add_deltas ds m !! k = if decide (k ∈ ds.*1) then add_deltas ds m !! k else m !! k.
Proof.
  case_decide as Hk; [done|]. revert m Hk. induction ds as [|[k' v] ds IH]; intros m Hk; [done|].
  csimpl in Hk. apply not_elem_of_cons in Hk as [Hne Hk]. rewrite /= IH // lookup_insert_ne //.
Qed.

(** The keys an outcome writes. *)
Definition keys_of (r : Outcome) : gset K := list_to_set ((writes_of r).*1 ++ (deltas_of r).*1).

Lemma output_cells_out inc r k : k ∉ keys_of r → output_cells inc r !! k = None.
Proof.
  rewrite /keys_of elem_of_list_to_set not_elem_of_app. intros [Hw Hd].
  rewrite /output_cells add_deltas_dom decide_False // add_writes_dom decide_False //.
Qed.

Lemma recorded_keys (lio : LIO) i r :
  outputs lio !! i = Some (Some (recorded r)) → modified_keys lio i = Ret (keys_of r).
Proof. intros Ho. rewrite /modified_keys Ho /=. by destruct r. Qed.

Lemma slot_done_running h lio mv i inc :
  slot_done h lio mv i inc →
  ∃ r, explained h lio i r ∧ ∀ k, cell <$> entry_at mv k i = output_cells inc r !! k.
Proof.
  intros (r & He & Hk). exists r. split; [done|]. intros k. rewrite Hk. by destruct (_ !! k).
Qed.

(** Tokens other than those of the thread that moves. *)
Lemma token_other {A} (l : list A) t t' x y z :
  l !! t = Some x → <[t := y]> l !! t' = Some z → t' = t ∧ z = y ∨ t' ≠ t ∧ l !! t' = Some z.
Proof. intros Ht Hz. upd; auto. Qed.

Lemma work_idle h a mv lio ws t : data_inv h a mv lio ws → p_threads a !! t = Some Idle → ws !! t = Some WNone.
Proof. intros Hd Ht. by destruct (di_work _ _ _ _ _ Hd t Idle Ht) as (w & Hw & ->). Qed.

Lemma incarnated_unwritten h a mv lio ws i inc cv :
  data_inv h a mv lio ws → proto_inv a → p_status a !! i = Some (ReadyToExecute inc cv) → unwritten h i inc.
Proof.
  intros Hd Hinv Hi k. destruct (h !! _) eqn:Hh; [|done]. exfalso.
  apply (di_started _ _ _ _ _ Hd), (sta_live _ _ (inv_started _ Hinv)) in Hh as (st & Hst & Hc).
  simplify_eq/=. destruct Hc as [|[_ ?]]; [lia|done].
Qed.

Lemma quiet_data h a b mv lio ws :
  data_inv h a mv lio ws → proto_inv a → proto_act Quiet a b → data_inv h b mv lio ws.
Proof.
  intros Hd Hinv Hstep. assert (Hsn : ghost_inv b) by (eapply proto_act_ghost; [done..|apply Hd]).
  pose proof (gi_snap _ (di_ghost _ _ _ _ _ Hd)) as Hsa. remember Quiet as e eqn:He.
  destruct Hstep as [n sts vs idx wv cm ths iss chk log t i inc cv Ht Hi|?|n sts vs idx wv cm ths iss chk log t inc Ht Hlt Hi k|?|?|?|n sts vs idx wv cm ths iss chk log t k v Ht Hv
    |?|n sts vs idx wv ci cw ths iss chk log inc v w Hi Hv Hw Hle|n sts vs idx wv ci cw ths iss chk log v Hv]; try done.
  - eapply data_inv_step; [exact Hd|exact Hinv|exact Hsn|..]; simpl in *.
    + intros k Hk. eapply passes_update; [done|by apply Hsa|by left].
    + intros j st Hj. upd; auto.
    + intros t' tk Htk. destruct (token_other _ _ _ _ _ _ Ht Htk) as [[-> ->]|[]]; [right|by auto].
      exists WNone. split; [by eapply work_idle|]. split; [|by eapply incarnated_unwritten].
      by apply (di_slot _ _ _ _ _ Hd i _ Hi).
    + auto.
    + set_solver.
  - eapply data_inv_step; [exact Hd|exact Hinv|exact Hsn|..]; simpl in *; try by auto.
    intros t' tk Htk. destruct (token_other _ _ _ _ _ _ Ht Htk) as [[-> ->]|[]]; [right|by auto].
    exists WNone. split; [by eapply work_idle|done].
  - eapply data_inv_step; [exact Hd|exact Hinv|exact Hsn|..]; simpl in *; try by auto.
    intros t' tk Htk. destruct (token_other _ _ _ _ _ _ Ht Htk) as [[-> ->]|[]]; [right|by auto].
    exists WNone. destruct (di_work _ _ _ _ _ Hd t _ Ht) as (w & Hw & ->). done.
  - eapply data_inv_step; [exact Hd|exact Hinv|exact Hsn|..]; simpl in *; try by auto.
    + intros k Hk. eapply passes_update; [done|by apply Hsa|right]. split; [done|by left].
    + intros j st Hj. upd; [right|by auto]. by apply (di_slot _ _ _ _ _ Hd _ _ Hi).
  - eapply data_inv_step; [exact Hd|exact Hinv|exact Hsn|..]; simpl in *; by auto.
Qed.

(** A thread that moves gets a new token and a new place in its code. *)
Lemma token_moved h lio mv sts (ths : list token) (ws : list Work) t x tk y w :
  ths !! t = Some x → ws !! t = Some y → work_inv h lio mv sts tk w →
  ∀ t' tk', <[t := tk]> ths !! t' = Some tk' →
    ths !! t' = Some tk' ∧ <[t := w]> ws !! t' = ws !! t' ∨
    ∃ w', <[t := w]> ws !! t' = Some w' ∧ work_inv h lio mv sts tk' w'.
Proof.
  intros Ht Hw Hwi t' tk' Htk. destruct (token_other _ _ _ _ _ _ Ht Htk) as [[-> ->]|[]]; [right|left].
  - exists w. split; [|done]. by upd.
  - split; [done|]. by upd.
Qed.

Lemma finished_data h a b mv lio ws t :
  data_inv h a mv lio ws → proto_inv a → proto_act (Finished t) a b → ws !! t = Some WRecorded →
  data_inv h b mv lio (<[t := WNone]> ws).
Proof.
  intros Hd Hinv Hstep Hw. assert (Hsn : ghost_inv b) by (eapply proto_act_ghost; [done..|apply Hd]).
  pose proof (gi_snap _ (di_ghost _ _ _ _ _ Hd)) as Hsa. remember (Finished t) as e eqn:He.
  destruct Hstep as [|n sts vs idx wv cm ths iss chk log t' i inc Ht| | | | | | | |]; simplify_eq.
  assert (Hi : sts !! i = Some (Executing inc)) by (by eapply own_exec; [apply Hinv|]).
  eapply data_inv_step; [exact Hd|exact Hinv|exact Hsn|..]; simpl in *; try by auto.
  - intros k Hk. eapply passes_update; [done|by apply Hsa|right]. split; [done|by right].
  - intros j st Hj. upd; [right|by auto].
    destruct (di_work _ _ _ _ _ Hd t _ Ht) as (w & Hw' & Hwi). by simplify_eq.
  - by apply (token_moved h lio mv _ ths ws t _ Idle _ WNone Ht Hw).
Qed.

Lemma accepted_data h a b mv lio ws t :
  data_inv h a mv lio ws → proto_inv a → proto_act (Accepted t) a b → ws !! t = Some (WCheck []) →
  data_inv h b mv lio (<[t := WNone]> ws).
Proof.
  intros Hd Hinv Hstep Hw. assert (Hsn : ghost_inv b) by (eapply proto_act_ghost; [done..|apply Hd]).
  remember (Accepted t) as e eqn:He.
  destruct Hstep as [| | |n sts vs idx wv cm ths iss chk log t' k Ht| | | | | |]; simplify_eq.
  eapply data_inv_step; [exact Hd|exact Hinv|exact Hsn|..]; simpl in *; try by auto.
  - by apply (token_moved h lio mv _ ths ws t _ (TChecked k) _ WNone Ht Hw).
  - intros k' [[= ->]|]%elem_of_cons; [right|by left].
    destruct (di_work _ _ _ _ _ Hd t _ Ht) as (w & Hw' & Hwi). simplify_eq/=.
    destruct Hwi as (ds & Hl & ?). exists ds. by rewrite app_nil_r in Hl.
Qed.

Lemma refused_data h a b mv lio ws t :
  data_inv h a mv lio ws → proto_inv a → proto_act (Refused t) a b → ws !! t = Some WInvalid →
  data_inv h b mv lio (<[t := WNone]> ws).
Proof.
  intros Hd Hinv Hstep Hw. assert (Hsn : ghost_inv b) by (eapply proto_act_ghost; [done..|apply Hd]).
  pose proof (gi_snap _ (di_ghost _ _ _ _ _ Hd)) as Hsa. remember (Refused t) as e eqn:He.
  destruct Hstep as [| | | |n sts vs idx wv cm ths iss chk log t' k Ht Hne
    |n sts vs idx wv cm ths iss chk log t' k Ht Hi| | | |]; simplify_eq;
    (eapply data_inv_step; [exact Hd|exact Hinv|exact Hsn|..]); simpl in *; try by auto.
  - by apply (token_moved h lio mv _ ths ws t _ (TChecked k) _ WNone Ht Hw).
  - intros k' [[=]|]%elem_of_cons; by left.
  - intros k' Hk'. eapply passes_update; [done|by apply Hsa|right]. split; [done|by left].
  - intros j st Hj. upd; [right|by auto].
    apply slot_done_running. by apply (di_slot _ _ _ _ _ Hd _ _ Hi).
  - by apply (token_moved h lio mv _ ths ws t _ (TAbort (t_idx k) (t_inc k)) _ WNone Ht Hw).
  - intros k' [[=]|]%elem_of_cons; by left.
Qed.

Lemma undone_data h a b mv lio ws t ks :
  data_inv h a mv lio ws → proto_inv a → proto_act (Undone t) a b → ws !! t = Some (WMark ks) →
  data_inv h b mv lio (<[t := WNone]> ws).
Proof.
  intros Hd Hinv Hstep Hw. assert (Hsn : ghost_inv b) by (eapply proto_act_ghost; [done..|apply Hd]).
  pose proof (gi_snap _ (di_ghost _ _ _ _ _ Hd)) as Hsa. remember (Undone t) as e eqn:He.
  destruct Hstep as [| | | | | | |n sts vs idx wv cm ths iss chk log t' i inc v Ht Hv| |]; simplify_eq.
  assert (Hi : sts !! i = Some (Aborting inc)) by (by eapply own_abort; [apply Hinv|]).
  match type of Hsn with ghost_inv ?x => set (b := x) in * end.
  assert (p_status b = <[i := ReadyToExecute (inc + 1) None]> sts ∧ p_threads b = <[t := Idle]> ths ∧
    p_checked b = chk ∧ p_started b = log) as (Hb1 & Hb2 & Hb3 & Hb4) by (unfold b; by case_match).
  eapply data_inv_step; [exact Hd|exact Hinv|exact Hsn|..]; rewrite ?Hb1 ?Hb2 ?Hb3 ?Hb4; simpl in *; try by auto.
  - intros k' Hk'. eapply passes_update; [done|by apply Hsa|by left].
  - intros j st Hj. upd; [right|by auto].
    destruct (di_slot _ _ _ _ _ Hd _ _ Hi) as (r & (txn & hint & reads & _ & _ & Ho & _) & Hk).
    exists (keys_of r). split; [by apply recorded_keys|]. intros k Hout.
    specialize (Hk k). rewrite output_cells_out // in Hk. by destruct (entry_at mv k j).
  - by apply (token_moved h lio mv _ ths ws t _ Idle _ WNone Ht Hw).
Qed.

(** ** Accesses to the shared data *)

Lemma seen_mono (h h' : history) d v : h ⊆ h' → seen h d v → seen h' d v.
Proof.
  intros Hh. rewrite /seen. destruct (kind d); try done.
  intros (x & Hx & ->). exists x. split; [by eapply lookup_weaken|done].
Qed.

Lemma replay_mono (h h' : history) p ds q : h ⊆ h' → replay h p ds q → replay h' p ds q.
Proof. intros Hh. induction 1; econstructor; [done|by eapply seen_mono]. Qed.

Lemma running_mono (h h' : history) i reads p : h ⊆ h' → running h i reads p → running h' i reads p.
Proof. intros Hh (txn & hint & ? & ?). exists txn, hint. split; [done|by eapply replay_mono]. Qed.

Lemma explained_mono (h h' : history) (lio lio' : LIO) i r :
  h ⊆ h' → inputs lio' !! i = inputs lio !! i → outputs lio' !! i = outputs lio !! i →
  explained h lio i r → explained h' lio' i r.
Proof.
  intros Hh Hin Hout (txn & hint & reads & ? & ? & ? & ?). exists txn, hint, reads.
  rewrite Hin Hout. split_and!; [done..|by eapply replay_mono].
Qed.

(** What transaction [i] does to the shared data leaves everything of [j] alone. *)
Record apart (i : TxnIndex) (h h' : history) (lio lio' : LIO) (mv mv' : MV) : Prop := mkApart {
  ap_grow : h ⊆ h';
  ap_hist j k inc : j ≠ i → h' !! (k, (j, inc)) = h !! (k, (j, inc));
  ap_in j : j ≠ i → inputs lio' !! j = inputs lio !! j;
  ap_out j : j ≠ i → outputs lio' !! j = outputs lio !! j;
  ap_entry j k : j ≠ i → entry_at mv' k j = entry_at mv k j;
}.

Section apart.
Context (i : TxnIndex) (h h' : history) (lio lio' : LIO) (mv mv' : MV).
Context (Hap : apart i h h' lio lio' mv mv').

Lemma covered_apart j : j ≠ i → covered lio mv j → covered lio' mv' j.
Proof.
  intros Hj (prev & Hp & Hk). exists prev. split; [|intros k Hout; rewrite (ap_entry _ _ _ _ _ _ _ Hap) //; auto].
  by rewrite /modified_keys (ap_out _ _ _ _ _ _ _ Hap) in Hp |- *.
Qed.

Lemma explained_apart j r : j ≠ i → explained h lio j r → explained h' lio' j r.
Proof. intros Hj. apply explained_mono; [apply Hap|by apply (ap_in _ _ _ _ _ _ _ Hap)|by apply (ap_out _ _ _ _ _ _ _ Hap)]. Qed.

Lemma slot_done_apart j inc : j ≠ i → slot_done h lio mv j inc → slot_done h' lio' mv' j inc.
Proof.
  intros Hj (r & He & Hk). exists r. split; [by apply explained_apart|].
  intros k. rewrite (ap_entry _ _ _ _ _ _ _ Hap) //.
Qed.

Lemma slot_apart j st : j ≠ i → slot_inv h lio mv j st → slot_inv h' lio' mv' j st.
Proof.
  intros Hj. destruct st; simpl; auto using covered_apart, slot_done_apart.
  intros (r & He & Hk). exists r. split; [by apply explained_apart|].
  intros k. rewrite (ap_entry _ _ _ _ _ _ _ Hap) //.
Qed.

Lemma exec_apart j inc w : j ≠ i → exec_inv h lio mv j inc w → exec_inv h' lio' mv' j inc w.
Proof.
  intros Hj. pose proof (ap_grow _ _ _ _ _ _ _ Hap) as Hgrow.
  pose proof (λ k, ap_hist _ _ _ _ _ _ _ Hap j k inc Hj) as Hhist.
  pose proof (λ k, ap_entry _ _ _ _ _ _ _ Hap j k Hj) as Hent.
  destruct w as [|p reads|ws ds prev res reads|ks res reads| | | |]; simpl; try done.
  - intros [? Hu]. split; [by apply covered_apart|]. intros k. by rewrite Hhist.
  - intros (? & Hu & ?). split_and!; [by apply covered_apart| |by eapply running_mono].
    intros k. by rewrite Hhist.
  - intros (r & m & ? & ? & ? & Hm1 & ? & Hm2). exists r, m. split_and!; [by eapply running_mono|done|done|..|done|].
    + intros k. rewrite Hent. apply Hm1.
    + intros Hw k v. rewrite Hhist Hent. by apply Hm2.
  - intros (r & ? & ? & Hm1 & ?). exists r. split_and!; [by eapply running_mono|done|..|done].
    intros k. rewrite Hent. apply Hm1.
  - by apply slot_done_apart.
Qed.
End apart.

(** A step of the thread that owns [i]. *)
Lemma data_inv_data h h' a mv mv' lio lio' ws t tk i w w' :
  data_inv h a mv lio ws → proto_inv a → p_threads a !! t = Some tk → owned tk = Some i →
  ws !! t = Some w → apart i h h' lio lio' mv mv' →
  (∀ inc, tk = TAbort i inc → lio' = lio ∧ slot_inv h' lio' mv' i (Aborting inc)) →
  work_inv h' lio' mv' (p_status a) tk w' →
  (∀ k f inc v, entry_at mv' k i = Some (mkEntry f (Write inc v)) → h' !! (k, (i, inc)) = Some v) →
  (∀ k inc v, h' !! (k, (i, inc)) = Some v → (i, inc) ∈ p_started a) →
  data_inv h' a mv' lio' (<[t := w']> ws).
Proof.
  intros [Hsl Hwk Hch Hhi Hst Hsn] Hinv Htk Hown Hw Hap Hab Hnew Hhi' Hst'.
  pose proof (inv_owner _ Hinv) as Ho.
  assert (Hi : (∃ inc, tk = TExec i inc ∧ p_status a !! i = Some (Executing inc)) ∨
               (∃ inc, tk = TAbort i inc ∧ p_status a !! i = Some (Aborting inc))).
  { destruct tk; simplify_eq/=; [left|right]; eexists; (split; [done|]); by [eapply own_exec|eapply own_abort]. }
  assert (Hcase : ∀ k, current (p_status a) k → i ≤ t_idx k → ∃ inc, tk = TAbort i inc ∧ p_status a !! i = Some (Aborting inc)).
  { intros k Hc Hle. destruct Hi as [(inc & -> & Hi)|]; [|done].
    destruct (Hc i Hle) as (st & inc' & ? & ? & _). simplify_eq/=. }
  assert (Hload : ∀ k reads, loaded (p_status a) lio k reads → loaded (p_status a) lio' k reads).
  { intros k reads Hl Hc. destruct (decide (t_idx k = i)) as [Heq|Hne].
    - destruct (Hcase k Hc) as (inc & -> & _); [lia|]. destruct (Hab inc eq_refl) as [-> _]. by apply Hl.
    - rewrite (ap_in _ _ _ _ _ _ _ Hap) //. by apply Hl. }
  assert (Hwatch : ∀ k reads, watch (p_status a) mv k reads → watch (p_status a) mv' k reads).
  { intros k reads Hl Hc. destruct (decide (i < t_idx k)) as [Hlt|Hge].
    - left. destruct (Hcase k Hc) as (inc & _ & Hi'); [lia|]. by exists i, inc.
    - destruct (Hl Hc) as [|Hall]; [by left|right]. eapply Forall_impl; [exact Hall|].
      intros d Hd. cbv beta in *. rewrite -Hd /validate_read. f_equal. apply read_ext.
      intros j Hj. apply (ap_entry _ _ _ _ _ _ _ Hap). lia. }
  split; [| | | | |done].
  - intros j st Hj. destruct (decide (j = i)) as [->|Hne]; [|by eapply slot_apart; [| |apply Hsl]].
    destruct Hi as [(inc & -> & Hi)|(inc & -> & Hi)]; rewrite Hi in Hj; injection Hj as <-; [done|].
    by apply (Hab inc).
  - intros t' tk' Htk'. destruct (decide (t' = t)) as [->|Hne].
    { simplify_eq. exists w'. split; [|done]. eapply list_lookup_insert_eq, lookup_lt_Some, Hw. }
    destruct (Hwk t' tk' Htk') as (w0 & Hw0 & Hwi). exists w0.
    rewrite list_lookup_insert_ne //. split; [done|]. destruct tk' as [|j inc'|k|k|j inc']; try done.
    + eapply exec_apart; [done| |done]. intros ->. apply Hne. by eapply own_excl.
    + simpl in *. destruct w0; try done. destruct Hwi as (ds & ? & ?). exists ds. auto.
  - intros k Hk. destruct (Hch k Hk) as (reads & ? & ?). exists reads. auto.
  - intros k j f inc v He. destruct (decide (j = i)) as [->|Hne]; [by eapply Hhi'|].
    rewrite (ap_hist _ _ _ _ _ _ _ Hap) //. rewrite (ap_entry _ _ _ _ _ _ _ Hap) // in He. by eapply Hhi.
  - intros k j inc v Hh. destruct (decide (j = i)) as [->|Hne]; [by eapply Hst'|].
    rewrite (ap_hist _ _ _ _ _ _ _ Hap) // in Hh. by eapply Hst.
Qed.

(** ** The steps of [execute] *)

Lemma apart_refl i h lio mv : apart i h h lio lio mv mv.
Proof. by split. Qed.

Lemma read_loop_version iter acc i inc v :
  read_loop iter acc = Ret (Ok (VersionOutput (i, inc) v)) →
  ∃ f, (i, mkEntry f (Write inc v : EntryCell V)) ∈ iter.
Proof.
  revert acc. induction iter as [|[j [f c]] iter IH]; intros acc; simpl; [by destruct acc as [[]|]|].
  case_match; [done|]. destruct c as [inc' d|d]; simpl.
  - destruct acc as [acc|]; [|intros [= -> -> ->]; exists f; constructor].
    destruct (from_write d) as [[x|]|]; simpl; try done.
    + destruct acc as [a|]; simpl; [|done]. by destruct (apply_to a x).
    + intros [= -> -> ->]. exists f. constructor.
  - destruct acc; intros Hr; apply IH in Hr as (f' & Hin); exists f'; by constructor.
Qed.

Lemma read_version (mv : MV) k idx i inc v :
  read mv k idx = Ret (Ok (VersionOutput (i, inc) v)) →
  i < idx ∧ ∃ f, entry_at mv k i = Some (mkEntry f (Write inc v)).
Proof.
  rewrite read_visible. intros (f & Hin)%read_loop_version.
  rewrite elem_of_reverse visible_spec in Hin. naive_solver.
Qed.

(** A value that was read is the one its captured read stands for. *)
Lemma view_read_seen h (mv : MV) key idx res desc v :
  (∀ k i f inc v, entry_at mv k i = Some (mkEntry f (Write inc v)) → h !! (k, (i, inc)) = Some v) →
  view_read mv key idx = Ret (inr (res, desc)) →
  mv_state_value base_view storage_error into_vm_status key res = Ret v →
  access_path desc = key ∧ seen h desc v.
Proof.
  intros Hhi Hr Hv. rewrite /view_read in Hr. returned Hr.
  destruct r as [[x|[i inc] x]|[|d|j|]]; simplify_eq/=; split; try done; rewrite /seen /=; simplify_eq/=; try done.
  apply read_version in Hr0 as [_ [f Hf]]. exists x. split; [by eapply Hhi|done].
Qed.

Lemma record_spec (lio lio' : LIO) i reads result :
  record lio i reads result = Ret lio' →
  i < length (inputs lio) ∧ i < length (outputs lio) ∧
  inputs lio' = <[i := Some reads]> (inputs lio) ∧ outputs lio' = <[i := Some result]> (outputs lio).
Proof.
  rewrite /record /vec_store. intros Hr.
  assert (inputs (record_modules lio reads result) = inputs lio ∧
          outputs (record_modules lio reads result) = outputs lio) as [Hin Hout]
    by (rewrite /record_modules; repeat case_match; done).
  rewrite Hin Hout in Hr. returned Hr. repeat case_decide; by simplify_eq/=.
Qed.

Section execute.
Context (h : history) (a : proto) (mv : MV) (lio : LIO) (ws : list Work).
Context (t : nat) (i : TxnIndex) (inc : Incarnation).
Context (Hd : data_inv h a mv lio ws) (Hinv : proto_inv a).
Context (Ht : p_threads a !! t = Some (TExec i inc)).

(** The place of the executing thread in its code. *)
Lemma exec_work w : ws !! t = Some w → exec_inv h lio mv i inc w.
Proof. intros Hw. destruct (di_work _ _ _ _ _ Hd t _ Ht) as (w' & Hw' & ?). by simplify_eq. Qed.

(** A step that changes the map only. *)
Lemma exec_step h' mv' w w' :
  ws !! t = Some w → apart i h h' lio lio mv mv' → exec_inv h' lio mv' i inc w' →
  (∀ k f inc v, entry_at mv' k i = Some (mkEntry f (Write inc v)) → h' !! (k, (i, inc)) = Some v) →
  (∀ k inc' v, h' !! (k, (i, inc')) = Some v → h !! (k, (i, inc')) = Some v ∨ inc' = inc) →
  data_inv h' a mv' lio (<[t := w']> ws).
Proof.
  intros Hw Hap Hwi Hhi Hst.
  eapply data_inv_data; [exact Hd|exact Hinv|exact Ht|done|exact Hw|exact Hap|done|done|exact Hhi|].
  intros k inc' v [Hh| ->]%Hst; [by eapply di_started|by apply (gi_logged _ (di_ghost _ _ _ _ _ Hd) t)].
Qed.

(** A step that changes nothing but the thread. *)
Lemma exec_local w w' :
  ws !! t = Some w → exec_inv h lio mv i inc w' → data_inv h a mv lio (<[t := w']> ws).
Proof.
  intros Hw Hwi. eapply exec_step; [done|apply apart_refl|done|intros; by eapply di_hist|intros; by left].
Qed.

Lemma start_data txn hint :
  ws !! t = Some WNone → block !! i = Some txn →
  data_inv h a mv lio (<[t := WRun (execute_transaction txn i false hint) []]> ws).
Proof.
  intros Hw Hb. apply exec_work in Hw as Hwi. eapply exec_local; [done|].
  destruct Hwi. split_and!; [done..|]. exists txn, hint. split; [done|constructor].
Qed.

Lemma read_data key next reads res desc v :
  ws !! t = Some (WRun (ReadState key next) reads) →
  view_read mv key i = Ret (inr (res, desc)) →
  mv_state_value base_view storage_error into_vm_status key res = Ret v →
  data_inv h a mv lio (<[t := WRun (next v) (reads ++ [desc])]> ws).
Proof.
  intros Hw Hr Hv. apply exec_work in Hw as Hwi. eapply exec_local; [done|].
  destruct Hwi as (Hc & Hu & txn & hint & Hb & Hp). split_and!; [done..|]. exists txn, hint.
  split; [done|]. eapply view_read_seen in Hr as [<- Hs]; [|intros; by eapply di_hist|done]. by econstructor.
Qed.

Lemma output_data r reads prev :
  ws !! t = Some (WRun (Finish r) reads) → modified_keys lio i = Ret prev →
  data_inv h a mv lio (<[t := WApply (writes_of r) (deltas_of r) prev (recorded r) reads]> ws).
Proof.
  intros Hw Hm. apply exec_work in Hw as Hwi. eapply exec_local; [done|].
  destruct Hwi as ((prev' & Hm' & Hk) & Hu & Hrun). rewrite Hm in Hm'. injection Hm' as <-.
  exists r, ∅. split_and!; [done|done|reflexivity|..].
  - intros k Hout. rewrite lookup_empty /=. by apply Hk.
  - intros k _. apply lookup_empty.
  - intros _ k v Hh. by rewrite Hu in Hh.
Qed.

Lemma add_write_fresh k v mv' v' :
  add_write mv k (i, inc) v = Ret mv' → entry_at mv k i ≠ Some (mkEntry FLAG_DONE (Write inc v')).
Proof.
  rewrite /add_write. intros Hr He. returned Hr. rewrite entry_or_default_at He /= in Hr0.
  apply Nat.ltb_lt in Hr0. lia.
Qed.

(** The map after one cell of the output is in place. *)
Definition puts (mv' : MV) (k : K) (c : EntryCell V) : Prop :=
  ∀ k' j, entry_at mv' k' j =
    if decide (k = k' ∧ i = j) then Some (mkEntry FLAG_DONE c) else entry_at mv k' j.

Lemma puts_apart mv' k c h' : puts mv' k c → h ⊆ h' →
  (∀ j k inc, j ≠ i → h' !! (k, (j, inc)) = h !! (k, (j, inc))) → apart i h h' lio lio mv mv'.
Proof.
  intros Hp Hh Hhist. split; try done. intros j k' Hj. rewrite Hp. case_decide; naive_solver.
Qed.

(** One more cell of the output, on both sides of the invariant of [WApply]. *)
Lemma puts_cells mv' k c (prev : gset K) (m : gmap K (EntryCell V)) :
  puts mv' k c →
  (∀ k, k ∉ prev → entry_at mv k i = mkEntry FLAG_DONE <$> m !! k) → (∀ k, k ∈ prev → m !! k = None) →
  (∀ k', k' ∉ prev ∖ {[k]} → entry_at mv' k' i = mkEntry FLAG_DONE <$> <[k := c]> m !! k') ∧
  (∀ k', k' ∈ prev ∖ {[k]} → <[k := c]> m !! k' = None).
Proof.
  intros Hp Hout Hin. split; intros k' Hk'.
  - rewrite Hp. destruct (decide (k = k')) as [->|Hne].
    + by rewrite lookup_insert_eq decide_True.
    + rewrite lookup_insert_ne // decide_False; [by intros []|]. apply Hout. set_solver.
  - apply elem_of_difference in Hk' as [Hk' Hne]. rewrite lookup_insert_ne; [set_solver|by apply Hin].
Qed.

Lemma write_data k v writes deltas prev result reads mv' :
  ws !! t = Some (WApply ((k, v) :: writes) deltas prev result reads) →
  add_write mv k (i, inc) v = Ret mv' →
  data_inv (<[(k, (i, inc)) := v]> h) a mv' lio
    (<[t := WApply writes deltas (prev ∖ {[k]}) result reads]> ws).
Proof.
  intros Hw Hadd. apply exec_work in Hw as Hwi.
  destruct Hwi as (r & m & Hrun & Hres & Hm & Hout & Hin & Hh).
  assert (Hp : puts mv' k (Write inc v)) by (intros k' j; by apply add_write_at).
  assert (Hnew : h !! (k, (i, inc)) = None).
  { destruct (h !! _) as [v'|] eqn:Hv; [|done]. exfalso. by eapply add_write_fresh, Hh. }
  assert (Hgrow : h ⊆ <[(k, (i, inc)) := v]> h) by (by apply insert_subseteq).
  eapply exec_step; [done|eapply puts_apart; [done..|]|..].
  - intros j k' inc' Hj. apply lookup_insert_ne. naive_solver.
  - exists r, (<[k := Write inc v]> m). destruct (puts_cells mv' k (Write inc v) prev m) as [? ?]; [done..|].
    split_and!; [by eapply running_mono|done..|]. intros _ k' v' Hv'. rewrite Hp.
    destruct (decide (k = k')) as [->|Hne]; [by rewrite lookup_insert_eq in Hv'; simplify_eq; rewrite decide_True|].
    rewrite lookup_insert_ne in Hv'; [by intros [=]|]. rewrite decide_False; [by intros []|]. by apply Hh.
  - intros k' f inc' v' He. rewrite Hp in He. destruct (decide (k = k')) as [->|Hne].
    + rewrite decide_True // in He. simplify_eq. apply lookup_insert_eq.
    + rewrite decide_False in He; [by intros []|]. rewrite lookup_insert_ne; [by intros [=]|]. by eapply di_hist.
  - intros k' inc' v'. rewrite lookup_insert. case_decide; [naive_solver|by left].
Qed.

Lemma delta_data k d deltas prev result reads :
  ws !! t = Some (WApply [] ((k, d) :: deltas) prev result reads) →
  data_inv h a (add_delta mv k i d) lio (<[t := WApply [] deltas (prev ∖ {[k]}) result reads]> ws).
Proof.
  intros Hw. apply exec_work in Hw as Hwi.
  destruct Hwi as (r & m & Hrun & Hres & Hm & Hout & Hin & Hh).
  assert (Hp : puts (add_delta mv k i d) k (Delta d)) by (intros k' j; by apply add_delta_at).
  eapply exec_step; [done|by eapply puts_apart|..|by left].
  - exists r, (<[k := Delta d]> m). destruct (puts_cells (add_delta mv k i d) k (Delta d) prev m) as [? ?]; [done..|].
    by split_and!.
  - intros k' f inc' v' He. rewrite Hp in He. repeat case_decide; simplify_eq. by eapply di_hist.
Qed.

Lemma applied_data prev result reads keys :
  ws !! t = Some (WApply [] [] prev result reads) → keys ≡ₚ elements (prev : gset K) →
  data_inv h a mv lio (<[t := WDelete keys result reads]> ws).
Proof.
  intros Hw Hperm. apply exec_work in Hw as Hwi. eapply exec_local; [done|].
  destruct Hwi as (r & m & Hrun & Hres & Hm & Hout & Hin & _). simpl in Hm. subst m.
  exists r. split_and!; [done..| |]; intros k; rewrite Hperm elem_of_elements; auto.
Qed.

Lemma delete_data k keys result reads mv' :
  ws !! t = Some (WDelete (k :: keys) result reads) → mv_delete mv k i = Ret mv' →
  data_inv h a mv' lio (<[t := WDelete keys result reads]> ws).
Proof.
  intros Hw Hdel. apply exec_work in Hw as Hwi. destruct Hwi as (r & Hrun & Hres & Hout & Hin).
  assert (Hat : ∀ k' j, entry_at mv' k' j = if decide (k = k' ∧ i = j) then None else entry_at mv k' j)
    by (intros; by apply mv_delete_at).
  eapply exec_step; [done| | | |by left].
  - split; try done. intros j k' Hj. rewrite Hat. case_decide; naive_solver.
  - exists r. split_and!; [done..| |]; [|intros k' Hk'; apply Hin; by constructor].
    intros k' Hk'. rewrite Hat. case_decide as Hc; [|apply Hout; apply not_elem_of_cons; naive_solver].
    destruct Hc as [-> _]. rewrite Hin //. constructor.
  - intros k' f inc' v' He. rewrite Hat in He. case_decide; [done|]. by eapply di_hist.
Qed.

Lemma record_data result reads lio' :
  ws !! t = Some (WDelete [] result reads) → record lio i reads result = Ret lio' →
  data_inv h a mv lio' (<[t := WRecorded]> ws).
Proof.
  intros Hw Hrec. apply exec_work in Hw as Hwi. destruct Hwi as (r & (txn & hint & Hb & Hp) & -> & Hout & _).
  apply record_spec in Hrec as (Hli & Hlo & Hins & Houts).
  eapply data_inv_data; [exact Hd|exact Hinv|exact Ht|done|exact Hw|..].
  - split; try done; intros j Hj; rewrite ?Hins ?Houts; by apply list_lookup_insert_ne.
  - done.
  - exists r. split; [|intros k; apply Hout; by apply not_elem_of_nil]. exists txn, hint, reads.
    rewrite Hins Houts. split_and!; [done|by apply list_lookup_insert_eq..|done].
  - intros. by eapply di_hist.
  - intros. by eapply di_started.
Qed.
End execute.

(** ** The steps of [validate] *)

(** A validating thread moves on. *)
Lemma validate_local h a mv lio ws t k w w' :
  data_inv h a mv lio ws → proto_inv a → p_threads a !! t = Some (TVal k) → ws !! t = Some w →
  work_inv h lio mv (p_status a) (TVal k) w' → data_inv h a mv lio (<[t := w']> ws).
Proof.
  intros Hd Hinv Ht Hw Hwi. eapply data_inv_step; [exact Hd|exact Hinv|apply Hd|..]; try by auto.
  intros t' tk Htk. destruct (decide (t' = t)) as [->|Hne]; [right|left].
  - simplify_eq. exists w'. split; [|done]. eapply list_lookup_insert_eq, lookup_lt_Some, Hw.
  - by rewrite list_lookup_insert_ne.
Qed.

Lemma load_data h a mv lio ws t k reads :
  data_inv h a mv lio ws → proto_inv a → p_threads a !! t = Some (TVal k) → ws !! t = Some WNone →
  read_set lio (t_idx k) = Ret (Some reads) → data_inv h a mv lio (<[t := WCheck reads]> ws).
Proof.
  intros Hd Hinv Ht Hw Hr. eapply validate_local; [done..|]. exists []. rewrite /read_set in Hr. returned Hr.
  split; [by intros _|]. intros _. by right.
Qed.

Lemma check_data h a mv lio ws t k r rest :
  data_inv h a mv lio ws → proto_inv a → p_threads a !! t = Some (TVal k) →
  ws !! t = Some (WCheck (r :: rest)) → validate_read mv (t_idx k) r = Ret true →
  data_inv h a mv lio (<[t := WCheck rest]> ws).
Proof.
  intros Hd Hinv Ht Hw Hr. destruct (di_work _ _ _ _ _ Hd t _ Ht) as (w & Hw' & Hwi). simplify_eq/=.
  destruct Hwi as (ds & Hl & Hwa). eapply validate_local; [done..|]. exists (ds ++ [r]). rewrite -assoc.
  split; [done|]. intros Hc. destruct (Hwa Hc) as [|Hall]; [by left|right]. apply Forall_app. auto.
Qed.

Lemma marking_data h a mv lio ws t i inc keys :
  data_inv h a mv lio ws → proto_inv a → p_threads a !! t = Some (TAbort i inc) →
  ws !! t = Some WNone → data_inv h a mv lio (<[t := WMark keys]> ws).
Proof.
  intros Hd Hinv Ht Hw. eapply data_inv_data; [exact Hd|exact Hinv|exact Ht|done|exact Hw|apply apart_refl|..].
  - intros ? [= <-]. split; [done|]. by eapply di_slot, own_abort; [|apply Hinv|].
  - done.
  - intros. by eapply di_hist.
  - intros. by eapply di_started.
Qed.

(** Marking an output changes no cell. *)
Lemma mark_data h a mv lio ws t i inc k keys mv' :
  data_inv h a mv lio ws → proto_inv a → p_threads a !! t = Some (TAbort i inc) →
  ws !! t = Some (WMark (k :: keys)) → mark_estimate mv k i = Ret mv' →
  data_inv h a mv' lio (<[t := WMark keys]> ws).
Proof.
  intros Hd Hinv Ht Hw Hmark.
  assert (Hi := own_abort _ _ (inv_owner _ Hinv) _ _ _ Ht).
  assert (Hat : ∀ k' j, entry_at mv' k' j =
    if decide (k = k' ∧ i = j) then Entry_mark_estimate <$> entry_at mv k j else entry_at mv k' j)
    by (intros; by apply mark_estimate_at).
  assert (Hcell : ∀ k', cell <$> entry_at mv' k' i = cell <$> entry_at mv k' i).
  { intros k'. rewrite Hat. case_decide as Hc; [|done]. destruct Hc as [-> _]. by destruct (entry_at mv k' i). }
  eapply data_inv_data; [exact Hd|exact Hinv|exact Ht|done|exact Hw|..].
  - split; try done. intros j k' Hj. rewrite Hat. case_decide; naive_solver.
  - intros ? [= <-]. split; [done|]. destruct (di_slot _ _ _ _ _ Hd _ _ Hi) as (r & ? & Hk).
    exists r. split; [done|]. intros k'. by rewrite Hcell.
  - done.
  - intros k' f inc' v' He. specialize (Hcell k'). rewrite He in Hcell.
    destruct (entry_at mv k' i) as [[f' c]|] eqn:He'; simplify_eq/=. by eapply di_hist.
  - intros. by eapply di_started.
Qed.

(** ** The machine *)

Abbreviation Machine := (@machine K V VErr T E AccessPath _ _ _ _) (only parsing).
Abbreviation step := (mach_step base_view storage_error into_vm_status block) (only parsing).

Definition mach_inv (x : Machine) : Prop :=
  ∃ a h, sim (m_sys x) a ∧ proto_inv a ∧ data_inv h a (m_mv x) (m_lio x) (m_work x).

Lemma executing_token x a t i inc : sim x a → executing x t (i, inc) → p_threads a !! t = Some (TExec i inc).
Proof. intros Hs (f & Hw). by destruct (sim_token _ _ _ _ Hs Hw) as (tk & Htk & ->). Qed.

Lemma validating_token x a t i inc :
  sim x a → validating x t (i, inc) → ∃ k, p_threads a !! t = Some (TVal k) ∧ t_idx k = i.
Proof.
  intros Hs (w & f & Hw). destruct (sim_token _ _ _ _ Hs Hw) as (tk & Htk & k & -> & <- & _). by exists k.
Qed.

Lemma aborting_token x a t i inc : sim x a → aborting x t (i, inc) → p_threads a !! t = Some (TAbort i inc).
Proof. intros Hs (f & Hw). by destruct (sim_token _ _ _ _ Hs Hw) as (tk & Htk & ->). Qed.

Lemma quiet_run_data h a b mv lio ws :
  rtc (proto_act Quiet) a b → data_inv h a mv lio ws → proto_inv a → data_inv h b mv lio ws ∧ proto_inv b.
Proof.
  induction 1 as [a|a b c Hab _ IH]; intros Hd Hinv; [done|].
  apply IH; [by eapply quiet_data|by eapply quiet_inv].
Qed.

(** A scheduler step with an event: the event, then quiet steps. *)
Lemma event_inv e x x' a h mv lio ws ws' :
  sys_act e x x' → sim x a → proto_inv a → e ≠ Quiet → (∀ t dep, e ≠ Waits t dep) →
  (∀ b, proto_act e a b → data_inv h b mv lio ws') → data_inv h a mv lio ws →
  mach_inv (mkMachine x' mv lio ws').
Proof.
  intros Hact Hs Hinv Hq Hwait Hev Hd. destruct (sys_act_sim _ _ _ _ Hact Hs Hinv) as (b & Hb & Hsb).
  assert (∃ a1, proto_act e a a1 ∧ rtc (proto_act Quiet) a1 b) as (a1 & Ha1 & Hr).
  { destruct e; try done. by destruct (Hwait t dep). }
  eapply quiet_run_data in Hr as [? ?]; [by exists b, h|by apply Hev|].
  eapply proto_step_inv; [done|by eexists].
Qed.

(** Names what a machine step says of its thread. *)
Ltac thread_facts Hs :=
  repeat match goal with
  | Ha : sys_act _ _ _ |- _ => progress rename Ha into Hact
  | He : executing _ _ _ |- _ => eapply executing_token in He; [|exact Hs]
  | He : validating _ _ _ |- _ => eapply validating_token in He as (k & Htk & <-); [|exact Hs]
  | He : aborting _ _ _ |- _ => eapply aborting_token in He; [|exact Hs]
  end.

Lemma mach_step_inv x y : mach_inv x → step x y → mach_inv y.
Proof.
  intros (a & h & Hs & Hinv & Hd) Hstep. destruct Hstep; simpl in *; thread_facts Hs.
  - destruct (sys_act_sim _ _ _ _ Hact Hs Hinv) as (b & Hb & Hsb).
    eapply quiet_run_data in Hb as [? ?]; [by exists b, h|done..].
  - exists a, h. split_and!; [done..|]. by eapply start_data.
  - exists a, h. split_and!; [done..|]. by eapply read_data.
  - destruct (sys_act_sim _ _ _ _ Hact Hs Hinv) as (b & <- & Hsb). by exists a, h.
  - exists a, h. split_and!; [done..|]. by eapply output_data.
  - eexists a, _. split_and!; [done..|]. by eapply write_data.
  - exists a, h. split_and!; [done..|]. by eapply delta_data.
  - exists a, h. split_and!; [done..|]. by eapply applied_data.
  - exists a, h. split_and!; [done..|]. by eapply delete_data.
  - exists a, h. split_and!; [done..|]. by eapply record_data.
  - eapply event_inv; [done..| |done]. intros b Hb. by eapply finished_data.
  - exists a, h. split_and!; [done..|]. by eapply load_data.
  - exists a, h. split_and!; [done..|].
    match goal with |- context [if ?b then _ else _] => destruct b end;
      [by eapply check_data|by eapply validate_local].
  - eapply event_inv; [done..| |done]. intros b Hb. by eapply accepted_data.
  - eapply event_inv; [done..| |done]. intros b Hb. by eapply refused_data.
  - exists a, h. split_and!; [done..|]. by eapply marking_data.
  - exists a, h. split_and!; [done..|]. by eapply mark_data.
  - eapply event_inv; [done..| |done]. intros b Hb. by eapply undone_data.
Qed.

Lemma mach_init_inv s threads deps gas m :
  (Z.of_nat (length block) < 2 ^ 32)%Z → Scheduler_new (length block) deps gas m = Ret s →
  mach_inv (mach_init block s threads).
Proof.
  intros Hn Hs. exists (proto_init (length block) threads), ∅.
  split_and!; [by eapply sim_init|apply proto_init_inv|]. split; simpl.
  - intros i st [-> Hi]%lookup_replicate. exists ∅. rewrite /modified_keys /= lookup_replicate_2 //.
  - intros t tk [-> Ht]%lookup_replicate. exists WNone. split; [by apply lookup_replicate|done].
  - intros k []%elem_of_nil.
  - intros k i f inc v. rewrite /entry_at /=. by rewrite lookup_empty.
  - intros k i inc v. by rewrite lookup_empty.
  - split; [intros k []%elem_of_nil|]. intros t i inc [[=] _]%lookup_replicate.
Qed.

Lemma mach_reachable_inv threads deps gas m x :
  mach_reachable base_view storage_error into_vm_status block threads deps gas m x → mach_inv x.
Proof.
  intros (Hn & s & Hs & Hr). eapply (rtc_invariant step); [apply mach_step_inv|exact Hr|].
  by eapply mach_init_inv.
Qed.

(** ** Committed transactions can be run again *)

(** A read that validates yields the value the captured read stands for. *)
Lemma seen_value h (mv : MV) key idx res desc v :
  (∀ k i f inc v, entry_at mv k i = Some (mkEntry f (Write inc v)) → h !! (k, (i, inc)) = Some v) →
  view_read mv key idx = Ret (inr (res, desc)) → seen h desc v →
  mv_state_value base_view storage_error into_vm_status key res = Ret v.
Proof.
  intros Hhi Hr Hv. rewrite /view_read in Hr. returned Hr.
  destruct r as [[x|[i inc] x]|[|d|j|]]; simplify_eq/=; rewrite /seen /= in Hv; subst; try done.
  apply read_version in Hr0 as [_ [f Hf%Hhi]]. destruct Hv as (x' & Hx' & ->). by simplify_eq.
Qed.

Lemma replay_run h (mv : MV) i p ds q :
  (∀ k i f inc v, entry_at mv k i = Some (mkEntry f (Write inc v)) → h !! (k, (i, inc)) = Some v) →
  replay h p ds q → Forall (λ d, validate_read mv i d = Ret true) ds →
  ∀ r ds', run_mv base_view storage_error into_vm_status mv i q = Ret (inr (r, ds')) →
    run_mv base_view storage_error into_vm_status mv i p = Ret (inr (r, ds ++ ds')).
Proof.
  intros Hhi Hrep. induction Hrep as [p|p ds d next v Hrep IH Hs]; intros Hval r ds' Hq; [done|].
  apply Forall_app in Hval as [Hval [(res & Hd)%validate_read_spec _]%Forall_cons].
  rewrite -assoc. apply IH; [done|]. simpl. rewrite Hd /= (seen_value h mv (access_path d) i res d v) //=.
  by rewrite Hq.
Qed.

(** The outcome recorded for a committed transaction is what running it in one go on
    the current map returns, with the same reads, and its output is what the map
    holds for it. *)
Definition settled_run (mv : MV) (lio : LIO) (i : TxnIndex) (inc : Incarnation) (r : Outcome) : Prop :=
  ∃ txn hint reads, block !! i = Some txn ∧ outputs lio !! i = Some (Some (recorded r)) ∧
    run_mv base_view storage_error into_vm_status mv i (execute_transaction txn i false hint) =
      Ret (inr (r, reads)) ∧
    ∀ k, entry_at mv k i = mkEntry FLAG_DONE <$> output_cells inc r !! k.

Lemma committed_run x i inc :
  mach_inv x → exec_status (sched (m_sys x)) !! i = Some (Committed inc) →
  ∃ r, settled_run (m_mv x) (m_lio x) i inc r.
Proof.
  intros (a & h & Hs & Hinv & Hd) Hi. rewrite (sim_status _ _ Hs) in Hi.
  destruct (inv_cert _ Hinv _ _ Hi) as (k & Hk & Hidx & _ & Hcur).
  destruct (di_checked _ _ _ _ _ Hd k Hk) as (reads & Hl & Hw). specialize (Hl Hcur).
  destruct (di_slot _ _ _ _ _ Hd i _ Hi) as (r & (txn & hint & reads' & Hb & Hin & Hout & Hrep) & Hcells).
  exists r, txn, hint, reads. split_and!; [done..| |done]. rewrite Hidx Hin in Hl. simplify_eq.
  destruct (Hw Hcur) as [(j & inc' & Hj & Ha)|Hval].
  - exfalso. apply (com_only _ _ _ (inv_commit _ Hinv)) in Hi.
    destruct (com_prefix _ _ _ (inv_commit _ Hinv) j) as [inc'' Hj']; [lia|]. congruence.
  - rewrite -(app_nil_r reads). eapply replay_run; [intros; by eapply di_hist|exact Hrep|done|done].
Qed.
End serial.
