(* ===== verification/InOrder.v ===== *)
(** * In-order execution

    The reference the parallel run of a block is measured against: the transactions
    run one after the other, each on the state the ones before it left, where a write
    replaces the value of its key and a delta is added to it.  The outcomes the
    parallel run commits are those of the reference. *)
From S2P Require Import Prelude DeltaOp WriteSet MVHashMap LastInputOutput Scheduler CommitProtocol SchedulerSafety View BlockExecutor ParallelExecutor Serializability.
Local Open Scope nat_scope.

Section in_order.
Context {Txn K V VErr T E AccessPath : Type}.
Context `{Countable K, Countable AccessPath, TransactionWrite V, BcsU128, !BcsU128Laws}.
Context `{!ModulePath K AccessPath, !TransactionOutputTrait T K V, !ExecutorTask Txn K VErr T E}.
Context (base_view : K → result VErr (option bytes)).
Context (storage_error : VErr) (into_vm_status : PartialVMError → VErr).

Abbreviation MV := (MVHashMap K V) (only parsing).
Abbreviation Outcome := (ExecutionStatus.t T E) (only parsing).
Abbreviation Program := (program K VErr Outcome) (only parsing).
Abbreviation answer := (result VErr (option bytes)) (only parsing).
Abbreviation Machine := (@machine K V VErr T E AccessPath _ _ _ _) (only parsing).

(** ** The reference *)

(** A program on a fixed state. *)
Fixpoint run_on (σ : K → answer) (p : Program) : Outcome :=
  match p with
  | Finish r => r
  | ReadState key next => run_on σ (next (σ key))
  end.

(** Adding a delta to the value of an aggregator. *)
Definition delta_on (d : DeltaOp) (x : answer) : answer :=
  match x with
  | Ok (Some bs) =>
      match bcs_from_bytes bs with
      | Some z =>
          match apply_to d z with
          | Ok z' => Ok (Some (serialize z'))
          | Err e => Err (into_vm_status e)
          end
      | None => Err storage_error
      end
  | Ok None => Err storage_error
  | Err e => Err e
  end.

Definition cell_on (c : EntryCell V) (x : answer) : answer :=
  match c with
  | Write _ v => Ok (extract_raw_bytes v)
  | Delta d => delta_on d x
  end.

(** The state after an outcome. *)
Definition apply_output (r : Outcome) (σ : K → answer) : K → answer := λ k,
  match output_cells 0 r !! k with
  | Some c => cell_on c (σ k)
  | None => σ k
  end.

(** The block from transaction [i] on, with the prologue hints its executions get. *)
Fixpoint in_order (i : TxnIndex) (txns : list Txn) (hints : list (bool * bool)) (σ : K → answer) :
    list Outcome :=
  match txns, hints with
  | txn :: txns', hint :: hints' =>
      let r := run_on σ (execute_transaction txn i false hint) in
      r :: in_order (S i) txns' hints' (apply_output r σ)
  | _, _ => []
  end.

(** A delta fits where it is applied: it is well formed, has the limit of its
    aggregator, and applies to the aggregator's value. *)
Definition fits (lim : Z) (d : DeltaOp) (x : answer) : Prop :=
  wf_delta d ∧ limit d = lim ∧
  ∃ bs z z', x = Ok (Some bs) ∧ bcs_from_bytes bs = Some z ∧ apply_to d z = Ok z'.

(** All deltas of the reference run fit. *)
Fixpoint deltas_fit (lim : K → Z) (i : TxnIndex) (txns : list Txn) (hints : list (bool * bool))
    (σ : K → answer) : Prop :=
  match txns, hints with
  | txn :: txns', hint :: hints' =>
      let r := run_on σ (execute_transaction txn i false hint) in
      (∀ k d, output_cells 0 r !! k = Some (Delta (V := V) d) → fits (lim k) d (σ k)) ∧
      deltas_fit lim (S i) txns' hints' (apply_output r σ)
  | _, _ => True
  end.

(** ** The value a list of entries stands for *)

Abbreviation entries := (list (TxnIndex * Entry V)) (only parsing).

Definition value_of (x : answer) (es : entries) : answer := foldl (λ x e, cell_on (cell e.2) x) x es.

Fixpoint fit (lim : Z) (x : answer) (es : entries) : Prop :=
  match es with
  | [] => True
  | (_, e) :: es' => (∀ d, cell e = Delta d → fits lim d x) ∧ fit lim (cell_on (cell e) x) es'
  end.

Definition all_done (es : entries) : Prop := Forall (λ e, flag e.2 = FLAG_DONE) es.

Lemma fit_app lim x es1 es2 : fit lim x (es1 ++ es2) ↔ fit lim x es1 ∧ fit lim (value_of x es1) es2.
Proof.
  revert x. induction es1 as [|[j e] es1 IH]; intros x; simpl; [naive_solver|]. rewrite IH. naive_solver.
Qed.

Lemma value_of_app x es1 es2 : value_of x (es1 ++ es2) = value_of (value_of x es1) es2.
Proof. apply foldl_app. Qed.

Lemma value_of_cons x e es : value_of x (e :: es) = value_of (cell_on (cell e.2) x) es.
Proof. done. Qed.

(** Finished entries are deltas above a write, or only deltas. *)
Lemma split_last_write es : all_done es →
  (∃ ds, delta_run es ds) ∨
  (∃ pre j inc v post ds, es = pre ++ (j, mkEntry FLAG_DONE (Write inc v)) :: post ∧ delta_run post ds).
Proof.
  induction es as [|[j [f c]] es IH]; intros Hd; [left; exists []; constructor|].
  apply Forall_cons in Hd as [Hf Hd]. simpl in Hf. subst f.
  destruct (IH Hd) as [(ds & Hr)|(pre & j' & inc & v & post & ds & -> & Hr)].
  - destruct c as [inc v|d]; [right; by exists [], j, inc, v, es, ds|left].
    exists (d :: ds). by constructor.
  - right. by exists ((j, mkEntry FLAG_DONE c) :: pre), j', inc, v, post, ds.
Qed.

(** A run of deltas that fit. *)
Lemma delta_run_value lim x es ds : delta_run es ds → fit lim x es → es ≠ [] →
  same_limit lim ds ∧
  ∃ bs z z', x = Ok (Some bs) ∧ bcs_from_bytes bs = Some z ∧ apply_seq ds z = Ok z' ∧
    value_of x es = Ok (Some (serialize z')).
Proof.
  intros Hr. revert x. induction Hr as [|[j e] d es ds [Hf Hc] Hr IH]; intros x Hfit Hne; [done|].
  simpl in *. destruct Hfit as [Hfd Hfit]. destruct (Hfd d Hc) as (Hwf & Hlim & bs & z & z' & -> & Hbs & Ha).
  rewrite Hc /= Hbs Ha /= in Hfit |- *. destruct es as [|e' es].
  - apply Forall2_nil_inv_l in Hr as ->. split; [by constructor|]. exists bs, z, z'. by rewrite Ha.
  - destruct (IH _ Hfit) as (Hsl & bs' & z1 & z2 & [= <-] & Hbs' & Hseq & Hv); [done|].
    rewrite /serialize bcs_roundtrip in Hbs'.
    { apply apply_to_range in Ha; [|done]. destruct Hwf as (_ & _ & [? ?] & _). split; lia. }
    injection Hbs' as <-. split; [by constructor|]. exists bs, z, z2. by rewrite Ha /=.
Qed.

(** Reading through a run of deltas accumulates them. *)
Lemma read_loop_run post ds ds0 acc0 (rest : entries) : delta_run post ds → acc_ok ds0 acc0 →
  ∃ acc, read_loop (reverse post ++ rest) acc0 = read_loop rest acc ∧ acc_ok (ds ++ ds0) acc.
Proof.
  revert ds ds0 acc0. induction post as [|[j e] post IH] using rev_ind; intros ds ds0 acc0 Hr Hacc.
  { apply Forall2_nil_inv_l in Hr as ->. by exists acc0. }
  apply Forall2_app_inv_l in Hr as (ds1 & ds2 & Hr & He & ->).
  apply Forall2_cons_inv_l in He as (d & ds3 & [Hf Hc] & Hnil & ->).
  apply Forall2_nil_inv_l in Hnil as ->. simpl in *.
  destruct (IH ds1 (d :: ds0) _ Hr (acc_ok_step ds0 acc0 d Hacc)) as (acc & Hacc1 & Hacc2).
  exists acc. rewrite reverse_snoc /= -assoc. split; [|done]. rewrite -Hacc1.
  destruct (Nat.eqb_spec (flag e) FLAG_ESTIMATE); [done|]. rewrite Hc. by destruct acc0.
Qed.

Lemma acc_ok_nil acc : acc_ok [] acc → acc = None.
Proof. destruct acc; [|done]. intros (newest & older & Heq & _). by destruct (reverse older). Qed.

Definition view_result (key : K) (r : result MVHashMapError (MVHashMapOutput V)) :
    TxnIndex + ReadResult V * ReadDescriptor K :=
  match r with
  | Ok (VersionOutput (idx, incarnation) v) => inr (Value v, from_version key idx incarnation)
  | Ok (Resolved value) => inr (U128 value, from_resolved key value)
  | Err NotFound => inr (Nothing, from_storage key)
  | Err (Unresolved delta) => inr (UnresolvedDelta delta, from_unresolved key delta)
  | Err (Dependency dep_idx) => inl dep_idx
  | Err DeltaApplicationFailure => inr (U128 0, from_delta_application_failure key)
  end.

(** The view reads the value of the entries below it. *)
Lemma read_value lim key (es : entries) : all_done es → fit lim (base_view key) es →
  ∃ r res d, read_loop (reverse es) None = Ret r ∧ view_result key r = inr (res, d) ∧
    mv_state_value base_view storage_error into_vm_status key res = Ret (value_of (base_view key) es).
Proof.
  intros Hd Hfit. destruct (split_last_write es Hd) as [(ds & Hr)|(pre & j & inc & v & post & ds & -> & Hr)].
  - destruct (read_loop_run es ds [] None [] Hr eq_refl) as (acc & Hacc & Hok).
    rewrite !app_nil_r in Hacc Hok. rewrite Hacc. destruct es as [|e es].
    { apply Forall2_nil_inv_l in Hr as ->. apply acc_ok_nil in Hok as ->. by eexists _, _, _. }
    destruct (delta_run_value _ _ _ _ Hr Hfit) as (Hsl & bs & z & z' & Hb & Hbs & Hseq & ->); [done|].
    destruct acc as [r|]; [|simpl in Hok; subst ds; by apply Forall2_nil_inv_r in Hr].
    destruct (acc_ok_agrees lim ds r z Hsl Hok) as [_ Hag]. rewrite Hseq in Hag.
    destruct r as [a|]; simpl in Hag; [|done]. eexists _, _, _. split_and!; [done..|].
    simpl. rewrite Hb /deserialize Hbs /=. by destruct (apply_to a z); simplify_eq/=.
  - rewrite reverse_app reverse_cons -assoc.
    destruct (read_loop_run post ds [] None ([(j, mkEntry FLAG_DONE (Write inc v))] ++ reverse pre) Hr eq_refl)
      as (acc & -> & Hok). rewrite app_nil_r in Hok. apply fit_app in Hfit as [_ [_ Hfit]].
    rewrite value_of_app value_of_cons. cbn [snd]. destruct post as [|e post].
    { apply Forall2_nil_inv_l in Hr as ->. apply acc_ok_nil in Hok as ->. by eexists _, _, _. }
    destruct (delta_run_value _ _ _ _ Hr Hfit) as (Hsl & bs & z & z' & Hb & Hbs & Hseq & ->); [done|].
    destruct acc as [r|]; [|simpl in Hok; subst ds; by apply Forall2_nil_inv_r in Hr].
    destruct (acc_ok_agrees lim ds r z Hsl Hok) as [_ Hag]. rewrite Hseq in Hag.
    simpl in Hb. injection Hb as Hb. rewrite /= /from_write Hb /deserialize Hbs /=.
    destruct r as [a|]; simpl in Hag; [|done].
    destruct (apply_to a z) as [y|] eqn:Ha; simpl in Hag; [subst y|done]. simpl. rewrite Ha. by eexists _, _, _.
Qed.

(** ** Running against the map *)

(** Transaction [i] reads the state [σ] from the map. *)
Definition reads_state (mv : MV) (i : TxnIndex) (σ : K → answer) : Prop :=
  ∀ k, ∃ res d, view_read mv k i = Ret (inr (res, d)) ∧
    mv_state_value base_view storage_error into_vm_status k res = Ret (σ k).

Lemma run_mv_run_on mv i σ p r ds :
  reads_state mv i σ → run_mv base_view storage_error into_vm_status mv i p = Ret (inr (r, ds)) →
  run_on σ p = r.
Proof.
  intros Hσ. revert r ds. induction p as [s|key next IH]; intros r ds; simpl; [by intros [= -> _]|].
  destruct (Hσ key) as (res & d & -> & Hv). simpl. rewrite Hv /=.
  destruct (run_mv _ _ _ mv i (next (σ key))) as [[dep|[r' ds']]|] eqn:Hrun; simpl; try done.
  intros [= -> _]. by eapply IH.
Qed.

(** The entries below [i] fit and make up the state [σ]. *)
Definition prefix_state (lim : K → Z) (mv : MV) (i : TxnIndex) (σ : K → answer) : Prop :=
  ∀ k, all_done (visible mv k i) ∧ fit (lim k) (base_view k) (visible mv k i) ∧
    value_of (base_view k) (visible mv k i) = σ k.

Lemma prefix_reads lim mv i σ : prefix_state lim mv i σ → reads_state mv i σ.
Proof.
  intros Hp k. destruct (Hp k) as (Hd & Hf & <-).
  destruct (read_value _ _ _ Hd Hf) as (r & res & d & Hr & Hv & Hval). exists res, d.
  split; [|done]. rewrite /view_read read_visible Hr /=. f_equal. exact Hv.
Qed.

Lemma visible_0 (mv : MV) k : visible mv k 0 = [].
Proof. apply elem_of_nil_inv. intros [j e]. rewrite visible_spec. lia. Qed.

Lemma visible_S (mv : MV) k i :
  visible mv k (S i) = visible mv k i ++ match entry_at mv k i with Some e => [(i, e)] | None => [] end.
Proof.
  apply ascending_ext; [apply visible_ascending|..].
  - apply StronglySorted_app. split_and!; [|apply visible_ascending|by case_match; repeat constructor].
    intros [j e] y Hj Hy. apply visible_spec in Hj as [Hj _].
    destruct (entry_at mv k i); [|by apply elem_of_nil in Hy]. by apply list_elem_of_singleton in Hy as ->.
  - intros [j e]. rewrite elem_of_app !visible_spec. destruct (decide (j = i)) as [->|Hne].
    + split; [intros [_ ->]; right; constructor|]. intros [[? ?]|Hin]; [lia|].
      destruct (entry_at mv k i); [|by apply elem_of_nil in Hin].
      apply list_elem_of_singleton in Hin. simplify_eq. split; [lia|done].
    + split; [intros [? ?]; left; split; [lia|done]|]. intros [[? ?]|Hin]; [split; [lia|done]|].
      destruct (entry_at mv k i); [|by apply elem_of_nil in Hin].
      apply list_elem_of_singleton in Hin. naive_solver.
Qed.

(** The incarnation of a write does not matter for its value. *)
Definition strip (c : EntryCell V) : EntryCell V :=
  match c with Write _ v => Write 0 v | Delta d => Delta d end.

Lemma strip_add_writes inc (ws : list (K * V)) m : strip <$> add_writes inc ws m = add_writes 0 ws (strip <$> m).
Proof. revert m. induction ws as [|[k v] ws IH]; intros m; [done|]. by rewrite /= IH fmap_insert. Qed.

Lemma strip_add_deltas (ds : list (K * DeltaOp)) m : strip <$> add_deltas ds m = add_deltas ds (strip <$> m).
Proof. revert m. induction ds as [|[k d] ds IH]; intros m; [done|]. by rewrite /= IH fmap_insert. Qed.

Lemma strip_output_cells inc (r : Outcome) k : strip <$> output_cells inc r !! k = output_cells 0 r !! k.
Proof. by rewrite -lookup_fmap /output_cells strip_add_deltas strip_add_writes fmap_empty. Qed.

Lemma cell_on_strip c x : cell_on (strip c) x = cell_on c x.
Proof. by destruct c. Qed.

Lemma prefix_step lim mv i inc r σ :
  prefix_state lim mv i σ → (∀ k, entry_at mv k i = mkEntry FLAG_DONE <$> output_cells inc r !! k) →
  (∀ k d, output_cells 0 r !! k = Some (Delta d) → fits (lim k) d (σ k)) →
  prefix_state lim mv (S i) (apply_output r σ).
Proof.
  intros Hp Hcells Hfit k. destruct (Hp k) as (Hd & Hf & Hv). rewrite visible_S Hcells.
  rewrite /apply_output. specialize (Hfit k). rewrite -(strip_output_cells inc) in Hfit |- *.
  destruct (output_cells inc r !! k) as [c|]; simpl in *; [|by rewrite app_nil_r].
  rewrite /all_done Forall_app fit_app value_of_app Hv /= cell_on_strip.
  split_and!; [done|by repeat constructor|done| |done|done].
  intros d ->. by apply Hfit.
Qed.

Lemma prefix_0 lim mv : prefix_state lim mv 0 base_view.
Proof. intros k. rewrite visible_0. split_and!; [constructor|done|done]. Qed.

(** ** The theorem *)

Context (block : list Txn).

Lemma in_order_suffix lim mv (hints : list (bool * bool)) (rs : list Outcome) :
  length hints = length block → length rs = length block →
  (∀ i txn hint r, block !! i = Some txn → hints !! i = Some hint → rs !! i = Some r →
    ∃ inc ds, run_mv base_view storage_error into_vm_status mv i (execute_transaction txn i false hint) =
        Ret (inr (r, ds)) ∧
      ∀ k, entry_at mv k i = mkEntry FLAG_DONE <$> output_cells inc r !! k) →
  ∀ m i σ, i + m = length block → prefix_state lim mv i σ →
    deltas_fit lim i (drop i block) (drop i hints) σ →
    in_order i (drop i block) (drop i hints) σ = drop i rs.
Proof.
  intros Hlh Hlr Hrun m. induction m as [|m IH]; intros i σ Hi Hp Hfit.
  { rewrite !drop_ge //; lia. }
  destruct (lookup_lt_is_Some_2 block i) as [txn Htxn]; [lia|].
  destruct (lookup_lt_is_Some_2 hints i) as [hint Hhint]; [lia|].
  destruct (lookup_lt_is_Some_2 rs i) as [r Hr]; [lia|].
  rewrite (drop_S _ _ _ Htxn) (drop_S _ _ _ Hhint) in Hfit |- *. rewrite (drop_S _ _ _ Hr).
  destruct (Hrun i txn hint r) as (inc & ds & Hmv & Hcells); [done..|].
  eapply run_mv_run_on in Hmv; [|by eapply prefix_reads]. simpl in *. rewrite Hmv in Hfit |- *.
  destruct Hfit as [Hf Hfit]. f_equal. apply IH; [lia|by eapply prefix_step|done].
Qed.

Lemma choose_list {A} (P : nat → A → Prop) n :
  (∀ i, i < n → ∃ y, P i y) → ∃ l, length l = n ∧ ∀ i y, l !! i = Some y → P i y.
Proof.
  induction n as [|n IH]; intros Hall; [by exists []|].
  destruct IH as (l & Hl & HP); [intros i Hi; apply Hall; lia|]. destruct (Hall n) as [y Hy]; [lia|].
  exists (l ++ [y]). rewrite length_app /= Hl. split; [lia|]. intros i z Hz.
  apply lookup_app_Some in Hz as [?|[? Hz]]; [by apply HP|].
  apply list_lookup_singleton_Some in Hz as [? <-]. by replace i with n by lia.
Qed.

Lemma mach_outputs_length threads deps gas m (x : Machine) :
  mach_reachable base_view storage_error into_vm_status block threads deps gas m x →
  length (outputs (m_lio x)) = length block.
Proof.
  intros (_ & s & _ & Hr). apply (rtc_invariant _ (λ x : Machine, length (outputs (m_lio x)) = length block)) in Hr;
    [done| |by rewrite /= length_replicate].
  intros y z Hy Hstep. destruct Hstep; simpl in *; try done.
  match goal with Hrec : record _ _ _ _ = Ret _ |- _ => apply record_spec in Hrec as (_ & _ & _ & ->) end.
  by rewrite length_insert.
Qed.

Lemma committed_in_order lim threads deps gas m (x : Machine) :
  mach_reachable base_view storage_error into_vm_status block threads deps gas m x →
  (commit_state (m_sys x)).1 = length block →
  (∀ hints, length hints = length block → deltas_fit lim 0 block hints base_view) →
  ∃ hints, length hints = length block ∧
    outputs (m_lio x) = (λ r, Some (recorded r)) <$> in_order 0 block hints base_view.
Proof.
  intros Hreach Hall Hfit. pose proof (mach_outputs_length _ _ _ _ _ Hreach) as Hlen.
  apply mach_reachable_inv in Hreach as Hinv. destruct Hinv as (a & h & Hs & Hinv & Hd).
  destruct (choose_list (λ i (y : Outcome * (bool * bool)), ∀ txn, block !! i = Some txn →
      outputs (m_lio x) !! i = Some (Some (recorded y.1)) ∧
      ∃ inc ds, run_mv base_view storage_error into_vm_status (m_mv x) i
          (execute_transaction txn i false y.2) = Ret (inr (y.1, ds)) ∧
        ∀ k, entry_at (m_mv x) k i = mkEntry FLAG_DONE <$> output_cells inc y.1 !! k) (length block))
    as (ys & Hys & HP).
  { intros i Hi. destruct (com_prefix _ _ _ (inv_commit _ Hinv) i) as [inc Hst].
    { by rewrite -(sim_commit _ _ Hs) Hall. }
    rewrite -(sim_status _ _ Hs) in Hst.
    destruct (committed_run base_view storage_error into_vm_status block x i inc)
      as (r & txn & hint & reads & Hb & Ho & Hr & Hc); [by exists a, h|done|].
    exists (r, hint). intros txn' Htxn'. simplify_eq. split; [done|]. by exists inc, reads. }
  exists ys.*2. rewrite length_fmap. split; [done|].
  pose proof (in_order_suffix lim (m_mv x) ys.*2 ys.*1) as Hsuf. rewrite !length_fmap in Hsuf.
  specialize (Hsuf Hys Hys). rewrite -(drop_0 block) -(drop_0 ys.*2) (Hsuf _ (length block) 0).
  - intros i txn hint r Hb Hh Hr. apply list_lookup_fmap_Some in Hh as (y & -> & Hy).
    apply list_lookup_fmap_Some in Hr as (y' & -> & Hy'). simplify_eq. by apply (HP i y Hy txn).
  - done.
  - apply prefix_0.
  - rewrite !drop_0. apply Hfit. by rewrite length_fmap.
  - rewrite drop_0. apply list_eq. intros i. rewrite !list_lookup_fmap.
    destruct (ys !! i) as [y|] eqn:Hy; simpl; [|rewrite lookup_ge_None_2 //; apply lookup_ge_None in Hy; lia].
    destruct (lookup_lt_is_Some_2 block i) as [txn Htxn]; [apply lookup_lt_Some in Hy; lia|].
    by apply (HP i y Hy txn).
Qed.

(** ** Agreement with the sequential executor *)

(** Outputs without deltas, and a virtual machine whose programs depend neither on the
    delta flag nor on the prologue hint. *)
Definition delta_free : Prop := ∀ o : T, get_deltas o = [].
Definition plain_vm : Prop := ∀ (txn : Txn) i hint,
  execute_transaction txn i false hint = execute_transaction txn i true (false, true).

Lemma run_on_ext σ σ' p : (∀ k, σ k = σ' k) → run_on σ p = run_on σ' p.
Proof. intros Heq. induction p as [r|key next IH]; simpl; [done|]. by rewrite Heq. Qed.

Lemma run_btree_run_on data_map p : run_btree base_view data_map p = run_on (btree_state_value base_view data_map) p.
Proof. induction p as [r|key next IH]; simpl; [done|]. apply IH. Qed.

(** Without deltas, the map of the sequential executor holds the state. *)
Lemma insert_writes_state (o : T) (data_map : gmap K V) k :
  get_deltas o = [] →
  btree_state_value base_view (insert_writes (get_writes o) data_map) k =
  apply_output (ExecutionStatus.Success o) (btree_state_value base_view data_map) k.
Proof.
  intros Hd. rewrite /apply_output /output_cells /= Hd /=. rewrite /btree_state_value.
  assert (∀ ws (m : gmap K V) (c : gmap K (EntryCell V)),
    (∀ k, match c !! k with Some c => ∃ v, m !! k = Some v ∧ c = Write 0 v | None => m !! k = data_map !! k end) →
    ∀ k, match add_writes 0 ws c !! k with
         | Some c => ∃ v, insert_writes ws m !! k = Some v ∧ c = Write 0 v
         | None => insert_writes ws m !! k = data_map !! k end) as Hgen.
  { intros ws. induction ws as [|[k' v] ws IH]; intros m c Hc; simpl; [done|]. apply IH.
    intros k''. rewrite !lookup_insert. case_decide; [by eexists|apply Hc]. }
  assert (Hk := Hgen (get_writes o) data_map ∅). specialize (λ H, Hk H k) as Hk'.
  destruct (add_writes 0 _ _ !! k); [|by rewrite Hk'].
  destruct Hk' as (v & -> & ->); [|done]. intros k'. by rewrite lookup_empty.
Qed.

Lemma sequential_loop_in_order txns i hints σ outs data_map ret :
  delta_free →
  plain_vm →
  length hints = length txns → (∀ k, σ k = btree_state_value base_view data_map k) →
  in_order i txns hints σ = ExecutionStatus.Success <$> outs →
  sequential_loop base_view txns i data_map ret = Ret (Ok (ret ++ outs)).
Proof.
  intros Hd Hvm. revert i hints σ outs data_map ret.
  induction txns as [|txn txns IH]; intros i [|hint hints] σ outs data_map ret Hl Hσ Ho; try done.
  { destruct outs; [|done]. by rewrite /= app_nil_r. }
  simpl in *. destruct outs as [|o outs]; [done|]. injection Ho as Ho Hrest.
  rewrite Hvm in Ho Hrest. rewrite run_btree_run_on -(run_on_ext σ) // Ho Hd /=.
  rewrite Nat.add_1_r (IH _ hints (apply_output (ExecutionStatus.Success o) σ) outs).
  - lia.
  - intros k. rewrite insert_writes_state; [done|]. rewrite /apply_output. by rewrite Hσ.
  - by rewrite Ho in Hrest.
  - by rewrite -assoc.
Qed.

(** When outputs carry no deltas, none are ever in the map. *)
Definition no_delta_work (w : @work K V VErr T E _ _) : Prop :=
  match w with WApply _ ds _ _ _ => ds = [] | _ => True end.

Lemma add_write_keys (mv mv' : MV) k version v : add_write mv k version v = Ret mv' → delta_keys mv' = delta_keys mv.
Proof. destruct version. rewrite /add_write => Hr. returned Hr. by injection Hr as <-. Qed.
Lemma mv_delete_keys (mv mv' : MV) k i : mv_delete mv k i = Ret mv' → delta_keys mv' = delta_keys mv.
Proof. rewrite /mv_delete => Hr. returned Hr. by injection Hr as <-. Qed.
Lemma mark_estimate_keys (mv mv' : MV) k i : mark_estimate mv k i = Ret mv' → delta_keys mv' = delta_keys mv.
Proof. rewrite /mark_estimate => Hr. returned Hr. by injection Hr as <-. Qed.

Lemma mach_no_deltas threads deps gas m (x : Machine) :
  delta_free →
  mach_reachable base_view storage_error into_vm_status block threads deps gas m x →
  delta_keys (m_mv x) = [].
Proof.
  intros Hd (_ & s & _ & Hr).
  apply (rtc_invariant _ (λ x : Machine, delta_keys (m_mv x) = [] ∧ Forall no_delta_work (m_work x))) in Hr;
    [by destruct Hr| |split; [done|by apply Forall_replicate]].
  intros y z [Hk Hw] Hstep. destruct Hstep; cbn [m_mv m_work] in *; try done;
    try (split; [done|by apply Forall_insert]).
  - split; [done|]. apply Forall_insert; [done|]. destruct r; simpl; [apply Hd|done|apply Hd].
  - split; [by erewrite add_write_keys|]. apply Forall_insert; [done|].
    match goal with Ht : ws !! t = Some _ |- _ => by eapply (Forall_lookup_1 _ _ _ _ Hw) in Ht end.
  - match goal with Ht : ws !! t = Some _ |- _ => by eapply (Forall_lookup_1 _ _ _ _ Hw) in Ht end.
  - split; [by erewrite mv_delete_keys|]. by apply Forall_insert.
  - split; [done|]. apply Forall_insert; [done|]. by case_match.
  - split; [by erewrite mark_estimate_keys|]. by apply Forall_insert.
Qed.

Lemma no_deltas_fit lim i txns hints σ : delta_free → deltas_fit lim i txns hints σ.
Proof.
  intros Hd. revert i hints σ. induction txns as [|txn txns IH]; intros i [|hint hints] σ; try done.
  simpl. split; [|apply IH]. intros k d. set (r := run_on _ _).
  assert (deltas_of r = []) as Hr by (destruct r; simpl; auto). rewrite /output_cells Hr /=.
  assert (∀ ws (c : gmap K (EntryCell V)), (∀ k d, c !! k ≠ Some (Delta d)) →
    ∀ k d, add_writes 0 ws c !! k ≠ Some (Delta d)) as Hgen.
  { intros ws. induction ws as [|[k' v] ws IHw]; intros c Hc; simpl; [done|]. apply IHw.
    intros k0 d0. rewrite lookup_insert. by case_decide. }
  intros Hk. exfalso. eapply Hgen; [|exact Hk]. intros k0 d0. by rewrite lookup_empty.
Qed.

End in_order.
