(* ===== verification/ParallelExample.v ===== *)
(** * A parallel run

    An executable scheduler for the machine of [ParallelExecutor.v], and a block that
    it runs with a conflict: the second transaction is executed before the first one
    has written, fails its validation and is executed again. *)
From S2P Require Import Prelude DeltaOp WriteSet MVHashMap LastInputOutput Scheduler CommitProtocol SchedulerSafety View BlockExecutor ParallelExecutor Serializability InOrder.
Local Open Scope nat_scope.

Section runner.
Context {Txn K V VErr T E AccessPath : Type}.
Context `{Countable K, Countable AccessPath, TransactionWrite V, BcsU128}.
Context `{!ModulePath K AccessPath, !TransactionOutputTrait T K V, !ExecutorTask Txn K VErr T E}.
Context (base_view : K → result VErr (option bytes)).
Context (storage_error : VErr) (into_vm_status : PartialVMError → VErr).
Context (block : list Txn).
Abbreviation Machine := (@machine K V VErr T E AccessPath _ _ _ _) (only parsing).

(** The next step of thread [t] inside [execute]. *)
Definition do_execute (t : nat) (i : TxnIndex) (inc : Incarnation) (x : Machine) : option Machine :=
  let '(mkMachine s mv lio ws) := x in
  match ws !! t with
  | Some WNone =>
      match block !! i with
      | Some txn => Some (mkMachine s mv lio (<[t := WRun (execute_transaction txn i false (false, true)) []]> ws))
      | None => None
      end
  | Some (WRun (ReadState key next) reads) =>
      match view_read mv key i with
      | Ret (inr (res, desc)) =>
          match mv_state_value base_view storage_error into_vm_status key res with
          | Ret v => Some (mkMachine s mv lio (<[t := WRun (next v) (reads ++ [desc])]> ws))
          | Panic => None
          end
      | Ret (inl dep) => (λ s', mkMachine s' mv lio ws) <$> do_action (DoWait t dep) s
      | Panic => None
      end
  | Some (WRun (Finish r) reads) =>
      match modified_keys lio i with
      | Ret prev => Some (mkMachine s mv lio
          (<[t := WApply (writes_of r) (deltas_of r) prev (recorded r) reads]> ws))
      | Panic => None
      end
  | Some (WApply ((k, v) :: writes) deltas prev result reads) =>
      match add_write mv k (i, inc) v with
      | Ret mv' => Some (mkMachine s mv' lio (<[t := WApply writes deltas (prev ∖ {[k]}) result reads]> ws))
      | Panic => None
      end
  | Some (WApply [] ((k, d) :: deltas) prev result reads) =>
      Some (mkMachine s (add_delta mv k i d) lio (<[t := WApply [] deltas (prev ∖ {[k]}) result reads]> ws))
  | Some (WApply [] [] prev result reads) =>
      Some (mkMachine s mv lio (<[t := WDelete (elements (prev : gset K)) result reads]> ws))
  | Some (WDelete (k :: keys) result reads) =>
      match mv_delete mv k i with
      | Ret mv' => Some (mkMachine s mv' lio (<[t := WDelete keys result reads]> ws))
      | Panic => None
      end
  | Some (WDelete [] result reads) =>
      match record lio i reads result with
      | Ret lio' => Some (mkMachine s mv lio' (<[t := WRecorded]> ws))
      | Panic => None
      end
  | Some WRecorded => (λ s', mkMachine s' mv lio (<[t := WNone]> ws)) <$> do_action (DoExecuted t) s
  | _ => None
  end.

(** The next step of thread [t] inside [validate]. *)
Definition do_validate (t : nat) (i : TxnIndex) (x : Machine) : option Machine :=
  let '(mkMachine s mv lio ws) := x in
  match ws !! t with
  | Some WNone =>
      match read_set lio i with
      | Ret (Some reads) => Some (mkMachine s mv lio (<[t := WCheck reads]> ws))
      | _ => None
      end
  | Some (WCheck (r :: rest)) =>
      match validate_read mv i r with
      | Ret b => Some (mkMachine s mv lio (<[t := if b : bool then WCheck rest else WInvalid]> ws))
      | Panic => None
      end
  | Some (WCheck []) => (λ s', mkMachine s' mv lio (<[t := WNone]> ws)) <$> do_action (DoValid t) s
  | Some WInvalid => (λ s', mkMachine s' mv lio (<[t := WNone]> ws)) <$> do_action (DoInvalid t) s
  | _ => None
  end.

Definition do_abort (t : nat) (i : TxnIndex) (x : Machine) : option Machine :=
  let '(mkMachine s mv lio ws) := x in
  match ws !! t with
  | Some WNone =>
      match modified_keys lio i with
      | Ret prev => Some (mkMachine s mv lio (<[t := WMark (elements (prev : gset K))]> ws))
      | Panic => None
      end
  | Some (WMark (k :: keys)) =>
      match mark_estimate mv k i with
      | Ret mv' => Some (mkMachine s mv' lio (<[t := WMark keys]> ws))
      | Panic => None
      end
  | Some (WMark []) => (λ s', mkMachine s' mv lio (<[t := WNone]> ws)) <$> do_action (DoAborted t) s
  | _ => None
  end.

(** A scheduler call of a thread without work, or the next step of thread [t]. *)
Inductive move : Type :=
  | Call (act : action)
  | Work (t : nat).

Definition do_move (mo : move) (x : Machine) : option Machine :=
  match mo with
  | Call act =>
      match action_event act with
      | Quiet => (λ s', mkMachine s' (m_mv x) (m_lio x) (m_work x)) <$> do_action act (m_sys x)
      | _ => None
      end
  | Work t =>
      match workers (m_sys x) !! t with
      | Some (Holding (ExecutionTask (i, inc) None), _) => do_execute t i inc x
      | Some (Holding (ValidationTask (i, _) _), _) => do_validate t i x
      | Some (Rejected (i, _), _) => do_abort t i x
      | _ => None
      end
  end.

Fixpoint do_moves (mos : list move) (x : Machine) : option Machine :=
  match mos with
  | [] => Some x
  | mo :: mos' => y ← do_move mo x; do_moves mos' y
  end.

Abbreviation step := (mach_step base_view storage_error into_vm_status block) (only parsing).

Lemma do_execute_step t i inc x y :
  executing (m_sys x) t (i, inc) → do_execute t i inc x = Some y → step x y.
Proof.
  destruct x as [s mv lio ws]. intros He. rewrite /do_execute.
  destruct (ws !! t) as [w|] eqn:Hw; [|done].
  destruct w as [|[r|key next] reads|[|[k v] writes] [|[k' d] deltas] prev result reads|[|k keys] result reads| | | |];
    simpl in He |- *; intros Hy; try done.
  - destruct (block !! i) eqn:?; simplify_eq. by eapply mach_start.
  - destruct (modified_keys lio i) eqn:?; simplify_eq. by eapply mach_output.
  - destruct (view_read mv key i) as [[dep|[res desc]]|] eqn:?; [|destruct (mv_state_value _ _ _ _ _) eqn:?|]; simplify_eq.
    + apply fmap_Some in Hy as (s' & Hs & ->). by eapply mach_wait; [..|by apply (do_action_act (DoWait t dep))].
    + by eapply mach_read.
  - simplify_eq. by eapply mach_applied.
  - simplify_eq. by eapply mach_delta.
  - destruct (add_write mv k (i, inc) v) eqn:Ha; rewrite /= in Ha; rewrite Ha in Hy; simplify_eq. by eapply mach_write.
  - destruct (add_write mv k (i, inc) v) eqn:Ha; rewrite /= in Ha; rewrite Ha in Hy; simplify_eq. by eapply mach_write.
  - destruct (record lio i reads result) eqn:?; simplify_eq. by eapply mach_record.
  - destruct (mv_delete mv k i) eqn:?; simplify_eq. by eapply mach_delete.
  - apply fmap_Some in Hy as (s' & Hs & ->). by eapply mach_finished; [|by apply (do_action_act (DoExecuted t))].
Qed.

Lemma do_validate_step t i inc x y :
  validating (m_sys x) t (i, inc) → do_validate t i x = Some y → step x y.
Proof.
  destruct x as [s mv lio ws]. intros He. rewrite /do_validate.
  destruct (ws !! t) as [w|] eqn:Hw; [|done].
  destruct w as [| | | | |[|r rest]| |]; simpl in He |- *; intros Hy; try done.
  - destruct (read_set lio i) as [[reads|]|] eqn:?; simplify_eq. by eapply mach_load.
  - apply fmap_Some in Hy as (s' & Hs & ->). by eapply mach_accepted; [|by apply (do_action_act (DoValid t))].
  - destruct (validate_read mv i r) eqn:?; simplify_eq. by eapply mach_check.
  - apply fmap_Some in Hy as (s' & Hs & ->). by eapply mach_refused; [|by apply (do_action_act (DoInvalid t))].
Qed.

Lemma do_abort_step t i inc x y :
  aborting (m_sys x) t (i, inc) → do_abort t i x = Some y → step x y.
Proof.
  destruct x as [s mv lio ws]. intros He. rewrite /do_abort.
  destruct (ws !! t) as [w|] eqn:Hw; [|done].
  destruct w as [| | | | | | |[|k keys]]; simpl in He |- *; intros Hy; try done.
  - destruct (modified_keys lio i) eqn:?; simplify_eq. by eapply mach_marking.
  - apply fmap_Some in Hy as (s' & Hs & ->). by eapply mach_undone; [|by apply (do_action_act (DoAborted t))].
  - destruct (mark_estimate mv k i) eqn:?; simplify_eq. by eapply mach_mark.
Qed.

Lemma do_move_step mo x y : do_move mo x = Some y → step x y.
Proof.
  destruct mo as [act|t]; simpl.
  - destruct (action_event act) eqn:He; try done. intros (s' & Hs & ->)%fmap_Some.
    destruct x as [s mv lio ws]. apply mach_quiet. rewrite -He. by apply do_action_act.
  - destruct (workers (m_sys x) !! t) as [[[task|[i inc]|] f]|] eqn:Hw; try done.
    + destruct task as [[i inc] [cv|]|[i inc] wave| | | |]; try done; intros Hy.
      * eapply do_execute_step; [by eexists|done].
      * eapply do_validate_step; [by eexists _, _|done].
    + intros Hy. eapply do_abort_step; [by eexists|done].
Qed.

Lemma do_moves_run mos x y : do_moves mos x = Some y → rtc step x y.
Proof.
  revert x. induction mos as [|mo mos IH]; simpl; intros x Hy; [by simplify_eq; apply rtc_refl|].
  apply bind_Some in Hy as (z & Hz & Hy). eapply rtc_l; [by eapply do_move_step|by apply IH].
Qed.

(** Runs the block with two threads and no dependency hints. *)
Definition run_block (mos : list move) : option Machine :=
  match Scheduler_new (length block) (replicate (length block) []) (replicate (length block) 10%Z) Standard with
  | Ret s => do_moves mos (mach_init block s 2)
  | Panic => None
  end.

Lemma run_block_reachable mos x :
  (Z.of_nat (length block) < 2 ^ 32)%Z → run_block mos = Some x →
  mach_reachable base_view storage_error into_vm_status block 2
    (replicate (length block) []) (replicate (length block) 10%Z) Standard x.
Proof.
  intros Hn. rewrite /run_block. destruct (Scheduler_new _ _ _ _) as [s|] eqn:Hs; [|done].
  intros Hr. split; [done|]. exists s. split; [done|]. by eapply do_moves_run.
Qed.
End runner.

(** ** A block with a conflict *)

Module Example.
#[local] Existing Instance LittleEndian.le_bcs.
#[local] Existing Instance LittleEndian.le_bcs_laws.

(** Outputs are writes and deltas; transactions are programs. *)
Definition output : Type := list (Z * WriteOp) * list (Z * DeltaOp).
Definition txn : Type := program Z unit (ExecutionStatus.t output unit).

#[global] Instance no_modules : ModulePath Z Z := { module_path _ := None }.
#[global] Instance output_trait : TransactionOutputTrait output Z WriteOp :=
  { get_writes := fst; get_deltas := snd; skip_output := ([], []) }.
#[global] Instance vm : ExecutorTask txn Z unit output unit := { execute_transaction p _ _ _ := p }.

(** Key 3 is an aggregator with value 10, nothing else is stored. *)
Definition base (k : Z) : result unit (option bytes) :=
  Ok (if (k =? 3)%Z then Some (serialize 10) else None).

(** The first transaction writes key 1 and adds 2 to the aggregator; the second
    copies key 1 to key 2 and subtracts 1 from the aggregator. *)
Definition first : txn :=
  ReadState 1%Z (λ _, Finish (ExecutionStatus.Success
    ([(1%Z, Creation [5%Z])], [(3%Z, delta_add 2 100)]))).
Definition second : txn :=
  ReadState 1%Z (λ r, Finish (ExecutionStatus.Success
    (match r with Ok (Some bs) => [(2%Z, Creation bs)] | _ => [] end, [(3%Z, delta_sub 1 100)]))).
Definition the_block : list txn := [first; second].

(** The second transaction runs first, on the old value of key 1; then the first one;
    both are validated, the second one is aborted, runs again and is committed.  The
    first transaction takes [steps] steps to execute. *)
Definition conflict (steps : nat) : list move :=
  [Call (DoNext 0); Call (DoNext 1)] ++ replicate 7 (Work 1) ++ replicate steps (Work 0) ++
  [Call (DoNext 0); Call (DoNext 1)] ++ replicate 3 (Work 0) ++ replicate 6 (Work 1) ++
  [Call (DoRecorded 0); Call DoCommit] ++ replicate 8 (Work 1) ++
  [Call (DoNext 0)] ++ replicate 3 (Work 0) ++ [Call (DoRecorded 0); Call DoCommit].

Abbreviation run_example mos := (run_block (V := WriteOp) (T := output) (E := unit) (AccessPath := Z) base tt (λ _, tt) the_block mos).

Lemma example_run_ends : ∃ x, run_example (conflict 8) = Some x ∧
  exec_status (sched (m_sys x)) = [Committed 0; Committed 1] ∧ commit_state (m_sys x) = (2, 1).
Proof. eexists. split; [vm_compute; reflexivity|]. by vm_compute. Qed.

Lemma limits_fit (hints : list (bool * bool)) :
  length hints = length the_block →
  deltas_fit (V := WriteOp) tt (λ _, tt) (λ _, 100%Z) 0 the_block hints base.
Proof.
  destruct hints as [|h0 [|h1 [|]]]; try done. intros _. cbn -[output_cells fits apply_output].
  assert (Hwf : wf_delta (delta_add 2 100) ∧ wf_delta (delta_sub 1 100)) by (rewrite /wf_delta /u128 /=; lia).
  split_and!; [| |done]; intros k d; cbn -[base fits]; rewrite !lookup_insert; repeat case_decide; simplify_eq;
    rewrite ?lookup_empty //; intros [= <-]; (split; [apply Hwf|]); (split; [reflexivity|]);
    eexists _, _, _; (split; [vm_compute; reflexivity|]); split; vm_compute; reflexivity.
Qed.
End Example.

Import Example.
#[local] Existing Instance LittleEndian.le_bcs.
#[local] Existing Instance LittleEndian.le_bcs_laws.


(** ** The same conflict without deltas *)

Module Plain.
Definition output : Type := list (Z * WriteOp).
Definition txn : Type := program Z unit (ExecutionStatus.t output unit).

#[global] Instance output_trait : TransactionOutputTrait output Z WriteOp :=
  { get_writes o := o; get_deltas _ := []; skip_output := [] }.
#[global] Instance vm : ExecutorTask txn Z unit output unit := { execute_transaction p _ _ _ := p }.

Definition first : txn := ReadState 1%Z (λ _, Finish (ExecutionStatus.Success [(1%Z, Creation [5%Z])])).
Definition second : txn :=
  ReadState 1%Z (λ r, Finish (ExecutionStatus.Success
    (match r with Ok (Some bs) => [(2%Z, Creation bs)] | _ => [(4%Z, Deletion)] end))).
Definition the_block : list txn := [first; second].
Definition outs : list output := [[(1%Z, Creation [5%Z])]; [(2%Z, Creation [5%Z])]].

Abbreviation run_plain mos := (run_block (V := WriteOp) (T := output) (E := unit) (AccessPath := Z) base tt (λ _, tt) the_block mos).

Lemma plain_run_ends : ∃ x, run_plain (conflict 7) = Some x ∧ commit_state (m_sys x) = (2, 1) ∧
  outputs (m_lio x) = (λ o, Some (success o)) <$> outs.
Proof. eexists. split; [vm_compute; reflexivity|]. by vm_compute. Qed.
End Plain.

