(* ===== verification/U64.v ===== *)
(** * Unsigned 64-bit integers

    The operations of Rust's [u64] that the Merkle accumulators use, on [Z] in
    [0, 2^64).  The workspace builds with [overflow-checks = true] in every profile
    (Cargo.toml), so [+] and [-] panic outside the range; a shift panics when its
    amount is 64 or more and silently drops the bits it moves out.  The lemmas
    compute bits of the results. *)
From S2P Require Import Prelude.
Local Open Scope Z_scope.

Definition u64_max : Z := 2 ^ 64 - 1.

(** [u64::BITS], the rounds after which a loop has shifted out every bit. *)
Definition u64_bits : nat := 64.

(** [a + b], [a - b]. *)
Definition u64_add (a b : Z) : comp Z := if a + b <=? u64_max then Ret (a + b) else Panic.
Definition u64_sub (a b : Z) : comp Z := if b <=? a then Ret (a - b) else Panic.

(** [a.checked_add(b)], [a.saturating_add(b)]. *)
Definition u64_checked_add (a b : Z) : option Z := if a + b <=? u64_max then Some (a + b) else None.
Definition u64_saturating_add (a b : Z) : Z := Z.min (a + b) u64_max.

(** [!a]. *)
Definition u64_not (a : Z) : Z := Z.lxor a u64_max.

(** [a << n], [a >> n]; the shift by one never panics. *)
Definition u64_shl (a n : Z) : comp Z := if n <? 64 then Ret (wrap 64 (Z.shiftl a n)) else Panic.
Definition u64_shr (a n : Z) : comp Z := if n <? 64 then Ret (Z.shiftr a n) else Panic.
Definition shl1 (a : Z) : Z := wrap 64 (Z.shiftl a 1).
Definition shr1 (a : Z) : Z := Z.shiftr a 1.

(** The first of [n] bits from [i] on that is set. *)
Fixpoint first_set (n : nat) (i a : Z) : Z :=
  match n with
  | O => i
  | S n' => if Z.testbit a i then i else first_set n' (i + 1) a
  end.

Definition trailing_zeros (a : Z) : Z := first_set 64 0 a.
Definition leading_zeros (a : Z) : Z := if a =? 0 then 64 else 63 - Z.log2 a.

(** [a.count_ones()]. *)
Fixpoint pos_ones (p : positive) : Z :=
  match p with
  | xH => 1
  | xO q => pos_ones q
  | xI q => pos_ones q + 1
  end.
Definition count_ones (a : Z) : Z := match a with Z.pos p => pos_ones p | _ => 0 end.

#[global] Arguments u64_add : simpl never.
#[global] Arguments u64_sub : simpl never.
#[global] Arguments u64_shl : simpl never.
#[global] Arguments u64_shr : simpl never.
#[global] Arguments trailing_zeros : simpl never.

(** ** Checked arithmetic *)
Lemma u64_add_Ret a b : a + b ≤ u64_max → u64_add a b = Ret (a + b).
Proof. intros H. unfold u64_add. by rw (proj2 (Z.leb_le _ _) H). Qed.

Lemma u64_sub_Ret a b : b ≤ a → u64_sub a b = Ret (a - b).
Proof. intros H. unfold u64_sub. by rw (proj2 (Z.leb_le _ _) H). Qed.

(** Runs checked additions and subtractions that are in range. *)
Ltac u64_run :=
  run;
  repeat (match goal with
          | |- context [u64_add ?a ?b] => rewrite (u64_add_Ret a b); [unfold u64_max in *; lia|]
          | |- context [u64_sub ?a ?b] => rewrite (u64_sub_Ret a b); [unfold u64_max in *; lia|]
          end; run).

Lemma u64_shl_Ret a n : n < 64 → u64_shl a n = Ret (wrap 64 (Z.shiftl a n)).
Proof. intros H. unfold u64_shl. by rw (proj2 (Z.ltb_lt _ _) H). Qed.

Lemma u64_shr_Ret a n : n < 64 → u64_shr a n = Ret (Z.shiftr a n).
Proof. intros H. unfold u64_shr. by rw (proj2 (Z.ltb_lt _ _) H). Qed.

Lemma wrap_small a : u64 a → wrap 64 a = a.
Proof. apply Z.mod_small. Qed.

(** ** Bits *)
Lemma pow2_pos n : 0 ≤ n → 0 < 2 ^ n.
Proof. intros. by apply Z.pow_pos_nonneg. Qed.

Lemma testbit_above a n i : 0 ≤ a < 2 ^ n → 0 ≤ n ≤ i → Z.testbit a i = false.
Proof. intros Ha Hn. rw -(Z.mod_small a (2 ^ n) Ha). by apply Z.mod_pow2_bits_high. Qed.

(** The bits of a number written as a high and a low part. *)
Lemma testbit_split a b n i :
  0 ≤ b < 2 ^ n → 0 ≤ n → 0 ≤ i →
  Z.testbit (a * 2 ^ n + b) i = if i <? n then Z.testbit b i else Z.testbit a (i - n).
Proof.
  intros Hb Hn Hi. pose proof (pow2_pos n Hn). destruct (Z.ltb_spec i n).
  - rewrite -(Z.mod_pow2_bits_low _ n) //. f_equal.
    rewrite Z.add_comm Z.mod_add; [lia|]. by apply Z.mod_small.
  - replace i with ((i - n) + n) at 1 by lia. rewrite -Z.div_pow2_bits; [lia|lia|].
    f_equal. rewrite Z.div_add_l; [lia|]. rewrite (Z.div_small b) //. lia.
Qed.

Lemma lor_split a b n : 0 ≤ b < 2 ^ n → 0 ≤ n → Z.lor (a * 2 ^ n) b = a * 2 ^ n + b.
Proof.
  intros Hb Hn. apply Z.bits_inj'; intros i Hi. pose proof (pow2_pos n Hn).
  rewrite Z.lor_spec testbit_split // -(Z.add_0_r (a * _)) testbit_split //.
  rewrite Z.bits_0. destruct (Z.ltb_spec i n); [done|].
  rewrite (testbit_above b n i) //. apply orb_false_r.
Qed.

Lemma testbit_not a i : 0 ≤ i → Z.testbit (u64_not a) i = xorb (Z.testbit a i) (i <? 64).
Proof.
  intros Hi. unfold u64_not, u64_max. rewrite Z.lxor_spec. f_equal.
  change (2 ^ 64 - 1) with (Z.ones 64). by rewrite Z.testbit_ones_nonneg.
Qed.

Lemma testbit_wrap a i : 0 ≤ i → Z.testbit (wrap 64 a) i = (i <? 64) && Z.testbit a i.
Proof.
  intros Hi. unfold wrap. destruct (Z.ltb_spec i 64).
  - by apply Z.mod_pow2_bits_low.
  - apply Z.mod_pow2_bits_high. lia.
Qed.

Lemma trailing_zeros_unique a k :
  0 ≤ k ≤ 64 → (∀ i, 0 ≤ i < k → Z.testbit a i = false) → (k < 64 → Z.testbit a k = true) →
  trailing_zeros a = k.
Proof.
  unfold trailing_zeros. intros Hk Hlow Hset.
  assert (∀ n i, 0 ≤ i ≤ k → i + Z.of_nat n = 64 → first_set n i a = k) as Hgen.
  { induction n as [|n IH]; intros i Hi Hn; simpl; [lia|].
    destruct (decide (i = k)) as [->|Hne]; [by rewrite Hset; [lia|]|].
    rewrite Hlow; [lia|]. apply IH; lia. }
  apply Hgen; lia.
Qed.

(** ** Counting bits *)
Lemma Z_double_cases m : ∃ q, m = 2 * q + 1 ∨ m = 2 * q.
Proof. exists (Z.div2 m). pose proof (Z.div2_odd m). destruct (Z.odd m); simpl in *; lia. Qed.

Lemma half_double q : 2 * q / 2 = q ∧ (2 * q) mod 2 = 0 ∧ Z.even (2 * q) = true.
Proof.
  rewrite (Z.mul_comm 2 q) Z.div_mul // Z.mod_mul //. by rewrite Z.mul_comm Z.even_mul.
Qed.

Lemma half_double_succ q :
  (2 * q + 1) / 2 = q ∧ (2 * q + 1) mod 2 = 1 ∧ Z.even (2 * q + 1) = false.
Proof.
  split; [symmetry; apply (Z.div_unique _ _ _ 1); lia|].
  split; [symmetry; apply (Z.mod_unique _ _ q); lia|]. by rewrite Z.even_add Z.even_mul.
Qed.

Lemma count_ones_double m : count_ones (2 * m) = count_ones m.
Proof. by destruct m. Qed.

Lemma count_ones_double_succ m : 0 ≤ m → count_ones (2 * m + 1) = count_ones m + 1.
Proof. destruct m; [done|done|lia]. Qed.

Lemma count_ones_shift m (n : nat) : count_ones (m * 2 ^ Z.of_nat n) = count_ones m.
Proof.
  induction n as [|n IH]; [by rewrite Z.mul_1_r|].
  rewrite Nat2Z.inj_succ Z.pow_succ_r; [lia|]. 
  by rewrite (Z.mul_comm 2) Z.mul_assoc (Z.mul_comm _ 2) count_ones_double.
Qed.

(** Binary induction on the natural numbers of [Z]. *)
Lemma Z_binary_ind (P : Z → Prop) :
  P 0 → (∀ m, 0 ≤ m → P m → P (2 * m + 1)) → (∀ m, 0 < m → P m → P (2 * m)) →
  ∀ m, 0 ≤ m → P m.
Proof.
  intros H0 Hodd Heven [|p|p] Hm; [done| |lia].
  induction p as [p IH|p IH|].
  - apply (Hodd (Z.pos p)); [lia|]. by apply IH.
  - apply (Heven (Z.pos p)); [lia|]. by apply IH.
  - by apply (Hodd 0).
Qed.

Ltac binary_induction m Hm :=
  revert m Hm;
  match goal with |- ∀ m, 0 ≤ m → @?P m => apply (Z_binary_ind P) end; cbv beta.

Lemma count_ones_nonneg m : 0 ≤ count_ones m.
Proof. unfold count_ones. destruct m as [|p|p]; [lia| |lia]. induction p; simpl; lia. Qed.

Lemma count_ones_le m : 0 ≤ m → count_ones m ≤ m.
Proof.
  revert m; apply Z_binary_ind; [done|..]; intros m Hm IH.
  - rewrite count_ones_double_succ; lia.
  - rewrite count_ones_double. lia.
Qed.
