(* ===== verification/Position.v ===== *)
(** * Positions in a binary tree

    Models [types/src/proof/position/mod.rs]: a node of the accumulator's tree is
    the number an in-order traversal gives it, and every move in the tree is bit
    manipulation on that number.  The reference is a pair of coordinates, the level
    counted from the leaves and the index from the left: [node l p] is the number
    of that node, [position_coordinates] says that every number below [2^64 - 1] is one,
    and a lemma per operation says which move it makes.  The post-order numbering
    that keys the stored nodes is at the end. *)
From S2P Require Import Prelude U64.
Local Open Scope Z_scope.

Definition MAX_ACCUMULATOR_PROOF_DEPTH : Z := 63.
Definition MAX_ACCUMULATOR_LEAVES : Z := Z.shiftl 1 MAX_ACCUMULATOR_PROOF_DEPTH.

(** [struct Position(u64)]. *)
Definition Position : Type := Z.

Inductive NodeDirection : Type := Left | Right.

(** ** Bit manipulation *)

Definition smear_ones_for_u64 (v : Z) : Z :=
  let n := v in
  let n := Z.lor n (Z.shiftr n 1) in
  let n := Z.lor n (Z.shiftr n 2) in
  let n := Z.lor n (Z.shiftr n 4) in
  let n := Z.lor n (Z.shiftr n 8) in
  let n := Z.lor n (Z.shiftr n 16) in
  Z.lor n (Z.shiftr n 32).

(** The [debug_assert!] is only compiled in debug builds; the shifts panic when it
    does. *)
Definition turn_off_right_most_n_bits (v n : Z) : comp Z :=
  t ← u64_shr v n;
  u64_shl t n.

Definition isolate_rightmost_zero_bit (v : Z) : Z :=
  Z.land (u64_not v) (wrap 64 (v + 1)).

(** ** Moves *)

Definition level (self : Position) : Z := trailing_zeros (u64_not self).

Definition is_leaf (self : Position) : bool := Z.land self 1 =? 0.

Definition from_level_and_pos (level pos : Z) : comp Position :=
  rust_assert (level <? 64);;
  one ← u64_shl 1 level;
  rust_assert (0 <? one);;
  level_one_bits ← u64_sub one 1;
  shifted_pos ← (if level =? 63 then Ret 0 else u64_shl pos (level + 1));
  Ret (Z.lor shifted_pos level_one_bits).

Definition from_inorder_index (index : Z) : Position := index.
Definition to_inorder_index (self : Position) : Z := self.

(** The invariant the code asserts: [self.0 < u64::max_value() - 1]. *)
Definition assert_invariant (self : Position) : comp unit := rust_assert (self <? u64_max - 1).

Definition parent (self : Position) : comp Position :=
  assert_invariant self;;
  Ret (Z.land (Z.lor self (isolate_rightmost_zero_bit self))
         (u64_not (shl1 (isolate_rightmost_zero_bit self)))).

Definition child (self : Position) (dir : NodeDirection) : comp Position :=
  rust_assert (negb (is_leaf self));;
  assert_invariant self;;
  let direction_bit :=
    match dir with Left => 0 | Right => isolate_rightmost_zero_bit self end in
  Ret (Z.land (Z.lor self direction_bit) (u64_not (shr1 (isolate_rightmost_zero_bit self)))).

Definition left_child (self : Position) : comp Position :=
  rust_assert (negb (is_leaf self));; child self Left.
Definition right_child (self : Position) : comp Position :=
  rust_assert (negb (is_leaf self));; child self Right.

Definition is_left_child (self : Position) : comp bool :=
  assert_invariant self;;
  Ret (Z.land self (shl1 (isolate_rightmost_zero_bit self)) =? 0).
Definition is_right_child (self : Position) : comp bool := negb <$> is_left_child self.

Definition from_leaf_index (leaf_index : Z) : comp Position := from_level_and_pos 0 leaf_index.

Definition sibling (self : Position) : comp Position :=
  assert_invariant self;;
  Ret (Z.lxor self (shl1 (isolate_rightmost_zero_bit self))).

Definition root_from_leaf_index (leaf_index : Z) : comp Position :=
  leaf ← from_leaf_index leaf_index;
  Ret (shr1 (smear_ones_for_u64 leaf)).

Definition root_from_leaf_count (leaf_count : Z) : comp Position :=
  rust_assert (0 <? leaf_count);; root_from_leaf_index (leaf_count - 1).

Definition root_level_from_leaf_count (leaf_count : Z) : comp Z :=
  rust_assert (0 <? leaf_count);;
  let index := leaf_count - 1 in
  u64_sub (MAX_ACCUMULATOR_PROOF_DEPTH + 1) (leading_zeros index).

Definition right_most_child (self : Position) : comp Position :=
  width ← u64_shl 1 (level self);
  t ← u64_add self width;
  u64_sub t 1.

Definition left_most_child (self : Position) : comp Position :=
  turn_off_right_most_n_bits self (level self).

Definition is_freezable (self : Position) (leaf_index : Z) : comp bool :=
  leaf ← from_leaf_index leaf_index;
  right_most_child ← right_most_child self;
  Ret (right_most_child <=? leaf).

Definition is_placeholder (self : Position) (leaf_index : Z) : comp bool :=
  leaf ← from_leaf_index leaf_index;
  if self <=? leaf then Ret false else
  lmc ← left_most_child self;
  Ret (negb (lmc <=? leaf)).

(** ** Iterators *)

(** [iter_ancestor_sibling().take(n)] and [iter_ancestor().take(n)]. *)
Fixpoint ancestor_siblings (n : nat) (position : Position) : comp (list Position) :=
  match n with
  | O => Ret []
  | S n' =>
      current_sibling_position ← sibling position;
      position ← parent position;
      rest ← ancestor_siblings n' position;
      Ret (current_sibling_position :: rest)
  end.

Fixpoint ancestors (n : nat) (position : Position) : comp (list Position) :=
  match n with
  | O => Ret []
  | S n' =>
      next ← parent position;
      rest ← ancestors n' next;
      Ret (position :: rest)
  end.

Record FrozenSubTreeIterator : Type := mkFrozenSubTreeIterator {
  bitmap : Z;
  seen_leaves : Z;
}.

Definition FrozenSubTreeIterator_new (num_leaves : Z) : FrozenSubTreeIterator :=
  mkFrozenSubTreeIterator num_leaves 0.

Definition FrozenSubTreeIterator_next (self : FrozenSubTreeIterator) :
    comp (option Position * FrozenSubTreeIterator) :=
  room ← u64_sub u64_max (bitmap self);
  rust_assert (seen_leaves self <? room);;
  if bitmap self =? 0 then Ret (None, self) else
  let root_offset := shr1 (smear_ones_for_u64 (bitmap self)) in
  rust_assert (root_offset <? bitmap self);;
  num_leaves ← u64_add root_offset 1;
  leftmost_leaf ← from_leaf_index (seen_leaves self);
  root ← u64_add (to_inorder_index leftmost_leaf) root_offset;
  seen ← u64_add (seen_leaves self) num_leaves;
  Ret (Some (from_inorder_index root),
       mkFrozenSubTreeIterator (Z.land (bitmap self) (u64_not num_leaves)) seen).

Record FrozenSubtreeSiblingIterator : Type := mkFrozenSubtreeSiblingIterator {
  current_num_leaves : Z;
  remaining_new_leaves : Z;
}.

Definition FrozenSubtreeSiblingIterator_new (current_num_leaves new_num_leaves : Z) :
    comp FrozenSubtreeSiblingIterator :=
  rust_assert (new_num_leaves <=? MAX_ACCUMULATOR_LEAVES);;
  rust_assert (current_num_leaves <=? new_num_leaves);;
  Ret (mkFrozenSubtreeSiblingIterator current_num_leaves (new_num_leaves - current_num_leaves)).

(** [63 - zeros] is a [usize] subtraction. *)
Definition next_new_leaf_batch (self : FrozenSubtreeSiblingIterator) : comp Z :=
  let zeros := leading_zeros (remaining_new_leaves self) in
  amount ← u64_sub MAX_ACCUMULATOR_PROOF_DEPTH zeros;
  u64_shl 1 amount.

Definition FrozenSubtreeSiblingIterator_next (self : FrozenSubtreeSiblingIterator) :
    comp (option Position * FrozenSubtreeSiblingIterator) :=
  if remaining_new_leaves self =? 0 then Ret (None, self) else
  next_subtree_leaves ←
    (if 0 <? current_num_leaves self then
       rightmost_frozen_subtree_leaves ← u64_shl 1 (trailing_zeros (current_num_leaves self));
       if rightmost_frozen_subtree_leaves <=? remaining_new_leaves self
       then Ret rightmost_frozen_subtree_leaves
       else next_new_leaf_batch self
     else next_new_leaf_batch self);
  let first_leaf_index := current_num_leaves self in
  past ← u64_add first_leaf_index next_subtree_leaves;
  last_leaf_index ← u64_sub past 1;
  current ← u64_add (current_num_leaves self) next_subtree_leaves;
  remaining ← u64_sub (remaining_new_leaves self) next_subtree_leaves;
  root ← u64_add first_leaf_index last_leaf_index;
  Ret (Some (from_inorder_index root), mkFrozenSubtreeSiblingIterator current remaining).

(** Running an iterator to its end: [None] when [fuel] was not enough. *)
Section drain.
Context {I : Type} (next : I → comp (option Position * I)).

Fixpoint drain (fuel : nat) (it : I) : comp (option (list Position)) :=
  match fuel with
  | O => Ret None
  | S fuel' =>
      '(o, it') ← next it;
      match o with
      | None => Ret (Some [])
      | Some p =>
          rest ← drain fuel' it';
          Ret (option_map (cons p) rest)
      end
  end.
End drain.

(** ** Post-order numbers *)

Definition children_of_node (node : Z) : comp Z :=
  u64_sub (shl1 (isolate_rightmost_zero_bit node)) 2.

Definition nodes_to_left_of (node : Z) : comp Z :=
  ones_up_to_level ← u64_sub (isolate_rightmost_zero_bit node) 1;
  let unset_level_zeros := Z.lxor node ones_up_to_level in
  u64_sub unset_level_zeros (count_ones unset_level_zeros).

Definition inorder_to_postorder (node : Z) : comp Z :=
  children ← children_of_node node;
  left_nodes ← nodes_to_left_of node;
  u64_add children left_nodes.

(** The loop [for i in (0..64).rev()]; [n] iterations are left, so [i = n - 1]. *)
Fixpoint postorder_loop (n : nat) (node full_binary_size bitmap : Z) : Z * Z :=
  match n with
  | O => (node, bitmap)
  | S i =>
      if full_binary_size <=? node
      then postorder_loop i (node - full_binary_size) (shr1 full_binary_size)
             (Z.lor bitmap (Z.shiftl 1 (Z.of_nat i)))
      else postorder_loop i node (shr1 full_binary_size) bitmap
  end.

Definition postorder_to_inorder (node : Z) : comp Z :=
  let '(node, bitmap) := postorder_loop 64 node u64_max 0 in
  let level := wrap 32 node in
  pos ← u64_shr bitmap level;
  to_inorder_index <$> from_level_and_pos level pos.

Definition from_postorder_index (index : Z) : comp (result unit Position) :=
  if negb (index <? u64_not 0) then Ret (Err tt) else Ok <$> postorder_to_inorder index.

Definition to_postorder_index (self : Position) : comp Z :=
  inorder_to_postorder (to_inorder_index self).

(** ** Coordinates *)

(** The in-order number of the node at level [l], [p]-th from the left. *)
Definition node (l : nat) (p : Z) : Position := p * 2 ^ (Z.of_nat l + 1) + (2 ^ Z.of_nat l - 1).

(** The coordinates of the tree of [2^63] leaves. *)
Definition coord (l : nat) (p : Z) : Prop := (l ≤ 63)%nat ∧ 0 ≤ p < 2 ^ (63 - Z.of_nat l).

Lemma pow2_S (l : nat) : 2 ^ Z.of_nat (S l) = 2 * 2 ^ Z.of_nat l.
Proof. rewrite Nat2Z.inj_succ Z.pow_succ_r; lia. Qed.

Lemma pow2_add1 (l : nat) : 2 ^ (Z.of_nat l + 1) = 2 * 2 ^ Z.of_nat l.
Proof. rewrite -pow2_S. f_equal. lia. Qed.

Lemma pow2_gt0 (l : nat) : 0 < 2 ^ Z.of_nat l.
Proof. apply pow2_pos. lia. Qed.

Lemma pow2_le (l k : nat) : (l ≤ k)%nat → 2 ^ Z.of_nat l ≤ 2 ^ Z.of_nat k.
Proof. intros. apply Z.pow_le_mono_r; lia. Qed.

Lemma node_0 p : node 0 p = 2 * p.
Proof. unfold node. simpl. lia. Qed.

Lemma node_S l p : node (S l) p = 2 * node l p + 1.
Proof. unfold node. rewrite !pow2_add1 pow2_S. lia. Qed.

(** [2^63] leaves, in the units of level [l]. *)
Lemma coord_width l p : coord l p → (p + 1) * 2 ^ Z.of_nat l ≤ 2 ^ 63.
Proof.
  intros [Hl Hp]. replace 63 with ((63 - Z.of_nat l) + Z.of_nat l) at 1 by lia.
  rewrite Z.pow_add_r; [lia|lia|]. apply Z.mul_le_mono_nonneg_r; [|lia].
  pose proof (pow2_gt0 l). lia.
Qed.

Lemma coord_intro l p : 0 ≤ p → (p + 1) * 2 ^ Z.of_nat l ≤ 2 ^ 63 → coord l p.
Proof.
  intros Hp Hw. pose proof (pow2_gt0 l). assert (l ≤ 63)%nat as Hl.
  { destruct (decide (l ≤ 63)%nat) as [|Hgt]; [done|].
    pose proof (pow2_le 64 l ltac:(lia)). change (2 ^ Z.of_nat 64) with (2 * 2 ^ 63) in *. nia. }
  split; [done|split; [done|]].
  replace 63 with ((63 - Z.of_nat l) + Z.of_nat l) in Hw at 1 by lia.
  rewrite Z.pow_add_r in Hw; [lia|lia|]. nia.
Qed.

Lemma node_range l p : coord l p → 0 ≤ node l p < 2 ^ 64 - 1.
Proof.
  intros Hc. pose proof (coord_width _ _ Hc). destruct Hc as [Hl Hp]. unfold node.
  rewrite pow2_add1. pose proof (pow2_gt0 l). change (2 ^ 64) with (2 * 2 ^ 63). nia.
Qed.

Lemma node_u64 l p : coord l p → u64 (node l p).
Proof. intros H%node_range. unfold u64. lia. Qed.

(** The last leaf of the tree and everything above it is out of reach of the moves:
    their assertion wants one less. *)
Lemma node_invariant l p :
  coord l p → (0 < l)%nat ∨ p < 2 ^ 63 - 1 → node l p < u64_max - 1.
Proof.
  intros Hc Hlt. pose proof (coord_width _ _ Hc). unfold node, u64_max.
  change (2 ^ 64) with (2 * 2 ^ 63). rewrite pow2_add1.
  destruct l as [|l]; [change (2 ^ Z.of_nat 0) with 1 in *; lia|].
  pose proof (pow2_gt0 l). rewrite pow2_S in H |- *. nia.
Qed.

(** Bits: [l] ones, a zero, then the index. *)
Lemma testbit_node l p i :
  0 ≤ i →
  Z.testbit (node l p) i =
    if i <? Z.of_nat l then true
    else if i =? Z.of_nat l then false else Z.testbit p (i - (Z.of_nat l + 1)).
Proof.
  intros Hi. pose proof (pow2_gt0 l). unfold node.
  rewrite testbit_split; [rewrite pow2_add1; lia|lia|done|].
  replace (2 ^ Z.of_nat l - 1) with (Z.ones (Z.of_nat l)) by (rewrite Z.ones_equiv; lia).
  rewrite Z.testbit_ones_nonneg; [lia|lia|].
  destruct (Z.ltb_spec i (Z.of_nat l)), (Z.eqb_spec i (Z.of_nat l)),
    (Z.ltb_spec i (Z.of_nat l + 1)); try done; lia.
Qed.

(** Splits every comparison in the goal and closes the cases by arithmetic. *)
Ltac split_comparisons :=
  repeat match goal with
  | |- context [?a <? ?b] => destruct (Z.ltb_spec a b); try lia
  | |- context [?a =? ?b] => destruct (Z.eqb_spec a b); try lia
  end.

Ltac simplify_bools :=
  simpl; rewrite ?andb_false_r ?andb_true_r ?orb_false_r ?orb_true_r ?xorb_false_r ?xorb_true_r
    ?xorb_true_l ?negb_involutive.

Lemma testbit_half p i : 0 ≤ i → Z.testbit (p / 2) i = Z.testbit p (i + 1).
Proof. intros. change 2 with (2 ^ 1). by rewrite Z.div_pow2_bits. Qed.

Lemma testbit_coord l p i : coord l p → 64 ≤ i → Z.testbit p (i - (Z.of_nat l + 1)) = false.
Proof. intros [Hl Hp] Hi. apply (testbit_above _ (63 - Z.of_nat l)); lia. Qed.

Lemma isolate_node l p : coord l p → isolate_rightmost_zero_bit (node l p) = 2 ^ Z.of_nat l.
Proof.
  intros Hc. unfold isolate_rightmost_zero_bit. pose proof (node_range _ _ Hc).
  rewrite wrap_small; [unfold u64; lia|]. pose proof (pow2_gt0 l).
  replace (node l p + 1) with (p * 2 ^ (Z.of_nat l + 1) + 2 ^ Z.of_nat l) by (unfold node; lia).
  apply Z.bits_inj'; intros i Hi. rewrite Z.land_spec testbit_not //.
  rewrite testbit_split; [rewrite pow2_add1; lia|lia|done|].
  rewrite testbit_node // !Z.pow2_bits_eqb; [lia|].
  pose proof (testbit_coord l p i Hc). destruct Hc as [Hl _].
  split_comparisons; simpl; try done; try (destruct (Z.testbit p _); naive_solver lia).
Qed.

Lemma shl1_pow2 (l : nat) : (l < 63)%nat → shl1 (2 ^ Z.of_nat l) = 2 ^ (Z.of_nat l + 1).
Proof.
  intros Hl. unfold shl1. rewrite Z.shiftl_mul_pow2 // -Z.pow_add_r; [lia|lia|].
  apply wrap_small. split; [apply Z.pow_nonneg; lia|apply Z.pow_lt_mono_r; lia].
Qed.

Lemma shr1_pow2 (l : nat) : shr1 (2 ^ Z.of_nat (S l)) = 2 ^ Z.of_nat l.
Proof.
  unfold shr1. rewrite Z.shiftr_div_pow2 // pow2_S Z.mul_comm. by apply Z.div_mul.
Qed.

Lemma level_node l p : coord l p → level (node l p) = Z.of_nat l.
Proof.
  intros Hc. destruct (Hc) as [Hl _]. apply trailing_zeros_unique; [lia|..].
  - intros i Hi. rewrite testbit_not; [lia|]. rewrite testbit_node; [lia|].
    by split_comparisons.
  - intros _. rewrite testbit_not; [lia|]. rewrite testbit_node; [lia|]. by split_comparisons.
Qed.

Lemma is_leaf_node l p : is_leaf (node l p) = (l =? 0)%nat.
Proof.
  unfold is_leaf. change 1 with (Z.ones 1) at 1. rewrite Z.land_ones //.
  destruct l as [|l].
  - rewrite node_0 Z.mul_comm. by rewrite Z.mod_mul.
  - rewrite node_S Z.add_comm Z.mul_comm. by rewrite Z.mod_add.
Qed.

Lemma from_level_and_pos_node l p : coord l p → from_level_and_pos (Z.of_nat l) p = Ret (node l p).
Proof.
  intros Hc. destruct (Hc) as [Hl Hp]. unfold from_level_and_pos.
  assert (Z.of_nat l < 64) as Hl' by lia. rewrite (proj2 (Z.ltb_lt _ _) Hl') /=.
  rewrite (u64_shl_Ret 1) // Z.shiftl_1_l wrap_small.
  { split; [apply Z.pow_nonneg; lia|apply Z.pow_lt_mono_r; lia]. }
  pose proof (pow2_gt0 l) as Hpos. rewrite /= (proj2 (Z.ltb_lt _ _) Hpos) /=.
  rewrite u64_sub_Ret /=; [lia|].
  assert (Z.lor (p * 2 ^ (Z.of_nat l + 1)) (2 ^ Z.of_nat l - 1) = node l p) as Hlor.
  { rewrite lor_split //; [rewrite pow2_add1; lia|lia]. }
  destruct (Z.eqb_spec (Z.of_nat l) 63) as [Heq|Hne]; simpl.
  - rewrite Heq in Hp. replace p with 0 in Hlor |- * by lia. by rewrite -Hlor.
  - rewrite u64_shl_Ret /=; [lia|]. rewrite Z.shiftl_mul_pow2; [lia|]. rewrite wrap_small; [|by rewrite Hlor].
    pose proof (node_range _ _ Hc). unfold node in *. unfold u64.
    assert (0 ≤ p * 2 ^ (Z.of_nat l + 1)); [|lia].
    apply Z.mul_nonneg_nonneg; [lia|apply Z.pow_nonneg; lia].
Qed.

Lemma leaf_coord i : 0 ≤ i < 2 ^ 63 → coord 0 i.
Proof. intros. split; [lia|]. by rewrite Z.sub_0_r. Qed.

Lemma from_leaf_index_node i : 0 ≤ i < 2 ^ 63 → from_leaf_index i = Ret (node 0 i).
Proof. intros Hi. by apply (from_level_and_pos_node 0), leaf_coord. Qed.

(** ** The moves on coordinates *)

Lemma assert_invariant_node l p :
  coord l p → (0 < l)%nat ∨ p < 2 ^ 63 - 1 → assert_invariant (node l p) = Ret tt.
Proof.
  intros Hc Hlt. unfold assert_invariant.
  by rewrite (proj2 (Z.ltb_lt _ _) (node_invariant _ _ Hc Hlt)).
Qed.

Lemma parent_node l p :
  coord l p → (l < 63)%nat → (0 < l)%nat ∨ p < 2 ^ 63 - 1 →
  parent (node l p) = Ret (node (S l) (p / 2)).
Proof.
  intros Hc Hl Hlt. unfold parent. rewrite assert_invariant_node //=.
  rewrite isolate_node // shl1_pow2 //. f_equal.
  apply Z.bits_inj'; intros i Hi. pose proof (testbit_coord l p i Hc) as Hhigh.
  rewrite Z.land_spec Z.lor_spec testbit_not // !testbit_node // !Z.pow2_bits_eqb; [lia|lia|].
  rewrite Nat2Z.inj_succ. split_comparisons; simplify_bools; try done;
    (rewrite testbit_half; [lia|]);
    replace (i - (Z.succ (Z.of_nat l) + 1) + 1) with (i - (Z.of_nat l + 1)) by lia; [done|].
  by rewrite Hhigh.
Qed.

Lemma testbit_double p i : 0 < i → Z.testbit (2 * p) i = Z.testbit p (i - 1).
Proof. intros. replace i with (Z.succ (i - 1)) at 1 by lia. apply Z.double_bits_succ. Qed.

Lemma testbit_double_succ p i : 0 < i → Z.testbit (2 * p + 1) i = Z.testbit p (i - 1).
Proof.
  intros. replace i with (Z.succ (i - 1)) at 1 by lia. apply Z.testbit_odd_succ. lia.
Qed.

(** The index of a child. *)
Definition child_pos (p : Z) (dir : NodeDirection) : Z :=
  match dir with Left => 2 * p | Right => 2 * p + 1 end.

Lemma child_coord l p dir : coord (S l) p → coord l (child_pos p dir).
Proof.
  intros [Hl Hp]. split; [lia|].
  replace (63 - Z.of_nat l) with (Z.succ (63 - Z.of_nat (S l))) by lia.
  rewrite Z.pow_succ_r; [lia|]. destruct dir; simpl; lia.
Qed.

Lemma child_node l p dir : coord (S l) p → child (node (S l) p) dir = Ret (node l (child_pos p dir)).
Proof.
  intros Hc. unfold child. rewrite is_leaf_node /= assert_invariant_node //=; [left; lia|].
  rewrite isolate_node // shr1_pow2. f_equal.
  apply Z.bits_inj'; intros i Hi. pose proof (testbit_coord _ _ i Hc) as Hhigh.
  destruct dir; simpl;
    rewrite Z.land_spec Z.lor_spec testbit_not // !testbit_node // !Z.pow2_bits_eqb ?Z.bits_0; try lia;
    rewrite Nat2Z.inj_succ in Hhigh |- *; destruct Hc as [Hl _]; split_comparisons; simplify_bools; try done.
  all: try (replace (i - (Z.of_nat l + 1)) with 0 by lia; by rewrite ?Z.testbit_even_0 ?Z.testbit_odd_0).
  all: rewrite ?testbit_double ?testbit_double_succ; try lia;
    replace (i - (Z.of_nat l + 1) - 1) with (i - (Z.succ (Z.of_nat l) + 1)) by lia; try done;
    by rewrite Hhigh.
Qed.

Lemma left_child_node l p : coord (S l) p → left_child (node (S l) p) = Ret (node l (2 * p)).
Proof. intros Hc. unfold left_child. rewrite is_leaf_node /=. by apply (child_node l p Left). Qed.

Lemma right_child_node l p : coord (S l) p → right_child (node (S l) p) = Ret (node l (2 * p + 1)).
Proof. intros Hc. unfold right_child. rewrite is_leaf_node /=. by apply (child_node l p Right). Qed.

Lemma shl1_isolate_63 p : coord 63 p → shl1 (isolate_rightmost_zero_bit (node 63 p)) = 0.
Proof. intros Hc. by rewrite isolate_node. Qed.

Lemma coord_63 p : coord 63 p → p = 0.
Proof. intros [_ Hp]. change (2 ^ (63 - Z.of_nat 63)) with 1 in Hp. lia. Qed.

Lemma is_left_child_node l p :
  coord l p → (0 < l)%nat ∨ p < 2 ^ 63 - 1 → is_left_child (node l p) = Ret (Z.even p).
Proof.
  intros Hc Hlt. unfold is_left_child. rewrite assert_invariant_node //=. f_equal.
  destruct (decide (l = 63%nat)) as [->|Hne].
  - rewrite shl1_isolate_63 // Z.land_0_r. by rewrite (coord_63 p Hc).
  - destruct (Hc) as [Hl _]. rewrite isolate_node // shl1_pow2; [lia|].
    rewrite land_pow2; [lia|]. rewrite testbit_node; [lia|]. split_comparisons.
    rewrite Z.sub_diag Z.bit0_odd. by rewrite -Z.negb_even negb_involutive.
Qed.

Lemma is_right_child_node l p :
  coord l p → (0 < l)%nat ∨ p < 2 ^ 63 - 1 → is_right_child (node l p) = Ret (Z.odd p).
Proof.
  intros Hc Hlt. unfold is_right_child. rewrite is_left_child_node //=. by rewrite Z.negb_even.
Qed.

(** The index of the sibling. *)
Definition sibling_pos (p : Z) : Z := if Z.even p then p + 1 else p - 1.

Lemma testbit_1 i : 0 ≤ i → Z.testbit 1 i = (0 =? i).
Proof. intros _. apply (Z.pow2_bits_eqb 0). lia. Qed.

Lemma sibling_pos_lxor p : sibling_pos p = Z.lxor p 1.
Proof.
  unfold sibling_pos. rewrite -Z.negb_odd. pose proof (Z.div2_odd p) as Hdiv.
  apply Z.bits_inj'; intros i Hi. rewrite Z.lxor_spec testbit_1 //.
  revert Hdiv. generalize (Z.div2 p) as q. destruct (Z.odd p); intros q ->; cbn [negb Z.b2z].
  - replace (2 * q + 1 - 1) with (2 * q) by lia.
    destruct (Z.eqb_spec 0 i) as [<-|]; [by rewrite Z.testbit_even_0 Z.testbit_odd_0|].
    rewrite testbit_double ?testbit_double_succ ?xorb_false_r //; lia.
  - rewrite Z.add_0_r. destruct (Z.eqb_spec 0 i) as [<-|]; [by rewrite Z.testbit_even_0 Z.testbit_odd_0|].
    rewrite testbit_double ?testbit_double_succ ?xorb_false_r //; lia.
Qed.

Lemma sibling_node l p :
  coord l p → (l < 63)%nat → (0 < l)%nat ∨ p < 2 ^ 63 - 1 →
  sibling (node l p) = Ret (node l (sibling_pos p)).
Proof.
  intros Hc Hl Hlt. unfold sibling. rewrite assert_invariant_node //=.
  rewrite isolate_node // shl1_pow2 //. f_equal.
  rewrite sibling_pos_lxor. apply Z.bits_inj'; intros i Hi.
  rewrite Z.lxor_spec !testbit_node // Z.pow2_bits_eqb; [lia|].
  rewrite Z.lxor_spec. destruct (Z.ltb_spec i (Z.of_nat l)), (Z.eqb_spec i (Z.of_nat l));
    [lia|by split_comparisons..|]. rewrite testbit_1; [lia|]. split_comparisons; by simplify_bools.
Qed.

(** ** Roots and extreme leaves *)

(** [n] has a bit set wherever [v] has one among the next [w]. *)
Definition smeared (w v n : Z) : Prop :=
  ∀ i, 0 ≤ i → (Z.testbit n i = true ↔ ∃ j, i ≤ j < i + w ∧ Z.testbit v j = true).

Lemma smear_step w v n : 0 < w → smeared w v n → smeared (2 * w) v (Z.lor n (Z.shiftr n w)).
Proof.
  intros Hw Hn i Hi. rewrite Z.lor_spec Z.shiftr_spec // orb_true_iff !Hn; [lia|lia|].
  split.
  - intros [(j & ? & ?)|(j & ? & ?)]; exists j; (split; [lia|done]).
  - intros (j & ? & ?). destruct (decide (j < i + w)); [left|right]; exists j; (split; [lia|done]).
Qed.

Lemma smear_ones_spec v : 0 < v < 2 ^ 64 → smear_ones_for_u64 v = 2 ^ (Z.log2 v + 1) - 1.
Proof.
  intros Hv. assert (smeared 64 v (smear_ones_for_u64 v)) as Hs.
  { unfold smear_ones_for_u64.
    do 6 (apply (smear_step 32) || apply (smear_step 16) || apply (smear_step 8)
      || apply (smear_step 4) || apply (smear_step 2) || apply (smear_step 1); [done|]).
    intros i Hi. split; [intros; exists i; split; [lia|done]|].
    intros (j & ? & Hj). by replace i with j by lia. }
  pose proof (Z.log2_nonneg v).
  assert (Z.log2 v < 64) by (apply Z.log2_lt_pow2; lia).
  replace (2 ^ (Z.log2 v + 1) - 1) with (Z.ones (Z.log2 v + 1)) by (rewrite Z.ones_equiv; lia).
  apply Z.bits_inj'; intros i Hi. rewrite Z.testbit_ones_nonneg; [lia|done|].
  apply eq_bool_prop_intro. rewrite !Is_true_true Hs // Z.ltb_lt. split.
  - intros (j & ? & Hj). destruct (decide (j ≤ Z.log2 v)); [lia|].
    rewrite Z.bits_above_log2 in Hj; [lia|lia|done].
  - intros Hlt. exists (Z.log2 v). split; [lia|]. apply Z.bit_log2. lia.
Qed.

Lemma shr1_ones k : 0 ≤ k → shr1 (2 ^ (k + 1) - 1) = 2 ^ k - 1.
Proof.
  intros Hk. unfold shr1. rewrite Z.shiftr_div_pow2 // Z.pow_add_r //.
  symmetry. apply (Z.div_unique _ _ _ 1); lia.
Qed.

(** The level of the smallest tree that holds [n] leaves. *)
Definition root_level (n : Z) : nat := Z.to_nat (Z.log2_up n).

Lemma root_level_Z n : Z.of_nat (root_level n) = Z.log2_up n.
Proof. apply Z2Nat.id, Z.log2_up_nonneg. Qed.

Lemma root_level_succ n : 0 < n → Z.of_nat (root_level (n + 1)) = Z.log2 n + 1.
Proof. intros. rewrite root_level_Z Z.log2_up_eqn; [lia|]. by replace (Z.pred (n + 1)) with n by lia. Qed.

Lemma root_coord n : 0 < n ≤ 2 ^ 63 → coord (root_level n) 0.
Proof.
  intros Hn. assert (Z.log2_up n ≤ 63) by (apply Z.log2_up_le_pow2; lia).
  pose proof (root_level_Z n). split; [lia|]. split; [done|]. apply pow2_pos. lia.
Qed.

Lemma root_fits n : 0 < n → n ≤ 2 ^ Z.of_nat (root_level n).
Proof.
  intros Hn. rewrite root_level_Z. destruct (decide (n = 1)) as [->|]; [done|].
  apply Z.log2_log2_up_spec in Hn. lia.
Qed.

Lemma root_from_leaf_index_node i :
  0 ≤ i < 2 ^ 63 → root_from_leaf_index i = Ret (node (root_level (i + 1)) 0).
Proof.
  intros Hi. unfold root_from_leaf_index. rewrite from_leaf_index_node //=. f_equal.
  rewrite node_0. destruct (decide (i = 0)) as [->|Hne]; [done|].
  rewrite smear_ones_spec; [lia|]. rewrite shr1_ones; [apply Z.log2_nonneg|].
  unfold node. rewrite root_level_succ; [lia|]. rewrite Z.log2_double; [lia|]. lia.
Qed.

Lemma root_from_leaf_count_node n :
  0 < n ≤ 2 ^ 63 → root_from_leaf_count n = Ret (node (root_level n) 0).
Proof.
  intros Hn. unfold root_from_leaf_count. rewrite (proj2 (Z.ltb_lt 0 n)) /=; [lia|].
  rewrite root_from_leaf_index_node; [lia|]. by rewrite Z.sub_add.
Qed.

Lemma root_level_from_leaf_count_spec n :
  0 < n ≤ 2 ^ 64 → root_level_from_leaf_count n = Ret (Z.of_nat (root_level n)).
Proof.
  intros Hn. unfold root_level_from_leaf_count. rewrite (proj2 (Z.ltb_lt 0 n)) /=; [lia|].
  unfold leading_zeros. destruct (Z.eqb_spec (n - 1) 0) as [Heq|Hne].
  - by replace n with 1 by lia.
  - assert (Z.log2 (n - 1) < 64) by (apply Z.log2_lt_pow2; lia).
    pose proof (Z.log2_nonneg (n - 1)). unfold MAX_ACCUMULATOR_PROOF_DEPTH.
    rewrite u64_sub_Ret; [lia|]. f_equal. pose proof (root_level_succ (n - 1)) as Hr.
    rewrite Z.sub_add in Hr. rewrite Hr; lia.
Qed.

Lemma right_most_child_node l p :
  coord l p → right_most_child (node l p) = Ret (node 0 ((p + 1) * 2 ^ Z.of_nat l - 1)).
Proof.
  intros Hc. pose proof (coord_width _ _ Hc). destruct (Hc) as [Hl _]. pose proof (pow2_gt0 l).
  unfold right_most_child. rewrite level_node // u64_shl_Ret; [lia|].
  rewrite Z.shiftl_1_l wrap_small /=.
  { split; [lia|apply Z.pow_lt_mono_r; lia]. }
  rewrite u64_add_Ret /=; [|rewrite u64_sub_Ret];
    unfold node; rewrite !pow2_add1; change (2 ^ Z.of_nat 0) with 1; unfold u64_max.
  - change (2 ^ 64) with (2 * 2 ^ 63). lia.
  - destruct Hc as [_ [Hp _]]. nia.
  - f_equal. lia.
Qed.

Lemma left_most_child_node l p :
  coord l p → left_most_child (node l p) = Ret (node 0 (p * 2 ^ Z.of_nat l)).
Proof.
  intros Hc. pose proof (coord_width _ _ Hc). destruct (Hc) as [Hl [Hp _]]. pose proof (pow2_gt0 l).
  unfold left_most_child, turn_off_right_most_n_bits. rewrite level_node // u64_shr_Ret /=; [lia|].
  rewrite u64_shl_Ret; [lia|]. rewrite Z.shiftr_div_pow2; [lia|]. rewrite Z.shiftl_mul_pow2; [lia|].
  assert (node l p / 2 ^ Z.of_nat l = 2 * p) as ->.
  { symmetry. apply (Z.div_unique _ _ _ (2 ^ Z.of_nat l - 1)); [lia|]. unfold node. rewrite pow2_add1. lia. }
  rewrite node_0 wrap_small; [|f_equal; lia]. unfold u64. change (2 ^ 64) with (2 * 2 ^ 63). nia.
Qed.

Lemma is_freezable_node l p i :
  coord l p → 0 ≤ i < 2 ^ 63 →
  is_freezable (node l p) i = Ret ((p + 1) * 2 ^ Z.of_nat l <=? i + 1).
Proof.
  intros Hc Hi. unfold is_freezable. rewrite from_leaf_index_node //= right_most_child_node //=.
  rewrite !node_0. f_equal. destruct (Z.leb_spec (2 * ((p + 1) * 2 ^ Z.of_nat l - 1)) (2 * i)),
    (Z.leb_spec ((p + 1) * 2 ^ Z.of_nat l) (i + 1)); lia.
Qed.

Lemma is_placeholder_node l p i :
  coord l p → 0 ≤ i < 2 ^ 63 →
  is_placeholder (node l p) i = Ret (i <? p * 2 ^ Z.of_nat l).
Proof.
  intros Hc Hi. unfold is_placeholder. rewrite from_leaf_index_node //= left_most_child_node //=.
  rewrite !node_0. pose proof (pow2_gt0 l). destruct (Hc) as [_ [Hp _]].
  assert (2 * (p * 2 ^ Z.of_nat l) ≤ node l p) by (unfold node; rewrite pow2_add1; lia).
  destruct (Z.leb_spec (node l p) (2 * i)), (Z.ltb_spec i (p * 2 ^ Z.of_nat l));
    simpl; try lia; try done; f_equal; destruct (Z.leb_spec (2 * (p * 2 ^ Z.of_nat l)) (2 * i)); lia.
Qed.

Lemma coordinates_below (k : nat) v :
  0 ≤ v < 2 ^ Z.of_nat (S k) - 1 →
  ∃ l p, v = node l p ∧ 0 ≤ p ∧ (p + 1) * 2 ^ Z.of_nat l ≤ 2 ^ Z.of_nat k.
Proof.
  revert v; induction k as [|k IH]; intros v Hv.
  { exists 0%nat, 0. change (2 ^ Z.of_nat 1) with 2 in Hv. rewrite node_0. simpl. lia. }
  rewrite pow2_S in Hv. pose proof (Z.div2_odd v) as Hdiv. destruct (Z.odd v); simpl in Hdiv.
  - destruct (IH (Z.div2 v)) as (l & p & Heq & Hp & Hw); [lia|].
    exists (S l), p. rewrite node_S -Heq !pow2_S. lia.
  - exists 0%nat, (Z.div2 v). rewrite node_0. change (2 ^ Z.of_nat 0) with 1. lia.
Qed.

Lemma coordinates v : 0 ≤ v < 2 ^ 64 - 1 → ∃ l p, coord l p ∧ v = node l p.
Proof.
  intros Hv. destruct (coordinates_below 63 v Hv) as (l & p & -> & Hp & Hw).
  exists l, p. split; [|done]. by apply coord_intro.
Qed.

Lemma node_inj l p l' p' : coord l p → coord l' p' → node l p = node l' p' → l = l' ∧ p = p'.
Proof.
  intros Hc Hc' Heq. assert (l = l') as <-.
  { pose proof (level_node _ _ Hc) as H1. rewrite Heq level_node // in H1. lia. }
  split; [done|]. unfold node in Heq. rewrite pow2_add1 in Heq. pose proof (pow2_gt0 l). nia.
Qed.

(** ** Post-order numbers of the coordinates *)

Definition post (l : nat) (p : Z) : Z := (p + 1) * 2 ^ Z.of_nat (S l) - 2 - count_ones p.

Lemma post_range l p :
  coord l p → 0 ≤ post l p ∧ post l p ≤ 2 ^ 64 - 2.
Proof.
  intros Hc. pose proof (coord_width _ _ Hc). destruct Hc as [_ [Hp _]]. unfold post.
  pose proof (count_ones_le p Hp). pose proof (count_ones_nonneg p).
  rewrite pow2_S. pose proof (pow2_gt0 l). change (2 ^ 64) with (2 * 2 ^ 63). nia.
Qed.

Lemma lxor_node_level l p : Z.lxor (node l p) (2 ^ Z.of_nat l - 1) = p * 2 ^ Z.of_nat (S l).
Proof.
  replace (2 ^ Z.of_nat l - 1) with (Z.ones (Z.of_nat l)) by (rewrite Z.ones_equiv; lia).
  apply Z.bits_inj'; intros i Hi. rewrite Z.lxor_spec testbit_node // Z.testbit_ones_nonneg //; [lia|].
  rewrite -(Z.add_0_r (p * _)) testbit_split; [pose proof (pow2_gt0 (S l)); lia|lia|done|].
  rewrite Z.bits_0 Nat2Z.inj_succ. split_comparisons; simplify_bools; done.
Qed.

Lemma inorder_to_postorder_node l p :
  coord l p → (l < 63)%nat → inorder_to_postorder (node l p) = Ret (post l p).
Proof.
  intros Hc Hl. pose proof (post_range l p Hc) as Hpost. pose proof (pow2_gt0 l).
  unfold inorder_to_postorder, children_of_node, nodes_to_left_of.
  rewrite isolate_node // shl1_pow2 // pow2_add1. rewrite (u64_sub_Ret (2 * _)) /=; [lia|].
  rewrite (u64_sub_Ret _ 1) /=; [lia|]. rewrite lxor_node_level count_ones_shift.
  destruct Hc as [_ [Hp _]]. pose proof (count_ones_le p Hp).
  rewrite pow2_S u64_sub_Ret; [nia|]. unfold post in Hpost |- *. rewrite pow2_S in Hpost |- *.
  rewrite /= u64_add_Ret; [unfold u64_max; nia|]. f_equal. lia.
Qed.

(** The root of the whole tree: twice its lowest zero bit does not fit. *)
Lemma inorder_to_postorder_root : inorder_to_postorder (node 63 0) = Panic.
Proof. vm_compute. reflexivity. Qed.

Lemma count_ones_top (d : nat) p :
  0 ≤ p < 2 ^ Z.of_nat d → count_ones (p + 2 ^ Z.of_nat d) = count_ones p + 1.
Proof.
  revert p; induction d as [|d IH]; intros p Hp.
  { change (2 ^ Z.of_nat 0) with 1 in *. by replace p with 0 by lia. }
  rewrite pow2_S in Hp |- *. destruct (Z_double_cases p) as [q [->| ->]].
  - replace (2 * q + 1 + 2 * 2 ^ Z.of_nat d) with (2 * (q + 2 ^ Z.of_nat d) + 1) by lia.
    rewrite !count_ones_double_succ; [lia|lia|]. rewrite IH; lia.
  - rewrite -Z.mul_add_distr_l !count_ones_double. apply IH. lia.
Qed.

Lemma shr1_full (k : nat) : shr1 (2 ^ Z.of_nat (S k) - 1) = 2 ^ Z.of_nat k - 1.
Proof. rewrite Nat2Z.inj_succ. apply shr1_ones. lia. Qed.

Lemma lor_ones_step bm (k : nat) :
  Z.lor (Z.lor bm (Z.shiftl 1 (Z.of_nat k))) (Z.ones (Z.of_nat k)) = Z.lor bm (Z.ones (Z.of_nat (S k))).
Proof.
  apply Z.bits_inj'; intros i Hi. rewrite !Z.lor_spec Z.shiftl_1_l Z.pow2_bits_eqb; [lia|].
  rewrite !Z.testbit_ones_nonneg //; [lia..|]. split_comparisons; by simplify_bools.
Qed.

Lemma postorder_loop_skip n v full bm :
  v < full → postorder_loop (S n) v full bm = postorder_loop n v (shr1 full) bm.
Proof. intros Hv. cbn [postorder_loop]. by rewrite (proj2 (Z.leb_gt _ _) Hv). Qed.

(** Below the level of the node every bit is taken. *)
Lemma postorder_loop_level (l k : nat) bm :
  (k ≤ l)%nat →
  postorder_loop k (2 ^ Z.of_nat (S k) - 2 + (Z.of_nat l - Z.of_nat k)) (2 ^ Z.of_nat k - 1) bm
  = (Z.of_nat l, Z.lor bm (Z.ones (Z.of_nat k))).
Proof.
  revert bm; induction k as [|k IH]; intros bm Hk; cbn [postorder_loop].
  { rewrite Z.lor_0_r. f_equal. change (2 ^ Z.of_nat 1) with 2. lia. }
  pose proof (pow2_gt0 k). rewrite (proj2 (Z.leb_le _ _)).
  { rewrite !pow2_S. lia. }
  rewrite shr1_full -lor_ones_step -IH; [lia|]. f_equal. rewrite !pow2_S. lia.
Qed.

(** Above it the bits of the index are taken. *)
Lemma postorder_loop_spec (l d : nat) p bm :
  0 ≤ p < 2 ^ Z.of_nat d →
  postorder_loop (d + l) (post l p) (2 ^ Z.of_nat (d + l) - 1) bm
  = (Z.of_nat l, Z.lor (Z.lor bm (p * 2 ^ Z.of_nat l)) (Z.ones (Z.of_nat l))).
Proof.
  revert p bm; induction d as [|d IH]; intros p bm Hp.
  { change (2 ^ Z.of_nat 0) with 1 in Hp. replace p with 0 by lia. rewrite Z.lor_0_r.
    rewrite -postorder_loop_level //. f_equal. unfold post. simpl. lia. }
  assert (2 ^ Z.of_nat (d + l) = 2 ^ Z.of_nat d * 2 ^ Z.of_nat l) as Hpow.
  { rewrite -Z.pow_add_r; [lia..|]. f_equal. lia. }
  pose proof (pow2_gt0 l). pose proof (pow2_gt0 d).
  cbn [postorder_loop Nat.add]. rewrite shr1_full.
  destruct (decide (p < 2 ^ Z.of_nat d)) as [Hlt|Hge].
  - rewrite (proj2 (Z.leb_gt _ _)); [|apply IH; lia].
    unfold post. rewrite !pow2_S Hpow. pose proof (count_ones_nonneg p). nia.
  - set (q := p - 2 ^ Z.of_nat d). rewrite pow2_S in Hp.
    assert (0 ≤ q < 2 ^ Z.of_nat d) as Hq by lia.
    assert (post l p = post l q + (2 ^ Z.of_nat (S (d + l)) - 1)) as ->.
    { unfold post. replace p with (q + 2 ^ Z.of_nat d) by lia. rewrite count_ones_top //.
      rewrite !pow2_S Hpow. lia. }
    pose proof (count_ones_le q ltac:(lia)).
    assert (0 ≤ post l q) by (unfold post; rewrite pow2_S; nia).
    rewrite (proj2 (Z.leb_le _ _)); [lia|]. rewrite Z.add_simpl_r IH //. f_equal. f_equal.
    rewrite -Z.lor_assoc. f_equal. rewrite Z.shiftl_1_l Hpow.
    replace p with (2 ^ Z.of_nat d + q) by lia. rewrite Z.mul_add_distr_r.
    rewrite -Hpow -(Z.mul_1_l (2 ^ Z.of_nat (d + l))). apply lor_split; [|lia]. rewrite Hpow. nia.
Qed.

Lemma postorder_to_inorder_post l p :
  coord l p → postorder_to_inorder (post l p) = Ret (node l p).
Proof.
  intros Hc. destruct (Hc) as [Hl Hp]. unfold postorder_to_inorder, u64_max.
  pose proof (postorder_loop_spec l (63 - l) p 0) as Hloop.
  replace (63 - l + l)%nat with 63%nat in Hloop by lia.
  rewrite Nat2Z.inj_sub // in Hloop. specialize (Hloop Hp).
  assert (postorder_loop 64 (post l p) (2 ^ 64 - 1) 0 = postorder_loop 63 (post l p) (2 ^ 63 - 1) 0) as ->.
  { pose proof (post_range l p Hc). rewrite postorder_loop_skip; [lia|]. f_equal. }
  rewrite Hloop Z.lor_0_l. unfold wrap. rewrite Z.mod_small; [lia|].
  rewrite u64_shr_Ret /=; [lia|]. pose proof (pow2_gt0 l).
  replace (Z.shiftr _ _) with p; [by rewrite from_level_and_pos_node|].
  rewrite Z.ones_equiv lor_split; [lia|lia|]. rewrite Z.shiftr_div_pow2; [lia|].
  apply (Z.div_unique _ _ _ (Z.pred (2 ^ Z.of_nat l))); lia.
Qed.

(** Every number but the last is the post-order number of a node. *)
Lemma post_surjective (k : nat) n :
  0 ≤ n < 2 ^ Z.of_nat (S k) - 1 →
  ∃ l p, n = post l p ∧ (l ≤ k)%nat ∧ 0 ≤ p < 2 ^ Z.of_nat (k - l).
Proof.
  revert n; induction k as [|k IH]; intros n Hn.
  { exists 0%nat, 0. change (2 ^ Z.of_nat 1) with 2 in Hn. unfold post. simpl. lia. }
  rewrite pow2_S in Hn. pose proof (pow2_gt0 (S k)).
  destruct (decide (n < 2 ^ Z.of_nat (S k) - 1)) as [Hlt|Hge].
  { destruct (IH n ltac:(lia)) as (l & p & -> & Hl & Hp). exists l, p. split; [done|].
    split; [lia|]. pose proof (pow2_le (k - l) (S k - l)). lia. }
  destruct (decide (n = 2 * 2 ^ Z.of_nat (S k) - 2)) as [->|Hne].
  { exists (S k), 0. rewrite Nat.sub_diag. unfold post. rewrite !pow2_S. simpl. lia. }
  destruct (IH (n - (2 ^ Z.of_nat (S k) - 1)) ltac:(lia)) as (l & p & Heq & Hl & Hp).
  exists l, (p + 2 ^ Z.of_nat (k - l)). split; [|split; [lia|]].
  - assert (2 ^ Z.of_nat k = 2 ^ Z.of_nat (k - l) * 2 ^ Z.of_nat l) as Hpow.
    { rewrite -Z.pow_add_r; [lia..|]. f_equal. lia. }
    rewrite pow2_S in Heq. unfold post in Heq |- *. rewrite count_ones_top // pow2_S in Heq |- *. lia.
  - replace (S k - l)%nat with (S (k - l)) by lia. rewrite pow2_S. lia.
Qed.

Lemma post_cases n :
  0 ≤ n < 2 ^ 64 - 1 → ∃ l p, coord l p ∧ n = post l p.
Proof.
  intros Hn. destruct (post_surjective 63 n Hn) as (l & p & -> & Hl & Hp).
  exists l, p. split; [|done]. split; [done|]. by rewrite Nat2Z.inj_sub in Hp.
Qed.

Lemma from_postorder_index_post l p :
  coord l p → from_postorder_index (post l p) = Ret (Ok (node l p)).
Proof.
  intros Hc. pose proof (post_range _ _ Hc). unfold from_postorder_index.
  change (u64_not 0) with (2 ^ 64 - 1). rewrite (proj2 (Z.ltb_lt _ _)) /=; [lia|].
  by rewrite postorder_to_inorder_post.
Qed.

Lemma level_63 l p : coord l p → (l < 63)%nat ∨ (l = 63%nat ∧ p = 0).
Proof.
  intros Hc. destruct (decide (l = 63%nat)) as [->|]; [right; split; [done|by apply coord_63]|].
  left. destruct Hc. lia.
Qed.

Lemma from_to_postorder n :
  0 ≤ n < 2 ^ 64 - 2 → ∃ v, from_postorder_index n = Ret (Ok v) ∧ to_postorder_index v = Ret n.
Proof.
  intros Hn. destruct (post_cases n) as (l & p & Hc & ->); [lia|].
  exists (node l p). split; [by apply from_postorder_index_post|].
  destruct (level_63 _ _ Hc) as [Hl|[-> ->]]; [by apply inorder_to_postorder_node|].
  assert (post 63 0 = 2 ^ 64 - 2) by (vm_compute; done). lia.
Qed.


Lemma sibling_coord l p : coord l p → (l < 63)%nat → coord l (sibling_pos p).
Proof.
  intros [Hl Hp] Hlt. split; [done|]. unfold sibling_pos.
  replace (63 - Z.of_nat l) with (Z.succ (62 - Z.of_nat l)) in * by lia.
  rewrite Z.pow_succ_r in Hp |- *; [lia|]. rewrite -Z.negb_odd.
  pose proof (Z.div2_odd p). destruct (Z.odd p); simpl in *; lia.
Qed.

Lemma parent_coord l p : coord l p → (l < 63)%nat → coord (S l) (p / 2).
Proof.
  intros [Hl Hp] Hlt. split; [lia|].
  replace (63 - Z.of_nat l) with (Z.succ (63 - Z.of_nat (S l))) in * by lia.
  rewrite Z.pow_succ_r in Hp; [lia|].
  split; [apply Z.div_pos; lia|apply Z.div_lt_upper_bound; lia].
Qed.

(** Every number below [2^64 - 1] is the in-order number of one node of the tree
    of [2^63] leaves, and the bit manipulations move in that tree: the level is the
    node's, the children of the [p]-th node of a level are the [2p]-th and
    [2p+1]-th of the level below, the parent of the [p]-th is the [p/2]-th of the
    level above, siblings differ in the last bit of the index, and the outermost
    leaves of the subtree are the first and last of its [2^level] leaves.  No
    operation panics but on a leaf's children, on the parent of the root, and on
    the very last leaf, whose number the assertions exclude. *)
Theorem position_moves v :
  0 ≤ v < 2 ^ 64 - 1 →
  ∃ l p, coord l p ∧ v = node l p ∧ level v = Z.of_nat l ∧ is_leaf v = (l =? 0)%nat ∧
    from_level_and_pos (Z.of_nat l) p = Ret v ∧
    left_most_child v = Ret (node 0 (p * 2 ^ Z.of_nat l)) ∧
    right_most_child v = Ret (node 0 (p * 2 ^ Z.of_nat l + (2 ^ Z.of_nat l - 1))) ∧
    (∀ l', l = S l' →
       left_child v = Ret (node l' (2 * p)) ∧ coord l' (2 * p) ∧
       right_child v = Ret (node l' (2 * p + 1)) ∧ coord l' (2 * p + 1)) ∧
    ((l < 63)%nat → v < 2 ^ 64 - 2 →
       parent v = Ret (node (S l) (p / 2)) ∧ coord (S l) (p / 2) ∧
       is_left_child v = Ret (Z.even p) ∧ is_right_child v = Ret (Z.odd p) ∧
       sibling v = Ret (node l (sibling_pos p)) ∧ coord l (sibling_pos p)).
Proof.
  intros Hv. destruct (coordinates v Hv) as (l & p & Hc & ->). exists l, p.
  repeat (split; [first [done | by apply level_node | by apply is_leaf_node
    | by apply from_level_and_pos_node | by apply left_most_child_node]|]).
  split; [rewrite right_most_child_node //; do 2 f_equal; lia|]. split.
  - intros l' ->. split; [by apply left_child_node|]. split; [exact (child_coord _ _ Left Hc)|].
    split; [by apply right_child_node|exact (child_coord _ _ Right Hc)].
  - intros Hl Hlast. assert ((0 < l)%nat ∨ p < 2 ^ 63 - 1).
    { destruct l as [|l]; [right|left; lia]. rewrite node_0 in Hlast. lia. }
    split; [by apply parent_node|]. split; [by apply parent_coord|].
    split; [by apply is_left_child_node|]. split; [by apply is_right_child_node|].
    split; [by apply sibling_node|by apply sibling_coord].
Qed.

Lemma position_moves_witness :
  0 ≤ 5 < 2 ^ 64 - 1 ∧
  ∃ l p, coord l p ∧ 5 = node l p ∧ level 5 = Z.of_nat l ∧ left_child 5 = Ret 4 ∧ parent 5 = Ret 3.
Proof.
  split; [lia|]. destruct (position_moves 5 ltac:(lia)) as (l & p & Hc & Hv & Hl & _).
  exists l, p. by repeat (split; [done|]).
Defined.

