(* ===== verification/FrozenSubtrees.v ===== *)
(** * Frozen subtrees

    An accumulator of [n] leaves consists of one perfect subtree for every bit set
    in [n], the largest on the left.  [frozen] lists their roots; the two iterators
    of [types/src/proof/position/mod.rs] are shown to enumerate them: those of an
    accumulator, and those that extend an accumulator to a larger one. *)
From S2P Require Import Prelude U64 Position.
Local Open Scope Z_scope.

(** The roots of the perfect subtrees of [m] units of level [i], largest first. *)
Fixpoint frozen_pos (i : nat) (m : positive) : list (nat * Z) :=
  match m with
  | xH => [(i, 0)]
  | xO m' => frozen_pos (S i) m'
  | xI m' => frozen_pos (S i) m' ++ [(i, 2 * Z.pos m')]
  end.
Definition frozen (i : nat) (m : Z) : list (nat * Z) :=
  match m with Z.pos p => frozen_pos i p | _ => [] end.

Lemma frozen_odd i m : 0 ≤ m → frozen i (2 * m + 1) = frozen (S i) m ++ [(i, 2 * m)].
Proof. destruct m; [done|done|lia]. Qed.

Lemma frozen_even i m : frozen i (2 * m) = frozen (S i) m.
Proof. by destruct m. Qed.

(** Each of them lies within the [m] units, at an even index, and is no smaller than
    a unit. *)
Lemma elem_of_frozen m i l p :
  0 ≤ m → (l, p) ∈ frozen i m →
  (i ≤ l)%nat ∧ 0 ≤ p ∧ (p + 1) * 2 ^ Z.of_nat l ≤ m * 2 ^ Z.of_nat i.
Proof.
  intros Hm. revert i l p. binary_induction m Hm.
  - by intros i l p ?%elem_of_nil.
  - intros m Hm IH i l p. rewrite frozen_odd // elem_of_app list_elem_of_singleton.
    pose proof (pow2_gt0 i). intros [(? & ? & Hw)%IH|[= -> ->]].
    + rewrite pow2_S in Hw. lia.
    + lia.
  - intros m Hm IH i l p. rewrite frozen_even. intros (? & ? & Hw)%IH. rewrite pow2_S in Hw. lia.
Qed.

Lemma length_frozen m i : 0 ≤ m → Z.of_nat (length (frozen i m)) = count_ones m.
Proof.
  intros Hm. revert i. binary_induction m Hm; [done|..]; intros m Hm IH i.
  - rewrite frozen_odd // length_app count_ones_double_succ //= -(IH (S i)). lia.
  - by rewrite frozen_even count_ones_double.
Qed.

(** Units counted in groups of [2^k]. *)
Lemma frozen_shift (k i : nat) a : frozen i (a * 2 ^ Z.of_nat k) = frozen (i + k) a.
Proof.
  revert i; induction k as [|k IH]; intros i; [by rewrite Z.mul_1_r Nat.add_0_r|].
  rewrite pow2_S. replace (a * (2 * 2 ^ Z.of_nat k)) with (2 * (a * 2 ^ Z.of_nat k)) by lia.
  rewrite frozen_even IH. f_equal. lia.
Qed.

(** The subtrees after the first [a] groups of [2^k] units are those of the
    remaining units, moved to the right. *)
Lemma frozen_app (k i : nat) a b :
  0 ≤ a → 0 ≤ b < 2 ^ Z.of_nat k →
  frozen i (a * 2 ^ Z.of_nat k + b) =
    frozen (i + k) a ++
    ((λ '(l, p), (l, p + a * 2 ^ (Z.of_nat k + Z.of_nat i - Z.of_nat l))) <$> frozen i b).
Proof.
  intros Ha. revert i b; induction k as [|k IH]; intros i b Hb.
  { change (2 ^ Z.of_nat 0) with 1 in *. replace b with 0 by lia.
    by rewrite Z.mul_1_r Z.add_0_r Nat.add_0_r app_nil_r. }
  rewrite pow2_S in Hb |- *. destruct (Z_double_cases b) as [c [->| ->]].
  - replace (a * (2 * 2 ^ Z.of_nat k) + (2 * c + 1)) with (2 * (a * 2 ^ Z.of_nat k + c) + 1) by lia.
    rewrite !frozen_odd; [lia|nia|]. rewrite IH; [lia|]. rewrite fmap_app /= app_assoc.
    f_equal; [f_equal; [f_equal; lia|]|].
    + apply list_fmap_ext. intros _ [l p] _. do 4 f_equal. lia.
    + do 2 f_equal. replace (Z.of_nat (S k) + Z.of_nat i - Z.of_nat i) with (Z.of_nat (S k)) by lia.
      rewrite pow2_S. lia.
  - replace (a * (2 * 2 ^ Z.of_nat k) + 2 * c) with (2 * (a * 2 ^ Z.of_nat k + c)) by lia.
    rewrite !frozen_even IH; [lia|]. replace (S i + k)%nat with (i + S k)%nat by lia. f_equal.
    apply list_fmap_ext. intros _ [l p] _. do 4 f_equal. lia.
Qed.

(** In-order numbers of a list of nodes. *)
Definition nodes (xs : list (nat * Z)) : list Position := (λ '(l, p), node l p) <$> xs.

Lemma nodes_app (k : nat) a b :
  0 ≤ a → 0 ≤ b < 2 ^ Z.of_nat k →
  nodes (frozen 0 (a * 2 ^ Z.of_nat k + b)) =
    nodes (frozen k a) ++ ((λ v, v + 2 * (a * 2 ^ Z.of_nat k)) <$> nodes (frozen 0 b)).
Proof.
  intros Ha Hb. rewrite frozen_app // /nodes fmap_app -!list_fmap_compose. f_equal.
  apply list_fmap_ext. intros j [l p] Hj%list_elem_of_lookup_2. simpl.
  apply elem_of_frozen in Hj as (_ & Hp & Hw); [|lia]. change (2 ^ Z.of_nat 0) with 1 in Hw.
  assert (l < k)%nat.
  { destruct (decide (l < k)%nat) as [|Hge]; [done|]. pose proof (pow2_le k l ltac:(lia)). nia. }
  unfold node. rewrite !pow2_add1.
  replace (2 ^ Z.of_nat k) with (2 ^ (Z.of_nat k + 0 - Z.of_nat l) * 2 ^ Z.of_nat l); [lia|].
  rewrite -Z.pow_add_r; [lia..|]. f_equal. lia.
Qed.

Lemma nodes_top (t : nat) b :
  0 ≤ b < 2 ^ Z.of_nat t →
  nodes (frozen 0 (2 ^ Z.of_nat t + b)) =
    (2 ^ Z.of_nat t - 1) :: ((λ v, v + 2 * 2 ^ Z.of_nat t) <$> nodes (frozen 0 b)).
Proof. intros Hb. pose proof (nodes_app t 1 b ltac:(lia) Hb) as H. by rewrite Z.mul_1_l in H. Qed.

Lemma top_bit b : 0 < b → ∃ (t : nat) b', b = 2 ^ Z.of_nat t + b' ∧ 0 ≤ b' < 2 ^ Z.of_nat t.
Proof.
  intros Hb. pose proof (Z.log2_spec b Hb) as Hl. pose proof (Z.log2_nonneg b).
  exists (Z.to_nat (Z.log2 b)), (b - 2 ^ Z.log2 b). rewrite Z2Nat.id //.
  rewrite Z.pow_succ_r // in Hl. lia.
Qed.

(** ** The subtrees of an accumulator *)

Lemma land_not_top (t : nat) b :
  (t < 64)%nat → 0 ≤ b < 2 ^ Z.of_nat t →
  Z.land (2 ^ Z.of_nat t + b) (u64_not (2 ^ Z.of_nat t)) = b.
Proof.
  intros Ht Hb. apply Z.bits_inj'; intros i Hi. rewrite Z.land_spec testbit_not //.
  rewrite -{1}(Z.mul_1_l (2 ^ Z.of_nat t)) testbit_split //; [lia|].
  rewrite Z.pow2_bits_eqb; [lia|].
  destruct (Z.ltb_spec i (Z.of_nat t)).
  - split_comparisons. by rewrite andb_true_r.
  - rewrite (testbit_above b (Z.of_nat t)) //; [lia|]. rewrite testbit_1; [lia|].
    destruct (Z.eqb_spec 0 (i - Z.of_nat t)), (Z.eqb_spec (Z.of_nat t) i); try lia.
    rewrite (proj2 (Z.ltb_lt i 64)) //. lia.
Qed.

Lemma pow2_64 (t : nat) b : 2 ^ Z.of_nat t + b ≤ 2 ^ 63 → 0 ≤ b → (t < 64)%nat.
Proof.
  intros Ht Hb. destruct (decide (t < 64)%nat) as [|Hge]; [done|].
  pose proof (pow2_le 64 t ltac:(lia)). change (2 ^ Z.of_nat 64) with (2 * 2 ^ 63) in *. lia.
Qed.

Lemma log2_top (t : nat) b : 0 ≤ b < 2 ^ Z.of_nat t → Z.log2 (2 ^ Z.of_nat t + b) = Z.of_nat t.
Proof. intros Hb. apply Z.log2_unique'  with b; lia. Qed.

Lemma FrozenSubTreeIterator_next_spec (t : nat) b s :
  0 ≤ b < 2 ^ Z.of_nat t → 0 ≤ s → s + (2 ^ Z.of_nat t + b) ≤ 2 ^ 63 →
  FrozenSubTreeIterator_next (mkFrozenSubTreeIterator (2 ^ Z.of_nat t + b) s)
  = Ret (Some (2 * s + (2 ^ Z.of_nat t - 1)), mkFrozenSubTreeIterator b (s + 2 ^ Z.of_nat t)).
Proof.
  intros Hb Hs Hsum. pose proof (pow2_gt0 t). pose proof (pow2_64 t b ltac:(lia) ltac:(lia)) as Ht.
  unfold FrozenSubTreeIterator_next; cbn [bitmap seen_leaves].
  u64_run.
  rewrite (proj2 (Z.ltb_lt s _)); [unfold u64_max; lia|]; run.
  destruct (Z.eqb_spec (2 ^ Z.of_nat t + b) 0); [lia|].
  rewrite smear_ones_spec; [lia|]. rewrite log2_top // shr1_ones; [lia|].
  rewrite (proj2 (Z.ltb_lt (2 ^ Z.of_nat t - 1) _)); [lia|]; run.
  u64_run.
  rewrite from_leaf_index_node; [lia|]; run. rewrite node_0.
  unfold to_inorder_index. u64_run.
  rewrite Z.sub_add land_not_top //.
Qed.

Lemma drain_subtrees (fuel : nat) b s :
  0 ≤ b → 0 ≤ s → s + b ≤ 2 ^ 63 → count_ones b < Z.of_nat fuel →
  drain FrozenSubTreeIterator_next fuel (mkFrozenSubTreeIterator b s)
  = Ret (Some ((λ v, v + 2 * s) <$> nodes (frozen 0 b))).
Proof.
  revert b s; induction fuel as [|fuel IH]; intros b s Hb Hs Hsum Hfuel.
  { pose proof (count_ones_nonneg b). lia. }
  destruct (decide (b = 0)) as [->|Hne]; cbn [drain].
  { unfold FrozenSubTreeIterator_next; cbn [bitmap seen_leaves].
    rewrite u64_sub_Ret /=; [unfold u64_max; lia|].
    by rewrite (proj2 (Z.ltb_lt s _)) /=; [unfold u64_max; lia|]. }
  destruct (top_bit b) as (t & b' & -> & Hb'); [lia|].
  rewrite FrozenSubTreeIterator_next_spec //=. rewrite IH; [lia..| |].
  { rewrite Z.add_comm count_ones_top // in Hfuel. lia. }
  rewrite nodes_top // fmap_cons; run. cbn [option_map].
  replace (2 * s + (2 ^ Z.of_nat t - 1)) with (2 ^ Z.of_nat t - 1 + 2 * s) by lia. do 3 f_equal.
  generalize (nodes (frozen 0 b')). intros xs. rewrite -list_fmap_compose.
  apply list_fmap_ext. intros _ v _. simpl. lia.
Qed.

Lemma count_ones_bound (k : nat) m : 0 ≤ m < 2 ^ Z.of_nat k → count_ones m ≤ Z.of_nat k.
Proof.
  revert m; induction k as [|k IH]; intros m Hm.
  { change (2 ^ Z.of_nat 0) with 1 in Hm. by replace m with 0 by lia. }
  rewrite pow2_S in Hm. destruct (Z_double_cases m) as [q [->| ->]].
  - rewrite count_ones_double_succ; [lia|]. specialize (IH q). lia.
  - rewrite count_ones_double. specialize (IH q). lia.
Qed.

(** ** The subtrees that extend an accumulator *)

Lemma odd_part c : 0 < c → ∃ (i : nat) a, 0 ≤ a ∧ c = (2 * a + 1) * 2 ^ Z.of_nat i.
Proof.
  intros Hc. assert (0 ≤ c) as Hc' by lia. revert Hc. binary_induction c Hc'.
  - lia.
  - intros m Hm _ _. exists 0%nat, m. change (2 ^ Z.of_nat 0) with 1. lia.
  - intros m Hm IH _. destruct (IH Hm) as (i & a & Ha & ->). exists (S i), a. rewrite pow2_S. lia.
Qed.

Lemma trailing_zeros_odd (i : nat) a :
  (i < 64)%nat → trailing_zeros ((2 * a + 1) * 2 ^ Z.of_nat i) = Z.of_nat i.
Proof.
  intros Hi. pose proof (pow2_gt0 i). apply trailing_zeros_unique; [lia|..].
  - intros j Hj. rewrite -(Z.add_0_r (_ * 2 ^ _)) testbit_split; [lia..|].
    rewrite (proj2 (Z.ltb_lt j _)); [lia|]. apply Z.bits_0.
  - intros _. rewrite -(Z.add_0_r (_ * 2 ^ _)) testbit_split; [lia..|].
    rewrite Z.ltb_irrefl Z.sub_diag. apply Z.testbit_odd_0.
Qed.

(** [c] is a multiple of [2^k], and so of every smaller power. *)
Lemma trailing_zeros_multiple (k : nat) a c :
  0 < c → c = a * 2 ^ Z.of_nat k → c ≤ 2 ^ 63 →
  ∃ (i : nat), trailing_zeros c = Z.of_nat i ∧ (k ≤ i < 64)%nat.
Proof.
  intros Hc Heq Hmax. destruct (odd_part c Hc) as (i & b & Hb & Hodd).
  pose proof (pow2_gt0 i). assert (i < 64)%nat by (apply (pow2_64 i 0); nia).
  exists i. split; [rewrite Hodd; by apply trailing_zeros_odd|]. split; [|done].
  destruct (decide (k ≤ i)%nat) as [|Hlt]; [done|]. exfalso.
  replace k with (S (k - S i) + i)%nat in Heq by lia.
  rewrite Nat2Z.inj_add Z.pow_add_r in Heq; [lia..|]. rewrite pow2_S in Heq.
  assert (2 * b + 1 = 2 * (a * 2 ^ Z.of_nat (k - S i))); [|lia].
  apply (Z.mul_reg_r _ _ (2 ^ Z.of_nat i)); lia.
Qed.

(** The subtrees of [r] leaves to the right of [c]. *)
Definition tail_subtrees (c r : Z) : list (nat * Z) :=
  (λ '(l, p), (l, p + c / 2 ^ Z.of_nat l)) <$> frozen 0 r.

(** First the subtrees that complete the rightmost one, at most [k] of them. *)
Fixpoint extension (k : nat) (c r : Z) : list (nat * Z) :=
  match k with
  | O => tail_subtrees c r
  | S k' =>
      if (0 <? c) && (2 ^ trailing_zeros c <=? r) then
        (Z.to_nat (trailing_zeros c), c / 2 ^ trailing_zeros c)
          :: extension k' (c + 2 ^ trailing_zeros c) (r - 2 ^ trailing_zeros c)
      else tail_subtrees c r
  end.

Lemma nodes_tail (k : nat) a r :
  0 ≤ a → 0 ≤ r < 2 ^ Z.of_nat k →
  nodes (tail_subtrees (a * 2 ^ Z.of_nat k) r)
  = (λ v, v + 2 * (a * 2 ^ Z.of_nat k)) <$> nodes (frozen 0 r).
Proof.
  intros Ha Hr. unfold nodes, tail_subtrees. rewrite -!list_fmap_compose.
  apply list_fmap_ext. intros j [l p] Hj%list_elem_of_lookup_2. simpl.
  apply elem_of_frozen in Hj as (_ & Hp & Hw); [|lia]. change (2 ^ Z.of_nat 0) with 1 in Hw.
  assert (l < k)%nat.
  { destruct (decide (l < k)%nat) as [|Hge]; [done|]. pose proof (pow2_le k l ltac:(lia)). nia. }
  replace k with (k - l + l)%nat by lia. rewrite Nat2Z.inj_add Z.pow_add_r; [lia..|].
  pose proof (pow2_gt0 l). rewrite Z.mul_assoc Z.div_mul; [lia|].
  unfold node. rewrite !pow2_add1. lia.
Qed.

(** [FrozenSubtreeSiblingIterator::next] gives a subtree that fits. *)
Lemma sibling_next_emit c r (l : nat) a :
  0 ≤ a → c = a * 2 ^ Z.of_nat l → 2 ^ Z.of_nat l ≤ r → c + r ≤ 2 ^ 63 →
  (if 0 <? c then
     rightmost ← u64_shl 1 (trailing_zeros c);
     if rightmost <=? r then Ret rightmost
     else next_new_leaf_batch (mkFrozenSubtreeSiblingIterator c r)
   else next_new_leaf_batch (mkFrozenSubtreeSiblingIterator c r)) = Ret (2 ^ Z.of_nat l) →
  FrozenSubtreeSiblingIterator_next (mkFrozenSubtreeSiblingIterator c r)
  = Ret (Some (node l a), mkFrozenSubtreeSiblingIterator (c + 2 ^ Z.of_nat l) (r - 2 ^ Z.of_nat l)).
Proof.
  intros Ha Hc Hl Hsum Hsize. pose proof (pow2_gt0 l).
  assert (0 ≤ c) by nia.
  unfold FrozenSubtreeSiblingIterator_next. cbn [current_num_leaves remaining_new_leaves].
  destruct (Z.eqb_spec r 0); [lia|]. rewrite Hsize; run.
  u64_run.
  do 3 f_equal. unfold from_inorder_index, node. rewrite pow2_add1. lia.
Qed.

Lemma next_new_leaf_batch_spec c (t : nat) r :
  0 ≤ r < 2 ^ Z.of_nat t → 2 ^ Z.of_nat t + r ≤ 2 ^ 63 →
  next_new_leaf_batch (mkFrozenSubtreeSiblingIterator c (2 ^ Z.of_nat t + r)) = Ret (2 ^ Z.of_nat t).
Proof.
  intros Hr Hsum. pose proof (pow2_gt0 t). pose proof (pow2_64 t r Hsum ltac:(lia)).
  unfold next_new_leaf_batch, leading_zeros, MAX_ACCUMULATOR_PROOF_DEPTH. cbn [remaining_new_leaves].
  destruct (Z.eqb_spec (2 ^ Z.of_nat t + r) 0); [lia|]. rewrite log2_top //.
  u64_run. rewrite u64_shl_Ret; [lia|]. rewrite Z.shiftl_1_l.
  replace (63 - (63 - Z.of_nat t)) with (Z.of_nat t) by lia. rewrite wrap_small //.
  split; [lia|]. apply Z.pow_lt_mono_r; lia.
Qed.

Lemma shl_1 (i : nat) : (i < 64)%nat → u64_shl 1 (Z.of_nat i) = Ret (2 ^ Z.of_nat i).
Proof.
  intros Hi. rewrite u64_shl_Ret; [lia|]. rewrite Z.shiftl_1_l wrap_small //.
  pose proof (pow2_gt0 i). split; [lia|]. apply Z.pow_lt_mono_r; lia.
Qed.

Lemma drain_tail (fuel k : nat) a r :
  0 ≤ a → 0 ≤ r < 2 ^ Z.of_nat k → a * 2 ^ Z.of_nat k + r ≤ 2 ^ 63 → count_ones r < Z.of_nat fuel →
  drain FrozenSubtreeSiblingIterator_next fuel (mkFrozenSubtreeSiblingIterator (a * 2 ^ Z.of_nat k) r)
  = Ret (Some (nodes (tail_subtrees (a * 2 ^ Z.of_nat k) r))).
Proof.
  revert k a r; induction fuel as [|fuel IH]; intros k a r Ha Hr Hsum Hfuel.
  { pose proof (count_ones_nonneg r). lia. }
  destruct (decide (r = 0)) as [->|Hne]; [done|]. cbn [drain].
  destruct (top_bit r) as (t & r' & -> & Hr'); [lia|].
  pose proof (pow2_gt0 t). assert (t < k)%nat as Htk.
  { destruct (decide (t < k)%nat) as [|Hge]; [done|]. pose proof (pow2_le k t ltac:(lia)). lia. }
  assert (a * 2 ^ Z.of_nat k = (a * 2 ^ Z.of_nat (k - t)) * 2 ^ Z.of_nat t) as Hc.
  { rewrite -Z.mul_assoc -Z.pow_add_r; [lia..|]. do 2 f_equal. lia. }
  rewrite (sibling_next_emit _ _ t (a * 2 ^ Z.of_nat (k - t))) //; [|lia| |].
  { pose proof (pow2_gt0 (k - t)). nia. }
  { destruct (Z.ltb_spec 0 (a * 2 ^ Z.of_nat k)); [|apply next_new_leaf_batch_spec; nia].
    destruct (trailing_zeros_multiple k a (a * 2 ^ Z.of_nat k)) as (i & -> & Hi); [lia..|].
    rewrite shl_1; [lia|]; run. pose proof (pow2_le k i ltac:(lia)).
    rewrite (proj2 (Z.leb_gt _ _)); [lia|]. apply next_new_leaf_batch_spec; nia. }
  run. assert (a * 2 ^ Z.of_nat k + 2 ^ Z.of_nat t
    = (a * 2 ^ Z.of_nat (k - t) + 1) * 2 ^ Z.of_nat t) as Hc' by lia.
  rewrite Hc' Z.add_simpl_l. pose proof (pow2_gt0 (k - t)). rewrite IH; [nia|lia|lia| |].
  { rewrite Z.add_comm count_ones_top // in Hfuel. lia. }
  run. rewrite nodes_tail //; [nia|]. rewrite nodes_tail; [lia..|]. rewrite nodes_top // fmap_cons.
  cbn [option_map]. do 3 f_equal; [unfold node; rewrite pow2_add1 Hc; lia|].
  generalize (nodes (frozen 0 r')). intros xs. rewrite -list_fmap_compose.
  apply list_fmap_ext. intros _ v _. simpl. lia.
Qed.

Lemma drain_extension (fuel k : nat) c r :
  0 ≤ c → 0 ≤ r → c + r ≤ 2 ^ 63 → (c = 0 ∨ 64 ≤ trailing_zeros c + Z.of_nat k) →
  (k + 65 ≤ fuel)%nat →
  drain FrozenSubtreeSiblingIterator_next fuel (mkFrozenSubtreeSiblingIterator c r)
  = Ret (Some (nodes (extension k c r))).
Proof.
  revert c r fuel; induction k as [|k IH]; intros c r fuel Hc Hr Hsum Htz Hfuel.
  all: assert (count_ones r ≤ 64) by (apply (count_ones_bound 64); change (2 ^ Z.of_nat 64) with (2 * 2 ^ 63); lia).
  all: destruct (decide (c = 0)) as [->|Hne].
  1,3: rewrite ?(Z.mul_0_l (2 ^ Z.of_nat 64)); apply (drain_tail fuel 64 0 r); [lia| |lia..];
    change (2 ^ Z.of_nat 64) with (2 * 2 ^ 63); lia.
  all: destruct (odd_part c) as (i & a & Ha & Heq); [lia|]; pose proof (pow2_gt0 i);
    (assert (i < 64)%nat as Hi by (apply (pow2_64 i 0); nia));
    (assert (trailing_zeros c = Z.of_nat i) as Hz by (rewrite Heq; by apply trailing_zeros_odd)).
  { lia. }
  cbn [extension]. rewrite (proj2 (Z.ltb_lt 0 c)); [lia|]. rewrite Hz; cbn [andb].
  destruct (Z.leb_spec (2 ^ Z.of_nat i) r) as [Hle|Hgt].
  - destruct fuel as [|fuel]; [lia|]. cbn [drain].
    rewrite (sibling_next_emit c r i (2 * a + 1)) //; [lia| |].
    { rewrite (proj2 (Z.ltb_lt 0 c)); [lia|]. rewrite Hz shl_1 //; run.
      by rewrite (proj2 (Z.leb_le _ _) Hle). }
    run. destruct (trailing_zeros_multiple (S i) (a + 1) (c + 2 ^ Z.of_nat i)) as (j & Hj & ?);
      [lia|rewrite pow2_S; lia|lia|].
    rewrite IH; [lia..|]. run. cbn [option_map nodes fmap list_fmap].
    do 3 f_equal. rewrite Heq Z.div_mul; [lia|]. f_equal. lia.
  - rewrite Heq. apply drain_tail; lia.
Qed.

(** ** The subtrees cover consecutive leaves *)

(** The subtrees of [xs] start at leaf [s], each where the previous one ends, and end
    before leaf [e]. *)
Fixpoint tiles (s : Z) (xs : list (nat * Z)) (e : Z) : Prop :=
  match xs with
  | [] => s = e
  | (l, p) :: xs' => p * 2 ^ Z.of_nat l = s ∧ tiles (s + 2 ^ Z.of_nat l) xs' e
  end.

Lemma tiles_app s xs ys e : tiles s (xs ++ ys) e ↔ ∃ m, tiles s xs m ∧ tiles m ys e.
Proof.
  revert s; induction xs as [|[l p] xs IH]; intros s; simpl; [naive_solver|].
  rewrite IH. naive_solver.
Qed.

Lemma tiles_end s xs e e' : tiles s xs e → tiles s xs e' → e = e'.
Proof. revert s; induction xs as [|[l p] xs IH]; intros s; simpl; naive_solver. Qed.

Lemma frozen_tiles m i : 0 ≤ m → tiles 0 (frozen i m) (m * 2 ^ Z.of_nat i).
Proof.
  intros Hm. revert i. binary_induction m Hm; [done|..]; intros m Hm IH i.
  - rewrite frozen_odd // tiles_app. exists (m * 2 ^ Z.of_nat (S i)). split; [apply IH|].
    simpl. rewrite pow2_S. lia.
  - rewrite frozen_even. specialize (IH (S i)). rewrite pow2_S in IH.
    by replace (2 * m * 2 ^ Z.of_nat i) with (m * (2 * 2 ^ Z.of_nat i)) by lia.
Qed.

Lemma tail_frozen (k : nat) a r :
  0 ≤ a → 0 ≤ r < 2 ^ Z.of_nat k →
  frozen 0 (a * 2 ^ Z.of_nat k + r) = frozen k a ++ tail_subtrees (a * 2 ^ Z.of_nat k) r.
Proof.
  intros Ha Hr. rewrite frozen_app //. f_equal. unfold tail_subtrees.
  apply list_fmap_ext. intros j [l p] Hj%list_elem_of_lookup_2.
  apply elem_of_frozen in Hj as (_ & Hp & Hw); [|lia]. change (2 ^ Z.of_nat 0) with 1 in Hw.
  assert (l < k)%nat.
  { destruct (decide (l < k)%nat) as [|Hge]; [done|]. pose proof (pow2_le k l ltac:(lia)). nia. }
  do 2 f_equal. pose proof (pow2_gt0 l).
  replace (a * 2 ^ Z.of_nat k) with (a * 2 ^ (Z.of_nat k + Z.of_nat 0 - Z.of_nat l) * 2 ^ Z.of_nat l).
  - rewrite Z.div_mul; lia.
  - rewrite -Z.mul_assoc -Z.pow_add_r; [lia..|]. do 2 f_equal. lia.
Qed.

Lemma tail_tiles (k : nat) a r :
  0 ≤ a → 0 ≤ r < 2 ^ Z.of_nat k →
  tiles (a * 2 ^ Z.of_nat k) (tail_subtrees (a * 2 ^ Z.of_nat k) r) (a * 2 ^ Z.of_nat k + r).
Proof.
  intros Ha Hr. pose proof (pow2_gt0 k).
  pose proof (frozen_tiles (a * 2 ^ Z.of_nat k + r) 0 ltac:(nia)) as Ht.
  rewrite tail_frozen // tiles_app in Ht. destruct Ht as (m & Hm & Ht).
  pose proof (tiles_end _ _ _ _ Hm (frozen_tiles a k Ha)) as ->.
  change (2 ^ Z.of_nat 0) with 1 in Ht. by rewrite Z.mul_1_r in Ht.
Qed.

Lemma tail_0_tiles r : 0 ≤ r < 2 ^ 64 → tiles 0 (tail_subtrees 0 r) r.
Proof. apply (tail_tiles 64 0 r). done. Qed.

Lemma extension_tiles (k : nat) c r :
  0 ≤ c → 0 ≤ r → c + r ≤ 2 ^ 63 → (c = 0 ∨ 64 ≤ trailing_zeros c + Z.of_nat k) →
  tiles c (extension k c r) (c + r).
Proof.
  revert c r; induction k as [|k IH]; intros c r Hc Hr Hsum Htz.
  all: destruct (decide (c = 0)) as [->|Hne]; [apply tail_0_tiles; lia|].
  all: destruct (odd_part c) as (i & a & Ha & Heq); [lia|]; pose proof (pow2_gt0 i);
    (assert (i < 64)%nat as Hi by (apply (pow2_64 i 0); nia));
    (assert (trailing_zeros c = Z.of_nat i) as Hz by (rewrite Heq; by apply trailing_zeros_odd)).
  { lia. }
  cbn [extension]. rewrite (proj2 (Z.ltb_lt 0 c)); [lia|]. rewrite Hz; cbn [andb].
  destruct (Z.leb_spec (2 ^ Z.of_nat i) r) as [Hle|Hgt].
  - cbn [tiles]. rewrite Nat2Z.id. split; [rewrite {1}Heq Z.div_mul; lia|].
    destruct (trailing_zeros_multiple (S i) (a + 1) (c + 2 ^ Z.of_nat i)) as (j & Hj & ?);
      [lia|rewrite pow2_S; lia|lia|].
    replace (c + r) with (c + 2 ^ Z.of_nat i + (r - 2 ^ Z.of_nat i)) by lia. apply IH; lia.
  - rewrite Heq. apply tail_tiles; lia.
Qed.

Lemma extension_drains c n :
  0 ≤ c → c ≤ n ≤ 2 ^ 63 →
  ∃ it, FrozenSubtreeSiblingIterator_new c n = Ret it ∧
    drain FrozenSubtreeSiblingIterator_next 129 it = Ret (Some (nodes (extension 64 c (n - c)))) ∧
    tiles c (extension 64 c (n - c)) n.
Proof.
  intros Hc Hn. exists (mkFrozenSubtreeSiblingIterator c (n - c)).
  assert (c = 0 ∨ 64 ≤ trailing_zeros c + Z.of_nat 64).
  { destruct (decide (c = 0)) as [->|]; [by left|right].
    destruct (trailing_zeros_multiple 0 c c) as (i & -> & _); [lia| |lia|lia].
    change (2 ^ Z.of_nat 0) with 1. lia. }
  unfold FrozenSubtreeSiblingIterator_new. change MAX_ACCUMULATOR_LEAVES with (2 ^ 63).
  rewrite (proj2 (Z.leb_le n _)); [lia|]. rewrite (proj2 (Z.leb_le c n)); [lia|]. split; [done|].
  split; [apply drain_extension; lia|]. replace n with (c + (n - c)) at 2 by lia.
  apply extension_tiles; lia.
Qed.

(** Both iterators end and enumerate subtrees that cover the leaves.  For [n]
    leaves, [FrozenSubTreeIterator] ends within 65 calls and gives the in-order
    numbers of one perfect subtree per bit set in [n], covering the leaves from 0 to
    [n].  From [c] to [n] leaves, [FrozenSubtreeSiblingIterator] ends within 129
    calls, and its subtrees cover the leaves from [c] to [n]. *)
Theorem subtree_iterators c n :
  0 ≤ c → c ≤ n ≤ MAX_ACCUMULATOR_LEAVES →
  (∃ xs, drain FrozenSubTreeIterator_next 65 (FrozenSubTreeIterator_new n) = Ret (Some (nodes xs)) ∧
     tiles 0 xs n ∧ Z.of_nat (length xs) = count_ones n) ∧
  (∃ it xs, FrozenSubtreeSiblingIterator_new c n = Ret it ∧
     drain FrozenSubtreeSiblingIterator_next 129 it = Ret (Some (nodes xs)) ∧ tiles c xs n).
Proof.
  intros Hc Hn. change MAX_ACCUMULATOR_LEAVES with (2 ^ 63) in Hn. split.
  - exists (frozen 0 n). assert (count_ones n ≤ 64).
    { apply (count_ones_bound 64). change (2 ^ Z.of_nat 64) with (2 * 2 ^ 63). lia. }
    split; [|split; [|apply length_frozen; lia]].
    + unfold FrozenSubTreeIterator_new. rewrite drain_subtrees; [lia..|]. do 2 f_equal.
      rewrite -{2}(list_fmap_id (nodes _)). apply list_fmap_ext. intros. simpl. lia.
    + pose proof (frozen_tiles n 0 ltac:(lia)) as Ht.
      change (2 ^ Z.of_nat 0) with 1 in Ht. by rewrite Z.mul_1_r in Ht.
  - destruct (extension_drains c n) as (it & ?); [lia..|]. by exists it, (extension 64 c (n - c)).
Qed.

Lemma subtree_iterators_witness :
  drain FrozenSubTreeIterator_next 65 (FrozenSubTreeIterator_new 5) = Ret (Some [3; 8]) ∧
  ∃ it xs, FrozenSubtreeSiblingIterator_new 2 5 = Ret it ∧
    drain FrozenSubtreeSiblingIterator_next 129 it = Ret (Some (nodes xs)) ∧ tiles 2 xs 5.
Proof.
  split; [vm_compute; done|].
  destruct (subtree_iterators 2 5) as [_ H]; [lia|vm_compute; done|exact H].
Defined.
