(* ===== verification/Accumulator.v ===== *)
(** * In-memory accumulators

    Models [types/src/proof/accumulator/mod.rs]: an accumulator kept as the roots of
    its frozen subtrees, with the operations that append leaves and subtrees and
    compute the root hash.  The reference is the Merkle tree over the list of all
    leaves, [node_hash] and [root_of]; the cryptographic hasher is a parameter. *)
From S2P Require Import Prelude U64 Position FrozenSubtrees.
Local Open Scope Z_scope.

(** The hasher of a tree, with [MerkleTreeInternalNode::new(l, r).hash()], and the hash
    that stands for missing nodes. *)
Class MerkleHasher (HashValue : Type) : Type := {
  hash_internal_node : HashValue → HashValue → HashValue;
  ACCUMULATOR_PLACEHOLDER_HASH : HashValue;
}.

(** [Vec::pop]. *)
Definition vec_pop {A} (v : list A) : option (list A * A) :=
  match reverse v with
  | [] => None
  | x :: r => Some (reverse r, x)
  end.

Lemma vec_pop_app {A} (v : list A) x : vec_pop (v ++ [x]) = Some (v, x).
Proof. unfold vec_pop. by rewrite reverse_app /= reverse_involutive. Qed.

Section accumulator.
Context {HashValue : Type} {MH : MerkleHasher HashValue}.

Record InMemoryAccumulator : Type := mkInMemoryAccumulator {
  frozen_subtree_roots : list HashValue;
  num_leaves : Z;
  root_hash : HashValue;
}.

(** The loop [while bitmap > 0] of [compute_root_hash]; 64 rounds clear any [u64]. *)
Fixpoint root_loop (fuel : nat) (bitmap : Z) (current_hash : HashValue)
    (frozen_subtree_iter : list HashValue) : comp HashValue :=
  match fuel with
  | O => Ret current_hash
  | S fuel' =>
      if negb (0 <? bitmap) then Ret current_hash else
      if negb (Z.land bitmap 1 =? 0) then
        next ← expect (head frozen_subtree_iter);
        root_loop fuel' (shr1 bitmap) (hash_internal_node next current_hash)
          (tail frozen_subtree_iter)
      else
        root_loop fuel' (shr1 bitmap)
          (hash_internal_node current_hash ACCUMULATOR_PLACEHOLDER_HASH) frozen_subtree_iter
  end.

Definition compute_root_hash (frozen_subtree_roots : list HashValue) (num_leaves : Z) :
    comp HashValue :=
  match frozen_subtree_roots with
  | [] => Ret ACCUMULATOR_PLACEHOLDER_HASH
  | [r] => Ret r
  | _ =>
      bitmap ← u64_shr num_leaves (trailing_zeros num_leaves);
      root_loop u64_bits bitmap ACCUMULATOR_PLACEHOLDER_HASH (reverse frozen_subtree_roots)
  end.

(** [InMemoryAccumulator::new]; [Err] is the only error message. *)
Definition InMemoryAccumulator_new (frozen_subtree_roots : list HashValue) (num_leaves : Z) :
    comp (result unit InMemoryAccumulator) :=
  if negb (Z.of_nat (length frozen_subtree_roots) =? count_ones num_leaves) then Ret (Err tt) else
  root_hash ← compute_root_hash frozen_subtree_roots num_leaves;
  Ret (Ok (mkInMemoryAccumulator frozen_subtree_roots num_leaves root_hash)).

Definition new_empty : InMemoryAccumulator :=
  mkInMemoryAccumulator [] 0 ACCUMULATOR_PLACEHOLDER_HASH.

Definition InMemoryAccumulator_default : comp InMemoryAccumulator :=
  r ← InMemoryAccumulator_new [] 0; expect_ok r.

(** The loop [for _i in 0..num_trailing_ones] of [append_one]. *)
Fixpoint merge_loop (num_trailing_ones : nat) (frozen_subtree_roots : list HashValue) :
    comp (list HashValue) :=
  match num_trailing_ones with
  | O => Ret frozen_subtree_roots
  | S n =>
      '(roots, right_hash) ← expect (vec_pop frozen_subtree_roots);
      '(roots, left_hash) ← expect (vec_pop roots);
      merge_loop n (roots ++ [hash_internal_node left_hash right_hash])
  end.

Definition append_one (frozen_subtree_roots : list HashValue) (num_existing_leaves : Z)
    (leaf : HashValue) : comp (list HashValue) :=
  let frozen_subtree_roots := frozen_subtree_roots ++ [leaf] in
  let num_trailing_ones := trailing_zeros (u64_not num_existing_leaves) in
  merge_loop (Z.to_nat num_trailing_ones) frozen_subtree_roots.

(** The loop [for leaf in leaves] of [append]. *)
Fixpoint append_loop (leaves : list HashValue) (frozen_subtree_roots : list HashValue)
    (num_leaves : Z) : comp (list HashValue * Z) :=
  match leaves with
  | [] => Ret (frozen_subtree_roots, num_leaves)
  | leaf :: leaves' =>
      frozen_subtree_roots ← append_one frozen_subtree_roots num_leaves leaf;
      num_leaves ← u64_add num_leaves 1;
      append_loop leaves' frozen_subtree_roots num_leaves
  end.

Definition append (self : InMemoryAccumulator) (leaves : list HashValue) :
    comp InMemoryAccumulator :=
  '(roots, n) ← append_loop leaves (frozen_subtree_roots self) (num_leaves self);
  r ← InMemoryAccumulator_new roots n;
  expect_ok r.

Definition from_leaves (leaves : list HashValue) : comp InMemoryAccumulator :=
  acc ← InMemoryAccumulator_default; append acc leaves.

(** The inner loop [while current_num_leaves & mask != 0] of [append_subtrees]; the
    mask is shifted out after 64 rounds. *)
Fixpoint carry_loop (fuel : nat) (current_num_leaves mask : Z)
    (current_subtree_roots : list HashValue) (current_hash : HashValue) :
    comp (list HashValue * HashValue * Z) :=
  match fuel with
  | O => Ret (current_subtree_roots, current_hash, mask)
  | S fuel' =>
      if Z.land current_num_leaves mask =? 0
      then Ret (current_subtree_roots, current_hash, mask) else
      '(roots, left_hash) ← expect (vec_pop current_subtree_roots);
      carry_loop fuel' current_num_leaves (shl1 mask) roots (hash_internal_node left_hash current_hash)
  end.

(** The outer loop [while remaining_new_leaves >= rightmost_frozen_subtree_size]: every
    round takes a subtree, so the subtrees bound it.  It ends with the roots, the
    number of leaves they cover, the leaves that remain and the unused subtrees. *)
Fixpoint subtree_loop (subtree_iter current_subtree_roots : list HashValue)
    (current_num_leaves remaining_new_leaves rightmost_frozen_subtree_size : Z) :
    comp (result unit (list HashValue * Z * Z * list HashValue)) :=
  if negb (rightmost_frozen_subtree_size <=? remaining_new_leaves)
  then Ret (Ok (current_subtree_roots, current_num_leaves, remaining_new_leaves, subtree_iter))
  else match subtree_iter with
  | [] => Ret (Err tt)
  | subtree :: subtree_iter =>
      '(roots, current_hash, mask) ←
        carry_loop u64_bits current_num_leaves rightmost_frozen_subtree_size current_subtree_roots subtree;
      current ← u64_add current_num_leaves rightmost_frozen_subtree_size;
      subtree_loop subtree_iter (roots ++ [current_hash]) current
        (remaining_new_leaves - rightmost_frozen_subtree_size) mask
  end.

Definition append_subtrees (self : InMemoryAccumulator) (subtrees : list HashValue)
    (num_new_leaves : Z) : comp (result unit InMemoryAccumulator) :=
  room ← u64_sub MAX_ACCUMULATOR_LEAVES (num_leaves self);
  if negb (num_new_leaves <=? room) then Ret (Err tt) else
  if num_leaves self =? 0 then InMemoryAccumulator_new subtrees num_new_leaves else
  rightmost_frozen_subtree_size ← u64_shl 1 (trailing_zeros (num_leaves self));
  r ← subtree_loop subtrees (frozen_subtree_roots self) (num_leaves self) num_new_leaves
        rightmost_frozen_subtree_size;
  try r (λ '(roots, current, remaining, rest),
    current ← u64_add current remaining;
    InMemoryAccumulator_new (roots ++ rest) current).

Definition version (self : InMemoryAccumulator) : Z :=
  if num_leaves self =? 0 then 0 else num_leaves self - 1.

Definition is_empty (self : InMemoryAccumulator) : bool := num_leaves self =? 0.

(** ** The reference tree *)

Definition leaf_count (leaves : list HashValue) : Z := Z.of_nat (length leaves).

(** The hash of node [p] of level [l] in the tree over [leaves]: the placeholder where
    there is no leaf below it. *)
Fixpoint node_hash (leaves : list HashValue) (l : nat) (p : Z) : HashValue :=
  if leaf_count leaves <=? p * 2 ^ Z.of_nat l then ACCUMULATOR_PLACEHOLDER_HASH else
  match l with
  | O => default ACCUMULATOR_PLACEHOLDER_HASH (leaves !! Z.to_nat p)
  | S l' => hash_internal_node (node_hash leaves l' (2 * p)) (node_hash leaves l' (2 * p + 1))
  end.

(** The hash of the smallest tree that holds the leaves. *)
Definition root_of (leaves : list HashValue) : HashValue :=
  match leaves with
  | [] => ACCUMULATOR_PLACEHOLDER_HASH
  | _ => node_hash leaves (root_level (leaf_count leaves)) 0
  end.

(** The hashes of a list of nodes. *)
Definition hashes (leaves : list HashValue) (xs : list (nat * Z)) : list HashValue :=
  (λ '(l, p), node_hash leaves l p) <$> xs.

(** The accumulator of a list of leaves. *)
Definition acc_of (leaves : list HashValue) : InMemoryAccumulator :=
  mkInMemoryAccumulator (hashes leaves (frozen 0 (leaf_count leaves))) (leaf_count leaves)
    (root_of leaves).

Lemma leaf_count_app xs ys : leaf_count (xs ++ ys) = leaf_count xs + leaf_count ys.
Proof. unfold leaf_count. rewrite length_app. lia. Qed.

Lemma leaf_count_nonneg leaves : 0 ≤ leaf_count leaves.
Proof. unfold leaf_count. lia. Qed.

Lemma node_hash_placeholder leaves l p :
  leaf_count leaves ≤ p * 2 ^ Z.of_nat l → node_hash leaves l p = ACCUMULATOR_PLACEHOLDER_HASH.
Proof. intros H. destruct l; cbn [node_hash]; by rewrite (proj2 (Z.leb_le _ _) H). Qed.

Lemma node_hash_S leaves l p :
  p * 2 ^ Z.of_nat (S l) < leaf_count leaves →
  node_hash leaves (S l) p =
    hash_internal_node (node_hash leaves l (2 * p)) (node_hash leaves l (2 * p + 1)).
Proof. intros H. cbn [node_hash]. by rewrite (proj2 (Z.leb_gt _ _) H). Qed.

Lemma node_hash_leaf leaves (i : nat) x :
  leaves !! i = Some x → node_hash leaves 0 (Z.of_nat i) = x.
Proof.
  intros Hi. pose proof (lookup_lt_Some _ _ _ Hi). cbn [node_hash].
  rewrite (proj2 (Z.leb_gt _ _)); [|by rewrite Nat2Z.id Hi].
  unfold leaf_count. change (2 ^ Z.of_nat 0) with 1. lia.
Qed.

(** A frozen node does not change when leaves are appended. *)
Lemma node_hash_app leaves more l p :
  0 ≤ p → (p + 1) * 2 ^ Z.of_nat l ≤ leaf_count leaves →
  node_hash (leaves ++ more) l p = node_hash leaves l p.
Proof.
  revert p; induction l as [|l IH]; intros p Hp Hw; pose proof (leaf_count_nonneg more).
  - cbn [node_hash]. change (2 ^ Z.of_nat 0) with 1 in *. rewrite leaf_count_app.
    rewrite !(proj2 (Z.leb_gt _ _)); [lia..|]. unfold leaf_count in *. by rewrite lookup_app_l; [lia|].
  - rewrite pow2_S in Hw. pose proof (pow2_gt0 l).
    rewrite !node_hash_S ?leaf_count_app; [rewrite pow2_S; lia..|]. rewrite !IH; lia || done.
Qed.

Lemma hashes_app leaves xs ys : hashes leaves (xs ++ ys) = hashes leaves xs ++ hashes leaves ys.
Proof. apply fmap_app. Qed.

Lemma hashes_length leaves xs : length (hashes leaves xs) = length xs.
Proof. apply length_fmap. Qed.

Lemma hashes_frozen_app leaves more m i :
  0 ≤ m → m * 2 ^ Z.of_nat i ≤ leaf_count leaves →
  hashes (leaves ++ more) (frozen i m) = hashes leaves (frozen i m).
Proof.
  intros Hm Hle. apply list_fmap_ext. intros j [l p] Hj%list_elem_of_lookup_2.
  apply elem_of_frozen in Hj as (_ & Hp & Hw); [|done]. apply node_hash_app; lia.
Qed.

(** ** The root hash *)

(** The number of levels the loop climbs. *)
Definition climb (m : Z) : nat := if m =? 0 then 0%nat else S (Z.to_nat (Z.log2 m)).

Lemma climb_double m : 0 < m → climb (2 * m) = S (climb m).
Proof.
  intros Hm. unfold climb. destruct (Z.eqb_spec (2 * m) 0), (Z.eqb_spec m 0); try lia.
  rewrite Z.log2_double // Z2Nat.inj_succ //. apply Z.log2_nonneg.
Qed.

Lemma climb_double_succ m : 0 ≤ m → climb (2 * m + 1) = S (climb m).
Proof.
  intros Hm. destruct (decide (m = 0)) as [->|]; [done|].
  unfold climb. destruct (Z.eqb_spec (2 * m + 1) 0), (Z.eqb_spec m 0); try lia.
  rewrite Z.log2_succ_double; [lia|]. rewrite Z2Nat.inj_succ //. apply Z.log2_nonneg.
Qed.

Lemma shr1_double m : shr1 (2 * m) = m.
Proof. unfold shr1. rewrite Z.shiftr_div_pow2 // Z.mul_comm. by apply Z.div_mul. Qed.

Lemma shr1_double_succ m : shr1 (2 * m + 1) = m.
Proof.
  unfold shr1. rewrite Z.shiftr_div_pow2 //. change (2 ^ 1) with 2. symmetry.
  apply (Z.div_unique _ _ _ 1); lia.
Qed.

Lemma land_1 m : (Z.land m 1 =? 0) = negb (Z.odd m).
Proof. change 1 with (2 ^ 0) at 1. by rewrite land_pow2 // Z.bit0_odd. Qed.

Lemma odd_double_succ m : Z.odd (2 * m + 1) = true.
Proof. by rewrite Z.add_comm Z.odd_add_mul_2. Qed.

Lemma odd_double m : Z.odd (2 * m) = false.
Proof. by rewrite Z.odd_mul. Qed.

(** The loop climbs from the node after the last unit to the root, taking the frozen
    subtree on the left, or the placeholder on the right. *)
Lemma root_loop_spec leaves (fuel i : nat) m :
  0 ≤ m < 2 ^ Z.of_nat fuel →
  m * 2 ^ Z.of_nat i ≤ leaf_count leaves ≤ (m + 1) * 2 ^ Z.of_nat i →
  (m * 2 ^ Z.of_nat i < leaf_count leaves ∨ Z.odd m = true) →
  root_loop fuel m (node_hash leaves i m) (reverse (hashes leaves (frozen i m)))
  = Ret (node_hash leaves (i + climb m) 0).
Proof.
  revert i m; induction fuel as [|fuel IH]; intros i m Hm Hn Hlast.
  { change (2 ^ Z.of_nat 0) with 1 in Hm. replace m with 0 by lia. by rewrite Nat.add_0_r. }
  destruct (decide (m = 0)) as [->|Hne]; [by rewrite Nat.add_0_r|].
  cbn [root_loop]. rewrite (proj2 (Z.ltb_lt 0 m)); [lia|]. cbn [negb]. rewrite land_1 negb_involutive.
  rewrite pow2_S in Hm. pose proof (pow2_gt0 i).
  destruct (Z_double_cases m) as [q [->| ->]].
  - rewrite odd_double_succ frozen_odd; [lia|]. rewrite hashes_app reverse_app /= shr1_double_succ.
    rewrite climb_double_succ; [lia|]. rewrite -node_hash_S; [rewrite pow2_S; lia|].
    rewrite IH; [lia|rewrite pow2_S; lia|rewrite pow2_S; lia|]. do 2 f_equal. lia.
  - rewrite odd_double in Hlast |- *. destruct Hlast as [Hlast|]; [|done].
    rewrite frozen_even shr1_double climb_double; [lia|].
    rewrite -(node_hash_placeholder leaves i (2 * q + 1)); [lia|].
    rewrite -node_hash_S; [rewrite pow2_S; lia|].
    rewrite IH; [lia|rewrite pow2_S; lia|rewrite pow2_S; lia|]. do 2 f_equal. lia.
Qed.

Lemma root_of_nonempty leaves :
  0 < leaf_count leaves → root_of leaves = node_hash leaves (root_level (leaf_count leaves)) 0.
Proof. by destruct leaves. Qed.

Lemma count_ones_pos m : 0 < m → 0 < count_ones m.
Proof.
  intros Hm. assert (0 ≤ m) as Hm' by lia. revert Hm. binary_induction m Hm'; [lia|..]; intros m Hm IH Hpos.
  - rewrite count_ones_double_succ //. pose proof (count_ones_nonneg m). lia.
  - rewrite count_ones_double. by apply IH.
Qed.

(** One frozen subtree: a power of two. *)
Lemma count_ones_1 m : 0 < m → count_ones m = 1 → ∃ (t : nat), m = 2 ^ Z.of_nat t.
Proof.
  intros Hm Hones. destruct (odd_part m Hm) as (t & a & Ha & ->). exists t.
  rewrite count_ones_shift count_ones_double_succ // in Hones.
  destruct (decide (a = 0)) as [->|]; [lia|]. pose proof (count_ones_pos a). lia.
Qed.

Lemma frozen_pow2 (t : nat) : frozen 0 (2 ^ Z.of_nat t) = [(t, 0)].
Proof. pose proof (frozen_shift t 0 1) as H. by rewrite Z.mul_1_l in H. Qed.

Lemma root_level_pow2 (t : nat) : root_level (2 ^ Z.of_nat t) = t.
Proof. unfold root_level. rewrite Z.log2_up_pow2; lia. Qed.

Lemma log2_up_not_pow2 n : 1 < n → count_ones n ≠ 1 → Z.log2_up n = Z.log2 n + 1.
Proof.
  intros Hn Hones. pose proof (Z.log2_spec n ltac:(lia)) as Hl. pose proof (Z.log2_nonneg n).
  rewrite Z.log2_up_eqn // -Z.add_1_r. f_equal. apply Z.log2_unique; [done|].
  assert (n ≠ 2 ^ Z.log2 n); [|lia]. intros Heq. apply Hones. rewrite Heq.
  rewrite -(Z2Nat.id (Z.log2 n)) // -(Z.mul_1_l (2 ^ _)). by rewrite count_ones_shift.
Qed.

Lemma compute_root_hash_spec leaves :
  leaf_count leaves < 2 ^ 64 →
  compute_root_hash (hashes leaves (frozen 0 (leaf_count leaves))) (leaf_count leaves)
  = Ret (root_of leaves).
Proof.
  intros Hmax. set (n := leaf_count leaves). pose proof (leaf_count_nonneg leaves) as Hn. fold n in Hmax, Hn.
  destruct (decide (n = 0)) as [Hz|Hne].
  { rewrite Hz. destruct leaves; [done|]. by unfold n, leaf_count in Hz. }
  rewrite root_of_nonempty; [lia|]. fold n.
  pose proof (length_frozen n 0 Hn) as Hlen. rewrite -(hashes_length leaves) in Hlen.
  destruct (hashes leaves (frozen 0 n)) as [|r [|r' rs]] eqn:Hroots; cbn [length] in Hlen.
  - pose proof (count_ones_pos n). lia.
  - destruct (count_ones_1 n) as [t Ht]; [lia..|]. rewrite Ht frozen_pow2 in Hroots.
    injection Hroots as <-. by rewrite Ht root_level_pow2.
  - rewrite -Hroots. unfold compute_root_hash. rewrite {1}Hroots.
    destruct (odd_part n) as (i & a & Ha & Heq); [lia|]. pose proof (pow2_gt0 i).
    assert (i < 64)%nat.
    { destruct (decide (i < 64)%nat) as [|Hge]; [done|]. pose proof (pow2_le 64 i ltac:(lia)).
      change (Z.of_nat 64) with 64 in *. nia. }
    replace (trailing_zeros n) with (Z.of_nat i) by (by rewrite Heq trailing_zeros_odd).
    rewrite u64_shr_Ret; [lia|]; run. rewrite Z.shiftr_div_pow2; [lia|].
    rewrite {1}Heq Z.div_mul; [lia|]. rewrite {1}Heq frozen_shift Nat.add_0_l.
    rewrite -(node_hash_placeholder leaves i (2 * a + 1)); [fold n; lia|].
    rewrite root_loop_spec; [split; [lia|]|fold n; lia|right; apply odd_double_succ|].
    { change (2 ^ Z.of_nat u64_bits) with (2 ^ 64). nia. }
    do 2 f_equal. rewrite climb_double_succ // /root_level log2_up_not_pow2; [|lia|].
    { destruct (decide (n = 1)) as [H1|]; [|lia]. rewrite H1 in Hlen. cbn in Hlen. lia. }
    rewrite Heq. rewrite Z.log2_mul_pow2; [lia..|]. unfold climb.
    destruct (Z.eqb_spec a 0) as [->|]; [change (Z.log2 (2 * 0 + 1)) with 0; lia|]. rewrite Z.log2_succ_double; [lia|].
    pose proof (Z.log2_nonneg a). lia.
Qed.

Lemma InMemoryAccumulator_new_spec leaves :
  leaf_count leaves < 2 ^ 64 →
  InMemoryAccumulator_new (hashes leaves (frozen 0 (leaf_count leaves))) (leaf_count leaves)
  = Ret (Ok (acc_of leaves)).
Proof.
  intros Hmax. unfold InMemoryAccumulator_new. pose proof (leaf_count_nonneg leaves).
  rewrite hashes_length length_frozen // Z.eqb_refl; run. by rewrite compute_root_hash_spec.
Qed.

(** ** Appending leaves *)

(** A new unit at level [i] carries through the trailing ones of the count. *)
Lemma merge_loop_spec leaves (k i : nat) q :
  0 ≤ q → (node k q + 1) * 2 ^ Z.of_nat i ≤ leaf_count leaves →
  merge_loop k (hashes leaves (frozen i (node k q)) ++ [node_hash leaves i (node k q)])
  = Ret (hashes leaves (frozen i (node k q + 1))).
Proof.
  revert i; induction k as [|k IH]; intros i Hq Hle.
  { cbn [merge_loop]. rewrite node_0 frozen_even frozen_odd // hashes_app. done. }
  assert (0 ≤ node k q) as Hk.
  { unfold node. pose proof (pow2_gt0 k). rewrite pow2_add1. nia. }
  rewrite node_S in Hle |- *. pose proof (pow2_gt0 i). cbn [merge_loop].
  rewrite vec_pop_app; cbn [expect]; run.
  rewrite frozen_odd // hashes_app vec_pop_app; cbn [expect]; run.
  rewrite -node_hash_S; [rewrite pow2_S; nia|].
  rewrite IH //; [rewrite pow2_S; lia|].
  replace (2 * node k q + 1 + 1) with (2 * (node k q + 1)) by lia. by rewrite frozen_even.
Qed.

Lemma append_one_spec leaves x :
  leaf_count leaves < 2 ^ 64 - 1 →
  append_one (hashes leaves (frozen 0 (leaf_count leaves))) (leaf_count leaves) x
  = Ret (hashes (leaves ++ [x]) (frozen 0 (leaf_count leaves + 1))).
Proof.
  intros Hmax. pose proof (leaf_count_nonneg leaves) as Hn.
  rewrite -(hashes_frozen_app _ [x]) //; [change (2 ^ Z.of_nat 0) with 1; lia|].
  assert (node_hash (leaves ++ [x]) 0 (leaf_count leaves) = x) as Hx.
  { apply node_hash_leaf. rewrite lookup_app_r // Nat.sub_diag //. }
  unfold append_one. rewrite -{2}Hx.
  destruct (coordinates (leaf_count leaves)) as (k & q & Hc & Heq); [lia|].
  pose proof (level_node _ _ Hc) as Hl. rewrite -Heq in Hl. unfold level in Hl.
  rewrite Hl Nat2Z.id Heq. apply merge_loop_spec; [by destruct Hc as [_ [? _]]|].
  rewrite -Heq leaf_count_app. change (2 ^ Z.of_nat 0) with 1. change (leaf_count [x]) with 1. lia.
Qed.

Lemma append_loop_spec more leaves :
  leaf_count (leaves ++ more) < 2 ^ 64 →
  append_loop more (hashes leaves (frozen 0 (leaf_count leaves))) (leaf_count leaves)
  = Ret (hashes (leaves ++ more) (frozen 0 (leaf_count (leaves ++ more))), leaf_count (leaves ++ more)).
Proof.
  revert leaves; induction more as [|x more IH]; intros leaves Hmax; [by rewrite app_nil_r|].
  cbn [append_loop]. rewrite leaf_count_app in Hmax. assert (leaf_count (x :: more) = 1 + leaf_count more) as Hc.
  { unfold leaf_count. cbn [length]. lia. }
  pose proof (leaf_count_nonneg more).
  rewrite append_one_spec; [lia|]; run. u64_run.
  replace (leaf_count leaves + 1) with (leaf_count (leaves ++ [x])) by (by rewrite leaf_count_app).
  rewrite (cons_middle x leaves more) app_assoc. apply IH. rewrite !leaf_count_app. change (leaf_count [x]) with 1. lia.
Qed.

Lemma append_spec leaves more :
  leaf_count (leaves ++ more) < 2 ^ 64 →
  append (acc_of leaves) more = Ret (acc_of (leaves ++ more)).
Proof.
  intros Hmax. unfold append. cbn [frozen_subtree_roots num_leaves acc_of].
  rewrite append_loop_spec //; run. rewrite InMemoryAccumulator_new_spec //.
Qed.

(** ** Appending subtrees *)

Lemma carry_loop_spec leaves (fuel k i : nat) q c :
  0 ≤ q → Z.shiftr c (Z.of_nat i) = node k q → (k ≤ fuel)%nat → (i + k ≤ 63)%nat →
  (node k q + 1) * 2 ^ Z.of_nat i ≤ leaf_count leaves →
  carry_loop fuel c (2 ^ Z.of_nat i) (hashes leaves (frozen i (node k q)))
    (node_hash leaves i (node k q))
  = Ret (hashes leaves (frozen (i + k) (2 * q)), node_hash leaves (i + k) (2 * q),
         2 ^ Z.of_nat (i + k)).
Proof.
  intros Hq. revert k i; induction fuel as [|fuel IH]; intros k i Hc Hfuel Hmax Hle.
  { destruct k; [|lia]. cbn [carry_loop]. by rewrite node_0 Nat.add_0_r. }
  cbn [carry_loop]. rewrite land_pow2; [lia|].
  assert (Z.testbit c (Z.of_nat i) = Z.odd (node k q)) as ->.
  { rewrite -Hc -Z.bit0_odd Z.shiftr_spec //. }
  destruct k as [|k].
  { rewrite node_0 odd_double Nat.add_0_r. done. }
  assert (0 ≤ node k q) as Hk.
  { unfold node. pose proof (pow2_gt0 k). rewrite pow2_add1. nia. }
  rewrite node_S in Hc, Hle |- *. rewrite odd_double_succ frozen_odd // hashes_app vec_pop_app.
  cbn [expect negb]; run. pose proof (pow2_gt0 i).
  rewrite -node_hash_S; [rewrite pow2_S; nia|]. rewrite shl1_pow2; [lia|].
  replace (Z.of_nat i + 1) with (Z.of_nat (S i)) by lia.
  rewrite IH; [| lia | lia | rewrite pow2_S; lia |].
  { rewrite Nat2Z.inj_succ -Z.add_1_r -Z.shiftr_shiftr // Hc. apply shr1_double_succ. }
  by replace (S i + k)%nat with (i + S k)%nat by lia.
Qed.

(** An odd number of units as coordinates: at least one trailing one. *)
Lemma odd_coordinates a : 0 ≤ a < 2 ^ 62 → ∃ k q, (0 < k)%nat ∧ coord k q ∧ 2 * a + 1 = node k q.
Proof.
  intros Ha. destruct (coordinates (2 * a + 1)) as (k & q & Hc & Heq); [lia|].
  exists k, q. split; [|done]. destruct k; [|lia]. rewrite node_0 in Heq. lia.
Qed.

Lemma subtree_loop_spec leaves (k i : nat) a r :
  0 ≤ a → 0 ≤ r → (2 * a + 1) * 2 ^ Z.of_nat i + r ≤ leaf_count leaves → leaf_count leaves ≤ 2 ^ 63 →
  (64 ≤ i + k)%nat →
  ∃ roots c' r' rest,
    subtree_loop (hashes leaves (extension k ((2 * a + 1) * 2 ^ Z.of_nat i) r))
      (hashes leaves (frozen i (2 * a + 1))) ((2 * a + 1) * 2 ^ Z.of_nat i) r (2 ^ Z.of_nat i)
    = Ret (Ok (roots, c', r', rest)) ∧
    c' + r' = (2 * a + 1) * 2 ^ Z.of_nat i + r ∧
    roots ++ rest = hashes leaves (frozen 0 ((2 * a + 1) * 2 ^ Z.of_nat i + r)).
Proof.
  revert i a r; induction k as [|k IH]; intros i a r Ha Hr Hle Hmax Hk; pose proof (pow2_gt0 i);
    (assert (i < 64)%nat as Hi by (apply (pow2_64 i 0); nia)); [lia|].
  set (c := (2 * a + 1) * 2 ^ Z.of_nat i). fold c in Hle.
  cbn [extension]. rewrite (proj2 (Z.ltb_lt 0 c)); [unfold c; nia|].
  rewrite trailing_zeros_odd // Nat2Z.id; cbn [andb].
  destruct (Z.leb_spec (2 ^ Z.of_nat i) r) as [Hfit|Hsmall].
  - cbn [hashes fmap list_fmap subtree_loop]. rewrite (proj2 (Z.leb_le _ _) Hfit); cbn [negb].
    replace (c / 2 ^ Z.of_nat i) with (2 * a + 1) by (unfold c; rewrite Z.div_mul; lia).
    destruct (odd_coordinates a) as (j & q & Hj & Hcoord & Heq).
    { split; [lia|]. change (2 ^ 63) with (2 * 2 ^ 62) in *. unfold c in Hle. nia. }
    destruct (Hcoord) as [Hj63 [Hq _]]. pose proof (pow2_gt0 j).
    assert (2 * a + 2 = (2 * q + 1) * 2 ^ Z.of_nat j) as Hnext.
    { unfold node in Heq. rewrite pow2_add1 in Heq. lia. }
    assert (i + j ≤ 63)%nat as Hij.
    { destruct (decide (i + j ≤ 63)%nat) as [|Hgt]; [done|]. exfalso.
      pose proof (pow2_le 64 (i + j) ltac:(lia)) as Hbig.
      rewrite (Nat2Z.inj_add i j) Z.pow_add_r in Hbig; [lia..|].
      change (2 ^ Z.of_nat 64) with (2 * 2 ^ 63) in Hbig.
      assert (2 ^ Z.of_nat i * 2 ^ Z.of_nat j ≤ (2 * a + 2) * 2 ^ Z.of_nat i); [|unfold c in Hle; lia].
      rewrite Hnext. nia. }
    rewrite Heq. rewrite carry_loop_spec //; [|unfold u64_bits; lia| |].
    { rewrite Z.shiftr_div_pow2; [lia|]. unfold c. rewrite Z.div_mul; [lia|done]. }
    { rewrite -Heq. unfold c in Hle. lia. }
    run. u64_run.
    assert (c + 2 ^ Z.of_nat i = (2 * q + 1) * 2 ^ Z.of_nat (i + j)) as Hc'.
    { rewrite Nat2Z.inj_add Z.pow_add_r; [lia..|]. unfold c. nia. }
    rewrite Hc'. replace (hashes leaves (frozen (i + j) (2 * q)) ++ [node_hash leaves (i + j) (2 * q)])
      with (hashes leaves (frozen (i + j) (2 * q + 1)))
      by (rewrite frozen_odd // hashes_app frozen_even //).
    destruct (IH (i + j)%nat q (r - 2 ^ Z.of_nat i)) as (roots & c' & r' & rest & Hrun & Hsum & Hroots);
      [lia..|]. rewrite -Hc' in Hsum, Hroots.
    exists roots, c', r', rest. split; [exact Hrun|]. split; [lia|]. rewrite Hroots. do 2 f_equal. lia.
  - assert (∀ subtrees, subtree_loop subtrees (hashes leaves (frozen i (2 * a + 1))) c r (2 ^ Z.of_nat i)
      = Ret (Ok (hashes leaves (frozen i (2 * a + 1)), c, r, subtrees))) as ->.
    { intros subtrees. destruct subtrees; cbn [subtree_loop];
        by rewrite (proj2 (Z.leb_gt _ _) Hsmall). }
    eexists _, _, _, _. split; [done|]. split; [done|].
    unfold c. by rewrite tail_frozen; [lia..|rewrite hashes_app].
Qed.

Lemma extension_empty (k : nat) r : extension k 0 r = tail_subtrees 0 r.
Proof. by destruct k. Qed.

Lemma tail_empty r : 0 ≤ r ≤ 2 ^ 63 → tail_subtrees 0 r = frozen 0 r.
Proof.
  intros Hr. pose proof (tail_frozen 64 0 r) as Ht. rewrite Z.mul_0_l Z.add_0_l in Ht.
  rewrite Ht //. change (2 ^ Z.of_nat 64) with (2 * 2 ^ 63). lia.
Qed.

Lemma append_subtrees_run leaves more :
  0 < leaf_count leaves → leaf_count (leaves ++ more) ≤ 2 ^ 63 →
  ∃ (i : nat) roots c r rest,
    trailing_zeros (leaf_count leaves) = Z.of_nat i ∧ (i < 64)%nat ∧
    subtree_loop (hashes (leaves ++ more) (extension 64 (leaf_count leaves) (leaf_count more)))
      (hashes leaves (frozen 0 (leaf_count leaves))) (leaf_count leaves) (leaf_count more)
      (2 ^ Z.of_nat i) = Ret (Ok (roots, c, r, rest)) ∧
    c + r = leaf_count (leaves ++ more) ∧
    roots ++ rest = hashes (leaves ++ more) (frozen 0 (leaf_count (leaves ++ more))).
Proof.
  intros Hpos Hmax. pose proof (leaf_count_nonneg more).
  rewrite -(hashes_frozen_app leaves more _ 0); [lia|change (2 ^ Z.of_nat 0) with 1; lia|].
  destruct (odd_part (leaf_count leaves)) as (i & a & Ha & Heq); [lia|]. pose proof (pow2_gt0 i).
  rewrite leaf_count_app in Hmax |- *. assert (i < 64)%nat as Hi by (apply (pow2_64 i 0); nia).
  destruct (subtree_loop_spec (leaves ++ more) 64 i a (leaf_count more))
    as (roots & c & r & rest & Hrun & Hsum & Hroots); [lia..|rewrite leaf_count_app; lia| |lia|].
  { rewrite leaf_count_app. lia. }
  exists i, roots, c, r, rest. rewrite {1}Heq trailing_zeros_odd //. split; [done|]. split; [done|].
  rewrite Heq frozen_shift Nat.add_0_l. done.
Qed.

Lemma append_subtrees_eq leaves subtrees k :
  leaf_count leaves + k ≤ 2 ^ 63 → 0 ≤ k →
  append_subtrees (acc_of leaves) subtrees k =
    if leaf_count leaves =? 0 then InMemoryAccumulator_new subtrees k else
    rightmost_frozen_subtree_size ← u64_shl 1 (trailing_zeros (leaf_count leaves));
    r ← subtree_loop subtrees (hashes leaves (frozen 0 (leaf_count leaves))) (leaf_count leaves) k
          rightmost_frozen_subtree_size;
    try r (λ '(roots, current, remaining, rest),
      current ← u64_add current remaining;
      InMemoryAccumulator_new (roots ++ rest) current).
Proof.
  intros Hmax Hk. unfold append_subtrees, acc_of; cbn [num_leaves frozen_subtree_roots].
  change MAX_ACCUMULATOR_LEAVES with (2 ^ 63). u64_run.
  by rewrite (proj2 (Z.leb_le k _)); [lia|].
Qed.

Lemma append_subtrees_finish leaves subtrees k (i : nat) roots c r rest :
  0 < leaf_count leaves → leaf_count leaves + k ≤ 2 ^ 63 → 0 ≤ k →
  trailing_zeros (leaf_count leaves) = Z.of_nat i → (i < 64)%nat →
  subtree_loop subtrees (hashes leaves (frozen 0 (leaf_count leaves))) (leaf_count leaves) k
    (2 ^ Z.of_nat i) = Ret (Ok (roots, c, r, rest)) →
  c + r ≤ u64_max →
  append_subtrees (acc_of leaves) subtrees k = InMemoryAccumulator_new (roots ++ rest) (c + r).
Proof.
  intros Hpos Hmax Hk Htz Hi Hrun Hsum. rewrite append_subtrees_eq //.
  destruct (Z.eqb_spec (leaf_count leaves) 0); [lia|].
  rewrite Htz shl_1 //; run. rewrite Hrun; run. cbn [try]. by rewrite u64_add_Ret.
Qed.

Lemma append_subtrees_spec leaves more :
  leaf_count (leaves ++ more) ≤ 2 ^ 63 →
  append_subtrees (acc_of leaves)
    (hashes (leaves ++ more) (extension 64 (leaf_count leaves) (leaf_count more))) (leaf_count more)
  = Ret (Ok (acc_of (leaves ++ more))).
Proof.
  intros Hmax. pose proof (leaf_count_app leaves more) as Happ.
  pose proof (leaf_count_nonneg leaves). pose proof (leaf_count_nonneg more).
  rewrite -InMemoryAccumulator_new_spec; [lia|].
  destruct (decide (leaf_count leaves = 0)) as [Hz|Hne].
  - rewrite append_subtrees_eq; [lia..|]. rewrite Hz Z.eqb_refl extension_empty tail_empty; [lia|].
    rewrite Happ Hz. done.
  - destruct (append_subtrees_run leaves more) as (i & roots & c & r & rest & Htz & Hi & Hrun & Hsum & Hroots);
      [lia..|].
    rewrite -Hroots -Hsum. apply (append_subtrees_finish _ _ _ i); try done; unfold u64_max; lia.
Qed.

(** C14: Appending leaves to an accumulator gives the accumulator of the longer list:
    the roots of its perfect subtrees, the number of its leaves, and the root hash of
    the Merkle tree over all of them, padded with the placeholder.  In particular an
    accumulator built from a list, in one go or in several, is the one of that list,
    and no step panics below [2^64] leaves. *)
Theorem append_builds_the_tree leaves more :
  leaf_count (leaves ++ more) < 2 ^ 64 →
  from_leaves leaves = Ret (acc_of leaves) ∧
  append (acc_of leaves) more = Ret (acc_of (leaves ++ more)) ∧
  new_empty = acc_of [] ∧ version (acc_of leaves) = Z.max 0 (leaf_count leaves - 1).
Proof.
  intros Hmax. pose proof (leaf_count_nonneg more). pose proof (leaf_count_nonneg leaves).
  split; [|split; [by apply append_spec|split; [done|]]].
  - change (from_leaves leaves) with (append (acc_of []) leaves). apply append_spec.
    rewrite leaf_count_app in Hmax. cbn [app]. lia.
  - unfold version, acc_of; cbn [num_leaves]. destruct (Z.eqb_spec (leaf_count leaves) 0); lia.
Qed.
End accumulator.

(** A hasher that keeps what it hashed: the idealised collision-free hash. *)
Module TreeHash.
Inductive tree_hash : Type :=
  | Placeholder
  | Data (n : Z)
  | Internal (l r : tree_hash).

#[export] Instance tree_hash_eq_dec : EqDecision tree_hash.
Proof. solve_decision. Defined.

#[export] Instance tree_hasher : MerkleHasher tree_hash := {|
  hash_internal_node := Internal;
  ACCUMULATOR_PLACEHOLDER_HASH := Placeholder;
|}.

Lemma append_builds_the_tree_witness :
  from_leaves [Data 1; Data 2] = Ret (acc_of [Data 1; Data 2]) ∧
  append (acc_of [Data 1; Data 2]) [Data 3]
  = Ret (mkInMemoryAccumulator [Internal (Data 1) (Data 2); Data 3] 3
           (Internal (Internal (Data 1) (Data 2)) (Internal (Data 3) Placeholder))).
Proof.
  destruct (append_builds_the_tree [Data 1; Data 2] [Data 3]) as (H1 & H2 & _); [vm_compute; done|].
  split; [exact H1|]. rewrite H2. vm_compute. done.
Defined.
End TreeHash.
