(* ===== verification/AccumulatorProof.v ===== *)
(** * Accumulator proofs

    Models the proofs of [types/src/proof/definition.rs] about accumulators: that a
    leaf, or a range of leaves, is in an accumulator, and that an accumulator extends
    another.  What a verifier may conclude from a proof it accepts is shown under
    [HasherInjective], the usual idealisation of collision resistance: the hasher is
    injective on pairs of hashes, and the placeholder is not the hash of a pair. *)
From S2P Require Import Prelude U64 Position FrozenSubtrees Accumulator.
Local Open Scope Z_scope.

Class HasherInjective (HashValue : Type) `{MerkleHasher HashValue} : Prop := {
  hash_internal_node_inj a b c d :
    hash_internal_node a b = hash_internal_node c d → a = c ∧ b = d;
  placeholder_not_internal a b : ACCUMULATOR_PLACEHOLDER_HASH ≠ hash_internal_node a b;
}.

(** A hash of another domain than the tree's own: no internal node, not the placeholder.
    The hashes of transaction infos are computed with a hasher of their own. *)
Definition leaf_domain `{MerkleHasher HashValue} (h : HashValue) : Prop :=
  h ≠ ACCUMULATOR_PLACEHOLDER_HASH ∧ ∀ a b, h ≠ hash_internal_node a b.

Section proofs.
Context {HashValue : Type} {HD : EqDecision HashValue} {MH : MerkleHasher HashValue}.
Notation InMemoryAccumulator := (@InMemoryAccumulator HashValue).

(** ** Inclusion of a leaf *)

Record AccumulatorProof : Type := mkAccumulatorProof { siblings : list HashValue }.

(** One step of the fold: the hash and index of the ancestor one level up. *)
Definition verify_step (acc : HashValue * Z) (sibling_hash : HashValue) : HashValue * Z :=
  let '(hash, index) := acc in
  (if index mod 2 =? 0 then hash_internal_node hash sibling_hash
   else hash_internal_node sibling_hash hash,
   index / 2).

Definition AccumulatorProof_verify (self : AccumulatorProof) (expected_root_hash element_hash : HashValue)
    (element_index : Z) : result unit unit :=
  if negb (Z.of_nat (length (siblings self)) <=? MAX_ACCUMULATOR_PROOF_DEPTH) then Err tt else
  let actual_root_hash := (foldl verify_step (element_hash, element_index) (siblings self)).1 in
  if decide (actual_root_hash = expected_root_hash) then Ok tt else Err tt.

(** ** Inclusion of a range of leaves *)

Record AccumulatorRangeProof : Type := mkAccumulatorRangeProof {
  left_siblings : list HashValue;
  right_siblings : list HashValue;
}.

Definition AccumulatorRangeProof_new_empty : AccumulatorRangeProof := mkAccumulatorRangeProof [] [].

(** [children_iter.as_slice().chunks_exact(2)]: the parents of the whole pairs, and the
    remainder. *)
Fixpoint pair_up (children : list HashValue) : list HashValue * list HashValue :=
  match children with
  | left_hash :: right_hash :: rest =>
      let '(parents, remainder) := pair_up rest in
      (hash_internal_node left_hash right_hash :: parents, remainder)
  | _ => ([], children)
  end.

(** The children are combined two at a time; a last one needs a sibling on the right. *)
Definition range_pairs (parent_hashes children left_iter right_iter : list HashValue) :
    comp (result unit (list HashValue * list HashValue * list HashValue)) :=
  let '(parents, remainder) := pair_up children in
  rust_assert (length remainder <=? 1)%nat;;
  match remainder with
  | [] => Ret (Ok (parent_hashes ++ parents, left_iter, right_iter))
  | left_hash :: _ =>
      match right_iter with
      | [] => Ret (Err tt)
      | right_hash :: right_iter =>
          Ret (Ok (parent_hashes ++ parents ++ [hash_internal_node left_hash right_hash],
                   left_iter, right_iter))
      end
  end.

(** One round of the loop: the parents of the current hashes, with a sibling on the
    left if the first is a right child. *)
Definition range_round (first_is_right : bool) (current_hashes left_iter right_iter : list HashValue) :
    comp (result unit (list HashValue * list HashValue * list HashValue)) :=
  if first_is_right then
    match left_iter with
    | [] => Ret (Err tt)
    | left_hash :: left_iter =>
        right_hash ← expect (head current_hashes);
        range_pairs [hash_internal_node left_hash right_hash] (tail current_hashes) left_iter right_iter
    end
  else range_pairs [] current_hashes left_iter right_iter.

(** The loop; [None] when [fuel] was not enough. *)
Fixpoint range_loop (fuel : nat) (first_pos : Position)
    (current_hashes left_iter right_iter : list HashValue) :
    comp (result unit (option (list HashValue))) :=
  if (length current_hashes <=? 1)%nat && bool_decide (left_iter = []) && bool_decide (right_iter = [])
  then Ret (Ok (Some current_hashes)) else
  match fuel with
  | O => Ret (Ok None)
  | S fuel' =>
      first_is_right ← is_right_child first_pos;
      r ← range_round first_is_right current_hashes left_iter right_iter;
      try r (λ '(parent_hashes, left_iter, right_iter),
        first_pos ← parent first_pos;
        range_loop fuel' first_pos parent_hashes left_iter right_iter)
  end.

(** [Ok None] is a verification that did not end within [fuel] rounds. *)
Definition AccumulatorRangeProof_verify (fuel : nat) (self : AccumulatorRangeProof)
    (expected_root_hash : HashValue) (first_leaf_index : option Z) (leaf_hashes : list HashValue) :
    comp (result unit (option unit)) :=
  match first_leaf_index with
  | None =>
      if negb (bool_decide (leaf_hashes = [])) then Ret (Err tt) else
      if negb (bool_decide (left_siblings self = []) && bool_decide (right_siblings self = []))
      then Ret (Err tt) else Ret (Ok (Some tt))
  | Some first_leaf_index =>
      if negb (Z.of_nat (length (left_siblings self)) <=? MAX_ACCUMULATOR_PROOF_DEPTH)
      then Ret (Err tt) else
      if negb (Z.of_nat (length (right_siblings self)) <=? MAX_ACCUMULATOR_PROOF_DEPTH)
      then Ret (Err tt) else
      if bool_decide (leaf_hashes = []) then Ret (Err tt) else
      first_pos ← from_leaf_index first_leaf_index;
      r ← range_loop fuel first_pos leaf_hashes (left_siblings self) (right_siblings self);
      try r (λ o,
        match o with
        | None => Ret (Ok None)
        | Some current_hashes =>
            actual ← expect (head current_hashes);
            if decide (actual = expected_root_hash) then Ret (Ok (Some tt)) else Ret (Err tt)
        end)
  end.

(** ** Extension of an accumulator *)

Record AccumulatorConsistencyProof : Type := mkAccumulatorConsistencyProof {
  subtrees : list HashValue;
}.

Record AccumulatorExtensionProof : Type := mkAccumulatorExtensionProof {
  aep_frozen_subtree_roots : list HashValue;
  aep_num_leaves : Z;
  aep_leaves : list HashValue;
}.

Definition AccumulatorExtensionProof_verify (self : AccumulatorExtensionProof)
    (original_root : HashValue) : comp (result unit InMemoryAccumulator) :=
  r ← InMemoryAccumulator_new (aep_frozen_subtree_roots self) (aep_num_leaves self);
  try r (λ original_tree,
    if decide (root_hash original_tree = original_root)
    then Ok <$> append original_tree (aep_leaves self)
    else Ret (Err tt)).

(** ** What an accepted inclusion proof says *)

(** The fold climbs the tree from a node that has a leaf below it: with the siblings of
    its ancestors it computes their hashes. *)
Lemma div_pow2_S index (k : nat) : index / 2 / 2 ^ Z.of_nat k = index / 2 ^ Z.of_nat (S k).
Proof. rewrite pow2_S Z.div_div //. apply pow2_gt0. Qed.

Lemma half_below index l (n : Z) :
  index * 2 ^ Z.of_nat l < n → index / 2 * 2 ^ Z.of_nat (S l) < n.
Proof.
  intros H. pose proof (Z.mul_div_le index 2 ltac:(lia)). pose proof (pow2_gt0 l).
  rewrite pow2_S. nia.
Qed.

(** The parent of a node, from the node and its sibling. *)
Lemma node_hash_parent leaves l index :
  index * 2 ^ Z.of_nat l < leaf_count leaves →
  node_hash leaves (S l) (index / 2) =
    (verify_step (node_hash leaves l index, index) (node_hash leaves l (sibling_pos index))).1.
Proof.
  intros Hlt%half_below. rewrite node_hash_S //. cbn [verify_step fst]. unfold sibling_pos.
  destruct (Z_double_cases index) as [q [->| ->]].
  - destruct (half_double_succ q) as (-> & -> & ->). cbn. do 2 f_equal. lia.
  - destruct (half_double q) as (-> & -> & ->). done.
Qed.

Lemma verify_fold_siblings leaves (xs : list HashValue) l index :
  index * 2 ^ Z.of_nat l < leaf_count leaves →
  (∀ (k : nat) x, xs !! k = Some x →
     x = node_hash leaves (l + k) (sibling_pos (index / 2 ^ Z.of_nat k))) →
  (foldl verify_step (node_hash leaves l index, index) xs).1
  = node_hash leaves (l + length xs) (index / 2 ^ Z.of_nat (length xs)).
Proof.
  revert l index; induction xs as [|x xs IH]; intros l index Hlt Hsib.
  { cbn [foldl length fst]. by rewrite Z.div_1_r Nat.add_0_r. }
  cbn [foldl length]. pose proof (Hsib 0%nat x eq_refl) as Hx.
  rewrite Nat.add_0_r Z.div_1_r in Hx. rewrite Hx.
  assert (verify_step (node_hash leaves l index, index) (node_hash leaves l (sibling_pos index))
    = (node_hash leaves (S l) (index / 2), index / 2)) as ->.
  { by rewrite node_hash_parent. }
  rewrite IH; [by apply half_below| |].
  - intros k y Hk. rewrite (Hsib (S k) y Hk) div_pow2_S. f_equal. lia.
  - rewrite div_pow2_S. f_equal. lia.
Qed.

Section sound.
Context {HI : HasherInjective HashValue}.

Lemma verify_fold_sound leaves (xs : list HashValue) l index h :
  index * 2 ^ Z.of_nat l < leaf_count leaves →
  (foldl verify_step (h, index) xs).1
    = node_hash leaves (l + length xs) (index / 2 ^ Z.of_nat (length xs)) →
  h = node_hash leaves l index ∧
  ∀ (k : nat) x, xs !! k = Some x →
    x = node_hash leaves (l + k) (sibling_pos (index / 2 ^ Z.of_nat k)).
Proof.
  revert l index h; induction xs as [|x xs IH]; intros l index h Hlt Hroot.
  { cbn [foldl length fst] in Hroot. rewrite Z.div_1_r Nat.add_0_r in Hroot. done. }
  cbn [foldl length] in Hroot. pose proof (half_below _ _ _ Hlt) as Hhalf.
  destruct (verify_step (h, index) x) as [h' index'] eqn:Hstep.
  assert (index' = index / 2) as -> by (cbn in Hstep; congruence).
  destruct (IH (S l) (index / 2) h') as [Hh' Hrest]; [done| |].
  { rewrite Hroot div_pow2_S. f_equal. lia. }
  rewrite node_hash_parent // in Hh'. replace h' with ((verify_step (h, index) x).1) in Hh' by (by rewrite Hstep).
  cbn [verify_step fst] in Hh'.
  assert (h = node_hash leaves l index ∧ x = node_hash leaves l (sibling_pos index)) as [-> ->].
  { destruct (index mod 2 =? 0); apply hash_internal_node_inj in Hh' as [??]; done. }
  split; [done|]. intros [|k] y Hk.
  - injection Hk as <-. by rewrite Nat.add_0_r Z.div_1_r.
  - rewrite (Hrest k y Hk) div_pow2_S. f_equal. lia.
Qed.

(** Whatever the length of the proof, the element is the hash of some node. *)
Lemma verify_fold_descend leaves (xs : list HashValue) l p index h :
  (foldl verify_step (h, index) xs).1 = node_hash leaves (l + length xs) p →
  ∃ q, h = node_hash leaves l q.
Proof.
  revert l p index h; induction xs as [|x xs IH]; intros l p index h Hroot.
  { exists p. by rewrite Nat.add_0_r in Hroot. }
  cbn [foldl length] in Hroot. destruct (verify_step (h, index) x) as [h' index'] eqn:Hstep.
  destruct (IH (S l) p index' h') as [q Hq]; [rewrite Hroot; f_equal; lia|].
  destruct (decide (leaf_count leaves ≤ q * 2 ^ Z.of_nat (S l))) as [Hle|Hgt].
  - rewrite node_hash_placeholder // in Hq. exfalso.
    cbn in Hstep. destruct (index mod 2 =? 0); injection Hstep as Hh' _;
      apply (placeholder_not_internal _ _ (eq_sym (eq_trans Hh' Hq))).
  - rewrite node_hash_S in Hq; [lia|]. cbn in Hstep.
    destruct (index mod 2 =? 0); injection Hstep as Hh' _; rewrite -Hh' in Hq;
      apply hash_internal_node_inj in Hq as [??]; eauto.
Qed.

Lemma foldl_verify_internal h index x (xs : list HashValue) :
  ∃ a b, (foldl verify_step (h, index) (x :: xs)).1 = hash_internal_node a b.
Proof.
  revert h index x; induction xs as [|y xs IH]; intros h index x.
  - cbn. destruct (index mod 2 =? 0); eauto.
  - cbn [foldl]. destruct (verify_step (h, index) x) as [h' index']. apply IH.
Qed.

Lemma node_hash_lookup leaves index h :
  0 ≤ index < leaf_count leaves → h = node_hash leaves 0 index → leaves !! Z.to_nat index = Some h.
Proof.
  intros Hi Hh. destruct (lookup_lt_is_Some_2 leaves (Z.to_nat index)) as [x Hx].
  { unfold leaf_count in Hi. lia. }
  pose proof (node_hash_leaf _ _ _ Hx) as Hn. rewrite Z2Nat.id in Hn; [lia|]. congruence.
Qed.

Lemma node_hash_0_leaf leaves q :
  node_hash leaves 0 q = ACCUMULATOR_PLACEHOLDER_HASH ∨ node_hash leaves 0 q ∈ leaves.
Proof.
  cbn [node_hash]. destruct (Z.leb_spec (leaf_count leaves) (q * 2 ^ Z.of_nat 0)); [by left|].
  destruct (leaves !! Z.to_nat q) eqn:Hq; [right|by left]. by eapply list_elem_of_lookup_2.
Qed.

Lemma inclusion_sound leaves proof h index :
  0 ≤ index < leaf_count leaves → leaf_domain h → Forall leaf_domain leaves →
  AccumulatorProof_verify proof (root_of leaves) h index = Ok tt →
  leaves !! Z.to_nat index = Some h ∧ length (siblings proof) = root_level (leaf_count leaves).
Proof.
  intros Hi [Hph Hint] Hleaves Hok. unfold AccumulatorProof_verify in Hok.
  destruct (negb _); [done|]. case_decide as Hroot; [|done].
  set (k := length (siblings proof)) in *. set (L := root_level (leaf_count leaves)).
  rewrite root_of_nonempty // in Hroot; [lia|]. fold L in Hroot.
  destruct (lt_eq_lt_dec k L) as [[Hlt|Heq]|Hgt].
  - exfalso. destruct (verify_fold_descend leaves (siblings proof) (L - k) 0 index h) as [q Hq].
    { rewrite Hroot. f_equal. fold k. lia. }
    destruct (L - k)%nat as [|l'] eqn:Hl; [lia|].
    destruct (decide (leaf_count leaves ≤ q * 2 ^ Z.of_nat (S l'))).
    + rewrite node_hash_placeholder // in Hq.
    + rewrite node_hash_S in Hq; [lia|]. by apply (Hint _ _ Hq).
  - split; [|done]. apply node_hash_lookup; [done|].
    pose proof (root_fits (leaf_count leaves) ltac:(lia)) as Hfits. fold L in Hfits.
    apply (verify_fold_sound leaves (siblings proof) 0 index h).
    + change (2 ^ Z.of_nat 0) with 1. lia.
    + rewrite Hroot. fold k. rewrite Heq Z.div_small; [lia|done].
  - exfalso. rewrite -(take_drop (k - L) (siblings proof)) foldl_app in Hroot.
    destruct (siblings proof) as [|x xs] eqn:Hs; [cbn in k; lia|].
    destruct (k - L)%nat as [|j] eqn:Hj; [lia|]. cbn [take] in Hroot.
    destruct (foldl_verify_internal h index x (take j xs)) as (a & b & Hab).
    destruct (foldl verify_step (h, index) (x :: take j xs)) as [h' index'].
    cbn [fst] in Hab. subst h'.
    destruct (verify_fold_descend leaves (drop (S j) (x :: xs)) 0 0 index' (hash_internal_node a b))
      as [q Hq].
    { rewrite Hroot. f_equal. rewrite length_drop. fold k. lia. }
    destruct (node_hash_0_leaf leaves q) as [Hp|Hin]; rewrite -Hq in Hp || rewrite -Hq in Hin.
    + by apply (placeholder_not_internal a b).
    + rewrite Forall_forall in Hleaves. destruct (Hleaves _ Hin) as [_ Hno]. by apply (Hno a b).
Qed.

(** ** The root hash determines the accumulator *)

Lemma root_loop_inj (fuel : nat) m cur cur' (xs xs' : list HashValue) v :
  0 ≤ m < 2 ^ Z.of_nat fuel →
  Z.of_nat (length xs) = count_ones m → Z.of_nat (length xs') = count_ones m →
  root_loop fuel m cur xs = Ret v → root_loop fuel m cur' xs' = Ret v → cur = cur' ∧ xs = xs'.
Proof.
  revert m cur cur' xs xs'; induction fuel as [|fuel IH]; intros m cur cur' xs xs' Hm Hx Hx' Hr Hr'.
  { change (2 ^ Z.of_nat 0) with 1 in Hm. assert (m = 0) as -> by lia. cbn in Hx, Hx', Hr, Hr'.
    destruct xs, xs'; [|done..]. split; congruence. }
  cbn [root_loop] in Hr, Hr'. destruct (decide (m = 0)) as [->|Hne].
  { cbn in Hx, Hx', Hr, Hr'. destruct xs, xs'; [|done..]. split; congruence. }
  rewrite (proj2 (Z.ltb_lt 0 m)) in Hr, Hr'; [lia|]. cbn [negb] in Hr, Hr'.
  rewrite land_1 negb_involutive in Hr, Hr'. rewrite pow2_S in Hm.
  destruct (Z_double_cases m) as [q [->| ->]].
  - rewrite odd_double_succ shr1_double_succ in Hr, Hr'.
    rewrite count_ones_double_succ in Hx, Hx'; [lia|]. pose proof (count_ones_nonneg q).
    destruct xs as [|x xs], xs' as [|x' xs']; cbn [length] in Hx, Hx'; try lia.
    cbn [expect head tail mbind comp_bind] in Hr, Hr'.
    destruct (IH q _ _ xs xs' ltac:(lia) ltac:(lia) ltac:(lia) Hr Hr') as [Hh ->].
    apply hash_internal_node_inj in Hh as [-> ->]. done.
  - rewrite odd_double shr1_double in Hr, Hr'. rewrite count_ones_double in Hx, Hx'.
    destruct (IH q _ _ _ _ ltac:(lia) Hx Hx' Hr Hr') as [Hh ->].
    apply hash_internal_node_inj in Hh as [-> _]. done.
Qed.

Lemma compute_root_hash_many (xs : list HashValue) n v :
  (2 ≤ length xs)%nat → compute_root_hash xs n = Ret v →
  ∃ bitmap, u64_shr n (trailing_zeros n) = Ret bitmap ∧
    root_loop u64_bits bitmap ACCUMULATOR_PLACEHOLDER_HASH (reverse xs) = Ret v.
Proof.
  intros Hlen Hr. destruct xs as [|x [|y xs]]; cbn [length] in Hlen; [lia..|].
  by apply bind_Ret in Hr.
Qed.

Lemma odd_bitmap n :
  0 < n < 2 ^ 64 → ∃ a, 0 ≤ 2 * a + 1 < 2 ^ 64 ∧ u64_shr n (trailing_zeros n) = Ret (2 * a + 1) ∧
    count_ones (2 * a + 1) = count_ones n.
Proof.
  intros Hn. destruct (odd_part n) as (i & a & Ha & Heq); [lia|]. pose proof (pow2_gt0 i).
  exists a. assert (i < 64)%nat.
  { destruct (decide (i < 64)%nat) as [|Hge]; [done|]. pose proof (pow2_le 64 i ltac:(lia)).
    change (Z.of_nat 64) with 64 in *. nia. }
  split; [nia|]. rewrite Heq count_ones_shift trailing_zeros_odd // u64_shr_Ret; [lia|].
  rewrite Z.shiftr_div_pow2; [lia|]. rewrite Z.div_mul; [lia|done].
Qed.

Lemma compute_root_hash_inj (xs xs' : list HashValue) n v :
  0 ≤ n < 2 ^ 64 → Z.of_nat (length xs) = count_ones n → Z.of_nat (length xs') = count_ones n →
  compute_root_hash xs n = Ret v → compute_root_hash xs' n = Ret v → xs = xs'.
Proof.
  intros Hn Hx Hx' Hr Hr'. pose proof (Nat2Z.inj _ _ (eq_trans Hx (eq_sym Hx'))) as Hlen.
  destruct (decide (2 ≤ length xs)%nat) as [Hmany|Hfew].
  - apply compute_root_hash_many in Hr as (b & Hb & Hr); [|done].
    apply compute_root_hash_many in Hr' as (b' & Hb' & Hr'); [|lia].
    destruct (odd_bitmap n) as (a & Ha & Hshr & Hones).
    { destruct (decide (n = 0)) as [->|]; [cbn in Hx|]; lia. }
    assert (b = 2 * a + 1) as -> by congruence. assert (b' = 2 * a + 1) as -> by congruence.
    apply (inj reverse). refine (proj2 (root_loop_inj u64_bits (2 * a + 1) _ _ _ _ v Ha _ _ Hr Hr'));
      by rewrite length_reverse Hones.
  - destruct xs as [|x [|y xs]], xs' as [|x' [|y' xs']]; cbn [length] in *; try lia; [done|].
    cbn in Hr, Hr'. congruence.
Qed.

Lemma node_hash_inj leaves leaves' l p :
  leaf_count leaves = leaf_count leaves' → 0 ≤ p →
  node_hash leaves l p = node_hash leaves' l p →
  ∀ i, p * 2 ^ Z.of_nat l ≤ i < (p + 1) * 2 ^ Z.of_nat l → leaves !! Z.to_nat i = leaves' !! Z.to_nat i.
Proof.
  intros Hn. revert p; induction l as [|l IH]; intros p Hp Heq i Hi.
  - change (2 ^ Z.of_nat 0) with 1 in Hi. replace i with p by lia.
    destruct (decide (p < leaf_count leaves)) as [Hlt|Hge].
    + rewrite (node_hash_lookup leaves p (node_hash leaves 0 p)) //.
      rewrite (node_hash_lookup leaves' p (node_hash leaves 0 p)) //. lia.
    + unfold leaf_count in *. rewrite !lookup_ge_None_2 //; lia.
  - rewrite pow2_S in Hi. destruct (decide (p * 2 ^ Z.of_nat (S l) < leaf_count leaves)) as [Hlt|Hge].
    + rewrite !node_hash_S in Heq; [lia..|]. apply hash_internal_node_inj in Heq as [Hl Hr].
      destruct (decide (i < (2 * p + 1) * 2 ^ Z.of_nat l)).
      * apply (IH (2 * p)); [lia|done|lia].
      * apply (IH (2 * p + 1)); [lia|done|lia].
    + rewrite pow2_S in Hge. unfold leaf_count in *. rewrite !lookup_ge_None_2 //; lia.
Qed.

Lemma root_of_inj leaves leaves' :
  leaf_count leaves = leaf_count leaves' → root_of leaves = root_of leaves' → leaves = leaves'.
Proof.
  intros Hn Hroot. destruct (decide (leaf_count leaves = 0)) as [Hz|Hne].
  { unfold leaf_count in *. destruct leaves, leaves'; cbn in *; done || lia. }
  pose proof (leaf_count_nonneg leaves).
  rewrite !root_of_nonempty in Hroot; [lia..|]. rewrite -Hn in Hroot.
  pose proof (root_fits (leaf_count leaves) ltac:(lia)) as Hfits.
  apply list_eq. intros i. destruct (decide (Z.of_nat i < leaf_count leaves)) as [Hlt|Hge].
  - rewrite -(Nat2Z.id i). apply (node_hash_inj leaves leaves' (root_level (leaf_count leaves)) 0); [done..|lia].
  - unfold leaf_count in *. rewrite !lookup_ge_None_2 //; lia.
Qed.

(** ** What an accepted consistency proof says *)

Lemma vec_pop_Some {A} (v r : list A) x : vec_pop v = Some (r, x) → v = r ++ [x].
Proof.
  unfold vec_pop. destruct (reverse v) as [|y ys] eqn:Hv; [done|]. intros [= <- <-].
  by rewrite -(reverse_involutive v) Hv reverse_cons.
Qed.

Lemma carry_loop_inj (fuel : nat) c mask (xs xs' : list HashValue) cur cur' r h m r' h' m' :
  length xs = length xs' →
  carry_loop fuel c mask xs cur = Ret (r, h, m) →
  carry_loop fuel c mask xs' cur' = Ret (r', h', m') →
  m = m' ∧ length r = length r' ∧ (r = r' → h = h' → xs = xs' ∧ cur = cur').
Proof.
  revert mask xs xs' cur cur'; induction fuel as [|fuel IH]; intros mask xs xs' cur cur' Hlen Hr Hr'.
  { cbn in Hr, Hr'. simplify_eq. done. }
  cbn [carry_loop] in Hr, Hr'. destruct (Z.land c mask =? 0); [simplify_eq; done|].
  destruct (vec_pop xs) as [[ys x]|] eqn:Hpop; [|done].
  destruct (vec_pop xs') as [[ys' x']|] eqn:Hpop'; [|done].
  cbn [expect mbind comp_bind] in Hr, Hr'. apply vec_pop_Some in Hpop, Hpop'. subst xs xs'.
  rewrite !length_app in Hlen. cbn [length] in Hlen.
  destruct (IH _ ys ys' _ _ ltac:(lia) Hr Hr') as (-> & Hl & Hinj). split; [done|]. split; [done|].
  intros -> ->. destruct (Hinj eq_refl eq_refl) as [-> Hh].
  apply hash_internal_node_inj in Hh as [-> ->]. done.
Qed.

Lemma subtree_loop_inj (st st' xs xs' : list HashValue) c r size ro c1 r1 re ro' c1' r1' re' :
  length xs = length xs' →
  subtree_loop st xs c r size = Ret (Ok (ro, c1, r1, re)) →
  subtree_loop st' xs' c r size = Ret (Ok (ro', c1', r1', re')) →
  c1 + r1 = c1' + r1' ∧ (ro ++ re = ro' ++ re' → xs = xs' ∧ st = st').
Proof.
  revert st' xs xs' c r size; induction st as [|s st IH]; intros st' xs xs' c r size Hlen Hr Hr'.
  all: destruct (size <=? r) eqn:Hsize.
  - cbn in Hr. by rewrite Hsize in Hr.
  - assert (∀ st0 ys, subtree_loop st0 ys c r size = Ret (Ok (ys, c, r, st0))) as Hstop.
    { intros [|??] ys; cbn; by rewrite Hsize. }
    rewrite Hstop in Hr. rewrite Hstop in Hr'. simplify_eq. split; [done|].
    intros Happ. by apply app_inj_1 in Happ.
  - destruct st' as [|s' st']; cbn [subtree_loop] in Hr, Hr'; rewrite Hsize in Hr, Hr'; [done|].
    cbn [negb] in Hr, Hr'.
    apply bind_Ret in Hr as ([[ys h] mask] & Hc & Hr). apply bind_Ret in Hr as (c2 & Hadd & Hr).
    apply bind_Ret in Hr' as ([[ys' h'] mask'] & Hc' & Hr'). apply bind_Ret in Hr' as (c2' & Hadd' & Hr').
    destruct (carry_loop_inj _ _ _ _ _ _ _ _ _ _ _ _ _ Hlen Hc Hc') as (-> & Hl & Hinj).
    assert (c2' = c2) as -> by congruence.
    destruct (IH st' (ys ++ [h]) (ys' ++ [h']) c2 (r - size) mask') as [Hsum Heq]; [|done|done|].
    { rewrite !length_app. cbn. lia. }
    split; [done|]. intros Happ. destruct (Heq Happ) as [Hys ->].
    apply app_inj_tail in Hys as [-> ->]. destruct (Hinj eq_refl eq_refl) as [-> ->]. done.
  - assert (∀ st0 ys, subtree_loop st0 ys c r size = Ret (Ok (ys, c, r, st0))) as Hstop.
    { intros [|??] ys; cbn; by rewrite Hsize. }
    rewrite Hstop in Hr. rewrite Hstop in Hr'. simplify_eq. split; [done|].
    intros Happ. by apply app_inj_1 in Happ.
Qed.

Lemma new_Ok (xs : list HashValue) n acc :
  InMemoryAccumulator_new xs n = Ret (Ok acc) →
  Z.of_nat (length xs) = count_ones n ∧ frozen_subtree_roots acc = xs ∧ num_leaves acc = n ∧
  compute_root_hash xs n = Ret (root_hash acc).
Proof.
  unfold InMemoryAccumulator_new. destruct (Z.eqb_spec (Z.of_nat (length xs)) (count_ones n)); [|done].
  intros Hr. apply bind_Ret in Hr as (v & Hv & Hr). injection Hr as <-. done.
Qed.

(** An accumulator with the root of a list of leaves is the accumulator of that list. *)
Lemma new_root_of (xs : list HashValue) leaves acc :
  leaf_count leaves < 2 ^ 64 → InMemoryAccumulator_new xs (leaf_count leaves) = Ret (Ok acc) →
  root_hash acc = root_of leaves →
  xs = hashes leaves (frozen 0 (leaf_count leaves)) ∧ acc = acc_of leaves.
Proof.
  intros Hmax Hnew Hroot. apply new_Ok in Hnew as (Hlen & Hxs & Hn & Hc).
  pose proof (leaf_count_nonneg leaves). rewrite Hroot in Hc.
  assert (xs = hashes leaves (frozen 0 (leaf_count leaves))) as Heq.
  { apply (compute_root_hash_inj _ _ (leaf_count leaves) (root_of leaves)); [lia|done| |done|].
    - by rewrite hashes_length length_frozen.
    - by apply compute_root_hash_spec. }
  split; [done|]. destruct acc; cbn in *. unfold acc_of. by rewrite Hxs Hn Hroot Heq.
Qed.

Lemma frozen_roots_inj leaves leaves' :
  leaf_count leaves = leaf_count leaves' → leaf_count leaves < 2 ^ 64 →
  hashes leaves (frozen 0 (leaf_count leaves)) = hashes leaves' (frozen 0 (leaf_count leaves')) →
  leaves = leaves'.
Proof.
  intros Hn Hmax Heq. apply root_of_inj; [done|].
  pose proof (compute_root_hash_spec leaves Hmax) as H1.
  pose proof (compute_root_hash_spec leaves' ltac:(lia)) as H2.
  rewrite Heq Hn H2 in H1. congruence.
Qed.

(** The accumulator of a prefix, and the run that extends it. *)
Lemma subtree_loop_Ok leaves subtrees k acc :
  0 < leaf_count leaves → leaf_count leaves + k ≤ 2 ^ 63 → 0 ≤ k →
  append_subtrees (acc_of leaves) subtrees k = Ret (Ok acc) →
  ∃ size roots c r rest,
    u64_shl 1 (trailing_zeros (leaf_count leaves)) = Ret size ∧
    subtree_loop subtrees (hashes leaves (frozen 0 (leaf_count leaves))) (leaf_count leaves) k size
      = Ret (Ok (roots, c, r, rest)) ∧
    InMemoryAccumulator_new (roots ++ rest) (c + r) = Ret (Ok acc).
Proof.
  intros Hpos Hmax Hk Hrun. rewrite append_subtrees_eq // in Hrun.
  destruct (Z.eqb_spec (leaf_count leaves) 0); [lia|].
  apply bind_Ret in Hrun as (size & Hsize & Hrun). apply bind_Ret in Hrun as (res & Hres & Hrun).
  destruct res as [[[[roots c] r] rest]|]; cbn [try] in Hrun; [|done].
  apply bind_Ret in Hrun as (s & Hadd & Hrun). unfold u64_add in Hadd.
  destruct (c + r <=? u64_max); [|done]. injection Hadd as <-. eauto 10.
Qed.

Lemma consistency_sound leaves leaves' subtrees acc :
  leaf_count leaves ≤ leaf_count leaves' ≤ 2 ^ 63 →
  append_subtrees (acc_of leaves) subtrees (leaf_count leaves' - leaf_count leaves) = Ret (Ok acc) →
  root_hash acc = root_of leaves' →
  leaves = take (length leaves) leaves' ∧ acc = acc_of leaves' ∧
  subtrees = hashes leaves' (extension 64 (leaf_count leaves) (leaf_count leaves' - leaf_count leaves)).
Proof.
  intros Hle Hrun Hroot. pose proof (leaf_count_nonneg leaves).
  set (old := take (length leaves) leaves'). set (more := drop (length leaves) leaves').
  assert (leaves' = old ++ more) as Heq by (symmetry; apply take_drop).
  assert (leaf_count old = leaf_count leaves) as Hold.
  { unfold leaf_count, old in *. rewrite length_take. lia. }
  pose proof (leaf_count_app old more) as Happ. rewrite -Heq in Happ.
  replace (leaf_count leaves' - leaf_count leaves) with (leaf_count more) in * by lia.
  destruct (decide (leaf_count leaves = 0)) as [Hz|Hne].
  - rewrite append_subtrees_eq ?Hz in Hrun; [lia..|]. rewrite Z.eqb_refl in Hrun.
    replace (leaf_count more) with (leaf_count leaves') in Hrun |- * by lia.
    apply new_root_of in Hrun as [-> ->]; [|lia|done].
    assert (leaves = []) as -> by (destruct leaves; [done|]; unfold leaf_count in Hz; cbn in Hz; lia).
    split; [done|]. split; [done|]. change (leaf_count []) with 0. rewrite extension_empty tail_empty //; lia.
  - pose proof (append_subtrees_spec old more) as Href. rewrite -Heq Hold in Href.
    specialize (Href ltac:(lia)).
    destruct (subtree_loop_Ok leaves subtrees (leaf_count more) acc)
      as (size & roots & c & r & rest & Hsize & Hloop & Hnew); [lia..|done|].
    destruct (subtree_loop_Ok old _ (leaf_count more) (acc_of leaves') ltac:(lia) ltac:(lia)
      ltac:(apply leaf_count_nonneg) Href) as (size' & roots' & c' & r' & rest' & Hsize' & Hloop' & Hnew').
    rewrite Hold in Hsize', Hloop'. assert (size' = size) as -> by congruence.
    assert (length (hashes leaves (frozen 0 (leaf_count leaves)))
      = length (hashes old (frozen 0 (leaf_count leaves)))) as Hlen by (by rewrite !hashes_length).
    destruct (subtree_loop_inj _ _ _ _ _ _ _ _ _ _ _ _ _ _ _ Hlen Hloop Hloop') as [Hsum Hinj].
    apply new_Ok in Hnew' as (_ & Hroots' & Hnum & _). cbn in Hroots', Hnum.
    rewrite Hsum -Hnum in Hnew. apply new_root_of in Hnew as [Hroots ->]; [|lia|done].
    destruct Hinj as [Hfrozen ->]; [by rewrite Hroots|]. split; [|done].
    apply frozen_roots_inj; [done|lia|by rewrite Hold].
Qed.

(** ** What an accepted range proof says *)

(** The hash of a pair that is a node's hash is the hash of that node's children. *)
Lemma internal_children leaves l p a b :
  hash_internal_node a b = node_hash leaves (S l) p →
  a = node_hash leaves l (2 * p) ∧ b = node_hash leaves l (2 * p + 1).
Proof.
  intros Heq. destruct (decide (p * 2 ^ Z.of_nat (S l) < leaf_count leaves)) as [Hlt|Hge].
  - rewrite node_hash_S // in Heq. by apply hash_internal_node_inj.
  - rewrite node_hash_placeholder in Heq; [lia|]. by apply eq_sym, placeholder_not_internal in Heq.
Qed.

(** [xs] are the hashes of consecutive nodes of level [l], from [p] on. *)
Definition consecutive (leaves : list HashValue) (l : nat) (p : Z) (xs : list HashValue) : Prop :=
  ∀ (j : nat) x, xs !! j = Some x → x = node_hash leaves l (p + Z.of_nat j).

Lemma consecutive_cons leaves l p x (xs : list HashValue) :
  consecutive leaves l p (x :: xs) ↔ x = node_hash leaves l p ∧ consecutive leaves l (p + 1) xs.
Proof.
  split.
  - intros H. split; [rewrite (H 0%nat x eq_refl); f_equal; lia|].
    intros j y Hj. rewrite (H (S j) y Hj). f_equal. lia.
  - intros [-> H] [|j] y Hj; [injection Hj as <-; f_equal; lia|].
    rewrite (H j y Hj). f_equal. lia.
Qed.

Lemma consecutive_nil leaves l p : consecutive leaves l p [].
Proof. intros j x Hj. by rewrite lookup_nil in Hj. Qed.

Lemma pair_up_sound leaves l q (xs ps rem : list HashValue) :
  pair_up xs = (ps, rem) → consecutive leaves (S l) q ps →
  (∀ x, rem = [x] → ∃ s, hash_internal_node x s = node_hash leaves (S l) (q + Z.of_nat (length ps))) →
  (length rem ≤ 1)%nat ∧ consecutive leaves l (2 * q) xs.
Proof.
  revert q ps. induction xs as [xs IH] using (induction_ltof1 _ (@length HashValue)); intros q ps.
  destruct xs as [|x [|y xs]]; cbn [pair_up].
  - intros [= <- <-] _ _. split; [cbn; lia|]. apply consecutive_nil.
  - intros [= <- <-] _ Hrem. split; [done|]. destruct (Hrem x eq_refl) as [s Hs].
    cbn [length] in Hs. rewrite Z.add_0_r in Hs. apply internal_children in Hs as [-> _].
    apply consecutive_cons. split; [done|]. apply consecutive_nil.
  - destruct (pair_up xs) as [ps' rem'] eqn:Hpair. intros [= <- <-] Hps Hrem.
    apply consecutive_cons in Hps as [Hh Hps]. apply internal_children in Hh as [-> ->].
    destruct (IH xs) with (q := q + 1) (ps := ps') as [Hlen Hxs]; [unfold ltof; cbn; lia|done|done| |].
    { intros z Hz. destruct (Hrem z Hz) as [s Hs]. exists s. rewrite Hs. f_equal. cbn [length]. lia. }
    split; [done|]. rewrite !consecutive_cons. split; [done|]. split; [done|].
    by replace (2 * q + 1 + 1) with (2 * (q + 1)) by lia.
Qed.

Lemma range_pairs_sound leaves l (res xs li ri ys li' ri' : list HashValue) :
  range_pairs res xs li ri = Ret (Ok (ys, li', ri')) →
  ∃ ys', ys = res ++ ys' ∧
    ∀ q, consecutive leaves (S l) q ys' → consecutive leaves l (2 * q) xs.
Proof.
  unfold range_pairs. destruct (pair_up xs) as [ps rem] eqn:Hpair. intros Hr. returned Hr.
  destruct rem as [|z rem].
  - injection Hr as <- _ _. exists ps. split; [done|]. intros q Hq.
    by apply (pair_up_sound _ _ _ _ _ _ Hpair Hq).
  - destruct ri as [|s ri]; [done|]. injection Hr as <- _ _.
    exists (ps ++ [hash_internal_node z s]). split; [done|]. intros q Hq.
    refine (proj2 (pair_up_sound _ _ q _ ps _ Hpair _ _)).
    + intros j x Hj. apply (Hq j x). by apply lookup_app_l_Some.
    + intros x [= -> ->]. exists s. apply (Hq (length ps)). by rewrite lookup_app_r // Nat.sub_diag.
Qed.

Lemma range_round_sound leaves l q (b : bool) (xs li ri ys li' ri' : list HashValue) :
  range_round b xs li ri = Ret (Ok (ys, li', ri')) → consecutive leaves (S l) q ys →
  consecutive leaves l (2 * q + (if b then 1 else 0)) xs.
Proof.
  unfold range_round. intros Hr Hys. destruct b.
  - destruct li as [|left_hash li]; [done|]. destruct xs as [|x xs]; [done|].
    cbn [expect head tail mbind comp_bind] in Hr.
    apply (range_pairs_sound leaves l) in Hr as (ys' & -> & Htail).
    cbn [app] in Hys. apply consecutive_cons in Hys as [Hh Hys].
    apply internal_children in Hh as [_ ->]. apply consecutive_cons. split; [done|].
    replace (2 * q + 1 + 1) with (2 * (q + 1)) by lia. by apply Htail.
  - apply (range_pairs_sound leaves l) in Hr as (ys' & -> & Htail). rewrite Z.add_0_r. by apply Htail.
Qed.

(** Rounds that were not empty end with hashes of pairs. *)
Lemma range_round_internal (b : bool) (xs li ri ys li' ri' : list HashValue) :
  xs ≠ [] → range_round b xs li ri = Ret (Ok (ys, li', ri')) →
  ∃ a c ys', ys = hash_internal_node a c :: ys'.
Proof.
  intros Hne Hr. unfold range_round in Hr. destruct b.
  - destruct li as [|left_hash li]; [done|]. returned Hr.
    apply (range_pairs_sound [] 0) in Hr as (ys' & -> & _). cbn. eauto.
  - unfold range_pairs in Hr. destruct xs as [|x [|y xs]]; [done|..].
    + cbn in Hr. destruct ri as [|s ri]; [done|]. injection Hr as <- _ _. cbn. eauto.
    + cbn [pair_up] in Hr. destruct (pair_up xs) as [ps rem]. returned Hr.
      destruct rem; [|destruct ri; [done|]]; injection Hr as <- _ _; cbn; eauto.
Qed.

Lemma internal_not_leaf leaves a b p :
  Forall leaf_domain leaves → hash_internal_node a b ≠ node_hash leaves 0 p.
Proof.
  intros Hleaves Heq. destruct (node_hash_0_leaf leaves p) as [Hp|Hin]; rewrite -Heq in Hp || rewrite -Heq in Hin.
  - by apply (placeholder_not_internal a b).
  - rewrite Forall_forall in Hleaves. by apply (proj2 (Hleaves _ Hin) a b).
Qed.

(** A round takes the sibling on the left of a right child. *)
Lemma range_round_left leaves l q (b : bool) (xs li ri ys li' ri' : list HashValue) :
  range_round b xs li ri = Ret (Ok (ys, li', ri')) → consecutive leaves (S l) q ys →
  li = (if b then [node_hash leaves l (2 * q)] else []) ++ li'.
Proof.
  assert (∀ res children li0, range_pairs res children li0 ri = Ret (Ok (ys, li', ri')) → li0 = li') as Hpairs.
  { intros res children li0 Hr. unfold range_pairs in Hr. destruct (pair_up children) as [ps rem]. returned Hr.
    destruct rem; [by injection Hr|]. destruct ri; [done|]. by injection Hr. }
  unfold range_round. intros Hr Hys. destruct b; [|by apply (Hpairs [] xs)].
  destruct li as [|left_hash li]; [done|]. destruct xs as [|x xs]; [done|].
  cbn [expect head tail mbind comp_bind] in Hr. rewrite (Hpairs _ _ _ Hr).
  apply (range_pairs_sound leaves l) in Hr as (ys' & -> & _).
  cbn [app] in Hys. apply consecutive_cons in Hys as [Hh _]. by apply internal_children in Hh as [-> _].
Qed.

(** The siblings on the left of a path. *)
Fixpoint left_coords (k l : nat) (p : Z) : list (nat * Z) :=
  match k with
  | O => []
  | S k' => (if Z.odd p then [(l, p - 1)] else []) ++ left_coords k' (S l) (p / 2)
  end.

(** [k] rounds from [xs] to [ys] at the positions from [pos] on: if the hashes it ends
    with are nodes, so are those it began with, [k] levels below, and the siblings [li]
    are those on the left; and it cannot have begun below the leaves. *)
Record descends (leaves : list HashValue) (pos : Position) (xs li ys : list HashValue) (k : nat) (m : Z) :
    Prop := {
  descends_range : 0 ≤ m < 2 ^ Z.of_nat k;
  descends_index l f : coord l f → pos = node l f → m = f mod 2 ^ Z.of_nat k;
  descends_nodes e p : consecutive leaves (e + k) p ys → consecutive leaves e (p * 2 ^ Z.of_nat k + m) xs;
  descends_left e p :
    consecutive leaves (e + k) p ys → li = hashes leaves (left_coords k e (p * 2 ^ Z.of_nat k + m));
  descends_deep e p : Forall leaf_domain leaves → xs ≠ [] → consecutive leaves e p ys → (k ≤ e)%nat;
}.

Lemma assert_invariant_Ret v u : assert_invariant v = Ret u → v < 2 ^ 64 - 2.
Proof. unfold assert_invariant, u64_max. intros H%rust_assert_Ret%Z.ltb_lt. lia. Qed.

Lemma is_right_child_Ret v b : is_right_child v = Ret b → v < 2 ^ 64 - 2.
Proof.
  unfold is_right_child, is_left_child. destruct (assert_invariant v) eqn:Hinv; [|done].
  intros _. by eapply assert_invariant_Ret.
Qed.

(** A round climbs to the parent, or leaves the tree at its root. *)
Lemma round_position pos b pos' l f :
  coord l f → pos = node l f → is_right_child pos = Ret b → parent pos = Ret pos' →
  b = Z.odd f ∧ ((coord (S l) (f / 2) ∧ pos' = node (S l) (f / 2)) ∨ (f = 0 ∧ pos' = 2 ^ 64 - 1)).
Proof.
  intros Hc -> Hb Hp. pose proof (is_right_child_Ret _ _ Hb) as Hlt.
  assert ((0 < l)%nat ∨ f < 2 ^ 63 - 1) as Hlast.
  { destruct l as [|l]; [right|left; lia]. rewrite node_0 in Hlt. lia. }
  rewrite is_right_child_node // in Hb. split; [congruence|].
  destruct (level_63 _ _ Hc) as [Hl|[-> ->]].
  - left. rewrite parent_node // in Hp. split; [by apply parent_coord|congruence].
  - right. split; [done|]. assert (parent (node 63 0) = Ret (2 ^ 64 - 1)) by (vm_compute; done). congruence.
Qed.

Lemma mod_double f (k : nat) (b : bool) :
  b = Z.odd f → f mod 2 ^ Z.of_nat (S k) = 2 * ((f / 2) mod 2 ^ Z.of_nat k) + (if b then 1 else 0).
Proof.
  intros ->. pose proof (pow2_gt0 k). rewrite pow2_S Z.rem_mul_r; [lia..|].
  rewrite (Z.mul_comm 2) Zmod_odd. destruct (Z.odd f); lia.
Qed.

Lemma descends_0 leaves pos (xs : list HashValue) : descends leaves pos xs [] xs 0 0.
Proof.
  split; [done|..].
  - intros. by rewrite Z.mod_1_r.
  - intros e p. rewrite Nat.add_0_r. by replace (p * 2 ^ Z.of_nat 0 + 0) with p by (cbn; lia).
  - done.
  - intros. lia.
Qed.

Lemma descends_S leaves pos pos' b (xs ys zs li ri li' ri' : list HashValue) k m :
  is_right_child pos = Ret b → parent pos = Ret pos' →
  range_round b xs li ri = Ret (Ok (ys, li', ri')) →
  (pos' = 2 ^ 64 - 1 → k = 0%nat) →
  descends leaves pos' ys li' zs k m → descends leaves pos xs li zs (S k) (2 * m + (if b then 1 else 0)).
Proof.
  intros Hb Hp Hround Hend [Hm Hidx Hnodes Hleft Hdeep]. split.
  - rewrite pow2_S. destruct b; lia.
  - intros l f Hc Hpos. destruct (round_position _ _ _ _ _ Hc Hpos Hb Hp) as [Hodd [[Hc' Hpos']|[-> Hpos']]].
    + by rewrite (mod_double f k b) // (Hidx _ _ Hc' Hpos').
    + rewrite (Hend Hpos') in Hm |- *. change (2 ^ Z.of_nat 0) with 1 in Hm. subst b.
      change (Z.odd 0) with false. rewrite Z.mod_0_l; [done|]. lia.
  - intros e p Hz. replace (e + S k)%nat with (S e + k)%nat in Hz by lia. apply Hnodes in Hz.
    pose proof (range_round_sound _ _ _ _ _ _ _ _ _ _ Hround Hz) as Hxs.
    replace (p * 2 ^ Z.of_nat (S k) + (2 * m + (if b then 1 else 0)))
      with (2 * (p * 2 ^ Z.of_nat k + m) + (if b then 1 else 0)) by (rewrite pow2_S; lia). done.
  - intros e p Hz. replace (e + S k)%nat with (S e + k)%nat in Hz by lia.
    pose proof (Hleft _ _ Hz) as Hli'. apply Hnodes in Hz.
    rewrite (range_round_left _ _ _ _ _ _ _ _ _ _ Hround Hz).
    set (q := p * 2 ^ Z.of_nat k + m) in *.
    replace (p * 2 ^ Z.of_nat (S k) + (2 * m + (if b then 1 else 0)))
      with (2 * q + (if b then 1 else 0)) by (unfold q; rewrite pow2_S; lia).
    cbn [left_coords]. rewrite hashes_app Hli'. destruct b.
    + rewrite odd_double_succ. destruct (half_double_succ q) as (-> & _ & _).
      by replace (2 * q + 1 - 1) with (2 * q) by lia.
    + rewrite Z.add_0_r odd_double. by destruct (half_double q) as (-> & _ & _).
  - intros e p Hleaves Hne Hz.
    destruct (range_round_internal _ _ _ _ _ _ _ Hne Hround) as (a & c & ys' & ->).
    assert (k ≤ e)%nat by (by apply (Hdeep e p)). destruct (decide (e = k)) as [->|]; [|lia].
    exfalso. pose proof (Hnodes 0%nat p Hz) as Hy. apply consecutive_cons in Hy as [Hy _].
    by apply (internal_not_leaf leaves a c _ Hleaves Hy).
Qed.

Lemma range_loop_sound leaves (fuel : nat) pos (xs li ri zs : list HashValue) :
  range_loop fuel pos xs li ri = Ret (Ok (Some zs)) →
  (length zs ≤ 1)%nat ∧ ∃ k m, descends leaves pos xs li zs k m ∧ (pos = 2 ^ 64 - 1 → k = 0%nat).
Proof.
  revert pos xs li ri; induction fuel as [|fuel IH]; intros pos xs li ri Hr; cbn [range_loop] in Hr.
  all: destruct ((length xs <=? 1)%nat && bool_decide (li = []) && bool_decide (ri = [])) eqn:Hexit.
  2: done.
  1,2: rewrite !andb_true_iff Nat.leb_le !bool_decide_eq_true in Hexit; injection Hr as <-;
    destruct Hexit as [[? ->] _]; split; [done|]; exists 0%nat, 0; split; [apply descends_0|done].
  apply bind_Ret in Hr as (b & Hb & Hr). apply bind_Ret in Hr as (res & Hround & Hr).
  destruct res as [[[ys li'] ri']|]; cbn [try] in Hr; [|done].
  apply bind_Ret in Hr as (pos' & Hp & Hr). destruct (IH _ _ _ _ Hr) as (Hlen & k & m & Hd & Hend).
  split; [done|]. exists (S k), (2 * m + (if b then 1 else 0)). split; [by eapply descends_S|].
  intros ->. pose proof (is_right_child_Ret _ _ Hb). lia.
Qed.

(** Consecutive leaves of their own domain are a segment of the list. *)
Lemma consecutive_leaves leaves f (hs : list HashValue) :
  0 ≤ f → Forall leaf_domain hs → consecutive leaves 0 f hs → hs ≠ [] →
  f + leaf_count hs ≤ leaf_count leaves ∧ hs = take (length hs) (drop (Z.to_nat f) leaves).
Proof.
  intros Hf Hhs Hc Hne.
  assert (∀ (j : nat) x, hs !! j = Some x → leaves !! (Z.to_nat f + j)%nat = Some x) as Hlook.
  { intros j x Hj. pose proof (Hc j x Hj) as Hx.
    destruct (Forall_lookup_1 _ _ _ _ Hhs Hj) as [Hxp _].
    destruct (decide (f + Z.of_nat j < leaf_count leaves)).
    - replace (Z.to_nat f + j)%nat with (Z.to_nat (f + Z.of_nat j)) by lia.
      apply node_hash_lookup; [lia|done].
    - rewrite node_hash_placeholder // in Hx. change (2 ^ Z.of_nat 0) with 1. lia. }
  split.
  - destruct (lookup_lt_is_Some_2 hs (length hs - 1)) as [x Hx].
    { destruct hs; [done|]. cbn. lia. }
    apply Hlook, lookup_lt_Some in Hx. unfold leaf_count. destruct hs; [done|]. cbn [length] in *. lia.
  - apply list_eq. intros j. destruct (hs !! j) as [x|] eqn:Hj.
    + rewrite lookup_take_lt; [by apply lookup_lt_Some in Hj|]. rewrite lookup_drop. symmetry. by apply Hlook.
    + rewrite lookup_take_ge //. by apply lookup_ge_None_1.
Qed.

Lemma single_consecutive leaves l p : consecutive leaves l p [node_hash leaves l p].
Proof. apply consecutive_cons. split; [done|]. apply consecutive_nil. Qed.

Lemma leaf_not_above leaves h l p :
  leaf_domain h → h ≠ node_hash leaves (S l) p.
Proof.
  intros [Hph Hint] Hh. destruct (decide (leaf_count leaves ≤ p * 2 ^ Z.of_nat (S l))).
  - rewrite node_hash_placeholder // in Hh.
  - rewrite node_hash_S in Hh; [lia|]. by apply (Hint _ _ Hh).
Qed.

Lemma range_sound leaves (fuel : nat) proof f (hs : list HashValue) :
  0 ≤ f < leaf_count leaves → leaf_count leaves ≤ 2 ^ 63 →
  Forall leaf_domain hs → Forall leaf_domain leaves →
  AccumulatorRangeProof_verify fuel proof (root_of leaves) (Some f) hs = Ret (Ok (Some tt)) →
  f + leaf_count hs ≤ leaf_count leaves ∧ hs = take (length hs) (drop (Z.to_nat f) leaves) ∧
  left_siblings proof = hashes leaves (left_coords (root_level (leaf_count leaves)) 0 f).
Proof.
  intros Hf Hmax Hhs Hleaves. unfold AccumulatorRangeProof_verify.
  destruct (negb _); [done|]. destruct (negb _); [done|]. case_bool_decide as Hne; [done|].
  rewrite from_leaf_index_node; [lia|]; run. intros Hr. apply bind_Ret in Hr as (res & Hloop & Hr).
  destruct res as [[zs|]|]; cbn [try] in Hr; [|done|done].
  apply bind_Ret in Hr as (root & Hhd & Hr). apply expect_Ret in Hhd. case_decide as Hroot; [|done].
  destruct (range_loop_sound leaves _ _ _ _ _ _ Hloop) as (Hlen & k & m & [Hm Hidx Hnodes Hleft Hdeep] & _).
  destruct zs as [|z [|z' zs]]; cbn [length] in Hlen; [done| |lia]. injection Hhd as ->. subst root.
  rewrite root_of_nonempty in Hnodes, Hleft, Hdeep; [lia..|].
  set (L := root_level (leaf_count leaves)) in *.
  pose proof (Hdeep L 0 Hleaves Hne (single_consecutive _ _ _)) as Hk.
  assert (k = L) as ->.
  { destruct (decide (k = L)) as [|Hlt]; [done|]. exfalso.
    destruct hs as [|h hs]; [done|]. apply Forall_cons in Hhs as [Hh _].
    specialize (Hnodes (L - k)%nat 0). replace (L - k + k)%nat with L in Hnodes by lia.
    destruct (L - k)%nat as [|l'] eqn:Hl; [lia|].
    destruct (proj1 (consecutive_cons _ _ _ _ _) (Hnodes (single_consecutive _ _ _))) as [Heq _].
    by apply (leaf_not_above leaves h l' _ Hh Heq). }
  pose proof (root_fits (leaf_count leaves) ltac:(lia)) as Hfits. fold L in Hfits.
  rewrite (Hidx 0%nat f (leaf_coord f ltac:(lia)) eq_refl) Z.mod_small in Hnodes, Hleft; [lia..|].
  pose proof (Hleft 0%nat 0 (single_consecutive _ _ _)) as Hli. rewrite Z.mul_0_l Z.add_0_l in Hli.
  rewrite and_assoc. split; [|done]. apply consecutive_leaves; [lia|done| |done].
  exact (Hnodes 0%nat 0 (single_consecutive _ _ _)).
Qed.
End sound.

(** ** The range verification ends *)

Lemma is_right_child_last : is_right_child (2 ^ 64 - 1) = Panic.
Proof. vm_compute. done. Qed.

Lemma from_leaf_index_wraps f : u64 f → from_leaf_index f = Ret (node 0 (f mod 2 ^ 63)).
Proof.
  intros Hf. unfold from_leaf_index, from_level_and_pos.
  cbn [Z.ltb Z.compare rust_assert mbind comp_bind Z.eqb].
  rewrite (u64_shl_Ret 1 0) // (u64_shl_Ret f) //; run. change (wrap 64 (Z.shiftl 1 0)) with 1; run.
  rewrite (u64_sub_Ret 1 1) //; run. rewrite Z.lor_0_r node_0. f_equal.
  unfold wrap. rewrite Z.shiftl_mul_pow2 //. change (2 ^ (0 + 1)) with 2.
  change (2 ^ 64) with (2 * 2 ^ 63). by rewrite Z.mul_comm Z.mul_mod_distr_l.
Qed.

Lemma range_loop_ends (fuel : nat) pos (xs li ri : list HashValue) :
  (∃ l f, coord l f ∧ pos = node l f ∧ (65 ≤ fuel + l)%nat) ∨ (pos = 2 ^ 64 - 1 ∧ (0 < fuel)%nat) →
  range_loop fuel pos xs li ri ≠ Ret (Ok None).
Proof.
  revert pos xs li ri; induction fuel as [|fuel IH]; intros pos xs li ri Hpos.
  { destruct Hpos as [(l & f & [Hl _] & _ & ?)|[_ ?]]; lia. }
  cbn [range_loop]. destruct ((length xs <=? 1)%nat && _ && _); [done|]. intros Hr.
  apply bind_Ret in Hr as (b & Hb & Hr). apply bind_Ret in Hr as (res & Hround & Hr).
  destruct res as [[[ys li'] ri']|]; cbn [try] in Hr; [|done].
  apply bind_Ret in Hr as (pos' & Hp & Hr). revert Hr. apply IH.
  destruct Hpos as [(l & f & Hc & -> & Hfuel)|[-> _]]; [|by rewrite is_right_child_last in Hb].
  destruct (round_position _ _ _ _ _ Hc eq_refl Hb Hp) as [_ [[Hc' ->]|[_ ->]]].
  - left. exists (S l), (f / 2). split; [done|]. split; [done|]. lia.
  - right. split; [done|]. destruct Hc. lia.
Qed.

(** The loop of the range verification ends on every proof: 65 rounds are enough, for
    the position of the first hash leaves the tree after 64.  But the verification can
    end in a panic instead of an error: a proof with two left siblings and 63 right
    siblings passes the length checks, and verifying it for the single leaf 1 climbs
    past the root of the largest tree, where an assertion on the position fails. *)
Theorem range_verification_ends :
  (∀ proof root f (hs : list HashValue), u64 f →
     AccumulatorRangeProof_verify 65 proof root (Some f) hs ≠ Ret (Ok None)) ∧
  (∀ root h : HashValue,
     AccumulatorRangeProof_verify 65 (mkAccumulatorRangeProof [h; h] (replicate 63 h)) root (Some 1) [h]
     = Panic).
Proof.
  split; [|intros root h; vm_compute; done].
  intros proof root f hs Hf. unfold AccumulatorRangeProof_verify.
  destruct (negb _); [done|]. destruct (negb _); [done|]. case_bool_decide; [done|].
  rewrite from_leaf_index_wraps //; run. intros Hr. apply bind_Ret in Hr as (res & Hloop & Hr).
  destruct res as [[zs|]|]; cbn [try] in Hr; [| |done].
  - apply bind_Ret in Hr as (x & _ & Hr). by case_decide.
  - revert Hloop. apply range_loop_ends. left. exists 0%nat, (f mod 2 ^ 63).
    split; [|done]. apply leaf_coord, Z.mod_pos_bound. lia.
Qed.

Section exact.
Context {HI : HasherInjective HashValue}.

(** A leaf proved to be at an index is there.  When [AccumulatorProof::verify] accepts
    an element at an index below the number of leaves, against the root hash of the
    accumulator of a list, the list has that element at that index.  The proof may have
    any length and any siblings: one of the wrong length is only accepted if the element
    or a leaf of the list is itself the hash of a pair, which the separate hashers rule
    out. *)
Theorem inclusion_proof_sound leaves proof h index :
  0 ≤ index < leaf_count leaves → leaf_domain h → Forall leaf_domain leaves →
  AccumulatorProof_verify proof (root_of leaves) h index = Ok tt →
  leaves !! Z.to_nat index = Some h.
Proof. intros Hi Hh Hl Hok. by destruct (inclusion_sound leaves proof h index Hi Hh Hl Hok). Qed.

(** Likewise for a range of leaves: when the verification accepts leaf hashes from an
    index on, they are the segment of the list that starts there. *)
Theorem range_proof_sound leaves (fuel : nat) proof f (hs : list HashValue) :
  0 ≤ f < leaf_count leaves → leaf_count leaves ≤ MAX_ACCUMULATOR_LEAVES →
  Forall leaf_domain hs → Forall leaf_domain leaves →
  AccumulatorRangeProof_verify fuel proof (root_of leaves) (Some f) hs = Ret (Ok (Some tt)) →
  hs = take (length hs) (drop (Z.to_nat f) leaves).
Proof. intros Hf Hmax Hh Hl Hok. by destruct (range_sound leaves fuel proof f hs Hf Hmax Hh Hl Hok) as (_ & ? & _). Qed.

(** An extension proof that states the right number of leaves is accepted exactly when it
    has the roots of the subtrees, and gives the accumulator of the longer list. *)
Lemma extension_proof_spec leaves proof acc :
  leaf_count (leaves ++ aep_leaves proof) < 2 ^ 64 → aep_num_leaves proof = leaf_count leaves →
  AccumulatorExtensionProof_verify proof (root_of leaves) = Ret (Ok acc) ↔
  aep_frozen_subtree_roots proof = hashes leaves (frozen 0 (leaf_count leaves)) ∧
  acc = acc_of (leaves ++ aep_leaves proof).
Proof.
  intros Hmax Hn. unfold AccumulatorExtensionProof_verify. rewrite Hn.
  assert (leaf_count leaves < 2 ^ 64) as Hlt.
  { rewrite leaf_count_app in Hmax. pose proof (leaf_count_nonneg (aep_leaves proof)). lia. }
  split.
  - intros Hr. apply bind_Ret in Hr as (res & Hnew & Hr).
    destruct res as [tree|]; cbn [try] in Hr; [|done]. case_decide as Hroot; [|done].
    apply new_root_of in Hnew as [Hfrozen ->]; [|done..].
    rewrite append_spec // in Hr. by injection Hr as <-.
  - intros [-> ->]. rewrite InMemoryAccumulator_new_spec //; run. cbn [try].
    rewrite decide_True //. by rewrite append_spec.
Qed.

(** Nothing ties the number of leaves to the root hash: any hash is the root of a tree
    with that hash as its one leaf. *)
Lemma extension_proof_one (root h : HashValue) :
  AccumulatorExtensionProof_verify (mkAccumulatorExtensionProof [root] 1 [h]) root
  = Ret (Ok (mkInMemoryAccumulator [hash_internal_node root h] 2 (hash_internal_node root h))).
Proof.
  unfold AccumulatorExtensionProof_verify. cbn [aep_frozen_subtree_roots aep_num_leaves aep_leaves].
  change (InMemoryAccumulator_new [root] 1) with (@Ret (result unit InMemoryAccumulator)
    (Ok (mkInMemoryAccumulator [root] 1 root))). run. cbn [try root_hash]. rewrite decide_True //.
Qed.

End exact.
End proofs.

(** The idealised hasher is injective, so the theorems apply to it. *)
Module ProofExample.
Import TreeHash.

#[global] Instance tree_hasher_injective : HasherInjective tree_hash.
Proof. split; [by intros ???? [= -> ->]|done]. Qed.

Definition three : list tree_hash := [Data 1; Data 2; Data 3].

Lemma data_domain (ns : list Z) : Forall leaf_domain (Data <$> ns).
Proof. apply Forall_fmap, Forall_forall. intros n _. done. Qed.

Lemma inclusion_proof_sound_witness :
  AccumulatorProof_verify (mkAccumulatorProof [Data 1; Internal (Data 3) Placeholder])
    (root_of three) (Data 2) 1 = Ok tt ∧
  three !! Z.to_nat 1 = Some (Data 2).
Proof.
  split; [vm_compute; done|].
  apply (inclusion_proof_sound three (mkAccumulatorProof [Data 1; Internal (Data 3) Placeholder])).
  - vm_compute. done.
  - done.
  - apply (data_domain [1; 2; 3]).
  - vm_compute. done.
Defined.

Lemma range_proof_sound_witness :
  [Data 2; Data 3] = take 2 (drop (Z.to_nat 1) three).
Proof.
  apply (range_proof_sound three 65 (mkAccumulatorRangeProof [Data 1] [Placeholder]) 1 [Data 2; Data 3]).
  - vm_compute. done.
  - vm_compute. done.
  - apply (data_domain [2; 3]).
  - apply (data_domain [1; 2; 3]).
  - vm_compute. done.
Defined.


Lemma range_verification_ends_witness :
  AccumulatorRangeProof_verify 65 (mkAccumulatorRangeProof [] []) Placeholder (Some 0) [Data 1]
    ≠ Ret (Ok None).
Proof. apply range_verification_ends. done. Defined.
End ProofExample.
