(* ===== verification/MerkleAccumulator.v ===== *)
(** * Stored accumulators

    Models [storage/accumulator/src/lib.rs]: the algorithms on an accumulator whose
    frozen nodes are in a key-value store, read through [HashReader].  Appending leaves
    returns the root hash and the nodes that become frozen; proofs are built from the
    stored nodes.  [stores] says that a reader has every frozen node of a list of
    leaves. *)
From S2P Require Import Prelude U64 Position FrozenSubtrees Accumulator AccumulatorProof.
Local Open Scope Z_scope.

(** [trait HashReader]; a failed read is the only error. *)
Class HashReader (R HashValue : Type) : Type :=
  reader_get : R → Position → comp (result unit HashValue).

Section view.
Context {HashValue : Type} {HD : EqDecision HashValue} {MH : MerkleHasher HashValue} {R : Type} {HR : HashReader R HashValue}.
Local Notation AccumulatorProof := (@AccumulatorProof.AccumulatorProof HashValue).
Local Notation AccumulatorConsistencyProof := (@AccumulatorConsistencyProof HashValue).
Local Notation AccumulatorRangeProof := (@AccumulatorRangeProof HashValue).

(** [type Node]. *)
Definition Node : Type := Position * HashValue.

(** [struct MerkleAccumulatorView]. *)
Record MerkleAccumulatorView : Type := mkView {
  reader : R;
  view_num_leaves : Z;
}.

(** ** Appending leaves *)

(** The hash of the parent of a right child: its left sibling was created in this run,
    and is on top of the stack, or is read. *)
Definition join_left (self : MerkleAccumulatorView) (sibling : Position) (hash : HashValue)
    (left_siblings : list Node) : comp (result unit (HashValue * list Node)) :=
  match vec_pop left_siblings with
  | Some (left_siblings, (x, left_hash)) =>
      rust_assert (x =? sibling);;
      Ret (Ok (hash_internal_node left_hash hash, left_siblings))
  | None =>
      r ← reader_get (reader self) sibling;
      try r (λ left_hash, Ret (Ok (hash_internal_node left_hash hash, [])))
  end.

(** The loop [while pos.is_right_child()]; a position has at most [u64_bits]
    ancestors. *)
Fixpoint freeze_loop (self : MerkleAccumulatorView) (fuel : nat) (pos : Position) (hash : HashValue)
    (left_siblings to_freeze : list Node) :
    comp (result unit (Position * HashValue * list Node * list Node)) :=
  match fuel with
  | O => Ret (Ok (pos, hash, left_siblings, to_freeze))
  | S fuel' =>
      is_right ← is_right_child pos;
      if negb is_right then Ret (Ok (pos, hash, left_siblings, to_freeze)) else
      sibling ← sibling pos;
      r ← join_left self sibling hash left_siblings;
      try r (λ '(hash, left_siblings),
        pos ← parent pos;
        freeze_loop self fuel' pos hash left_siblings (to_freeze ++ [(pos, hash)]))
  end.

(** The loop over the new leaves, from the offset on. *)
Fixpoint leaves_loop (self : MerkleAccumulatorView) (new_leaves : list HashValue) (leaf_offset : Z)
    (left_siblings to_freeze : list Node) : comp (result unit (list Node * list Node)) :=
  match new_leaves with
  | [] => Ret (Ok (left_siblings, to_freeze))
  | leaf :: new_leaves' =>
      index ← u64_add (view_num_leaves self) leaf_offset;
      leaf_pos ← from_leaf_index index;
      r ← freeze_loop self u64_bits leaf_pos leaf left_siblings (to_freeze ++ [(leaf_pos, leaf)]);
      try r (λ '(pos, hash, left_siblings, to_freeze),
        leaves_loop self new_leaves' (leaf_offset + 1) (left_siblings ++ [(pos, hash)]) to_freeze)
  end.

(** The loop [for _ in pos.level()..root_level]. *)
Fixpoint root_walk (self : MerkleAccumulatorView) (n : nat) (pos : Position) (hash : HashValue)
    (left_siblings : list Node) : comp (result unit (HashValue * list Node)) :=
  match n with
  | O => Ret (Ok (hash, left_siblings))
  | S n' =>
      is_left ← is_left_child pos;
      r ← (if is_left : bool
           then Ret (Ok (hash_internal_node hash ACCUMULATOR_PLACEHOLDER_HASH, left_siblings))
           else sibling ← sibling pos; join_left self sibling hash left_siblings);
      try r (λ '(hash, left_siblings),
        pos ← parent pos;
        root_walk self n' pos hash left_siblings)
  end.

(** [usize::max_value()] is [u64_max]. *)
Definition max_to_freeze (num_new_leaves root_level : Z) : comp Z :=
  rust_assert (root_level <=? MAX_ACCUMULATOR_PROOF_DEPTH);;
  rust_assert (num_new_leaves <? u64_max / 2);;
  rust_assert (num_new_leaves * 2 <=? u64_max - root_level);;
  Ret (num_new_leaves * 2 + root_level).

Definition rightmost_leaf_index (self : MerkleAccumulatorView) : comp Z :=
  u64_sub (view_num_leaves self) 1.

(** [get_hash]: each call goes one level down, and a leaf has no children to go to. *)
Fixpoint get_hash_below (self : MerkleAccumulatorView) (height : nat) (position : Position) :
    comp (result unit HashValue) :=
  match height with
  | O => Panic
  | S height' =>
      idx ← rightmost_leaf_index self;
      placeholder ← is_placeholder position idx;
      if placeholder : bool then Ret (Ok ACCUMULATOR_PLACEHOLDER_HASH) else
      freezable ← is_freezable position idx;
      if freezable : bool then reader_get (reader self) position else
      left ← left_child position;
      l ← get_hash_below self height' left;
      try l (λ left_hash,
        right ← right_child position;
        r ← get_hash_below self height' right;
        try r (λ right_hash, Ret (Ok (hash_internal_node left_hash right_hash))))
  end.

Definition get_hash (self : MerkleAccumulatorView) (position : Position) :
    comp (result unit HashValue) :=
  get_hash_below self (S (Z.to_nat (level position))) position.

Definition view_append (self : MerkleAccumulatorView) (new_leaves : list HashValue) :
    comp (result unit (HashValue * list Node)) :=
  match new_leaves with
  | [] =>
      if view_num_leaves self =? 0 then Ret (Ok (ACCUMULATOR_PLACEHOLDER_HASH, [])) else
      root ← root_from_leaf_count (view_num_leaves self);
      r ← get_hash self root;
      Ret (root_hash ← r; Ok (root_hash, []))
  | _ =>
      let num_new_leaves := leaf_count new_leaves in
      last_new_leaf_count ← u64_add (view_num_leaves self) num_new_leaves;
      root_level ← root_level_from_leaf_count last_new_leaf_count;
      max_to_freeze num_new_leaves root_level;;
      r ← leaves_loop self new_leaves 0 [] [];
      try r (λ '(left_siblings, to_freeze),
        '(left_siblings, (pos, hash)) ← expect (vec_pop left_siblings);
        w ← root_walk self (Z.to_nat (root_level - level pos)) pos hash left_siblings;
        try w (λ '(hash, left_siblings),
          rust_assert (bool_decide (left_siblings = []));;
          Ret (Ok (hash, to_freeze))))
  end.

(** ** Building proofs *)

Fixpoint get_hashes (self : MerkleAccumulatorView) (positions : list Position) :
    comp (result unit (list HashValue)) :=
  match positions with
  | [] => Ret (Ok [])
  | p :: positions' =>
      r ← get_hash self p;
      try r (λ hash,
        rs ← get_hashes self positions';
        try rs (λ hashes, Ret (Ok (hash :: hashes))))
  end.

Definition get_root_hash (self : MerkleAccumulatorView) : comp (result unit HashValue) :=
  root ← root_from_leaf_count (view_num_leaves self);
  get_hash self root.

(** [Iterator::filter] with a predicate that may panic. *)
Fixpoint filter_positions (filter : Position → comp bool) (ps : list Position) : comp (list Position) :=
  match ps with
  | [] => Ret []
  | p :: ps' =>
      b ← filter p;
      rest ← filter_positions filter ps';
      Ret (if b : bool then p :: rest else rest)
  end.

Definition get_sibling_positions (self : MerkleAccumulatorView) (leaf_index : Z)
    (filter : Position → comp bool) : comp (list Position) :=
  root_pos ← root_from_leaf_count (view_num_leaves self);
  leaf ← from_leaf_index leaf_index;
  siblings ← ancestor_siblings (Z.to_nat (level root_pos)) leaf;
  filter_positions filter siblings.

Definition get_siblings (self : MerkleAccumulatorView) (leaf_index : Z)
    (filter : Position → comp bool) : comp (result unit (list HashValue)) :=
  ps ← get_sibling_positions self leaf_index filter;
  get_hashes self ps.

Definition get_proof (self : MerkleAccumulatorView) (leaf_index : Z) :
    comp (result unit AccumulatorProof) :=
  if negb (leaf_index <? view_num_leaves self) then Ret (Err tt) else
  r ← get_siblings self leaf_index (λ _, Ret true);
  try r (λ siblings, Ret (Ok (mkAccumulatorProof siblings))).

(** [.map(|p| self.reader.get(p)).collect::<Result<Vec<_>>>()]. *)
Fixpoint read_all (r : R) (positions : list Position) : comp (result unit (list HashValue)) :=
  match positions with
  | [] => Ret (Ok [])
  | p :: positions' =>
      h ← reader_get r p;
      try h (λ hash,
        hs ← read_all r positions';
        try hs (λ hashes, Ret (Ok (hash :: hashes))))
  end.

(** The iterators end within 129 and 65 calls. *)
Definition get_consistency_proof (self : MerkleAccumulatorView) (sub_acc_leaves : Z) :
    comp (result unit AccumulatorConsistencyProof) :=
  if negb (sub_acc_leaves <=? view_num_leaves self) then Ret (Err tt) else
  it ← FrozenSubtreeSiblingIterator_new sub_acc_leaves (view_num_leaves self);
  o ← drain FrozenSubtreeSiblingIterator_next 129 it;
  ps ← expect o;
  r ← read_all (reader self) ps;
  try r (λ subtrees, Ret (Ok (mkAccumulatorConsistencyProof subtrees))).

Definition get_frozen_subtree_hashes (self : MerkleAccumulatorView) :
    comp (result unit (list HashValue)) :=
  o ← drain FrozenSubTreeIterator_next 65 (FrozenSubTreeIterator_new (view_num_leaves self));
  ps ← expect o;
  read_all (reader self) ps.

Definition get_range_proof_positions (self : MerkleAccumulatorView) (first_leaf_index : option Z)
    (num_leaves : Z) : comp (result unit (list Position * list Position)) :=
  match first_leaf_index with
  | None => if negb (num_leaves =? 0) then Ret (Err tt) else Ret (Ok ([], []))
  | Some first_leaf_index =>
      if negb (0 <? num_leaves) then Ret (Err tt) else
      match u64_checked_add first_leaf_index (num_leaves - 1) with
      | None => Ret (Err tt)
      | Some last_leaf_index =>
          if negb (last_leaf_index <? view_num_leaves self) then Ret (Err tt) else
          left_siblings ← get_sibling_positions self first_leaf_index is_left_child;
          right_siblings ← get_sibling_positions self last_leaf_index is_right_child;
          Ret (Ok (left_siblings, right_siblings))
      end
  end.

Definition get_range_proof (self : MerkleAccumulatorView) (first_leaf_index : option Z)
    (num_leaves : Z) : comp (result unit AccumulatorRangeProof) :=
  r ← get_range_proof_positions self first_leaf_index num_leaves;
  try r (λ '(left_siblings, right_siblings),
    l ← get_hashes self left_siblings;
    try l (λ left_hashes,
      r ← get_hashes self right_siblings;
      try r (λ right_hashes, Ret (Ok (mkAccumulatorRangeProof left_hashes right_hashes))))).

(** ** Frozen nodes in the store *)

(** A node whose leaves are all among the first [n]. *)
Definition within (n : Z) (x : nat * Z) : Prop := 0 ≤ x.2 ∧ (x.2 + 1) * 2 ^ Z.of_nat x.1 ≤ n.

(** The reader has the frozen nodes of [leaves]. *)
Definition stores (r : R) (leaves : list HashValue) : Prop :=
  ∀ l p, within (leaf_count leaves) (l, p) → reader_get r (node l p) = Ret (Ok (node_hash leaves l p)).

Definition annotate (leaves : list HashValue) (xs : list (nat * Z)) : list Node :=
  (λ '(l, p), (node l p, node_hash leaves l p)) <$> xs.

Lemma annotate_app leaves xs ys : annotate leaves (xs ++ ys) = annotate leaves xs ++ annotate leaves ys.
Proof. apply fmap_app. Qed.

Lemma frozen_within m : 0 ≤ m → Forall (within m) (frozen 0 m).
Proof.
  intros Hm. apply Forall_forall. intros [l p] (_ & Hp & Hw)%elem_of_frozen; [|done].
  change (2 ^ Z.of_nat 0) with 1 in Hw. split; cbn; lia.
Qed.

(** A node that starts below [2^63] leaves is one of the tree. *)
Lemma coord_below l p : 0 ≤ p → p * 2 ^ Z.of_nat l < 2 ^ 63 → (l ≤ 63)%nat → coord l p.
Proof.
  intros Hp Hlt Hl. split; [done|]. split; [done|]. pose proof (pow2_gt0 l).
  replace 63 with ((63 - Z.of_nat l) + Z.of_nat l) in Hlt at 1 by lia.
  rewrite Z.pow_add_r in Hlt; [lia..|]. nia.
Qed.

Section run.
Context (self : MerkleAccumulatorView) (all : list HashValue) (n : Z).
Context (all_fits : leaf_count all ≤ 2 ^ 63 - 32).
Context (reader_has : ∀ l p, within n (l, p) →
  reader_get (reader self) (node l p) = Ret (Ok (node_hash all l p))).

(** The stack holds the last of the subtrees of [m] units, those before are stored. *)
Definition stack (i : nat) (m : Z) (left_siblings : list Node) : Prop :=
  ∃ stored created, frozen i m = stored ++ created ∧ left_siblings = annotate all created ∧
    Forall (within n) stored.

Lemma join_left_spec i q h left_siblings :
  0 ≤ q → stack i (2 * q + 1) left_siblings →
  ∃ rest, join_left self (node i (2 * q)) h left_siblings
            = Ret (Ok (hash_internal_node (node_hash all i (2 * q)) h, rest)) ∧ stack (S i) q rest.
Proof.
  intros Hq (stored & created & Heq & -> & Hstored). rewrite frozen_odd // in Heq. unfold join_left.
  destruct created as [|x created _] using rev_ind.
  - rewrite app_nil_r in Heq. subst stored. apply Forall_app in Hstored as [Hs Hx].
    apply Forall_cons in Hx as [Hx _]. exists []. cbn. rewrite (reader_has _ _ Hx) /=. split; [done|].
    exists (frozen (S i) q), []. by rewrite app_nil_r.
  - rewrite app_assoc in Heq. apply app_inj_tail in Heq as [Heq <-].
    exists (annotate all created). rewrite annotate_app vec_pop_app. cbn [rust_assert].
    rewrite Z.eqb_refl. split; [done|]. by exists stored, created.
Qed.

(** The ancestors reached by carrying [k] times from unit [m]. *)
Fixpoint chain (k i : nat) (m : Z) : list (nat * Z) :=
  match k with O => [] | S k' => (S i, m / 2) :: chain k' (S i) (m / 2) end.

Lemma freeze_loop_spec (fuel k i : nat) q left_siblings to_freeze :
  0 ≤ q → (k ≤ fuel)%nat → (node k q + 1) * 2 ^ Z.of_nat i ≤ leaf_count all →
  stack i (node k q) left_siblings →
  ∃ rest,
    freeze_loop self fuel (node i (node k q)) (node_hash all i (node k q)) left_siblings to_freeze
    = Ret (Ok (node (i + k) (2 * q), node_hash all (i + k) (2 * q), rest,
               to_freeze ++ annotate all (chain k i (node k q)))) ∧
    stack (i + k) (2 * q) rest.
Proof.
  intros Hq. revert k i left_siblings to_freeze; induction fuel as [|fuel IH];
    intros k i ls tf Hk Hle Hst.
  { assert (k = 0%nat) as -> by lia. rewrite node_0 Nat.add_0_r in Hst |- *. exists ls.
    by rewrite app_nil_r. }
  pose proof (pow2_gt0 i). assert (0 ≤ node k q) as Hpos.
  { unfold node. pose proof (pow2_gt0 k). rewrite pow2_add1. nia. }
  assert (coord i (node k q)) as Hc by (apply coord_intro; lia).
  assert ((0 < i)%nat ∨ node k q < 2 ^ 63 - 1) as Hlast.
  { destruct i; [right|left; lia]. change (2 ^ Z.of_nat 0) with 1 in Hle. lia. }
  cbn [freeze_loop]. rewrite is_right_child_node //; run. destruct k as [|k].
  { rewrite node_0 odd_double Nat.add_0_r in Hst |- *. exists ls. cbn. by rewrite app_nil_r. }
  rewrite node_S in Hle, Hst, Hc, Hlast, Hpos |- *. rewrite odd_double_succ; run.
  assert (i < 63)%nat as Hi.
  { destruct (level_63 _ _ Hc) as [|[-> Hz]]; [done|lia]. }
  destruct (half_double_succ (node k q)) as (Hhalf & _ & Heven).
  rewrite sibling_node //; run. unfold sibling_pos. rewrite Heven Z.add_simpl_r.
  destruct (join_left_spec i (node k q) (node_hash all i (2 * node k q + 1)) ls) as (rest & Hjoin & Hst');
    [lia|done|].
  rewrite Hjoin; run. cbn [try]. rewrite parent_node // Hhalf; run.
  rewrite -node_hash_S; [rewrite pow2_S; nia|].
  destruct (IH k (S i) rest (tf ++ [(node (S i) (node k q), node_hash all (S i) (node k q))]))
    as (rest' & Hrun & Hst''); [lia|rewrite pow2_S; lia|done|].
  exists rest'. rewrite Hrun. replace (S i + k)%nat with (i + S k)%nat in Hst'' |- * by lia.
  split; [|done]. cbn [chain]. by rewrite Hhalf -app_assoc.
Qed.

(** The nodes that leaf [m] completes: itself, and an ancestor for every carry. *)
Definition completed_by (m : Z) : list (nat * Z) := (0%nat, m) :: chain (Z.to_nat (level m)) 0 m.

Fixpoint completed (m : Z) (k : nat) : list (nat * Z) :=
  match k with O => [] | S k' => completed_by m ++ completed (m + 1) k' end.

Lemma stack_push (i k : nat) q rest :
  0 ≤ q → stack (i + k) (2 * q) rest →
  stack i (node k q + 1) (rest ++ [(node (i + k) (2 * q), node_hash all (i + k) (2 * q))]).
Proof.
  intros Hq (stored & created & Heq & -> & Hst). exists stored, (created ++ [((i + k)%nat, 2 * q)]).
  split; [|split; [by rewrite annotate_app|done]].
  replace (node k q + 1) with ((2 * q + 1) * 2 ^ Z.of_nat k) by (unfold node; rewrite pow2_add1; lia).
  rewrite frozen_shift frozen_odd // -frozen_even Heq. by rewrite app_assoc.
Qed.

Lemma leaves_loop_spec (new_leaves done : list HashValue) left_siblings to_freeze :
  all = done ++ new_leaves → view_num_leaves self ≤ leaf_count done → 0 ≤ view_num_leaves self →
  stack 0 (leaf_count done) left_siblings →
  ∃ rest,
    leaves_loop self new_leaves (leaf_count done - view_num_leaves self) left_siblings to_freeze
    = Ret (Ok (rest, to_freeze ++ annotate all (completed (leaf_count done) (length new_leaves)))) ∧
    stack 0 (leaf_count all) rest.
Proof.
  revert done left_siblings to_freeze; induction new_leaves as [|x new_leaves IH];
    intros dn ls tf Hall Hn Hn0 Hst.
  { rewrite Hall app_nil_r. exists ls. cbn. by rewrite app_nil_r. }
  pose proof (leaf_count_nonneg dn).
  assert (leaf_count dn + 1 + leaf_count new_leaves = leaf_count all) as Hcount.
  { rewrite Hall leaf_count_app. unfold leaf_count. cbn [length]. lia. }
  pose proof (leaf_count_nonneg new_leaves). set (m := leaf_count dn) in *.
  cbn [leaves_loop]. u64_run.
  replace (view_num_leaves self + (m - view_num_leaves self)) with m by lia.
  rewrite from_leaf_index_node; [lia|]; run.
  assert (x = node_hash all 0 m) as Hx.
  { symmetry. apply node_hash_leaf. rewrite Hall lookup_app_r // Nat.sub_diag //. }
  destruct (coordinates m) as (k & q & Hc & Heq); [lia|]. pose proof (level_node _ _ Hc) as Hl.
  rewrite -Heq in Hl. destruct (Hc) as [Hk [Hq _]].
  destruct (freeze_loop_spec u64_bits k 0 q ls (tf ++ [(node 0 m, x)])) as (rest & Hrun & Hst').
  { done. } { unfold u64_bits. lia. } { rewrite -Heq. change (2 ^ Z.of_nat 0) with 1. lia. }
  { by rewrite -Heq. }
  rewrite -Heq in Hrun. rewrite {1}Hx Hrun; run. cbn [try].
  apply stack_push in Hst'; [|done]. rewrite -Heq in Hst'.
  assert (m + 1 = leaf_count (dn ++ [x])) as Hm1 by (by rewrite leaf_count_app).
  destruct (IH (dn ++ [x]) (rest ++ [(node (0 + k) (2 * q), node_hash all (0 + k) (2 * q))])
    ((tf ++ [(node 0 m, x)]) ++ annotate all (chain k 0 m))) as (rest' & Hrun' & Hst'').
  { by rewrite Hall -app_assoc. } { lia. } { done. } { by rewrite -Hm1. }
  exists rest'. split; [|done].
  replace (m - view_num_leaves self + 1) with (leaf_count (dn ++ [x]) - view_num_leaves self) by lia.
  rewrite Hrun' -Hm1. do 3 f_equal. cbn [completed length]. unfold completed_by. rewrite Hl Nat2Z.id.
  rewrite annotate_app. cbn [annotate fmap list_fmap app]. by rewrite -Hx -!app_assoc.
Qed.

Lemma root_walk_spec (c j : nat) m left_siblings :
  0 ≤ m → m * 2 ^ Z.of_nat j < leaf_count all → leaf_count all ≤ (m + 1) * 2 ^ Z.of_nat j →
  (j + c ≤ 63)%nat → stack j m left_siblings →
  ∃ rest, root_walk self c (node j m) (node_hash all j m) left_siblings
            = Ret (Ok (node_hash all (j + c) (m / 2 ^ Z.of_nat c), rest)) ∧
          stack (j + c) (m / 2 ^ Z.of_nat c) rest.
Proof.
  revert j m left_siblings; induction c as [|c IH]; intros j m ls Hm Hlow Hhigh Hj Hst.
  { exists ls. by rewrite Nat.add_0_r Z.div_1_r. }
  assert (coord j m) as Hc by (apply coord_below; lia). pose proof (pow2_gt0 j).
  assert ((0 < j)%nat ∨ m < 2 ^ 63 - 1) as Hlast.
  { destruct j; [right|left; lia]. change (2 ^ Z.of_nat 0) with 1 in *. lia. }
  cbn [root_walk]. rewrite is_left_child_node //; run. rewrite -div_pow2_S.
  replace (j + S c)%nat with (S j + c)%nat by lia.
  assert (∀ q rest, m / 2 = q → 0 ≤ q → m ≤ 2 * q + 1 → 2 * q ≤ m → stack (S j) q rest →
    ∃ rest', (pos ← parent (node j m); root_walk self c pos (node_hash all (S j) q) rest)
      = Ret (Ok (node_hash all (S j + c) (q / 2 ^ Z.of_nat c), rest')) ∧
      stack (S j + c) (q / 2 ^ Z.of_nat c) rest') as Hup.
  { intros q rest Hq Hq0 Hq1 Hq2 Hst'. rewrite parent_node //; [lia|]. rewrite Hq; run.
    apply IH; [done|rewrite pow2_S; nia|rewrite pow2_S; nia|lia|done]. }
  destruct (Z_double_cases m) as [q [->| ->]].
  - destruct (half_double_succ q) as (Hhalf & _ & Heven). rewrite Heven Hhalf.
    rewrite sibling_node //; [lia|]; run. unfold sibling_pos. rewrite Heven Z.add_simpl_r.
    destruct (join_left_spec j q (node_hash all j (2 * q + 1)) ls) as (rest & Hjoin & Hst'); [lia|done|].
    rewrite Hjoin; run. cbn [try]. rewrite -node_hash_S; [rewrite pow2_S; lia|].
    apply Hup; [done|lia..|done].
  - destruct (half_double q) as (Hhalf & _ & Heven). rewrite Heven Hhalf; run. cbn [try].
    rewrite -(node_hash_placeholder all j (2 * q + 1)) // -node_hash_S; [rewrite pow2_S; lia|].
    apply Hup; [done|lia..|]. unfold stack in Hst. by rewrite frozen_even in Hst.
Qed.

(** From the last frozen subtree to the root. *)
Lemma finish_spec left_siblings :
  0 < leaf_count all → stack 0 (leaf_count all) left_siblings → n < leaf_count all →
  ∃ rest pos hash, vec_pop left_siblings = Some (rest, (pos, hash)) ∧
    root_walk self (Z.to_nat (Z.of_nat (root_level (leaf_count all)) - level pos)) pos hash rest
    = Ret (Ok (root_of all, [])).
Proof.
  intros Hpos (stored & created & Heq & -> & Hst) Hn.
  destruct (odd_part (leaf_count all)) as (i & a & Ha & Hodd); [lia|]. pose proof (pow2_gt0 i).
  rewrite {1}Hodd frozen_shift Nat.add_0_l frozen_odd // in Heq.
  destruct created as [|x created _] using rev_ind.
  { rewrite app_nil_r in Heq. subst stored. apply Forall_app in Hst as [_ Hx].
    apply Forall_cons in Hx as [[_ Hx] _]. cbn in Hx. lia. }
  rewrite app_assoc in Heq. apply app_inj_tail in Heq as [Heq <-].
  exists (annotate all created), (node i (2 * a)), (node_hash all i (2 * a)).
  rewrite annotate_app vec_pop_app. split; [done|].
  pose proof (root_fits (leaf_count all) Hpos) as Hfits. set (L := root_level (leaf_count all)) in *.
  assert (coord L 0) as HcL by (apply root_coord; lia). destruct HcL as [HL _].
  assert (i ≤ L)%nat as HiL.
  { destruct (decide (i ≤ L)%nat) as [|Hgt]; [done|]. pose proof (pow2_le (S L) i ltac:(lia)) as Hp.
    rewrite pow2_S in Hp. nia. }
  assert (coord i (2 * a)) as Hc by (apply coord_below; [lia..|]; lia).
  rewrite level_node //. replace (Z.to_nat (Z.of_nat L - Z.of_nat i)) with (L - i)%nat by lia.
  destruct (root_walk_spec (L - i) i (2 * a) (annotate all created)) as (rest & Hrun & Hst').
  { lia. } { lia. } { lia. } { lia. }
  { exists stored, created. by rewrite frozen_even. }
  replace (i + (L - i))%nat with L in Hrun, Hst' by lia.
  assert (2 * a / 2 ^ Z.of_nat (L - i) = 0) as Hz.
  { apply Z.div_small. split; [lia|].
    replace L with (L - i + i)%nat in Hfits by lia. rewrite Nat2Z.inj_add Z.pow_add_r in Hfits; [lia..|]. nia. }
  rewrite Hz in Hrun, Hst'. rewrite Hrun root_of_nonempty //.
  destruct Hst' as (st & cr & Hnil & -> & _). symmetry in Hnil. apply app_nil in Hnil as [_ ->]. done.
Qed.

Lemma view_append_spec leaves new_leaves :
  all = leaves ++ new_leaves → new_leaves ≠ [] →
  view_num_leaves self = leaf_count leaves → n = leaf_count leaves →
  view_append self new_leaves =
    Ret (Ok (root_of all, annotate all (completed (leaf_count leaves) (length new_leaves)))).
Proof.
  intros Hall Hne Hview Hn. pose proof (leaf_count_nonneg leaves).
  assert (leaf_count leaves + leaf_count new_leaves = leaf_count all) as Hcount by (by rewrite Hall leaf_count_app).
  assert (0 < leaf_count new_leaves) by (destruct new_leaves; [done|unfold leaf_count; cbn [length]; lia]).
  unfold view_append. destruct new_leaves as [|x xs] eqn:Hnew; [done|]. rewrite -Hnew in Hall, Hcount |- *.
  rewrite Hview. rewrite -Hnew in H0. u64_run. rewrite Hcount.
  rewrite root_level_from_leaf_count_spec; [lia|]; run.
  assert (coord (root_level (leaf_count all)) 0) as [HL _] by (apply root_coord; lia).
  assert (max_to_freeze (leaf_count new_leaves) (Z.of_nat (root_level (leaf_count all)))
    = Ret (leaf_count new_leaves * 2 + Z.of_nat (root_level (leaf_count all)))) as Hcap.
  { unfold max_to_freeze, MAX_ACCUMULATOR_PROOF_DEPTH. change (u64_max / 2) with (2 ^ 63 - 1). unfold u64_max.
    rewrite (proj2 (Z.leb_le (Z.of_nat _) 63)); [lia|]. rewrite (proj2 (Z.ltb_lt _ (2 ^ 63 - 1))); [lia|].
    by rewrite (proj2 (Z.leb_le (_ * 2) _)); [lia|]. }
  rewrite Hcap; run.
  destruct (leaves_loop_spec new_leaves leaves [] []) as (rest & Hrun & Hst); [done|lia|lia| |].
  { exists (frozen 0 (leaf_count leaves)), []. rewrite app_nil_r. split; [done|]. split; [done|].
    rewrite Hn. by apply frozen_within. }
  rewrite Hview Z.sub_diag in Hrun. rewrite Hrun; run. cbn [try app].
  destruct (finish_spec rest) as (rest' & pos & hash & Hpop & Hwalk); [lia|done|lia|].
  rewrite Hpop. cbn [expect]; run. rewrite Hwalk; run. done.
Qed.
End run.

(** ** Reading *)

Section read.
Context (self : MerkleAccumulatorView) (leaves : list HashValue).
Context (num_ok : view_num_leaves self = leaf_count leaves).
Context (fits : 0 < leaf_count leaves ≤ 2 ^ 63 - 32).
Context (stored : stores (reader self) leaves).

Lemma get_hash_below_spec (height l : nat) p :
  coord l p → (l < height)%nat →
  get_hash_below self height (node l p) = Ret (Ok (node_hash leaves l p)).
Proof.
  revert height p; induction l as [l IH] using lt_wf_ind; intros height p Hc Hh.
  destruct height as [|height]; [lia|]. cbn [get_hash_below]. unfold rightmost_leaf_index.
  rewrite num_ok u64_sub_Ret; [lia|]; run. rewrite is_placeholder_node //; [lia|]; run.
  pose proof (pow2_gt0 l). destruct (Hc) as [_ [Hp _]].
  destruct (Z.ltb_spec (leaf_count leaves - 1) (p * 2 ^ Z.of_nat l)) as [Hph|Hlow].
  { rewrite node_hash_placeholder //. lia. }
  rewrite is_freezable_node //; [lia|]; run.
  destruct (Z.leb_spec ((p + 1) * 2 ^ Z.of_nat l) (leaf_count leaves - 1 + 1)) as [Hfz|Hnot].
  { apply stored. split; cbn; lia. }
  destruct l as [|l]; [change (2 ^ Z.of_nat 0) with 1 in *; lia|].
  rewrite left_child_node //; run. rewrite IH; [lia|exact (child_coord _ _ Left Hc)|lia|]; run. cbn [try].
  rewrite right_child_node //; run. rewrite IH; [lia|exact (child_coord _ _ Right Hc)|lia|]; run. cbn [try].
  by rewrite node_hash_S; [lia|].
Qed.

Lemma get_hash_spec l p : coord l p → get_hash self (node l p) = Ret (Ok (node_hash leaves l p)).
Proof.
  intros Hc. unfold get_hash. rewrite level_node // Nat2Z.id. apply get_hash_below_spec; [done|lia].
Qed.

Lemma get_hashes_spec xs :
  Forall (λ x, coord x.1 x.2) xs → get_hashes self (nodes xs) = Ret (Ok (hashes leaves xs)).
Proof.
  induction 1 as [|[l p] xs Hc Hxs IH]; [done|]. cbn [nodes fmap list_fmap get_hashes].
  rewrite get_hash_spec //; run. cbn [try]. change (_ <$> xs) with (nodes xs). by rewrite IH.
Qed.

Lemma read_all_spec xs :
  Forall (within (leaf_count leaves)) xs →
  read_all (reader self) (nodes xs) = Ret (Ok (hashes leaves xs)).
Proof.
  induction 1 as [|[l p] xs Hc Hxs IH]; [done|]. cbn [nodes fmap list_fmap read_all].
  rewrite stored //; run. cbn [try]. change (_ <$> xs) with (nodes xs). by rewrite IH.
Qed.

Lemma get_root_hash_spec : get_root_hash self = Ret (Ok (root_of leaves)).
Proof.
  unfold get_root_hash. rewrite num_ok root_from_leaf_count_node; [lia|]; run.
  rewrite get_hash_spec; [apply root_coord; lia|]. by rewrite root_of_nonempty; [lia|].
Qed.

Lemma view_append_nothing : view_append self [] = Ret (Ok (root_of leaves, [])).
Proof.
  unfold view_append. rewrite num_ok. destruct (Z.eqb_spec (leaf_count leaves) 0); [lia|].
  rewrite root_from_leaf_count_node; [lia|]; run. rewrite get_hash_spec; [apply root_coord; lia|]; run.
  by rewrite root_of_nonempty; [lia|].
Qed.

(** The siblings of a node and of its ancestors, [k] levels up. *)
Fixpoint sibling_coords (k l : nat) (p : Z) : list (nat * Z) :=
  match k with O => [] | S k' => (l, sibling_pos p) :: sibling_coords k' (S l) (p / 2) end.

(** A node of the path from a leaf of the accumulator. *)
Definition on_path (l : nat) (p : Z) : Prop := 0 ≤ p ∧ p * 2 ^ Z.of_nat l < leaf_count leaves.

Lemma on_path_coord l p :
  on_path l p → (l ≤ 63)%nat → coord l p ∧ ((0 < l)%nat ∨ p < 2 ^ 63 - 1).
Proof.
  intros [Hp Hlt] Hl. split; [apply coord_below; lia|].
  destruct l; [right|left; lia]. change (2 ^ Z.of_nat 0) with 1 in Hlt. lia.
Qed.

Lemma on_path_parent l p : on_path l p → on_path (S l) (p / 2).
Proof. intros [Hp Hlt]. split; [apply Z.div_pos; lia|by apply half_below]. Qed.

(** Siblings of the path are nodes of the tree, and not its last leaf. *)
Lemma on_path_sibling l p :
  on_path l p → (l < 63)%nat →
  coord l (sibling_pos p) ∧ ((0 < l)%nat ∨ sibling_pos p < 2 ^ 63 - 1).
Proof.
  intros Hon Hl. destruct (on_path_coord l p Hon ltac:(lia)) as [Hc _].
  split; [by apply sibling_coord|]. destruct l; [right|left; lia].
  destruct Hon as [_ Hlt]. change (2 ^ Z.of_nat 0) with 1 in Hlt. unfold sibling_pos. destruct (Z.even p); lia.
Qed.

Lemma ancestor_siblings_spec (k l : nat) p :
  on_path l p → (l + k ≤ 63)%nat →
  ancestor_siblings k (node l p) = Ret (nodes (sibling_coords k l p)) ∧
  Forall (λ x, coord x.1 x.2) (sibling_coords k l p).
Proof.
  revert l p; induction k as [|k IH]; intros l p Hon Hk; [done|].
  destruct (on_path_coord l p Hon ltac:(lia)) as [Hc Hlast]. cbn [ancestor_siblings sibling_coords].
  rewrite sibling_node //; [lia|]; run. rewrite parent_node //; [lia|]; run.
  destruct (IH (S l) (p / 2) (on_path_parent _ _ Hon) ltac:(lia)) as [-> Hall]. split; [done|].
  constructor; [|done]. apply sibling_coord; [done|cbn; lia].
Qed.

Lemma sibling_coords_lookup (k l j : nat) p x :
  sibling_coords k l p !! j = Some x → x = ((l + j)%nat, sibling_pos (p / 2 ^ Z.of_nat j)).
Proof.
  revert l p j; induction k as [|k IH]; intros l p j Hj; [done|].
  destruct j as [|j]; cbn in Hj.
  - injection Hj as <-. by rewrite Nat.add_0_r Z.div_1_r.
  - rewrite (IH _ _ _ Hj) div_pow2_S. f_equal. lia.
Qed.

Lemma sibling_coords_length k l p : length (sibling_coords k l p) = k.
Proof. revert l p; induction k as [|k IH]; intros; [done|]. cbn. by rewrite IH. Qed.

Lemma root_level_bound : (root_level (leaf_count leaves) ≤ 63)%nat.
Proof. assert (coord (root_level (leaf_count leaves)) 0) as [H _] by (apply root_coord; lia). done. Qed.

Lemma filter_all ps : filter_positions (λ _, Ret true) ps = Ret ps.
Proof. induction ps as [|p ps IH]; [done|]. cbn. by rewrite IH. Qed.

Lemma leaf_on_path index : 0 ≤ index < leaf_count leaves → on_path 0 index.
Proof. intros Hi. split; [lia|]. change (2 ^ Z.of_nat 0) with 1. lia. Qed.

Lemma level_root : level (node (root_level (leaf_count leaves)) 0) = Z.of_nat (root_level (leaf_count leaves)).
Proof. apply level_node, root_coord. lia. Qed.

Lemma get_sibling_positions_eq index filter :
  0 ≤ index < leaf_count leaves →
  get_sibling_positions self index filter =
    filter_positions filter (nodes (sibling_coords (root_level (leaf_count leaves)) 0 index)).
Proof.
  intros Hi. unfold get_sibling_positions. rewrite num_ok root_from_leaf_count_node; [lia|]; run.
  rewrite from_leaf_index_node; [lia|]; run. rewrite level_root Nat2Z.id. pose proof root_level_bound.
  by destruct (ancestor_siblings_spec (root_level (leaf_count leaves)) 0 index (leaf_on_path _ Hi))
    as [-> _]; [lia|].
Qed.

Lemma get_proof_spec index :
  0 ≤ index < leaf_count leaves →
  get_proof self index
  = Ret (Ok (mkAccumulatorProof (hashes leaves (sibling_coords (root_level (leaf_count leaves)) 0 index)))).
Proof.
  intros Hi. unfold get_proof, get_siblings. rewrite num_ok (proj2 (Z.ltb_lt _ _)); [lia|]. cbn [negb].
  rewrite get_sibling_positions_eq // filter_all; run. pose proof root_level_bound.
  destruct (ancestor_siblings_spec (root_level (leaf_count leaves)) 0 index (leaf_on_path _ Hi))
    as [_ Hall]; [lia|]. by rewrite get_hashes_spec.
Qed.

Lemma proof_verifies index h :
  leaves !! Z.to_nat index = Some h → 0 ≤ index →
  AccumulatorProof_verify
    (mkAccumulatorProof (hashes leaves (sibling_coords (root_level (leaf_count leaves)) 0 index)))
    (root_of leaves) h index = Ok tt.
Proof.
  intros Hh Hi. pose proof (lookup_lt_Some _ _ _ Hh) as Hlt. pose proof root_level_bound.
  assert (index < leaf_count leaves) as Hn by (unfold leaf_count; lia).
  unfold AccumulatorProof_verify, MAX_ACCUMULATOR_PROOF_DEPTH. cbn [siblings].
  rewrite hashes_length sibling_coords_length (proj2 (Z.leb_le _ 63)); [lia|]. cbn [negb].
  rewrite decide_True //. pose proof (node_hash_leaf _ _ _ Hh) as Hleaf. rewrite Z2Nat.id // in Hleaf.
  rewrite -Hleaf (verify_fold_siblings leaves _ 0 index).
  - change (2 ^ Z.of_nat 0) with 1. lia.
  - intros k x Hk. unfold hashes in Hk. apply list_lookup_fmap_Some in Hk as ([l q] & -> & Hk).
    apply sibling_coords_lookup in Hk. by injection Hk as -> ->.
  - rewrite hashes_length sibling_coords_length root_of_nonempty; [lia|]. f_equal.
    apply Z.div_small. pose proof (root_fits (leaf_count leaves)). lia.
Qed.

(** ** Range proofs *)

(** The siblings on the right of a path. *)
Fixpoint right_coords (k l : nat) (p : Z) : list (nat * Z) :=
  match k with
  | O => []
  | S k' => (if Z.odd p then [] else [(l, p + 1)]) ++ right_coords k' (S l) (p / 2)
  end.

Lemma filter_siblings (k l : nat) p :
  on_path l p → (l + k ≤ 63)%nat →
  filter_positions is_left_child (nodes (sibling_coords k l p)) = Ret (nodes (left_coords k l p)) ∧
  filter_positions is_right_child (nodes (sibling_coords k l p)) = Ret (nodes (right_coords k l p)) ∧
  Forall (λ x, coord x.1 x.2) (left_coords k l p) ∧ Forall (λ x, coord x.1 x.2) (right_coords k l p) ∧
  (length (left_coords k l p) ≤ k)%nat ∧ (length (right_coords k l p) ≤ k)%nat.
Proof.
  revert l p; induction k as [|k IH]; intros l p Hon Hk; [cbn; auto 10|].
  destruct (on_path_sibling l p Hon ltac:(lia)) as [Hc Hlast].
  destruct (IH (S l) (p / 2) (on_path_parent _ _ Hon) ltac:(lia)) as (Hl & Hr & Hcl & Hcr & Hnl & Hnr).
  cbn [sibling_coords left_coords right_coords nodes fmap list_fmap filter_positions].
  change (_ <$> sibling_coords k (S l) (p / 2)) with (nodes (sibling_coords k (S l) (p / 2))).
  rewrite is_left_child_node // is_right_child_node // Hl Hr; run.
  unfold sibling_pos in *. destruct (Z_double_cases p) as [q [->| ->]].
  - destruct (half_double_succ q) as (_ & _ & Heven). rewrite Heven in Hc |- *. rewrite odd_double_succ.
    replace (2 * q + 1 - 1) with (2 * q) in * by lia. destruct (half_double q) as (_ & _ & ->).
    rewrite odd_double. cbn. repeat split; auto; lia.
  - destruct (half_double q) as (_ & _ & Heven). rewrite Heven in Hc |- *. rewrite odd_double.
    destruct (half_double_succ q) as (_ & _ & ->). rewrite odd_double_succ. cbn. repeat split; auto; lia.
Qed.

(** The hashes of [c] consecutive nodes. *)
Fixpoint segment (l : nat) (p : Z) (c : nat) : list HashValue :=
  match c with O => [] | S c' => node_hash leaves l p :: segment l (p + 1) c' end.

Lemma segment_length l p c : length (segment l p c) = c.
Proof. revert p; induction c as [|c IH]; intros p; [done|]. cbn. by rewrite IH. Qed.

Lemma segment_app l p c d : segment l p (c + d) = segment l p c ++ segment l (p + Z.of_nat c) d.
Proof.
  revert p; induction c as [|c IH]; intros p; cbn [segment Nat.add app].
  - by rewrite Z.add_0_r.
  - rewrite IH. do 3 f_equal. lia.
Qed.

Lemma pair_up_segment l q (c : nat) rest :
  (length rest ≤ 1)%nat → (q + Z.of_nat c) * 2 ^ Z.of_nat (S l) < leaf_count leaves + 2 ^ Z.of_nat (S l) →
  pair_up (segment l (2 * q) (2 * c) ++ rest) = (segment (S l) q c, rest).
Proof.
  intros Hrest. revert q; induction c as [|c IH]; intros q Hlt.
  { cbn. destruct rest as [|x [|y rest]]; [done|done|cbn in Hrest; lia]. }
  replace (2 * S c)%nat with (S (S (2 * c))) by lia. cbn [segment app pair_up].
  replace (2 * q + 1 + 1) with (2 * (q + 1)) by lia. rewrite IH; [lia|].
  rewrite node_hash_S //. pose proof (pow2_gt0 (S l)). nia.
Qed.

Lemma range_round_segment l a b (li ri : list HashValue) :
  0 ≤ a ≤ b → b * 2 ^ Z.of_nat l < leaf_count leaves →
  range_round (Z.odd a) (segment l a (Z.to_nat (b - a + 1)))
    (hashes leaves (if Z.odd a then [(l, a - 1)] else []) ++ li)
    (hashes leaves (if Z.odd b then [] else [(l, b + 1)]) ++ ri)
  = Ret (Ok (segment (S l) (a / 2) (Z.to_nat (b / 2 - a / 2 + 1)), li, ri)).
Proof.
  intros Hab Hlt. pose proof (pow2_gt0 l).
  assert (∀ (q : Z) (c : nat) res,
    2 * q + Z.of_nat c = b + 1 → (0 ≤ q) →
    range_pairs res (segment l (2 * q) c) li (hashes leaves (if Z.odd b then [] else [(l, b + 1)]) ++ ri)
    = Ret (Ok (res ++ segment (S l) q (Z.to_nat (b / 2 - q + 1)), li, ri))) as Hpairs.
  { intros q c res Hc Hq. unfold range_pairs. destruct (Z_double_cases b) as [d [->| ->]].
    - destruct (half_double_succ d) as (-> & _ & _). rewrite odd_double_succ.
      rewrite -(app_nil_r (segment l _ _)). replace c with (2 * Z.to_nat (d - q + 1))%nat by lia.
      rewrite pair_up_segment; [cbn; lia|rewrite pow2_S; nia|done].
    - destruct (half_double d) as (-> & _ & _). rewrite odd_double.
      replace c with (2 * Z.to_nat (d - q) + 1)%nat by lia. rewrite segment_app. cbn [segment].
      rewrite pair_up_segment; [cbn; lia|rewrite pow2_S; nia|]. cbn.
      replace (2 * q + Z.of_nat (Z.to_nat (d - q) + (Z.to_nat (d - q) + 0))) with (2 * d) by lia.
      rewrite -node_hash_S; [rewrite pow2_S; lia|].
      replace (Z.to_nat (d - q + 1)) with (Z.to_nat (d - q) + 1)%nat by lia.
      rewrite segment_app. cbn [segment]. by replace (q + Z.of_nat (Z.to_nat (d - q))) with d by lia. }
  unfold range_round. destruct (Z_double_cases a) as [q [->| ->]].
  - destruct (half_double_succ q) as (-> & _ & _). rewrite odd_double_succ. cbn [hashes fmap list_fmap app].
    replace (Z.to_nat (b - (2 * q + 1) + 1)) with (S (Z.to_nat (b - 2 * q - 1))) by lia.
    cbn [segment head tail expect]; run. rewrite Z.add_simpl_r -node_hash_S; [rewrite pow2_S; nia|].
    replace (2 * q + 1 + 1) with (2 * (q + 1)) by lia. rewrite Hpairs; [lia..|].
    destruct (decide (b / 2 = q)) as [Heq|Hne].
    + rewrite Heq. replace (q - (q + 1) + 1) with 0 by lia. replace (q - q + 1) with 1 by lia. done.
    + assert (q < b / 2) by (pose proof (Z.div_le_lower_bound b 2 q ltac:(lia)); lia).
      replace (Z.to_nat (b / 2 - q + 1)) with (S (Z.to_nat (b / 2 - (q + 1) + 1))) by lia. done.
  - destruct (half_double q) as (-> & _ & _). rewrite odd_double. cbn [hashes fmap list_fmap app].
    rewrite Hpairs; [lia..|done].
Qed.

Lemma range_loop_complete (k fuel l : nat) a b :
  0 ≤ a ≤ b → b * 2 ^ Z.of_nat l < leaf_count leaves → b < 2 ^ Z.of_nat k →
  (l + k ≤ 63)%nat → (k ≤ fuel)%nat →
  range_loop fuel (node l a) (segment l a (Z.to_nat (b - a + 1)))
    (hashes leaves (left_coords k l a)) (hashes leaves (right_coords k l b))
  = Ret (Ok (Some [node_hash leaves (l + k) 0])).
Proof.
  revert fuel l a b; induction k as [|k IH]; intros fuel l a b Hab Hlt Hb Hl Hfuel.
  { change (2 ^ Z.of_nat 0) with 1 in Hb. replace b with 0 by lia. replace a with 0 by lia.
    rewrite Nat.add_0_r. by destruct fuel. }
  destruct fuel as [|fuel]; [lia|]. cbn [range_loop left_coords right_coords].
  rewrite !hashes_app.
  assert (on_path l a) as Hon by (split; [lia|pose proof (pow2_gt0 l); nia]).
  destruct (on_path_coord l a Hon ltac:(lia)) as [Hc Hlast].
  replace (_ && _ && _) with false.
  2: { rewrite segment_length. symmetry. destruct (decide (a = b)) as [->|Hne].
    - destruct (Z.odd b); cbn; by rewrite ?andb_false_r.
    - rewrite (proj2 (Nat.leb_gt _ _)) //. lia. }
  rewrite is_right_child_node //; run. rewrite range_round_segment //; run. cbn [try].
  rewrite parent_node //; [lia|]; run.
  replace (l + S k)%nat with (S l + k)%nat by lia. apply IH; [|by apply half_below| |lia|lia].
  - split; [apply Z.div_pos; lia|apply Z.div_le_mono; lia].
  - rewrite pow2_S in Hb. apply Z.div_lt_upper_bound; lia.
Qed.

Lemma segment_take f c :
  (f + c ≤ length leaves)%nat → segment 0 (Z.of_nat f) c = take c (drop f leaves).
Proof.
  revert f; induction c as [|c IH]; intros f Hc; [done|].
  destruct (lookup_lt_is_Some_2 leaves f) as [x Hx]; [lia|].
  cbn [segment]. rewrite (node_hash_leaf _ _ _ Hx) (drop_S _ _ _ Hx). cbn [take]. f_equal.
  rewrite -IH; [lia|]. f_equal. lia.
Qed.

Lemma get_range_proof_spec f (c : nat) :
  0 ≤ f → (0 < c)%nat → f + Z.of_nat c ≤ leaf_count leaves →
  get_range_proof self (Some f) (Z.of_nat c)
  = Ret (Ok (mkAccumulatorRangeProof
      (hashes leaves (left_coords (root_level (leaf_count leaves)) 0 f))
      (hashes leaves (right_coords (root_level (leaf_count leaves)) 0 (f + Z.of_nat c - 1))))).
Proof.
  intros Hf Hc Hle. unfold get_range_proof, get_range_proof_positions, u64_checked_add.
  rewrite (proj2 (Z.ltb_lt 0 _)); [lia|]. cbn [negb].
  replace (f + (Z.of_nat c - 1)) with (f + Z.of_nat c - 1) by lia.
  rewrite (proj2 (Z.leb_le _ u64_max)); [unfold u64_max; lia|].
  rewrite num_ok (proj2 (Z.ltb_lt _ _)); [lia|]. cbn [negb].
  rewrite !get_sibling_positions_eq; [lia..|]. pose proof root_level_bound.
  destruct (filter_siblings (root_level (leaf_count leaves)) 0 f (leaf_on_path f ltac:(lia)) ltac:(lia))
    as (-> & _ & Hcl & _).
  destruct (filter_siblings (root_level (leaf_count leaves)) 0 (f + Z.of_nat c - 1)
    (leaf_on_path (f + Z.of_nat c - 1) ltac:(lia)) ltac:(lia)) as (_ & -> & _ & Hcr & _).
  run. cbn [try]. by rewrite !get_hashes_spec.
Qed.

Lemma range_proof_verifies f (c : nat) :
  0 ≤ f → (0 < c)%nat → f + Z.of_nat c ≤ leaf_count leaves →
  AccumulatorRangeProof_verify 65 (mkAccumulatorRangeProof
      (hashes leaves (left_coords (root_level (leaf_count leaves)) 0 f))
      (hashes leaves (right_coords (root_level (leaf_count leaves)) 0 (f + Z.of_nat c - 1))))
    (root_of leaves) (Some f) (take c (drop (Z.to_nat f) leaves)) = Ret (Ok (Some tt)).
Proof.
  intros Hf Hc Hle. pose proof root_level_bound.
  unfold AccumulatorRangeProof_verify, MAX_ACCUMULATOR_PROOF_DEPTH. cbn [left_siblings right_siblings].
  destruct (filter_siblings (root_level (leaf_count leaves)) 0 f (leaf_on_path f ltac:(lia)) ltac:(lia))
    as (_ & _ & _ & _ & Hnl & _).
  destruct (filter_siblings (root_level (leaf_count leaves)) 0 (f + Z.of_nat c - 1)
    (leaf_on_path (f + Z.of_nat c - 1) ltac:(lia)) ltac:(lia)) as (_ & _ & _ & _ & _ & Hnr).
  rewrite !hashes_length (proj2 (Z.leb_le (Z.of_nat (length (left_coords _ _ _))) 63)); [lia|].
  rewrite (proj2 (Z.leb_le (Z.of_nat (length (right_coords _ _ _))) 63)); [lia|]. cbn [negb].
  rewrite -segment_take; [unfold leaf_count in *; lia|]. rewrite Z2Nat.id //.
  rewrite bool_decide_eq_false_2; [destruct c; [lia|done]|].
  rewrite from_leaf_index_node; [lia|]; run.
  replace c with (Z.to_nat ((f + Z.of_nat c - 1) - f + 1)) at 1 by lia.
  rewrite range_loop_complete; [lia|change (2 ^ Z.of_nat 0) with 1; lia| |lia|lia|].
  { pose proof (root_fits (leaf_count leaves)). lia. }
  run. cbn [try expect head]. run. rewrite Nat.add_0_l root_of_nonempty; [lia|]. by rewrite decide_True.
Qed.

(** ** Consistency proofs *)

Lemma tiles_within s xs e : 0 ≤ s → tiles s xs e → Forall (within e) xs ∧ s ≤ e.
Proof.
  revert s; induction xs as [|[l p] xs IH]; intros s Hs Ht; cbn in Ht.
  { subst. split; [constructor|lia]. }
  destruct Ht as [Hp Ht]. pose proof (pow2_gt0 l). destruct (IH (s + 2 ^ Z.of_nat l)) as [Hall Hle]; [lia|done|].
  split; [|lia]. constructor; [|done]. split; cbn; nia.
Qed.

Lemma get_consistency_proof_spec c :
  0 ≤ c ≤ leaf_count leaves →
  get_consistency_proof self c
  = Ret (Ok (mkAccumulatorConsistencyProof (hashes leaves (extension 64 c (leaf_count leaves - c))))).
Proof.
  intros Hc. unfold get_consistency_proof. rewrite num_ok (proj2 (Z.leb_le _ _)); [lia|]. cbn [negb].
  destruct (extension_drains c (leaf_count leaves)) as (it & Hit & Hdrain & Htiles); [lia..|].
  rewrite Hit; run. rewrite Hdrain; run. cbn [expect]; run.
  apply tiles_within in Htiles as [Hall _]; [|lia]. by rewrite read_all_spec.
Qed.

Lemma get_frozen_subtree_hashes_spec :
  get_frozen_subtree_hashes self = Ret (Ok (frozen_subtree_roots (acc_of leaves))).
Proof.
  unfold get_frozen_subtree_hashes, FrozenSubTreeIterator_new. rewrite num_ok.
  rewrite drain_subtrees; [lia..| |].
  { assert (count_ones (leaf_count leaves) ≤ 64); [|lia]. apply (count_ones_bound 64).
    change (2 ^ Z.of_nat 64) with (2 * 2 ^ 63). lia. }
  run. cbn [expect]; run. replace ((λ v, v + 2 * 0) <$> nodes _) with (nodes (frozen 0 (leaf_count leaves))).
  - rewrite read_all_spec //. apply frozen_within. lia.
  - rewrite -{1}(list_fmap_id (nodes _)). apply list_fmap_ext. intros. simpl. lia.
Qed.
End read.

(** ** The nodes an append writes *)

Lemma chain_lookup (k i j : nat) m :
  (j < k)%nat → chain k i m !! j = Some ((i + S j)%nat, m / 2 ^ Z.of_nat (S j)).
Proof.
  revert i j m; induction k as [|k IH]; intros i j m Hj; [lia|].
  destruct j as [|j].
  - cbn. do 2 f_equal. lia.
  - rewrite -div_pow2_S. etrans; [apply (IH (S i) j (m / 2)); lia|]. do 2 f_equal. lia.
Qed.

Lemma chain_length (k i : nat) m : length (chain k i m) = k.
Proof. revert i m; induction k as [|k IH]; intros; [done|]. cbn. by rewrite IH. Qed.

(** The nodes a leaf completes are those whose last leaf it is. *)
Lemma elem_of_completed_by e l p :
  0 ≤ e < 2 ^ 63 → (l, p) ∈ completed_by e ↔ 0 ≤ p ∧ (p + 1) * 2 ^ Z.of_nat l = e + 1.
Proof.
  intros He. destruct (coordinates e) as (k & q & Hc & Heq); [lia|]. pose proof (level_node _ _ Hc) as Hl.
  rewrite -Heq in Hl. destruct (Hc) as [_ [Hq _]]. unfold completed_by. rewrite Hl Nat2Z.id elem_of_cons.
  assert (e + 1 = (2 * q + 1) * 2 ^ Z.of_nat k) as He1 by (rewrite Heq; unfold node; rewrite pow2_add1; lia).
  assert (∀ j : nat, (j ≤ k)%nat → (e / 2 ^ Z.of_nat j + 1) * 2 ^ Z.of_nat j = e + 1) as Hanc.
  { intros j Hj. pose proof (pow2_gt0 j). replace k with (k - j + j)%nat in He1 by lia.
    rewrite Nat2Z.inj_add Z.pow_add_r in He1; [lia..|].
    assert (e / 2 ^ Z.of_nat j = (2 * q + 1) * 2 ^ Z.of_nat (k - j) - 1) as ->; [|lia].
    symmetry. apply (Z.div_unique _ _ _ (2 ^ Z.of_nat j - 1)); lia. }
  split.
  - intros [[= -> ->]|Hin]; [change (2 ^ Z.of_nat 0) with 1; lia|].
    apply list_elem_of_lookup_1 in Hin as [j Hj]. pose proof (lookup_lt_Some _ _ _ Hj) as Hlt.
    rewrite chain_length in Hlt. rewrite chain_lookup // in Hj. injection Hj as <- <-.
    split; [apply Z.div_pos; [lia|apply (pow2_gt0 (S j))]|]. apply (Hanc (S j)). lia.
  - intros [Hp Hw]. pose proof (pow2_gt0 l). destruct l as [|l].
    { left. change (2 ^ Z.of_nat 0) with 1 in Hw. f_equal. lia. }
    assert (S l ≤ k)%nat as Hlk.
    { destruct (decide (S l ≤ k)%nat) as [|Hgt]; [done|]. exfalso.
      rewrite He1 in Hw. replace (S l) with (S (l - k) + k)%nat in Hw by lia.
      rewrite Nat2Z.inj_add Z.pow_add_r in Hw; [lia..|]. rewrite pow2_S in Hw. pose proof (pow2_gt0 k).
      assert ((p + 1) * (2 * 2 ^ Z.of_nat (l - k)) = 2 * q + 1); [|lia].
      apply (Z.mul_reg_r _ _ (2 ^ Z.of_nat k)); lia. }
    right. apply (list_elem_of_lookup_2 _ l). rewrite chain_lookup; [lia|]. do 2 f_equal.
    pose proof (Hanc (S l) Hlk). nia.
Qed.

Lemma elem_of_completed m (k : nat) x :
  x ∈ completed m k ↔ ∃ e, m ≤ e < m + Z.of_nat k ∧ x ∈ completed_by e.
Proof.
  revert m; induction k as [|k IH]; intros m.
  { split; [by intros ?%elem_of_nil|intros (e & ? & _); lia]. }
  cbn [completed]. rewrite elem_of_app IH. split.
  - intros [Hx|(e & He & Hx)]; [exists m|exists e]; (split; [lia|done]).
  - intros (e & He & Hx). destruct (decide (e = m)) as [->|]; [by left|right]. exists e. split; [lia|done].
Qed.

(** Completed are the nodes frozen now and not before. *)
Lemma completed_within m (k : nat) l p :
  0 ≤ m → m + Z.of_nat k ≤ 2 ^ 63 →
  (l, p) ∈ completed m k ↔ within (m + Z.of_nat k) (l, p) ∧ ¬ within m (l, p).
Proof.
  intros Hm Hmax. rewrite elem_of_completed. unfold within; cbn. split.
  - intros (e & He & [Hp Hw]%elem_of_completed_by); [|lia]. lia.
  - intros [[Hp Hw] Hnot]. exists ((p + 1) * 2 ^ Z.of_nat l - 1). split; [lia|].
    apply elem_of_completed_by; lia.
Qed.

(** ** Their order *)

Lemma post_parent l q : 0 ≤ q → post (S l) q = post l (2 * q + 1) + 1.
Proof. intros Hq. unfold post. rewrite count_ones_double_succ // !pow2_S. lia. Qed.

Lemma chain_post (k i : nat) q :
  0 ≤ q → (λ '(l, p), post l p) <$> chain k i (node k q) = seqZ (post i (node k q) + 1) (Z.of_nat k).
Proof.
  intros Hq. revert i; induction k as [|k IH]; intros i; [done|].
  assert (0 ≤ node k q) by (unfold node; pose proof (pow2_gt0 k); rewrite pow2_add1; nia).
  cbn [chain fmap list_fmap]. rewrite node_S. destruct (half_double_succ (node k q)) as (-> & _ & _).
  rewrite seqZ_cons; [lia|]. f_equal; [by apply post_parent|].
  change (list_fmap _ _ ?f ?xs) with (f <$> xs). rewrite IH post_parent //. f_equal; lia.
Qed.

(** The number of frozen nodes of [m] leaves. *)
Definition frozen_nodes (m : Z) : Z := 2 * m - count_ones m.

Lemma completed_by_post e :
  0 ≤ e < 2 ^ 63 →
  (λ '(l, p), post l p) <$> completed_by e = seqZ (frozen_nodes e) (Z.of_nat (length (completed_by e))) ∧
  frozen_nodes (e + 1) = frozen_nodes e + Z.of_nat (length (completed_by e)).
Proof.
  intros He. destruct (coordinates e) as (k & q & Hc & Heq); [lia|]. pose proof (level_node _ _ Hc) as Hl.
  rewrite -Heq in Hl. destruct (Hc) as [_ [Hq _]]. unfold completed_by. rewrite Hl Nat2Z.id.
  cbn [length]. rewrite chain_length. split.
  - rewrite seqZ_cons; [lia|]. cbn [fmap list_fmap].
    assert (post 0 e = frozen_nodes e) as Hpost.
    { unfold post, frozen_nodes. change (2 ^ Z.of_nat 1) with 2. lia. }
    f_equal; [done|]. rewrite Heq. change (list_fmap _ _ ?f ?xs) with (f <$> xs).
    rewrite chain_post // -Heq Hpost. f_equal; lia.
  - unfold frozen_nodes. rewrite Heq.
    replace (node k q + 1) with ((2 * q + 1) * 2 ^ Z.of_nat k) by (unfold node; rewrite pow2_add1; lia).
    rewrite count_ones_shift count_ones_double_succ //.
    assert (count_ones (node k q) = count_ones q + Z.of_nat k) as ->.
    { clear -Hq. induction k as [|k IH]; [rewrite node_0 count_ones_double; lia|].
      rewrite node_S count_ones_double_succ; [|lia]. unfold node. pose proof (pow2_gt0 k). rewrite pow2_add1. nia. }
    unfold node. rewrite pow2_add1. lia.
Qed.

Lemma completed_post m (k : nat) :
  0 ≤ m → m + Z.of_nat k ≤ 2 ^ 63 →
  (λ '(l, p), post l p) <$> completed m k
    = seqZ (frozen_nodes m) (frozen_nodes (m + Z.of_nat k) - frozen_nodes m) ∧
  frozen_nodes m ≤ frozen_nodes (m + Z.of_nat k).
Proof.
  revert m; induction k as [|k IH]; intros m Hm Hmax.
  { rewrite Z.add_0_r Z.sub_diag. cbn. split; [done|lia]. }
  destruct (completed_by_post m) as [Hby Hnext]; [lia|]. destruct (IH (m + 1)) as [Hrest Hle]; [lia..|].
  replace (m + 1 + Z.of_nat k) with (m + Z.of_nat (S k)) in * by lia. split; [|lia].
  cbn [completed]. rewrite fmap_app Hby Hrest Hnext.
  replace (frozen_nodes (m + Z.of_nat (S k)) - frozen_nodes m)
    with (Z.of_nat (length (completed_by m)) +
          (frozen_nodes (m + Z.of_nat (S k)) - (frozen_nodes m + Z.of_nat (length (completed_by m))))) by lia.
  rewrite seqZ_app; [lia|lia|done].
Qed.
End view.
