(* ===== verification/BitVec.v ===== *)
(** * Bit vectors

    Models [crates/aptos-bitvec]: a set of positions up to [u16::MAX], kept as a
    vector of bytes, most significant bit first.  Validators that signed a
    certificate are named by such a vector. *)
From S2P Require Import Prelude.
Local Open Scope Z_scope.

Definition BUCKET_SIZE : Z := 8.
Definition MAX_BUCKETS : nat := Z.to_nat 8192.

Record BitVec : Type := mkBitVec { inner : bytes }.

#[global] Instance BitVec_eq_dec : EqDecision BitVec.
Proof. solve_decision. Defined.

(** [Self::required_buckets]. *)
Definition required_buckets (num_bits : Z) : nat :=
  if num_bits =? 0 then 0%nat else Z.to_nat ((num_bits - 1) / BUCKET_SIZE + 1).

Definition with_num_bits (num_bits : Z) : BitVec :=
  mkBitVec (replicate (required_buckets num_bits) 0).

Definition BitVec_default : BitVec := mkBitVec [].

(** The mask [0b1000_0000 >> bucket_pos]. *)
Definition bucket_mask (pos : Z) : Z := Z.shiftr 128 (pos - pos / BUCKET_SIZE * BUCKET_SIZE).

Definition set (self : BitVec) (pos : Z) : BitVec :=
  let bucket := Z.to_nat (pos / BUCKET_SIZE) in
  let inner1 := if decide (length (inner self) ≤ bucket)%nat
                then inner self ++ replicate (S bucket - length (inner self)) 0
                else inner self in
  mkBitVec (alter (λ b, Z.lor b (bucket_mask pos)) bucket inner1).

Definition is_set (self : BitVec) (pos : Z) : bool :=
  match inner self !! Z.to_nat (pos / BUCKET_SIZE) with
  | None => false
  | Some b => negb (Z.land b (bucket_mask pos) =? 0)
  end.

(** [u8::count_ones] and [u8::trailing_zeros]. *)
Definition u8_bits : list Z := [0; 1; 2; 3; 4; 5; 6; 7].
Definition u8_count_ones (b : Z) : nat := length (filter (λ i, Z.testbit b i = true) u8_bits).
Definition u8_trailing_zeros (b : Z) : Z :=
  from_option id 8 (head (filter (λ i, Z.testbit b i = true) u8_bits)).

Definition count_ones (self : BitVec) : nat := sum_list (u8_count_ones <$> inner self).

(** The last bucket that is not zero, with its distance from the end. *)
Fixpoint last_nonzero (rev_inner : bytes) (i : Z) : option (Z * Z) :=
  match rev_inner with
  | [] => None
  | b :: rest => if b =? 0 then last_nonzero rest (i + 1) else Some (i, b)
  end.

Definition last_set_bit (self : BitVec) : option Z :=
  match last_nonzero (reverse (inner self)) 0 with
  | None => None
  | Some (i, b) => Some (wrap 16 (8 * (Z.of_nat (length (inner self)) - i) - u8_trailing_zeros b - 1))
  end.

Definition iter_ones (self : BitVec) : list nat :=
  filter (λ idx, is_set self (wrap 16 (Z.of_nat idx)) = true) (seq 0 (length (inner self) * 8)).

Definition num_buckets (self : BitVec) : nat := length (inner self).

Definition bitand (self other : BitVec) : BitVec :=
  mkBitVec (zip_with Z.land (inner self) (inner other)).

Definition bitor (self other : BitVec) : BitVec :=
  mkBitVec ((λ i, Z.lor (from_option id 0 (inner self !! i)) (from_option id 0 (inner other !! i)))
              <$> seq 0 (length (inner self) `max` length (inner other))).

(** ** Bit vectors as sets of positions *)

(** What deserialisation and the constructors guarantee: bytes, and at most
    [MAX_BUCKETS] of them. *)
Definition bv_wf (self : BitVec) : Prop :=
  (length (inner self) ≤ MAX_BUCKETS)%nat ∧ Forall (λ b, 0 ≤ b < 256) (inner self).

Definition u16 (x : Z) : Prop := 0 ≤ x < 65536.

Lemma bucket_mask_bit pos : 0 ≤ pos → bucket_mask pos = 2 ^ (7 - pos mod 8).
Proof.
  intros Hp. rewrite /bucket_mask /BUCKET_SIZE.
  replace (pos - pos / 8 * 8) with (pos mod 8) by (pose proof (Z_div_mod_eq_full pos 8); lia).
  pose proof (Z.mod_pos_bound pos 8 ltac:(lia)).
  change 128 with (2 ^ 7). rewrite Z.shiftr_div_pow2; [lia|].
  rewrite -Z.pow_sub_r; lia.
Qed.

(** Position [pos] is bit [7 - pos mod 8] of byte [pos / 8]. *)
Lemma is_set_bit self pos :
  0 ≤ pos →
  is_set self pos = Z.testbit (from_option id 0 (inner self !! Z.to_nat (pos / 8))) (7 - pos mod 8).
Proof.
  intros Hp. rewrite /is_set /BUCKET_SIZE. pose proof (Z.mod_pos_bound pos 8 ltac:(lia)).
  destruct (inner self !! _) as [b|] eqn:Hb; simpl; [|by rewrite Z.bits_0].
  rewrite bucket_mask_bit // land_pow2; [lia|]. by rewrite negb_involutive.
Qed.

Lemma is_set_set self p q : 0 ≤ p → 0 ≤ q → is_set (set self p) q = (p =? q) || is_set self q.
Proof.
  intros Hp Hq. rewrite !is_set_bit //=.
  pose proof (Z.mod_pos_bound p 8 ltac:(lia)). pose proof (Z.mod_pos_bound q 8 ltac:(lia)).
  pose proof (Z_div_mod_eq_full p 8). pose proof (Z_div_mod_eq_full q 8).
  pose proof (Z.div_pos p 8 Hp ltac:(lia)). pose proof (Z.div_pos q 8 Hq ltac:(lia)).
  rewrite /BUCKET_SIZE. set inner1 := if decide _ then _ else _.
  assert (Hin : ∀ k, from_option id 0 (inner1 !! k) = from_option id 0 (inner self !! k)).
  { intros k. rewrite /inner1. case_decide; [|done]. rewrite lookup_app.
    destruct (inner self !! k) eqn:Hk; [done|]. simpl.
    destruct (replicate _ 0 !! _) as [z|] eqn:Hz; [|done]. simpl. by apply lookup_replicate in Hz as [-> _]. }
  assert (Hlen : (Z.to_nat (p / 8) < length inner1)%nat).
  { rewrite /inner1. case_decide; [|lia]. rewrite length_app length_replicate. lia. }
  destruct (decide (Z.to_nat (p / 8) = Z.to_nat (q / 8))) as [Heq|Hne].
  - rewrite -Heq list_lookup_alter_eq. pose proof (Hin (Z.to_nat (p / 8))) as Hk.
    destruct (lookup_lt_is_Some_2 _ _ Hlen) as [b Hb]. rewrite Hb in Hk |- *. simpl in Hk |- *.
    rewrite -Hk bucket_mask_bit // Z.lor_spec Z.pow2_bits_eqb; [lia|].
    rewrite orb_comm. f_equal. apply Z2Nat.inj in Heq; [|lia..].
    destruct (Z.eqb_spec p q), (Z.eqb_spec (7 - p mod 8) (7 - q mod 8)); lia.
  - rewrite list_lookup_alter_ne // Hin.
    destruct (Z.eqb_spec p q) as [->|]; [done|]. done.
Qed.

Lemma is_set_bitand bv1 bv2 p : 0 ≤ p → is_set (bitand bv1 bv2) p = is_set bv1 p && is_set bv2 p.
Proof.
  intros Hp. rewrite !is_set_bit //= lookup_zip_with.
  destruct (inner bv1 !! _) as [a|]; simpl; [|by rewrite Z.bits_0].
  destruct (inner bv2 !! _) as [b|]; simpl; [by rewrite Z.land_spec|].
  by rewrite Z.bits_0 andb_false_r.
Qed.

Lemma is_set_bitor bv1 bv2 p : 0 ≤ p → is_set (bitor bv1 bv2) p = is_set bv1 p || is_set bv2 p.
Proof.
  intros Hp. rewrite !is_set_bit //= list_lookup_fmap -Z.lor_spec. f_equal.
  destruct (decide (Z.to_nat (p / 8) < length (inner bv1) `max` length (inner bv2))%nat) as [Hlt|Hge].
  - by rewrite lookup_seq_lt.
  - rewrite lookup_seq_ge; [lia|]. simpl.
    rewrite (lookup_ge_None_2 (inner bv1)); [lia|]. by rewrite lookup_ge_None_2; [lia|].
Qed.

Lemma iter_ones_spec self i :
  (length (inner self) ≤ MAX_BUCKETS)%nat → i ∈ iter_ones self ↔ is_set self (Z.of_nat i) = true.
Proof.
  intros Hlen. rewrite /iter_ones list_elem_of_filter elem_of_seq.
  assert (Hw : (i < length (inner self) * 8)%nat → wrap 16 (Z.of_nat i) = Z.of_nat i).
  { intros Hi. rewrite /wrap Z.mod_small //. rewrite /MAX_BUCKETS in Hlen. lia. }
  split.
  - intros [Hs Hi]. rewrite Hw in Hs; [lia|done].
  - intros Hs. assert (i < length (inner self) * 8)%nat; [|by rewrite Hw; [lia|]; split; [|lia]].
    rewrite is_set_bit in Hs; [lia|].
    destruct (inner self !! _) as [b|] eqn:Hb; simpl in Hs; [|by rewrite Z.bits_0 in Hs].
    apply lookup_lt_Some in Hb. pose proof (Z_div_mod_eq_full (Z.of_nat i) 8).
    pose proof (Z.mod_pos_bound (Z.of_nat i) 8 ltac:(lia)). lia.
Qed.

Lemma NoDup_iter_ones self : NoDup (iter_ones self).
Proof. apply NoDup_filter, NoDup_seq. Qed.

(** Bits of a byte. *)
Lemma byte_small_bit b n : 0 ≤ b < 256 → 8 ≤ n → Z.testbit b n = false.
Proof.
  intros Hb Hn. destruct (decide (b = 0)) as [->|]; [apply Z.bits_0|].
  apply Z.bits_above_log2; [lia|]. enough (Z.log2 b < 8) by lia. apply Z.log2_lt_pow2; simpl; lia.
Qed.

Lemma byte_trailing_zeros b :
  0 ≤ b < 256 → b ≠ 0 →
  0 ≤ u8_trailing_zeros b < 8 ∧ Z.testbit b (u8_trailing_zeros b) = true ∧
  ∀ n, 0 ≤ n < u8_trailing_zeros b → Z.testbit b n = false.
Proof.
  intros Hb Hne. rewrite /u8_trailing_zeros /u8_bits.
  repeat (rewrite filter_cons; case_decide;
    [simpl; split; [lia|split; [assumption|]]; intros n Hn;
     repeat match goal with H : ¬ Z.testbit b ?k = true |- _ =>
       destruct (decide (n = k)) as [->|]; [by apply not_true_iff_false|]; clear H end; lia|]).
  destruct Hne. apply Z.bits_inj'. intros n Hn. rewrite Z.bits_0.
  destruct (decide (8 ≤ n)); [by apply byte_small_bit|].
  repeat match goal with H : ¬ Z.testbit b ?k = true |- _ =>
       destruct (decide (n = k)) as [->|]; [by apply not_true_iff_false|]; clear H end; lia.
Qed.

Lemma last_nonzero_spec r i :
  match last_nonzero r i with
  | None => Forall (λ b, b = 0) r
  | Some (j, b) => ∃ k, j = i + Z.of_nat k ∧ r !! k = Some b ∧ b ≠ 0 ∧
      ∀ k' b', (k' < k)%nat → r !! k' = Some b' → b' = 0
  end.
Proof.
  revert i. induction r as [|b r IH]; intros i; simpl; [constructor|].
  destruct (Z.eqb_spec b 0) as [->|Hne].
  - specialize (IH (i + 1)). destruct (last_nonzero r (i + 1)) as [[j b]|]; [|by constructor].
    destruct IH as (k & -> & Hk & Hb & Hz). exists (S k). split_and!; [lia|done|done|].
    intros [|k'] b' Hk' Hb'; simpl in Hb'; [by simplify_eq|]. apply (Hz k'); [lia|done].
  - exists 0%nat. split_and!; [lia|done|done|]. lia.
Qed.

Lemma last_set_bit_spec self :
  bv_wf self →
  match last_set_bit self with
  | None => ∀ p, 0 ≤ p → is_set self p = false
  | Some p => u16 p ∧ is_set self p = true ∧ ∀ q, p < q → is_set self q = false
  end.
Proof.
  intros [Hlen Hby]. rewrite /last_set_bit. pose proof (last_nonzero_spec (reverse (inner self)) 0) as Hs.
  destruct (last_nonzero _ _) as [[j b]|].
  2: { intros p Hp. rewrite is_set_bit //. destruct (inner self !! _) as [b|] eqn:Hb; simpl;
       [|by rewrite Z.bits_0]. rewrite Forall_forall in Hs.
       rewrite (Hs b); [|by rewrite Z.bits_0]. apply elem_of_reverse. by apply list_elem_of_lookup_2 in Hb. }
  destruct Hs as (k & -> & Hk & Hne & Hz).
  pose proof (lookup_lt_Some _ _ _ Hk) as Hlt. rewrite length_reverse in Hlt.
  rewrite reverse_lookup // in Hk. rewrite Forall_forall in Hby.
  destruct (byte_trailing_zeros b) as (Ht & Hbit & Hlow);
    [by apply Hby, list_elem_of_lookup; eauto|done|].
  set tz := u8_trailing_zeros b in Ht, Hbit, Hlow |- *. rewrite /MAX_BUCKETS in Hlen.
  set p := 8 * (Z.of_nat (length (inner self)) - (0 + Z.of_nat k)) - tz - 1.
  assert (Hp : 0 ≤ p < 65536) by lia.
  assert (Hdiv : p = 8 * Z.of_nat (length (inner self) - S k) + (7 - tz)) by lia.
  assert (p / 8 = Z.of_nat (length (inner self) - S k)) as Hpd.
  { symmetry. apply (Z.div_unique_pos _ _ _ (7 - tz)); lia. }
  assert (p mod 8 = 7 - tz) as Hpm.
  { symmetry. apply (Z.mod_unique_pos _ _ (Z.of_nat (length (inner self) - S k))); lia. }
  rewrite /wrap Z.mod_small //. split; [done|split].
  - rewrite is_set_bit; [lia|]. rewrite Hpd Nat2Z.id Hk Hpm /=. by replace (7 - (7 - tz)) with tz by lia.
  - intros q Hq. rewrite is_set_bit; [lia|].
    pose proof (Z_div_mod_eq_full q 8). pose proof (Z.mod_pos_bound q 8 ltac:(lia)).
    destruct (inner self !! Z.to_nat (q / 8)) as [b'|] eqn:Hb'; simpl; [|by rewrite Z.bits_0].
    destruct (decide (q / 8 = p / 8)) as [Heq|Hdne].
    + rewrite Heq Hpd Nat2Z.id Hk in Hb'. injection Hb' as <-. apply Hlow. lia.
    + pose proof (lookup_lt_Some _ _ _ Hb') as Hlt'.
      rewrite (Hz (length (inner self) - S (Z.to_nat (q / 8)))%nat b'); [| |by rewrite Z.bits_0].
      * assert (p / 8 ≤ q / 8) by (apply Z.div_le_mono; lia). lia.
      * rewrite reverse_lookup; [lia|]. rewrite -Hb'. f_equal. lia.
Qed.

(** ** Vectors of a fixed length *)

Lemma lor_byte a b : 0 ≤ a < 256 → 0 ≤ b < 256 → 0 ≤ Z.lor a b < 256.
Proof.
  intros Ha Hb. split; [apply Z.lor_nonneg; lia|]. destruct (decide (Z.lor a b = 0)) as [->|Hne]; [lia|].
  assert (0 ≤ Z.lor a b) by (apply Z.lor_nonneg; lia). change 256 with (2 ^ 8). apply Z.log2_lt_pow2; [lia|].
  rewrite Z.log2_lor; [lia..|]. assert (∀ x, 0 ≤ x < 256 → Z.log2 x < 8) as Hlog; [|apply Z.max_lub_lt; by apply Hlog].
  intros x Hx. destruct (decide (x = 0)) as [->|]; [done|]. apply Z.log2_lt_pow2; [lia|]. change (2 ^ 8) with 256. lia.
Qed.

Lemma set_wf self p :
  bv_wf self → 0 ≤ p → (Z.to_nat (p / 8) < num_buckets self)%nat →
  bv_wf (set self p) ∧ num_buckets (set self p) = num_buckets self.
Proof.
  intros [Hlen Hby] Hp Hlt. rewrite /num_buckets /bv_wf /set /BUCKET_SIZE in Hlt |- *. simpl.
  rewrite decide_False; [lia|]. rewrite length_alter. split_and!; [done| |done].
  apply Forall_alter; [done|]. intros b _ Hb. apply lor_byte; [done|].
  rewrite bucket_mask_bit //. pose proof (Z.mod_pos_bound p 8 ltac:(lia)). split; [apply Z.pow_nonneg; lia|].
  change 256 with (2 ^ 8). apply Z.pow_lt_mono_r; lia.
Qed.

Lemma with_num_bits_wf n :
  0 ≤ n < 65536 → bv_wf (with_num_bits n) ∧ ∀ p, 0 ≤ p → is_set (with_num_bits n) p = false.
Proof.
  intros Hn. split.
  - rewrite /bv_wf /with_num_bits /required_buckets /MAX_BUCKETS /BUCKET_SIZE. simpl. split; [|by apply Forall_replicate].
    rewrite length_replicate. destruct (Z.eqb_spec n 0); [lia|].
    assert ((n - 1) / 8 < 8192) by (apply Z.div_lt_upper_bound; lia). lia.
  - intros p Hp. rewrite is_set_bit //. simpl. destruct (replicate _ _ !! _) as [b|] eqn:Hb; simpl; [|by rewrite Z.bits_0].
    apply lookup_replicate in Hb as [-> _]. by rewrite Z.bits_0.
Qed.

(** ** Counting *)

Lemma list_filter_ext {A} (P Q : A → Prop) `{∀ x, Decision (P x), ∀ x, Decision (Q x)} (l : list A) :
  (∀ x, x ∈ l → P x ↔ Q x) → filter P l = filter Q l.
Proof.
  induction l as [|x l IH]; intros Hpq; [done|]. rewrite !filter_cons IH.
  { intros y Hy. apply Hpq. by apply list_elem_of_further. }
  specialize (Hpq x (list_elem_of_here _ _)). do 2 case_decide; naive_solver.
Qed.

Lemma is_set_snoc l b i :
  (i < length (l ++ [b]) * 8)%nat →
  is_set (mkBitVec (l ++ [b])) (Z.of_nat i) =
  if decide (i < length l * 8)%nat then is_set (mkBitVec l) (Z.of_nat i)
  else Z.testbit b (7 - Z.of_nat (i - length l * 8)).
Proof.
  rewrite length_app /=. intros Hi. rewrite !is_set_bit /=; [lia..|].
  pose proof (Z_div_mod_eq_full (Z.of_nat i) 8). pose proof (Z.mod_pos_bound (Z.of_nat i) 8 ltac:(lia)).
  case_decide.
  - rewrite lookup_app_l //. lia.
  - assert (Z.of_nat i / 8 = Z.of_nat (length l)) as -> by lia.
    rewrite Nat2Z.id list_lookup_middle //=. f_equal. lia.
Qed.

Lemma length_filter_bool {A} (f : A → bool) (l : list A) :
  length (filter (λ x, f x = true) l) = sum_list ((λ x, Nat.b2n (f x)) <$> l).
Proof.
  induction l as [|x l IH]; [done|]. rewrite filter_cons fmap_cons.
  destruct (f x) eqn:Hf; simpl; by rewrite IH.
Qed.

Lemma count_ones_iter self : bv_wf self → count_ones self = length (iter_ones self).
Proof.
  destruct self as [l]. intros [Hlen _]. simpl in Hlen. rewrite /count_ones /iter_ones /=.
  induction l as [|b l IH] using rev_ind; [done|].
  rewrite length_app /= in Hlen. rewrite fmap_app sum_list_with_app /= IH; [lia|].
  rewrite length_app Nat.mul_add_distr_r seq_app filter_app length_app Nat.add_0_r. f_equal.
  - f_equal. apply list_filter_ext. intros i [_ Hi]%elem_of_seq.
    assert (wrap 16 (Z.of_nat i) = Z.of_nat i) as ->.
    { rewrite /wrap Z.mod_small //. rewrite /MAX_BUCKETS in Hlen. lia. }
    rewrite is_set_snoc; [by rewrite length_app /=; lia|]. by rewrite decide_True; [lia|].
  - rewrite -(Nat.add_0_r (0 + length l * 8)) -fmap_add_seq /u8_count_ones !length_filter_bool -list_fmap_compose.
    transitivity (sum_list ((λ i, Nat.b2n (Z.testbit b (7 - Z.of_nat i))) <$> seq 0 8)); [simpl; lia|].
    f_equal. apply list_fmap_ext. intros k i [-> Hk]%lookup_seq. simpl in Hk |- *.
    rewrite /wrap Z.mod_small; [by rewrite /MAX_BUCKETS in Hlen; lia|].
    rewrite is_set_snoc; [by rewrite length_app /=; lia|].
    rewrite decide_False; [lia|]. do 2 f_equal. lia.
Qed.

(** A bit vector is a set of positions.  Setting a position adds exactly that
    one, [&] and [|] are intersection and union, [iter_ones] enumerates the set
    without repetition and [count_ones] is its size, and [last_set_bit] is its
    maximum, for every vector the constructors and the deserialiser can produce. *)
Theorem bitvec_is_a_set (self other : BitVec) :
  bv_wf self →
  (∀ p q, u16 p → u16 q → is_set (set self p) q = (p =? q) || is_set self q) ∧
  (∀ p, u16 p → is_set (bitand self other) p = is_set self p && is_set other p) ∧
  (∀ p, u16 p → is_set (bitor self other) p = is_set self p || is_set other p) ∧
  (∀ i, i ∈ iter_ones self ↔ is_set self (Z.of_nat i) = true) ∧
  NoDup (iter_ones self) ∧ count_ones self = length (iter_ones self) ∧
  match last_set_bit self with
  | None => iter_ones self = []
  | Some p => u16 p ∧ is_set self p = true ∧ ∀ i, i ∈ iter_ones self → Z.of_nat i ≤ p
  end.
Proof.
  intros Hwf. split_and!.
  - intros p q [? _] [? _]. by apply is_set_set.
  - intros p [? _]. by apply is_set_bitand.
  - intros p [? _]. by apply is_set_bitor.
  - intros i. apply iter_ones_spec, Hwf.
  - apply NoDup_iter_ones.
  - by apply count_ones_iter.
  - pose proof (last_set_bit_spec self Hwf) as Hl. destruct (last_set_bit self) as [p|].
    + destruct Hl as (? & ? & Hmax). split_and!; [done..|]. intros i Hi%iter_ones_spec; [|apply Hwf].
      destruct (decide (Z.of_nat i ≤ p)); [done|]. rewrite Hmax in Hi; [lia|done].
    + apply elem_of_nil_inv. intros i Hi%iter_ones_spec; [|apply Hwf]. rewrite Hl in Hi; [lia|done].
Qed.

Lemma bitvec_is_a_set_witness :
  iter_ones (mkBitVec [16; 1]) = [3; 15]%nat ∧ count_ones (mkBitVec [16; 1]) = 2%nat ∧
  is_set (set (mkBitVec [16; 1]) 9) 9 = true.
Proof.
  destruct (bitvec_is_a_set (mkBitVec [16; 1]) BitVec_default) as (Hset & _ & _ & _ & _ & Hc & _).
  - split; [vm_compute; lia|]. repeat constructor; lia.
  - split_and!; [vm_compute; reflexivity|by rewrite Hc; vm_compute|].
    rewrite Hset; [split; lia..|done].
Defined.
