(* ===== verification/ValidatorVerifier.v ===== *)
(** * Validator sets and quorums

    Models [types/src/validator_verifier.rs] and [types/src/aggregate_signature.rs]:
    the validators of an epoch with their voting powers, the quorum threshold, and
    the verification of aggregated signatures.  The BLS scheme itself (a binding to
    the [blst] library) is a parameter. *)
From S2P Require Import Prelude BitVec.
Local Open Scope Z_scope.

(** ** Parameters: opaque data and the signature scheme *)

Class ConsensusTypes : Type := {
  AccountAddress : Type;
  address_eq_dec :: EqDecision AccountAddress;
  address_countable :: Countable AccountAddress;
  address_order :: KeyOrder AccountAddress;
  HashValue : Type;
  hash_eq_dec :: EqDecision HashValue;
  PublicKey : Type;
  public_key_eq_dec :: EqDecision PublicKey;
  PrivateKey : Type;
  Signature : Type;
  signature_eq_dec :: EqDecision Signature;
  Payload : Type;
  payload_eq_dec :: EqDecision Payload;
}.

(** [bls12381] over the messages [M]: keys, signing (which fails only when the
    message does not serialise), aggregation and verification. *)
Class Bls `{ConsensusTypes} (M : Type) : Type := {
  public_key_of : PrivateKey → PublicKey;
  bls_sign : PrivateKey → M → option Signature;
  bls_aggregate_keys : list PublicKey → option PublicKey;
  bls_aggregate : list Signature → option Signature;
  bls_verify : Signature → M → PublicKey → bool;
  bls_verify_aggregate : Signature → list M → list PublicKey → bool;
}.

(** Arithmetic on [u128] with overflow checks. *)
Definition checked_u128 (x : Z) : comp Z := if x <? 2 ^ 128 then Ret x else Panic.

(** ** Aggregated signatures *)

Section verifier.
Context `{CT : ConsensusTypes}.

Record AggregateSignature : Type := mkAggregateSignature {
  validator_bitmask : BitVec;
  sig : option Signature;
}.

#[global] Instance AggregateSignature_eq_dec : EqDecision AggregateSignature.
Proof. solve_decision. Defined.

Definition AggregateSignature_empty : AggregateSignature := mkAggregateSignature BitVec_default None.

Definition get_num_voters (self : AggregateSignature) : nat := count_ones (validator_bitmask self).

Definition get_voter_addresses (self : AggregateSignature)
    (validator_addresses : list AccountAddress) : list AccountAddress :=
  omap (λ '(index, addr),
          if is_set (validator_bitmask self) (wrap 16 (Z.of_nat index)) then Some addr else None)
       (imap pair validator_addresses).

(** ** The verifier *)

Inductive VerifyError : Type :=
  | UnknownAuthor
  | TooLittleVotingPower (voting_power expected_voting_power : Z)
  | EmptySignature
  | InvalidMultiSignature
  | InvalidAggregatedSignature
  | FailedToAggregatePubKey
  | FailedToAggregateSignature
  | InvalidBitVec.

Record ValidatorConsensusInfo : Type := mkValidatorConsensusInfo {
  address : AccountAddress;
  public_key : PublicKey;
  voting_power : Z;
}.

#[global] Instance ValidatorConsensusInfo_eq_dec : EqDecision ValidatorConsensusInfo.
Proof. solve_decision. Defined.

Record ValidatorVerifier : Type := mkValidatorVerifier {
  validator_infos : list ValidatorConsensusInfo;
  quorum_voting_power : Z;
  total_voting_power : Z;
  address_to_validator_index : gmap AccountAddress nat;
}.

#[global] Instance ValidatorVerifier_eq_dec : EqDecision ValidatorVerifier.
Proof. solve_decision. Defined.

Fixpoint sum_voting_power (infos : list ValidatorConsensusInfo) (sum : Z) : comp Z :=
  match infos with
  | [] => Ret sum
  | x :: rest => sum' ← checked_u128 (sum + voting_power x); sum_voting_power rest sum'
  end.

Definition index_of (infos : list ValidatorConsensusInfo) : gmap AccountAddress nat :=
  foldl (λ m '(index, info), <[address info := index]> m) ∅ (imap pair infos).

Definition build_index (infos : list ValidatorConsensusInfo) (quorum total : Z) : ValidatorVerifier :=
  mkValidatorVerifier infos quorum total (index_of infos).

Definition ValidatorVerifier_new (infos : list ValidatorConsensusInfo) : comp ValidatorVerifier :=
  total ← sum_voting_power infos 0;
  quorum ← match infos with
           | [] => Ret 0
           | _ => twice ← checked_u128 (total * 2); checked_u128 (twice / 3 + 1)
           end;
  Ret (build_index infos quorum total).

Definition len (self : ValidatorVerifier) : nat := length (validator_infos self).

Definition get_public_key (self : ValidatorVerifier) (author : AccountAddress) : comp (option PublicKey) :=
  match address_to_validator_index self !! author with
  | None => Ret None
  | Some index => info ← expect (validator_infos self !! index); Ret (Some (public_key info))
  end.

Definition get_voting_power (self : ValidatorVerifier) (author : AccountAddress) : comp (option Z) :=
  match address_to_validator_index self !! author with
  | None => Ret None
  | Some index => info ← expect (validator_infos self !! index); Ret (Some (voting_power info))
  end.

Definition get_ordered_account_addresses (self : ValidatorVerifier) : list AccountAddress :=
  address <$> validator_infos self.

Fixpoint add_voting_power (self : ValidatorVerifier) (authors : list AccountAddress) (acc : Z) :
    comp (result VerifyError Z) :=
  match authors with
  | [] => Ret (Ok acc)
  | a :: rest =>
      p ← get_voting_power self a;
      match p with
      | Some voting_power => acc' ← checked_u128 (acc + voting_power); add_voting_power self rest acc'
      | None => Ret (Err UnknownAuthor)
      end
  end.

Definition check_voting_power (self : ValidatorVerifier) (authors : list AccountAddress) :
    comp (result VerifyError unit) :=
  r ← add_voting_power self authors 0;
  try r (λ aggregated_voting_power,
    if aggregated_voting_power <? quorum_voting_power self
    then Ret (Err (TooLittleVotingPower aggregated_voting_power (quorum_voting_power self)))
    else Ret (Ok tt)).

Definition check_num_of_voters (num_validators : Z) (bitvec : BitVec) : result VerifyError unit :=
  if decide (num_buckets bitvec ≠ required_buckets num_validators) then Err InvalidBitVec else
  match last_set_bit bitvec with
  | Some last_bit => if last_bit >=? num_validators then Err InvalidBitVec else Ok tt
  | None => Ok tt
  end.

(** The loop over [iter_ones] that collects authors and keys. *)
Fixpoint collect_voters (self : ValidatorVerifier) (ones : list nat) :
    result VerifyError (list (AccountAddress * PublicKey)) :=
  match ones with
  | [] => Ok []
  | index :: rest =>
      match validator_infos self !! index with
      | None => Err UnknownAuthor
      | Some info => vs ← collect_voters self rest; Ok ((address info, public_key info) :: vs)
      end
  end.

Context {M : Type} `{!Bls M}.

Definition verify (self : ValidatorVerifier) (author : AccountAddress) (message : M)
    (signature : Signature) : comp (result VerifyError unit) :=
  k ← get_public_key self author;
  match k with
  | Some public_key =>
      Ret (if bls_verify signature message public_key then Ok tt else Err InvalidMultiSignature)
  | None => Ret (Err UnknownAuthor)
  end.

Definition verify_multi_signatures (self : ValidatorVerifier) (message : M)
    (multi_signature : AggregateSignature) : comp (result VerifyError unit) :=
  let bitvec := validator_bitmask multi_signature in
  try (check_num_of_voters (wrap 16 (Z.of_nat (len self))) bitvec) (λ _,
  try (collect_voters self (iter_ones bitvec)) (λ voters,
  r ← check_voting_power self voters.*1;
  try r (λ _,
  match sig multi_signature with
  | None => Ret (Err EmptySignature)
  | Some multi_sig =>
      match bls_aggregate_keys voters.*2 with
      | None => Ret (Err FailedToAggregatePubKey)
      | Some aggregated_key =>
          Ret (if bls_verify multi_sig message aggregated_key then Ok tt else Err InvalidMultiSignature)
      end
  end))).

Definition verify_aggregate_signatures (self : ValidatorVerifier) (messages : list M)
    (aggregated_signature : AggregateSignature) : comp (result VerifyError unit) :=
  let bitvec := validator_bitmask aggregated_signature in
  try (check_num_of_voters (wrap 16 (Z.of_nat (len self))) bitvec) (λ _,
  try (collect_voters self (iter_ones bitvec)) (λ voters,
  r ← check_voting_power self voters.*1;
  try r (λ _,
  match sig aggregated_signature with
  | None => Ret (Err EmptySignature)
  | Some aggregated_sig =>
      Ret (if bls_verify_aggregate aggregated_sig messages voters.*2 then Ok tt
           else Err InvalidAggregatedSignature)
  end))).

(** The mask and the shares of [aggregate_signatures]. *)
Fixpoint collect_shares (self : ValidatorVerifier) (sigs : list (AccountAddress * Signature))
    (masks : BitVec) : result VerifyError (BitVec * list Signature) :=
  match sigs with
  | [] => Ok (masks, [])
  | (addr, s) :: rest =>
      match address_to_validator_index self !! addr with
      | None => Err UnknownAuthor
      | Some index =>
          r ← collect_shares self rest (set masks (wrap 16 (Z.of_nat index)));
          Ok (r.1, s :: r.2)
      end
  end.

Definition aggregate_signatures (self : ValidatorVerifier)
    (partial_signatures : gmap AccountAddress Signature) : result VerifyError AggregateSignature :=
  r ← collect_shares self (btree_iter partial_signatures)
        (with_num_bits (wrap 16 (Z.of_nat (len self))));
  match bls_aggregate r.2 with
  | None => Err FailedToAggregateSignature
  | Some aggregated_sig => Ok (mkAggregateSignature r.1 (Some aggregated_sig))
  end.

End verifier.

(** ** Voting power of a set of addresses *)

Section power.
Context `{CT : ConsensusTypes}.
Implicit Types (f g : AccountAddress → bool) (infos : list ValidatorConsensusInfo) (V : ValidatorVerifier).

Definition power_of f infos : Z :=
  foldr (λ info acc, (if f (address info) then voting_power info else 0) + acc) 0 infos.

(** What an on-chain validator set provides: distinct addresses, [u64] powers, and
    few enough validators for a 16-bit index. *)
Definition infos_ok infos : Prop :=
  NoDup (address <$> infos) ∧ Forall (λ i, 0 ≤ voting_power i < 2 ^ 64) infos ∧
  Z.of_nat (length infos) < 65536.

Lemma power_of_ext f g infos :
  (∀ info, info ∈ infos → f (address info) = g (address info)) → power_of f infos = power_of g infos.
Proof.
  induction infos as [|x infos IH]; intros Hfg; [done|]. simpl.
  rewrite IH; [by intros; apply Hfg; right|]. by rewrite Hfg; [left|].
Qed.

Lemma power_of_nonneg f infos : Forall (λ i, 0 ≤ voting_power i < 2 ^ 64) infos → 0 ≤ power_of f infos.
Proof. induction 1; simpl; [lia|]. destruct (f _); lia. Qed.

Lemma power_of_mono f g infos :
  Forall (λ i, 0 ≤ voting_power i < 2 ^ 64) infos → (∀ a, f a = true → g a = true) →
  power_of f infos ≤ power_of g infos.
Proof.
  intros Hp Hfg. induction Hp as [|x infos Hx _ IH]; simpl; [lia|].
  destruct (f (address x)) eqn:Hf; [rewrite (Hfg _ Hf); lia|]. destruct (g (address x)); lia.
Qed.

Lemma power_of_or_and f g infos :
  power_of f infos + power_of g infos =
  power_of (λ a, f a || g a) infos + power_of (λ a, f a && g a) infos.
Proof. induction infos as [|x infos IH]; simpl; [lia|]. destruct (f _), (g _); simpl; lia. Qed.

Lemma power_of_none f infos :
  (∀ info, info ∈ infos → f (address info) = false) → power_of f infos = 0.
Proof.
  intros Hf. rewrite (power_of_ext f (λ _, false)) //. clear Hf. induction infos; simpl; lia.
Qed.

Lemma power_of_one infos i info :
  NoDup (address <$> infos) → infos !! i = Some info →
  power_of (λ a, bool_decide (a = address info)) infos = voting_power info.
Proof.
  revert i. induction infos as [|x infos IH]; intros i Hnd Hi; [done|]. simpl in Hnd |- *.
  apply NoDup_cons in Hnd as [Hx Hnd]. destruct i as [|i]; simpl in Hi.
  - injection Hi as ->. rewrite bool_decide_eq_true_2 // power_of_none; [|lia].
    intros y Hy. apply bool_decide_eq_false_2. intros Heq. apply Hx. rewrite -Heq.
    by apply list_elem_of_fmap_2.
  - rewrite bool_decide_eq_false_2; [|by rewrite (IH i)].
    intros Heq. apply Hx. rewrite Heq. apply list_elem_of_fmap_2. by eapply list_elem_of_lookup_2.
Qed.

Lemma index_of_lookup infos a i :
  index_of infos !! a = Some i → ∃ info, infos !! i = Some info ∧ address info = a.
Proof.
  rewrite /index_of. induction infos as [|x infos IH] using rev_ind; [done|].
  rewrite imap_app /= foldl_app /= Nat.add_0_r. intros [[<- <-]|[_ Hi]]%lookup_insert_Some.
  - exists x. by rewrite list_lookup_middle.
  - destruct (IH Hi) as (info & ? & ?). exists info. split; [|done]. by apply lookup_app_l_Some.
Qed.

Lemma index_of_total infos info : info ∈ infos → is_Some (index_of infos !! address info).
Proof.
  rewrite /index_of. induction infos as [|x infos IH] using rev_ind; [by intros ?%elem_of_nil|].
  rewrite imap_app /= foldl_app /= elem_of_app list_elem_of_singleton. intros Hin.
  destruct (decide (address x = address info)) as [Heq|Hne]; [rewrite Heq lookup_insert_eq; by eexists|].
  rewrite lookup_insert_ne //. apply IH. destruct Hin as [?| ->]; done.
Qed.

(** Verifiers built by the constructors. *)
Definition verifier_ok V : Prop :=
  infos_ok (validator_infos V) ∧ address_to_validator_index V = index_of (validator_infos V) ∧
  total_voting_power V = power_of (λ _, true) (validator_infos V) ∧
  quorum_voting_power V = (if decide (validator_infos V = []) then 0 else total_voting_power V * 2 / 3 + 1).

Lemma sum_voting_power_spec infos acc t :
  sum_voting_power infos acc = Ret t → t = acc + power_of (λ _, true) infos.
Proof.
  revert acc. induction infos as [|x infos IH]; intros acc; simpl; [intros [= <-]; lia|].
  rewrite /checked_u128. case_match; [|done]. simpl. intros ->%IH. lia.
Qed.

Lemma ValidatorVerifier_new_ok infos V :
  infos_ok infos → ValidatorVerifier_new infos = Ret V → verifier_ok V ∧ validator_infos V = infos.
Proof.
  intros Hok Hv. rewrite /ValidatorVerifier_new in Hv. returned Hv. injection Hv as <-.
  apply sum_voting_power_spec in Hr. split; [|done]. split_and!; [done|done|simpl; lia|]. simpl.
  destruct infos as [|x infos]; [by injection Hr0 as <-|].
  rewrite /checked_u128 in Hr0. simpl in Hr0. case_match; [|done]. simpl in Hr0. case_match; [|done].
  by injection Hr0 as <-.
Qed.

Lemma add_voting_power_spec V authors acc p :
  verifier_ok V → NoDup authors → add_voting_power V authors acc = Ret (Ok p) →
  p = acc + power_of (λ a, bool_decide (a ∈ authors)) (validator_infos V) ∧
  ∀ a, a ∈ authors → a ∈ address <$> validator_infos V.
Proof.
  intros (Hok & Hidx & _) Hnd. revert acc. induction Hnd as [|a authors Ha Hnd IH]; intros acc; simpl.
  { intros [= <-]. rewrite power_of_none; [done|].
    split; [lia|]. by intros a ?%elem_of_nil. }
  rewrite /get_voting_power Hidx. destruct (index_of _ !! a) as [i|] eqn:Hi; simpl; [|done].
  apply index_of_lookup in Hi as (info & Hi & <-). rewrite Hi /= /checked_u128. case_match; [|done].
  simpl. intros [-> Hall]%IH. split.
  - rewrite (power_of_ext (λ b, bool_decide (b ∈ address info :: authors))
      (λ b, bool_decide (b = address info) || bool_decide (b ∈ authors))).
    { intros y _. rewrite -bool_decide_or. apply bool_decide_ext, elem_of_cons. }
    pose proof (power_of_or_and (λ b, bool_decide (b = address info)) (λ b, bool_decide (b ∈ authors))
      (validator_infos V)) as Hoa. cbv beta in Hoa.
    rewrite (power_of_one _ i) // in Hoa; [by apply Hok|].
    rewrite (power_of_none (λ a, bool_decide (a = address info) && _)) in Hoa; [|lia].
    intros y _. destruct (bool_decide_reflect (address y = address info)) as [->|]; [|done].
    by apply bool_decide_eq_false_2.
  - intros b [->|?]%elem_of_cons; [|by apply Hall]. apply list_elem_of_fmap_2.
    by eapply list_elem_of_lookup_2.
Qed.

(** ** Quorums *)

Definition is_quorum V (Q : list AccountAddress) : Prop :=
  quorum_voting_power V ≤ power_of (λ a, bool_decide (a ∈ Q)) (validator_infos V).

(** At most a third of the voting power is faulty. *)
Definition mostly_honest V (faulty : AccountAddress → bool) : Prop :=
  validator_infos V ≠ [] ∧ 3 * power_of faulty (validator_infos V) ≤ total_voting_power V.

Lemma quorums_meet V Q1 Q2 faulty :
  verifier_ok V → mostly_honest V faulty → is_quorum V Q1 → is_quorum V Q2 →
  ∃ a, a ∈ Q1 ∧ a ∈ Q2 ∧ faulty a = false.
Proof.
  intros (Hok & _ & Ht & Hq) [Hne Hf] H1 H2. rewrite decide_False // in Hq.
  destruct (decide (Exists (λ info, address info ∈ Q1 ∧ address info ∈ Q2 ∧ faulty (address info) = false)
    (validator_infos V))) as [(info & _ & ? & ? & ?)%Exists_exists|Hno]; [by eauto|exfalso].
  pose proof (power_of_or_and (λ a, bool_decide (a ∈ Q1)) (λ a, bool_decide (a ∈ Q2)) (validator_infos V)) as Hoa. cbv beta in Hoa.
  pose proof (power_of_mono (λ a, bool_decide (a ∈ Q1) || bool_decide (a ∈ Q2)) (λ _, true) _ (proj1 (proj2 Hok)) (λ _ _, eq_refl)) as Hor.
  assert (power_of (λ a, bool_decide (a ∈ Q1) && bool_decide (a ∈ Q2)) (validator_infos V) ≤
          power_of faulty (validator_infos V)) as Hand.
  { rewrite (power_of_ext (λ a, bool_decide (a ∈ Q1) && bool_decide (a ∈ Q2))
      (λ a, bool_decide (a ∈ Q1) && bool_decide (a ∈ Q2) && faulty a)).
    - intros info Hin. destruct (faulty (address info)) eqn:Hfa; [by rewrite andb_true_r|].
      rewrite andb_false_r. apply not_true_iff_false. intros [?%bool_decide_eq_true ?%bool_decide_eq_true]%andb_true_iff.
      apply Hno, Exists_exists. by exists info.
    - apply power_of_mono; [apply Hok|]. by intros a [_ ?]%andb_true_iff. }
  rewrite /is_quorum Hq in H1, H2. rewrite -Ht in Hor.
  pose proof (Z_div_mod_eq_full (total_voting_power V * 2) 3).
  pose proof (Z.mod_pos_bound (total_voting_power V * 2) 3 ltac:(lia)). lia.
Qed.

Lemma quorum_honest V Q faulty :
  verifier_ok V → mostly_honest V faulty → is_quorum V Q → ∃ a, a ∈ Q ∧ faulty a = false.
Proof. intros Hok Hm HQ. destruct (quorums_meet V Q Q faulty) as (a & ? & _ & ?); eauto. Qed.

(** ** Voters of an aggregated signature *)

Lemma collect_voters_spec V ones vs :
  collect_voters V ones = Ok vs →
  vs.*1 = omap (λ i, address <$> validator_infos V !! i) ones ∧
  vs.*2 = omap (λ i, public_key <$> validator_infos V !! i) ones ∧ length vs = length ones ∧
  ∀ i, i ∈ ones → (i < length (validator_infos V))%nat.
Proof.
  revert vs. induction ones as [|i ones IH]; intros vs; csimpl.
  { intros [= <-]. split_and!; try done. by intros i ?%elem_of_nil. }
  destruct (validator_infos V !! i) as [info|] eqn:Hi; [|done]. csimpl.
  destruct (collect_voters V ones) as [vs'|] eqn:Hvs; simpl; [|done]. intros [= <-].
  destruct (IH vs' eq_refl) as (IH1 & IH2 & IH3 & IH4). csimpl. rewrite IH1 IH2 IH3. split_and!; [done..|].
  intros j [->|?]%elem_of_cons; [by eapply lookup_lt_Some|by apply IH4].
Qed.

Lemma NoDup_voters V ones vs :
  infos_ok (validator_infos V) → NoDup ones → collect_voters V ones = Ok vs → NoDup vs.*1.
Proof.
  intros (Hnd & _) Hones Hvs. apply collect_voters_spec in Hvs as (-> & _).
  induction Hones as [|i ones Hi _ IH]; csimpl; [constructor|].
  destruct (validator_infos V !! i) as [info|] eqn:Hinfo; csimpl; [|done]. constructor; [|done].
  intros (j & Hj & Hsome)%list_elem_of_omap. destruct (validator_infos V !! j) as [info'|] eqn:Hj'; [|done].
  simpl in Hsome. injection Hsome as Heq. apply Hi.
  assert (j = i) as ->; [|done]. eapply (NoDup_lookup _ j i (address info) Hnd);
    rewrite list_lookup_fmap ?Hj' ?Hinfo //=. by rewrite Heq.
Qed.

Lemma omap_seq_imap {A} (P : nat → bool) (l : list A) k n :
  (length l ≤ n)%nat →
  omap (λ i, if P i then l !! (i - k)%nat else None) (seq k n) =
  omap (λ '(i, a), if P i then Some a else None) (imap (λ i a, ((k + i)%nat, a)) l).
Proof.
  revert k n. induction l as [|x l IH]; intros k n Hn.
  { simpl. generalize (seq k n). intros s. induction s as [|i s IHs]; csimpl; [done|]. by destruct (P i). }
  destruct n as [|n]; simpl in Hn; [lia|]. csimpl. rewrite Nat.sub_diag Nat.add_0_r.
  rewrite -(imap_ext (λ i a, ((S k + i)%nat, a))); [by intros; rewrite /= Nat.add_succ_r|].
  rewrite -(IH (S k) n); [lia|].
  assert (omap (λ i, if P i then (x :: l) !! (i - k)%nat else None) (seq (S k) n) =
          omap (λ i, if P i then l !! (i - S k)%nat else None) (seq (S k) n)) as ->; [|by destruct (P k)].
  apply list_omap_ext. apply Forall2_same_length_lookup_2; [done|].
  intros j a b Ha Hb. simplify_eq. apply lookup_seq in Ha as [-> _].
  by replace (S k + j - k)%nat with (S (S k + j - S k)) by lia.
Qed.

Lemma check_num_of_voters_len V bv :
  infos_ok (validator_infos V) → check_num_of_voters (wrap 16 (Z.of_nat (len V))) bv = Ok tt →
  (length (inner bv) ≤ MAX_BUCKETS)%nat.
Proof.
  intros (_ & _ & Hlt). rewrite /check_num_of_voters /wrap Z.mod_small; [by rewrite /len; lia|].
  case_decide as Hb; [done|]. intros _. rewrite /num_buckets in Hb.
  rewrite Hb /required_buckets /MAX_BUCKETS /BUCKET_SIZE.
  destruct (Z.eqb_spec (Z.of_nat (len V)) 0); [lia|].
  assert (0 ≤ (Z.of_nat (len V) - 1) / 8) by (apply Z.div_pos; lia).
  assert ((Z.of_nat (len V) - 1) / 8 < 8192); [|lia]. apply Z.div_lt_upper_bound; rewrite /len; lia.
Qed.

(** The voters that [iter_ones] names are those of [get_voter_addresses]. *)
Lemma get_voter_addresses_collect V s vs :
  infos_ok (validator_infos V) →
  check_num_of_voters (wrap 16 (Z.of_nat (len V))) (validator_bitmask s) = Ok tt →
  collect_voters V (iter_ones (validator_bitmask s)) = Ok vs →
  get_voter_addresses s (get_ordered_account_addresses V) = vs.*1.
Proof.
  intros Hok Hnum Hvs. pose proof (check_num_of_voters_len _ _ Hok Hnum) as Hlen.
  destruct (collect_voters_spec _ _ _ Hvs) as (-> & _ & _ & Hlt).
  rewrite /get_voter_addresses /get_ordered_account_addresses.
  set P := λ i, is_set (validator_bitmask s) (wrap 16 (Z.of_nat i)).
  set n := (length (inner (validator_bitmask s)) * 8)%nat. set N := (n `max` len V)%nat.
  rewrite -(imap_ext (λ i a, ((0 + i)%nat, a))) // -(omap_seq_imap P _ 0 N); [by rewrite length_fmap /N /len; lia|].
  assert (Hfil : iter_ones (validator_bitmask s) = filter (λ i, P i = true) (seq 0 N)).
  { rewrite /iter_ones. fold n. assert (N = (n + (N - n))%nat) as -> by lia.
    rewrite seq_app filter_app. rewrite (list_filter_ext (λ i, P i = true) (λ _, False) (seq (0 + n) (N - n))).
    - intros i [Hge Hi]%elem_of_seq. split; [|done]. intros Hp.
      destruct Hok as (_ & _ & Hlt'). rewrite /P /wrap Z.mod_small in Hp; [rewrite /N /n /len /MAX_BUCKETS in Hi, Hlen; lia|].
      apply iter_ones_spec in Hp; [|done]. rewrite /iter_ones list_elem_of_filter elem_of_seq in Hp. lia.
    - assert (∀ l : list nat, filter (λ _, False) l = []) as -> by (by induction l).
      by rewrite app_nil_r. }
  rewrite Hfil. generalize (seq 0 N). intros l. induction l as [|i l IH]; csimpl; [done|].
  rewrite filter_cons. destruct (P i); csimpl; rewrite ?Nat.sub_0_r ?list_lookup_fmap IH //.
Qed.

Lemma voters_checked V s vs :
  verifier_ok V →
  check_num_of_voters (wrap 16 (Z.of_nat (len V))) (validator_bitmask s) = Ok tt →
  collect_voters V (iter_ones (validator_bitmask s)) = Ok vs →
  check_voting_power V vs.*1 = Ret (Ok tt) →
  NoDup vs.*1 ∧ is_quorum V vs.*1 ∧ vs.*1 = get_voter_addresses s (get_ordered_account_addresses V).
Proof.
  intros Hok Hnum Hvs Hp. pose proof (NoDup_voters _ _ _ (proj1 Hok) (NoDup_iter_ones _) Hvs) as Hnd.
  split; [done|split].
  - rewrite /check_voting_power in Hp. returned Hp. destruct r as [p|]; [|done].
    apply add_voting_power_spec in Hr as [-> _]; [|done..]. simpl in Hp.
    destruct (_ <? _) eqn:Hq; [done|]. by apply Z.ltb_ge in Hq.
  - symmetry. apply get_voter_addresses_collect; [apply Hok|done..].
Qed.

Context {M : Type} `{!Bls M}.

(** What a successful verification means. *)
Lemma verify_multi_signatures_Ok V (m : M) s :
  verifier_ok V → verify_multi_signatures V m s = Ret (Ok tt) →
  ∃ vs σ pk,
    collect_voters V (iter_ones (validator_bitmask s)) = Ok vs ∧ sig s = Some σ ∧
    bls_aggregate_keys vs.*2 = Some pk ∧ bls_verify σ m pk = true ∧ NoDup vs.*1 ∧ is_quorum V vs.*1 ∧
    vs.*1 = get_voter_addresses s (get_ordered_account_addresses V).
Proof.
  intros Hok. rewrite /verify_multi_signatures. destruct (check_num_of_voters _ _) as [[]|] eqn:Hnum; [|done].
  destruct (collect_voters _ _) as [vs|] eqn:Hvs; simpl; [|done].
  destruct (check_voting_power _ _) as [[[]|]|] eqn:Hp; simpl; [|done..].
  destruct (sig s) as [σ|]; [|done]. destruct (bls_aggregate_keys _) as [pk|] eqn:Hagg; [|done].
  destruct (bls_verify σ m pk) eqn:Hb; [|done]. intros _. exists vs, σ, pk.
  destruct (voters_checked V s vs) as (? & ? & ?); [done..|]. split_and!; done.
Qed.

Lemma verify_aggregate_signatures_Ok V (ms : list M) s :
  verifier_ok V → verify_aggregate_signatures V ms s = Ret (Ok tt) →
  ∃ vs σ,
    collect_voters V (iter_ones (validator_bitmask s)) = Ok vs ∧ sig s = Some σ ∧
    bls_verify_aggregate σ ms vs.*2 = true ∧ NoDup vs.*1 ∧ is_quorum V vs.*1 ∧
    vs.*1 = get_voter_addresses s (get_ordered_account_addresses V).
Proof.
  intros Hok. rewrite /verify_aggregate_signatures. destruct (check_num_of_voters _ _) as [[]|] eqn:Hnum; [|done].
  destruct (collect_voters _ _) as [vs|] eqn:Hvs; simpl; [|done].
  destruct (check_voting_power _ _) as [[[]|]|] eqn:Hp; simpl; [|done..].
  destruct (sig s) as [σ|]; [|done]. destruct (bls_verify_aggregate _ _ _) eqn:Hb; [|done].
  intros _. exists vs, σ. destruct (voters_checked V s vs) as (? & ? & ?); [done..|]. split_and!; done.
Qed.

(** Quorums intersect in an honest validator.  Two multi-signatures that pass
    [verify_multi_signatures] under a verifier built by [new], whatever their
    messages, have a voter in common that is not faulty, as long as the faulty
    validators hold at most a third of the total voting power. *)
Theorem quorum_intersection infos V (m1 m2 : M) s1 s2 faulty :
  infos_ok infos → infos ≠ [] → ValidatorVerifier_new infos = Ret V →
  3 * power_of faulty infos ≤ power_of (λ _, true) infos →
  verify_multi_signatures V m1 s1 = Ret (Ok tt) → verify_multi_signatures V m2 s2 = Ret (Ok tt) →
  ∃ a, faulty a = false ∧
    a ∈ get_voter_addresses s1 (get_ordered_account_addresses V) ∧
    a ∈ get_voter_addresses s2 (get_ordered_account_addresses V).
Proof.
  intros Hok Hne Hv Hf H1 H2. destruct (ValidatorVerifier_new_ok _ _ Hok Hv) as [HV Hinfos].
  destruct (verify_multi_signatures_Ok _ _ _ HV H1) as (vs1 & _ & _ & _ & _ & _ & _ & _ & Hq1 & <-).
  destruct (verify_multi_signatures_Ok _ _ _ HV H2) as (vs2 & _ & _ & _ & _ & _ & _ & _ & Hq2 & <-).
  destruct (quorums_meet V vs1.*1 vs2.*1 faulty) as (a & ? & ? & ?); [done| |done..|by eauto].
  split; [by rewrite Hinfos|]. destruct HV as (_ & _ & -> & _). by rewrite Hinfos.
Qed.
End power.
