(* ===== verification/ConsensusData.v ===== *)
(** * Blocks, votes and certificates

    Models the data of [consensus/consensus-types] and [types/src/block_info.rs],
    [ledger_info.rs] with their self-contained checks: block infos, vote data, ledger
    infos, quorum certificates, blocks and proposals, timeouts and timeout
    certificates, votes.  Hashing is a parameter. *)
From stdpp Require Import strings.
From S2P Require Import Prelude Accumulator AccumulatorProof BitVec ValidatorVerifier.
Local Open Scope string_scope.
Local Open Scope Z_scope.

Abbreviation Round := Z (only parsing).

(** Failures of [ensure!] and of the verifier, as [anyhow] carries them. *)
Inductive anyhow : Type :=
  | Message (s : string)
  | Verify (e : VerifyError).

(** [ensure!(b, "..")?; k]. *)
Definition ensure {T} (b : bool) (s : string) (k : comp (result anyhow T)) : comp (result anyhow T) :=
  if b then k else Ret (Err (Message s)).

(** Checked [u64] addition. *)
Definition add_u64 (x y : Z) : comp Z := if x + y <? 2 ^ 64 then Ret (x + y) else Panic.

Section data.
Context `{CT : ConsensusTypes}.

Record EpochState : Type := mkEpochState {
  es_epoch : Z;
  es_verifier : ValidatorVerifier;
}.

#[global] Instance EpochState_eq_dec : EqDecision EpochState.
Proof. solve_decision. Defined.

(** ** Block infos *)

Record BlockInfo : Type := mkBlockInfo {
  bi_epoch : Z;
  bi_round : Round;
  bi_id : HashValue;
  executed_state_id : HashValue;
  bi_version : Z;
  bi_timestamp_usecs : Z;
  next_epoch_state : option EpochState;
}.

#[global] Instance BlockInfo_eq_dec : EqDecision BlockInfo.
Proof. solve_decision. Defined.

Definition has_reconfiguration (self : BlockInfo) : bool := bool_decide (is_Some (next_epoch_state self)).

Definition match_ordered_only (self executed_block_info : BlockInfo) : bool :=
  bool_decide (bi_epoch self = bi_epoch executed_block_info) &&
  bool_decide (bi_round self = bi_round executed_block_info) &&
  bool_decide (bi_id self = bi_id executed_block_info) &&
  (bool_decide (bi_timestamp_usecs self = bi_timestamp_usecs executed_block_info) ||
   ((bi_timestamp_usecs self >? bi_timestamp_usecs executed_block_info) &&
    has_reconfiguration executed_block_info)).

(** ** Vote data and ledger infos *)

Record VoteData : Type := mkVoteData {
  proposed : BlockInfo;
  parent : BlockInfo;
}.

#[global] Instance VoteData_eq_dec : EqDecision VoteData.
Proof. solve_decision. Defined.

Definition VoteData_verify (self : VoteData) : comp (result anyhow unit) :=
  ensure (bool_decide (bi_epoch (parent self) = bi_epoch (proposed self)))
    "Parent and proposed epochs do not match" $
  ensure (bi_round (parent self) <? bi_round (proposed self))
    "Proposed round is less than parent round" $
  ensure (bi_timestamp_usecs (parent self) <=? bi_timestamp_usecs (proposed self))
    "Proposed happened before parent" $
  ensure ((bi_version (proposed self) =? 0) || (bi_version (parent self) <=? bi_version (proposed self)))
    "Proposed version is less than parent version" $
  Ret (Ok tt).

Record LedgerInfo : Type := mkLedgerInfo {
  commit_info : BlockInfo;
  consensus_data_hash : HashValue;
}.

#[global] Instance LedgerInfo_eq_dec : EqDecision LedgerInfo.
Proof. solve_decision. Defined.

Definition ends_epoch (self : LedgerInfo) : bool := bool_decide (is_Some (next_epoch_state (commit_info self))).

Record LedgerInfoWithSignatures : Type := mkLedgerInfoWithSignatures {
  ledger_info : LedgerInfo;
  signatures : AggregateSignature;
}.

#[global] Instance LedgerInfoWithSignatures_eq_dec : EqDecision LedgerInfoWithSignatures.
Proof. solve_decision. Defined.

(** ** Quorum certificates *)

Record QuorumCert : Type := mkQuorumCert {
  vote_data : VoteData;
  signed_ledger_info : LedgerInfoWithSignatures;
}.

#[global] Instance QuorumCert_eq_dec : EqDecision QuorumCert.
Proof. solve_decision. Defined.

Definition certified_block (self : QuorumCert) : BlockInfo := proposed (vote_data self).
Definition parent_block (self : QuorumCert) : BlockInfo := parent (vote_data self).
Definition qc_commit_info (self : QuorumCert) : BlockInfo :=
  commit_info (ledger_info (signed_ledger_info self)).
Definition qc_ends_epoch (self : QuorumCert) : bool := ends_epoch (ledger_info (signed_ledger_info self)).

(** ** Blocks *)

Inductive BlockType : Type :=
  | Proposal (payload : Payload) (author : AccountAddress) (failed_authors : list (Round * AccountAddress))
  | NilBlock (failed_authors : list (Round * AccountAddress))
  | Genesis.

#[global] Instance BlockType_eq_dec : EqDecision BlockType.
Proof. solve_decision. Defined.

Record BlockData : Type := mkBlockData {
  bd_epoch : Z;
  bd_round : Round;
  bd_timestamp_usecs : Z;
  bd_quorum_cert : QuorumCert;
  block_type : BlockType;
}.

#[global] Instance BlockData_eq_dec : EqDecision BlockData.
Proof. solve_decision. Defined.

Definition bd_author (self : BlockData) : option AccountAddress :=
  match block_type self with Proposal _ author _ => Some author | _ => None end.

Definition bd_payload (self : BlockData) : option Payload :=
  match block_type self with Proposal payload _ _ => Some payload | _ => None end.

Definition is_genesis_block (self : BlockData) : bool :=
  match block_type self with Genesis => true | _ => false end.

Definition is_nil_block (self : BlockData) : bool :=
  match block_type self with NilBlock _ => true | _ => false end.

Definition bd_failed_authors (self : BlockData) : option (list (Round * AccountAddress)) :=
  match block_type self with
  | Proposal _ _ failed_authors => Some failed_authors
  | NilBlock failed_authors => Some failed_authors
  | Genesis => None
  end.

Record Block : Type := mkBlock {
  block_id : HashValue;
  block_data : BlockData;
  block_signature : option Signature;
}.

Definition block_round (self : Block) : Round := bd_round (block_data self).
Definition block_qc (self : Block) : QuorumCert := bd_quorum_cert (block_data self).

Definition gen_block_info (self : Block) (state_id : HashValue) (version : Z)
    (next : option EpochState) : BlockInfo :=
  mkBlockInfo (bd_epoch (block_data self)) (block_round self) (block_id self) state_id version
    (bd_timestamp_usecs (block_data self)) next.

(** ** Timeouts *)

Record TwoChainTimeout : Type := mkTwoChainTimeout {
  to_epoch : Z;
  to_round : Round;
  to_quorum_cert : QuorumCert;
}.

Definition hqc_round (self : TwoChainTimeout) : Round := bi_round (certified_block (to_quorum_cert self)).

Record TimeoutSigningRepr : Type := mkTimeoutSigningRepr {
  tsr_epoch : Z;
  tsr_round : Round;
  tsr_hqc_round : Round;
}.

#[global] Instance TimeoutSigningRepr_eq_dec : EqDecision TimeoutSigningRepr.
Proof. solve_decision. Defined.

Definition signing_format (self : TwoChainTimeout) : TimeoutSigningRepr :=
  mkTimeoutSigningRepr (to_epoch self) (to_round self) (hqc_round self).

Record AggregateSignatureWithRounds : Type := mkAggregateSignatureWithRounds {
  sr_sig : AggregateSignature;
  sr_rounds : list Round;
}.

Definition get_voters_and_rounds (self : AggregateSignatureWithRounds)
    (ordered_validator_addresses : list AccountAddress) : list (AccountAddress * Round) :=
  zip (get_voter_addresses (sr_sig self) ordered_validator_addresses) (sr_rounds self).

Record TwoChainTimeoutCertificate : Type := mkTwoChainTimeoutCertificate {
  tc_timeout : TwoChainTimeout;
  signatures_with_rounds : AggregateSignatureWithRounds;
}.

Definition tc_round (self : TwoChainTimeoutCertificate) : Round := to_round (tc_timeout self).
Definition highest_hqc_round (self : TwoChainTimeoutCertificate) : Round := hqc_round (tc_timeout self).

(** ** Votes *)

Record Vote : Type := mkVote {
  v_vote_data : VoteData;
  v_author : AccountAddress;
  v_ledger_info : LedgerInfo;
  v_signature : Signature;
  two_chain_timeout : option (TwoChainTimeout * Signature);
}.

Definition new_with_signature (vd : VoteData) (author : AccountAddress) (li : LedgerInfo)
    (signature : Signature) : Vote := mkVote vd author li signature None.

(** What validators sign. *)
Inductive Signable : Type :=
  | SLedgerInfo (li : LedgerInfo)
  | STimeout (t : TimeoutSigningRepr)
  | SBlockData (bd : BlockData).

(** The fields of a ledger info that a waypoint commits to. *)
Record Ledger2WaypointConverter : Type := mkLedger2WaypointConverter {
  lw_epoch : Z;
  lw_root_hash : HashValue;
  lw_version : Z;
  lw_timestamp_usecs : Z;
  lw_next_epoch_state : option EpochState;
}.

#[global] Instance Ledger2WaypointConverter_eq_dec : EqDecision Ledger2WaypointConverter.
Proof. solve_decision. Defined.

Definition Ledger2WaypointConverter_new (li : LedgerInfo) : Ledger2WaypointConverter :=
  let info := commit_info li in
  mkLedger2WaypointConverter (bi_epoch info) (executed_state_id info) (bi_version info)
    (bi_timestamp_usecs info) (next_epoch_state info).

End data.

(** Hashing, [TransactionAccumulatorHasher] included, and the part of blocks the model
    does not look into: payloads. *)
Class ConsensusEnv `{ConsensusTypes} : Type := {
  vote_data_hash : VoteData → HashValue;
  block_data_hash : BlockData → HashValue;
  waypoint_hash : Ledger2WaypointConverter → HashValue;
  hash_zero : HashValue;
  TransactionAccumulatorHasher :: MerkleHasher HashValue;
  payload_is_empty : Payload → bool;
}.

Section checks.
Context `{CT : ConsensusTypes, CE : !ConsensusEnv, BL : !Bls Signable}.

Definition BlockInfo_empty : BlockInfo := mkBlockInfo 0 0 hash_zero hash_zero 0 0 None.

Definition is_ordered_only (self : BlockInfo) : bool :=
  bool_decide (self ≠ BlockInfo_empty) && bool_decide (next_epoch_state self = None) &&
  bool_decide (executed_state_id self = ACCUMULATOR_PLACEHOLDER_HASH) && (bi_version self =? 0).

Definition verify_signatures (self : LedgerInfoWithSignatures) (validator : ValidatorVerifier) :
    comp (result VerifyError unit) :=
  verify_multi_signatures validator (SLedgerInfo (ledger_info self)) (signatures self).

(** [r?] on a result of the verifier. *)
Definition try_verify {T} (r : comp (result VerifyError unit)) (k : comp (result anyhow T)) :
    comp (result anyhow T) :=
  x ← r; match x with Ok _ => k | Err e => Ret (Err (Verify e)) end.

(** [r?] on a result that is already an [anyhow] one. *)
Definition then_ {T} (r : comp (result anyhow unit)) (k : comp (result anyhow T)) : comp (result anyhow T) :=
  x ← r; match x with Ok _ => k | Err e => Ret (Err e) end.

Lemma then_Ok {T} (r : comp (result anyhow unit)) (k : comp (result anyhow T)) x :
  then_ r k = Ret (Ok x) → r = Ret (Ok tt) ∧ k = Ret (Ok x).
Proof. rewrite /then_. by destruct r as [[[]|]|]. Qed.

Lemma ensure_Ok {T} b s (k : comp (result anyhow T)) x :
  ensure b s k = Ret (Ok x) → b = true ∧ k = Ret (Ok x).
Proof. rewrite /ensure. by destruct b. Qed.

Lemma try_verify_Ok {T} r (k : comp (result anyhow T)) x :
  try_verify r k = Ret (Ok x) → r = Ret (Ok tt) ∧ k = Ret (Ok x).
Proof. rewrite /try_verify. by destruct r as [[[]|]|]. Qed.

Definition QuorumCert_verify (self : QuorumCert) (validator : ValidatorVerifier) :
    comp (result anyhow unit) :=
  let li := ledger_info (signed_ledger_info self) in
  ensure (bool_decide (consensus_data_hash li = vote_data_hash (vote_data self)))
    "Quorum Cert's hash mismatch LedgerInfo" $
  if bi_round (certified_block self) =? 0 then
    ensure (bool_decide (parent_block self = certified_block self))
      "Genesis QC has inconsistent parent block with certified block" $
    ensure (bool_decide (certified_block self = commit_info li))
      "Genesis QC has inconsistent commit block with certified block" $
    ensure (bool_decide (get_num_voters (signatures (signed_ledger_info self)) = 0%nat))
      "Genesis QC should not carry signatures" $
    Ret (Ok tt)
  else
    try_verify (verify_signatures (signed_ledger_info self) validator) $
    VoteData_verify (vote_data self).

Definition TwoChainTimeout_verify (self : TwoChainTimeout) (validators : ValidatorVerifier) :
    comp (result anyhow unit) :=
  ensure (hqc_round self <? to_round self) "Timeout round should be larger than the QC round" $
  QuorumCert_verify (to_quorum_cert self) validators.

(** [rounds.iter().max()]. *)
Definition max_round (rounds : list Round) : option Round :=
  match rounds with [] => None | r :: rest => Some (foldl Z.max r rest) end.

Lemma foldl_max_le (l : list Z) x y : y = x ∨ y ∈ l → y ≤ foldl Z.max x l.
Proof.
  revert x y. induction l as [|z l IH]; intros x y; simpl; [by intros [->|?%elem_of_nil]; [lia|]|].
  intros Hy. destruct (decide (y ∈ l)); [by apply IH; right|].
  transitivity (Z.max x z); [|by apply IH; left]. destruct Hy as [->|[->|?]%elem_of_cons]; [lia..|done].
Qed.

Lemma max_round_Some rounds m : m ∈ rounds → (∀ r, r ∈ rounds → r ≤ m) → max_round rounds = Some m.
Proof.
  destruct rounds as [|r rest]; [by intros ?%elem_of_nil|]. intros Hm Hle. cbn. f_equal. apply Z.le_antisymm.
  - assert (∀ l x, x ≤ m → (∀ r, r ∈ l → r ≤ m) → foldl Z.max x l ≤ m) as Hfold.
    { induction l as [|y l IH]; intros x Hx Hl; [done|]. cbn. apply IH; [apply Z.max_lub; [done|apply Hl; left]|].
      intros z Hz. apply Hl. by right. }
    apply Hfold; [apply Hle; left|]. intros z Hz. apply Hle. by right.
  - apply foldl_max_le. by apply elem_of_cons in Hm.
Qed.

Definition TwoChainTimeoutCertificate_verify (self : TwoChainTimeoutCertificate)
    (validators : ValidatorVerifier) : comp (result anyhow unit) :=
  then_ (TwoChainTimeout_verify (tc_timeout self) validators) $
  let hqc := hqc_round (tc_timeout self) in
  let timeout_messages :=
    (λ '(_, round), STimeout (mkTimeoutSigningRepr (to_epoch (tc_timeout self)) (to_round (tc_timeout self)) round))
      <$> get_voters_and_rounds (signatures_with_rounds self) (get_ordered_account_addresses validators) in
  try_verify (verify_aggregate_signatures validators timeout_messages (sr_sig (signatures_with_rounds self))) $
  signed_hqc ← expect (max_round (sr_rounds (signatures_with_rounds self)));
  ensure (hqc =? signed_hqc) "Inconsistent hqc round" $
  Ret (Ok tt).

Definition validate_signature (self : Block) (validator : ValidatorVerifier) : comp (result anyhow unit) :=
  match block_type (block_data self) with
  | Genesis => Ret (Err (Message "We should not accept genesis from others"))
  | NilBlock _ => QuorumCert_verify (block_qc self) validator
  | Proposal _ author _ =>
      match block_signature self with
      | None => Ret (Err (Message "Missing signature in Proposal"))
      | Some signature =>
          try_verify (verify validator author (SBlockData (block_data self)) signature) $
          QuorumCert_verify (block_qc self) validator
      end
  end.

(** The loop over [failed_authors]. *)
Fixpoint failed_authors_ok (failed_authors : list (Round * AccountAddress)) (bound succ_round : Round) : bool :=
  match failed_authors with
  | [] => true
  | (round, _) :: rest =>
      (bound <? round) && (round <? succ_round) && failed_authors_ok rest round succ_round
  end.

Definition TIMEBOUND : Z := 300000000.

(** [now_usecs] is [duration_since_epoch().as_micros()]. *)
Definition verify_well_formed (now_usecs : Z) (self : Block) : comp (result anyhow unit) :=
  let bd := block_data self in
  ensure (negb (is_genesis_block bd)) "We must not accept genesis from others" $
  let parent := certified_block (block_qc self) in
  ensure (bi_round parent <? block_round self) "Block must have a greater round than parent's block" $
  ensure (bool_decide (bi_epoch parent = bd_epoch bd)) "block's parent should be in the same epoch" $
  ensure (negb (has_reconfiguration parent) || from_option payload_is_empty true (bd_payload bd))
    "Reconfiguration suffix should not carry payload" $
  then_ (match bd_failed_authors bd with
         | None => Ret (Ok tt)
         | Some failed_authors =>
             succ_round ← add_u64 (block_round self) (Z.b2z (is_nil_block bd));
             next ← add_u64 (bi_round parent) 1;
             ensure (next <=? succ_round) "Block round is smaller than block's parent round" $
             ensure (Z.of_nat (length failed_authors) <=? succ_round - next)
               "Block has more failed authors than missed rounds" $
             ensure (failed_authors_ok failed_authors (bi_round parent) succ_round)
               "Incorrect round in failed authors" $
             Ret (Ok tt)
         end) $
  then_ (if is_nil_block bd || has_reconfiguration parent then
           ensure (bd_timestamp_usecs bd =? bi_timestamp_usecs parent)
             "Nil/reconfig suffix block must have same timestamp as parent" $ Ret (Ok tt)
         else
           ensure (bd_timestamp_usecs bd >? bi_timestamp_usecs parent)
             "Blocks must have strictly increasing timestamps" $
           ensure (bd_timestamp_usecs bd <=? Z.min (wrap 64 now_usecs + TIMEBOUND) (2 ^ 64 - 1))
             "Blocks must not be too far in the future" $ Ret (Ok tt)) $
  ensure (negb (qc_ends_epoch (block_qc self))) "Block cannot be proposed in an epoch that has ended" $
  Ret (Ok tt).

(** ** Vote proposals *)

Record VoteProposal : Type := mkVoteProposal {
  accumulator_extension_proof : @AccumulatorExtensionProof HashValue;
  vp_block : Block;
  vp_next_epoch_state : option EpochState;
  decoupled_execution : bool;
}.

Definition vote_data_ordering_only (self : VoteProposal) : VoteData :=
  mkVoteData (gen_block_info (vp_block self) ACCUMULATOR_PLACEHOLDER_HASH 0 (vp_next_epoch_state self))
    (certified_block (block_qc (vp_block self))).

Definition vote_data_with_extension_proof (self : VoteProposal) (new_tree : InMemoryAccumulator) : VoteData :=
  mkVoteData (gen_block_info (vp_block self) (root_hash new_tree) (version new_tree) (vp_next_epoch_state self))
    (certified_block (block_qc (vp_block self))).

(** The text of an error is not kept. *)
Definition gen_vote_data (self : VoteProposal) : comp (result unit VoteData) :=
  if decoupled_execution self then Ret (Ok (vote_data_ordering_only self)) else
  r ← AccumulatorExtensionProof_verify (accumulator_extension_proof self)
        (executed_state_id (certified_block (block_qc (vp_block self))));
  match r with
  | Ok new_tree => Ret (Ok (vote_data_with_extension_proof self new_tree))
  | Err e => Ret (Err e)
  end.

End checks.
