(* ===== verification/EpochChange.v ===== *)
(** * Waypoints, epoch states and epoch change proofs

    Models [types/src/waypoint.rs], [types/src/epoch_state.rs] and
    [types/src/epoch_change.rs]: what a node that trusts a waypoint or the validator set
    of an epoch accepts as the start of a later epoch. *)
From Stdlib Require Import String.
From S2P Require Import Prelude ValidatorVerifier ConsensusData.
Local Open Scope Z_scope.
Local Open Scope list_scope.

Section epochs.
Context `{CT : ConsensusTypes, CE : !ConsensusEnv, BL : !Bls Signable}.

(** ** Verifiers *)

(** The trait [Verifier]. *)
Class Verifier (V : Type) : Type := {
  Verifier_verify : V → LedgerInfoWithSignatures → comp (result anyhow unit);
  epoch_change_verification_required : V → Z → bool;
  is_ledger_info_stale : V → LedgerInfo → bool;
}.

(** [&dyn Verifier]. *)
Inductive dyn_Verifier : Type :=
  | Dyn (V : Type) (impl : Verifier V) (v : V).

#[global] Instance dyn_Verifier_Verifier : Verifier dyn_Verifier := {
  Verifier_verify '(Dyn _ _ v) := Verifier_verify v;
  epoch_change_verification_required '(Dyn _ _ v) := epoch_change_verification_required v;
  is_ledger_info_stale '(Dyn _ _ v) := is_ledger_info_stale v;
}.

Record Waypoint : Type := mkWaypoint {
  wp_version : Z;
  wp_value : HashValue;
}.

#[global] Instance Waypoint_eq_dec : EqDecision Waypoint.
Proof. solve_decision. Defined.

Definition Waypoint_new_any (li : LedgerInfo) : Waypoint :=
  mkWaypoint (bi_version (commit_info li)) (waypoint_hash (Ledger2WaypointConverter_new li)).

Definition Waypoint_new_epoch_boundary (li : LedgerInfo) : result anyhow Waypoint :=
  if ends_epoch li then Ok (Waypoint_new_any li) else Err (Message "No validator set").

Definition Waypoint_verify (w : Waypoint) (li : LedgerInfo) : comp (result anyhow unit) :=
  ensure (bi_version (commit_info li) =? wp_version w) "Waypoint version mismatch" $
  ensure (bool_decide (waypoint_hash (Ledger2WaypointConverter_new li) = wp_value w)) "Waypoint value mismatch" $
  Ret (Ok tt).

#[global] Instance Waypoint_Verifier : Verifier Waypoint := {
  Verifier_verify w li := Waypoint_verify w (ledger_info li);
  epoch_change_verification_required _ _ := true;
  is_ledger_info_stale w li := bi_version (commit_info li) <? wp_version w;
}.

Definition EpochState_verify (es : EpochState) (li : LedgerInfoWithSignatures) : comp (result anyhow unit) :=
  ensure (es_epoch es =? bi_epoch (commit_info (ledger_info li))) "LedgerInfo has unexpected epoch" $
  try_verify (verify_signatures li (es_verifier es)) (Ret (Ok tt)).

#[global] Instance EpochState_Verifier : Verifier EpochState := {
  Verifier_verify := EpochState_verify;
  epoch_change_verification_required es epoch := es_epoch es <? epoch;
  is_ledger_info_stale es li := bi_epoch (commit_info li) <? es_epoch es;
}.

(** ** Epoch change proofs *)

Record EpochChangeProof : Type := mkEpochChangeProof {
  ledger_info_with_sigs : list LedgerInfoWithSignatures;
  more : bool;
}.

Definition EpochChangeProof_epoch (self : EpochChangeProof) : result anyhow Z :=
  match ledger_info_with_sigs self with
  | li :: _ => Ok (bi_epoch (commit_info (ledger_info li)))
  | [] => Err (Message "Empty EpochChangeProof")
  end.

(** [.skip_while(|li| verifier.is_ledger_info_stale(..))]. *)
Fixpoint skip_stale {V} `{!Verifier V} (v : V) (lis : list LedgerInfoWithSignatures) : list LedgerInfoWithSignatures :=
  match lis with
  | [] => []
  | li :: rest => if is_ledger_info_stale v (ledger_info li) then skip_stale v rest else lis
  end.

(** The loop, with [verifier_ref] as it changes. *)
Fixpoint verify_chain (verifier_ref : dyn_Verifier) (lis : list LedgerInfoWithSignatures) : comp (result anyhow unit) :=
  match lis with
  | [] => Ret (Ok tt)
  | li :: rest =>
      then_ (Verifier_verify verifier_ref li) $
      match next_epoch_state (commit_info (ledger_info li)) with
      | None => Ret (Err (Message "LedgerInfo doesn't carry a ValidatorSet"))
      | Some es => verify_chain (Dyn EpochState _ es) rest
      end
  end.

Definition EpochChangeProof_verify {V} `{!Verifier V} (self : EpochChangeProof) (verifier : V) :
    comp (result anyhow LedgerInfoWithSignatures) :=
  match last (ledger_info_with_sigs self) with
  | None => Ret (Err (Message "The EpochChangeProof is empty"))
  | Some last_li =>
      ensure (negb (is_ledger_info_stale verifier (ledger_info last_li)))
        "The EpochChangeProof is stale as our verifier is already ahead of the entire EpochChangeProof" $
      then_ (verify_chain (Dyn V _ verifier) (skip_stale verifier (ledger_info_with_sigs self))) (Ret (Ok last_li))
  end.

Lemma EpochChangeProof_verify_last {V} `{!Verifier V} proof (v : V) li :
  EpochChangeProof_verify proof v = Ret (Ok li) → last (ledger_info_with_sigs proof) = Some li.
Proof.
  rewrite /EpochChangeProof_verify. destruct (last _) as [li'|]; [|done].
  intros [_ [_ ?]%then_Ok]%ensure_Ok. congruence.
Qed.
End epochs.
