(* ===== verification/Certificates.v ===== *)
(** * Certificates from partial signatures

    Models the collections of signatures that are turned into certificates:
    [PartialSignatures] of [types/src/aggregate_signature.rs],
    [LedgerInfoWithPartialSignatures] of [types/src/ledger_info.rs] and
    [TwoChainTimeoutWithPartialSignatures] of
    [consensus/consensus-types/src/timeout_2chain.rs].  Signatures that verify one by one
    aggregate to a certificate that verifies. *)
From S2P Require Import Prelude BitVec ValidatorVerifier ConsensusData.
Local Open Scope Z_scope.

(** What the signature scheme provides: aggregation succeeds on what is not empty, and
    signatures that verify aggregate to one that verifies, whatever the order. *)
Class BlsCorrect `{CT : ConsensusTypes} (M : Type) `{!Bls M} : Prop := {
  aggregate_some ss : ss ≠ [] → is_Some (bls_aggregate ss);
  aggregate_keys_some ks : ks ≠ [] → is_Some (bls_aggregate_keys ks);
  multi_signature_verifies m ss ks ks' σ pk :
    Forall2 (λ s k, bls_verify s m k = true) ss ks → ks ≡ₚ ks' →
    bls_aggregate ss = Some σ → bls_aggregate_keys ks' = Some pk → bls_verify σ m pk = true;
  aggregate_signature_verifies ss (mks mks' : list (M * PublicKey)) σ :
    Forall2 (λ s mk, bls_verify s mk.1 mk.2 = true) ss mks → mks ≡ₚ mks' →
    bls_aggregate ss = Some σ → bls_verify_aggregate σ mks'.*1 mks'.*2 = true;
}.

Section certificates.
Context `{CT : ConsensusTypes, CE : !ConsensusEnv, BL : !Bls Signable}.

(** [entry(key).or_insert(value)]. *)
Definition or_insert {V} (key : AccountAddress) (value : V) (m : gmap AccountAddress V) : gmap AccountAddress V :=
  match m !! key with Some _ => m | None => <[key := value]> m end.

Record PartialSignatures : Type := mkPartialSignatures { ps_signatures : gmap AccountAddress Signature }.

Definition PartialSignatures_empty : PartialSignatures := mkPartialSignatures ∅.
Definition PartialSignatures_add_signature (self : PartialSignatures) (validator : AccountAddress)
    (signature : Signature) : PartialSignatures :=
  mkPartialSignatures (or_insert validator signature (ps_signatures self)).

Record LedgerInfoWithPartialSignatures : Type := mkLedgerInfoWithPartialSignatures {
  lip_ledger_info : LedgerInfo;
  partial_sigs : PartialSignatures;
}.

Definition lip_add_signature (self : LedgerInfoWithPartialSignatures) (validator : AccountAddress)
    (signature : Signature) : LedgerInfoWithPartialSignatures :=
  mkLedgerInfoWithPartialSignatures (lip_ledger_info self)
    (PartialSignatures_add_signature (partial_sigs self) validator signature).

(** The keys of the map of signatures, in order. *)
Definition lip_signers (self : LedgerInfoWithPartialSignatures) : list AccountAddress :=
  (btree_iter (ps_signatures (partial_sigs self))).*1.

Definition lip_aggregate_signatures (self : LedgerInfoWithPartialSignatures) (verifier : ValidatorVerifier) :
    result VerifyError LedgerInfoWithSignatures :=
  aggregated_sig ← aggregate_signatures verifier (ps_signatures (partial_sigs self));
  Ok (mkLedgerInfoWithSignatures (lip_ledger_info self) aggregated_sig).

Record PartialSignaturesWithRound : Type := mkPartialSignaturesWithRound {
  psr_signatures : gmap AccountAddress (Round * Signature);
}.

Definition PartialSignaturesWithRound_empty : PartialSignaturesWithRound := mkPartialSignaturesWithRound ∅.
Definition PartialSignaturesWithRound_add_signature (self : PartialSignaturesWithRound)
    (validator : AccountAddress) (round : Round) (signature : Signature) : PartialSignaturesWithRound :=
  mkPartialSignaturesWithRound (or_insert validator (round, signature) (psr_signatures self)).

(** One step of the loop of [get_partial_sig_with_rounds]. *)
Definition collect_partial (index_of : gmap AccountAddress nat) (acc : PartialSignatures * gmap nat Round)
    (entry : AccountAddress * (Round * Signature)) : PartialSignatures * gmap nat Round :=
  let '(address, (round, sig)) := entry in
  match index_of !! address with
  | Some index => (PartialSignatures_add_signature acc.1 address sig, <[index := round]> acc.2)
  | None => acc
  end.

Definition get_partial_sig_with_rounds (self : PartialSignaturesWithRound)
    (address_to_validator_index : gmap AccountAddress nat) : PartialSignatures * list Round :=
  let '(partial_sig, index_to_rounds) :=
    foldl (collect_partial address_to_validator_index) (PartialSignatures_empty, ∅) (btree_iter (psr_signatures self)) in
  (partial_sig, (btree_iter index_to_rounds).*2).

Definition AggregateSignatureWithRounds_new (sig : AggregateSignature) (rounds : list Round) :
    comp AggregateSignatureWithRounds :=
  rust_assert (bool_decide (get_num_voters sig = length rounds));;
  Ret (mkAggregateSignatureWithRounds sig rounds).

Record TwoChainTimeoutWithPartialSignatures : Type := mkTwoChainTimeoutWithPartialSignatures {
  tcp_timeout : TwoChainTimeout;
  tcp_signatures : PartialSignaturesWithRound;
}.

Definition TwoChainTimeoutWithPartialSignatures_new (timeout : TwoChainTimeout) : TwoChainTimeoutWithPartialSignatures :=
  mkTwoChainTimeoutWithPartialSignatures timeout PartialSignaturesWithRound_empty.

Definition signers (self : TwoChainTimeoutWithPartialSignatures) : list AccountAddress :=
  (btree_iter (psr_signatures (tcp_signatures self))).*1.

(** The [debug_assert_eq!]s are not part of a release build. *)
Definition tcp_add (self : TwoChainTimeoutWithPartialSignatures) (author : AccountAddress)
    (timeout : TwoChainTimeout) (signature : Signature) : TwoChainTimeoutWithPartialSignatures :=
  mkTwoChainTimeoutWithPartialSignatures
    (if hqc_round timeout >? hqc_round (tcp_timeout self) then timeout else tcp_timeout self)
    (PartialSignaturesWithRound_add_signature (tcp_signatures self) author (hqc_round timeout) signature).

Definition tcp_aggregate_signatures (self : TwoChainTimeoutWithPartialSignatures) (verifier : ValidatorVerifier) :
    comp (result VerifyError TwoChainTimeoutCertificate) :=
  let '(partial_sig, ordered_rounds) :=
    get_partial_sig_with_rounds (tcp_signatures self) (address_to_validator_index verifier) in
  try (aggregate_signatures verifier (ps_signatures partial_sig)) (λ aggregated_sig,
    signatures_with_rounds ← AggregateSignatureWithRounds_new aggregated_sig ordered_rounds;
    Ret (Ok (mkTwoChainTimeoutCertificate (tcp_timeout self) signatures_with_rounds))).

(** ** The voters of an aggregated signature *)

Implicit Types (V : ValidatorVerifier) (a : AccountAddress).

Definition key_of V a : option PublicKey :=
  address_to_validator_index V !! a ≫= λ i, public_key <$> validator_infos V !! i.

Lemma known_index V a : verifier_ok V → is_Some (key_of V a) →
  ∃ i info, address_to_validator_index V !! a = Some i ∧ validator_infos V !! i = Some info ∧ address info = a.
Proof.
  intros (_ & Hidx & _) [k Hk]. unfold key_of in Hk. destruct (address_to_validator_index V !! a) as [i|] eqn:Hi; [|done].
  rewrite Hidx in Hi. destruct (index_of_lookup _ _ _ Hi) as (info & ? & ?). by exists i, info.
Qed.

Lemma index_iff V i info : verifier_ok V → validator_infos V !! i = Some info →
  address_to_validator_index V !! address info = Some i.
Proof.
  intros ((Hnd & _) & Hidx & _) Hi. rewrite Hidx.
  destruct (index_of_total (validator_infos V) info) as [j Hj]; [by eapply list_elem_of_lookup_2|].
  destruct (index_of_lookup _ _ _ Hj) as (info' & Hj' & Heq). rewrite Hj. f_equal.
  eapply (NoDup_lookup _ j i (address info) Hnd); rewrite list_lookup_fmap ?Hj' ?Hi //=. by rewrite Heq.
Qed.

(** The mask has the bits of the signers. *)
Lemma collect_shares_spec V sigs masks :
  verifier_ok V → Forall (λ x, is_Some (key_of V x.1)) sigs → bv_wf masks → num_buckets masks = required_buckets (Z.of_nat (len V)) →
  ∃ masks', collect_shares V sigs masks = Ok (masks', sigs.*2) ∧
    bv_wf masks' ∧ num_buckets masks' = num_buckets masks ∧
    ∀ i : nat, is_set masks' (Z.of_nat i) = true ↔
      is_set masks (Z.of_nat i) = true ∨ ∃ a, a ∈ sigs.*1 ∧ address_to_validator_index V !! a = Some i.
Proof.
  intros HV. revert masks. induction sigs as [|[a s] sigs IH]; intros masks Hk Hwf Hb.
  { exists masks. split_and!; [done..|]. intros i. split; [by left|]. by intros [?|(a & ?%elem_of_nil & _)]. }
  apply Forall_cons in Hk as [Ha Hk]. destruct (known_index V a HV Ha) as (i & info & Hi & Hinfo & Heq).
  pose proof (lookup_lt_Some _ _ _ Hinfo) as Hlen. pose proof HV as ((_ & _ & Hmax) & _). cbn [collect_shares]. rewrite Hi.
  assert (wrap 16 (Z.of_nat i) = Z.of_nat i) as -> by (rewrite /wrap Z.mod_small //; lia).
  destruct (set_wf masks (Z.of_nat i) Hwf) as [Hwf' Hb']; [lia| |].
  { rewrite Hb /required_buckets /BUCKET_SIZE. destruct (Z.eqb_spec (Z.of_nat (len V)) 0); [unfold len in *; lia|].
    assert (Z.of_nat i / 8 ≤ (Z.of_nat (len V) - 1) / 8) by (apply Z.div_le_mono; unfold len; lia).
    assert (0 ≤ Z.of_nat i / 8) by (apply Z.div_pos; lia). lia. }
  destruct (IH (set masks (Z.of_nat i)) Hk Hwf') as (masks' & Hrun & Hwf2 & Hb2 & Hset); [by rewrite Hb'|].
  exists masks'. rewrite Hrun. split_and!; [done|done|by rewrite Hb2|]. intros j. rewrite Hset is_set_set; [lia..|]. cbn [fst fmap list_fmap].
  setoid_rewrite elem_of_cons. rewrite orb_true_iff Z.eqb_eq Nat2Z.inj_iff. naive_solver.
Qed.

Lemma collect_voters_total V ones :
  (∀ i, i ∈ ones → (i < length (validator_infos V))%nat) → ∃ vs, collect_voters V ones = Ok vs.
Proof.
  induction ones as [|i ones IH]; intros Hlt; [by eexists|]. cbn [collect_voters].
  destruct (lookup_lt_is_Some_2 (validator_infos V) i) as [info ->]; [apply Hlt; left|].
  destruct IH as [vs ->]; [|by eexists]. intros j Hj. apply Hlt. by right.
Qed.

Lemma collect_voters_keys V ones vs :
  verifier_ok V → collect_voters V ones = Ok vs → vs.*2 = omap (key_of V) vs.*1.
Proof.
  intros HV. revert vs. induction ones as [|i ones IH]; intros vs; cbn [collect_voters]; [by intros [= <-]|].
  destruct (validator_infos V !! i) as [info|] eqn:Hi; [|done].
  destruct (collect_voters V ones) as [vs'|] eqn:Hvs; [|done]. intros [= <-]. csimpl.
  assert (key_of V (address info) = Some (public_key info)) as ->; [|by rewrite -IH].
  unfold key_of. rewrite (index_iff V i info HV Hi) /= Hi. done.
Qed.

Section bls.
Context {BC : BlsCorrect Signable}.

(** What aggregation makes of the signatures of known validators: the voters that a
    verification finds are the signers, with their keys. *)
Lemma aggregate_voters V (P : gmap AccountAddress Signature) :
  verifier_ok V → (∀ a, is_Some (P !! a) → is_Some (key_of V a)) → P ≠ ∅ →
  ∃ mask σ vs, aggregate_signatures V P = Ok (mkAggregateSignature mask (Some σ)) ∧
    bls_aggregate (btree_iter P).*2 = Some σ ∧ bv_wf mask ∧
    check_num_of_voters (wrap 16 (Z.of_nat (len V))) mask = Ok tt ∧
    collect_voters V (iter_ones mask) = Ok vs ∧ vs.*1 ≡ₚ (btree_iter P).*1 ∧ vs.*2 = omap (key_of V) vs.*1 ∧
    ∀ i, i ∈ iter_ones mask ↔ ∃ a, is_Some (P !! a) ∧ address_to_validator_index V !! a = Some i.
Proof.
  intros HV Hknown Hne. pose proof HV as ((Hnd & _ & Hmax) & _).
  assert (wrap 16 (Z.of_nat (len V)) = Z.of_nat (len V)) as Hwrap by (rewrite /wrap Z.mod_small //; unfold len; lia).
  destruct (with_num_bits_wf (Z.of_nat (len V))) as [Hwf0 Hzero]; [unfold len; lia|].
  destruct (collect_shares_spec V (btree_iter P) (with_num_bits (Z.of_nat (len V))) HV) as (mask & Hrun & Hwf & Hb & Hset);
    [|done|by rewrite /num_buckets /with_num_bits /= length_replicate|].
  { apply Forall_forall. intros [a s] Has%elem_of_btree_iter. apply Hknown. by exists s. }
  assert (∀ i, i ∈ iter_ones mask ↔ ∃ a, is_Some (P !! a) ∧ address_to_validator_index V !! a = Some i) as Hones.
  { intros i. rewrite iter_ones_spec; [apply Hwf|]. rewrite Hset Hzero; [lia|]. setoid_rewrite elem_of_btree_keys. naive_solver. }
  assert (∀ i, i ∈ iter_ones mask → (i < length (validator_infos V))%nat) as Hlt.
  { intros i (a & Ha & Hi)%Hones. destruct (known_index V a HV) as (j & info & Hj & Hinfo & _); [by apply Hknown|].
    simplify_eq. by eapply lookup_lt_Some. }
  destruct (aggregate_some (btree_iter P).*2) as [σ Hσ].
  { intros Hnil%fmap_nil_inv. by apply Hne, btree_iter_nil. }
  destruct (collect_voters_total V _ Hlt) as [vs Hvs].
  exists mask, σ, vs. split_and!; [|done|done| |done| |by eapply collect_voters_keys|done].
  - unfold aggregate_signatures. rewrite Hwrap Hrun. cbn. by rewrite Hσ.
  - unfold check_num_of_voters. rewrite decide_False.
    { rewrite Hb Hwrap /num_buckets /with_num_bits /= length_replicate. naive_solver. }
    pose proof (last_set_bit_spec mask Hwf) as Hlast. destruct (last_set_bit mask) as [p|]; [|done].
    destruct Hlast as ([Hp _] & Hs & _). rewrite -(Z2Nat.id p) // in Hs. apply iter_ones_spec, Hlt in Hs; [|apply Hwf].
    rewrite Hwrap Z.geb_leb (proj2 (Z.leb_gt _ _)) //. unfold len. lia.
  - apply NoDup_Permutation; [by eapply NoDup_voters; [apply HV|apply NoDup_iter_ones|]|apply NoDup_btree_iter|].
    intros a. rewrite elem_of_btree_keys. destruct (collect_voters_spec _ _ _ Hvs) as (-> & _). rewrite list_elem_of_omap. split.
    + intros (i & (a' & Ha' & Hi)%Hones & Hinfo). destruct (known_index V a' HV) as (j & info & Hj & Hinfo' & <-); [by apply Hknown|].
      simplify_eq. rewrite Hinfo' in Hinfo. by injection Hinfo as <-.
    + intros Ha. destruct (known_index V a HV) as (i & info & Hi & Hinfo & <-); [by apply Hknown|].
      exists i. split; [apply Hones; by eexists|by rewrite Hinfo].
Qed.
End bls.

(** ** Voting power *)

Lemma add_voting_power_total V authors acc :
  verifier_ok V → (∀ a, a ∈ authors → is_Some (key_of V a)) → acc + 2 ^ 64 * Z.of_nat (length authors) < 2 ^ 128 →
  ∃ p, add_voting_power V authors acc = Ret (Ok p).
Proof.
  intros HV. revert acc. induction authors as [|a authors IH]; intros acc Hk Hmax; [by eexists|].
  destruct (known_index V a HV) as (i & info & Hi & Hinfo & _); [apply Hk; left|]. cbn [add_voting_power].
  unfold get_voting_power. rewrite Hi Hinfo. cbn. pose proof HV as ((_ & Hpow & _) & _).
  rewrite Forall_lookup in Hpow. specialize (Hpow _ _ Hinfo). cbn in Hpow. cbn [length] in Hmax.
  unfold checked_u128. rewrite (proj2 (Z.ltb_lt _ _)); [lia|]. cbn. apply IH; [|lia]. intros b Hb. apply Hk. by right.
Qed.

Definition power V (authors : list AccountAddress) : Z := power_of (λ a, bool_decide (a ∈ authors)) (validator_infos V).

Lemma check_voting_power_spec V authors :
  verifier_ok V → NoDup authors → (∀ a, a ∈ authors → is_Some (key_of V a)) →
  check_voting_power V authors
  = Ret (if power V authors <? quorum_voting_power V
         then Err (TooLittleVotingPower (power V authors) (quorum_voting_power V)) else Ok tt).
Proof.
  intros HV Hnd Hk. pose proof HV as ((_ & _ & Hmax) & _).
  assert (length authors ≤ length (address <$> validator_infos V))%nat as Hlen.
  { apply submseteq_length, NoDup_submseteq; [done|]. intros a Ha.
    destruct (known_index V a HV (Hk a Ha)) as (i & info & _ & Hinfo & <-). apply list_elem_of_fmap_2. by eapply list_elem_of_lookup_2. }
  rewrite length_fmap in Hlen. destruct (add_voting_power_total V authors 0 HV Hk) as [p Hp]; [lia|].
  unfold check_voting_power. rewrite Hp. cbn. apply add_voting_power_spec in Hp as [-> _]; [|done..]. cbn.
  unfold power. by destruct (_ <? _).
Qed.

Lemma power_perm V l l' : l ≡ₚ l' → power V l = power V l'.
Proof. intros Hp. apply power_of_ext. intros info _. apply bool_decide_ext. by rewrite Hp. Qed.

(** A quorum is not empty. *)
Lemma quorum_not_empty V : verifier_ok V → validator_infos V ≠ [] → power V [] < quorum_voting_power V.
Proof.
  intros (Hok & _ & Ht & ->) Hne. rewrite decide_False // Ht. unfold power. rewrite power_of_none; [done|].
  pose proof (power_of_nonneg (λ _, true) (validator_infos V) (proj1 (proj2 Hok))).
  assert (0 ≤ power_of (λ _, true) (validator_infos V) * 2 / 3) by (apply Z.div_pos; lia). lia.
Qed.

(** ** Multi-signatures *)

Lemma Forall2_omap {A B C} (f : A → option C) (R : B → C → Prop) (l : list (A * B)) :
  Forall (λ x, ∃ y, f x.1 = Some y ∧ R x.2 y) l → Forall2 R l.*2 (omap f l.*1).
Proof. induction 1 as [|[a b] l (y & Hy & HR) _ IH]; csimpl; [constructor|]. rewrite Hy. by constructor. Qed.

Lemma verify_Ok V a (m : Signable) s :
  verify V a m s = Ret (Ok tt) → ∃ k, key_of V a = Some k ∧ bls_verify s m k = true.
Proof.
  unfold verify, get_public_key, key_of. destruct (address_to_validator_index V !! a) as [i|]; [|done]. cbn.
  destruct (validator_infos V !! i) as [info|]; [|done]. cbn. destruct (bls_verify s m (public_key info)) eqn:Hb; [|done].
  intros _. by exists (public_key info).
Qed.

Section verification.
Context {BC : BlsCorrect Signable} (V : ValidatorVerifier) (HV : verifier_ok V) (Hsome : validator_infos V ≠ []).

(** The signers of a quorum. *)
Lemma quorum_signers {X} (P : gmap AccountAddress X) :
  (∀ a, is_Some (P !! a) → is_Some (key_of V a)) → check_voting_power V (btree_iter P).*1 = Ret (Ok tt) →
  P ≠ ∅ ∧ ∀ l, l ≡ₚ (btree_iter P).*1 → check_voting_power V l = Ret (Ok tt).
Proof.
  intros Hknown Hp. assert (∀ a, a ∈ (btree_iter P).*1 → is_Some (key_of V a)) as Hk.
  { intros a Ha%elem_of_btree_keys. by apply Hknown. }
  pose proof (NoDup_btree_iter P) as Hnd. split.
  - intros HP%btree_iter_nil. rewrite check_voting_power_spec // in Hp.
    rewrite HP (proj2 (Z.ltb_lt _ _)) // in Hp. by apply quorum_not_empty.
  - intros l Hl. rewrite check_voting_power_spec // in Hp. rewrite check_voting_power_spec //; [by rewrite Hl| |].
    + intros a. rewrite Hl. apply Hk.
    + by rewrite (power_perm V l _ Hl).
Qed.

Lemma multi_signature_Ok (m : Signable) (P : gmap AccountAddress Signature) :
  (∀ a s, P !! a = Some s → verify V a m s = Ret (Ok tt)) → check_voting_power V (btree_iter P).*1 = Ret (Ok tt) →
  ∃ s, aggregate_signatures V P = Ok s ∧ verify_multi_signatures V m s = Ret (Ok tt).
Proof.
  intros Hver Hp. assert (∀ a, is_Some (P !! a) → is_Some (key_of V a)) as Hknown.
  { intros a [s Hs]. apply Hver in Hs. destruct (verify_Ok _ _ _ _ Hs) as (k & ? & _). by exists k. }
  destruct (quorum_signers P Hknown Hp) as [Hne Hperm].
  destruct (aggregate_voters V P HV Hknown Hne) as (mask & σ & vs & Hagg & Hσ & _ & Hnum & Hvs & Hauth & Hkeys & _).
  exists (mkAggregateSignature mask (Some σ)). split; [done|]. unfold verify_multi_signatures. cbn [validator_bitmask sig].
  rewrite Hnum. cbn [try]. rewrite Hvs. cbn [try]. rewrite (Hperm _ Hauth); cbn.
  assert (Forall2 (λ s k, bls_verify s m k = true) (btree_iter P).*2 (omap (key_of V) (btree_iter P).*1)) as Hall.
  { apply Forall2_omap, Forall_forall. intros [a s] Has%elem_of_btree_iter. by apply verify_Ok, Hver. }
  destruct (aggregate_keys_some vs.*2) as [pk Hpk].
  { intros Hnil. apply Hne, btree_iter_nil. apply Forall2_length in Hall. rewrite length_fmap in Hall.
    apply nil_length_inv. rewrite Hall -(Permutation_length (omap_Permutation _ _ _ Hauth)) -Hkeys Hnil. done. }
  rewrite Hpk. rewrite (multi_signature_verifies m _ _ vs.*2 σ pk Hall) //. by rewrite Hkeys Hauth.
Qed.

(** ** Aggregated timeouts *)

Lemma index_inj a b i :
  address_to_validator_index V !! a = Some i → address_to_validator_index V !! b = Some i → a = b.
Proof.
  destruct HV as (_ & Hidx & _). rewrite Hidx. intros Ha Hb.
  destruct (index_of_lookup _ _ _ Ha) as (x & Hx & <-). destruct (index_of_lookup _ _ _ Hb) as (y & Hy & <-). congruence.
Qed.

(** The loop puts every signature with its address, and every round with its index. *)
Lemma collect_partial_spec l m0 r0 :
  NoDup l.*1 → (∀ a, a ∈ l.*1 → is_Some (key_of V a)) → (∀ a, a ∈ l.*1 → m0 !! a = None) →
  let acc := foldl (collect_partial (address_to_validator_index V)) (mkPartialSignatures m0, r0) l in
  (∀ a s, ps_signatures acc.1 !! a = Some s ↔ m0 !! a = Some s ∨ ∃ r, (a, (r, s)) ∈ l) ∧
  (∀ i r, acc.2 !! i = Some r ↔
     (∃ a s, (a, (r, s)) ∈ l ∧ address_to_validator_index V !! a = Some i) ∨
     (r0 !! i = Some r ∧ ∀ a, a ∈ l.*1 → address_to_validator_index V !! a ≠ Some i)).
Proof.
  revert m0 r0. induction l as [|[a [r s]] l IH]; intros m0 r0 Hnd Hk Hfresh; cbn zeta.
  { cbn. split; intros; setoid_rewrite elem_of_nil; naive_solver. }
  cbn [fmap list_fmap fst] in Hnd, Hk, Hfresh. apply NoDup_cons in Hnd as [Ha Hnd].
  destruct (known_index V a HV (Hk a (list_elem_of_here _ _))) as (i & _ & Hi & _).
  cbn [foldl collect_partial]. rewrite Hi. cbn [fst snd PartialSignatures_add_signature ps_signatures].
  unfold PartialSignatures_add_signature. cbn [ps_signatures]. unfold or_insert. rewrite (Hfresh a (list_elem_of_here _ _)).
  destruct (IH (<[a := s]> m0) (<[i := r]> r0) Hnd) as [IH1 IH2].
  { intros b Hb. apply Hk. by right. }
  { intros b Hb. rewrite lookup_insert_ne; [by intros ->|]. apply Hfresh. by right. }
  split.
  - intros b s'. rewrite IH1 lookup_insert_Some. setoid_rewrite elem_of_cons.
    pose proof (Hfresh a (list_elem_of_here _ _)). split; [naive_solver|].
    intros [Hb|(r' & [[= -> -> ->]|Hin])]; [left; right; split; [congruence|done]|by left; left|by right; eauto].
  - intros j r'. rewrite IH2 lookup_insert_Some. cbn [fmap list_fmap fst]. setoid_rewrite elem_of_cons. split.
    + intros [(b & s' & Hin & Hj)|[[[<- <-]|[Hne Hj]] Hno]]; [naive_solver..|]. right. split; [done|].
      intros b [->|Hb]; [congruence|by apply Hno].
    + intros [(b & s' & [[= -> -> ->]|Hin] & Hj)|[Hj Hno]]; [right| |right]; [|naive_solver|].
      * split; [left; split; congruence|]. intros b Hb Hbi. apply Ha. by rewrite (index_inj a b j).
      * split; [right; split; [|done]; intros <-; by apply (Hno a); [left|]|]. intros b Hb. apply Hno. by right.
Qed.

Lemma iter_ones_sorted bv : StronglySorted le (iter_ones bv).
Proof.
  unfold iter_ones. apply StronglySorted_filter. generalize 0%nat, (length (inner bv) * 8)%nat. intros k n.
  revert k. induction n as [|n IH]; intros k; cbn; [constructor|]. constructor; [apply IH|].
  apply Forall_forall. intros j Hj%elem_of_seq. lia.
Qed.

(** The rounds in the order of the indices. *)
Lemma rounds_by_index (m : gmap nat Round) ones :
  StronglySorted le ones → NoDup ones → (∀ i, i ∈ ones ↔ is_Some (m !! i)) → (btree_iter m).*2 = omap (m !!.) ones.
Proof.
  intros Hs Hnd Hdom. assert ((btree_iter m).*1 = ones) as <-.
  { apply (StronglySorted_unique le); [exact (btree_keys_sorted m)|done|].
    apply NoDup_Permutation; [apply NoDup_btree_iter|done|]. intros i. by rewrite Hdom elem_of_btree_keys. }
  assert (∀ x, x ∈ btree_iter m → m !! x.1 = Some x.2) as Hl by (intros [i r]; apply elem_of_btree_iter).
  clear -Hl. induction (btree_iter m) as [|[i r] l IH]; [done|]. csimpl. rewrite (Hl (i, r)) /=; [by left|].
  rewrite IH //. intros x Hx. apply Hl. by right.
Qed.

Lemma omap_omap {A B C} (f : B → option C) (g : A → option B) (h : A → option C) (l : list A) :
  (∀ x, x ∈ l → h x = g x ≫= f) → omap h l = omap f (omap g l).
Proof.
  induction l as [|x l IH]; intros Hl; [done|]. csimpl. rewrite (Hl x (list_elem_of_here _ _)).
  rewrite IH; [intros y Hy; apply Hl; by right|]. destruct (g x); [|done]. csimpl. by destruct (f _).
Qed.

(** What a collection of timeouts of epoch [E] and round [R] keeps: every signature is
    verified, and the timeout is a verified one with the highest round signed. *)
Definition tcp_ok (E : Z) (R : Round) (T : TwoChainTimeoutWithPartialSignatures) : Prop :=
  to_epoch (tcp_timeout T) = E ∧ to_round (tcp_timeout T) = R ∧ TwoChainTimeout_verify (tcp_timeout T) V = Ret (Ok tt) ∧
  (∀ a r s, psr_signatures (tcp_signatures T) !! a = Some (r, s) →
     verify V a (STimeout (mkTimeoutSigningRepr E R r)) s = Ret (Ok tt) ∧ r ≤ hqc_round (tcp_timeout T)) ∧
  ∃ a s, psr_signatures (tcp_signatures T) !! a = Some (hqc_round (tcp_timeout T), s).

Lemma collect_partial_all (m : gmap AccountAddress (Round * Signature)) :
  (∀ a, is_Some (m !! a) → is_Some (key_of V a)) →
  ∃ idx, foldl (collect_partial (address_to_validator_index V)) (PartialSignatures_empty, ∅) (btree_iter m)
         = (mkPartialSignatures (snd <$> m), idx) ∧
    (∀ a i r, address_to_validator_index V !! a = Some i → idx !! i = Some r ↔ ∃ s, m !! a = Some (r, s)) ∧
    ∀ i, is_Some (idx !! i) ↔ ∃ a, is_Some (m !! a) ∧ address_to_validator_index V !! a = Some i.
Proof.
  intros Hknown. destruct (collect_partial_spec (btree_iter m) ∅ ∅) as [HP HR]; [apply NoDup_btree_iter| |done|].
  { intros a Ha%elem_of_btree_keys. by apply Hknown. }
  unfold PartialSignatures_empty. destruct (foldl _ _ _) as [[P] idx]. cbn in HP, HR. exists idx.
  setoid_rewrite elem_of_btree_iter in HP. setoid_rewrite elem_of_btree_iter in HR. split_and!.
  - do 2 f_equal. apply map_eq. intros a. apply option_eq. intros s. rewrite HP lookup_empty lookup_fmap fmap_Some.
    split; [intros [?|[r Hr]]; [done|by exists (r, s)]|]. intros ([r s'] & Hr & ->). right. by exists r.
  - intros a i r Ha. rewrite HR lookup_empty. split.
    + intros [(b & s & Hb & Hi)|[? _]]; [|done]. rewrite (index_inj a b i) //. by exists s.
    + intros [s Hs]. left. by exists a, s.
  - intros i. split; [intros [r [(a & s & Ha & Hi)|[? _]]%HR]; [|done]; exists a; by split; [eexists|]|].
    intros (a & [[r s] Hrs] & Hi). exists r. apply HR. left. by exists a, s.
Qed.

(** The signatures and the rounds that are aggregated, with the voters that a
    verification finds. *)
Lemma partial_sig_with_rounds_spec (m : gmap AccountAddress (Round * Signature)) :
  (∀ a, is_Some (m !! a) → is_Some (key_of V a)) → m ≠ ∅ →
  ∃ rounds mask σ vs,
    get_partial_sig_with_rounds (mkPartialSignaturesWithRound m) (address_to_validator_index V)
    = (mkPartialSignatures (snd <$> m), rounds) ∧
    aggregate_signatures V (snd <$> m) = Ok (mkAggregateSignature mask (Some σ)) ∧
    bls_aggregate (btree_iter (snd <$> m)).*2 = Some σ ∧ count_ones mask = length rounds ∧
    check_num_of_voters (wrap 16 (Z.of_nat (len V))) mask = Ok tt ∧
    collect_voters V (iter_ones mask) = Ok vs ∧ vs.*1 ≡ₚ (btree_iter (snd <$> m)).*1 ∧
    vs.*2 = omap (key_of V) vs.*1 ∧ rounds = omap (λ a, fst <$> m !! a) vs.*1.
Proof.
  intros Hknown Hne. unfold get_partial_sig_with_rounds. cbn [psr_signatures].
  destruct (collect_partial_all m Hknown) as (idx & -> & Hidx & Hdom).
  destruct (aggregate_voters V (snd <$> m) HV) as (mask & σ & vs & Hagg & Hσ & Hwf & Hnum & Hvs & Hperm & Hkeys & Hones).
  { intros a. rewrite lookup_fmap fmap_is_Some. apply Hknown. }
  { by intros ?%fmap_empty_inv. }
  setoid_rewrite lookup_fmap in Hones. setoid_rewrite fmap_is_Some in Hones. setoid_rewrite <- Hdom in Hones.
  assert (∀ i, i ∈ iter_ones mask → idx !! i = (address <$> validator_infos V !! i) ≫= λ a, fst <$> m !! a) as Hround.
  { intros i (a & Ha & Hi)%Hones%Hdom.
    destruct (known_index V a HV (Hknown a Ha)) as (j & info & Hj & Hinfo & <-). simplify_eq. rewrite Hinfo /=.
    destruct Ha as [[r s] Hrs]. rewrite Hrs /=. apply (Hidx (address info)); [done|by exists s]. }
  exists (btree_iter idx).*2, mask, σ, vs. split_and!; try done.
  - rewrite count_ones_iter // length_fmap -(length_fmap fst (btree_iter idx)). apply Permutation_length, NoDup_Permutation;
      [apply NoDup_iter_ones|apply NoDup_btree_iter|]. intros i. by rewrite Hones elem_of_btree_keys.
  - rewrite (rounds_by_index idx (iter_ones mask)) //; [apply iter_ones_sorted|apply NoDup_iter_ones|].
    destruct (collect_voters_spec _ _ _ Hvs) as (-> & _). by apply omap_omap.
Qed.

(** The messages and the keys of the voters, in their order. *)
Lemma timeout_messages (f : Round → Signable) (m : gmap AccountAddress (Round * Signature)) l :
  (∀ a, a ∈ l → is_Some (m !! a) ∧ is_Some (key_of V a)) →
  let mks := omap (λ a, rs ← m !! a; k ← key_of V a; Some (f rs.1, k)) l in
  mks.*1 = f <$> omap (λ a, fst <$> m !! a) l ∧ mks.*2 = omap (key_of V) l ∧
  length (omap (λ a, fst <$> m !! a) l) = length l.
Proof.
  cbn zeta. induction l as [|a l IH]; intros Hl; [done|]. csimpl.
  destruct (Hl a (list_elem_of_here _ _)) as [[[r s] ->] [k ->]]. csimpl.
  destruct IH as (-> & -> & ->); [|done]. intros b Hb. apply Hl. by right.
Qed.

(** Verified signatures of a quorum, each on its own round, aggregate to one that
    verifies against the rounds. *)
Lemma aggregate_timeouts_Ok (f : Round → Signable) (m : gmap AccountAddress (Round * Signature)) :
  (∀ a r s, m !! a = Some (r, s) → verify V a (f r) s = Ret (Ok tt)) →
  check_voting_power V (btree_iter m).*1 = Ret (Ok tt) →
  ∃ P rounds s,
    get_partial_sig_with_rounds (mkPartialSignaturesWithRound m) (address_to_validator_index V) = (P, rounds) ∧
    aggregate_signatures V (ps_signatures P) = Ok s ∧ get_num_voters s = length rounds ∧
    verify_aggregate_signatures V ((λ '(_, round), f round) <$>
      get_voters_and_rounds (mkAggregateSignatureWithRounds s rounds) (get_ordered_account_addresses V)) s = Ret (Ok tt) ∧
    ∀ r, r ∈ rounds ↔ ∃ a s, m !! a = Some (r, s).
Proof.
  intros Hsig Hp. assert (∀ a, is_Some (m !! a) → is_Some (key_of V a)) as Hknown.
  { intros a [[r s] Hs]. apply Hsig in Hs. destruct (verify_Ok _ _ _ _ Hs) as (k & ? & _). by exists k. }
  destruct (quorum_signers m Hknown Hp) as [Hne Hperm].
  destruct (partial_sig_with_rounds_spec m Hknown Hne)
    as (rounds & mask & σ & vs & -> & Hagg & Hσ & Hcount & Hnum & Hvs & Hauth & Hkeys & ->).
  assert (∀ a, a ∈ vs.*1 ↔ is_Some (m !! a)) as Hin.
  { intros a. by rewrite Hauth elem_of_btree_keys lookup_fmap fmap_is_Some. }
  destruct (timeout_messages f m vs.*1) as (Hms & Hks & Hlen); [intros a Ha%Hin; eauto|].
  assert (check_voting_power V vs.*1 = Ret (Ok tt)) as Hpower.
  { apply Hperm, NoDup_Permutation; [rewrite Hauth; apply NoDup_btree_iter|apply NoDup_btree_iter|].
    intros a. by rewrite Hin elem_of_btree_keys. }
  eexists _, _, _. split_and!; [done|done|done| |].
  - unfold get_voters_and_rounds. cbn [sr_sig sr_rounds].
    destruct (voters_checked V (mkAggregateSignature mask (Some σ)) vs) as (_ & _ & <-); [done..|].
    rewrite (list_fmap_ext _ (f ∘ snd)); [by intros ? [? ?]|]. rewrite list_fmap_compose snd_zip; [lia|].
    unfold verify_aggregate_signatures. cbn [validator_bitmask sig]. rewrite Hnum. cbn [try]. rewrite Hvs. cbn [try].
    rewrite Hpower; cbn -[omap]. rewrite Hkeys -Hms -Hks. erewrite aggregate_signature_verifies; [done| |by rewrite Hauth|done].
    apply Forall2_omap, Forall_forall. intros [a s]. rewrite elem_of_btree_iter lookup_fmap fmap_Some. cbn [fst snd].
    intros ([r s'] & Hrs & ->). rewrite Hrs. destruct (verify_Ok _ _ _ _ (Hsig _ _ _ Hrs)) as (k & -> & Hb). by eexists.
  - intros r. rewrite list_elem_of_omap. setoid_rewrite fmap_Some. split.
    + intros (a & _ & [r' s] & Ha & ->). by exists a, s.
    + intros (a & s & Ha). exists a. split; [apply Hin; by eexists|by exists (r, s)].
Qed.

(** The timeouts of a quorum make a certificate that verifies. *)
Lemma timeout_certificate_Ok E R T :
  tcp_ok E R T → check_voting_power V (signers T) = Ret (Ok tt) →
  ∃ tc, tcp_aggregate_signatures T V = Ret (Ok tc) ∧ TwoChainTimeoutCertificate_verify tc V = Ret (Ok tt) ∧
    tc_timeout tc = tcp_timeout T.
Proof.
  destruct T as [t [m]]. intros (HE & HR & Ht & Hsig & Hmax). unfold signers, tcp_aggregate_signatures.
  cbn [tcp_timeout tcp_signatures psr_signatures] in *. intros Hp.
  destruct (aggregate_timeouts_Ok (λ r, STimeout (mkTimeoutSigningRepr E R r)) m)
    as (P & rounds & s & -> & -> & Hcount & Hver & Hrounds); [naive_solver|done|].
  cbn [try]. unfold AggregateSignatureWithRounds_new. rewrite bool_decide_eq_true_2 //. cbn. eexists. split_and!; [done| |done].
  unfold TwoChainTimeoutCertificate_verify. cbn [tc_timeout signatures_with_rounds sr_sig sr_rounds].
  rewrite Ht; cbn [then_ mbind comp_bind]. rewrite HE HR Hver; cbn.
  rewrite (max_round_Some rounds (hqc_round t)).
  - by apply Hrounds.
  - intros r (a & s' & Ha)%Hrounds. by apply (Hsig a r s').
  - cbn. by rewrite Z.eqb_refl.
Qed.
End verification.
End certificates.
