(* ===== verification/PendingVotes.v ===== *)
(** * The pending votes of a round

    Models [consensus/src/pending_votes.rs]: the votes of one round, collected until
    those of a quorum make a quorum certificate or a timeout certificate, and
    [Vote::verify] of [consensus/consensus-types/src/vote.rs], which every vote has passed
    when it is inserted. *)
From stdpp Require Import strings.
From S2P Require Import Prelude BitVec ValidatorVerifier ConsensusData Certificates.
Local Open Scope string_scope.
Local Open Scope Z_scope.

(** What results already returned keep showing. *)
Create HintDb votes.

Section pending_votes.
Context `{CT : ConsensusTypes, CE : !ConsensusEnv, BL : !Bls Signable, HC : !Countable HashValue}.
Context (ledger_info_hash : LedgerInfo → HashValue).

(** ** Votes *)

Definition is_timeout (self : Vote) : bool :=
  match two_chain_timeout self with Some _ => true | None => false end.

Definition add_2chain_timeout (self : Vote) (timeout : TwoChainTimeout) (signature : Signature) : Vote :=
  mkVote (v_vote_data self) (v_author self) (v_ledger_info self) (v_signature self) (Some (timeout, signature)).

Definition generate_2chain_timeout (self : Vote) (qc : QuorumCert) : TwoChainTimeout :=
  mkTwoChainTimeout (bi_epoch (proposed (v_vote_data self))) (bi_round (proposed (v_vote_data self))) qc.

Definition Vote_verify (self : Vote) (validator : ValidatorVerifier) : comp (result anyhow unit) :=
  ensure (bool_decide (consensus_data_hash (v_ledger_info self) = vote_data_hash (v_vote_data self)))
    "Vote's hash mismatch with LedgerInfo" $
  try_verify (verify validator (v_author self) (SLedgerInfo (v_ledger_info self)) (v_signature self)) $
  then_
    (match two_chain_timeout self with
     | Some (timeout, signature) =>
         ensure (bool_decide ((to_epoch timeout, to_round timeout)
                              = (bi_epoch (proposed (v_vote_data self)), bi_round (proposed (v_vote_data self)))))
           "2-chain timeout has different (epoch, round) than Vote" $
         then_ (TwoChainTimeout_verify timeout validator) $
         try_verify (verify validator (v_author self) (STimeout (signing_format timeout)) signature) $
         Ret (Ok tt)
     | None => Ret (Ok tt)
     end) $
  VoteData_verify (v_vote_data self).

(** ** The collection *)

Inductive VoteReceptionResult : Type :=
  | VoteAdded (voting_power : Z)
  | DuplicateVote
  | EquivocateVote
  | NewQuorumCertificate (qc : QuorumCert)
  | New2ChainTimeoutCertificate (tc : TwoChainTimeoutCertificate)
  | ErrorAddingVote (e : VerifyError)
  | ErrorAggregatingSignature (e : VerifyError)
  | ErrorAggregatingTimeoutCertificate (e : VerifyError)
  | UnexpectedRound (vote_round current_round : Round)
  | EchoTimeout (voting_power : Z).

Record PendingVotes : Type := mkPendingVotes {
  li_digest_to_votes : gmap HashValue (nat * LedgerInfoWithPartialSignatures);
  maybe_partial_2chain_tc : option TwoChainTimeoutWithPartialSignatures;
  author_to_vote : gmap AccountAddress (Vote * HashValue);
  echo_timeout : bool;
}.

Definition PendingVotes_new : PendingVotes := mkPendingVotes ∅ None ∅ false.

(** [a - b] on [u128]. *)
Definition u128_sub (a b : Z) : comp Z := if a <? b then Panic else Ret (a - b).

(** Step 1: what an author who voted before gets. *)
Definition already_voted (self : PendingVotes) (vote : Vote) : option VoteReceptionResult :=
  match author_to_vote self !! v_author vote with
  | None => None
  | Some (previously_seen_vote, previous_li_digest) =>
      if bool_decide (ledger_info_hash (v_ledger_info vote) = previous_li_digest) then
        let new_timeout_vote := is_timeout vote && negb (is_timeout previously_seen_vote) in
        if new_timeout_vote then None else Some DuplicateVote
      else Some EquivocateVote
  end.

(** Steps 4 and 5: no quorum certificate could be formed. *)
Definition insert_timeout (self : PendingVotes) (vote : Vote) (validator_verifier : ValidatorVerifier)
    (voting_power : Z) : comp (PendingVotes * VoteReceptionResult) :=
  match two_chain_timeout vote with
  | None => Ret (self, VoteAdded voting_power)
  | Some (timeout, signature) =>
      let partial_tc :=
        tcp_add (default (TwoChainTimeoutWithPartialSignatures_new timeout) (maybe_partial_2chain_tc self))
          (v_author vote) timeout signature in
      let self := mkPendingVotes (li_digest_to_votes self) (Some partial_tc) (author_to_vote self) (echo_timeout self) in
      r ← check_voting_power validator_verifier (signers partial_tc);
      match r with
      | Ok _ =>
          r ← tcp_aggregate_signatures partial_tc validator_verifier;
          Ret (self, match r with
                     | Ok tc_with_sig => New2ChainTimeoutCertificate tc_with_sig
                     | Err e => ErrorAggregatingTimeoutCertificate e
                     end)
      | Err (TooLittleVotingPower tc_voting_power _) =>
          if echo_timeout self then Ret (self, VoteAdded voting_power) else
          f ← u128_sub (total_voting_power validator_verifier) (quorum_voting_power validator_verifier);
          f_plus_one ← checked_u128 (f + 1);
          if f_plus_one <=? tc_voting_power then
            Ret (mkPendingVotes (li_digest_to_votes self) (Some partial_tc) (author_to_vote self) true,
                 EchoTimeout tc_voting_power)
          else Ret (self, VoteAdded voting_power)
      | Err error => Ret (self, ErrorAddingVote error)
      end
  end.

(** The voting power of the author is read for the counters. *)
Definition insert_vote (self : PendingVotes) (vote : Vote) (validator_verifier : ValidatorVerifier) :
    comp (PendingVotes * VoteReceptionResult) :=
  let li_digest := ledger_info_hash (v_ledger_info vote) in
  match already_voted self vote with
  | Some r => Ret (self, r)
  | None =>
      let len := S (size (li_digest_to_votes self)) in
      let '(hash_index, li_with_sig) :=
        default (len, mkLedgerInfoWithPartialSignatures (v_ledger_info vote) PartialSignatures_empty)
          (li_digest_to_votes self !! li_digest) in
      _ ← get_voting_power validator_verifier (v_author vote);
      let li_with_sig := lip_add_signature li_with_sig (v_author vote) (v_signature vote) in
      let self :=
        mkPendingVotes (<[li_digest := (hash_index, li_with_sig)]> (li_digest_to_votes self))
          (maybe_partial_2chain_tc self) (<[v_author vote := (vote, li_digest)]> (author_to_vote self)) (echo_timeout self) in
      r ← check_voting_power validator_verifier (lip_signers li_with_sig);
      match r with
      | Ok _ =>
          Ret (self, match lip_aggregate_signatures li_with_sig validator_verifier with
                     | Ok ledger_info_with_sig =>
                         NewQuorumCertificate (mkQuorumCert (v_vote_data vote) ledger_info_with_sig)
                     | Err e => ErrorAggregatingSignature e
                     end)
      | Err (TooLittleVotingPower voting_power _) => insert_timeout self vote validator_verifier voting_power
      | Err error => Ret (self, ErrorAddingVote error)
      end
  end.

(** The order of a [HashMap] is not specified: any order will do. *)
Definition drain_votes (self : PendingVotes) :
    PendingVotes * (list (HashValue * LedgerInfoWithPartialSignatures) * option TwoChainTimeoutWithPartialSignatures) :=
  (mkPendingVotes ∅ None (author_to_vote self) (echo_timeout self),
   ((λ '(key, (_, li)), (key, li)) <$> map_to_list (li_digest_to_votes self), maybe_partial_2chain_tc self)).

(** Votes that arrive one after the other. *)
Fixpoint insert_votes (self : PendingVotes) (votes : list Vote) (validator_verifier : ValidatorVerifier) :
    comp (PendingVotes * list VoteReceptionResult) :=
  match votes with
  | [] => Ret (self, [])
  | vote :: rest =>
      r ← insert_vote self vote validator_verifier;
      rs ← insert_votes r.1 rest validator_verifier;
      Ret (rs.1, r.2 :: rs.2)
  end.

(** ** Verified votes *)

Lemma or_insert_keys {X} a (x : X) m b : is_Some (or_insert a x m !! b) ↔ b = a ∨ is_Some (m !! b).
Proof.
  unfold or_insert. destruct (m !! a) as [y|] eqn:Ha.
  - split; [by right|]. intros [->|?]; [by exists y|done].
  - rewrite lookup_insert_is_Some'. naive_solver.
Qed.

Lemma or_insert_Some {X} a (x : X) m b y : or_insert a x m !! b = Some y → (b = a ∧ y = x) ∨ m !! b = Some y.
Proof.
  unfold or_insert. destruct (m !! a) eqn:Ha; [by right|]. intros [[<- <-]|[_ Hb]]%lookup_insert_Some; [by left|by right].
Qed.

Section votes.
Context {BC : BlsCorrect Signable} (V : ValidatorVerifier) (HV : verifier_ok V) (Hpos : 0 < total_voting_power V).
Context (E : Z) (R : Round).

(** A vote of round [R] that verifies; rounds are unsigned. *)
Definition vote_ok (vote : Vote) : Prop :=
  Vote_verify vote V = Ret (Ok tt) ∧ bi_epoch (proposed (v_vote_data vote)) = E ∧
  bi_round (proposed (v_vote_data vote)) = R ∧ 0 ≤ bi_round (parent (v_vote_data vote)).

Lemma some_validators : validator_infos V ≠ [].
Proof. intros Hnil. destruct HV as (_ & _ & Ht & _). rewrite Hnil in Ht. cbn in Ht. lia. Qed.

Lemma vote_ok_facts vote : vote_ok vote →
  consensus_data_hash (v_ledger_info vote) = vote_data_hash (v_vote_data vote) ∧
  verify V (v_author vote) (SLedgerInfo (v_ledger_info vote)) (v_signature vote) = Ret (Ok tt) ∧
  VoteData_verify (v_vote_data vote) = Ret (Ok tt) ∧ 0 < R.
Proof.
  intros (Hv & _ & HR & H0). unfold Vote_verify in Hv. apply ensure_Ok in Hv as [Hh%bool_decide_eq_true Hv].
  apply try_verify_Ok in Hv as [Hs Hv]. apply then_Ok in Hv as [_ Hv]. split_and!; [done..|].
  unfold VoteData_verify in Hv. apply ensure_Ok in Hv as [_ Hv]. apply ensure_Ok in Hv as [Hlt%Z.ltb_lt _]. lia.
Qed.

Lemma timeout_ok_facts vote t s : vote_ok vote → two_chain_timeout vote = Some (t, s) →
  to_epoch t = E ∧ to_round t = R ∧ TwoChainTimeout_verify t V = Ret (Ok tt) ∧
  verify V (v_author vote) (STimeout (mkTimeoutSigningRepr E R (hqc_round t))) s = Ret (Ok tt).
Proof.
  intros (Hv & HE & HR & _) Ht. unfold Vote_verify in Hv. apply ensure_Ok in Hv as [_ Hv].
  apply try_verify_Ok in Hv as [_ Hv]. apply then_Ok in Hv as [Hv _]. rewrite Ht in Hv.
  apply ensure_Ok in Hv as [Heq%bool_decide_eq_true Hv]. injection Heq as He Hr.
  apply then_Ok in Hv as [Htv Hv]. apply try_verify_Ok in Hv as [Hs _]. unfold signing_format in Hs.
  split_and!; [congruence..|]. by rewrite -HE -HR -He -Hr.
Qed.

(** ** The signatures of a ledger info *)

Definition lip_ok (lip : LedgerInfoWithPartialSignatures) : Prop :=
  ∀ a s, ps_signatures (partial_sigs lip) !! a = Some s → verify V a (SLedgerInfo (lip_ledger_info lip)) s = Ret (Ok tt).

Lemma lip_add_ok lip a s :
  lip_ok lip → verify V a (SLedgerInfo (lip_ledger_info lip)) s = Ret (Ok tt) → lip_ok (lip_add_signature lip a s).
Proof. intros Hok Hs b s' [[-> ->]|Hb]%or_insert_Some; [done|by apply Hok]. Qed.

Lemma lip_add_signers lip a s b : b ∈ lip_signers (lip_add_signature lip a s) ↔ b = a ∨ b ∈ lip_signers lip.
Proof. unfold lip_signers. rewrite !elem_of_btree_keys. apply or_insert_keys. Qed.

(** The signers of verified signatures are validators, and their power is summed up. *)
Lemma known_power {X} (P : gmap AccountAddress X) (msg : X → Signable) (sig_of : X → Signature) :
  (∀ a x, P !! a = Some x → verify V a (msg x) (sig_of x) = Ret (Ok tt)) →
  check_voting_power V (btree_iter P).*1
  = Ret (if power V (btree_iter P).*1 <? quorum_voting_power V
         then Err (TooLittleVotingPower (power V (btree_iter P).*1) (quorum_voting_power V)) else Ok tt).
Proof.
  intros Hver. apply check_voting_power_spec; [done|apply NoDup_btree_iter|].
  intros a [x Hx]%elem_of_btree_keys. apply Hver in Hx. destruct (verify_Ok _ _ _ _ Hx) as (k & ? & _). by exists k.
Qed.

Lemma lip_power lip : lip_ok lip →
  check_voting_power V (lip_signers lip)
  = Ret (if power V (lip_signers lip) <? quorum_voting_power V
         then Err (TooLittleVotingPower (power V (lip_signers lip)) (quorum_voting_power V)) else Ok tt).
Proof. intros Hok. by apply (known_power _ (λ _, SLedgerInfo (lip_ledger_info lip)) id). Qed.

(** A quorum's signatures on the ledger info of a verified vote make a certificate that
    verifies. *)
Lemma quorum_cert_Ok lip vote :
  lip_ok lip → lip_ledger_info lip = v_ledger_info vote → vote_ok vote →
  quorum_voting_power V ≤ power V (lip_signers lip) →
  ∃ l, lip_aggregate_signatures lip V = Ok l ∧ ledger_info l = v_ledger_info vote ∧
    QuorumCert_verify (mkQuorumCert (v_vote_data vote) l) V = Ret (Ok tt).
Proof.
  intros Hok Hli Hvote Hq. destruct (vote_ok_facts vote Hvote) as (Hhash & _ & Hvd & HR).
  destruct (multi_signature_Ok V HV some_validators (SLedgerInfo (lip_ledger_info lip)) (ps_signatures (partial_sigs lip)))
    as (s & Hagg & Hver); [apply Hok| |].
  { change (check_voting_power V (lip_signers lip) = Ret (Ok tt)). rewrite lip_power // (proj2 (Z.ltb_ge _ _)) //. }
  exists (mkLedgerInfoWithSignatures (lip_ledger_info lip) s). unfold lip_aggregate_signatures. rewrite Hagg.
  split_and!; [done|done|]. unfold QuorumCert_verify, certified_block.
  cbn [vote_data signed_ledger_info ledger_info signatures]. rewrite Hli bool_decide_eq_true_2 //. cbn [ensure].
  destruct Hvote as (_ & _ & -> & _). rewrite (proj2 (Z.eqb_neq _ _)); [lia|].
  unfold verify_signatures. cbn [ledger_info signatures]. rewrite -Hli Hver. cbn. exact Hvd.
Qed.

(** ** The signatures of a timeout *)

Lemma tcp_add_signers T a t s b : b ∈ signers (tcp_add T a t s) ↔ b = a ∨ b ∈ signers T.
Proof. unfold signers. rewrite !elem_of_btree_keys. apply or_insert_keys. Qed.

Lemma tcp_power T : tcp_ok V E R T →
  check_voting_power V (signers T)
  = Ret (if power V (signers T) <? quorum_voting_power V
         then Err (TooLittleVotingPower (power V (signers T)) (quorum_voting_power V)) else Ok tt).
Proof.
  intros (_ & _ & _ & Hsig & _). apply (known_power _ (λ x, STimeout (mkTimeoutSigningRepr E R x.1)) snd).
  intros a [r s] Hs. by apply (Hsig a r s).
Qed.

(** The first timeout, and that of an author that has not signed yet. *)
Lemma tcp_new_ok vote t s : vote_ok vote → two_chain_timeout vote = Some (t, s) →
  tcp_ok V E R (tcp_add (TwoChainTimeoutWithPartialSignatures_new t) (v_author vote) t s).
Proof.
  intros Hvote Ht. destruct (timeout_ok_facts vote t s Hvote Ht) as (HE & HR & Hver & Hs).
  unfold tcp_ok, tcp_add. cbn. rewrite Z.gtb_ltb Z.ltb_irrefl. unfold or_insert. rewrite lookup_empty. split_and!; [done..| |].
  - intros a r s' [[<- [= <- <-]]|[_ Ha]]%lookup_insert_Some; [done|by rewrite lookup_empty in Ha].
  - exists (v_author vote), s. by rewrite lookup_insert_eq.
Qed.

Lemma tcp_add_ok T vote t s :
  tcp_ok V E R T → vote_ok vote → two_chain_timeout vote = Some (t, s) → v_author vote ∉ signers T →
  tcp_ok V E R (tcp_add T (v_author vote) t s).
Proof.
  intros (HE' & HR' & Hver' & Hsig & Hmax) Hvote Ht Hnew. destruct (timeout_ok_facts vote t s Hvote Ht) as (HE & HR & Hver & Hs).
  assert (psr_signatures (tcp_signatures T) !! v_author vote = None) as Hnone.
  { apply eq_None_not_Some. by rewrite -elem_of_btree_keys. }
  unfold tcp_ok, tcp_add. cbn. unfold or_insert. rewrite Hnone.
  rewrite Z.gtb_ltb. destruct (Z.ltb_spec (hqc_round (tcp_timeout T)) (hqc_round t)); split_and!; try done.
  - intros a r s' [[<- [= <- <-]]|[_ Ha]]%lookup_insert_Some; [done|]. apply Hsig in Ha as [? ?]. split; [done|lia].
  - exists (v_author vote), s. by rewrite lookup_insert_eq.
  - intros a r s' [[<- [= <- <-]]|[_ Ha]]%lookup_insert_Some; [done|]. by apply Hsig.
  - destruct Hmax as (a & s' & Ha). exists a, s'. rewrite lookup_insert_ne //. congruence.
Qed.

(** ** The invariant *)

Definition qc_for (rs : list VoteReceptionResult) (li : LedgerInfo) : Prop :=
  ∃ qc, NewQuorumCertificate qc ∈ rs ∧ ledger_info (signed_ledger_info qc) = li.
Definition qc_in (rs : list VoteReceptionResult) : Prop := ∃ qc, NewQuorumCertificate qc ∈ rs.
Definition tc_in (rs : list VoteReceptionResult) : Prop := ∃ tc, New2ChainTimeoutCertificate tc ∈ rs.

(** After the votes [hist] with the results [rs]: every signature kept is verified, every
    author is a signer of what it voted for, and what a quorum signed has been certified. *)
Record pv_inv (hist : list Vote) (rs : list VoteReceptionResult) (pv : PendingVotes) : Prop := {
  inv_digest d i lip : li_digest_to_votes pv !! d = Some (i, lip) →
    ledger_info_hash (lip_ledger_info lip) = d ∧ lip_ok lip ∧
    (∃ w, w ∈ hist ∧ v_ledger_info w = lip_ledger_info lip) ∧
    (power V (lip_signers lip) < quorum_voting_power V ∨ qc_for rs (lip_ledger_info lip));
  inv_timeouts T : maybe_partial_2chain_tc pv = Some T →
    tcp_ok V E R T ∧ (∀ a, a ∈ signers T → ∃ v d, author_to_vote pv !! a = Some (v, d) ∧ is_timeout v = true) ∧
    (power V (signers T) < quorum_voting_power V ∨ tc_in rs);
  inv_author a v d : author_to_vote pv !! a = Some (v, d) →
    v ∈ hist ∧ v_author v = a ∧ d = ledger_info_hash (v_ledger_info v) ∧
    (∃ i lip, li_digest_to_votes pv !! d = Some (i, lip) ∧ a ∈ lip_signers lip) ∧
    (is_timeout v = true → qc_in rs ∨ ∃ T, maybe_partial_2chain_tc pv = Some T ∧ a ∈ signers T);
  inv_seen w : w ∈ hist → ∃ v d, author_to_vote pv !! v_author w = Some (v, d) ∧
    (d = ledger_info_hash (v_ledger_info w) → is_timeout w = true → is_timeout v = true);
}.

Lemma pv_inv_new : pv_inv [] [] PendingVotes_new.
Proof. split; intros *; cbn; rewrite ?lookup_empty ?elem_of_nil; done. Qed.

Lemma qc_for_app rs r li : qc_for rs li → qc_for (rs ++ [r]) li.
Proof. intros (qc & Hqc & <-). exists qc. split; [|done]. apply elem_of_app. by left. Qed.
Lemma qc_in_app rs r : qc_in rs → qc_in (rs ++ [r]).
Proof. intros (qc & Hqc). exists qc. apply elem_of_app. by left. Qed.
Lemma tc_in_app rs r : tc_in rs → tc_in (rs ++ [r]).
Proof. intros (tc & Htc). exists tc. apply elem_of_app. by left. Qed.
Local Hint Resolve qc_for_app qc_in_app tc_in_app : votes.

(** A vote that is not stored. *)
Lemma inv_skip hist rs pv vote r :
  pv_inv hist rs pv →
  (∃ v d, author_to_vote pv !! v_author vote = Some (v, d) ∧
     (d = ledger_info_hash (v_ledger_info vote) → is_timeout vote = true → is_timeout v = true)) →
  pv_inv (hist ++ [vote]) (rs ++ [r]) pv.
Proof.
  intros [Hd Ht Ha Hs] Hvote. split.
  - intros d i lip (? & ? & (w & ? & ?) & Hq)%Hd. split_and!; [done..| |].
    + exists w. split; [|done]. apply elem_of_app. by left.
    + destruct Hq; auto with votes.
  - intros T (? & ? & Hq)%Ht. split_and!; [done..|]. destruct Hq; auto with votes.
  - intros a v d (? & ? & ? & ? & Hq)%Ha. split_and!; [apply elem_of_app; by left|done..|].
    intros [Hx|Hx]%Hq; auto with votes.
  - intros w [Hx| ->%list_elem_of_singleton]%elem_of_app; [by apply Hs|done].
Qed.

(** What an author that may vote has voted before. *)
Lemma already_voted_None pv vote v d :
  already_voted pv vote = None → author_to_vote pv !! v_author vote = Some (v, d) →
  d = ledger_info_hash (v_ledger_info vote) ∧ is_timeout v = false ∧ is_timeout vote = true.
Proof.
  unfold already_voted. intros Hv Ha. rewrite Ha in Hv. case_bool_decide; [|done].
  destruct (is_timeout vote), (is_timeout v); naive_solver.
Qed.

(** A vote that is stored. *)
Lemma inv_store hist rs pv vote i lip tc' echo r :
  pv_inv hist rs pv → already_voted pv vote = None →
  let d := ledger_info_hash (v_ledger_info vote) in
  let lip' := lip_add_signature lip (v_author vote) (v_signature vote) in
  (∀ i0 lip0, li_digest_to_votes pv !! d = Some (i0, lip0) → lip0 = lip) →
  lip_ledger_info lip = v_ledger_info vote → lip_ok lip' →
  (power V (lip_signers lip') < quorum_voting_power V ∨ qc_for [r] (v_ledger_info vote)) →
  (tc' = maybe_partial_2chain_tc pv ∧ (is_timeout vote = true → qc_in [r]) ∨
   is_timeout vote = true ∧ ∃ T', tc' = Some T' ∧ tcp_ok V E R T' ∧
     (∀ b, b ∈ signers T' ↔ b = v_author vote ∨ ∃ T, maybe_partial_2chain_tc pv = Some T ∧ b ∈ signers T) ∧
     (power V (signers T') < quorum_voting_power V ∨ tc_in [r])) →
  pv_inv (hist ++ [vote]) (rs ++ [r])
    (mkPendingVotes (<[d := (i, lip')]> (li_digest_to_votes pv)) tc'
       (<[v_author vote := (vote, d)]> (author_to_vote pv)) echo).
Proof.
  intros [Hd Ht Ha Hs] Hnone d lip' Hold Hli Hok Hq Htc.
  assert (qc_in [r] → qc_in (rs ++ [r])) as Hr1 by (intros [x ?]; exists x; apply elem_of_app; by right).
  assert (qc_for [r] (v_ledger_info vote) → qc_for (rs ++ [r]) (v_ledger_info vote)) as Hr2
    by (intros (x & ? & ?); exists x; split; [apply elem_of_app; by right|done]).
  assert (tc_in [r] → tc_in (rs ++ [r])) as Hr3 by (intros [x ?]; exists x; apply elem_of_app; by right).
  assert (∀ v0 d0, author_to_vote pv !! v_author vote = Some (v0, d0) → is_timeout v0 = false) as Hold'.
  { intros v0 d0 Hv0. by apply (already_voted_None pv vote v0 d0). }
  split; cbn [li_digest_to_votes maybe_partial_2chain_tc author_to_vote].
  - intros d0 i0 lip0 [[<- [= <- <-]]|[_ (? & ? & (w & ? & ?) & Hq0)%Hd]]%lookup_insert_Some.
    + cbn [lip_add_signature lip_ledger_info]. rewrite Hli. split_and!; [done..| |naive_solver].
      exists vote. split; [apply elem_of_app; right; by left|done].
    + split_and!; [done..|exists w; split; [apply elem_of_app; by left|done]|]. destruct Hq0; auto with votes.
  - intros T HT. destruct Htc as [[-> _]|(Hto & T' & -> & HT' & Hsign & Hq')].
    + destruct (Ht T HT) as (? & Hsign & Hq'). split_and!; [done| |destruct Hq'; auto with votes].
      intros a (v0 & d0 & Hv0 & Hto)%Hsign. exists v0, d0. split; [|done]. rewrite lookup_insert_ne //.
      intros <-. specialize (Hold' _ _ Hv0). congruence.
    + injection HT as <-. split_and!; [done| |naive_solver]. intros a [->|(T & HT & Hin)]%Hsign.
      { exists vote, d. by rewrite lookup_insert_eq. }
      destruct (decide (a = v_author vote)) as [->|Hne]; [exists vote, d; by rewrite lookup_insert_eq|].
      rewrite lookup_insert_ne //. destruct (Ht T HT) as (_ & Hsign' & _). by apply Hsign'.
  - intros a v0 d0 [[<- [= <- <-]]|[Hne (? & ? & -> & (i0 & lip0 & Hlip0 & Hin) & Hq0)%Ha]]%lookup_insert_Some.
    + split_and!; [apply elem_of_app; right; by left|done..| |].
      * exists i, lip'. rewrite lookup_insert_eq. split; [done|]. apply lip_add_signers. by left.
      * intros Hto. destruct Htc as [[-> Hqc]|(_ & T' & -> & _ & Hsign & _)]; [left; by apply Hr1, Hqc|right].
        exists T'. split; [done|]. apply Hsign. by left.
    + split_and!; [apply elem_of_app; by left|done..| |].
      * destruct (decide (ledger_info_hash (v_ledger_info v0) = d)) as [Heq|Hd0].
        -- exists i, lip'. rewrite Heq lookup_insert_eq. split; [done|]. rewrite Heq in Hlip0.
           apply lip_add_signers. right. by rewrite -(Hold _ _ Hlip0).
        -- exists i0, lip0. by rewrite lookup_insert_ne.
      * intros [Hx|(T & HT & HinT)]%Hq0; [left; auto with votes|right].
        destruct Htc as [[-> _]|(_ & T' & -> & _ & Hsign & _)]; [by exists T|]. exists T'. split; [done|]. apply Hsign. right. by exists T.
  - intros w [Hw| ->%list_elem_of_singleton]%elem_of_app; [|exists vote, d; by rewrite lookup_insert_eq].
    destruct (Hs w Hw) as (v0 & d0 & Hv0 & Hto). destruct (decide (v_author w = v_author vote)) as [Heq|Hne].
    + exists vote, d. rewrite Heq lookup_insert_eq. split; [done|]. intros Hdw Htw. rewrite Heq in Hv0.
      by apply (already_voted_None pv vote v0 d0).
    + exists v0, d0. by rewrite lookup_insert_ne.
Qed.

(** ** What is returned *)

(** [f + 1] is the least power that is not within the faulty share. *)
Definition result_ok (hist : list Vote) (vote : Vote) (r : VoteReceptionResult) : Prop :=
  match r with
  | VoteAdded p => 0 ≤ p < quorum_voting_power V
  | DuplicateVote => ∃ w, w ∈ hist ∧ v_author w = v_author vote ∧ v_ledger_info w = v_ledger_info vote ∧
      (is_timeout vote = true → is_timeout w = true)
  | EquivocateVote => ∃ w, w ∈ hist ∧ v_author w = v_author vote ∧ v_ledger_info w ≠ v_ledger_info vote
  | NewQuorumCertificate qc =>
      QuorumCert_verify qc V = Ret (Ok tt) ∧ vote_data qc = v_vote_data vote ∧
      ledger_info (signed_ledger_info qc) = v_ledger_info vote
  | New2ChainTimeoutCertificate tc =>
      TwoChainTimeoutCertificate_verify tc V = Ret (Ok tt) ∧ to_epoch (tc_timeout tc) = E ∧ tc_round tc = R
  | EchoTimeout p => total_voting_power V - quorum_voting_power V < p < quorum_voting_power V ∧ is_timeout vote = true
  | ErrorAddingVote _ | ErrorAggregatingSignature _ | ErrorAggregatingTimeoutCertificate _ | UnexpectedRound _ _ => False
  end.

Lemma quorum_bounds : 0 < quorum_voting_power V ≤ total_voting_power V ∧ total_voting_power V < 2 ^ 128.
Proof.
  destruct HV as (Hok & _ & Ht & ->). rewrite decide_False; [by apply some_validators|].
  split; [split|].
  - assert (0 ≤ total_voting_power V * 2 / 3) by (apply Z.div_pos; lia). lia.
  - assert (total_voting_power V * 2 / 3 < total_voting_power V) by (apply Z.div_lt_upper_bound; lia). lia.
  - pose proof Hok as (_ & Hpow & Hlen). assert (power_of (λ _, true) (validator_infos V) ≤ 2 ^ 64 * Z.of_nat (length (validator_infos V))); [|lia].
    clear -Hpow. induction Hpow as [|x l Hx _ IH]; unfold power_of in *; cbn [foldr length]; lia.
Qed.

Lemma power_nonneg l : 0 ≤ power V l.
Proof. apply power_of_nonneg. apply HV. Qed.

(** Steps 4 and 5, on the state in which the vote is stored. *)
Lemma insert_timeout_ok hist pv vote p :
  (∀ T, maybe_partial_2chain_tc pv = Some T → tcp_ok V E R T ∧ (is_timeout vote = true → v_author vote ∉ signers T)) →
  vote_ok vote → 0 ≤ p < quorum_voting_power V →
  ∃ tc' echo r,
    insert_timeout pv vote V p = Ret (mkPendingVotes (li_digest_to_votes pv) tc' (author_to_vote pv) echo, r) ∧
    result_ok hist vote r ∧
    (tc' = maybe_partial_2chain_tc pv ∧ (is_timeout vote = true → qc_in [r]) ∨
     is_timeout vote = true ∧ ∃ T', tc' = Some T' ∧ tcp_ok V E R T' ∧
       (∀ b, b ∈ signers T' ↔ b = v_author vote ∨ ∃ T, maybe_partial_2chain_tc pv = Some T ∧ b ∈ signers T) ∧
       (power V (signers T') < quorum_voting_power V ∨ tc_in [r])).
Proof.
  intros Htc Hvote Hp. unfold insert_timeout, is_timeout in *. destruct (two_chain_timeout vote) as [[t s]|] eqn:Ht.
  2: { destruct pv as [M tc A echo]. exists tc, echo, (VoteAdded p). split_and!; [done|done|]. by left. }
  set T' := tcp_add _ _ _ _.
  assert (tcp_ok V E R T') as HT'.
  { unfold T'. destruct (maybe_partial_2chain_tc pv) as [T|] eqn:HT; cbn [default].
    - destruct (Htc T) as [? ?]; [done|]. apply tcp_add_ok; auto.
    - by apply tcp_new_ok. }
  assert (∀ b, b ∈ signers T' ↔ b = v_author vote ∨ ∃ T, maybe_partial_2chain_tc pv = Some T ∧ b ∈ signers T) as Hsign.
  { intros b. unfold T'. rewrite tcp_add_signers. destruct (maybe_partial_2chain_tc pv) as [T|]; cbn [default]; [naive_solver|].
    cbn. split; [intros [->|Hx]; [by left|]|intros [->|(T & ? & _)]; [by left|done]].
    unfold signers in Hx. cbn in Hx. by apply elem_of_btree_keys in Hx as [? ?]. }
  rewrite tcp_power //. destruct (Z.ltb_spec (power V (signers T')) (quorum_voting_power V)) as [Hlt|Hge]; cbn.
  - destruct quorum_bounds as [[Hq0 Hq1] Hmax]. destruct (echo_timeout pv).
    { eexists _, _, _. split_and!; [done|done|]. right. split; [done|]. exists T'. split_and!; auto. }
    unfold u128_sub, checked_u128. rewrite (proj2 (Z.ltb_ge _ _)) //. cbn. rewrite (proj2 (Z.ltb_lt _ _)); [lia|]. cbn.
    destruct (Z.leb_spec (total_voting_power V - quorum_voting_power V + 1) (power V (signers T')));
      eexists _, _, _; (split_and!; [done| |right; split; [done|]; exists T'; split_and!; auto]); cbn; [|done].
    unfold is_timeout. rewrite Ht. lia.
  - destruct (timeout_certificate_Ok V HV some_validators E R T' HT') as (tc & Hagg & Hver & Htc').
    { rewrite tcp_power // (proj2 (Z.ltb_ge _ _)) //. }
    rewrite Hagg. cbn. eexists _, _, _. split_and!; [done| |].
    + destruct HT' as (? & ? & _). unfold result_ok, tc_round. rewrite Htc'. by split_and!.
    + right. split; [done|]. exists T'. split_and!; auto. right. exists tc. by left.
Qed.

Lemma insert_vote_ok hist rs pv vote :
  pv_inv hist rs pv → vote_ok vote →
  (∀ w, w ∈ hist → ledger_info_hash (v_ledger_info w) = ledger_info_hash (v_ledger_info vote) →
     v_ledger_info w = v_ledger_info vote) →
  ∃ pv' r, insert_vote pv vote V = Ret (pv', r) ∧ result_ok hist vote r ∧ pv_inv (hist ++ [vote]) (rs ++ [r]) pv'.
Proof.
  intros Hinv Hvote Hcoll. unfold insert_vote. destruct (already_voted pv vote) as [r|] eqn:Hvoted.
  { eexists _, _. split_and!; [done|..]; unfold already_voted in Hvoted;
      destruct (author_to_vote pv !! v_author vote) as [[w d]|] eqn:Ha; try done;
      destruct (inv_author _ _ _ Hinv _ _ _ Ha) as (Hw & Hauth & -> & _).
    - case_bool_decide as Hd; [|injection Hvoted as <-; exists w; split_and!; congruence].
      destruct (is_timeout vote && negb (is_timeout w)) eqn:Hto; [done|]. injection Hvoted as <-.
      exists w. split_and!; [done|done|by apply Hcoll|]. intros Htv. rewrite Htv in Hto. by destruct (is_timeout w).
    - apply inv_skip; [done|]. eexists _, _. split; [exact Ha|]. intros Hd Htv. case_bool_decide; [|done].
      rewrite Htv in Hvoted. by destruct (is_timeout w). }
  set d := ledger_info_hash (v_ledger_info vote). destruct (vote_ok_facts vote Hvote) as (_ & Hsig & _).
  destruct (default _ _) as [i lip] eqn:Hlip.
  assert (lip_ok lip ∧ lip_ledger_info lip = v_ledger_info vote ∧
    ∀ i0 lip0, li_digest_to_votes pv !! d = Some (i0, lip0) → lip0 = lip) as (Hok & Hli & Hold).
  { destruct (li_digest_to_votes pv !! d) as [[i0 lip0]|] eqn:Hd; cbn in Hlip; injection Hlip as <- <-.
    - destruct (inv_digest _ _ _ Hinv _ _ _ Hd) as (Hh & Hok & (w & Hw & Hli) & _). split_and!; [done| |naive_solver].
      rewrite -Hli. apply Hcoll; [done|]. rewrite Hli. exact Hh.
    - split_and!; [by intros ? ?|done|done]. }
  set lip' := lip_add_signature lip (v_author vote) (v_signature vote).
  assert (lip_ok lip') as Hok' by (apply lip_add_ok; [done|by rewrite Hli]).
  destruct (verify_Ok _ _ _ _ Hsig) as (k & Hk & _).
  destruct (known_index V (v_author vote) HV) as (j & info & Hj & Hinfo & _); [by exists k|].
  unfold get_voting_power. rewrite Hj Hinfo. cbn [expect mbind comp_bind]. rewrite lip_power //.
  destruct (Z.ltb_spec (power V (lip_signers lip')) (quorum_voting_power V)) as [Hlt|Hge]; cbn -[insert_timeout].
  - match goal with |- context [insert_timeout ?pv' _ _ ?p] =>
      destruct (insert_timeout_ok hist pv' vote p) as (tc' & echo & r & -> & Hres & Htc); [|exact Hvote| |] end.
    3: { eexists _, _. split_and!; [done..|]. apply inv_store; auto. }
    + intros T HT. destruct (inv_timeouts _ _ _ Hinv T HT) as (? & Hsign & _). split; [done|].
      intros _ (w & d0 & Hw & Hto)%Hsign. destruct (already_voted_None _ _ _ _ Hvoted Hw) as (_ & ? & _). congruence.
    + split; [apply power_nonneg|done].
  - destruct (quorum_cert_Ok lip' vote Hok' Hli Hvote Hge) as (l & -> & Hl & Hver). eexists _, _.
    split_and!; [done|by split_and!|]. apply inv_store; auto.
    + right. eexists. split; [by left|done].
    + left. split; [done|]. intros _. eexists. by left.
Qed.

(** The hash separates the ledger infos that are voted for. *)
Definition no_collision (votes : list Vote) : Prop :=
  ∀ v w, v ∈ votes → w ∈ votes →
    ledger_info_hash (v_ledger_info v) = ledger_info_hash (v_ledger_info w) → v_ledger_info v = v_ledger_info w.

Lemma insert_votes_ok hist rs pv votes :
  pv_inv hist rs pv → Forall vote_ok votes → no_collision (hist ++ votes) →
  ∃ pv' rs', insert_votes pv votes V = Ret (pv', rs') ∧ pv_inv (hist ++ votes) (rs ++ rs') pv' ∧ length rs' = length votes ∧
    ∀ k vote r, votes !! k = Some vote → rs' !! k = Some r → result_ok (hist ++ take k votes) vote r.
Proof.
  revert hist rs pv. induction votes as [|vote votes IH]; intros hist rs pv Hinv Hok Hcoll.
  { exists pv, []. rewrite !app_nil_r. by split_and!. }
  apply Forall_cons in Hok as [Hv Hok]. destruct (insert_vote_ok hist rs pv vote Hinv Hv) as (pv1 & r & Hrun & Hr & Hinv1).
  { intros w Hw Hh. apply Hcoll; [set_solver..|done]. }
  destruct (IH _ _ _ Hinv1 Hok) as (pv' & rs' & Hruns & Hinv' & Hlen & Hrs); [by rewrite -app_assoc|].
  exists pv', (r :: rs'). cbn [insert_votes]. rewrite Hrun. cbn [mbind comp_bind fst snd]. rewrite Hruns.
  rewrite -!app_assoc in Hinv'. split_and!; [done|done|cbn; congruence|].
  intros [|k] w rw; cbn [lookup list_lookup take]; [intros [= <-] [= <-]; by rewrite app_nil_r|].
  intros Hw Hrw. specialize (Hrs k w rw Hw Hrw). by rewrite -app_assoc in Hrs.
Qed.

(** C23: what collecting votes returns is right.  When verified votes of epoch [E] and round
    [R] are inserted one after the other, whatever their order and whatever else their
    authors sign, [insert_vote] neither panics nor returns an error.  Every quorum
    certificate it returns passes [QuorumCert::verify] and certifies the vote's data,
    and every timeout certificate passes [TwoChainTimeoutCertificate::verify] and is for
    this round.  [DuplicateVote] and [EquivocateVote] are returned only to an author with
    an earlier vote for the same, or for another ledger info, and [EchoTimeout] only on
    timeouts of more power than the faulty validators can have. *)
Theorem pending_votes_sound votes :
  Forall vote_ok votes → no_collision votes →
  ∃ pv rs, insert_votes PendingVotes_new votes V = Ret (pv, rs) ∧ length rs = length votes ∧
    ∀ k vote r, votes !! k = Some vote → rs !! k = Some r → result_ok (take k votes) vote r.
Proof.
  intros Hok Hcoll. destruct (insert_votes_ok [] [] PendingVotes_new votes) as (pv & rs & ? & _ & ? & ?); [apply pv_inv_new|done..|].
  by exists pv, rs.
Qed.

(** What the authors of a quorum have signed has the power of a quorum. *)
Lemma quorum_signed Q l : is_quorum V Q → (∀ a, a ∈ Q → a ∈ l) → quorum_voting_power V ≤ power V l.
Proof.
  intros HQ Hin. etrans; [exact HQ|]. apply power_of_mono; [apply HV|].
  intros a. rewrite !bool_decide_eq_true. apply Hin.
Qed.

Lemma quorum_member Q : is_quorum V Q → ∃ a, a ∈ Q.
Proof.
  intros HQ. destruct Q as [|a Q]; [|exists a; by left]. pose proof (quorum_not_empty V HV some_validators).
  unfold is_quorum in HQ. unfold power in *. lia.
Qed.

(** C24: a quorum is enough.  If the authors of a quorum all vote for one ledger info, and
    never for another one, then one of the votes is answered with a quorum certificate
    for it; if they all send a timeout, then one is answered with a quorum certificate or
    a timeout certificate.  The order of the votes, repeated votes, votes that become
    timeouts later and the votes of the other validators do not matter. *)
Theorem quorum_certified votes Q pv rs :
  Forall vote_ok votes → no_collision votes → insert_votes PendingVotes_new votes V = Ret (pv, rs) → is_quorum V Q →
  (∀ v w, v ∈ votes → w ∈ votes → v_author v ∈ Q → v_author w = v_author v → v_ledger_info w = v_ledger_info v) →
  (∀ li, (∀ a, a ∈ Q → ∃ v, v ∈ votes ∧ v_author v = a ∧ v_ledger_info v = li) →
     ∃ qc, NewQuorumCertificate qc ∈ rs ∧ ledger_info (signed_ledger_info qc) = li) ∧
  ((∀ a, a ∈ Q → ∃ v, v ∈ votes ∧ v_author v = a ∧ is_timeout v = true) →
     (∃ qc, NewQuorumCertificate qc ∈ rs) ∨ ∃ tc, New2ChainTimeoutCertificate tc ∈ rs).
Proof.
  intros Hok Hcoll Hrun HQ Hone.
  destruct (insert_votes_ok [] [] PendingVotes_new votes pv_inv_new Hok Hcoll) as (pv' & rs' & Hrun' & [Hd Ht Ha Hs] & _).
  rewrite Hrun in Hrun'. injection Hrun' as <- <-. cbn [app] in *. destruct (quorum_member Q HQ) as [a0 Ha0]. split.
  - intros li Hvotes.
    assert (∀ a, a ∈ Q → ∃ i lip, li_digest_to_votes pv !! ledger_info_hash li = Some (i, lip) ∧ a ∈ lip_signers lip) as Hin.
    { intros a HaQ. destruct (Hvotes a HaQ) as (v & Hv & <- & <-). destruct (Hs v Hv) as (w & d & Hw & _).
      destruct (Ha _ _ _ Hw) as (Hw' & Hauth & -> & Hlip & _). by rewrite (Hone v w) in Hlip. }
    destruct (Hin a0 Ha0) as (i & lip & Hlip & _). destruct (Hd _ _ _ Hlip) as (Hh & _ & (w & Hw & Hli) & [Hlt|Hqc]).
    + exfalso. apply Z.lt_nge in Hlt. apply Hlt, (quorum_signed Q); [done|].
      intros a (i' & lip' & Hlip' & Hsig)%Hin. by simplify_eq.
    + destruct (Hvotes a0 Ha0) as (v & Hv & _ & <-). rewrite -Hli in Hh. by rewrite -Hli (Hcoll w v Hw Hv Hh) in Hqc.
  - intros Hvotes. assert (∀ a, a ∈ Q → qc_in rs ∨ ∃ T, maybe_partial_2chain_tc pv = Some T ∧ a ∈ signers T) as Hin.
    { intros a HaQ. destruct (Hvotes a HaQ) as (v & Hv & <- & Hto). destruct (Hs v Hv) as (w & d & Hw & Htw).
      destruct (Ha _ _ _ Hw) as (Hw' & Hauth & -> & _ & Hsig). apply Hsig, Htw; [|done]. by rewrite (Hone v w). }
    destruct (Hin a0 Ha0) as [Hqc|(T & HT & _)]; [by left|]. destruct (Ht T HT) as (_ & _ & [Hlt|Htc]); [|by right].
    destruct (decide (Forall (.∈ signers T) Q)) as [Hall|Hex].
    + exfalso. apply Z.lt_nge in Hlt. apply Hlt, (quorum_signed Q); [done|]. by apply Forall_forall.
    + apply not_Forall_Exists, Exists_exists in Hex as (a & HaQ & Hno); [|tc_solve]. left.
      destruct (Hin a HaQ) as [Hqc|(T0 & HT0 & Hin0)]; [done|]. simplify_eq. by destruct Hno.
Qed.
End votes.
End pending_votes.
