(* ===== verification/RoundState.v ===== *)
(** * Rounds

    Models [consensus/src/liveness/round_state.rs]: the round a validator is in, its
    pending votes and its timer, moved forward by the certificates of a [SyncInfo]
    ([consensus/consensus-types/src/sync_info.rs]).  The duration of a round
    ([RoundTimeInterval], floating-point arithmetic) and the clock ([TimeService]) are
    parameters; times are in nanoseconds. *)
From stdpp Require Import strings.
From S2P Require Import Prelude BitVec ValidatorVerifier U64 ConsensusData Certificates PendingVotes.
Local Open Scope string_scope.
Local Open Scope Z_scope.

(** ** Sync infos *)

Section sync_info.
Context `{CT : ConsensusTypes, CE : !ConsensusEnv, BL : !Bls Signable}.

Record SyncInfo : Type := mkSyncInfo {
  highest_quorum_cert : QuorumCert;
  maybe_highest_ordered_cert : option QuorumCert;
  highest_commit_cert : QuorumCert;
  highest_2chain_timeout_cert : option TwoChainTimeoutCertificate;
}.

Definition new_decoupled (highest_quorum_cert highest_ordered_cert highest_commit_cert : QuorumCert)
    (highest_2chain_timeout_cert : option TwoChainTimeoutCertificate) : SyncInfo :=
  mkSyncInfo highest_quorum_cert
    (if bool_decide (highest_ordered_cert ≠ highest_quorum_cert) then Some highest_ordered_cert else None)
    highest_commit_cert
    (tc ← highest_2chain_timeout_cert;
     if tc_round tc >? bi_round (certified_block highest_quorum_cert) then Some tc else None).

Definition SyncInfo_new (highest_quorum_cert highest_ordered_cert : QuorumCert)
    (highest_2chain_timeout_cert : option TwoChainTimeoutCertificate) : SyncInfo :=
  new_decoupled highest_quorum_cert highest_ordered_cert highest_ordered_cert highest_2chain_timeout_cert.

Definition highest_ordered_cert (self : SyncInfo) : QuorumCert :=
  default (highest_quorum_cert self) (maybe_highest_ordered_cert self).
Definition highest_certified_round (self : SyncInfo) : Round := bi_round (certified_block (highest_quorum_cert self)).
Definition highest_timeout_round (self : SyncInfo) : Round :=
  match highest_2chain_timeout_cert self with Some tc => tc_round tc | None => 0 end.
Definition highest_ordered_round (self : SyncInfo) : Round := bi_round (qc_commit_info (highest_ordered_cert self)).
Definition highest_commit_round (self : SyncInfo) : Round := bi_round (qc_commit_info (highest_commit_cert self)).
Definition highest_round (self : SyncInfo) : Round := Z.max (highest_certified_round self) (highest_timeout_round self).

Definition SyncInfo_verify (self : SyncInfo) (validator : ValidatorVerifier) : comp (result anyhow unit) :=
  let epoch := bi_epoch (certified_block (highest_quorum_cert self)) in
  ensure (epoch =? bi_epoch (certified_block (highest_ordered_cert self))) "Multi epoch in SyncInfo - HOC and HQC" $
  ensure (epoch =? bi_epoch (qc_commit_info (highest_commit_cert self))) "Multi epoch in SyncInfo - HOC and HCC" $
  ensure (match highest_2chain_timeout_cert self with Some tc => epoch =? to_epoch (tc_timeout tc) | None => true end)
    "Multi epoch in SyncInfo - TC and HQC" $
  ensure (bi_round (certified_block (highest_ordered_cert self)) <=? highest_certified_round self)
    "HQC has lower round than HOC" $
  ensure (highest_commit_round self <=? bi_round (certified_block (highest_ordered_cert self)))
    "HOC has lower round than HLI" $
  ensure (bool_decide (qc_commit_info (highest_ordered_cert self) ≠ BlockInfo_empty)) "HOC has no committed block" $
  ensure (bool_decide (qc_commit_info (highest_commit_cert self) ≠ BlockInfo_empty)) "HLI has empty commit info" $
  then_ (QuorumCert_verify (highest_quorum_cert self) validator) $
  then_ (match maybe_highest_ordered_cert self with Some cert => QuorumCert_verify cert validator | None => Ret (Ok tt) end) $
  then_ (if highest_commit_round self >? 0 then QuorumCert_verify (highest_commit_cert self) validator else Ret (Ok tt)) $
  then_ (match highest_2chain_timeout_cert self with
         | Some tc => TwoChainTimeoutCertificate_verify tc validator
         | None => Ret (Ok tt)
         end) $
  Ret (Ok tt).

End sync_info.

(** ** Round states *)

(** [Duration], in nanoseconds. *)
Definition duration_max : Z := 2 ^ 64 * 1000000000 - 1.
Definition checked_duration (d : Z) : comp Z := if d <=? duration_max then Ret d else Panic.

Section round_state.
Context `{CT : ConsensusTypes, CE : !ConsensusEnv, BL : !Bls Signable, HC : !Countable HashValue}.
Context (ledger_info_hash : LedgerInfo → HashValue) (get_round_duration : Z → Z).

Inductive NewRoundReason : Type := QCReady | Timeout.

Record NewRoundEvent : Type := mkNewRoundEvent {
  nr_round : Round;
  nr_reason : NewRoundReason;
  nr_timeout : Z;
  prev_round_votes : list (HashValue * LedgerInfoWithPartialSignatures);
  prev_round_timeout_votes : option TwoChainTimeoutWithPartialSignatures;
}.

(** The task that sends a local timeout event: the handle of the previous one is aborted
    when it is replaced. *)
Record SendTask : Type := mkSendTask { task_after : Z; task_round : Round }.

Record RoundState : Type := mkRoundState {
  highest_committed_round : Round;
  current_round : Round;
  current_round_deadline : Z;
  pending_votes : PendingVotes;
  vote_sent : option Vote;
  abort_handle : option SendTask;
}.

Definition RoundState_new (now : Z) : RoundState := mkRoundState 0 0 now PendingVotes_new None None.

Definition setup_deadline (self : RoundState) (multiplier now : Z) : comp (RoundState * Z) :=
  index ← (if highest_committed_round self =? 0 then u64_sub (current_round self) 1
           else three ← u64_add (highest_committed_round self) 3;
                if current_round self <? three then Ret 0
                else d ← u64_sub (current_round self) (highest_committed_round self); u64_sub d 3);
  timeout ← checked_duration (get_round_duration index * multiplier);
  deadline ← checked_duration (now + timeout);
  Ret (mkRoundState (highest_committed_round self) (current_round self) deadline (pending_votes self)
         (vote_sent self) (abort_handle self), timeout).

Definition setup_timeout (self : RoundState) (multiplier now : Z) : comp (RoundState * Z) :=
  r ← setup_deadline self multiplier now;
  let '(self, timeout) := r in
  Ret (mkRoundState (highest_committed_round self) (current_round self) (current_round_deadline self)
         (pending_votes self) (vote_sent self) (Some (mkSendTask timeout (current_round self))), timeout).

Definition setup_leader_timeout (self : RoundState) (now : Z) : comp RoundState :=
  r ← setup_timeout self 2 now; Ret r.1.

Definition process_local_timeout (self : RoundState) (round : Round) (now : Z) : comp (RoundState * bool) :=
  if bool_decide (round ≠ current_round self) then Ret (self, false) else
  r ← setup_timeout self 1 now; Ret (r.1, true).

Definition process_certificates (self : RoundState) (sync_info : SyncInfo) (now : Z) :
    comp (RoundState * option NewRoundEvent) :=
  let self :=
    mkRoundState
      (if highest_ordered_round sync_info >? highest_committed_round self then highest_ordered_round sync_info
       else highest_committed_round self)
      (current_round self) (current_round_deadline self) (pending_votes self) (vote_sent self) (abort_handle self) in
  new_round ← u64_add (highest_round sync_info) 1;
  if new_round >? current_round self then
    let '(_, (prev_round_votes, prev_round_timeout_votes)) := drain_votes (pending_votes self) in
    let self :=
      mkRoundState (highest_committed_round self) new_round (current_round_deadline self) PendingVotes_new None
        (abort_handle self) in
    r ← setup_timeout self 1 now;
    let '(self, timeout) := r in
    certified ← u64_add (highest_certified_round sync_info) 1;
    let new_round_reason := if certified =? new_round then QCReady else Timeout in
    Ret (self, Some (mkNewRoundEvent (current_round self) new_round_reason timeout
                       prev_round_votes prev_round_timeout_votes))
  else Ret (self, None).

Definition RoundState_insert_vote (self : RoundState) (vote : Vote) (verifier : ValidatorVerifier) :
    comp (RoundState * VoteReceptionResult) :=
  let vote_round := bi_round (proposed (v_vote_data vote)) in
  if vote_round =? current_round self then
    r ← insert_vote ledger_info_hash (pending_votes self) vote verifier;
    Ret (mkRoundState (highest_committed_round self) (current_round self) (current_round_deadline self) r.1
           (vote_sent self) (abort_handle self), r.2)
  else Ret (self, UnexpectedRound vote_round (current_round self)).

Definition record_vote (self : RoundState) (vote : Vote) : RoundState :=
  if bi_round (proposed (v_vote_data vote)) =? current_round self then
    mkRoundState (highest_committed_round self) (current_round self) (current_round_deadline self) (pending_votes self)
      (Some vote) (abort_handle self)
  else self.

(** ** Reachable states *)

Section reachable.
Context {BC : BlsCorrect Signable} (V : ValidatorVerifier) (HV : verifier_ok V) (Hpos : 0 < total_voting_power V) (E : Z).

(** Intervals are made of [u64] milliseconds. *)
Context (Hduration : ∀ i, 0 ≤ get_round_duration i < 2 ^ 64 * 1000000).

Definition time_ok (now : Z) : Prop := 0 ≤ now ≤ duration_max - 2 ^ 65 * 1000000.

(** Rounds that are not at the very end of [u64]. *)
Definition round_ok (r : Round) : Prop := 0 ≤ r ≤ u64_max - 3.
Definition sync_ok (sync_info : SyncInfo) : Prop :=
  round_ok (highest_certified_round sync_info) ∧ round_ok (highest_timeout_round sync_info) ∧
  round_ok (highest_ordered_round sync_info).

(** A verified vote, of any round. *)
Definition verified_vote (vote : Vote) : Prop := vote_ok V E (bi_round (proposed (v_vote_data vote))) vote.

(** A validator starts with the certificates it has stored; [votes] are the votes that
    have been received. *)
Inductive reachable : list Vote → RoundState → Prop :=
  | reach_start t0 sync_info now st ev :
      sync_ok sync_info → time_ok now → process_certificates (RoundState_new t0) sync_info now = Ret (st, ev) →
      reachable [] st
  | reach_certificates votes st sync_info now st' ev :
      reachable votes st → sync_ok sync_info → time_ok now →
      process_certificates st sync_info now = Ret (st', ev) → reachable votes st'
  | reach_vote votes st vote st' r :
      reachable votes st → verified_vote vote → no_collision ledger_info_hash (votes ++ [vote]) →
      RoundState_insert_vote st vote V = Ret (st', r) → reachable (votes ++ [vote]) st'
  | reach_record votes st vote : reachable votes st → reachable votes (record_vote st vote)
  | reach_timeout votes st round now st' b :
      reachable votes st → time_ok now → process_local_timeout st round now = Ret (st', b) → reachable votes st'
  | reach_leader votes st now st' :
      reachable votes st → time_ok now → setup_leader_timeout st now = Ret st' → reachable votes st'.

(** The pending votes, the vote sent and the timer are those of the current round. *)
Record rs_inv (votes : list Vote) (st : RoundState) : Prop := {
  inv_round : 1 ≤ current_round st;
  inv_committed : round_ok (highest_committed_round st);
  inv_pending : ∃ hist rs, hist ⊆ votes ∧ pv_inv ledger_info_hash V E (current_round st) hist rs (pending_votes st);
  inv_vote_sent vote : vote_sent st = Some vote → bi_round (proposed (v_vote_data vote)) = current_round st;
  inv_timer : task_round <$> abort_handle st = Some (current_round st);
}.

Lemma setup_timeout_ok st m now :
  1 ≤ current_round st → round_ok (highest_committed_round st) → time_ok now → 0 ≤ m ≤ 2 →
  ∃ deadline t, setup_timeout st m now
    = Ret (mkRoundState (highest_committed_round st) (current_round st) deadline (pending_votes st) (vote_sent st)
             (Some (mkSendTask t (current_round st))), t).
Proof.
  intros Hr Hc Hnow Hm. unfold setup_timeout, setup_deadline, round_ok, time_ok, duration_max in *.
  assert (∃ i, (if highest_committed_round st =? 0 then u64_sub (current_round st) 1
           else three ← u64_add (highest_committed_round st) 3;
                if current_round st <? three then Ret 0
                else d ← u64_sub (current_round st) (highest_committed_round st); u64_sub d 3) = Ret i) as [i ->].
  { destruct (Z.eqb_spec (highest_committed_round st) 0); [rewrite u64_sub_Ret; [lia|by eexists]|].
    rewrite u64_add_Ret; [lia|]. cbn. destruct (Z.ltb_spec (current_round st) (highest_committed_round st + 3)); [by eexists|].
    rewrite u64_sub_Ret; [lia|]. cbn. rewrite u64_sub_Ret; [lia|by eexists]. }
  pose proof (Hduration i). cbn. unfold checked_duration, duration_max.
  rewrite (proj2 (Z.leb_le _ _)); [nia|]. cbn. rewrite (proj2 (Z.leb_le _ _)); [nia|]. by eexists _, _.
Qed.

(** The rounds only go up. *)
Lemma process_certificates_ok st sync_info now :
  0 ≤ current_round st → round_ok (highest_committed_round st) → sync_ok sync_info → time_ok now →
  let committed := Z.max (highest_committed_round st) (highest_ordered_round sync_info) in
  (highest_round sync_info < current_round st ∧
   process_certificates st sync_info now
   = Ret (mkRoundState committed (current_round st) (current_round_deadline st) (pending_votes st) (vote_sent st)
            (abort_handle st), None)) ∨
  (current_round st ≤ highest_round sync_info ∧
   ∃ deadline t,
     process_certificates st sync_info now
     = Ret (mkRoundState committed (highest_round sync_info + 1) deadline PendingVotes_new None
              (Some (mkSendTask t (highest_round sync_info + 1))),
            Some (mkNewRoundEvent (highest_round sync_info + 1)
              (if highest_certified_round sync_info =? highest_round sync_info then QCReady else Timeout) t
              ((λ '(key, (_, li)), (key, li)) <$> map_to_list (li_digest_to_votes (pending_votes st)))
              (maybe_partial_2chain_tc (pending_votes st))))).
Proof.
  intros Hr Hc (Hs1 & Hs2 & Hs3) Hnow. unfold process_certificates. cbn [current_round highest_committed_round drain_votes pending_votes
    vote_sent abort_handle current_round_deadline].
  assert ((if highest_ordered_round sync_info >? highest_committed_round st then highest_ordered_round sync_info
       else highest_committed_round st) = Z.max (highest_committed_round st) (highest_ordered_round sync_info)) as ->
    by (rewrite Z.gtb_ltb; destruct (Z.ltb_spec (highest_committed_round st) (highest_ordered_round sync_info)); lia).
  unfold round_ok in *. assert (0 ≤ highest_round sync_info ≤ u64_max - 3) by (unfold highest_round; lia).
  rewrite (u64_add_Ret (highest_round sync_info)); [lia|]. run. rewrite Z.gtb_ltb.
  destruct (Z.ltb_spec (current_round st) (highest_round sync_info + 1)); [right|left; split; [lia|done]].
  split; [lia|]. set st1 := mkRoundState _ _ _ _ _ _.
  destruct (setup_timeout_ok st1 1 now) as (deadline & t & ->); unfold st1, round_ok;
    cbn [current_round highest_committed_round]; [lia|lia|done|lia|].
  cbn. rewrite u64_add_Ret; [lia|]. cbn. exists deadline, t.
  replace (highest_certified_round sync_info + 1 =? highest_round sync_info + 1)
    with (highest_certified_round sync_info =? highest_round sync_info); [done|].
  destruct (Z.eqb_spec (highest_certified_round sync_info) (highest_round sync_info)); symmetry; [apply Z.eqb_eq|apply Z.eqb_neq]; lia.
Qed.

(** The results of a vote; see [PendingVotes.v]. *)
Lemma RoundState_insert_vote_ok votes st vote :
  rs_inv votes st → verified_vote vote → no_collision ledger_info_hash (votes ++ [vote]) →
  ∃ st' r, RoundState_insert_vote st vote V = Ret (st', r) ∧ rs_inv (votes ++ [vote]) st' ∧
    current_round st' = current_round st ∧
    (if bi_round (proposed (v_vote_data vote)) =? current_round st
     then ∃ hist, hist ⊆ votes ∧ result_ok V E (current_round st) hist vote r
     else r = UnexpectedRound (bi_round (proposed (v_vote_data vote))) (current_round st)).
Proof.
  intros [Hr Hc (hist & rs & Hsub & Hpv) Hsent Htimer] Hvote Hcoll. unfold RoundState_insert_vote.
  destruct (Z.eqb_spec (bi_round (proposed (v_vote_data vote))) (current_round st)) as [Heq|Hne].
  - unfold verified_vote in Hvote. rewrite Heq in Hvote.
    destruct (insert_vote_ok ledger_info_hash V HV Hpos E (current_round st) hist rs (pending_votes st) vote)
      as (pv' & r & -> & Hres & Hinv'); [done..| |].
    { intros w Hw Hh. apply Hcoll; [set_solver..|done]. }
    cbn. eexists _, _. split_and!; [done| |done|by exists hist]. split; cbn; [done|done| |done|done].
    exists (hist ++ [vote])%list, (rs ++ [r])%list. split; [set_solver|done].
  - exists st. eexists. split_and!; [done| |done|done]. split; [done|done| |done|done]. exists hist, rs. split; [set_solver|done].
Qed.

Lemma rs_inv_timeout votes st m now :
  rs_inv votes st → time_ok now → 0 ≤ m ≤ 2 →
  ∃ st' t, setup_timeout st m now = Ret (st', t) ∧ rs_inv votes st' ∧ current_round st' = current_round st.
Proof.
  intros [Hr Hc Hpv Hsent Htimer] Hnow Hm. destruct (setup_timeout_ok st m now Hr Hc Hnow Hm) as (deadline & t & ->).
  eexists _, _. split_and!; [done| |done]. by split.
Qed.

Lemma rs_inv_certificates votes st sync_info now st' ev :
  (current_round st = 0 ∧ highest_committed_round st = 0 ∨ rs_inv votes st) → sync_ok sync_info → time_ok now →
  process_certificates st sync_info now = Ret (st', ev) → rs_inv votes st'.
Proof.
  intros Hst Hsync Hnow Hrun. pose proof Hsync as (Hs1 & Hs2 & Hs3).
  assert (0 ≤ current_round st ∧ round_ok (highest_committed_round st)) as [Hr Hc].
  { destruct Hst as [[-> ->]|[Hr Hc _ _ _]]; [|split; [lia|done]]. unfold round_ok, u64_max. lia. }
  unfold round_ok in *. destruct (process_certificates_ok st sync_info now Hr Hc Hsync Hnow) as [[Hlt Hrun']|(Hle & deadline & t & Hrun')];
    rewrite Hrun in Hrun'; injection Hrun' as -> ->.
  - destruct Hst as [[H0 _]|[Hr' Hc' Hpv Hsent Htimer]].
    { exfalso. assert (0 ≤ highest_round sync_info) by (unfold highest_round; lia). lia. }
    split; cbn; try done. unfold round_ok. lia.
  - split; cbn; try done; [unfold highest_round; lia|unfold round_ok; lia|].
    exists [], []. split; [set_solver|apply pv_inv_new].
Qed.

Lemma reachable_inv votes st : reachable votes st → rs_inv votes st.
Proof.
  induction 1 as [t0 sync_info now st ev Hs Hn Hrun|votes st sync_info now st' ev Hreach IH Hs Hn Hrun
    |votes st vote st' r Hreach IH Hv Hcoll Hrun|votes st vote Hreach IH|votes st round now st' b Hreach IH Hn Hrun
    |votes st now st' Hreach IH Hn Hrun].
  - eapply rs_inv_certificates; [|exact Hs|exact Hn|exact Hrun]. by left.
  - eapply rs_inv_certificates; [|exact Hs|exact Hn|exact Hrun]. by right.
  - destruct (RoundState_insert_vote_ok votes st vote IH Hv Hcoll) as (? & ? & Hrun' & ? & _). rewrite Hrun in Hrun'. by simplify_eq.
  - unfold record_vote. destruct (Z.eqb_spec (bi_round (proposed (v_vote_data vote))) (current_round st)); [|done].
    destruct IH as [Hr Hc Hpv Hsent Htimer]. split; cbn; try done. by intros ? [= <-].
  - unfold process_local_timeout in Hrun. case_bool_decide; [by injection Hrun as <- <-|].
    destruct (rs_inv_timeout votes st 1 now IH Hn) as (st1 & t & Hrun' & ? & _); [lia|]. rewrite Hrun' in Hrun. by injection Hrun as <- <-.
  - unfold setup_leader_timeout in Hrun.
    destruct (rs_inv_timeout votes st 2 now IH Hn) as (st1 & t & Hrun' & ? & _); [lia|]. rewrite Hrun' in Hrun. by injection Hrun as <-.
Qed.

(** C25: rounds only go up, and everything kept belongs to the current one.  In every state
    that certificates, verified votes and timeouts lead to, no handler panics.
    Certificates start a new round exactly when they are of the current round or of a
    later one; the new round is the one after them, so the rounds of the events strictly increase,
    with the reason [QCReady] exactly when a quorum certificate leads there.  A vote of
    another round is refused and a vote of this round gets a result that is right, with
    every certificate formed verifying.  The timer and the vote
    sent are those of the current round. *)
Theorem rounds_increase votes st :
  reachable votes st →
  (∀ sync_info now, sync_ok sync_info → time_ok now →
     ∃ st' ev, process_certificates st sync_info now = Ret (st', ev) ∧
       (if current_round st <=? highest_round sync_info
        then current_round st < current_round st' ∧ current_round st' = highest_round sync_info + 1 ∧
             ∃ e, ev = Some e ∧ nr_round e = current_round st' ∧
               (nr_reason e = QCReady ↔ highest_certified_round sync_info + 1 = current_round st')
        else current_round st' = current_round st ∧ ev = None)) ∧
  (∀ vote, verified_vote vote → no_collision ledger_info_hash (votes ++ [vote]) →
     ∃ st' r, RoundState_insert_vote st vote V = Ret (st', r) ∧ current_round st' = current_round st ∧
       (if bi_round (proposed (v_vote_data vote)) =? current_round st
        then ∃ hist, hist ⊆ votes ∧ result_ok V E (current_round st) hist vote r
        else r = UnexpectedRound (bi_round (proposed (v_vote_data vote))) (current_round st))) ∧
  (∀ round now, time_ok now →
     ∃ st', process_local_timeout st round now = Ret (st', bool_decide (round = current_round st)) ∧
       current_round st' = current_round st) ∧
  (∀ now, time_ok now → ∃ st', setup_leader_timeout st now = Ret st' ∧ current_round st' = current_round st) ∧
  task_round <$> abort_handle st = Some (current_round st) ∧
  (∀ vote, vote_sent st = Some vote → bi_round (proposed (v_vote_data vote)) = current_round st).
Proof.
  intros Hreach. pose proof (reachable_inv votes st Hreach) as Hinv. pose proof Hinv as [Hr Hc _ Hsent Htimer].
  split_and!; [|  | | |done|done].
  - intros sync_info now Hs Hn.
    destruct (process_certificates_ok st sync_info now) as [[Hlt ->]|(Hle & deadline & t & ->)]; [lia|done..| |].
    + eexists _, _. split; [done|]. by rewrite (proj2 (Z.leb_gt _ _)).
    + eexists _, _. split; [done|]. rewrite (proj2 (Z.leb_le _ _)) //. cbn. split_and!; [lia|done|].
      eexists. split_and!; [done|done|]. cbn. destruct (Z.eqb_spec (highest_certified_round sync_info) (highest_round sync_info));
        split; [lia|done|done|lia].
  - intros vote Hv Hcoll. destruct (RoundState_insert_vote_ok votes st vote Hinv Hv Hcoll) as (st' & r & ? & _ & ? & ?). by exists st', r.
  - intros round now Hn. unfold process_local_timeout. destruct (decide (round = current_round st)) as [->|Hne].
    + rewrite bool_decide_eq_false_2; [naive_solver|]. rewrite bool_decide_eq_true_2 //.
      destruct (rs_inv_timeout votes st 1 now Hinv Hn) as (st1 & t & -> & _ & ?); [lia|]. by exists st1.
    + rewrite bool_decide_eq_true_2 // bool_decide_eq_false_2 //. by exists st.
  - intros now Hn. unfold setup_leader_timeout. destruct (rs_inv_timeout votes st 2 now Hinv Hn) as (st1 & t & -> & _ & ?); [lia|].
    by exists st1.
Qed.
End reachable.
End round_state.
