(* ===== verification/BlockTree.v ===== *)
(** * The tree of pending blocks

    Models [consensus/src/block_storage/block_tree.rs], the blocks a validator keeps above
    the last committed one with their certificates, and the operations of
    [consensus/src/block_storage/block_store.rs] that change it.  Executing a block and
    writing it to the consensus database are results handed to those operations, and the
    order in which a hash set is iterated is a parameter. *)
From stdpp Require Import strings.
From S2P Require Import Prelude BitVec ValidatorVerifier U64 ConsensusData Certificates PendingVotes RoundState.
Local Open Scope string_scope.
Local Open Scope Z_scope.

(** What a block tree reads of the result of executing a block. *)
Class StateCompute `{ConsensusTypes} : Type := {
  StateComputeResult : Type;
  compute_result_eq_dec :: EqDecision StateComputeResult;
  root_hash : StateComputeResult → HashValue;
  compute_version : StateComputeResult → Z;
  compute_epoch_state : StateComputeResult → option EpochState;
}.

Section block_tree.
Context `{CT : ConsensusTypes, CE : !ConsensusEnv, HC : !Countable HashValue, SC : !StateCompute}.
Context (hash_iter : gset HashValue → list HashValue).

Record ExecutedBlock : Type := mkExecutedBlock { eb_block : Block; state_compute_result : StateComputeResult }.

Definition eb_id (self : ExecutedBlock) : HashValue := block_id (eb_block self).
Definition eb_parent_id (self : ExecutedBlock) : HashValue := bi_id (certified_block (block_qc (eb_block self))).
Definition eb_round (self : ExecutedBlock) : Round := block_round (eb_block self).
Definition eb_block_info (self : ExecutedBlock) : BlockInfo :=
  gen_block_info (eb_block self) (root_hash (state_compute_result self)) (compute_version (state_compute_result self))
    (compute_epoch_state (state_compute_result self)).

Record LinkableBlock : Type := mkLinkableBlock { executed_block : ExecutedBlock; children : gset HashValue }.

Definition add_child (self : LinkableBlock) (child_id : HashValue) : comp LinkableBlock :=
  rust_assert (bool_decide (child_id ∉ children self));;
  Ret (mkLinkableBlock (executed_block self) ({[child_id]} ∪ children self)).

Record BlockTree : Type := mkBlockTree {
  id_to_block : gmap HashValue LinkableBlock;
  ordered_root_id : HashValue;
  commit_root_id : HashValue;
  highest_certified_block_id : HashValue;
  bt_highest_quorum_cert : QuorumCert;
  bt_highest_2chain_timeout_cert : option TwoChainTimeoutCertificate;
  bt_highest_ordered_cert : QuorumCert;
  bt_highest_commit_cert : QuorumCert;
  id_to_quorum_cert : gmap HashValue QuorumCert;
  pruned_block_ids : list HashValue;
  max_pruned_blocks_in_mem : nat;
}.

Definition BlockTree_new (root : ExecutedBlock) (root_quorum_cert root_ordered_cert root_commit_cert : QuorumCert)
    (max_pruned_blocks_in_mem : nat) (highest_2chain_timeout_cert : option TwoChainTimeoutCertificate) : comp BlockTree :=
  rust_assert (bool_decide (eb_id root = bi_id (qc_commit_info root_ordered_cert)));;
  Ret (mkBlockTree {[eb_id root := mkLinkableBlock root ∅]} (eb_id root) (eb_id root) (eb_id root)
         root_quorum_cert highest_2chain_timeout_cert root_ordered_cert root_commit_cert
         {[bi_id (certified_block root_quorum_cert) := root_quorum_cert]} [] max_pruned_blocks_in_mem).

Definition set_blocks (self : BlockTree) (blocks : gmap HashValue LinkableBlock) : BlockTree :=
  mkBlockTree blocks (ordered_root_id self) (commit_root_id self) (highest_certified_block_id self)
    (bt_highest_quorum_cert self) (bt_highest_2chain_timeout_cert self) (bt_highest_ordered_cert self)
    (bt_highest_commit_cert self) (id_to_quorum_cert self) (pruned_block_ids self) (max_pruned_blocks_in_mem self).

Definition get_block (self : BlockTree) (block_id : HashValue) : option ExecutedBlock :=
  executed_block <$> id_to_block self !! block_id.
Definition block_exists (self : BlockTree) (block_id : HashValue) : bool := bool_decide (is_Some (id_to_block self !! block_id)).
Definition ordered_root (self : BlockTree) : comp ExecutedBlock := expect (get_block self (ordered_root_id self)).
Definition commit_root (self : BlockTree) : comp ExecutedBlock := expect (get_block self (commit_root_id self)).
Definition highest_certified_block (self : BlockTree) : comp ExecutedBlock :=
  expect (get_block self (highest_certified_block_id self)).

Definition remove_block (self : BlockTree) (block_id : HashValue) : BlockTree :=
  mkBlockTree (delete block_id (id_to_block self)) (ordered_root_id self) (commit_root_id self)
    (highest_certified_block_id self) (bt_highest_quorum_cert self) (bt_highest_2chain_timeout_cert self)
    (bt_highest_ordered_cert self) (bt_highest_commit_cert self) (delete block_id (id_to_quorum_cert self))
    (pruned_block_ids self) (max_pruned_blocks_in_mem self).

Definition replace_2chain_timeout_cert (self : BlockTree) (tc : TwoChainTimeoutCertificate) : BlockTree :=
  mkBlockTree (id_to_block self) (ordered_root_id self) (commit_root_id self) (highest_certified_block_id self)
    (bt_highest_quorum_cert self) (Some tc) (bt_highest_ordered_cert self) (bt_highest_commit_cert self)
    (id_to_quorum_cert self) (pruned_block_ids self) (max_pruned_blocks_in_mem self).

(** [checked_verify_eq!] is an assertion in an ordinary build. *)
Definition insert_block (self : BlockTree) (block : ExecutedBlock) : comp (BlockTree * result anyhow ExecutedBlock) :=
  match get_block self (eb_id block) with
  | Some existing_block =>
      rust_assert (bool_decide (state_compute_result existing_block = state_compute_result block));;
      Ret (self, Ok existing_block)
  | None =>
      match id_to_block self !! eb_parent_id block with
      | None => Ret (self, Err (Message "Parent block not found"))
      | Some parent_block =>
          parent_block ← add_child parent_block (eb_id block);
          let blocks := <[eb_parent_id block := parent_block]> (id_to_block self) in
          rust_assert (bool_decide (blocks !! eb_id block = None));;
          Ret (set_blocks self (<[eb_id block := mkLinkableBlock block ∅]> blocks), Ok block)
      end
  end.

(** [precondition!] does nothing in an ordinary build. *)
Definition insert_quorum_cert (self : BlockTree) (qc : QuorumCert) : comp (BlockTree * result anyhow unit) :=
  let block_id := bi_id (certified_block qc) in
  match get_block self block_id with
  | None => Ret (self, Err (Message "Block not found"))
  | Some block =>
      highest ← highest_certified_block self;
      let higher := eb_round block >? eb_round highest in
      let ordered_higher := bi_round (qc_commit_info (bt_highest_ordered_cert self)) <? bi_round (qc_commit_info qc) in
      Ret (mkBlockTree (id_to_block self) (ordered_root_id self) (commit_root_id self)
             (if higher then eb_id block else highest_certified_block_id self)
             (if higher then qc else bt_highest_quorum_cert self)
             (bt_highest_2chain_timeout_cert self)
             (if ordered_higher then qc else bt_highest_ordered_cert self)
             (bt_highest_commit_cert self)
             (match id_to_quorum_cert self !! block_id with
              | Some _ => id_to_quorum_cert self
              | None => <[block_id := qc]> (id_to_quorum_cert self)
              end)
             (pruned_block_ids self) (max_pruned_blocks_in_mem self), Ok tt)
  end.

(** ** Pruning *)

(** The loop over the children; the stack has its top first. *)
Fixpoint push_children (self : BlockTree) (next_root_id : HashValue) (children : list HashValue)
    (blocks_to_be_pruned : list LinkableBlock) : comp (list LinkableBlock) :=
  match children with
  | [] => Ret blocks_to_be_pruned
  | child_id :: rest =>
      if bool_decide (next_root_id = child_id) then push_children self next_root_id rest blocks_to_be_pruned else
      child ← expect (id_to_block self !! child_id);
      push_children self next_root_id rest (child :: blocks_to_be_pruned)
  end.

(** The [while] loop.  Running out of fuel counts as a panic. *)
Fixpoint prune_loop (fuel : nat) (self : BlockTree) (next_root_id : HashValue)
    (blocks_to_be_pruned : list LinkableBlock) (blocks_pruned : list HashValue) : comp (list HashValue) :=
  match blocks_to_be_pruned with
  | [] => Ret blocks_pruned
  | block_to_remove :: rest =>
      match fuel with
      | O => Panic
      | S fuel =>
          stack ← push_children self next_root_id (hash_iter (children block_to_remove)) rest;
          prune_loop fuel self next_root_id stack (blocks_pruned ++ [eb_id (executed_block block_to_remove)])
      end
  end.

Definition find_blocks_to_prune (self : BlockTree) (next_root_id : HashValue) : comp (list HashValue) :=
  if bool_decide (next_root_id = commit_root_id self) then Ret [] else
  linkable_root ← expect (id_to_block self !! commit_root_id self);
  prune_loop (size (id_to_block self)) self next_root_id [linkable_root] [].

Definition update_ordered_root (self : BlockTree) (root_id : HashValue) : comp BlockTree :=
  rust_assert (block_exists self root_id);;
  Ret (mkBlockTree (id_to_block self) root_id (commit_root_id self) (highest_certified_block_id self)
         (bt_highest_quorum_cert self) (bt_highest_2chain_timeout_cert self) (bt_highest_ordered_cert self)
         (bt_highest_commit_cert self) (id_to_quorum_cert self) (pruned_block_ids self) (max_pruned_blocks_in_mem self)).

Definition update_commit_root (self : BlockTree) (root_id : HashValue) : comp BlockTree :=
  rust_assert (block_exists self root_id);;
  Ret (mkBlockTree (id_to_block self) (ordered_root_id self) root_id (highest_certified_block_id self)
         (bt_highest_quorum_cert self) (bt_highest_2chain_timeout_cert self) (bt_highest_ordered_cert self)
         (bt_highest_commit_cert self) (id_to_quorum_cert self) (pruned_block_ids self) (max_pruned_blocks_in_mem self)).

Definition update_highest_commit_cert (self : BlockTree) (new_commit_cert : QuorumCert) : comp BlockTree :=
  if bi_round (qc_commit_info new_commit_cert) >? bi_round (qc_commit_info (bt_highest_commit_cert self)) then
    update_commit_root
      (mkBlockTree (id_to_block self) (ordered_root_id self) (commit_root_id self) (highest_certified_block_id self)
         (bt_highest_quorum_cert self) (bt_highest_2chain_timeout_cert self) (bt_highest_ordered_cert self)
         new_commit_cert (id_to_quorum_cert self) (pruned_block_ids self) (max_pruned_blocks_in_mem self))
      (bi_id (qc_commit_info new_commit_cert))
  else Ret self.

Definition process_pruned_blocks (self : BlockTree) (newly_pruned_blocks : list HashValue) : BlockTree :=
  let pruned := (pruned_block_ids self ++ newly_pruned_blocks)%list in
  let num_blocks_to_remove := (length pruned - max_pruned_blocks_in_mem self)%nat in
  let self := foldl remove_block self (take num_blocks_to_remove pruned) in
  mkBlockTree (id_to_block self) (ordered_root_id self) (commit_root_id self) (highest_certified_block_id self)
    (bt_highest_quorum_cert self) (bt_highest_2chain_timeout_cert self) (bt_highest_ordered_cert self)
    (bt_highest_commit_cert self) (id_to_quorum_cert self) (drop num_blocks_to_remove pruned) (max_pruned_blocks_in_mem self).

(** ** Paths *)

(** The [loop]; [None] is the early return.  Running out of fuel counts as a panic. *)
Fixpoint path_loop (fuel : nat) (self : BlockTree) (root_round : Z) (cur_block_id : HashValue) (res : list ExecutedBlock) :
    comp (option (HashValue * list ExecutedBlock)) :=
  match get_block self cur_block_id with
  | None => Ret None
  | Some block =>
      if eb_round block <=? root_round then Ret (Some (cur_block_id, res)) else
      match fuel with
      | O => Panic
      | S fuel => path_loop fuel self root_round (eb_parent_id block) (res ++ [block])
      end
  end.

(** Rounds go down along the path. *)
Definition path_fuel (self : BlockTree) (block_id : HashValue) : nat :=
  match get_block self block_id with Some block => Z.to_nat (eb_round block) | None => 0 end.

Definition path_from_root_to_block (self : BlockTree) (block_id root_id : HashValue) (root_round : Z) :
    comp (option (list ExecutedBlock)) :=
  r ← path_loop (path_fuel self block_id) self root_round block_id [];
  Ret (match r with
       | Some (cur_block_id, res) => if bool_decide (cur_block_id ≠ root_id) then None else Some (reverse res)
       | None => None
       end).

Definition path_from_ordered_root (self : BlockTree) (block_id : HashValue) : comp (option (list ExecutedBlock)) :=
  root ← ordered_root self; path_from_root_to_block self block_id (ordered_root_id self) (eb_round root).
Definition path_from_commit_root (self : BlockTree) (block_id : HashValue) : comp (option (list ExecutedBlock)) :=
  root ← commit_root self; path_from_root_to_block self block_id (commit_root_id self) (eb_round root).

(** ** Commits *)

Definition create_merged_with_executed_state (self : QuorumCert) (executed_ledger_info : LedgerInfoWithSignatures) :
    result anyhow QuorumCert :=
  if match_ordered_only (qc_commit_info self) (commit_info (ledger_info executed_ledger_info))
  then Ok (mkQuorumCert (vote_data self) executed_ledger_info)
  else Err (Message "Block info from QC and executed LI need to match").

(** A failure to delete blocks from the database is only logged. *)
Definition commit_callback (self : BlockTree) (blocks_to_commit : list ExecutedBlock) (finality_proof : QuorumCert)
    (commit_decision : LedgerInfoWithSignatures) : comp BlockTree :=
  commit_proof ← expect_ok (create_merged_with_executed_state finality_proof commit_decision);
  block_to_commit ← expect (last blocks_to_commit);
  _ ← commit_root self;
  id_to_remove ← find_blocks_to_prune self (eb_id block_to_commit);
  update_highest_commit_cert (process_pruned_blocks self id_to_remove) commit_proof.

(** ** The block store *)

Definition execute_and_insert_block (self : BlockTree) (block : Block) (computed : result anyhow StateComputeResult)
    (saved : result anyhow unit) : comp (BlockTree * result anyhow ExecutedBlock) :=
  match get_block self (block_id block) with
  | Some existing_block => Ret (self, Ok existing_block)
  | None =>
      root ← ordered_root self;
      if negb (eb_round root <? block_round block) then Ret (self, Err (Message "Block with old round")) else
      match computed, saved with
      | Ok state_compute_result, Ok _ => insert_block self (mkExecutedBlock block state_compute_result)
      | Err e, _ | _, Err e => Ret (self, Err e)
      end
  end.

Definition insert_single_quorum_cert (self : BlockTree) (qc : QuorumCert) (saved : result anyhow unit) :
    comp (BlockTree * result anyhow unit) :=
  match get_block self (bi_id (certified_block qc)) with
  | None => Ret (self, Err (Message "Insert without having the block in store first"))
  | Some executed_block =>
      if negb (match_ordered_only (eb_block_info executed_block) (certified_block qc))
      then Ret (self, Err (Message "QC for block is different than local")) else
      match saved with
      | Ok _ => insert_quorum_cert self qc
      | Err e => Ret (self, Err e)
      end
  end.

Definition insert_2chain_timeout_certificate (self : BlockTree) (tc : TwoChainTimeoutCertificate) (saved : result anyhow unit) :
    BlockTree * result anyhow unit :=
  let cur_tc_round := match bt_highest_2chain_timeout_cert self with Some tc => tc_round tc | None => 0 end in
  if tc_round tc <=? cur_tc_round then (self, Ok tt) else
  match saved with
  | Ok _ => (replace_2chain_timeout_cert self tc, Ok tt)
  | Err e => (self, Err e)
  end.

(** The blocks are handed to the state computer, which calls [commit_callback] once they
    are executed and signed. *)
Definition commit (self : BlockTree) (finality_proof : QuorumCert) : comp (BlockTree * result anyhow (list ExecutedBlock)) :=
  let block_id_to_commit := bi_id (qc_commit_info finality_proof) in
  match get_block self block_id_to_commit with
  | None => Ret (self, Err (Message "Committed block id not found"))
  | Some block_to_commit =>
      root ← ordered_root self;
      if negb (eb_round block_to_commit >? eb_round root) then Ret (self, Err (Message "Committed block round lower than root")) else
      path ← path_from_ordered_root self block_id_to_commit;
      let blocks_to_commit := default [] path in
      rust_assert (match blocks_to_commit with [] => false | _ => true end);;
      self ← update_ordered_root self (eb_id block_to_commit);
      Ret (self, Ok blocks_to_commit)
  end.

Definition sync_info (self : BlockTree) : SyncInfo :=
  new_decoupled (bt_highest_quorum_cert self) (bt_highest_ordered_cert self) (bt_highest_commit_cert self)
    (bt_highest_2chain_timeout_cert self).

(** ** Descent *)

Section tree.
Context (hash_iter_perm : ∀ s, hash_iter s ≡ₚ elements s).

(** Ids determine blocks: the parent and the round of the block with an id.  Blocks are
    well formed: rounds go down, until the genesis of the epoch in round 0. *)
Context (par : HashValue → HashValue) (rnd : HashValue → Round).
Context (rnd_par : ∀ x, 0 ≤ rnd x ∧ rnd (par x) ≤ rnd x ∧ (0 < rnd x → rnd (par x) < rnd x)).

Definition known (b : ExecutedBlock) : Prop := eb_parent_id b = par (eb_id b) ∧ eb_round b = rnd (eb_id b).

(** [x] descends from [r], or is [r]. *)
Definition desc (r x : HashValue) : Prop := rtc (λ y z, z = par y) x r.

Lemma desc_refl r : desc r r.
Proof. apply rtc_refl. Qed.
Lemma desc_par r x : desc r (par x) → desc r x.
Proof. by apply rtc_l. Qed.
Lemma desc_trans a b c : desc a b → desc b c → desc a c.
Proof. unfold desc. intros H1 H2. by etrans. Qed.
Lemma desc_inv r x : desc r x → x = r ∨ desc r (par x).
Proof. intros [?|(y & -> & ?)]%rtc_inv; [by left|by right]. Qed.

Lemma desc_round r x : desc r x → rnd r ≤ rnd x.
Proof. unfold desc. induction 1 as [|x y z -> _ IH]; [lia|]. destruct (rnd_par x) as (_ & ? & _). lia. Qed.

(** ** The invariant *)

Record tree_ok (t : BlockTree) : Prop := {
  ok_block i lb : id_to_block t !! i = Some lb → eb_id (executed_block lb) = i ∧ known (executed_block lb);
  ok_link i lb c : id_to_block t !! i = Some lb → c ∈ children lb →
    par c = i ∧ rnd i < rnd c ∧ is_Some (id_to_block t !! c);
  ok_parent x : is_Some (id_to_block t !! x) → desc (commit_root_id t) x →
    x = commit_root_id t ∨ ∃ lb, id_to_block t !! par x = Some lb ∧ x ∈ children lb;
  ok_commit_root : is_Some (id_to_block t !! commit_root_id t);
  ok_ordered_root : is_Some (id_to_block t !! ordered_root_id t) ∧ desc (commit_root_id t) (ordered_root_id t);
  ok_certified : is_Some (id_to_block t !! highest_certified_block_id t) ∧
    desc (ordered_root_id t) (highest_certified_block_id t);
  ok_pruned p : p ∈ pruned_block_ids t → is_Some (id_to_block t !! p) ∧ ¬ desc (commit_root_id t) p;
  ok_pruned_nodup : NoDup (pruned_block_ids t);
  ok_pruned_order k c i lb : pruned_block_ids t !! k = Some c → id_to_block t !! i = Some lb → c ∈ children lb →
    ∃ j, (j < k)%nat ∧ pruned_block_ids t !! j = Some i;
  ok_root_parent i lb : id_to_block t !! i = Some lb → commit_root_id t ∈ children lb → i ∈ pruned_block_ids t;
  ok_pruned_len : (length (pruned_block_ids t) ≤ max_pruned_blocks_in_mem t)%nat;
  ok_qc i qc : id_to_quorum_cert t !! i = Some qc →
    bi_id (certified_block qc) = i ∧ rnd i ≤ rnd (highest_certified_block_id t) ∧
    bi_round (qc_commit_info qc) ≤ bi_round (qc_commit_info (bt_highest_ordered_cert t));
  ok_hqc : bi_id (certified_block (bt_highest_quorum_cert t)) = highest_certified_block_id t;
  ok_hcc : bi_round (qc_commit_info (bt_highest_commit_cert t)) = rnd (commit_root_id t);
}.

Section invariant.
Context (t : BlockTree) (Hok : tree_ok t).
Notation root := (commit_root_id t).
Notation blocks := (id_to_block t).

Lemma active_parent x : is_Some (blocks !! x) → desc root x → x ≠ root →
  is_Some (blocks !! par x) ∧ desc root (par x) ∧ rnd (par x) < rnd x.
Proof.
  intros Hx Hd Hne. destruct (ok_parent t Hok x Hx Hd) as [?|(lb & Hlb & Hc)]; [done|].
  destruct (ok_link t Hok _ _ _ Hlb Hc) as (_ & Hr & _). split_and!; [by exists lb| |done].
  by destruct (desc_inv root x Hd).
Qed.

Lemma active_round x : desc root x → is_Some (blocks !! x) → x ≠ root → rnd root < rnd x.
Proof.
  intros Hd Hx Hne. destruct (active_parent x Hx Hd Hne) as (_ & Hp & Hlt). pose proof (desc_round root (par x) Hp). lia.
Qed.

(** The same above any active block. *)
Lemma active_above r x :
  is_Some (blocks !! r) → desc root r → is_Some (blocks !! x) → desc r x → x ≠ r →
  is_Some (blocks !! par x) ∧ desc r (par x) ∧ rnd r < rnd x.
Proof.
  intros Hr Hdr Hx Hd Hne. destruct (desc_inv r x Hd) as [?|Hp]; [done|]. assert (x ≠ root) as Hroot.
  { intros ->. pose proof (active_round r Hdr Hr (not_eq_sym Hne)). pose proof (desc_round r root Hd). lia. }
  destruct (active_parent x Hx (desc_trans _ _ _ Hdr Hd) Hroot) as (? & _ & Hlt). split_and!; [done..|].
  pose proof (desc_round r (par x) Hp). lia.
Qed.

(** ** Pruning *)

Lemma push_children_spec N cs stack :
  (∀ c, c ∈ cs → c ≠ N → is_Some (blocks !! c)) →
  ∃ lbs, push_children t N cs stack = Ret (reverse lbs ++ stack)%list ∧
    Forall2 (λ c lb, blocks !! c = Some lb) (filter (λ c, c ≠ N) cs) lbs.
Proof.
  revert stack. induction cs as [|c cs IH]; intros stack Hex; [by exists []|]. cbn [push_children].
  destruct (decide (c = N)) as [->|Hne].
  - rewrite bool_decide_eq_true_2 // filter_cons_False; [naive_solver|]. apply IH. intros c Hc. apply Hex. by right.
  - rewrite bool_decide_eq_false_2 //. destruct (Hex c (list_elem_of_here _ _) Hne) as [lb Hlb]. rewrite Hlb. cbn [expect]. run.
    destruct (IH (lb :: stack)) as (lbs & -> & Hall); [intros c' Hc'; apply Hex; by right|].
    exists (lb :: lbs). rewrite reverse_cons -app_assoc. split; [done|]. rewrite filter_cons_True //. by constructor.
Qed.

Notation ids stack := ((eb_id ∘ executed_block) <$> stack).

(** What a block puts on the stack: its children but the new root. *)
Lemma pushed N i b stack :
  blocks !! i = Some b →
  ∃ stack', push_children t N (hash_iter (children b)) stack = Ret stack' ∧
    (∀ lb, lb ∈ stack' → lb ∈ stack ∨ blocks !! eb_id (executed_block lb) = Some lb) ∧
    (∀ x, x ∈ ids stack' ↔ (x ∈ children b ∧ x ≠ N) ∨ x ∈ ids stack) ∧
    (NoDup (ids stack) → (∀ x, x ∈ children b → x ∉ ids stack) → NoDup (ids stack')).
Proof.
  intros Hb.
  assert (∀ c, c ∈ hash_iter (children b) ↔ c ∈ children b) as Hiter by (intros c; by rewrite hash_iter_perm elem_of_elements).
  destruct (push_children_spec N (hash_iter (children b)) stack) as (lbs & Hrun & Hlbs).
  { intros c Hc _. apply Hiter in Hc. by destruct (ok_link t Hok i b c Hb Hc) as (_ & _ & ?). }
  assert (ids lbs = filter (λ c, c ≠ N) (hash_iter (children b))) as Hids.
  { clear -Hlbs Hok. induction Hlbs as [|c lb cs lbs Hc _ IH]; [done|]. cbn. rewrite IH. f_equal. by apply (ok_block t Hok). }
  exists (reverse lbs ++ stack)%list. split_and!; [exact Hrun|..].
  - intros lb [Hlb|Hlb]%elem_of_app; [rewrite elem_of_reverse in Hlb; right|by left].
    apply list_elem_of_lookup in Hlb as [k Hk]. destruct (Forall2_lookup_r _ _ _ _ _ Hlbs Hk) as (c & _ & Hc).
    by destruct (ok_block t Hok c lb Hc) as [-> _].
  - intros x. rewrite fmap_app fmap_reverse elem_of_app elem_of_reverse Hids list_elem_of_filter Hiter. naive_solver.
  - intros Hnd Hfresh. rewrite fmap_app fmap_reverse. apply NoDup_app. split; [|split; [|done]].
    + rewrite reverse_Permutation Hids. apply NoDup_filter. rewrite hash_iter_perm. apply NoDup_elements.
    + intros x. rewrite elem_of_reverse Hids list_elem_of_filter Hiter. intros [_ Hc]. by apply Hfresh.
Qed.

(** The work list: what has been pruned and what is on the stack. *)
Record worklist (N : HashValue) (stack : list LinkableBlock) (pruned : list HashValue) : Prop := {
  wl_nodup : NoDup (pruned ++ ids stack);
  wl_stack lb : lb ∈ stack → blocks !! eb_id (executed_block lb) = Some lb;
  wl_sound x : x ∈ pruned ∨ x ∈ ids stack →
    is_Some (blocks !! x) ∧ desc root x ∧ ¬ desc N x ∧ (x = root ∨ par x ∈ pruned);
  wl_order k x : pruned !! k = Some x → x = root ∨ ∃ j, (j < k)%nat ∧ pruned !! j = Some (par x);
  wl_root : root ∈ pruned ∨ root ∈ ids stack;
  wl_children x lb c : x ∈ pruned → blocks !! x = Some lb → c ∈ children lb → c = N ∨ c ∈ pruned ∨ c ∈ ids stack;
}.

(** The children of the next block have not been seen: each has one parent. *)
Lemma children_fresh N b stack pruned x :
  worklist N (b :: stack) pruned → x ∈ children b → x ∉ pruned ∧ x ∉ ids (b :: stack).
Proof.
  intros [Hnd Hst Hsound _ _ _] Hx. set (i := eb_id (executed_block b)) in *.
  destruct (ok_link t Hok i b x) as (Hp & Hr & _); [apply Hst; by left|done|].
  assert (¬ (x ∈ pruned ∨ x ∈ ids (b :: stack))) as Hno; [|naive_solver].
  intros (_ & _ & _ & [->|Hpar])%Hsound.
  - destruct (Hsound i) as (_ & Hdi & _); [right; by left|]. pose proof (desc_round root i Hdi). lia.
  - rewrite Hp in Hpar. apply NoDup_app in Hnd as (_ & Hdis & _). apply (Hdis i Hpar). by left.
Qed.

Lemma worklist_step N b stack pruned :
  worklist N (b :: stack) pruned →
  ∃ stack', push_children t N (hash_iter (children b)) stack = Ret stack' ∧
    worklist N stack' (pruned ++ [eb_id (executed_block b)])%list.
Proof.
  intros Hwl. pose proof (children_fresh N b stack pruned) as Hfresh. pose proof Hwl as [Hnd Hst Hsound Hord Hroot Hch].
  set (i := eb_id (executed_block b)) in *. assert (blocks !! i = Some b) as Hb by (apply Hst; by left).
  destruct (Hsound i) as (_ & Hdi & HNi & _); [right; by left|].
  destruct (pushed N i b stack Hb) as (stack' & Hrun & Hst' & Hin & Hnd'). exists stack'. split; [exact Hrun|].
  assert (∀ x, x ∈ (pruned ++ [i])%list ∨ x ∈ ids stack' ↔ (x ∈ children b ∧ x ≠ N) ∨ x ∈ pruned ∨ x ∈ ids (b :: stack)) as Hall.
  { intros x. rewrite Hin elem_of_app list_elem_of_singleton fmap_cons elem_of_cons. naive_solver. }
  split.
  - rewrite -app_assoc. apply NoDup_app in Hnd as (Hnd1 & Hdis & [Hi Hnd2]%NoDup_cons). apply NoDup_app. split_and!; [done|..].
    + intros x Hx [->|[[Hc _]|Hs]%Hin]%elem_of_cons; [by apply (Hdis i Hx); left| |by apply (Hdis x Hx); right].
      by destruct (Hfresh x Hwl Hc).
    + apply NoDup_cons. split; [|apply Hnd'; [done|]; intros x Hc Hs; destruct (Hfresh x Hwl Hc) as [_ Hno]; apply Hno; by right].
      intros [[Hc _]|?]%Hin; [|done]. destruct (Hfresh i Hwl Hc) as [_ Hno]. apply Hno. by left.
  - intros lb [?|?]%Hst'; [apply Hst; by right|done].
  - intros x [[Hc HN]|Hold]%Hall.
    + destruct (ok_link t Hok i b x Hb Hc) as (Hp & _ & Hex). split_and!; [done|apply desc_par; by rewrite Hp| |right].
      * intros [->|HNp]%desc_inv; [done|]. by rewrite Hp in HNp.
      * rewrite Hp. apply elem_of_app. right. by left.
    + destruct (Hsound x Hold) as (? & ? & ? & Hp). split_and!; [done..|]. destruct Hp; [by left|right]. apply elem_of_app. by left.
  - intros k x [Hk|[Hk [= <-]]]%lookup_snoc_Some.
    + destruct (Hord k x (proj2 Hk)) as [?|(j & ? & ?)]; [by left|right]. exists j. split; [done|]. by apply lookup_app_l_Some.
    + destruct (Hsound i) as (_ & _ & _ & [?|Hp]); [right; by left|by left|right].
      apply list_elem_of_lookup in Hp as [j Hj]. exists j. split; [apply lookup_lt_Some in Hj; lia|by apply lookup_app_l_Some].
  - apply Hall. by right.
  - intros x lb c [Hx| ->%list_elem_of_singleton]%elem_of_app Hlb Hc.
    + destruct (Hch x lb c Hx Hlb Hc) as [?|?]; [by left|right]. apply Hall. by right.
    + destruct (decide (c = N)); [by left|right]. apply Hall. left. split; [congruence|done].
Qed.

(** At the end everything that does not descend from the new root is pruned. *)
Lemma worklist_end N pruned x :
  worklist N [] pruned → is_Some (blocks !! x) → desc root x → ¬ desc N x → x ∈ pruned.
Proof.
  intros [_ _ _ _ Hroot Hch] Hx Hd. pose proof Hd as Hd'. unfold desc in Hd'. remember root as r eqn:Hr. revert Hx.
  induction Hd' as [r'|y z r' -> Hd' IH]; intros Hx HN.
  { subst r'. destruct Hroot as [?|?%elem_of_nil]; done. }
  subst r'. destruct (decide (y = root)) as [->|Hne]; [by destruct Hroot as [?|?%elem_of_nil]|].
  destruct (ok_parent t Hok y Hx Hd) as [?|(lb & Hlb & Hc)]; [done|].
  assert (par y ∈ pruned) as Hp.
  { destruct (active_parent y Hx Hd Hne) as (Hp1 & Hp2 & _). apply IH; try done. intros ?%desc_par. done. }
  destruct (Hch _ _ _ Hp Hlb Hc) as [->|[?|?%elem_of_nil]]; [|done..]. by destruct HN; apply desc_refl.
Qed.

Lemma prune_loop_spec N fuel stack pruned :
  worklist N stack pruned → (size blocks ≤ fuel + length pruned)%nat →
  ∃ l, prune_loop fuel t N stack pruned = Ret l ∧ worklist N [] l.
Proof.
  revert stack pruned. induction fuel as [|fuel IH]; intros [|b stack] pruned Hwl Hfuel; cbn [prune_loop]; [by eauto| |by eauto|].
  - exfalso. assert (S (length pruned) ≤ size blocks)%nat; [|lia].
    replace (S (length pruned)) with (length (pruned ++ [eb_id (executed_block b)])%list) by (rewrite length_app; cbn; lia).
    rewrite -(size_list_to_set (C := gset HashValue)); [|rewrite -size_dom; apply subseteq_size].
    + destruct Hwl as [Hnd _ _ _ _ _]. rewrite fmap_cons cons_middle app_assoc in Hnd. by apply NoDup_app in Hnd as [? _].
    + intros x. rewrite elem_of_list_to_set elem_of_dom elem_of_app list_elem_of_singleton. intros Hx.
      destruct (wl_sound _ _ _ Hwl x) as (? & _); [|done]. destruct Hx as [?| ->]; [by left|right; by left].
  - destruct (worklist_step N b stack pruned Hwl) as (stack' & -> & Hwl'). run. apply IH; [done|]. rewrite length_app. cbn. lia.
Qed.

(** What is pruned is what does not descend from the new root. *)
Lemma find_blocks_ok N :
  is_Some (blocks !! N) → desc root N →
  ∃ l, find_blocks_to_prune t N = Ret l ∧ NoDup l ∧ (∀ x, x ∈ l ↔ is_Some (blocks !! x) ∧ desc root x ∧ ¬ desc N x) ∧
    ∀ k x, l !! k = Some x → x = root ∨ ∃ j, (j < k)%nat ∧ l !! j = Some (par x).
Proof.
  intros HN Hd. unfold find_blocks_to_prune. case_bool_decide as Heq.
  { subst N. exists []. split_and!; [done|constructor| |done]. intros x. rewrite elem_of_nil. naive_solver. }
  destruct (ok_commit_root t Hok) as [lr Hlr]. rewrite Hlr. cbn [expect]. run.
  destruct (ok_block t Hok root lr Hlr) as [Hid _].
  destruct (prune_loop_spec N (size blocks) [lr] []) as (l & -> & Hwl); [|cbn; lia|].
  - split; cbn; rewrite ?Hid; [apply NoDup_singleton| | |done|right; by left|by intros x lb c ?%elem_of_nil].
    + intros lb ->%list_elem_of_singleton. by rewrite Hid.
    + intros x [?%elem_of_nil| ->%list_elem_of_singleton]; [done|]. split_and!; [by exists lr|apply desc_refl| |by left].
      intros Hroot. pose proof (active_round N Hd HN Heq). pose proof (desc_round N root Hroot). lia.
  - exists l. split_and!; [done|by pose proof (wl_nodup _ _ _ Hwl) as Hnd; rewrite app_nil_r in Hnd| |apply (wl_order _ _ _ Hwl)].
    intros x. split; [intros Hx; destruct (wl_sound _ _ _ Hwl x (or_introl Hx)) as (? & ? & ? & _); done|].
    intros (Hx & Hdx & HNx). by apply (worklist_end N).
Qed.

(** ** Paths *)

(** [l] leads from [r], excluded, to [x]. *)
Fixpoint chain (r : HashValue) (l : list ExecutedBlock) (x : HashValue) : Prop :=
  match l with
  | [] => x = r
  | b :: l => get_block t (eb_id b) = Some b ∧ eb_parent_id b = r ∧ chain (eb_id b) l x
  end.

Lemma chain_snoc r l x b : get_block t (eb_id b) = Some b → eb_parent_id b = x → chain r l x → chain r (l ++ [b]) (eb_id b).
Proof. revert r. induction l as [|c l IH]; intros r Hb Hp; cbn; [by intros ->|]. intros (? & ? & ?). split_and!; auto. Qed.

Lemma get_block_Some x b : get_block t x = Some b → is_Some (blocks !! x) ∧ eb_id b = x ∧ known b.
Proof.
  unfold get_block. intros (lb & Hlb & ->)%fmap_Some. destruct (ok_block t Hok x lb Hlb) as [? ?]. split_and!; [by exists lb|done..].
Qed.

Lemma chain_desc r l x : chain r l x → desc r x.
Proof.
  revert r. induction l as [|b l IH]; intros r; cbn; [intros ->; apply desc_refl|]. intros (Hb & <- & Hl).
  destruct (get_block_Some _ _ Hb) as (_ & _ & [-> _]). apply (desc_trans _ (eb_id b)); [|by apply IH]. apply desc_par, desc_refl.
Qed.

Lemma path_loop_spec fuel r cur res :
  is_Some (blocks !! r) → desc root r → (Z.to_nat (rnd cur) ≤ fuel)%nat →
  ∃ o, path_loop fuel t (rnd r) cur res = Ret o ∧
    match o with
    | None => ¬ (is_Some (blocks !! cur) ∧ desc r cur)
    | Some (y, res') => (desc r cur → y = r) ∧ ∃ l, res' = (res ++ l)%list ∧ chain y (reverse l) cur
    end.
Proof.
  intros Hr Hdr. revert cur res. induction fuel as [|fuel IH]; intros cur res Hfuel; cbn [path_loop];
    (destruct (get_block t cur) as [b|] eqn:Hb;
      [|exists None; split; [done|]; intros [[lb Hlb] _]; unfold get_block in Hb; by rewrite Hlb in Hb]);
    destruct (get_block_Some _ _ Hb) as (Hcur & Hid & Hpar & Hround); rewrite Hround Hid;
    destruct (Z.leb_spec (rnd cur) (rnd r)) as [Hle|Hgt].
  1, 3: exists (Some (cur, res)); split; [done|]; split; [|by exists []; rewrite app_nil_r].
  1, 2: intros Hd; destruct (decide (cur = r)) as [?|Hne]; [done|]; exfalso.
  1, 2: destruct (active_above r cur Hr Hdr Hcur Hd Hne) as (_ & _ & ?); lia.
  - destruct (rnd_par r) as (? & _). lia.
  - destruct (rnd_par cur) as (_ & _ & Hlt), (rnd_par r) as (Hr0 & _), (rnd_par (par cur)) as (Hp0 & _).
    destruct (IH (par cur) (res ++ [b])%list) as (o & Hrun & Ho); [lia|]. rewrite Hpar Hid Hrun. exists o. split; [done|].
    destruct o as [[y res']|].
    + destruct Ho as (Hy & l & -> & Hl). split.
      * intros [->|Hd]%desc_inv; [lia|by apply Hy].
      * exists (b :: l). rewrite -app_assoc reverse_cons. split; [done|]. rewrite -Hid. apply (chain_snoc _ _ (par cur)); [by rewrite Hid|by rewrite Hpar Hid|done].
    + intros [Hx Hd]. destruct (decide (cur = r)) as [->|Hne]; [lia|]. apply Ho.
      destruct (active_above r cur Hr Hdr Hx Hd Hne) as (? & ? & _). done.
Qed.

Lemma path_ok r x :
  is_Some (blocks !! r) → desc root r →
  ∃ o, path_from_root_to_block t x r (rnd r) = Ret o ∧
    match o with Some l => chain r l x | None => ¬ (is_Some (blocks !! x) ∧ desc r x) end.
Proof.
  intros Hr Hdr. unfold path_from_root_to_block, path_fuel. destruct (get_block t x) as [b|] eqn:Hb.
  - destruct (get_block_Some _ _ Hb) as (Hx & Hid & _ & Hround). rewrite Hround Hid.
    destruct (path_loop_spec (Z.to_nat (rnd x)) r x []) as (o & -> & Ho); [done..|]. run. eexists. split; [done|].
    destruct o as [[y res]|]; [|done]. destruct Ho as (Hy & l & -> & Hl). case_bool_decide as Hne.
    + intros [_ Hd]. by apply Hne, Hy.
    + destruct (decide (y = r)) as [->|?]; done.
  - cbn [path_loop]. rewrite Hb. run. eexists. split; [done|]. intros [[lb Hlb] _]. unfold get_block in Hb. by rewrite Hlb in Hb.
Qed.
End invariant.

(** ** Operations *)

Lemma tree_ok_new root qc ordered commit max tc :
  known root → bi_id (certified_block qc) = eb_id root → bi_id (qc_commit_info ordered) = eb_id root →
  bi_round (qc_commit_info qc) ≤ bi_round (qc_commit_info ordered) → bi_round (qc_commit_info commit) = eb_round root →
  ∃ t, BlockTree_new root qc ordered commit max tc = Ret t ∧ tree_ok t.
Proof.
  intros Hk Hqc Hord Hle Hcom. unfold BlockTree_new. rewrite bool_decide_eq_true_2 //. run. eexists. split; [done|]. rewrite Hqc.
  split; cbn.
  - by intros i lb [<- <-]%lookup_singleton_Some.
  - by intros i lb c [<- <-]%lookup_singleton_Some.
  - intros x [lb [<- _]%lookup_singleton_Some] _. by left.
  - rewrite lookup_singleton_eq. by eexists.
  - split; [rewrite lookup_singleton_eq; by eexists|apply desc_refl].
  - split; [rewrite lookup_singleton_eq; by eexists|apply desc_refl].
  - by intros p ?%elem_of_nil.
  - constructor.
  - done.
  - by intros i lb [<- <-]%lookup_singleton_Some.
  - lia.
  - intros i qc' [<- <-]%lookup_singleton_Some. split_and!; [done|lia|done].
  - done.
  - rewrite Hcom. apply Hk.
Qed.

(** A block below a parent that is there. *)
Section insertion.
Context (t : BlockTree) (Hok : tree_ok t) (b : ExecutedBlock) (Hknown : known b) (Hpos : 0 < eb_round b).
Context (lp : LinkableBlock) (Hlp : id_to_block t !! eb_parent_id b = Some lp) (Hnone : id_to_block t !! eb_id b = None).

Definition grown : gmap HashValue LinkableBlock :=
  <[eb_id b := mkLinkableBlock b ∅]>
    (<[eb_parent_id b := mkLinkableBlock (executed_block lp) ({[eb_id b]} ∪ children lp)]> (id_to_block t)).

Lemma grown_inv i lb :
  grown !! i = Some lb →
  i = eb_id b ∧ lb = mkLinkableBlock b ∅ ∨
  ∃ lb0, id_to_block t !! i = Some lb0 ∧ executed_block lb = executed_block lb0 ∧
    ∀ c, c ∈ children lb → c ∈ children lb0 ∨ (i = eb_parent_id b ∧ c = eb_id b).
Proof.
  unfold grown. intros [[<- <-]|[_ [[<- <-]|[_ Hi]]%lookup_insert_Some]]%lookup_insert_Some; [by left|right..].
  - exists lp. split_and!; [done..|]. cbn. set_solver.
  - exists lb. split_and!; auto.
Qed.

Lemma grown_keeps i lb :
  id_to_block t !! i = Some lb → ∃ lb', grown !! i = Some lb' ∧ executed_block lb' = executed_block lb ∧ children lb ⊆ children lb'.
Proof.
  intros Hi. unfold grown. rewrite lookup_insert_ne; [congruence|]. destruct (decide (eb_parent_id b = i)) as [<-|Hi'].
  - rewrite lookup_insert_eq. eexists. split_and!; [done|naive_solver|]. cbn. simplify_eq. set_solver.
  - rewrite lookup_insert_ne //. by exists lb.
Qed.

Lemma grown_some x : is_Some (id_to_block t !! x) → is_Some (grown !! x).
Proof. intros [lb Hx]. destruct (grown_keeps x lb Hx) as (lb' & ? & _). by exists lb'. Qed.

Lemma grown_ok : tree_ok (set_blocks t grown).
Proof.
  destruct Hknown as [Hp Hr].
  assert (∀ c, c ∈ pruned_block_ids t ∨ c = commit_root_id t → c ≠ eb_id b) as Hold.
  { intros c Hc ->. destruct Hc as [(Hx & _)%(ok_pruned t Hok)|Hc]; [|pose proof (ok_commit_root t Hok) as Hx; rewrite -Hc in Hx];
      rewrite Hnone in Hx; by destruct Hx. }
  split; cbn [set_blocks id_to_block commit_root_id ordered_root_id highest_certified_block_id pruned_block_ids
    max_pruned_blocks_in_mem id_to_quorum_cert bt_highest_quorum_cert bt_highest_ordered_cert bt_highest_commit_cert].
  - intros i lb [[-> ->]|(lb0 & Hi & -> & _)]%grown_inv; [done|by apply (ok_block t Hok)].
  - intros i lb c [[-> ->]|(lb0 & Hi & _ & Hch)]%grown_inv Hc; [done|].
    destruct (Hch c Hc) as [Hc0|[-> ->]].
    + destruct (ok_link t Hok i lb0 c Hi Hc0) as (? & ? & ?). split_and!; [done..|by apply grown_some].
    + rewrite -Hp. destruct (rnd_par (eb_id b)) as (_ & _ & Hlt). split_and!; [done|rewrite Hp; apply Hlt; lia|].
      unfold grown. rewrite lookup_insert_eq. by eexists.
  - intros x [lb Hx] Hd. apply grown_inv in Hx as [[-> _]|(lb0 & Hx & _)].
    + right. rewrite -Hp. unfold grown. rewrite lookup_insert_ne; [congruence|]. rewrite lookup_insert_eq. eexists. split; [done|]. cbn. set_solver.
    + destruct (ok_parent t Hok x) as [?|(lb' & Hlb' & Hc)]; [by eexists|done|by left|right].
      destruct (grown_keeps _ _ Hlb') as (lb'' & ? & _ & ?). exists lb''. split; [done|set_solver].
  - apply grown_some, (ok_commit_root t Hok).
  - destruct (ok_ordered_root t Hok). split; [by apply grown_some|done].
  - destruct (ok_certified t Hok). split; [by apply grown_some|done].
  - intros p [? ?]%(ok_pruned t Hok). split; [by apply grown_some|done].
  - apply (ok_pruned_nodup t Hok).
  - intros k c i lb Hk [[-> ->]|(lb0 & Hi & _ & Hch)]%grown_inv Hc; [done|]. destruct (Hch c Hc) as [Hc0|[_ ->]].
    + by apply (ok_pruned_order t Hok k c i lb0).
    + destruct (Hold (eb_id b)); [left; by eapply list_elem_of_lookup_2|done].
  - intros i lb [[-> ->]|(lb0 & Hi & _ & Hch)]%grown_inv Hc; [done|]. destruct (Hch _ Hc) as [Hc0|[_ Heq]].
    + by apply (ok_root_parent t Hok i lb0).
    + destruct (Hold (commit_root_id t)); [by right|done].
  - apply (ok_pruned_len t Hok).
  - apply (ok_qc t Hok).
  - apply (ok_hqc t Hok).
  - apply (ok_hcc t Hok).
Qed.
End insertion.

Lemma insert_block_ok t b :
  tree_ok t → known b → 0 < eb_round b →
  (∀ e, get_block t (eb_id b) = Some e → state_compute_result e = state_compute_result b) →
  ∃ t' res, insert_block t b = Ret (t', res) ∧ tree_ok t' ∧
    match res with
    | Ok e => get_block t' (eb_id b) = Some e
    | Err _ => t' = t ∧ get_block t (eb_id b) = None ∧ get_block t (eb_parent_id b) = None
    end ∧
    ordered_root_id t' = ordered_root_id t ∧ commit_root_id t' = commit_root_id t ∧
    highest_certified_block_id t' = highest_certified_block_id t ∧
    ∀ x e, get_block t x = Some e → get_block t' x = Some e.
Proof.
  intros Hok Hk Hpos Hsame. unfold insert_block. destruct (get_block t (eb_id b)) as [e|] eqn:He.
  { rewrite bool_decide_eq_true_2; [by apply Hsame|]. run. eexists _, _. by split_and!. }
  assert (id_to_block t !! eb_id b = None) as Hnone.
  { unfold get_block in He. by destruct (id_to_block t !! eb_id b). }
  destruct (id_to_block t !! eb_parent_id b) as [lp|] eqn:Hlp.
  2: { eexists _, _. split_and!; try done. unfold get_block. by rewrite Hlp. }
  unfold add_child. rewrite bool_decide_eq_true_2.
  { intros Hc. destruct (ok_link t Hok _ _ _ Hlp Hc) as (_ & _ & [lb Hlb]). congruence. }
  run. rewrite lookup_insert_ne; [congruence|]. rewrite bool_decide_eq_true_2 //. run.
  eexists _, _. split_and!; [done|by apply grown_ok|unfold get_block; cbn; by rewrite lookup_insert_eq|done..|].
  intros x e. unfold get_block. intros (lb & Hx & ->)%fmap_Some. destruct (grown_keeps t Hok b Hk Hpos lp Hlp Hnone x lb Hx) as (lb' & Hx' & <- & _).
  cbn. change (executed_block <$> grown t b lp !! x = Some (executed_block lb')). by rewrite Hx'.
Qed.

(** A certificate for a block that is there; one of a higher round than all before must be
    for a descendant of the ordered root. *)
Lemma insert_quorum_cert_ok t qc :
  tree_ok t →
  (is_Some (id_to_block t !! bi_id (certified_block qc)) →
   rnd (highest_certified_block_id t) < rnd (bi_id (certified_block qc)) →
   desc (ordered_root_id t) (bi_id (certified_block qc))) →
  ∃ t' res, insert_quorum_cert t qc = Ret (t', res) ∧ tree_ok t' ∧
    id_to_block t' = id_to_block t ∧ ordered_root_id t' = ordered_root_id t ∧ commit_root_id t' = commit_root_id t ∧
    match res with
    | Ok _ =>
        is_Some (id_to_quorum_cert t' !! bi_id (certified_block qc)) ∧
        rnd (highest_certified_block_id t') = Z.max (rnd (highest_certified_block_id t)) (rnd (bi_id (certified_block qc))) ∧
        bi_round (qc_commit_info (bt_highest_ordered_cert t'))
        = Z.max (bi_round (qc_commit_info (bt_highest_ordered_cert t))) (bi_round (qc_commit_info qc))
    | Err _ => t' = t ∧ id_to_block t !! bi_id (certified_block qc) = None
    end.
Proof.
  intros Hok Hsafe. unfold insert_quorum_cert. set (id := bi_id (certified_block qc)) in *.
  destruct (get_block t id) as [b|] eqn:Hb.
  2: { eexists _, _. split_and!; try done. unfold get_block in Hb. by destruct (id_to_block t !! id). }
  destruct (get_block_Some t Hok _ _ Hb) as (Hid & Hbid & _ & Hround).
  destruct (ok_certified t Hok) as [[lh Hlh] Hdh]. destruct (ok_block t Hok _ _ Hlh) as [Hhid [_ Hhr]].
  unfold highest_certified_block, get_block at 1. rewrite Hlh. cbn [fmap option_fmap option_map expect]. run.
  rewrite Hround Hbid Hhr Hhid Z.gtb_ltb. set (hcb := if rnd (highest_certified_block_id t) <? rnd id then id else highest_certified_block_id t).
  set (hoc := if bi_round (qc_commit_info (bt_highest_ordered_cert t)) <? bi_round (qc_commit_info qc) then qc
    else bt_highest_ordered_cert t).
  assert (rnd hcb = Z.max (rnd (highest_certified_block_id t)) (rnd id)) as Hmax.
  { unfold hcb. destruct (Z.ltb_spec (rnd (highest_certified_block_id t)) (rnd id)); lia. }
  assert (bi_round (qc_commit_info hoc) = Z.max (bi_round (qc_commit_info (bt_highest_ordered_cert t))) (bi_round (qc_commit_info qc))) as Hmax'.
  { unfold hoc. destruct (Z.ltb_spec (bi_round (qc_commit_info (bt_highest_ordered_cert t))) (bi_round (qc_commit_info qc))); lia. }
  eexists _, _. split_and!; try done.
  2: { split_and!; [|done..]. cbn. destruct (id_to_quorum_cert t !! id) as [q|] eqn:Hq; [by exists q|]. exists qc. apply lookup_insert_eq. }
  destruct Hok. split; cbn; try done.
  - unfold hcb. destruct (Z.ltb_spec (rnd (highest_certified_block_id t)) (rnd id)); [split; [done|by apply Hsafe]|done].
  - intros i q Hq. rewrite Hmax Hmax'. assert (i = id ∧ q = qc ∨ id_to_quorum_cert t !! i = Some q) as [[-> ->]|Hold].
    { destruct (id_to_quorum_cert t !! id) as [q0|] eqn:Hq0; [by right|]. apply lookup_insert_Some in Hq as [[<- <-]|[_ ?]]; [by left|by right]. }
    + split_and!; [done|lia..].
    + destruct (ok_qc0 i q Hold) as (? & ? & ?). split_and!; [done|lia..].
  - unfold hcb. destruct (_ <? _); done.
Qed.

(** Dropping the first of the pruned blocks. *)
Lemma removed_blocks l t :
  foldl remove_block t l
  = mkBlockTree (filter (λ x, x.1 ∉ l) (id_to_block t)) (ordered_root_id t) (commit_root_id t)
      (highest_certified_block_id t) (bt_highest_quorum_cert t) (bt_highest_2chain_timeout_cert t)
      (bt_highest_ordered_cert t) (bt_highest_commit_cert t) (filter (λ x, x.1 ∉ l) (id_to_quorum_cert t))
      (pruned_block_ids t) (max_pruned_blocks_in_mem t).
Proof.
  revert t. induction l as [|i l IH]; intros t; cbn [foldl].
  - destruct t. cbn. f_equal; symmetry; apply map_filter_id; intros; apply not_elem_of_nil.
  - rewrite IH. destruct t as [blocks o c h q tc oc cc qcs p m]. cbn. f_equal.
    + apply map_eq. intros x. apply option_eq. intros y. rewrite !map_lookup_filter_Some lookup_delete_Some not_elem_of_cons /=. naive_solver.
    + apply map_eq. intros x. apply option_eq. intros y. rewrite !map_lookup_filter_Some lookup_delete_Some not_elem_of_cons /=. naive_solver.
Qed.

Lemma not_removed n (l : list HashValue) x : x ∉ take n l → x ∈ l → x ∈ drop n l.
Proof. intros Hn Hx. rewrite -(take_drop n l) in Hx. by apply elem_of_app in Hx as [?|?]. Qed.

(** ** Moving the commit root *)

Section pruning.
Context (t : BlockTree) (Hok : tree_ok t) (N : HashValue).
Context (HN : is_Some (id_to_block t !! N)) (HdN : desc (commit_root_id t) N) (Hround : rnd (commit_root_id t) < rnd N).
Context (HordN : desc N (ordered_root_id t)).
Context (l : list HashValue) (Hnd : NoDup l).
Context (Hl : ∀ x, x ∈ l ↔ is_Some (id_to_block t !! x) ∧ desc (commit_root_id t) x ∧ ¬ desc N x).
Context (Hl_order : ∀ k x, l !! k = Some x → x = commit_root_id t ∨ ∃ j, (j < k)%nat ∧ l !! j = Some (par x)).

Notation all := (pruned_block_ids t ++ l)%list.

Lemma all_pruned x : x ∈ all → is_Some (id_to_block t !! x) ∧ ¬ desc N x.
Proof.
  intros [(? & Hn)%(ok_pruned t Hok)|(? & _ & ?)%Hl]%elem_of_app; split; try done. intros Hd. apply Hn. by apply (desc_trans _ N).
Qed.

Lemma all_nodup : NoDup all.
Proof.
  apply NoDup_app. split_and!; [apply (ok_pruned_nodup t Hok)| |done]. intros x (_ & Hn)%(ok_pruned t Hok) (_ & ? & _)%Hl. done.
Qed.

(** Parents are pruned before their children. *)
Lemma all_order k c i lb :
  all !! k = Some c → id_to_block t !! i = Some lb → c ∈ children lb → ∃ j, (j < k)%nat ∧ all !! j = Some i.
Proof.
  intros Hk Hi Hc. apply lookup_app_Some in Hk as [Hk|[Hlen Hk]].
  - destruct (ok_pruned_order t Hok k c i lb Hk Hi Hc) as (j & ? & ?). exists j. split; [done|]. by apply lookup_app_l_Some.
  - destruct (Hl_order _ _ Hk) as [->|(j & Hj & Hlj)].
    + pose proof (ok_root_parent t Hok i lb Hi Hc) as [j Hj]%list_elem_of_lookup. exists j.
      split; [apply lookup_lt_Some in Hj; lia|by apply lookup_app_l_Some].
    + destruct (ok_link t Hok i lb c Hi Hc) as (Hp & _). rewrite Hp in Hlj. exists (length (pruned_block_ids t) + j)%nat. split; [lia|].
      rewrite lookup_app_r; [lia|]. by replace (_ + j - _)%nat with j by lia.
Qed.

Lemma pruned_tree_ok n cert :
  (length all - max_pruned_blocks_in_mem t ≤ n)%nat → bi_round (qc_commit_info cert) = rnd N →
  tree_ok (mkBlockTree (filter (λ x, x.1 ∉ take n all) (id_to_block t)) (ordered_root_id t) N
    (highest_certified_block_id t) (bt_highest_quorum_cert t) (bt_highest_2chain_timeout_cert t)
    (bt_highest_ordered_cert t) cert (filter (λ x, x.1 ∉ take n all) (id_to_quorum_cert t))
    (drop n all) (max_pruned_blocks_in_mem t)).
Proof.
  intros Hn Hcert.
  assert (∀ x, desc N x → x ∉ take n all) as Hkeep.
  { intros x Hd Hx. destruct (all_pruned x); [|done]. rewrite -(take_drop n all). apply elem_of_app. by left. }
  assert (∀ x lb, filter (λ x, x.1 ∉ take n all) (id_to_block t) !! x = Some lb ↔ id_to_block t !! x = Some lb ∧ x ∉ take n all) as Hlook.
  { intros x lb. by rewrite map_lookup_filter_Some. }
  assert (∀ x, desc N x → is_Some (id_to_block t !! x) → is_Some (filter (λ x, x.1 ∉ take n all) (id_to_block t) !! x)) as Hsome.
  { intros x Hd [lb Hx]. exists lb. apply Hlook. split; [done|by apply Hkeep]. }
  split; cbn.
  - intros i lb [Hi _]%Hlook. by apply (ok_block t Hok).
  - intros i lb c [Hi Hni]%Hlook Hc. destruct (ok_link t Hok i lb c Hi Hc) as (? & ? & [lc Hlc]). split_and!; [done..|].
    exists lc. apply Hlook. split; [done|]. intros (k & Hk & Hlt)%elem_of_take.
    destruct (all_order k c i lb Hk Hi Hc) as (j & Hj & Hji). apply Hni. apply elem_of_take. exists j. split; [done|lia].
  - intros x [lb [Hx _]%Hlook] Hd. destruct (decide (x = N)) as [?|Hne]; [by left|right].
    destruct (ok_parent t Hok x) as [->|(lp & Hlp & Hc)]; [by eexists|by apply (desc_trans _ N)| |].
    + pose proof (desc_round _ _ Hd). lia.
    + exists lp. split; [|done]. apply Hlook. split; [done|]. apply Hkeep. by destruct (desc_inv N x Hd).
  - apply Hsome; [apply desc_refl|done].
  - split; [apply Hsome; [done|apply (ok_ordered_root t Hok)]|done].
  - destruct (ok_certified t Hok) as [? ?]. split; [|done]. apply Hsome; [by apply (desc_trans _ (ordered_root_id t))|done].
  - intros p Hp. destruct (all_pruned p) as [[lb Hlb] ?]; [rewrite -(take_drop n all); apply elem_of_app; by right|]. split; [|done]. exists lb. apply Hlook.
    split; [done|]. intros Hp'. pose proof all_nodup as Hall. rewrite -(take_drop n all) in Hall. apply NoDup_app in Hall as (_ & Hdis & _).
    by apply (Hdis p).
  - eapply sublist_NoDup; [apply all_nodup|apply sublist_drop].
  - intros k c i lb Hk [Hi Hni]%Hlook Hc. rewrite lookup_drop in Hk. destruct (all_order _ c i lb Hk Hi Hc) as (j & Hj & Hji).
    destruct (decide (j < n)%nat); [destruct Hni; apply elem_of_take; by exists j|]. exists (j - n)%nat. split; [lia|].
    rewrite lookup_drop. by replace (n + (j - n))%nat with j by lia.
  - intros i lb [Hi Hni]%Hlook Hc. apply not_removed; [done|]. apply elem_of_app. right. apply Hl.
    destruct (ok_link t Hok i lb N Hi Hc) as (Hp & Hlt & _). split_and!; [by exists lb| |].
    + destruct (desc_inv _ _ HdN) as [->|?]; [lia|congruence].
    + intros Hd%desc_round. lia.
  - rewrite length_drop. lia.
  - intros i qc [Hq _]%map_lookup_filter_Some. by apply (ok_qc t Hok).
  - apply (ok_hqc t Hok).
  - done.
Qed.
End pruning.

Lemma commit_callback_ok t bs qc decision b :
  tree_ok t → last bs = Some b → is_Some (id_to_block t !! eb_id b) →
  desc (commit_root_id t) (eb_id b) → rnd (commit_root_id t) < rnd (eb_id b) → desc (eb_id b) (ordered_root_id t) →
  match_ordered_only (qc_commit_info qc) (commit_info (ledger_info decision)) = true →
  bi_id (qc_commit_info qc) = eb_id b → bi_round (qc_commit_info qc) = rnd (eb_id b) →
  ∃ t', commit_callback t bs qc decision = Ret t' ∧ tree_ok t' ∧
    commit_root_id t' = eb_id b ∧ ordered_root_id t' = ordered_root_id t ∧
    (∀ x, desc (eb_id b) x → id_to_block t' !! x = id_to_block t !! x) ∧
    (∀ x, is_Some (id_to_block t' !! x) → desc (commit_root_id t) x → ¬ desc (eb_id b) x → x ∈ pruned_block_ids t') ∧
    (∀ x, ¬ desc (commit_root_id t) x → x ∉ pruned_block_ids t →
       id_to_block t' !! x = id_to_block t !! x ∧ x ∉ pruned_block_ids t').
Proof.
  intros Hok Hlast Hb Hd Hlt Hord Hmatch Hid Hr. unfold commit_callback, create_merged_with_executed_state. rewrite Hmatch Hlast.
  cbn [expect_ok expect]. run. destruct (ok_commit_root t Hok) as [lr Hlr].
  unfold commit_root, get_block. rewrite Hlr. cbn [fmap option_fmap option_map expect]. run.
  destruct (find_blocks_ok t Hok (eb_id b) Hb Hd) as (l & -> & Hnd & Hl & Horder). run.
  unfold process_pruned_blocks. rewrite removed_blocks. set (all := (pruned_block_ids t ++ l)%list) in *. set (n := (length all - max_pruned_blocks_in_mem t)%nat).
  unfold match_ordered_only in Hmatch. rewrite !andb_true_iff !bool_decide_eq_true in Hmatch. destruct Hmatch as [[[_ Hmr] Hmi] _].
  set cert := mkQuorumCert (vote_data qc) decision.
  assert (qc_commit_info cert = commit_info (ledger_info decision)) as Hc by done.
  pose proof (pruned_tree_ok t Hok (eb_id b) Hb Hd Hlt Hord l Hnd Hl Horder n cert) as Hok'.
  assert (∀ x, desc (eb_id b) x → filter (λ x, x.1 ∉ take n all) (id_to_block t) !! x = id_to_block t !! x) as Hkeep.
  { intros x Hx. apply option_eq. intros lb. rewrite map_lookup_filter_Some /=. split; [by intros [? _]|]. intros Hlb. split; [done|].
    intros Hin. destruct (all_pruned t Hok (eb_id b) Hd l Hl x) as [_ ?]; [|done].
    change (x ∈ all). rewrite -(take_drop n all). apply elem_of_app. by left. }
  unfold update_highest_commit_cert. cbn [bt_highest_commit_cert]. rewrite (ok_hcc t Hok) Hc -Hmr Hr Z.gtb_ltb (proj2 (Z.ltb_lt _ _)) //.
  unfold update_commit_root, block_exists. cbn [id_to_block]. rewrite -Hmi Hid bool_decide_eq_true_2; [rewrite Hkeep //; apply desc_refl|]. run.
  eexists. split_and!; [done|apply Hok'; [done|rewrite Hc; congruence]|done|done|done| |].
  2: { intros x HnD Hnp. assert (x ∉ all) as Hno by (intros [?|(_ & ? & _)%Hl]%elem_of_app; done).
    rewrite -(take_drop n all) not_elem_of_app in Hno. destruct Hno as [Hno1 Hno2]. split; [|exact Hno2].
    apply option_eq. intros lb. rewrite map_lookup_filter_Some /=. naive_solver. }
  intros x [lb [Hx Hno]%map_lookup_filter_Some] Hdx HNx. apply not_removed; [done|]. apply elem_of_app. right. apply Hl. split_and!; [by exists lb|done..].
Qed.

Lemma chain_last t r l x : l ≠ [] → chain t r l x → ∃ b, last l = Some b ∧ eb_id b = x.
Proof.
  revert r. induction l as [|b l IH]; intros r Hne; [done|]. cbn [chain]. intros (_ & _ & Hl).
  destruct l as [|c l]; [cbn in Hl; exists b; by rewrite Hl|]. destruct (IH _ ltac:(done) Hl) as (d & Hd & <-). exists d.
  by rewrite last_cons Hd.
Qed.

(** Ordering a block that agrees with what has been ordered and certified. *)
Lemma commit_ok t qc :
  tree_ok t →
  (let id := bi_id (qc_commit_info qc) in
   is_Some (id_to_block t !! id) → rnd (ordered_root_id t) < rnd id →
   desc (ordered_root_id t) id ∧ desc id (highest_certified_block_id t)) →
  ∃ t' res, commit t qc = Ret (t', res) ∧ tree_ok t' ∧ id_to_block t' = id_to_block t ∧ commit_root_id t' = commit_root_id t ∧
    match res with
    | Ok bs => bs ≠ [] ∧ chain t (ordered_root_id t) bs (bi_id (qc_commit_info qc)) ∧
        ordered_root_id t' = bi_id (qc_commit_info qc) ∧ rnd (ordered_root_id t) < rnd (bi_id (qc_commit_info qc))
    | Err _ => t' = t ∧
        (is_Some (id_to_block t !! bi_id (qc_commit_info qc)) → rnd (bi_id (qc_commit_info qc)) ≤ rnd (ordered_root_id t))
    end.
Proof.
  intros Hok Hagree. cbv zeta in Hagree. unfold commit. set (id := bi_id (qc_commit_info qc)) in *.
  destruct (get_block t id) as [b|] eqn:Hb.
  2: { eexists _, _. split_and!; try done. split; [done|]. intros [lb Hlb]. unfold get_block in Hb. by rewrite Hlb in Hb. }
  destruct (get_block_Some t Hok _ _ Hb) as (Hid & Hbid & _ & Hround).
  destruct (ok_ordered_root t Hok) as [[lo Hlo] Hdo]. destruct (ok_block t Hok _ _ Hlo) as [Hoid [_ Hor]].
  assert (ordered_root t = Ret (executed_block lo)) as Hroot by (unfold ordered_root, get_block; by rewrite Hlo).
  rewrite Hroot. run. rewrite Hround Hbid Hor Hoid Z.gtb_ltb. destruct (Z.ltb_spec (rnd (ordered_root_id t)) (rnd id)) as [Hlt|Hge]; cbn [negb].
  2: { eexists _, _. split_and!; try done. }
  destruct (Hagree Hid Hlt) as [Hd1 Hd2]. unfold path_from_ordered_root. rewrite Hroot. run. rewrite Hor Hoid.
  destruct (path_ok t Hok (ordered_root_id t) id) as (o & -> & Ho); [by exists lo|done|]. run.
  destruct o as [bs|]; [|by destruct Ho]. cbn [default].
  assert (bs ≠ []) as Hne. { intros ->. cbn in Ho. rewrite Ho in Hlt. lia. }
  destruct bs as [|b0 bs]; [done|]. run. unfold update_ordered_root, block_exists. rewrite bool_decide_eq_true_2 //. run.
  eexists _, _. split_and!; try done. destruct Hok. split; cbn; try done.
  - split; [done|]. by apply (desc_trans _ (ordered_root_id t)).
  - by destruct ok_certified0.
Qed.

(** ** Runs of the block store *)

(** Blocks that are ordered and wait for their commit, with the certificate that orders
    them. *)
Notation pending := (list (list ExecutedBlock * QuorumCert)).

(** What the agreement of validators provides: a certificate of a higher round than all
    before is for a block above the ordered root, and a block that comes to be ordered lies
    between the ordered root and the highest certified block. *)
Definition qc_agrees (t : BlockTree) (qc : QuorumCert) : Prop :=
  let id := bi_id (certified_block qc) in
  is_Some (id_to_block t !! id) → rnd (highest_certified_block_id t) < rnd id → desc (ordered_root_id t) id.
Definition order_agrees (t : BlockTree) (qc : QuorumCert) : Prop :=
  let id := bi_id (qc_commit_info qc) in
  bi_round (qc_commit_info qc) = rnd id ∧
  (is_Some (id_to_block t !! id) → rnd (ordered_root_id t) < rnd id →
   desc (ordered_root_id t) id ∧ desc id (highest_certified_block_id t)).

(** The block that is executed has the parent and the round that its id stands for. *)
Definition computes_known (block : Block) (computed : result anyhow StateComputeResult) : Prop :=
  ∀ res, computed = Ok res → known (mkExecutedBlock block res).

Inductive store_reachable : BlockTree → pending → Prop :=
  | reach_new root qc ordered commit_cert max tc t :
      known root → bi_id (certified_block qc) = eb_id root → bi_round (qc_commit_info qc) ≤ bi_round (qc_commit_info ordered) →
      bi_round (qc_commit_info commit_cert) = eb_round root →
      BlockTree_new root qc ordered commit_cert max tc = Ret t → store_reachable t []
  | reach_block t ps block computed saved t' r :
      store_reachable t ps → computes_known block computed →
      execute_and_insert_block t block computed saved = Ret (t', r) → store_reachable t' ps
  | reach_qc t ps qc saved t' r :
      store_reachable t ps → qc_agrees t qc → insert_single_quorum_cert t qc saved = Ret (t', r) → store_reachable t' ps
  | reach_tc t ps tc saved :
      store_reachable t ps → store_reachable (insert_2chain_timeout_certificate t tc saved).1 ps
  | reach_order t ps qc t' r :
      store_reachable t ps → order_agrees t qc → commit t qc = Ret (t', r) →
      store_reachable t' (match r with Ok bs => ps ++ [(bs, qc)] | Err _ => ps end)
  | reach_commit t ps bs qc decision t' :
      store_reachable t ((bs, qc) :: ps) →
      match_ordered_only (qc_commit_info qc) (commit_info (ledger_info decision)) = true →
      commit_callback t bs qc decision = Ret t' → store_reachable t' ps.

(** Every batch ends above the one before, the last one at the ordered root. *)
Fixpoint pending_ok (t : BlockTree) (r : HashValue) (ps : pending) : Prop :=
  match ps with
  | [] => ordered_root_id t = r
  | (bs, qc) :: ps => ∃ b, last bs = Some b ∧ is_Some (id_to_block t !! eb_id b) ∧
      desc r (eb_id b) ∧ rnd r < rnd (eb_id b) ∧
      bi_id (qc_commit_info qc) = eb_id b ∧ bi_round (qc_commit_info qc) = rnd (eb_id b) ∧ pending_ok t (eb_id b) ps
  end.

Lemma pending_desc t r ps : pending_ok t r ps → desc r (ordered_root_id t).
Proof.
  revert r. induction ps as [|[bs qc] ps IH]; intros r; cbn; [intros <-; apply desc_refl|].
  intros (b & _ & _ & Hd & _ & _ & _ & Hps). by apply (desc_trans _ (eb_id b)); [|apply IH].
Qed.

Lemma pending_keep t t' r ps :
  pending_ok t r ps → ordered_root_id t' = ordered_root_id t →
  (∀ x, desc r x → is_Some (id_to_block t !! x) → is_Some (id_to_block t' !! x)) → pending_ok t' r ps.
Proof.
  revert r. induction ps as [|[bs qc] ps IH]; intros r; cbn; [by intros <-|].
  intros (b & ? & ? & Hd & ? & ? & ? & Hps) Ho Hkeep. exists b. split_and!; try done; [by apply Hkeep|].
  apply IH; [done..|]. intros x Hx. apply Hkeep. by apply (desc_trans _ (eb_id b)).
Qed.

Lemma pending_snoc t t' r ps bs b qc :
  pending_ok t r ps → id_to_block t' = id_to_block t → last bs = Some b → is_Some (id_to_block t !! eb_id b) →
  desc (ordered_root_id t) (eb_id b) → rnd (ordered_root_id t) < rnd (eb_id b) →
  bi_id (qc_commit_info qc) = eb_id b → bi_round (qc_commit_info qc) = rnd (eb_id b) → ordered_root_id t' = eb_id b →
  pending_ok t' r (ps ++ [(bs, qc)]).
Proof.
  intros Hps Hblocks Hlast Hsome Hd Hlt Hid Hr Ho. revert r Hps.
  induction ps as [|[bs' qc'] ps IH]; intros r; cbn.
  - intros <-. exists b. rewrite Hblocks. by split_and!.
  - intros (b' & ? & ? & ? & ? & ? & ? & Hps). exists b'. rewrite Hblocks. split_and!; try done. by apply IH.
Qed.

(** *** One step *)

Lemma execute_and_insert_block_ok t block computed saved :
  tree_ok t → computes_known block computed →
  ∃ t' r, execute_and_insert_block t block computed saved = Ret (t', r) ∧ tree_ok t' ∧
    (∀ e, r = Ok e → get_block t' (block_id block) = Some e) ∧
    ordered_root_id t' = ordered_root_id t ∧ commit_root_id t' = commit_root_id t ∧
    ∀ x e, get_block t x = Some e → get_block t' x = Some e.
Proof.
  intros Hok Hknown. unfold execute_and_insert_block. destruct (get_block t (block_id block)) as [e|] eqn:He.
  { eexists _, _. split_and!; try done. by intros e' [= <-]. }
  destruct (ok_ordered_root t Hok) as [[lo Hlo] _]. destruct (ok_block t Hok _ _ Hlo) as [Hoid [_ Hor]].
  unfold ordered_root, get_block at 1. rewrite Hlo. cbn [fmap option_fmap option_map expect]. run. rewrite Hor Hoid.
  destruct (Z.ltb_spec (rnd (ordered_root_id t)) (block_round block)) as [Hlt|_]; cbn [negb]; [|by eexists _, _; split_and!].
  destruct computed as [res|err]; [|by eexists _, _; split_and!]. destruct saved as [[]|err]; [|by eexists _, _; split_and!].
  destruct (rnd_par (ordered_root_id t)) as (H0 & _).
  destruct (insert_block_ok t (mkExecutedBlock block res) Hok (Hknown res eq_refl)) as (t' & r & -> & Hok' & Hr & ? & ? & _ & ?).
  { unfold eb_round. cbn. lia. }
  { intros e He'. unfold eb_id in He'. cbn in He'. congruence. }
  eexists _, _. split_and!; try done. intros e ->. exact Hr.
Qed.

Lemma insert_single_quorum_cert_ok t qc saved :
  tree_ok t → qc_agrees t qc →
  ∃ t' r, insert_single_quorum_cert t qc saved = Ret (t', r) ∧ tree_ok t' ∧
    id_to_block t' = id_to_block t ∧ ordered_root_id t' = ordered_root_id t ∧ commit_root_id t' = commit_root_id t ∧
    (r = Ok tt → rnd (bi_id (certified_block qc)) ≤ rnd (highest_certified_block_id t') ∧
       is_Some (id_to_quorum_cert t' !! bi_id (certified_block qc))).
Proof.
  intros Hok Hagree. unfold insert_single_quorum_cert. destruct (get_block t _) as [e|]; [|by eexists _, _; split_and!].
  destruct (match_ordered_only _ _); cbn [negb]; [|by eexists _, _; split_and!].
  destruct saved as [[]|err]; [|by eexists _, _; split_and!].
  destruct (insert_quorum_cert_ok t qc Hok Hagree) as (t' & r & -> & ? & ? & ? & ? & Hr). eexists _, _. split_and!; try done.
  intros ->. destruct Hr as (? & -> & _). split; [lia|done].
Qed.

Lemma tree_ok_tc t tc saved :
  tree_ok t → let t' := (insert_2chain_timeout_certificate t tc saved).1 in
  tree_ok t' ∧ id_to_block t' = id_to_block t ∧ ordered_root_id t' = ordered_root_id t ∧ commit_root_id t' = commit_root_id t.
Proof.
  intros Hok. unfold insert_2chain_timeout_certificate. cbn zeta. destruct (_ <=? _); [by split_and!|].
  destruct saved; [|by split_and!]. split_and!; [|done..]. by destruct Hok.
Qed.

Lemma store_ok t ps : store_reachable t ps → tree_ok t ∧ pending_ok t (commit_root_id t) ps.
Proof.
  induction 1 as [root qc ordered cc max tc t Hk Hid Hle Hr Hrun|t ps block computed saved t' r _ [Hok Hps] Hk Hrun
    |t ps qc saved t' r _ [Hok Hps] Hag Hrun|t ps tc saved _ [Hok Hps]|t ps qc t' r _ [Hok Hps] [Hround Hag] Hrun
    |t ps bs qc decision t' _ [Hok Hps] Hm Hrun].
  - assert (bi_id (qc_commit_info ordered) = eb_id root) as Hor.
    { unfold BlockTree_new in Hrun. case_bool_decide; done. }
    destruct (tree_ok_new root qc ordered cc max tc Hk Hid Hor Hle Hr) as (t' & Hrun' & Hok).
    rewrite Hrun in Hrun'. injection Hrun' as <-. split; [done|]. unfold BlockTree_new in Hrun.
    rewrite bool_decide_eq_true_2 // in Hrun. by injection Hrun as <-.
  - destruct (execute_and_insert_block_ok t block computed saved Hok Hk) as (t1 & r1 & Hrun' & ? & _ & Ho & Hc & Hkeep).
    rewrite Hrun in Hrun'. injection Hrun' as <- <-. split; [done|]. rewrite Hc. apply (pending_keep t); [done..|].
    intros x _ [lb Hx]. destruct (id_to_block t' !! x) eqn:Hx'; [by eexists|]. exfalso.
    pose proof (Hkeep x (executed_block lb)) as Hg. unfold get_block in Hg. rewrite Hx Hx' in Hg. by specialize (Hg eq_refl).
  - destruct (insert_single_quorum_cert_ok t qc saved Hok Hag) as (t1 & r1 & Hrun' & ? & Hb & Ho & Hc & _).
    rewrite Hrun in Hrun'. injection Hrun' as <- <-. split; [done|]. rewrite Hc. apply (pending_keep t); [done..|]. by rewrite Hb.
  - destruct (tree_ok_tc t tc saved Hok) as (? & Hb & Ho & Hc). split; [done|]. rewrite Hc. apply (pending_keep t); [done..|]. by rewrite Hb.
  - destruct (commit_ok t qc Hok Hag) as (t1 & r1 & Hrun' & ? & Hb & Hc & Hr). rewrite Hrun in Hrun'. injection Hrun' as <- <-.
    split; [done|]. rewrite Hc. destruct r as [bs|e]; [|destruct Hr as [-> _]; done]. destruct Hr as (Hne & Hch & Ho & Hlt).
    destruct (chain_last t _ _ _ Hne Hch) as (b & Hlast & Hbid). apply (pending_snoc t t' _ ps bs b); try congruence.
    + rewrite Hbid -Ho -Hb. by destruct (ok_ordered_root t' H).
    + rewrite Hbid. by apply (chain_desc t Hok) in Hch.
  - cbn in Hps. destruct Hps as (b & Hlast & Hb & Hd & Hlt & Hid & Hr & Hps).
    destruct (commit_callback_ok t bs qc decision b) as (t1 & Hrun' & ? & Hc & Ho & Hkeep & _ & _); try done.
    { by apply (pending_desc _ _ ps). }
    rewrite Hrun in Hrun'. injection Hrun' as <-. split; [done|]. rewrite Hc. apply (pending_keep t); [done..|].
    intros x Hx. by rewrite Hkeep.
Qed.

Lemma get_active t x : is_Some (id_to_block t !! x) → ∃ e, get_block t x = Some e.
Proof. intros [lb Hx]. exists (executed_block lb). unfold get_block. by rewrite Hx. Qed.



(** A block that was inserted below a pruned one is never pruned: no commit removes it. *)
Lemma orphan_stays t bs qc decision b x :
  tree_ok t → last bs = Some b → is_Some (id_to_block t !! eb_id b) →
  desc (commit_root_id t) (eb_id b) → rnd (commit_root_id t) < rnd (eb_id b) → desc (eb_id b) (ordered_root_id t) →
  match_ordered_only (qc_commit_info qc) (commit_info (ledger_info decision)) = true →
  bi_id (qc_commit_info qc) = eb_id b → bi_round (qc_commit_info qc) = rnd (eb_id b) →
  is_Some (id_to_block t !! x) → ¬ desc (commit_root_id t) x → x ∉ pruned_block_ids t →
  ∃ t', commit_callback t bs qc decision = Ret t' ∧
    is_Some (id_to_block t' !! x) ∧ ¬ desc (commit_root_id t') x ∧ x ∉ pruned_block_ids t'.
Proof.
  intros Hok Hlast Hb Hd Hlt Hord Hm Hid Hr Hx HnD Hnp.
  destruct (commit_callback_ok t bs qc decision b) as (t' & Hrun & _ & Hc & _ & _ & _ & Hstay); [done..|]. exists t'. split; [done|].
  destruct (Hstay x HnD Hnp) as [-> ?]. rewrite Hc. split_and!; [done| |done]. intros Hdx. by apply HnD, (desc_trans _ (eb_id b)).
Qed.
End tree.
End block_tree.
