(* ===== verification/SafetyRules.v ===== *)
(** * Safety rules

    Models [consensus/safety-rules]: the persistent safety data of a validator and
    the operations that sign proposals, votes, timeouts and commit votes under the
    two-chain rules, together with the initialisation from an epoch change proof.
    The secure storage backend is a parameter. *)
From stdpp Require Import strings.
From S2P Require Import Prelude BitVec ValidatorVerifier ConsensusData EpochChange.
Local Open Scope Z_scope.

(** ** Computations on a state that may fail

    A method with [&mut self] that returns [Result<A, E>]: the state is kept when it
    fails. *)
Definition action (S E A : Type) : Type := S → comp (S * result E A).

#[global] Instance action_ret {S E} : MRet (action S E) := λ A a s, Ret (s, Ok a).
#[global] Instance action_bind {S E} : MBind (action S E) := λ A B f m s,
  match m s with
  | Panic => Panic
  | Ret (s', Err e) => Ret (s', Err e)
  | Ret (s', Ok a) => f a s'
  end.

Definition lift {S E A} (r : result E A) : action S E A := λ s, Ret (s, r).
Definition fail {S E A} (e : E) : action S E A := λ s, Ret (s, Err e).
Definition gets {S E A} (f : S → A) : action S E A := λ s, Ret (s, Ok (f s)).
Definition modify {S E} (f : S → S) : action S E unit := λ s, Ret (f s, Ok tt).
(** [c.map_err(f)?] on a check that does not touch the state. *)
Definition checked {S E F A} (f : F → E) (c : comp (result F A)) : action S E A := λ s,
  match c with Panic => Panic | Ret r => Ret (s, map_err f r) end.

(** ** Data *)

Section data.
Context `{CT : ConsensusTypes}.

Record SafetyData : Type := mkSafetyData {
  sd_epoch : Z;
  last_voted_round : Round;
  preferred_round : Round;
  one_chain_round : Round;
  last_vote : option Vote;
}.

Inductive StorageError : Type :=
  | EntropyError
  | StorageInternalError
  | KeyAlreadyExists
  | KeyNotSet
  | PermissionDenied
  | StorageSerializationError
  | KeyVersionNotFound.

Inductive Error : Type :=
  | IncorrectEpoch (epoch expected : Z)
  | IncorrectRound (round : Round)
  | IncorrectLastVotedRound (round last_voted : Round)
  | IncorrectPreferredRound (round preferred : Round)
  | InvalidAccumulatorExtension (e : unit)
  | InvalidEpochChangeProof (e : anyhow)
  | InternalError (e : string)
  | InvalidLedgerInfo
  | InvalidProposal (e : anyhow)
  | InvalidQuorumCertificate (e : anyhow)
  | NotInitialized (what : string)
  | SecureStorageMissingDataError (e : option StorageError)
  | SecureStorageUnexpectedError (e : StorageError)
  | SerializationError
  | ValidatorKeyNotFound (e : option StorageError)
  | ValidatorNotInSet (author : AccountAddress)
  | NotSafeToVote (round qc_round tc_round hqc_round : Round)
  | NotSafeToTimeout (round qc_round tc_round one_chain_round : Round)
  | InvalidTimeoutCertificate (e : anyhow)
  | InconsistentExecutionResult (ordered executed : BlockInfo)
  | InvalidOrderedLedgerInfo (li : LedgerInfo)
  | WaypointOutOfDate (previous updated current_epoch provided_epoch : Z)
  | InvalidTimeout (e : anyhow).

(** [From<aptos_secure_storage::Error>]: a permission error panics. *)
Definition from_storage_error (error : StorageError) : comp Error :=
  match error with
  | PermissionDenied => Panic
  | KeyVersionNotFound | KeyNotSet => Ret (SecureStorageMissingDataError (Some error))
  | _ => Ret (SecureStorageUnexpectedError error)
  end.

Record ValidatorSigner : Type := mkValidatorSigner {
  vs_author : AccountAddress;
  private_key : PrivateKey;
}.

(** The key-value storage, at the keys and types the code uses.  Reading the safety
    data as a [Result] is a different instance of [get] from reading it as itself. *)
Class SecureStorage (St : Type) : Type := {
  kv_get_safety_data : St → result StorageError SafetyData;
  kv_get_safety_data_result : St → result StorageError (result Error SafetyData);
  kv_set_safety_data : St → SafetyData → St * result StorageError unit;
  kv_get_waypoint : St → result StorageError Waypoint;
  kv_set_waypoint : St → Waypoint → St * result StorageError unit;
  kv_get_author : St → result StorageError AccountAddress;
  kv_get_consensus_key : St → result StorageError PrivateKey;
}.

End data.

Section rules.
Context `{CT : ConsensusTypes, CE : !ConsensusEnv, BL : !Bls Signable} {St : Type} `{ST : !SecureStorage St}.

Record PersistentSafetyStorage : Type := mkPersistentSafetyStorage {
  enable_cached_safety_data : bool;
  cached_safety_data : option SafetyData;
  internal_store : St;
}.

Record SafetyRules : Type := mkSafetyRules {
  persistent_storage : PersistentSafetyStorage;
  validator_signer : option ValidatorSigner;
  epoch_state : option EpochState;
}.

Abbreviation rules A := (action SafetyRules Error A) (only parsing).

Definition PersistentSafetyStorage_new (store : St) (enable : bool) : PersistentSafetyStorage :=
  mkPersistentSafetyStorage enable None store.

Definition SafetyRules_new (storage : PersistentSafetyStorage) : SafetyRules :=
  mkSafetyRules storage None None.

Definition set_storage (p : PersistentSafetyStorage) (self : SafetyRules) : SafetyRules :=
  mkSafetyRules p (validator_signer self) (epoch_state self).

(** [r?] on a storage result. *)
Definition from_storage {A} (r : result StorageError A) : rules A := λ self,
  match r with
  | Ok a => Ret (self, Ok a)
  | Err e => e' ← from_storage_error e; Ret (self, Err e')
  end.

(** ** Persistent safety storage *)

Definition author : rules AccountAddress := λ self,
  from_storage (kv_get_author (internal_store (persistent_storage self))) self.

Definition waypoint : rules Waypoint := λ self,
  from_storage (kv_get_waypoint (internal_store (persistent_storage self))) self.

Definition consensus_key_for_version (version : PublicKey) : rules PrivateKey := λ self,
  (key ← from_storage (kv_get_consensus_key (internal_store (persistent_storage self)));
   if decide (public_key_of key ≠ version) then fail (SecureStorageMissingDataError None)
   else mret key) self.

Definition safety_data : rules SafetyData := λ self,
  let p := persistent_storage self in
  if negb (enable_cached_safety_data p) then
    (r ← from_storage (kv_get_safety_data_result (internal_store p)); lift r) self
  else
    match cached_safety_data p with
    | Some d => Ret (self, Ok d)
    | None =>
        (d ← from_storage (kv_get_safety_data (internal_store p));
         _ ← modify (set_storage (mkPersistentSafetyStorage (enable_cached_safety_data p) (Some d) (internal_store p)));
         mret d) self
    end.

Definition set_safety_data (data : SafetyData) : rules unit := λ self,
  let p := persistent_storage self in
  match kv_set_safety_data (internal_store p) data with
  | (st, Ok _) =>
      Ret (set_storage (mkPersistentSafetyStorage (enable_cached_safety_data p) (Some data) st) self, Ok tt)
  | (st, Err error) =>
      Ret (set_storage (mkPersistentSafetyStorage (enable_cached_safety_data p) None st) self,
           Err (SecureStorageUnexpectedError error))
  end.

Definition set_waypoint (w : Waypoint) : rules unit := λ self,
  let p := persistent_storage self in
  let '(st, r) := kv_set_waypoint (internal_store p) w in
  from_storage r
    (set_storage (mkPersistentSafetyStorage (enable_cached_safety_data p) (cached_safety_data p) st) self).

(** ** Checks and rules *)

Definition next_round (round : Round) : result Error Round :=
  if round + 1 <? 2 ^ 64 then Ok (round + 1) else Err (IncorrectRound round).

Definition signer : rules ValidatorSigner := λ self,
  match validator_signer self with
  | Some s => Ret (self, Ok s)
  | None => Ret (self, Err (NotInitialized "validator_signer"))
  end.

Definition get_epoch_state : rules EpochState := λ self,
  match epoch_state self with
  | Some s => Ret (self, Ok s)
  | None => Ret (self, Err (NotInitialized "epoch_state"))
  end.

Definition sign (message : Signable) : rules Signature :=
  s ← signer;
  lift (match bls_sign (private_key s) message with
        | Some sg => Ok sg
        | None => Err SerializationError
        end).

Definition verify_epoch (epoch : Z) (data : SafetyData) : result Error unit :=
  if epoch =? sd_epoch data then Ok tt else Err (IncorrectEpoch epoch (sd_epoch data)).

Definition verify_qc (qc : QuorumCert) : rules unit :=
  es ← get_epoch_state;
  checked InvalidQuorumCertificate (QuorumCert_verify qc (es_verifier es)).

Definition verify_tc (tc : TwoChainTimeoutCertificate) : rules unit :=
  es ← get_epoch_state;
  checked InvalidTimeoutCertificate (TwoChainTimeoutCertificate_verify tc (es_verifier es)).

Definition verify_proposal (now_usecs : Z) (vote_proposal : VoteProposal) : rules VoteData :=
  let proposed_block := vp_block vote_proposal in
  data ← safety_data;
  _ ← lift (verify_epoch (bd_epoch (block_data proposed_block)) data);
  _ ← verify_qc (block_qc proposed_block);
  es ← get_epoch_state;
  _ ← checked InvalidProposal (validate_signature proposed_block (es_verifier es));
  _ ← checked InvalidProposal (verify_well_formed now_usecs proposed_block);
  checked InvalidAccumulatorExtension (gen_vote_data vote_proposal).

Definition observe_qc (qc : QuorumCert) (data : SafetyData) : SafetyData * bool :=
  let one_chain := bi_round (certified_block qc) in
  let two_chain := bi_round (parent_block qc) in
  let '(data1, updated1) :=
    if one_chain >? one_chain_round data
    then (mkSafetyData (sd_epoch data) (last_voted_round data) (preferred_round data) one_chain (last_vote data), true)
    else (data, false) in
  if two_chain >? preferred_round data1
  then (mkSafetyData (sd_epoch data1) (last_voted_round data1) two_chain (one_chain_round data1) (last_vote data1), true)
  else (data1, updated1).

Definition verify_and_update_preferred_round (qc : QuorumCert) (data : SafetyData) :
    result Error (SafetyData * bool) :=
  let preferred := preferred_round data in
  let one_chain := bi_round (certified_block qc) in
  if one_chain <? preferred then Err (IncorrectPreferredRound one_chain preferred)
  else Ok (observe_qc qc data).

Definition verify_author (a : option AccountAddress) : rules unit :=
  s ← signer;
  match a with
  | None => fail (InvalidProposal (Message "No author found in the proposal"))
  | Some a => if decide (vs_author s ≠ a)
              then fail (InvalidProposal (Message "Proposal author is not validator signer!"))
              else mret tt
  end.

Definition verify_and_update_last_vote_round (round : Round) (data : SafetyData) : result Error SafetyData :=
  if round <=? last_voted_round data then Err (IncorrectLastVotedRound round (last_voted_round data))
  else Ok (mkSafetyData (sd_epoch data) round (preferred_round data) (one_chain_round data) (last_vote data)).

Definition safe_to_timeout (timeout : TwoChainTimeout) (maybe_tc : option TwoChainTimeoutCertificate)
    (data : SafetyData) : result Error unit :=
  let round := to_round timeout in
  let qc_round := hqc_round timeout in
  let tc_rnd := from_option tc_round 0 maybe_tc in
  after_qc ← next_round qc_round;
  progress ← (if round =? after_qc then Ok true else after_tc ← next_round tc_rnd; Ok (round =? after_tc));
  if (progress : bool) && (qc_round >=? one_chain_round data) then Ok tt
  else Err (NotSafeToTimeout round qc_round tc_rnd (one_chain_round data)).

Definition safe_to_vote (block : Block) (maybe_tc : option TwoChainTimeoutCertificate) : result Error unit :=
  let round := block_round block in
  let qc_round := bi_round (certified_block (block_qc block)) in
  let tc_rnd := from_option tc_round 0 maybe_tc in
  let hqc := from_option highest_hqc_round 0 maybe_tc in
  after_qc ← next_round qc_round;
  if round =? after_qc then Ok tt else
  after_tc ← next_round tc_rnd;
  if (round =? after_tc) && (qc_round >=? hqc) then Ok tt
  else Err (NotSafeToVote round qc_round tc_rnd hqc).

Definition construct_ledger_info_2chain (proposed_block : Block) (consensus_hash : HashValue) :
    result Error LedgerInfo :=
  let block1 := block_round proposed_block in
  let block0 := bi_round (certified_block (block_qc proposed_block)) in
  next ← next_round block0;
  Ok (mkLedgerInfo (if next =? block1 then certified_block (block_qc proposed_block) else BlockInfo_empty)
        consensus_hash).

(** ** The signing operations *)

Definition set_last_vote (v : Vote) (data : SafetyData) : SafetyData :=
  mkSafetyData (sd_epoch data) (last_voted_round data) (preferred_round data) (one_chain_round data) (Some v).

Definition guarded_construct_and_sign_vote_two_chain (now_usecs : Z) (vote_proposal : VoteProposal)
    (timeout_cert : option TwoChainTimeoutCertificate) : rules Vote :=
  _ ← signer;
  vd ← verify_proposal now_usecs vote_proposal;
  _ ← (match timeout_cert with Some tc => verify_tc tc | None => mret tt end);
  let proposed_block := vp_block vote_proposal in
  data ← safety_data;
  let previous :=
    match last_vote data with
    | Some vote => if bi_round (proposed (v_vote_data vote)) =? block_round proposed_block then Some vote else None
    | None => None
    end in
  match previous with
  | Some vote => mret vote
  | None =>
      data1 ← lift (verify_and_update_last_vote_round (block_round proposed_block) data);
      _ ← lift (safe_to_vote proposed_block timeout_cert);
      let data2 := (observe_qc (block_qc proposed_block) data1).1 in
      s ← signer;
      li ← lift (construct_ledger_info_2chain proposed_block (vote_data_hash vd));
      signature ← sign (SLedgerInfo li);
      let vote := new_with_signature vd (vs_author s) li signature in
      _ ← set_safety_data (set_last_vote vote data2);
      mret vote
  end.

Definition guarded_sign_timeout_with_qc (timeout : TwoChainTimeout)
    (timeout_cert : option TwoChainTimeoutCertificate) : rules Signature :=
  _ ← signer;
  data ← safety_data;
  _ ← lift (verify_epoch (to_epoch timeout) data);
  es ← get_epoch_state;
  _ ← checked InvalidTimeout (TwoChainTimeout_verify timeout (es_verifier es));
  _ ← (match timeout_cert with Some tc => verify_tc tc | None => mret tt end);
  _ ← lift (safe_to_timeout timeout timeout_cert data);
  if to_round timeout <? last_voted_round data
  then fail (IncorrectLastVotedRound (to_round timeout) (last_voted_round data)) else
  _ ← (if to_round timeout >? last_voted_round data
       then data1 ← lift (verify_and_update_last_vote_round (to_round timeout) data);
            set_safety_data data1
       else mret tt);
  sign (STimeout (signing_format timeout)).

Definition guarded_sign_proposal (bd : BlockData) : rules Signature :=
  _ ← signer;
  _ ← verify_author (bd_author bd);
  data ← safety_data;
  _ ← lift (verify_epoch (bd_epoch bd) data);
  if bd_round bd <=? last_voted_round data
  then fail (InvalidProposal (Message "Proposed round is not higher than last voted round")) else
  _ ← verify_qc (bd_quorum_cert bd);
  _ ← lift (verify_and_update_preferred_round (bd_quorum_cert bd) data);
  sign (SBlockData bd).

Definition guarded_sign_commit_vote (li : LedgerInfoWithSignatures) (new_ledger_info : LedgerInfo) :
    rules Signature :=
  _ ← signer;
  let old_ledger_info := ledger_info li in
  if negb (is_ordered_only (commit_info old_ledger_info))
  then fail (InvalidOrderedLedgerInfo old_ledger_info) else
  if negb (match_ordered_only (commit_info old_ledger_info) (commit_info new_ledger_info))
  then fail (InconsistentExecutionResult (commit_info old_ledger_info) (commit_info new_ledger_info)) else
  es ← get_epoch_state;
  _ ← checked (λ e, InvalidQuorumCertificate (Verify e)) (verify_signatures li (es_verifier es));
  sign (SLedgerInfo new_ledger_info).

(** ** Initialisation from an epoch change proof *)

Definition set_signer (o : option ValidatorSigner) (self : SafetyRules) : SafetyRules :=
  mkSafetyRules (persistent_storage self) o (epoch_state self).
Definition set_epoch_state (es : EpochState) (self : SafetyRules) : SafetyRules :=
  mkSafetyRules (persistent_storage self) (validator_signer self) (Some es).

(** [m.map_err(|e| { self.f(); e })]. *)
Definition on_error {A} (f : SafetyRules → SafetyRules) (m : rules A) : rules A := λ self,
  match m self with
  | Ret (self', Err e) => Ret (f self', Err e)
  | x => x
  end.

(** The key reconciliation at the end of the initialisation. *)
Definition reconcile_key (es : EpochState) (a : AccountAddress) : rules unit :=
  expected ← checked (λ e, match e : Empty_set with end) (o ← get_public_key (es_verifier es) a; Ret (Ok o));
  match expected with
  | None => fail (ValidatorNotInSet a)
  | Some expected_key =>
      current ← gets validator_signer;
      if decide ((λ s, public_key_of (private_key s)) <$> current = Some expected_key) then mret tt
      else λ self,
        match consensus_key_for_version expected_key self with
        | Ret (self', Ok key) => Ret (set_signer (Some (mkValidatorSigner a key)) self', Ok tt)
        | Ret (self', Err (SecureStorageMissingDataError error)) => Ret (self', Err (ValidatorKeyNotFound error))
        | Ret (self', Err error) => Ret (self', Err error)
        | Panic => Panic
        end
  end.

Definition guarded_initialize (proof : EpochChangeProof) : rules unit :=
  w ← waypoint;
  last_li ← checked InvalidEpochChangeProof (EpochChangeProof_verify proof w);
  let li := ledger_info last_li in
  match next_epoch_state (commit_info li) with
  | None => fail InvalidLedgerInfo
  | Some es =>
      let new_waypoint := Waypoint_new_any li in
      _ ← (if wp_version new_waypoint >? wp_version w then set_waypoint new_waypoint else mret tt);
      data ← safety_data;
      _ ← (match sd_epoch data ?= es_epoch es with
           | Gt => fail (WaypointOutOfDate (wp_version w) (wp_version new_waypoint) (sd_epoch data) (es_epoch es))
           | Lt => set_safety_data (mkSafetyData (es_epoch es) 0 0 0 None)
           | Eq => mret tt
           end);
      _ ← modify (set_epoch_state es);
      a ← author;
      on_error (set_signer None) (reconcile_key es a)
  end.

Record ConsensusState : Type := mkConsensusState {
  cs_safety_data : SafetyData;
  cs_waypoint : Waypoint;
  in_validator_set : bool;
}.

(** The author is only read when tracing is on. *)
Definition guarded_consensus_state (tracing : bool) : rules ConsensusState :=
  _ ← waypoint;
  _ ← safety_data;
  _ ← (if tracing then a ← author; mret tt else mret tt);
  d ← safety_data;
  w ← waypoint;
  o ← gets validator_signer;
  mret (mkConsensusState d w (bool_decide (is_Some o))).

End rules.
Arguments SafetyRules : clear implicits.
Arguments SafetyRules {_} St.

(** [consensus/src/experimental/buffer_item.rs]: the ledger info a validator asks to
    have signed for an executed block. *)
Definition generate_commit_ledger_info `{ConsensusTypes} (info : BlockInfo)
    (ordered_proof : LedgerInfoWithSignatures) : LedgerInfo :=
  mkLedgerInfo info (consensus_data_hash (ledger_info ordered_proof)).

(** ** Two defects *)

Lemma action_bind_Ret {S E A B} (m : action S E A) (f : A → action S E B) s s' r :
  (m ≫= f) s = Ret (s', r) →
  (∃ e, m s = Ret (s', Err e) ∧ r = Err e) ∨ (∃ a s1, m s = Ret (s1, Ok a) ∧ f a s1 = Ret (s', r)).
Proof.
  unfold mbind, action_bind. destruct (m s) as [[s1 [a|e]]|]; [| |done].
  - intros H. right. by exists a, s1.
  - intros [= <- <-]. left. by exists e.
Qed.

Section defects.
Context `{CT : ConsensusTypes, CE : !ConsensusEnv, BL : !Bls Signable} {St : Type} `{ST : !SecureStorage St}.
Implicit Types (self : SafetyRules St).

(** commit votes are blind to the consensus data hash.  Given an ordered ledger
    info that verifies, [sign_commit_vote] signs any ledger info for the same block,
    whatever consensus data hash it carries, and such a signature is also a vote
    signature on the vote data with that hash. *)
Theorem commit_vote_signs_any_hash self s es li info h sg :
  validator_signer self = Some s → epoch_state self = Some es →
  is_ordered_only (commit_info (ledger_info li)) = true →
  match_ordered_only (commit_info (ledger_info li)) info = true →
  verify_signatures li (es_verifier es) = Ret (Ok tt) →
  bls_sign (private_key s) (SLedgerInfo (mkLedgerInfo info h)) = Some sg →
  guarded_sign_commit_vote li (mkLedgerInfo info h) self = Ret (self, Ok sg).
Proof.
  intros Hs Hes Ho Hm Hv Hsg. rewrite /guarded_sign_commit_vote Ho Hm.
  rewrite /mbind /action_bind /signer Hs /= /get_epoch_state Hes /= /checked Hv /= /sign /mbind /action_bind /signer Hs.
  by rewrite Hsg.
Qed.

(** without the cache nothing is signed.  With [enable_cached_safety_data] off, the
    safety data is read back as a [Result]; a backend that rejects plain safety data
    at that type makes every request for a vote fail. *)
Theorem uncached_storage_unusable now vp tc self :
  enable_cached_safety_data (persistent_storage self) = false →
  (∀ st, ∃ e, kv_get_safety_data_result st = Err e) →
  ∀ self' v, guarded_construct_and_sign_vote_two_chain now vp tc self ≠ Ret (self', Ok v).
Proof.
  intros Hen Hget self' v. rewrite /guarded_construct_and_sign_vote_two_chain.
  intros [(e & _ & [=])|(s & self1 & Hs & H)]%action_bind_Ret.
  assert (self1 = self) as ->. { rewrite /signer in Hs. by destruct (validator_signer self); simplify_eq. }
  apply action_bind_Ret in H as [(e & _ & [=])|(vd & self1 & H & _)].
  apply action_bind_Ret in H as [(e & _ & [=])|(d & self2 & H & _)].
  rewrite /safety_data Hen /= in H. apply action_bind_Ret in H as [(e & _ & [=])|(r & self3 & H & _)].
  destruct (Hget (internal_store (persistent_storage self))) as [e He]. rewrite /from_storage He in H.
  by destruct (from_storage_error e).
Qed.
End defects.
