(* ===== verification/SafetyRulesSpec.v ===== *)
(** * What the safety rules guarantee of one validator

    For every operation of [SafetyRules.v]: how it changes the durable safety data,
    and what holds when it releases a signature.  The storage backend is assumed to
    keep what was last written to it successfully. *)
From S2P Require Import Prelude Accumulator AccumulatorProof BitVec ValidatorVerifier ConsensusData EpochChange SafetyRules.
Local Open Scope Z_scope.

(** A durable store: reads may fail, but a successful read returns the last safety
    data that was written, and a failed write leaves it alone. *)
Class DurableStorage `{ConsensusTypes} (St : Type) `{!SecureStorage St} : Type := {
  stored : St → SafetyData;
  get_stored st d : kv_get_safety_data st = Ok d → d = stored st;
  get_result_stored st d : kv_get_safety_data_result st = Ok (Ok d) → d = stored st;
  set_ok_stored st st' d u : kv_set_safety_data st d = (st', Ok u) → stored st' = d;
  set_err_stored st st' d e : kv_set_safety_data st d = (st', Err e) → stored st' = stored st;
  set_waypoint_stored st st' w r : kv_set_waypoint st w = (st', r) → stored st' = stored st;
}.

Section spec.
Context `{CT : ConsensusTypes, CE : !ConsensusEnv, BL : !Bls Signable} {St : Type} `{ST : !SecureStorage St, DS : !DurableStorage St}.
Implicit Types (self : SafetyRules St).

(** The durable safety data of a validator. *)
Definition dur self : SafetyData := stored (internal_store (persistent_storage self)).

(** The cache agrees with the store. *)
Definition coherent self : Prop :=
  ∀ d, cached_safety_data (persistent_storage self) = Some d → d = dur self.

(** [self'] differs from [self] at most in its cache. *)
Definition frame self self' : Prop :=
  coherent self' ∧ dur self' = dur self ∧
  validator_signer self' = validator_signer self ∧ epoch_state self' = epoch_state self.

Lemma frame_refl self : coherent self → frame self self.
Proof. by intros. Qed.

Lemma frame_trans self1 self2 self3 : frame self1 self2 → frame self2 self3 → frame self1 self3.
Proof. intros (? & ? & ? & ?) (? & ? & ? & ?). split_and!; [done|congruence..]. Qed.

(** [m] keeps the durable state and yields a result that satisfies [P]. *)
Definition reads {A} (m : action (SafetyRules St) Error A) self (P : A → Prop) : Prop :=
  ∀ self' r, m self = Ret (self', r) → frame self self' ∧ ∀ a, r = Ok a → P a.

Lemma reads_bind {A B} (m : action (SafetyRules St) Error A) (f : A → action (SafetyRules St) Error B) self P Q :
  reads m self P → (∀ a self', frame self self' → P a → reads (f a) self' Q) → reads (m ≫= f) self Q.
Proof.
  intros Hm Hf self' r [(e & H & ->)|(a & self1 & H & H')]%action_bind_Ret.
  - split; [by apply (Hm _ _ H)|done].
  - destruct (Hm _ _ H) as [Hfr Ha]. destruct (Hf a self1 Hfr (Ha _ eq_refl) _ _ H') as [? ?].
    split; [by eapply frame_trans|done].
Qed.

Lemma reads_weaken {A} (m : action (SafetyRules St) Error A) self (P Q : A → Prop) :
  reads m self P → (∀ a, P a → Q a) → reads m self Q.
Proof. intros Hm HPQ self' r H. destruct (Hm _ _ H) as [? Ha]. split; [done|]. eauto. Qed.

Lemma reads_lift {A} (r : result Error A) self : coherent self → reads (lift r) self (λ a, r = Ok a).
Proof. intros Hc self' r' [= <- <-]. split; [by apply frame_refl|done]. Qed.

Lemma reads_ret {A} (a : A) self : coherent self → reads (mret a) self (λ b, b = a).
Proof. intros Hc self' r' [= <- <-]. split; [by apply frame_refl|]. congruence. Qed.

Lemma reads_fail {A} (e : Error) self (P : A → Prop) : coherent self → reads (fail e) self P.
Proof. intros Hc self' r' [= <- <-]. split; [by apply frame_refl|done]. Qed.

Lemma reads_checked {A F} (f : F → Error) (c : comp (result F A)) self :
  coherent self → reads (checked f c) self (λ a, c = Ret (Ok a)).
Proof.
  intros Hc self' r. rewrite /checked. destruct c as [[a|e]|]; intros [= <- <-];
    (split; [by apply frame_refl|]); intros ? [= ->]; done.
Qed.

Lemma reads_from_storage {A} (r : result StorageError A) self :
  coherent self → reads (from_storage r) self (λ a, r = Ok a).
Proof.
  intros Hc self' r'. rewrite /from_storage. destruct r as [a|e].
  - intros [= <- <-]. split; [by apply frame_refl|]. by intros ? [= ->].
  - destruct (from_storage_error e); simpl; [|done]. intros [= <- <-]. split; [by apply frame_refl|done].
Qed.

Lemma reads_signer self : coherent self → reads signer self (λ s, validator_signer self = Some s).
Proof.
  intros Hc self' r. rewrite /signer. destruct (validator_signer self); intros [= <- <-];
    (split; [by apply frame_refl|]); by intros ? [= ->].
Qed.

Lemma reads_epoch_state self : coherent self → reads get_epoch_state self (λ s, epoch_state self = Some s).
Proof.
  intros Hc self' r. rewrite /get_epoch_state. destruct (epoch_state self); intros [= <- <-];
    (split; [by apply frame_refl|]); by intros ? [= ->].
Qed.

Lemma reads_safety_data self : coherent self → reads safety_data self (λ d, d = dur self).
Proof.
  intros Hc self' r. rewrite /safety_data. destruct (enable_cached_safety_data _) eqn:Hen; simpl.
  - destruct (cached_safety_data _) as [d|] eqn:Hd.
    + intros [= <- <-]. split; [by apply frame_refl|]. intros ? [= <-]. by apply Hc.
    + intros [(e & H & ->)|(d & self1 & H & H')]%action_bind_Ret.
      { destruct (reads_from_storage _ _ Hc _ _ H) as [? _]. by split. }
      unfold from_storage in H. destruct (kv_get_safety_data _) as [d'|] eqn:Hg; simplify_eq/=.
      2: { by destruct (from_storage_error _). }
      apply get_stored in Hg as ->. cbn in H'. injection H' as <- <-.
      split; [|by intros ? [= <-]]. split_and!; try done. by intros d [= <-].
  - intros H. revert H. apply (reads_bind _ _ _ (λ r, kv_get_safety_data_result (internal_store (persistent_storage self)) = Ok r)).
    { by apply reads_from_storage. }
    intros r' self1 Hf Hr. eapply reads_weaken; [apply reads_lift, Hf|]. intros d ->.
    by apply get_result_stored in Hr.
Qed.

Lemma reads_sign m self : coherent self → reads (sign m) self (λ _, is_Some (validator_signer self)).
Proof.
  intros Hc. eapply reads_bind; [by apply reads_signer|]. intros s self' Hf Hs.
  eapply reads_weaken; [apply reads_lift, Hf|]. intros ? _. by exists s.
Qed.

Lemma reads_verify_qc qc self :
  coherent self → reads (verify_qc qc) self (λ _, ∃ es, epoch_state self = Some es ∧
    QuorumCert_verify qc (es_verifier es) = Ret (Ok tt)).
Proof.
  intros Hc. eapply reads_bind; [by apply reads_epoch_state|]. intros es self' Hf Hs.
  eapply reads_weaken; [apply reads_checked, Hf|]. intros [] ?. by exists es.
Qed.

Lemma reads_verify_tc tc self :
  coherent self → reads (verify_tc tc) self (λ _, ∃ es, epoch_state self = Some es ∧
    TwoChainTimeoutCertificate_verify tc (es_verifier es) = Ret (Ok tt)).
Proof.
  intros Hc. eapply reads_bind; [by apply reads_epoch_state|]. intros es self' Hf Hs.
  eapply reads_weaken; [apply reads_checked, Hf|]. intros [] ?. by exists es.
Qed.

(** The timeout certificate that came with a request was verified. *)
Definition tc_verified self (maybe_tc : option TwoChainTimeoutCertificate) : Prop :=
  ∀ tc, maybe_tc = Some tc → ∃ es, epoch_state self = Some es ∧
    TwoChainTimeoutCertificate_verify tc (es_verifier es) = Ret (Ok tt).

Lemma reads_maybe_tc maybe_tc self :
  coherent self →
  reads (match maybe_tc with Some tc => verify_tc tc | None => mret tt end) self (λ _, tc_verified self maybe_tc).
Proof.
  intros Hc. destruct maybe_tc as [tc|].
  - eapply reads_weaken; [by apply reads_verify_tc|]. intros [] Hv tc' Htc. by simplify_eq.
  - eapply reads_weaken; [by apply reads_ret|]. done.
Qed.

(** [m] ends in a state and with a result that satisfy [Q]. *)
Definition effect {A} (m : action (SafetyRules St) Error A) self
    (Q : SafetyRules St → result Error A → Prop) : Prop :=
  ∀ self' r, m self = Ret (self', r) → Q self' r.

Lemma effect_bind self0 {A B} (m : action (SafetyRules St) Error A)
    (f : A → action (SafetyRules St) Error B) self P Q :
  frame self0 self → reads m self P → (∀ self' e, frame self0 self' → Q self' (Err e)) →
  (∀ a self', frame self0 self' → P a → effect (f a) self' Q) → effect (m ≫= f) self Q.
Proof.
  intros Hfr Hm Herr Hf self' r [(e & H & ->)|(a & self1 & H & H')]%action_bind_Ret;
    destruct (Hm _ _ H) as [Hfr1 Ha]; apply (frame_trans _ _ _ Hfr) in Hfr1; [by apply Herr|].
  exact (Hf a self1 Hfr1 (Ha _ eq_refl) _ _ H').
Qed.

(** Transport of facts along [frame]. *)
Lemma frame_epoch_state self self' : frame self self' → epoch_state self' = epoch_state self.
Proof. by intros (_ & _ & _ & ?). Qed.
Lemma frame_dur self self' : frame self self' → dur self' = dur self.
Proof. by intros (_ & ? & _). Qed.
Lemma frame_coherent self self' : frame self self' → coherent self'.
Proof. by intros [? _]. Qed.

(** ** Voting *)

Lemma verify_well_formed_Ok now b :
  verify_well_formed now b = Ret (Ok tt) →
  bi_round (certified_block (block_qc b)) < block_round b ∧
  bi_epoch (certified_block (block_qc b)) = bd_epoch (block_data b).
Proof.
  intros [_ [Hr [He _]%ensure_Ok]%ensure_Ok]%ensure_Ok.
  apply Z.ltb_lt in Hr. by apply bool_decide_eq_true in He.
Qed.

(** The vote data of a proposal names the block and the block it extends. *)
Lemma gen_vote_data_Ok vp vd :
  gen_vote_data vp = Ret (Ok vd) →
  parent vd = certified_block (block_qc (vp_block vp)) ∧
  bi_epoch (proposed vd) = bd_epoch (block_data (vp_block vp)) ∧
  bi_round (proposed vd) = block_round (vp_block vp) ∧ bi_id (proposed vd) = block_id (vp_block vp).
Proof.
  rewrite /gen_vote_data. destruct (decoupled_execution vp); [by intros [= <-]|].
  destruct (AccumulatorExtensionProof_verify _ _) as [[t|e]|]; simpl; [by intros [= <-]|done|done].
Qed.

(** What [verify_proposal] establishes. *)
Definition proposal_verified self (vp : VoteProposal) (vd : VoteData) : Prop :=
  let b := vp_block vp in
  bd_epoch (block_data b) = sd_epoch (dur self) ∧
  (∃ es, epoch_state self = Some es ∧ QuorumCert_verify (block_qc b) (es_verifier es) = Ret (Ok tt)) ∧
  bi_round (certified_block (block_qc b)) < block_round b ∧
  bi_epoch (certified_block (block_qc b)) = bd_epoch (block_data b) ∧
  gen_vote_data vp = Ret (Ok vd).

Lemma proposal_verified_frame self self' vp vd :
  frame self self' → proposal_verified self' vp vd ↔ proposal_verified self vp vd.
Proof. intros (_ & Hd & _ & He). by rewrite /proposal_verified Hd He. Qed.

Lemma reads_verify_proposal now vp self :
  coherent self → reads (verify_proposal now vp) self (proposal_verified self vp).
Proof.
  intros Hc. eapply reads_bind; [by apply reads_safety_data|]. intros d self1 Hf1 ->.
  eapply reads_bind; [apply reads_lift, Hf1|]. intros [] self2 Hf2 He. apply (frame_trans _ _ _ Hf1) in Hf2.
  eapply reads_bind; [apply reads_verify_qc, Hf2|]. intros [] self3 Hf3 Hqc.
  rewrite (frame_epoch_state _ _ Hf2) in Hqc. apply (frame_trans _ _ _ Hf2) in Hf3.
  eapply reads_bind; [apply reads_epoch_state, Hf3|]. intros es self4 Hf4 _. apply (frame_trans _ _ _ Hf3) in Hf4.
  eapply reads_bind; [apply reads_checked, Hf4|]. intros [] self5 Hf5 _. apply (frame_trans _ _ _ Hf4) in Hf5.
  eapply reads_bind; [apply reads_checked, Hf5|]. intros [] self6 Hf6 Hwf. apply (frame_trans _ _ _ Hf5) in Hf6.
  eapply reads_weaken; [apply reads_checked, Hf6|]. intros vd Hvd.
  apply verify_well_formed_Ok in Hwf as [? ?]. rewrite /verify_epoch in He.
  destruct (Z.eqb_spec (bd_epoch (block_data (vp_block vp))) (sd_epoch (dur self))) as [Heq|]; [|done].
  by split_and!.
Qed.

Lemma set_safety_data_spec data self self' r :
  coherent self → set_safety_data data self = Ret (self', r) →
  coherent self' ∧ validator_signer self' = validator_signer self ∧ epoch_state self' = epoch_state self ∧
  ((r = Ok tt ∧ dur self' = data) ∨ (∃ e, r = Err e ∧ dur self' = dur self)).
Proof.
  intros Hc. rewrite /set_safety_data. destruct (kv_set_safety_data _ _) as [st [u|e]] eqn:Hs; intros [= <- <-].
  - apply set_ok_stored in Hs. split_and!; try done; [|by left]. intros d [= <-]. by rewrite /dur /=.
  - apply set_err_stored in Hs. split_and!; try done. right. by eexists.
Qed.

(** A new vote: everything that was checked before it was signed. *)
Record fresh_vote self (vp : VoteProposal) (tc : option TwoChainTimeoutCertificate) (v : Vote) : Prop := {
  fv_proposal : proposal_verified self vp (v_vote_data v);
  fv_tc : tc_verified self tc;
  fv_round : last_voted_round (dur self) < block_round (vp_block vp);
  fv_rule : safe_to_vote (vp_block vp) tc = Ok tt;
  fv_ledger_info :
    construct_ledger_info_2chain (vp_block vp) (vote_data_hash (v_vote_data v)) = Ok (v_ledger_info v);
}.

(** The safety data after a new vote. *)
Definition voted_data (d : SafetyData) (b : Block) (v : Vote) : SafetyData :=
  set_last_vote v
    (observe_qc (block_qc b)
       (mkSafetyData (sd_epoch d) (block_round b) (preferred_round d) (one_chain_round d) (last_vote d))).1.

(** A vote call either leaves the durable data alone, releasing at most the vote
    recorded there, or records a new vote before it releases it. *)
Definition vote_outcome self vp tc self' (r : result Error Vote) : Prop :=
  coherent self' ∧ epoch_state self' = epoch_state self ∧
  ((dur self' = dur self ∧ ∀ v, r = Ok v → last_vote (dur self) = Some v) ∨
   (∃ v, r = Ok v ∧ fresh_vote self vp tc v ∧ dur self' = voted_data (dur self) (vp_block vp) v)).

Lemma vote_spec now vp tc self :
  coherent self → effect (guarded_construct_and_sign_vote_two_chain now vp tc) self (vote_outcome self vp tc).
Proof.
  intros Hc. pose proof (frame_refl _ Hc) as Hf.
  assert (Herr : ∀ self' e, frame self self' → vote_outcome self vp tc self' (Err e)).
  { intros self' e (? & ? & ? & ?). split_and!; [done..|]. by left. }
  eapply (effect_bind self); [exact Hf|apply reads_signer, Hf|exact Herr|]. clear Hf. intros s self1 Hf _.
  eapply (effect_bind self); [exact Hf|apply reads_verify_proposal, Hf|exact Herr|].
  intros vd self2 Hf2 Hvd. rewrite (proposal_verified_frame _ _ _ _ Hf) in Hvd. clear Hf.
  eapply (effect_bind self); [exact Hf2|apply reads_maybe_tc, Hf2|exact Herr|].
  intros [] self3 Hf Htc. rewrite /tc_verified (frame_epoch_state _ _ Hf2) in Htc. clear Hf2.
  eapply (effect_bind self); [exact Hf|apply reads_safety_data, Hf|exact Herr|].
  intros d self4 Hf4 ->. rewrite (frame_dur _ _ Hf). clear Hf.
  destruct (match last_vote (dur self) with Some _ => _ | None => _ end) as [v|] eqn:Hprev.
  { intros self' r [= <- <-]. destruct Hf4 as (? & ? & ? & ?). split_and!; [done..|]. left. split; [done|].
    intros v' [= <-]. destruct (last_vote (dur self)) as [v'|]; [|done]. by case_match; simplify_eq. }
  eapply (effect_bind self); [exact Hf4|apply reads_lift, Hf4|exact Herr|]. clear Hf4. intros d1 self5 Hf Hd1.
  eapply (effect_bind self); [exact Hf|apply reads_lift, Hf|exact Herr|]. clear Hf. intros [] self6 Hf Hrule.
  eapply (effect_bind self); [exact Hf|apply reads_signer, Hf|exact Herr|]. clear Hf. intros s' self7 Hf _.
  eapply (effect_bind self); [exact Hf|apply reads_lift, Hf|exact Herr|]. clear Hf. intros li self8 Hf Hli.
  eapply (effect_bind self); [exact Hf|apply reads_sign, Hf|exact Herr|]. clear Hf. intros sg self9 Hf _.
  set v := new_with_signature vd (vs_author s') li sg.
  rewrite /verify_and_update_last_vote_round in Hd1.
  destruct (Z.leb_spec (block_round (vp_block vp)) (last_voted_round (dur self))) as [|Hlt]; [done|].
  injection Hd1 as <-. destruct Hf as (Hc9 & Hd9 & _ & He9).
  intros self' r [(e & H & ->)|([] & self10 & H & H')]%action_bind_Ret;
    apply set_safety_data_spec in H as (? & _ & ? & [[Hr ?]|(e' & Hr & ?)]); [..|done|done]; try done.
  - split_and!; [done|congruence|]. left. split; [congruence|done].
  - injection H' as <- <-. split_and!; [done|congruence|]. right. exists v. split_and!; [done| |done].
    by split.
Qed.

(** ** Timeouts, proposals, commit votes *)

Definition bump_round (round : Round) (d : SafetyData) : SafetyData :=
  mkSafetyData (sd_epoch d) round (preferred_round d) (one_chain_round d) (last_vote d).

(** A timeout call raises the last voted round at most to the round of the timeout,
    and releases a signature only for the current epoch, under the timeout rule, once
    the round is recorded. *)
Definition timeout_outcome self timeout tc self' (r : result Error Signature) : Prop :=
  coherent self' ∧ epoch_state self' = epoch_state self ∧
  (dur self' = dur self ∨
   (to_epoch timeout = sd_epoch (dur self) ∧ last_voted_round (dur self) < to_round timeout ∧
    dur self' = bump_round (to_round timeout) (dur self))) ∧
  ∀ sg, r = Ok sg →
    to_epoch timeout = sd_epoch (dur self) ∧ tc_verified self tc ∧
    safe_to_timeout timeout tc (dur self) = Ok tt ∧ to_round timeout = last_voted_round (dur self').

Lemma timeout_spec timeout tc self :
  coherent self → effect (guarded_sign_timeout_with_qc timeout tc) self (timeout_outcome self timeout tc).
Proof.
  intros Hc. pose proof (frame_refl _ Hc) as Hf.
  assert (Herr : ∀ self' e, frame self self' → timeout_outcome self timeout tc self' (Err e)).
  { intros self' e (? & ? & ? & ?). split_and!; [done..|by left|done]. }
  eapply (effect_bind self); [exact Hf|apply reads_signer, Hf|exact Herr|]. clear Hf. intros s self1 Hf _.
  eapply (effect_bind self); [exact Hf|apply reads_safety_data, Hf|exact Herr|].
  intros d self2 Hf2 ->. rewrite (frame_dur _ _ Hf). clear Hf.
  eapply (effect_bind self); [exact Hf2|apply reads_lift, Hf2|exact Herr|]. clear Hf2. intros [] self3 Hf He.
  eapply (effect_bind self); [exact Hf|apply reads_epoch_state, Hf|exact Herr|]. clear Hf. intros es self4 Hf _.
  eapply (effect_bind self); [exact Hf|apply reads_checked, Hf|exact Herr|]. clear Hf. intros [] self5 Hf _.
  eapply (effect_bind self); [exact Hf|apply reads_maybe_tc, Hf|exact Herr|].
  intros [] self6 Hf6 Htc. rewrite /tc_verified (frame_epoch_state _ _ Hf) in Htc. clear Hf.
  eapply (effect_bind self); [exact Hf6|apply reads_lift, Hf6|exact Herr|]. clear Hf6. intros [] self7 Hf Hrule.
  rewrite /verify_epoch in He. destruct (Z.eqb_spec (to_epoch timeout) (sd_epoch (dur self))) as [Hep|]; [|done].
  destruct (Z.ltb_spec (to_round timeout) (last_voted_round (dur self))) as [|Hge].
  { intros self' r [= <- <-]. by apply Herr. }
  destruct Hf as (Hc7 & Hd7 & Hs7 & He7).
  intros self' r [(e & H & ->)|([] & self8 & H & H')]%action_bind_Ret; revert H; rewrite /verify_and_update_last_vote_round;
    (destruct (Z.gtb_spec (to_round timeout) (last_voted_round (dur self))) as [Hgt|Hle];
     [rewrite (proj2 (Z.leb_gt _ _) Hgt); unfold mbind, action_bind; cbn [lift];
      intros (Hc8 & _ & He8 & Hset)%set_safety_data_spec; [|done]|intros [= <-]]).
  - destruct Hset as [[[=] _]|(e' & _ & Hd)]. split_and!; [done|congruence|left; congruence|done].
  - destruct Hset as [[_ Hd]|(e' & [=] & _)].
    destruct (reads_sign _ _ Hc8 _ _ H') as [(Hc' & Hd' & _ & He') _].
    split_and!; [done|congruence|right; split_and!; [done|lia|by rewrite Hd' Hd]|].
    intros sg ->. split_and!; [done..|]. by rewrite Hd' Hd.
  - destruct (reads_sign _ _ Hc7 _ _ H') as [(Hc' & Hd' & _ & He') _].
    split_and!; [done|congruence|left; congruence|]. intros sg ->. split_and!; [done..|].
    rewrite Hd' Hd7. lia.
Qed.

Lemma reads_sign_proposal bd self : coherent self → reads (guarded_sign_proposal bd) self (λ _, True).
Proof.
  intros Hc. eapply reads_bind; [by apply reads_signer|]. intros s self1 Hf1 _.
  eapply (reads_bind _ _ _ (λ _, True)).
  { eapply reads_bind; [apply reads_signer, Hf1|]. intros s' self2 Hf2 _.
    destruct (bd_author bd); [case_decide|]; [by apply reads_fail, Hf2| |by apply reads_fail, Hf2].
    eapply reads_weaken; [by apply reads_ret, Hf2|done]. }
  intros [] self2 Hf2 _. eapply reads_bind; [apply reads_safety_data, Hf2|]. intros d self3 Hf3 _.
  eapply reads_bind; [apply reads_lift, Hf3|]. intros [] self4 Hf4 _.
  case_match; [by apply reads_fail, Hf4|].
  eapply reads_bind; [apply reads_verify_qc, Hf4|]. intros [] self5 Hf5 _.
  eapply reads_bind; [apply reads_lift, Hf5|]. intros ? self6 Hf6 _.
  eapply reads_weaken; [apply reads_sign, Hf6|done].
Qed.

Lemma reads_sign_commit_vote li new self :
  coherent self → reads (guarded_sign_commit_vote li new) self (λ _,
    is_ordered_only (commit_info (ledger_info li)) = true ∧
    match_ordered_only (commit_info (ledger_info li)) (commit_info new) = true ∧
    ∃ es, epoch_state self = Some es ∧ verify_signatures li (es_verifier es) = Ret (Ok tt)).
Proof.
  intros Hc. eapply reads_bind; [by apply reads_signer|]. intros s self1 Hf1 _. cbv zeta.
  destruct (is_ordered_only _) eqn:Ho; cbn [negb]; [|apply reads_fail, Hf1].
  destruct (match_ordered_only _ _) eqn:Hm; cbn [negb]; [|apply reads_fail, Hf1].
  eapply reads_bind; [apply reads_epoch_state, Hf1|]. intros es self2 Hf2 Hes.
  rewrite (frame_epoch_state _ _ Hf1) in Hes.
  eapply reads_bind; [apply reads_checked, Hf2|]. intros [] self3 Hf3 Hv.
  eapply reads_weaken; [apply reads_sign, Hf3|]. intros ? _. split_and!; [done..|]. by exists es.
Qed.

(** ** Initialisation *)

Lemma reads_set_waypoint w self : coherent self → reads (set_waypoint w) self (λ _, True).
Proof.
  intros Hc self' r. rewrite /set_waypoint. destruct (kv_set_waypoint _ _) as [st o] eqn:Hs.
  apply set_waypoint_stored in Hs.
  set self1 := set_storage _ self. assert (Hf : frame self self1).
  { split_and!; [|done..]. intros d Hd. rewrite /dur /= Hs. by apply Hc. }
  intros H. destruct (reads_from_storage o self1 (frame_coherent _ _ Hf) _ _ H) as [? _].
  split; [by eapply frame_trans|done].
Qed.

(** The epoch state a proof ends with. *)
Definition from_proof (proof : EpochChangeProof) (es : EpochState) : Prop :=
  ∃ li, last (ledger_info_with_sigs proof) = Some li ∧ next_epoch_state (commit_info (ledger_info li)) = Some es.

(** Initialisation moves to the epoch the proof ends with: the durable data is reset
    when that epoch is new, and the epoch state follows the durable data. *)
Definition init_outcome self proof self' : Prop :=
  coherent self' ∧
  ((dur self' = dur self ∧ epoch_state self' = epoch_state self) ∨
   ∃ es, from_proof proof es ∧ epoch_state self' = Some es ∧
     ((es_epoch es = sd_epoch (dur self) ∧ dur self' = dur self) ∨
      (sd_epoch (dur self) < es_epoch es ∧ dur self' = mkSafetyData (es_epoch es) 0 0 0 None))).

Lemma reads_consensus_key key self : coherent self → reads (consensus_key_for_version key) self (λ _, True).
Proof.
  intros Hc. rewrite /reads /consensus_key_for_version.
  apply (reads_bind (from_storage _) _ self (λ _, True)).
  - eapply reads_weaken; [by apply reads_from_storage|done].
  - intros k self1 Hf _. case_decide; [by apply reads_fail, Hf|].
    eapply reads_weaken; [apply reads_ret, Hf|done].
Qed.

(** Key reconciliation changes the signer only. *)
Lemma reconcile_key_spec es a self self' r :
  coherent self → on_error (set_signer None) (reconcile_key es a) self = Ret (self', r) →
  coherent self' ∧ dur self' = dur self ∧ epoch_state self' = epoch_state self.
Proof.
  intros Hc. rewrite /on_error. destruct (reconcile_key es a self) as [[self1 r1]|] eqn:H; [|done].
  assert (coherent self1 ∧ dur self1 = dur self ∧ epoch_state self1 = epoch_state self) as Hk.
  { apply action_bind_Ret in H as [(e & H & ->)|(o & self2 & H & H')];
      apply reads_checked in H as [(Hc2 & ? & _ & ?) _]; [done..| |done].
    destruct o as [key|]; [|by injection H' as <- <-].
    apply action_bind_Ret in H' as [(e & [=] & _)|(o & self3 & [= <- _] & H')].
    case_decide; [by injection H' as <- <-|].
    destruct (consensus_key_for_version key self2) as [[self3 r3]|] eqn:Hk; [|done].
    apply reads_consensus_key in Hk as [(? & ? & _ & ?) _]; [|done].
    destruct r3 as [k|e]; [|destruct e]; injection H' as <- <-;
      (split_and!; [done|transitivity (dur self3); [done|congruence]|
                    transitivity (epoch_state self3); [done|congruence]]). }
  destruct r1; intros [= <- <-]; [done|]. destruct Hk as (Hc1 & ? & ?). by split_and!.
Qed.

Lemma initialize_spec proof self :
  coherent self → effect (guarded_initialize proof) self (λ self' _, init_outcome self proof self').
Proof.
  intros Hc. pose proof (frame_refl _ Hc) as Hf.
  assert (Herr : ∀ self', frame self self' → init_outcome self proof self').
  { intros self' (? & ? & ? & ?). split; [done|]. by left. }
  eapply (effect_bind self _ _ _ (λ _, True)); [exact Hf| |by intros; apply Herr|].
  { intros self' r H. destruct (reads_from_storage _ _ Hc _ _ H). by split. }
  clear Hf. intros w self1 Hf _.
  eapply (effect_bind self); [exact Hf|apply reads_checked, Hf|by intros; apply Herr|]. clear Hf.
  intros last_li self2 Hf Hlast. apply EpochChangeProof_verify_last in Hlast.
  cbv zeta. destruct (next_epoch_state (commit_info (ledger_info last_li))) as [es|] eqn:Hes; [|by intros self' r [= <- <-]; apply Herr].
  eapply (effect_bind self _ _ _ (λ _, True)); [exact Hf| |by intros; apply Herr|].
  { case_match; [apply reads_set_waypoint, Hf|]. eapply reads_weaken; [apply reads_ret, Hf|done]. }
  clear Hf. intros [] self3 Hf _.
  eapply (effect_bind self); [exact Hf|apply reads_safety_data, Hf|by intros; apply Herr|].
  intros d self4 Hf4 ->. rewrite (frame_dur _ _ Hf). clear Hf.
  assert (Hfin : ∀ self5 self' r, coherent self5 →
    (_ ← modify (set_epoch_state es); a ← author; on_error (set_signer None) (reconcile_key es a)) self5 = Ret (self', r) →
    coherent self' ∧ dur self' = dur self5 ∧ epoch_state self' = Some es).
  { intros self5 self' r Hc5 [(e & [=] & _)|([] & self6 & [= <-] & H)]%action_bind_Ret.
    assert (Hc6 : coherent (set_epoch_state es self5)) by done.
    apply action_bind_Ret in H as [(e & H & ->)|(a & self6 & H & H')];
      apply reads_from_storage in H as [(? & Hd & _ & He) _]; try done.
    change (dur self6 = dur self5) in Hd. change (epoch_state self6 = Some es) in He.
    apply reconcile_key_spec in H' as (? & ? & ?); [|done]. split_and!; [done|congruence..]. }
  pose proof Hf4 as (Hc4 & Hd4 & _ & He4).
  intros self' r [(e & H & ->)|([] & self5 & H & H')]%action_bind_Ret.
  - destruct (Z.compare_spec (sd_epoch (dur self)) (es_epoch es)) as [|Hlt|]; [done| |by injection H as <- <-; apply Herr].
    apply set_safety_data_spec in H as (? & _ & ? & [[[=] _]|(? & _ & ?)]); [|done].
    split; [done|]. left. split; congruence.
  - destruct (Z.compare_spec (sd_epoch (dur self)) (es_epoch es)) as [Heq|Hlt|]; [| |done].
    + injection H as <-. apply Hfin in H' as (? & ? & ?); [|done]. split; [done|]. right. exists es.
      split_and!; [by exists last_li|done|]. left. split; congruence.
    + apply set_safety_data_spec in H as (Hc5 & _ & _ & [[_ Hd5]|(? & [=] & _)]); [|done].
      apply Hfin in H' as (? & ? & ?); [|done]. split; [done|]. right. exists es.
      split_and!; [by exists last_li|done|]. right. split; [lia|congruence].
Qed.
Lemma observe_qc_spec qc d :
  let d' := (observe_qc qc d).1 in
  sd_epoch d' = sd_epoch d ∧ last_voted_round d' = last_voted_round d ∧
  one_chain_round d' = Z.max (one_chain_round d) (bi_round (certified_block qc)) ∧
  preferred_round d' = Z.max (preferred_round d) (bi_round (parent_block qc)).
Proof.
  cbv zeta. rewrite /observe_qc.
  destruct (Z.gtb_spec (bi_round (certified_block qc)) (one_chain_round d));
    simpl; destruct (Z.gtb_spec (bi_round (parent_block qc)) (preferred_round d)); simpl; split_and!; done || lia.
Qed.

(** ** Sequences of requests *)

Inductive request : Type :=
  | QVote (now_usecs : Z) (vp : VoteProposal) (tc : option TwoChainTimeoutCertificate)
  | QTimeout (timeout : TwoChainTimeout) (tc : option TwoChainTimeoutCertificate)
  | QProposal (bd : BlockData)
  | QCommit (li : LedgerInfoWithSignatures) (new : LedgerInfo)
  | QInitialize (proof : EpochChangeProof).

Definition serve (q : request) (self : SafetyRules St) : comp (SafetyRules St) :=
  match q with
  | QVote now vp tc => fst <$> guarded_construct_and_sign_vote_two_chain now vp tc self
  | QTimeout timeout tc => fst <$> guarded_sign_timeout_with_qc timeout tc self
  | QProposal bd => fst <$> guarded_sign_proposal bd self
  | QCommit li new => fst <$> guarded_sign_commit_vote li new self
  | QInitialize proof => fst <$> guarded_initialize proof self
  end.

Fixpoint serve_all (qs : list request) (self : SafetyRules St) : comp (SafetyRules St) :=
  match qs with [] => Ret self | q :: rest => self' ← serve q self; serve_all rest self' end.

(** The order in which safety data evolves: by epoch, and in an epoch by every round. *)
Definition sd_le (d d' : SafetyData) : Prop :=
  sd_epoch d ≤ sd_epoch d' ∧
  (sd_epoch d = sd_epoch d' → last_voted_round d ≤ last_voted_round d' ∧
     one_chain_round d ≤ one_chain_round d' ∧ preferred_round d ≤ preferred_round d').

Lemma sd_le_refl d : sd_le d d.
Proof. by split. Qed.

Lemma sd_le_trans d1 d2 d3 : sd_le d1 d2 → sd_le d2 d3 → sd_le d1 d3.
Proof. intros [? H1] [? H2]. split; [lia|]. intros ?. destruct H1, H2; lia. Qed.

Lemma voted_data_le d b v : last_voted_round d < block_round b → sd_le d (voted_data d b v).
Proof.
  intros Hlt. rewrite /voted_data. set d1 := mkSafetyData _ _ _ _ _.
  destruct (observe_qc_spec (block_qc b) d1) as (H1 & H2 & H3 & H4).
  split; cbn -[observe_qc]; rewrite ?H1 ?H2 ?H3 ?H4 /=; lia.
Qed.

Lemma fmap_fst_Ret {A B} (c : comp (A * B)) a : fst <$> c = Ret a → ∃ b, c = Ret (a, b).
Proof. destruct c as [[x y]|]; simpl; [|done]. intros [= <-]. by exists y. Qed.

Lemma serve_le q self self' :
  coherent self → serve q self = Ret self' → coherent self' ∧ sd_le (dur self) (dur self').
Proof.
  intros Hc. destruct q as [now vp tc|timeout tc|bd|li new|proof]; simpl; intros [r Hrun]%fmap_fst_Ret.
  - destruct (vote_spec _ _ _ _ Hc _ _ Hrun) as (? & _ & [[-> _]|(v & _ & Hf & ->)]); (split; [done|]).
    + apply sd_le_refl.
    + apply voted_data_le, Hf.
  - destruct (timeout_spec _ _ _ Hc _ _ Hrun) as (? & _ & [->|(_ & ? & ->)] & _); (split; [done|]).
    + apply sd_le_refl.
    + split; simpl; lia.
  - destruct (reads_sign_proposal _ _ Hc _ _ Hrun) as [(? & -> & _) _]. split; [done|apply sd_le_refl].
  - destruct (reads_sign_commit_vote _ _ _ Hc _ _ Hrun) as [(? & -> & _) _]. split; [done|apply sd_le_refl].
  - destruct (initialize_spec _ _ Hc _ _ Hrun) as [? [[-> _]|(es & _ & _ & [[_ ->]|[? ->]])]]; (split; [done|]).
    + apply sd_le_refl.
    + apply sd_le_refl.
    + split; simpl; lia.
Qed.

(** C21: safety data never regresses.  Whatever sequence of requests a validator
    serves, successful or failed, its durable epoch never decreases, and within an
    epoch neither do the last voted round, the one-chain round and the preferred
    round; the cache stays equal to the store. *)
Theorem safety_data_never_regresses qs self self' :
  coherent self → serve_all qs self = Ret self' → coherent self' ∧ sd_le (dur self) (dur self').
Proof.
  revert self. induction qs as [|q qs IH]; intros self Hc Hrun.
  - injection Hrun as <-. split; [done|apply sd_le_refl].
  - simpl in Hrun. returned Hrun. destruct (serve_le _ _ _ Hc Hr) as [Hc1 ?].
    destruct (IH _ Hc1 Hrun) as [? ?]. split; [done|by eapply sd_le_trans].
Qed.

(** Votes are durable and obey the rules.  A vote that is released is the last
    vote of the durable safety data, and either it was there before, or its round is
    above every round voted in before and the block satisfies the two-chain voting
    rule on a verified certificate. *)
Theorem released_vote_is_durable now vp tc self self' v :
  coherent self → guarded_construct_and_sign_vote_two_chain now vp tc self = Ret (self', Ok v) →
  last_vote (dur self') = Some v ∧
  (dur self' = dur self ∨
   (last_voted_round (dur self) < block_round (vp_block vp) ∧ last_voted_round (dur self') = block_round (vp_block vp) ∧
    bi_round (proposed (v_vote_data v)) = block_round (vp_block vp) ∧
    bi_round (certified_block (block_qc (vp_block vp))) ≤ one_chain_round (dur self') ∧
    safe_to_vote (vp_block vp) tc = Ok tt ∧
    ∃ es, epoch_state self = Some es ∧ QuorumCert_verify (block_qc (vp_block vp)) (es_verifier es) = Ret (Ok tt))).
Proof.
  intros Hc Hrun. destruct (vote_spec _ _ _ _ Hc _ _ Hrun) as (_ & _ & [[-> Hl]|(v' & [= <-] & Hf & ->)]).
  - split; [by apply Hl|by left].
  - split; [done|right]. destruct Hf as [(_ & Hqc & _ & _ & Hgen) _ ? ? _].
    destruct (gen_vote_data_Ok _ _ Hgen) as (_ & _ & ? & _).
    rewrite /voted_data. set d1 := mkSafetyData _ _ _ _ _.
    destruct (observe_qc_spec (block_qc (vp_block vp)) d1) as (H1 & H2 & H3 & H4).
    cbn -[observe_qc]. rewrite H2 H3. simpl. split_and!; try done. lia.
Qed.

End spec.
