(* ===== verification/ConsensusSafety.v ===== *)
(** * Agreement of the two-chain consensus

    A system of validators that run the safety rules of [SafetyRules.v] on whatever
    requests the network makes, with any number of crashes and lost replies, among
    faulty validators that do anything.  Two quorum certificates of an epoch never
    commit conflicting blocks.

    Beyond the rules themselves the system assumes what the callers of the safety
    rules do: the timeout certificate of a request belongs to the current epoch
    ([SyncInfo::verify]), a commit vote is asked for a ledger info of the current
    epoch, and it keeps the consensus data hash ([generate_commit_ledger_info]). *)
From S2P Require Import Prelude BitVec ValidatorVerifier ConsensusData EpochChange SafetyRules SafetyRulesSpec.
Local Open Scope Z_scope.

Section system.
Context `{CT : ConsensusTypes, CE : !ConsensusEnv, BL : !Bls Signable} {St : Type}
  `{ST : !SecureStorage St, DS : !DurableStorage St}.

(** The validators of every epoch, and which of them are faulty. *)
Context (VS : Z → ValidatorVerifier) (faulty : AccountAddress → bool).

(** ** The system *)

(** What a validator hands out. *)
Inductive release : Type :=
  | RVote (v : Vote)
  | RTimeout (t : TimeoutSigningRepr)
  | RCommit (old new : LedgerInfo)
  | RProposal (bd : BlockData).

Definition says (r : release) : Signable :=
  match r with
  | RVote v => SLedgerInfo (v_ledger_info v)
  | RTimeout t => STimeout t
  | RCommit _ new => SLedgerInfo new
  | RProposal bd => SBlockData bd
  end.

Record world : Type := mkWorld {
  nodes : AccountAddress → SafetyRules St;
  log : list (AccountAddress * release);
}.

Definition signed (l : list (AccountAddress * release)) (a : AccountAddress) (m : Signable) : Prop :=
  ∃ r, (a, r) ∈ l ∧ says r = m.

(** A signature that verifies was put together from signatures that the honest
    validators among its voters have released: on one message for a
    multi-signature, on the message at their position for an aggregate. *)
Definition backed (l : list (AccountAddress * release)) (s : AggregateSignature) : Prop :=
  (∀ e li, verify_multi_signatures (VS e) (SLedgerInfo li) s = Ret (Ok tt) →
     ∀ a, a ∈ get_voter_addresses s (get_ordered_account_addresses (VS e)) → faulty a = false →
       signed l a (SLedgerInfo li)) ∧
  (∀ e ts, verify_aggregate_signatures (VS e) (STimeout <$> ts) s = Ret (Ok tt) →
     length ts = length (get_voter_addresses s (get_ordered_account_addresses (VS e))) ∧
     ∀ k a t, get_voter_addresses s (get_ordered_account_addresses (VS e)) !! k = Some a → ts !! k = Some t →
       faulty a = false → signed l a (STimeout t)).

Definition backed_qc (l : list (AccountAddress * release)) (qc : QuorumCert) : Prop := backed l (signatures (signed_ledger_info qc)).

(** The timeout certificate of a request, if any: its signatures are backed, and it
    belongs to the epoch of the validator. *)
Definition backed_tc (l : list (AccountAddress * release)) (epoch : Z) (maybe_tc : option TwoChainTimeoutCertificate) : Prop :=
  ∀ tc, maybe_tc = Some tc →
    backed l (sr_sig (signatures_with_rounds tc)) ∧ to_epoch (tc_timeout tc) = epoch.

Definition upd_node (w : world) (a : AccountAddress) (self : SafetyRules St) : AccountAddress → SafetyRules St :=
  λ b, if decide (b = a) then self else nodes w b.

(** A reply is sent, or lost. *)
Definition reply {A} (a : AccountAddress) (f : A → release) (r : result Error A)
    (out : list (AccountAddress * release)) : Prop :=
  out = [] ∨ ∃ x, r = Ok x ∧ out = [(a, f x)].

Inductive world_step (w : world) : world → Prop :=
  | step_vote a now vp tc self' r out :
      faulty a = false →
      backed_qc (log w) (block_qc (vp_block vp)) → backed_tc (log w) (sd_epoch (dur (nodes w a))) tc →
      guarded_construct_and_sign_vote_two_chain now vp tc (nodes w a) = Ret (self', r) →
      reply a RVote r out →
      world_step w (mkWorld (upd_node w a self') (log w ++ out))
  | step_timeout a timeout tc self' r out :
      faulty a = false →
      backed_qc (log w) (to_quorum_cert timeout) → backed_tc (log w) (sd_epoch (dur (nodes w a))) tc →
      guarded_sign_timeout_with_qc timeout tc (nodes w a) = Ret (self', r) →
      reply a (λ _, RTimeout (signing_format timeout)) r out →
      world_step w (mkWorld (upd_node w a self') (log w ++ out))
  | step_proposal a bd self' r out :
      faulty a = false → backed_qc (log w) (bd_quorum_cert bd) →
      guarded_sign_proposal bd (nodes w a) = Ret (self', r) →
      reply a (λ _, RProposal bd) r out →
      world_step w (mkWorld (upd_node w a self') (log w ++ out))
  | step_commit a li info self' r out :
      faulty a = false → backed (log w) (signatures li) →
      bi_epoch (commit_info (ledger_info li)) = sd_epoch (dur (nodes w a)) →
      guarded_sign_commit_vote li (generate_commit_ledger_info info li) (nodes w a) = Ret (self', r) →
      reply a (λ _, RCommit (ledger_info li) (generate_commit_ledger_info info li)) r out →
      world_step w (mkWorld (upd_node w a self') (log w ++ out))
  | step_initialize a proof self' r :
      faulty a = false → (∀ es, from_proof proof es → es_verifier es = VS (es_epoch es)) →
      guarded_initialize proof (nodes w a) = Ret (self', r) →
      world_step w (mkWorld (upd_node w a self') (log w))
  | step_crash a enable :
      faulty a = false →
      world_step w (mkWorld (upd_node w a (SafetyRules_new (PersistentSafetyStorage_new
        (internal_store (persistent_storage (nodes w a))) enable))) (log w)).

(** Nothing is signed, and every store holds safety data of an epoch that carries no
    vote, as [PersistentSafetyStorage::initialize] writes it. *)
Definition world_init (w : world) : Prop :=
  log w = [] ∧ ∀ a, ∃ store enable, nodes w a = SafetyRules_new (PersistentSafetyStorage_new store enable) ∧
    0 < sd_epoch (stored store) ∧ last_vote (stored store) = None.

Definition world_reachable (w : world) : Prop := ∃ w0, world_init w0 ∧ rtc world_step w0 w.

(** ** Quorums of votes and of timeouts *)

Definition vd_epoch (vd : VoteData) : Z := bi_epoch (proposed vd).
Definition vd_round (vd : VoteData) : Round := bi_round (proposed vd).
Definition parent_round (vd : VoteData) : Round := bi_round (parent vd).

(** A quorum of the epoch voted for [vd]. *)
Definition voted (l : list (AccountAddress * release)) (e : Z) (vd : VoteData) : Prop :=
  vd_epoch vd = e ∧ ∃ Q, is_quorum (VS e) Q ∧
    ∀ a, a ∈ Q → faulty a = false → ∃ v, (a, RVote v) ∈ l ∧ v_vote_data v = vd.

(** A quorum of the epoch timed out in a round, none with a certificate above [hqc]. *)
Definition timed_out (l : list (AccountAddress * release)) (e : Z) (round hqc : Round) : Prop :=
  ∃ Q, is_quorum (VS e) Q ∧
    ∀ a, a ∈ Q → faulty a = false → ∃ h, h ≤ hqc ∧ (a, RTimeout (mkTimeoutSigningRepr e round h)) ∈ l.

(** The block that a vote commits, by the two-chain rule. *)
Definition commit_of (vd : VoteData) : BlockInfo :=
  if parent_round vd + 1 =? vd_round vd then parent vd else BlockInfo_empty.

Definition same_block (b1 b2 : BlockInfo) : Prop :=
  bi_epoch b1 = bi_epoch b2 ∧ bi_round b1 = bi_round b2 ∧ bi_id b1 = bi_id b2.

(** A vote that honours the rules: it extends a certified block (or a genesis block),
    in the next round or after a quorum of timeouts that its parent dominates. *)
Record vote_ok (l : list (AccountAddress * release)) (v : Vote) : Prop := {
  vo_parent_epoch : bi_epoch (parent (v_vote_data v)) = vd_epoch (v_vote_data v);
  vo_parent_round : parent_round (v_vote_data v) < vd_round (v_vote_data v);
  vo_ledger_info : v_ledger_info v = mkLedgerInfo (commit_of (v_vote_data v)) (vote_data_hash (v_vote_data v));
  vo_parent : parent_round (v_vote_data v) = 0 ∨
    ∃ vd, voted l (vd_epoch (v_vote_data v)) vd ∧ proposed vd = parent (v_vote_data v);
  vo_rule : vd_round (v_vote_data v) = parent_round (v_vote_data v) + 1 ∨
    ∃ round hqc, timed_out l (vd_epoch (v_vote_data v)) round hqc ∧
      vd_round (v_vote_data v) = round + 1 ∧ hqc ≤ parent_round (v_vote_data v);
}.

(** A ledger info that stands for a quorum of votes. *)
Definition good (l : list (AccountAddress * release)) (li : LedgerInfo) : Prop :=
  ∃ vd, voted l (bi_epoch (commit_info li)) vd ∧ consensus_data_hash li = vote_data_hash vd ∧
    same_block (commit_info li) (commit_of vd).

(** ** The invariant *)

(** Votes a validator has released or may still release. *)
Definition cast w a (v : Vote) : Prop :=
  (a, RVote v) ∈ log w ∨ last_vote (dur (nodes w a)) = Some v.

Record node_inv w a : Prop := {
  ni_coherent : coherent (nodes w a);
  ni_epoch : 0 < sd_epoch (dur (nodes w a));
  ni_state : ∀ es, epoch_state (nodes w a) = Some es →
    es_epoch es = sd_epoch (dur (nodes w a)) ∧ es_verifier es = VS (es_epoch es);
  ni_last : ∀ v, last_vote (dur (nodes w a)) = Some v → vd_epoch (v_vote_data v) = sd_epoch (dur (nodes w a));
  ni_votes : ∀ v, cast w a v → vd_epoch (v_vote_data v) ≤ sd_epoch (dur (nodes w a)) ∧
    (vd_epoch (v_vote_data v) = sd_epoch (dur (nodes w a)) →
      vd_round (v_vote_data v) ≤ last_voted_round (dur (nodes w a)) ∧
      parent_round (v_vote_data v) ≤ one_chain_round (dur (nodes w a)));
  ni_unique : ∀ v1 v2, cast w a v1 → cast w a v2 → vd_epoch (v_vote_data v1) = vd_epoch (v_vote_data v2) →
    vd_round (v_vote_data v1) = vd_round (v_vote_data v2) → v1 = v2;
  ni_timeouts : ∀ t, (a, RTimeout t) ∈ log w → tsr_epoch t ≤ sd_epoch (dur (nodes w a)) ∧
    (tsr_epoch t = sd_epoch (dur (nodes w a)) → tsr_round t ≤ last_voted_round (dur (nodes w a)));
  ni_order : ∀ v t, cast w a v → (a, RTimeout t) ∈ log w → tsr_epoch t = vd_epoch (v_vote_data v) →
    vd_round (v_vote_data v) ≤ tsr_round t → parent_round (v_vote_data v) ≤ tsr_hqc_round t;
  ni_ok : ∀ v, cast w a v → vote_ok (log w) v;
}.

Record world_inv w : Prop := {
  wi_nodes : ∀ a, faulty a = false → node_inv w a;
  wi_commits : ∀ a old new, (a, RCommit old new) ∈ log w → good (log w) new;
}.


Context (VS_ok : ∀ e, verifier_ok (VS e)) (VS_honest : ∀ e, mostly_honest (VS e) faulty).
Context (hash_inj : ∀ vd1 vd2, vote_data_hash vd1 = vote_data_hash vd2 → vd1 = vd2).

(** ** Monotonicity in the log *)

Lemma signed_mono l l' a m : signed l a m → signed (l ++ l') a m.
Proof. intros (r & ? & ?). exists r. split; [|done]. apply elem_of_app. by left. Qed.

Lemma voted_mono l l' e vd : voted l e vd → voted (l ++ l') e vd.
Proof.
  intros [? (Q & ? & HQ)]. split; [done|]. exists Q. split; [done|]. intros a Ha Hf.
  destruct (HQ a Ha Hf) as (v & ? & ?). exists v. split; [|done]. apply elem_of_app. by left.
Qed.

Lemma timed_out_mono l l' e round hqc : timed_out l e round hqc → timed_out (l ++ l') e round hqc.
Proof.
  intros (Q & ? & HQ). exists Q. split; [done|]. intros a Ha Hf.
  destruct (HQ a Ha Hf) as (h & ? & ?). exists h. split; [done|]. apply elem_of_app. by left.
Qed.

Lemma good_mono l l' li : good l li → good (l ++ l') li.
Proof. intros (vd & ? & ? & ?). exists vd. split_and!; [by apply voted_mono|done..]. Qed.

Lemma vote_ok_mono l l' v : vote_ok l v → vote_ok (l ++ l') v.
Proof.
  intros [? ? ? Hp Hr]. split; [done..| |].
  - destruct Hp as [?|(vd & ? & ?)]; [by left|right]. exists vd. split; [by apply voted_mono|done].
  - destruct Hr as [?|(round & hqc & ? & ?)]; [by left|right]. exists round, hqc.
    split; [by apply timed_out_mono|done].
Qed.

(** ** Signed ledger infos stand for votes *)

Lemma commit_of_epoch vd :
  bi_epoch (parent vd) = vd_epoch vd → 0 < bi_epoch (commit_of vd) → bi_epoch (commit_of vd) = vd_epoch vd.
Proof. rewrite /commit_of. case_match; [done|]. simpl. lia. Qed.

Lemma all_or_one {X} (P A B : X → Prop) `{∀ x, Decision (P x)} (l : list X) :
  (∀ x, x ∈ l → P x → A x ∨ B x) → (∃ x, x ∈ l ∧ P x ∧ A x) ∨ (∀ x, x ∈ l → P x → B x).
Proof.
  induction l as [|x l IH]; intros Hl; [by right; intros ? ?%elem_of_nil|].
  destruct IH as [(y & ? & ?)|Hall]; [by intros y ?; apply Hl; right|by left; exists y; split; [right|]|].
  destruct (decide (P x)) as [Hp|]; [|by right; intros y [->|?]%elem_of_cons; [done|apply Hall]].
  destruct (Hl x) as [?|?]; [by left|done|by left; exists x; split; [left|]|].
  right. intros y [->|?]%elem_of_cons; [done|by apply Hall].
Qed.

(** When the honest members of a quorum signed [li], as a vote or as a commit vote,
    then [li] is good, or all of them voted for the vote data that [li] certifies. *)
Lemma quorum_signed_votes w e Q li :
  world_inv w → is_quorum (VS e) Q → (∀ a, a ∈ Q → faulty a = false → signed (log w) a (SLedgerInfo li)) →
  good (log w) li ∨
  ∃ vd, consensus_data_hash li = vote_data_hash vd ∧ commit_info li = commit_of vd ∧
    bi_epoch (parent vd) = vd_epoch vd ∧ (vd_epoch vd = e → voted (log w) e vd).
Proof.
  intros Hw HQ Hs. destruct (quorum_honest _ _ _ (VS_ok e) (VS_honest e) HQ) as (a & Ha & Hfa).
  destruct (all_or_one (λ b, faulty b = false) (λ b, ∃ old, (b, RCommit old li) ∈ log w)
    (λ b, ∃ v, (b, RVote v) ∈ log w ∧ v_ledger_info v = li) Q) as [(b & _ & _ & old & Hin)|Hall].
  { intros b Hb Hfb. destruct (Hs b Hb Hfb) as ([v|t|old new|bd] & Hin & Hsay); simplify_eq/=; eauto. }
  { left. by eapply (wi_commits _ Hw). }
  assert (Hok : ∀ b v, faulty b = false → (b, RVote v) ∈ log w → vote_ok (log w) v).
  { intros b v Hb Hin. apply (ni_ok _ _ (wi_nodes _ Hw b Hb)). by left. }
  destruct (Hall a Ha Hfa) as (v & Hin & Hli). pose proof (Hok _ _ Hfa Hin) as [Hpe _ Hvli _ _].
  right. exists (v_vote_data v). rewrite -Hli Hvli. split_and!; [done..|]. intros He. split; [done|].
  exists Q. split; [done|]. intros b Hb Hfb. destruct (Hall b Hb Hfb) as (v' & Hin' & Hli').
  exists v'. split; [done|]. apply hash_inj. pose proof (Hok _ _ Hfb Hin') as [_ _ Hvli' _ _].
  by rewrite -Hli Hvli Hvli' in Hli'; simplify_eq.
Qed.

(** A certified vote data of epoch [e] was voted for by a quorum of that epoch, and
    its certificate commits what the votes commit. *)
Lemma certified_voted w Q li vd :
  world_inv w → is_quorum (VS (vd_epoch vd)) Q →
  (∀ a, a ∈ Q → faulty a = false → signed (log w) a (SLedgerInfo li)) →
  consensus_data_hash li = vote_data_hash vd →
  voted (log w) (vd_epoch vd) vd ∧ same_block (commit_info li) (commit_of vd).
Proof.
  intros Hw HQ Hs Hh. destruct (quorum_signed_votes w _ Q li Hw HQ Hs) as [(vd' & Hv & Hh' & Hc)|(vd' & Hh' & Hc & Hpe & Hv)].
  - assert (vd' = vd) as -> by (apply hash_inj; congruence). split; [|done]. by rewrite (proj1 Hv).
  - assert (vd' = vd) as -> by (apply hash_inj; congruence). split; [by apply Hv|]. by rewrite Hc.
Qed.

(** A commit vote is given for a good ledger info. *)
Lemma commit_good w a li info :
  world_inv w → node_inv w a → backed (log w) (signatures li) →
  bi_epoch (commit_info (ledger_info li)) = sd_epoch (dur (nodes w a)) →
  match_ordered_only (commit_info (ledger_info li)) info = true →
  (∃ es, epoch_state (nodes w a) = Some es ∧ verify_signatures li (es_verifier es) = Ret (Ok tt)) →
  good (log w) (generate_commit_ledger_info info li).
Proof.
  intros Hw Ha [Hb _] He Hm (es & Hes & Hv). destruct (ni_state _ _ Ha es Hes) as [Hee HV].
  rewrite HV Hee -He in Hv. set e := bi_epoch (commit_info (ledger_info li)) in Hv.
  destruct (verify_multi_signatures_Ok _ _ _ (VS_ok e) Hv) as (vs & _ & _ & _ & _ & _ & _ & _ & HQ & Hvs).
  assert (Hgood : good (log w) (ledger_info li)).
  { destruct (quorum_signed_votes w e vs.*1 (ledger_info li)) as [?|(vd & Hh & Hc & Hpe & Hvd)]; [done..| |done|].
    { intros b Hin Hfb. rewrite Hvs in Hin. by apply (Hb _ _ Hv). }
    exists vd. fold e. assert (vd_epoch vd = e).
    { rewrite -(commit_of_epoch vd Hpe) -Hc; [|done]. rewrite He. apply (ni_epoch _ _ Ha). }
    split_and!; [by apply Hvd|done|]. by rewrite Hc. }
  destruct Hgood as (vd & Hvd & Hh & (H1 & H2 & H3)). rewrite /match_ordered_only !andb_true_iff !bool_decide_eq_true in Hm.
  destruct Hm as [[[Hm1 Hm2] Hm3] _]. exists vd. simpl. rewrite -Hm1. split_and!; [done..|].
  split_and!; congruence.
Qed.

(** ** Certificates in requests *)

Lemma verified_qc w qc :
  world_inv w → backed_qc (log w) qc →
  QuorumCert_verify qc (VS (bi_epoch (certified_block qc))) = Ret (Ok tt) →
  (bi_round (certified_block qc) = 0 ∧ qc_commit_info qc = certified_block qc) ∨
  (voted (log w) (bi_epoch (certified_block qc)) (vote_data qc) ∧
   same_block (qc_commit_info qc) (commit_of (vote_data qc))).
Proof.
  intros Hw [Hb _] Hv. rewrite /QuorumCert_verify in Hv. apply ensure_Ok in Hv as [Hh%bool_decide_eq_true Hv].
  destruct (Z.eqb_spec (bi_round (certified_block qc)) 0); [left|right].
  { apply ensure_Ok in Hv as [_ Hv]. by apply ensure_Ok in Hv as [?%bool_decide_eq_true _]. }
  apply try_verify_Ok in Hv as [Hv _]. rewrite /verify_signatures in Hv.
  destruct (verify_multi_signatures_Ok _ _ _ (VS_ok _) Hv) as (vs & _ & _ & _ & _ & _ & _ & _ & HQ & Hvs).
  apply (certified_voted w vs.*1); [done..| |done].
  intros b Hin Hfb. rewrite Hvs in Hin. by apply (Hb _ _ Hv).
Qed.

Lemma verified_tc w e tc :
  backed (log w) (sr_sig (signatures_with_rounds tc)) → to_epoch (tc_timeout tc) = e →
  TwoChainTimeoutCertificate_verify tc (VS e) = Ret (Ok tt) →
  timed_out (log w) e (tc_round tc) (highest_hqc_round tc).
Proof.
  intros [_ Hb] He Hv. rewrite /TwoChainTimeoutCertificate_verify in Hv.
  apply then_Ok in Hv as [_ Hv]. cbv zeta in Hv. apply try_verify_Ok in Hv as [Hagg Hv].
  set ts := (λ p : AccountAddress * Round, mkTimeoutSigningRepr (to_epoch (tc_timeout tc)) (to_round (tc_timeout tc)) p.2)
    <$> get_voters_and_rounds (signatures_with_rounds tc) (get_ordered_account_addresses (VS e)).
  rewrite (list_fmap_ext _ (STimeout ∘ λ p : AccountAddress * Round,
    mkTimeoutSigningRepr (to_epoch (tc_timeout tc)) (to_round (tc_timeout tc)) p.2)) in Hagg; [by intros ? [? ?]|].
  rewrite list_fmap_compose -/ts in Hagg.
  destruct (verify_aggregate_signatures_Ok _ _ _ (VS_ok e) Hagg) as (vs & _ & _ & _ & _ & _ & HQ & Hvs).
  destruct (Hb _ _ Hagg) as [Hlen Hsig]. rewrite -Hvs in Hlen, Hsig.
  rewrite /ts length_fmap /get_voters_and_rounds -Hvs length_zip_with in Hlen.
  exists vs.*1. split; [done|]. intros a Ha Hfa. apply list_elem_of_lookup in Ha as [k Hk].
  pose proof (lookup_lt_Some _ _ _ Hk) as Hlt.
  destruct (lookup_lt_is_Some_2 (sr_rounds (signatures_with_rounds tc)) k) as [h Hh]; [lia|].
  returned Hv. apply ensure_Ok in Hv as [Hq%Z.eqb_eq _]. rewrite /max_round in Hr.
  exists h. split.
  - destruct (sr_rounds (signatures_with_rounds tc)) as [|r0 rs]; [done|]. injection Hr as <-.
    rewrite /highest_hqc_round Hq. apply foldl_max_le.
    destruct k as [|k]; simpl in Hh; [left; congruence|right; by eapply list_elem_of_lookup_2].
  - destruct (Hsig k a (mkTimeoutSigningRepr (to_epoch (tc_timeout tc)) (to_round (tc_timeout tc)) h)) as (x & Hx & Hsay);
      [done| |done|].
    + rewrite /ts list_lookup_fmap /get_voters_and_rounds -Hvs. by rewrite lookup_zip_with Hk Hh.
    + destruct x as [v|t|old new|bd]; simplify_eq/=. done.
Qed.

(** ** Preservation *)

Lemma upd_node_eq w a self : upd_node w a self a = self.
Proof. rewrite /upd_node. by rewrite decide_True. Qed.
Lemma upd_node_ne w a b self : b ≠ a → upd_node w a self b = nodes w b.
Proof. intros. rewrite /upd_node. by rewrite decide_False. Qed.

(** The invariant of a validator after a step: how the durable data moved, and what
    was released. *)
Lemma node_inv_intro w a self' (out : list (AccountAddress * release)) :
  node_inv w a → coherent self' →
  sd_epoch (dur (nodes w a)) ≤ sd_epoch (dur self') →
  (sd_epoch (dur (nodes w a)) = sd_epoch (dur self') →
     last_voted_round (dur (nodes w a)) ≤ last_voted_round (dur self') ∧
     one_chain_round (dur (nodes w a)) ≤ one_chain_round (dur self')) →
  (∀ es, epoch_state self' = Some es → es_epoch es = sd_epoch (dur self') ∧ es_verifier es = VS (es_epoch es)) →
  let w' := mkWorld (upd_node w a self') (log w ++ out) in
  (∀ v, cast w' a v → cast w a v ∨
     (vote_ok (log w) v ∧ last_vote (dur self') = Some v ∧
      sd_epoch (dur (nodes w a)) = sd_epoch (dur self') ∧ vd_epoch (v_vote_data v) = sd_epoch (dur self') ∧
      last_voted_round (dur (nodes w a)) < vd_round (v_vote_data v) ∧
      vd_round (v_vote_data v) ≤ last_voted_round (dur self') ∧
      parent_round (v_vote_data v) ≤ one_chain_round (dur self'))) →
  (∀ v, last_vote (dur self') = Some v → vd_epoch (v_vote_data v) = sd_epoch (dur self')) →
  (∀ t, (a, RTimeout t) ∈ log w ++ out → (a, RTimeout t) ∈ log w ∨
     (dur self' = bump_round (tsr_round t) (dur (nodes w a)) ∧
      tsr_epoch t = sd_epoch (dur (nodes w a)) ∧ last_voted_round (dur (nodes w a)) ≤ tsr_round t ∧
      one_chain_round (dur (nodes w a)) ≤ tsr_hqc_round t)) →
  node_inv w' a.
Proof.
  intros Ha Hc Hep Hlv Hst w' Hcast Hlast Hto. subst w'.
  assert (Hd : dur (upd_node w a self' a) = dur self') by (by rewrite upd_node_eq).
  split; cbn [nodes log]; rewrite ?upd_node_eq //.
  - pose proof (ni_epoch _ _ Ha). lia.
  - intros v [Hv|(_ & _ & _ & He & ? & ? & ?)]%Hcast; [|lia].
    destruct (ni_votes _ _ Ha v Hv) as [? Hle]. split; [lia|]. intros He.
    destruct Hle as [? ?]; [lia|]. destruct Hlv as [? ?]; lia.
  - intros v1 v2 [H1|(_ & Hl1 & Hs1 & He1 & ? & _)]%Hcast [H2|(_ & Hl2 & Hs2 & He2 & ? & _)]%Hcast He Hr.
    + by apply (ni_unique _ _ Ha).
    + destruct (ni_votes _ _ Ha v1 H1) as [_ Hle]. destruct Hle as [? _]; lia.
    + destruct (ni_votes _ _ Ha v2 H2) as [_ Hle]. destruct Hle as [? _]; lia.
    + congruence.
  - intros t [Ht|(-> & He & ? & ?)]%Hto; [|simpl; lia].
    destruct (ni_timeouts _ _ Ha t Ht) as [? Hle]. split; [lia|]. intros He.
    specialize (Hle ltac:(lia)). destruct Hlv as [? ?]; lia.
  - intros v t [Hv|(_ & Hl & Hs & He & Hlt & _)]%Hcast Hin Het Hr; apply Hto in Hin as [Ht|(Hdt & Het' & ? & ?)].
    + by apply (ni_order _ _ Ha).
    + destruct (ni_votes _ _ Ha v Hv) as [_ Hle]. destruct Hle as [_ ?]; lia.
    + destruct (ni_timeouts _ _ Ha t Ht) as [_ Hle]. specialize (Hle ltac:(lia)). lia.
    + rewrite Hdt /= in Hl, He. destruct (ni_votes _ _ Ha v (or_intror Hl)) as [_ Hle]. destruct Hle as [? _]; lia.
  - intros v [Hv|(? & _)]%Hcast; [by apply vote_ok_mono, (ni_ok _ _ Ha)|by apply vote_ok_mono].
Qed.

Lemma node_inv_other w a b self' (out : list (AccountAddress * release)) :
  node_inv w b → b ≠ a → (∀ x, x ∈ out → x.1 = a) →
  node_inv (mkWorld (upd_node w a self') (log w ++ out)) b.
Proof.
  intros Hb Hne Hout. set w' := mkWorld _ _.
  assert (Hlog : ∀ r, (b, r) ∈ log w' → (b, r) ∈ log w).
  { intros r [?|Hin]%elem_of_app; [done|]. by apply Hout in Hin. }
  assert (Hn : nodes w' b = nodes w b) by (by apply upd_node_ne).
  assert (Hcast : ∀ v, cast w' b v → cast w b v).
  { intros v [?%Hlog|Hl]; [by left|right]. by rewrite Hn in Hl. }
  destruct Hb as [? ? ? ? Hv Hu Ht Ho Hk]. split; rewrite ?Hn; eauto.
  intros v Hc%Hcast. by apply vote_ok_mono, Hk.
Qed.

Lemma safe_to_vote_Ok b tc :
  safe_to_vote b tc = Ok tt → bi_round (certified_block (block_qc b)) < block_round b →
  block_round b = bi_round (certified_block (block_qc b)) + 1 ∨
  ∃ c, tc = Some c ∧ block_round b = tc_round c + 1 ∧
    highest_hqc_round c ≤ bi_round (certified_block (block_qc b)).
Proof.
  rewrite /safe_to_vote /next_round /mbind /result_bind. cbv zeta. destruct (_ + 1 <? 2 ^ 64); [|done].
  destruct (Z.eqb_spec (block_round b) (bi_round (certified_block (block_qc b)) + 1)); [by left|].
  destruct (_ + 1 <? 2 ^ 64); [|done].
  destruct (Z.eqb_spec (block_round b) (from_option tc_round 0 tc + 1)) as [Hr|]; [|done].
  destruct (Z.geb_spec (bi_round (certified_block (block_qc b))) (from_option highest_hqc_round 0 tc)) as [Hq|]; [|done].
  intros _ Hlt. destruct tc as [c|]; simpl in Hr, Hq; [right; exists c; split_and!; [done|lia..]|left; lia].
Qed.

Lemma construct_ledger_info_Ok b h li vd :
  construct_ledger_info_2chain b h = Ok li → parent vd = certified_block (block_qc b) →
  vd_round vd = block_round b → li = mkLedgerInfo (commit_of vd) h.
Proof.
  rewrite /construct_ledger_info_2chain /next_round /commit_of /parent_round. intros Hli -> ->.
  destruct (_ + 1 <? 2 ^ 64); [|done]. by injection Hli as <-.
Qed.

(** A new vote honours the rules. *)
Lemma fresh_vote_ok w a vp tc v :
  world_inv w → node_inv w a → backed_qc (log w) (block_qc (vp_block vp)) →
  backed_tc (log w) (sd_epoch (dur (nodes w a))) tc → fresh_vote (nodes w a) vp tc v → vote_ok (log w) v.
Proof.
  intros Hw Ha Hqc Htc [(Hep & (es & Hes & Hv) & Hlt & Hpe & Hgen) Htcv _ Hrule Hli].
  destruct (gen_vote_data_Ok _ _ Hgen) as (Hp & He & Hr & _).
  destruct (ni_state _ _ Ha _ Hes) as [Hee HV]. rewrite HV Hee -Hep -Hpe in Hv.
  assert (Hvep : vd_epoch (v_vote_data v) = bi_epoch (certified_block (block_qc (vp_block vp)))) by (rewrite /vd_epoch; congruence).
  split; rewrite /parent_round ?Hp ?Hvep.
  - done.
  - rewrite /vd_round Hr. done.
  - by eapply construct_ledger_info_Ok.
  - destruct (verified_qc w _ Hw Hqc Hv) as [[? _]|[? _]]; [by left|right]. by eexists.
  - rewrite /vd_round Hr. destruct (safe_to_vote_Ok _ _ Hrule Hlt) as [?|(c & -> & ? & ?)]; [by left|right].
    destruct (Htc c eq_refl) as [Hb Hte]. destruct (Htcv c eq_refl) as (es' & Hes' & Hc). simplify_eq.
    rewrite HV Hee in Hc. exists (tc_round c), (highest_hqc_round c). split_and!; [|done..].
    rewrite Hpe Hep. by apply verified_tc.
Qed.

Lemma node_inv_vote w a now vp tc self' r out :
  world_inv w → node_inv w a → backed_qc (log w) (block_qc (vp_block vp)) →
  backed_tc (log w) (sd_epoch (dur (nodes w a))) tc →
  guarded_construct_and_sign_vote_two_chain now vp tc (nodes w a) = Ret (self', r) →
  reply a RVote r out → node_inv (mkWorld (upd_node w a self') (log w ++ out)) a.
Proof.
  intros Hw Ha Hqc Htc Hrun Hout. destruct (vote_spec _ _ _ _ (ni_coherent _ _ Ha) _ _ Hrun) as (Hc & Hes & Hcase).
  assert (Hto : ∀ t, (a, RTimeout t) ∈ log w ++ out → (a, RTimeout t) ∈ log w).
  { intros t [?|Hin]%elem_of_app; [done|]. destruct Hout as [->|(x & _ & ->)]; set_solver. }
  destruct Hcase as [[Hd Hr]|(v & -> & Hfresh & Hd)].
  - apply node_inv_intro; rewrite ?Hd ?Hes; try done; [apply (ni_state _ _ Ha)| |apply (ni_last _ _ Ha)|eauto].
    intros v Hv. left. destruct Hv as [[?|Hin]%elem_of_app|Hl]; [by left| |].
    + right. destruct Hout as [->|(x & -> & ->)]; [by apply elem_of_nil in Hin|].
      apply list_elem_of_singleton in Hin as [= ->]. by apply Hr.
    + right. cbn [nodes] in Hl. by rewrite upd_node_eq Hd in Hl.
  - pose proof (fresh_vote_ok _ _ _ _ _ Hw Ha Hqc Htc Hfresh) as Hok.
    destruct Hfresh as [(Hep & _ & _ & _ & Hgen) _ Hlt _ _]. destruct (gen_vote_data_Ok _ _ Hgen) as (Hp & He & Hrd & _).
    set d1 := mkSafetyData (sd_epoch (dur (nodes w a))) (block_round (vp_block vp)) (preferred_round (dur (nodes w a)))
      (one_chain_round (dur (nodes w a))) (last_vote (dur (nodes w a))).
    destruct (observe_qc_spec (block_qc (vp_block vp)) d1) as (Ho1 & Ho2 & Ho3 & _).
    rewrite /voted_data -/d1 in Hd. apply (f_equal sd_epoch) in Hd as Hd1. apply (f_equal last_voted_round) in Hd as Hd2.
    apply (f_equal one_chain_round) in Hd as Hd3. apply (f_equal last_vote) in Hd as Hd4.
    cbn -[observe_qc] in Hd1, Hd2, Hd3, Hd4. rewrite Ho1 in Hd1. rewrite Ho2 in Hd2. rewrite Ho3 in Hd3. simpl in Hd1, Hd2, Hd3.
    apply node_inv_intro; rewrite ?Hd1 ?Hd2 ?Hd3 ?Hd4 ?Hes; try done; [lia|apply (ni_state _ _ Ha)| | |eauto].
    + intros v' Hv'. assert (cast w a v' ∨ v' = v) as [?| ->].
      { destruct Hv' as [[?|Hin]%elem_of_app|Hl]; [by left; left| |].
        - right. destruct Hout as [->|(x & [= <-] & ->)]; [by apply elem_of_nil in Hin|].
          by apply list_elem_of_singleton in Hin as [= ->].
        - right. cbn [nodes] in Hl. rewrite upd_node_eq Hd4 in Hl. congruence. }
      { by left. }
      right. rewrite /vd_epoch /vd_round /parent_round Hp. split_and!; [done..|congruence|lia|lia|lia].
    + intros v' [= <-]. rewrite /vd_epoch. congruence.
Qed.

Lemma node_inv_timeout w a timeout tc self' r out :
  node_inv w a → guarded_sign_timeout_with_qc timeout tc (nodes w a) = Ret (self', r) →
  reply a (λ _, RTimeout (signing_format timeout)) r out →
  node_inv (mkWorld (upd_node w a self') (log w ++ out)) a.
Proof.
  intros Ha Hrun Hout. destruct (timeout_spec _ _ _ (ni_coherent _ _ Ha) _ _ Hrun) as (Hc & Hes & Hd & Hok).
  assert (Hd1 : sd_epoch (dur self') = sd_epoch (dur (nodes w a)) ∧ last_vote (dur self') = last_vote (dur (nodes w a)) ∧
    one_chain_round (dur self') = one_chain_round (dur (nodes w a)) ∧
    last_voted_round (dur (nodes w a)) ≤ last_voted_round (dur self') ∧
    dur self' = bump_round (last_voted_round (dur self')) (dur (nodes w a))).
  { destruct Hd as [->|(_ & ? & ->)]; simpl; split_and!; done || lia || by destruct (dur (nodes w a)). }
  destruct Hd1 as (He' & Hl' & Ho' & Hr' & Hbump).
  apply node_inv_intro; rewrite ?He' ?Hl' ?Ho' ?Hes; try done; [apply (ni_state _ _ Ha)| |apply (ni_last _ _ Ha)|].
  - intros v [[?|Hin]%elem_of_app|Hl]; [by left; left| |].
    + destruct Hout as [->|(x & _ & ->)]; set_solver.
    + left. right. cbn [nodes] in Hl. by rewrite upd_node_eq Hl' in Hl.
  - intros t [?|Hin]%elem_of_app; [by left|right]. destruct Hout as [->|(sg & -> & ->)]; [by apply elem_of_nil in Hin|].
    apply list_elem_of_singleton in Hin as [= ->]. destruct (Hok sg eq_refl) as (? & _ & Hsafe & Hrd). simpl.
    rewrite Hrd. split_and!; [done..|]. rewrite /safe_to_timeout in Hsafe. rewrite /mbind /result_bind in Hsafe. cbv zeta in Hsafe.
    destruct (next_round _) as [n1|]; [|done]. destruct (if to_round timeout =? n1 then _ else _) as [p|]; [|done].
    destruct (p && _) eqn:Hand; [|done]. apply andb_true_iff in Hand as [_ Hge]. by apply Z.geb_le in Hge.
Qed.

(** Steps that neither vote nor time out. *)
Lemma node_inv_quiet w a self' (out : list (AccountAddress * release)) :
  node_inv w a → coherent self' → dur self' = dur (nodes w a) →
  (∀ es, epoch_state self' = Some es → epoch_state (nodes w a) = Some es ∨
     es_epoch es = sd_epoch (dur (nodes w a)) ∧ es_verifier es = VS (es_epoch es)) →
  (∀ r, (a, r) ∈ out → match r with RVote _ | RTimeout _ => False | _ => True end) →
  node_inv (mkWorld (upd_node w a self') (log w ++ out)) a.
Proof.
  intros Ha Hc Hd Hes Hout. apply node_inv_intro; rewrite ?Hd; try done; [| |apply (ni_last _ _ Ha)|].
  - intros es [?|?]%Hes; [by apply (ni_state _ _ Ha)|done].
  - intros v [[?|Hin]%elem_of_app|Hl]; [by left; left|by apply Hout in Hin|].
    left. right. cbn [nodes] in Hl. by rewrite upd_node_eq Hd in Hl.
  - intros t [?|Hin]%elem_of_app; [by left|by apply Hout in Hin].
Qed.

Lemma node_inv_init w a proof self' r :
  node_inv w a → (∀ es, from_proof proof es → es_verifier es = VS (es_epoch es)) →
  guarded_initialize proof (nodes w a) = Ret (self', r) → node_inv (mkWorld (upd_node w a self') (log w)) a.
Proof.
  intros Ha Hpf Hrun. destruct (initialize_spec _ _ (ni_coherent _ _ Ha) _ _ Hrun) as [Hc Hcase].
  rewrite -(app_nil_r (log w)). destruct Hcase as [[Hd Hes]|(es & Hes & Hst & [[He Hd]|[Hlt Hd]])].
  - apply node_inv_quiet; try done; [|by intros ? ?%elem_of_nil]. intros es. rewrite Hes. by left.
  - apply node_inv_quiet; try done; [|by intros ? ?%elem_of_nil]. intros es'. rewrite Hst. intros [= <-].
    right. split; [done|by apply Hpf].
  - apply node_inv_intro; rewrite ?Hd /=; try done; [lia|lia| | |].
    + intros es' Hes'. rewrite Hst in Hes'. injection Hes' as <-. split; [done|by apply Hpf].
    + intros v [Hin|Hl]; [by left; left; rewrite app_nil_r in Hin|]. cbn [nodes] in Hl. by rewrite upd_node_eq Hd in Hl.
    + intros t Hin. left. by rewrite app_nil_r in Hin.
Qed.

Lemma reply_fst {A} a (f : A → release) r out x : reply a f r out → x ∈ out → x.1 = a.
Proof. intros [->|(y & _ & ->)]; [by intros ?%elem_of_nil|]. by intros ->%list_elem_of_singleton. Qed.

Lemma reply_in {A} a (f : A → release) r out b x : reply a f r out → (b, x) ∈ out → ∃ y, r = Ok y ∧ x = f y.
Proof.
  intros [->|(y & -> & ->)]; [by intros ?%elem_of_nil|]. intros [= -> ->]%list_elem_of_singleton. by exists y.
Qed.

Lemma world_inv_intro w a self' (out : list (AccountAddress * release)) :
  world_inv w → (∀ x, x ∈ out → x.1 = a) →
  (∀ b old new, (b, RCommit old new) ∈ out → good (log w) new) →
  (faulty a = false → node_inv (mkWorld (upd_node w a self') (log w ++ out)) a) →
  world_inv (mkWorld (upd_node w a self') (log w ++ out)).
Proof.
  intros Hw Hout Hcommit Ha. split.
  - intros b Hb. destruct (decide (b = a)) as [->|Hne]; [by apply Ha|].
    apply node_inv_other; [by apply (wi_nodes _ Hw)|done..].
  - intros b old new [Hin|Hin]%elem_of_app; apply good_mono; [by eapply (wi_commits _ Hw)|by eapply Hcommit].
Qed.

Lemma world_step_inv w w' : world_inv w → world_step w w' → world_inv w'.
Proof.
  intros Hw Hstep. destruct Hstep as [a now vp tc self' r out Hfa Hqc Htc Hrun Hout
    |a timeout tc self' r out Hfa Hqc Htc Hrun Hout|a bd self' r out Hfa Hqc Hrun Hout
    |a li info self' r out Hfa Hb He Hrun Hout|a proof self' r Hfa Hpf Hrun|a enable Hfa];
    pose proof (wi_nodes _ Hw a Hfa) as Ha.
  - apply world_inv_intro; [done|by eauto using reply_fst| |intros _; by eapply node_inv_vote].
    intros b old new Hin. by destruct (reply_in _ _ _ _ _ _ Hout Hin) as (? & _ & ?).
  - apply world_inv_intro; [done|by eauto using reply_fst| |intros _; by eapply node_inv_timeout].
    intros b old new Hin. by destruct (reply_in _ _ _ _ _ _ Hout Hin) as (? & _ & ?).
  - destruct (reads_sign_proposal _ _ (ni_coherent _ _ Ha) _ _ Hrun) as [(Hc & Hd & _ & Hes) _].
    apply world_inv_intro; [done|by eauto using reply_fst| |].
    { intros b old new Hin. by destruct (reply_in _ _ _ _ _ _ Hout Hin) as (? & _ & ?). }
    intros _. apply node_inv_quiet; try done; [intros es; rewrite Hes; by left|].
    intros x Hin. by destruct (reply_in _ _ _ _ _ _ Hout Hin) as (? & _ & ->).
  - destruct (reads_sign_commit_vote _ _ _ (ni_coherent _ _ Ha) _ _ Hrun) as [(Hc & Hd & _ & Hes) Hok].
    apply world_inv_intro; [done|by eauto using reply_fst| |].
    { intros b old new Hin. destruct (reply_in _ _ _ _ _ _ Hout Hin) as (sg & -> & [= -> ->]).
      destruct (Hok sg eq_refl) as (_ & Hm & Hv). by eapply commit_good. }
    intros _. apply node_inv_quiet; try done; [intros es; rewrite Hes; by left|].
    intros x Hin. by destruct (reply_in _ _ _ _ _ _ Hout Hin) as (? & _ & ->).
  - rewrite -(app_nil_r (log w)). apply world_inv_intro; [done|by intros ? ?%elem_of_nil|by intros ? ? ? ?%elem_of_nil|].
    intros _. rewrite app_nil_r. by eapply node_inv_init.
  - rewrite -(app_nil_r (log w)). apply world_inv_intro; [done|by intros ? ?%elem_of_nil|by intros ? ? ? ?%elem_of_nil|].
    intros _. apply node_inv_quiet; try done. by intros ? ?%elem_of_nil.
Qed.

Lemma world_init_inv w : world_init w → world_inv w.
Proof.
  intros [Hlog Hn]. split; [|by intros a old new; rewrite Hlog; intros ?%elem_of_nil].
  intros a _. destruct (Hn a) as (store & enable & Ha & He & Hl).
  assert (Hno : ∀ v, ¬ cast w a v).
  { intros v [Hin|Hl']; [rewrite Hlog in Hin; by apply elem_of_nil in Hin|].
    rewrite Ha /dur /= Hl in Hl'. done. }
  split; rewrite ?Ha; try done.
  - intros v. by rewrite /dur /= Hl.
  - by intros v ?%Hno.
  - by intros v1 v2 ?%Hno.
  - intros t. rewrite Hlog. by intros ?%elem_of_nil.
  - by intros v t ?%Hno.
  - by intros v ?%Hno.
Qed.

Lemma world_reachable_inv w : world_reachable w → world_inv w.
Proof.
  intros (w0 & Hi & Hr). eapply rtc_invariant; [|exact Hr|by apply world_init_inv].
  intros w1 w2 ? ?. by eapply world_step_inv.
Qed.

(** ** Chains of certified blocks *)

(** Block [b] is the block of [vd], or is reached from it by parent links through
    blocks that a quorum voted for. *)
Inductive extends (l : list (AccountAddress * release)) (e : Z) (b : BlockInfo) : VoteData → Prop :=
  | extends_self vd : voted l e vd → proposed vd = b → extends l e b vd
  | extends_parent vd vd' : voted l e vd → proposed vd' = parent vd → extends l e b vd' → extends l e b vd.

Lemma voted_unique w e vd1 vd2 :
  world_inv w → voted (log w) e vd1 → voted (log w) e vd2 → vd_round vd1 = vd_round vd2 → vd1 = vd2.
Proof.
  intros Hw [He1 (Q1 & Hq1 & H1)] [He2 (Q2 & Hq2 & H2)] Hr.
  destruct (quorums_meet _ _ _ _ (VS_ok e) (VS_honest e) Hq1 Hq2) as (a & Ha1 & Ha2 & Hfa).
  destruct (H1 a Ha1 Hfa) as (v1 & Hv1 & <-). destruct (H2 a Ha2 Hfa) as (v2 & Hv2 & <-).
  f_equal. eapply (ni_unique _ _ (wi_nodes _ Hw a Hfa)); [by left..|congruence|done].
Qed.

Lemma voted_ok w e vd :
  world_inv w → voted (log w) e vd → ∃ v, vote_ok (log w) v ∧ v_vote_data v = vd.
Proof.
  intros Hw [_ (Q & Hq & HQ)]. destruct (quorum_honest _ _ _ (VS_ok e) (VS_honest e) Hq) as (a & Ha & Hfa).
  destruct (HQ a Ha Hfa) as (v & Hv & <-). exists v. split; [|done].
  apply (ni_ok _ _ (wi_nodes _ Hw a Hfa)). by left.
Qed.

(** A quorum of timeouts after a commit quorum dominates the committed round. *)
Lemma timeouts_dominate w e vd1 round hqc :
  world_inv w → voted (log w) e vd1 → timed_out (log w) e round hqc → vd_round vd1 ≤ round →
  parent_round vd1 ≤ hqc.
Proof.
  intros Hw [He1 (Q1 & Hq1 & H1)] (Q2 & Hq2 & H2) Hr.
  destruct (quorums_meet _ _ _ _ (VS_ok e) (VS_honest e) Hq1 Hq2) as (a & Ha1 & Ha2 & Hfa).
  destruct (H1 a Ha1 Hfa) as (v1 & Hv1 & <-). destruct (H2 a Ha2 Hfa) as (h & Hh & Ht).
  etrans; [|exact Hh].
  eapply (ni_order _ _ (wi_nodes _ Hw a Hfa) v1 (mkTimeoutSigningRepr e round h)); [by left|done..].
Qed.

(** Once a quorum voted for a block that commits its parent, every certified block
    from the round of that parent on extends it. *)
Lemma committed_extended w e vd1 :
  world_inv w → voted (log w) e vd1 → parent_round vd1 + 1 = vd_round vd1 → 0 < parent_round vd1 →
  ∀ n vd, (Z.to_nat (vd_round vd) < n)%nat → voted (log w) e vd → parent_round vd1 ≤ vd_round vd →
    extends (log w) e (parent vd1) vd.
Proof.
  intros Hw Hv1 Hcons Hpos. destruct (voted_ok _ _ _ Hw Hv1) as (v1 & Hok1 & <-).
  destruct (vo_parent _ _ Hok1) as [?|(vd0 & Hv0 & Hp0)]; [lia|]. rewrite (proj1 Hv1) in Hv0.
  assert (vd_round vd0 = parent_round (v_vote_data v1)) as Hr0 by (by rewrite /vd_round Hp0).
  induction n as [|n IH]; intros vd Hn Hvd Hle; [lia|].
  destruct (decide (vd_round vd = parent_round (v_vote_data v1))) as [Heq|].
  { assert (vd = vd0) as -> by (eapply voted_unique; [done..|lia]). by apply extends_self. }
  destruct (decide (vd_round vd = vd_round (v_vote_data v1))) as [Heq|].
  { assert (vd = v_vote_data v1) as -> by (by eapply voted_unique).
    eapply extends_parent; [done..|]. by apply extends_self. }
  destruct (voted_ok _ _ _ Hw Hvd) as (v & Hok & <-). destruct Hok as [_ Hlt _ Hpar Hrule].
  rewrite (proj1 Hvd) in Hpar, Hrule.
  assert (parent_round (v_vote_data v1) ≤ parent_round (v_vote_data v)) as Hge.
  { destruct Hrule as [?|(round & hqc & Hto & ? & ?)]; [lia|]. etrans; [|done].
    eapply timeouts_dominate; [done..|lia]. }
  destruct Hpar as [?|(vd' & Hv' & Hp')]; [lia|].
  assert (vd_round vd' = parent_round (v_vote_data v)) as Hr' by (by rewrite /vd_round Hp').
  eapply extends_parent; [done..|]. apply IH; [lia|done|lia].
Qed.

(** What a committing certificate stands for. *)
Lemma committing_qc w e qc :
  world_inv w → backed_qc (log w) qc → bi_epoch (certified_block qc) = e →
  QuorumCert_verify qc (VS e) = Ret (Ok tt) → 0 < bi_round (qc_commit_info qc) →
  ∃ vd vd0, voted (log w) e vd ∧ parent_round vd + 1 = vd_round vd ∧ 0 < parent_round vd ∧
    voted (log w) e vd0 ∧ proposed vd0 = parent vd ∧ same_block (qc_commit_info qc) (parent vd).
Proof.
  intros Hw Hb <- Hv Hc. destruct (verified_qc w qc Hw Hb Hv) as [[? Hcc]|[Hvd Hs]]; [rewrite Hcc in Hc; lia|].
  pose proof Hs as (_ & Hsr & _). rewrite Hsr in Hc.
  rewrite /commit_of in Hs, Hc. destruct (Z.eqb_spec (parent_round (vote_data qc) + 1) (vd_round (vote_data qc))) as [Hcons|];
    [|simpl in Hc; lia].
  destruct (voted_ok _ _ _ Hw Hvd) as (v & Hok & Heq). pose proof (vo_parent _ _ Hok) as Hpar.
  rewrite Heq in Hpar. destruct Hpar as [H0|(vd0 & Hv0 & Hp0)]; [rewrite /parent_round in H0; lia|].
  exists (vote_data qc), vd0. split_and!; done.
Qed.

(** C2: two-chain agreement.  In every reachable state of a system of validators, with
    at most a third of the voting power of each epoch faulty, whatever requests,
    crashes and lost replies happened: when two quorum certificates of an epoch
    verify and commit blocks above the genesis round, one of the committed blocks is
    an ancestor of the other along blocks certified by quorums; in particular blocks
    committed in the same round are the same block. *)
Theorem two_chain_agreement w e qc1 qc2 :
  world_reachable w → backed_qc (log w) qc1 → backed_qc (log w) qc2 →
  bi_epoch (certified_block qc1) = e → bi_epoch (certified_block qc2) = e →
  QuorumCert_verify qc1 (VS e) = Ret (Ok tt) → QuorumCert_verify qc2 (VS e) = Ret (Ok tt) →
  0 < bi_round (qc_commit_info qc1) → bi_round (qc_commit_info qc1) ≤ bi_round (qc_commit_info qc2) →
  (∃ b vd, same_block (qc_commit_info qc1) b ∧ same_block (qc_commit_info qc2) (proposed vd) ∧
     extends (log w) e b vd) ∧
  (bi_round (qc_commit_info qc1) = bi_round (qc_commit_info qc2) →
   bi_id (qc_commit_info qc1) = bi_id (qc_commit_info qc2)).
Proof.
  intros Hw%world_reachable_inv Hb1 Hb2 He1 He2 Hq1 Hq2 Hc1 Hle.
  destruct (committing_qc w e qc1) as (vd1 & _ & Hv1 & Hcons1 & Hpos1 & _ & _ & Hs1); [done..|].
  destruct (committing_qc w e qc2) as (vd2 & vd0 & _ & _ & _ & Hv0 & Hp0 & Hs2); [done..|lia|].
  assert (Hext : extends (log w) e (parent vd1) vd0).
  { eapply (committed_extended w e vd1); [done..|by apply Nat.lt_succ_diag_r|done|].
    destruct Hs1 as (_ & Hr1' & _), Hs2 as (_ & Hr2' & _). rewrite /parent_round /vd_round Hp0. lia. }
  split; [exists (parent vd1), vd0; by rewrite Hp0|]. intros Heq.
  destruct (committing_qc w e qc1) as (vd1' & vd0' & Hv1' & _ & _ & Hv0' & Hp0' & Hs1'); [done..|].
  assert (vd0' = vd0) as ->.
  { eapply voted_unique; [done..|]. rewrite /vd_round Hp0' Hp0. destruct Hs1' as (_ & ? & _), Hs2 as (_ & ? & _). lia. }
  destruct Hs1' as (_ & _ & ->), Hs2 as (_ & _ & ->). congruence.
Qed.
End system.
