(* ===== verification/ConsensusExample.v ===== *)
(** * A concrete consensus system

    An instance of every parameter of the consensus development (a symbolic signature
    scheme, an injective hash, an in-memory store) and a run of four validators, one
    of them faulty, that commits two blocks.  It shows that the hypotheses of
    [ConsensusSafety.v] can be met. *)
From stdpp Require Import countable.
From S2P Require Import Prelude Accumulator AccumulatorProof BitVec ValidatorVerifier ConsensusData EpochChange SafetyRules SafetyRulesSpec ConsensusSafety.
Local Open Scope Z_scope.

(** ** Injective encodings of the data *)

Section countable.
Context `{CT : ConsensusTypes, !Countable HashValue, !Countable PublicKey}.

#[global] Instance ValidatorConsensusInfo_countable : Countable ValidatorConsensusInfo.
Proof.
  refine (inj_countable' (λ i, (address i, public_key i, voting_power i))
    (λ '(a, k, p), mkValidatorConsensusInfo a k p) _); by intros [].
Defined.

#[global] Instance ValidatorVerifier_countable : Countable ValidatorVerifier.
Proof.
  refine (inj_countable' (λ v, (validator_infos v, quorum_voting_power v, total_voting_power v, address_to_validator_index v))
    (λ '(i, q, t, m), mkValidatorVerifier i q t m) _); by intros [].
Defined.

#[global] Instance EpochState_countable : Countable EpochState.
Proof. refine (inj_countable' (λ e, (es_epoch e, es_verifier e)) (λ '(e, v), mkEpochState e v) _); by intros []. Defined.

#[global] Instance BlockInfo_countable : Countable BlockInfo.
Proof.
  refine (inj_countable' (λ b, (bi_epoch b, bi_round b, bi_id b, executed_state_id b, bi_version b, bi_timestamp_usecs b, next_epoch_state b))
    (λ '(e, r, i, x, v, t, n), mkBlockInfo e r i x v t n) _); by intros [].
Defined.

#[global] Instance VoteData_countable : Countable VoteData.
Proof. refine (inj_countable' (λ v, (proposed v, parent v)) (λ '(a, b), mkVoteData a b) _); by intros []. Defined.

#[global] Instance LedgerInfo_countable : Countable LedgerInfo.
Proof. refine (inj_countable' (λ l, (commit_info l, consensus_data_hash l)) (λ '(c, h), mkLedgerInfo c h) _); by intros []. Defined.

#[global] Instance TimeoutSigningRepr_countable : Countable TimeoutSigningRepr.
Proof.
  refine (inj_countable' (λ t, (tsr_epoch t, tsr_round t, tsr_hqc_round t)) (λ '(e, r, h), mkTimeoutSigningRepr e r h) _);
    by intros [].
Defined.

#[global] Instance Ledger2WaypointConverter_countable : Countable Ledger2WaypointConverter.
Proof.
  refine (inj_countable' (λ c, (lw_epoch c, lw_root_hash c, lw_version c, lw_timestamp_usecs c, lw_next_epoch_state c))
    (λ '(e, r, v, t, n), mkLedger2WaypointConverter e r v t n) _); by intros [].
Defined.
End countable.

Module Example.

#[global] Instance types : ConsensusTypes := {
  AccountAddress := Z;
  HashValue := positive;
  PublicKey := list Z;
  PrivateKey := Z;
  Signature := list (Z * positive);
  Payload := unit;
}.

#[global] Instance hash_countable : Countable (@HashValue types) := (_ : Countable positive).
#[global] Instance key_countable : Countable (@PublicKey types) := (_ : Countable (list Z)).

(** What is signed, up to an injective encoding; proposals are not needed here. *)
Definition digest (m : Signable) : positive :=
  encode (match m with
          | SLedgerInfo li => Some (inl li)
          | STimeout t => Some (inr t)
          | SBlockData _ => None
          end : option (LedgerInfo + TimeoutSigningRepr)).

(** Symbolic signatures: who signed what. *)
#[global] Instance bls : Bls Signable := {
  public_key_of k := [k];
  bls_sign k m := Some [(k, digest m)];
  bls_aggregate_keys ks := Some (concat ks);
  bls_aggregate ss := Some (concat ss);
  bls_verify s m k := forallb (λ x, bool_decide ((x, digest m) ∈ s)) k;
  bls_verify_aggregate s ms ks :=
    bool_decide (length ms = length ks) &&
    forallb (λ '(m, k), forallb (λ x, bool_decide ((x, digest m) ∈ s)) k) (zip ms ks);
}.

#[global] Instance env : ConsensusEnv := {
  vote_data_hash := encode;
  block_data_hash _ := 1%positive;
  waypoint_hash := encode;
  hash_zero := 1%positive;
  payload_is_empty _ := true;
  TransactionAccumulatorHasher :=
    {| hash_internal_node a b := xI (encode (a, b)); ACCUMULATOR_PLACEHOLDER_HASH := 2%positive |};
}.

(** An in-memory store. *)
Record store : Type := mkStore {
  st_data : SafetyData;
  st_waypoint : Waypoint;
  st_author : AccountAddress;
  st_key : PrivateKey;
}.

#[global] Instance storage : SecureStorage store := {
  kv_get_safety_data st := Ok (st_data st);
  kv_get_safety_data_result st := Err StorageSerializationError;
  kv_set_safety_data st d := (mkStore d (st_waypoint st) (st_author st) (st_key st), Ok tt);
  kv_get_waypoint st := Ok (st_waypoint st);
  kv_set_waypoint st w := (mkStore (st_data st) w (st_author st) (st_key st), Ok tt);
  kv_get_author st := Ok (st_author st);
  kv_get_consensus_key st := Ok (st_key st);
}.

#[global] Program Instance durable : DurableStorage store := {| stored := st_data |}.
Next Obligation. by intros st d [= <-]. Qed.
Next Obligation. done. Qed.
Next Obligation. by intros st st' d u [= <- _]. Qed.
Next Obligation. done. Qed.
Next Obligation. by intros st st' w r [= <- _]. Qed.

Definition signer_of (a : Z) : ValidatorSigner := mkValidatorSigner (a : AccountAddress) (a : PrivateKey).
Definition store_of (a : Z) (d : SafetyData) : store :=
  mkStore d (mkWaypoint 0 1%positive) (a : AccountAddress) (a : PrivateKey).

(** Four validators of equal power; the last one is faulty. *)
Definition infos : list ValidatorConsensusInfo :=
  (λ a, mkValidatorConsensusInfo a [a] 1) <$> [1; 2; 3; 4].
Definition verifier : ValidatorVerifier := build_index infos 3 4.
Definition VS (_ : Z) : ValidatorVerifier := verifier.
Definition faulty (a : AccountAddress) : bool := a =? 4.

Lemma infos_are_ok : infos_ok infos.
Proof.
  split_and!; [|repeat constructor; simpl; lia|vm_compute; reflexivity].
  apply (bool_decide_unpack _). vm_compute. exact I.
Qed.

Lemma new_verifier : ValidatorVerifier_new infos = Ret verifier.
Proof. vm_compute. reflexivity. Qed.

Lemma VS_ok e : verifier_ok (VS e).
Proof. apply (ValidatorVerifier_new_ok infos); [apply infos_are_ok|apply new_verifier]. Qed.

Lemma VS_honest e : mostly_honest (VS e) faulty.
Proof. split; [done|]. vm_compute. done. Qed.

Lemma digest_inj_li m li : digest m = digest (SLedgerInfo li) → m = SLedgerInfo li.
Proof. intros H%encode_inj. destruct m; simplify_eq/=. done. Qed.

Lemma digest_inj_timeout m t : digest m = digest (STimeout t) → m = STimeout t.
Proof. intros H%encode_inj. destruct m; simplify_eq/=. done. Qed.

(** ** Signatures that stand for what was signed *)

Definition backed_by (l : list (AccountAddress * release)) (s : AggregateSignature) : bool :=
  match sig s with
  | None => true
  | Some σ => forallb (λ '(k, d), faulty k || existsb (λ '(a, r), (a =? k) && bool_decide (digest (says r) = d)) l) σ
  end.

Lemma own_keys ones vs : collect_voters verifier ones = Ok vs → vs.*2 = (λ a, [a]) <$> vs.*1.
Proof.
  intros (-> & -> & _)%collect_voters_spec. induction ones as [|i ones IH]; csimpl; [done|].
  destruct (infos !! i) as [info|] eqn:Hi; csimpl; [|done]. rewrite IH. f_equal.
  apply list_elem_of_lookup_2, list_elem_of_fmap in Hi as (a & -> & _). done.
Qed.

Lemma backed_by_signed l s σ a m :
  backed_by l s = true → sig s = Some σ → (a, digest m) ∈ σ → faulty a = false →
  ∃ r, (a, r) ∈ l ∧ digest (says r) = digest m.
Proof.
  intros Hb Hs Hin Hf. rewrite /backed_by Hs in Hb.
  pose proof (proj1 (forallb_forall _ _) Hb _ (proj1 (list_elem_of_In _ _) Hin)) as Hk. cbv beta iota in Hk.
  rewrite Hf /= in Hk. apply existsb_exists in Hk as ([b r] & Hr & [Hab Hd]%andb_true_iff).
  apply Z.eqb_eq in Hab as ->. apply bool_decide_eq_true in Hd. exists r. split; [|done].
  by apply list_elem_of_In.
Qed.

Lemma backed_by_backed l s : backed_by l s = true → backed VS faulty l s.
Proof.
  intros Hb. split.
  - intros e li (vs & σ & pk & Hvs & Hs & Hk & Hv & _ & _ & Heq)%verify_multi_signatures_Ok; [|apply VS_ok].
    intros a Ha Hf. rewrite -Heq in Ha. apply own_keys in Hvs. injection Hk as <-. rewrite Hvs in Hv.
    pose proof (proj1 (forallb_forall _ _) Hv a) as Hin. destruct (backed_by_signed l s σ a (SLedgerInfo li)) as (r & Hr & Hd); [done..| |done|].
    + eapply bool_decide_eq_true, Hin, in_concat. exists [a]. split; [|by left].
      apply list_elem_of_In, list_elem_of_fmap. by exists a.
    + exists r. split; [done|]. by apply digest_inj_li.
  - intros e ts (vs & σ & Hvs & Hs & Hv & _ & _ & Heq)%verify_aggregate_signatures_Ok; [|apply VS_ok].
    apply own_keys in Hvs. rewrite Hvs in Hv. cbn -[digest] in Hv. apply andb_true_iff in Hv as [Hlen%bool_decide_eq_true Hv].
    rewrite !length_fmap in Hlen. rewrite -Heq length_fmap. split; [done|]. intros k a t Ha Ht Hf.
    destruct (backed_by_signed l s σ a (STimeout t)) as (r & Hr & Hd); [done..| |done|exists r; split; [done|by apply digest_inj_timeout]].
    pose proof (proj1 (forallb_forall _ _) Hv (STimeout t, [a])) as Hin. cbn -[digest] in Hin.
    rewrite andb_true_r in Hin. eapply bool_decide_eq_true, Hin, list_elem_of_In, list_elem_of_lookup.
    exists k. rewrite lookup_zip_with !list_lookup_fmap Ht. rewrite list_lookup_fmap in Ha. by rewrite Ha.
Qed.

(** ** Blocks and certificates of the run *)

Definition block_info (round : Round) (id : positive) : BlockInfo := mkBlockInfo 1 round id 2%positive 0 0 None.

(** The certificate for [vd] signed by the first three validators. *)
Definition certify (vd : VoteData) (commit : BlockInfo) : QuorumCert :=
  let li := mkLedgerInfo commit (vote_data_hash vd) in
  mkQuorumCert vd (mkLedgerInfoWithSignatures li
    (mkAggregateSignature (mkBitVec [224]) (Some ((λ k, (k, digest (SLedgerInfo li))) <$> [1; 2; 3])))).

Definition genesis : BlockInfo := block_info 0 10%positive.
Definition qc0 : QuorumCert :=
  mkQuorumCert (mkVoteData genesis genesis) (mkLedgerInfoWithSignatures
    (mkLedgerInfo genesis (vote_data_hash (mkVoteData genesis genesis))) AggregateSignature_empty).

Definition nil_block (round : Round) (id : positive) (qc : QuorumCert) : VoteProposal :=
  mkVoteProposal (mkAccumulatorExtensionProof [] 0 []) (mkBlock id (mkBlockData 1 round 0 qc (NilBlock [])) None) None true.

Definition qc1 : QuorumCert := certify (mkVoteData (block_info 1 11%positive) genesis) genesis.
Definition qc2 : QuorumCert :=
  certify (mkVoteData (block_info 2 12%positive) (block_info 1 11%positive)) (block_info 1 11%positive).
Definition qc3 : QuorumCert :=
  certify (mkVoteData (block_info 3 13%positive) (block_info 2 12%positive)) (block_info 2 12%positive).

(** The epoch change that starts epoch 1. *)
Definition epoch_li : LedgerInfo :=
  mkLedgerInfo (mkBlockInfo 0 0 1%positive 2%positive 0 0 (Some (mkEpochState 1 verifier))) 1%positive.
Definition epoch_proof : EpochChangeProof :=
  mkEpochChangeProof [mkLedgerInfoWithSignatures epoch_li AggregateSignature_empty] false.

(** ** The run *)

Definition w0 : world := mkWorld (λ a, SafetyRules_new (PersistentSafetyStorage_new
  (mkStore (mkSafetyData 1 0 0 0 None) (Waypoint_new_any epoch_li) a a) true)) [].

Definition do_init (w : world) (a : Z) : world :=
  match guarded_initialize epoch_proof (nodes w a) with
  | Ret (self', _) => mkWorld (upd_node w a self') (log w)
  | Panic => w
  end.

Definition do_vote (vp : VoteProposal) (w : world) (a : Z) : world :=
  match guarded_construct_and_sign_vote_two_chain 0 vp None (nodes w a) with
  | Ret (self', Ok v) => mkWorld (upd_node w a self') (log w ++ [(a, RVote v)])
  | _ => w
  end.

Lemma do_init_step w a : faulty a = false → rtc (world_step VS faulty) w (do_init w a).
Proof.
  intros Hf. rewrite /do_init. destruct (guarded_initialize _ _) as [[self' r]|] eqn:H; [|by apply rtc_refl].
  apply rtc_once. eapply step_initialize; [done| |done]. intros es (li & [= <-] & [= <-]). done.
Qed.

Lemma do_vote_step vp w a :
  faulty a = false → backed_by (log w) (signatures (signed_ledger_info (block_qc (vp_block vp)))) = true →
  rtc (world_step VS faulty) w (do_vote vp w a).
Proof.
  intros Hf Hb. rewrite /do_vote.
  destruct (guarded_construct_and_sign_vote_two_chain _ _ _ _) as [[self' [v|e]]|] eqn:H; [|by apply rtc_refl..].
  apply rtc_once. eapply (step_vote _ _ _ _ _ _ None); [done|by apply backed_by_backed|by intros c [=]|done|]. right. by exists v.
Qed.

Definition honest : list Z := [1; 2; 3].
Definition w1 : world := foldl do_init w0 honest.
Definition w2 : world := foldl (do_vote (nil_block 1 11%positive qc0)) w1 honest.
Definition w3 : world := foldl (do_vote (nil_block 2 12%positive qc1)) w2 honest.
Definition w4 : world := foldl (do_vote (nil_block 3 13%positive qc2)) w3 honest.

Lemma w4_reachable : world_reachable VS faulty w4.
Proof.
  exists w0. split.
  { split; [done|]. intros a. by eexists _, true. }
  unfold w4, w3, w2, w1, honest. cbn [foldl].
  do 9 (etrans; [|apply do_vote_step; [done|vm_compute; reflexivity]]).
  do 3 (etrans; [|by apply do_init_step]). apply rtc_refl.
Qed.

Lemma hash_injective vd1 vd2 : vote_data_hash vd1 = vote_data_hash vd2 → vd1 = vd2.
Proof. apply encode_inj. Qed.
End Example.

Import Example.

Lemma quorum_intersection_witness :
  ∃ a, Example.faulty a = false ∧
    a ∈ get_voter_addresses (signatures (signed_ledger_info qc1)) (get_ordered_account_addresses verifier) ∧
    a ∈ get_voter_addresses (signatures (signed_ledger_info qc2)) (get_ordered_account_addresses verifier).
Proof.
  apply (quorum_intersection infos verifier (SLedgerInfo (ledger_info (signed_ledger_info qc1)))
    (SLedgerInfo (ledger_info (signed_ledger_info qc2))));
    [apply infos_are_ok|done|apply new_verifier|vm_compute; done|vm_compute; reflexivity..].
Defined.

Lemma two_chain_agreement_witness :
  ∃ b vd, same_block (qc_commit_info qc2) b ∧ same_block (qc_commit_info qc3) (proposed vd) ∧
    extends VS Example.faulty (log w4) 1 b vd.
Proof.
  destruct (two_chain_agreement VS Example.faulty VS_ok VS_honest hash_injective w4 1 qc2 qc3) as [H _];
    [apply w4_reachable|apply backed_by_backed; vm_compute; reflexivity|apply backed_by_backed; vm_compute; reflexivity
    |reflexivity|reflexivity|vm_compute; reflexivity|vm_compute; reflexivity|vm_compute; reflexivity|vm_compute; done|exact H].
Defined.

(** ** Single validators *)

(** The first validator once it is initialised. *)
Definition node1 : SafetyRules store := nodes w1 1.

Lemma node1_coherent : coherent node1.
Proof. intros d. vm_compute. intros [= <-]. reflexivity. Qed.

Definition requests : list request :=
  [QInitialize epoch_proof; QVote 0 (nil_block 1 11%positive qc0) None;
   QVote 0 (nil_block 2 12%positive qc1) None].

Lemma safety_data_never_regresses_witness :
  ∃ self', serve_all requests (nodes w0 1) = Ret self' ∧ sd_le (dur (nodes w0 1)) (dur self') ∧
    last_voted_round (dur self') = 2.
Proof.
  eexists. split; [vm_compute; reflexivity|]. split; [|reflexivity].
  eapply (safety_data_never_regresses requests (nodes w0 1)); [by intros d [=]|vm_compute; reflexivity].
Defined.

Lemma released_vote_is_durable_witness :
  ∃ self' v, guarded_construct_and_sign_vote_two_chain 0 (nil_block 1 11%positive qc0) None node1 = Ret (self', Ok v) ∧
    last_vote (dur self') = Some v.
Proof.
  eexists _, _. split; [vm_compute; reflexivity|].
  eapply (released_vote_is_durable 0 (nil_block 1 11%positive qc0) None node1);
    [apply node1_coherent|vm_compute; reflexivity].
Defined.

#[global] Instance hasher_injective : HasherInjective HashValue.
Proof.
  split; [|done]. intros a b c d [= H]. change (encode (a, b) = encode (c, d)) in H.
  by apply (inj encode) in H as [= -> ->].
Qed.

(** A proposal with two transactions on top of genesis, executed. *)
Definition executed_block : VoteProposal :=
  mkVoteProposal (mkAccumulatorExtensionProof [] 0 [5%positive; 6%positive])
    (mkBlock 11%positive (mkBlockData 1 1 0 qc0 (NilBlock [])) None) None false.


Lemma commit_vote_signs_any_hash_witness :
  guarded_sign_commit_vote (signed_ledger_info qc2) (mkLedgerInfo (block_info 1 11%positive) 99%positive) node1 =
  Ret (node1, Ok [(1, digest (SLedgerInfo (mkLedgerInfo (block_info 1 11%positive) 99%positive)))]).
Proof.
  apply (commit_vote_signs_any_hash node1 (signer_of 1) (mkEpochState 1 verifier));
    vm_compute; reflexivity.
Defined.

Definition uncached : SafetyRules store :=
  SafetyRules_new (PersistentSafetyStorage_new (store_of 1 (mkSafetyData 1 0 0 0 None)) false).

Lemma uncached_storage_unusable_witness :
  enable_cached_safety_data (persistent_storage uncached) = false ∧
  ∀ self' v, guarded_construct_and_sign_vote_two_chain 0 (nil_block 1 11%positive qc0) None uncached ≠ Ret (self', Ok v).
Proof.
  split; [reflexivity|]. apply uncached_storage_unusable; [reflexivity|]. intros st. by eexists.
Defined.

(** ** A timeout certificate of another epoch *)

Definition info2 (round : Round) (id : positive) : BlockInfo := mkBlockInfo 2 round id 2%positive 0 0 None.

(** A certificate of epoch 2 for round 1. *)
Definition qc_epoch2 : QuorumCert := certify (mkVoteData (info2 1 21%positive) (info2 0 20%positive)) (info2 0 20%positive).

(** A timeout certificate of epoch 1 for round 4, on the certificate [qc1] of round 1. *)
Definition tc_epoch1 : TwoChainTimeoutCertificate :=
  mkTwoChainTimeoutCertificate (mkTwoChainTimeout 1 4 qc1) (mkAggregateSignatureWithRounds
    (mkAggregateSignature (mkBitVec [224])
       (Some ((λ k, (k, digest (STimeout (mkTimeoutSigningRepr 1 4 1)))) <$> [1; 2; 3]))) [1; 1; 1]).

(** A validator in epoch 2 that has voted in round 1. *)
Definition node_epoch2 : SafetyRules store :=
  mkSafetyRules (PersistentSafetyStorage_new
    (store_of 1 (mkSafetyData 2 1 0 0 None)) true)
    (Some (signer_of 1)) (Some (mkEpochState 2 verifier)).

Definition block_round5 : VoteProposal :=
  mkVoteProposal (mkAccumulatorExtensionProof [] 0 []) (mkBlock 25%positive (mkBlockData 2 5 0 qc_epoch2 (NilBlock [])) None) None true.

