(* ===== verification/RoundExample.v ===== *)
(** * Rounds of a concrete consensus system

    The validators of [ConsensusExample.v] vote in a round: their signature scheme is a
    correct one, and the votes of three of them certify a block. *)
From stdpp Require Import countable.
From S2P Require Import Prelude BitVec ValidatorVerifier U64 ConsensusData Certificates PendingVotes RoundState ConsensusExample.
Local Open Scope Z_scope.
Import Example.

(** ** The signature scheme *)

#[global] Instance bls_correct : BlsCorrect Signable.
Proof.
  split.
  - by eexists.
  - by eexists.
  - intros m ss ks ks' σ pk Hall Hperm [= <-] [= <-]. apply forallb_forall. intros x Hx.
    apply in_concat in Hx as (k & Hk & Hx). apply list_elem_of_In in Hk. rewrite -Hperm in Hk.
    apply list_elem_of_lookup in Hk as [i Hi]. destruct (Forall2_lookup_r _ _ _ _ _ Hall Hi) as (s & Hs & Hv).
    apply bool_decide_eq_true, list_elem_of_In, in_concat. exists s. split; [by eapply list_elem_of_In, list_elem_of_lookup_2|].
    cbn in Hv. apply list_elem_of_In. eapply bool_decide_eq_true, (proj1 (forallb_forall _ _) Hv x Hx).
  - intros ss mks mks' σ Hall Hperm [= <-]. cbn -[digest]. rewrite !length_fmap bool_decide_eq_true_2 // andb_true_l.
    rewrite zip_fst_snd. apply forallb_forall. intros [m k] Hin%list_elem_of_In. rewrite -Hperm in Hin.
    apply list_elem_of_lookup in Hin as [i Hi]. destruct (Forall2_lookup_r _ _ _ _ _ Hall Hi) as (s & Hs & Hv).
    apply forallb_forall. intros x Hx. apply bool_decide_eq_true, list_elem_of_In, in_concat.
    exists s. split; [by eapply list_elem_of_In, list_elem_of_lookup_2|].
    cbn -[digest] in Hv. apply list_elem_of_In. eapply bool_decide_eq_true, (proj1 (forallb_forall _ _) Hv x Hx).
Qed.

(** ** Votes of round 1 *)

Definition li_hash (li : LedgerInfo) : HashValue := encode li.

Definition vote_data1 (id : positive) : VoteData := mkVoteData (block_info 1 id) genesis.
Definition ledger_info1 (id : positive) : LedgerInfo := mkLedgerInfo genesis (vote_data_hash (vote_data1 id)).
Definition timeout1 : TwoChainTimeout := mkTwoChainTimeout 1 1 qc0.

Definition vote_of (a : Z) (id : positive) (timed_out : bool) : Vote :=
  mkVote (vote_data1 id) a (ledger_info1 id) [(a, digest (SLedgerInfo (ledger_info1 id)))]
    (if timed_out then Some (timeout1, [(a, digest (STimeout (signing_format timeout1)))]) else None).

(** The last validator votes twice, the first one times out after its vote. *)
Definition votes1 : list Vote :=
  [vote_of 4 12 false; vote_of 1 11 false; vote_of 4 11 false; vote_of 1 11 true; vote_of 2 11 true; vote_of 3 11 false].

Lemma votes1_ok : Forall (vote_ok verifier 1 1) votes1.
Proof. repeat (constructor; [split_and!; [vm_compute; reflexivity..|vm_compute; discriminate]|]). constructor. Qed.

Lemma no_collisions votes : no_collision li_hash votes.
Proof. intros v w _ _. apply encode_inj. Qed.

Lemma some_power : 0 < total_voting_power verifier.
Proof. reflexivity. Qed.

Lemma pending_votes_sound_witness :
  ∃ pv rs, insert_votes li_hash PendingVotes_new votes1 verifier = Ret (pv, rs) ∧ length rs = 6%nat.
Proof.
  destruct (pending_votes_sound li_hash verifier (VS_ok 1) some_power 1 1 votes1 votes1_ok (no_collisions votes1))
    as (pv & rs & Hrun & Hlen & _).
  exists pv, rs. split; [exact Hrun|exact Hlen].
Defined.

Lemma votes1_honest v w :
  v ∈ votes1 → w ∈ votes1 → v_author v ∈ [1; 2; 3] → v_author w = v_author v → v_ledger_info w = v_ledger_info v.
Proof.
  assert (Forall (λ v, Forall (λ w, v_author v ∈ [1; 2; 3] → v_author w = v_author v → v_ledger_info w = v_ledger_info v)
    votes1) votes1) as Hall by (apply (bool_decide_unpack _); vm_compute; exact I).
  intros Hv Hw. rewrite Forall_forall in Hall. specialize (Hall v Hv). rewrite Forall_forall in Hall. by apply Hall.
Qed.

Lemma votes1_quorum a : a ∈ [1; 2; 3] → ∃ v, v ∈ votes1 ∧ v_author v = a ∧ v_ledger_info v = ledger_info1 11.
Proof.
  intros [->|[->|[->|Ha%elem_of_nil]%elem_of_cons]%elem_of_cons]%elem_of_cons; [..|done].
  - exists (vote_of 1 11 false). split; [by apply (list_elem_of_lookup_2 votes1 1)|done].
  - exists (vote_of 2 11 true). split; [by apply (list_elem_of_lookup_2 votes1 4)|done].
  - exists (vote_of 3 11 false). split; [by apply (list_elem_of_lookup_2 votes1 5)|done].
Qed.

Lemma quorum_certified_witness :
  ∃ pv rs, insert_votes li_hash PendingVotes_new votes1 verifier = Ret (pv, rs) ∧
    ∃ qc, NewQuorumCertificate qc ∈ rs ∧ ledger_info (signed_ledger_info qc) = ledger_info1 11.
Proof.
  destruct (insert_votes_ok li_hash verifier (VS_ok 1) some_power 1 1 [] [] PendingVotes_new votes1) as (pv & rs & Hrun & _);
    [apply pv_inv_new|apply votes1_ok|apply no_collisions|].
  exists pv, rs. split; [exact Hrun|].
  apply (quorum_certified li_hash verifier (VS_ok 1) some_power 1 1 votes1 [1; 2; 3] pv rs);
    [apply votes1_ok|apply no_collisions|exact Hrun|vm_compute; discriminate|apply votes1_honest|].
  apply votes1_quorum.
Defined.

(** ** A round state *)

Definition one_second (_ : Z) : Z := 1000000000.

Definition sync0 : SyncInfo := SyncInfo_new qc0 qc0 None.
Definition sync1 : SyncInfo := SyncInfo_new qc1 qc0 None.

(** The validator starts in round 1. *)
Definition round1 : RoundState :=
  match process_certificates one_second (RoundState_new 0) sync0 0 with Ret (st, _) => st | Panic => RoundState_new 0 end.

Lemma one_second_ok i : 0 ≤ one_second i < 2 ^ 64 * 1000000.
Proof. split; vm_compute; [discriminate|reflexivity]. Qed.

Lemma sync_bounds : sync_ok sync0 ∧ sync_ok sync1.
Proof. split; split_and!; split; vm_compute; discriminate. Qed.

Lemma time_bounds : time_ok 0.
Proof. split; vm_compute; discriminate. Qed.

Lemma round1_reachable : reachable li_hash one_second verifier 1 [] round1.
Proof.
  apply (reach_start _ _ _ _ 0 sync0 0 round1 (Some (mkNewRoundEvent 1 QCReady 1000000000 [] None)));
    [apply sync_bounds|apply time_bounds|]. vm_compute. reflexivity.
Qed.

(** It receives a vote. *)
Lemma round1_voted : ∃ st, reachable li_hash one_second verifier 1 [vote_of 1 11 false] st ∧ current_round st = 1.
Proof.
  assert (verified_vote verifier 1 (vote_of 1 11 false)) as Hvote by (exact (Forall_lookup_1 _ _ 1 _ votes1_ok eq_refl)).
  destruct (RoundState_insert_vote_ok li_hash one_second verifier (VS_ok 1) some_power 1 one_second_ok [] round1 (vote_of 1 11 false))
    as (st & r & Hrun & _ & Hround & _);
    [apply (reachable_inv li_hash one_second verifier (VS_ok 1) some_power 1 one_second_ok), round1_reachable|exact Hvote|apply no_collisions|].
  exists st. split; [|exact Hround]. eapply (reach_vote _ _ _ _ []); [apply round1_reachable|exact Hvote|apply no_collisions|exact Hrun].
Qed.

Lemma rounds_increase_witness :
  ∃ st st' e, reachable li_hash one_second verifier 1 [vote_of 1 11 false] st ∧
    process_certificates one_second st sync1 0 = Ret (st', Some e) ∧ nr_round e = 2 ∧ nr_reason e = QCReady.
Proof.
  destruct round1_voted as (st & Hreach & Hst).
  destruct (rounds_increase li_hash one_second verifier (VS_ok 1) some_power 1 one_second_ok [vote_of 1 11 false] st Hreach) as [Hcert _].
  destruct (Hcert sync1 0 (proj2 sync_bounds) time_bounds) as (st' & ev & Hrun & Hres).
  rewrite Hst in Hres. destruct Hres as (_ & Hround & e & -> & Hr & Hreason).
  exists st, st', e. split; [exact Hreach|]. split; [exact Hrun|].
  split; [rewrite Hr Hround; reflexivity|]. apply Hreason. rewrite Hround. reflexivity.
Defined.
