(* ===== verification/BlockTreeExample.v ===== *)
(** * A concrete block tree

    A tree over the blocks of [ConsensusExample.v]: a fork, the commit of one side of it, and a
    block that arrives for the other side. *)
From S2P Require Import Prelude BitVec ValidatorVerifier U64 ConsensusData Certificates PendingVotes RoundState BlockTree SafetyRules ConsensusExample.
Local Open Scope Z_scope.
Import Example.

Module Fork.

#[global] Instance compute : StateCompute := {
  StateComputeResult := unit;
  root_hash _ := 2%positive;
  compute_version _ := 0;
  compute_epoch_state _ := None;
}.

Definition hash_iter (s : gset HashValue) : list HashValue := elements s.

Definition block_of (id : HashValue) (round : Round) (qc : QuorumCert) : Block :=
  mkBlock id (mkBlockData 1 round 0 qc (NilBlock [])) None.

(** Blocks 11 and 12 extend the genesis 10; 20 is a fork and 21 extends it. *)
Definition qc20 : QuorumCert := certify (mkVoteData (block_info 2 20%positive) genesis) genesis.
Definition block11 : Block := block_of 11%positive 1 qc0.
Definition block12 : Block := block_of 12%positive 2 qc1.
Definition block20 : Block := block_of 20%positive 2 qc0.
Definition block21 : Block := block_of 21%positive 5 qc20.

(** The parents and rounds the ids stand for. *)
Definition links : gmap HashValue (HashValue * Round) :=
  list_to_map [(11%positive, (10%positive, 1)); (12%positive, (11%positive, 2)); (20%positive, (10%positive, 2));
    (21%positive, (20%positive, 5))].
Definition par (id : HashValue) : HashValue := match links !! id with Some (p, _) => p | None => id end.
Definition rnd (id : HashValue) : Round := match links !! id with Some (_, r) => r | None => 0 end.

Definition root_block : ExecutedBlock := mkExecutedBlock (block_of 10%positive 0 qc0) tt.

Definition after {A} (r : comp (BlockTree * A)) (t : BlockTree) : BlockTree := match r with Ret (t', _) => t' | Panic => t end.
Definition after_insert (t : BlockTree) (b : Block) : BlockTree :=
  after (execute_and_insert_block t b (Ok tt) (Ok tt)) t.

Definition t0 : BlockTree :=
  mkBlockTree {[10%positive := mkLinkableBlock root_block ∅]} 10%positive 10%positive 10%positive qc0 None qc0 qc0 {[10%positive := qc0]} [] 10.
Definition t1 : BlockTree := foldl after_insert t0 [block11; block20; block12].
Definition t2 : BlockTree := after (insert_single_quorum_cert t1 qc1 (Ok tt)) t1.
Definition t3 : BlockTree := after (insert_single_quorum_cert t2 qc2 (Ok tt)) t2.
Definition t4 : BlockTree := after (commit t3 qc2) t3.
Definition batch : list ExecutedBlock := [mkExecutedBlock block11 tt].
Definition t5 : BlockTree :=
  match commit_callback hash_iter t4 batch qc2 (signed_ledger_info qc2) with Ret t => t | Panic => t4 end.

Lemma rnd_par x : 0 ≤ rnd x ∧ rnd (par x) ≤ rnd x ∧ (0 < rnd x → rnd (par x) < rnd x).
Proof.
  assert (map_Forall (λ _ l, (0 <? l.2) && (rnd l.1 <? l.2) = true) links) as Hall
    by (apply (bool_decide_unpack _); vm_compute; exact I).
  unfold rnd at 1 3 4 6. unfold par. destruct (links !! x) as [[p r]|] eqn:Hx; [|unfold rnd; rewrite Hx; lia].
  specialize (Hall x (p, r) Hx). cbn in Hall. apply andb_true_iff in Hall as [?%Z.ltb_lt ?%Z.ltb_lt]. lia.
Qed.

Notation reachable := (store_reachable hash_iter par rnd).

Lemma after_insert_reachable t ps b : reachable t ps → known par rnd (mkExecutedBlock b tt) → reachable (after_insert t b) ps.
Proof.
  intros Ht Hb. unfold after_insert, after. destruct (execute_and_insert_block _ _ _ _) as [[t' r]|] eqn:H; [|done].
  eapply reach_block; [exact Ht| |exact H]. by intros [] _.
Qed.

Lemma after_qc_reachable t ps qc :
  reachable t ps → qc_agrees par rnd t qc → reachable (after (insert_single_quorum_cert t qc (Ok tt)) t) ps.
Proof.
  intros Ht Hqc. unfold after. destruct (insert_single_quorum_cert _ _ _) as [[t' r]|] eqn:H; [|done]. by eapply reach_qc.
Qed.

Lemma t1_reachable : reachable t1 [].
Proof.
  unfold t1. cbn [foldl]. do 3 (apply after_insert_reachable; [|split; reflexivity]).
  apply (reach_new _ _ _ root_block qc0 qc0 qc0 10 None); [split; reflexivity|reflexivity|reflexivity|reflexivity|reflexivity].
Qed.

Lemma t4_reachable : reachable t4 [(batch, qc2)].
Proof.
  apply (reach_order _ _ _ t3 [] qc2 t4 (Ok batch)).
  - apply after_qc_reachable; [apply after_qc_reachable; [apply t1_reachable|]|].
    + intros _ _. apply desc_par, desc_refl.
    + intros _ _. apply desc_par, desc_par, desc_refl.
  - split; [reflexivity|]. intros _ _. split; apply desc_par, desc_refl.
  - vm_compute. reflexivity.
Qed.

Lemma t5_commit : commit_callback hash_iter t4 batch qc2 (signed_ledger_info qc2) = Ret t5.
Proof. vm_compute. reflexivity. Qed.

Lemma t5_reachable : reachable t5 [].
Proof. apply (reach_commit _ _ _ t4 [] batch qc2 (signed_ledger_info qc2)); [apply t4_reachable|reflexivity|apply t5_commit]. Qed.
End Fork.
Import Fork.



(** A block below the pruned fork is accepted, and is not in reach of any later commit. *)
Lemma orphan_inserted :
  pruned_block_ids t5 = [10; 20]%positive ∧
  is_Some (id_to_block (after_insert t5 block21) !! 21%positive) ∧
  ¬ desc Fork.par (commit_root_id (after_insert t5 block21)) 21%positive ∧
  21%positive ∉ pruned_block_ids (after_insert t5 block21).
Proof.
  split_and!; [vm_compute; reflexivity|vm_compute; by eexists| |].
  - assert (commit_root_id (after_insert t5 block21) = 11%positive) as -> by (vm_compute; reflexivity).
    do 3 (intros [?|Hd]%desc_inv; [done|]; revert Hd; vm_compute Fork.par). intros Hd.
    pose proof (desc_round Fork.par Fork.rnd Fork.rnd_par _ _ Hd) as Hr. vm_compute in Hr. by destruct Hr.
  - vm_compute. by intros [?|[?|?%elem_of_nil]%elem_of_cons]%elem_of_cons.
Qed.
