(* ===== verification/SchemaDb.v ===== *)
(** * Columns

    A column of the database with [u64] keys, stored big-endian, as a finite map from
    numbers: the iterators of [storage/schemadb/src/iterator.rs] and, of
    [storage/aptosdb/src/utils/iterators.rs], the one that expects consecutive versions.
    RocksDB is taken to keep its keys in order and to write batches atomically; reads and
    writes of the disk do not fail.  Columns whose keys are the numbers from 0 on are
    arrays. *)
From S2P Require Import Prelude U64.
Local Open Scope Z_scope.

(** ** Columns and their iterators *)

Section column.
Context {V : Type}.

(** [SchemaIterator] after [seek]: the rows it yields, in key order. *)
Definition seek (m : gmap Z V) (key : Z) : list (Z * V) := filter (λ kv, key ≤ kv.1) (btree_iter m).

(** The row under the iterator after [seek_for_prev] and after [seek_to_last]. *)
Definition seek_for_prev (m : gmap Z V) (key : Z) : option (Z * V) :=
  last (filter (λ kv, kv.1 ≤ key) (btree_iter m)).
Definition seek_to_last (m : gmap Z V) : option (Z * V) := last (btree_iter m).

(** [struct ContinuousVersionIter]. *)
Record ContinuousVersionIter : Type := mkContinuousVersionIter {
  cv_inner : list (Z * V);
  expected_next_version : Z;
  end_version : Z;
}.

Definition expect_continuous_versions (inner : list (Z * V)) (first_version limit : Z) :
    result unit ContinuousVersionIter :=
  match u64_checked_add first_version limit with
  | Some end_version => Ok (mkContinuousVersionIter inner first_version end_version)
  | None => Err tt
  end.

Definition continuous_next (self : ContinuousVersionIter) :
    ContinuousVersionIter * result unit (option V) :=
  if end_version self <=? expected_next_version self then (self, Ok None) else
  match cv_inner self with
  | [] => (self, Ok None)
  | (version, transaction) :: inner =>
      if version =? expected_next_version self
      then (mkContinuousVersionIter inner (expected_next_version self + 1) (end_version self),
            Ok (Some transaction))
      else (mkContinuousVersionIter inner (expected_next_version self) (end_version self), Err tt)
  end.

(** [collect::<Result<Vec<_>>>()]; every item takes a row, so the rows bound the calls. *)
Fixpoint continuous_collect (fuel : nat) (self : ContinuousVersionIter) : result unit (list V) :=
  match fuel with
  | O => Ok []
  | S fuel' =>
      match continuous_next self with
      | (_, Err e) => Err e
      | (_, Ok None) => Ok []
      | (self', Ok (Some x)) => xs ← continuous_collect fuel' self'; Ok (x :: xs)
      end
  end.
End column.

Lemma filter_Forall {A} (P : A → Prop) `{∀ x, Decision (P x)} (l : list A) : Forall P l → filter P l = l.
Proof. induction 1 as [|x l Hx _ IH]; [done|]. by rewrite filter_cons decide_True // IH. Qed.

(** The last of the rows of a column that satisfy a condition is the one with the largest
    key. *)
Lemma last_row {V} (m : gmap Z V) (P : Z * V → Prop) `{∀ x, Decision (P x)} k v :
  last (filter P (btree_iter m)) = Some (k, v) ↔
  m !! k = Some v ∧ P (k, v) ∧ ∀ k' v', m !! k' = Some v' → P (k', v') → k' ≤ k.
Proof.
  set (rows := filter P (btree_iter m)).
  assert (∀ k v, (k, v) ∈ rows ↔ P (k, v) ∧ m !! k = Some v) as Hin.
  { intros. unfold rows. by rewrite list_elem_of_filter elem_of_btree_iter. }
  assert (∀ k v, last rows = Some (k, v) → (k, v) ∈ rows ∧ ∀ k' v', (k', v') ∈ rows → k' ≤ k) as Hlast.
  { clear k v. intros k v Hl. split; [by apply last_Some_elem_of|]. apply last_Some in Hl as [l Hl]. intros k' v' Hk'.
    assert (StronglySorted entry_le rows) as Hs by (unfold rows; auto with rust).
    rewrite Hl in Hs, Hk'. apply elem_of_app in Hk' as [Hk'|[= -> ->]%list_elem_of_singleton]; [|lia].
    refine (StronglySorted_app_1_elem_of entry_le _ _ (k', v') (k, v) Hs Hk' _). by apply list_elem_of_singleton. }
  split.
  - intros [Hk Hmax]%Hlast. apply Hin in Hk as [HP Hk]. split_and!; [done|done|].
    intros k' v' Hk' HP'. by apply (Hmax k' v'), Hin.
  - intros (Hk & HP & Hmax). assert ((k, v) ∈ rows) as Hkv by by apply Hin.
    destruct (last rows) as [[k' v']|] eqn:Hl; [|apply last_None in Hl; rewrite Hl in Hkv; by apply elem_of_nil in Hkv].
    destruct (Hlast _ _ eq_refl) as [Hk' Hmax']. apply Hmax' in Hkv. apply Hin in Hk' as [HP' Hk'].
    assert (k' = k) as -> by (apply Z.le_antisymm; [by apply (Hmax k' v')|done]). congruence.
Qed.

Lemma seek_to_last_Some {V} (m : gmap Z V) k v :
  seek_to_last m = Some (k, v) ↔ m !! k = Some v ∧ ∀ k', is_Some (m !! k') → k' ≤ k.
Proof.
  unfold seek_to_last. rewrite -(filter_Forall (λ _, True) (btree_iter m)); [by apply Forall_forall|].
  rewrite last_row. unfold is_Some. naive_solver.
Qed.

Lemma seek_for_prev_Some {V} (m : gmap Z V) key k v :
  seek_for_prev m key = Some (k, v) ↔
  m !! k = Some v ∧ k ≤ key ∧ ∀ k', is_Some (m !! k') → k' ≤ key → k' ≤ k.
Proof. unfold seek_for_prev. rewrite last_row. unfold is_Some. cbn. naive_solver. Qed.

(** ** Columns that are arrays *)

Section arrays.
Context {V : Type}.
Implicit Types (xs : list V).

Definition rows (start : Z) xs : list (Z * V) := zip (seqZ start (Z.of_nat (length xs))) xs.

Lemma rows_cons start x xs : rows start (x :: xs) = (start, x) :: rows (start + 1) xs.
Proof. unfold rows. rewrite seqZ_cons; [cbn; lia|]. cbn [zip zip_with]. do 3 f_equal. cbn; lia. Qed.

Lemma elem_of_rows start xs k v :
  (k, v) ∈ rows start xs ↔ start ≤ k ∧ xs !! Z.to_nat (k - start) = Some v.
Proof.
  revert start; induction xs as [|x xs IH]; intros start.
  { rewrite lookup_nil. cbn. rewrite elem_of_nil. naive_solver. }
  rewrite rows_cons elem_of_cons IH. split.
  - intros [[= -> ->]|[Hle Hk]]; [rewrite Z.sub_diag; split; [lia|done]|]. split; [lia|].
    by replace (Z.to_nat (k - start)) with (S (Z.to_nat (k - (start + 1)))) by lia.
  - intros [Hle Hk]. destruct (decide (k = start)) as [->|Hne].
    + rewrite Z.sub_diag in Hk. injection Hk as ->. by left.
    + right. split; [lia|]. by replace (Z.to_nat (k - start)) with (S (Z.to_nat (k - (start + 1)))) in Hk by lia.
Qed.

Lemma rows_sorted start xs : StronglySorted entry_le (rows start xs).
Proof.
  revert start; induction xs as [|x xs IH]; intros start; [constructor|]. rewrite rows_cons.
  constructor; [apply IH|]. apply Forall_forall. intros [k v] [Hk _]%elem_of_rows. change (start ≤ k). lia.
Qed.

Lemma rows_NoDup start xs : NoDup (rows start xs).
Proof.
  revert start; induction xs as [|x xs IH]; intros start; [constructor|]. rewrite rows_cons.
  constructor; [|apply IH]. intros [Hk _]%elem_of_rows. lia.
Qed.

Lemma btree_iter_array xs : btree_iter (map_seqZ 0 xs : gmap Z V) = rows 0 xs.
Proof.
  apply (StronglySorted_unique_strong entry_le).
  - intros [k v] [k' v'] H1%elem_of_btree_iter H2%elem_of_rows Hle Hge. change (k ≤ k') in Hle. change (k' ≤ k) in Hge.
    assert (k = k') as -> by lia. apply lookup_map_seqZ_Some in H1. f_equal. naive_solver.
  - apply btree_iter_sorted.
  - apply rows_sorted.
  - rewrite btree_iter_perm. apply NoDup_Permutation; [apply NoDup_map_to_list|apply rows_NoDup|].
    intros [k v]. rewrite elem_of_map_to_list elem_of_rows. apply lookup_map_seqZ_Some.
Qed.

Lemma seek_to_last_array xs x : seek_to_last (map_seqZ 0 (xs ++ [x]) : gmap Z V) = Some (Z.of_nat (length xs), x).
Proof.
  unfold seek_to_last. rewrite btree_iter_array.
  assert (∀ start, last (rows start (xs ++ [x])) = Some (start + Z.of_nat (length xs), x)) as Hlast; [|by rewrite Hlast].
  induction xs as [|y xs IH]; intros start; cbn [app length].
  - by rewrite rows_cons Z.add_0_r.
  - rewrite rows_cons last_cons IH. by replace (start + 1 + Z.of_nat (length xs)) with (start + Z.of_nat (S (length xs))) by lia.
Qed.

Lemma filter_rows start k xs :
  start ≤ k → filter (λ kv, k ≤ kv.1) (rows start xs) = rows k (drop (Z.to_nat (k - start)) xs).
Proof.
  revert start; induction xs as [|x xs IH]; intros start Hk; [by rewrite drop_nil|]. rewrite rows_cons filter_cons.
  case_decide as Hle; cbn in Hle.
  - assert (start = k) as -> by lia. rewrite Z.sub_diag. cbn [Z.to_nat drop]. rewrite rows_cons. f_equal.
    apply filter_Forall. apply Forall_forall. intros [k' v] [Hk' _]%elem_of_rows. cbn. lia.
  - rewrite IH; [lia|]. by replace (Z.to_nat (k - start)) with (S (Z.to_nat (k - (start + 1)))) by lia.
Qed.

Lemma seek_array xs k : 0 ≤ k → seek (map_seqZ 0 xs : gmap Z V) k = rows k (drop (Z.to_nat k) xs).
Proof. intros Hk. unfold seek. rewrite btree_iter_array filter_rows //. by rewrite Z.sub_0_r. Qed.

(** Deleting the end of an array. *)
Lemma lookup_foldl_delete (m : gmap Z V) ks i :
  foldl (λ m k, delete k m) m ks !! i = if decide (i ∈ ks) then None else m !! i.
Proof.
  revert m; induction ks as [|k ks IH]; intros m; cbn [foldl]; [done|]. rewrite IH.
  destruct (decide (i ∈ ks)) as [Hin|Hnot]; [rewrite decide_True //; by right|].
  destruct (decide (i = k)) as [->|Hne].
  - rewrite lookup_delete_eq decide_True //. by left.
  - rewrite lookup_delete_ne // decide_False //. rewrite elem_of_cons. naive_solver.
Qed.

Lemma delete_end xs ys :
  foldl (λ m k, delete k m) (map_seqZ 0 (xs ++ ys) : gmap Z V) (seqZ (Z.of_nat (length xs)) (Z.of_nat (length ys)))
  = map_seqZ 0 xs.
Proof.
  apply map_eq. intros i. rewrite lookup_foldl_delete. case_decide as Hin; rewrite elem_of_seqZ in Hin.
  - symmetry. apply lookup_map_seqZ_None. lia.
  - destruct (decide (0 ≤ i < Z.of_nat (length xs))) as [Hi|Hi].
    + rewrite !lookup_map_seqZ_0; [lia..|]. by rewrite lookup_app_l; [lia|].
    + etrans; [|symmetry]; apply lookup_map_seqZ_None; rewrite ?length_app; lia.
Qed.
End arrays.
