(* ===== verification/LedgerStore.v ===== *)
(** * The ledger store

    Models [storage/aptosdb/src/ledger_store/mod.rs], the part of the database that holds
    the transaction accumulator and the ledger infos, with the codec of
    [schema/transaction_accumulator/mod.rs] and the batches of [storage/schemadb].  The store of a list of transactions has their
    infos and, by post-order number, the frozen nodes of their accumulator. *)
From S2P Require Import Prelude U64 Position FrozenSubtrees Accumulator AccumulatorProof MerkleAccumulator ValidatorVerifier ConsensusData SchemaDb.
Local Open Scope Z_scope.

(** ** Transaction infos *)

(** [TransactionInfoV0]. *)
Record TransactionInfoV0 (HashValue ExecutionStatus : Type) : Type := mkTransactionInfo {
  gas_used : Z;
  status : ExecutionStatus;
  transaction_hash : HashValue;
  event_root_hash : HashValue;
  state_change_hash : HashValue;
  state_checkpoint_hash : option HashValue;
  state_cemetery_hash : option HashValue;
}.
Arguments mkTransactionInfo {_ _}.
Arguments state_checkpoint_hash {_ _}.

(** The statuses of the virtual machine, and [CryptoHash] for transaction infos. *)
Class TransactionInfos (HashValue : Type) : Type := {
  ExecutionStatus : Type;
  TransactionInfo_hash : TransactionInfoV0 HashValue ExecutionStatus → HashValue;
}.

(** [enum TransactionInfo] has the one version. *)
Notation TransactionInfo := (TransactionInfoV0 HashValue ExecutionStatus).

Definition is_state_checkpoint {H S} (self : TransactionInfoV0 H S) : bool :=
  bool_decide (is_Some (state_checkpoint_hash self)).

Section store.
Context `{CT : ConsensusTypes, CE : !ConsensusEnv, TI : !TransactionInfos HashValue}.
Local Notation TransactionAccumulatorProof := (@AccumulatorProof.AccumulatorProof HashValue).
Local Notation TransactionAccumulatorRangeProof := (@AccumulatorRangeProof HashValue).
Local Notation AccumulatorConsistencyProof := (@AccumulatorConsistencyProof HashValue).

(** ** The database *)

(** The columns of the ledger database the store uses, and the two entries of its
    metadata that track commits. *)
Record DB : Type := mkDB {
  transaction_info : gmap Z TransactionInfo;
  transaction_accumulator : gmap Z HashValue;
  ledger_info_by_epoch : gmap Z LedgerInfoWithSignatures;
  epoch_by_version : gmap Z Z;
  ledger_commit_progress : option Z;
  overall_commit_progress : option Z;
}.

Definition empty_db : DB := mkDB ∅ ∅ ∅ ∅ None None.

Inductive WriteOp : Type :=
  | PutTransactionInfo (version : Z) (info : TransactionInfo)
  | PutTransactionAccumulator (index : Z) (hash : HashValue)
  | PutLedgerInfo (epoch : Z) (li : LedgerInfoWithSignatures)
  | PutEpochByVersion (version epoch : Z)
  | PutLedgerCommitProgress (version : Z)
  | PutOverallCommitProgress (version : Z)
  | DeleteTransactionInfo (version : Z)
  | DeleteTransactionAccumulator (index : Z)
  | DeleteLedgerInfo (epoch : Z)
  | DeleteEpochByVersion (version : Z).

Definition SchemaBatch : Type := list WriteOp.

Definition with_infos (f : gmap Z TransactionInfo → gmap Z TransactionInfo) (d : DB) : DB :=
  mkDB (f (transaction_info d)) (transaction_accumulator d) (ledger_info_by_epoch d) (epoch_by_version d)
    (ledger_commit_progress d) (overall_commit_progress d).
Definition with_accumulator (f : gmap Z HashValue → gmap Z HashValue) (d : DB) : DB :=
  mkDB (transaction_info d) (f (transaction_accumulator d)) (ledger_info_by_epoch d) (epoch_by_version d)
    (ledger_commit_progress d) (overall_commit_progress d).
Definition with_ledger_infos
    (f : gmap Z LedgerInfoWithSignatures → gmap Z LedgerInfoWithSignatures) (d : DB) : DB :=
  mkDB (transaction_info d) (transaction_accumulator d) (f (ledger_info_by_epoch d)) (epoch_by_version d)
    (ledger_commit_progress d) (overall_commit_progress d).
Definition with_epochs (f : gmap Z Z → gmap Z Z) (d : DB) : DB :=
  mkDB (transaction_info d) (transaction_accumulator d) (ledger_info_by_epoch d) (f (epoch_by_version d))
    (ledger_commit_progress d) (overall_commit_progress d).
Definition with_progress (ledger overall : option Z) (d : DB) : DB :=
  mkDB (transaction_info d) (transaction_accumulator d) (ledger_info_by_epoch d) (epoch_by_version d)
    ledger overall.

Definition apply_op (d : DB) (op : WriteOp) : DB :=
  match op with
  | PutTransactionInfo v info => with_infos <[v := info]> d
  | PutTransactionAccumulator k h => with_accumulator <[k := h]> d
  | PutLedgerInfo e li => with_ledger_infos <[e := li]> d
  | PutEpochByVersion v e => with_epochs <[v := e]> d
  | PutLedgerCommitProgress v => with_progress (Some v) (overall_commit_progress d) d
  | PutOverallCommitProgress v => with_progress (ledger_commit_progress d) (Some v) d
  | DeleteTransactionInfo v => with_infos (delete v) d
  | DeleteTransactionAccumulator k => with_accumulator (delete k) d
  | DeleteLedgerInfo e => with_ledger_infos (delete e) d
  | DeleteEpochByVersion v => with_epochs (delete v) d
  end.

(** [DB::write_schemas]: the updates in the order in which they were added. *)
Definition write_schemas (db : DB) (batch : SchemaBatch) : DB := foldl apply_op db batch.

(** The key of an accumulator node is its post-order number. *)
Definition encode_key (position : Position) : comp Z := to_postorder_index position.
Definition decode_key (index : Z) : comp (result unit Position) := from_postorder_index index.

Definition put_transaction_accumulator (batch : SchemaBatch) (pos : Position) (hash : HashValue) :
    comp SchemaBatch :=
  key ← encode_key pos; Ret (batch ++ [PutTransactionAccumulator key hash]).

Record LedgerStore : Type := mkLedgerStore {
  db : DB;
  latest_ledger_info : option LedgerInfoWithSignatures;
}.

#[global] Instance LedgerStore_reader : HashReader LedgerStore HashValue := λ self position,
  key ← encode_key position;
  Ret (match transaction_accumulator (db self) !! key with Some h => Ok h | None => Err tt end).

(** [Accumulator::f(self, num_leaves, ..)] makes a view of the store. *)
Definition view (self : LedgerStore) (num_leaves : Z) : MerkleAccumulatorView := mkView self num_leaves.

(** [LedgerStore::new]. *)
Definition LedgerStore_new (db : DB) : LedgerStore :=
  mkLedgerStore db (snd <$> seek_to_last (ledger_info_by_epoch db)).

(** ** Epochs and ledger infos *)

Definition next_block_epoch (self : BlockInfo) : Z :=
  match next_epoch_state self with Some es => es_epoch es | None => bi_epoch self end.

Definition get_epoch (self : LedgerStore) (version : Z) : comp (result unit Z) :=
  match seek_for_prev (epoch_by_version (db self)) version with
  | None => Ret (Ok 0)
  | Some (epoch_end_version, epoch) =>
      if negb (epoch_end_version <=? version) then Ret (Err tt) else
      if epoch_end_version <? version then Ok <$> u64_add epoch 1 else Ret (Ok epoch)
  end.

(** [o.ok_or_else(..)]. *)
Definition ok_or {T} (o : option T) : result unit T := match o with Some x => Ok x | None => Err tt end.

Definition get_latest_ledger_info_in_epoch (self : LedgerStore) (epoch : Z) :
    result unit LedgerInfoWithSignatures :=
  ok_or (ledger_info_by_epoch (db self) !! epoch).

Definition get_epoch_ending_ledger_info (self : LedgerStore) (version : Z) :
    comp (result unit LedgerInfoWithSignatures) :=
  r ← get_epoch self version;
  Ret (epoch ← r;
       li ← ok_or (ledger_info_by_epoch (db self) !! epoch);
       let info := commit_info (ledger_info li) in
       if negb (bi_version info =? version) then Err tt else
       _ ← ok_or (next_epoch_state info);
       Ok li).

Definition get_latest_ledger_info_option (self : LedgerStore) : option LedgerInfoWithSignatures :=
  latest_ledger_info self.
Definition get_latest_ledger_info (self : LedgerStore) : result unit LedgerInfoWithSignatures :=
  ok_or (get_latest_ledger_info_option self).
Definition set_latest_ledger_info (self : LedgerStore) (li : LedgerInfoWithSignatures) : LedgerStore :=
  mkLedgerStore (db self) (Some li).

Definition get_epoch_state (self : LedgerStore) (epoch : Z) : result unit EpochState :=
  if negb (0 <? epoch) then Err tt else
  li ← ok_or (ledger_info_by_epoch (db self) !! (epoch - 1));
  ok_or (next_epoch_state (commit_info (ledger_info li))).

Definition ensure_epoch_ending (self : LedgerStore) (version : Z) : result unit unit :=
  _ ← ok_or (epoch_by_version (db self) !! version); Ok tt.

(** [EpochEndingLedgerInfoIter::next_impl]. *)
Record EpochEndingLedgerInfoIter : Type := mkEpochIter {
  ei_inner : list (Z * LedgerInfoWithSignatures);
  next_epoch : Z;
  end_epoch : Z;
}.

Definition epoch_iter_next (self : EpochEndingLedgerInfoIter) :
    EpochEndingLedgerInfoIter * result unit (option LedgerInfoWithSignatures) :=
  if end_epoch self <=? next_epoch self then (self, Ok None) else
  match ei_inner self with
  | [] => (self, Ok None)
  | (epoch, li) :: inner =>
      if negb (ends_epoch (ledger_info li))
      then (mkEpochIter inner (next_epoch self) (end_epoch self), Ok None)
      else if epoch =? next_epoch self
      then (mkEpochIter inner (next_epoch self + 1) (end_epoch self), Ok (Some li))
      else (mkEpochIter inner (next_epoch self) (end_epoch self), Err tt)
  end.

Fixpoint epoch_iter_collect (fuel : nat) (self : EpochEndingLedgerInfoIter) :
    result unit (list LedgerInfoWithSignatures) :=
  match fuel with
  | O => Ok []
  | S fuel' =>
      match epoch_iter_next self with
      | (_, Err e) => Err e
      | (_, Ok None) => Ok []
      | (self', Ok (Some li)) => lis ← epoch_iter_collect fuel' self'; Ok (li :: lis)
      end
  end.

Definition get_epoch_ending_ledger_info_iter (self : LedgerStore) (start_epoch end_epoch : Z) :
    EpochEndingLedgerInfoIter :=
  mkEpochIter (seek (ledger_info_by_epoch (db self)) start_epoch) start_epoch end_epoch.

Definition put_ledger_info (li : LedgerInfoWithSignatures) (batch : SchemaBatch) : SchemaBatch :=
  let info := commit_info (ledger_info li) in
  let batch := if ends_epoch (ledger_info li)
               then batch ++ [PutEpochByVersion (bi_version info) (bi_epoch info)] else batch in
  batch ++ [PutLedgerInfo (bi_epoch info) li].

(** ** Transaction infos and their accumulator *)

Definition get_transaction_info (self : LedgerStore) (version : Z) : result unit TransactionInfo :=
  ok_or (transaction_info (db self) !! version).

Definition get_latest_transaction_info_option (self : LedgerStore) : option (Z * TransactionInfo) :=
  seek_to_last (transaction_info (db self)).
Definition get_latest_transaction_info (self : LedgerStore) : result unit (Z * TransactionInfo) :=
  ok_or (get_latest_transaction_info_option self).

Definition get_transaction_info_iter (self : LedgerStore) (start_version num_transaction_infos : Z) :
    result unit ContinuousVersionIter :=
  expect_continuous_versions (seek (transaction_info (db self)) start_version)
    start_version num_transaction_infos.

Definition get_frozen_subtree_hashes (self : LedgerStore) (num_transactions : Z) :
    comp (result unit (list HashValue)) :=
  MerkleAccumulator.get_frozen_subtree_hashes (view self num_transactions).

Definition get_transaction_proof (self : LedgerStore) (version ledger_version : Z) :
    comp (result unit TransactionAccumulatorProof) :=
  num_leaves ← u64_add ledger_version 1;
  get_proof (view self num_leaves) version.

Definition get_transaction_info_with_proof (self : LedgerStore) (version ledger_version : Z) :
    comp (result unit (TransactionAccumulatorProof * TransactionInfo)) :=
  r ← get_transaction_proof self version ledger_version;
  Ret (proof ← r; info ← get_transaction_info self version; Ok (proof, info)).

Definition get_transaction_range_proof (self : LedgerStore) (start_version : option Z)
    (num_txns ledger_version : Z) : comp (result unit TransactionAccumulatorRangeProof) :=
  num_leaves ← u64_add ledger_version 1;
  get_range_proof (view self num_leaves) start_version num_txns.

Definition get_consistency_proof (self : LedgerStore) (client_known_version : option Z)
    (ledger_version : Z) : comp (result unit AccumulatorConsistencyProof) :=
  let client_known_num_leaves :=
    match client_known_version with Some v => u64_saturating_add v 1 | None => 0 end in
  let ledger_num_leaves := u64_saturating_add ledger_version 1 in
  MerkleAccumulator.get_consistency_proof (view self ledger_num_leaves) client_known_num_leaves.

Definition get_root_hash (self : LedgerStore) (version : Z) : comp (result unit HashValue) :=
  num_leaves ← u64_add version 1;
  MerkleAccumulator.get_root_hash (view self num_leaves).

(** [(first_version..).zip_eq(txn_infos)] put into the batch. *)
Fixpoint put_infos (version : Z) (txn_infos : list TransactionInfo) (batch : SchemaBatch) : SchemaBatch :=
  match txn_infos with
  | [] => batch
  | txn_info :: rest => put_infos (version + 1) rest (batch ++ [PutTransactionInfo version txn_info])
  end.

Fixpoint put_nodes (writes : list (Position * HashValue)) (batch : SchemaBatch) : comp SchemaBatch :=
  match writes with
  | [] => Ret batch
  | (pos, hash) :: rest => batch ← put_transaction_accumulator batch pos hash; put_nodes rest batch
  end.

(** The batch of a failed call is dropped by its callers. *)
Definition put_transaction_infos (self : LedgerStore) (first_version : Z)
    (txn_infos : list TransactionInfo) (batch : SchemaBatch) : comp (result unit (HashValue * SchemaBatch)) :=
  _ ← u64_add first_version (Z.of_nat (length txn_infos));
  let batch := put_infos first_version txn_infos batch in
  let txn_hashes := TransactionInfo_hash <$> txn_infos in
  r ← view_append (view self first_version) txn_hashes;
  try r (λ '(root_hash, writes),
    batch ← put_nodes writes batch;
    Ret (Ok (root_hash, batch))).

(** ** The store of a list of transactions *)

(** The frozen nodes of the accumulator, in post-order. *)
Definition frozen_rows (leaves : list HashValue) : list HashValue :=
  hashes leaves (completed 0 (length leaves)).

(** The columns hold the transactions, and their accumulator as an array of its frozen
    nodes. *)
Definition holds (d : DB) (infos : list TransactionInfo) : Prop :=
  transaction_info d = map_seqZ 0 infos ∧
  transaction_accumulator d = map_seqZ 0 (frozen_rows (TransactionInfo_hash <$> infos)).

(** The other columns. *)
Definition same_epochs (d d' : DB) : Prop :=
  ledger_info_by_epoch d' = ledger_info_by_epoch d ∧ epoch_by_version d' = epoch_by_version d ∧
  ledger_commit_progress d' = ledger_commit_progress d ∧ overall_commit_progress d' = overall_commit_progress d.

#[global] Instance same_epochs_preorder : PreOrder same_epochs.
Proof.
  split; [done|]. intros d1 d2 d3 (H1 & H2 & H3 & H4) (H5 & H6 & H7 & H8). unfold same_epochs. by rewrite H5 H6 H7 H8.
Qed.

Lemma completed_app m (j k : nat) :
  completed m (j + k) = completed m j ++ completed (m + Z.of_nat j) k.
Proof.
  revert m; induction j as [|j IH]; intros m; cbn [completed Nat.add app]; [by rewrite Z.add_0_r|].
  rewrite IH app_assoc. do 2 f_equal. lia.
Qed.

Lemma completed_length m (k : nat) :
  0 ≤ m → m + Z.of_nat k ≤ 2 ^ 63 →
  Z.of_nat (length (completed m k)) = frozen_nodes (m + Z.of_nat k) - frozen_nodes m.
Proof.
  intros Hm Hk. destruct (completed_post m k) as [Heq Hle]; [done..|].
  apply (f_equal length) in Heq. rewrite length_fmap length_seqZ in Heq. lia.
Qed.

(** The nodes completed after [m] leaves have the next numbers. *)
Lemma completed_rows m (k : nat) :
  0 ≤ m → m + Z.of_nat k ≤ 2 ^ 63 →
  (λ '(l, p), post l p) <$> completed m k = seqZ (frozen_nodes m) (Z.of_nat (length (completed m k))).
Proof. intros Hm Hk. rewrite completed_length //. by apply completed_post. Qed.

Lemma within_coord n l p : within n (l, p) → n < 2 ^ 63 → coord l p ∧ (l < 63)%nat.
Proof.
  intros [Hp Hw] Hn; cbn in *. pose proof (pow2_gt0 l).
  assert (l < 63)%nat as Hl.
  { destruct (decide (l < 63)%nat) as [|Hge]; [done|]. exfalso.
    assert (2 ^ 63 ≤ 2 ^ Z.of_nat l) by (apply Z.pow_le_mono_r; lia). nia. }
  split; [|done]. apply coord_below; [done|nia|lia].
Qed.

(** A store that holds transactions has every frozen node of their accumulator. *)
Lemma holds_stores self infos :
  holds (db self) infos → leaf_count (TransactionInfo_hash <$> infos) < 2 ^ 63 →
  stores self (TransactionInfo_hash <$> infos).
Proof.
  intros [_ Hacc] Hmax l p Hw. destruct (within_coord _ _ _ Hw Hmax) as [Hc Hl].
  unfold reader_get, LedgerStore_reader, encode_key, to_postorder_index, to_inorder_index.
  rewrite inorder_to_postorder_node //; run. rewrite Hacc. set (leaves := TransactionInfo_hash <$> infos) in *.
  assert ((l, p) ∈ completed 0 (length leaves)) as [i Hi]%list_elem_of_lookup_1.
  { apply completed_within; unfold leaf_count in Hmax; [lia..|]. split; [exact Hw|].
    unfold within; cbn. pose proof (pow2_gt0 l). nia. }
  pose proof (f_equal (.!! i) (completed_rows 0 (length leaves) ltac:(lia) ltac:(unfold leaf_count in Hmax; lia))) as Hrow.
  cbn beta in Hrow. change (frozen_nodes 0) with 0 in Hrow. rewrite list_lookup_fmap Hi lookup_seqZ_lt in Hrow.
  { apply lookup_lt_Some in Hi. lia. }
  cbn in Hrow. injection Hrow as ->. rewrite lookup_map_seqZ_0; [lia|]. rewrite Z.add_0_l Nat2Z.id.
  unfold frozen_rows, hashes. by rewrite list_lookup_fmap Hi.
Qed.

(** The same store serves every prefix of its transactions. *)
Lemma stores_take self (leaves : list HashValue) (n : nat) : stores self leaves → stores self (take n leaves).
Proof.
  intros Hst l p [Hp Hw]. cbn in Hp, Hw.
  assert (leaf_count (take n leaves) ≤ leaf_count leaves) by (unfold leaf_count; rewrite length_take; lia).
  rewrite Hst; [split; cbn; lia|]. do 2 f_equal.
  rewrite -{1}(take_drop n leaves). by apply node_hash_app.
Qed.

(** ** What a batch writes *)

Definition node_ops (leaves : list HashValue) (xs : list (nat * Z)) : SchemaBatch :=
  (λ '(l, p), PutTransactionAccumulator (post l p) (node_hash leaves l p)) <$> xs.

Fixpoint info_ops (version : Z) (infos : list TransactionInfo) : SchemaBatch :=
  match infos with
  | [] => []
  | info :: rest => PutTransactionInfo version info :: info_ops (version + 1) rest
  end.

Lemma put_infos_ops version infos batch : put_infos version infos batch = batch ++ info_ops version infos.
Proof.
  revert version batch; induction infos as [|info infos IH]; intros version batch; cbn.
  - by rewrite app_nil_r.
  - by rewrite IH -app_assoc.
Qed.

Lemma put_nodes_ops leaves xs batch :
  Forall (λ '(l, p), coord l p ∧ (l < 63)%nat) xs →
  put_nodes (annotate leaves xs) batch = Ret (batch ++ node_ops leaves xs).
Proof.
  intros Hxs. revert batch; induction Hxs as [|[l p] xs [Hc Hl] Hxs IH]; intros batch; cbn [annotate fmap list_fmap put_nodes].
  - by rewrite app_nil_r.
  - unfold put_transaction_accumulator, encode_key, to_postorder_index, to_inorder_index.
    rewrite inorder_to_postorder_node //; run. rewrite [put_nodes _ _]IH. by rewrite -app_assoc.
Qed.

Lemma write_schemas_app d b1 b2 : write_schemas d (b1 ++ b2) = write_schemas (write_schemas d b1) b2.
Proof. apply foldl_app. Qed.

Lemma write_info_ops d infos more :
  transaction_info d = map_seqZ 0 infos →
  let d' := write_schemas d (info_ops (Z.of_nat (length infos)) more) in
  transaction_info d' = map_seqZ 0 (infos ++ more) ∧
  transaction_accumulator d' = transaction_accumulator d ∧ same_epochs d d'.
Proof.
  revert d infos; induction more as [|info more IH]; intros d infos Hd; cbn [info_ops].
  { by rewrite app_nil_r. }
  cbn zeta. destruct (IH (apply_op d (PutTransactionInfo (Z.of_nat (length infos)) info)) (infos ++ [info])) as (H1 & H2 & H3).
  { cbn. by rewrite Hd map_seqZ_snoc Z.add_0_l. }
  rewrite length_app Nat2Z.inj_add /= -app_assoc in H1 H2 H3. done.
Qed.

Lemma write_node_ops d leaves rows xs :
  transaction_accumulator d = map_seqZ 0 rows →
  (λ '(l, p), post l p) <$> xs = seqZ (Z.of_nat (length rows)) (Z.of_nat (length xs)) →
  let d' := write_schemas d (node_ops leaves xs) in
  transaction_accumulator d' = map_seqZ 0 (rows ++ hashes leaves xs) ∧
  transaction_info d' = transaction_info d ∧ same_epochs d d'.
Proof.
  revert d rows; induction xs as [|[l p] xs IH]; intros d rows Hd Hpost.
  { cbn. by rewrite app_nil_r. }
  rewrite seqZ_cons /= in Hpost; [lia|]. injection Hpost as Hp Hpost.
  destruct (IH (apply_op d (PutTransactionAccumulator (post l p) (node_hash leaves l p))) (rows ++ [node_hash leaves l p]))
    as (H1 & H2 & H3).
  { cbn. by rewrite Hd map_seqZ_snoc Z.add_0_l Hp. }
  { rewrite length_app Nat2Z.inj_add. etrans; [exact Hpost|]. f_equal; cbn; lia. }
  rewrite -app_assoc in H1. done.
Qed.

(** ** Putting transaction infos *)

Lemma append_writes self infos more :
  let leaves := TransactionInfo_hash <$> (infos ++ more) in
  holds (db self) infos → leaf_count leaves ≤ 2 ^ 63 - 32 →
  view_append (view self (Z.of_nat (length infos))) (TransactionInfo_hash <$> more)
  = Ret (Ok (root_of leaves, annotate leaves (completed (Z.of_nat (length infos)) (length more)))).
Proof.
  intros leaves Hh Hmax.
  assert (leaf_count (TransactionInfo_hash <$> infos) = Z.of_nat (length infos)) as Hn
    by (unfold leaf_count; by rewrite length_fmap).
  assert (leaves = (TransactionInfo_hash <$> infos) ++ (TransactionInfo_hash <$> more)) as Happ by apply fmap_app.
  assert (leaf_count (TransactionInfo_hash <$> infos) ≤ leaf_count leaves) as Hle.
  { rewrite Happ leaf_count_app. pose proof (leaf_count_nonneg (TransactionInfo_hash <$> more)). lia. }
  assert (stores self (TransactionInfo_hash <$> infos)) as Hst by (apply holds_stores; [done|lia]).
  destruct (decide (more = [])) as [->|Hne].
  - cbn [fmap list_fmap length completed annotate]. rewrite app_nil_r in Happ. rewrite Happ.
    destruct infos as [|info infos']; [done|]. apply view_append_nothing; [done| |done].
    split; [|lia]. unfold leaf_count. cbn [fmap list_fmap length]. lia.
  - rewrite -(length_fmap TransactionInfo_hash more) -Hn.
    apply (view_append_spec _ leaves (leaf_count (TransactionInfo_hash <$> infos))); [done| |done| |done|done].
    + intros l p Hw. cbn [reader view]. rewrite Hst //. destruct Hw as [Hp Hw]; cbn in Hp, Hw.
      rewrite Happ. by rewrite node_hash_app.
    + by destruct more.
Qed.

Lemma frozen_rows_app leaves more :
  leaf_count (leaves ++ more) ≤ 2 ^ 63 →
  frozen_rows (leaves ++ more)
  = frozen_rows leaves ++ hashes (leaves ++ more) (completed (leaf_count leaves) (length more)).
Proof.
  intros Hmax. rewrite leaf_count_app in Hmax. pose proof (leaf_count_nonneg more).
  unfold frozen_rows. rewrite length_app completed_app hashes_app. f_equal.
  apply list_fmap_ext. intros i [l p] Hi%list_elem_of_lookup_2.
  apply completed_within in Hi as [[Hp Hw] _]; [|lia|unfold leaf_count in *; lia].
  cbn in Hp, Hw. by apply node_hash_app.
Qed.

Lemma put_transaction_infos_spec self infos more batch :
  holds (db self) infos → leaf_count (TransactionInfo_hash <$> (infos ++ more)) ≤ 2 ^ 63 - 32 →
  ∃ ops,
    put_transaction_infos self (Z.of_nat (length infos)) more batch
    = Ret (Ok (root_of (TransactionInfo_hash <$> (infos ++ more)), batch ++ ops)) ∧
    holds (write_schemas (db self) ops) (infos ++ more) ∧
    same_epochs (db self) (write_schemas (db self) ops).
Proof.
  intros Hh Hmax. set (leaves := TransactionInfo_hash <$> (infos ++ more)) in *.
  set (xs := completed (Z.of_nat (length infos)) (length more)).
  assert (Z.of_nat (length infos) + Z.of_nat (length more) = leaf_count leaves) as Hcount.
  { unfold leaves, leaf_count. rewrite length_fmap length_app. lia. }
  exists (info_ops (Z.of_nat (length infos)) more ++ node_ops leaves xs).
  destruct (Hh) as [Hinfo Hacc]. destruct (write_info_ops _ _ more Hinfo) as (H1 & H2 & H3).
  rewrite write_schemas_app. set (d1 := write_schemas (db self) _) in *.
  assert (frozen_rows leaves = frozen_rows (TransactionInfo_hash <$> infos) ++ hashes leaves xs) as Hrows.
  { unfold leaves. rewrite fmap_app frozen_rows_app -?fmap_app; [unfold leaves in Hmax; lia|]. do 3 f_equal.
    - unfold leaf_count. by rewrite length_fmap.
    - by rewrite length_fmap. }
  destruct (write_node_ops d1 leaves (frozen_rows (TransactionInfo_hash <$> infos)) xs) as (H5 & H6 & H7).
  { by rewrite H2. }
  { unfold frozen_rows. rewrite hashes_length length_fmap completed_length; [lia..|].
    rewrite Z.add_0_l Z.sub_0_r. apply completed_rows; lia. }
  split_and!.
  - unfold put_transaction_infos. u64_run.
    rewrite put_infos_ops append_writes //; run. cbn [try]. rewrite put_nodes_ops; [|by rewrite -app_assoc].
    apply Forall_forall. intros [l p] Hin. apply completed_within in Hin as [Hw _]; [|lia..].
    apply (within_coord _ _ _ Hw). lia.
  - split; [by rewrite H6|]. by rewrite H5 Hrows.
  - by etrans.
Qed.
End store.
