(* ===== verification/LedgerProofs.v ===== *)
(** * Proofs against a ledger info

    Models the clients of the transaction accumulator: [verify_transaction_info] of
    [types/src/proof/mod.rs] and, of [types/src/proof/definition.rs],
    [TransactionInfoWithProof], [TransactionInfoListWithProof] and
    [TransactionAccumulatorSummary].  What the ledger store serves, they accept. *)
From S2P Require Import Prelude U64 Position FrozenSubtrees Accumulator AccumulatorProof MerkleAccumulator ValidatorVerifier ConsensusData SchemaDb LedgerStore.
Local Open Scope Z_scope.

Section proofs.
Context `{CT : ConsensusTypes, CE : !ConsensusEnv, TI : !TransactionInfos HashValue}.
Local Notation InMemoryAccumulator := (@InMemoryAccumulator HashValue).
Local Notation AccumulatorConsistencyProof := (@AccumulatorConsistencyProof HashValue).
Local Notation AccumulatorRangeProof := (@AccumulatorRangeProof HashValue).
Local Notation AccumulatorProof := (@AccumulatorProof.AccumulatorProof HashValue).

Definition li_version (self : LedgerInfo) : Z := bi_version (commit_info self).
Definition transaction_accumulator_hash (self : LedgerInfo) : HashValue := executed_state_id (commit_info self).

(** ** Transaction infos *)

Definition verify_transaction_info (li : LedgerInfo) (transaction_version : Z) (info : TransactionInfo)
    (proof : AccumulatorProof) : result unit unit :=
  if negb (transaction_version <=? li_version li) then Err tt else
  AccumulatorProof_verify proof (transaction_accumulator_hash li) (TransactionInfo_hash info) transaction_version.

Record TransactionInfoWithProof : Type := mkTransactionInfoWithProof {
  ledger_info_to_transaction_info_proof : AccumulatorProof;
  tip_transaction_info : TransactionInfo;
}.

Definition TransactionInfoWithProof_verify (self : TransactionInfoWithProof) (li : LedgerInfo)
    (transaction_version : Z) : result unit unit :=
  verify_transaction_info li transaction_version (tip_transaction_info self)
    (ledger_info_to_transaction_info_proof self).

Record TransactionInfoListWithProof : Type := mkTransactionInfoListWithProof {
  ledger_info_to_transaction_infos_proof : AccumulatorRangeProof;
  transaction_infos : list TransactionInfo;
}.

(** The verification of a range ends within 65 rounds. *)
Definition TransactionInfoListWithProof_verify (self : TransactionInfoListWithProof) (li : LedgerInfo)
    (first_transaction_info_version : option Z) : comp (result unit (option unit)) :=
  AccumulatorRangeProof_verify 65 (ledger_info_to_transaction_infos_proof self)
    (transaction_accumulator_hash li) first_transaction_info_version
    (TransactionInfo_hash <$> transaction_infos self).

Definition verify_extends_ledger (self : TransactionInfoListWithProof) (num_txns_in_ledger : Z)
    (root : HashValue) (first_transaction_info_version : option Z) : comp (result unit Z) :=
  match first_transaction_info_version with
  | Some first_version =>
      if negb (first_version <=? num_txns_in_ledger) then Ret (Err tt) else
      let num_overlap_txns := num_txns_in_ledger - first_version in
      if Z.of_nat (length (transaction_infos self)) <? num_overlap_txns
      then Ret (Ok (Z.of_nat (length (transaction_infos self)))) else
      let overlap_txn_infos := take (Z.to_nat num_overlap_txns) (transaction_infos self) in
      let frozen_subtree_roots_from_proof :=
        reverse (left_siblings (ledger_info_to_transaction_infos_proof self)) in
      r ← InMemoryAccumulator_new frozen_subtree_roots_from_proof first_version;
      try r (λ acc,
        accu_from_proof ← append acc (TransactionInfo_hash <$> overlap_txn_infos);
        if decide (root_hash accu_from_proof = root) then Ret (Ok num_overlap_txns) else Ret (Err tt))
  | None => if bool_decide (transaction_infos self = []) then Ret (Ok 0) else Ret (Err tt)
  end.

(** ** Accumulator summaries *)

(** [TransactionAccumulatorSummary] wraps an accumulator. *)
Definition TransactionAccumulatorSummary : Type := InMemoryAccumulator.

Definition TransactionAccumulatorSummary_new (accumulator : InMemoryAccumulator) :
    result unit TransactionAccumulatorSummary :=
  if is_empty accumulator then Err tt else Ok accumulator.

Definition verify_consistency (self : TransactionAccumulatorSummary) (li : LedgerInfo) : result unit unit :=
  if negb (li_version li =? version self) then Err tt else
  if decide (transaction_accumulator_hash li = root_hash self) then Ok tt else Err tt.

Definition try_from_genesis_proof (genesis_proof : AccumulatorConsistencyProof) (target_version : Z) :
    comp (result unit TransactionAccumulatorSummary) :=
  InMemoryAccumulator_new (subtrees genesis_proof) (u64_saturating_add target_version 1).

Definition try_extend_with_proof (self : TransactionAccumulatorSummary)
    (consistency_proof : AccumulatorConsistencyProof) (target_li : LedgerInfo) :
    comp (result unit TransactionAccumulatorSummary) :=
  if negb (version self <=? li_version target_li) then Ret (Err tt) else
  let num_new_txns := li_version target_li - version self in
  r ← append_subtrees self (subtrees consistency_proof) num_new_txns;
  try r (λ new_accumulator,
    try (verify_consistency new_accumulator target_li) (λ _, Ret (Ok new_accumulator))).

(** ** Serving *)

(** The left siblings of a range are the subtrees of the leaves before it. *)
Lemma left_coords_frozen (k i : nat) p :
  0 ≤ p < 2 ^ Z.of_nat k → reverse (left_coords k i p) = frozen i p.
Proof.
  revert i p; induction k as [|k IH]; intros i p Hp.
  { change (2 ^ Z.of_nat 0) with 1 in Hp. by replace p with 0 by lia. }
  rewrite pow2_S in Hp. cbn [left_coords]. rewrite reverse_app.
  destruct (Z_double_cases p) as [q [->| ->]].
  - rewrite odd_double_succ. replace (2 * q + 1 - 1) with (2 * q) by lia.
    destruct (half_double_succ q) as (-> & _ & _). rewrite IH; [lia|]. rewrite frozen_odd //. lia.
  - rewrite odd_double. destruct (half_double q) as (-> & _ & _). rewrite IH; [lia|].
    by rewrite frozen_even app_nil_r.
Qed.

(** ** Accepting *)

(** The accumulator before a range, from the siblings on its left. *)
Lemma accumulator_before (leaves : list HashValue) f :
  0 ≤ f < leaf_count leaves → leaf_count leaves ≤ 2 ^ 63 →
  InMemoryAccumulator_new (reverse (hashes leaves (left_coords (root_level (leaf_count leaves)) 0 f))) f
  = Ret (Ok (acc_of (take (Z.to_nat f) leaves))).
Proof.
  intros Hf Hmax. rewrite /hashes -fmap_reverse left_coords_frozen.
  { pose proof (root_fits (leaf_count leaves)). lia. }
  set (before := take (Z.to_nat f) leaves).
  assert (leaf_count before = f) as Hbefore by (unfold before, leaf_count in *; rewrite length_take; lia).
  assert (hashes leaves (frozen 0 f) = hashes before (frozen 0 f)) as Heq.
  { rewrite -{1}(take_drop (Z.to_nat f) leaves). apply hashes_frozen_app; [lia|]. fold before.
    change (2 ^ Z.of_nat 0) with 1. lia. }
  unfold hashes in Heq. rewrite Heq -Hbefore. apply InMemoryAccumulator_new_spec. lia.
Qed.

Lemma version_acc_of leaves v : 0 ≤ v → leaf_count leaves = v + 1 → version (acc_of leaves) = v.
Proof.
  intros Hv Hn. unfold version, acc_of; cbn [num_leaves]. rewrite Hn.
  destruct (Z.eqb_spec (v + 1) 0); lia.
Qed.

Section accepting.
Context {HI : HasherInjective HashValue}.
Context (info_domain : ∀ info, leaf_domain (TransactionInfo_hash info)).

Lemma infos_domain infos : Forall leaf_domain (TransactionInfo_hash <$> infos).
Proof. apply Forall_fmap, Forall_forall. intros info _. apply info_domain. Qed.

Lemma chunk_sound (chunk : TransactionInfoListWithProof) li f (mine theirs : list HashValue) k :
  0 ≤ f < leaf_count theirs → leaf_count theirs ≤ 2 ^ 63 → Forall leaf_domain theirs →
  transaction_accumulator_hash li = root_of theirs →
  TransactionInfoListWithProof_verify chunk li (Some f) = Ret (Ok (Some tt)) →
  verify_extends_ledger chunk (leaf_count mine) (root_of mine) (Some f) = Ret (Ok k) →
  leaf_count mine ≤ f + Z.of_nat (length (transaction_infos chunk)) →
  k = leaf_count mine - f ∧
  mine ++ (TransactionInfo_hash <$> drop (Z.to_nat k) (transaction_infos chunk))
  = take (Z.to_nat f + length (transaction_infos chunk)) theirs.
Proof.
  intros Hf Hmax Hdom Hroot Hver Hext Hlen. unfold TransactionInfoListWithProof_verify in Hver. rewrite Hroot in Hver.
  apply range_sound in Hver as (Hcount & Hseg & Hleft); [|done..|apply infos_domain|done].
  unfold verify_extends_ledger in Hext. rewrite Hleft in Hext.
  destruct (Z.leb_spec f (leaf_count mine)) as [Hge|]; [|done]. cbn [negb] in Hext.
  rewrite (proj2 (Z.ltb_ge _ _)) in Hext; [lia|].
  rewrite accumulator_before // in Hext.
  apply bind_Ret in Hext as (r & [= <-] & Hext). cbn [try] in Hext.
  apply bind_Ret in Hext as (acc & Happend & Hext). case_decide as Heq; [|done]. injection Hext as <-.
  split; [done|]. set (n := Z.to_nat (leaf_count mine - f)) in *.
  assert (TransactionInfo_hash <$> take n (transaction_infos chunk) = take n (drop (Z.to_nat f) theirs)) as Htake.
  { rewrite fmap_take Hseg take_take. f_equal. rewrite length_fmap. lia. }
  rewrite length_fmap in Hseg. rewrite append_spec Htake take_take_drop in Happend.
  { unfold leaf_count in *. rewrite length_take. lia. }
  injection Happend as <-. cbn [acc_of root_hash] in Heq.
  assert (leaf_count (take (Z.to_nat f + n) theirs) = leaf_count mine) as Hn.
  { unfold leaf_count in *. rewrite length_take length_fmap in Hcount |- *. lia. }
  apply root_of_inj in Heq; [|done]. rewrite -Heq fmap_drop Hseg -!take_take_drop -app_assoc. f_equal.
  set (seg := drop (Z.to_nat f) theirs). set (c := length (transaction_infos chunk)) in *.
  rewrite -{2}(take_drop n (take c seg)) take_take. do 2 f_equal. lia.
Qed.

(** An extended summary is the accumulator of the target, and what it was before is the
    accumulator of a prefix. *)
Lemma extend_sound (mine theirs : list HashValue) proof li acc :
  mine ≠ [] → leaf_count theirs ≤ 2 ^ 63 → transaction_accumulator_hash li = root_of theirs →
  li_version li = leaf_count theirs - 1 →
  try_extend_with_proof (acc_of mine) proof li = Ret (Ok acc) →
  mine = take (length mine) theirs ∧ acc = acc_of theirs.
Proof.
  intros Hne Hmax Hroot Hv Hrun. unfold try_extend_with_proof in Hrun.
  assert (0 < leaf_count mine) by (destruct mine; [done|]; unfold leaf_count; cbn; lia).
  rewrite (version_acc_of mine (leaf_count mine - 1)) in Hrun; [lia..|]. rewrite Hv in Hrun.
  destruct (Z.leb_spec (leaf_count mine - 1) (leaf_count theirs - 1)) as [Hle|]; [|done]. cbn [negb] in Hrun.
  replace (leaf_count theirs - 1 - (leaf_count mine - 1)) with (leaf_count theirs - leaf_count mine) in Hrun by lia.
  apply bind_Ret in Hrun as (r & Happ & Hrun). destruct r as [acc'|]; cbn [try] in Hrun; [|done].
  unfold verify_consistency in Hrun. destruct (negb _) in Hrun; [done|]. case_decide as Heq; [|done].
  cbn [try] in Hrun. injection Hrun as <-.
  destruct (consistency_sound mine theirs (subtrees proof) acc') as (Hold & Hacc & _); [lia|done|congruence|done].
Qed.
End accepting.

Section serving.
Context (self : LedgerStore) (infos : list TransactionInfo).
Context (held : holds (db self) infos) (fits : Z.of_nat (length infos) ≤ 2 ^ 63 - 32).

(** The leaves of the accumulator at a version. *)
Definition leaves_at (v : Z) : list HashValue := take (Z.to_nat (v + 1)) (TransactionInfo_hash <$> infos).

Lemma leaves_at_count v : -1 ≤ v < Z.of_nat (length infos) → leaf_count (leaves_at v) = v + 1.
Proof. intros Hv. unfold leaf_count, leaves_at. rewrite length_take length_fmap. lia. Qed.

Lemma leaves_at_stored v : stores self (leaves_at v).
Proof.
  apply stores_take, holds_stores; [done|]. unfold leaf_count. rewrite length_fmap. lia.
Qed.

Lemma leaves_at_lookup v w : 0 ≤ v ≤ w → leaves_at w !! Z.to_nat v = TransactionInfo_hash <$> infos !! Z.to_nat v.
Proof. intros Hv. unfold leaves_at. rewrite lookup_take_lt; [lia|]. apply list_lookup_fmap. Qed.

Lemma leaves_at_prefix v w : -1 ≤ v ≤ w → take (Z.to_nat (v + 1)) (leaves_at w) = leaves_at v.
Proof. intros Hv. unfold leaves_at. rewrite take_take. f_equal. lia. Qed.

Lemma leaves_at_segment v f (c : nat) :
  0 ≤ f → f + Z.of_nat c ≤ v + 1 →
  take c (drop (Z.to_nat f) (leaves_at v)) = TransactionInfo_hash <$> take c (drop (Z.to_nat f) infos).
Proof.
  intros Hf Hc. unfold leaves_at. rewrite take_drop_commute take_take Nat.min_l; [lia|].
  by rewrite -take_drop_commute fmap_take fmap_drop.
Qed.

Lemma leaves_at_split f (k : nat) :
  0 ≤ f → leaves_at (f + Z.of_nat k - 1) = leaves_at (f - 1) ++ (TransactionInfo_hash <$> take k (drop (Z.to_nat f) infos)).
Proof.
  intros Hf. rewrite -(leaves_at_segment (f + Z.of_nat k - 1)); [lia..|].
  rewrite -{1}(take_drop (Z.to_nat f) (leaves_at (f + Z.of_nat k - 1))). f_equal.
  - rewrite -(leaves_at_prefix (f - 1) (f + Z.of_nat k - 1)); [lia|]. f_equal. lia.
  - rewrite take_ge //. unfold leaves_at. rewrite length_drop length_take. lia.
Qed.

Section at_version.
Context (v : Z) (known : 0 ≤ v < Z.of_nat (length infos)).

Lemma view_at : u64_add v 1 = Ret (v + 1) ∧ view_num_leaves (view self (v + 1)) = leaf_count (leaves_at v) ∧
  0 < leaf_count (leaves_at v) ≤ 2 ^ 63 - 32.
Proof. rewrite leaves_at_count; [lia|]. split; [apply u64_add_Ret; unfold u64_max; lia|]. cbn. lia. Qed.

Lemma serve_root_hash : get_root_hash self v = Ret (Ok (root_of (leaves_at v))).
Proof.
  destruct view_at as (Hadd & Hn & Hc). unfold get_root_hash. rewrite Hadd; run.
  apply get_root_hash_spec; [done|done|apply leaves_at_stored].
Qed.

Lemma serve_info w li :
  0 ≤ w ≤ v → li_version li = v → transaction_accumulator_hash li = root_of (leaves_at v) →
  ∃ proof info, get_transaction_info_with_proof self w v = Ret (Ok (proof, info)) ∧
    infos !! Z.to_nat w = Some info ∧
    TransactionInfoWithProof_verify (mkTransactionInfoWithProof proof info) li w = Ok tt.
Proof.
  intros Hw Hv Hroot. destruct view_at as (Hadd & Hn & Hc). pose proof (leaves_at_stored v) as Hst.
  destruct (lookup_lt_is_Some_2 infos (Z.to_nat w)) as [info Hinfo]; [lia|].
  eexists _, info. split; [|split; [exact Hinfo|]].
  - unfold get_transaction_info_with_proof, get_transaction_proof. rewrite Hadd; run.
    rewrite (get_proof_spec _ (leaves_at v)) //; [rewrite leaves_at_count; lia|]; run.
    unfold get_transaction_info. destruct held as [-> _]. rewrite lookup_map_seqZ_0; [lia|]. by rewrite Hinfo.
  - unfold TransactionInfoWithProof_verify, verify_transaction_info. cbn.
    rewrite Hv Hroot (proj2 (Z.leb_le _ _)); [lia|]. cbn [negb].
    apply (proof_verifies (leaves_at v)); [done..| |lia].
    by rewrite leaves_at_lookup // Hinfo.
Qed.

Lemma serve_range f (c : nat) li :
  0 ≤ f → (0 < c)%nat → f + Z.of_nat c ≤ v + 1 → transaction_accumulator_hash li = root_of (leaves_at v) →
  ∃ proof, get_transaction_range_proof self (Some f) (Z.of_nat c) v = Ret (Ok proof) ∧
    let chunk := mkTransactionInfoListWithProof proof (take c (drop (Z.to_nat f) infos)) in
    TransactionInfoListWithProof_verify chunk li (Some f) = Ret (Ok (Some tt)) ∧
    ∀ m, f ≤ m ≤ f + Z.of_nat c →
      verify_extends_ledger chunk m (root_of (leaves_at (m - 1))) (Some f) = Ret (Ok (m - f)).
Proof.
  intros Hf Hc Hle Hroot. destruct view_at as (Hadd & Hn & Hfit). pose proof (leaves_at_stored v) as Hst.
  pose proof (leaves_at_count v ltac:(lia)) as Hcount.
  eexists. split; [|split].
  - unfold get_transaction_range_proof. rewrite Hadd; run.
    apply (get_range_proof_spec _ (leaves_at v)); [done..|lia].
  - unfold TransactionInfoListWithProof_verify. cbn [ledger_info_to_transaction_infos_proof transaction_infos].
    rewrite Hroot -(leaves_at_segment v); [lia..|]. apply range_proof_verifies; [done..|lia].
  - intros m Hm. unfold verify_extends_ledger.
    cbn [ledger_info_to_transaction_infos_proof transaction_infos left_siblings].
    rewrite (proj2 (Z.leb_le f m)); [lia|]. cbn [negb].
    rewrite (proj2 (Z.ltb_ge _ (m - f))); [rewrite length_take length_drop; lia|].
    rewrite accumulator_before; [lia..|]; run. cbn [try].
    replace (take (Z.to_nat f) (leaves_at v)) with (leaves_at (f - 1)).
    2: { rewrite -(leaves_at_prefix (f - 1) v); [lia|]. f_equal. lia. }
    set (k := Z.to_nat (m - f)). replace (m - 1) with (f + Z.of_nat k - 1) by lia.
    assert (take k (take c (drop (Z.to_nat f) infos)) = take k (drop (Z.to_nat f) infos)) as ->.
    { rewrite take_take. f_equal. lia. }
    rewrite append_spec -leaves_at_split; try (rewrite ?leaves_at_count; lia); run. by rewrite decide_True.
Qed.

Lemma serve_consistency w li :
  0 ≤ w ≤ v → li_version li = v → transaction_accumulator_hash li = root_of (leaves_at v) →
  ∃ proof, get_consistency_proof self (Some w) v = Ret (Ok proof) ∧
    try_extend_with_proof (acc_of (leaves_at w)) proof li = Ret (Ok (acc_of (leaves_at v))).
Proof.
  intros Hw Hv Hroot. destruct view_at as (_ & Hn & Hfit). pose proof (leaves_at_stored v) as Hst.
  pose proof (leaves_at_count v ltac:(lia)) as Hcount. pose proof (leaves_at_count w ltac:(lia)) as Hcountw.
  eexists. split.
  - unfold get_consistency_proof, u64_saturating_add, u64_max. rewrite !Z.min_l; [lia..|].
    apply (get_consistency_proof_spec _ (leaves_at v)); [done..|lia].
  - unfold try_extend_with_proof. rewrite (version_acc_of (leaves_at w) w); [lia..|]. rewrite Hv (proj2 (Z.leb_le _ _)); [lia|]. cbn [negb subtrees].
    set (more := drop (Z.to_nat (w + 1)) (leaves_at v)).
    assert (leaves_at v = leaves_at w ++ more) as Happ.
    { unfold more. rewrite -(leaves_at_prefix w v); [lia|]. by rewrite take_drop. }
    assert (leaf_count more = v - w) as Hmore by (rewrite Happ leaf_count_app in Hcount; lia).
    replace (leaf_count (leaves_at v) - (w + 1)) with (leaf_count more) by lia.
    rewrite -Hmore {1}Happ -Hcountw append_subtrees_spec -?Happ; [lia|]; run. cbn [try].
    unfold verify_consistency. rewrite (version_acc_of (leaves_at v) v); [lia..|]. rewrite Hv Z.eqb_refl Hroot. cbn [negb]. by rewrite decide_True.
Qed.
End at_version.
End serving.

(** C13: What the ledger store serves, its clients accept.  From a store that holds the
    transactions [infos], and for the ledger info of any version [v] of it: every
    transaction info up to [v] is served with a proof that verifies; every non-empty range
    up to [v] is served with a proof that verifies, and it extends every ledger that ends
    within the range, with the right number of overlapping transactions; and from every
    earlier version the summary a client keeps is extended to the summary of [v]. *)
Theorem served_proofs_verify self infos v li :
  holds (db self) infos → Z.of_nat (length infos) ≤ 2 ^ 63 - 32 → 0 ≤ v < Z.of_nat (length infos) →
  li_version li = v → get_root_hash self v = Ret (Ok (transaction_accumulator_hash li)) →
  (∀ w, 0 ≤ w ≤ v → ∃ proof info,
     get_transaction_info_with_proof self w v = Ret (Ok (proof, info)) ∧ infos !! Z.to_nat w = Some info ∧
     TransactionInfoWithProof_verify (mkTransactionInfoWithProof proof info) li w = Ok tt) ∧
  (∀ f (c : nat), 0 ≤ f → (0 < c)%nat → f + Z.of_nat c ≤ v + 1 → ∃ proof,
     get_transaction_range_proof self (Some f) (Z.of_nat c) v = Ret (Ok proof) ∧
     let chunk := mkTransactionInfoListWithProof proof (take c (drop (Z.to_nat f) infos)) in
     TransactionInfoListWithProof_verify chunk li (Some f) = Ret (Ok (Some tt)) ∧
     ∀ m, f ≤ m ≤ f + Z.of_nat c →
       verify_extends_ledger chunk m (root_of (leaves_at infos (m - 1))) (Some f) = Ret (Ok (m - f))) ∧
  (∀ w, 0 ≤ w ≤ v → ∃ proof,
     get_consistency_proof self (Some w) v = Ret (Ok proof) ∧
     try_extend_with_proof (acc_of (leaves_at infos w)) proof li = Ret (Ok (acc_of (leaves_at infos v)))).
Proof.
  intros Hheld Hfits Hv Hli Hroot. rewrite (serve_root_hash self infos) // in Hroot. injection Hroot as Hroot.
  split_and!; intros.
  - by eapply serve_info.
  - by eapply serve_range.
  - by eapply serve_consistency.
Qed.

(** C7: A node extends its ledger only by what the ledger info certifies.  For a hash
    without collisions: when a chunk of transaction infos that reaches the end of the
    node's ledger verifies against a ledger info and extends that ledger, appending what
    does not overlap gives a prefix of the certified ledger, and the overlap is counted
    right (a chunk that ends earlier is not compared, and nothing of it is appended);
    when a consistency proof extends
    the node's summary to a ledger info, the node's ledger was a prefix of the certified
    one and the new summary is the certified one's. *)
Theorem accepted_data_extends `{HI : !HasherInjective HashValue} (mine theirs : list HashValue) li :
  (∀ info, leaf_domain (TransactionInfo_hash info)) → Forall leaf_domain theirs → leaf_count theirs ≤ 2 ^ 63 →
  transaction_accumulator_hash li = root_of theirs →
  (∀ chunk f k, 0 ≤ f < leaf_count theirs → leaf_count mine ≤ f + Z.of_nat (length (transaction_infos chunk)) →
     TransactionInfoListWithProof_verify chunk li (Some f) = Ret (Ok (Some tt)) →
     verify_extends_ledger chunk (leaf_count mine) (root_of mine) (Some f) = Ret (Ok k) →
     k = leaf_count mine - f ∧
     mine ++ (TransactionInfo_hash <$> drop (Z.to_nat k) (transaction_infos chunk))
     = take (Z.to_nat f + length (transaction_infos chunk)) theirs) ∧
  (∀ proof acc, mine ≠ [] → li_version li = leaf_count theirs - 1 →
     try_extend_with_proof (acc_of mine) proof li = Ret (Ok acc) →
     mine = take (length mine) theirs ∧ acc = acc_of theirs).
Proof.
  intros Hinfo Hdom Hmax Hroot. split.
  - intros chunk f k ? ? ? ?. by eapply chunk_sound.
  - intros proof acc ? ? ?. by eapply extend_sound.
Qed.
End proofs.
