(* ===== verification/TrustedState.v ===== *)
(** * Trusted states of light clients

    Models [types/src/trusted_state.rs] and [types/src/state_proof.rs]: how a client that
    trusts a waypoint, or a ledger info with the validator set of its epoch, moves to a
    later ledger info.  What it comes to trust is genuine, and it never goes back. *)
From Stdlib Require Import String.
From S2P Require Import Prelude U64 Accumulator AccumulatorProof ValidatorVerifier ConsensusData EpochChange SchemaDb LedgerStore LedgerProofs.
Local Open Scope Z_scope.
Local Open Scope list_scope.
Local Open Scope rust_scope.

Section trusted.
Context `{CT : ConsensusTypes, CE : !ConsensusEnv, BL : !Bls Signable}.

Record StateProof : Type := mkStateProof {
  latest_li_w_sigs : LedgerInfoWithSignatures;
  epoch_changes : EpochChangeProof;
}.

(** [InEpoch] is the constructor [EpochState]. *)
Inductive TrustedState : Type :=
  | EpochWaypoint (w : Waypoint)
  | InEpoch (w : Waypoint) (epoch_state : EpochState).

Inductive TrustedStateChange : Type :=
  | ChangeVersion (new_state : TrustedState)
  | ChangeEpoch (new_state : TrustedState) (latest_epoch_change_li : LedgerInfoWithSignatures)
  | NoChange.

Definition from_epoch_waypoint (epoch_waypoint : Waypoint) : TrustedState := EpochWaypoint epoch_waypoint.

Definition try_from_epoch_change_li (epoch_change_li : LedgerInfo) (accumulator : TransactionAccumulatorSummary) :
    result anyhow TrustedState :=
  _ ← map_err (λ _, Message "ledger info and accumulator must match") (verify_consistency accumulator epoch_change_li);
  match next_epoch_state (commit_info epoch_change_li) with
  | None => Err (Message "No EpochState in LedgerInfo; it must not be on an epoch boundary")
  | Some epoch_state => w ← Waypoint_new_epoch_boundary epoch_change_li; Ok (InEpoch w epoch_state)
  end.

Definition is_epoch_waypoint (self : TrustedState) : bool :=
  match self with EpochWaypoint _ => true | InEpoch _ _ => false end.
Definition ts_waypoint (self : TrustedState) : Waypoint :=
  match self with EpochWaypoint w => w | InEpoch w _ => w end.
Definition ts_version (self : TrustedState) : Z := wp_version (ts_waypoint self).

#[global] Instance TrustedState_Verifier : Verifier TrustedState := {
  Verifier_verify self li :=
    match self with EpochWaypoint w => Verifier_verify w li | InEpoch _ es => Verifier_verify es li end;
  epoch_change_verification_required self epoch :=
    match self with
    | EpochWaypoint w => epoch_change_verification_required w epoch
    | InEpoch _ es => epoch_change_verification_required es epoch
    end;
  is_ledger_info_stale self li :=
    match self with EpochWaypoint w => is_ledger_info_stale w li | InEpoch _ es => is_ledger_info_stale es li end;
}.

(** The ledger info a change of epochs leads to. *)
Definition verified_ledger_info (epoch_change_li latest_li : LedgerInfoWithSignatures)
    (new_epoch_state : EpochState) (more : bool) : comp (result anyhow LedgerInfoWithSignatures) :=
  let new_epoch := es_epoch new_epoch_state in
  let latest_epoch := bi_epoch (commit_info (ledger_info latest_li)) in
  if decide (epoch_change_li = latest_li) then Ret (Ok latest_li)
  else if latest_epoch =? new_epoch then then_ (EpochState_verify new_epoch_state latest_li) (Ret (Ok latest_li))
  else if (new_epoch <? latest_epoch) && more then Ret (Ok epoch_change_li)
  else Ret (Err (Message "Inconsistent epoch change proof and latest ledger info")).

Definition verify_and_ratchet_inner (self : TrustedState) (latest_li : LedgerInfoWithSignatures)
    (epoch_change_proof : EpochChangeProof) : comp (result anyhow TrustedStateChange) :=
  let latest := ledger_info latest_li in
  ensure (ts_version self <=? li_version latest) "The target latest ledger info version is stale" $
  if epoch_change_verification_required self (next_block_epoch (commit_info latest)) then
    r ← EpochChangeProof_verify epoch_change_proof self;
    let? epoch_change_li := r in
    match next_epoch_state (commit_info (ledger_info epoch_change_li)) with
    | None => Ret (Err (Message "A valid EpochChangeProof will never return a non-epoch change ledger info"))
    | Some new_epoch_state =>
        r ← verified_ledger_info epoch_change_li latest_li new_epoch_state (more epoch_change_proof);
        let? verified := r in
        Ret (Ok (ChangeEpoch (InEpoch (Waypoint_new_any (ledger_info verified)) new_epoch_state) epoch_change_li))
    end
  else
    match self with
    | EpochWaypoint _ => Ret (Err (Message "EpochWaypoint can only verify an epoch change ledger info"))
    | InEpoch curr_waypoint curr_epoch_state =>
        let new_waypoint := Waypoint_new_any latest in
        if wp_version new_waypoint =? wp_version curr_waypoint then
          ensure (bool_decide (new_waypoint = curr_waypoint)) "LedgerInfo doesn't match verified state" $
          Ret (Ok NoChange)
        else
          then_ (EpochState_verify curr_epoch_state latest_li) $
          Ret (Ok (ChangeVersion (InEpoch new_waypoint curr_epoch_state)))
    end.

Definition verify_and_ratchet (self : TrustedState) (state_proof : StateProof) :
    comp (result anyhow TrustedStateChange) :=
  verify_and_ratchet_inner self (latest_li_w_sigs state_proof) (epoch_changes state_proof).

Definition new_state (self : TrustedStateChange) : option TrustedState :=
  match self with ChangeVersion new_state | ChangeEpoch new_state _ => Some new_state | NoChange => None end.
Definition is_epoch_change (self : TrustedStateChange) : bool :=
  match self with ChangeEpoch _ _ => true | _ => false end.

(** ** Only genuine ledger infos come to be trusted *)

Local Notation converter := Ledger2WaypointConverter_new.
Local Notation summary := Ledger2WaypointConverter.

(** The validator sets of the epochs, and what the ledger infos they certify say.  An
    epoch ends with its last ledger info. *)
Record honest_ledger (VS : Z → ValidatorVerifier) (genuine : summary → Prop) : Prop := {
  certified_genuine li :
    verify_signatures li (VS (bi_epoch (commit_info (ledger_info li)))) = Ret (Ok tt) → genuine (converter (ledger_info li));
  next_validators c es :
    genuine c → lw_next_epoch_state c = Some es → es = mkEpochState (lw_epoch c + 1) (VS (lw_epoch c + 1));
  epoch_ends_last c c' :
    genuine c → genuine c' → is_Some (lw_next_epoch_state c) → lw_epoch c' ≤ lw_epoch c → lw_version c' ≤ lw_version c;
}.

Section sound.
Context (VS : Z → ValidatorVerifier) (genuine : summary → Prop).
Context (honest : honest_ledger VS genuine) (collision_free : Inj (=) (=) waypoint_hash).

Definition waypoint_of (c : summary) : Waypoint := mkWaypoint (lw_version c) (waypoint_hash c).

(** What a client may trust: the waypoint of a genuine ledger info, which within an epoch
    lies in that epoch or ends the one before, and the validators of the epoch. *)
Definition trusts (self : TrustedState) : Prop :=
  match self with
  | EpochWaypoint w => ∃ c, genuine c ∧ w = waypoint_of c
  | InEpoch w es =>
      es_verifier es = VS (es_epoch es) ∧ ∃ c, genuine c ∧ w = waypoint_of c ∧ lw_epoch c ≤ es_epoch es
  end.

Definition accepts_genuine {V} `{!Verifier V} (v : V) : Prop :=
  ∀ li, Verifier_verify v li = Ret (Ok tt) → genuine (converter (ledger_info li)).

Lemma EpochState_accepts_genuine es : es_verifier es = VS (es_epoch es) → accepts_genuine es.
Proof.
  intros Hes li [He [Hv _]%try_verify_Ok]%ensure_Ok. apply Z.eqb_eq in He.
  apply (certified_genuine VS genuine honest). by rewrite -He -Hes.
Qed.

Lemma TrustedState_accepts_genuine self : trusts self → accepts_genuine self.
Proof.
  destruct self as [w|w es]; intros Ht; [|by apply EpochState_accepts_genuine, Ht].
  intros li [_ [Hv _]%ensure_Ok]%ensure_Ok. destruct Ht as (c & Hc & ->).
  apply bool_decide_eq_true, collision_free in Hv. cbn in Hv. by rewrite Hv.
Qed.

(** The ledger info a chain ends with is genuine, and so is the epoch it starts. *)
Lemma chain_genuine {V} {IV : Verifier V} (v : V) lis li :
  accepts_genuine v → verify_chain (Dyn V IV v) lis = Ret (Ok tt) → last lis = Some li →
  genuine (converter (ledger_info li)) ∧ ∃ es, next_epoch_state (commit_info (ledger_info li)) = Some es.
Proof.
  revert V IV v. induction lis as [|x lis IH]; intros V IV v Hv Hrun Hlast; [done|].
  cbn [verify_chain] in Hrun. apply then_Ok in Hrun as [Hx Hrun]. apply Hv in Hx.
  destruct (next_epoch_state (commit_info (ledger_info x))) as [es|] eqn:Hes; [|done].
  destruct lis as [|y lis]; [injection Hlast as <-; by eauto|].
  apply (IH EpochState _ es) in Hlast; [done| |done].
  apply EpochState_accepts_genuine. by rewrite (next_validators VS genuine honest _ es Hx).
Qed.

Lemma last_skip_stale {V} `{!Verifier V} (v : V) lis li :
  last lis = Some li → is_ledger_info_stale v (ledger_info li) = false → last (skip_stale v lis) = Some li.
Proof.
  induction lis as [|x lis IH]; intros Hlast Hfresh; [done|]. cbn [skip_stale].
  destruct lis as [|y lis]; [injection Hlast as ->; by rewrite Hfresh|].
  destruct (is_ledger_info_stale v (ledger_info x)); [by apply IH|done].
Qed.

Lemma EpochChangeProof_sound {V} `{!Verifier V} (v : V) proof li :
  accepts_genuine v → EpochChangeProof_verify proof v = Ret (Ok li) →
  genuine (converter (ledger_info li)) ∧ is_ledger_info_stale v (ledger_info li) = false ∧
  ∃ es, next_epoch_state (commit_info (ledger_info li)) = Some es.
Proof.
  intros Hv Hrun. pose proof (EpochChangeProof_verify_last _ _ _ Hrun) as Hlast.
  unfold EpochChangeProof_verify in Hrun. rewrite Hlast in Hrun.
  apply ensure_Ok in Hrun as [Hfresh%negb_true_iff [Hrun _]%then_Ok].
  destruct (chain_genuine v _ li Hv Hrun) as [? ?]; [by apply last_skip_stale|done].
Qed.

(** What is not stale for a trusted state does not lie before it. *)
Lemma trusts_version self li es :
  trusts self → genuine (converter li) → next_epoch_state (commit_info li) = Some es →
  is_ledger_info_stale self li = false → ts_version self ≤ li_version li.
Proof.
  destruct self as [w|w es']; intros Ht Hli Hes Hfresh; apply Z.ltb_ge in Hfresh; [done|].
  destruct Ht as (_ & c & Hc & -> & He). apply (epoch_ends_last VS genuine honest (converter li) c Hli Hc); [by exists es|].
  cbn in *. lia.
Qed.

(** The ledger info a change of epochs leads to. *)
Lemma verified_genuine epoch_change_li latest_li es b li :
  genuine (converter (ledger_info epoch_change_li)) → next_epoch_state (commit_info (ledger_info epoch_change_li)) = Some es →
  verified_ledger_info epoch_change_li latest_li es b = Ret (Ok li) →
  genuine (converter (ledger_info li)) ∧ bi_epoch (commit_info (ledger_info li)) ≤ es_epoch es ∧
  es_verifier es = VS (es_epoch es) ∧ (li = latest_li ∨ li = epoch_change_li ∧ b = true).
Proof.
  intros Hgen Hes Hrun. pose proof (next_validators VS genuine honest _ es Hgen Hes) as Hnext. cbn in Hnext.
  assert (es_verifier es = VS (es_epoch es)) as Hset by (by rewrite Hnext).
  unfold verified_ledger_info in Hrun. case_decide as Heq; [|destruct (Z.eqb_spec (bi_epoch (commit_info (ledger_info latest_li))) (es_epoch es))].
  - injection Hrun as <-. subst latest_li. split_and!; [done|rewrite Hnext; cbn; lia|done|by left].
  - apply then_Ok in Hrun as [Hver [= <-]]. split_and!; [by apply (EpochState_accepts_genuine es)|lia|done|by left].
  - destruct (_ && b) eqn:Hb; [|done]. apply andb_true_iff in Hb as [_ ->]. injection Hrun as <-.
    split_and!; [done|rewrite Hnext; cbn; lia|done|by right].
Qed.

(** A step of the client within its epoch. *)
Lemma ratchet_in_epoch w es latest_li change :
  let self := InEpoch w es in
  trusts self → ts_version self ≤ li_version (ledger_info latest_li) →
  (let new_waypoint := Waypoint_new_any (ledger_info latest_li) in
   if wp_version new_waypoint =? wp_version w then
     ensure (bool_decide (new_waypoint = w)) "LedgerInfo doesn't match verified state" (Ret (Ok NoChange))
   else then_ (EpochState_verify es latest_li) (Ret (Ok (ChangeVersion (InEpoch new_waypoint es)))))
  = Ret (Ok change) →
  genuine (converter (ledger_info latest_li)) ∧
  match change with
  | NoChange => Waypoint_new_any (ledger_info latest_li) = w
  | ChangeVersion s => s = InEpoch (Waypoint_new_any (ledger_info latest_li)) es ∧ trusts s ∧ ts_version self < ts_version s
  | ChangeEpoch _ _ => False
  end.
Proof.
  intros self (Hset & c & Hc & -> & He) Hle Hrun. cbv zeta in Hrun.
  destruct (Z.eqb_spec (wp_version (Waypoint_new_any (ledger_info latest_li))) (wp_version (waypoint_of c))) as [|Hne].
  - apply ensure_Ok in Hrun as [Heq%bool_decide_eq_true [= <-]]. split; [|done].
    injection Heq as _ Heq%collision_free. by rewrite Heq.
  - apply then_Ok in Hrun as [Hver [= <-]]. pose proof (EpochState_accepts_genuine es Hset _ Hver) as Hgen.
    apply ensure_Ok in Hver as [Hep%Z.eqb_eq _]. split; [done|]. split; [done|]. split.
    + split; [done|]. exists (converter (ledger_info latest_li)). split_and!; [done|done|cbn; lia].
    + unfold self, ts_version, li_version, Waypoint_new_any, waypoint_of in *. cbn [ts_waypoint wp_version] in *. lia.
Qed.

(** A step of the client to a later epoch. *)
Lemma ratchet_to_epoch self latest_li proof epoch_change_li es li :
  trusts self → ts_version self ≤ li_version (ledger_info latest_li) →
  EpochChangeProof_verify proof self = Ret (Ok epoch_change_li) →
  next_epoch_state (commit_info (ledger_info epoch_change_li)) = Some es →
  verified_ledger_info epoch_change_li latest_li es (more proof) = Ret (Ok li) →
  let s := InEpoch (Waypoint_new_any (ledger_info li)) es in
  trusts s ∧ ts_version self ≤ ts_version s ∧ (∀ w es', self = InEpoch w es' → es_epoch es' < es_epoch es) ∧
  genuine (converter (ledger_info li)) ∧ (more proof = false → li = latest_li).
Proof.
  intros Ht Hle Hproof Hes Hver.
  destruct (EpochChangeProof_sound self _ _ (TrustedState_accepts_genuine _ Ht) Hproof) as (Hgen & Hfresh & _).
  destruct (verified_genuine _ _ _ _ _ Hgen Hes Hver) as (Hli & Hep & Hset & Hwhich).
  pose proof (next_validators VS genuine honest _ es Hgen Hes) as Hnext. cbn in Hnext. split_and!.
  - split; [done|]. by exists (converter (ledger_info li)).
  - destruct Hwhich as [->|[-> _]]; [done|]. by eapply trusts_version.
  - intros w es' ->. cbn in Hfresh. apply Z.ltb_ge in Hfresh. rewrite Hnext. cbn. lia.
  - done.
  - intros Hmore. destruct Hwhich as [->|[-> H]]; [done|congruence].
Qed.
End sound.

(** C15: A light client only comes to trust genuine ledger infos, and never goes back.
    Suppose the ledger infos certified by the validators of an epoch are genuine, and a
    genuine one that ends an epoch names the validators of the next.  When a client that
    trusts a genuine ledger info accepts a state proof, however it was made up, then the
    state it moves to trusts a genuine ledger info again, the validators of its epoch
    included; neither the version nor the epoch goes back; and the latest ledger info of
    the proof is genuine, unless the proof says there are more epochs to come. *)
Theorem ratchet_sound VS genuine self proof change :
  honest_ledger VS genuine → Inj (=) (=) waypoint_hash → trusts VS genuine self →
  verify_and_ratchet self proof = Ret (Ok change) →
  let latest := ledger_info (latest_li_w_sigs proof) in
  (more (epoch_changes proof) = false ∨ is_epoch_change change = false → genuine (converter latest)) ∧
  match new_state change with
  | None => Waypoint_new_any latest = ts_waypoint self
  | Some s =>
      trusts VS genuine s ∧ ts_version self ≤ ts_version s ∧
      (∀ w es, self = InEpoch w es →
         ∃ w' es', s = InEpoch w' es' ∧ (if is_epoch_change change then es_epoch es < es_epoch es' else es' = es)) ∧
      (more (epoch_changes proof) = false → ts_waypoint s = Waypoint_new_any latest)
  end.
Proof.
  intros Hhonest Hinj Ht Hrun latest. unfold verify_and_ratchet, verify_and_ratchet_inner in Hrun.
  apply ensure_Ok in Hrun as [Hle%Z.leb_le Hrun].
  destruct (epoch_change_verification_required self _).
  - apply bind_Ret in Hrun as (r & Hproof & Hrun). destruct r as [ecli|]; cbn [try] in Hrun; [|done].
    destruct (next_epoch_state _) as [es|] eqn:Hes; [|done].
    apply bind_Ret in Hrun as (r & Hver & Hrun). destruct r as [li|]; cbn [try] in Hrun; [|done].
    injection Hrun as <-. cbn [is_epoch_change new_state].
    destruct (ratchet_to_epoch VS genuine Hhonest Hinj self _ _ _ _ _ Ht Hle Hproof Hes Hver) as (H1 & H2 & H3 & H4 & H5).
    split; [intros [Hmore|]; [by rewrite /latest -H5|done]|].
    split_and!; [done|done| |intros Hmore; by rewrite H5]. intros w es' ->. do 2 eexists. split; [done|]. by eapply H3.
  - destruct self as [w|w es]; [done|].
    destruct (ratchet_in_epoch VS genuine Hhonest Hinj w es _ _ Ht Hle Hrun) as [Hgen Hch]. split; [done|].
    destruct change as [s| |]; cbn [new_state is_epoch_change]; [|done|done].
    destruct Hch as (-> & Hs & Hlt). split_and!; [done|lia| |done].
    intros w' es' [= <- <-]. by do 2 eexists.
Qed.
End trusted.
