(* ===== verification/AptosDb.v ===== *)
(** * Committing transactions, and recovering from a crash

    Models the commit path of [storage/aptosdb/src/lib.rs], [save_transactions], on the
    columns of the ledger store; the truncation of [utils/truncation_helper.rs] that brings
    them back to an earlier version; and the start of [state_store/mod.rs] that truncates
    what a crash left uncommitted.  A commit makes three durable writes: the batches of the
    two databases, in parallel, and then the ledger info with the overall progress.  The
    state, event and transaction columns are not modelled. *)
From S2P Require Import Prelude U64 Position FrozenSubtrees Accumulator AccumulatorProof MerkleAccumulator ValidatorVerifier ConsensusData SchemaDb LedgerStore LedgerProofs.
Local Open Scope Z_scope.

Section db.
Context `{CT : ConsensusTypes, CE : !ConsensusEnv, TI : !TransactionInfos HashValue}.

(** ** Truncation *)

(** A read of a row of the accumulator decodes its key. *)
Definition decode_row (row : Z * HashValue) : comp (result unit Position) := decode_key row.1.

Definition num_frozen_nodes_in_accumulator (num_leaves : Z) : comp Z :=
  double ← (if 2 * num_leaves <=? u64_max then Ret (2 * num_leaves) else Panic);
  u64_sub double (count_ones num_leaves).

(** The loop over the rows from [start_position] on. *)
Fixpoint delete_nodes (rows : list (Z * HashValue)) (num_nodes_to_delete : Z) (batch : SchemaBatch) :
    comp (result unit (Z * SchemaBatch)) :=
  match rows with
  | [] => Ret (Ok (num_nodes_to_delete, batch))
  | row :: rows' =>
      r ← decode_row row;
      try r (λ position,
        key ← encode_key position;
        left ← u64_sub num_nodes_to_delete 1;
        delete_nodes rows' left (batch ++ [DeleteTransactionAccumulator key]))
  end.

Definition truncate_transaction_accumulator (d : DB) (start_version end_version : Z) (batch : SchemaBatch) :
    comp (result unit SchemaBatch) :=
  num_frozen_nodes ← num_frozen_nodes_in_accumulator end_version;
  row ← expect (seek_to_last (transaction_accumulator d));
  r ← decode_row row;
  try r (λ position,
    last_index ← to_postorder_index position;
    num_nodes ← u64_add last_index 1;
    rust_assert (num_nodes =? num_frozen_nodes);;
    num_frozen_nodes_after_this_batch ← num_frozen_nodes_in_accumulator start_version;
    num_nodes_to_delete ← u64_sub num_frozen_nodes num_frozen_nodes_after_this_batch;
    r ← from_postorder_index num_frozen_nodes_after_this_batch;
    try r (λ start_position,
      key ← encode_key start_position;
      r ← delete_nodes (seek (transaction_accumulator d) key) num_nodes_to_delete batch;
      try r (λ '(num_nodes_to_delete, batch),
        rust_assert (num_nodes_to_delete =? 0);;
        Ret (Ok batch)))).

(** The loop over the epochs that end from [start_version] on. *)
Fixpoint delete_epochs (rows : list (Z * Z)) (end_version : Z) (batch : SchemaBatch) : comp SchemaBatch :=
  match rows with
  | [] => Ret batch
  | (version, epoch) :: rows' =>
      rust_assert (version <? end_version);;
      delete_epochs rows' end_version (batch ++ [DeleteEpochByVersion version; DeleteLedgerInfo epoch])
  end.

Definition delete_per_epoch_data (d : DB) (start_version end_version : Z) (batch : SchemaBatch) :
    comp SchemaBatch :=
  batch ← match seek_to_last (ledger_info_by_epoch d) with
          | Some (epoch, li) =>
              let version := bi_version (commit_info (ledger_info li)) in
              rust_assert (version <? end_version);;
              Ret (if start_version <=? version then batch ++ [DeleteLedgerInfo epoch] else batch)
          | None => Ret batch
          end;
  delete_epochs (seek (epoch_by_version d) start_version) end_version batch.

(** [for version in start_version..end_version]. *)
Definition delete_per_version_data (start_version end_version : Z) (batch : SchemaBatch) : SchemaBatch :=
  batch ++ (DeleteTransactionInfo <$> seqZ start_version (end_version - start_version)).

Definition truncate_ledger_db_single_batch (d : DB) (start_version end_version : Z) :
    comp (result unit DB) :=
  batch ← delete_per_epoch_data d start_version end_version [];
  let batch := delete_per_version_data start_version end_version batch in
  r ← truncate_transaction_accumulator d start_version end_version batch;
  Ret (batch ← r; Ok (write_schemas d batch)).

(** The loop [while current_version > target_version]; every round lowers the version. *)
Fixpoint truncate_loop (fuel : nat) (d : DB) (current_version target_version batch_size : Z) :
    comp (result unit (DB * Z)) :=
  if negb (target_version <? current_version) then Ret (Ok (d, current_version)) else
  match fuel with
  | O => Ret (Ok (d, current_version))
  | S fuel' =>
      below ← u64_sub current_version batch_size;
      low ← u64_add below 1;
      low' ← u64_add target_version 1;
      let start_version := Z.max low low' in
      end_version ← u64_add current_version 1;
      r ← truncate_ledger_db_single_batch d start_version end_version;
      try r (λ d, truncate_loop fuel' d (start_version - 1) target_version batch_size)
  end.

Definition truncate_ledger_db (d : DB) (current_version target_version batch_size : Z) :
    comp (result unit DB) :=
  r ← truncate_loop (Z.to_nat (current_version - target_version)) d current_version target_version batch_size;
  try r (λ '(d, current_version),
    rust_assert (current_version =? target_version);;
    Ret (Ok d)).

(** ** Opening the database *)

(** The ledger database and the commit progress of the state key-value database. *)
Record Disk : Type := mkDisk {
  ledger_db : DB;
  state_kv_commit_progress : option Z;
}.

Definition MAX_COMMIT_PROGRESS_DIFFERENCE : Z := 100000.

(** The start of [StateStore::new]; the truncation of the state key-value database leaves
    the ledger database alone. *)
Definition sync_commit_progress (disk : Disk) : comp Disk :=
  match overall_commit_progress (ledger_db disk) with
  | None => Ret disk
  | Some overall =>
      ledger ← expect (ledger_commit_progress (ledger_db disk));
      rust_assert (overall <=? ledger);;
      state_kv ← expect (state_kv_commit_progress disk);
      rust_assert (overall <=? state_kv);;
      d ← (if ledger =? overall then Ret (ledger_db disk) else
           rust_assert (ledger - overall <=? MAX_COMMIT_PROGRESS_DIFFERENCE);;
           r ← truncate_ledger_db (ledger_db disk) ledger overall (ledger - overall);
           expect_ok r);
      (if state_kv =? overall then Ret tt
       else rust_assert (state_kv - overall <=? MAX_COMMIT_PROGRESS_DIFFERENCE));;
      Ret (mkDisk d (state_kv_commit_progress disk))
  end.

(** [AptosDB::new_with_dbs]: the store is opened on what the synchronisation leaves. *)
Definition reopen (disk : Disk) : comp LedgerStore :=
  disk ← sync_commit_progress disk; Ret (LedgerStore_new (ledger_db disk)).

(** ** Committing *)

(** The versions of a [StateDelta]. *)
Record StateVersions : Type := mkStateVersions {
  base_version : option Z;
  current_version : option Z;
}.

Record AptosDB : Type := mkAptosDB {
  ledger_store : LedgerStore;
  state_kv_progress : option Z;
  buffered_state : StateVersions;
}.

Definition disk_of (self : AptosDB) : Disk := mkDisk (db (ledger_store self)) (state_kv_progress self).

Definition save_ledger_info (self : AptosDB) (new_root_hash : HashValue)
    (ledger_info_with_sigs : option LedgerInfoWithSignatures) (batch : SchemaBatch) :
    result unit SchemaBatch :=
  match ledger_info_with_sigs with
  | None => Ok batch
  | Some x =>
      let info := commit_info (ledger_info x) in
      if decide (new_root_hash = executed_state_id info) then
        let current_epoch :=
          match get_latest_ledger_info_option (ledger_store self) with
          | Some li => next_block_epoch (commit_info (ledger_info li))
          | None => 0
          end in
        if negb (bi_epoch info =? current_epoch) then Err tt else Ok (put_ledger_info x batch)
      else Err tt
  end.

(** [o.map(|version| version + 1).unwrap_or(0)]. *)
Definition next_version (o : option Z) : comp Z :=
  match o with Some v => u64_add v 1 | None => Ret 0 end.

(** [Some(v) >= None] and the order of versions. *)
Definition option_le (o o' : option Z) : bool :=
  match o, o' with
  | None, _ => true
  | Some _, None => false
  | Some v, Some v' => v <=? v'
  end.

(** The versions of [BufferedState::update]. *)
Definition buffered_state_update (self : StateVersions) (reaches_checkpoint : bool) (latest : StateVersions) :
    result unit StateVersions :=
  if negb (option_le (base_version self) (base_version latest)) then Err tt else
  if reaches_checkpoint then Ok latest else
  if decide (base_version latest = base_version self) then Ok latest else Err tt.

(** Whether the latest checkpoint is among the transactions of this commit; it has to be
    a checkpoint then. *)
Definition reaches_checkpoint (txns : list TransactionInfo) (first_version : Z) (latest : StateVersions) :
    comp (result unit bool) :=
  match base_version latest with
  | None => Ret (Ok false)
  | Some v =>
      if negb (first_version <=? v) then Ret (Ok false) else
      txn ← expect (txns !! Z.to_nat (v - first_version));
      Ret (if is_state_checkpoint txn then Ok true else Err tt)
  end.

(** What a commit did to the disk, write by write, and what it left. *)
Record Commit : Type := mkCommit {
  writes : list Disk;
  committed : AptosDB;
  returned : result unit unit;
}.

Definition with_disk (self : AptosDB) (disk : Disk) : AptosDB :=
  mkAptosDB (mkLedgerStore (ledger_db disk) (latest_ledger_info (ledger_store self)))
    (state_kv_commit_progress disk) (buffered_state self).

(** After the last durable write: the buffered state, and the cached ledger info. *)
Definition finish_commit (self : AptosDB) (txns : list TransactionInfo) (first_version : Z)
    (ledger_info_with_sigs : option LedgerInfoWithSignatures) (latest : StateVersions) :
    comp (AptosDB * result unit unit) :=
  r ← reaches_checkpoint txns first_version latest;
  match (reaches ← r; buffered_state_update (buffered_state self) reaches latest) with
  | Err e => Ret (self, Err e)
  | Ok buffered =>
      Ret (mkAptosDB
             (match ledger_info_with_sigs with
              | Some x => set_latest_ledger_info (ledger_store self) x
              | None => ledger_store self
              end) (state_kv_progress self) buffered, Ok tt)
  end.

(** The writes.  The two batches are written in parallel, so that a crash may leave one,
    the other or both. *)
Definition write_commit (self : AptosDB) (txns : list TransactionInfo) (first_version last_version : Z)
    (ledger_info_with_sigs : option LedgerInfoWithSignatures) (latest : StateVersions)
    (new_root_hash : HashValue) (ledger_batch : SchemaBatch) : comp Commit :=
  let d0 := db (ledger_store self) in
  let d1 := write_schemas d0 (ledger_batch ++ [PutLedgerCommitProgress last_version]) in
  let kv1 := Some last_version in
  let parallel := [mkDisk d0 kv1; mkDisk d1 (state_kv_progress self); mkDisk d1 kv1] in
  let self1 := with_disk self (mkDisk d1 kv1) in
  match save_ledger_info self1 new_root_hash ledger_info_with_sigs [] with
  | Err e => Ret (mkCommit parallel self1 (Err e))
  | Ok batch =>
      let d2 := write_schemas d1 (batch ++ [PutOverallCommitProgress last_version]) in
      '(self2, r) ← finish_commit (with_disk self (mkDisk d2 kv1)) txns first_version ledger_info_with_sigs latest;
      Ret (mkCommit (parallel ++ [mkDisk d2 kv1]) self2 r)
  end.

Definition save_transactions (self : AptosDB) (txns : list TransactionInfo) (first_version : Z)
    (base_state_version : option Z) (ledger_info_with_sigs : option LedgerInfoWithSignatures)
    (latest : StateVersions) : comp Commit :=
  let failed := mkCommit [] self (Err tt) in
  let num_txns := Z.of_nat (length txns) in
  if negb (bool_decide (is_Some ledger_info_with_sigs) || (0 <? num_txns)) then Ret failed else
  end_version ← u64_add first_version num_txns;
  last_version ← u64_sub end_version 1;
  if match ledger_info_with_sigs with
     | Some x => negb (bi_version (commit_info (ledger_info x)) =? last_version)
     | None => false
     end then Ret failed else
  r ← put_transaction_infos (ledger_store self) first_version txns [];
  match r with
  | Err _ => Ret failed
  | Ok (new_root_hash, ledger_batch) =>
      if decide (current_version latest = Some last_version) then
        if negb (bool_decide (base_state_version = base_version (buffered_state self))) then Ret failed else
        next_version_in_buffered_state ← next_version (current_version (buffered_state self));
        num_transactions_in_db ← next_version (fst <$> get_latest_transaction_info_option (ledger_store self));
        if negb ((num_transactions_in_db =? first_version) &&
                 (num_transactions_in_db =? next_version_in_buffered_state)) then Ret failed else
        write_commit self txns first_version last_version ledger_info_with_sigs latest
          new_root_hash ledger_batch
      else _ ← expect (current_version latest); Ret failed
  end.

(** ** What a truncation deletes *)

Lemma num_frozen_nodes_spec n : 0 ≤ n < 2 ^ 63 → num_frozen_nodes_in_accumulator n = Ret (frozen_nodes n).
Proof.
  intros Hn. unfold num_frozen_nodes_in_accumulator, frozen_nodes. pose proof (count_ones_le n ltac:(lia)).
  rewrite (proj2 (Z.leb_le _ u64_max)); [unfold u64_max; lia|]; run. by rewrite u64_sub_Ret; [lia|].
Qed.

Lemma frozen_nodes_bounds n : 0 < n → 0 < frozen_nodes n ≤ 2 * n.
Proof.
  intros Hn. unfold frozen_nodes. pose proof (count_ones_le n ltac:(lia)). pose proof (count_ones_nonneg n). lia.
Qed.

Lemma frozen_rows_length leaves :
  leaf_count leaves ≤ 2 ^ 63 → Z.of_nat (length (frozen_rows leaves)) = frozen_nodes (leaf_count leaves).
Proof.
  intros Hmax. unfold frozen_rows, leaf_count in *. rewrite hashes_length completed_length; [lia..|].
  change (frozen_nodes 0) with 0. rewrite Z.add_0_l. lia.
Qed.

Lemma delete_nodes_spec (xs : list HashValue) start k batch :
  0 ≤ start → start + Z.of_nat (length xs) < 2 ^ 64 - 2 → 0 ≤ k →
  delete_nodes (rows start xs) (Z.of_nat (length xs) + k) batch
  = Ret (Ok (k, batch ++ (DeleteTransactionAccumulator <$> seqZ start (Z.of_nat (length xs))))).
Proof.
  revert start batch; induction xs as [|x xs IH]; intros start batch Hs Hmax Hk.
  { cbn. by rewrite app_nil_r. }
  rewrite rows_cons. cbn [delete_nodes length]. unfold decode_row, decode_key, encode_key. cbn [fst].
  destruct (from_to_postorder start) as (v & Hv & Hback); [cbn in Hmax; lia|].
  rewrite Hv; run. cbn [try]. rewrite Hback; run. u64_run.
  replace (Z.of_nat (S (length xs)) + k - 1) with (Z.of_nat (length xs) + k) by lia.
  cbn [length] in Hmax. rewrite IH; [lia..|]. rewrite (seqZ_cons start); [lia|].
  cbn [fmap list_fmap]. rewrite -app_assoc. cbn [app].
  by replace (Z.pred (Z.of_nat (S (length xs)))) with (Z.of_nat (length xs)) by lia.
Qed.

Lemma truncate_accumulator_spec d leaves more batch :
  transaction_accumulator d = map_seqZ 0 (frozen_rows (leaves ++ more)) →
  more ≠ [] → leaf_count (leaves ++ more) ≤ 2 ^ 63 - 32 →
  truncate_transaction_accumulator d (leaf_count leaves) (leaf_count (leaves ++ more)) batch
  = Ret (Ok (batch ++ (DeleteTransactionAccumulator <$>
      seqZ (frozen_nodes (leaf_count leaves))
        (frozen_nodes (leaf_count (leaves ++ more)) - frozen_nodes (leaf_count leaves))))).
Proof.
  intros Hd Hne Hmax. unfold truncate_transaction_accumulator. pose proof (leaf_count_nonneg leaves) as Hn.
  assert (0 < leaf_count (leaves ++ more) ∧ leaf_count leaves ≤ leaf_count (leaves ++ more)) as [Hpos Hle].
  { rewrite leaf_count_app. destruct more; [done|]. unfold leaf_count. cbn [length]. lia. }
  pose proof (frozen_rows_length (leaves ++ more) ltac:(lia)) as HN.
  pose proof (frozen_nodes_bounds _ Hpos) as HNb.
  rewrite (num_frozen_nodes_spec (leaf_count (leaves ++ more))); [lia|]; run.
  assert (∃ rs r, frozen_rows (leaves ++ more) = rs ++ [r]) as (rs & r & Hlast).
  { destruct (frozen_rows (leaves ++ more)) as [|x xs] eqn:Hrows using rev_ind; [cbn in HN; lia|eauto]. }
  assert (Z.of_nat (length rs) + 1 = frozen_nodes (leaf_count (leaves ++ more))) as Hrs.
  { rewrite -HN Hlast length_app. cbn. lia. }
  assert (seek_to_last (transaction_accumulator d) = Some (Z.of_nat (length rs), r)) as ->.
  { rewrite Hd Hlast. apply seek_to_last_array. }
  cbn [expect]; run. unfold decode_row, decode_key, encode_key; cbn [fst].
  destruct (from_to_postorder (Z.of_nat (length rs))) as (v & Hv & Hback); [lia|].
  rewrite Hv; run. cbn [try]. rewrite Hback; run. u64_run.
  rewrite Hrs Z.eqb_refl. cbn [rust_assert]; run. rewrite (num_frozen_nodes_spec (leaf_count leaves)); [lia|]; run.
  set (n := frozen_nodes (leaf_count leaves)) in *. set (N := frozen_nodes (leaf_count (leaves ++ more))) in *.
  pose proof (frozen_rows_app leaves more ltac:(lia)) as Happ.
  pose proof (frozen_rows_length leaves ltac:(lia)) as Hfn. fold n in Hfn.
  pose proof (f_equal length Happ) as Hlen. rewrite length_app in Hlen.
  u64_run.
  destruct (from_to_postorder n) as (w & Hw & Hwback); [lia|]. rewrite Hw; run. cbn [try]. rewrite Hwback; run.
  rewrite Hd Happ seek_array; [lia|]. rewrite drop_app_length'; [lia|].
  set (new := hashes _ _) in *. replace (N - n) with (Z.of_nat (length new) + 0) by lia.
  rewrite delete_nodes_spec; [lia..|]; run. cbn [try rust_assert]. by rewrite Z.add_0_r.
Qed.

Lemma write_delete_nodes d ks :
  write_schemas d (DeleteTransactionAccumulator <$> ks) = with_accumulator (λ m, foldl (λ m k, delete k m) m ks) d.
Proof. revert d; induction ks as [|k ks IH]; intros d; [by destruct d|]. cbn [fmap list_fmap write_schemas foldl]. apply IH. Qed.

Lemma write_delete_infos d vs :
  write_schemas d (DeleteTransactionInfo <$> vs) = with_infos (λ m, foldl (λ m k, delete k m) m vs) d.
Proof. revert d; induction vs as [|v vs IH]; intros d; [by destruct d|]. cbn [fmap list_fmap write_schemas foldl]. apply IH. Qed.

(** No ledger info and no end of an epoch is at or above a version. *)
Definition epochs_below (d : DB) (v : Z) : Prop :=
  map_Forall (λ _ li, bi_version (commit_info (ledger_info li)) < v) (ledger_info_by_epoch d) ∧
  map_Forall (λ version _, version < v) (epoch_by_version d).

Lemma last_elem {A} (l : list A) x : last l = Some x → x ∈ l.
Proof. intros [l' ->]%last_Some. set_solver. Qed.

Lemma delete_per_epoch_data_none d start_version end_version batch :
  epochs_below d start_version → start_version ≤ end_version →
  delete_per_epoch_data d start_version end_version batch = Ret batch.
Proof.
  intros [Hli Hep] Hle. unfold delete_per_epoch_data.
  assert (seek (epoch_by_version d) start_version = []) as ->.
  { destruct (seek _ _) as [|[v e] rows'] eqn:Hseek; [done|].
    assert ((v, e) ∈ seek (epoch_by_version d) start_version) as Hin by (rewrite Hseek; left).
    apply list_elem_of_filter in Hin as [Hge Hin]. apply elem_of_btree_iter, Hep in Hin. cbn in *. lia. }
  destruct (seek_to_last (ledger_info_by_epoch d)) as [[e li]|] eqn:Hlast; [|done].
  apply last_elem, elem_of_btree_iter, Hli in Hlast. cbn [ledger_info commit_info] in Hlast.
  rewrite (proj2 (Z.ltb_lt _ end_version)); [lia|]. cbn [rust_assert]; run.
  by rewrite (proj2 (Z.leb_gt _ _)).
Qed.

(** One batch deletes the last transactions and the nodes they completed. *)
Lemma single_batch_spec d infos more :
  holds d (infos ++ more) → Z.of_nat (length (infos ++ more)) ≤ 2 ^ 63 - 32 → more ≠ [] →
  epochs_below d (Z.of_nat (length infos)) →
  ∃ d', truncate_ledger_db_single_batch d (Z.of_nat (length infos)) (Z.of_nat (length (infos ++ more)))
        = Ret (Ok d') ∧ holds d' infos ∧ same_epochs d d'.
Proof.
  intros [Hinfo Hacc] Hmax Hmore Hep. rewrite fmap_app in Hacc.
  set (leaves := TransactionInfo_hash <$> infos) in *. set (leaves' := TransactionInfo_hash <$> more) in *.
  assert (Z.of_nat (length infos) = leaf_count leaves) as Hn by (unfold leaf_count, leaves; by rewrite length_fmap).
  assert (Z.of_nat (length (infos ++ more)) = leaf_count (leaves ++ leaves')) as HN.
  { unfold leaf_count, leaves, leaves'. by rewrite -fmap_app length_fmap. }
  assert (Z.of_nat (length (infos ++ more)) - Z.of_nat (length infos) = Z.of_nat (length more)) as Hk
    by (rewrite length_app; lia).
  set (ks := seqZ (frozen_nodes (leaf_count leaves))
    (frozen_nodes (leaf_count (leaves ++ leaves')) - frozen_nodes (leaf_count leaves))).
  exists (write_schemas d ((DeleteTransactionInfo <$> seqZ (Z.of_nat (length infos)) (Z.of_nat (length more))) ++
                           (DeleteTransactionAccumulator <$> ks))).
  rewrite write_schemas_app write_delete_infos write_delete_nodes. split_and!.
  - unfold truncate_ledger_db_single_batch.
    rewrite delete_per_epoch_data_none; [done|rewrite length_app; lia|]; run.
    unfold delete_per_version_data. rewrite Hk Hn HN truncate_accumulator_spec; [done|by destruct more|lia|]; run.
    cbn [app]. by rewrite -write_delete_nodes -write_delete_infos -write_schemas_app.
  - split; cbn; [by rewrite Hinfo delete_end|]. rewrite Hacc. fold leaves.
    rewrite frozen_rows_app; [lia|]. set (new := hashes _ _).
    assert (ks = seqZ (Z.of_nat (length (frozen_rows leaves))) (Z.of_nat (length new))) as ->.
    { pose proof (f_equal length (frozen_rows_app leaves leaves' ltac:(lia))) as Hlen.
      rewrite length_app in Hlen. fold new in Hlen.
      pose proof (frozen_rows_length leaves) as H1. pose proof (frozen_rows_length (leaves ++ leaves')) as H2.
      pose proof (leaf_count_app leaves leaves'). pose proof (leaf_count_nonneg leaves').
      unfold ks. f_equal; lia. }
    apply delete_end.
  - done.
Qed.

(** Truncating to the transactions before the last ones. *)
Lemma truncate_spec d infos more :
  holds d (infos ++ more) → Z.of_nat (length (infos ++ more)) ≤ 2 ^ 63 - 32 → more ≠ [] → infos ≠ [] →
  epochs_below d (Z.of_nat (length infos)) →
  ∃ d', truncate_ledger_db d (Z.of_nat (length (infos ++ more)) - 1) (Z.of_nat (length infos) - 1)
          (Z.of_nat (length more)) = Ret (Ok d') ∧
    holds d' infos ∧ same_epochs d d'.
Proof.
  intros Hh Hmax Hmore Hinfos Hep. destruct (single_batch_spec d infos more) as (d' & Hrun & Hd'); [done..|].
  exists d'. split; [|done].
  set (n := Z.of_nat (length infos)) in *. set (N := Z.of_nat (length (infos ++ more))) in *.
  assert (N = n + Z.of_nat (length more)) as HN by (unfold N, n; rewrite length_app; lia).
  assert (0 < n ∧ (0 < length more)%nat) as [Hn Hk] by (destruct infos, more; try done; unfold n; cbn; lia).
  unfold truncate_ledger_db. replace (Z.to_nat (N - 1 - (n - 1))) with (S (length more - 1)) by lia.
  cbn [truncate_loop]. rewrite (proj2 (Z.ltb_lt (n - 1) (N - 1))); [lia|]. cbn [negb].
  u64_run.
  replace (Z.max _ _) with n by lia. replace (N - 1 + 1) with N by lia. rewrite Hrun; run. cbn [try].
  assert (∀ fuel, truncate_loop fuel d' (n - 1) (n - 1) (Z.of_nat (length more)) = Ret (Ok (d', n - 1))) as Hend.
  { intros fuel. destruct fuel; cbn [truncate_loop]; by rewrite Z.ltb_irrefl. }
  rewrite Hend; run. cbn [try]. by rewrite Z.eqb_refl.
Qed.

(** ** Consistent databases *)

Definition info_of (li : LedgerInfoWithSignatures) : BlockInfo := commit_info (ledger_info li).

(** A ledger info of the ledger of [infos]; the epoch it starts is the next one. *)
Record ledger_info_ok (infos : list TransactionInfo) (li : LedgerInfoWithSignatures) : Prop := {
  li_range : 0 ≤ bi_version (info_of li) < Z.of_nat (length infos);
  li_root : executed_state_id (info_of li) = root_of (leaves_at infos (bi_version (info_of li)));
  li_next es : next_epoch_state (info_of li) = Some es → es_epoch es = bi_epoch (info_of li) + 1;
}.

(** A ledger database with all of [infos] committed. *)
Record ledger_ok (d : DB) (infos : list TransactionInfo) : Prop := {
  ok_holds : holds d infos;
  ok_overall : overall_commit_progress d = Some (Z.of_nat (length infos) - 1);
  ok_ledger_infos : map_Forall (λ e li, bi_epoch (info_of li) = e ∧ ledger_info_ok infos li) (ledger_info_by_epoch d);
  ok_epochs : map_Forall (λ v _, v < Z.of_nat (length infos)) (epoch_by_version d);
}.

(** A running database. *)
Record db_ok (self : AptosDB) (infos : list TransactionInfo) : Prop := {
  ok_ledger : ledger_ok (db (ledger_store self)) infos;
  ok_some : infos ≠ [];
  ok_progress : ledger_commit_progress (db (ledger_store self)) = Some (Z.of_nat (length infos) - 1);
  ok_state_kv : state_kv_progress self = Some (Z.of_nat (length infos) - 1);
  ok_latest : latest_ledger_info (ledger_store self) = snd <$> seek_to_last (ledger_info_by_epoch (db (ledger_store self)));
}.

Lemma ledger_ok_below d infos : ledger_ok d infos → epochs_below d (Z.of_nat (length infos)).
Proof.
  intros [_ _ Hli Hep]. split; [|done]. intros e li Hlook. destruct (Hli _ _ Hlook) as [_ [[_ ?] _ _]]. done.
Qed.

Lemma leaves_at_app infos more v :
  -1 ≤ v < Z.of_nat (length infos) → leaves_at (infos ++ more) v = leaves_at infos v.
Proof.
  intros Hv. unfold leaves_at. rewrite fmap_app take_app_le //. rewrite length_fmap. lia.
Qed.

Lemma leaves_at_all infos v :
  v = Z.of_nat (length infos) - 1 → leaves_at infos v = TransactionInfo_hash <$> infos.
Proof. intros ->. unfold leaves_at. rewrite take_ge // length_fmap. lia. Qed.

Lemma ledger_info_ok_app infos more li : ledger_info_ok infos li → ledger_info_ok (infos ++ more) li.
Proof.
  intros [Hr Hroot Hnext]. split; [rewrite length_app; lia| |done]. rewrite leaves_at_app //. lia.
Qed.

Lemma latest_version self infos :
  holds (db self) infos → infos ≠ [] →
  fst <$> get_latest_transaction_info_option self = Some (Z.of_nat (length infos) - 1).
Proof.
  intros [Hinfo _] Hne. unfold get_latest_transaction_info_option. rewrite Hinfo.
  destruct infos as [|info infos _] using rev_ind; [done|]. rewrite seek_to_last_array length_app. cbn. f_equal. lia.
Qed.

Lemma put_ledger_info_columns d x v infos :
  let d' := write_schemas d (put_ledger_info x [] ++ [PutOverallCommitProgress v]) in
  (holds d infos → holds d' infos) ∧
  ledger_info_by_epoch d' = <[bi_epoch (info_of x) := x]> (ledger_info_by_epoch d) ∧
  epoch_by_version d'
  = (if ends_epoch (ledger_info x) then <[bi_version (info_of x) := bi_epoch (info_of x)]> (epoch_by_version d)
     else epoch_by_version d) ∧
  ledger_commit_progress d' = ledger_commit_progress d ∧ overall_commit_progress d' = Some v.
Proof. unfold put_ledger_info. destruct (ends_epoch _); cbn; eauto 10. Qed.

(** ** The writes of a commit *)

Section commit.
Context (self : AptosDB) (infos txns : list TransactionInfo) (ops : SchemaBatch).
Context (good : db_ok self infos) (fits : Z.of_nat (length (infos ++ txns)) ≤ 2 ^ 63 - 32).
Context (small : Z.of_nat (length txns) ≤ MAX_COMMIT_PROGRESS_DIFFERENCE).

Let d0 := db (ledger_store self).
Let last_version := Z.of_nat (length (infos ++ txns)) - 1.
Let d1 := write_schemas d0 (ops ++ [PutLedgerCommitProgress last_version]).

Context (written : holds (write_schemas d0 ops) (infos ++ txns)).
Context (untouched : same_epochs d0 (write_schemas d0 ops)).

Lemma d1_columns :
  holds d1 (infos ++ txns) ∧ ledger_info_by_epoch d1 = ledger_info_by_epoch d0 ∧
  epoch_by_version d1 = epoch_by_version d0 ∧ ledger_commit_progress d1 = Some last_version ∧
  overall_commit_progress d1 = Some (Z.of_nat (length infos) - 1).
Proof.
  unfold d1. rewrite write_schemas_app. destruct untouched as (H1 & H2 & _ & H4). destruct written as [H5 H6].
  cbn. rewrite H1 H2 H4. split_and!; try done. apply good.
Qed.

(** Recovery before the last write gives the old transactions back. *)
Lemma sync_d1 (kv : Z) :
  Z.of_nat (length infos) - 1 ≤ kv ≤ last_version →
  ∃ d, sync_commit_progress (mkDisk d1 (Some kv)) = Ret (mkDisk d (Some kv)) ∧ ledger_ok d infos ∧
    ledger_commit_progress d = Some last_version.
Proof.
  intros Hkv. destruct d1_columns as (Hh & Hlis & Heps & Hl & Ho). destruct good as [[Hh0 Ho0 Hli0 Hep0] Hne _ _ _].
  assert (last_version = Z.of_nat (length infos) - 1 + Z.of_nat (length txns)) as Hlast.
  { unfold last_version. rewrite length_app. lia. }
  unfold sync_commit_progress. cbn [ledger_db state_kv_commit_progress]. rewrite Ho Hl. cbn [expect]; run.
  rewrite !(proj2 (Z.leb_le (Z.of_nat (length infos) - 1) _)); [lia..|]. cbn [rust_assert]; run.
  assert ((if kv =? Z.of_nat (length infos) - 1 then Ret tt
    else rust_assert (kv - (Z.of_nat (length infos) - 1) <=? MAX_COMMIT_PROGRESS_DIFFERENCE)) = Ret tt) as Hkvok.
  { destruct (kv =? _); [done|]. by rewrite (proj2 (Z.leb_le _ _)); [lia|]. }
  destruct (decide (txns = [])) as [Hnil|Htxns].
  - rewrite (proj2 (Z.eqb_eq last_version _)); [rewrite Hlast Hnil; cbn; lia|]; run. rewrite Hkvok; run.
    exists d1. split; [done|]. rewrite Hnil app_nil_r in Hh. split; [|done]. split; [done|done|by rewrite Hlis|by rewrite Heps].
  - assert (0 < Z.of_nat (length txns)) by (destruct txns; [done|cbn; lia]).
    rewrite (proj2 (Z.eqb_neq last_version _)); [lia|].
    replace (last_version - (Z.of_nat (length infos) - 1)) with (Z.of_nat (length txns)) by lia.
    rewrite (proj2 (Z.leb_le _ _) small). cbn [rust_assert]; run.
    destruct (truncate_spec d1 infos txns) as (d & Hrun & Hd & Hl1 & He1 & Hp1 & Ho1); [done..| |].
    { destruct (ledger_ok_below d0 infos) as [Hb1 Hb2]; [by split|]. by split; rewrite ?Hlis ?Heps. }
    rewrite [truncate_ledger_db _ _ _ _]Hrun; run. cbn [expect_ok]; run. rewrite Hkvok; run.
    exists d. split; [done|]. rewrite Hp1 Hl. split; [|done]. split; [done|by rewrite Ho1|by rewrite Hl1 Hlis|by rewrite He1 Heps].
Qed.

(** The current epoch is not below any epoch of the column. *)
Lemma current_epoch_max e :
  is_Some (ledger_info_by_epoch d0 !! e) →
  e ≤ match latest_ledger_info (ledger_store self) with
      | Some li => next_block_epoch (commit_info (ledger_info li))
      | None => 0
      end.
Proof.
  intros He. destruct good as [[_ _ Hlis _] _ _ _ Hlatest]. rewrite Hlatest. fold d0 in Hlis |- *.
  destruct (seek_to_last (ledger_info_by_epoch d0)) as [[e' li]|] eqn:Hlast; cbn.
  - apply seek_to_last_Some in Hlast as [Hli Hmax]. destruct (Hlis _ _ Hli) as [He' [_ _ Hnext]].
    specialize (Hmax e He). unfold next_block_epoch, info_of in *.
    destruct (next_epoch_state _) as [es|]; [rewrite (Hnext es eq_refl)|]; lia.
  - destruct He as [li He]. apply last_None in Hlast. apply elem_of_btree_iter in He.
    rewrite Hlast in He. by apply elem_of_nil in He.
Qed.

(** The last write. *)
Lemma last_write kv li batch :
  save_ledger_info (with_disk self (mkDisk d1 kv)) (root_of (TransactionInfo_hash <$> (infos ++ txns))) li [] = Ok batch →
  (∀ x, li = Some x → bi_version (info_of x) = last_version ∧
     ∀ es, next_epoch_state (info_of x) = Some es → es_epoch es = bi_epoch (info_of x) + 1) →
  let d2 := write_schemas d1 (batch ++ [PutOverallCommitProgress last_version]) in
  ledger_ok d2 (infos ++ txns) ∧ ledger_commit_progress d2 = Some last_version ∧
  snd <$> seek_to_last (ledger_info_by_epoch d2)
  = match li with Some x => Some x | None => latest_ledger_info (ledger_store self) end.
Proof.
  intros Hsave Hli d2. destruct d1_columns as (Hh & Hlis & Heps & Hl & _).
  destruct (good) as [[_ _ Hli0 Hep0] Hne _ _ Hlatest].
  assert (map_Forall (λ e x, bi_epoch (info_of x) = e ∧ ledger_info_ok (infos ++ txns) x) (ledger_info_by_epoch d0)) as Hold.
  { eapply map_Forall_impl; [exact Hli0|]. intros e x [? ?]. split; [done|by apply ledger_info_ok_app]. }
  assert (map_Forall (λ v _, v < Z.of_nat (length (infos ++ txns))) (epoch_by_version d0)) as Hold'.
  { eapply map_Forall_impl; [exact Hep0|]. intros v e Hv. cbn in Hv. rewrite length_app. lia. }
  unfold save_ledger_info in Hsave. destruct li as [x|].
  - case_decide as Hroot; [|done]. cbn [ledger_store with_disk get_latest_ledger_info_option latest_ledger_info] in Hsave.
    destruct (Z.eqb_spec (bi_epoch (commit_info (ledger_info x)))
      (match latest_ledger_info (ledger_store self) with
       | Some li => next_block_epoch (commit_info (ledger_info li)) | None => 0 end)) as [Hepoch|]; [|done].
    injection Hsave as <-. destruct (Hli x eq_refl) as [Hv Hnext].
    assert (ledger_info_ok (infos ++ txns) x) as Hx.
    { split; [|by rewrite -Hroot leaves_at_all|done]. rewrite Hv. unfold last_version. rewrite length_app.
      destruct infos; [done|cbn; lia]. }
    destruct (put_ledger_info_columns d1 x last_version (infos ++ txns)) as (H1 & H2 & H3 & H4 & H5).
    fold d2 in H1, H2, H3, H4, H5. rewrite Hlis in H2. rewrite Heps in H3. split_and!; [|congruence|].
    + split; [by apply H1|by rewrite H5| |].
      * rewrite H2. by apply map_Forall_insert_2.
      * rewrite H3. destruct (ends_epoch _); [|done]. apply map_Forall_insert_2; [|done]. rewrite Hv. unfold last_version. lia.
    + rewrite H2. assert (seek_to_last (<[bi_epoch (info_of x):=x]> (ledger_info_by_epoch d0)) = Some (bi_epoch (info_of x), x)) as ->;
        [|done].
      apply seek_to_last_Some. split; [apply lookup_insert_eq|]. intros e He.
      destruct (decide (e = bi_epoch (info_of x))) as [->|Hne']; [lia|]. rewrite lookup_insert_ne // in He.
      unfold info_of. rewrite Hepoch. by apply current_epoch_max.
  - injection Hsave as <-. unfold d2; cbn. rewrite Hlis Hl Hlatest. split_and!; [|done|done].
    split; [done|done|by rewrite /= Hlis|by rewrite /= Heps].
Qed.

Definition recovers (disk : Disk) : Prop :=
  ∃ store, reopen disk = Ret store ∧ (ledger_ok (db store) infos ∨ ledger_ok (db store) (infos ++ txns)).

(** A disk whose progress agrees is left as it is. *)
Lemma sync_agrees d kv n :
  ledger_commit_progress d = Some n → overall_commit_progress d = Some n →
  n ≤ kv ≤ n + MAX_COMMIT_PROGRESS_DIFFERENCE →
  sync_commit_progress (mkDisk d (Some kv)) = Ret (mkDisk d (Some kv)).
Proof.
  intros Hl Ho Hkv. unfold sync_commit_progress. cbn [ledger_db state_kv_commit_progress]. rewrite Hl Ho.
  cbn [expect]; run. rewrite Z.leb_refl (proj2 (Z.leb_le n kv)); [lia|]. cbn [rust_assert]; run. rewrite Z.eqb_refl; run.
  destruct (kv =? n); [done|]. by rewrite (proj2 (Z.leb_le _ MAX_COMMIT_PROGRESS_DIFFERENCE)); [lia|].
Qed.

Lemma last_version_bounds :
  Z.of_nat (length infos) - 1 ≤ last_version ≤ Z.of_nat (length infos) - 1 + MAX_COMMIT_PROGRESS_DIFFERENCE.
Proof. unfold last_version. rewrite length_app. lia. Qed.

(** After the writes of the two batches, whichever of them a crash lets through. *)
Lemma parallel_recovers disk :
  disk ∈ [mkDisk d0 (Some last_version); mkDisk d1 (state_kv_progress self); mkDisk d1 (Some last_version)] →
  recovers disk.
Proof.
  pose proof last_version_bounds. destruct (good) as [Hok _ Hp Hkv _].
  assert (∀ kv, Z.of_nat (length infos) - 1 ≤ kv ≤ last_version → recovers (mkDisk d1 (Some kv))) as Hd1.
  { intros kv Hb. destruct (sync_d1 kv Hb) as (d & Hsync & Hd & _). exists (LedgerStore_new d).
    split; [|by left]. unfold reopen. by rewrite Hsync. }
  rewrite !elem_of_cons elem_of_nil. intros [->|[->|[->|[]]]].
  - exists (LedgerStore_new d0). split; [|by left]. unfold reopen.
    rewrite (sync_agrees _ _ (Z.of_nat (length infos) - 1)); [done|apply Hok|lia|done].
  - rewrite Hkv. apply Hd1. lia.
  - apply Hd1. lia.
Qed.

Lemma write_commit_spec first_version li latest c :
  (∀ x, li = Some x → bi_version (info_of x) = last_version ∧
     ∀ es, next_epoch_state (info_of x) = Some es → es_epoch es = bi_epoch (info_of x) + 1) →
  write_commit self txns first_version last_version li latest
    (root_of (TransactionInfo_hash <$> (infos ++ txns))) ops = Ret c →
  (∀ disk, disk ∈ writes c → recovers disk) ∧ disk_of (committed c) ∈ writes c ∧
  (returned c = Ok tt → db_ok (committed c) (infos ++ txns)).
Proof.
  intros Hli. unfold write_commit. fold d0 d1. destruct (save_ledger_info _ _ _ _) as [batch|e] eqn:Hsave.
  - destruct (last_write _ _ _ Hsave Hli) as (Hok & Hl & Hlast). set (d2 := write_schemas d1 _) in *.
    intros Hc. apply bind_Ret in Hc as ([self2 r] & Hfin & [= <-]). cbn [writes committed returned].
    assert (disk_of self2 = mkDisk d2 (Some last_version) ∧
      (r = Ok tt → latest_ledger_info (ledger_store self2)
         = match li with Some x => Some x | None => latest_ledger_info (ledger_store self) end)) as [Hdisk Hcache].
    { unfold finish_commit in Hfin. apply bind_Ret in Hfin as (o & _ & Hfin).
      destruct (_ ≫= _) in Hfin; injection Hfin as <- <-; [|done]. by destruct li. }
    split_and!.
    + intros disk Hin. apply (elem_of_app [_; _; _] [_]) in Hin as [Hin|Hin]; [by apply parallel_recovers|].
      apply list_elem_of_singleton in Hin as ->. exists (LedgerStore_new d2). split; [|by right]. unfold reopen.
      rewrite (sync_agrees _ _ last_version); [done| |unfold MAX_COMMIT_PROGRESS_DIFFERENCE; lia|done].
      rewrite (ok_overall _ _ Hok). done.
    + rewrite Hdisk !elem_of_cons. auto.
    + intros Hr. unfold disk_of in Hdisk. injection Hdisk as Hd Hkv. split; rewrite ?Hd //.
      * pose proof (ok_some _ _ good). by destruct infos.
      * by rewrite Hcache // Hlast.
  - intros [= <-]. cbn [writes committed returned]. split_and!; [apply parallel_recovers| |done].
    cbn. rewrite !elem_of_cons. auto.
Qed.
End commit.

(** A call fails before it writes, or writes the batches for the transactions that come
    next. *)
Lemma save_transactions_cases self infos txns first_version base li latest c :
  db_ok self infos → Z.of_nat (length (infos ++ txns)) ≤ 2 ^ 63 - 32 →
  save_transactions self txns first_version base li latest = Ret c →
  c = mkCommit [] self (Err tt) ∨
  let last_version := Z.of_nat (length (infos ++ txns)) - 1 in
  ∃ ops, holds (write_schemas (db (ledger_store self)) ops) (infos ++ txns) ∧
    same_epochs (db (ledger_store self)) (write_schemas (db (ledger_store self)) ops) ∧
    (∀ x, li = Some x → bi_version (info_of x) = last_version) ∧
    write_commit self txns first_version last_version li latest
      (root_of (TransactionInfo_hash <$> (infos ++ txns))) ops = Ret c.
Proof.
  intros Hok Hmax Hrun. unfold save_transactions in Hrun. rewrite length_app in Hmax |- *.
  destruct (negb _); [left; by injection Hrun|]. apply bind_Ret in Hrun as (end_version & Hend & Hrun).
  apply bind_Ret in Hrun as (last_version & Hlast & Hrun).
  destruct (match li with Some _ => _ | None => _ end) eqn:Hclaim; [left; by injection Hrun|].
  apply bind_Ret in Hrun as (r & Hput & Hrun). destruct r as [[root batch]|]; [|left; by injection Hrun].
  case_decide; [|apply bind_Ret in Hrun as (? & _ & Hrun); left; by injection Hrun].
  destruct (negb _); [left; by injection Hrun|]. apply bind_Ret in Hrun as (next & _ & Hrun).
  apply bind_Ret in Hrun as (num & Hnum & Hrun). destruct (negb _) eqn:Hguard; [left; by injection Hrun|].
  apply negb_false_iff, andb_true_iff in Hguard as [Hfirst%Z.eqb_eq _]. right.
  destruct (Hok) as [[Hh _ _ _] Hne _ _ _]. rewrite (latest_version _ _ Hh Hne) in Hnum. cbn [next_version] in Hnum.
  rewrite u64_add_Ret in Hnum; [unfold u64_max; lia|]. injection Hnum as Hnum.
  assert (first_version = Z.of_nat (length infos)) as -> by lia.
  rewrite u64_add_Ret in Hend; [unfold u64_max; lia|]. injection Hend as <-.
  rewrite u64_sub_Ret in Hlast; [destruct infos; [done|cbn; lia]|]. injection Hlast as <-.
  destruct (put_transaction_infos_spec (ledger_store self) infos txns []) as (ops & Hops & Hholds & Hsame); [done| |].
  { unfold leaf_count. rewrite length_fmap length_app. lia. }
  rewrite Hops in Hput. injection Hput as <- <-. cbn zeta.
  replace (Z.of_nat (length infos + length txns) - 1)
    with (Z.of_nat (length infos) + Z.of_nat (length txns) - 1) by lia.
  exists ops. split_and!; [done|done| |done]. intros x ->. apply negb_false_iff, Z.eqb_eq in Hclaim. exact Hclaim.
Qed.


(** ** Restarting twice *)

Lemma frozen_nodes_lt m (k : nat) : 0 ≤ m → (0 < k)%nat → m + Z.of_nat k ≤ 2 ^ 63 → frozen_nodes m < frozen_nodes (m + Z.of_nat k).
Proof.
  intros Hm Hk Hmax. pose proof (completed_length m k Hm Hmax) as Hlen. destruct k as [|k]; [lia|].
  cbn [completed] in Hlen. rewrite length_app in Hlen. cbn [completed_by length] in Hlen. lia.
Qed.

(** Truncating what is not there fails the assertion on the number of nodes. *)
Lemma truncate_again d infos (k : nat) :
  holds d infos → infos ≠ [] → (0 < k)%nat → Z.of_nat (length infos) + Z.of_nat k ≤ 2 ^ 63 - 32 →
  epochs_below d (Z.of_nat (length infos)) →
  truncate_ledger_db d (Z.of_nat (length infos) + Z.of_nat k - 1) (Z.of_nat (length infos) - 1) (Z.of_nat k) = Panic.
Proof.
  intros [_ Hacc] Hne Hk Hmax Hep. set (n := Z.of_nat (length infos)) in *.
  assert (0 < n) as Hn by (destruct infos; [done|unfold n; cbn; lia]).
  unfold truncate_ledger_db. replace (Z.to_nat (n + Z.of_nat k - 1 - (n - 1))) with (S (k - 1)) by lia.
  cbn [truncate_loop]. rewrite (proj2 (Z.ltb_lt (n - 1) _)); [lia|]. cbn [negb].
  u64_run.
  replace (Z.max _ _) with n by lia. replace (n + Z.of_nat k - 1 + 1) with (n + Z.of_nat k) by lia.
  unfold truncate_ledger_db_single_batch. rewrite delete_per_epoch_data_none; [done|lia|]; run.
  set (leaves := TransactionInfo_hash <$> infos) in *.
  assert (leaf_count leaves = n) as Hcount by (unfold leaf_count, leaves; by rewrite length_fmap).
  pose proof (frozen_rows_length leaves ltac:(lia)) as HN. pose proof (frozen_nodes_bounds n Hn) as HNb. rewrite Hcount in HN.
  destruct (frozen_rows leaves) as [|r rs _] eqn:Hrows using rev_ind; [cbn in HN; lia|].
  unfold truncate_transaction_accumulator. rewrite (num_frozen_nodes_spec (n + Z.of_nat k)); [lia|]; run.
  rewrite Hacc seek_to_last_array. cbn [expect]; run. unfold decode_row, decode_key; cbn [fst].
  rewrite length_app in HN. cbn [length] in HN.
  destruct (from_to_postorder (Z.of_nat (length rs))) as (v & Hv & Hback); [lia|].
  rewrite Hv; run. cbn [try]. rewrite Hback; run. u64_run.
  pose proof (frozen_nodes_lt n k ltac:(lia) Hk ltac:(lia)).
  by rewrite (proj2 (Z.eqb_neq _ _)); [lia|].
Qed.

(** C38: The recovery from a crash does not record that it is done.  When a crash comes
    after the two batches and before the last write, the first restart truncates the
    transactions and gives the old ledger back, but leaves the commit progress of the
    ledger database as it was.  A second restart, with no commit in between, truncates
    again and panics on an assertion: the database can no longer be opened. *)
Theorem second_restart_panics self infos txns first_version base li latest c disk :
  db_ok self infos → Z.of_nat (length (infos ++ txns)) ≤ 2 ^ 63 - 32 →
  0 < Z.of_nat (length txns) ≤ MAX_COMMIT_PROGRESS_DIFFERENCE →
  save_transactions self txns first_version base li latest = Ret c → writes c !! 2%nat = Some disk →
  ∃ disk', sync_commit_progress disk = Ret disk' ∧ ledger_ok (ledger_db disk') infos ∧ reopen disk' = Panic.
Proof.
  intros Hok Hmax Hsmall Hrun Hdisk.
  destruct (save_transactions_cases _ _ _ _ _ _ _ _ Hok Hmax Hrun) as [->|(ops & Hholds & Hsame & _ & Hwrite)]; [done|].
  set (last_version := Z.of_nat (length (infos ++ txns)) - 1) in *.
  assert (disk = mkDisk (write_schemas (db (ledger_store self)) (ops ++ [PutLedgerCommitProgress last_version]))
                   (Some last_version)) as ->.
  { unfold write_commit in Hwrite. destruct (save_ledger_info _ _ _ _).
    - apply bind_Ret in Hwrite as ([] & _ & [= <-]). by injection Hdisk.
    - injection Hwrite as <-. by injection Hdisk. }
  assert (last_version = Z.of_nat (length infos) + Z.of_nat (length txns) - 1) as Hlast.
  { unfold last_version. rewrite length_app. lia. }
  destruct (sync_d1 self infos txns ops Hok Hmax ltac:(lia) Hholds Hsame last_version) as (d & Hsync & Hd & Hl); [lia|].
  eexists. split; [exact Hsync|]. split; [done|]. unfold reopen, sync_commit_progress.
  cbn [ledger_db state_kv_commit_progress]. rewrite (ok_overall _ _ Hd) Hl. cbn [expect]; run. fold last_version.
  rewrite !(proj2 (Z.leb_le (Z.of_nat (length infos) - 1) last_version)); [lia|]. cbn [rust_assert]; run.
  rewrite (proj2 (Z.eqb_neq last_version _)); [lia|].
  replace (last_version - (Z.of_nat (length infos) - 1)) with (Z.of_nat (length txns)) by lia.
  rewrite (proj2 (Z.leb_le (Z.of_nat (length txns)) _)); [lia|]. cbn [rust_assert]; run.
  rewrite Hlast truncate_again //; [apply Hd|apply Hok|lia| |by apply ledger_ok_below].
  rewrite length_app in Hmax. lia.
Qed.

(** Commits go through: a call with the transactions that come next, for a ledger info
    of their last version, root hash and epoch, returns [Ok]. *)
Lemma commit_succeeds self infos txns li latest reaches buffered :
  db_ok self infos → Z.of_nat (length (infos ++ txns)) ≤ 2 ^ 63 - 32 → (0 < length txns)%nat →
  let last_version := Z.of_nat (length (infos ++ txns)) - 1 in
  current_version (buffered_state self) = Some (Z.of_nat (length infos) - 1) →
  current_version latest = Some last_version →
  reaches_checkpoint txns (Z.of_nat (length infos)) latest = Ret (Ok reaches) →
  buffered_state_update (buffered_state self) reaches latest = Ok buffered →
  (∀ x, li = Some x →
     bi_version (info_of x) = last_version ∧
     executed_state_id (info_of x) = root_of (TransactionInfo_hash <$> (infos ++ txns)) ∧
     bi_epoch (info_of x) = match latest_ledger_info (ledger_store self) with
                            | Some l => next_block_epoch (info_of l) | None => 0 end) →
  ∃ c, save_transactions self txns (Z.of_nat (length infos)) (base_version (buffered_state self)) li latest = Ret c ∧
    returned c = Ok tt.
Proof.
  intros Hok Hmax Hpos last_version Hbuf Hcur Hreach Hupd Hli.
  destruct (put_transaction_infos_spec (ledger_store self) infos txns []) as (ops & Hops & _ & _).
  { apply Hok. } { unfold leaf_count. by rewrite length_fmap. }
  assert (last_version = Z.of_nat (length infos) + Z.of_nat (length txns) - 1) as Hlast.
  { unfold last_version. rewrite length_app. lia. }
  unfold save_transactions. rewrite length_app in Hmax.
  rewrite (proj2 (Z.ltb_lt 0 (Z.of_nat (length txns)))); [lia|]. rewrite orb_true_r. cbn [negb].
  u64_run. rewrite -Hlast.
  assert (match li with Some x => negb (bi_version (commit_info (ledger_info x)) =? last_version) | None => false end = false) as ->.
  { destruct li as [x|]; [|done]. destruct (Hli x eq_refl) as (Hver & _). unfold info_of in Hver. by rewrite Hver Z.eqb_refl. }
  rewrite Hops; run. rewrite Hcur decide_True // bool_decide_eq_true_2 //. cbn [negb].
  rewrite Hbuf (latest_version _ infos); [apply Hok|apply Hok|]. cbn [next_version].
  u64_run.
  replace (Z.of_nat (length infos) - 1 + 1) with (Z.of_nat (length infos)) by lia. rewrite Z.eqb_refl. cbn [andb negb].
  unfold write_commit. cbn [app].
  assert (∀ kv d, ∃ batch, save_ledger_info (with_disk self (mkDisk d kv))
    (root_of (TransactionInfo_hash <$> infos ++ txns)) li [] = Ok batch) as Hsave.
  { intros kv d. unfold save_ledger_info. destruct li as [x|]; [|eauto]. destruct (Hli x eq_refl) as (_ & Hroot & Hep).
    rewrite decide_True //. cbn. unfold info_of in Hep. rewrite Hep Z.eqb_refl. cbn. eauto. }
  destruct (Hsave (Some last_version) (write_schemas (db (ledger_store self)) (ops ++ [PutLedgerCommitProgress last_version])))
    as [batch ->].
  unfold finish_commit. rewrite Hreach; run. cbn [mbind result_bind buffered_state with_disk]. rewrite Hupd; run. eauto.
Qed.
End db.
