(* ===== verification/StateProofs.v ===== *)
(** * Serving state proofs

    Models the epoch change proofs and state proofs of [storage/aptosdb/src/lib.rs].  A
    light client that trusts any ledger info of the ledger catches up with the latest one
    by asking a node for state proofs. *)
From S2P Require Import Prelude U64 Position Accumulator AccumulatorProof MerkleAccumulator ValidatorVerifier ConsensusData EpochChange SchemaDb LedgerStore LedgerProofs TrustedState AptosDb.
Local Open Scope Z_scope.
Local Open Scope rust_scope.

Section serving.
Context `{CT : ConsensusTypes, CE : !ConsensusEnv, TI : !TransactionInfos HashValue, BL : !Bls Signable}.

Definition MAX_NUM_EPOCH_ENDING_LEDGER_INFO : Z := 100.

(** The messages of the errors subtract from epochs. *)
Definition get_epoch_ending_ledger_infos_impl (self : AptosDB) (start_epoch end_epoch limit : Z) :
    comp (result unit (list LedgerInfoWithSignatures * bool)) :=
  if negb (start_epoch <=? end_epoch) then Ret (Err tt) else
  let? latest := get_latest_ledger_info (ledger_store self) in
  let latest_epoch := next_block_epoch (commit_info (ledger_info latest)) in
  if negb (end_epoch <=? latest_epoch) then (_ ← u64_sub latest_epoch 1; Ret (Err tt)) else
  '(paging_epoch, more) ← (if limit <? end_epoch - start_epoch
                           then paging_epoch ← u64_add start_epoch limit; Ret (paging_epoch, true)
                           else Ret (end_epoch, false));
  let iter := get_epoch_ending_ledger_info_iter (ledger_store self) start_epoch paging_epoch in
  let? lis := epoch_iter_collect (S (length (ei_inner iter))) iter in
  if negb (Z.of_nat (length lis) =? paging_epoch - start_epoch) then
    match last lis with
    | Some li => _ ← u64_sub (next_block_epoch (commit_info (ledger_info li))) 1; Ret (Err tt)
    | None => Ret (Err tt)
    end
  else Ret (Ok (lis, more)).

Definition get_epoch_ending_ledger_infos (self : AptosDB) (start_epoch end_epoch : Z) :
    comp (result unit (list LedgerInfoWithSignatures * bool)) :=
  get_epoch_ending_ledger_infos_impl self start_epoch end_epoch MAX_NUM_EPOCH_ENDING_LEDGER_INFO.

Definition get_state_proof_with_ledger_info (self : AptosDB) (known_version : Z)
    (ledger_info_with_sigs : LedgerInfoWithSignatures) : comp (result unit StateProof) :=
  let li := ledger_info ledger_info_with_sigs in
  if negb (known_version <=? li_version li) then Ret (Err tt) else
  r ← get_epoch (ledger_store self) known_version;
  let? known_epoch := r in
  let end_epoch := next_block_epoch (commit_info li) in
  if known_epoch <? end_epoch then
    r ← get_epoch_ending_ledger_infos self known_epoch end_epoch;
    let? (lis, more) := r in
    Ret (Ok (mkStateProof ledger_info_with_sigs (mkEpochChangeProof lis more)))
  else Ret (Ok (mkStateProof ledger_info_with_sigs (mkEpochChangeProof [] false))).

Definition get_state_proof (self : AptosDB) (known_version : Z) : comp (result unit StateProof) :=
  let? li := get_latest_ledger_info (ledger_store self) in
  get_state_proof_with_ledger_info self known_version li.

(** ** The epochs of a ledger *)

Definition version_of (li : LedgerInfoWithSignatures) : Z := li_version (ledger_info li).
Definition next_of (li : LedgerInfoWithSignatures) : option EpochState := next_epoch_state (commit_info (ledger_info li)).

(** The latest ledger info, if it does not end its epoch. *)
Definition open_info (latest : LedgerInfoWithSignatures) : list LedgerInfoWithSignatures :=
  if ends_epoch (ledger_info latest) then [] else [latest].

(** A store that holds the ledger infos that ended an epoch, one per epoch, and the latest
    one; each is certified by the validators its predecessor names. *)
Record epochs_ok (self : LedgerStore) (endings : list LedgerInfoWithSignatures)
    (latest : LedgerInfoWithSignatures) : Prop := {
  eo_latest : latest_ledger_info self = Some latest;
  eo_infos : ledger_info_by_epoch (db self) = map_seqZ 0 (endings ++ open_info latest);
  eo_last : ends_epoch (ledger_info latest) = true → last endings = Some latest;
  eo_open : ends_epoch (ledger_info latest) = false →
    bi_epoch (commit_info (ledger_info latest)) = Z.of_nat (length endings);
  eo_versions v e : epoch_by_version (db self) !! v = Some e ↔
    0 ≤ e ∧ ∃ li, endings !! Z.to_nat e = Some li ∧ version_of li = v;
  eo_numbered i li : endings !! i = Some li →
    bi_epoch (commit_info (ledger_info li)) = Z.of_nat i ∧ ∃ es, next_of li = Some es ∧ es_epoch es = Z.of_nat i + 1;
  eo_increasing i j li lj : (endings ++ open_info latest) !! i = Some li →
    (endings ++ open_info latest) !! j = Some lj → (i < j)%nat → version_of li < version_of lj;
  eo_chained i li li' es : (endings ++ open_info latest) !! i = Some li →
    (endings ++ open_info latest) !! S i = Some li' → next_of li = Some es → EpochState_verify es li' = Ret (Ok tt);
  eo_u64 : Z.of_nat (length endings) < 2 ^ 64;
}.

(** A client that trusts a ledger info of this ledger: the one that ended epoch [i], or
    one of epoch [i] together with its validators. *)
Definition client_at (endings : list LedgerInfoWithSignatures) (latest : LedgerInfoWithSignatures)
    (i : nat) (ts : TrustedState) : Prop :=
  match ts with
  | EpochWaypoint w => ∃ li, endings !! i = Some li ∧ w = Waypoint_new_any (ledger_info li)
  | InEpoch w es => ∃ i' li, i = S i' ∧ endings !! i' = Some li ∧ next_of li = Some es ∧
      version_of li ≤ wp_version w ≤ version_of latest ∧
      (∀ li', endings !! i = Some li' → wp_version w ≤ version_of li') ∧
      (wp_version w = version_of latest → w = Waypoint_new_any (ledger_info latest))
  end.

Section ledger.
Context (self : AptosDB) (endings : list LedgerInfoWithSignatures) (latest : LedgerInfoWithSignatures).
Context (good : epochs_ok (ledger_store self) endings latest).
Local Notation num_epochs := (length endings).
Local Notation infos := (endings ++ open_info latest).

Lemma ending_info i li : endings !! i = Some li → infos !! i = Some li.
Proof. intros Hi. by apply lookup_app_l_Some. Qed.

(** The latest ledger info comes after all that ended an epoch, or is the last of them. *)
Lemma latest_info : ∃ j, infos !! j = Some latest ∧ bi_epoch (commit_info (ledger_info latest)) = Z.of_nat j ∧
  (j ≤ num_epochs ≤ S j)%nat ∧ ∀ li, endings !! j = Some li → li = latest.
Proof.
  destruct (ends_epoch (ledger_info latest)) eqn:He.
  - pose proof (eo_last _ _ _ good He) as Hl. rewrite last_lookup in Hl. exists (pred num_epochs).
    pose proof (lookup_lt_Some _ _ _ Hl). destruct (eo_numbered _ _ _ good _ _ Hl) as [Hep _].
    split_and!; [by apply ending_info|done|lia|lia|]. intros li Hli. congruence.
  - exists num_epochs. split_and!; [|by apply (eo_open _ _ _ good)|lia|lia|by intros li ?%lookup_lt_Some; lia].
    unfold open_info. rewrite He lookup_app_r // Nat.sub_diag //.
Qed.

Lemma next_block_epoch_latest : next_block_epoch (commit_info (ledger_info latest)) = Z.of_nat num_epochs.
Proof.
  unfold next_block_epoch. destruct (ends_epoch (ledger_info latest)) eqn:He.
  - pose proof (eo_last _ _ _ good He) as Hl. rewrite last_lookup in Hl. pose proof (lookup_lt_Some _ _ _ Hl).
    destruct (eo_numbered _ _ _ good _ _ Hl) as (_ & es & Hes & Hep). unfold next_of in Hes. rewrite Hes Hep. lia.
  - rewrite -(eo_open _ _ _ good He). unfold ends_epoch in He. apply bool_decide_eq_false, eq_None_not_Some in He.
    by rewrite He.
Qed.

Lemma ending_before_latest i li : endings !! i = Some li → version_of li ≤ version_of latest.
Proof.
  intros Hi. destruct latest_info as (j & Hj & _ & Hn & _). pose proof (lookup_lt_Some _ _ _ Hi).
  destruct (decide (i = j)) as [->|Hne].
  - rewrite (ending_info _ _ Hi) in Hj. injection Hj as ->. lia.
  - apply Z.lt_le_incl, (eo_increasing _ _ _ good i j); [by apply ending_info|done|lia].
Qed.

Lemma ending_order i j li lj : endings !! i = Some li → endings !! j = Some lj → version_of li < version_of lj ↔ (i < j)%nat.
Proof.
  intros Hi%ending_info Hj%ending_info. split; [|by apply (eo_increasing _ _ _ good)].
  intros Hlt. destruct (decide (i < j)%nat) as [|Hge]; [done|]. destruct (decide (i = j)) as [->|Hne]; [simplify_eq; lia|].
  pose proof (eo_increasing _ _ _ good j i _ _ Hj Hi ltac:(lia)). lia.
Qed.

Lemma ending_order_le i j li lj : endings !! i = Some li → endings !! j = Some lj → version_of li ≤ version_of lj ↔ (i ≤ j)%nat.
Proof. intros Hi Hj. rewrite -Z.nlt_ge -Nat.nlt_ge. by rewrite (ending_order j i). Qed.

(** The epoch of a version after the end of epoch [i] and not after the end of the next. *)
Lemma get_epoch_spec i li v :
  endings !! i = Some li → version_of li ≤ v → (∀ li', endings !! S i = Some li' → v ≤ version_of li') →
  get_epoch (ledger_store self) v = Ret (Ok (if v =? version_of li then Z.of_nat i else Z.of_nat i + 1)).
Proof.
  intros Hi Hge Hle. pose proof (lookup_lt_Some _ _ _ Hi) as Hlen. pose proof (eo_u64 _ _ _ good) as Hmax.
  assert (∃ k lk, endings !! k = Some lk ∧ version_of lk ≤ v ∧ (k = i ∨ k = S i ∧ v = version_of lk) ∧
    ∀ j lj, endings !! j = Some lj → version_of lj ≤ v → (j ≤ k)%nat) as (k & lk & Hk & Hkv & Hcase & Hmaxk).
  { destruct (endings !! S i) as [li'|] eqn:Hi'; [destruct (decide (v = version_of li')) as [->|Hne]|].
    - exists (S i), li'. split_and!; [done|lia|by right|]. intros j lj Hj. by apply ending_order_le.
    - exists i, li. split_and!; [done|lia|by left|]. intros j lj Hj Hlj. specialize (Hle _ eq_refl).
      apply Nat.lt_succ_r, (ending_order _ _ _ _ Hj Hi'). lia.
    - exists i, li. split_and!; [done|lia|by left|]. intros j lj Hj _. apply lookup_lt_Some in Hj.
      apply lookup_ge_None in Hi'. lia. }
  unfold get_epoch. rewrite (proj2 (seek_for_prev_Some _ _ (version_of lk) (Z.of_nat k))).
  { split_and!; [|done|].
    - apply (eo_versions _ _ _ good). split; [lia|]. rewrite Nat2Z.id. by eauto.
    - intros v' [e He] Hv'. apply (eo_versions _ _ _ good) in He as (_ & lj & Hj & <-).
      by apply (ending_order_le _ _ _ _ Hj Hk), (Hmaxk _ lj). }
  rewrite (proj2 (Z.leb_le _ _)) //. cbn [negb].
  destruct Hcase as [->|[-> ->]]; simplify_eq.
  - destruct (Z.ltb_spec (version_of li) v), (Z.eqb_spec v (version_of li)); try lia; [|done]. by u64_run.
  - rewrite Z.ltb_irrefl.
    pose proof (proj2 (ending_order _ _ _ _ Hi Hk) ltac:(lia)). rewrite (proj2 (Z.eqb_neq _ _)); [lia|]. do 2 f_equal. lia.
Qed.

(** ** The epoch changes served *)

Lemma epoch_iter_collect_rows (fuel k m : nat) (lis rest : list LedgerInfoWithSignatures) :
  Forall (λ li, ends_epoch (ledger_info li) = true) lis → length lis = m → (m < fuel)%nat →
  epoch_iter_collect fuel (mkEpochIter (rows (Z.of_nat k) (lis ++ rest)) (Z.of_nat k) (Z.of_nat k + Z.of_nat m)) = Ok lis.
Proof.
  revert k m fuel. induction lis as [|li lis IH]; intros k m fuel Hends <- Hfuel; destruct fuel as [|fuel]; try lia.
  { cbn [epoch_iter_collect]. unfold epoch_iter_next. cbn [end_epoch next_epoch length].
    by rewrite (proj2 (Z.leb_le _ _)); [cbn; lia|]. }
  apply Forall_cons in Hends as [Hli Hends]. cbn [length] in *. cbn [epoch_iter_collect]. unfold epoch_iter_next.
  cbn [end_epoch next_epoch ei_inner app]. rewrite (proj2 (Z.leb_gt _ _)); [lia|]. rewrite rows_cons Hli Z.eqb_refl. cbn [negb].
  replace (Z.of_nat k + 1) with (Z.of_nat (S k)) by lia.
  replace (Z.of_nat k + Z.of_nat (S (length lis))) with (Z.of_nat (S k) + Z.of_nat (length lis)) by lia.
  rewrite (IH (S k) (length lis) fuel) //. lia.
Qed.

Lemma endings_end : Forall (λ li, ends_epoch (ledger_info li) = true) endings.
Proof.
  apply Forall_lookup_2. intros i li Hi. destruct (eo_numbered _ _ _ good _ _ Hi) as (_ & es & Hes & _).
  apply bool_decide_eq_true_2. unfold next_of in Hes. rewrite Hes. by eauto.
Qed.

(** The epoch after the last one a proof from epoch [k] on has. *)
Definition paging (k : nat) : nat := num_epochs `min` (k + 100).
Definition served (k : nat) : EpochChangeProof :=
  mkEpochChangeProof (take (paging k - k) (drop k endings)) (bool_decide (100 < num_epochs - k)%nat).

Lemma get_epoch_ending_ledger_infos_spec k :
  (k ≤ num_epochs)%nat →
  get_epoch_ending_ledger_infos self (Z.of_nat k) (Z.of_nat num_epochs)
  = Ret (Ok (take (paging k - k) (drop k endings), bool_decide (100 < num_epochs - k)%nat)).
Proof.
  intros Hk. pose proof (eo_u64 _ _ _ good) as Hmax.
  unfold get_epoch_ending_ledger_infos, get_epoch_ending_ledger_infos_impl, MAX_NUM_EPOCH_ENDING_LEDGER_INFO.
  rewrite (proj2 (Z.leb_le _ _)); [lia|]. cbn [negb].
  unfold get_latest_ledger_info, get_latest_ledger_info_option. rewrite (eo_latest _ _ _ good). cbn [ok_or try].
  rewrite next_block_epoch_latest Z.leb_refl. cbn [negb].
  replace (if 100 <? Z.of_nat num_epochs - Z.of_nat k then _ else _) with (Ret (Z.of_nat (paging k), bool_decide (100 < num_epochs - k)%nat)).
  2: { unfold paging. destruct (Z.ltb_spec 100 (Z.of_nat num_epochs - Z.of_nat k)); u64_run; do 2 f_equal;
       [lia|rewrite bool_decide_eq_true_2; [lia|done]|lia|rewrite bool_decide_eq_false_2; [lia|done]]. }
  run. unfold get_epoch_ending_ledger_info_iter. cbn [ei_inner].
  rewrite (eo_infos _ _ _ good) seek_array; [lia|]. rewrite Nat2Z.id drop_app_le //.
  set (lis := take (paging k - k) (drop k endings)).
  assert (length lis = (paging k - k)%nat) as Hlen by (unfold lis, paging; rewrite length_take length_drop; lia).
  assert (drop k endings ++ open_info latest = lis ++ (drop (paging k - k) (drop k endings) ++ open_info latest)) as ->.
  { unfold lis. by rewrite app_assoc take_drop. }
  replace (Z.of_nat (paging k)) with (Z.of_nat k + Z.of_nat (paging k - k)) by (unfold paging; lia).
  rewrite epoch_iter_collect_rows //.
  - apply Forall_take, Forall_drop, endings_end.
  - unfold rows. rewrite length_zip_with length_seqZ length_app Hlen. lia.
  - cbn [try]. rewrite Hlen. replace (Z.of_nat k + _ - Z.of_nat k) with (Z.of_nat (paging k - k)) by lia. by rewrite Z.eqb_refl.
Qed.

Lemma get_state_proof_spec v k :
  v ≤ version_of latest → get_epoch (ledger_store self) v = Ret (Ok (Z.of_nat k)) → (k ≤ num_epochs)%nat →
  get_state_proof self v = Ret (Ok (mkStateProof latest (served k))).
Proof.
  intros Hv Hk Hn. unfold get_state_proof, get_latest_ledger_info, get_latest_ledger_info_option.
  rewrite (eo_latest _ _ _ good). cbn [ok_or try]. unfold get_state_proof_with_ledger_info.
  rewrite (proj2 (Z.leb_le _ _)) //. cbn [negb]. rewrite Hk; run. cbn [try]. rewrite next_block_epoch_latest.
  destruct (Z.ltb_spec (Z.of_nat k) (Z.of_nat num_epochs)).
  - by rewrite get_epoch_ending_ledger_infos_spec.
  - assert (k = num_epochs) as -> by lia. unfold served. rewrite drop_ge // take_nil bool_decide_eq_false_2 //. lia.
Qed.

(** ** The epoch changes verify *)

Lemma chain_verifies {V} {IV : Verifier V} (v : V) i (m : nat) li :
  endings !! i = Some li → Verifier_verify v li = Ret (Ok tt) → (i + m ≤ num_epochs)%nat →
  verify_chain (Dyn V IV v) (take m (drop i endings)) = Ret (Ok tt).
Proof.
  revert V IV v i li. induction m as [|m IH]; intros V IV v i li Hi Hv Hm; [done|].
  rewrite (drop_S _ _ _ Hi). cbn [take verify_chain]. unfold then_. cbn [Verifier_verify dyn_Verifier_Verifier].
  rewrite Hv; run. destruct (eo_numbered _ _ _ good _ _ Hi) as (_ & es & Hes & _).
  unfold next_of in Hes. rewrite Hes. destruct (endings !! S i) as [li'|] eqn:Hi'.
  - apply (IH _ _ _ _ li'); [done| |lia]. by eapply (eo_chained _ _ _ good i li li'); [apply ending_info..|].
  - apply lookup_ge_None in Hi'. assert (m = 0%nat) as -> by lia. done.
Qed.

Lemma skip_stale_from {V} `{!Verifier V} (v : V) k i (m : nat) li :
  (k ≤ i)%nat → (i < k + m)%nat → (∀ j lj, (k ≤ j < i)%nat → endings !! j = Some lj → is_ledger_info_stale v (ledger_info lj) = true) →
  endings !! i = Some li → is_ledger_info_stale v (ledger_info li) = false →
  skip_stale v (take m (drop k endings)) = take (m - (i - k)) (drop i endings).
Proof.
  intros Hk. remember (i - k)%nat as d eqn:Hd. revert k m Hk Hd. induction d as [|d IH]; intros k m Hk Hd Hm Hstale Hi Hfresh.
  - assert (k = i) as -> by lia. rewrite Nat.sub_0_r (drop_S _ _ _ Hi). destruct m; [lia|].
    cbn [take skip_stale]. by rewrite Hfresh.
  - destruct (lookup_lt_is_Some_2 endings k) as [lk Hlk]; [apply lookup_lt_Some in Hi; lia|].
    rewrite (drop_S _ _ _ Hlk). destruct m as [|m]; [lia|]. cbn [take skip_stale]. rewrite (Hstale k lk) //; [lia|].
    rewrite (IH (S k) m) //; [lia..|]. intros j lj Hj. apply Hstale. lia.
Qed.

Lemma served_verifies {V} `{!Verifier V} (v : V) k i li lp :
  (k ≤ i < paging k)%nat → endings !! i = Some li → endings !! pred (paging k) = Some lp →
  (∀ j lj, (k ≤ j < i)%nat → endings !! j = Some lj → is_ledger_info_stale v (ledger_info lj) = true) →
  is_ledger_info_stale v (ledger_info li) = false → is_ledger_info_stale v (ledger_info lp) = false →
  Verifier_verify v li = Ret (Ok tt) → EpochChangeProof_verify (served k) v = Ret (Ok lp).
Proof.
  intros Hk Hi Hp Hstale Hfi Hfp Hv. unfold EpochChangeProof_verify, served. cbn [ledger_info_with_sigs].
  assert (last (take (paging k - k) (drop k endings)) = Some lp) as ->.
  { rewrite last_lookup length_take length_drop lookup_take_lt; [unfold paging in *; lia|]. rewrite lookup_drop.
    replace (k + _)%nat with (pred (paging k)) by (unfold paging in *; lia). done. }
  unfold ensure. rewrite Hfp. cbn [negb]. rewrite (skip_stale_from v k i _ li) //; [lia..|].
  unfold then_. rewrite (chain_verifies v i _ li) //. unfold paging in *. lia.
Qed.

(** The end of a served proof leads to the latest ledger info, or a hundred epochs on. *)
Lemma verified_served k lp es :
  (k < num_epochs)%nat → endings !! pred (paging k) = Some lp → next_of lp = Some es →
  ∃ li, verified_ledger_info lp latest es (more (served k)) = Ret (Ok li) ∧
    client_at endings latest (paging k) (InEpoch (Waypoint_new_any (ledger_info li)) es) ∧
    (li = latest ∨ paging k = (k + 100)%nat).
Proof.
  intros Hk Hp Hes. set (p := paging k) in *. assert (k < p ≤ num_epochs)%nat as Hpn by (unfold p, paging; lia).
  destruct (eo_numbered _ _ _ good _ _ Hp) as (_ & es' & Hes' & Hep). rewrite Hes in Hes'. injection Hes' as <-.
  assert (es_epoch es = Z.of_nat p) as Hesp by lia.
  assert (version_of lp ≤ version_of latest) as Hle by by eapply ending_before_latest.
  destruct latest_info as (j & Hj & Hjep & Hnj & Hjend).
  assert ((∀ li, endings !! p = Some li → li = latest) →
    client_at endings latest p (InEpoch (Waypoint_new_any (ledger_info latest)) es)) as Hlatest.
  { intros Hend. exists (pred p), lp. split_and!; [lia|done|done|done|done| |done]. by intros li ->%Hend. }
  destruct (decide (lp = latest)) as [->|Hne].
  - exists latest. split; [unfold verified_ledger_info; by rewrite decide_True|]. split; [|by left].
    apply Hlatest. intros li Hli%lookup_lt_Some. destruct (eo_numbered _ _ _ good _ _ Hp) as [? _]. lia.
  - unfold verified_ledger_info. rewrite decide_False //.
    destruct (Z.eqb_spec (bi_epoch (commit_info (ledger_info latest))) (es_epoch es)) as [Hepoch|Hepoch].
    + assert (j = p) as -> by lia. exists latest. unfold then_. rewrite (eo_chained _ _ _ good (pred p) lp latest es) //.
      { by apply ending_info. } { by replace (S (pred p)) with p by lia. }
      split; [done|]. split; [by apply Hlatest|by left].
    + assert (j ≠ pred p) as Hjp. { intros ->. rewrite (ending_info _ _ Hp) in Hj. congruence. }
      assert (version_of lp < version_of latest) by (eapply (eo_increasing _ _ _ good); [by apply ending_info|exact Hj|lia]).
      exists lp. cbn [more served]. rewrite (proj2 (Z.ltb_lt _ _)); [lia|]. rewrite bool_decide_eq_true_2; [unfold p, paging in *; lia|].
      split; [done|]. split; [|right; unfold p, paging in *; lia].
      exists (pred p), lp. split_and!; [lia|done|done|done|done| |].
      2: { intros Hw. change (version_of lp = version_of latest) in Hw. lia. }
      intros li Hli. apply (ending_order_le _ _ _ _ Hp Hli). lia.
Qed.

(** The epoch from which on the node serves a client. *)
Lemma client_epoch i ts :
  client_at endings latest i ts →
  ∃ k, get_epoch (ledger_store self) (ts_version ts) = Ret (Ok (Z.of_nat k)) ∧ ts_version ts ≤ version_of latest ∧
    (k ≤ i ≤ S k)%nat ∧ (i ≤ num_epochs)%nat ∧ (is_epoch_waypoint ts = true → k = i ∧ (i < num_epochs)%nat).
Proof.
  destruct ts as [w|w es]; cbn [client_at is_epoch_waypoint].
  - intros (li & Hi & ->). exists i. pose proof (lookup_lt_Some _ _ _ Hi).
    split_and!; [|by eapply ending_before_latest|lia..].
    rewrite (get_epoch_spec i li) //; [|by rewrite Z.eqb_refl]. intros li' Hi'. apply (ending_order_le _ _ _ _ Hi Hi'). lia.
  - intros (i' & li & -> & Hi & Hes & Hv & Hnext & _). pose proof (lookup_lt_Some _ _ _ Hi).
    unfold ts_version. cbn [ts_waypoint]. rewrite (get_epoch_spec i' li) //; [lia|].
    destruct (Z.eqb_spec (wp_version w) (version_of li)); [exists i'|exists (S i')];
      (split_and!; [do 2 f_equal; lia|lia..|done]).
Qed.

(** A client in an epoch that is not over moves to the latest ledger info. *)
Lemma ratchet_latest w es proof :
  client_at endings latest num_epochs (InEpoch w es) →
  ∃ change, verify_and_ratchet (InEpoch w es) (mkStateProof latest proof) = Ret (Ok change) ∧
    ts_waypoint (default (InEpoch w es) (new_state change)) = Waypoint_new_any (ledger_info latest).
Proof.
  intros (i & li & Hn & Hi & Hes & Hv & _ & Heq). destruct (eo_numbered _ _ _ good _ _ Hi) as (_ & es' & Hes' & Hep).
  rewrite Hes in Hes'. injection Hes' as <-. unfold verify_and_ratchet, verify_and_ratchet_inner.
  cbn [latest_li_w_sigs epoch_changes]. unfold ensure. change (ts_version (InEpoch w es)) with (wp_version w). fold (version_of latest).
  rewrite (proj2 (Z.leb_le _ _)); [lia|].
  cbn [epoch_change_verification_required TrustedState_Verifier EpochState_Verifier].
  rewrite next_block_epoch_latest (proj2 (Z.ltb_ge _ _)); [lia|].
  destruct (Z.eqb_spec (wp_version (Waypoint_new_any (ledger_info latest))) (wp_version w)) as [Hw|Hw].
  - exists NoChange. rewrite bool_decide_eq_true_2; [symmetry; by apply Heq|]. split; [done|]. by apply Heq.
  - exists (ChangeVersion (InEpoch (Waypoint_new_any (ledger_info latest)) es)). split; [|done].
    destruct latest_info as (j & Hj & _ & Hnj & _). unfold then_. rewrite (eo_chained _ _ _ good i li latest es) //.
    { by apply ending_info. }
    destruct (decide (j = i)) as [->|]; [|by replace (S i) with j by lia].
    rewrite (ending_info _ _ Hi) in Hj. injection Hj as ->. change (version_of latest ≠ wp_version w) in Hw. lia.
Qed.

(** A client of an earlier epoch moves to where the served proof leads. *)
Lemma ratchet_epochs i k ts lp es li :
  client_at endings latest i ts → ts_version ts ≤ version_of latest →
  (k ≤ i ≤ S k)%nat → (i < num_epochs)%nat → (is_epoch_waypoint ts = true → k = i) →
  endings !! pred (paging k) = Some lp → next_of lp = Some es →
  verified_ledger_info lp latest es (more (served k)) = Ret (Ok li) →
  verify_and_ratchet ts (mkStateProof latest (served k))
  = Ret (Ok (ChangeEpoch (InEpoch (Waypoint_new_any (ledger_info li)) es) lp)).
Proof.
  intros Hcl Hv Hk Hi Hw Hp Hes Hli. unfold verify_and_ratchet, verify_and_ratchet_inner.
  cbn [latest_li_w_sigs epoch_changes]. unfold ensure. fold (version_of latest). rewrite (proj2 (Z.leb_le _ _)) //.
  assert (k ≤ i < paging k)%nat as Hip by (unfold paging; lia).
  destruct (lookup_lt_is_Some_2 endings i) as [l Hl]; [done|]. rewrite next_block_epoch_latest.
  assert (epoch_change_verification_required ts (Z.of_nat num_epochs) = true ∧
          EpochChangeProof_verify (served k) ts = Ret (Ok lp)) as [-> ->].
  2: { run. cbn [try]. unfold next_of in Hes. rewrite Hes Hli; run. by cbn [try]. }
  assert (version_of l ≤ version_of lp) as Hlp by (apply (ending_order_le _ _ _ _ Hl Hp); lia).
  destruct ts as [w|w es0]; cbn [client_at] in Hcl.
  - destruct Hcl as (l' & Hl' & ->). rewrite Hl in Hl'. injection Hl' as <-. rewrite (Hw eq_refl) in Hip |- *. split; [done|].
    apply (served_verifies _ i i l lp) => //; [rewrite -(Hw eq_refl); done|lia|by apply Z.ltb_irrefl|by apply Z.ltb_ge|].
    cbn. unfold Waypoint_verify, ensure. cbn. by rewrite Z.eqb_refl bool_decide_eq_true_2.
  - destruct Hcl as (i' & l' & -> & Hl' & Hes0 & _). destruct (eo_numbered _ _ _ good _ _ Hl') as (_ & es' & Hes' & Hep).
    rewrite Hes0 in Hes'. injection Hes' as <-. destruct (eo_numbered _ _ _ good _ _ Hl) as [Hepl _].
    destruct (eo_numbered _ _ _ good _ _ Hp) as [Hepp _]. split; [apply Z.ltb_lt; lia|].
    apply (served_verifies _ k (S i') l lp) => //; [|apply Z.ltb_ge; lia..|].
    + intros j lj Hj Hlj. destruct (eo_numbered _ _ _ good _ _ Hlj) as [Hepj _]. apply Z.ltb_lt. lia.
    + by apply (eo_chained _ _ _ good i' l' l); [apply ending_info..|].
Qed.

(** Asking for a state proof once. *)
Definition ratchets (ts ts' : TrustedState) : Prop :=
  ∃ proof change, get_state_proof self (ts_version ts) = Ret (Ok proof) ∧
    verify_and_ratchet ts proof = Ret (Ok change) ∧ ts' = default ts (new_state change).

Lemma ratchet_step i ts :
  client_at endings latest i ts →
  ∃ ts', ratchets ts ts' ∧
    (ts_waypoint ts' = Waypoint_new_any (ledger_info latest) ∨
     ∃ i', client_at endings latest i' ts' ∧ (i + 99 ≤ i')%nat).
Proof.
  intros Hcl. destruct (client_epoch i ts Hcl) as (k & Hk & Hv & Hki & Hin & Hw).
  pose proof (get_state_proof_spec _ k Hv Hk ltac:(lia)) as Hproof.
  destruct (decide (i = num_epochs)) as [->|Hne].
  - destruct ts as [w|w es]; [destruct (Hw eq_refl); lia|]. destruct (ratchet_latest w es (served k) Hcl) as (change & Hr & Hl).
    eexists. split; [eexists _, change; split_and!; [exact Hproof|exact Hr|done]|by left].
  - destruct (lookup_lt_is_Some_2 endings (pred (paging k))) as [lp Hp]; [unfold paging; lia|].
    destruct (eo_numbered _ _ _ good _ _ Hp) as (_ & es & Hes & _).
    destruct (verified_served k lp es) as (li & Hli & Hcl' & Hfar); [lia|done|done|].
    eexists. split; [eexists _, _; split_and!; [exact Hproof| |done]|].
    { eapply ratchet_epochs; [exact Hcl|done|done|lia| |exact Hp|exact Hes|exact Hli]. intros H. by destruct (Hw H). }
    cbn. destruct Hfar as [->|Hfar]; [by left|]. right. exists (paging k). split; [done|]. lia.
Qed.
End ledger.

(** ** Commits keep the epochs *)

(** What a new ledger info is to be: certified by the validators of its epoch, and after
    the end of the one before. *)
Definition follows (endings : list LedgerInfoWithSignatures) (x : LedgerInfoWithSignatures) : Prop :=
  (∀ es, next_of x = Some es → es_epoch es = Z.of_nat (length endings) + 1) ∧
  ∀ li, last endings = Some li →
    version_of li < version_of x ∧ ∀ es, next_of li = Some es → EpochState_verify es x = Ret (Ok tt).

Definition extend (endings : list LedgerInfoWithSignatures) (x : LedgerInfoWithSignatures) :
    list LedgerInfoWithSignatures :=
  endings ++ if ends_epoch (ledger_info x) then [x] else [].

Lemma extend_open endings x : extend endings x ++ open_info x = endings ++ [x].
Proof. unfold extend, open_info. rewrite -app_assoc. by destruct (ends_epoch _). Qed.

Lemma last_ending (endings : list LedgerInfoWithSignatures) i li : endings !! i = Some li → S i = length endings → last endings = Some li.
Proof. intros Hi Hn. rewrite last_lookup -Hn. done. Qed.

Section extend.
Context (self : AptosDB) (endings : list LedgerInfoWithSignatures) (latest x : LedgerInfoWithSignatures).
Context (good : epochs_ok (ledger_store self) endings latest) (next : follows endings x).
Local Notation n := (Z.of_nat (length endings)).

Lemma before_next i li : endings !! i = Some li → version_of li < version_of x.
Proof.
  intros Hi. pose proof (lookup_lt_Some _ _ _ Hi) as Hlen.
  destruct (lookup_lt_is_Some_2 endings (pred (length endings))) as [l Hl]; [lia|].
  pose proof (proj2 (ending_order_le self _ _ good _ _ _ _ Hi Hl) ltac:(lia)).
  destruct (proj2 next l) as [? _]; [by rewrite last_lookup|]. lia.
Qed.

Lemma lookup_next i li : (endings ++ [x]) !! i = Some li → endings !! i = Some li ∨ i = length endings ∧ li = x.
Proof. intros [?|[? [? ?]%list_lookup_singleton_Some]]%lookup_app_Some; [by left|right]. split; [lia|done]. Qed.

Lemma epochs_ok_extend s :
  latest_ledger_info s = Some x → bi_epoch (info_of x) = n → n + 1 < 2 ^ 64 →
  ledger_info_by_epoch (db s) = <[n := x]> (ledger_info_by_epoch (db (ledger_store self))) →
  epoch_by_version (db s) = (if ends_epoch (ledger_info x) then <[version_of x := n]> (epoch_by_version (db (ledger_store self)))
                             else epoch_by_version (db (ledger_store self))) →
  epochs_ok s (extend endings x) x.
Proof.
  intros Hlat Hep Hmax Hlis Heps. destruct next as [Hnext Hlast]. split; rewrite ?extend_open; [done|..].
  - rewrite Hlis (eo_infos _ _ _ good) (map_seqZ_snoc 0 endings x) Z.add_0_l. unfold open_info.
    destruct (ends_epoch (ledger_info latest)); [by rewrite app_nil_r|].
    by rewrite map_seqZ_snoc Z.add_0_l insert_insert_eq.
  - intros He. unfold extend. by rewrite He last_snoc.
  - intros He. unfold extend. by rewrite He app_nil_r.
  - intros v e. rewrite Heps. unfold extend. destruct (ends_epoch (ledger_info x)) eqn:He.
    + rewrite lookup_insert_Some (eo_versions _ _ _ good). split.
      * intros [[<- <-]|(_ & ? & li & ? & ?)]; [|split; [done|]; exists li; split; [by apply lookup_app_l_Some|done]].
        split; [lia|]. exists x. by rewrite Nat2Z.id lookup_app_r // Nat.sub_diag.
      * intros (? & li & [Hli|[Hi ->]]%lookup_next & <-); [right|left; split; [done|lia]].
        pose proof (before_next _ _ Hli). split; [lia|]. eauto.
    + rewrite app_nil_r. apply (eo_versions _ _ _ good).
  - intros i li. unfold extend. destruct (ends_epoch (ledger_info x)) eqn:He.
    + intros [Hli|[-> ->]]%lookup_next; [by apply (eo_numbered _ _ _ good)|]. split; [done|].
      unfold ends_epoch in He. apply bool_decide_eq_true in He as [es Hes]. exists es. split; [done|by apply Hnext].
    + rewrite app_nil_r. apply (eo_numbered _ _ _ good).
  - intros i j li lj [Hi|[-> ->]]%lookup_next [Hj|[-> ->]]%lookup_next Hij; [| | |lia].
    + by apply (ending_order self _ _ good i j).
    + by eapply before_next.
    + apply lookup_lt_Some in Hj. lia.
  - intros i li li' es [Hi|[-> ->]]%lookup_next [Hj|[Hn ->]]%lookup_next Hes; [| | |lia].
    + by apply (eo_chained _ _ _ good i li li'); [apply ending_info..|].
    + by apply (Hlast li); [eapply last_ending|].
    + apply lookup_lt_Some in Hj. lia.
  - unfold extend. rewrite length_app. destruct (ends_epoch _); cbn; lia.
Qed.
End extend.

(** Every commit keeps the epochs, so that clients can follow it. *)
Lemma commit_keeps_epochs self infos txns first_version base x versions c endings latest :
  db_ok self infos → Z.of_nat (length (infos ++ txns)) ≤ 2 ^ 63 - 32 →
  save_transactions self txns first_version base (Some x) versions = Ret c → returned c = Ok tt →
  epochs_ok (ledger_store self) endings latest → follows endings x → Z.of_nat (length endings) + 1 < 2 ^ 64 →
  epochs_ok (ledger_store (committed c)) (extend endings x) x.
Proof.
  intros Hok Hmax Hrun Hret Hep Hnext Hn.
  destruct (save_transactions_cases _ _ _ _ _ _ _ _ Hok Hmax Hrun) as [->|(ops & Hholds & Hsame & _ & Hwrite)]; [done|].
  destruct (d1_columns self infos txns ops Hok Hholds Hsame) as (_ & Hlis & Heps & _).
  unfold write_commit in Hwrite. set (d1 := write_schemas _ (ops ++ _)) in *.
  destruct (save_ledger_info _ _ _ _) as [batch|] eqn:Hsave; [|by injection Hwrite as <-].
  apply bind_Ret in Hwrite as ([self2 r] & Hfin & [= <-]). cbn [returned committed] in *. subst r.
  unfold save_ledger_info in Hsave. case_decide as Hroot; [|done].
  cbn [ledger_store with_disk get_latest_ledger_info_option latest_ledger_info] in Hsave.
  rewrite (eo_latest _ _ _ Hep) (next_block_epoch_latest self _ _ Hep) in Hsave.
  destruct (Z.eqb_spec (bi_epoch (commit_info (ledger_info x))) (Z.of_nat (length endings))) as [Hepoch|]; [|done].
  injection Hsave as <-.
  destruct (put_ledger_info_columns d1 x (Z.of_nat (length (infos ++ txns)) - 1) []) as (_ & H2 & H3 & _).
  unfold finish_commit in Hfin. apply bind_Ret in Hfin as (o & _ & Hfin). destruct (_ ≫= _) in Hfin; [|done]. injection Hfin as <-.
  cbn [ledger_store] in *. apply (epochs_ok_extend self endings latest); [done|done|done|done|done| |].
  - cbn. unfold info_of in H2. by rewrite H2 Hepoch Hlis.
  - cbn. unfold info_of in H3. by rewrite H3 Hepoch Heps.
Qed.

(** C17: A light client catches up.  From any ledger info of the ledger, a client that asks
    a node for state proofs and verifies them comes to trust the latest ledger info of the
    node, after at most one request per 99 epochs, and one more; no request and no
    verification on the way fails. *)
Theorem client_catches_up self endings latest i ts :
  epochs_ok (ledger_store self) endings latest → client_at endings latest i ts →
  ∃ (k : nat) ts', nsteps (ratchets self) k ts ts' ∧ (99 * k ≤ length endings + 99)%nat ∧
    ts_waypoint ts' = Waypoint_new_any (ledger_info latest).
Proof.
  intros Hok Hcl.
  assert (∃ (k : nat) ts', nsteps (ratchets self) k ts ts' ∧ (99 * k + i ≤ length endings + 99)%nat ∧
    ts_waypoint ts' = Waypoint_new_any (ledger_info latest)) as (k & ts' & ? & ? & ?); [|exists k, ts'; split_and!; [done|lia|done]].
  remember (length endings - i)%nat as m eqn:Hm. revert i ts Hcl Hm. induction m as [m IH] using lt_wf_ind. intros i ts Hcl Hm.
  pose proof (client_epoch self _ _ Hok i ts Hcl) as (_ & _ & _ & _ & Hi & _).
  destruct (ratchet_step self _ _ Hok i ts Hcl) as (ts1 & Hstep & [Hdone|(i1 & Hcl1 & Hfar)]).
  - exists 1%nat, ts1. split_and!; [by apply nsteps_once|lia|done].
  - pose proof (client_epoch self _ _ Hok i1 ts1 Hcl1) as (_ & _ & _ & _ & Hi1 & _).
    destruct (IH (length endings - i1)%nat ltac:(lia) i1 ts1 Hcl1 eq_refl) as (k & ts' & Hsteps & Hk & Hw).
    exists (S k), ts'. split_and!; [by eapply nsteps_l|lia|done].
Qed.
End serving.
