(* ===== verification/LedgerExample.v ===== *)
(** * A concrete ledger database

    An instance of the parameters of the storage development, on top of the one of
    [ConsensusExample.v], and a database that is bootstrapped with a genesis transaction
    and then commits three more.  It shows that the hypotheses of the theorems on the
    ledger store and on the commit path can be met. *)
From S2P Require Import Prelude U64 Position FrozenSubtrees Accumulator AccumulatorProof MerkleAccumulator BitVec ValidatorVerifier ConsensusData EpochChange ConsensusExample SchemaDb LedgerStore LedgerProofs TrustedState AptosDb StateProofs.
Local Open Scope Z_scope.

Module LedgerRun.
Import Example.

(** The hash of a transaction info is its transaction hash, outside of the internal nodes. *)
#[export] Instance infos_of : TransactionInfos (@HashValue types) := {
  ExecutionStatus := unit;
  TransactionInfo_hash info := xO (xO (transaction_hash _ _ info));
}.

Lemma info_domain : ∀ info : TransactionInfo, leaf_domain (TransactionInfo_hash info).
Proof. by split. Qed.

Definition txn (h : positive) (checkpoint : option positive) : TransactionInfo :=
  mkTransactionInfo 0 tt h 1%positive 1%positive checkpoint None.

Definition genesis_infos : list TransactionInfo := [txn 1 (Some 1%positive)].
Definition next_infos : list TransactionInfo := [txn 2 None; txn 3 (Some 5%positive); txn 4 None].

(** A ledger info signed by the first three validators. *)
Definition certificate (epoch v : Z) (infos : list TransactionInfo) : LedgerInfoWithSignatures :=
  mkLedgerInfoWithSignatures
    (mkLedgerInfo (mkBlockInfo epoch 0 1%positive (root_of (TransactionInfo_hash <$> infos)) v 0 None) 1%positive)
    (mkAggregateSignature (mkBitVec [224]) (Some ((λ k, (k, 1%positive)) <$> [1; 2; 3]))).

(** An empty database, and what committing [txns] to a database gives. *)
Definition empty_AptosDB : AptosDB := mkAptosDB (mkLedgerStore empty_db None) None (mkStateVersions None None).

Definition committed_of (c : comp Commit) : AptosDB :=
  match c with Ret c => committed c | _ => empty_AptosDB end.

(** Genesis ends epoch 0. *)
Definition genesis_info : LedgerInfoWithSignatures :=
  mkLedgerInfoWithSignatures
    (mkLedgerInfo (mkBlockInfo 0 0 1%positive (root_of (TransactionInfo_hash <$> genesis_infos)) 0 0
                     (Some (mkEpochState 1 verifier))) 1%positive)
    AggregateSignature_empty.

Definition bootstrap : comp Commit :=
  save_transactions empty_AptosDB genesis_infos 0 None (Some genesis_info) (mkStateVersions (Some 0) (Some 0)).
Definition booted : AptosDB := Eval vm_compute in committed_of bootstrap.

Definition next_info : LedgerInfoWithSignatures := certificate 1 3 (genesis_infos ++ next_infos).
Definition next_versions : StateVersions := mkStateVersions (Some 2) (Some 3).
Definition next_commit : comp Commit :=
  save_transactions booted next_infos 1 (Some 0) (Some next_info) next_versions.

Lemma booted_ok : db_ok booted genesis_infos.
Proof.
  assert (ledger_info_by_epoch (db (ledger_store booted)) = {[0 := genesis_info]}) as Hli by (vm_compute; reflexivity).
  assert (epoch_by_version (db (ledger_store booted)) = {[0 := 0]}) as Hep by (vm_compute; reflexivity).
  split; [|done|vm_compute; reflexivity..]. split.
  - split; vm_compute; reflexivity.
  - vm_compute; reflexivity.
  - rewrite Hli. apply map_Forall_singleton. split; [done|]. split; [done|vm_compute; reflexivity|].
    by intros es [= <-].
  - rewrite Hep. by apply map_Forall_singleton.
Qed.

(** The ledger after the second commit. *)
Definition ledger : list TransactionInfo := genesis_infos ++ next_infos.
Definition store_after : LedgerStore := Eval vm_compute in ledger_store (committed_of next_commit).

Lemma store_after_holds : holds (db store_after) ledger.
Proof. split; vm_compute; reflexivity. Qed.

Lemma served_proofs_verify_witness :
  (∃ proof info, get_transaction_info_with_proof store_after 1 3 = Ret (Ok (proof, info)) ∧ info = txn 2 None ∧
     TransactionInfoWithProof_verify (mkTransactionInfoWithProof proof info) (ledger_info next_info) 1 = Ok tt) ∧
  (∃ proof, get_consistency_proof store_after (Some 0) 3 = Ret (Ok proof) ∧
     try_extend_with_proof (acc_of (leaves_at ledger 0)) proof (ledger_info next_info)
     = Ret (Ok (acc_of (leaves_at ledger 3)))).
Proof.
  destruct (served_proofs_verify store_after ledger 3 (ledger_info next_info) store_after_holds)
    as (H1 & _ & H3); [done|done|done|vm_compute; reflexivity|].
  split; [|apply H3; lia]. destruct (H1 1) as (proof & info & Hget & Hinfo & Hver); [lia|].
  exists proof, info. split_and!; [exact Hget| |exact Hver]. by injection Hinfo.
Defined.

(** A chunk of three transactions, the first of which the node already has. *)
Definition chunk : TransactionInfoListWithProof :=
  mkTransactionInfoListWithProof
    (match get_transaction_range_proof store_after (Some 0) 3 3 with
     | Ret (Ok proof) => proof
     | _ => AccumulatorRangeProof_new_empty
     end) (take 3 ledger).

Lemma accepted_data_extends_witness :
  let mine := TransactionInfo_hash <$> genesis_infos in
  verify_extends_ledger chunk 1 (root_of mine) (Some 0) = Ret (Ok 1) ∧
  mine ++ (TransactionInfo_hash <$> drop 1 (transaction_infos chunk)) = take 3 (TransactionInfo_hash <$> ledger).
Proof.
  split; [vm_compute; reflexivity|].
  destruct (accepted_data_extends (TransactionInfo_hash <$> genesis_infos) (TransactionInfo_hash <$> ledger)
              (ledger_info next_info) info_domain) as [H _];
    [apply Forall_fmap, Forall_forall; intros info _; apply info_domain|done|vm_compute; reflexivity|].
  apply (H chunk 0 1); [done|done|vm_compute; reflexivity..].
Defined.

Definition next_result : Commit :=
  Eval vm_compute in match next_commit with Ret c => c | _ => mkCommit [] booted (Err tt) end.

Lemma next_result_eq : next_commit = Ret next_result.
Proof. vm_compute. reflexivity. Qed.


Lemma second_restart_panics_witness :
  ∃ disk disk', writes next_result !! 2%nat = Some disk ∧
    sync_commit_progress disk = Ret disk' ∧ ledger_ok (ledger_db disk') genesis_infos ∧ reopen disk' = Panic.
Proof.
  destruct (writes next_result !! 2%nat) as [disk|] eqn:Hdisk; [|done].
  destruct (second_restart_panics booted genesis_infos next_infos 1 (Some 0) (Some next_info) next_versions
    next_result disk booted_ok) as [disk' H]; [done|done|apply next_result_eq|exact Hdisk|].
  by exists disk, disk'.
Defined.

Lemma commit_succeeds_witness : ∃ c, next_commit = Ret c ∧ returned c = Ok tt.
Proof.
  apply (commit_succeeds booted genesis_infos next_infos (Some next_info) next_versions true next_versions booted_ok);
    try (vm_compute; reflexivity); try done.
  - vm_compute. lia.
  - intros x [= <-]. split_and!; vm_compute; reflexivity.
Defined.

(** ** A light client *)

(** Signatures that exist for one message only. *)
Definition bls_run : Bls Signable := {|
  public_key_of k := [k];
  bls_sign k m := Some [(k, 1%positive)];
  bls_aggregate_keys ks := Some (concat ks);
  bls_aggregate ss := Some (concat ss);
  bls_verify s m k := match m with
                      | SLedgerInfo li => bool_decide (li = ledger_info next_info) && forallb (λ x, bool_decide ((x, 1%positive) ∈ s)) k
                      | _ => false
                      end;
  bls_verify_aggregate _ _ _ := false;
|}.

Lemma booted_epochs : epochs_ok (BL:=bls_run) (ledger_store booted) [genesis_info] genesis_info.
Proof.
  assert (epoch_by_version (db (ledger_store booted)) = {[0 := 0]}) as Hep by (vm_compute; reflexivity).
  assert (open_info genesis_info = []) as Hopen by (vm_compute; reflexivity).
  split; rewrite ?Hopen; [vm_compute; reflexivity..|done|done| | | | |done].
  - intros v e. rewrite Hep lookup_singleton_Some. split; [intros [<- <-]; split; [done|by exists genesis_info]|].
    intros (He & li & [Hi <-]%list_lookup_singleton_Some & <-). split; [reflexivity|lia].
  - intros i li [-> <-]%list_lookup_singleton_Some. split; [done|]. by eexists.
  - intros i j li lj Hi%lookup_lt_Some Hj%lookup_lt_Some ?. cbn [length app] in *. lia.
  - intros i li li' es _ Hj%lookup_lt_Some. cbn [length app] in *. lia.
Qed.

Lemma next_follows : follows (BL:=bls_run) [genesis_info] next_info.
Proof.
  split; [intros es Hes; discriminate Hes|]. intros li [= <-]. split; [reflexivity|].
  intros es [= <-]. vm_compute. reflexivity.
Qed.

Lemma client_catches_up_witness :
  let ts := EpochWaypoint (Waypoint_new_any (ledger_info genesis_info)) in
  ∃ (k : nat) ts', nsteps (ratchets (BL:=bls_run) (committed next_result)) k ts ts' ∧ (99 * k ≤ 100)%nat ∧
    ts_waypoint ts' = Waypoint_new_any (ledger_info next_info).
Proof.
  apply (client_catches_up (BL:=bls_run) (committed next_result) [genesis_info] next_info 0).
  - apply (commit_keeps_epochs booted genesis_infos next_infos 1 (Some 0) next_info next_versions next_result
      [genesis_info] genesis_info booted_ok).
    + cbn; lia.
    + apply next_result_eq.
    + reflexivity.
    + apply booted_epochs.
    + apply next_follows.
    + cbn; lia.
  - exists genesis_info. done.
Defined.

Definition run_genuine (c : Ledger2WaypointConverter) : Prop :=
  c = Ledger2WaypointConverter_new (ledger_info genesis_info) ∨ c = Ledger2WaypointConverter_new (ledger_info next_info).

Lemma run_honest : honest_ledger (BL:=bls_run) (λ _, verifier) run_genuine.
Proof.
  split.
  - intros li. unfold verify_signatures, verify_multi_signatures.
    destruct (check_num_of_voters _ _); [|done]. cbn [try]. destruct (collect_voters _ _); [|done]. cbn [try].
    intros Hr. apply bind_Ret in Hr as ([|] & _ & Hr); [|done]. cbn [try] in Hr.
    destruct (sig _) as [σ|]; [|done]. destruct (bls_aggregate_keys _); [|done]. injection Hr as Hr.
    cbn [bls_verify bls_run] in Hr. destruct (decide (ledger_info li = ledger_info next_info)) as [->|Hne]; [by right|].
    by rewrite bool_decide_eq_false_2 in Hr.
  - by intros c es [->| ->] [= <-].
  - intros c c' [->| ->] [->| ->]; cbn; intros [es Hes] ?; done.
Qed.

Lemma waypoint_hash_inj : Inj (=) (=) waypoint_hash.
Proof. intros c c'. change (encode c = encode c' → c = c'). apply encode_inj. Qed.

Lemma ratchet_sound_witness :
  let proof := mkStateProof next_info (mkEpochChangeProof [genesis_info] false) in
  let ts := EpochWaypoint (Waypoint_new_any (ledger_info genesis_info)) in
  let ts' := InEpoch (Waypoint_new_any (ledger_info next_info)) (mkEpochState 1 verifier) in
  verify_and_ratchet (BL:=bls_run) ts proof = Ret (Ok (ChangeEpoch ts' genesis_info)) ∧
  trusts (λ _, verifier) run_genuine ts' ∧ ts_version ts ≤ ts_version ts'.
Proof.
  intros proof ts ts'.
  assert (verify_and_ratchet (BL:=bls_run) ts proof = Ret (Ok (ChangeEpoch ts' genesis_info))) as Hrun by (vm_compute; reflexivity).
  destruct (ratchet_sound (BL:=bls_run) (λ _, verifier) run_genuine ts proof (ChangeEpoch ts' genesis_info)
    run_honest waypoint_hash_inj) as (_ & Hts & Hle & _); [|exact Hrun|by split_and!].
  exists (Ledger2WaypointConverter_new (ledger_info genesis_info)). split; [by left|done].
Defined.
End LedgerRun.
