(* ===== verification/NibblePath.v ===== *)
(** * Hash values, nibbles and nibble paths

    Models the bits and nibbles of a [HashValue] ([crates/aptos-crypto/src/hash.rs]), the
    paths of nibbles that name the nodes of a state tree ([types/src/nibble]) and the
    iterators over them.  A path packs two nibbles a byte; [pack] is the representation
    of a list of nibbles, and every operation on paths is shown to be the operation on
    lists it stands for. *)
From S2P Require Import Prelude U64.
Local Open Scope Z_scope.
#[local] Arguments Nat.div : simpl never.
#[local] Arguments Nat.modulo : simpl never.

(** ** Hash values *)

(** [HashValue::LENGTH], [HashValue::LENGTH_IN_BITS]. *)
Definition LENGTH : nat := 32.
Definition LENGTH_IN_BITS : nat := 256.

(** [struct HashValue]: an array of [LENGTH] bytes, which [hash_ok] says. *)
Definition HashValue : Type := list Z.
Definition hash_ok (h : HashValue) : Prop := length h = LENGTH ∧ Forall (λ b, 0 ≤ b < 256) h.

(** [HashValue::from_slice]. *)
Definition from_slice (bytes : list Z) : option HashValue :=
  if (length bytes =? LENGTH)%nat then Some bytes else None.

Definition bit (self : HashValue) (index : nat) : comp bool :=
  byte ← expect (self !! (index / 8)%nat);
  Ret (negb (Z.land (Z.shiftr byte (7 - Z.of_nat (index mod 8))) 1 =? 0)).

Definition nibble (self : HashValue) (index : nat) : comp Z :=
  byte ← expect (self !! (index / 2)%nat);
  Ret (Z.land (Z.shiftr byte (if (index mod 2 =? 0)%nat then 4 else 0)) 15).

(** The bits a [HashValueBitIterator] yields. *)
Definition iter_bits (self : HashValue) : comp (list bool) := mapM (bit self) (seq 0 LENGTH_IN_BITS).

(** [take_while(|(x, y)| x == y).count()]. *)
Fixpoint count_equal (x y : list bool) : nat :=
  match x, y with
  | a :: x, b :: y => if bool_decide (a = b) then S (count_equal x y) else O
  | _, _ => O
  end.

Definition common_prefix_bits_len (self other : HashValue) : comp nat :=
  x ← iter_bits self;
  y ← iter_bits other;
  Ret (count_equal x y).

(** [#[derive(Ord)]] on arrays of bytes. *)
Fixpoint lex_leb (a b : list Z) : bool :=
  match a, b with
  | [], _ => true
  | _ :: _, [] => false
  | x :: a, y :: b => (x <? y) || ((x =? y) && lex_leb a b)
  end.

(** ** Nibbles *)

(** [ROOT_NIBBLE_HEIGHT]. *)
Definition ROOT_NIBBLE_HEIGHT : nat := LENGTH * 2.

(** [Nibble::from]. *)
Definition Nibble_from (n : Z) : comp Z := rust_assert (n <? 16);; Ret n.

(** [NibbleExt::get_nibble] of [jellyfish-merkle/src/lib.rs]. *)
Definition get_nibble (self : HashValue) (index : nat) : comp Z :=
  byte ← expect (self !! (index / 2)%nat);
  Nibble_from (if (index mod 2 =? 0)%nat then Z.shiftr byte 4 else Z.land byte 15).

(** ** Nibble paths *)

Record NibblePath : Type := mkNibblePath { num_nibbles : nat; path_bytes : list Z }.

#[global] Instance NibblePath_eq_dec : EqDecision NibblePath.
Proof. solve_decision. Defined.
#[global] Instance NibblePath_countable : Countable NibblePath.
Proof.
  apply (inj_countable' (λ p, (num_nibbles p, path_bytes p)) (λ '(n, b), mkNibblePath n b)).
  by intros [n b].
Defined.

Definition new_even (bytes : list Z) : comp NibblePath :=
  rust_assert (length bytes <=? ROOT_NIBBLE_HEIGHT / 2)%nat;;
  Ret (mkNibblePath (length bytes * 2) bytes).

Definition new_odd (bytes : list Z) : comp NibblePath :=
  rust_assert (length bytes <=? ROOT_NIBBLE_HEIGHT / 2)%nat;;
  last_byte ← expect (last bytes);
  rust_assert (Z.land last_byte 15 =? 0);;
  Ret (mkNibblePath (length bytes * 2 - 1) bytes).

Definition new_from_byte_array (bytes : list Z) (num_nibbles : nat) : comp NibblePath :=
  rust_assert (num_nibbles <=? ROOT_NIBBLE_HEIGHT)%nat;;
  if (num_nibbles mod 2 =? 1)%nat then
    let num_bytes := ((num_nibbles + 1) / 2)%nat in
    rust_assert (num_bytes <=? length bytes)%nat;;
    last_byte ← expect (bytes !! (num_bytes - 1)%nat);
    new_odd (<[(num_bytes - 1)%nat := Z.land last_byte 240]> (take num_bytes bytes))
  else
    rust_assert (num_nibbles / 2 <=? length bytes)%nat;;
    new_even (take (num_nibbles / 2) bytes).

(** [u8::from(nibble) << 4] is in [u8]. *)
Definition push (self : NibblePath) (nibble : Z) : comp NibblePath :=
  rust_assert (num_nibbles self <? ROOT_NIBBLE_HEIGHT)%nat;;
  if (num_nibbles self mod 2 =? 0)%nat then
    Ret (mkNibblePath (S (num_nibbles self)) (path_bytes self ++ [wrap 8 (Z.shiftl nibble 4)]))
  else
    byte ← expect (path_bytes self !! (num_nibbles self / 2)%nat);
    Ret (mkNibblePath (S (num_nibbles self))
           (<[(num_nibbles self / 2)%nat := Z.lor byte nibble]> (path_bytes self))).

Definition set_last {A} (l : list A) (a : A) : list A := take (length l - 1) l ++ [a].

Definition pop (self : NibblePath) : comp (NibblePath * option Z) :=
  match last (path_bytes self) with
  | None => Ret (self, None)
  | Some last_byte =>
      if (num_nibbles self mod 2 =? 0)%nat then
        nibble ← Nibble_from (Z.land last_byte 15);
        Ret (mkNibblePath (num_nibbles self - 1) (set_last (path_bytes self) (Z.land last_byte 240)), Some nibble)
      else
        nibble ← Nibble_from (Z.shiftr last_byte 4);
        Ret (mkNibblePath (num_nibbles self - 1) (take (length (path_bytes self) - 1) (path_bytes self)), Some nibble)
  end.

Definition path_last (self : NibblePath) : comp (option Z) :=
  if (num_nibbles self mod 2 =? 0)%nat then
    match last (path_bytes self) with
    | Some last_byte => n ← Nibble_from (Z.land last_byte 15); Ret (Some n)
    | None => Ret None
    end
  else
    last_byte ← expect (last (path_bytes self));
    n ← Nibble_from (Z.shiftr last_byte 4);
    Ret (Some n).

(** [NibblePath::get_bit], [NibblePath::get_nibble]. *)
Definition path_get_bit (self : NibblePath) (i : nat) : comp bool :=
  rust_assert (i <? num_nibbles self * 4)%nat;;
  byte ← expect (path_bytes self !! (i / 8)%nat);
  Ret (negb (Z.land (Z.shiftr byte (7 - Z.of_nat (i mod 8))) 1 =? 0)).

Definition path_get_nibble (self : NibblePath) (i : nat) : comp Z :=
  rust_assert (i <? num_nibbles self)%nat;;
  byte ← expect (path_bytes self !! (i / 2)%nat);
  Nibble_from (Z.land (Z.shiftr byte (if (i mod 2 =? 1)%nat then 0 else 4)) 15).

Definition truncate (self : NibblePath) (len : nat) : comp NibblePath :=
  rust_assert (len <=? num_nibbles self)%nat;;
  let bytes := take ((len + 1) / 2) (path_bytes self) in
  if (len mod 2 =? 0)%nat then Ret (mkNibblePath len bytes)
  else last_byte ← expect (last bytes); Ret (mkNibblePath len (set_last bytes (Z.land last_byte 240))).

(** [FromIterator<Nibble>]. *)
Definition from_iter (nibbles : list Z) : comp NibblePath :=
  foldl (λ path n, p ← path; push p n) (new_even []) nibbles.

(** ** Iterators over a path *)

(** [struct NibbleIterator]: the next nibble is [iter_pos], and [iter_start] is where it
    began. *)
Record NibbleIterator : Type := mkNibbleIterator {
  iter_path : NibblePath;
  iter_pos : nat;
  iter_end : nat;
  iter_start : nat;
}.

Definition NibbleIterator_new (path : NibblePath) (start end_ : nat) : comp NibbleIterator :=
  rust_assert (start <=? end_)%nat;;
  rust_assert (start <=? ROOT_NIBBLE_HEIGHT)%nat;;
  rust_assert (end_ <=? ROOT_NIBBLE_HEIGHT)%nat;;
  Ret (mkNibbleIterator path start end_ start).

Definition nibbles (self : NibblePath) : comp NibbleIterator := NibbleIterator_new self 0 (num_nibbles self).

Definition peek (self : NibbleIterator) : comp (option Z) :=
  if (iter_pos self <? iter_end self)%nat then n ← path_get_nibble (iter_path self) (iter_pos self); Ret (Some n)
  else Ret None.

Definition next (self : NibbleIterator) : comp (NibbleIterator * option Z) :=
  if (iter_pos self <? iter_end self)%nat then
    n ← path_get_nibble (iter_path self) (iter_pos self);
    Ret (mkNibbleIterator (iter_path self) (S (iter_pos self)) (iter_end self) (iter_start self), Some n)
  else Ret (self, None).

Definition visited_nibbles (self : NibbleIterator) : comp NibbleIterator :=
  NibbleIterator_new (iter_path self) (iter_start self) (iter_pos self).
Definition remaining_nibbles (self : NibbleIterator) : comp NibbleIterator :=
  NibbleIterator_new (iter_path self) (iter_pos self) (iter_end self).

(** What is left to iterate; [n] is the number of nibbles that are. *)
Fixpoint drain (n : nat) (self : NibbleIterator) : comp (list Z) :=
  match n with
  | O => Ret []
  | S n =>
      '(self, x) ← next self;
      match x with None => Ret [] | Some x => l ← drain n self; Ret (x :: l) end
  end.
Definition iter_collect (self : NibbleIterator) : comp (list Z) := drain (iter_end self - iter_pos self) self.

Definition get_nibble_path (self : NibbleIterator) : comp NibblePath :=
  visited ← visited_nibbles self;
  remaining ← remaining_nibbles self;
  v ← iter_collect visited;
  r ← iter_collect remaining;
  from_iter (v ++ r).

Definition is_finished (self : NibbleIterator) : comp bool := x ← peek self; Ret (bool_decide (x = None)).

(** [skip_common_prefix]: no more rounds than [x] has nibbles left. *)
Fixpoint skip_loop (fuel count : nat) (x y : NibbleIterator) : comp (NibbleIterator * NibbleIterator * nat) :=
  match fuel with
  | O => Ret (x, y, count)
  | S fuel =>
      x_peek ← peek x;
      y_peek ← peek y;
      match x_peek, y_peek with
      | Some a, Some b =>
          if bool_decide (a = b) then '(x, _) ← next x; '(y, _) ← next y; skip_loop fuel (S count) x y
          else Ret (x, y, count)
      | _, _ => Ret (x, y, count)
      end
  end.
Definition skip_common_prefix (x y : NibbleIterator) : comp (NibbleIterator * NibbleIterator * nat) :=
  skip_loop (iter_end x - iter_pos x) 0 x y.

(** ** Lists of nibbles *)

Definition is_nibble (n : Z) : Prop := 0 ≤ n < 16.
Definition is_byte (b : Z) : Prop := 0 ≤ b < 256.

(** The nibbles of bytes, and the bytes of nibbles. *)
Fixpoint unpack (bytes : list Z) : list Z :=
  match bytes with [] => [] | b :: bytes => b / 16 :: b mod 16 :: unpack bytes end.

Fixpoint pack_bytes (l : list Z) : list Z :=
  match l with
  | [] => []
  | [a] => [16 * a]
  | a :: b :: l => 16 * a + b :: pack_bytes l
  end.

Definition pack (l : list Z) : NibblePath := mkNibblePath (length l) (pack_bytes l).

(** The nibbles and bits of a hash value. *)
Definition key_nibble (h : HashValue) (i : nat) : Z := default 0 (unpack h !! i).
Definition key_bit (h : HashValue) (i : nat) : bool := Z.testbit (key_nibble h (i / 4)) (3 - Z.of_nat (i mod 4)).

(** Induction two elements at a time. *)
Lemma pairs_ind {A} (P : list A → Prop) :
  P [] → (∀ a, P [a]) → (∀ a b l, P l → P (a :: b :: l)) → ∀ l, P l.
Proof.
  intros H0 H1 H2. fix IH 1. intros [|a [|b l]]; [done..|]. apply H2, IH.
Qed.

Lemma half_S_S n : (S (S n) / 2 = S (n / 2))%nat.
Proof. change (S (S n)) with (1 * 2 + n)%nat. by rewrite Nat.div_add_l. Qed.
Lemma mod_S_S n : (S (S n) mod 2 = n mod 2)%nat.
Proof. replace (S (S n)) with (n + 1 * 2)%nat by lia. by rewrite Nat.Div0.mod_add. Qed.

Lemma byte_low b : Z.land b 15 = b mod 16.
Proof. by rewrite (Z.land_ones b 4). Qed.
Lemma byte_high b : Z.shiftr b 4 = b / 16.
Proof. by rewrite Z.shiftr_div_pow2. Qed.

(** A decidable property of bytes holds if it holds of the 256 of them. *)
Lemma byte_cases (P : Z → bool) (n : nat) b :
  forallb P (Z.of_nat <$> seq 0 n) = true → 0 ≤ b < Z.of_nat n → P b = true.
Proof.
  rewrite forallb_forall. intros HP Hb. apply HP, list_elem_of_In, list_elem_of_fmap.
  exists (Z.to_nat b). split; [lia|]. apply elem_of_seq. lia.
Qed.

Lemma byte_clear b : is_byte b → Z.land b 240 = 16 * (b / 16).
Proof. intros Hb. by apply Z.eqb_eq, (byte_cases (λ b, Z.land b 240 =? 16 * (b / 16)) 256). Qed.

Lemma byte_join a n : is_nibble a → is_nibble n → Z.lor (16 * a) n = 16 * a + n.
Proof.
  intros Ha Hn. apply Z.eqb_eq.
  apply (byte_cases (λ n, Z.lor (16 * a) n =? 16 * a + n) 16); [|done].
  by apply (byte_cases (λ a, forallb (λ n, Z.lor (16 * a) n =? 16 * a + n) (Z.of_nat <$> seq 0 16)) 16).
Qed.

(** Testing a bit of a byte by shifting it down. *)
Lemma shift_test b n : 0 ≤ n → negb (Z.land (Z.shiftr b n) 1 =? 0) = Z.testbit b n.
Proof. intros Hn. rewrite (land_pow2 _ 0); [lia|]. by rewrite negb_involutive Z.shiftr_spec. Qed.

Lemma nibble_shift a : is_nibble a → wrap 8 (Z.shiftl a 4) = 16 * a.
Proof. intros Ha. unfold wrap, is_nibble in *. rewrite Z.shiftl_mul_pow2; [lia|]. rewrite Z.mod_small; lia. Qed.

Lemma length_unpack b : length (unpack b) = (length b * 2)%nat.
Proof. induction b as [|x b IH]; simpl; lia. Qed.

Lemma unpack_nibbles b : Forall is_byte b → Forall is_nibble (unpack b).
Proof.
  induction 1 as [|x b Hx _ IH]; simpl; repeat constructor; try done; unfold is_byte in Hx.
  all: first [apply Z.div_pos; lia | apply Z.div_lt_upper_bound; lia | apply Z.mod_pos_bound; lia].
Qed.

Lemma unpack_lookup b i :
  unpack b !! i = (λ x, if (i mod 2 =? 0)%nat then x / 16 else x mod 16) <$> b !! (i / 2)%nat.
Proof.
  revert i. induction b as [|x b IH]; intros i; [done|].
  destruct i as [|[|i]]; [done..|]. rewrite half_S_S mod_S_S. apply IH.
Qed.

Lemma pack_unpack b : Forall is_byte b → pack_bytes (unpack b) = b.
Proof.
  induction 1 as [|x b Hx _ IH]; [done|]. simpl. rewrite IH. f_equal. pose proof (Z_div_mod_eq_full x 16). lia.
Qed.

Lemma length_pack_bytes l : length (pack_bytes l) = ((length l + 1) / 2)%nat.
Proof. induction l as [| |a b l IH] using pairs_ind; [done..|]. cbn [pack_bytes length]. rewrite IH half_S_S //. Qed.

Lemma byte_nibbles a b : is_nibble a → is_nibble b → (16 * a + b) / 16 = a ∧ (16 * a + b) mod 16 = b.
Proof.
  intros Ha Hb. unfold is_nibble in *. rewrite Z.add_comm Z.mul_comm Z.div_add; [lia|].
  rewrite Z.mod_add; [lia|]. rewrite Z.div_small // Z.mod_small //.
Qed.

Lemma unpack_pack_nibbles l :
  Forall is_nibble l → unpack (pack_bytes l) = if (length l mod 2 =? 0)%nat then l else l ++ [0].
Proof.
  induction l as [|a|a b l IH] using pairs_ind; intros Hl; [done| |].
  - apply Forall_cons in Hl as [Ha _]. destruct (byte_nibbles a 0) as [E1 E2]; [done..|]. simpl. by rewrite -{1 2}(Z.add_0_r (16 * a)) E1 E2.
  - apply Forall_cons in Hl as [Ha [Hb Hl]%Forall_cons]. cbn [pack_bytes unpack length]. destruct (byte_nibbles a b) as [-> ->]; [done..|].
    rewrite IH // mod_S_S. by destruct (_ =? _)%nat.
Qed.

Lemma pack_bytes_app l l' :
  (length l mod 2 = 0)%nat → pack_bytes (l ++ l') = pack_bytes l ++ pack_bytes l'.
Proof.
  induction l as [| |a b l IH] using pairs_ind; intros Hl; [done|done|].
  cbn [length] in Hl. rewrite mod_S_S in Hl. cbn [app pack_bytes]. by rewrite IH.
Qed.

Lemma pack_inj l l' : Forall is_nibble l → Forall is_nibble l' → pack l = pack l' → l = l'.
Proof.
  intros Hl Hl' [=Hlen Hb]. apply (f_equal unpack) in Hb. rewrite !unpack_pack_nibbles // Hlen in Hb.
  destruct (_ =? _)%nat; [done|]. by apply app_inj_tail in Hb as [-> _].
Qed.

(** ** The bits and nibbles of a hash value *)

Lemma hash_lookup h i : hash_ok h → (i < LENGTH)%nat → ∃ b, h !! i = Some b ∧ is_byte b.
Proof.
  intros [Hl Hb] Hi. destruct (lookup_lt_is_Some_2 h i) as [b Hi']; [lia|].
  exists b. split; [done|]. by eapply Forall_lookup_1 in Hb.
Qed.

Lemma key_nibble_ok h i : hash_ok h → is_nibble (key_nibble h i).
Proof.
  intros [_ Hb]. unfold key_nibble. destruct (unpack h !! i) as [n|] eqn:Hn; [|unfold is_nibble; simpl; lia].
  eapply Forall_lookup_1 in Hn; [done|]. by apply unpack_nibbles.
Qed.

Lemma unpack_key_nibble h i : hash_ok h → (i < ROOT_NIBBLE_HEIGHT)%nat → unpack h !! i = Some (key_nibble h i).
Proof.
  intros [Hl _] Hi. unfold key_nibble. destruct (lookup_lt_is_Some_2 (unpack h) i) as [n ->]; [|done].
  rewrite length_unpack Hl. unfold ROOT_NIBBLE_HEIGHT in Hi. lia.
Qed.

Lemma half_lt i n : (i < n * 2)%nat → (i / 2 < n)%nat.
Proof. intros Hi. apply Nat.Div0.div_lt_upper_bound. lia. Qed.

Lemma get_nibble_Ret h i : hash_ok h → (i < ROOT_NIBBLE_HEIGHT)%nat → get_nibble h i = Ret (key_nibble h i).
Proof.
  intros Hh Hi. pose proof (key_nibble_ok h i Hh) as Hn. unfold get_nibble, key_nibble in *. rewrite unpack_lookup in Hn |- *.
  destruct (hash_lookup h (i / 2)) as (b & Hb & _); [done|by apply half_lt|]. rewrite Hb in Hn |- *. cbn in Hn |- *.
  rewrite byte_high byte_low. unfold Nibble_from. destruct (_ =? _)%nat; rewrite (proj2 (Z.ltb_lt _ 16)) //; apply Hn.
Qed.

Lemma nibble_Ret h i : hash_ok h → (i < ROOT_NIBBLE_HEIGHT)%nat → nibble h i = Ret (key_nibble h i).
Proof.
  intros Hh Hi. unfold nibble, key_nibble in *. rewrite unpack_lookup.
  destruct (hash_lookup h (i / 2)) as (b & Hb & Hb'); [done|by apply half_lt|]. rewrite Hb. cbn. rewrite byte_low.
  destruct (_ =? _)%nat; [|done]. rewrite byte_high Z.mod_small //. unfold is_byte in Hb'.
  split; [apply Z.div_pos; lia|apply Z.div_lt_upper_bound; lia].
Qed.

Lemma key_bit_byte h i b :
  h !! (i / 8)%nat = Some b → key_bit h i = Z.testbit b (7 - Z.of_nat (i mod 8)).
Proof.
  intros Hb. unfold key_bit, key_nibble. rewrite unpack_lookup Nat.Div0.div_div. change (4 * 2)%nat with 8%nat. rewrite Hb. cbn.
  pose proof (Nat.div_mod_eq i 8) as Hi. pose proof (Nat.mod_upper_bound i 8 ltac:(lia)) as Hm.
  set (q := (i / 8)%nat) in *. set (r := (i mod 8)%nat) in *. rewrite Hi.
  replace (8 * q + r)%nat with (r + (2 * q) * 4)%nat by lia. rewrite Nat.div_add // Nat.Div0.mod_add.
  replace (r / 4 + 2 * q)%nat with (r / 4 + q * 2)%nat by lia. rewrite Nat.Div0.mod_add.
  change 16 with (2 ^ 4).
  destruct r as [|[|[|[|[|[|[|[|r]]]]]]]]; [..|lia].
  all: cbn; rewrite ?Z.div_pow2_bits ?Z.mod_pow2_bits_low //; lia.
Qed.

Lemma bit_Ret h i : hash_ok h → (i < LENGTH_IN_BITS)%nat → bit h i = Ret (key_bit h i).
Proof.
  intros Hh Hi. unfold LENGTH_IN_BITS in Hi. destruct (hash_lookup h (i / 8)) as (b & Hb & _); [done|apply Nat.Div0.div_lt_upper_bound; unfold LENGTH; lia|].
  rewrite (key_bit_byte h i b Hb). unfold bit. rewrite Hb. cbn [expect]. run. rewrite shift_test //.
  pose proof (Nat.mod_upper_bound i 8). lia.
Qed.

Lemma mapM_Ret {A B} (f : A → comp B) (g : A → B) l :
  (∀ x, x ∈ l → f x = Ret (g x)) → mapM f l = Ret (g <$> l).
Proof.
  induction l as [|x l IH]; intros Hf; [done|]. cbn [mapM]. rewrite (Hf x); [set_solver|]. run.
  rewrite IH; [|done]. intros y Hy. apply Hf. set_solver.
Qed.

(** All bits of a hash value, from the most significant one on. *)
Definition bits (h : HashValue) : list bool := key_bit h <$> seq 0 LENGTH_IN_BITS.
#[global] Arguments bits : simpl never.
#[global] Arguments iter_bits : simpl never.

Lemma iter_bits_Ret h : hash_ok h → iter_bits h = Ret (bits h).
Proof. intros Hh. apply mapM_Ret. intros i Hi%elem_of_seq. apply bit_Ret; [done|lia]. Qed.

Lemma hash_ext h h' :
  hash_ok h → hash_ok h' → (∀ i, (i < ROOT_NIBBLE_HEIGHT)%nat → key_nibble h i = key_nibble h' i) → h = h'.
Proof.
  intros Hh Hh' Heq. rewrite -(pack_unpack h); [apply Hh|]. rewrite -(pack_unpack h'); [apply Hh'|]. f_equal.
  apply list_eq_same_length with (length (unpack h)); [|done|].
  { by rewrite !length_unpack (proj1 Hh) (proj1 Hh'). }
  intros i x y Hi. rewrite length_unpack (proj1 Hh) in Hi. rewrite !unpack_key_nibble //. rewrite Heq //. congruence.
Qed.

Lemma nibble_bits_ext n n' :
  is_nibble n → is_nibble n' → (∀ j, (j < 4)%nat → Z.testbit n (3 - Z.of_nat j) = Z.testbit n' (3 - Z.of_nat j)) → n = n'.
Proof.
  intros Hn Hn' Heq. apply Z.bits_inj'. intros k Hk. destruct (decide (k < 4)).
  - specialize (Heq (Z.to_nat (3 - k)) ltac:(lia)). by replace (3 - Z.of_nat (Z.to_nat (3 - k))) with k in Heq by lia.
  - assert (Hhigh : ∀ m, is_nibble m → Z.testbit m k = false); [|by rewrite !Hhigh].
    intros m Hm. unfold is_nibble in Hm. destruct (decide (m = 0)) as [->|]; [apply Z.bits_0|].
    apply Z.bits_above_log2; [lia|]. apply Z.log2_lt_pow2; [lia|]. apply Z.lt_le_trans with (2 ^ 4); [lia|]. apply Z.pow_le_mono_r; lia.
Qed.

(** The bits of the [d]-th nibble. *)
Lemma key_bit_nibble h d j : (j < 4)%nat → key_bit h (4 * d + j) = Z.testbit (key_nibble h d) (3 - Z.of_nat j).
Proof.
  intros Hj. unfold key_bit. replace (4 * d + j)%nat with (j + d * 4)%nat by lia.
  rewrite Nat.div_add // Nat.Div0.mod_add Nat.div_small // Nat.mod_small //.
Qed.

(** The keys that start with the same nibbles are those that start with the same bits. *)
Lemma key_nibbles_bits h h' d :
  hash_ok h → hash_ok h' →
  (∀ i, (i < d)%nat → key_nibble h i = key_nibble h' i) ↔ (∀ i, (i < 4 * d)%nat → key_bit h i = key_bit h' i).
Proof.
  intros Hh Hh'. split; intros Heq i Hi.
  - unfold key_bit. rewrite Heq //. apply Nat.Div0.div_lt_upper_bound. lia.
  - apply nibble_bits_ext; [by apply key_nibble_ok..|]. intros j Hj. rewrite -!key_bit_nibble //. apply Heq. lia.
Qed.

Lemma hash_bits_ext h h' :
  hash_ok h → hash_ok h' → (∀ i, (i < LENGTH_IN_BITS)%nat → key_bit h i = key_bit h' i) → h = h'.
Proof. intros Hh Hh' Heq. apply hash_ext; [done..|]. by apply key_nibbles_bits. Qed.

(** ** The order of keys *)

Lemma lex_leb_refl a : lex_leb a a = true.
Proof. induction a as [|x a IH]; [done|]. simpl. by rewrite Z.eqb_refl IH orb_true_r. Qed.

Lemma lex_leb_cons x y a b : lex_leb (x :: a) (y :: b) = true ↔ x < y ∨ (x = y ∧ lex_leb a b = true).
Proof. simpl. by rewrite orb_true_iff andb_true_iff Z.ltb_lt Z.eqb_eq. Qed.

#[global] Program Instance hash_key_order : KeyOrder HashValue := {| key_le a b := lex_leb a b = true |}.
Next Obligation. intros a b. apply _. Defined.
Next Obligation.
  intros a. induction a as [|x a IH]; intros [|y b] [|z c]; try done. rewrite !lex_leb_cons.
  intros [?|[-> ?]] [?|[-> ?]]; [left; lia|left; lia|left; lia|right]. split; [done|]. by apply (IH b).
Qed.
Next Obligation.
  intros a. induction a as [|x a IH]; intros [|y b]; [by left|by left|by right|]. rewrite !lex_leb_cons.
  destruct (Z.lt_total x y) as [?|[->|?]]; [naive_solver| |naive_solver]. destruct (IH b); naive_solver.
Qed.
Next Obligation.
  intros a. induction a as [|x a IH]; intros [|y b]; try done. rewrite !lex_leb_cons.
  intros [?|[-> ?]] [?|[? ?]]; try lia. f_equal. by apply IH.
Qed.

Lemma lex_unpack a b :
  Forall is_byte a → Forall is_byte b → lex_leb a b = true → lex_leb (unpack a) (unpack b) = true.
Proof.
  intros Ha. revert b. induction Ha as [|x a Hx Ha IH]; intros b Hb; [done|]. destruct Hb as [|y b Hy Hb]; [done|].
  rewrite lex_leb_cons. cbn [unpack]. rewrite !lex_leb_cons. unfold is_byte in *.
  pose proof (Z_div_mod_eq_full x 16). pose proof (Z_div_mod_eq_full y 16).
  pose proof (Z.mod_pos_bound x 16). pose proof (Z.mod_pos_bound y 16).
  intros [Hlt|[-> Hle]]; [|right; split; [done|right; auto]].
  destruct (decide (x / 16 < y / 16)); [by left|right]. split; [lia|left; lia].
Qed.

Lemma lex_nth d a b :
  lex_leb a b = true → (∀ i, (i < d)%nat → a !! i = b !! i) → ∀ x y, a !! d = Some x → b !! d = Some y → x ≤ y.
Proof.
  revert a b. induction d as [|d IH]; intros [|x a] [|y b] Hle Heq x' y' Ha Hb; try done.
  - apply lex_leb_cons in Hle. simplify_eq/=. destruct Hle as [?|[? _]]; lia.
  - apply lex_leb_cons in Hle as [Hlt|[-> Hle]].
    + specialize (Heq 0%nat ltac:(lia)). simplify_eq/=. lia.
    + apply (IH a b); [done| |done..]. intros i Hi. by apply (Heq (S i)); lia.
Qed.

(** Of two keys that start alike, the smaller one has the smaller next nibble. *)
Lemma key_le_nibble h h' d :
  hash_ok h → hash_ok h' → key_le h h' → (d < ROOT_NIBBLE_HEIGHT)%nat →
  (∀ i, (i < d)%nat → key_nibble h i = key_nibble h' i) → key_nibble h d ≤ key_nibble h' d.
Proof.
  intros Hh Hh' Hle Hd Heq. apply (lex_nth d (unpack h) (unpack h')); [by apply lex_unpack; [apply Hh|apply Hh'|]| |by apply unpack_key_nibble..].
  intros i Hi. rewrite !unpack_key_nibble //; [lia..|]. by rewrite Heq.
Qed.

(** ** Paths are lists of nibbles *)

Lemma parity_S n : (S n mod 2 = 1 - n mod 2)%nat.
Proof.
  pose proof (Nat.div_mod_eq n 2). pose proof (Nat.mod_upper_bound n 2 ltac:(lia)).
  pose proof (Nat.div_mod_eq (S n) 2). pose proof (Nat.mod_upper_bound (S n) 2 ltac:(lia)). lia.
Qed.

(** A list is empty, or has a last element with an even or an odd number before it. *)
Lemma path_cases (l : list Z) :
  l = [] ∨ (∃ l0 a, l = l0 ++ [a] ∧ (length l0 mod 2 = 0)%nat) ∨ (∃ l0 a b, l = l0 ++ [a; b] ∧ (length l0 mod 2 = 0)%nat).
Proof.
  induction l as [| |a b l [->|[(l0 & x & -> & Hl)|(l0 & x & y & -> & Hl)]]] using pairs_ind; [by left| | | |].
  - right; left. by exists [], a.
  - right; right. by exists [], a, b.
  - right; left. exists (a :: b :: l0), x. cbn [length]. by rewrite mod_S_S.
  - right; right. exists (a :: b :: l0), x, y. cbn [length]. by rewrite mod_S_S.
Qed.

Lemma half_even n : (n mod 2 = 0 → n = n / 2 * 2)%nat.
Proof. pose proof (Nat.div_mod_eq n 2). lia. Qed.

Lemma half_length l : (length l mod 2 = 0)%nat → length (pack_bytes l) = (length l / 2)%nat.
Proof.
  intros Hl. rewrite length_pack_bytes. rewrite {1}(half_even _ Hl). rewrite Nat.add_comm Nat.div_add //.
Qed.

Lemma half_S n : (n mod 2 = 0 → S n / 2 = n / 2)%nat.
Proof. intros Hn. rewrite {1}(half_even n Hn) -Nat.add_1_l Nat.div_add //. Qed.

Lemma new_even_pack b : Forall is_byte b → (length b <= LENGTH)%nat → new_even b = Ret (pack (unpack b)).
Proof.
  intros Hb Hl. unfold new_even, pack. rewrite (proj2 (Nat.leb_le _ _)); [exact Hl|]. run. by rewrite pack_unpack // length_unpack.
Qed.

Lemma push_pack l n :
  Forall is_nibble l → is_nibble n → (length l < ROOT_NIBBLE_HEIGHT)%nat → push (pack l) n = Ret (pack (l ++ [n])).
Proof.
  intros Hl Hn Hlen. unfold push, pack. cbn [num_nibbles path_bytes]. rewrite (proj2 (Nat.ltb_lt _ _)) //. run.
  rewrite length_app Nat.add_1_r. destruct (Nat.eqb_spec (length l mod 2) 0) as [Heven|Hodd].
  - by rewrite nibble_shift // pack_bytes_app.
  - destruct (path_cases l) as [->|[(l0 & a & -> & Hl0)|(l0 & a & b & -> & Hl0)]]; [done| |].
    + rewrite length_app Nat.add_1_r half_S // -app_assoc !(pack_bytes_app l0) // -half_length //.
      apply Forall_app in Hl as [_ [Ha _]%Forall_cons]. cbn [app pack_bytes].
      rewrite list_lookup_middle //. cbn [expect]. run. rewrite insert_app_r_alt // Nat.sub_diag /=. by rewrite byte_join.
    + exfalso. apply Hodd. rewrite length_app. cbn [length]. by rewrite Nat.add_comm /= mod_S_S.
Qed.

Lemma from_iter_pack l : Forall is_nibble l → (length l <= ROOT_NIBBLE_HEIGHT)%nat → from_iter l = Ret (pack l).
Proof.
  unfold from_iter. change (new_even []) with (Ret (pack [])). revert l.
  refine (rev_ind _ _ _); [done|]. intros n l IH [Hl [Hn _]%Forall_cons]%Forall_app. rewrite length_app /=. intros Hlen.
  rewrite foldl_app IH //; [lia|]. cbn [foldl]. run. apply push_pack; [done..|lia].
Qed.

Lemma pop_pack l :
  Forall is_nibble l → pop (pack l) = Ret (pack (take (length l - 1) l), last l).
Proof.
  intros Hl. destruct (path_cases l) as [->|[(l0 & a & -> & Hl0)|(l0 & a & b & -> & Hl0)]]; [done| |].
  - apply Forall_app in Hl as [_ [Ha _]%Forall_cons]. unfold pop, pack. cbn [num_nibbles path_bytes]. rewrite length_app Nat.add_1_r.
    rewrite parity_S Hl0 pack_bytes_app //= !last_snoc length_app /= Nat.add_sub take_app_length. rewrite Nat.sub_0_r take_app_length.
    unfold Nibble_from. rewrite byte_high (Z.mul_comm 16) Z.div_mul // (proj2 (Z.ltb_lt _ _)); [apply Ha|]. by run.
  - apply Forall_app in Hl as [_ [Ha [Hb _]%Forall_cons]%Forall_cons]. unfold pop, pack. cbn [num_nibbles path_bytes]. rewrite length_app /= Nat.add_comm /= mod_S_S Hl0 pack_bytes_app //=.
    rewrite !last_snoc (app_assoc l0 [a] [b]) -/([a] ++ [b]) last_snoc. unfold set_last. rewrite length_app /= Nat.add_sub take_app_length.
    replace (S (length l0)) with (length (l0 ++ [a])) by (rewrite length_app /=; lia). rewrite take_app_length.
    destruct (byte_nibbles a b) as [E1 E2]; [done..|]. unfold is_nibble in *.
    rewrite byte_low byte_clear ?E1 ?E2; [unfold is_byte; lia|]. unfold Nibble_from. rewrite (proj2 (Z.ltb_lt _ _)); [lia|]. run. by rewrite pack_bytes_app.
Qed.

Lemma pack_bytes_ok l : Forall is_nibble l → Forall is_byte (pack_bytes l).
Proof.
  induction l as [|a|a b l IH] using pairs_ind; intros Hl; [done|..]; cbn [pack_bytes]; decompose_Forall_hyps;
    unfold is_nibble, is_byte in *; constructor; first [lia|auto].
Qed.

Lemma unpack_pack_lookup l i :
  Forall is_nibble l → (i < length l)%nat → unpack (pack_bytes l) !! i = l !! i.
Proof. intros Hl Hi. rewrite unpack_pack_nibbles //. destruct (_ =? _)%nat; [done|]. by rewrite lookup_app_l. Qed.

Lemma pack_lookup l i :
  Forall is_nibble l → (i < length l)%nat →
  ∃ b x, pack_bytes l !! (i / 2)%nat = Some b ∧ l !! i = Some x ∧ is_byte b ∧ is_nibble x ∧ x = if (i mod 2 =? 0)%nat then b / 16 else b mod 16.
Proof.
  intros Hl Hi. destruct (lookup_lt_is_Some_2 l i Hi) as [x Hx]. pose proof (unpack_pack_lookup l i Hl Hi) as Hu.
  rewrite unpack_lookup Hx in Hu. destruct (pack_bytes l !! _) as [b|] eqn:Hb; [|done]. exists b, x. injection Hu as <-.
  split_and!; [done..| | |done].
  - by eapply Forall_lookup_1 in Hb; [|by apply pack_bytes_ok].
  - by eapply Forall_lookup_1 in Hx.
Qed.

Lemma Nibble_from_Ret n : is_nibble n → Nibble_from n = Ret n.
Proof. intros Hn. unfold Nibble_from. by rewrite (proj2 (Z.ltb_lt _ _) (proj2 Hn)). Qed.

Lemma parity_1 n : (n mod 2 =? 1)%nat = negb (n mod 2 =? 0)%nat.
Proof. pose proof (Nat.mod_upper_bound n 2 ltac:(lia)). destruct (n mod 2)%nat as [|[|]]; [done..|lia]. Qed.

Lemma path_get_nibble_pack l i x :
  Forall is_nibble l → l !! i = Some x → path_get_nibble (pack l) i = Ret x.
Proof.
  intros Hl Hx. pose proof (lookup_lt_Some _ _ _ Hx) as Hi. unfold path_get_nibble. cbn [num_nibbles path_bytes pack].
  rewrite (proj2 (Nat.ltb_lt _ _) Hi). run. destruct (pack_lookup l i Hl Hi) as (b & x' & -> & Hx' & Hb & Hn & Heq).
  simplify_eq. cbn [expect]. run. rewrite parity_1. destruct (_ =? _)%nat; cbn [negb]; rewrite ?byte_high byte_low ?Z.shiftr_0_r.
  - rewrite Z.mod_small //. by apply Nibble_from_Ret.
  - by apply Nibble_from_Ret.
Qed.

Lemma path_get_bit_pack l i x :
  Forall is_nibble l → l !! (i / 4)%nat = Some x → path_get_bit (pack l) i = Ret (Z.testbit x (3 - Z.of_nat (i mod 4))).
Proof.
  intros Hl Hx. pose proof (lookup_lt_Some _ _ _ Hx) as Hi. unfold path_get_bit. cbn [num_nibbles path_bytes pack].
  rewrite (proj2 (Nat.ltb_lt _ _)). { rewrite {1}(Nat.div_mod_eq i 4). pose proof (Nat.mod_upper_bound i 4). lia. } run.
  destruct (pack_lookup l (i / 4) Hl Hi) as (b & x' & Hb & _). rewrite Nat.Div0.div_div in Hb. rewrite Hb. cbn [expect]. run.
  rewrite shift_test; [pose proof (Nat.mod_upper_bound i 8); lia|]. rewrite -(key_bit_byte _ _ _ Hb). unfold key_bit, key_nibble.
  by rewrite unpack_pack_lookup // Hx.
Qed.

Lemma path_last_pack l : Forall is_nibble l → path_last (pack l) = Ret (last l).
Proof.
  intros Hl. pose proof (pop_pack l Hl) as Hpop. unfold pop in Hpop. unfold path_last.
  destruct (last (path_bytes (pack l))) as [b|] eqn:Hb; cbn [expect] in *.
  - destruct (_ =? _)%nat; run; destruct (Nibble_from _); try done; cbn in Hpop |- *; congruence.
  - assert (last l = None) as -> by congruence. destruct (Nat.eqb_spec (num_nibbles (pack l) mod 2) 0) as [|Hodd]; [done|].
    apply last_None in Hb. cbn in Hb, Hodd. apply (f_equal length) in Hb. rewrite length_pack_bytes in Hb. cbn in Hb.
    destruct l; [done|]. cbn [length] in Hb. rewrite Nat.add_1_r half_S_S in Hb. lia.
Qed.

Lemma take_pack_even l k :
  (k <= length l)%nat → (k mod 2 = 0)%nat → take (k / 2) (pack_bytes l) = pack_bytes (take k l).
Proof.
  intros Hk Heven. rewrite -{1}(take_drop k l). assert (Hlen : length (take k l) = k) by (rewrite length_take; lia).
  rewrite pack_bytes_app ?Hlen //. rewrite -{1}Hlen -half_length ?Hlen // take_app_length //.
Qed.

(** Clearing the low half of the last byte takes a nibble away. *)
Lemma take_pack_odd l k :
  Forall is_nibble l → (k < length l)%nat → (k mod 2 = 0)%nat →
  ∃ b, take (S (k / 2)) (pack_bytes l) = pack_bytes (take k l) ++ [b] ∧ is_byte b ∧
    pack_bytes (take (S k) l) = pack_bytes (take k l) ++ [Z.land b 240] ∧ length (pack_bytes (take k l)) = (k / 2)%nat.
Proof.
  intros Hl Hk Heven. assert (Hlen : length (take k l) = k) by (rewrite length_take; lia).
  destruct (lookup_lt_is_Some_2 l k Hk) as [a Ha]. rewrite (take_S_r _ _ _ Ha) pack_bytes_app ?Hlen //. cbn [pack_bytes].
  assert (Hd : drop k l = a :: drop (S k) l) by (by rewrite (drop_S _ a)).
  assert (Ha' : is_nibble a) by (by eapply Forall_lookup_1 in Ha).
  assert (Hhalf : length (pack_bytes (take k l)) = (k / 2)%nat) by (by rewrite half_length Hlen).
  rewrite -{1}(take_drop k l) pack_bytes_app ?Hlen // Hd. rewrite take_app_ge ?Hhalf; [lia|]. replace (S (k / 2) - k / 2)%nat with 1%nat by lia.
  assert (Hrest : Forall is_nibble (drop (S k) l)) by (by apply Forall_drop).
  destruct (drop (S k) l) as [|b r]; cbn [pack_bytes take].
  - exists (16 * a). unfold is_nibble in *. refine (conj _ (conj _ (conj _ _))); [done|unfold is_byte; lia| |done].
    rewrite byte_clear; [unfold is_byte; lia|]. by rewrite (Z.mul_comm 16 a) Z.div_mul // Z.mul_comm.
  - apply Forall_cons in Hrest as [Hb _]. exists (16 * a + b). destruct (byte_nibbles a b) as [E1 _]; [done..|]. unfold is_nibble in *.
    refine (conj _ (conj _ (conj _ _))); [done|unfold is_byte; lia| |done]. rewrite byte_clear ?E1 //. unfold is_byte. lia.
Qed.

Lemma half_odd k : (k mod 2 = 0 → (S k + 1) / 2 = S (k / 2))%nat.
Proof. intros Hk. by rewrite Nat.add_1_r half_S_S. Qed.

Lemma half_even_up k : (k mod 2 = 0 → (k + 1) / 2 = k / 2)%nat.
Proof. intros Hk. by rewrite Nat.add_1_r half_S. Qed.

Lemma truncate_pack l k :
  Forall is_nibble l → (k <= length l)%nat → truncate (pack l) k = Ret (pack (take k l)).
Proof.
  intros Hl Hk. unfold truncate, pack. cbn [num_nibbles path_bytes]. rewrite (proj2 (Nat.leb_le _ _) Hk). run.
  assert (Hlen : length (take k l) = k) by (rewrite length_take; lia). rewrite Hlen.
  destruct (Nat.eqb_spec (k mod 2) 0) as [He|Ho].
  - by rewrite half_even_up // take_pack_even.
  - destruct k as [|k]; [done|]. rewrite parity_S in Ho. assert (Hk0 : (k mod 2 = 0)%nat) by lia.
    destruct (take_pack_odd l k) as (b & E & _ & E' & _); [done|lia|done|]. rewrite half_odd // E last_snoc. cbn [expect]. run.
    unfold set_last. by rewrite length_app Nat.add_sub take_app_length E'.
Qed.

Lemma new_from_byte_array_pack b k :
  Forall is_byte b → (k <= ROOT_NIBBLE_HEIGHT)%nat → (k <= length b * 2)%nat → new_from_byte_array b k = Ret (pack (take k (unpack b))).
Proof.
  intros Hb Hk Hlen. pose proof (unpack_nibbles b Hb) as Hu. pose proof (pack_unpack b Hb) as Hpack.
  unfold new_from_byte_array, pack. rewrite (proj2 (Nat.leb_le _ _) Hk). run. rewrite parity_1 length_take length_unpack Nat.min_l //.
  destruct (Nat.eqb_spec (k mod 2) 0) as [He|Ho]; cbn [negb].
  - assert (k / 2 <= length b)%nat by (apply Nat.Div0.div_le_upper_bound; lia).
    rewrite (proj2 (Nat.leb_le _ _)) //. run. unfold new_even. rewrite length_take Nat.min_l // (proj2 (Nat.leb_le _ _)); [by apply Nat.Div0.div_le_mono|].
    run. rewrite -{1}Hpack take_pack_even //; [by rewrite length_unpack|]. by rewrite -half_even.
  - destruct k as [|k]; [done|]. rewrite parity_S in Ho. assert (Hk0 : (k mod 2 = 0)%nat) by lia.
    destruct (take_pack_odd (unpack b) k) as (x & E & _ & E' & Hl'); [done|rewrite length_unpack; lia|done|]. rewrite Hpack in E. rewrite half_odd //.
    assert (Hlt : (k / 2 < length b)%nat) by (apply Nat.Div0.div_lt_upper_bound; lia).
    rewrite (proj2 (Nat.leb_le _ _)) //. run. rewrite Nat.sub_succ Nat.sub_0_r.
    assert (Hx : b !! (k / 2)%nat = Some x).
    { rewrite -(lookup_take_lt b (S (k / 2))); [lia|]. by rewrite E list_lookup_middle. }
    rewrite Hx. cbn [expect]. run. rewrite E insert_app_r_alt ?Hl' // Nat.sub_diag. cbn [insert list_insert].
    unfold new_odd. rewrite length_app /= Hl' (proj2 (Nat.leb_le _ _)).
    { unfold ROOT_NIBBLE_HEIGHT, LENGTH in *. change (32 * 2 / 2)%nat with 32%nat. pose proof (half_even k Hk0). lia. }
    run. rewrite last_snoc. cbn [expect]. run. rewrite -Z.land_assoc Z.land_0_r Z.eqb_refl. run. rewrite E'.
    do 2 f_equal. pose proof (half_even k Hk0). lia.
Qed.

(** ** Iterators *)

(** An iterator over the nibbles [start .. end_] of a path that has come to [pos]. *)
Definition iter_over (l : list Z) (start pos end_ : nat) : NibbleIterator := mkNibbleIterator (pack l) pos end_ start.

Section iterators.
Context (l : list Z) (Hl : Forall is_nibble l).

Lemma peek_over s p e : (e <= length l)%nat → peek (iter_over l s p e) = Ret (take e l !! p).
Proof.
  intros He. unfold peek, iter_over. cbn [iter_pos iter_end iter_path]. destruct (Nat.ltb_spec p e) as [Hp|Hp].
  - destruct (lookup_lt_is_Some_2 l p) as [x Hx]; [lia|]. rewrite (path_get_nibble_pack _ _ x) //. by rewrite lookup_take_lt // Hx.
  - by rewrite lookup_take_ge.
Qed.

Lemma next_over s p e :
  (e <= length l)%nat →
  next (iter_over l s p e) = Ret (match take e l !! p with
                                  | Some x => (iter_over l s (S p) e, Some x)
                                  | None => (iter_over l s p e, None)
                                  end).
Proof.
  intros He. unfold next, iter_over. cbn [iter_pos iter_end iter_path iter_start]. destruct (Nat.ltb_spec p e) as [Hp|Hp].
  - destruct (lookup_lt_is_Some_2 l p) as [x Hx]; [lia|]. rewrite (path_get_nibble_pack _ _ x) //. by rewrite lookup_take_lt // Hx.
  - by rewrite lookup_take_ge.
Qed.

Lemma iter_collect_over s p e :
  (p <= e)%nat → (e <= length l)%nat → iter_collect (iter_over l s p e) = Ret (drop p (take e l)).
Proof.
  intros Hp He. unfold iter_collect. cbn [iter_over iter_end iter_pos]. remember (e - p)%nat as n eqn:Hn. revert p Hp Hn.
  induction n as [|n IH]; intros p Hp Hn.
  - cbn [drain]. rewrite drop_ge //. rewrite length_take. lia.
  - cbn [drain]. destruct (lookup_lt_is_Some_2 (take e l) p) as [x Hx]; [rewrite length_take; lia|].
    rewrite next_over // Hx. run. rewrite IH; [lia..|]. run. by rewrite (drop_S _ x p).
Qed.

Lemma NibbleIterator_new_over s e :
  (length l <= ROOT_NIBBLE_HEIGHT)%nat → (s <= e)%nat → (e <= length l)%nat → NibbleIterator_new (pack l) s e = Ret (iter_over l s s e).
Proof.
  intros Hlen Hs He. unfold NibbleIterator_new. rewrite !(proj2 (Nat.leb_le _ _)); [lia..|]. by run.
Qed.

Lemma get_nibble_path_over s p e :
  (length l <= ROOT_NIBBLE_HEIGHT)%nat → (s <= p)%nat → (p <= e)%nat → (e <= length l)%nat →
  get_nibble_path (iter_over l s p e) = Ret (pack (drop s (take e l))).
Proof.
  intros Hlen Hs Hp He. unfold get_nibble_path, visited_nibbles, remaining_nibbles. cbn [iter_over iter_path iter_start iter_pos iter_end].
  rewrite !NibbleIterator_new_over //; [lia|]. run. rewrite !iter_collect_over //; [lia|]. run.
  replace (drop s (take p l) ++ drop p (take e l)) with (drop s (take e l)).
  - apply from_iter_pack; [by apply Forall_drop, Forall_take|]. rewrite length_drop length_take. lia.
  - rewrite -{1}(take_drop p (take e l)) take_take Nat.min_l // drop_app_le // length_take. lia.
Qed.
End iterators.

(** The longest common prefix. *)
Fixpoint common_prefix (x y : list Z) : nat :=
  match x, y with
  | a :: x, b :: y => if bool_decide (a = b) then S (common_prefix x y) else O
  | _, _ => O
  end.

Lemma common_prefix_le x y : (common_prefix x y <= length x)%nat ∧ (common_prefix x y <= length y)%nat.
Proof. revert y. induction x as [|a x IH]; intros [|b y]; simpl; [lia..|]. case_bool_decide; [|lia]. specialize (IH y). lia. Qed.

Lemma skip_loop_over l l' s s' e e' fuel p p' count :
  Forall is_nibble l → Forall is_nibble l' → (e <= length l)%nat → (e' <= length l')%nat → (e - p <= fuel)%nat →
  let n := common_prefix (drop p (take e l)) (drop p' (take e' l')) in
  skip_loop fuel count (iter_over l s p e) (iter_over l' s' p' e') =
    Ret (iter_over l s (p + n) e, iter_over l' s' (p' + n) e', (count + n)%nat).
Proof.
  intros Hl Hl' He He'. cbv zeta. revert p p' count.
  assert (Hend : ∀ p (m : list Z) n, m !! p = None → common_prefix (drop p m) n = 0%nat).
  { intros p m n Hp. rewrite drop_ge //. by apply lookup_ge_None. }
  induction fuel as [|fuel IH]; intros p p' count Hf; cbn [skip_loop].
  { rewrite Hend ?Nat.add_0_r //. apply lookup_take_ge. lia. }
  rewrite !peek_over //. run. destruct (take e l !! p) as [a|] eqn:Ha; [|by rewrite Hend ?Nat.add_0_r].
  destruct (take e' l' !! p') as [b|] eqn:Hb.
  - rewrite (drop_S _ a p) // (drop_S _ b p') //. cbn [common_prefix]. case_bool_decide as Heq.
    + rewrite !next_over // Ha Hb. run. rewrite IH; [lia|]. by rewrite !Nat.add_succ_comm.
    + by rewrite !Nat.add_0_r.
  - rewrite (drop_ge (take e' l')); [by apply lookup_ge_None|]. rewrite (_ : common_prefix _ [] = 0%nat); [by destruct (drop p _)|]. by rewrite !Nat.add_0_r.
Qed.

(** A nibble path is the list of nibbles it packs.  Below the height of the tree,
    pushing, popping, truncating, collecting and reading a path or an iterator are the
    operations on lists; a hash value is the path of its nibbles, cut off anywhere;
    distinct lists are distinct paths; and two iterators skip their longest common
    prefix. *)
Theorem nibble_paths_are_lists l n l' :
  Forall is_nibble l → (length l <= ROOT_NIBBLE_HEIGHT)%nat → is_nibble n → Forall is_nibble l' → (length l' <= ROOT_NIBBLE_HEIGHT)%nat →
  from_iter l = Ret (pack l) ∧
  (push (pack l) n = if decide (length l < ROOT_NIBBLE_HEIGHT)%nat then Ret (pack (l ++ [n])) else Panic) ∧
  pop (pack l) = Ret (pack (take (length l - 1) l), last l) ∧
  path_last (pack l) = Ret (last l) ∧
  (∀ i, path_get_nibble (pack l) i = expect (l !! i)) ∧
  (∀ i x, l !! (i / 4)%nat = Some x → path_get_bit (pack l) i = Ret (Z.testbit x (3 - Z.of_nat (i mod 4)))) ∧
  (∀ k, truncate (pack l) k = if decide (k <= length l)%nat then Ret (pack (take k l)) else Panic) ∧
  (pack l = pack l' ↔ l = l') ∧
  (∀ x y, nibbles (pack l) = Ret x → nibbles (pack l') = Ret y →
     iter_collect x = Ret l ∧ get_nibble_path x = Ret (pack l) ∧
     ∃ x' y', skip_common_prefix x y = Ret (x', y', common_prefix l l') ∧ iter_collect x' = Ret (drop (common_prefix l l') l)) ∧
  (∀ h k, hash_ok h → (k <= ROOT_NIBBLE_HEIGHT)%nat → new_from_byte_array h k = Ret (pack (take k (unpack h)))).
Proof.
  intros Hl Hlen Hn Hl' Hlen'. split_and!.
  - by apply from_iter_pack.
  - case_decide; [by apply push_pack|]. unfold push. cbn [pack num_nibbles]. by rewrite (proj2 (Nat.ltb_ge _ _)); [lia|].
  - by apply pop_pack.
  - by apply path_last_pack.
  - intros i. destruct (l !! i) as [x|] eqn:Hx; [by apply path_get_nibble_pack|]. apply lookup_ge_None in Hx.
    unfold path_get_nibble. cbn [pack num_nibbles]. by rewrite (proj2 (Nat.ltb_ge _ _)).
  - intros i x. by apply path_get_bit_pack.
  - intros k. case_decide; [by apply truncate_pack|]. unfold truncate. cbn [pack num_nibbles]. by rewrite (proj2 (Nat.leb_gt _ _)); [lia|].
  - split; [by apply pack_inj|by intros ->].
  - intros x y. unfold nibbles. cbn [pack num_nibbles]. fold (pack l) (pack l').
    rewrite !NibbleIterator_new_over //; [lia..|]. intros [= <-] [= <-].
    rewrite iter_collect_over //; [lia|]. rewrite get_nibble_path_over //; [lia|]. rewrite take_ge // drop_0. split_and!; [done..|].
    unfold skip_common_prefix. cbn [iter_over iter_end iter_pos]. fold (iter_over l 0 0 (length l)) (iter_over l' 0 0 (length l')).
    eexists _, _. rewrite skip_loop_over // !take_ge // !drop_0. split; [done|].
    rewrite iter_collect_over //; [apply common_prefix_le|]. by rewrite take_ge.
  - intros h k [Hlh Hb] Hk. apply new_from_byte_array_pack; [done..|]. rewrite Hlh. exact Hk.
Qed.
