(* ===== verification/SparseMerkle.v ===== *)
(** * Sparse Merkle trees and their proofs

    [smt] is the tree a state stands for: a binary tree over the 256 bits of the keys, in
    which a subtree without keys is a placeholder and a subtree with one key is that leaf.
    It is the reference the trees of [JellyfishMerkle.v] are compared with.  The proofs of
    [types/src/proof/definition.rs] about it follow: a proof that verifies against the root
    of a tree tells the truth about the key, as long as its hashes do not collide with those
    on the path of the key. *)
From stdpp Require Import strings.
From S2P Require Import Prelude NibblePath.
Local Open Scope Z_scope.
Local Open Scope rust_scope.
#[local] Arguments Nat.div : simpl never.
#[local] Arguments Nat.modulo : simpl never.

(** [SparseMerkleLeafNodeHasher] and [SparseMerkleInternalHasher]. *)
Class SparseMerkleHashers : Type := {
  hash_leaf : HashValue → HashValue → HashValue;
  hash_internal : HashValue → HashValue → HashValue;
}.

Definition string_bytes (word : string) : list Z := (λ c, Z.of_N (Ascii.N_of_ascii c)) <$> String.list_ascii_of_string word.

(** [create_literal_hash]: the word, padded with zeros. *)
Definition create_literal_hash (word : string) : comp HashValue :=
  let s := string_bytes word in
  rust_assert (length s <=? LENGTH)%nat;;
  expect (from_slice (s ++ replicate (LENGTH - length s) 0)).

Definition SPARSE_MERKLE_PLACEHOLDER_HASH : HashValue :=
  Eval cbv in match create_literal_hash "SPARSE_MERKLE_PLACEHOLDER_HASH" with Ret h => h | Panic => [] end.

Record SparseMerkleLeafNode : Type := mkLeafNode { sl_key : HashValue; sl_value_hash : HashValue }.

#[global] Instance SparseMerkleLeafNode_eq_dec : EqDecision SparseMerkleLeafNode.
Proof. solve_decision. Defined.

Inductive NodeInProof : Type :=
  | NodeInProof_Leaf (leaf : SparseMerkleLeafNode)
  | NodeInProof_Other (hash : HashValue).

Record SparseMerkleProof : Type := mkSparseMerkleProof { proof_leaf : option SparseMerkleLeafNode; proof_siblings : list HashValue }.
Record SparseMerkleProofExt : Type := mkSparseMerkleProofExt { ext_leaf : option SparseMerkleLeafNode; ext_siblings : list NodeInProof }.

Section proofs.
Context {SH : SparseMerkleHashers}.

(** [impl CryptoHash for SparseMerkleLeafNode]. *)
Definition SparseMerkleLeafNode_hash (self : SparseMerkleLeafNode) : HashValue := hash_leaf (sl_key self) (sl_value_hash self).

Definition NodeInProof_hash (self : NodeInProof) : HashValue :=
  match self with
  | NodeInProof_Leaf leaf => SparseMerkleLeafNode_hash leaf
  | NodeInProof_Other hash => hash
  end.

(** [From<SparseMerkleProofExt> for SparseMerkleProof]. *)
Definition proof_from_ext (proof_ext : SparseMerkleProofExt) : SparseMerkleProof :=
  mkSparseMerkleProof (ext_leaf proof_ext) (NodeInProof_hash <$> ext_siblings proof_ext).

(** What the leaf of a proof must be for the claim it is to prove. *)
Definition check_leaf (self : SparseMerkleProof) (element_key : HashValue) (element_hash : option HashValue) :
    comp (result unit unit) :=
  match element_hash, proof_leaf self with
  | Some hash, Some leaf =>
      Ret (if bool_decide (element_key = sl_key leaf) && bool_decide (hash = sl_value_hash leaf) then Ok tt else Err tt)
  | Some _, None => Ret (Err tt)
  | None, Some leaf =>
      if bool_decide (element_key = sl_key leaf) then Ret (Err tt) else
      n ← common_prefix_bits_len element_key (sl_key leaf);
      Ret (if (length (proof_siblings self) <=? n)%nat then Ok tt else Err tt)
  | None, None => Ret (Ok tt)
  end.

Definition verify_fold (hash : HashValue) (step : HashValue * bool) : HashValue :=
  let '(sibling_hash, bit) := step in
  if bit then hash_internal sibling_hash hash else hash_internal hash sibling_hash.

Definition verify_by_hash (self : SparseMerkleProof) (expected_root_hash element_key : HashValue)
    (element_hash : option HashValue) : comp (result unit unit) :=
  let siblings := proof_siblings self in
  if negb (length siblings <=? LENGTH_IN_BITS)%nat then Ret (Err tt) else
  let* _ := check_leaf self element_key element_hash in
  let current_hash := match proof_leaf self with
                      | Some leaf => SparseMerkleLeafNode_hash leaf
                      | None => SPARSE_MERKLE_PLACEHOLDER_HASH
                      end in
  key_bits ← iter_bits element_key;
  let actual_root_hash :=
    foldl verify_fold current_hash (zip siblings (drop (LENGTH_IN_BITS - length siblings) (reverse key_bits))) in
  Ret (if bool_decide (actual_root_hash = expected_root_hash) then Ok tt else Err tt).

(** [SparseMerkleProofExt::verify_by_hash]. *)
Definition ext_verify_by_hash (self : SparseMerkleProofExt) (expected_root_hash element_key : HashValue)
    (element_hash : option HashValue) : comp (result unit unit) :=
  verify_by_hash (proof_from_ext self) expected_root_hash element_key element_hash.
End proofs.

(** ** The reference tree *)

(** How many keys a subtree has. *)
Inductive shape (V : Type) : Type :=
  | Empty
  | One (k : HashValue) (v : V)
  | Many.
Arguments Empty {V}.
Arguments One {V} k v.
Arguments Many {V}.

Definition shape_of {V} (m : gmap HashValue V) : shape V :=
  match map_to_list m with
  | [] => Empty
  | [(k, v)] => One k v
  | _ => Many
  end.

Lemma shape_Empty {V} (m : gmap HashValue V) : shape_of m = Empty ↔ m = ∅.
Proof.
  unfold shape_of. rewrite -map_to_list_empty_iff. destruct (map_to_list m) as [|[? ?] [|? ?]]; naive_solver.
Qed.

Lemma shape_One {V} (m : gmap HashValue V) k v : shape_of m = One k v ↔ m = {[k := v]}.
Proof.
  unfold shape_of. split.
  - intros Hm. destruct (map_to_list m) as [|[k' v'] [|? ?]] eqn:E; try done. injection Hm as -> ->.
    rewrite -(list_to_map_to_list m) E. cbn. by rewrite insert_empty.
  - intros ->. by rewrite map_to_list_singleton.
Qed.

Lemma shape_Many {V} (m : gmap HashValue V) : shape_of m = Many ↔ (2 <= size m)%nat.
Proof.
  unfold shape_of. rewrite -length_map_to_list. destruct (map_to_list m) as [|[? ?] [|? ?]]; simpl; split; (done || lia).
Qed.

(** A subtree has no key, one, or two that differ. *)
Lemma shape_cases {V} (m : gmap HashValue V) : m = ∅ ∨ (∃ k v, m = {[k := v]}) ∨ (2 <= size m)%nat.
Proof.
  destruct (shape_of m) as [|k v|] eqn:E.
  - left. by apply shape_Empty.
  - right; left. exists k, v. by apply shape_One.
  - right; right. by apply shape_Many.
Qed.

Lemma size_two {V} (m : gmap HashValue V) k1 k2 :
  is_Some (m !! k1) → is_Some (m !! k2) → k1 ≠ k2 → (2 <= size m)%nat.
Proof.
  intros [v1 H1] [v2 H2] Hne. destruct (shape_cases m) as [->|[(k & v & ->)|?]]; [done| |done].
  apply lookup_singleton_Some in H1 as [<- _]. by apply lookup_singleton_Some in H2 as [<- _].
Qed.

Section tree.
Context {SH : SparseMerkleHashers} {V : Type} (value_hash : V → HashValue).
Implicit Types m : gmap HashValue V.

(** The keys whose [d]-th bit is [b]. *)
Definition side (d : nat) (b : bool) m : gmap HashValue V := filter (λ kv, key_bit kv.1 d = b) m.

(** The hash of a tree whose keys differ in their last [n] bits only. *)
Fixpoint smt (n : nat) m : HashValue :=
  match shape_of m with
  | Empty => SPARSE_MERKLE_PLACEHOLDER_HASH
  | One k v => hash_leaf k (value_hash v)
  | Many =>
      match n with
      | O => SPARSE_MERKLE_PLACEHOLDER_HASH
      | S n' => hash_internal (smt n' (side (LENGTH_IN_BITS - n) false m)) (smt n' (side (LENGTH_IN_BITS - n) true m))
      end
  end.

(** The root hash of a state. *)
Definition smt_root m : HashValue := smt LENGTH_IN_BITS m.

Lemma smt_empty n : smt n ∅ = SPARSE_MERKLE_PLACEHOLDER_HASH.
Proof. destruct n; cbn [smt]; by rewrite (proj2 (shape_Empty _)). Qed.

Lemma smt_singleton n k v : smt n {[k := v]} = hash_leaf k (value_hash v).
Proof. destruct n; cbn [smt]; by rewrite (proj2 (shape_One _ k v)). Qed.

Lemma smt_node n m :
  (2 <= size m)%nat →
  smt (S n) m = hash_internal (smt n (side (LENGTH_IN_BITS - S n) false m)) (smt n (side (LENGTH_IN_BITS - S n) true m)).
Proof. intros Hm. cbn [smt]. by rewrite (proj2 (shape_Many _)). Qed.

(** ** The path of a key *)

(** The keys that start with the first [i] bits of [k]. *)
Definition below (k : HashValue) (i : nat) m : gmap HashValue V := filter (λ kv, take i (bits k) = take i (bits kv.1)) m.

Definition sibling_of (k : HashValue) (i : nat) m : gmap HashValue V := side i (negb (key_bit k i)) (below k i m).

Lemma bits_lookup h i : (i < LENGTH_IN_BITS)%nat → bits h !! i = Some (key_bit h i).
Proof. intros Hi. unfold bits. by rewrite list_lookup_fmap lookup_seq_lt. Qed.

Lemma length_bits h : length (bits h) = LENGTH_IN_BITS.
Proof. unfold bits. by rewrite length_fmap length_seq. Qed.

Lemma take_bits_S k h i :
  (i < LENGTH_IN_BITS)%nat →
  take (S i) (bits k) = take (S i) (bits h) ↔ take i (bits k) = take i (bits h) ∧ key_bit k i = key_bit h i.
Proof.
  intros Hi. rewrite !(take_S_r _ _ _ (bits_lookup _ i Hi)). split.
  - by intros [-> [= ->]]%app_inj_tail.
  - by intros [-> ->].
Qed.

Lemma below_0 k m : below k 0 m = m.
Proof. apply map_filter_id. intros ? ? ?. by rewrite !take_0. Qed.

Lemma below_S k i m : (i < LENGTH_IN_BITS)%nat → below k (S i) m = side i (key_bit k i) (below k i m).
Proof.
  intros Hi. unfold below, side. rewrite map_filter_filter. apply map_filter_ext. intros h v _. cbn. rewrite take_bits_S //. naive_solver.
Qed.

Lemma below_lookup_self k i m : below k i m !! k = m !! k.
Proof.
  unfold below. destruct (m !! k) as [v|] eqn:E.
  - by apply map_lookup_filter_Some.
  - apply map_lookup_filter_None. by left.
Qed.

Lemma take_bits_spec i a b :
  (i <= LENGTH_IN_BITS)%nat → take i (bits a) = take i (bits b) ↔ ∀ j, (j < i)%nat → key_bit a j = key_bit b j.
Proof.
  intros Hi. split.
  - intros Heq j Hj. apply (f_equal (lookup j)) in Heq. rewrite !lookup_take_lt // !bits_lookup in Heq; [lia..|]. congruence.
  - intros Heq. apply list_eq. intros j. destruct (decide (j < i)%nat); [|by rewrite !lookup_take_ge; [lia..|]].
    rewrite !lookup_take_lt // !bits_lookup; [lia..|]. by rewrite Heq.
Qed.

(** At the bottom there is no key but [k] itself. *)
Lemma below_full k m :
  hash_ok k → map_Forall (λ h _, hash_ok h) m → (size (below k LENGTH_IN_BITS m) <= 1)%nat.
Proof.
  intros Hk Hm. destruct (shape_cases (below k LENGTH_IN_BITS m)) as [->|[(h & v & ->)|Hsize]]; [by rewrite map_size_empty; lia|by rewrite map_size_singleton|].
  assert (Hone : ∀ h v, below k LENGTH_IN_BITS m !! h = Some v → h = k).
  { intros h v [Hh Heq]%map_lookup_filter_Some. apply hash_bits_ext; [by apply (Hm h v)|done|]. by apply take_bits_spec. }
  exfalso. assert (below k LENGTH_IN_BITS m ⊆ match m !! k with Some v => {[k := v]} | None => ∅ end) as Hsub.
  { apply map_subseteq_spec. intros h v Hh. pose proof (Hone _ _ Hh) as ->. rewrite below_lookup_self in Hh. by rewrite Hh lookup_singleton_eq. }
  apply map_subseteq_size in Hsub. destruct (m !! k); rewrite ?map_size_singleton ?map_size_empty in Hsub; lia.
Qed.

(** One step down the path. *)
Lemma smt_step k i m :
  (i < LENGTH_IN_BITS)%nat → (2 <= size (below k i m))%nat →
  smt (LENGTH_IN_BITS - i) (below k i m) =
    verify_fold (smt (LENGTH_IN_BITS - S i) (below k (S i) m)) (smt (LENGTH_IN_BITS - S i) (sibling_of k i m), key_bit k i).
Proof.
  intros Hi Hsize. replace (LENGTH_IN_BITS - i)%nat with (S (LENGTH_IN_BITS - S i)) by lia. rewrite smt_node //.
  replace (LENGTH_IN_BITS - S (LENGTH_IN_BITS - S i))%nat with i by lia. rewrite below_S //. unfold sibling_of. by destruct (key_bit k i).
Qed.

(** ** Climbing from a node to the root *)

(** The root hash that the siblings, from level [i] down, and the hash below them give. *)
Fixpoint climb (k : HashValue) (i : nat) (siblings : list HashValue) (hash : HashValue) : HashValue :=
  match siblings with
  | [] => hash
  | s :: siblings => verify_fold (climb k (S i) siblings hash) (s, key_bit k i)
  end.

Lemma fold_climb k i siblings hash :
  (i + length siblings <= LENGTH_IN_BITS)%nat →
  foldl verify_fold hash (zip (reverse siblings) (reverse (take (length siblings) (drop i (bits k))))) = climb k i siblings hash.
Proof.
  revert i. induction siblings as [|s siblings IH]; intros i Hi; [done|]. cbn [length] in Hi |- *.
  rewrite (drop_S _ (key_bit k i)); [by apply bits_lookup; lia|]. cbn [take]. rewrite !reverse_cons zip_with_app.
  - rewrite !length_reverse length_take length_drop length_bits. lia.
  - rewrite foldl_app IH; [lia|done].
Qed.

Lemma drop_reverse {A} (l : list A) n : (n <= length l)%nat → drop (length l - n) (reverse l) = reverse (take n l).
Proof.
  intros Hn. rewrite -{2}(take_drop n l) reverse_app drop_app_length' //. rewrite length_reverse length_drop. lia.
Qed.

Lemma verify_climb k siblings hash :
  (length siblings <= LENGTH_IN_BITS)%nat →
  foldl verify_fold hash (zip siblings (drop (LENGTH_IN_BITS - length siblings) (reverse (bits k)))) = climb k 0 (reverse siblings) hash.
Proof.
  intros Hlen. rewrite -{1}(length_bits k) drop_reverse; [by rewrite length_bits|]. rewrite -(fold_climb k 0); [by rewrite length_reverse|].
  by rewrite reverse_involutive length_reverse drop_0.
Qed.

(** The siblings of a path, from level [i] on, lead up to the tree. *)
Lemma climb_smt k m n i :
  (i + n <= LENGTH_IN_BITS)%nat → (∀ j, (i ≤ j < i + n)%nat → (2 <= size (below k j m))%nat) →
  climb k i ((λ j, smt (LENGTH_IN_BITS - S j) (sibling_of k j m)) <$> seq i n) (smt (LENGTH_IN_BITS - (i + n)) (below k (i + n) m)) =
    smt (LENGTH_IN_BITS - i) (below k i m).
Proof.
  revert i. induction n as [|n IH]; intros i Hi Hsize; [by rewrite Nat.add_0_r|].
  cbn [seq fmap list_fmap climb]. rewrite -Nat.add_succ_comm IH; [lia|intros j Hj; apply Hsize; lia|].
  symmetry. apply smt_step; [lia|]. apply Hsize. lia.
Qed.

(** ** What is hashed *)

(** What the hash of a node is computed from; the placeholder is a constant. *)
Inductive HashInput : Type :=
  | PlaceholderIn
  | LeafIn (k v : HashValue)
  | InternalIn (l r : HashValue).

Definition hash_of (x : HashInput) : HashValue :=
  match x with
  | PlaceholderIn => SPARSE_MERKLE_PLACEHOLDER_HASH
  | LeafIn k v => hash_leaf k v
  | InternalIn l r => hash_internal l r
  end.

Definition smt_input (n : nat) m : HashInput :=
  match shape_of m with
  | Empty => PlaceholderIn
  | One k v => LeafIn k (value_hash v)
  | Many =>
      match n with
      | O => PlaceholderIn
      | S n' => InternalIn (smt n' (side (LENGTH_IN_BITS - n) false m)) (smt n' (side (LENGTH_IN_BITS - n) true m))
      end
  end.

Lemma smt_hash_of n m : smt n m = hash_of (smt_input n m).
Proof. unfold smt_input. destruct n; cbn [smt]; by destruct (shape_of m). Qed.

#[local] Opaque smt.

(** What is hashed on the path of a key in the tree, and in a proof. *)
Definition path_inputs (k : HashValue) m : list HashInput :=
  (λ i, smt_input (LENGTH_IN_BITS - i) (below k i m)) <$> seq 0 (S LENGTH_IN_BITS).

Definition fold_input (hash : HashValue) (step : HashValue * bool) : HashInput :=
  if step.2 then InternalIn step.1 hash else InternalIn hash step.1.

Fixpoint climb_inputs (k : HashValue) (i : nat) (siblings : list HashValue) (hash : HashValue) : list HashInput :=
  match siblings with
  | [] => []
  | s :: siblings => fold_input (climb k (S i) siblings hash) (s, key_bit k i) :: climb_inputs k (S i) siblings hash
  end.

Definition leaf_input (leaf : option SparseMerkleLeafNode) : HashInput :=
  match leaf with Some leaf => LeafIn (sl_key leaf) (sl_value_hash leaf) | None => PlaceholderIn end.

Definition proof_inputs (k : HashValue) (p : SparseMerkleProof) : list HashInput :=
  leaf_input (proof_leaf p) :: climb_inputs k 0 (reverse (proof_siblings p)) (hash_of (leaf_input (proof_leaf p))).

Definition no_collision (xs ys : list HashInput) : Prop :=
  ∀ x y, x ∈ xs → y ∈ ys → hash_of x = hash_of y → x = y.

Lemma path_input_in k m i : (i <= LENGTH_IN_BITS)%nat → smt_input (LENGTH_IN_BITS - i) (below k i m) ∈ path_inputs k m.
Proof. intros Hi. unfold path_inputs. apply list_elem_of_fmap. exists i. split; [done|]. apply elem_of_seq. lia. Qed.

(** Going down from the root, what is hashed in the proof is what is hashed in the tree. *)
Lemma climb_down k m i siblings hash xs :
  (i + length siblings <= LENGTH_IN_BITS)%nat → no_collision (path_inputs k m) xs → climb_inputs k i siblings hash ⊆ xs →
  climb k i siblings hash = smt (LENGTH_IN_BITS - i) (below k i m) →
  hash = smt (LENGTH_IN_BITS - (i + length siblings)) (below k (i + length siblings) m).
Proof.
  revert i. induction siblings as [|s siblings IH]; intros i Hi Hnc Hsub Hroot.
  { cbn in Hroot. by rewrite Nat.add_0_r. }
  cbn [length climb climb_inputs] in *. rewrite -Nat.add_succ_comm. apply IH; [lia|done|set_solver|].
  assert (Heq : fold_input (climb k (S i) siblings hash) (s, key_bit k i) = smt_input (LENGTH_IN_BITS - i) (below k i m)).
  { symmetry. apply Hnc; [apply path_input_in; lia|set_solver|]. rewrite -smt_hash_of -Hroot. unfold fold_input. cbn. by destruct (key_bit k i). }
  assert (Hsize : (2 <= size (below k i m))%nat).
  { apply shape_Many. unfold smt_input, fold_input in Heq. cbn in Heq. destruct (shape_of (below k i m)); [..|done]; by destruct (key_bit k i). }
  unfold smt_input in Heq. rewrite (proj2 (shape_Many _) Hsize) in Heq.
  replace (LENGTH_IN_BITS - i)%nat with (S (LENGTH_IN_BITS - S i)) in Heq by lia.
  replace (LENGTH_IN_BITS - S (LENGTH_IN_BITS - S i))%nat with i in Heq by lia.
  rewrite below_S; [lia|]. unfold fold_input in Heq. cbn [fst snd] in Heq. destruct (key_bit k i); congruence.
Qed.

Lemma smt_input_leaf n m leaf :
  smt_input n m = leaf_input leaf → (n = 0%nat → (size m <= 1)%nat) →
  match leaf with Some leaf => ∃ v, m = {[sl_key leaf := v]} ∧ sl_value_hash leaf = value_hash v | None => m = ∅ end.
Proof.
  unfold smt_input. intros Heq Hn. destruct (shape_of m) as [|k v|] eqn:E.
  - destruct leaf; [done|]. by apply shape_Empty.
  - destruct leaf as [[k' h]|]; [|done]. injection Heq as <- <-. exists v. split; [by apply shape_One|done].
  - apply shape_Many in E. destruct n; [specialize (Hn eq_refl); lia|]. by destruct leaf.
Qed.

Lemma check_leaf_Ok p k h :
  check_leaf p k h = Ret (Ok tt) →
  match h, proof_leaf p with
  | Some h, Some leaf => k = sl_key leaf ∧ h = sl_value_hash leaf
  | Some _, None => False
  | None, Some leaf => k ≠ sl_key leaf
  | None, None => True
  end.
Proof.
  unfold check_leaf. destruct h as [h|], (proof_leaf p) as [leaf|]; try done.
  - by case_bool_decide; case_bool_decide.
  - by case_bool_decide.
Qed.

(** C10: A proof that verifies against the root of a tree tells the truth about its key: the
    value it proves is the one of the state, and a key it proves absent is not there, if
    nothing that is hashed in the proof collides with what is hashed on the path of the
    key. *)
Theorem verified_is_true m k p h :
  hash_ok k → map_Forall (λ k _, hash_ok k) m → no_collision (path_inputs k m) (proof_inputs k p) →
  verify_by_hash p (smt_root m) k h = Ret (Ok tt) → h = value_hash <$> m !! k.
Proof.
  intros Hk Hm Hnc. unfold verify_by_hash. destruct (Nat.leb_spec (length (proof_siblings p)) LENGTH_IN_BITS) as [Hlen|]; [|done]. cbn [negb].
  destruct (check_leaf p k h) as [[[]|]|] eqn:Hleaf; try done. apply check_leaf_Ok in Hleaf. cbn [mbind comp_bind try].
  rewrite iter_bits_Ret //. cbn [mbind comp_bind]. case_bool_decide as Hroot; [|done]. intros _.
  rewrite verify_climb // in Hroot. set (n := length (proof_siblings p)) in *.
  pose proof (climb_down k m 0 (reverse (proof_siblings p)) (hash_of (leaf_input (proof_leaf p))) (proof_inputs k p)) as Hdown.
  rewrite length_reverse Nat.add_0_l below_0 in Hdown. fold n in Hdown.
  specialize (Hdown Hlen Hnc ltac:(intros x Hx; apply elem_of_cons; by right)).
  rewrite Nat.sub_0_r in Hdown. assert (Hb : smt_input (LENGTH_IN_BITS - n) (below k n m) = leaf_input (proof_leaf p)).
  { apply Hnc; [by apply path_input_in|apply elem_of_cons; by left|]. rewrite -smt_hash_of -Hdown; [|done]. unfold smt_root in Hroot. rewrite -Hroot. by destruct (proof_leaf p). }
  apply smt_input_leaf in Hb.
  - rewrite -(below_lookup_self k n). destruct h as [h|], (proof_leaf p) as [leaf|]; try done.
    + destruct Hb as (v & -> & Hv), Hleaf as [-> ->]. by rewrite lookup_singleton_eq Hv.
    + destruct Hb as (v & -> & _). by rewrite lookup_singleton_ne.
    + by rewrite Hb.
  - intros Hn. replace n with LENGTH_IN_BITS by lia. by apply below_full.
Qed.

(** ** Proofs of a key *)

(** What a proof says of a subtree. *)
Definition in_proof (n : nat) (s : gmap HashValue V) (p : NodeInProof) : Prop :=
  match shape_of s with
  | Empty => p = NodeInProof_Other SPARSE_MERKLE_PLACEHOLDER_HASH
  | One k v => p = NodeInProof_Leaf (mkLeafNode k (value_hash v))
  | Many => p = NodeInProof_Other (smt n s)
  end.

Lemma in_proof_hash n s p : in_proof n s p → NodeInProof_hash p = smt n s.
Proof.
  unfold in_proof. destruct (shape_of s) as [|k v|] eqn:E; intros ->; [|apply shape_One in E as ->; by rewrite smt_singleton|done].
  apply shape_Empty in E as ->. by rewrite smt_empty.
Qed.

(** A complete proof for a key: the siblings on its path down to where it is alone. *)
Definition proof_for (k : HashValue) m (proof : SparseMerkleProofExt) : Prop :=
  let n := length (ext_siblings proof) in
  (n <= LENGTH_IN_BITS)%nat ∧
  Forall2 (λ i x, in_proof (LENGTH_IN_BITS - S i) (sibling_of k i m) x) (seq 0 n) (reverse (ext_siblings proof)) ∧
  (∀ i, (i < n)%nat → (2 <= size (below k i m))%nat) ∧
  match shape_of (below k n m) with
  | Empty => ext_leaf proof = None
  | One h v => ext_leaf proof = Some (mkLeafNode h (value_hash v))
  | Many => False
  end.

Lemma count_equal_take x y n : (n <= length x)%nat → take n x = take n y → (n <= length y)%nat → (n <= count_equal x y)%nat.
Proof.
  revert x y. induction n as [|n IH]; intros x y Hx Heq Hy; [lia|].
  destruct x as [|a x]; [simpl in Hx; lia|]. destruct y as [|b y]; [simpl in Hy; lia|]. injection Heq as -> Heq. cbn [count_equal length] in *.
  rewrite bool_decide_eq_true_2 //. specialize (IH x y ltac:(lia) Heq ltac:(lia)). lia.
Qed.

(** Such a proof verifies. *)
Lemma proof_for_verifies k m proof :
  hash_ok k → map_Forall (λ h _, hash_ok h) m → proof_for k m proof →
  ext_verify_by_hash proof (smt_root m) k (value_hash <$> m !! k) = Ret (Ok tt).
Proof.
  intros Hk Hm (Hn & Hsib & Hsize & Hleaf). set (n := length (ext_siblings proof)) in *.
  unfold ext_verify_by_hash, verify_by_hash, proof_from_ext. cbn [proof_siblings proof_leaf]. rewrite length_fmap. fold n.
  rewrite (proj2 (Nat.leb_le _ _) Hn). cbn [negb].
  assert (Hcheck : check_leaf (mkSparseMerkleProof (ext_leaf proof) (NodeInProof_hash <$> ext_siblings proof)) k (value_hash <$> m !! k) = Ret (Ok tt)).
  { rewrite -(below_lookup_self k n). unfold check_leaf. cbn [proof_leaf proof_siblings]. rewrite length_fmap. fold n. destruct (shape_of (below k n m)) as [|h v|] eqn:E; [..|done]; rewrite Hleaf.
    - apply shape_Empty in E. by rewrite E.
    - apply shape_One in E. rewrite E. destruct (decide (h = k)) as [->|Hne].
      + rewrite lookup_singleton_eq. cbn. by rewrite !bool_decide_eq_true_2.
      + rewrite lookup_singleton_ne //. cbn. rewrite bool_decide_eq_false_2; [congruence|].
        assert (below k n m !! h = Some v) as [Hh Heq]%map_lookup_filter_Some by (by rewrite E lookup_singleton_eq). cbn in Heq.
        unfold common_prefix_bits_len. rewrite !iter_bits_Ret //; [by apply (Hm h v)|]. run. rewrite (proj2 (Nat.leb_le _ _)) //.
        apply count_equal_take; rewrite ?length_bits //. }
  rewrite Hcheck. run. cbn [try]. rewrite iter_bits_Ret //. run.
  pose proof (λ h, verify_climb k (NodeInProof_hash <$> ext_siblings proof) h) as Hvc. rewrite length_fmap in Hvc. fold n in Hvc. rewrite Hvc //.
  rewrite bool_decide_eq_true_2 //. unfold smt_root. pose proof (climb_smt k m n 0) as Hclimb. rewrite Nat.add_0_l Nat.sub_0_r below_0 in Hclimb.
  rewrite -Hclimb //; [intros j Hj; apply Hsize; lia|]. f_equal.
  - rewrite -fmap_reverse. clear -Hsib. induction Hsib as [|i x li xs Hx _ IH]; [done|]. cbn. rewrite IH. f_equal. by apply in_proof_hash.
  - destruct (shape_of (below k n m)) as [|h v|] eqn:E; [..|done]; rewrite Hleaf; unfold SparseMerkleLeafNode_hash; cbn.
    + apply shape_Empty in E as ->. by rewrite smt_empty.
    + apply shape_One in E as ->. by rewrite smt_singleton.
Qed.
End tree.

#[global] Opaque smt.
