(* ===== verification/JmtNode.v ===== *)
(** * Nodes of the Jellyfish Merkle tree

    Models [storage/jellyfish-merkle/src/node_type/mod.rs]: node keys, internal nodes with
    up to sixteen children, leaves, their hashes, the siblings a proof takes from an
    internal node, and the bytes nodes and their keys are stored as.  A [HashMap] of
    children is a [gmap] over nibbles. *)
From S2P Require Import Prelude U64 NibblePath SparseMerkle.
Local Open Scope Z_scope.
Local Open Scope rust_scope.

Abbreviation Version := Z (only parsing).

(** ** Node keys *)

Record NodeKey : Type := mkNodeKey { nk_version : Version; nibble_path : NibblePath }.

#[global] Instance NodeKey_eq_dec : EqDecision NodeKey.
Proof. solve_decision. Defined.
#[global] Instance NodeKey_countable : Countable NodeKey.
Proof.
  apply (inj_countable' (λ k, (nk_version k, nibble_path k)) (λ '(v, p), mkNodeKey v p)). by intros [v p].
Defined.

Definition new_empty_path (version : Version) : comp NodeKey := p ← new_even []; Ret (mkNodeKey version p).

Definition gen_child_node_key (self : NodeKey) (version : Version) (n : Z) : comp NodeKey :=
  p ← push (nibble_path self) n; Ret (mkNodeKey version p).

Definition gen_parent_node_key (self : NodeKey) : comp NodeKey :=
  '(p, n) ← pop (nibble_path self);
  rust_assert (bool_decide (is_Some n));;
  Ret (mkNodeKey (nk_version self) p).

(** ** Children and nodes *)

Inductive NodeType : Type :=
  | NodeType_Leaf
  | NodeType_Null
  | NodeType_Internal (leaf_count : Z).

Record Child : Type := mkChild { child_hash : HashValue; child_version : Version; child_type : NodeType }.

#[global] Instance NodeType_eq_dec : EqDecision NodeType.
Proof. solve_decision. Defined.
#[global] Instance Child_eq_dec : EqDecision Child.
Proof. solve_decision. Defined.

Definition Child_is_leaf (self : Child) : bool :=
  match child_type self with NodeType_Leaf => true | _ => false end.

Definition Child_leaf_count (self : Child) : comp Z :=
  match child_type self with
  | NodeType_Leaf => Ret 1
  | NodeType_Internal leaf_count => Ret leaf_count
  | NodeType_Null => Panic
  end.

Definition Children : Type := gmap Z Child.

Record InternalNode : Type := mkInternalNode { children : Children; in_leaf_count : Z }.

(** The values of a map, in the order of its iterator. *)
Definition values {A} (m : gmap Z A) : list A := (map_to_list m).*2.

(** [Iterator::sum] on [usize]. *)
Definition usize_sum (l : list Z) : comp Z := foldl (λ acc x, a ← acc; u64_add a x) (Ret 0) l.

Definition InternalNode_new_impl (children : Children) : comp (result unit InternalNode) :=
  match values children with
  | [] => Ret (Err tt)
  | child :: rest =>
      if (length rest =? 0)%nat && Child_is_leaf child then Ret (Err tt) else
      counts ← mapM Child_leaf_count (child :: rest);
      leaf_count ← usize_sum counts;
      Ret (Ok (mkInternalNode children leaf_count))
  end.

Definition InternalNode_new (children : Children) : comp InternalNode :=
  r ← InternalNode_new_impl children; expect_ok r.

Definition InternalNode_node_type (self : InternalNode) : NodeType := NodeType_Internal (in_leaf_count self).

Definition child (self : InternalNode) (n : Z) : option Child := children self !! n.

Record LeafNode {K : Type} : Type := mkJmtLeaf { account_key : HashValue; leaf_value_hash : HashValue; value_index : K * Version }.
Arguments LeafNode K : clear implicits.
Arguments mkJmtLeaf {K} _ _ _.

Inductive Node (K : Type) : Type :=
  | Node_Internal (n : InternalNode)
  | Node_Leaf (n : LeafNode K)
  | Node_Null.
Arguments Node_Internal {K} n.
Arguments Node_Leaf {K} n.
Arguments Node_Null {K}.

Definition Node_is_leaf {K} (self : Node K) : bool := match self with Node_Leaf _ => true | _ => false end.

Definition node_type {K} (self : Node K) : NodeType :=
  match self with
  | Node_Leaf _ => NodeType_Leaf
  | Node_Internal n => InternalNode_node_type n
  | Node_Null => NodeType_Null
  end.

Definition leaf_count {K} (self : Node K) : Z :=
  match self with Node_Leaf _ => 1 | Node_Internal n => in_leaf_count n | Node_Null => 0 end.

(** ** Errors and reading nodes *)

Inductive NodeDecodeError : Type :=
  | EmptyInput
  | UnknownTag (unknown_tag : Z)
  | NoChildren
  | ExtraLeaves (existing leaves : Z).

(** The errors of the crate: [anyhow] errors are told apart where the code does. *)
Inductive jmt_error : Type :=
  | MissingRootError (version : Version)
  | MissingNode (node_key : NodeKey)
  | DecodeError (e : NodeDecodeError)
  | Anyhow.

(** [trait TreeReader]: [get_node_option]. *)
Definition TreeReader (K : Type) : Type := NodeKey → result jmt_error (option (Node K)).

Definition get_node {K} (reader : TreeReader K) (node_key : NodeKey) : result jmt_error (Node K) :=
  n ← reader node_key;
  match n with Some n => Ok n | None => Err (MissingNode node_key) end.

(** ** Bitmaps *)

(** The loop of [generate_bitmaps]. *)
Definition add_to_bitmaps (bitmaps : Z * Z) (entry : Z * Child) : Z * Z :=
  let '(existence_bitmap, leaf_bitmap) := bitmaps in
  let b := wrap 16 (Z.shiftl 1 entry.1) in
  (Z.lor existence_bitmap b, if Child_is_leaf entry.2 then Z.lor leaf_bitmap b else leaf_bitmap).

Definition generate_bitmaps (self : InternalNode) : comp (Z * Z) :=
  let '(existence_bitmap, leaf_bitmap) := foldl add_to_bitmaps (0, 0) (map_to_list (children self)) in
  rust_assert (Z.lor existence_bitmap leaf_bitmap =? existence_bitmap);;
  Ret (existence_bitmap, leaf_bitmap).

Definition range_bitmaps (start width : Z) (bitmaps : Z * Z) : comp (Z * Z) :=
  rust_assert ((start <? 16) && (count_ones width =? 1) && (start mod width =? 0));;
  rust_assert ((width <=? 16) && (start + width <=? 16));;
  let mask := wrap 16 (Z.shiftl (Z.shiftl 1 width - 1) start) in
  Ret (Z.land bitmaps.1 mask, Z.land bitmaps.2 mask).

Section hashing.
Context {SH : SparseMerkleHashers}.

(** Each call halves the width, and one child wide is the lowest level. *)
Fixpoint merkle_hash (fuel : nat) (self : InternalNode) (start width : Z) (bitmaps : Z * Z) : comp HashValue :=
  match fuel with
  | O => Panic
  | S fuel =>
      '(range_existence_bitmap, range_leaf_bitmap) ← range_bitmaps start width bitmaps;
      if range_existence_bitmap =? 0 then Ret SPARSE_MERKLE_PLACEHOLDER_HASH
      else if (width =? 1) || ((count_ones range_existence_bitmap =? 1) && negb (range_leaf_bitmap =? 0)) then
        only_child_index ← Nibble_from (trailing_zeros range_existence_bitmap);
        only_child ← expect (child self only_child_index);
        Ret (child_hash only_child)
      else
        left_child ← merkle_hash fuel self start (width / 2) (range_existence_bitmap, range_leaf_bitmap);
        right_child ← merkle_hash fuel self (start + width / 2) (width / 2) (range_existence_bitmap, range_leaf_bitmap);
        Ret (hash_internal left_child right_child)
  end.

(** [log2(16) + 1] calls deep. *)
Definition hash_fuel : nat := 5.

Definition InternalNode_hash (self : InternalNode) : comp HashValue :=
  bitmaps ← generate_bitmaps self;
  merkle_hash hash_fuel self 0 16 bitmaps.

Definition LeafNode_hash {K} (self : LeafNode K) : HashValue := hash_leaf (account_key self) (leaf_value_hash self).

Definition Node_hash {K} (self : Node K) : comp HashValue :=
  match self with
  | Node_Internal n => InternalNode_hash n
  | Node_Leaf n => Ret (LeafNode_hash n)
  | Node_Null => Ret SPARSE_MERKLE_PLACEHOLDER_HASH
  end.

(** [From<LeafNode> for SparseMerkleLeafNode]. *)
Definition leaf_in_proof {K} (leaf_node : LeafNode K) : SparseMerkleLeafNode :=
  mkLeafNode (account_key leaf_node) (leaf_value_hash leaf_node).

(** ** Siblings in proofs *)

Definition gen_node_in_proof {K} (self : InternalNode) (start width : Z) (bitmaps : Z * Z)
    (tree_reader : TreeReader K) (node_key : NodeKey) : comp (result jmt_error NodeInProof) :=
  '(range_existence_bitmap, range_leaf_bitmap) ← range_bitmaps start width bitmaps;
  if range_existence_bitmap =? 0 then Ret (Ok (NodeInProof_Other SPARSE_MERKLE_PLACEHOLDER_HASH))
  else if (width =? 1) || ((count_ones range_existence_bitmap =? 1) && negb (range_leaf_bitmap =? 0)) then
    only_child_index ← Nibble_from (trailing_zeros range_existence_bitmap);
    only_child ← expect (child self only_child_index);
    if Child_is_leaf only_child then
      only_child_node_key ← gen_child_node_key node_key (child_version only_child) only_child_index;
      let? n := get_node tree_reader only_child_node_key in
      match n with
      | Node_Leaf leaf_node => Ret (Ok (NodeInProof_Leaf (leaf_in_proof leaf_node)))
      | Node_Internal _ | Node_Null => Panic
      end
    else Ret (Ok (NodeInProof_Other (child_hash only_child)))
  else
    left_child ← merkle_hash hash_fuel self start (width / 2) (range_existence_bitmap, range_leaf_bitmap);
    right_child ← merkle_hash hash_fuel self (start + width / 2) (width / 2) (range_existence_bitmap, range_leaf_bitmap);
    Ret (Ok (NodeInProof_Other (hash_internal left_child right_child))).

Definition get_child_and_sibling_half_start (n height : Z) : Z * Z :=
  let child_half_start := Z.land (wrap 8 (Z.shiftl 255 height)) n in
  (child_half_start, Z.lxor child_half_start (Z.shiftl 1 height)).

(** The loop over the heights that are left, [h - 1] first; [unreachable!] after the last. *)
Fixpoint child_with_siblings_loop {K} (h : nat) (self : InternalNode) (node_key : NodeKey) (n : Z)
    (reader : option (TreeReader K)) (bitmaps : Z * Z) (siblings : list NodeInProof) :
    comp (result jmt_error (option NodeKey * list NodeInProof)) :=
  match h with
  | O => Panic
  | S h =>
      let width := Z.shiftl 1 (Z.of_nat h) in
      let '(child_half_start, sibling_half_start) := get_child_and_sibling_half_start n (Z.of_nat h) in
      let* sibling :=
        match reader with
        | Some reader => gen_node_in_proof self sibling_half_start width bitmaps reader node_key
        | None => hash ← merkle_hash hash_fuel self sibling_half_start width bitmaps; Ret (Ok (NodeInProof_Other hash))
        end in
      let siblings := siblings ++ [sibling] in
      '(range_existence_bitmap, range_leaf_bitmap) ← range_bitmaps child_half_start width bitmaps;
      if range_existence_bitmap =? 0 then Ret (Ok (None, siblings))
      else if (width =? 1) || ((count_ones range_existence_bitmap =? 1) && negb (range_leaf_bitmap =? 0)) then
        only_child_index ← Nibble_from (trailing_zeros range_existence_bitmap);
        only_child ← expect (child self only_child_index);
        key ← gen_child_node_key node_key (child_version only_child) only_child_index;
        Ret (Ok (Some key, siblings))
      else child_with_siblings_loop h self node_key n reader bitmaps siblings
  end.

Definition get_child_with_siblings {K} (self : InternalNode) (node_key : NodeKey) (n : Z) (reader : option (TreeReader K)) :
    comp (result jmt_error (option NodeKey * list NodeInProof)) :=
  bitmaps ← generate_bitmaps self;
  child_with_siblings_loop 4 self node_key n reader bitmaps [].
End hashing.

(** ** Bits of bitmaps *)

Lemma ones_pos m : 0 < m → 0 < count_ones m.
Proof.
  intros Hm. assert (0 ≤ m) as Hm' by lia. revert Hm. binary_induction m Hm'; [lia|..]; intros m Hm IH Hpos.
  - rewrite count_ones_double_succ //. pose proof (count_ones_nonneg m). lia.
  - rewrite count_ones_double. by apply IH.
Qed.

(** A word with one bit set. *)
Lemma one_bit m : 0 ≤ m → count_ones m = 1 ↔ ∃ t, 0 ≤ t ∧ m = 2 ^ t.
Proof.
  intros Hm. split.
  - binary_induction m Hm; [done|..]; intros m Hm IH.
    + rewrite count_ones_double_succ //. intros Hones. exists 0. destruct (decide (m = 0)) as [->|]; [done|]. pose proof (ones_pos m). lia.
    + rewrite count_ones_double. intros (t & Ht & ->)%IH. exists (t + 1). split; [lia|]. rewrite Z.pow_add_r; lia.
  - intros (t & Ht & ->). rewrite -(Z2Nat.id t) // -(Z.mul_1_l (2 ^ _)). by rewrite count_ones_shift.
Qed.

Lemma bits_zero b : (b =? 0) = true ↔ ∀ i, 0 ≤ i → Z.testbit b i = false.
Proof.
  rewrite Z.eqb_eq. split; [intros ->; intros; apply Z.bits_0|]. intros Hb. apply Z.bits_inj'. intros i Hi. by rewrite Hb // Z.bits_0.
Qed.

Lemma bits_single b t : 0 ≤ t → (∀ i, 0 ≤ i → Z.testbit b i = (i =? t)) → b = 2 ^ t.
Proof.
  intros Ht Hb. apply Z.bits_inj'. intros i Hi. rewrite Hb // Z.pow2_bits_eqb //. by rewrite Z.eqb_sym.
Qed.

Lemma trailing_zeros_pow2 t : 0 ≤ t < 64 → trailing_zeros (2 ^ t) = t.
Proof.
  intros Ht. apply trailing_zeros_unique; [lia|..].
  - intros i Hi. rewrite Z.pow2_bits_eqb; [lia|]. apply Z.eqb_neq. lia.
  - intros _. apply Z.pow2_bits_true. lia.
Qed.

Lemma shift_mask_bit start width i :
  0 ≤ start → 0 ≤ width → start + width ≤ 16 → 0 ≤ i →
  Z.testbit (wrap 16 (Z.shiftl (Z.shiftl 1 width - 1) start)) i = (start <=? i) && (i <? start + width).
Proof.
  intros Hs Hw Hsum Hi. unfold wrap. rewrite Z.shiftl_1_l.
  replace (2 ^ width - 1) with (Z.ones width) by (rewrite Z.ones_equiv; lia).
  destruct (decide (i < 16)).
  - rewrite Z.mod_pow2_bits_low //. rewrite Z.shiftl_spec //. destruct (Z.leb_spec start i).
    + destruct (Z.ltb_spec i (start + width)); [apply Z.ones_spec_low|apply Z.ones_spec_high]; lia.
    + rewrite Z.testbit_neg_r //. lia.
  - rewrite Z.mod_pow2_bits_high; [lia|]. symmetry. apply andb_false_iff. right. apply Z.ltb_ge. lia.
Qed.

(** Half of an aligned range of nibbles is told by one bit. *)
Lemma half_bit j q n :
  0 ≤ j → 2 ^ (j + 1) * q ≤ n < 2 ^ (j + 1) * q + 2 ^ (j + 1) → Z.testbit n j = (2 ^ (j + 1) * q + 2 ^ j <=? n).
Proof.
  intros Hj Hn. rewrite Z.pow_add_r in Hn |- *; [lia..|]. change (2 ^ 1) with 2 in *. set (P := 2 ^ j) in *.
  assert (HP : 0 < P) by (apply Z.pow_pos_nonneg; lia). destruct (Z.leb_spec (P * 2 * q + P) n).
  - apply Z.testbit_true; [done|]. fold P. replace n with ((2 * q + 1) * P + (n - P * 2 * q - P)) by lia.
    rewrite Z.div_add_l; [lia|]. rewrite (Z.div_small (n - _ - _)); [lia|]. by rewrite Z.add_0_r Z.add_comm (Z.mul_comm 2) Z.mod_add.
  - apply Z.testbit_false; [done|]. fold P. replace n with ((2 * q) * P + (n - P * 2 * q)) by lia.
    rewrite Z.div_add_l; [lia|]. rewrite (Z.div_small (n - _)); [lia|]. by rewrite Z.add_0_r (Z.mul_comm 2) Z.mod_mul.
Qed.

Definition leaf_at (cs : Children) (i : Z) : bool :=
  match cs !! i with Some c => Child_is_leaf c | None => false end.

(** Bitmaps that tell which children there are, and which are leaves, in a range. *)
Definition covers (cs : Children) (start width : Z) (bitmaps : Z * Z) : Prop :=
  0 ≤ bitmaps.1 ∧ 0 ≤ bitmaps.2 ∧
  ∀ i, start ≤ i < start + width →
    Z.testbit bitmaps.1 i = bool_decide (is_Some (cs !! i)) ∧ Z.testbit bitmaps.2 i = leaf_at cs i.

(** Children have nibbles as their indices. *)
Definition nibble_keys {A} (cs : gmap Z A) : Prop := map_Forall (λ i _, is_nibble i) cs.

Lemma add_to_bitmaps_bits l e lf i :
  Forall (λ x : Z * Child, is_nibble x.1) l → 0 ≤ i →
  let r := foldl add_to_bitmaps (e, lf) l in
  Z.testbit r.1 i = Z.testbit e i || bool_decide (i ∈ l.*1) ∧
  Z.testbit r.2 i = Z.testbit lf i || existsb (λ x, (x.1 =? i) && Child_is_leaf x.2) l.
Proof.
  intros Hl Hi. revert e lf. induction Hl as [|[n c] l Hn Hl IH]; intros e lf; cbv zeta.
  - cbn [foldl fmap list_fmap existsb fst snd]. rewrite bool_decide_eq_false_2; [set_solver|]. by rewrite !orb_false_r.
  - assert (Hbit : Z.testbit (wrap 16 (Z.shiftl 1 n)) i = (n =? i)).
    { unfold wrap. rewrite Z.shiftl_1_l Z.mod_small; [|by apply Z.pow2_bits_eqb; destruct Hn; cbn in *; lia].
      destruct Hn as [Hn0 Hn1]. cbn in *. split; [lia|]. apply Z.pow_lt_mono_r; lia. }
    cbn [foldl]. unfold add_to_bitmaps at 2 4. cbn [fst snd]. destruct (IH (Z.lor e (wrap 16 (Z.shiftl 1 n)))
      (if Child_is_leaf c then Z.lor lf (wrap 16 (Z.shiftl 1 n)) else lf)) as [-> ->]. split.
    + rewrite Z.lor_spec Hbit -orb_assoc. f_equal. cbn [fmap list_fmap fst]. rewrite (bool_decide_ext (i ∈ n :: l.*1) (n = i ∨ i ∈ l.*1)); [set_solver|].
      rewrite bool_decide_or. f_equal. destruct (Z.eqb_spec n i); [by rewrite bool_decide_eq_true_2|by rewrite bool_decide_eq_false_2].
    + cbn [existsb fst snd]. destruct (Child_is_leaf c); [rewrite Z.lor_spec Hbit -orb_assoc andb_true_r //|by rewrite andb_false_r].
Qed.

Lemma generate_bitmaps_ok self :
  nibble_keys (children self) → ∃ bitmaps, generate_bitmaps self = Ret bitmaps ∧ covers (children self) 0 16 bitmaps.
Proof.
  intros Hn. unfold generate_bitmaps. set (r := foldl add_to_bitmaps (0, 0) (map_to_list (children self))).
  assert (Hl : Forall (λ x : Z * Child, is_nibble x.1) (map_to_list (children self))).
  { apply Forall_forall. intros [i c] Hc%elem_of_map_to_list. by apply (Hn i c). }
  assert (Hbits : ∀ i, 0 ≤ i → Z.testbit r.1 i = bool_decide (is_Some (children self !! i)) ∧ Z.testbit r.2 i = leaf_at (children self) i).
  { intros i Hi. destruct (add_to_bitmaps_bits _ 0 0 i Hl Hi) as [E1 E2]. fold r in E1, E2. rewrite E1 E2 !Z.bits_0 !orb_false_l. split.
    - apply bool_decide_ext. rewrite list_elem_of_fmap. split.
      + intros ([j c] & -> & Hc%elem_of_map_to_list). by exists c.
      + intros [c Hc]. exists (i, c). by rewrite elem_of_map_to_list.
    - unfold leaf_at. apply eq_true_iff_eq. rewrite existsb_exists. split.
      + intros ([j c] & Hc%list_elem_of_In%elem_of_map_to_list & [Hj Hleaf]%andb_true_iff). cbn in *. apply Z.eqb_eq in Hj as ->. by rewrite Hc.
      + destruct (children self !! i) as [c|] eqn:Hc; [|done]. intros Hleaf. exists (i, c). rewrite -list_elem_of_In elem_of_map_to_list. cbn. by rewrite Z.eqb_refl. }
  destruct r as [e lf]. cbn [fst snd] in Hbits. exists (e, lf). rewrite (proj2 (Z.eqb_eq _ _)).
  { apply Z.bits_inj'. intros i Hi. rewrite Z.lor_spec. destruct (Hbits i Hi) as [-> ->]. unfold leaf_at. by destruct (children self !! i); [rewrite bool_decide_eq_true_2|]. }
  run. split; [done|]. assert (Hpos : ∀ b, (∀ i, 16 ≤ i → Z.testbit b i = false) → 0 ≤ b).
  { intros b Hb. apply Z.bits_iff_nonneg_ex. exists 16. intros i Hi. apply Hb. lia. }
  assert (Hnone : ∀ i, 16 ≤ i → children self !! i = None).
  { intros i Hi. destruct (children self !! i) eqn:Hc; [|done]. apply Hn in Hc. unfold is_nibble in Hc. lia. }
  split_and!; cbn [fst snd].
  - apply Hpos. intros i Hi. destruct (Hbits i ltac:(lia)) as [-> _]. by rewrite Hnone.
  - apply Hpos. intros i Hi. destruct (Hbits i ltac:(lia)) as [_ ->]. unfold leaf_at. by rewrite Hnone.
  - intros i Hi. apply Hbits. lia.
Qed.

(** ** Subtrees of an internal node *)

Section node_hash.
Context {SH : SparseMerkleHashers} {V : Type} (value_hash : V → HashValue).
Context (d : nat) (Hd : (d < ROOT_NIBBLE_HEIGHT)%nat).
Context (m : gmap HashValue V) (Hm : map_Forall (λ k _, hash_ok k) m).

(** The keys whose nibble at depth [d] is [i], and those that have it in a range. *)
Definition sub (i : Z) : gmap HashValue V := filter (λ kv, key_nibble kv.1 d = i) m.
Definition range (s w : Z) : gmap HashValue V := filter (λ kv, s ≤ key_nibble kv.1 d < s + w) m.

(** The number of bits that keys below an internal node at depth [d] differ in. *)
Definition bits_left (j : nat) : nat := LENGTH_IN_BITS - (4 * d + 4 - j).

(** The children of a node at depth [d] that stands for [m]. *)
Definition children_of (cs : Children) : Prop :=
  nibble_keys cs ∧
  ∀ i, is_nibble i →
    match cs !! i with
    | None => sub i = ∅
    | Some c => sub i ≠ ∅ ∧ child_hash c = smt value_hash (bits_left 0) (sub i) ∧ (Child_is_leaf c = true ↔ size (sub i) = 1%nat)
    end.

Lemma range_one s : range s 1 = sub s.
Proof. apply map_filter_ext. intros k v _. cbn. lia. Qed.

Lemma range_all : range 0 16 = m.
Proof. apply map_filter_id. intros k v Hk. cbn. pose proof (key_nibble_ok k d (Hm k v Hk)) as Hn. unfold is_nibble in Hn. lia. Qed.

Lemma range_lookup s w k v : range s w !! k = Some v ↔ m !! k = Some v ∧ s ≤ key_nibble k d < s + w.
Proof. apply map_lookup_filter_Some. Qed.

Lemma sub_lookup i k v : sub i !! k = Some v ↔ m !! k = Some v ∧ key_nibble k d = i.
Proof. apply map_lookup_filter_Some. Qed.

Lemma sub_range i s w : s ≤ i < s + w → sub i ⊆ range s w.
Proof.
  intros Hi. apply map_subseteq_spec. intros k v [Hk <-]%sub_lookup. by apply range_lookup.
Qed.

(** The two halves of a range are the two sides of a bit. *)
Lemma range_half j q b :
  (j < 4)%nat → 0 ≤ q →
  let w := 2 ^ Z.of_nat j in let s := 2 ^ (Z.of_nat j + 1) * q in
  side (LENGTH_IN_BITS - bits_left (S j)) b (range s (2 ^ (Z.of_nat j + 1))) = if b then range (s + w) w else range s w.
Proof.
  intros Hj Hq. cbv zeta. assert (Hdepth : (LENGTH_IN_BITS - bits_left (S j) = 4 * d + (3 - j))%nat).
  { unfold bits_left, LENGTH_IN_BITS, ROOT_NIBBLE_HEIGHT, LENGTH in *. lia. }
  rewrite Hdepth. unfold side, range.
  assert (HP : 2 ^ (Z.of_nat j + 1) = 2 * 2 ^ Z.of_nat j) by (rewrite Z.pow_add_r; lia).
  assert (0 < 2 ^ Z.of_nat j) by (apply Z.pow_pos_nonneg; lia).
  rewrite map_filter_filter. destruct b; apply map_filter_ext; intros k v Hk; cbn [fst].
  all: rewrite key_bit_nibble; [lia|]; replace (3 - Z.of_nat (3 - j)) with (Z.of_nat j) by lia; split.
  all: intros Hr; try (destruct Hr as [Hr Hr']); try (rewrite (half_bit (Z.of_nat j) q) in Hr; [lia..|]).
  all: first [apply Z.leb_le in Hr; lia | apply Z.leb_gt in Hr; lia | idtac].
  all: split; [|lia]; rewrite (half_bit (Z.of_nat j) q); [lia..|]; first [apply Z.leb_le; lia|apply Z.leb_gt; lia].
Qed.

Context (cs : Children) (Hcs : children_of cs).

Lemma child_None i : is_nibble i → cs !! i = None → sub i = ∅.
Proof. intros Hi Hc. destruct Hcs as [_ H]. specialize (H i Hi). by rewrite Hc in H. Qed.

Lemma child_Some i c :
  cs !! i = Some c →
  is_nibble i ∧ sub i ≠ ∅ ∧ child_hash c = smt value_hash (bits_left 0) (sub i) ∧ (Child_is_leaf c = true ↔ size (sub i) = 1%nat).
Proof.
  intros Hc. destruct Hcs as [Hn H]. pose proof (Hn i c Hc) as Hi. specialize (H i Hi). by rewrite Hc in H.
Qed.

Lemma child_many i c : cs !! i = Some c → Child_is_leaf c = false → (2 <= size (sub i))%nat.
Proof.
  intros Hc El. destruct (child_Some i c Hc) as (_ & Hne & _ & Hleaf).
  destruct (shape_cases (sub i)) as [?|[(h & v & E)|Hmany]]; [done| |done].
  rewrite E map_size_singleton El in Hleaf. by destruct Hleaf as [_ Hleaf]; specialize (Hleaf eq_refl).
Qed.

(** The bitmaps of a range with nothing outside of it. *)
Definition exactly (s w : Z) (bitmaps : Z * Z) : Prop :=
  covers cs s w bitmaps ∧ ∀ i, 0 ≤ i → ¬ (s ≤ i < s + w) → Z.testbit bitmaps.1 i = false ∧ Z.testbit bitmaps.2 i = false.

Lemma exactly_bit s w b i :
  0 ≤ s → exactly s w b → 0 ≤ i → Z.testbit b.1 i = true ↔ s ≤ i < s + w ∧ is_Some (cs !! i).
Proof.
  intros Hs [(_ & _ & Hin) Hout] Hi. destruct (decide (s ≤ i < s + w)) as [Hr|Hr].
  - destruct (Hin i Hr) as [-> _]. rewrite bool_decide_eq_true. naive_solver.
  - destruct (Hout i Hi Hr) as [-> _]. naive_solver.
Qed.

Lemma range_bitmaps_ok (j : nat) s b :
  (j <= 4)%nat → 0 ≤ s → s + 2 ^ Z.of_nat j ≤ 16 → s mod 2 ^ Z.of_nat j = 0 → covers cs s (2 ^ Z.of_nat j) b →
  ∃ b', range_bitmaps s (2 ^ Z.of_nat j) b = Ret b' ∧ exactly s (2 ^ Z.of_nat j) b'.
Proof.
  intros Hj Hs Hsum Hmod (H1 & H2 & Hcov). assert (Hw : 0 < 2 ^ Z.of_nat j) by (apply Z.pow_pos_nonneg; lia).
  set (w := 2 ^ Z.of_nat j) in *. unfold range_bitmaps. rewrite (proj2 (Z.ltb_lt _ _)); [lia|].
  rewrite (proj2 (Z.eqb_eq (count_ones w) 1)); [apply one_bit; [lia|]; exists (Z.of_nat j); split; [lia|done]|].
  rewrite (proj2 (Z.eqb_eq _ _) Hmod). cbn [andb]. run.
  rewrite !(proj2 (Z.leb_le _ _)); [lia..|]. cbn [andb]. run. eexists. split; [done|].
  assert (Hbit : ∀ x i, 0 ≤ i → Z.testbit (Z.land x (wrap 16 (Z.shiftl (Z.shiftl 1 w - 1) s))) i = Z.testbit x i && ((s <=? i) && (i <? s + w))).
  { intros x i Hi. rewrite Z.land_spec shift_mask_bit //; lia. }
  split; [split_and!; cbn [fst snd]|].
  - apply Z.land_nonneg. by left.
  - apply Z.land_nonneg. by left.
  - intros i Hi. rewrite !Hbit; [lia..|]. rewrite (proj2 (Z.leb_le _ _)) ?(proj2 (Z.ltb_lt _ _)); [lia..|]. rewrite !andb_true_r. by apply Hcov.
  - intros i Hi Hout. cbn [fst snd]. rewrite !Hbit //. destruct (Z.leb_spec s i), (Z.ltb_spec i (s + w)); try lia; by rewrite !andb_false_r.
Qed.

(** A range whose only child is [t]. *)
Lemma range_is_sub s w t :
  s ≤ t < s + w → (∀ i, s ≤ i < s + w → is_Some (cs !! i) → i = t) → range s w = sub t.
Proof.
  intros Ht Honly. apply map_filter_ext. intros k v Hk. cbn. split; [|intros ->; done]. intros Hr.
  apply Honly; [done|]. destruct (cs !! key_nibble k d) as [c|] eqn:Hc; [done|]. exfalso.
  apply child_None in Hc; [|by apply key_nibble_ok, (Hm k v)]. assert (sub (key_nibble k d) !! k = Some v) as Hsub by (by apply sub_lookup).
  by rewrite Hc in Hsub.
Qed.

Lemma sub_key i : is_Some (cs !! i) → ∃ k, is_Some (sub i !! k).
Proof. intros [c Hc]. destruct (child_Some i c Hc) as (_ & Hne & _). apply map_choose in Hne as (k & v & Hk). by exists k, v. Qed.

(** Two children have two keys below them. *)
Lemma range_two s w i j :
  s ≤ i < s + w → s ≤ j < s + w → is_Some (cs !! i) → is_Some (cs !! j) → i ≠ j → (2 <= size (range s w))%nat.
Proof.
  intros Hi Hj Hci Hcj Hne. destruct (sub_key i Hci) as (k & v & Hk), (sub_key j Hcj) as (k' & v' & Hk').
  apply size_two with k k'.
  - exists v. eapply lookup_weaken; [done|by apply sub_range].
  - exists v'. eapply lookup_weaken; [done|by apply sub_range].
  - intros <-. apply sub_lookup in Hk as [_ <-], Hk' as [_ <-]. done.
Qed.

Lemma exactly_some s w b :
  0 ≤ s → s + w ≤ 16 → exactly s w b → (b.1 =? 0) = false → ∃ t, s ≤ t < s + w ∧ is_Some (cs !! t).
Proof.
  intros Hs Hsum Hex E0. destruct (decide (Exists (λ i, Z.testbit b.1 (Z.of_nat i) = true) (seq 0 16))) as [Hx|Hx].
  - apply Exists_exists in Hx as (i & _ & Hi). exists (Z.of_nat i). apply (exactly_bit s w b); [done..|lia|done].
  - exfalso. apply not_true_iff_false in E0. apply E0, bits_zero. intros i Hi. apply not_true_iff_false. intros Hb.
    pose proof (proj1 (exactly_bit s w b i Hs Hex Hi) Hb) as [Hr _]. apply Hx, Exists_exists. exists (Z.to_nat i).
    rewrite elem_of_seq Z2Nat.id //. split; [lia|done].
Qed.

(** One child, or two. *)
Lemma exactly_cases s w b t :
  0 ≤ s → s + w ≤ 16 → exactly s w b → s ≤ t < s + w → is_Some (cs !! t) →
  (b.1 = 2 ^ t ∧ ∀ i, s ≤ i < s + w → is_Some (cs !! i) → i = t) ∨
  ∃ t', s ≤ t' < s + w ∧ is_Some (cs !! t') ∧ t' ≠ t ∧ count_ones b.1 ≠ 1.
Proof.
  intros Hs Hsum Hex Ht Hc. pose proof (exactly_bit s w b) as Hbit. specialize (λ i, Hbit i Hs Hex).
  destruct (decide (Exists (λ i, Z.testbit b.1 (Z.of_nat i) = true ∧ Z.of_nat i ≠ t) (seq 0 16))) as [Hx|Hx].
  - right. apply Exists_exists in Hx as (i & _ & Hi & Hne). exists (Z.of_nat i). pose proof (proj1 (Hbit (Z.of_nat i) ltac:(lia)) Hi) as [? ?].
    split_and!; [lia|lia|done|done|]. intros (x & Hx & Heq)%one_bit; [|apply Hex].
    assert (Z.testbit b.1 t = true) as Ht' by (apply Hbit; [lia|done]). rewrite Heq in Hi, Ht'. rewrite !Z.pow2_bits_eqb // in Hi, Ht'.
    apply Z.eqb_eq in Hi, Ht'. lia.
  - left. assert (Honly : ∀ i, 0 ≤ i → Z.testbit b.1 i = true → i = t).
    { intros i Hi Hb. destruct (decide (i = t)); [done|]. exfalso. apply Hx, Exists_exists. exists (Z.to_nat i).
      pose proof (proj1 (Hbit i Hi) Hb) as [? _]. rewrite elem_of_seq Z2Nat.id //. split; [lia|done]. }
    split.
    + apply bits_single; [lia|]. intros i Hi. apply eq_true_iff_eq. rewrite Z.eqb_eq. split; [by apply Honly|]. intros ->. by apply Hbit.
    + intros i Hi Hci. apply Honly; [lia|]. apply Hbit; [lia|done].
Qed.

(** What a range stands for: nothing, one child that the range can be replaced by, or a
    node with two keys below it. *)
Lemma range_cases (j : nat) s b :
  0 ≤ s → s + 2 ^ Z.of_nat j ≤ 16 → exactly s (2 ^ Z.of_nat j) b →
  let w := 2 ^ Z.of_nat j in
  if b.1 =? 0 then range s w = ∅
  else if (w =? 1) || ((count_ones b.1 =? 1) && negb (b.2 =? 0)) then
    ∃ c, let t := trailing_zeros b.1 in
      is_nibble t ∧ cs !! t = Some c ∧ s ≤ t < s + w ∧ range s w = sub t ∧ (j = 0%nat ∨ Child_is_leaf c = true)
  else (0 < j)%nat ∧ (2 <= size (range s w))%nat.
Proof.
  intros Hs Hsum Hex. cbv zeta. set (w := 2 ^ Z.of_nat j) in *. assert (Hj : j = 0%nat ∨ w ≠ 1 ∧ (0 < j)%nat).
  { destruct j; [by left|right]. split; [|lia]. unfold w. rewrite Nat2Z.inj_succ Z.pow_succ_r; lia. }
  destruct (b.1 =? 0) eqn:E0.
  { apply map_empty. intros k. destruct (range s w !! k) as [v|] eqn:Hk; [|done]. apply range_lookup in Hk as [Hk Hr]. exfalso.
    assert (Hi : is_nibble (key_nibble k d)) by (by apply key_nibble_ok, (Hm k v)).
    assert (sub (key_nibble k d) !! k = Some v) as Hsub by (by apply sub_lookup).
    destruct (cs !! key_nibble k d) as [c|] eqn:Hc; [|by rewrite (child_None _ Hi Hc) in Hsub].
    assert (Z.testbit b.1 (key_nibble k d) = true) as Ht by (apply (exactly_bit s w b); [done|done|apply Hi|naive_solver]).
    rewrite (proj1 (bits_zero _) E0) in Ht; [apply Hi|done]. }
  destruct (exactly_some s w b) as (t & Htr & [c Hc]); [done..|]. destruct (child_Some t c Hc) as (Htn & Hne & _ & Hleaf).
  destruct (exactly_cases s w b t) as [[Hb Honly]|(t' & Htr' & Hc' & Hne' & Hones)]; [done..| |].
  - rewrite Hb trailing_zeros_pow2; [destruct Htn; lia|]. rewrite (proj2 (Z.eqb_eq (count_ones (2 ^ t)) 1)); [apply one_bit; [lia|]; exists t; split; [lia|done]|].
    rewrite (range_is_sub s w t) //. destruct (Z.eqb_spec w 1) as [->|Hw]; cbn [orb andb].
    { exists c. split_and!; [done|done|lia|lia|done|]. left. destruct Hj; [done|lia]. }
    destruct (b.2 =? 0) eqn:E2; cbn [negb].
    + split; [destruct Hj as [->|]; [done|lia]|]. destruct Hex as [(_ & _ & Hin) _]. destruct (Hin t Htr) as [_ Hl].
      rewrite (proj1 (bits_zero _) E2) in Hl; [lia|]. unfold leaf_at in Hl. rewrite Hc in Hl. by apply (child_many t c).
    + exists c. split_and!; [done|done|lia|lia|done|]. right. destruct (Child_is_leaf c) eqn:El; [done|]. exfalso.
      apply not_true_iff_false in E2. apply E2, bits_zero. intros i Hi. destruct Hex as [(_ & _ & Hin) Hout]. destruct (decide (s ≤ i < s + w)) as [Hr|Hr].
      * destruct (Hin i Hr) as [_ ->]. unfold leaf_at. destruct (cs !! i) as [ci|] eqn:Hci; [|done]. assert (i = t) as -> by (apply Honly; done). naive_solver.
      * by apply Hout.
  - assert (Hw : (w =? 1) = false) by (apply Z.eqb_neq; lia). rewrite Hw (proj2 (Z.eqb_neq _ _) Hones). cbn [orb andb].
    split; [apply Z.eqb_neq in Hw; destruct Hj as [->|]; [done|lia]|]. by apply (range_two s w t t').
Qed.

(** ** Hashes *)

Lemma bits_left_S j : (j < 4)%nat → bits_left (S j) = S (bits_left j).
Proof. unfold bits_left, LENGTH_IN_BITS, ROOT_NIBBLE_HEIGHT, LENGTH in *. lia. Qed.

Lemma smt_range_half j q :
  (j < 4)%nat → 0 ≤ q → (2 <= size (range (2 ^ Z.of_nat (S j) * q) (2 ^ Z.of_nat (S j))))%nat →
  let w := 2 ^ Z.of_nat j in let s := 2 ^ Z.of_nat (S j) * q in
  smt value_hash (bits_left (S j)) (range s (2 ^ Z.of_nat (S j))) =
    hash_internal (smt value_hash (bits_left j) (range s w)) (smt value_hash (bits_left j) (range (s + w) w)).
Proof.
  intros Hj Hq Hsize. cbv zeta. rewrite Nat2Z.inj_succ -Z.add_1_r in Hsize |- *. pose proof (range_half j q) as Hhalf. cbv zeta in Hhalf.
  rewrite (bits_left_S j) // in Hhalf |- *. rewrite smt_node // !Hhalf //.
Qed.

Lemma child_hash_smt t c n j :
  cs !! t = Some c → n = sub t → j = 0%nat ∨ Child_is_leaf c = true → child_hash c = smt value_hash (bits_left j) n.
Proof.
  intros Hc -> Hj. destruct (child_Some t c Hc) as (_ & Hne & Hh & Hleaf). destruct Hj as [->|Hl]; [done|].
  destruct (shape_cases (sub t)) as [?|[(k & v & E)|?]]; [done| |by apply Hleaf in Hl; lia].
  by rewrite Hh E !smt_singleton.
Qed.

Lemma aligned_half j q : 0 ≤ q → 2 ^ Z.of_nat (S j) * q + 2 ^ Z.of_nat j = 2 ^ Z.of_nat j * (2 * q + 1) ∧ 2 ^ Z.of_nat (S j) * q = 2 ^ Z.of_nat j * (2 * q) ∧ 2 ^ Z.of_nat (S j) / 2 = 2 ^ Z.of_nat j ∧ 2 ^ Z.of_nat (S j) = 2 * 2 ^ Z.of_nat j.
Proof.
  intros Hq. rewrite Nat2Z.inj_succ Z.pow_succ_r; [lia|]. split_and!; [lia..| |done]. rewrite Z.mul_comm Z.div_mul //.
Qed.

Lemma aligned_mod j q : (2 ^ Z.of_nat j * q) mod 2 ^ Z.of_nat j = 0.
Proof. rewrite Z.mul_comm. apply Z.mod_mul. apply Z.pow_nonzero; lia. Qed.

Lemma covers_sub s w s' w' b : s ≤ s' → s' + w' ≤ s + w → covers cs s w b → covers cs s' w' b.
Proof. intros ? ? (? & ? & Hin). split_and!; [done..|]. intros i Hi. apply Hin. lia. Qed.

Lemma merkle_hash_ok (node : InternalNode) fuel j q b :
  children node = cs → (j < fuel)%nat → (j <= 4)%nat → 0 ≤ q → 2 ^ Z.of_nat j * q + 2 ^ Z.of_nat j ≤ 16 → covers cs (2 ^ Z.of_nat j * q) (2 ^ Z.of_nat j) b →
  merkle_hash fuel node (2 ^ Z.of_nat j * q) (2 ^ Z.of_nat j) b = Ret (smt value_hash (bits_left j) (range (2 ^ Z.of_nat j * q) (2 ^ Z.of_nat j))).
Proof.
  intros Hnode. revert j q b. induction fuel as [|fuel IH]; intros j q b Hf Hj Hq Hsum Hcov; [lia|]. cbn [merkle_hash].
  assert (Hs : 0 ≤ 2 ^ Z.of_nat j * q) by (apply Z.mul_nonneg_nonneg; [apply Z.pow_nonneg|]; lia).
  destruct (range_bitmaps_ok j (2 ^ Z.of_nat j * q) b) as ([e l] & -> & Hex); [done..|by apply aligned_mod|done|]. run.
  pose proof (range_cases j _ (e, l) Hs Hsum Hex) as Hcases. cbv zeta in Hcases. cbn [fst snd] in Hcases.
  destruct (e =? 0); [by rewrite Hcases smt_empty|]. destruct (_ || _).
  - destruct Hcases as (c & Ht & Hc & _ & Hrange & Hl). rewrite Nibble_from_Ret //. run. unfold child. rewrite Hnode Hc. cbn [expect]. run.
    by rewrite (child_hash_smt _ c (range (2 ^ Z.of_nat j * q) (2 ^ Z.of_nat j)) j Hc).
  - destruct Hcases as [Hpos Hsize]. destruct j as [|j]; [lia|]. destruct (aligned_half j q Hq) as (E1 & E2 & E3 & E4). destruct Hex as [Hex _].
    rewrite smt_range_half // E3 E1 E2. rewrite !IH; try (run; done); try lia.
    + eapply covers_sub; [| |exact Hex]; rewrite ?E1 ?E2; lia.
    + eapply covers_sub; [| |exact Hex]; rewrite ?E1 ?E2; lia.
Qed.

(** The hash of an internal node is the hash of the tree it stands for. *)
Lemma InternalNode_hash_ok (node : InternalNode) :
  children node = cs → InternalNode_hash node = Ret (smt value_hash (LENGTH_IN_BITS - 4 * d) m).
Proof.
  intros Hnode. unfold InternalNode_hash. destruct (generate_bitmaps_ok node) as (b & -> & Hcov); [rewrite Hnode; apply Hcs|]. run.
  rewrite Hnode in Hcov. pose proof (merkle_hash_ok node hash_fuel 4 0 b Hnode) as Hh. change (2 ^ Z.of_nat 4) with 16 in Hh.
  rewrite Z.mul_0_r range_all in Hh. rewrite Hh //; [unfold hash_fuel; lia|]. do 2 f_equal. unfold bits_left. lia.
Qed.

(** ** Siblings *)

(** A key the node is on the path of, and its nibble here. *)
Context (k : HashValue) (Hk : hash_ok k) (Hbelow : below k (4 * d) m = m).
Let n : Z := key_nibble k d.

Lemma nibble_half j : is_nibble n → (j < 4)%nat →
  let q := n / 2 ^ Z.of_nat (S j) in
  n / 2 ^ Z.of_nat j = (if Z.testbit n (Z.of_nat j) then 2 * q + 1 else 2 * q) ∧
  get_child_and_sibling_half_start n (Z.of_nat j) =
    (2 ^ Z.of_nat j * (n / 2 ^ Z.of_nat j), 2 ^ Z.of_nat j * (if Z.testbit n (Z.of_nat j) then 2 * q else 2 * q + 1)).
Proof.
  intros Hn Hj. cbv zeta.
  set (P := λ n, let q := n / 2 ^ Z.of_nat (S j) in
    bool_decide (n / 2 ^ Z.of_nat j = (if Z.testbit n (Z.of_nat j) then 2 * q + 1 else 2 * q) ∧
    get_child_and_sibling_half_start n (Z.of_nat j) =
      (2 ^ Z.of_nat j * (n / 2 ^ Z.of_nat j), 2 ^ Z.of_nat j * (if Z.testbit n (Z.of_nat j) then 2 * q else 2 * q + 1)))).
  assert (P n = true) as HP; [|by apply bool_decide_eq_true in HP].
  apply (byte_cases P 16); [|done]. destruct j as [|[|[|[|j]]]]; [vm_compute; done..|lia].
Qed.

(** The subtree of the key and its sibling, level by level. *)
Lemma path_range j :
  (j <= 4)%nat → below k (4 * d + (4 - j)) m = range (2 ^ Z.of_nat j * (n / 2 ^ Z.of_nat j)) (2 ^ Z.of_nat j) ∧
  ((j < 4)%nat → sibling_of k (4 * d + (3 - j)) m =
     range (2 ^ Z.of_nat j * (if Z.testbit n (Z.of_nat j) then 2 * (n / 2 ^ Z.of_nat (S j)) else 2 * (n / 2 ^ Z.of_nat (S j)) + 1)) (2 ^ Z.of_nat j)).
Proof.
  assert (Hn : is_nibble n) by (by apply key_nibble_ok). intros Hj. remember (4 - j)%nat as i eqn:Hi. revert j Hj Hi.
  induction i as [|i IH]; intros j Hj Hi.
  - replace j with 4%nat by lia. split; [|lia]. rewrite Nat.add_0_r Hbelow. change (2 ^ Z.of_nat 4) with 16. by rewrite Z.div_small // Z.mul_0_r range_all.
  - assert (Hlt : (j < 4)%nat) by lia.
    assert (Hlev0 : (4 * d + i < LENGTH_IN_BITS)%nat) by (unfold LENGTH_IN_BITS, ROOT_NIBBLE_HEIGHT, LENGTH in *; lia). destruct (IH (S j) ltac:(lia) ltac:(lia)) as [IHb _]. clear IH.
    assert (Hq : 0 ≤ n / 2 ^ Z.of_nat (S j)) by (apply Z.div_pos; [apply Hn|apply Z.pow_pos_nonneg; lia]).
    destruct (nibble_half j Hn Hlt) as [Hdiv _]. destruct (aligned_half j (n / 2 ^ Z.of_nat (S j)) Hq) as (E1 & E2 & _ & _).
    pose proof (λ b, range_half j (n / 2 ^ Z.of_nat (S j)) b Hlt Hq) as Hhalf. cbv zeta in Hhalf.
    replace (Z.of_nat j + 1) with (Z.of_nat (S j)) in Hhalf by lia. rewrite -IHb E1 E2 in Hhalf.
    assert (Hlev : (LENGTH_IN_BITS - bits_left (S j) = 4 * d + i)%nat).
    { unfold bits_left, LENGTH_IN_BITS, ROOT_NIBBLE_HEIGHT, LENGTH in *. lia. }
    rewrite Hlev in Hhalf. assert (Hbit : key_bit k (4 * d + i) = Z.testbit n (Z.of_nat j)).
    { rewrite key_bit_nibble; [lia|]. f_equal. lia. }
    split.
    + rewrite Nat.add_succ_r below_S // Hbit Hhalf Hdiv. by destruct (Z.testbit n (Z.of_nat j)).
    + intros _. replace (4 * d + (3 - j))%nat with (4 * d + i)%nat by lia. unfold sibling_of. rewrite Hbit Hhalf. by destruct (Z.testbit n (Z.of_nat j)).
Qed.

(** The node in storage, and its leaves, as they are read. *)
Context {K : Type} (node : InternalNode) (Hnode : children node = cs) (reader : TreeReader K).
Context (p : list Z) (Hp : Forall is_nibble p) (Hlen : length p = d) (version : Version).

Definition leaves_read : Prop :=
  ∀ t c, cs !! t = Some c → Child_is_leaf c = true →
    ∃ h v index, sub t = {[h := v]} ∧
      reader (mkNodeKey (child_version c) (pack (p ++ [t]))) = Ok (Some (Node_Leaf (mkJmtLeaf h (value_hash v) index))).
Context (Hleaves : leaves_read).

Lemma gen_child_ok v t : is_nibble t → gen_child_node_key (mkNodeKey version (pack p)) v t = Ret (mkNodeKey v (pack (p ++ [t]))).
Proof. intros Ht. unfold gen_child_node_key. cbn [nibble_path]. rewrite push_pack ?Hlen //. Qed.

Lemma gen_node_in_proof_ok j q b :
  (j < 4)%nat → 0 ≤ q → 2 ^ Z.of_nat j * q + 2 ^ Z.of_nat j ≤ 16 → covers cs (2 ^ Z.of_nat j * q) (2 ^ Z.of_nat j) b →
  ∃ x, gen_node_in_proof node (2 ^ Z.of_nat j * q) (2 ^ Z.of_nat j) b reader (mkNodeKey version (pack p)) = Ret (Ok x) ∧
    in_proof value_hash (bits_left j) (range (2 ^ Z.of_nat j * q) (2 ^ Z.of_nat j)) x.
Proof.
  intros Hj Hq Hsum Hcov. assert (Hs : 0 ≤ 2 ^ Z.of_nat j * q) by (apply Z.mul_nonneg_nonneg; [apply Z.pow_nonneg|]; lia).
  unfold gen_node_in_proof. destruct (range_bitmaps_ok j (2 ^ Z.of_nat j * q) b) as ([e l] & -> & Hex); [lia|done..|by apply aligned_mod|done|]. run.
  pose proof (range_cases j _ (e, l) Hs Hsum Hex) as Hcases. cbv zeta in Hcases. cbn [fst snd] in Hcases. unfold in_proof.
  destruct (e =? 0); [eexists; split; [done|]; by rewrite (proj2 (shape_Empty _) Hcases)|]. destruct (_ || _).
  - destruct Hcases as (c & Ht & Hc & _ & Hrange & Hl). rewrite Nibble_from_Ret //. run. unfold child. rewrite Hnode Hc. cbn [expect]. run.
    destruct (Child_is_leaf c) eqn:El.
    + rewrite gen_child_ok //. run. destruct (Hleaves _ c Hc El) as (h & v & index & Hsub & Hr). unfold get_node. rewrite Hr. cbn.
      eexists. split; [done|]. by rewrite Hrange (proj2 (shape_One _ h v)).
    + eexists. split; [done|]. rewrite Hrange (proj2 (shape_Many _) (child_many _ c Hc El)).
      rewrite (child_hash_smt _ c (sub (trailing_zeros e)) j Hc) //. destruct Hl; [by left|done].
  - destruct Hcases as [Hpos Hsize]. rewrite (proj2 (shape_Many _) Hsize). destruct j as [|j]; [lia|]. destruct (aligned_half j q Hq) as (E1 & E2 & E3 & E4).
    destruct Hex as [Hex _]. assert ((j < hash_fuel)%nat) by (unfold hash_fuel; lia). rewrite smt_range_half //; [lia|]. rewrite E3 E1 E2 !(merkle_hash_ok node) //; try lia.
    + eapply covers_sub; [| |exact Hex]; rewrite ?E1 ?E2; lia.
    + eapply covers_sub; [| |exact Hex]; rewrite ?E1 ?E2; lia.
    + run. by eexists.
Qed.

(** How far the loop over the heights of a node comes: it stops [t] levels down, where
    there is no key, or at the child the key is below or has its place taken by. *)
Definition stops_at (lev t : nat) (r : option NodeKey) : Prop :=
  match r with
  | None => below k (lev + t) m = ∅
  | Some key =>
      ∃ i c, cs !! i = Some c ∧ key = mkNodeKey (child_version c) (pack (p ++ [i])) ∧ below k (lev + t) m = sub i ∧
        (i = n ∧ (lev + t = 4 * S d)%nat ∨ Child_is_leaf c = true)
  end.

Lemma child_with_siblings_loop_ok h acc b :
  (h <= 4)%nat → (0 < h)%nat → covers cs 0 16 b → (2 <= size (below k (4 * d + (4 - h)) m))%nat →
  ∃ t r sibs, (0 < t <= h)%nat ∧
    child_with_siblings_loop h node (mkNodeKey version (pack p)) n (Some reader) b acc = Ret (Ok (r, acc ++ sibs)) ∧
    Forall2 (λ i x, in_proof value_hash (LENGTH_IN_BITS - S i) (sibling_of k i m) x) (seq (4 * d + (4 - h)) t) sibs ∧
    (∀ i, (4 * d + (4 - h) <= i < 4 * d + (4 - h) + t)%nat → (2 <= size (below k i m))%nat) ∧ stops_at (4 * d + (4 - h)) t r.
Proof.
  revert acc. induction h as [|h IH]; intros acc Hh Hpos Hcov Hsize; [lia|]. clear Hpos.
  assert (Hn : is_nibble n) by (by apply key_nibble_ok). assert (Hlt : (h < 4)%nat) by lia. cbn [child_with_siblings_loop].
  destruct (nibble_half h Hn Hlt) as [Hdiv ->]. rewrite Z.shiftl_1_l.
  set (lev := (4 * d + (4 - S h))%nat) in *. assert (Hlev : (4 * d + (4 - h) = S lev)%nat) by lia.
  destruct (path_range h) as [Hown Hsib]; [lia|]. rewrite Hlev in Hown. specialize (Hsib Hlt). replace (4 * d + (3 - h))%nat with lev in Hsib by lia.
  set (w := 2 ^ Z.of_nat h) in *. set (q := n / w) in *.
  set (q' := if Z.testbit n (Z.of_nat h) then 2 * (n / 2 ^ Z.of_nat (S h)) else 2 * (n / 2 ^ Z.of_nat (S h)) + 1) in *.
  assert (Hbounds : 0 ≤ q ∧ w * q + w ≤ 16 ∧ 0 ≤ q' ∧ w * q' + w ≤ 16).
  { clear -Hn Hlt. subst w q q'.
    set (P := λ n, bool_decide (0 ≤ n / 2 ^ Z.of_nat h ∧ 2 ^ Z.of_nat h * (n / 2 ^ Z.of_nat h) + 2 ^ Z.of_nat h ≤ 16 ∧
      0 ≤ (if Z.testbit n (Z.of_nat h) then 2 * (n / 2 ^ Z.of_nat (S h)) else 2 * (n / 2 ^ Z.of_nat (S h)) + 1) ∧
      2 ^ Z.of_nat h * (if Z.testbit n (Z.of_nat h) then 2 * (n / 2 ^ Z.of_nat (S h)) else 2 * (n / 2 ^ Z.of_nat (S h)) + 1) + 2 ^ Z.of_nat h ≤ 16)).
    assert (P n = true) as HP; [|by apply bool_decide_eq_true in HP].
    apply (byte_cases P 16); [|done]. destruct h as [|[|[|[|h]]]]; [vm_compute; done..|lia]. }
  destruct Hbounds as (Hq & Hqs & Hq' & Hqs'). assert (Hw : 0 < w) by (apply Z.pow_pos_nonneg; lia).
  destruct (gen_node_in_proof_ok h q' b) as (x & Hgen & Hx); [done..|by eapply covers_sub; [| |exact Hcov]; fold w; nia|].
  fold w in Hgen, Hx. rewrite Hgen. run. cbn [try].
  destruct (range_bitmaps_ok h (w * q) b) as ([e l] & Hbm & Hex); [lia|nia|done|by apply aligned_mod|by eapply covers_sub; [| |exact Hcov]; fold w; nia|].
  fold w in Hbm, Hex. rewrite Hbm. run.
  pose proof (range_cases h (w * q) (e, l) ltac:(nia) Hqs Hex) as Hcases. cbv zeta in Hcases. cbn [fst snd] in Hcases. fold w in Hcases.
  assert (Hx' : in_proof value_hash (LENGTH_IN_BITS - S lev) (sibling_of k lev m) x).
  { rewrite Hsib. replace (LENGTH_IN_BITS - S lev)%nat with (bits_left h); [done|]. unfold bits_left. lia. }
  destruct (e =? 0).
  { exists 1%nat, None, [x]. split_and!; [lia|lia|done|by repeat constructor| |].
    - intros i Hi. replace i with lev by lia. done.
    - cbn. rewrite Nat.add_1_r. by rewrite Hown. }
  destruct (_ || _).
  - destruct Hcases as (c & Ht & Hc & Hin & Hrange & Hl). rewrite Nibble_from_Ret //. run. unfold child. rewrite Hnode Hc. cbn [expect]. run.
    rewrite gen_child_ok //. run. eexists 1%nat, _, [x]. split_and!; [lia|lia|done|by repeat constructor| |].
    + intros i Hi. by replace i with lev by lia.
    + exists (trailing_zeros e), c. rewrite Nat.add_1_r Hown Hrange. split_and!; [done..|]. destruct Hl as [->|Hl]; [left|by right].
      split; [|lia]. change w with 1 in *. subst q. rewrite Z.div_1_r in Hin. lia.
  - destruct Hcases as [Hpos Hmany]. rewrite Hlev in IH. destruct (IH (acc ++ [x])) as (t & r & sibs & Ht & -> & Hall & Hsizes & Hstop); [lia|done|done|by rewrite Hown|].
    exists (S t), r, (x :: sibs). split_and!; [lia|lia| |by constructor| |].
    + by rewrite -app_assoc.
    + intros i Hi. destruct (decide (i = lev)) as [->|]; [done|]. apply Hsizes. lia.
    + unfold stops_at in *. by rewrite -Nat.add_succ_comm.
Qed.

Lemma get_child_with_siblings_ok :
  (2 <= size m)%nat →
  ∃ t r sibs, (0 < t <= 4)%nat ∧ get_child_with_siblings node (mkNodeKey version (pack p)) n (Some reader) = Ret (Ok (r, sibs)) ∧
    Forall2 (λ i x, in_proof value_hash (LENGTH_IN_BITS - S i) (sibling_of k i m) x) (seq (4 * d) t) sibs ∧
    (∀ i, (4 * d <= i < 4 * d + t)%nat → (2 <= size (below k i m))%nat) ∧ stops_at (4 * d) t r.
Proof.
  intros Hsize. unfold get_child_with_siblings. destruct (generate_bitmaps_ok node) as (b & -> & Hcov); [rewrite Hnode; apply Hcs|]. run.
  rewrite Hnode in Hcov. pose proof (child_with_siblings_loop_ok 4 [] b) as Hloop. rewrite Nat.add_0_r Hbelow in Hloop.
  apply Hloop; [lia|lia|done|done].
Qed.
End node_hash.
