(* ===== verification/JellyfishMerkle.v ===== *)
(** * The Jellyfish Merkle tree

    Models [storage/jellyfish-merkle/src/lib.rs]: the state tree in storage.  Nodes are
    immutable and keyed by the version that wrote them and their path; applying a set of
    updates returns the root hash, the nodes to write and the nodes that the new version
    does not use any more.  A [TreeReader] is a function from node keys to nodes.  The
    order in which the [HashMap] of new children is walked is a parameter. *)
From S2P Require Import Prelude U64 NibblePath SparseMerkle JmtNode.
Local Open Scope Z_scope.
Local Open Scope rust_scope.

(** ** Ranges of keys with the same nibble *)

(** The binary search of [NibbleRangeIterator::next] for the last index with the nibble. *)
Fixpoint last_index {A} (fuel : nat) (sorted_kvs : list (HashValue * A)) (nibble_idx : nat) (cur_nibble : Z) (i j : nat) : comp nat :=
  if (i <? j)%nat then
    match fuel with
    | O => Panic
    | S fuel =>
        let mid := (j - (j - i) / 2)%nat in
        kv ← expect (sorted_kvs !! mid);
        x ← nibble kv.1 nibble_idx;
        if cur_nibble <? x then last_index fuel sorted_kvs nibble_idx cur_nibble i (mid - 1)
        else last_index fuel sorted_kvs nibble_idx cur_nibble mid j
    end
  else Ret i.

(** [NibbleRangeIterator::next] from position [pos]: the range, and the new position. *)
Definition NibbleRangeIterator_next {A} (sorted_kvs : list (HashValue * A)) (nibble_idx pos : nat) : comp (option (nat * nat * nat)) :=
  let left := pos in
  if (pos <? length sorted_kvs)%nat then
    kv ← expect (sorted_kvs !! left);
    cur_nibble ← nibble kv.1 nibble_idx;
    i ← last_index (length sorted_kvs) sorted_kvs nibble_idx cur_nibble left (length sorted_kvs - 1);
    Ret (Some (left, i, S i))
  else Ret None.

(** All ranges; each has at least one key. *)
Fixpoint ranges_from {A} (fuel : nat) (sorted_kvs : list (HashValue * A)) (nibble_idx pos : nat) : comp (list (nat * nat)) :=
  r ← NibbleRangeIterator_next sorted_kvs nibble_idx pos;
  match r with
  | None => Ret []
  | Some (lo, hi, pos) =>
      match fuel with
      | O => Panic
      | S fuel => rest ← ranges_from fuel sorted_kvs nibble_idx pos; Ret ((lo, hi) :: rest)
      end
  end.

(** [NibbleRangeIterator::new(sorted_kvs, nibble_idx)], iterated. *)
Definition nibble_ranges {A} (sorted_kvs : list (HashValue * A)) (nibble_idx : nat) : comp (list (nat * nat)) :=
  rust_assert (nibble_idx <? ROOT_NIBBLE_HEIGHT)%nat;;
  ranges_from (length sorted_kvs) sorted_kvs nibble_idx 0.

(** [kvs[left..=right]]. *)
Definition slice {A} (kvs : list A) (left right : nat) : list A := take (S right - left) (drop left kvs).

(** Hashes of nodes by their path, if the caller has them. *)
Abbreviation HashCache := (option (gmap NibblePath HashValue)).

Section jmt.
Context {SH : SparseMerkleHashers} {K : Type}.
Local Notation Node := (Node K).
Context (hash_iter : gmap Z Node → list (Z * Node)).

(** A new value, or [None] to delete the key. *)
Local Notation kv := (HashValue * option (HashValue * K))%type.

(** ** Batches of updates *)

Record StaleNodeIndex : Type := mkStaleNodeIndex { stale_since_version : Version; stale_node_key : NodeKey }.

Record TreeUpdateBatch : Type := mkBatch {
  node_batch : list (list (NodeKey * Node));
  stale_node_index_batch : list (list StaleNodeIndex);
  num_new_leaves : nat;
  num_stale_leaves : nat;
}.

Definition TreeUpdateBatch_new : TreeUpdateBatch := mkBatch [[]] [[]] 0 0.

Definition combine (self other : TreeUpdateBatch) : TreeUpdateBatch :=
  mkBatch (node_batch self ++ node_batch other) (stale_node_index_batch self ++ stale_node_index_batch other)
    (num_new_leaves self + num_new_leaves other) (num_stale_leaves self + num_stale_leaves other).

(** [v[0].push(x)]. *)
Definition push_first {A} (v : list (list A)) (x : A) : comp (list (list A)) :=
  match v with [] => Panic | l :: v => Ret ((l ++ [x]) :: v) end.

Definition put_node (self : TreeUpdateBatch) (node_key : NodeKey) (node : Node) : comp TreeUpdateBatch :=
  b ← push_first (node_batch self) (node_key, node);
  Ret (mkBatch b (stale_node_index_batch self)
         (if Node_is_leaf node then S (num_new_leaves self) else num_new_leaves self) (num_stale_leaves self)).

Definition put_stale_node (self : TreeUpdateBatch) (node_key : NodeKey) (stale_since_version : Version) (node : Node) :
    comp TreeUpdateBatch :=
  b ← push_first (stale_node_index_batch self) (mkStaleNodeIndex stale_since_version node_key);
  Ret (mkBatch (node_batch self) b (num_new_leaves self)
         (if Node_is_leaf node then S (num_stale_leaves self) else num_stale_leaves self)).

(** ** Building subtrees *)

Definition get_hash (node_key : NodeKey) (node : Node) (hash_cache : HashCache) : comp HashValue :=
  match hash_cache with
  | Some cache => expect (cache !! nibble_path node_key)
  | None => Node_hash node
  end.

(** What an operation on a subtree returns: its new root, if there is one. *)
Abbreviation updated := (comp (result jmt_error (option Node * TreeUpdateBatch))).

(** The child of a new internal node, which is put into the batch. *)
Definition add_child (node_key : NodeKey) (version : Version) (hash_cache : HashCache)
    (acc : Children * TreeUpdateBatch) (entry : Z * Node) : comp (result jmt_error (Children * TreeUpdateBatch)) :=
  let '(children, batch) := acc in
  let '(child_index, new_child_node) := entry in
  new_child_node_key ← gen_child_node_key node_key version child_index;
  hash ← get_hash new_child_node_key new_child_node hash_cache;
  batch ← put_node batch new_child_node_key new_child_node;
  Ret (Ok (<[child_index := mkChild hash version (node_type new_child_node)]> children, batch)).

(** A new node from the nodes below it: nothing, the only leaf, or an internal node. *)
Definition join_children (node_key : NodeKey) (version : Version) (hash_cache : HashCache)
    (children : list (Z * Node)) (batch : TreeUpdateBatch) : updated :=
  match children with
  | [] => Ret (Ok (None, batch))
  | [(_, Node_Leaf leaf)] => Ret (Ok (Some (Node_Leaf leaf), batch))
  | _ =>
      let* (children, batch) := try_fold (add_child node_key version hash_cache) (∅, batch) children in
      new_internal_node ← InternalNode_new children;
      Ret (Ok (Some (Node_Internal new_internal_node), batch))
  end.

Fixpoint batch_update_subtree (fuel : nat) (node_key : NodeKey) (version : Version) (kvs : list kv) (depth : nat)
    (hash_cache : HashCache) (batch : TreeUpdateBatch) : updated :=
  match kvs with
  | [(key, Some (value_hash, state_key))] => Ret (Ok (Some (Node_Leaf (mkJmtLeaf key value_hash (state_key, version))), batch))
  | [(_, None)] => Ret (Ok (None, batch))
  | _ =>
      match fuel with
      | O => Panic
      | S fuel =>
          ranges ← nibble_ranges kvs depth;
          let* (children, batch) := try_fold (λ '(children, batch) '(lo, hi),
            first ← expect (kvs !! lo);
            child_index ← get_nibble first.1 depth;
            child_node_key ← gen_child_node_key node_key version child_index;
            let* (new_child_node, batch) :=
              batch_update_subtree fuel child_node_key version (slice kvs lo hi) (S depth) hash_cache batch in
            Ret (Ok (children ++ match new_child_node with Some n => [(child_index, n)] | None => [] end, batch)))
            ([], batch) ranges in
          join_children node_key version hash_cache children batch
      end
  end.

Fixpoint batch_update_subtree_with_existing_leaf (fuel : nat) (node_key : NodeKey) (version : Version) (existing_leaf_node : LeafNode K)
    (kvs : list kv) (depth : nat) (hash_cache : HashCache) (batch : TreeUpdateBatch) : updated :=
  let existing_leaf_key := account_key existing_leaf_node in
  let split :=
    match fuel with
    | O => Panic
    | S fuel =>
        existing_leaf_bucket ← get_nibble existing_leaf_key depth;
        ranges ← nibble_ranges kvs depth;
        let* (isolated_existing_leaf, children, batch) := try_fold (λ '(isolated_existing_leaf, children, batch) '(lo, hi),
          first ← expect (kvs !! lo);
          child_index ← get_nibble first.1 depth;
          child_node_key ← gen_child_node_key node_key version child_index;
          let own_bucket := existing_leaf_bucket =? child_index in
          let* (new_child_node, batch) :=
            if own_bucket : bool then
              batch_update_subtree_with_existing_leaf fuel child_node_key version existing_leaf_node
                (slice kvs lo hi) (S depth) hash_cache batch
            else batch_update_subtree fuel child_node_key version (slice kvs lo hi) (S depth) hash_cache batch in
          Ret (Ok (isolated_existing_leaf && negb own_bucket,
                   children ++ match new_child_node with Some n => [(child_index, n)] | None => [] end, batch)))
          (true, [], batch) ranges in
        let children := if isolated_existing_leaf : bool then children ++ [(existing_leaf_bucket, Node_Leaf existing_leaf_node)] else children in
        join_children node_key version hash_cache children batch
    end in
  match kvs with
  | [(key, value)] =>
      if bool_decide (key = existing_leaf_key) then
        match value with
        | Some (value_hash, state_key) => Ret (Ok (Some (Node_Leaf (mkJmtLeaf key value_hash (state_key, version))), batch))
        | None => Ret (Ok (None, batch))
        end
      else split
  | _ => split
  end.

(** ** Updating the tree *)

Definition MAX_PARALLELIZABLE_DEPTH : nat := 2.

(** One entry of a map, if it has any. *)
Definition first_entry {A} (m : gmap Z A) : option (Z * A) := head (map_to_list m).

(** An internal node that is left with one leaf is that leaf. *)
Definition collapse (reader : TreeReader K) (node_key : NodeKey) (version : Version) (old_children : Children)
    (new_created_children : gmap Z Node) (batch : TreeUpdateBatch) :
    comp (result jmt_error (option (Node * TreeUpdateBatch))) :=
  if (size old_children <=? 1)%nat && (size new_created_children <=? 1)%nat then
    match first_entry new_created_children with
    | Some (new_nibble, new_child) =>
        match first_entry old_children with
        | Some (old_nibble, _) =>
            if (old_nibble =? new_nibble) && Node_is_leaf new_child then Ret (Ok (Some (new_child, batch))) else Ret (Ok None)
        | None => if Node_is_leaf new_child then Ret (Ok (Some (new_child, batch))) else Ret (Ok None)
        end
    | None =>
        '(old_child_nibble, old_child) ← expect (first_entry old_children);
        if Child_is_leaf old_child then
          old_child_node_key ← gen_child_node_key node_key (child_version old_child) old_child_nibble;
          let? old_child_node := get_node reader old_child_node_key in
          batch ← put_stale_node batch old_child_node_key version old_child_node;
          Ret (Ok (Some (old_child_node, batch)))
        else Ret (Ok None)
    end
  else Ret (Ok None).

(** The children that stay, and the new ones. *)
Definition sort_children (acc : Children * gmap Z Node) (new_child : Z * option Node) : Children * gmap Z Node :=
  let '(old_children, new_created_children) := acc in
  match new_child.2 with
  | Some child => (old_children, <[new_child.1 := child]> new_created_children)
  | None => (delete new_child.1 old_children, new_created_children)
  end.

(** The new node in place of an internal node, from what became of the children that
    were touched. *)
Definition rebuild_internal (reader : TreeReader K) (node_key : NodeKey) (version : Version) (internal_node : InternalNode)
    (new_children : list (Z * option Node)) (hash_cache : HashCache) (batch : TreeUpdateBatch) : updated :=
  let '(old_children, new_created_children) := foldl sort_children (children internal_node, ∅) new_children in
  if (size old_children =? 0)%nat && (size new_created_children =? 0)%nat then Ret (Ok (None, batch)) else
  let* collapsed := collapse reader node_key version old_children new_created_children batch in
  match collapsed with
  | Some (node, batch) => Ret (Ok (Some node, batch))
  | None =>
      let* (new_children, batch) :=
        try_fold (add_child node_key version hash_cache) (old_children, batch) (hash_iter new_created_children) in
      new_internal_node ← InternalNode_new new_children;
      Ret (Ok (Some (Node_Internal new_internal_node), batch))
  end.

(** [batch_insert_at] is the update of a child that is there. *)
Definition insert_at_child (batch_insert_at : NodeKey → list kv → nat → TreeUpdateBatch → updated)
    (node_key : NodeKey) (internal_node : InternalNode) (version : Version) (kvs : list kv) (left right depth : nat)
    (hash_cache : HashCache) (batch : TreeUpdateBatch) : comp (result jmt_error (Z * option Node * TreeUpdateBatch)) :=
  first ← expect (kvs !! left);
  child_index ← get_nibble first.1 depth;
  let* (new_child_node_option, batch) :=
    match child internal_node child_index with
    | Some child =>
        key ← gen_child_node_key node_key (child_version child) child_index;
        batch_insert_at key (slice kvs left right) (S depth) batch
    | None =>
        key ← gen_child_node_key node_key version child_index;
        batch_update_subtree (S ROOT_NIBBLE_HEIGHT) key version (slice kvs left right) (S depth) hash_cache batch
    end in
  Ret (Ok (child_index, new_child_node_option, batch)).

Fixpoint batch_insert_at (fuel : nat) (reader : TreeReader K) (node_key : NodeKey) (version : Version) (kvs : list kv) (depth : nat)
    (hash_cache : HashCache) (batch : TreeUpdateBatch) : updated :=
  match fuel with
  | O => Panic
  | S fuel =>
      let? node := get_node reader node_key in
      batch ← put_stale_node batch node_key version node;
      match node with
      | Node_Internal internal_node =>
          ranges ← nibble_ranges kvs depth;
          let at_child := λ '(lo, hi) batch,
            insert_at_child (λ key kvs depth batch, batch_insert_at fuel reader key version kvs depth hash_cache batch)
              node_key internal_node version kvs lo hi depth hash_cache batch in
          let* (new_children, batch) :=
            if (depth <=? MAX_PARALLELIZABLE_DEPTH)%nat then
              let* results := try_fold (λ results range,
                let* (index, node, sub_batch) := at_child range TreeUpdateBatch_new in
                Ret (Ok (results ++ [(index, node, sub_batch)]))) [] ranges in
              Ret (Ok (results.*1, foldl combine batch results.*2))
            else
              try_fold (λ '(new_children, batch) range,
                let* (index, node, batch) := at_child range batch in
                Ret (Ok (new_children ++ [(index, node)], batch))) ([], batch) ranges in
          rebuild_internal reader node_key version internal_node new_children hash_cache batch
      | Node_Leaf leaf_node =>
          batch_update_subtree_with_existing_leaf (S ROOT_NIBBLE_HEIGHT) node_key version leaf_node kvs depth hash_cache batch
      | Node_Null =>
          if (depth =? 0)%nat then batch_update_subtree (S ROOT_NIBBLE_HEIGHT) node_key version kvs 0 hash_cache batch
          else Ret (Err Anyhow)
      end
  end.

(** [into_iter().collect::<BTreeMap<_, _>>()]: the last entry of a key counts. *)
Definition collect_map {V} (l : list (HashValue * V)) : gmap HashValue V := foldl (λ m x, <[x.1 := x.2]> m) ∅ l.

Definition batch_put_value_set (reader : TreeReader K) (value_set : list kv) (node_hashes : HashCache)
    (persisted_version : option Version) (version : Version) : comp (result jmt_error (HashValue * TreeUpdateBatch)) :=
  let deduped_and_sorted_kvs := btree_iter (collect_map value_set) in
  let batch := TreeUpdateBatch_new in
  let* (root_node_opt, batch) :=
    match persisted_version with
    | Some persisted_version =>
        key ← new_empty_path persisted_version;
        batch_insert_at (S ROOT_NIBBLE_HEIGHT) reader key version deduped_and_sorted_kvs 0 node_hashes batch
    | None =>
        key ← new_empty_path version;
        batch_update_subtree (S ROOT_NIBBLE_HEIGHT) key version deduped_and_sorted_kvs 0 node_hashes batch
    end in
  node_key ← new_empty_path version;
  match root_node_opt with
  | Some root_node =>
      hash ← Node_hash root_node;
      batch ← put_node batch node_key root_node;
      Ret (Ok (hash, batch))
  | None =>
      batch ← put_node batch node_key Node_Null;
      Ret (Ok (SPARSE_MERKLE_PLACEHOLDER_HASH, batch))
  end.

(** ** Reading the tree *)

(** The loop of [get_with_proof_ext]; [fuel] is what is left of [0..=ROOT_NIBBLE_HEIGHT]. *)
Fixpoint proof_loop (fuel : nat) (reader : TreeReader K) (key : HashValue) (version : Version) (nibble_depth : nat)
    (next_node_key : NodeKey) (nibble_iter : NibbleIterator) (siblings : list NodeInProof) :
    comp (result jmt_error (option (HashValue * (K * Version)) * SparseMerkleProofExt)) :=
  match fuel with
  | O => Ret (Err Anyhow)
  | S fuel =>
      let? next_node := map_err (λ err, if (nibble_depth =? 0)%nat then MissingRootError version else err)
                          (get_node reader next_node_key) in
      match next_node with
      | Node_Internal internal_node =>
          '(nibble_iter, queried) ← next nibble_iter;
          match queried with
          | None => Ret (Err Anyhow)
          | Some queried_child_index =>
              let* (child_node_key, siblings_in_internal) :=
                get_child_with_siblings internal_node next_node_key queried_child_index (Some reader) in
              let siblings := siblings ++ siblings_in_internal in
              match child_node_key with
              | Some node_key => proof_loop fuel reader key version (S nibble_depth) node_key nibble_iter siblings
              | None => Ret (Ok (None, mkSparseMerkleProofExt None (reverse siblings)))
              end
          end
      | Node_Leaf leaf_node =>
          Ret (Ok (if bool_decide (account_key leaf_node = key) then Some (leaf_value_hash leaf_node, value_index leaf_node) else None,
                   mkSparseMerkleProofExt (Some (leaf_in_proof leaf_node)) (reverse siblings)))
      | Node_Null => Ret (Ok (None, mkSparseMerkleProofExt None []))
      end
  end.

Definition get_with_proof_ext (reader : TreeReader K) (key : HashValue) (version : Version) :
    comp (result jmt_error (option (HashValue * (K * Version)) * SparseMerkleProofExt)) :=
  next_node_key ← new_empty_path version;
  nibble_path ← new_even key;
  nibble_iter ← nibbles nibble_path;
  proof_loop (S ROOT_NIBBLE_HEIGHT) reader key version 0 next_node_key nibble_iter [].

Definition get_with_proof (reader : TreeReader K) (key : HashValue) (version : Version) :
    comp (result jmt_error (option (HashValue * (K * Version)) * SparseMerkleProof)) :=
  let* (value, proof_ext) := get_with_proof_ext reader key version in
  Ret (Ok (value, proof_from_ext proof_ext)).

Definition get_root_node (reader : TreeReader K) (version : Version) : comp (result jmt_error Node) :=
  root_node_key ← new_empty_path version;
  let? node := reader root_node_key in
  Ret (match node with Some n => Ok n | None => Err Anyhow end).

Definition get_root_hash (reader : TreeReader K) (version : Version) : comp (result jmt_error HashValue) :=
  let* n := get_root_node reader version in h ← Node_hash n; Ret (Ok h).

Definition get_leaf_count (reader : TreeReader K) (version : Version) : comp (result jmt_error Z) :=
  let* n := get_root_node reader version in Ret (Ok (leaf_count n)).

(** [children_sorted]. *)
Definition children_sorted (self : InternalNode) : list (Z * Child) := btree_iter (children self).

Fixpoint get_all_nodes_referenced_impl (fuel : nat) (reader : TreeReader K) (key : NodeKey) (out_keys : list NodeKey) :
    comp (result jmt_error (list NodeKey)) :=
  match fuel with
  | O => Panic
  | S fuel =>
      let? node := get_node reader key in
      let* out_keys :=
        match node with
        | Node_Internal internal_node =>
            try_fold (λ out_keys '(child_nibble, child),
              child_key ← gen_child_node_key key (child_version child) child_nibble;
              get_all_nodes_referenced_impl fuel reader child_key out_keys) out_keys (children_sorted internal_node)
        | Node_Leaf _ | Node_Null => Ret (Ok out_keys)
        end in
      Ret (Ok (out_keys ++ [key]))
  end.

Definition get_all_nodes_referenced (reader : TreeReader K) (version : Version) : comp (result jmt_error (list NodeKey)) :=
  key ← new_empty_path version;
  get_all_nodes_referenced_impl (S ROOT_NIBBLE_HEIGHT) reader key [].
End jmt.
