(* ===== verification/JellyfishTree.v ===== *)
(** * Trees in storage

    [tree_at] says that a node is the root of a well-formed tree: its children are stored
    under their keys, its hash and leaf counts are those of the state it stands for, and a
    subtree with one key is a leaf.  [in_tree] are the keys of its nodes.  A tree hashes to
    the reference tree [smt] of its state, and every proof read from it verifies. *)
From S2P Require Import Prelude U64 NibblePath SparseMerkle JmtNode JellyfishMerkle.
Local Open Scope Z_scope.
Local Open Scope rust_scope.

(** ** The part of a state below a path *)

Section restrict.
Context {V : Type}.
Implicit Types m : gmap HashValue V.

Definition has_prefix (p : list Z) (k : HashValue) : Prop := take (length p) (unpack k) = p.
#[global] Instance has_prefix_dec p k : Decision (has_prefix p k).
Proof. unfold has_prefix. apply _. Defined.

Definition restrict (p : list Z) m : gmap HashValue V := filter (λ kv, has_prefix p kv.1) m.

Definition keys_ok m : Prop := map_Forall (λ k _, hash_ok k) m.

Lemma has_prefix_nil k : has_prefix [] k.
Proof. done. Qed.

Lemma has_prefix_snoc p t k :
  hash_ok k → (length p < ROOT_NIBBLE_HEIGHT)%nat → has_prefix (p ++ [t]) k ↔ has_prefix p k ∧ key_nibble k (length p) = t.
Proof.
  intros Hk Hp. unfold has_prefix. rewrite length_app Nat.add_1_r (take_S_r _ _ _ (unpack_key_nibble k _ Hk Hp)). split.
  - by intros [-> [= ->]]%app_inj_tail.
  - by intros [-> ->].
Qed.

Lemma has_prefix_nibbles p k : hash_ok k → has_prefix p k → Forall is_nibble p.
Proof. intros [_ Hb] Hp. unfold has_prefix in Hp. rewrite -Hp. by apply Forall_take, unpack_nibbles. Qed.

Lemma has_prefix_full p k k' :
  hash_ok k → hash_ok k' → (ROOT_NIBBLE_HEIGHT <= length p)%nat → has_prefix p k → has_prefix p k' → k = k'.
Proof.
  intros Hk Hk' Hp H1 H2. unfold has_prefix in *. rewrite -(pack_unpack k (proj2 Hk)) -(pack_unpack k' (proj2 Hk')).
  assert (Hlen : ∀ h, hash_ok h → length (unpack h) = ROOT_NIBBLE_HEIGHT) by (intros h [Hl _]; by rewrite length_unpack Hl).
  rewrite take_ge in H1; [by rewrite Hlen|]. rewrite take_ge in H2; [by rewrite Hlen|]. congruence.
Qed.

Lemma restrict_nil m : restrict [] m = m.
Proof. by apply map_filter_id. Qed.

Lemma restrict_keys p m : keys_ok m → keys_ok (restrict p m).
Proof. intros Hm k v [Hk _]%map_lookup_filter_Some. by apply (Hm k v). Qed.

Lemma restrict_lookup p m k v : restrict p m !! k = Some v ↔ m !! k = Some v ∧ has_prefix p k.
Proof. apply map_lookup_filter_Some. Qed.

Lemma restrict_snoc p t m :
  keys_ok m → (length p < ROOT_NIBBLE_HEIGHT)%nat → restrict (p ++ [t]) m = sub (length p) (restrict p m) t.
Proof.
  intros Hm Hp. unfold restrict, sub. rewrite map_filter_filter. apply map_filter_ext. intros k v Hk. cbn.
  rewrite has_prefix_snoc //; [by apply (Hm k v)|]. tauto.
Qed.

(** The keys below a path are those that start like any key below it. *)
Lemma restrict_below p m k :
  keys_ok m → hash_ok k → (length p <= ROOT_NIBBLE_HEIGHT)%nat → has_prefix p k → restrict p m = below k (4 * length p) m.
Proof.
  intros Hm Hk Hlen Hp. apply map_filter_ext. intros h v Hh%Hm. cbn.
  rewrite take_bits_spec; [unfold LENGTH_IN_BITS, ROOT_NIBBLE_HEIGHT, LENGTH in *; lia|]. rewrite -key_nibbles_bits //. unfold has_prefix in *. split.
  - intros Hph i Hi. assert (unpack k !! i = unpack h !! i) as Heq.
    { rewrite -(lookup_take_lt (unpack k) (length p)) // -(lookup_take_lt (unpack h) (length p)) //. congruence. }
    rewrite !unpack_key_nibble // in Heq; [lia..|]. congruence.
  - intros Heq. rewrite -{2}Hp. apply list_eq. intros i. destruct (decide (i < length p)%nat).
    + rewrite !lookup_take_lt // !unpack_key_nibble //; [lia..|]. by rewrite Heq.
    + rewrite !lookup_take_ge //; lia.
Qed.

Lemma restrict_two p m k k' : restrict p m !! k ≠ None → restrict p m !! k' ≠ None → k ≠ k' → (2 <= size (restrict p m))%nat.
Proof. rewrite !not_eq_None_Some. apply size_two. Qed.

(** Two keys below a path differ in a nibble that is still to come. *)
Lemma restrict_many_lt p m : keys_ok m → (2 <= size (restrict p m))%nat → (length p < ROOT_NIBBLE_HEIGHT)%nat.
Proof.
  intros Hm Hsize. destruct (decide (length p < ROOT_NIBBLE_HEIGHT)%nat) as [|Hge]; [done|]. exfalso.
  assert (restrict p m ≠ ∅) as (k & v & Hk)%map_choose. { intros E. rewrite E map_size_empty in Hsize. lia. }
  assert (restrict p m = {[k := v]}) as E; [|rewrite E map_size_singleton in Hsize; lia].
  apply map_eq. intros h. destruct (decide (h = k)) as [->|Hne]; [by rewrite lookup_singleton_eq|]. rewrite lookup_singleton_ne //.
  destruct (restrict p m !! h) as [w|] eqn:Hh; [|done]. exfalso. apply restrict_lookup in Hk as [Hk Hpk], Hh as [Hh Hph].
  apply Hne, (has_prefix_full p); [by apply (Hm h w)|by apply (Hm k v)|lia|done..].
Qed.
End restrict.

(** ** Trees *)

Section tree.
Context {SH : SparseMerkleHashers} {K : Type}.
Local Notation Node := (Node K).
Local Notation Reader := (TreeReader K).
Local Notation state := (gmap HashValue (HashValue * (K * Version))).

(** What is hashed for the keys below a path. *)
Definition path_hash (p : list Z) (m : state) : HashValue := smt fst (LENGTH_IN_BITS - 4 * length p) m.

Definition node_at (v : Version) (p : list Z) : NodeKey := mkNodeKey v (pack p).

(** The tree below [node], whose key is [node_at v p], for the state [m]. *)
Fixpoint tree_at (h : nat) (rd : Reader) (p : list Z) (v : Version) (m : state) (node : Node) : Prop :=
  match node with
  | Node_Null => False
  | Node_Leaf l => m = {[account_key l := (leaf_value_hash l, value_index l)]}
  | Node_Internal i =>
      match h with
      | O => False
      | S h =>
          (2 <= size m)%nat ∧ in_leaf_count i = Z.of_nat (size m) ∧ nibble_keys (children i) ∧
          ∀ t, is_nibble t →
            let m' := sub (length p) m t in
            match children i !! t with
            | None => m' = ∅
            | Some c =>
                ∃ node', rd (node_at (child_version c) (p ++ [t])) = Ok (Some node') ∧ child_version c ≤ v ∧
                  child_hash c = path_hash (p ++ [t]) m' ∧ child_type c = node_type node' ∧
                  tree_at h rd (p ++ [t]) (child_version c) m' node'
            end
      end
  end.

(** The keys of the nodes of the tree. *)
Fixpoint in_tree (h : nat) (rd : Reader) (p : list Z) (v : Version) (node : Node) (key : NodeKey) : Prop :=
  key = node_at v p ∨
  match node, h with
  | Node_Internal i, S h =>
      ∃ t c node', is_nibble t ∧ children i !! t = Some c ∧ rd (node_at (child_version c) (p ++ [t])) = Ok (Some node') ∧
        in_tree h rd (p ++ [t]) (child_version c) node' key
  | _, _ => False
  end.

(** The height of the tree below a path. *)
Definition height (p : list Z) : nat := ROOT_NIBBLE_HEIGHT - length p.

Lemma height_S p t : (length p < ROOT_NIBBLE_HEIGHT)%nat → height p = S (height (p ++ [t])).
Proof. unfold height. rewrite length_app /=. lia. Qed.

Lemma tree_at_nonempty h rd p v m node : tree_at h rd p v m node → m ≠ ∅.
Proof.
  destruct h, node as [i|l|]; cbn [tree_at]; try done; try (intros ->; apply map_non_empty_singleton).
  intros (Hsize & _) ->. rewrite map_size_empty in Hsize. lia.
Qed.

Lemma tree_at_leaf h rd p v m node : tree_at h rd p v m node → Node_is_leaf node = true ↔ size m = 1%nat.
Proof.
  destruct h, node as [i|l|]; cbn [tree_at Node_is_leaf]; try done; try (intros ->; by rewrite map_size_singleton).
  intros (Hsize & _). split; [done|lia].
Qed.

Lemma tree_at_count h rd p v m node : tree_at h rd p v m node → leaf_count node = Z.of_nat (size m).
Proof.
  destruct h, node as [i|l|]; cbn [tree_at leaf_count]; try done; try (intros ->; by rewrite map_size_singleton). by intros (_ & Hc & _).
Qed.

Lemma child_is_leaf_type c (node : Node) : child_type c = node_type node → Child_is_leaf c = Node_is_leaf node.
Proof. unfold Child_is_leaf. intros ->. by destruct node. Qed.

(** An internal node of a tree has the children of its state. *)
Lemma tree_children h rd p v m i :
  tree_at h rd p v m (Node_Internal i) → children_of fst (length p) m (children i).
Proof.
  destruct h as [|h]; [done|]. cbn [tree_at]. intros (_ & _ & Hn & Hc). split; [done|]. intros t Ht. specialize (Hc t Ht). cbv zeta in Hc.
  destruct (children i !! t) as [c|]; [|done]. destruct Hc as (node & _ & _ & Hh & Hty & Hat).
  split_and!; [by eapply tree_at_nonempty| |].
  - rewrite Hh. unfold path_hash, bits_left. rewrite length_app /=. do 2 f_equal. lia.
  - rewrite (child_is_leaf_type c node) //. by eapply tree_at_leaf.
Qed.

(** The hash of a tree is the hash of its state. *)
Lemma tree_node_hash h rd p v m node :
  keys_ok m → (length p <= ROOT_NIBBLE_HEIGHT)%nat → (h <= height p)%nat → tree_at h rd p v m node → Node_hash node = Ret (path_hash p m).
Proof.
  intros Hm Hlen Hh Hat. destruct node as [i|l|]; [| |by destruct h].
  - assert (length p < ROOT_NIBBLE_HEIGHT)%nat. { destruct h as [|h]; [done|]. unfold height in Hh. lia. }
    cbn [Node_hash]. by eapply (InternalNode_hash_ok fst (length p) ltac:(assumption) m Hm (children i) (tree_children _ _ _ _ _ _ Hat)).
  - assert (m = {[account_key l := (leaf_value_hash l, value_index l)]}) as -> by (by destruct h). cbn. unfold path_hash. by rewrite smt_singleton.
Qed.

(** ** Nodes below a path *)

Definition under (p : list Z) (key : NodeKey) : Prop := ∃ q, nibble_path key = pack (p ++ q) ∧ Forall is_nibble (p ++ q).

Lemma under_app p q key : under (p ++ q) key → under p key.
Proof. intros (r & Hr & Hn). exists (q ++ r). by rewrite app_assoc. Qed.

Lemma under_disjoint p t t' key : under (p ++ [t]) key → under (p ++ [t']) key → t = t'.
Proof.
  intros (q & Hq & Hn) (q' & Hq' & Hn'). rewrite Hq in Hq'. apply pack_inj in Hq'; [|done..].
  rewrite -!app_assoc in Hq'. by apply app_inv_head in Hq' as [= ->].
Qed.

Lemma not_under_self p t v : Forall is_nibble p → ¬ under (p ++ [t]) (node_at v p).
Proof.
  intros Hp (q & Hq & Hn). cbn in Hq. apply (f_equal num_nibbles) in Hq. cbn in Hq. rewrite !length_app /= in Hq. lia.
Qed.

Lemma in_tree_root h rd p v node : in_tree h rd p v node (node_at v p).
Proof. destruct h; by left. Qed.

Lemma in_tree_under h rd p v node key : Forall is_nibble p → in_tree h rd p v node key → under p key.
Proof.
  revert p v node. induction h as [|h IH]; intros p v node Hp; cbn [in_tree].
  - intros [->|Hin]; [exists []; by rewrite app_nil_r|by destruct node].
  - intros [->|Hin]; [exists []; by rewrite app_nil_r|]. destruct node as [i| |]; [|done..].
    destruct Hin as (t & c & n & Ht & _ & _ & Hin). apply (under_app p [t]). apply IH in Hin; [done|]. apply Forall_app. by split; [|constructor].
Qed.

Lemma in_tree_version h rd p v m node key : tree_at h rd p v m node → in_tree h rd p v node key → nk_version key ≤ v.
Proof.
  revert p v m node. induction h as [|h IH]; intros p v m node; cbn [in_tree tree_at].
  - intros _ [->|Hin]; [done|by destruct node].
  - intros Hat [->|Hin]; [done|]. destruct node as [i| |]; [|done..]. destruct Hin as (t & c & n & Ht & Hc & Hrd & Hin).
    destruct Hat as (_ & _ & _ & Hat). specialize (Hat t Ht). cbv zeta in Hat. rewrite Hc in Hat. destruct Hat as (n' & Hrd' & Hv & _ & _ & Hat).
    rewrite Hrd in Hrd'. injection Hrd' as <-. specialize (IH _ _ _ _ Hat Hin). lia.
Qed.

(** A tree does not depend on nodes that are not its own. *)
Lemma tree_frame h rd rd' p v m node :
  tree_at h rd p v m node → (∀ key, in_tree h rd p v node key → key ≠ node_at v p → rd' key = rd key) →
  Forall is_nibble p →
  tree_at h rd' p v m node ∧ ∀ key, in_tree h rd' p v node key ↔ in_tree h rd p v node key.
Proof.
  revert p v m node. induction h as [|h IH]; intros p v m node Hat Hrd Hp.
  { split; [by destruct node|]. intros key. cbn. by destruct node. }
  destruct node as [i| |]; [|split; [done|]; intros key; done..].
  assert (Hchild : ∀ t c n, is_nibble t → children i !! t = Some c → rd (node_at (child_version c) (p ++ [t])) = Ok (Some n) →
            rd' (node_at (child_version c) (p ++ [t])) = Ok (Some n) ∧
            ∀ key, in_tree h rd (p ++ [t]) (child_version c) n key → rd' key = rd key).
  { intros t c n Ht Hc Hn. assert (Hall : ∀ key, in_tree h rd (p ++ [t]) (child_version c) n key → rd' key = rd key).
    - intros key Hin. apply Hrd; [right; by exists t, c, n|]. intros ->. apply (not_under_self p t v Hp). eapply in_tree_under; [|done].
      apply Forall_app. by split; [|constructor].
    - split; [|done]. rewrite -Hn. apply Hall, in_tree_root. }
  destruct Hat as (Hsize & Hcount & Hkeys & Hat).
  assert (Hsub : ∀ t c n, is_nibble t → children i !! t = Some c → rd (node_at (child_version c) (p ++ [t])) = Ok (Some n) →
            tree_at h rd' (p ++ [t]) (child_version c) (sub (length p) m t) n ∧
            ∀ key, in_tree h rd' (p ++ [t]) (child_version c) n key ↔ in_tree h rd (p ++ [t]) (child_version c) n key).
  { intros t c n Ht Hc Hn. specialize (Hat t Ht). cbv zeta in Hat. rewrite Hc in Hat. destruct Hat as (n' & Hn' & _ & _ & _ & Hat). rewrite Hn in Hn'. injection Hn' as <-.
    apply IH; [done| |apply Forall_app; by split; [|constructor]]. intros key Hin _. by eapply Hchild. }
  split.
  - cbn [tree_at]. split_and!; [done..|]. intros t Ht. cbv zeta. specialize (Hat t Ht). cbv zeta in Hat. destruct (children i !! t) as [c|] eqn:Hc; [|done].
    destruct Hat as (n & Hn & Hv & Hh & Hty & _). exists n. split_and!; [by eapply Hchild|done..|by eapply Hsub].
  - intros key. cbn [in_tree]. split; (intros [->|(t & c & n & Ht & Hc & Hn & Hin)]; [by left|right]).
    + specialize (Hat t Ht). cbv zeta in Hat. rewrite Hc in Hat. destruct Hat as (n' & Hn' & _). destruct (Hchild t c n' Ht Hc Hn') as [Hrd' _].
      rewrite Hn in Hrd'. injection Hrd' as <-. exists t, c, n. split_and!; [done|done|done|]. by apply (Hsub t c n).
    + exists t, c, n. split_and!; [done|done|by eapply Hchild|]. by apply (Hsub t c n).
Qed.

(** ** Reading a key *)

(** The tree of a version; the empty tree is a [Null] node. *)
Definition has_tree (rd : Reader) (v : Version) (m : state) : Prop :=
  ∃ node, rd (node_at v []) = Ok (Some node) ∧ (node = Node_Null ∧ m = ∅ ∨ tree_at ROOT_NIBBLE_HEIGHT rd [] v m node).

Lemma below_below (k : HashValue) (i j : nat) (m : state) : (j <= i)%nat → below k i (below k j m) = below k i m.
Proof.
  intros Hij. unfold below. rewrite map_filter_filter. apply map_filter_ext. intros h w _. cbn. split; [tauto|]. intros Heq. split; [done|].
  apply (f_equal (take j)) in Heq. by rewrite !take_take Nat.min_l in Heq.
Qed.

Lemma sibling_below (k : HashValue) (i j : nat) (m : state) : (j <= i)%nat → sibling_of k i (below k j m) = sibling_of k i m.
Proof. intros Hij. unfold sibling_of. by rewrite below_below. Qed.

Lemma below_keys (k : HashValue) (i : nat) (m : state) : keys_ok m → keys_ok (below k i m).
Proof. intros Hm h w [Hh _]%map_lookup_filter_Some. by apply (Hm h w). Qed.

(** The leaves of an internal node, as its proofs read them. *)
Lemma tree_leaves_read h rd p v m i :
  tree_at h rd p v m (Node_Internal i) → leaves_read fst (length p) m (children i) rd p.
Proof.
  destruct h as [|h]; [done|]. cbn [tree_at]. intros (_ & _ & Hn & Hat) t c Hc Hleaf. pose proof (Hn t c Hc) as Ht. specialize (Hat t Ht). cbv zeta in Hat.
  rewrite Hc in Hat. destruct Hat as (node & Hrd & _ & _ & Hty & Hat). rewrite (child_is_leaf_type c node Hty) in Hleaf. destruct node as [|[hk hv hi]|]; try done.
  assert (sub (length p) m t = {[hk := (hv, hi)]}) as -> by (by destruct h). by exists hk, (hv, hi), hi.
Qed.

Lemma proof_loop_ok fuel rd k m version depth p v node i sibs :
  keys_ok m → hash_ok k → rd (node_at v p) = Ok (Some node) → tree_at (height p) rd p v (below k i m) node →
  Forall is_nibble p → (length p <= ROOT_NIBBLE_HEIGHT)%nat → (has_prefix p k ∧ i = (4 * length p)%nat) ∨ Node_is_leaf node = true →
  (ROOT_NIBBLE_HEIGHT - length p < fuel)%nat → (i <= LENGTH_IN_BITS)%nat →
  Forall2 (λ j x, in_proof fst (LENGTH_IN_BITS - S j) (sibling_of k j m) x) (seq 0 i) sibs →
  (∀ j, (j < i)%nat → (2 <= size (below k j m))%nat) →
  ∃ proof, proof_loop fuel rd k version depth (node_at v p) (iter_over (unpack k) 0 (length p) ROOT_NIBBLE_HEIGHT) sibs = Ret (Ok (m !! k, proof)) ∧
    proof_for fst k m proof.
Proof.
  intros Hm Hk. revert depth p v node i sibs. induction fuel as [|fuel IH]; intros depth p v node i sibs Hrd Hat Hp Hlen Hpos Hfuel Hi Hsibs Hsize; [lia|].
  cbn [proof_loop]. unfold get_node. rewrite Hrd. cbn [mbind result_bind map_err try].
  assert (Hlsibs : length sibs = i) by (by rewrite -(Forall2_length _ _ _ Hsibs) length_seq).
  destruct node as [internal|[lk lv li]|]; [| |by destruct (height p)].
  - destruct Hpos as [[Hpre ->]|?]; [|done]. assert (Hlt : (length p < ROOT_NIBBLE_HEIGHT)%nat) by (destruct (height p) eqn:E; [done|unfold height in E; lia]).
    assert (Hb : below k (4 * length p) (below k (4 * length p) m) = below k (4 * length p) m) by (by apply below_below).
    rewrite (height_S p (key_nibble k (length p))) // in Hat. pose proof (tree_children _ _ _ _ _ _ Hat) as Hcs.
    rewrite next_over ?length_unpack ?(proj1 Hk) //; [by apply unpack_nibbles, Hk|].
    rewrite lookup_take_lt // unpack_key_nibble //. run.
    destruct (get_child_with_siblings_ok fst (length p) Hlt _ (below_keys k _ m Hm) _ Hcs k Hk Hb internal eq_refl rd p Hp eq_refl v (tree_leaves_read _ _ _ _ _ _ Hat))
      as (t & r & sibs' & Ht & Hget & Hsibs' & Hsize' & Hstop); [apply Hat|]. change (mkNodeKey v (pack p)) with (node_at v p) in Hget.
    rewrite Hget. run. cbn [try]. assert (Hlev : (4 * length p + t <= LENGTH_IN_BITS)%nat) by (unfold LENGTH_IN_BITS, ROOT_NIBBLE_HEIGHT, LENGTH in *; lia).
    assert (Hsibs2 : Forall2 (λ j x, in_proof fst (LENGTH_IN_BITS - S j) (sibling_of k j m) x) (seq 0 (4 * length p + t)) (sibs ++ sibs')).
    { rewrite seq_app. apply Forall2_app; [done|]. apply Forall2_same_length_lookup; split; [by apply Forall2_length in Hsibs'|].
      intros j a x Ha Hx. pose proof (Forall2_lookup_lr _ _ _ _ _ _ Hsibs' Ha Hx) as Hin. cbn in Hin. rewrite sibling_below // in Hin.
      apply lookup_seq in Ha as [-> _]. lia. }
    assert (Hsize2 : ∀ j, (j < 4 * length p + t)%nat → (2 <= size (below k j m))%nat).
    { intros j Hj. destruct (decide (j < 4 * length p)%nat) as [Hj'|Hj']; [by apply Hsize|]. rewrite -(below_below k j (4 * length p)); [lia|]. apply Hsize'. lia. }
    unfold stops_at in Hstop. rewrite below_below in Hstop; [lia|]. destruct r as [key|].
    + destruct Hstop as (n & c & Hc & -> & Hbel & Hwhere). destruct Hat as (_ & _ & Hnk & Hat). pose proof (Hnk n c Hc) as Hn. specialize (Hat n Hn). cbv zeta in Hat.
      rewrite Hc -Hbel in Hat. destruct Hat as (node & Hnode & _ & _ & Hty & Hat). change (mkNodeKey (child_version c) (pack (p ++ [n]))) with (node_at (child_version c) (p ++ [n])).
      replace (S (length p)) with (length (p ++ [n])) by (rewrite length_app /=; lia). eapply IH; [exact Hnode| | | |..]; try done.
      * by replace (height (p ++ [n])) with (height (p ++ [key_nibble k (length p)])) by (unfold height; by rewrite !length_app).
      * apply Forall_app. by split; [|constructor].
      * rewrite length_app /=. lia.
      * destruct Hwhere as [[-> Heq]|Hl]; [left|right; by rewrite -(child_is_leaf_type c)]. rewrite length_app /=. split; [by apply has_prefix_snoc|lia].
      * rewrite length_app /=. lia.
    + eexists. split; [rewrite -(below_lookup_self k (4 * length p + t) m) Hstop; done|]. unfold proof_for. cbn [ext_siblings ext_leaf].
      rewrite length_reverse length_app -(Forall2_length _ _ _ Hsibs') length_seq Hlsibs reverse_involutive. split_and!; [done..|].
      by rewrite (proj2 (shape_Empty _) Hstop).
  - assert (Hone : below k i m = {[lk := (lv, li)]}) by (by destruct (height p)). eexists. split.
    + rewrite -(below_lookup_self k i m) Hone. cbn [account_key leaf_value_hash value_index]. case_bool_decide as Heq.
      * by rewrite Heq lookup_singleton_eq.
      * by rewrite lookup_singleton_ne.
    + unfold proof_for. cbn [ext_siblings ext_leaf]. rewrite length_reverse Hlsibs reverse_involutive. split_and!; [done..|].
      by rewrite (proj2 (shape_One _ lk (lv, li)) Hone).
Qed.

(** Every key of a stored tree is read, with a proof that verifies against the root. *)
Lemma get_with_proof_ext_ok rd v m k :
  keys_ok m → hash_ok k → has_tree rd v m →
  ∃ proof, get_with_proof_ext rd k v = Ret (Ok (m !! k, proof)) ∧ proof_for fst k m proof.
Proof.
  intros Hm Hk (node & Hrd & Hnode). unfold get_with_proof_ext. unfold new_empty_path. change (new_even []) with (Ret (pack [])). run.
  rewrite new_even_pack; [apply Hk|by rewrite (proj1 Hk)|]. run. unfold nibbles. cbn [pack num_nibbles]. change (mkNibblePath (length (unpack k)) (pack_bytes (unpack k))) with (pack (unpack k)).
  assert (Hlen : length (unpack k) = ROOT_NIBBLE_HEIGHT) by (by rewrite length_unpack (proj1 Hk)).
  rewrite NibbleIterator_new_over ?Hlen //; [lia|]. run. change (mkNodeKey v (pack [])) with (node_at v []).
  destruct Hnode as [[-> ->]|Hat].
  - cbn [proof_loop]. unfold get_node. rewrite Hrd. cbn [mbind result_bind map_err try]. eexists. rewrite lookup_empty. split; [done|].
    unfold proof_for. cbn [ext_siblings ext_leaf length]. split_and!; [lia|by constructor|intros; lia|]. by rewrite below_0 (proj2 (shape_Empty _)).
  - apply (proof_loop_ok _ rd k m v 0 [] v node 0 []); try done; [by rewrite below_0|cbn [length]; lia|by left|cbn [length]; lia|lia|intros; lia].
Qed.

Lemma get_with_proof_ok rd v m k :
  keys_ok m → hash_ok k → has_tree rd v m →
  ∃ proof, get_with_proof rd k v = Ret (Ok (m !! k, proof)) ∧ verify_by_hash proof (smt_root fst m) k (fst <$> m !! k) = Ret (Ok tt).
Proof.
  intros Hm Hk Ht. destruct (get_with_proof_ext_ok rd v m k Hm Hk Ht) as (ext & Hget & Hfor). unfold get_with_proof. rewrite Hget. run. cbn [try].
  eexists. split; [done|].
  pose proof (proof_for_verifies fst k m ext Hk Hm Hfor) as Hv. unfold ext_verify_by_hash in Hv. exact Hv.
Qed.

(** Hash and size of the tree of a version. *)
Lemma get_root_ok rd v m :
  keys_ok m → has_tree rd v m →
  get_root_hash rd v = Ret (Ok (smt_root fst m)) ∧ get_leaf_count rd v = Ret (Ok (Z.of_nat (size m))).
Proof.
  intros Hm (node & Hrd & Hnode). unfold get_root_hash, get_leaf_count, get_root_node, new_empty_path. change (new_even []) with (Ret (pack [])). run.
  change (mkNodeKey v (pack [])) with (node_at v []). rewrite Hrd. cbn [try]. run. cbn [try]. destruct Hnode as [[-> ->]|Hat].
  - cbn [Node_hash leaf_count]. run. unfold smt_root. rewrite smt_empty. by rewrite map_size_empty.
  - rewrite (tree_node_hash ROOT_NIBBLE_HEIGHT rd [] v m node) //; [simpl; lia|]. run. split; [done|]. by rewrite (tree_at_count ROOT_NIBBLE_HEIGHT rd [] v m).
Qed.

(** ** Readers that miss nodes *)

(** [x] is [y], or an error. *)
Definition fails_or {A} (x y : comp (result jmt_error A)) : Prop := x = y ∨ ∃ e, x = Ret (Err e).

(** [rd] has nodes of [rd'] only. *)
Definition misses_from (rd rd' : Reader) : Prop := ∀ k, rd k = rd' k ∨ ∃ e, get_node rd k = Err e.

Lemma fails_or_refl {A} (x : comp (result jmt_error A)) : fails_or x x.
Proof. by left. Qed.

Lemma fails_or_bind {A B} (x : comp B) (f g : B → comp (result jmt_error A)) : (∀ b, fails_or (f b) (g b)) → fails_or (x ≫= f) (x ≫= g).
Proof. intros Hf. destruct x as [b|]; [apply Hf|by left]. Qed.

Lemma fails_or_try {A B} (x y : comp (result jmt_error B)) (f g : B → comp (result jmt_error A)) :
  fails_or x y → (∀ b, fails_or (f b) (g b)) → fails_or (x ≫= λ r, try r f) (y ≫= λ r, try r g).
Proof. intros [->|[e ->]] Hf; [|right; by exists e]. destruct y as [[b|e]|]; [apply Hf|by left..]. Qed.

Lemma fails_or_get {A} (rd rd' : Reader) k h (f g : Node → comp (result jmt_error A)) :
  misses_from rd rd' → (∀ n, fails_or (f n) (g n)) → fails_or (try (map_err h (get_node rd k)) f) (try (map_err h (get_node rd' k)) g).
Proof.
  intros Hrd Hf. destruct (Hrd k) as [E|[e E]].
  - unfold get_node. rewrite E. destruct (rd' k) as [[n|]|e]; cbn; [apply Hf|by left..].
  - rewrite E. right. by eexists.
Qed.

Lemma gen_node_in_proof_fails self start width bitmaps (rd rd' : Reader) key :
  misses_from rd rd' → fails_or (gen_node_in_proof self start width bitmaps rd key) (gen_node_in_proof self start width bitmaps rd' key).
Proof.
  intros Hrd. unfold gen_node_in_proof. apply fails_or_bind. intros [e l]. destruct (e =? 0); [by left|]. destruct (_ || _); [|by left].
  apply fails_or_bind. intros i. apply fails_or_bind. intros c. destruct (Child_is_leaf c); [|by left]. apply fails_or_bind. intros ck.
  destruct (Hrd ck) as [E|[er E]]; [left; by unfold get_node; rewrite E|]. rewrite E. right. by eexists.
Qed.

Lemma child_with_siblings_fails h self key n (rd rd' : Reader) bitmaps sibs :
  misses_from rd rd' →
  fails_or (child_with_siblings_loop h self key n (Some rd) bitmaps sibs) (child_with_siblings_loop h self key n (Some rd') bitmaps sibs).
Proof.
  intros Hrd. revert sibs. induction h as [|h IH]; intros sibs; cbn [child_with_siblings_loop]; [by left|].
  destruct (get_child_and_sibling_half_start n (Z.of_nat h)) as [cs ss]. apply fails_or_try; [by apply gen_node_in_proof_fails|]. intros s.
  apply fails_or_bind. intros [e l]. destruct (e =? 0); [by left|]. destruct (_ || _); [by left|apply IH].
Qed.

Lemma proof_loop_fails fuel (rd rd' : Reader) k version depth key iter sibs :
  misses_from rd rd' → fails_or (proof_loop fuel rd k version depth key iter sibs) (proof_loop fuel rd' k version depth key iter sibs).
Proof.
  intros Hrd. revert depth key iter sibs. induction fuel as [|fuel IH]; intros depth key iter sibs; cbn [proof_loop]; [by left|].
  apply fails_or_get; [done|]. intros [i| |]; [|by left..]. apply fails_or_bind. intros [it [q|]]; [|by left].
  apply fails_or_try; [apply fails_or_bind; intros b; by apply child_with_siblings_fails|]. intros [[ck|] s]; [apply IH|by left].
Qed.

(** A read with missing nodes fails, or it is right. *)
Lemma get_with_proof_fails (rd rd' : Reader) k v : misses_from rd rd' → fails_or (get_with_proof rd k v) (get_with_proof rd' k v).
Proof.
  intros Hrd. unfold get_with_proof. apply fails_or_try; [|by left]. unfold get_with_proof_ext. repeat (apply fails_or_bind; intros ?). by apply proof_loop_fails.
Qed.
End tree.
