(* ===== verification/JellyfishUpdate.v ===== *)
(** * Updates of the tree are exact

    For a well-formed tree and any set of updates, [batch_put_value_set] returns the root
    hash of the updated state; writing its nodes makes the tree of the new version, the
    tree of the old version stays what it was, and the nodes it calls stale are exactly
    those the new tree does not share. *)
From S2P Require Import Prelude U64 NibblePath SparseMerkle JmtNode JellyfishMerkle JellyfishTree.
Local Open Scope Z_scope.
Local Open Scope rust_scope.

(** ** Ranges of keys *)

Section ranges.
Context {A : Type} (kvs : list (HashValue * A)) (d : nat) (Hd : (d < ROOT_NIBBLE_HEIGHT)%nat).
Context (Hok : Forall (λ kv, hash_ok kv.1) kvs).
Let nib (kv : HashValue * A) : Z := key_nibble kv.1 d.
Context (Hmono : ∀ i j a b, (i <= j)%nat → kvs !! i = Some a → kvs !! j = Some b → nib a ≤ nib b).

Lemma nib_Ret i a : kvs !! i = Some a → nibble a.1 d = Ret (nib a).
Proof. intros Hi. apply nibble_Ret; [|done]. exact (Forall_lookup_1 _ _ _ _ Hok Hi). Qed.

Lemma last_index_ok fuel i j a :
  (j - i <= fuel)%nat → (i <= j < length kvs)%nat → kvs !! i = Some a →
  ∃ r b, last_index fuel kvs d (nib a) i j = Ret r ∧ (i <= r <= j)%nat ∧ kvs !! r = Some b ∧ nib b = nib a ∧
    ∀ x c, (r < x <= j)%nat → kvs !! x = Some c → nib a < nib c.
Proof.
  revert i j a. induction fuel as [|fuel IH]; intros i j a Hf Hij Ha; cbn [last_index].
  - destruct (Nat.ltb_spec i j); [lia|]. exists i, a. split_and!; [done|lia|lia|done|done|]. intros x c Hx. lia.
  - destruct (Nat.ltb_spec i j) as [Hlt|]; [|exists i, a; split_and!; [done|lia|lia|done|done|]; intros x c Hx; lia].
    set (mid := (j - (j - i) / 2)%nat). assert (Hmid : (i < mid <= j)%nat).
    { subst mid. pose proof (Nat.div_lt (j - i) 2). lia. }
    destruct (lookup_lt_is_Some_2 kvs mid ltac:(lia)) as [m Hm]. rewrite Hm. cbn [expect]. run. rewrite (nib_Ret mid) //. run.
    destruct (Z.ltb_spec (nib a) (nib m)) as [Hgt|Hle].
    + destruct (IH i (mid - 1)%nat a) as (r & b & -> & Hr & Hb & Hnb & Hrest); [lia|lia|done|].
      exists r, b. split_and!; [done|lia|lia|done|done|]. intros x c Hx Hc. destruct (decide (x <= mid - 1)%nat); [apply (Hrest x); [lia|done]|].
      apply Z.lt_le_trans with (nib m); [done|]. apply (Hmono mid x); [lia|done..].
    + assert (Heq : nib m = nib a) by (pose proof (Hmono i mid a m ltac:(lia) Ha Hm); lia).
      destruct (IH mid j m) as (r & b & Hl & Hr & Hb & Hnb & Hrest); [lia|lia|done|]. rewrite -Heq.
      exists r, b. split_and!; [done|lia|lia|done|done|done].
Qed.

Lemma filter_slice (P : HashValue * A → Prop) `{∀ x, Decision (P x)} lo hi :
  (∀ i a, kvs !! i = Some a → P a ↔ (lo <= i <= hi)%nat) → filter P kvs = slice kvs lo hi.
Proof.
  intros HP. unfold slice. rewrite -{1}(take_drop lo kvs) -{1}(take_drop (S hi - lo) (drop lo kvs)) !filter_app.
  rewrite (list_filter_none P (take lo kvs)) ?(list_filter_none P (drop (S hi - lo) (drop lo kvs))) ?list_filter_all ?app_nil_r //.
  all: apply Forall_lookup_2; intros i a Hi.
  - rewrite lookup_take_Some in Hi. destruct Hi as [Hi Hlt]. rewrite (HP i a Hi). lia.
  - rewrite drop_drop lookup_drop in Hi. rewrite (HP _ a Hi). lia.
  - apply lookup_take_Some in Hi as [Hi Hlt]. rewrite lookup_drop in Hi. apply (HP _ a Hi). lia.
Qed.

(** What the ranges from a position on are: one for each nibble that is left, with all
    the keys that have it. *)
Definition range_of (r : nat * nat) (n : Z) : Prop :=
  ∃ a, kvs !! r.1 = Some a ∧ nib a = n ∧ slice kvs r.1 r.2 = filter (λ kv, key_nibble kv.1 d = n) kvs.

Lemma ranges_from_ok fuel pos :
  (length kvs - pos <= fuel)%nat → (∀ i j a b, (i < pos)%nat → (pos <= j)%nat → kvs !! i = Some a → kvs !! j = Some b → nib a < nib b) →
  ∃ rs ns, ranges_from fuel kvs d pos = Ret rs ∧ Forall2 range_of rs ns ∧ NoDup ns ∧
    ∀ n, n ∈ ns ↔ ∃ i a, (pos <= i)%nat ∧ kvs !! i = Some a ∧ nib a = n.
Proof.
  revert pos. induction fuel as [|fuel IH]; intros pos Hf Hbefore; cbn [ranges_from]; unfold NibbleRangeIterator_next.
  all: destruct (Nat.ltb_spec pos (length kvs)) as [Hlt|Hge]; [|run; exists [], []; split_and!; [done|by apply Forall2_nil|apply NoDup_nil_2|];
    intros n; split; [by intros ?%elem_of_nil|intros (i & a & Hi & Ha & _); apply lookup_lt_Some in Ha; lia]].
  { lia. }
  destruct (lookup_lt_is_Some_2 kvs pos Hlt) as [a Ha]. rewrite Ha. cbn [expect]. run. rewrite (nib_Ret pos) //. run.
  destruct (last_index_ok (length kvs) pos (length kvs - 1) a) as (r & b & -> & Hr & Hb & Hnb & Hafter); [lia|lia|done|]. run.
  assert (Hnext : ∀ x c, (r < x)%nat → kvs !! x = Some c → nib a < nib c).
  { intros x c Hx Hc. apply (Hafter x); [|done]. apply lookup_lt_Some in Hc. lia. }
  assert (Hin : ∀ x c, (pos <= x <= r)%nat → kvs !! x = Some c → nib c = nib a).
  { intros x c Hx Hc. pose proof (Hmono pos x a c ltac:(lia) Ha Hc). pose proof (Hmono x r c b ltac:(lia) Hc Hb). lia. }
  destruct (IH (S r)) as (rs & ns & -> & Hrs & Hnd & Hns); [lia| |].
  { intros i j x y Hi Hj Hx Hy. specialize (Hnext j y ltac:(lia) Hy). destruct (decide (pos <= i)%nat) as [Hp|Hp].
    - rewrite (Hin i x) //. lia.
    - pose proof (Hbefore i pos x a ltac:(lia) ltac:(lia) Hx Ha). lia. }
  run. exists ((pos, r) :: rs), (nib a :: ns). split_and!; [done| | |].
  - constructor; [|done]. exists a. split_and!; [done..|]. cbn [fst snd]. symmetry. apply filter_slice. intros i x Hx. split.
    + intros Hnx. destruct (decide (i < pos)%nat) as [Hp|Hp]; [pose proof (Hbefore i pos x a Hp ltac:(lia) Hx Ha); unfold nib in *; lia|].
      destruct (decide (r < i)%nat) as [Hp'|Hp']; [pose proof (Hnext i x Hp' Hx); unfold nib in *; lia|lia].
    + intros Hi. by apply (Hin i x).
  - constructor; [|done]. rewrite Hns. intros (i & x & Hi & Hx & Hnx). specialize (Hnext i x ltac:(lia) Hx). lia.
  - intros n. rewrite elem_of_cons Hns. split.
    + intros [->|(i & x & Hi & Hx & Hnx)]; [exists pos, a; by split|exists i, x; split; [lia|done]].
    + intros (i & x & Hi & Hx & Hnx). destruct (decide (i <= r)%nat); [left; rewrite -Hnx; apply (Hin i); [lia|done]|right]. exists i, x. split; [lia|done].
Qed.

Lemma nibble_ranges_ok :
  ∃ rs ns, nibble_ranges kvs d = Ret rs ∧ Forall2 range_of rs ns ∧ NoDup ns ∧ ∀ n, n ∈ ns ↔ ∃ kv, kv ∈ kvs ∧ key_nibble kv.1 d = n.
Proof.
  unfold nibble_ranges. rewrite (proj2 (Nat.ltb_lt _ _) Hd). run.
  destruct (ranges_from_ok (length kvs) 0) as (rs & ns & Hrs & Hall & Hnd & Hns); [lia|intros; lia|]. exists rs, ns. split_and!; [done..|].
  intros n. rewrite Hns. split.
  - intros (i & a & _ & Ha & Hn). exists a. split; [by apply list_elem_of_lookup_2 in Ha|done].
  - intros (a & [i Ha]%list_elem_of_lookup & Hn). exists i, a. split; [lia|done].
Qed.
End ranges.

(** ** What a batch gains *)

Section batches.
Context {K : Type} (version : Version).
Local Notation entry := (NodeKey * Node K)%type.
Implicit Types b : TreeUpdateBatch (K := K).

Definition leaves (l : list entry) : nat := length (filter (λ x, Node_is_leaf x.2 = true) l).

Definition stale_entry (x : entry) : StaleNodeIndex := mkStaleNodeIndex version x.1.

(** From [b] to [b'], [adds] are written and [stales] are not used any more; the order is
    not the one of the calls, as parts are built in parallel. *)
Record grows (b b' : TreeUpdateBatch) (adds stales : list entry) : Prop := {
  grows_nodes : concat (node_batch b') ≡ₚ concat (node_batch b) ++ adds;
  grows_stale : concat (stale_node_index_batch b') ≡ₚ concat (stale_node_index_batch b) ++ (stale_entry <$> stales);
  grows_new_leaves : num_new_leaves b' = (num_new_leaves b + leaves adds)%nat;
  grows_stale_leaves : num_stale_leaves b' = (num_stale_leaves b + leaves stales)%nat;
  grows_slots : node_batch b ≠ [] → stale_node_index_batch b ≠ [] → node_batch b' ≠ [] ∧ stale_node_index_batch b' ≠ [];
}.

(** The methods push to the first vector. *)
Definition has_slots b : Prop := node_batch b ≠ [] ∧ stale_node_index_batch b ≠ [].

Lemma leaves_nil : leaves [] = 0%nat.
Proof. done. Qed.

Lemma leaves_one key n : leaves [(key, n)] = if Node_is_leaf n then 1%nat else 0%nat.
Proof. unfold leaves. rewrite filter_cons /=. by destruct (Node_is_leaf n). Qed.

Lemma leaves_app l l' : leaves (l ++ l') = (leaves l + leaves l')%nat.
Proof. unfold leaves. by rewrite filter_app length_app. Qed.

Lemma leaves_perm l l' : l ≡ₚ l' → leaves l = leaves l'.
Proof. intros Hl. unfold leaves. by rewrite Hl. Qed.

Lemma grows_refl b : grows b b [] [].
Proof. split; rewrite ?app_nil_r ?leaves_nil //; lia. Qed.

Lemma grows_trans b1 b2 b3 a1 a2 s1 s2 : grows b1 b2 a1 s1 → grows b2 b3 a2 s2 → grows b1 b3 (a1 ++ a2) (s1 ++ s2).
Proof.
  intros [N1 S1 L1 M1 B1] [N2 S2 L2 M2 B2]. split.
  - rewrite N2 N1. by rewrite app_assoc.
  - rewrite S2 S1 fmap_app. by rewrite app_assoc.
  - rewrite L2 L1 leaves_app. lia.
  - rewrite M2 M1 leaves_app. lia.
  - intros H1 H2. destruct (B1 H1 H2). by apply B2.
Qed.

Lemma grows_perm b b' a a' s s' : a ≡ₚ a' → s ≡ₚ s' → grows b b' a s → grows b b' a' s'.
Proof.
  intros Ha Hs [N S L M B]. split; [by rewrite -Ha|by rewrite -Hs|by rewrite -(leaves_perm _ _ Ha)|by rewrite -(leaves_perm _ _ Hs)|done].
Qed.

Lemma grows_has_slots b b' a s : grows b b' a s → has_slots b → has_slots b'.
Proof. intros [_ _ _ _ B] [H1 H2]. by apply B. Qed.

Lemma put_node_grows b key n : has_slots b → ∃ b', put_node b key n = Ret b' ∧ grows b b' [(key, n)] [].
Proof.
  intros [H1 H2]. unfold put_node. destruct (node_batch b) as [|l v] eqn:E; [done|]. cbn [push_first]. run. eexists. split; [done|]. split; cbn [node_batch stale_node_index_batch num_new_leaves num_stale_leaves]; rewrite ?E ?app_nil_r ?leaves_nil //; try lia.
  - cbn. rewrite -!app_assoc. f_equiv. apply Permutation_app_comm.
  - rewrite leaves_one. destruct (Node_is_leaf n); lia.
Qed.

Lemma put_stale_grows b key n : has_slots b → ∃ b', put_stale_node b key version n = Ret b' ∧ grows b b' [] [(key, n)].
Proof.
  intros [H1 H2]. unfold put_stale_node. destruct (stale_node_index_batch b) as [|l v] eqn:E; [done|]. cbn [push_first]. run. eexists. split; [done|]. split; cbn [node_batch stale_node_index_batch num_new_leaves num_stale_leaves]; rewrite ?E ?app_nil_r ?leaves_nil //; try lia.
  - cbn. rewrite -!app_assoc. f_equiv. apply Permutation_app_comm.
  - rewrite leaves_one. destruct (Node_is_leaf n); lia.
Qed.

Lemma new_has_slots : has_slots TreeUpdateBatch_new.
Proof. done. Qed.

Lemma combine_grows b b' a s : grows TreeUpdateBatch_new b' a s → grows b (combine b b') a s.
Proof.
  intros [N S L M B]. cbn in *. split; cbn.
  - by rewrite concat_app N.
  - by rewrite concat_app S.
  - by rewrite L.
  - by rewrite M.
  - intros H1 H2. by destruct (node_batch b), (stale_node_index_batch b).
Qed.
End batches.

(** ** Counting leaves *)

Lemma usize_sum_ok (l : list nat) (acc : nat) :
  Z.of_nat (acc + sum_list l) < 2 ^ 64 →
  foldl (λ acc x, a ← acc; u64_add a x) (Ret (Z.of_nat acc)) (Z.of_nat <$> l) = Ret (Z.of_nat (acc + sum_list l)).
Proof.
  revert acc. induction l as [|x l IH]; intros acc Hb; cbn [fmap list_fmap foldl].
  - by rewrite Nat.add_0_r.
  - change (sum_list (x :: l)) with (x + sum_list l)%nat in *. run. rewrite u64_add_Ret; [unfold u64_max; lia|]. rewrite -Nat2Z.inj_add IH; [lia|]. do 2 f_equal. lia.
Qed.

Section count.
Context {V : Type} (d : nat) (m : gmap HashValue V).

Lemma size_subs (ts : list Z) :
  NoDup ts → size (filter (λ kv, key_nibble kv.1 d ∈ ts) m) = sum_list ((λ t, size (sub d m t)) <$> ts).
Proof.
  induction 1 as [|t ts Ht Hnd IH]; cbn [fmap list_fmap].
  - apply map_size_empty_iff, map_empty. intros k. apply map_lookup_filter_None. right. by intros v _ ?%elem_of_nil.
  - change (sum_list (size (sub d m t) :: ?l)) with (size (sub d m t) + sum_list l)%nat. rewrite -IH -map_size_disj_union.
    + apply map_disjoint_spec. intros k v w [_ Hv]%sub_lookup [_ Hw]%map_lookup_filter_Some. cbn in Hw. by subst.
    + f_equal. apply map_eq. intros k. apply option_eq. intros v. rewrite lookup_union_Some.
      * apply map_disjoint_spec. intros k' v' w [_ Hv]%sub_lookup [_ Hw]%map_lookup_filter_Some. cbn in Hw. by subst.
      * rewrite sub_lookup !map_lookup_filter_Some /= elem_of_cons. naive_solver.
Qed.

Context (cs : gmap Z Child) (Hm : keys_ok m) (Hcs : nibble_keys cs).
Context (Hsub : ∀ t, is_nibble t → match cs !! t with None => sub d m t = ∅ | Some c => Child_leaf_count c = Ret (Z.of_nat (size (sub d m t))) end).

Lemma size_children : size m = sum_list ((λ t, size (sub d m t)) <$> (map_to_list cs).*1).
Proof.
  rewrite -size_subs; [apply NoDup_fst_map_to_list|]. f_equal. symmetry. apply map_filter_id. intros k v Hk. cbn.
  pose proof (key_nibble_ok k d (Hm k v Hk)) as Hn. pose proof (Hsub _ Hn) as E0. destruct (cs !! key_nibble k d) as [c|] eqn:Hc.
  - apply list_elem_of_fmap. exists (key_nibble k d, c). split; [done|]. by apply elem_of_map_to_list.
  - exfalso. assert (sub d m (key_nibble k d) !! k = Some v) as E by (by apply sub_lookup). by rewrite E0 lookup_empty in E.
Qed.

Lemma counts_children :
  mapM Child_leaf_count (values cs) = Ret (Z.of_nat <$> ((λ t, size (sub d m t)) <$> (map_to_list cs).*1)).
Proof.
  unfold values. assert (Hall : ∀ t c, (t, c) ∈ map_to_list cs → Child_leaf_count c = Ret (Z.of_nat (size (sub d m t)))).
  { intros t c Hc%elem_of_map_to_list. pose proof (Hsub t (Hcs t c Hc)) as E. by rewrite Hc in E. }
  induction (map_to_list cs) as [|[t c] l IH]; [done|]. cbn [fmap list_fmap fst snd mapM]. rewrite (Hall t c); [by left|]. run.
  rewrite IH; [intros t' c' Hc; apply Hall; by right|]. by run.
Qed.

Lemma InternalNode_new_ok :
  (2 <= size m)%nat → Z.of_nat (size m) < 2 ^ 64 → InternalNode_new cs = Ret (mkInternalNode cs (Z.of_nat (size m))).
Proof.
  intros H2 Hb. unfold InternalNode_new, InternalNode_new_impl. pose proof counts_children as Hcounts. pose proof size_children as Hs.
  assert (Hlen : length (values cs) = length ((λ t, size (sub d m t)) <$> (map_to_list cs).*1)) by (unfold values; by rewrite !length_fmap).
  destruct (values cs) as [|c rest] eqn:E.
  { destruct ((λ t, size (sub d m t)) <$> (map_to_list cs).*1) as [|x l]; [|done]. cbn in Hs. lia. }
  assert ((length rest =? 0)%nat && Child_is_leaf c = false) as ->.
  { destruct rest as [|]; [|done]. destruct (Child_is_leaf c) eqn:Hl; [|done]. exfalso.
    destruct ((λ t, size (sub d m t)) <$> (map_to_list cs).*1) as [|x [|]]; try done. cbn in Hs. cbn [mapM fmap list_fmap] in Hcounts.
    unfold Child_is_leaf in Hl. unfold Child_leaf_count in Hcounts. destruct (child_type c); try done. injection Hcounts as ?. lia. }
  rewrite Hcounts. run. unfold usize_sum. change (Ret 0) with (Ret (Z.of_nat 0)). rewrite usize_sum_ok; [cbn; lia|]. run. cbn [expect_ok]. do 2 f_equal. lia.
Qed.
End count.

(** ** Parts of the new tree *)

Section pieces.
Context {SH : SparseMerkleHashers} {K : Type}.
Local Notation Node := (Node K).
Local Notation Reader := (TreeReader K).
Local Notation entry := (NodeKey * Node)%type.
Local Notation state := (gmap HashValue (HashValue * (K * Version))).
Implicit Types (Old : NodeKey → Prop) (adds stales : list entry).

(** The reader and the version of the update, and the state after it. *)
Context (rd : Reader) (version : Version) (M' : state) (HM' : keys_ok M') (Hbound : Z.of_nat (size M') < 2 ^ 64).

(** The nodes a part writes are of this version and below [p]. *)
Definition written (p : list Z) adds : Prop :=
  NoDup adds.*1 ∧ ∀ k x, (k, x) ∈ adds → nk_version k = version ∧ under p k.

(** The nodes it stops using are among the old ones. *)
Definition unused Old stales : Prop := NoDup stales.*1 ∧ ∀ k x, (k, x) ∈ stales → Old k ∧ rd k = Ok (Some x).

Definition extends (rd' : Reader) adds : Prop := ∀ k x, (k, x) ∈ adds → rd' k = Ok (Some x).
Definition keeps (rd' : Reader) Old stales : Prop := ∀ k, Old k → k ∉ stales.*1 → rd' k = rd k.

(** [n] is the root of the new tree below [p], in place of the tree with the nodes [Old]:
    for any reader with the new nodes and the old ones that are still used. *)
Record subtree Old (p : list Z) (n : Node) adds stales : Prop := {
  st_written : written p adds;
  st_below : ∀ k x, (k, x) ∈ adds → ∃ t, under (p ++ [t]) k;
  st_unused : unused Old stales;
  st_leaf : Node_is_leaf n = true → adds = [] ∧ ∀ k, Old k → k ∈ stales.*1;
  st_tree : ∀ rd', extends rd' adds → keeps rd' Old stales →
    tree_at (height p) rd' p version (restrict p M') n ∧
    ∀ k, in_tree (height p) rd' p version n k ↔ k = node_at version p ∨ k ∈ adds.*1 ∨ (Old k ∧ k ∉ stales.*1);
}.

(** What becomes of a subtree: nothing is left, or there is a new root. *)
Definition replaced Old (p : list Z) (o : option Node) adds stales : Prop :=
  match o with
  | Some n => subtree Old p n adds stales
  | None => restrict p M' = ∅ ∧ adds = [] ∧ unused Old stales ∧ ∀ k, Old k → k ∈ stales.*1
  end.

(** The child [t] of a new internal node at [p]. *)
Record slot_ok (p : list Z) Old (t : Z) (oc : option Child) adds stales : Prop := {
  slot_written : written (p ++ [t]) adds;
  slot_unused : unused Old stales;
  slot_old : ∀ k, Old k → under (p ++ [t]) k;
  slot_child :
    match oc with
    | None => restrict (p ++ [t]) M' = ∅ ∧ adds = [] ∧ ∀ k, Old k → k ∈ stales.*1
    | Some c =>
        child_version c ≤ version ∧ child_hash c = path_hash (p ++ [t]) (restrict (p ++ [t]) M') ∧
        Child_leaf_count c = Ret (Z.of_nat (size (restrict (p ++ [t]) M'))) ∧
        ∃ n, child_type c = node_type n ∧
          ∀ rd', extends rd' adds → keeps rd' Old stales →
            rd' (node_at (child_version c) (p ++ [t])) = Ok (Some n) ∧
            tree_at (height (p ++ [t])) rd' (p ++ [t]) (child_version c) (restrict (p ++ [t]) M') n ∧
            ∀ k, in_tree (height (p ++ [t])) rd' (p ++ [t]) (child_version c) n k ↔ k ∈ adds.*1 ∨ (Old k ∧ k ∉ stales.*1)
    end;
}.

(** There is such a reader. *)
Lemma reader_exists p Old adds stales :
  (∀ k, Old k → nk_version k < version) → written p adds → ∃ rd', extends rd' adds ∧ keeps rd' Old stales.
Proof.
  intros Hold [Hnd Hw]. exists (λ k, match (list_to_map adds : gmap NodeKey Node) !! k with Some n => Ok (Some n) | None => rd k end). split.
  - intros k x Hx. by rewrite (proj1 (elem_of_list_to_map adds k x Hnd) Hx).
  - intros k Hk _. destruct (list_to_map adds !! k) as [x|] eqn:E; [|done]. apply (elem_of_list_to_map_2 adds) in E.
    apply Hw in E as [E _]. apply Hold in Hk. lia.
Qed.

Lemma child_leaf_count_ok h rd' p v m c (n : Node) :
  child_type c = node_type n → tree_at h rd' p v m n → Child_leaf_count c = Ret (Z.of_nat (size m)).
Proof.
  intros Hty Hat. unfold Child_leaf_count. rewrite Hty -(tree_at_count _ _ _ _ _ _ Hat). by destruct n; [..|destruct h].
Qed.

Lemma subtree_hash Old p n adds stales :
  (∀ k, Old k → nk_version k < version) → (length p <= ROOT_NIBBLE_HEIGHT)%nat → subtree Old p n adds stales →
  Node_hash n = Ret (path_hash p (restrict p M')).
Proof.
  intros Hold Hp Hst. destruct (reader_exists p Old adds stales Hold (st_written _ _ _ _ _ Hst)) as (rd' & He & Hk).
  destruct (st_tree _ _ _ _ _ Hst rd' He Hk) as [Hat _]. eapply tree_node_hash; [by apply restrict_keys|done|reflexivity|done].
Qed.

Lemma subtree_leaf Old p n adds stales :
  (∀ k, Old k → nk_version k < version) → subtree Old p n adds stales → Node_is_leaf n = true ↔ size (restrict p M') = 1%nat.
Proof.
  intros Hold Hst. destruct (reader_exists p Old adds stales Hold (st_written _ _ _ _ _ Hst)) as (rd' & He & Hk).
  destruct (st_tree _ _ _ _ _ Hst rd' He Hk) as [Hat _]. by eapply tree_at_leaf.
Qed.

Lemma subtree_nonempty Old p n adds stales :
  (∀ k, Old k → nk_version k < version) → subtree Old p n adds stales → restrict p M' ≠ ∅.
Proof.
  intros Hold Hst. destruct (reader_exists p Old adds stales Hold (st_written _ _ _ _ _ Hst)) as (rd' & He & Hk).
  destruct (st_tree _ _ _ _ _ Hst rd' He Hk) as [Hat _]. by eapply tree_at_nonempty.
Qed.

(** The child of a new internal node for a new root below it. *)
Definition new_child (p : list Z) (t : Z) (n : Node) : Child :=
  mkChild (path_hash (p ++ [t]) (restrict (p ++ [t]) M')) version (node_type n).

Lemma under_self p v : Forall is_nibble p → under p (node_at v p).
Proof. intros Hp. exists []. by rewrite app_nil_r. Qed.

Lemma slot_new p Old t n adds stales :
  Forall is_nibble (p ++ [t]) → (∀ k, Old k → nk_version k < version ∧ under (p ++ [t]) k) → subtree Old (p ++ [t]) n adds stales →
  slot_ok p Old t (Some (new_child p t n)) ((node_at version (p ++ [t]), n) :: adds) stales.
Proof.
  intros Hp Hold Hst. pose proof (st_written _ _ _ _ _ Hst) as Hw. split; [| |by apply Hold|].
  - split.
    + cbn. constructor; [|apply Hw]. intros ([k x] & E & Hx)%list_elem_of_fmap. cbn in E. subst k.
      destruct (st_below _ _ _ _ _ Hst _ _ Hx) as [t' Hu]. by eapply not_under_self.
    + intros k x [[= -> ->]|Hx]%elem_of_cons; [|by apply (proj2 Hw k x)]. split; [done|]. by apply under_self.
  - apply Hst.
  - cbn [child_version child_hash new_child]. destruct (reader_exists (p ++ [t]) Old adds stales) as (rd' & He & Hk); [intros k Hk; by apply Hold|done|].
    destruct (st_tree _ _ _ _ _ Hst rd' He Hk) as [Hat _]. split_and!; [done|done|by eapply child_leaf_count_ok|].
    exists n. split; [done|]. clear dependent rd'. intros rd' He Hk. split; [apply He; by left|].
    destruct (st_tree _ _ _ _ _ Hst rd') as [Hat' Hin]; [intros k x Hx; apply He; by right|done|]. split; [done|].
    intros k. rewrite Hin fmap_cons elem_of_cons. tauto.
Qed.

Lemma slot_kept p Old t c n m :
  Forall is_nibble (p ++ [t]) → restrict (p ++ [t]) M' = m → child_version c ≤ version →
  rd (node_at (child_version c) (p ++ [t])) = Ok (Some n) → child_hash c = path_hash (p ++ [t]) m → child_type c = node_type n →
  tree_at (height (p ++ [t])) rd (p ++ [t]) (child_version c) m n →
  (∀ k, Old k ↔ in_tree (height (p ++ [t])) rd (p ++ [t]) (child_version c) n k) →
  slot_ok p Old t (Some c) [] [].
Proof.
  intros Hp Hm Hv Hrd Hh Hty Hat Hold. rewrite -Hm in Hh Hat. split.
  - split; [constructor|]. by intros k x ?%elem_of_nil.
  - split; [constructor|]. by intros k x ?%elem_of_nil.
  - intros k Hk%Hold. by eapply in_tree_under.
  - split_and!; [done|done|by eapply child_leaf_count_ok|]. exists n. split; [done|]. intros rd' _ Hk.
    assert (Hall : ∀ k, in_tree (height (p ++ [t])) rd (p ++ [t]) (child_version c) n k → rd' k = rd k).
    { intros k Hin. apply Hk; [by apply Hold|apply not_elem_of_nil]. }
    destruct (tree_frame _ rd rd' _ _ _ _ Hat) as [Hat' Hin']; [intros k Hin _; by apply Hall|done|].
    split_and!; [rewrite -Hrd; apply Hall, in_tree_root|done|]. intros k. rewrite Hin' -Hold. split.
    + intros Ho. right. split; [done|apply not_elem_of_nil].
    + by intros [?%elem_of_nil|[Ho _]].
Qed.

(** A leaf in place of a tree. *)
Lemma leaf_subtree Old p (l : LeafNode K) stales :
  restrict p M' = {[account_key l := (leaf_value_hash l, value_index l)]} → unused Old stales → (∀ k, Old k → k ∈ stales.*1) →
  subtree Old p (Node_Leaf l) [] stales.
Proof.
  intros Hm Hu Hall. split; [| |done|done|].
  - split; [constructor|]. by intros k x ?%elem_of_nil.
  - by intros k x ?%elem_of_nil.
  - intros rd' _ _. split; [by destruct (height p)|]. intros k. transitivity (k = node_at version p).
    + destruct (height p); cbn; tauto.
    + split; [by left|]. intros [?|[?%elem_of_nil|[Ho Hn]]]; [done..|]. by apply Hall in Ho.
Qed.

Lemma subtree_leaf_inv Old p (l : LeafNode K) adds stales :
  (∀ k, Old k → nk_version k < version) → subtree Old p (Node_Leaf l) adds stales →
  restrict p M' = {[account_key l := (leaf_value_hash l, value_index l)]} ∧ adds = [] ∧ unused Old stales ∧ ∀ k, Old k → k ∈ stales.*1.
Proof.
  intros Hold Hst. destruct (reader_exists p Old adds stales Hold (st_written _ _ _ _ _ Hst)) as (rd' & He & Hk).
  destruct (st_tree _ _ _ _ _ Hst rd' He Hk) as [Hat _]. destruct (st_leaf _ _ _ _ _ Hst eq_refl) as [-> Hall].
  split_and!; [by destruct (height p)|done|apply Hst|done].
Qed.

Lemma subtree_many Old p n adds stales :
  (∀ k, Old k → nk_version k < version) → subtree Old p n adds stales → Node_is_leaf n = false → (2 <= size (restrict p M'))%nat.
Proof.
  intros Hold Hst Hn. pose proof (subtree_nonempty _ _ _ _ _ Hold Hst) as Hne%map_size_non_empty_iff. pose proof (subtree_leaf _ _ _ _ _ Hold Hst) as Hl.
  assert (size (restrict p M') ≠ 1%nat) by (rewrite -Hl Hn; done). lia.
Qed.

(** *** The children of a path *)

Section children_of_path.
Context (p : list Z) (Hlen : (length p < ROOT_NIBBLE_HEIGHT)%nat).

Lemma child_state k v : restrict p M' !! k = Some v → is_nibble (key_nibble k (length p)) ∧ restrict (p ++ [key_nibble k (length p)]) M' !! k = Some v.
Proof.
  intros [Hk Hp]%restrict_lookup. pose proof (HM' k v Hk) as Hok. split; [by apply key_nibble_ok|]. apply restrict_lookup. split; [done|]. by apply has_prefix_snoc.
Qed.

Lemma child_in t k v : restrict (p ++ [t]) M' !! k = Some v → restrict p M' !! k = Some v ∧ key_nibble k (length p) = t.
Proof.
  intros [Hk Hp]%restrict_lookup. pose proof (HM' k v Hk) as Hok. apply has_prefix_snoc in Hp as [Hp Ht]; [|done..]. split; [|done]. by apply restrict_lookup.
Qed.

Lemma child_size t : (size (restrict (p ++ [t]) M') <= size (restrict p M'))%nat.
Proof. apply map_subseteq_size. apply map_subseteq_spec. intros k v Hk. by apply (child_in t). Qed.

Lemma none_here : (∀ t, is_nibble t → restrict (p ++ [t]) M' = ∅) → restrict p M' = ∅.
Proof.
  intros Hall. apply map_empty. intros k. destruct (restrict p M' !! k) as [v|] eqn:Hk; [|done]. apply child_state in Hk as [Ht Hk].
  by rewrite Hall in Hk.
Qed.

Lemma only_here t : (∀ t', is_nibble t' → t' ≠ t → restrict (p ++ [t']) M' = ∅) → restrict p M' = restrict (p ++ [t]) M'.
Proof.
  intros Hall. apply map_eq. intros k. apply option_eq. intros v. split; [|intros Hk; by apply (child_in t)].
  intros Hk. apply child_state in Hk as [Ht Hk]. destruct (decide (key_nibble k (length p) = t)) as [<-|Hne]; [done|]. by rewrite Hall in Hk.
Qed.

Lemma two_here t t' : t ≠ t' → restrict (p ++ [t]) M' ≠ ∅ → restrict (p ++ [t']) M' ≠ ∅ → (2 <= size (restrict p M'))%nat.
Proof.
  intros Hne (k & v & Hk)%map_choose (k' & v' & Hk')%map_choose. apply child_in in Hk as [Hk Ht], Hk' as [Hk' Ht'].
  apply (size_two _ k k'); [by rewrite Hk|by rewrite Hk'|]. intros ->. congruence.
Qed.
End children_of_path.

(** *** Disjoint slots *)

(** The entries of the slot [t] of [L]; a slot that is not listed has none. *)
Definition slot_of (L : list (Z * list entry)) (t : Z) (a : list entry) : Prop := (t, a) ∈ L ∨ t ∉ L.*1 ∧ a = [].

Lemma elem_of_concat (L : list (Z * list entry)) x : x ∈ concat L.*2 ↔ ∃ t a, (t, a) ∈ L ∧ x ∈ a.
Proof.
  induction L as [|[t a] L IH]; cbn [fmap list_fmap concat fst snd].
  - split; [by intros ?%elem_of_nil|intros (t & a & ?%elem_of_nil & _); done].
  - rewrite elem_of_app IH. split.
    + intros [Hk|(t' & a' & Hin & Hk)]; [exists t, a; split; [by left|done]|exists t', a'; split; [by right|done]].
    + intros (t' & a' & [[= -> ->]|Hin]%elem_of_cons & Hk); [by left|right; by exists t', a'].
Qed.

Lemma elem_of_slots (L : list (Z * list entry)) k : k ∈ (concat L.*2).*1 ↔ ∃ t a, (t, a) ∈ L ∧ k ∈ a.*1.
Proof.
  rewrite list_elem_of_fmap. split.
  - intros (x & -> & (t & a & Hin & Hx)%elem_of_concat). exists t, a. split; [done|]. apply list_elem_of_fmap. by exists x.
  - intros (t & a & Hin & (x & -> & Hx)%list_elem_of_fmap). exists x. split; [done|]. apply elem_of_concat. by exists t, a.
Qed.

Section slots.
Context (p : list Z) (L : list (Z * list entry)) (HL : NoDup L.*1).
Context (Hunder : ∀ t a k, (t, a) ∈ L → k ∈ a.*1 → under (p ++ [t]) k).

Lemma slots_key t a k : slot_of L t a → under (p ++ [t]) k → k ∈ (concat L.*2).*1 ↔ k ∈ a.*1.
Proof.
  intros Hslot Hk. rewrite elem_of_slots. split.
  - intros (t' & a' & Hin & Hk'). assert (t' = t) as -> by (eapply under_disjoint; [by eapply Hunder|done]).
    destruct Hslot as [Hin'|[Hnin ->]].
    + destruct (NoDup_fst_inj L t a a'); done.
    + exfalso. apply Hnin. apply list_elem_of_fmap. by exists (t, a').
  - intros Hk'. destruct Hslot as [Hin|[_ ->]]; [by exists t, a|by apply elem_of_nil in Hk'].
Qed.

Lemma slots_NoDup : (∀ t a, (t, a) ∈ L → NoDup a.*1) → NoDup (concat L.*2).*1.
Proof.
  intros Hnd. induction L as [|[t a] L' IH]; cbn [fmap list_fmap concat fst snd]; [constructor|].
  rewrite fmap_app. apply NoDup_cons in HL as [Hnin HL']. apply NoDup_app. split_and!.
  - apply (Hnd t). by left.
  - intros k Hk (t' & a' & Hin & Hk')%elem_of_slots.
    assert (t' = t) as ->; [|apply Hnin, list_elem_of_fmap; by exists (t, a')].
    eapply under_disjoint; [apply (Hunder t' a' k); [by right|done]|apply (Hunder t a k); [by left|done]].
  - apply IH; [done| |]; intros; [eapply Hunder; [by right|done]|eapply Hnd; by right].
Qed.
End slots.

(** *** A new internal node *)

Section assembly.
Context (p : list Z) (Hp : Forall is_nibble p) (Hlen : (length p < ROOT_NIBBLE_HEIGHT)%nat).
Context (Olds : Z → NodeKey → Prop) (cs : Children) (La Ls : list (Z * list entry)).
Context (HLa : NoDup La.*1) (HLs : NoDup Ls.*1) (Hna : ∀ t a, (t, a) ∈ La → is_nibble t) (Hns : ∀ t s, (t, s) ∈ Ls → is_nibble t).
Context (Hslots : ∀ t, is_nibble t → ∃ a s, slot_of La t a ∧ slot_of Ls t s ∧ slot_ok p (Olds t) t (cs !! t) a s).
Context (Hcs : nibble_keys cs) (Hmany : (2 <= size (restrict p M'))%nat).

Lemma slot_of_inj L t a b : NoDup L.*1 → (t, a) ∈ L → slot_of L t b → a = b.
Proof.
  intros Hnd Hin [Hin'|[Hn _]]; [by eapply NoDup_fst_inj|]. exfalso. apply Hn, list_elem_of_fmap. by exists (t, a).
Qed.

Lemma slots_a t a : (t, a) ∈ La → written (p ++ [t]) a.
Proof.
  intros Hin. destruct (Hslots t (Hna t a Hin)) as (a' & s & Ha & _ & Hok). rewrite (slot_of_inj La t a a') //. apply Hok.
Qed.

Lemma slots_s t s : (t, s) ∈ Ls → unused (Olds t) s ∧ ∀ k, Olds t k → under (p ++ [t]) k.
Proof.
  intros Hin. destruct (Hslots t (Hns t s Hin)) as (a & s' & _ & Hs & Hok). rewrite (slot_of_inj Ls t s s') //. split; apply Hok.
Qed.

Lemma slots_a_under t a k : (t, a) ∈ La → k ∈ a.*1 → under (p ++ [t]) k.
Proof. intros Hin ([k' x] & -> & Hx)%list_elem_of_fmap. by apply (proj2 (slots_a t a Hin) k' x). Qed.

Lemma slots_s_old t s k : (t, s) ∈ Ls → k ∈ s.*1 → Olds t k.
Proof. intros Hin ([k' x] & -> & Hx)%list_elem_of_fmap. by apply (proj2 (proj1 (slots_s t s Hin)) k' x). Qed.

Lemma slots_s_under t s k : (t, s) ∈ Ls → k ∈ s.*1 → under (p ++ [t]) k.
Proof. intros Hin Hk. apply (slots_s t s Hin). by eapply slots_s_old. Qed.

Let sizes t : is_nibble t →
  match cs !! t with
  | None => sub (length p) (restrict p M') t = ∅
  | Some c => Child_leaf_count c = Ret (Z.of_nat (size (sub (length p) (restrict p M') t)))
  end.
Proof.
  intros Ht. destruct (Hslots t Ht) as (a & s & _ & _ & Hok). rewrite -restrict_snoc //. pose proof (slot_child _ _ _ _ _ _ Hok) as Hc.
  destruct (cs !! t); by apply Hc.
Qed.

Lemma internal_new : InternalNode_new cs = Ret (mkInternalNode cs (Z.of_nat (size (restrict p M')))).
Proof.
  apply (InternalNode_new_ok (length p)); [by apply restrict_keys|done|exact sizes|done|].
  assert (size (restrict p M') <= size M')%nat by (apply map_subseteq_size, map_filter_subseteq). lia.
Qed.

(** The old tree: its root, which is replaced, and what was below it. *)
Context (Old : NodeKey → Prop) (root : list entry).
Context (Hroot : unused (λ k, k ∈ root.*1) root) (Hrootpath : ∀ k t, k ∈ root.*1 → ¬ under (p ++ [t]) k).
Context (HOld : ∀ k, Old k ↔ k ∈ root.*1 ∨ ∃ t, is_nibble t ∧ Olds t k).

Lemma slot_readers rd' t a s :
  is_nibble t → slot_of La t a → slot_of Ls t s → slot_ok p (Olds t) t (cs !! t) a s →
  extends rd' (concat La.*2) → keeps rd' Old (root ++ concat Ls.*2) → extends rd' a ∧ keeps rd' (Olds t) s.
Proof.
  intros Ht Ha Hs Hok He Hk. split.
  - intros k x Hx. apply He, elem_of_concat. exists t, a. split; [|done]. destruct Ha as [|[_ ->]]; [done|by apply elem_of_nil in Hx].
  - intros k Ho Hn. pose proof (slot_old _ _ _ _ _ _ Hok k Ho) as Hu. apply Hk; [apply HOld; right; by exists t|].
    rewrite fmap_app not_elem_of_app. split; [intros Hr; by apply (Hrootpath k t Hr)|].
    by rewrite (slots_key p Ls HLs slots_s_under t s k).
Qed.

Lemma assembly_written : written p (concat La.*2) ∧ ∀ k x, (k, x) ∈ concat La.*2 → ∃ t, under (p ++ [t]) k.
Proof.
  assert (Hall : ∀ k x, (k, x) ∈ concat La.*2 → nk_version k = version ∧ ∃ t, under (p ++ [t]) k).
  { intros k x (t & a & Hin & Hx)%elem_of_concat. apply (slots_a t a Hin) in Hx as [Hv Hu]. split; [done|]. by exists t. }
  split; [|intros k x Hx; by apply (Hall k x)]. split.
  - apply (slots_NoDup p); [done|exact slots_a_under|]. intros t a Hin. apply (slots_a t a Hin).
  - intros k x Hx. apply Hall in Hx as [Hv [t Hu]]. split; [done|]. by eapply under_app.
Qed.

Lemma assembly_unused : unused Old (root ++ concat Ls.*2).
Proof.
  split.
  - rewrite fmap_app. apply NoDup_app. split_and!; [apply Hroot| |].
    + intros k Hk (t & s & Hin & Hks)%elem_of_slots. apply (Hrootpath k t Hk). by eapply slots_s_under.
    + apply (slots_NoDup p); [done|exact slots_s_under|]. intros t s Hin. apply (slots_s t s Hin).
  - intros k x [Hx|(t & s & Hin & Hx)%elem_of_concat]%elem_of_app.
    + apply Hroot in Hx as [Hk Hrd]. split; [|done]. apply HOld. by left.
    + pose proof (Hns t s Hin). apply (slots_s t s Hin) in Hx as [Hk Hrd]. split; [|done]. apply HOld. right. by exists t.
Qed.

Lemma assembly_child rd' t a s c :
  is_nibble t → slot_of La t a → slot_of Ls t s → slot_ok p (Olds t) t (cs !! t) a s → cs !! t = Some c →
  extends rd' (concat La.*2) → keeps rd' Old (root ++ concat Ls.*2) →
  ∃ n, rd' (node_at (child_version c) (p ++ [t])) = Ok (Some n) ∧ child_version c ≤ version ∧
    child_hash c = path_hash (p ++ [t]) (restrict (p ++ [t]) M') ∧ child_type c = node_type n ∧
    tree_at (height (p ++ [t])) rd' (p ++ [t]) (child_version c) (restrict (p ++ [t]) M') n ∧
    ∀ k, in_tree (height (p ++ [t])) rd' (p ++ [t]) (child_version c) n k ↔ k ∈ a.*1 ∨ (Olds t k ∧ k ∉ s.*1).
Proof.
  intros Ht Ha Hs Hok Hc He Hk. destruct (slot_readers rd' t a s Ht Ha Hs Hok He Hk) as [Hea Hks]. pose proof (slot_child _ _ _ _ _ _ Hok) as Hch.
  rewrite Hc in Hch. destruct Hch as (Hv & Hh & _ & n & Hty & Hrest). destruct (Hrest rd' Hea Hks) as (Hrd & Hat & Hin). by exists n.
Qed.

Let node : Node := Node_Internal (mkInternalNode cs (Z.of_nat (size (restrict p M')))).

Lemma assembly_tree rd' :
  extends rd' (concat La.*2) → keeps rd' Old (root ++ concat Ls.*2) → tree_at (height p) rd' p version (restrict p M') node.
Proof.
  intros He Hk. rewrite (height_S p 0) //. cbn [tree_at node children in_leaf_count]. split_and!; [done..|]. intros t Ht. cbv zeta.
  destruct (Hslots t Ht) as (a & s & Ha & Hs & Hok). rewrite -restrict_snoc //. destruct (cs !! t) as [c|] eqn:Hc; [|by apply (slot_child _ _ _ _ _ _ Hok)].
  rewrite -Hc in Hok. destruct (assembly_child rd' t a s c Ht Ha Hs Hok Hc He Hk) as (n & Hrd & Hv & Hh & Hty & Hat & _). exists n. split_and!; [done..|].
  by replace (height (p ++ [0])) with (height (p ++ [t])) by (unfold height; by rewrite !length_app).
Qed.

Lemma assembly_keys rd' k :
  extends rd' (concat La.*2) → keeps rd' Old (root ++ concat Ls.*2) →
  in_tree (height p) rd' p version node k ↔
    k = node_at version p ∨ k ∈ (concat La.*2).*1 ∨ (Old k ∧ k ∉ (root ++ concat Ls.*2).*1).
Proof.
  intros He Hk. rewrite (height_S p 0) //. cbn [in_tree node children]. apply or_iff_compat_l. split.
  - intros (t & c & n & Ht & Hc & Hrd & Hin). destruct (Hslots t Ht) as (a & s & Ha & Hs & Hok).
    destruct (assembly_child rd' t a s c Ht Ha Hs Hok Hc He Hk) as (n' & Hrd' & _ & _ & _ & _ & Hin'). rewrite Hrd in Hrd'. injection Hrd' as <-.
    replace (height (p ++ [0])) with (height (p ++ [t])) in Hin by (unfold height; by rewrite !length_app). destruct (proj1 (Hin' k) Hin) as [Hka|[Ho Hn]].
    + left. apply elem_of_slots. exists t, a. split; [|done]. destruct Ha as [|[_ ->]]; [done|by apply elem_of_nil in Hka].
    + right. pose proof (slot_old _ _ _ _ _ _ Hok k Ho) as Hu. split; [apply HOld; right; by exists t|]. rewrite fmap_app not_elem_of_app.
      split; [intros Hr; by apply (Hrootpath k t Hr)|]. by rewrite (slots_key p Ls HLs slots_s_under t s k).
  - assert (Hone : ∀ t a s, is_nibble t → slot_of La t a → slot_of Ls t s → slot_ok p (Olds t) t (cs !! t) a s →
                     k ∈ a.*1 ∨ (Olds t k ∧ k ∉ s.*1) → ∃ t' c n, is_nibble t' ∧ cs !! t' = Some c ∧ rd' (node_at (child_version c) (p ++ [t'])) = Ok (Some n) ∧
                       in_tree (height (p ++ [0])) rd' (p ++ [t']) (child_version c) n k).
    { intros t a s Ht Ha Hs Hok Hcase. destruct (cs !! t) as [c|] eqn:Hc.
      - rewrite -Hc in Hok. destruct (assembly_child rd' t a s c Ht Ha Hs Hok Hc He Hk) as (n & Hrd & _ & _ & _ & _ & Hin). exists t, c, n. split_and!; [done..|].
        replace (height (p ++ [0])) with (height (p ++ [t])) by (unfold height; by rewrite !length_app). by apply Hin.
      - destruct (slot_child _ _ _ _ _ _ Hok) as (_ & -> & Hall). destruct Hcase as [?%elem_of_nil|[Ho Hn]]; [done|]. by apply Hall in Ho. }
    intros [(t & a & Hin & Hka)%elem_of_slots|[[Hr|(t & Ht & Ho)]%HOld Hn]].
    + destruct (Hslots t (Hna t a Hin)) as (a' & s & Ha & Hs & Hok). rewrite (slot_of_inj La t a a') // in Hka. apply (Hone t a' s); [by eapply Hna|done..|by left].
    + exfalso. apply Hn. rewrite fmap_app elem_of_app. by left.
    + destruct (Hslots t Ht) as (a & s & Ha & Hs & Hok). apply (Hone t a s); [done..|]. right. split; [done|]. intros Hks. apply Hn.
      rewrite fmap_app elem_of_app. right. apply (slots_key p Ls HLs slots_s_under t s k); [done| |done]. by eapply slot_old.
Qed.

Lemma internal_subtree adds stales :
  adds ≡ₚ concat La.*2 → stales ≡ₚ root ++ concat Ls.*2 → subtree Old p node adds stales.
Proof.
  intros Ha Hs. destruct assembly_written as [Hw Hb], assembly_unused as [Hnd Hu]. split.
  - split; [rewrite Ha; apply Hw|]. intros k x Hx. apply (proj2 Hw k x). by rewrite -Ha.
  - intros k x Hx. apply (Hb k x). by rewrite -Ha.
  - split; [by rewrite Hs|]. intros k x Hx. apply Hu. by rewrite -Hs.
  - done.
  - intros rd' He Hk. assert (He' : extends rd' (concat La.*2)) by (intros k x Hx; apply He; by rewrite Ha).
    assert (Hk' : keeps rd' Old (root ++ concat Ls.*2)) by (intros k Ho Hn; apply Hk; [done|by rewrite Hs]).
    split; [by apply assembly_tree|]. intros k. rewrite Ha Hs. by apply assembly_keys.
Qed.
End assembly.
End pieces.
