(* ===== verification/JellyfishInsert.v ===== *)
(** * Updates of the tree, step by step

    The recursive functions of the update, from the leaves up: each of them returns the
    root of the new tree below its path, and the nodes it writes and stops using. *)
From S2P Require Import Prelude U64 NibblePath SparseMerkle JmtNode JellyfishMerkle JellyfishTree JellyfishUpdate.
Local Open Scope Z_scope.
Local Open Scope rust_scope.

(** ** The state after an update *)

Section state.
Context {K : Type} (version : Version).
Local Notation state := (gmap HashValue (HashValue * (K * Version))).

Definition new_value (old : option (HashValue * (K * Version))) (update : option (option (HashValue * K))) :
    option (HashValue * (K * Version)) :=
  match update with
  | None => old
  | Some None => None
  | Some (Some (value_hash, state_key)) => Some (value_hash, (state_key, version))
  end.

(** Values are written with the version; [None] deletes a key. *)
Definition updated_state (m : state) (u : gmap HashValue (option (HashValue * K))) : state := merge new_value m u.

Lemma updated_lookup m u k : updated_state m u !! k = new_value (m !! k) (u !! k).
Proof. unfold updated_state. rewrite lookup_merge. by destruct (m !! k), (u !! k). Qed.

Lemma updated_keys m u : keys_ok m → keys_ok u → keys_ok (updated_state m u).
Proof.
  intros Hm Hu k v. rewrite updated_lookup. destruct (u !! k) as [o|] eqn:E; cbn; intros Hk; [by apply (Hu k o)|by apply (Hm k v)].
Qed.
End state.

Section kvs.
Context {K : Type}.
Local Notation update := (gmap HashValue (option (HashValue * K))).
Context (U : update) (HU : keys_ok U).

(** The updates below a path, in the order of their keys. *)
Definition kvs_at (p : list Z) : list (HashValue * option (HashValue * K)) := filter (λ kv, has_prefix p kv.1) (btree_iter U).

Lemma kvs_elem p k o : (k, o) ∈ kvs_at p ↔ U !! k = Some o ∧ has_prefix p k.
Proof. unfold kvs_at. rewrite list_elem_of_filter elem_of_btree_iter /=. tauto. Qed.

Lemma kvs_ok p : Forall (λ kv, hash_ok kv.1) (kvs_at p).
Proof. apply Forall_forall. intros [k o] [Hk _]%kvs_elem. by apply (HU k o). Qed.

Lemma kvs_nil : kvs_at [] = btree_iter U.
Proof. apply list_filter_all, Forall_forall. by intros. Qed.

Lemma kvs_snoc p t :
  (length p < ROOT_NIBBLE_HEIGHT)%nat → filter (λ kv, key_nibble kv.1 (length p) = t) (kvs_at p) = kvs_at (p ++ [t]).
Proof.
  intros Hp. unfold kvs_at. assert (Hok : Forall (λ kv : HashValue * _, hash_ok kv.1) (btree_iter U)) by (rewrite -kvs_nil; apply kvs_ok).
  induction Hok as [|[k o] l Hk _ IH]; [done|]. pose proof (has_prefix_snoc p t k Hk Hp) as Hiff. rewrite !filter_cons /=. cbn in Hk.
  repeat case_decide; rewrite ?filter_cons /=; repeat case_decide; try tauto; by rewrite IH.
Qed.

Lemma kvs_sorted p : StronglySorted entry_le (kvs_at p).
Proof. eauto with rust. Qed.

Lemma sorted_lookup {A} (R : relation A) `{!Total R} (l : list A) i j a b :
  StronglySorted R l → (i <= j)%nat → l !! i = Some a → l !! j = Some b → R a b.
Proof.
  intros Hs. revert i j. induction Hs as [|x l Hs IH Hx]; intros i j Hij Ha Hb; [done|]. destruct i as [|i], j as [|j]; simplify_eq/=; try lia.
  - by destruct (total R a a).
  - by eapply Forall_lookup_1.
  - by apply (IH i j); [lia|..].
Qed.

Lemma kvs_mono p i j a b :
  (length p < ROOT_NIBBLE_HEIGHT)%nat → (i <= j)%nat → kvs_at p !! i = Some a → kvs_at p !! j = Some b →
  key_nibble a.1 (length p) ≤ key_nibble b.1 (length p).
Proof.
  intros Hp Hij Ha Hb. pose proof (sorted_lookup entry_le _ _ _ _ _ (kvs_sorted p) Hij Ha Hb) as Hle. destruct a as [k o], b as [k' o'].
  apply list_elem_of_lookup_2, kvs_elem in Ha as [Hk Hpk], Hb as [Hk' Hpk']. apply key_le_nibble; [by apply (HU k o)|by apply (HU k' o')|done|done|].
  intros i' Hi. unfold has_prefix in *. cbn [fst]. unfold key_nibble. f_equal. rewrite -(lookup_take_lt (unpack k) (length p)) // -(lookup_take_lt (unpack k') (length p)) //. congruence.
Qed.

(** The ranges at a path are the updates below its children. *)
Definition range_at (p : list Z) (r : nat * nat) (t : Z) : Prop :=
  ∃ a, kvs_at p !! r.1 = Some a ∧ hash_ok a.1 ∧ key_nibble a.1 (length p) = t ∧ slice (kvs_at p) r.1 r.2 = kvs_at (p ++ [t]).

Lemma ranges_at p :
  (length p < ROOT_NIBBLE_HEIGHT)%nat →
  ∃ rs ns, nibble_ranges (kvs_at p) (length p) = Ret rs ∧ Forall2 (range_at p) rs ns ∧ NoDup ns ∧
    (∀ t, t ∈ ns ↔ kvs_at (p ++ [t]) ≠ []) ∧ (∀ t, t ∈ ns → is_nibble t).
Proof.
  intros Hp. destruct (nibble_ranges_ok (kvs_at p) (length p) Hp (kvs_ok p)) as (rs & ns & Hrs & Hall & Hnd & Hns).
  { intros i j a b. by apply kvs_mono. }
  exists rs, ns. split_and!; [done| |done| |].
  - eapply Forall2_impl; [exact Hall|]. intros [lo hi] t (a & Ha & Ht & Hs). exists a. split_and!; [done| |done|by rewrite Hs kvs_snoc].
    exact (Forall_lookup_1 _ _ _ _ (kvs_ok p) Ha).
  - intros t. rewrite Hns -kvs_snoc //. split.
    + intros (kv & Hin & Ht) E. assert (kv ∈ filter (λ kv, key_nibble kv.1 (length p) = t) (kvs_at p)) as Hin' by (by apply list_elem_of_filter).
      rewrite E in Hin'. by apply elem_of_nil in Hin'.
    + intros Hne. destruct (filter _ (kvs_at p)) as [|kv l] eqn:E; [done|]. exists kv.
      assert (kv ∈ filter (λ kv, key_nibble kv.1 (length p) = t) (kvs_at p)) as Hin by (rewrite E; by left). apply list_elem_of_filter in Hin as [? ?]. done.
  - intros t Ht. apply Hns in Ht as ([k o] & Hin & <-). apply key_nibble_ok. by apply (proj1 (Forall_forall _ _) (kvs_ok p) (k, o)).
Qed.
End kvs.

(** ** Updating the children of a node *)

Section update.
Context {SH : SparseMerkleHashers} {K : Type}.
Local Notation Node := (Node K).
Local Notation Reader := (TreeReader K).
Local Notation Batch := (TreeUpdateBatch (K := K)).
Local Notation entry := (NodeKey * Node)%type.
Local Notation state := (gmap HashValue (HashValue * (K * Version))).

(** The reader, the version and the updates; the state before them and after them. *)
Context (rd : Reader) (version : Version) (M : state) (U : gmap HashValue (option (HashValue * K))).
Context (HM : keys_ok M) (HU : keys_ok U).
Let M' : state := updated_state version M U.
Context (Hbound : Z.of_nat (size M') < 2 ^ 64).

(** Hashes that come with the updates are those of the new state, for the nodes that are
    written: children with an update below them, or next to what was a leaf. *)
Definition cache_ok (cache : HashCache) : Prop :=
  ∀ c, cache = Some c → ∀ p t, Forall is_nibble (p ++ [t]) → restrict (p ++ [t]) M' ≠ ∅ → (2 <= size (restrict p M'))%nat →
    kvs_at U (p ++ [t]) ≠ [] ∨ (size (restrict p M) <= 1)%nat →
    c !! pack (p ++ [t]) = Some (path_hash (p ++ [t]) (restrict (p ++ [t]) M')).
Context (cache : HashCache) (Hcache : cache_ok cache).

Let HM' : keys_ok M'.
Proof. by apply updated_keys. Qed.

Lemma untouched p : kvs_at U p = [] → restrict p M' = restrict p M.
Proof.
  intros Hnone. apply map_eq. intros k. apply option_eq. intros v. rewrite !restrict_lookup. unfold M'. rewrite updated_lookup.
  destruct (U !! k) as [o|] eqn:E; [|done]. split; intros [_ Hp]; exfalso;
    (assert ((k, o) ∈ kvs_at U p) as Hin by (by apply kvs_elem)); rewrite Hnone in Hin; by apply elem_of_nil in Hin.
Qed.

(** What became of one child. *)
Record piece : Type := mkPiece { pc_index : Z; pc_node : option Node; pc_adds : list entry; pc_stales : list entry }.

Definition created (pcs : list piece) : list (Z * Node) := omap (λ pc, n ← pc_node pc; Some (pc_index pc, n)) pcs.

Definition all_adds (pcs : list piece) : list entry := concat (pc_adds <$> pcs).
Definition all_stales (pcs : list piece) : list entry := concat (pc_stales <$> pcs).

Lemma elem_of_created pcs t n : (t, n) ∈ created pcs ↔ ∃ pc, pc ∈ pcs ∧ pc_index pc = t ∧ pc_node pc = Some n.
Proof.
  unfold created. rewrite list_elem_of_omap. split.
  - intros (pc & Hin & E). exists pc. destruct (pc_node pc); [|done]. cbn in E. by simplify_eq.
  - intros (pc & Hin & <- & E). exists pc. by rewrite E.
Qed.

Lemma created_index pcs t : t ∈ (created pcs).*1 → t ∈ pc_index <$> pcs.
Proof. intros ([t' n] & -> & (pc & Hin & <- & _)%elem_of_created)%list_elem_of_fmap. cbn [fst]. by apply list_elem_of_fmap_2. Qed.

Lemma created_NoDup pcs : NoDup (pc_index <$> pcs) → NoDup (created pcs).*1.
Proof.
  induction pcs as [|[t o a s] pcs IH]; [constructor|]. cbn [fmap list_fmap pc_index]. intros [Hn Hnd]%NoDup_cons. cbn [created omap list_omap pc_node pc_index].
  destruct o as [n|]; cbn; [|by apply IH]. constructor; [|by apply IH]. intros Ht. apply Hn. by apply created_index.
Qed.

Lemma pieces_inj pcs pc pc' : NoDup (pc_index <$> pcs) → pc ∈ pcs → pc' ∈ pcs → pc_index pc = pc_index pc' → pc = pc'.
Proof.
  induction pcs as [|x pcs IH]; [by intros _ ?%elem_of_nil|]. cbn [fmap list_fmap]. intros [Hn Hnd]%NoDup_cons.
  intros [->|H1]%elem_of_cons [->|H2]%elem_of_cons E; [done| | |by apply IH]; exfalso; apply Hn; [rewrite E|rewrite -E]; by apply list_elem_of_fmap_2.
Qed.

Section loops.
Context (p : list Z) (Olds : Z → NodeKey → Prop).

Definition piece_ok (pc : piece) : Prop := replaced rd version M' (Olds (pc_index pc)) (p ++ [pc_index pc]) (pc_node pc) (pc_adds pc) (pc_stales pc).

(** A loop over the ranges that passes the batch on. *)
Lemma ranges_loop {X} (f : X * Batch → nat * nat → comp (result jmt_error (X * Batch))) (next : X → Z → option Node → X) rs ns x b :
  (∀ x b r t, range_at U p r t → t ∈ ns → has_slots b →
     ∃ o a s b', f (x, b) r = Ret (Ok (next x t o, b')) ∧ grows version b b' a s ∧ piece_ok (mkPiece t o a s)) →
  Forall2 (range_at U p) rs ns → has_slots b →
  ∃ pcs b', try_fold f (x, b) rs = Ret (Ok (foldl (λ x pc, next x (pc_index pc) (pc_node pc)) x pcs, b')) ∧ pc_index <$> pcs = ns ∧
    Forall piece_ok pcs ∧ grows version b b' (all_adds pcs) (all_stales pcs).
Proof.
  intros Hf Hrs. revert x b Hf. induction Hrs as [|r t rs ns Hr Hrs IH]; intros x b Hf Hb.
  - exists [], b. split_and!; [done..|apply grows_refl].
  - destruct (Hf x b r t Hr ltac:(by left) Hb) as (o & a & s & b1 & E & Hg & Hok). cbn [try_fold]. rewrite E. run. cbn [try].
    destruct (IH (next x t o) b1) as (pcs & b2 & E2 & Hns & Hall & Hg2); [|by eapply grows_has_slots|].
    { intros x' b' r' t' Hr' Ht'. apply Hf; [done|by right]. }
    exists (mkPiece t o a s :: pcs), b2. split_and!; [done|by cbn; rewrite Hns|by constructor|]. by eapply grows_trans.
Qed.

(** The parallel loop: each range has a batch of its own, and they are combined. *)
Lemma ranges_parallel (f : nat * nat → Batch → comp (result jmt_error (Z * option Node * Batch))) rs ns acc b :
  (∀ r t, range_at U p r t → t ∈ ns →
     ∃ o a s b', f r TreeUpdateBatch_new = Ret (Ok (t, o, b')) ∧ grows version TreeUpdateBatch_new b' a s ∧ piece_ok (mkPiece t o a s)) →
  Forall2 (range_at U p) rs ns →
  ∃ pcs results, try_fold (λ results range, let* (index, node, sub_batch) := f range TreeUpdateBatch_new in Ret (Ok (results ++ [(index, node, sub_batch)]))) acc rs =
      Ret (Ok (acc ++ results)) ∧ results.*1 = (λ pc, (pc_index pc, pc_node pc)) <$> pcs ∧ pc_index <$> pcs = ns ∧
    Forall piece_ok pcs ∧ grows version b (foldl combine b results.*2) (all_adds pcs) (all_stales pcs).
Proof.
  intros Hf Hrs. revert acc b Hf. induction Hrs as [|r t rs ns Hr Hrs IH]; intros acc b Hf.
  - exists [], []. rewrite app_nil_r. split_and!; [done..|apply grows_refl].
  - destruct (Hf r t Hr ltac:(by left)) as (o & a & s & b1 & E & Hg & Hok). cbn [try_fold]. rewrite E. run. cbn [try]. run.
    destruct (IH (acc ++ [(t, o, b1)]) (combine b b1)) as (pcs & results & E2 & Hres & Hns & Hall & Hg2); [intros r' t' Hr' Ht'; apply Hf; [done|by right]|].
    exists (mkPiece t o a s :: pcs), ((t, o, b1) :: results). cbn [try]. rewrite E2 -app_assoc.
    split_and!; [done|by cbn; rewrite Hres|by cbn; rewrite Hns|by constructor|]. eapply grows_trans; [by apply combine_grows|done].
Qed.

(** ** A new internal node *)

Context (Hp : Forall is_nibble p) (Hlen : (length p < ROOT_NIBBLE_HEIGHT)%nat).
Context (HOlds : ∀ t k, is_nibble t → Olds t k → nk_version k < version ∧ under (p ++ [t]) k).

Lemma path_snoc t : is_nibble t → Forall is_nibble (p ++ [t]).
Proof. intros Ht. apply Forall_app. by split; [|constructor]. Qed.

Definition put_child (cs : Children) (e : Z * Node) : Children := <[e.1 := new_child version M' p e.1 e.2]> cs.

Definition child_entry (e : Z * Node) : entry := (node_at version (p ++ [e.1]), e.2).

Definition hash_known (e : Z * Node) : Prop :=
  get_hash (node_at version (p ++ [e.1])) e.2 cache = Ret (path_hash (p ++ [e.1]) (restrict (p ++ [e.1]) M')).

Lemma add_children_ok v es cs0 b :
  has_slots b → (∀ e, e ∈ es → is_nibble e.1 ∧ hash_known e) →
  ∃ b', try_fold (add_child (node_at v p) version cache) (cs0, b) es = Ret (Ok (foldl put_child cs0 es, b')) ∧
    grows version b b' (child_entry <$> es) [].
Proof.
  revert cs0 b. induction es as [|[t n] es IH]; intros cs0 b Hb Hes.
  - exists b. split; [done|apply grows_refl].
  - destruct (Hes (t, n) ltac:(by left)) as [Ht Hh]. cbn [try_fold add_child]. unfold node_at. rewrite (gen_child_ok (length p)) //. run.
    change (mkNodeKey version (pack (p ++ [t]))) with (node_at version (p ++ [t])). unfold hash_known in Hh. cbn [fst snd] in Hh, Ht. rewrite Hh. run.
    destruct (put_node_grows version b (node_at version (p ++ [t])) n Hb) as (b1 & -> & Hg). run. cbn [try].
    destruct (IH (put_child cs0 (t, n)) b1) as (b2 & E & Hg2); [by eapply grows_has_slots|intros e He; apply Hes; by right|].
    exists b2. split; [exact E|]. by apply (grows_trans _ _ _ _ _ _ [] [] Hg Hg2).
Qed.

Lemma put_children_other es cs0 t : t ∉ es.*1 → foldl put_child cs0 es !! t = cs0 !! t.
Proof.
  revert cs0. induction es as [|e es IH]; intros cs0 Ht; [done|]. cbn in *. apply not_elem_of_cons in Ht as [Hne Ht].
  rewrite IH //. unfold put_child. by rewrite lookup_insert_ne.
Qed.

Lemma put_children_new es cs0 t n : NoDup es.*1 → (t, n) ∈ es → foldl put_child cs0 es !! t = Some (new_child version M' p t n).
Proof.
  revert cs0. induction es as [|e es IH]; intros cs0; [by intros _ ?%elem_of_nil|]. cbn. intros [Hn Hnd]%NoDup_cons [<-|Hin]%elem_of_cons; [|by apply IH].
  rewrite put_children_other //. unfold put_child. by rewrite lookup_insert_eq.
Qed.

Lemma put_children_keys es cs0 : (∀ e, e ∈ es → is_nibble e.1) → nibble_keys cs0 → nibble_keys (foldl put_child cs0 es).
Proof.
  revert cs0. induction es as [|e es IH]; intros cs0 Hes Hcs; [done|]. cbn. apply IH; [intros e' He; apply Hes; by right|].
  unfold put_child, nibble_keys. apply map_Forall_insert_2; [apply Hes; by left|done].
Qed.

(** The slots of the pieces. *)
Definition slot_adds (pc : piece) : list entry :=
  match pc_node pc with Some n => child_entry (pc_index pc, n) :: pc_adds pc | None => pc_adds pc end.

Definition add_slots (pcs : list piece) : list (Z * list entry) := (λ pc, (pc_index pc, slot_adds pc)) <$> pcs.
Definition stale_slots (pcs : list piece) : list (Z * list entry) := (λ pc, (pc_index pc, pc_stales pc)) <$> pcs.

Lemma all_stales_slots pcs : all_stales pcs = concat (stale_slots pcs).*2.
Proof. unfold all_stales, stale_slots. by rewrite -list_fmap_compose. Qed.

Lemma add_slots_perm pcs : all_adds pcs ++ (child_entry <$> created pcs) ≡ₚ concat (add_slots pcs).*2.
Proof.
  induction pcs as [|[t o a s] pcs IH]; [done|]. cbn [add_slots fmap list_fmap concat snd]. change ((λ pc, (pc_index pc, slot_adds pc)) <$> pcs) with (add_slots pcs).
  rewrite -IH. unfold all_adds. cbn [fmap list_fmap concat pc_adds]. destruct o as [n|].
  - cbn. etrans; [symmetry; apply Permutation_middle|]. by rewrite -app_assoc.
  - cbn. by rewrite -app_assoc.
Qed.

Lemma slot_index (f : piece → list entry) pcs : ((λ pc, (pc_index pc, f pc)) <$> pcs).*1 = pc_index <$> pcs.
Proof. by rewrite -list_fmap_compose. Qed.

Lemma piece_slot pc (oc : option Child) :
  is_nibble (pc_index pc) → piece_ok pc → oc = (n ← pc_node pc; Some (new_child version M' p (pc_index pc) n)) →
  slot_ok rd version M' p (Olds (pc_index pc)) (pc_index pc) oc (slot_adds pc) (pc_stales pc).
Proof.
  destruct pc as [t [n|] a s]; intros Ht Hok ->; unfold piece_ok in Hok; cbn in *.
  - apply slot_new; [by apply path_snoc|by intros k Hk; apply HOlds|done].
  - destruct Hok as (Hm & -> & Hu & Hall). split; [|done|by intros k Hk; apply HOlds|done]. split; [constructor|]. by intros k x ?%elem_of_nil.
Qed.

Lemma slot_of_piece (f : piece → list entry) pcs pc :
  pc ∈ pcs → slot_of ((λ pc, (pc_index pc, f pc)) <$> pcs) (pc_index pc) (f pc).
Proof. intros Hin. left. apply list_elem_of_fmap. by exists pc. Qed.

Lemma slot_of_other (f : piece → list entry) pcs t : t ∉ pc_index <$> pcs → slot_of ((λ pc, (pc_index pc, f pc)) <$> pcs) t [].
Proof. intros Ht. right. by rewrite slot_index. Qed.

(** The pieces are the touched children; [cs0] has the other ones. *)
Record pieces_ok (pcs : list piece) (cs0 : Children) : Prop := {
  pieces_all : Forall piece_ok pcs;
  pieces_NoDup : NoDup (pc_index <$> pcs);
  pieces_nibble : ∀ t, t ∈ pc_index <$> pcs → is_nibble t;
  pieces_keys : nibble_keys cs0;
  pieces_kept : ∀ t, is_nibble t → t ∉ pc_index <$> pcs → slot_ok rd version M' p (Olds t) t (cs0 !! t) [] [];
  pieces_gone : ∀ pc, pc ∈ pcs → pc_node pc = None → cs0 !! pc_index pc = None;
  pieces_touched : ∀ t, t ∈ pc_index <$> pcs → kvs_at U (p ++ [t]) ≠ [] ∨ (size (restrict p M) <= 1)%nat;
}.

Lemma pieces_hash pcs cs0 e : pieces_ok pcs cs0 → (2 <= size (restrict p M'))%nat → e ∈ created pcs → is_nibble e.1 ∧ hash_known e.
Proof.
  intros [Hall Hnd Hnib _ _ _ Htouched] H2 Hin. destruct e as [t n]. apply elem_of_created in Hin as (pc & Hin & <- & Hn).
  assert (Hidx : pc_index pc ∈ pc_index <$> pcs) by (by apply list_elem_of_fmap_2). pose proof (Hnib _ Hidx) as Ht. split; [done|].
  pose proof (proj1 (Forall_forall _ _) Hall pc Hin) as Hok. unfold piece_ok in Hok. rewrite Hn in Hok. cbn in Hok.
  assert (Hold : ∀ k, Olds (pc_index pc) k → nk_version k < version) by (intros k Hk; by apply (HOlds (pc_index pc))).
  unfold hash_known, get_hash. cbn [fst snd]. destruct cache as [c|] eqn:Ec.
  - cbn [nibble_path node_at]. rewrite (Hcache c eq_refl) //; [by apply path_snoc|by eapply subtree_nonempty|]. by apply Htouched.
  - eapply subtree_hash; [done|done| |done]. rewrite length_app /=. lia.
Qed.

Lemma pieces_slots pcs cs0 es :
  pieces_ok pcs cs0 → es ≡ₚ created pcs → ∀ t, is_nibble t →
  ∃ a s, slot_of (add_slots pcs) t a ∧ slot_of (stale_slots pcs) t s ∧
    slot_ok rd version M' p (Olds t) t (foldl put_child cs0 es !! t) a s.
Proof.
  intros [Hall Hnd Hnib _ Hkept Hgone _] Hes t Ht.
  destruct (decide (t ∈ pc_index <$> pcs)) as [(pc & -> & Hin)%list_elem_of_fmap|Hn].
  - exists (slot_adds pc), (pc_stales pc). split_and!; [by apply slot_of_piece..|]. apply piece_slot; [done|by eapply Forall_forall|].
    destruct (pc_node pc) as [n|] eqn:En; cbn.
    + apply put_children_new; [rewrite Hes; by apply created_NoDup|]. rewrite Hes. apply elem_of_created. by exists pc.
    + rewrite put_children_other; [|by apply Hgone]. rewrite Hes. intros ([t' n] & E & (pc' & Hin' & Hi & Hn')%elem_of_created)%list_elem_of_fmap. cbn in E.
      rewrite (pieces_inj pcs pc pc') // in En; congruence.
  - exists [], []. split_and!; [by apply slot_of_other..|]. rewrite put_children_other; [|by apply Hkept]. rewrite Hes. intros Ht'. by apply Hn, created_index.
Qed.

Lemma internal_updated v Old root pcs cs0 es b :
  has_slots b → pieces_ok pcs cs0 → es ≡ₚ created pcs → (2 <= size (restrict p M'))%nat →
  unused rd (λ k, k ∈ root.*1) root → (∀ k t, k ∈ root.*1 → ¬ under (p ++ [t]) k) →
  (∀ k, Old k ↔ k ∈ root.*1 ∨ ∃ t, is_nibble t ∧ Olds t k) →
  ∃ n b' adds,
    (let* (children, batch) := try_fold (add_child (node_at v p) version cache) (cs0, b) es in
     new_internal_node ← InternalNode_new children; Ret (Ok (Some (Node_Internal new_internal_node), batch))) = Ret (Ok (Some n, b')) ∧
    grows version b b' adds [] ∧ subtree rd version M' Old p n (all_adds pcs ++ adds) (root ++ all_stales pcs).
Proof.
  intros Hb Hok Hes H2 Hr Hrp HOld.
  assert (Hhash : ∀ e, e ∈ es → is_nibble e.1 ∧ hash_known e) by (intros e He; eapply pieces_hash; [done..|by rewrite -Hes]).
  destruct (add_children_ok v es cs0 b Hb Hhash) as (b' & E & Hg). rewrite E. run. cbn [try].
  assert (Hkeys : nibble_keys (foldl put_child cs0 es)) by (apply put_children_keys; [intros e He; by apply Hhash|apply Hok]).
  rewrite (internal_new rd version M' HM' Hbound p Hlen Olds _ _ _ (pieces_slots pcs cs0 es Hok Hes) Hkeys H2). run.
  eexists _, b', _. split_and!; [done|exact Hg|].
  eapply (internal_subtree rd version M' HM' p Hlen Olds _ (add_slots pcs) (stale_slots pcs)); try done.
  - unfold add_slots. rewrite slot_index. apply Hok.
  - unfold stale_slots. rewrite slot_index. apply Hok.
  - intros t a Hin. apply (pieces_nibble _ _ Hok). unfold add_slots in Hin. rewrite -(slot_index slot_adds). by apply (list_elem_of_fmap_2 fst) in Hin.
  - intros t s Hin. apply (pieces_nibble _ _ Hok). unfold stale_slots in Hin. rewrite -(slot_index pc_stales). by apply (list_elem_of_fmap_2 fst) in Hin.
  - by apply pieces_slots.
  - rewrite Hes. apply add_slots_perm.
  - by rewrite all_stales_slots.
Qed.

(** ** One leaf, or nothing *)

Section few.
Context (pcs : list piece) (cs0 : Children) (Hok : pieces_ok pcs cs0).

Let Hversion t : is_nibble t → ∀ k, Olds t k → nk_version k < version.
Proof. intros Ht k Hk. by apply (HOlds t). Qed.

Lemma piece_nibble pc : pc ∈ pcs → is_nibble (pc_index pc).
Proof. intros Hin. apply (pieces_nibble _ _ Hok). by apply list_elem_of_fmap_2. Qed.

Lemma piece_in pc : pc ∈ pcs → piece_ok pc.
Proof. intros Hin. by apply (proj1 (Forall_forall _ _) (pieces_all _ _ Hok)). Qed.

Lemma piece_some pc n : pc ∈ pcs → pc_node pc = Some n → subtree rd version M' (Olds (pc_index pc)) (p ++ [pc_index pc]) n (pc_adds pc) (pc_stales pc).
Proof. intros Hin Hn. pose proof (piece_in pc Hin) as Hpc. unfold piece_ok in Hpc. by rewrite Hn in Hpc. Qed.

Lemma piece_none pc :
  pc ∈ pcs → pc_node pc = None →
  restrict (p ++ [pc_index pc]) M' = ∅ ∧ pc_adds pc = [] ∧ ∀ k, Olds (pc_index pc) k → k ∈ (pc_stales pc).*1.
Proof. intros Hin Hn. pose proof (piece_in pc Hin) as Hpc. unfold piece_ok in Hpc. rewrite Hn in Hpc. by destruct Hpc as (? & ? & _ & ?). Qed.

(** The children that are left: the new ones and those that were not touched. *)
Definition live (t : Z) : Prop := t ∈ (created pcs).*1 ∨ (t ∉ pc_index <$> pcs ∧ is_Some (cs0 !! t)).

Lemma live_some t : is_nibble t → live t → restrict (p ++ [t]) M' ≠ ∅.
Proof.
  intros Ht [([t' n] & -> & (pc & Hin & <- & Hn)%elem_of_created)%list_elem_of_fmap|[Hn [c Hc]]].
  - eapply subtree_nonempty; [|by apply piece_some]. apply Hversion. by apply piece_nibble.
  - destruct (pieces_kept _ _ Hok t Ht Hn) as [_ _ _ Hch]. rewrite Hc in Hch. destruct Hch as (_ & _ & _ & n & Hty & Hall).
    destruct (Hall rd) as (_ & Hat & _); [by intros k x ?%elem_of_nil|done|]. by eapply tree_at_nonempty.
Qed.

Lemma not_live t : is_nibble t → ¬ live t → restrict (p ++ [t]) M' = ∅ ∧ ∀ k, Olds t k → k ∈ (all_stales pcs).*1.
Proof.
  intros Ht Hlive. destruct (decide (t ∈ pc_index <$> pcs)) as [(pc & -> & Hin)%list_elem_of_fmap|Hn].
  - destruct (pc_node pc) as [n|] eqn:En.
    + exfalso. apply Hlive. left. apply list_elem_of_fmap. exists (pc_index pc, n). split; [done|]. apply elem_of_created. by exists pc.
    + destruct (piece_none pc Hin En) as (Hm & _ & Hall). split; [done|]. intros k Hk. apply Hall in Hk. rewrite all_stales_slots. apply elem_of_slots.
      exists (pc_index pc), (pc_stales pc). split; [|done]. apply list_elem_of_fmap. by exists pc.
  - destruct (pieces_kept _ _ Hok t Ht Hn) as [_ _ _ Hch]. destruct (cs0 !! t) as [c|] eqn:Hc; [exfalso; apply Hlive; right; by rewrite Hc|].
    destruct Hch as (Hm & _ & Hall). split; [done|]. intros k Hk%Hall. by apply elem_of_nil in Hk.
Qed.

Lemma adds_nil : (∀ pc n, pc ∈ pcs → pc_node pc = Some n → Node_is_leaf n = true) → all_adds pcs = [].
Proof.
  intros Hleaf. unfold all_adds. assert (Hall : ∀ pc, pc ∈ pcs → pc_adds pc = []).
  { intros pc Hin. destruct (pc_node pc) as [n|] eqn:En; [|by apply piece_none]. by apply (st_leaf _ _ _ _ _ _ _ _ (piece_some pc n Hin En)), (Hleaf pc). }
  clear Hok Hleaf. induction pcs as [|pc l IH]; [done|]. cbn. rewrite Hall; [by left|]. apply IH. intros pc' Hin. apply Hall. by right.
Qed.

Lemma stales_old k x : (k, x) ∈ all_stales pcs → (∃ t, t ∈ pc_index <$> pcs ∧ Olds t k) ∧ rd k = Ok (Some x).
Proof.
  rewrite all_stales_slots.
  intros (t & s & (pc & [= -> ->] & Hin)%list_elem_of_fmap & Hx)%elem_of_concat. pose proof (piece_in pc Hin) as Hpc. unfold piece_ok in Hpc.
  assert (unused rd (Olds (pc_index pc)) (pc_stales pc)) as [_ Hu] by (destruct (pc_node pc); [apply Hpc|apply Hpc]).
  apply Hu in Hx as [Ho Hrd]. split; [|done]. exists (pc_index pc). split; [by apply list_elem_of_fmap_2|done].
Qed.

Lemma stales_NoDup : NoDup (all_stales pcs).*1.
Proof.
  rewrite all_stales_slots.
  assert (Hu : ∀ pc, pc ∈ pcs → unused rd (Olds (pc_index pc)) (pc_stales pc)).
  { intros pc Hin. pose proof (piece_in pc Hin) as Hpc. unfold piece_ok in Hpc. destruct (pc_node pc); apply Hpc. }
  apply (slots_NoDup p); [rewrite (slot_index pc_stales); apply Hok| |].
  - intros t s k (pc & [= -> ->] & Hin)%list_elem_of_fmap ([k' x] & -> & Hx)%list_elem_of_fmap. apply (Hu pc Hin) in Hx as [Ho _].
    apply HOlds; [by apply piece_nibble|done].
  - intros t s (pc & [= -> ->] & Hin)%list_elem_of_fmap. by apply Hu.
Qed.
End few.

(** ** Joining new children *)

Lemma created_nil_live pcs t : created pcs = [] → ¬ live pcs ∅ t.
Proof. intros E [Hin|[_ [c Hc]]]; [rewrite E in Hin; by apply elem_of_nil in Hin|by rewrite lookup_empty in Hc]. Qed.

Lemma created_one_live pcs t t' n : created pcs = [(t, n)] → live pcs ∅ t' → t' = t.
Proof. intros E [Hin|[_ [c Hc]]]; [rewrite E in Hin; by apply list_elem_of_singleton in Hin|by rewrite lookup_empty in Hc]. Qed.

Lemma fresh_stales pcs cs0 : (∀ t k, ¬ Olds t k) → pieces_ok pcs cs0 → all_stales pcs = [].
Proof.
  intros Hno Hok. destruct (all_stales pcs) as [|[k x] l] eqn:E; [done|]. exfalso.
  destruct (stales_old pcs cs0 Hok k x) as [(t & _ & Ho) _]; [rewrite E; by left|]. by apply (Hno t k).
Qed.

Lemma join_ok v pcs b :
  (∀ t k, ¬ Olds t k) → has_slots b → pieces_ok pcs ∅ →
  ∃ o b' adds, join_children (node_at v p) version cache (created pcs) b = Ret (Ok (o, b')) ∧
    grows version b b' adds [] ∧ replaced rd version M' (λ _, False) p o (all_adds pcs ++ adds) (all_stales pcs).
Proof.
  intros Hno Hb Hok.
  pose proof (fresh_stales pcs ∅ Hno Hok) as Hstale.
  assert (Hun : unused rd (λ _, False) ([] : list entry)) by (split; [constructor|by intros k x ?%elem_of_nil]).
  assert (Hnode : ∀ t n, (t, n) ∈ created pcs → is_nibble t ∧ ∃ a s, subtree rd version M' (Olds t) (p ++ [t]) n a s).
  { intros t n (pc & Hin & <- & Hn)%elem_of_created. split; [by eapply piece_nibble|]. eexists _, _. by eapply piece_some. }
  assert (Hver : ∀ t k, Olds t k → nk_version k < version) by (intros t k Ho; exfalso; by apply (Hno t k)).
  assert (Hbig : (2 <= size (restrict p M'))%nat → ∃ n b' adds,
    (let* (children, batch) := try_fold (add_child (node_at v p) version cache) (∅, b) (created pcs) in
     new_internal_node ← InternalNode_new children; Ret (Ok (Some (Node_Internal new_internal_node), batch))) = Ret (Ok (Some n, b')) ∧
    grows version b b' adds [] ∧ subtree rd version M' (λ _, False) p n (all_adds pcs ++ adds) (all_stales pcs)).
  { intros H2. destruct (internal_updated v (λ _, False) [] pcs ∅ (created pcs) b) as (n & b' & adds & E & Hg & Hst); try done.
    - split; [constructor|by intros k x ?%elem_of_nil].
    - by intros k t ?%elem_of_nil.
    - intros k. split; [done|]. intros [?%elem_of_nil|(t & _ & Ho)]; [done|by apply (Hno t k)].
    - by exists n, b', adds. }
  destruct (created pcs) as [|[t n] [|[t' n'] rest]] eqn:E.
  - exists None, b, []. split_and!; [done|apply grows_refl|]. rewrite Hstale app_nil_r. cbn. split_and!; [|apply (adds_nil pcs ∅ Hok)|done|done].
    + apply (none_here M' HM' p Hlen). intros t Ht. apply (not_live pcs ∅ Hok t Ht). by apply created_nil_live.
    + intros pc n Hin Hn. assert ((pc_index pc, n) ∈ created pcs) as Hc by (apply elem_of_created; by exists pc). rewrite E in Hc. by apply elem_of_nil in Hc.
  - destruct (Hnode t n) as (Ht & a & s & Hst); [by left|]. destruct (Node_is_leaf n) eqn:Hl.
    + destruct n as [|l|]; try done. exists (Some (Node_Leaf l)), b, []. split_and!; [done|apply grows_refl|]. rewrite Hstale app_nil_r (adds_nil pcs ∅ Hok).
      * intros pc n Hin Hn. assert ((pc_index pc, n) ∈ created pcs) as Hc by (apply elem_of_created; by exists pc). rewrite E in Hc.
        apply list_elem_of_singleton in Hc. by simplify_eq.
      * cbn. apply leaf_subtree; [|done|done]. rewrite (only_here M' HM' p Hlen t).
        -- intros t' Ht' Hne. apply (not_live pcs ∅ Hok t' Ht'). intros Hlive. by apply Hne, (created_one_live pcs t t' (Node_Leaf l)).
        -- by apply (subtree_leaf_inv rd version M' (Olds t) _ l a s (Hver t) Hst).
    + destruct Hbig as (n' & b' & adds & E' & Hg & Hst').
      { pose proof (subtree_many rd version M' (Olds t) _ n a s (Hver t) Hst Hl). pose proof (child_size M' HM' p Hlen t). lia. }
      exists (Some n'), b', adds. split_and!; [|done|done]. rewrite -E'. by destruct n.
  - destruct Hbig as (n0 & b' & adds & E' & Hg & Hst').
    { destruct (Hnode t n) as (Ht & a & s & Hst); [by left|]. destruct (Hnode t' n') as (Ht' & a' & s' & Hst''); [right; by left|].
      pose proof (created_NoDup pcs (pieces_NoDup _ _ Hok)) as Hnd. rewrite E in Hnd. cbn in Hnd. apply NoDup_cons in Hnd as [Hn _].
      apply (two_here M' HM' p Hlen t t'); [|by apply (subtree_nonempty rd version M' (Olds t) _ n a s (Hver t))|by apply (subtree_nonempty rd version M' (Olds t') _ n' a' s' (Hver t'))].
      intros ->. apply Hn. by left. }
    exists (Some n0), b', adds. split_and!; [|done|done]. rewrite -E'. by destruct n.
Qed.
End loops.

(** ** Building a subtree *)

Lemma kvs_NoDup p : NoDup (kvs_at U p).*1.
Proof. unfold kvs_at. apply (sublist_NoDup _ (btree_iter U).*1); [apply NoDup_btree_iter|apply fmap_sublist, sublist_filter]. Qed.

(** With two updates below a path, or none at a path that is not a full key, there is a nibble to come. *)
Lemma kvs_not_one p : (∀ kv, kvs_at U p ≠ [kv]) → kvs_at U p ≠ [] ∨ (length p < ROOT_NIBBLE_HEIGHT)%nat → (length p < ROOT_NIBBLE_HEIGHT)%nat.
Proof.
  intros Hone [Hne|?]; [|done]. destruct (decide (length p < ROOT_NIBBLE_HEIGHT)%nat) as [|Hge]; [done|]. exfalso.
  destruct (kvs_at U p) as [|[k o] [|[k' o'] l]] eqn:E; [done|by eapply Hone|].
  assert ((k, o) ∈ kvs_at U p) as [Hk Hp]%kvs_elem by (rewrite E; by left).
  assert ((k', o') ∈ kvs_at U p) as [Hk' Hp']%kvs_elem by (rewrite E; right; by left).
  pose proof (kvs_NoDup p) as Hnd. rewrite E in Hnd. cbn in Hnd. apply NoDup_cons in Hnd as [Hn _]. apply Hn.
  rewrite (has_prefix_full p k k') //; [by apply (HU k o)|by apply (HU k' o')|lia|by left].
Qed.

(** One update below a path, for the only key that was there, if any. *)
Lemma restrict_one p k o :
  kvs_at U p = [(k, o)] → (∀ h, is_Some (restrict p M !! h) → h = k) →
  restrict p M' = match o with Some (value_hash, state_key) => {[k := (value_hash, (state_key, version))]} | None => ∅ end.
Proof.
  intros E Hold. assert ((k, o) ∈ kvs_at U p) as [Hk Hp]%kvs_elem by (rewrite E; by left). apply map_eq. intros h.
  assert (Hh : restrict p M' !! h = if decide (h = k) then new_value version None (Some o) else None).
  { apply option_eq. intros x. rewrite restrict_lookup. unfold M'. rewrite updated_lookup. case_decide as Hd.
    - subst h. rewrite Hk. destruct o as [[vh sk]|]; cbn; naive_solver.
    - split; [|done]. intros [Hx Hph]. destruct (U !! h) as [o'|] eqn:Eh.
      + assert ((h, o') ∈ kvs_at U p) as Hin by (by apply kvs_elem). rewrite E in Hin. apply list_elem_of_singleton in Hin. congruence.
      + cbn in Hx. exfalso. apply Hd, Hold. exists x. by apply restrict_lookup. }
  rewrite Hh. destruct o as [[vh sk]|]; cbn; case_decide as Hd; subst; rewrite ?lookup_singleton_eq ?lookup_empty //. by rewrite lookup_singleton_ne.
Qed.

Lemma foldl_created (pcs : list piece) (acc : list (Z * Node)) :
  foldl (λ cs pc, cs ++ match pc_node pc with Some n => [(pc_index pc, n)] | None => [] end) acc pcs = acc ++ created pcs.
Proof.
  revert acc. induction pcs as [|[t o a s] pcs IH]; intros acc; cbn [foldl]; [by rewrite app_nil_r|]. rewrite IH. destruct o; cbn; by rewrite -app_assoc.
Qed.

Lemma unused_nil Old : unused (K := K) rd Old [].
Proof. split; [constructor|by intros k x ?%elem_of_nil]. Qed.

(** The new leaf, or nothing, for one update. *)
Lemma one_update_ok p k o :
  kvs_at U p = [(k, o)] → (∀ h, is_Some (restrict p M !! h) → h = k) →
  replaced rd version M' (λ _, False) p
    (match o with Some (value_hash, state_key) => Some (Node_Leaf (mkJmtLeaf k value_hash (state_key, version))) | None => None end) [] [].
Proof.
  intros E Hold. pose proof (restrict_one p k o E Hold) as Hm. destruct o as [[vh sk]|]; cbn.
  - apply leaf_subtree; [by rewrite Hm|apply unused_nil|done].
  - split_and!; [done|done|apply unused_nil|done].
Qed.

(** Without old nodes, the pieces are all there is. *)
Lemma fresh_pieces p pcs :
  Forall is_nibble p → Forall (piece_ok p (λ _ _, False)) pcs → NoDup (pc_index <$> pcs) → (∀ t, t ∈ pc_index <$> pcs → is_nibble t) →
  (∀ t, is_nibble t → t ∉ pc_index <$> pcs → restrict (p ++ [t]) M' = ∅) → (size (restrict p M) <= 1)%nat →
  pieces_ok p (λ _ _, False) pcs ∅.
Proof.
  intros Hp Hall Hnd Hnib Hrest Hsize. split; try done.
  - intros t Ht Hn. rewrite lookup_empty. split; [split; [constructor|by intros k x ?%elem_of_nil]|apply unused_nil|done|]. split_and!; [by apply Hrest|done|done].
  - by right.
Qed.

(** The loop of [batch_update_subtree] and what follows it. *)
Definition subtree_split (fuel : nat) (node_key : NodeKey) (kvs : list (HashValue * option (HashValue * K))) (depth : nat) (batch : Batch) :
    comp (result jmt_error (option Node * Batch)) :=
  ranges ← nibble_ranges kvs depth;
  let* (children, batch) := try_fold (λ '(children, batch) '(lo, hi),
    first ← expect (kvs !! lo);
    child_index ← get_nibble first.1 depth;
    child_node_key ← gen_child_node_key node_key version child_index;
    let* (new_child_node, batch) :=
      batch_update_subtree fuel child_node_key version (slice kvs lo hi) (S depth) cache batch in
    Ret (Ok (children ++ match new_child_node with Some n => [(child_index, n)] | None => [] end, batch)))
    ([], batch) ranges in
  join_children node_key version cache children batch.

Lemma batch_update_subtree_split fuel key kvs depth b :
  (∀ kv, kvs ≠ [kv]) → batch_update_subtree (S fuel) key version kvs depth cache b = subtree_split fuel key kvs depth b.
Proof.
  intros Hone. destruct kvs as [|[k o] [|kv rest]]; [done|by destruct (Hone (k, o))|]. by destruct o as [[vh sk]|].
Qed.

Lemma batch_update_subtree_one fuel key k (o : option (HashValue * K)) depth (b : Batch) :
  batch_update_subtree fuel key version [(k, o)] depth cache b =
    Ret (Ok (match o with Some (value_hash, state_key) => Some (Node_Leaf (mkJmtLeaf k value_hash (state_key, version))) | None => None end, b)).
Proof. by destruct fuel, o as [[vh sk]|]. Qed.

Lemma restrict_child_empty p t : (length p < ROOT_NIBBLE_HEIGHT)%nat → restrict p M = ∅ → restrict (p ++ [t]) M = ∅.
Proof. intros Hp E. rewrite restrict_snoc // E. apply map_filter_empty. Qed.

Lemma one_dec {A} (l : list A) : (∃ a, l = [a]) ∨ ∀ a, l ≠ [a].
Proof. destruct l as [|a [|b l]]; [by right|left; by exists a|by right]. Qed.

Lemma batch_update_subtree_ok fuel p v b :
  Forall is_nibble p → (length p <= ROOT_NIBBLE_HEIGHT)%nat → (ROOT_NIBBLE_HEIGHT - length p < fuel)%nat → restrict p M = ∅ →
  kvs_at U p ≠ [] ∨ (length p < ROOT_NIBBLE_HEIGHT)%nat → has_slots b →
  ∃ o b' adds, batch_update_subtree fuel (node_at v p) version (kvs_at U p) (length p) cache b = Ret (Ok (o, b')) ∧
    grows version b b' adds [] ∧ replaced rd version M' (λ _, False) p o adds [].
Proof.
  revert p v b. induction fuel as [|fuel IH]; intros p v b Hp Hle Hfuel Hempty Hsome Hb; [lia|].
  destruct (one_dec (kvs_at U p)) as [[[k o] E]|Hone].
  { rewrite E batch_update_subtree_one. eexists _, b, []. split_and!; [done|apply grows_refl|]. apply one_update_ok; [done|].
    intros h. rewrite Hempty lookup_empty. by intros [? ?]. }
  pose proof (kvs_not_one p Hone Hsome) as Hlen. rewrite batch_update_subtree_split //. unfold subtree_split.
  destruct (ranges_at U HU p Hlen) as (rs & ns & -> & Hrs & Hnd & Hns & Hnib). run.
  match goal with |- context [try_fold ?f _ rs] =>
    destruct (ranges_loop p (λ _ _, False) f (λ cs t o, cs ++ match o with Some n => [(t, n)] | None => [] end) rs ns [] b) as (pcs & b1 & E1 & Hidx & Hall & Hg)
  end; [|done|done|].
  { intros cs b0 [lo hi] t (a & Ha & Hka & Ht & Hs) Hin Hb0. cbn [fst snd] in *. rewrite Ha. cbn [expect]. run. rewrite get_nibble_Ret // Ht. run.
    unfold node_at. rewrite (gen_child_ok (length p)) //; [by apply Hnib|]. run. change (mkNodeKey version (pack (p ++ [t]))) with (node_at version (p ++ [t])).
    rewrite Hs. replace (S (length p)) with (length (p ++ [t])) by (rewrite length_app /=; lia).
    destruct (IH (p ++ [t]) version b0) as (o & b' & adds & E & Hg & Hok).
    - apply Forall_app. split; [done|]. constructor; [by apply Hnib|constructor].
    - rewrite length_app /=. lia.
    - rewrite length_app /=. lia.
    - by apply restrict_child_empty.
    - left. by apply Hns.
    - done.
    - rewrite E. run. cbn [try]. by exists o, adds, [], b'. }
  rewrite foldl_created in E1. rewrite E1. run. cbn [try app].
  assert (Hok : pieces_ok p (λ _ _, False) pcs ∅).
  { apply fresh_pieces; rewrite ?Hidx //; [|rewrite Hempty map_size_empty; lia]. intros t Ht Hn. rewrite untouched; [|by apply restrict_child_empty].
    destruct (kvs_at U (p ++ [t])) eqn:Ek; [done|]. exfalso. apply Hn, Hns. by rewrite Ek. }
  destruct (join_ok p (λ _ _, False) Hp Hlen ltac:(done) v pcs b1) as (o & b2 & adds & E2 & Hg2 & Hrep); [by intros t k []|by eapply grows_has_slots|done|].
  rewrite (fresh_stales p (λ _ _, False) pcs ∅) // in Hg Hrep; [by intros t k []|].
  exists o, b2, (all_adds pcs ++ adds). split_and!; [done|by apply (grows_trans _ _ _ _ _ _ [] [] Hg Hg2)|done].
Qed.

(** ** Building a subtree next to a leaf *)

(** The loop of [batch_update_subtree_with_existing_leaf] and what follows it. *)
Definition existing_split (fuel : nat) (node_key : NodeKey) (leaf : LeafNode K) (kvs : list (HashValue * option (HashValue * K))) (depth : nat) (batch : Batch) :
    comp (result jmt_error (option Node * Batch)) :=
  existing_leaf_bucket ← get_nibble (account_key leaf) depth;
  ranges ← nibble_ranges kvs depth;
  let* (isolated_existing_leaf, children, batch) := try_fold (λ '(isolated_existing_leaf, children, batch) '(lo, hi),
    first ← expect (kvs !! lo);
    child_index ← get_nibble first.1 depth;
    child_node_key ← gen_child_node_key node_key version child_index;
    let own_bucket := existing_leaf_bucket =? child_index in
    let* (new_child_node, batch) :=
      if own_bucket : bool then
        batch_update_subtree_with_existing_leaf fuel child_node_key version leaf (slice kvs lo hi) (S depth) cache batch
      else batch_update_subtree fuel child_node_key version (slice kvs lo hi) (S depth) cache batch in
    Ret (Ok (isolated_existing_leaf && negb own_bucket,
             children ++ match new_child_node with Some n => [(child_index, n)] | None => [] end, batch)))
    (true, [], batch) ranges in
  let children := if isolated_existing_leaf : bool then children ++ [(existing_leaf_bucket, Node_Leaf leaf)] else children in
  join_children node_key version cache children batch.

Lemma existing_leaf_split fuel key leaf kvs depth b :
  (∀ value, kvs ≠ [(account_key leaf, value)]) →
  batch_update_subtree_with_existing_leaf (S fuel) key version leaf kvs depth cache b = existing_split fuel key leaf kvs depth b.
Proof.
  intros Hone. destruct kvs as [|[k o] [|kv rest]]; [done| |by destruct o].
  cbn [batch_update_subtree_with_existing_leaf]. case_bool_decide as Hk; [subst k; by destruct (Hone o)|done].
Qed.

Lemma existing_leaf_one fuel key leaf (o : option (HashValue * K)) depth (b : Batch) :
  batch_update_subtree_with_existing_leaf fuel key version leaf [(account_key leaf, o)] depth cache b =
    Ret (Ok (match o with Some (value_hash, state_key) => Some (Node_Leaf (mkJmtLeaf (account_key leaf) value_hash (state_key, version))) | None => None end, b)).
Proof. destruct fuel, o as [[vh sk]|]; cbn [batch_update_subtree_with_existing_leaf]; by rewrite bool_decide_eq_true_2. Qed.

Lemma foldl_isolated (bucket : Z) (pcs : list piece) (iso : bool) (acc : list (Z * Node)) :
  foldl (λ x pc, (x.1 && negb (bucket =? pc_index pc), x.2 ++ match pc_node pc with Some n => [(pc_index pc, n)] | None => [] end)) (iso, acc) pcs =
    (iso && bool_decide (bucket ∉ pc_index <$> pcs), acc ++ created pcs).
Proof.
  revert iso acc. induction pcs as [|[t o a s] pcs IH]; intros iso acc; cbn [foldl].
  - rewrite app_nil_r bool_decide_eq_true_2; [|by rewrite andb_true_r]. apply not_elem_of_nil.
  - rewrite IH. cbn [fst snd pc_index pc_node fmap list_fmap]. f_equal; [|destruct o; cbn; by rewrite -app_assoc].
    rewrite -andb_assoc. f_equal. destruct (Z.eqb_spec bucket t) as [->|Hne]; cbn.
    + rewrite bool_decide_eq_false_2 //. intros Hn. apply Hn. by left.
    + apply bool_decide_ext. rewrite not_elem_of_cons. tauto.
Qed.

Section leaf_below.
Context (p : list Z) (leaf : LeafNode K) (Hlen : (length p < ROOT_NIBBLE_HEIGHT)%nat).
Context (Hleaf : restrict p M = {[account_key leaf := (leaf_value_hash leaf, value_index leaf)]}).

Lemma leaf_key_ok : hash_ok (account_key leaf) ∧ has_prefix p (account_key leaf).
Proof.
  assert (restrict p M !! account_key leaf = Some (leaf_value_hash leaf, value_index leaf)) as E by (rewrite Hleaf; apply lookup_singleton_eq).
  apply restrict_lookup in E as [E Hp]. split; [|done]. by apply (HM _ _ E).
Qed.

Lemma leaf_bucket : restrict (p ++ [key_nibble (account_key leaf) (length p)]) M = {[account_key leaf := (leaf_value_hash leaf, value_index leaf)]}.
Proof. rewrite restrict_snoc // Hleaf. unfold sub. by rewrite map_filter_singleton_True. Qed.

Lemma other_bucket t : t ≠ key_nibble (account_key leaf) (length p) → restrict (p ++ [t]) M = ∅.
Proof. intros Hne. rewrite restrict_snoc // Hleaf. unfold sub. rewrite map_filter_singleton_False //. Qed.
End leaf_below.

Lemma existing_not_one p leaf :
  restrict p M = {[account_key leaf := (leaf_value_hash leaf, value_index leaf)]} → (∀ o, kvs_at U p ≠ [(account_key leaf, o)]) →
  kvs_at U p ≠ [] ∨ (length p < ROOT_NIBBLE_HEIGHT)%nat → (length p < ROOT_NIBBLE_HEIGHT)%nat.
Proof.
  intros Hleaf Hone Hsome. destruct (one_dec (kvs_at U p)) as [[[k o] E]|?]; [|by apply kvs_not_one].
  destruct (decide (length p < ROOT_NIBBLE_HEIGHT)%nat) as [|Hge]; [done|]. exfalso. apply (Hone o). rewrite E. do 2 f_equal.
  assert ((k, o) ∈ kvs_at U p) as [Hk Hp]%kvs_elem by (rewrite E; by left). destruct (leaf_key_ok p leaf Hleaf) as [Hlk Hlp].
  apply (has_prefix_full p); [by apply (HU k o)|done|lia|done..].
Qed.

Lemma all_adds_app pcs pcs' : all_adds (pcs ++ pcs') = all_adds pcs ++ all_adds pcs'.
Proof. unfold all_adds. by rewrite fmap_app concat_app. Qed.

(** The pieces next to a leaf: the leaf itself is one, unless it has been updated. *)
Definition with_leaf (bucket : Z) (leaf : LeafNode K) (pcs : list piece) : list piece :=
  if bool_decide (bucket ∉ pc_index <$> pcs) then pcs ++ [mkPiece bucket (Some (Node_Leaf leaf)) [] []] else pcs.

Lemma created_with_leaf bucket leaf pcs :
  created (with_leaf bucket leaf pcs) =
    if bool_decide (bucket ∉ pc_index <$> pcs) then created pcs ++ [(bucket, Node_Leaf leaf)] else created pcs.
Proof. unfold with_leaf. case_bool_decide; [|done]. unfold created. by rewrite omap_app. Qed.

Lemma adds_with_leaf bucket leaf pcs : all_adds (with_leaf bucket leaf pcs) = all_adds pcs.
Proof. unfold with_leaf. case_bool_decide; [|done]. by rewrite all_adds_app app_nil_r. Qed.

Lemma stales_with_leaf bucket leaf pcs : all_stales (with_leaf bucket leaf pcs) = all_stales pcs.
Proof. unfold with_leaf. case_bool_decide; [|done]. unfold all_stales. by rewrite fmap_app concat_app /= app_nil_r. Qed.

Lemma with_leaf_pieces p leaf pcs :
  Forall is_nibble p → (length p < ROOT_NIBBLE_HEIGHT)%nat →
  restrict p M = {[account_key leaf := (leaf_value_hash leaf, value_index leaf)]} →
  Forall (piece_ok p (λ _ _, False)) pcs → NoDup (pc_index <$> pcs) → (∀ t, t ∈ pc_index <$> pcs → is_nibble t) →
  (∀ t, t ∉ pc_index <$> pcs → kvs_at U (p ++ [t]) = []) →
  pieces_ok p (λ _ _, False) (with_leaf (key_nibble (account_key leaf) (length p)) leaf pcs) ∅.
Proof.
  intros Hp Hlen Hleaf Hall Hnd Hnib Hrest. set (bucket := key_nibble (account_key leaf) (length p)).
  assert (Hb : is_nibble bucket) by (apply key_nibble_ok, (leaf_key_ok p leaf Hleaf)).
  assert (Hsize : (size (restrict p M) <= 1)%nat) by (rewrite Hleaf map_size_singleton; lia).
  unfold with_leaf. case_bool_decide as Hiso.
  - apply fresh_pieces; rewrite ?fmap_app; [done| | | | |done].
    + apply Forall_app. split; [done|]. constructor; [|constructor]. unfold piece_ok. cbn. apply leaf_subtree; [|apply unused_nil|done].
      rewrite untouched; [by apply Hrest|]. by apply leaf_bucket.
    + apply NoDup_app. split_and!; [done| |apply NoDup_singleton]. intros t Ht E%list_elem_of_singleton. cbn in E. by subst t.
    + intros t [Ht|E%list_elem_of_singleton]%elem_of_app; [by apply Hnib|]. cbn in E. by subst t.
    + intros t Ht [Hn Hne]%not_elem_of_app. rewrite untouched; [by apply Hrest|]. apply (other_bucket p leaf Hlen Hleaf). intros ->. apply Hne. by left.
  - apply fresh_pieces; try done. intros t Ht Hn. rewrite untouched; [by apply Hrest|]. apply (other_bucket p leaf Hlen Hleaf). intros ->. by apply Hn.
Qed.

Lemma existing_leaf_ok fuel p v leaf b :
  Forall is_nibble p → (length p <= ROOT_NIBBLE_HEIGHT)%nat → (ROOT_NIBBLE_HEIGHT - length p < fuel)%nat →
  restrict p M = {[account_key leaf := (leaf_value_hash leaf, value_index leaf)]} →
  kvs_at U p ≠ [] ∨ (length p < ROOT_NIBBLE_HEIGHT)%nat → has_slots b →
  ∃ o b' adds, batch_update_subtree_with_existing_leaf fuel (node_at v p) version leaf (kvs_at U p) (length p) cache b = Ret (Ok (o, b')) ∧
    grows version b b' adds [] ∧ replaced rd version M' (λ _, False) p o adds [].
Proof.
  revert p v b. induction fuel as [|fuel IH]; intros p v b Hp Hle Hfuel Hleaf Hsome Hb; [lia|].
  assert (Hcase : (∃ o, kvs_at U p = [(account_key leaf, o)]) ∨ ∀ o, kvs_at U p ≠ [(account_key leaf, o)]).
  { destruct (one_dec (kvs_at U p)) as [[[k o] E]|Hn]; [|right; naive_solver]. destruct (decide (k = account_key leaf)) as [->|Hne]; [left; by exists o|].
    right. intros o'. rewrite E. congruence. }
  destruct Hcase as [[o E]|Hone].
  { rewrite E existing_leaf_one. eexists _, b, []. split_and!; [done|apply grows_refl|]. apply one_update_ok; [done|].
    intros h. rewrite Hleaf. by intros [x [<- _]%lookup_singleton_Some]. }
  pose proof (existing_not_one p leaf Hleaf Hone Hsome) as Hlen. destruct (leaf_key_ok p leaf Hleaf) as [Hlk Hlp].
  rewrite existing_leaf_split //. unfold existing_split. rewrite get_nibble_Ret //. run. set (bucket := key_nibble (account_key leaf) (length p)).
  destruct (ranges_at U HU p Hlen) as (rs & ns & -> & Hrs & Hnd & Hns & Hnib). run.
  match goal with |- context [try_fold ?f _ rs] =>
    destruct (ranges_loop p (λ _ _, False) f (λ x t o, (x.1 && negb (bucket =? t), x.2 ++ match o with Some n => [(t, n)] | None => [] end)) rs ns (true, []) b)
      as (pcs & b1 & E1 & Hidx & Hall & Hg)
  end; [|done|done|].
  { intros [iso cs] b0 [lo hi] t (a & Ha & Hka & Ht & Hs) Hin Hb0. cbn [fst snd] in *. rewrite Ha. cbn [expect]. run. rewrite get_nibble_Ret // Ht. run.
    unfold node_at. rewrite (gen_child_ok (length p)) //; [by apply Hnib|]. run. change (mkNodeKey version (pack (p ++ [t]))) with (node_at version (p ++ [t])).
    rewrite Hs. replace (S (length p)) with (length (p ++ [t])) by (rewrite length_app /=; lia).
    assert (Hpt : Forall is_nibble (p ++ [t])) by (apply Forall_app; split; [done|]; constructor; [by apply Hnib|constructor]).
    assert (Hlt : (length (p ++ [t]) <= ROOT_NIBBLE_HEIGHT)%nat ∧ (ROOT_NIBBLE_HEIGHT - length (p ++ [t]) < fuel)%nat) by (rewrite length_app /=; lia).
    assert (Hkv : kvs_at U (p ++ [t]) ≠ []) by (by apply Hns).
    destruct (Z.eqb_spec bucket t) as [Hbt|Hbt].
    - destruct (IH (p ++ [t]) version b0) as (o & b' & adds & E & Hg & Hok); [done|lia|lia|rewrite -Hbt; by apply leaf_bucket|by left|done|].
      rewrite E. run. cbn [try]. by exists o, adds, [], b'.
    - destruct (batch_update_subtree_ok fuel (p ++ [t]) version b0) as (o & b' & adds & E & Hg & Hok); [done|lia|lia|apply (other_bucket p leaf Hlen Hleaf); by intros ->|by left|done|].
      rewrite E. run. cbn [try]. by exists o, adds, [], b'. }
  rewrite foldl_isolated in E1. rewrite E1. run. cbn [try app fst snd andb]. subst bucket. rewrite -created_with_leaf.
  assert (Hok : pieces_ok p (λ _ _, False) (with_leaf (key_nibble (account_key leaf) (length p)) leaf pcs) ∅).
  { apply with_leaf_pieces; rewrite ?Hidx //. intros t Hn. destruct (kvs_at U (p ++ [t])) eqn:Ek; [done|]. exfalso. apply Hn, Hns. by rewrite Ek. }
  destruct (join_ok p (λ _ _, False) Hp Hlen ltac:(done) v _ b1 ltac:(by intros t k []) ltac:(by eapply grows_has_slots) Hok) as (o & b2 & adds & E2 & Hg2 & Hrep).
  rewrite (fresh_stales p (λ _ _, False) _ ∅ ltac:(by intros t k []) Hok) adds_with_leaf in Hrep.
  pose proof (fresh_stales p (λ _ _, False) _ ∅ ltac:(by intros t k []) Hok) as Hns0. rewrite stales_with_leaf in Hns0. rewrite Hns0 in Hg.
  exists o, b2, (all_adds pcs ++ adds). split_and!; [done|by apply (grows_trans _ _ _ _ _ _ [] [] Hg Hg2)|done].
Qed.

(** ** Rebuilding an internal node *)

Lemma first_entry_None {A} (m : gmap Z A) : first_entry m = None → m = ∅.
Proof. unfold first_entry. destruct (map_to_list m) eqn:E; [|done]. intros _. by apply map_to_list_empty_iff. Qed.

Lemma first_entry_Some {A} (m : gmap Z A) t x : first_entry m = Some (t, x) → m !! t = Some x.
Proof. unfold first_entry. destruct (map_to_list m) as [|e l] eqn:E; [done|]. intros [= ->]. apply elem_of_map_to_list. rewrite E. by left. Qed.

Lemma size_one {A} (m : gmap Z A) t t' : (size m <= 1)%nat → is_Some (m !! t) → is_Some (m !! t') → t' = t.
Proof.
  intros Hs Ht Ht'. destruct (decide (t' = t)) as [|Hne]; [done|]. exfalso. assert (size (delete t m) = 0%nat) as E by (rewrite map_size_delete_Some //; lia).
  apply map_size_empty_inv in E. destruct Ht' as [x Hx]. assert (delete t m !! t' = Some x) as Hx' by (by rewrite lookup_delete_ne). by rewrite E in Hx'.
Qed.

Lemma size_many {A} (m : gmap Z A) : ¬ (size m <= 1)%nat → ∃ t t', t ≠ t' ∧ is_Some (m !! t) ∧ is_Some (m !! t').
Proof.
  intros Hs. assert (m ≠ ∅) as (t & x & Ht)%map_choose by (intros ->; rewrite map_size_empty in Hs; lia).
  assert (delete t m ≠ ∅) as (t' & x' & Ht')%map_choose.
  { intros E%map_size_empty_iff. rewrite map_size_delete_Some in E; [done|lia]. }
  apply lookup_delete_Some in Ht' as [Hne Ht']. by exists t, t'.
Qed.

Lemma sort_children_old (l : list (Z * option Node)) (o : Children) (n : gmap Z Node) t c :
  (foldl sort_children (o, n) l).1 !! t = Some c ↔ (t, None) ∉ l ∧ o !! t = Some c.
Proof.
  revert o n. induction l as [|[t' x] l IH]; intros o n; cbn [foldl].
  - split; [intros Hc; split; [apply not_elem_of_nil|done]|by intros [_ ?]].
  - destruct x as [x|]; cbn [sort_children fst snd]; rewrite IH not_elem_of_cons; [naive_solver|]. rewrite lookup_delete_Some. naive_solver.
Qed.

Lemma sort_children_new (l : list (Z * option Node)) (o : Children) (n : gmap Z Node) t x :
  NoDup l.*1 → (∀ t, t ∈ l.*1 → n !! t = None) →
  (foldl sort_children (o, n) l).2 !! t = Some x ↔ (t, Some x) ∈ l ∨ n !! t = Some x.
Proof.
  revert o n. induction l as [|[t' y] l IH]; intros o n; cbn [foldl].
  - intros _ _. split; [by right|]. intros [?%elem_of_nil|?]; done.
  - cbn [fmap list_fmap fst]. intros [Hn Hnd]%NoDup_cons Hnone. pose proof (Hnone t' ltac:(by left)) as Ht'.
    assert (Hrest : ∀ t, t ∈ l.*1 → n !! t = None) by (intros t0 Ht0; apply Hnone; by right).
    destruct y as [y|]; cbn [sort_children fst snd]; rewrite IH //.
    + intros t0 Ht0. rewrite lookup_insert_ne; [by intros ->|]. by apply Hrest.
    + rewrite elem_of_cons lookup_insert_Some. split; [|naive_solver]. intros [?|[[-> ->]|[? ?]]]; [tauto|by left; left|by right].
    + rewrite elem_of_cons. naive_solver.
Qed.

Section rebuild.
Context (p : list Z) (v : Version) (i : InternalNode) (Hp : Forall is_nibble p) (Hlen : (length p < ROOT_NIBBLE_HEIGHT)%nat).
Context (Hroot : rd (node_at v p) = Ok (Some (Node_Internal i))) (Htree : tree_at (height p) rd p v (restrict p M) (Node_Internal i)).
Context (Hv : v < version).

(** The nodes below the child [t]. *)
Definition below_child (t : Z) (k : NodeKey) : Prop :=
  ∃ c n, children i !! t = Some c ∧ rd (node_at (child_version c) (p ++ [t])) = Ok (Some n) ∧
    in_tree (height (p ++ [t])) rd (p ++ [t]) (child_version c) n k.

Lemma height_child t t' : height (p ++ [t]) = height (p ++ [t']).
Proof. unfold height. by rewrite !length_app. Qed.

Lemma child_tree t :
  is_nibble t →
  match children i !! t with
  | None => restrict (p ++ [t]) M = ∅
  | Some c =>
      ∃ n, rd (node_at (child_version c) (p ++ [t])) = Ok (Some n) ∧ child_version c ≤ v ∧
        child_hash c = path_hash (p ++ [t]) (restrict (p ++ [t]) M) ∧ child_type c = node_type n ∧
        tree_at (height (p ++ [t])) rd (p ++ [t]) (child_version c) (restrict (p ++ [t]) M) n
  end.
Proof.
  intros Ht. pose proof Htree as Hat. rewrite (height_S p t) // in Hat. destruct Hat as (_ & _ & _ & Hat). specialize (Hat t Ht). cbv zeta in Hat.
  by rewrite -restrict_snoc // in Hat.
Qed.

Lemma old_keys k : in_tree (height p) rd p v (Node_Internal i) k ↔ k = node_at v p ∨ ∃ t, is_nibble t ∧ below_child t k.
Proof.
  rewrite (height_S p 0) //. cbn [in_tree]. apply or_iff_compat_l. unfold below_child. split.
  - intros (t & c & n & Ht & Hc & Hrd & Hin). exists t. split; [done|]. exists c, n. by rewrite (height_child t 0).
  - intros (t & Ht & c & n & Hc & Hrd & Hin). exists t, c, n. by rewrite (height_child 0 t).
Qed.

Lemma below_child_ok t k : is_nibble t → below_child t k → nk_version k < version ∧ under (p ++ [t]) k.
Proof.
  intros Ht (c & n & Hc & Hrd & Hin). pose proof (child_tree t Ht) as Hct. rewrite Hc in Hct. destruct Hct as (n' & Hrd' & Hcv & _ & _ & Hat).
  rewrite Hrd in Hrd'. injection Hrd' as <-. split; [|eapply in_tree_under; [|done]; apply Forall_app; by split; [|constructor]].
  pose proof (in_tree_version _ _ _ _ _ _ _ Hat Hin). lia.
Qed.

Lemma kept_child t : is_nibble t → kvs_at U (p ++ [t]) = [] → slot_ok rd version M' p (below_child t) t (children i !! t) [] [].
Proof.
  intros Ht Hno. pose proof (child_tree t Ht) as Hct. pose proof (untouched _ Hno) as Hm. destruct (children i !! t) as [c|] eqn:Hc.
  - destruct Hct as (n & Hrd & Hcv & Hh & Hty & Hat). apply (slot_kept rd version M' p _ t c n (restrict (p ++ [t]) M)); try done.
    + apply Forall_app. by split; [|constructor].
    + lia.
    + intros k. split; [|intros Hin; by exists c, n]. intros (c' & n' & Hc' & Hrd' & Hin). simplify_eq. by rewrite Hrd in Hrd'; simplify_eq.
  - split; [split; [constructor|by intros k x ?%elem_of_nil]|apply unused_nil|by intros k (c & n & Hc' & _); rewrite Hc in Hc'|].
    split_and!; [by rewrite Hm|done|]. intros k (c & n & Hc' & _). by rewrite Hc in Hc'.
Qed.

Context (hash_iter : gmap Z Node → list (Z * Node)) (Hiter : ∀ m, hash_iter m ≡ₚ map_to_list m).
Context (pcs : list piece) (Hall : Forall (piece_ok p below_child) pcs) (Hnd : NoDup (pc_index <$> pcs)).
Context (Hnib : ∀ t, t ∈ pc_index <$> pcs → is_nibble t) (Htouched : ∀ t, t ∈ pc_index <$> pcs ↔ kvs_at U (p ++ [t]) ≠ []).

Definition outcomes : list (Z * option Node) := (λ pc, (pc_index pc, pc_node pc)) <$> pcs.
Definition old_left : Children := (foldl sort_children (children i, ∅) outcomes).1.
Definition new_created : gmap Z Node := (foldl sort_children (children i, ∅) outcomes).2.

Lemma outcomes_fst : outcomes.*1 = pc_index <$> pcs.
Proof. unfold outcomes. by rewrite -list_fmap_compose. Qed.

Lemma elem_of_outcomes t o : (t, o) ∈ outcomes ↔ ∃ pc, pc ∈ pcs ∧ pc_index pc = t ∧ pc_node pc = o.
Proof. unfold outcomes. rewrite list_elem_of_fmap. naive_solver. Qed.

Lemma new_created_lookup t n : new_created !! t = Some n ↔ (t, n) ∈ created pcs.
Proof.
  unfold new_created. rewrite sort_children_new; [by rewrite outcomes_fst|by intros; rewrite lookup_empty|].
  rewrite elem_of_outcomes elem_of_created lookup_empty. naive_solver.
Qed.

Lemma new_created_perm : hash_iter new_created ≡ₚ created pcs.
Proof.
  rewrite Hiter. apply NoDup_Permutation.
  - apply NoDup_map_to_list.
  - apply (NoDup_fmap_1 fst). by apply created_NoDup.
  - intros [t n]. by rewrite elem_of_map_to_list new_created_lookup.
Qed.

Lemma old_left_lookup t c : old_left !! t = Some c → children i !! t = Some c ∧ (t ∉ pc_index <$> pcs ∨ t ∈ (created pcs).*1).
Proof.
  unfold old_left. intros [Hn Hc]%sort_children_old. split; [done|].
  destruct (decide (t ∈ pc_index <$> pcs)) as [(pc & -> & Hin)%list_elem_of_fmap|]; [|by left]. right.
  destruct (pc_node pc) as [n|] eqn:En.
  - apply list_elem_of_fmap. exists (pc_index pc, n). split; [done|]. apply elem_of_created. by exists pc.
  - exfalso. apply Hn, elem_of_outcomes. by exists pc.
Qed.

Lemma old_left_other t : t ∉ pc_index <$> pcs → old_left !! t = children i !! t.
Proof.
  intros Ht. apply option_eq. intros c. unfold old_left. rewrite sort_children_old. split; [by intros [_ ?]|]. intros Hc. split; [|done].
  intros (pc & Hin & <- & _)%elem_of_outcomes. by apply Ht, list_elem_of_fmap_2.
Qed.

Lemma not_touched t : t ∉ pc_index <$> pcs → kvs_at U (p ++ [t]) = [].
Proof. intros Hn. destruct (kvs_at U (p ++ [t])) eqn:E; [done|]. exfalso. apply Hn, Htouched. by rewrite E. Qed.

Lemma rebuild_pieces : pieces_ok p below_child pcs old_left.
Proof.
  split; [done..| | | |].
  - intros t c [Hc _]%old_left_lookup. pose proof Htree as Hat. rewrite (height_S p 0) // in Hat. destruct Hat as (_ & _ & Hkeys & _). by apply (Hkeys t c).
  - intros t Ht Hn. rewrite old_left_other //. apply kept_child; [done|]. by apply not_touched.
  - intros pc Hin Hnone. destruct (old_left !! pc_index pc) as [c|] eqn:E; [|done]. unfold old_left in E. apply sort_children_old in E as [Hn _].
    exfalso. apply Hn, elem_of_outcomes. by exists pc.
  - intros t Ht. left. by apply Htouched.
Qed.

(** A child is left if and only if it is in one of the maps. *)
Lemma rebuild_live t : live pcs old_left t ↔ is_Some (new_created !! t) ∨ is_Some (old_left !! t).
Proof.
  unfold live. assert (Hnew : t ∈ (created pcs).*1 ↔ is_Some (new_created !! t)).
  { split.
    - intros ([t' n] & -> & Hin)%list_elem_of_fmap. exists n. by apply new_created_lookup.
    - intros [n Hn%new_created_lookup]. apply list_elem_of_fmap. by exists (t, n). }
  rewrite Hnew. split; [intros [?|[_ ?]]; [by left|by right]|]. intros [?|[c Hc]]; [by left|].
  destruct (old_left_lookup t c Hc) as [_ [Hn|Hin]]; [right; split; [done|by rewrite Hc]|left; by apply Hnew].
Qed.

Let Hok := rebuild_pieces.
Let HOlds := below_child_ok.
Let root : list entry := [(node_at v p, Node_Internal i)].
Let Old : NodeKey → Prop := in_tree (height p) rd p v (Node_Internal i).

Lemma rebuild_unused : unused rd Old (root ++ all_stales pcs).
Proof.
  split.
  - rewrite fmap_app. apply NoDup_app. split_and!; [apply NoDup_singleton| |by apply (stales_NoDup p below_child HOlds pcs old_left)].
    intros k ->%list_elem_of_singleton ([k' x] & E & Hx)%list_elem_of_fmap. cbn in E. subst k'.
    destruct (stales_old p below_child pcs old_left Hok _ _ Hx) as [(t & Ht & Ho) _]. apply (not_under_self p t v Hp). by apply below_child_ok; [apply Hnib|].
  - intros k x [E%list_elem_of_singleton|Hx]%elem_of_app.
    + simplify_eq. split; [apply in_tree_root|done].
    + destruct (stales_old p below_child pcs old_left Hok _ _ Hx) as [(t & Ht & Ho) Hrd]. split; [|done]. apply old_keys. right. exists t. split; [by apply Hnib|done].
Qed.

Lemma live_nibble t : live pcs old_left t → is_nibble t.
Proof.
  intros [Hin|[_ [c Hc]]]; [by apply Hnib, created_index|]. by apply (pieces_keys _ _ _ _ Hok t c).
Qed.

Lemma live_two t t' : t ≠ t' → live pcs old_left t → live pcs old_left t' → (2 <= size (restrict p M'))%nat.
Proof.
  intros Hne Ht Ht'. apply (two_here M' HM' p Hlen t t' Hne); apply (live_some p below_child HOlds pcs old_left Hok); try done; by apply live_nibble.
Qed.

Lemma live_one t : (∀ t', live pcs old_left t' → t' = t) → restrict p M' = restrict (p ++ [t]) M' ∧
  ∀ k, Old k → k = node_at v p ∨ k ∈ (all_stales pcs).*1 ∨ below_child t k.
Proof.
  intros Hone. assert (Hother : ∀ t', is_nibble t' → t' ≠ t → restrict (p ++ [t']) M' = ∅ ∧ ∀ k, below_child t' k → k ∈ (all_stales pcs).*1).
  { intros t' Ht' Hne. apply (not_live p below_child pcs old_left Hok t' Ht'). intros Hl. by apply Hne, Hone. }
  split.
  - apply (only_here M' HM' p Hlen). intros t' Ht' Hne. by apply Hother.
  - intros k [->|(t' & Ht' & Hk)]%old_keys; [by left|]. right. destruct (decide (t' = t)) as [->|Hne]; [by right|left]. by apply (Hother t').
Qed.

Lemma stales_piece pc k : pc ∈ pcs → k ∈ (pc_stales pc).*1 → k ∈ (all_stales pcs).*1.
Proof.
  intros Hin Hk. rewrite all_stales_slots. apply elem_of_slots. exists (pc_index pc), (pc_stales pc). split; [|done]. apply list_elem_of_fmap. by exists pc.
Qed.

Lemma leaf_of_new t l :
  new_created !! t = Some (Node_Leaf l) → (∀ t', live pcs old_left t' → t' = t) →
  subtree rd version M' Old p (Node_Leaf l) (all_adds pcs) (root ++ all_stales pcs).
Proof.
  intros Hn%new_created_lookup Hone. destruct (live_one t Hone) as [Hm Hold].
  pose proof Hn as (pc & Hin & Ht & Hpn)%elem_of_created. pose proof (piece_some p below_child pcs old_left Hok pc _ Hin Hpn) as Hst. rewrite Ht in Hst.
  assert (Hver : ∀ k, below_child t k → nk_version k < version) by (intros k Hk; apply (below_child_ok t); [rewrite -Ht; by apply Hnib, list_elem_of_fmap_2|done]).
  destruct (subtree_leaf_inv rd version M' _ _ _ _ _ Hver Hst) as (Hleaf & _ & _ & Hcover). rewrite (adds_nil p below_child pcs old_left Hok).
  - intros pc' n Hin' Hn'. assert (pc_index pc' = t) as Ht'.
    { apply Hone. left. apply list_elem_of_fmap. exists (pc_index pc', n). split; [done|]. apply elem_of_created. by exists pc'. }
    rewrite (pieces_inj pcs pc' pc) // in Hn'; congruence || (rewrite Hpn in Hn'; by simplify_eq).
  - apply leaf_subtree; [by rewrite Hm|apply rebuild_unused|]. intros k [->|[Hk|Hk]]%Hold; rewrite fmap_app elem_of_app; [left; by left|by right|].
    right. apply (stales_piece pc); [done|]. by apply Hcover.
Qed.

Lemma leaf_of_old t c :
  created pcs = [] → old_left !! t = Some c → Child_is_leaf c = true → (∀ t', live pcs old_left t' → t' = t) →
  ∃ l, rd (node_at (child_version c) (p ++ [t])) = Ok (Some (Node_Leaf l)) ∧
    subtree rd version M' Old p (Node_Leaf l) (all_adds pcs) (root ++ all_stales pcs ++ [(node_at (child_version c) (p ++ [t]), Node_Leaf l)]).
Proof.
  intros Hnil Hc Hl Hone. destruct (live_one t Hone) as [Hm Hold]. destruct (old_left_lookup t c Hc) as [Hci [Hn|Hin]]; [|rewrite Hnil in Hin; by apply elem_of_nil in Hin].
  assert (Ht : is_nibble t) by (apply live_nibble; right; by rewrite Hc).
  pose proof (child_tree t Ht) as Hct. rewrite Hci in Hct. destruct Hct as (n & Hrd & Hcv & _ & Hty & Hat). rewrite (child_is_leaf_type c n Hty) in Hl. destruct n as [|l|]; try done.
  assert (Hsub : ∀ k, below_child t k ↔ k = node_at (child_version c) (p ++ [t])).
  { intros k. split.
    - intros (c' & n' & Hc' & Hrd' & Hin). simplify_eq. rewrite Hrd in Hrd'. simplify_eq. destruct (height (p ++ [t])); cbn in Hin; tauto.
    - intros ->. exists c, (Node_Leaf l). split_and!; [done..|apply in_tree_root]. }
  exists l. split; [done|]. rewrite (adds_nil p below_child pcs old_left Hok).
  { intros pc' n Hin' Hn'. assert ((pc_index pc', n) ∈ created pcs) as Hc' by (apply elem_of_created; by exists pc'). rewrite Hnil in Hc'. by apply elem_of_nil in Hc'. }
  apply leaf_subtree.
  - rewrite Hm untouched; [by apply not_touched|]. by destruct (height (p ++ [t])).
  - rewrite app_assoc. destruct rebuild_unused as [Hnd0 Hu]. split.
    + rewrite fmap_app. apply NoDup_app. split_and!; [done| |apply NoDup_singleton]. intros k Hk E%list_elem_of_singleton. cbn in E. subst k.
      rewrite fmap_app in Hk. apply elem_of_app in Hk as [E%list_elem_of_singleton|([k' x] & E & Hx)%list_elem_of_fmap].
      * cbn in E. apply (not_under_self p t v Hp). rewrite -E. apply under_self, Forall_app. by split; [|constructor].
      * cbn in E. subst k'. destruct (stales_old p below_child pcs old_left Hok _ _ Hx) as [(t' & Ht' & Ho) _]. apply Hn.
        apply below_child_ok in Ho as [_ Ho]; [|by apply Hnib]. rewrite (under_disjoint p t t' (node_at (child_version c) (p ++ [t]))) //. apply under_self, Forall_app. by split; [|constructor].
    + intros k x [Hx|E%list_elem_of_singleton]%elem_of_app; [by apply Hu|]. simplify_eq. split; [|done]. apply old_keys. right. exists t. split; [done|]. by apply Hsub.
  - intros k [->|[Hk|Hk%Hsub]]%Hold; rewrite !fmap_app !elem_of_app; [left; by left|right; by left|]. right. right. subst k. by left.
Qed.

(** What is left is one leaf, or at least two keys. *)
Definition collapsed (b : Batch) (r : option (Node * Batch)) : Prop :=
  match r with
  | Some (n, b') => ∃ stales, grows version b b' [] stales ∧ subtree rd version M' Old p n (all_adds pcs) (root ++ all_stales pcs ++ stales)
  | None => (2 <= size (restrict p M'))%nat
  end.

Lemma collapsed_new b t l : new_created !! t = Some (Node_Leaf l) → (∀ t', live pcs old_left t' → t' = t) → collapsed b (Some (Node_Leaf l, b)).
Proof. intros Hn Hone. exists []. split; [apply grows_refl|]. rewrite app_nil_r. by eapply leaf_of_new. Qed.

Lemma internal_new_many t n : new_created !! t = Some n → Node_is_leaf n = false → (2 <= size (restrict p M'))%nat.
Proof.
  intros (pc & Hin & Ht & Hpn)%new_created_lookup%elem_of_created Hl. pose proof (piece_some p below_child pcs old_left Hok pc _ Hin Hpn) as Hst.
  pose proof (child_size M' HM' p Hlen (pc_index pc)). assert (Hver : ∀ k, below_child (pc_index pc) k → nk_version k < version).
  { intros k Hk. apply (below_child_ok (pc_index pc)); [by apply Hnib, list_elem_of_fmap_2|done]. }
  pose proof (subtree_many rd version M' _ _ _ _ _ Hver Hst Hl). lia.
Qed.

Lemma internal_old_many t c : new_created = ∅ → old_left !! t = Some c → Child_is_leaf c = false → (2 <= size (restrict p M'))%nat.
Proof.
  intros Hnil Hc Hl. assert (Ht : is_nibble t) by (by apply (pieces_keys _ _ _ _ Hok t c)). destruct (old_left_lookup t c Hc) as [Hci Hcase].
  assert (Hn : t ∉ pc_index <$> pcs).
  { destruct Hcase as [|([t' n] & _ & Hin%new_created_lookup)%list_elem_of_fmap]; [done|]. by rewrite Hnil lookup_empty in Hin. }
  pose proof (child_tree t Ht) as Hct. rewrite Hci in Hct. destruct Hct as (n & _ & _ & _ & Hty & Hat). rewrite (child_is_leaf_type c n Hty) in Hl.
  pose proof (child_size M' HM' p Hlen t). pose proof (tree_at_leaf _ _ _ _ _ _ Hat) as Hleaf. pose proof (tree_at_nonempty _ _ _ _ _ _ Hat) as Hne%map_size_non_empty_iff.
  rewrite -(untouched (p ++ [t])) in Hleaf, Hne; [by apply not_touched|]. assert (size (restrict (p ++ [t]) M') ≠ 1%nat) by (rewrite -Hleaf Hl; done). lia.
Qed.

Lemma collapse_ok b :
  has_slots b → ¬ (size old_left = 0%nat ∧ size new_created = 0%nat) →
  ∃ r, collapse rd (node_at v p) version old_left new_created b = Ret (Ok r) ∧ collapsed b r.
Proof.
  intros Hb Hsome. unfold collapse. destruct ((size old_left <=? 1)%nat && (size new_created <=? 1)%nat) eqn:Hsizes.
  2: { exists None. split; [done|]. cbn. apply andb_false_iff in Hsizes as [Hs|Hs]; apply Nat.leb_gt, Nat.lt_nge in Hs.
       - destruct (size_many old_left Hs) as (t & t' & Hne & Ht & Ht'). apply (live_two t t'); [done|apply rebuild_live; by right..].
       - destruct (size_many new_created Hs) as (t & t' & Hne & Ht & Ht'). apply (live_two t t'); [done|apply rebuild_live; by left..]. }
  apply andb_true_iff in Hsizes as [Ho%Nat.leb_le Hn%Nat.leb_le].
  destruct (first_entry new_created) as [[t n]|] eqn:En.
  - apply first_entry_Some in En. assert (Hnew : ∀ t', is_Some (new_created !! t') → t' = t) by (intros t' Ht'; eapply size_one; [exact Hn|by rewrite En|done]).
    destruct (first_entry old_left) as [[t0 c]|] eqn:Eo.
    + apply first_entry_Some in Eo. assert (Hold : ∀ t', is_Some (old_left !! t') → t' = t0) by (intros t' Ht'; eapply size_one; [exact Ho|by rewrite Eo|done]).
      destruct (Z.eqb_spec t0 t) as [->|Hne]; cbn [andb].
      * destruct (Node_is_leaf n) eqn:Hl; [|exists None; split; [done|by apply (internal_new_many t n)]].
        destruct n as [|l|]; try done. eexists. split; [done|]. apply (collapsed_new b t l); [done|]. intros t' [Ht'|Ht']%rebuild_live; [by apply Hnew|by apply Hold].
      * exists None. split; [done|]. apply (live_two t0 t Hne); apply rebuild_live; [right; by rewrite Eo|left; by rewrite En].
    + apply first_entry_None in Eo. destruct (Node_is_leaf n) eqn:Hl; [|exists None; split; [done|by apply (internal_new_many t n)]].
      destruct n as [|l|]; try done. eexists. split; [done|]. apply (collapsed_new b t l); [done|].
      intros t' [Ht'|Ht']%rebuild_live; [by apply Hnew|]. rewrite Eo in Ht'. by destruct Ht'.
  - apply first_entry_None in En. destruct (first_entry old_left) as [[t c]|] eqn:Eo.
    2: { apply first_entry_None in Eo. exfalso. apply Hsome. by rewrite Eo En !map_size_empty. }
    apply first_entry_Some in Eo. cbn [expect]. run. destruct (Child_is_leaf c) eqn:Hl; [|exists None; split; [done|by apply (internal_old_many t c)]].
    assert (Hnil : created pcs = []).
    { destruct (created pcs) as [|[t' n'] l] eqn:Ec; [done|]. assert (new_created !! t' = Some n') as Hx by (apply new_created_lookup; rewrite Ec; by left). by rewrite En in Hx. }
    destruct (leaf_of_old t c Hnil Eo Hl) as (l & Hrd & Hst).
    { intros t' [Ht'|Ht']%rebuild_live; [rewrite En in Ht'; by destruct Ht'|]. eapply size_one; [exact Ho|by rewrite Eo|done]. }
    unfold node_at. rewrite (gen_child_ok (length p)) //; [by apply (pieces_keys _ _ _ _ Hok t c)|]. run.
    change (mkNodeKey (child_version c) (pack (p ++ [t]))) with (node_at (child_version c) (p ++ [t])). unfold get_node. rewrite Hrd. cbn [mbind result_bind try].
    destruct (put_stale_grows version b (node_at (child_version c) (p ++ [t])) (Node_Leaf l) Hb) as (b' & -> & Hg). run. cbn [try]. run. eexists. split; [done|]. by exists [(node_at (child_version c) (p ++ [t]), Node_Leaf l)].
Qed.

Lemma rebuild_empty : size old_left = 0%nat → size new_created = 0%nat →
  replaced rd version M' Old p None (all_adds pcs) (root ++ all_stales pcs).
Proof.
  intros Ho%map_size_empty_inv Hn%map_size_empty_inv. assert (Hnone : ∀ t, ¬ live pcs old_left t).
  { intros t [Ht|Ht]%rebuild_live; [rewrite Hn in Ht|rewrite Ho in Ht]; by destruct Ht. }
  cbn [replaced]. split_and!; [|apply (adds_nil p below_child pcs old_left Hok)|apply rebuild_unused|].
  - apply (none_here M' HM' p Hlen). intros t Ht. by apply (not_live p below_child pcs old_left Hok t Ht).
  - intros pc n Hin Hpn. exfalso. apply (Hnone (pc_index pc)). left. apply list_elem_of_fmap. exists (pc_index pc, n). split; [done|]. apply elem_of_created. by exists pc.
  - intros k [->|(t & Ht & Hk)]%old_keys; rewrite fmap_app elem_of_app; [left; by left|right].
    by apply (not_live p below_child pcs old_left Hok t Ht).
Qed.

Lemma rebuild_ok b :
  has_slots b →
  ∃ o b' adds stales, rebuild_internal hash_iter rd (node_at v p) version i outcomes cache b = Ret (Ok (o, b')) ∧
    grows version b b' adds stales ∧ replaced rd version M' Old p o (all_adds pcs ++ adds) (root ++ all_stales pcs ++ stales).
Proof.
  intros Hb. unfold rebuild_internal. rewrite (surjective_pairing (foldl sort_children (children i, ∅) outcomes)). fold old_left new_created.
  destruct ((size old_left =? 0)%nat && (size new_created =? 0)%nat) eqn:Hz.
  { apply andb_true_iff in Hz as [Ho%Nat.eqb_eq Hn%Nat.eqb_eq]. exists None, b, [], []. split_and!; [done|apply grows_refl|]. rewrite !app_nil_r. by apply rebuild_empty. }
  destruct (collapse_ok b Hb) as (r & -> & Hr).
  { intros [Ho Hn]. by rewrite Ho Hn in Hz. }
  run. cbn [try]. destruct r as [[n b']|]; cbn in Hr.
  - destruct Hr as (stales & Hg & Hst). exists (Some n), b', [], stales. split_and!; [done|done|]. by rewrite app_nil_r.
  - destruct (internal_updated p below_child Hp Hlen HOlds v Old root pcs old_left (hash_iter new_created) b) as (n & b' & adds & E & Hg & Hst); try done.
    + apply new_created_perm.
    + split; [apply NoDup_singleton|]. intros k x Hx%list_elem_of_singleton. simplify_eq. split; [by left|done].
    + intros k t Hk%list_elem_of_singleton. cbn in Hk. subst k. by apply not_under_self.
    + intros k. unfold Old. rewrite old_keys. apply or_iff_compat_r. unfold root. cbn. by rewrite list_elem_of_singleton.
    + exists (Some n), b', adds, []. split_and!; [done|done|]. by rewrite app_nil_r.
Qed.
End rebuild.

(** ** Updating a stored tree *)

Lemma replaced_iff (Old Old' : NodeKey → Prop) p o adds stales :
  (∀ k, Old k ↔ Old' k) → replaced rd version M' Old p o adds stales → replaced rd version M' Old' p o adds stales.
Proof.
  intros Hiff. destruct o as [n|]; cbn.
  - intros [Hw Hb [Hnd Hu] Hl Ht]. split; [done|done|split; [done|]; intros k x Hx; rewrite -Hiff; by apply Hu| |].
    + intros Hn. destruct (Hl Hn) as [Ha Hc]. split; [done|]. intros k Hk%Hiff. by apply Hc.
    + intros rd' He Hk. destruct (Ht rd' He) as [Hat Hin]; [intros k Ho; by apply Hk, Hiff|]. split; [done|]. intros k. by rewrite Hin Hiff.
  - intros (Hm & Ha & [Hnd Hu] & Hc). split_and!; [done|done|split; [done|]; intros k x Hx; rewrite -Hiff; by apply Hu|]. intros k Hk%Hiff. by apply Hc.
Qed.

(** A tree built from scratch in place of one node. *)
Lemma replaced_root key x p o adds :
  rd key = Ok (Some x) → replaced rd version M' (λ _, False) p o adds [] → replaced rd version M' (λ k, k = key) p o adds [(key, x)].
Proof.
  intros Hrd Hr. assert (Hun : unused rd (λ k, k = key) [(key, x)]).
  { split; [apply NoDup_singleton|]. intros k y Hy%list_elem_of_singleton. by simplify_eq. }
  assert (Hc : ∀ k, k = key → k ∈ [(key, x)].*1) by (intros k ->; by left).
  destruct o as [n|]; cbn in *; [|by destruct Hr as (Hm & Ha & _ & _)]. destruct Hr as [Hw Hb _ Hl Ht]. split; [done|done|done| |].
  - intros Hn. destruct (Hl Hn) as [Ha _]. by split.
  - intros rd' He _. destruct (Ht rd' He) as [Hat Hin]; [by intros k []|]. split; [done|]. intros k. rewrite Hin. split; [tauto|].
    intros [?|[?|[Ho Hn]]]; [tauto|tauto|]. exfalso. by apply Hn, Hc.
Qed.

Lemma replaced_none p t i o adds :
  children i !! t = None → replaced rd version M' (λ _, False) (p ++ [t]) o adds [] →
  replaced rd version M' (below_child p i t) (p ++ [t]) o adds [].
Proof. intros Hc. apply replaced_iff. intros k. split; [done|]. intros (c & n & Hc' & _). by rewrite Hc in Hc'. Qed.

Section insert.
Context (hash_iter : gmap Z Node → list (Z * Node)) (Hiter : ∀ m, hash_iter m ≡ₚ map_to_list m).

(** What [batch_insert_at] does at a path. *)
Definition inserts (fuel : nat) (p : list Z) : Prop :=
  ∀ v node b, rd (node_at v p) = Ok (Some node) → tree_at (height p) rd p v (restrict p M) node → v < version →
    kvs_at U p ≠ [] ∨ (length p < ROOT_NIBBLE_HEIGHT)%nat → has_slots b →
    ∃ o b' adds stales, batch_insert_at hash_iter fuel rd (node_at v p) version (kvs_at U p) (length p) cache b = Ret (Ok (o, b')) ∧
      grows version b b' adds stales ∧ replaced rd version M' (in_tree (height p) rd p v node) p o adds stales.

Definition at_child (fuel : nat) (p : list Z) (v : Version) (i : InternalNode) :
    nat * nat → Batch → comp (result jmt_error (Z * option Node * Batch)) :=
  λ '(lo, hi) batch,
  insert_at_child (λ key kvs depth batch, batch_insert_at hash_iter fuel rd key version kvs depth cache batch)
    (node_at v p) i version (kvs_at U p) lo hi (length p) cache batch.

Lemma at_child_ok fuel p v i r t b :
  Forall is_nibble p → (length p < ROOT_NIBBLE_HEIGHT)%nat → tree_at (height p) rd p v (restrict p M) (Node_Internal i) → v < version →
  is_nibble t → kvs_at U (p ++ [t]) ≠ [] → inserts fuel (p ++ [t]) → range_at U p r t → has_slots b →
  ∃ o a s b', at_child fuel p v i r b = Ret (Ok (t, o, b')) ∧ grows version b b' a s ∧ piece_ok p (below_child p i) (mkPiece t o a s).
Proof.
  intros Hp Hlen Htree Hv Ht Hkvs IH (a & Ha & Hka & Hat & Hs) Hb. destruct r as [lo hi]. cbn [fst snd] in *. unfold at_child, insert_at_child.
  rewrite Ha. cbn [expect]. run. rewrite get_nibble_Ret // Hat. run. rewrite Hs. unfold child.
  assert (Hpt : Forall is_nibble (p ++ [t])) by (apply Forall_app; by split; [|constructor]).
  assert (Hl : length (p ++ [t]) = S (length p)) by (rewrite length_app /=; lia). rewrite -Hl.
  pose proof (child_tree p v i Hlen Htree t Ht) as Hct. destruct (children i !! t) as [c|] eqn:Hc.
  - destruct Hct as (n & Hrd & Hcv & _ & _ & Hcat). unfold node_at at 1. rewrite (gen_child_ok (length p)) //. run.
    change (mkNodeKey (child_version c) (pack (p ++ [t]))) with (node_at (child_version c) (p ++ [t])).
    destruct (IH (child_version c) n b Hrd Hcat ltac:(lia) (or_introl Hkvs) Hb) as (o & b' & adds & stales & -> & Hg & Hrep). run. cbn [try].
    exists o, adds, stales, b'. split_and!; [done|done|]. unfold piece_ok. cbn. eapply replaced_iff; [|exact Hrep]. intros k. split; [by exists c, n|].
    intros (c' & n' & Hc' & Hrd' & Hin). simplify_eq. rewrite Hrd in Hrd'. by simplify_eq.
  - unfold node_at at 1. rewrite (gen_child_ok (length p)) //. run. change (mkNodeKey version (pack (p ++ [t]))) with (node_at version (p ++ [t])).
    destruct (batch_update_subtree_ok (S ROOT_NIBBLE_HEIGHT) (p ++ [t]) version b) as (o & b' & adds & -> & Hg & Hrep); [done|lia|lia|done|by left|done|].
    run. cbn [try]. exists o, adds, [], b'. split_and!; [done|done|]. unfold piece_ok. cbn. by apply replaced_none.
Qed.

(** All ranges of an internal node, in both ways. *)
Definition all_children (fuel : nat) (p : list Z) (v : Version) (i : InternalNode) (ranges : list (nat * nat)) (batch : Batch) :
    comp (result jmt_error (list (Z * option Node) * Batch)) :=
  if (length p <=? MAX_PARALLELIZABLE_DEPTH)%nat then
    let* results := try_fold (λ results range,
      let* (index, node, sub_batch) := at_child fuel p v i range TreeUpdateBatch_new in
      Ret (Ok (results ++ [(index, node, sub_batch)]))) [] ranges in
    Ret (Ok (results.*1, foldl combine batch results.*2))
  else
    try_fold (λ '(new_children, batch) range,
      let* (index, node, batch) := at_child fuel p v i range batch in
      Ret (Ok (new_children ++ [(index, node)], batch))) ([], batch) ranges.

Lemma foldl_outcomes (pcs : list piece) acc :
  foldl (λ l pc, l ++ [(pc_index pc, pc_node pc)]) acc pcs = acc ++ outcomes pcs.
Proof. revert acc. induction pcs as [|pc pcs IH]; intros acc; cbn; [by rewrite app_nil_r|]. by rewrite IH -app_assoc. Qed.

Lemma all_children_ok fuel p v i rs ns b :
  Forall is_nibble p → (length p < ROOT_NIBBLE_HEIGHT)%nat → tree_at (height p) rd p v (restrict p M) (Node_Internal i) → v < version →
  Forall2 (range_at U p) rs ns → (∀ t, t ∈ ns → is_nibble t ∧ kvs_at U (p ++ [t]) ≠ []) → (∀ t, is_nibble t → inserts fuel (p ++ [t])) → has_slots b →
  ∃ pcs b', all_children fuel p v i rs b = Ret (Ok (outcomes pcs, b')) ∧ pc_index <$> pcs = ns ∧
    Forall (piece_ok p (below_child p i)) pcs ∧ grows version b b' (all_adds pcs) (all_stales pcs).
Proof.
  intros Hp Hlen Htree Hv Hrs Hns IH Hb. unfold all_children. destruct (length p <=? MAX_PARALLELIZABLE_DEPTH)%nat.
  - destruct (ranges_parallel p (below_child p i) (at_child fuel p v i) rs ns [] b) as (pcs & results & E & Hres & Hidx & Hall & Hg); [|done|].
    { intros r t Hr Hin. destruct (Hns t Hin) as [Ht Hk]. apply at_child_ok; try done. by apply IH. }
    rewrite E. run. cbn [try app]. exists pcs, (foldl combine b results.*2). by rewrite Hres.
  - destruct (ranges_loop p (below_child p i) (λ '(new_children, batch) range, let* (index, node, batch) := at_child fuel p v i range batch in
                Ret (Ok (new_children ++ [(index, node)], batch))) (λ l t o, l ++ [(t, o)]) rs ns [] b) as (pcs & b' & E & Hidx & Hall & Hg); [|done|done|].
    { intros l b0 r t Hr Hin Hb0. destruct (Hns t Hin) as [Ht Hk]. destruct (at_child_ok fuel p v i r t b0) as (o & a & s & b' & E & Hg & Hpc); try done; [by apply IH|].
      rewrite E. run. cbn [try]. by exists o, a, s, b'. }
    rewrite foldl_outcomes in E. exists pcs, b'. by rewrite E.
Qed.

Lemma batch_insert_at_internal fuel p v i b :
  rd (node_at v p) = Ok (Some (Node_Internal i)) →
  batch_insert_at hash_iter (S fuel) rd (node_at v p) version (kvs_at U p) (length p) cache b =
    (batch ← put_stale_node b (node_at v p) version (Node_Internal i);
     ranges ← nibble_ranges (kvs_at U p) (length p);
     let* (new_children, batch) := all_children fuel p v i ranges batch in
     rebuild_internal hash_iter rd (node_at v p) version i new_children cache batch).
Proof. intros Hrd. cbn [batch_insert_at]. unfold get_node. rewrite Hrd. reflexivity. Qed.

Lemma insert_internal fuel p v i b :
  Forall is_nibble p → (length p < ROOT_NIBBLE_HEIGHT)%nat → rd (node_at v p) = Ok (Some (Node_Internal i)) →
  tree_at (height p) rd p v (restrict p M) (Node_Internal i) → v < version → (∀ t, is_nibble t → inserts fuel (p ++ [t])) → has_slots b →
  ∃ o b' adds stales, batch_insert_at hash_iter (S fuel) rd (node_at v p) version (kvs_at U p) (length p) cache b = Ret (Ok (o, b')) ∧
    grows version b b' adds stales ∧ replaced rd version M' (in_tree (height p) rd p v (Node_Internal i)) p o adds stales.
Proof.
  intros Hp Hlen Hrd Htree Hv IH Hb. rewrite (batch_insert_at_internal fuel p v i) //.
  destruct (put_stale_grows version b (node_at v p) (Node_Internal i) Hb) as (b1 & -> & Hg1). run.
  destruct (ranges_at U HU p Hlen) as (rs & ns & -> & Hrs & Hnd & Hns & Hnib). run.
  destruct (all_children_ok fuel p v i rs ns b1) as (pcs & b2 & -> & Hidx & Hall & Hg2); try done.
  { intros t Ht. split; [by apply Hnib|by apply Hns]. }
  { by eapply grows_has_slots. }
  run. cbn [try]. subst ns.
  destruct (rebuild_ok p v i Hp Hlen Hrd Htree Hv hash_iter Hiter pcs Hall Hnd Hnib Hns b2) as (o & b3 & adds & stales & -> & Hg3 & Hrep).
  { do 2 (eapply grows_has_slots; [done|]). done. }
  exists o, b3, (all_adds pcs ++ adds), ((node_at v p, Node_Internal i) :: all_stales pcs ++ stales). split_and!; [done| |done].
  apply (grows_trans _ _ _ _ [] _ [_] _ Hg1). by eapply grows_trans.
Qed.

Lemma batch_insert_at_ok fuel p :
  Forall is_nibble p → (length p <= ROOT_NIBBLE_HEIGHT)%nat → (ROOT_NIBBLE_HEIGHT - length p < fuel)%nat → inserts fuel p.
Proof.
  revert p. induction fuel as [|fuel IH]; intros p Hp Hle Hfuel v node b Hrd Hat Hv Hsome Hb; [lia|]. destruct node as [i|l|]; [| |by destruct (height p)].
  - assert (Hlen : (length p < ROOT_NIBBLE_HEIGHT)%nat) by (destruct (height p) eqn:E; [done|unfold height in E; lia]).
    apply insert_internal; try done. intros t Ht. apply IH; [apply Forall_app; by split; [|constructor]|rewrite length_app /=; lia..].
  - cbn [batch_insert_at]. unfold get_node. rewrite Hrd. cbn [mbind result_bind try].
    destruct (put_stale_grows version b (node_at v p) (Node_Leaf l) Hb) as (b1 & -> & Hg1). run.
    assert (Hm : restrict p M = {[account_key l := (leaf_value_hash l, value_index l)]}) by (by destruct (height p)).
    destruct (existing_leaf_ok (S ROOT_NIBBLE_HEIGHT) p v l b1) as (o & b2 & adds & -> & Hg2 & Hrep); [done|lia|lia|done|done|by eapply grows_has_slots|].
    exists o, b2, adds, [(node_at v p, Node_Leaf l)]. split_and!; [done|by apply (grows_trans _ _ _ _ [] _ [_] [] Hg1)|].
    eapply replaced_iff; [|by apply (replaced_root (node_at v p) (Node_Leaf l))]. intros k. destruct (height p); cbn; tauto.
Qed.
End insert.
End update.
