(* ===== verification/JellyfishSound.v ===== *)
(** * What the tree promises

    Applying updates returns the root hash of the updated state; the nodes written and the
    nodes called stale are exactly the difference between the old tree and the new one.
    Proofs read from a tree verify, and an accepted proof is true. *)
From S2P Require Import Prelude U64 NibblePath SparseMerkle JmtNode JellyfishMerkle JellyfishTree JellyfishUpdate JellyfishInsert.
Local Open Scope Z_scope.
Local Open Scope rust_scope.

Lemma collect_map_keys {V} (l : list (HashValue * V)) : Forall (λ kv, hash_ok kv.1) l → keys_ok (collect_map l).
Proof.
  unfold collect_map. assert (Hacc : keys_ok (∅ : gmap HashValue V)) by done. revert Hacc. generalize (∅ : gmap HashValue V) as acc.
  intros acc Hacc Hl. revert acc Hacc. induction Hl as [|[k v] l Hk _ IH]; intros acc Hacc; [done|]. cbn [foldl]. apply IH.
  unfold keys_ok. by apply map_Forall_insert_2.
Qed.

(** The last entry of a key counts. *)
Lemma collect_map_lookup {V} (l : list (HashValue * V)) k : collect_map l !! k = snd <$> last (filter (λ kv, kv.1 = k) l).
Proof.
  unfold collect_map. induction l as [|[k' v] l IH] using rev_ind; [done|]. rewrite foldl_app filter_app /=. destruct (decide (k' = k)) as [->|Hne].
  - rewrite lookup_insert_eq filter_cons_True // filter_nil last_snoc //.
  - rewrite lookup_insert_ne // filter_cons_False // filter_nil app_nil_r //.
Qed.

Section sound.
Context {SH : SparseMerkleHashers} {K : Type}.
Local Notation Node := (Node K).
Local Notation Reader := (TreeReader K).
Local Notation Batch := (TreeUpdateBatch (K := K)).
Local Notation entry := (NodeKey * Node)%type.
Local Notation state := (gmap HashValue (HashValue * (K * Version))).

(** A store of nodes, and what it is after a batch. *)
Definition reads (nodes : gmap NodeKey Node) : Reader := λ k, Ok (nodes !! k).
Definition write_nodes (nodes : gmap NodeKey Node) (b : Batch) : gmap NodeKey Node := list_to_map (reverse (concat (node_batch b))) ∪ nodes.

(** The keys of the nodes of the tree of a version. *)
Definition tree_nodes (rd : Reader) (v : Version) (k : NodeKey) : Prop :=
  ∃ node, rd (node_at v []) = Ok (Some node) ∧ in_tree ROOT_NIBBLE_HEIGHT rd [] v node k.

(** The tree that an update starts from, if there is one. *)
Definition base_tree (rd : Reader) (persisted_version : option Version) (version : Version) (m : state) : Prop :=
  match persisted_version with Some v => v < version ∧ has_tree rd v m | None => m = ∅ end.

Definition base_nodes (rd : Reader) (persisted_version : option Version) (k : NodeKey) : Prop :=
  match persisted_version with Some v => tree_nodes rd v k | None => False end.

Definition new_nodes (b : Batch) : list entry := concat (node_batch b).
Definition stale_nodes (b : Batch) : list NodeKey := stale_node_key <$> concat (stale_node_index_batch b).

(** What a batch says of the update of [version] that led to the state [m]. *)
Record batch_ok (rd : Reader) (persisted_version : option Version) (version : Version) (m : state) (b : Batch) : Prop := {
  new_nodes_NoDup : NoDup (new_nodes b).*1;
  new_nodes_version : ∀ k x, (k, x) ∈ new_nodes b → nk_version k = version;
  new_leaves_counted : num_new_leaves b = leaves (new_nodes b);
  stale_nodes_NoDup : NoDup (stale_nodes b);
  stale_nodes_since : ∀ i, i ∈ concat (stale_node_index_batch b) → stale_since_version i = version;
  stale_nodes_base : ∀ k, k ∈ stale_nodes b → base_nodes rd persisted_version k;
  new_tree : ∀ rd', extends rd' (new_nodes b) → (∀ k, base_nodes rd persisted_version k → k ∉ stale_nodes b → rd' k = rd k) →
    has_tree rd' version m ∧
    ∀ k, tree_nodes rd' version k ↔ k ∈ (new_nodes b).*1 ∨ (base_nodes rd persisted_version k ∧ k ∉ stale_nodes b);
}.

Lemma in_tree_read h (rd : Reader) p v node k : in_tree h rd p v node k → k = node_at v p ∨ ∃ n, rd k = Ok (Some n).
Proof.
  revert p v node. induction h as [|h IH]; intros p v node; cbn [in_tree].
  - intros [->|Hin]; [by left|by destruct node].
  - intros [->|Hin]; [by left|]. destruct node as [i| |]; [|done..]. destruct Hin as (t & c & n & _ & _ & Hrd & Hin). right.
    destruct (IH _ _ _ Hin) as [->|?]; [by exists n|done].
Qed.

Lemma tree_nodes_read (rd : Reader) v k : tree_nodes rd v k → ∃ n, rd k = Ok (Some n).
Proof. intros (node & Hrd & Hin). destruct (in_tree_read _ _ _ _ _ _ Hin) as [->|?]; [by exists node|done]. Qed.

Lemma tree_nodes_under (rd : Reader) v k : tree_nodes rd v k → under [] k.
Proof. intros (node & _ & Hin). by eapply in_tree_under. Qed.

Lemma tree_nodes_version (rd : Reader) v m k : has_tree rd v m → tree_nodes rd v k → nk_version k ≤ v.
Proof.
  intros (node & Hrd & Hnode) (node' & Hrd' & Hin). rewrite Hrd in Hrd'. simplify_eq. destruct Hnode as [[-> _]|Hat]; [destruct Hin as [->|[]]; done|].
  by eapply in_tree_version.
Qed.

(** A tree depends on its own nodes only. *)
Lemma has_tree_frame (rd rd' : Reader) v m :
  has_tree rd v m → (∀ k, tree_nodes rd v k → rd' k = rd k) → has_tree rd' v m ∧ ∀ k, tree_nodes rd' v k ↔ tree_nodes rd v k.
Proof.
  intros (node & Hrd & Hnode) Hk. assert (Hrd' : rd' (node_at v []) = Ok (Some node)) by (rewrite Hk //; exists node; split; [done|apply in_tree_root]).
  assert (Hsame : ∀ r k, r (node_at v []) = Ok (Some node) → tree_nodes r v k ↔ in_tree ROOT_NIBBLE_HEIGHT r [] v node k).
  { intros r k Hr. split; [|by exists node]. intros (n & Hn & Hin). rewrite Hr in Hn. by simplify_eq. }
  destruct Hnode as [[-> ->]|Hat].
  - split; [exists Node_Null; split; [done|by left]|]. intros k. by rewrite !Hsame.
  - destruct (tree_frame _ rd rd' [] v m node Hat) as [Hat' Hin]; [intros k Hin _; apply Hk; by exists node|constructor|].
    split; [exists node; split; [done|by right]|]. intros k. by rewrite !Hsame.
Qed.

Lemma base_version (rd : Reader) persisted_version version m k :
  base_tree rd persisted_version version m → base_nodes rd persisted_version k → nk_version k < version.
Proof. destruct persisted_version as [v|]; [|done]. intros [Hv Ht] Hk. pose proof (tree_nodes_version _ _ _ _ Ht Hk). lia. Qed.

(** Listing the nodes of a tree. *)
Lemma all_nodes_impl_ok h fuel (rd : Reader) p v m node out :
  tree_at h rd p v m node → rd (node_at v p) = Ok (Some node) → Forall is_nibble p → (h <= height p)%nat → (h < fuel)%nat →
  ∃ keys, get_all_nodes_referenced_impl fuel rd (node_at v p) out = Ret (Ok (out ++ keys)) ∧ ∀ k, k ∈ keys ↔ in_tree h rd p v node k.
Proof.
  revert fuel p v m node out. induction h as [|h IH]; intros fuel p v m node out Hat Hrd Hp Hh Hf; (destruct fuel as [|fuel]; [lia|]); cbn [get_all_nodes_referenced_impl].
  - unfold get_node. rewrite Hrd. cbn [mbind result_bind try]. destruct node as [i|l|]; [done| |done]. run. cbn [try]. exists [node_at v p].
    split; [done|]. intros k. rewrite list_elem_of_singleton. cbn. tauto.
  - unfold get_node. rewrite Hrd. cbn [mbind result_bind try]. destruct node as [i|l|]; [| |done]; cycle 1.
    { run. cbn [try]. exists [node_at v p]. split; [done|]. intros k. rewrite list_elem_of_singleton. cbn. tauto. }
    assert (Hlen : (length p < ROOT_NIBBLE_HEIGHT)%nat) by (unfold height in Hh; lia). destruct Hat as (_ & _ & Hn & Hat).
    assert (Hfold : ∀ l out, (∀ t c, (t, c) ∈ l → children i !! t = Some c) → ∃ keys,
      try_fold (λ out_keys '(child_nibble, child),
        child_key ← gen_child_node_key (node_at v p) (child_version child) child_nibble;
        get_all_nodes_referenced_impl fuel rd child_key out_keys) out l = Ret (Ok (out ++ keys)) ∧
      ∀ k, k ∈ keys ↔ ∃ t c n, (t, c) ∈ l ∧ rd (node_at (child_version c) (p ++ [t])) = Ok (Some n) ∧ in_tree h rd (p ++ [t]) (child_version c) n k); cycle 1.
    { destruct (Hfold (children_sorted i) out) as (keys & E & Hk); [intros t c; apply elem_of_btree_iter|]. rewrite E. run. cbn [try].
      exists (keys ++ [node_at v p]). rewrite app_assoc. split; [done|]. intros k. rewrite elem_of_app list_elem_of_singleton Hk. cbn [in_tree]. split.
      - intros [(t & c & n & Hin & Hr & Hi)| -> ]; [right|by left]. apply elem_of_btree_iter in Hin. exists t, c, n. split_and!; [by apply (Hn t c)|done..].
      - intros [->|(t & c & n & _ & Hc & Hr & Hi)]; [by right|left]. exists t, c, n. by rewrite elem_of_btree_iter. }
    induction l as [|[t c] l IHl]; intros out' Hl; cbn [try_fold].
    { exists []. rewrite app_nil_r. split; [done|]. intros k. split; [by intros ?%elem_of_nil|]. by intros (t & c & n & ?%elem_of_nil & _). }
    assert (Hc : children i !! t = Some c) by (apply Hl; by left). pose proof (Hn t c Hc) as Ht. specialize (Hat t Ht). cbv zeta in Hat. rewrite Hc in Hat.
    destruct Hat as (n & Hr & _ & _ & _ & Hat'). 
    assert (Hg : gen_child_node_key (node_at v p) (child_version c) t = Ret (node_at (child_version c) (p ++ [t]))) by (by apply (gen_child_ok (length p))).
    rewrite Hg. run.
    destruct (IH fuel (p ++ [t]) (child_version c) _ n out' Hat' Hr) as (keys1 & -> & Hk1); [apply Forall_app; by split; [|constructor]|rewrite (height_S p t) // in Hh; lia|lia|].
    run. cbn [try]. destruct (IHl (out' ++ keys1)) as (keys2 & -> & Hk2); [intros t' c' Hin; apply Hl; by right|].
    exists (keys1 ++ keys2). rewrite app_assoc. split; [done|]. intros k. rewrite elem_of_app Hk1 Hk2. split.
    + intros [Hi|(t' & c' & n' & Hin & Hr' & Hi)]; [exists t, c, n; split_and!; [by left|done..]|exists t', c', n'; split_and!; [by right|done..]].
    + intros (t' & c' & n' & [[= -> ->]|Hin]%elem_of_cons & Hr' & Hi); [left|right; by exists t', c', n']. rewrite Hr in Hr'. by simplify_eq.
Qed.

Lemma all_nodes_ok (rd : Reader) v m : has_tree rd v m → ∃ keys, get_all_nodes_referenced rd v = Ret (Ok keys) ∧ ∀ k, k ∈ keys ↔ tree_nodes rd v k.
Proof.
  intros (node & Hrd & Hnode). assert (Hsame : ∀ k, tree_nodes rd v k ↔ in_tree ROOT_NIBBLE_HEIGHT rd [] v node k).
  { intros k. split; [|by exists node]. intros (n & Hn & Hin). rewrite Hrd in Hn. by simplify_eq. }
  unfold get_all_nodes_referenced. change (new_empty_path v) with (Ret (node_at v [])). run. destruct Hnode as [[-> _]|Hat].
  - exists [node_at v []]. split; [cbn [get_all_nodes_referenced_impl]; unfold get_node; by rewrite Hrd|]. intros k. rewrite Hsame list_elem_of_singleton. cbn. tauto.
  - destruct (all_nodes_impl_ok _ (S ROOT_NIBBLE_HEIGHT) rd [] v m node [] Hat Hrd) as (keys & E & Hk); [constructor|done|lia|].
    exists keys. split; [exact E|]. intros k. by rewrite Hk Hsame.
Qed.

Context (hash_iter : gmap Z Node → list (Z * Node)) (Hiter : ∀ m, hash_iter m ≡ₚ map_to_list m).
Context (rd : Reader) (version : Version) (M : state) (U : gmap HashValue (option (HashValue * K))).
Context (HM : keys_ok M) (HU : keys_ok U).
Let M' : state := updated_state version M U.
Context (Hbound : Z.of_nat (size M') < 2 ^ 64) (cache : HashCache) (Hcache : cache_ok version M U cache).

Lemma empty_path v : new_empty_path v = Ret (node_at v []).
Proof. done. Qed.

(** The root of the new tree, before it is written. *)
Definition put_root (persisted_version : option Version) : comp (result jmt_error (option Node * Batch)) :=
  match persisted_version with
  | Some persisted_version =>
      key ← new_empty_path persisted_version;
      batch_insert_at hash_iter (S ROOT_NIBBLE_HEIGHT) rd key version (btree_iter U) 0 cache TreeUpdateBatch_new
  | None =>
      key ← new_empty_path version;
      batch_update_subtree (S ROOT_NIBBLE_HEIGHT) key version (btree_iter U) 0 cache TreeUpdateBatch_new
  end.

Lemma base_nodes_eq v node : rd (node_at v []) = Ok (Some node) → ∀ k, in_tree (height []) rd [] v node k ↔ base_nodes rd (Some v) k.
Proof.
  intros Hrd k. split; [intros Hin; by exists node|]. intros (node' & Hrd' & Hin). rewrite Hrd in Hrd'. by simplify_eq.
Qed.

Lemma put_root_ok persisted_version :
  base_tree rd persisted_version version M →
  ∃ o b adds stales, put_root persisted_version = Ret (Ok (o, b)) ∧ grows version TreeUpdateBatch_new b adds stales ∧
    replaced rd version M' (base_nodes rd persisted_version) [] o adds stales.
Proof.
  assert (Hlen : (length ([] : list Z) < ROOT_NIBBLE_HEIGHT)%nat) by (cbn; lia). unfold put_root. rewrite -kvs_nil.
  destruct persisted_version as [v|]; cbn [base_tree].
  - intros [Hv (node & Hrd & Hnode)]. rewrite empty_path. run. destruct Hnode as [[-> Hm]|Hat].
    + cbn [batch_insert_at]. unfold get_node. rewrite Hrd. cbn [mbind result_bind try].
      destruct (put_stale_grows (K := K) version TreeUpdateBatch_new (node_at v []) Node_Null) as (b1 & -> & Hg1); [done|]. run. cbn [Nat.eqb].
      destruct (batch_update_subtree_ok rd version M U HM HU Hbound cache Hcache (S ROOT_NIBBLE_HEIGHT) [] v b1) as (o & b2 & adds & E & Hg2 & Hrep);
        [constructor|lia|lia|by rewrite restrict_nil|by right|by eapply grows_has_slots|].
      exists o, b2, adds, [(node_at v [], Node_Null)]. split_and!; [exact E|by apply (grows_trans _ _ _ _ [] _ [_] [] Hg1)|].
      eapply replaced_iff; [|by apply (replaced_root rd version M U (node_at v []) Node_Null)]. intros k. rewrite -(base_nodes_eq v Node_Null Hrd). cbn. tauto.
    + destruct (batch_insert_at_ok rd version M U HM HU Hbound cache Hcache hash_iter Hiter (S ROOT_NIBBLE_HEIGHT) []) with (v := v) (node := node) (b := TreeUpdateBatch_new (K := K))
        as (o & b & adds & stales & E & Hg & Hrep); [constructor|lia|lia|done|by rewrite restrict_nil|done|by right|done|].
      exists o, b, adds, stales. split_and!; [exact E|done|]. eapply replaced_iff; [|exact Hrep]. by apply base_nodes_eq.
  - intros Hm. rewrite empty_path. run.
    destruct (batch_update_subtree_ok rd version M U HM HU Hbound cache Hcache (S ROOT_NIBBLE_HEIGHT) [] version (TreeUpdateBatch_new (K := K))) as (o & b & adds & E & Hg & Hrep);
      [constructor|lia|lia|by rewrite restrict_nil|by right|done|]. exists o, b, adds, []. split_and!; [exact E|done|exact Hrep].
Qed.

(** The batch with its root. *)
Lemma grows_batch_ok persisted_version b adds stales root :
  grows version TreeUpdateBatch_new b (adds ++ [(node_at version [], root)]) stales →
  written version [] adds → (∀ k x, (k, x) ∈ adds → ∃ t, under ([] ++ [t]) k) → unused rd (base_nodes rd persisted_version) stales →
  (∀ rd', extends rd' (adds ++ [(node_at version [], root)]) → keeps rd rd' (base_nodes rd persisted_version) stales →
    has_tree rd' version M' ∧
    ∀ k, tree_nodes rd' version k ↔ k = node_at version [] ∨ k ∈ adds.*1 ∨ (base_nodes rd persisted_version k ∧ k ∉ stales.*1)) →
  batch_ok rd persisted_version version M' b.
Proof.
  intros [Hn Hs Hl _ _] [Hnd Hw] Hb [Hsnd Hu] Ht. cbn in Hn, Hs, Hl.
  assert (Hstale : stale_nodes b ≡ₚ stales.*1).
  { unfold stale_nodes. rewrite Hs -list_fmap_compose. done. }
  split.
  - unfold new_nodes. rewrite Hn fmap_app. apply NoDup_app. split_and!; [done| |apply NoDup_singleton].
    intros k ([k' x] & -> & Hx)%list_elem_of_fmap E%list_elem_of_singleton. cbn in E. subst k'. destruct (Hb _ _ Hx) as [t Hu']. by eapply not_under_self.
  - intros k x. unfold new_nodes. rewrite Hn elem_of_app list_elem_of_singleton. intros [Hx|E]; [by apply (Hw k x)|by simplify_eq].
  - rewrite Hl. apply leaves_perm. symmetry. exact Hn.
  - by rewrite Hstale.
  - intros i. rewrite Hs. intros (x & -> & _)%list_elem_of_fmap. done.
  - intros k. rewrite Hstale. intros ([k' x] & -> & Hx)%list_elem_of_fmap. by apply (Hu k' x).
  - intros rd' He Hk. destruct (Ht rd') as [Htree Hin].
    + intros k x Hx. apply He. unfold new_nodes. by rewrite Hn.
    + intros k Ho Hn'. apply Hk; [done|]. by rewrite Hstale.
    + split; [done|]. intros k. rewrite Hin Hstale. unfold new_nodes. rewrite Hn fmap_app elem_of_app /= list_elem_of_singleton. tauto.
Qed.

Lemma put_root_written persisted_version o b adds stales :
  base_tree rd persisted_version version M → grows version TreeUpdateBatch_new b adds stales →
  replaced rd version M' (base_nodes rd persisted_version) [] o adds stales →
  let root := match o with Some n => n | None => Node_Null end in
  (o = None → M' = ∅) ∧ (∀ n, o = Some n → Node_hash n = Ret (smt_root fst M')) ∧
  ∃ b', put_node b (node_at version []) root = Ret b' ∧ batch_ok rd persisted_version version M' b'.
Proof.
  intros Hbase Hg Hrep. cbv zeta. assert (HM' : keys_ok M') by (by apply updated_keys).
  assert (Hver : ∀ k, base_nodes rd persisted_version k → nk_version k < version) by (intros k; by eapply base_version).
  destruct (put_node_grows version b (node_at version []) (match o with Some n => n | None => Node_Null end)) as (b' & -> & Hg'); [by eapply grows_has_slots|].
  pose proof (grows_trans _ _ _ _ _ _ _ _ Hg Hg') as Hg2. rewrite app_nil_r in Hg2. destruct o as [n|]; cbn [replaced] in Hrep; split_and!; try done.
  - intros n' [= <-]. rewrite (subtree_hash rd version M' HM' _ [] n adds stales Hver ltac:(cbn; lia) Hrep). by rewrite restrict_nil.
  - exists b'. split; [done|]. destruct Hrep as [Hw Hb Hu _ Ht]. apply (grows_batch_ok persisted_version b' adds stales n); try done.
    intros rd' He Hk. destruct (Ht rd') as [Hat Hin]; [intros k x Hx; apply He; apply elem_of_app; by left|done|]. rewrite restrict_nil in Hat.
    assert (Hroot : rd' (node_at version []) = Ok (Some n)) by (apply He, elem_of_app; right; by left).
    split; [exists n; split; [done|by right]|]. intros k. rewrite -Hin. split; [|intros; by exists n].
    intros (n' & Hrd' & Hin'). rewrite Hroot in Hrd'. by simplify_eq.
  - intros _. by destruct Hrep as [<- _]; rewrite restrict_nil.
  - exists b'. split; [done|]. destruct Hrep as (Hm & -> & Hu & Hall). rewrite restrict_nil in Hm.
    apply (grows_batch_ok persisted_version b' [] stales Node_Null); try done.
    + split; [constructor|by intros k x ?%elem_of_nil].
    + by intros k x ?%elem_of_nil.
    + intros rd' He Hk. assert (Hroot : rd' (node_at version []) = Ok (Some Node_Null)) by (apply He; by left). split; [exists Node_Null; split; [done|by left]|].
      intros k. split.
      * intros (n' & Hrd' & Hin'). rewrite Hroot in Hrd'. simplify_eq. left. destruct Hin' as [->|[]]; done.
      * intros [->|[?%elem_of_nil|[Ho Hn]]]; [exists Node_Null; split; [done|by left]|done|]. by apply Hall in Ho.
Qed.
End sound.

(** Applying a set of updates: the root hash is that of the updated state, and the batch is
    the difference between the trees. *)
Lemma batch_put_value_set_ok {SH : SparseMerkleHashers} {K} (hash_iter : gmap Z (Node K) → list (Z * Node K)) rd value_set cache persisted_version version M :
  (∀ m, hash_iter m ≡ₚ map_to_list m) → keys_ok M → Forall (λ kv, hash_ok kv.1) value_set → base_tree rd persisted_version version M →
  let u := collect_map value_set in
  let m' := updated_state version M u in
  Z.of_nat (size m') < 2 ^ 64 → cache_ok version M u cache →
  ∃ b, batch_put_value_set hash_iter rd value_set cache persisted_version version = Ret (Ok (smt_root fst m', b)) ∧
    batch_ok rd persisted_version version m' b.
Proof.
  intros Hiter HM Hkeys Hbase u m' Hbound Hcache. assert (HU : keys_ok u) by (by apply collect_map_keys).
  destruct (put_root_ok hash_iter Hiter rd version M u HM HU Hbound cache Hcache persisted_version Hbase) as (o & b & adds & stales & E & Hg & Hrep).
  destruct (put_root_written rd version M u HM HU persisted_version o b adds stales Hbase Hg Hrep) as (Hnone & Hsome & b' & Eput & Hok).
  unfold batch_put_value_set. unfold put_root in E. fold u. rewrite E. run. cbn [try]. rewrite empty_path. run. exists b'. split; [|done]. destruct o as [n|].
  - rewrite (Hsome n eq_refl). run. rewrite Eput. by run.
  - rewrite Eput. run. assert (m' = ∅) as -> by (by apply Hnone). unfold smt_root. by rewrite smt_empty.
Qed.

Lemma node_rows_lookup {K} (l : list (NodeKey * Node K)) k n :
  NoDup l.*1 → (list_to_map (reverse l) : gmap NodeKey (Node K)) !! k = Some n ↔ (k, n) ∈ l.
Proof. intros Hnd. rewrite -elem_of_list_to_map; [|by rewrite elem_of_reverse]. by rewrite fmap_reverse reverse_Permutation. Qed.

Lemma write_nodes_lookup {SH : SparseMerkleHashers} {K} (nodes : gmap NodeKey (Node K)) rd persisted_version version m b k n :
  batch_ok rd persisted_version version m b → (∀ k, is_Some (nodes !! k) → nk_version k < version) →
  write_nodes nodes b !! k = Some n ↔ (k, n) ∈ new_nodes b ∨ nodes !! k = Some n.
Proof.
  intros Hb Hold. unfold write_nodes. rewrite lookup_union_Some_raw. fold (new_nodes b).
  pose proof (λ k n, node_rows_lookup (new_nodes b) k n (new_nodes_NoDup _ _ _ _ _ Hb)) as Hnew.
  rewrite Hnew. split; [tauto|]. intros [?|Hk]; [by left|right]. split; [|done]. apply eq_None_not_Some. intros [x Hx%Hnew].
  apply (new_nodes_version _ _ _ _ _ Hb) in Hx. assert (nk_version k < version) by (apply Hold; by exists n). lia.
Qed.

(** C5: An update of a stored tree never fails and is exact.  The root hash is that of the
    updated state; when the batch is written, the tree of the new version is the one for
    that state, and the trees of all versions before are as they were; what the batch adds
    is what the new tree has and the old one has not, and what it marks stale is what the
    old tree has and the new one has not. *)
Theorem update_is_exact {SH : SparseMerkleHashers} {K} (hash_iter : gmap Z (Node K) → list (Z * Node K)) nodes value_set cache persisted_version version M :
  (∀ m, hash_iter m ≡ₚ map_to_list m) → keys_ok M → Forall (λ kv, hash_ok kv.1) value_set →
  base_tree (reads nodes) persisted_version version M → (∀ k, is_Some (nodes !! k) → nk_version k < version) →
  let m' := updated_state version M (collect_map value_set) in
  Z.of_nat (size m') < 2 ^ 64 → cache_ok version M (collect_map value_set) cache →
  ∃ b, batch_put_value_set hash_iter (reads nodes) value_set cache persisted_version version = Ret (Ok (smt_root fst m', b)) ∧
    let nodes' := write_nodes nodes b in
    has_tree (reads nodes') version m' ∧
    (∀ w m, has_tree (reads nodes) w m → has_tree (reads nodes') w m ∧ ∀ k, tree_nodes (reads nodes') w k ↔ tree_nodes (reads nodes) w k) ∧
    (∀ k, k ∈ (new_nodes b).*1 ↔ tree_nodes (reads nodes') version k ∧ ¬ base_nodes (reads nodes) persisted_version k) ∧
    ∀ k, k ∈ stale_nodes b ↔ base_nodes (reads nodes) persisted_version k ∧ ¬ tree_nodes (reads nodes') version k.
Proof.
  intros Hiter HM Hkeys Hbase Hold m' Hbound Hcache. destruct (batch_put_value_set_ok hash_iter _ _ cache _ _ _ Hiter HM Hkeys Hbase Hbound Hcache) as (b & E & Hb).
  exists b. split; [exact E|]. cbv zeta. pose proof (λ k n, write_nodes_lookup nodes _ _ _ _ b k n Hb Hold) as Hw.
  assert (Hkeep : ∀ k, (∃ n, reads nodes k = Ok (Some n)) → reads (write_nodes nodes b) k = reads nodes k).
  { intros k [n Hn]. unfold reads in *. injection Hn as Hn. rewrite Hn. f_equal. apply Hw. by right. }
  assert (Hbv : ∀ k, base_nodes (reads nodes) persisted_version k → nk_version k < version ∧ ∃ n, reads nodes k = Ok (Some n)).
  { intros k Hk. split; [by eapply base_version|]. destruct persisted_version; [by eapply tree_nodes_read|done]. }
  destruct (new_tree _ _ _ _ _ Hb (reads (write_nodes nodes b))) as [Ht Hin].
  { intros k x Hx. unfold reads. f_equal. apply Hw. by left. }
  { intros k Hk _. apply Hkeep. by apply Hbv. }
  assert (Hdisj : ∀ k, k ∈ (new_nodes b).*1 → ¬ base_nodes (reads nodes) persisted_version k).
  { intros k ([k' x] & -> & Hx)%list_elem_of_fmap [Hv _]%Hbv. apply (new_nodes_version _ _ _ _ _ Hb) in Hx. cbn in Hv. lia. }
  split_and!; [done| |..].
  - intros w m Hm. apply has_tree_frame; [done|]. intros k Hk%tree_nodes_read. by apply Hkeep.
  - intros k. rewrite Hin. specialize (Hdisj k). tauto.
  - intros k. rewrite Hin. specialize (Hdisj k). pose proof (stale_nodes_base _ _ _ _ _ Hb k) as Hs. destruct (decide (k ∈ stale_nodes b)); tauto.
Qed.
