(* ===== verification/JmtCodec.v ===== *)
(** * Nodes as bytes

    Models the encodings of [storage/jellyfish-merkle/src/node_type/mod.rs] and of the
    schemas of [storage/aptosdb/src/schema] for nodes and stale node indices.  Reading is
    on the bytes that are left.  BCS of leaf nodes is an interface. *)
From S2P Require Import Prelude U64 NibblePath SparseMerkle JmtNode JellyfishMerkle.
Local Open Scope Z_scope.
Local Open Scope rust_scope.

(** ** Bytes *)

(** [write_u64::<BigEndian>] and the like. *)
Definition be_encode (n : nat) (v : Z) : list Z := reverse (LittleEndian.encode n v).
Definition be_decode (b : list Z) : Z := LittleEndian.decode (reverse b).

(** [Read::read_exact]: the bytes, and what is left. *)
Definition read_exact (n : nat) (reader : list Z) : result jmt_error (list Z * list Z) :=
  if (n <=? length reader)%nat then Ok (take n reader, drop n reader) else Err Anyhow.

Definition read_u8 (reader : list Z) : result jmt_error (Z * list Z) :=
  match reader with [] => Err Anyhow | byte :: reader => Ok (byte, reader) end.

Definition read_u16_le (reader : list Z) : result jmt_error (Z * list Z) :=
  '(b, reader) ← read_exact 2 reader; Ok (LittleEndian.decode b, reader).

Definition read_u64_be (reader : list Z) : result jmt_error (Z * list Z) :=
  '(b, reader) ← read_exact 8 reader; Ok (be_decode b, reader).

(** ** Keys *)

Definition NodeKey_encode (self : NodeKey) : list Z :=
  be_encode 8 (nk_version self) ++ [wrap 8 (Z.of_nat (num_nibbles (nibble_path self)))] ++ path_bytes (nibble_path self).

Definition NodeKey_decode (val : list Z) : comp (result jmt_error NodeKey) :=
  let? (version, reader) := read_u64_be val in
  let? (n, nibble_bytes) := read_u8 reader in
  let num_nibbles := Z.to_nat n in
  if negb (num_nibbles <=? ROOT_NIBBLE_HEIGHT)%nat then Ret (Err Anyhow) else
  if negb ((num_nibbles + 1) / 2 =? length nibble_bytes)%nat then Ret (Err Anyhow) else
  let* nibble_path :=
    if (num_nibbles mod 2 =? 0)%nat then p ← new_even nibble_bytes; Ret (Ok p)
    else
      last_byte ← expect (last nibble_bytes);
      if negb (Z.land last_byte 15 =? 0) then Ret (Err Anyhow) else
      p ← new_odd nibble_bytes; Ret (Ok p) in
  Ret (Ok (mkNodeKey version nibble_path)).

(** [KeyCodec<StaleNodeIndexSchema>], and the same for [StaleNodeIndexCrossEpochSchema]. *)
Definition StaleNodeIndex_encode_key (self : StaleNodeIndex) : list Z :=
  be_encode 8 (stale_since_version self) ++ NodeKey_encode (stale_node_key self).

(** [ensure_slice_len_gt]: longer than the version. *)
Definition StaleNodeIndex_decode_key (data : list Z) : comp (result jmt_error StaleNodeIndex) :=
  if negb (8 <? length data)%nat then Ret (Err Anyhow) else
  let? (stale_since_version, _) := read_u64_be (take 8 data) in
  let* node_key := NodeKey_decode (drop 8 data) in
  Ret (Ok (mkStaleNodeIndex stale_since_version node_key)).

(** ** Numbers of variable length *)

(** The loop of [serialize_u64_varint]; [n] rounds are left. *)
Fixpoint varint_loop (n : nat) (num : Z) (binary : list Z) : comp (list Z) :=
  match n with
  | O =>
      rust_assert (negb (num =? 0));;
      rust_assert (num <=? 255);;
      Ret (binary ++ [wrap 8 num])
  | S n =>
      let low_bits := Z.land (wrap 8 num) 127 in
      let num := Z.shiftr num 7 in
      let more := if num =? 0 then 0 else 128 in
      let binary := binary ++ [Z.lor low_bits more] in
      if more =? 0 then Ret binary else varint_loop n num binary
  end.

Definition serialize_u64_varint (num : Z) (binary : list Z) : comp (list Z) := varint_loop 8 num binary.

(** The loop of [deserialize_u64_varint]; round [i], and [n] are left. *)
Fixpoint read_varint_loop (n : nat) (i num : Z) (reader : list Z) : result jmt_error (Z * list Z) :=
  '(byte, reader) ← read_u8 reader;
  match n with
  | O => Ok (Z.lor num (wrap 64 (Z.shiftl byte 56)), reader)
  | S n =>
      let num := Z.lor num (wrap 64 (Z.shiftl (Z.land byte 127) (i * 7))) in
      if Z.land byte 128 =? 0 then Ok (num, reader) else read_varint_loop n (i + 1) num reader
  end.

Definition deserialize_u64_varint (reader : list Z) : result jmt_error (Z * list Z) := read_varint_loop 8 0 0 reader.

(** ** Internal nodes *)

(** The loop of [serialize]; [n] children are left. *)
Fixpoint serialize_children (n : nat) (children : Children) (existence_bitmap : Z) (binary : list Z) : comp (list Z) :=
  match n with
  | O => Ret binary
  | S n =>
      next_child ← Nibble_from (trailing_zeros existence_bitmap);
      child ← expect (children !! next_child);
      binary ← serialize_u64_varint (child_version child) binary;
      let binary := binary ++ child_hash child in
      binary ← match child_type child with
               | NodeType_Leaf => Ret binary
               | NodeType_Internal leaf_count => serialize_u64_varint leaf_count binary
               | NodeType_Null => Panic
               end;
      serialize_children n children (Z.land existence_bitmap (Z.lnot (Z.shiftl 1 next_child))) binary
  end.

Definition InternalNode_serialize (self : InternalNode) (binary : list Z) : comp (list Z) :=
  '(existence_bitmap, leaf_bitmap) ← generate_bitmaps self;
  let binary := binary ++ LittleEndian.encode 2 existence_bitmap ++ LittleEndian.encode 2 leaf_bitmap in
  serialize_children (Z.to_nat (count_ones existence_bitmap)) (children self) existence_bitmap binary.

(** The loop of [deserialize]. *)
Fixpoint deserialize_children (n : nat) (existence_bitmap leaf_bitmap : Z) (children : Children) (reader : list Z) :
    comp (result jmt_error (Z * Children)) :=
  match n with
  | O => Ret (Ok (existence_bitmap, children))
  | S n =>
      let next_child := trailing_zeros existence_bitmap in
      let? (version, reader) := deserialize_u64_varint reader in
      let? (bytes, reader) := read_exact LENGTH reader in
      let? hash := match from_slice bytes with Some h => Ok h | None => Err Anyhow end in
      let child_bit := Z.shiftl 1 next_child in
      let? (node_type, reader) :=
        if negb (Z.land leaf_bitmap child_bit =? 0) then Ok (NodeType_Leaf, reader)
        else '(leaf_count, reader) ← deserialize_u64_varint reader; Ok (NodeType_Internal leaf_count, reader) in
      nibble ← Nibble_from next_child;
      deserialize_children n (Z.land existence_bitmap (Z.lnot child_bit)) leaf_bitmap
        (<[nibble := mkChild hash version node_type]> children) reader
  end.

Definition InternalNode_deserialize (data : list Z) : comp (result jmt_error InternalNode) :=
  let? (existence_bitmap, reader) := read_u16_le data in
  let? (leaf_bitmap, reader) := read_u16_le reader in
  if existence_bitmap =? 0 then Ret (Err (DecodeError NoChildren)) else
  if negb (Z.land existence_bitmap leaf_bitmap =? leaf_bitmap) then Ret (Err (DecodeError (ExtraLeaves existence_bitmap leaf_bitmap))) else
  let* (existence_bitmap, children) :=
    deserialize_children (Z.to_nat (count_ones existence_bitmap)) existence_bitmap leaf_bitmap ∅ reader in
  rust_assert (existence_bitmap =? 0);;
  r ← InternalNode_new_impl children;
  Ret (map_err (λ _, Anyhow) r).

(** ** Nodes *)

(** BCS of leaf nodes. *)
Class LeafBcs (K : Type) : Type := {
  leaf_to_bytes : LeafNode K → list Z;
  leaf_from_bytes : list Z → option (LeafNode K);
}.

(** [from_bytes] inverts [to_bytes]. *)
Class LeafBcsLaws (K : Type) `{LeafBcs K} : Prop := {
  leaf_roundtrip : ∀ l : LeafNode K, leaf_from_bytes (leaf_to_bytes l) = Some l;
}.

Section node.
Context {K : Type} `{LeafBcs K}.

(** [NodeTag]. *)
Definition TAG_LEAF : Z := 1.
Definition TAG_INTERNAL : Z := 2.
Definition TAG_NULL : Z := 3.

Definition Node_encode (self : Node K) : comp (list Z) :=
  match self with
  | Node_Internal internal_node => InternalNode_serialize internal_node [TAG_INTERNAL]
  | Node_Leaf leaf_node => Ret (TAG_LEAF :: leaf_to_bytes leaf_node)
  | Node_Null => Ret [TAG_NULL]
  end.

Definition Node_decode (val : list Z) : comp (result jmt_error (Node K)) :=
  match val with
  | [] => Ret (Err (DecodeError EmptyInput))
  | tag :: rest =>
      if tag =? TAG_INTERNAL then let* n := InternalNode_deserialize rest in Ret (Ok (Node_Internal n))
      else if tag =? TAG_LEAF then
        Ret (match leaf_from_bytes rest with Some l => Ok (Node_Leaf l) | None => Err Anyhow end)
      else if tag =? TAG_NULL then Ret (Ok Node_Null)
      else Ret (Err (DecodeError (UnknownTag tag)))
  end.
End node.

(** ** Bytes are read as they were written *)

Lemma read_exact_app n a b : length a = n → read_exact n (a ++ b) = Ok (a, b).
Proof.
  intros <-. unfold read_exact. rewrite length_app (proj2 (Nat.leb_le _ _)); [lia|]. by rewrite take_app_length drop_app_length.
Qed.

Lemma le_length n v : length (LittleEndian.encode n v) = n.
Proof. apply LittleEndian.encode_ok. Qed.

Lemma be_length n v : length (be_encode n v) = n.
Proof. unfold be_encode. by rewrite length_reverse le_length. Qed.

Lemma be_roundtrip n v : 0 ≤ v < 256 ^ Z.of_nat n → be_decode (be_encode n v) = v.
Proof. intros Hv. unfold be_decode, be_encode. rewrite reverse_involutive. by apply LittleEndian.decode_encode. Qed.

Lemma read_u64_app v b : 0 ≤ v < 2 ^ 64 → read_u64_be (be_encode 8 v ++ b) = Ok (v, b).
Proof. intros Hv. unfold read_u64_be. rewrite read_exact_app ?be_length //. cbn [mbind result_bind]. by rewrite be_roundtrip. Qed.

Lemma read_u16_app v b : 0 ≤ v < 2 ^ 16 → read_u16_le (LittleEndian.encode 2 v ++ b) = Ok (v, b).
Proof. intros Hv. unfold read_u16_le. rewrite read_exact_app ?le_length //. cbn [mbind result_bind]. by rewrite LittleEndian.decode_encode. Qed.

(** *** Numbers of variable length *)

Lemma land_127 x : Z.land x 127 = x mod 128.
Proof. change 127 with (Z.ones 7). by rewrite Z.land_ones. Qed.

Lemma lor_add x y k : 0 ≤ k → 0 ≤ x < 2 ^ k → Z.lor x (Z.shiftl y k) = x + y * 2 ^ k.
Proof.
  intros Hk Hx. rewrite -Z.shiftl_mul_pow2 //. assert (Z.land x (Z.shiftl y k) = 0) as E; [|by rewrite Z.add_nocarry_lxor // Z.lxor_lor].
  apply Z.bits_inj'. intros i Hi. rewrite Z.land_spec Z.bits_0 Z.shiftl_spec //. destruct (decide (i < k)).
  - rewrite (Z.testbit_neg_r y); [lia|]. by rewrite andb_false_r.
  - by rewrite -(Z.mod_small x (2 ^ k)) // Z.mod_pow2_bits_high; [lia|].
Qed.

Lemma varint_byte low : 0 ≤ low < 128 →
  Z.lor low 0 = low ∧ Z.lor low 128 = low + 128 ∧ Z.land low 127 = low ∧ Z.land (low + 128) 127 = low ∧ Z.land low 128 = 0 ∧ Z.land (low + 128) 128 = 128.
Proof.
  intros Hlow. assert (E : (Z.lor low 0 =? low) && (Z.lor low 128 =? low + 128) && (Z.land low 127 =? low) && (Z.land (low + 128) 127 =? low) &&
    (Z.land low 128 =? 0) && (Z.land (low + 128) 128 =? 128) = true) by (by apply (byte_cases (λ low, (Z.lor low 0 =? low) && (Z.lor low 128 =? low + 128) && (Z.land low 127 =? low) &&
    (Z.land (low + 128) 127 =? low) && (Z.land low 128 =? 0) && (Z.land (low + 128) 128 =? 128)) 128)).
  rewrite !andb_true_iff !Z.eqb_eq in E. tauto.
Qed.

(** The bytes of a number of which [i] times seven bits have been written. *)
Lemma varint_roundtrip n i v :
  (n + i = 8)%nat → 0 ≤ v < 2 ^ 64 → (i ≠ 0%nat → v / 2 ^ (7 * Z.of_nat i) ≠ 0) →
  ∃ b, (∀ binary, varint_loop n (v / 2 ^ (7 * Z.of_nat i)) binary = Ret (binary ++ b)) ∧ Forall is_byte b ∧
    ∀ rest, read_varint_loop n (Z.of_nat i) (v mod 2 ^ (7 * Z.of_nat i)) (b ++ rest) = Ok (v, rest).
Proof.
  revert i. induction n as [|n IH]; intros i Hn Hv Hnz; set (P := 2 ^ (7 * Z.of_nat i)) in *; assert (HP : 0 < P) by (apply Z.pow_pos_nonneg; lia);
    pose proof (Z_div_mod_eq_full v P) as Hdm; pose proof (Z.mod_pos_bound v P HP) as Hmod.
  - assert (i = 8%nat) as -> by lia. change P with (2 ^ 56) in *. assert (Hq : 0 ≤ v / 2 ^ 56 < 256) by lia. exists [v / 2 ^ 56]. split_and!.
    + intros binary. cbn [varint_loop]. rewrite (proj2 (Z.eqb_neq _ _)); [by apply Hnz|]. rewrite (proj2 (Z.leb_le _ _)); [lia|]. run. unfold wrap. by rewrite Z.mod_small.
    + constructor; [unfold is_byte; lia|constructor].
    + intros rest. cbn [read_varint_loop app read_u8 mbind result_bind]. unfold wrap. rewrite (Z.mod_small (Z.shiftl _ _)); [rewrite Z.shiftl_mul_pow2 //; lia|].
      rewrite lor_add //. do 2 f_equal. lia.
  - set (q := v / P) in *. assert (Hq0 : 0 ≤ q) by (apply Z.div_pos; lia). set (low := q mod 128).
    assert (Hlow : 0 ≤ low < 128) by (apply Z.mod_pos_bound; lia). destruct (varint_byte low Hlow) as (L0 & L1 & L2 & L3 & L4 & L5).
    assert (HS : 2 ^ (7 * Z.of_nat (S i)) = P * 128) by (unfold P; rewrite Nat2Z.inj_succ Z.mul_succ_r Z.pow_add_r; [lia..|done]).
    assert (Hq' : q / 128 = v / 2 ^ (7 * Z.of_nat (S i))) by (rewrite HS -Z.div_div; [lia..|done]).
    assert (Hlowb : Z.land (wrap 8 q) 127 = low).
    { rewrite land_127. unfold wrap, low. apply Z.mod_mod_divide. by exists 2. }
    assert (Hacc : Z.lor (v mod P) (wrap 64 (Z.shiftl low (Z.of_nat i * 7))) = v mod 2 ^ (7 * Z.of_nat (S i))).
    { assert (Hle : low * P ≤ v) by (pose proof (Z.mod_le q 128 Hq0 ltac:(lia)); nia).
      rewrite Z.mul_comm. unfold wrap. rewrite (Z.mod_small (Z.shiftl _ _)); [rewrite Z.shiftl_mul_pow2; [lia|]; fold P; nia|].
      rewrite lor_add; [lia|done|]. fold P. rewrite HS Z.rem_mul_r; [lia..|]. fold q low. lia. }
    destruct (Z.eqb_spec (q / 128) 0) as [Hz|Hnz'].
    + exists [low]. split_and!.
      * intros binary. cbn [varint_loop]. rewrite Hlowb Z.shiftr_div_pow2 //. change (2 ^ 7) with 128. rewrite Hz. cbn [Z.eqb]. by rewrite L0.
      * constructor; [unfold is_byte; lia|constructor].
      * intros rest. cbn [read_varint_loop app read_u8 mbind result_bind]. rewrite L4 L2 Hacc. cbn [Z.eqb]. do 2 f_equal. rewrite HS.
        pose proof (Z_div_mod_eq_full v (P * 128)) as Hdm2. rewrite -HS -Hq' Hz in Hdm2. rewrite -HS. lia.
    + destruct (IH (S i)) as (b & Hw & Hb & Hr); [lia|done|by rewrite -Hq'|]. rewrite -Hq' in Hw. exists (low + 128 :: b). split_and!.
      * intros binary. cbn [varint_loop]. rewrite Hlowb Z.shiftr_div_pow2 //. change (2 ^ 7) with 128. rewrite (proj2 (Z.eqb_neq _ _) Hnz'). cbn [Z.eqb]. by rewrite L1 Hw -app_assoc.
      * constructor; [unfold is_byte; lia|done].
      * intros rest. cbn [read_varint_loop app read_u8 mbind result_bind]. rewrite L5 L3 Hacc. cbn [Z.eqb]. rewrite -(Hr rest). f_equal. lia.
Qed.

Lemma read_varint v : 0 ≤ v < 2 ^ 64 →
  ∃ b, (∀ binary, serialize_u64_varint v binary = Ret (binary ++ b)) ∧ Forall is_byte b ∧ ∀ rest, deserialize_u64_varint (b ++ rest) = Ok (v, rest).
Proof.
  intros Hv. destruct (varint_roundtrip 8 0 v) as (b & Hw & Hb & Hr); [done|done|done|]. rewrite Z.div_1_r in Hw. rewrite Z.mod_1_r in Hr. by exists b.
Qed.

(** *** The lowest bit of a bitmap *)

Lemma lowest_bit e : 0 < e → ∃ (t : nat) q, 0 ≤ q ∧ e = (2 * q + 1) * 2 ^ Z.of_nat t.
Proof.
  assert (Hgen : ∀ e, 0 ≤ e → 0 < e → ∃ (t : nat) q, 0 ≤ q ∧ e = (2 * q + 1) * 2 ^ Z.of_nat t); [|intros; apply Hgen; lia].
  apply (Z_binary_ind (λ e, 0 < e → ∃ (t : nat) q, 0 ≤ q ∧ e = (2 * q + 1) * 2 ^ Z.of_nat t)); [lia|..]; intros m Hm IH Hpos.
  - exists 0%nat, m. lia.
  - destruct (IH Hm) as (t & q & Hq & ->). exists (S t), q. split; [done|]. rewrite Nat2Z.inj_succ Z.pow_succ_r; lia.
Qed.

Lemma ldiff_odd q : Z.ldiff (2 * q + 1) 1 = 2 * q.
Proof.
  apply Z.bits_inj'. intros i Hi. rewrite Z.ldiff_spec. destruct (decide (i = 0)) as [->|Hne].
  - by rewrite Z.testbit_odd_0 Z.testbit_even_0.
  - replace i with (Z.succ (i - 1)) by lia. rewrite Z.testbit_odd_succ ?Z.testbit_even_succ; [lia..|]. rewrite (Z.bits_above_log2 1); [lia|cbn; lia|]. by rewrite andb_true_r.
Qed.

Section lowest.
Context (t : nat) (q : Z) (Hq : 0 ≤ q) (Ht : (t < 64)%nat).
Let e : Z := (2 * q + 1) * 2 ^ Z.of_nat t.

Lemma lowest_shift : e = Z.shiftl (2 * q + 1) (Z.of_nat t).
Proof. unfold e. rewrite Z.shiftl_mul_pow2 //. lia. Qed.

Lemma lowest_trailing : trailing_zeros e = Z.of_nat t.
Proof.
  apply trailing_zeros_unique; [lia|..]; rewrite lowest_shift.
  - intros i Hi. rewrite Z.shiftl_spec_low //. lia.
  - intros _. rewrite Z.shiftl_spec; [lia|]. by rewrite Z.sub_diag Z.testbit_odd_0.
Qed.

Lemma lowest_clear : Z.land e (Z.lnot (Z.shiftl 1 (Z.of_nat t))) = 2 * q * 2 ^ Z.of_nat t.
Proof.
  rewrite -Z.ldiff_land lowest_shift -Z.shiftl_ldiff ldiff_odd Z.shiftl_mul_pow2 //. lia.
Qed.

Lemma lowest_count : count_ones e = count_ones (2 * q * 2 ^ Z.of_nat t) + 1.
Proof. unfold e. rewrite !count_ones_shift count_ones_double_succ // count_ones_double //. Qed.

Lemma lowest_bits i : 0 ≤ i → Z.testbit e i = bool_decide (i = Z.of_nat t) || Z.testbit (2 * q * 2 ^ Z.of_nat t) i.
Proof.
  intros Hi. rewrite -lowest_clear Z.land_spec Z.lnot_spec // Z.shiftl_1_l Z.pow2_bits_eqb; [lia|]. case_bool_decide as Hd.
  - subst i. rewrite Z.eqb_refl andb_false_r. cbn. rewrite lowest_shift Z.shiftl_spec; [lia|]. by rewrite Z.sub_diag Z.testbit_odd_0.
  - rewrite (proj2 (Z.eqb_neq _ _)); [congruence|]. by rewrite andb_true_r.
Qed.

Lemma lowest_cleared_bit : Z.testbit (2 * q * 2 ^ Z.of_nat t) (Z.of_nat t) = false.
Proof. rewrite -Z.shiftl_mul_pow2; [lia|]. rewrite Z.shiftl_spec; [lia|]. by rewrite Z.sub_diag Z.testbit_even_0. Qed.
End lowest.

(** *** Children *)

(** A child that can be written. *)
Definition child_ok (c : Child) : Prop :=
  hash_ok (child_hash c) ∧ 0 ≤ child_version c < 2 ^ 64 ∧
  match child_type c with NodeType_Leaf => True | NodeType_Internal n => 0 ≤ n < 2 ^ 64 | NodeType_Null => False end.

(** One child, as it is written and read. *)
Lemma child_roundtrip c :
  child_ok c →
  ∃ b, (∀ binary, (binary ← serialize_u64_varint (child_version c) binary;
                   match child_type c with
                   | NodeType_Leaf => Ret (binary ++ child_hash c)
                   | NodeType_Internal leaf_count => serialize_u64_varint leaf_count (binary ++ child_hash c)
                   | NodeType_Null => Panic
                   end) = Ret (binary ++ b)) ∧ Forall is_byte b ∧
    ∀ rest (leaf : bool) A (f : HashValue → Version → NodeType → list Z → comp (result jmt_error A)), leaf = Child_is_leaf c →
      (let? (version, reader) := deserialize_u64_varint (b ++ rest) in
       let? (bytes, reader) := read_exact LENGTH reader in
       let? hash := match from_slice bytes with Some h => Ok h | None => Err Anyhow end in
       let? (node_type, reader) :=
         if leaf then Ok (NodeType_Leaf, reader)
         else '(leaf_count, reader) ← deserialize_u64_varint reader; Ok (NodeType_Internal leaf_count, reader) in
       f hash version node_type reader) = f (child_hash c) (child_version c) (child_type c) rest.
Proof.
  destruct c as [h v ty]. intros ([Hlen Hh] & Hv & Hty). cbn [child_hash child_version child_type] in *. destruct (read_varint v Hv) as (bv & Hw & Hb & Hr).
  destruct ty as [| |n]; [| done |].
  - exists (bv ++ h). split_and!; [|by apply Forall_app|].
    + intros binary. rewrite Hw. run. by rewrite -app_assoc.
    + intros rest leaf A f ->. rewrite -app_assoc Hr. cbn [try]. rewrite read_exact_app //. cbn [try]. unfold from_slice. by rewrite Hlen.
  - destruct (read_varint n Hty) as (bn & Hwn & Hbn & Hrn). exists (bv ++ h ++ bn). split_and!; [|by rewrite !Forall_app|].
    + intros binary. rewrite Hw. run. by rewrite Hwn -!app_assoc.
    + intros rest leaf A f ->. rewrite -!app_assoc Hr. cbn [try]. rewrite read_exact_app //. cbn [try]. unfold from_slice. rewrite Hlen. cbn [Nat.eqb LENGTH try Child_is_leaf child_type].
      by rewrite Hrn.
Qed.

Lemma count_ones_0 e : 0 ≤ e → count_ones e = 0 → e = 0.
Proof. intros He Hc. destruct (decide (e = 0)) as [|Hne]; [done|]. pose proof (ones_pos e ltac:(lia)). lia. Qed.

Lemma children_roundtrip n e leaf (cs : Children) :
  0 ≤ e → count_ones e = Z.of_nat n →
  (∀ i, 0 ≤ i → Z.testbit e i = true → is_nibble i ∧ ∃ c, cs !! i = Some c ∧ child_ok c ∧ Z.testbit leaf i = Child_is_leaf c) →
  ∃ b, (∀ binary, serialize_children n cs e binary = Ret (binary ++ b)) ∧ Forall is_byte b ∧
    ∀ acc rest, ∃ cs', deserialize_children n e leaf acc (b ++ rest) = Ret (Ok (0, cs')) ∧
      ∀ i, cs' !! i = if Z.testbit e i then cs !! i else acc !! i.
Proof.
  revert e. induction n as [|n IH]; intros e He Hcount Hcs.
  { rewrite (count_ones_0 e He Hcount). exists []. split_and!; [intros binary; cbn; by rewrite app_nil_r|constructor|]. intros acc rest. exists acc. split; [done|].
    intros i. by rewrite Z.testbit_0_l. }
  assert (Hpos : 0 < e) by (destruct (decide (e = 0)) as [->|]; [done|lia]). destruct (lowest_bit e Hpos) as (t & q & Hq & Ee).
  assert (Hbit : Z.testbit e (Z.of_nat t) = true) by (rewrite Ee -Z.shiftl_mul_pow2; [lia|]; rewrite Z.shiftl_spec; [lia|]; by rewrite Z.sub_diag Z.testbit_odd_0).
  destruct (Hcs (Z.of_nat t) ltac:(lia) Hbit) as (Hnib & c & Hc & Hok & Hleaf). assert (Ht : (t < 64)%nat) by (destruct Hnib; lia).
  set (e' := 2 * q * 2 ^ Z.of_nat t).
  destruct (IH e') as (b & Hw & Hb & Hr).
  - unfold e'. pose proof (Z.pow_nonneg 2 (Z.of_nat t)). lia.
  - pose proof (lowest_count t q Hq) as Hlc. rewrite -Ee Hcount in Hlc. unfold e'. lia.
  - intros i Hi Hbi. apply Hcs; [done|]. rewrite Ee lowest_bits //. fold e'. by rewrite Hbi orb_true_r.
  - assert (Etz : trailing_zeros e = Z.of_nat t) by (rewrite Ee; by apply lowest_trailing).
    assert (Ecl : Z.land e (Z.lnot (Z.shiftl 1 (Z.of_nat t))) = e') by (rewrite Ee; by apply lowest_clear).
    assert (Elf : negb (Z.land leaf (Z.shiftl 1 (Z.of_nat t)) =? 0) = Child_is_leaf c).
    { rewrite Z.shiftl_1_l land_pow2; [lia|]. by rewrite negb_involutive. }
    destruct (child_roundtrip c Hok) as (bc & Hwc & Hbc & Hrc). exists (bc ++ b). split_and!; [|by apply Forall_app|].
    + intros binary. cbn [serialize_children]. rewrite Etz Nibble_from_Ret //. run. rewrite Hc. cbn [expect]. run. specialize (Hwc binary).
      destruct (serialize_u64_varint (child_version c) binary) as [b1|]; [|done]. cbn [mbind comp_bind] in Hwc |- *. destruct (child_type c); [| done |].
      * injection Hwc as ->. run. by rewrite Ecl Hw -app_assoc.
      * rewrite Hwc. run. by rewrite Ecl Hw -app_assoc.
    + intros acc rest. destruct (Hr (<[Z.of_nat t := c]> acc) rest) as (cs' & Er & Hlook). exists cs'. split.
      * cbn [deserialize_children]. rewrite Etz -app_assoc. rewrite (Hrc _ _ _ (λ hash version node_type reader, nibble ← Nibble_from (Z.of_nat t);
          deserialize_children n (Z.land e (Z.lnot (Z.shiftl 1 (Z.of_nat t)))) leaf (<[nibble := mkChild hash version node_type]> acc) reader) Elf).
        rewrite Nibble_from_Ret //. run. rewrite Ecl. by destruct c.
      * intros i. rewrite Hlook. destruct (decide (0 ≤ i)) as [Hi|Hi]; [|rewrite !Z.testbit_neg_r; [lia..|]; rewrite lookup_insert_ne //; lia].
        rewrite Ee lowest_bits //. fold e'. case_bool_decide as Hit; cbn [orb]; [subst i|destruct (Z.testbit e' i); [done|by rewrite lookup_insert_ne]].
        unfold e'. by rewrite lowest_cleared_bit // lookup_insert_eq Hc.
Qed.

(** *** Internal nodes *)

Lemma le_bytes n v : Forall is_byte (LittleEndian.encode n v).
Proof. revert v. induction n as [|n IH]; intros v; cbn; constructor; [apply Z.mod_pos_bound; lia|done]. Qed.

Lemma lor_bound n a b : 0 ≤ n → 0 ≤ a < 2 ^ n → 0 ≤ b < 2 ^ n → 0 ≤ Z.lor a b < 2 ^ n.
Proof.
  intros Hn Ha Hb. split; [apply Z.lor_nonneg; lia|].
  assert (Z.lor a b = Z.lor a b mod 2 ^ n) as ->; [|apply Z.mod_pos_bound; lia]. apply Z.bits_inj'. intros i Hi. destruct (decide (i < n)).
  - by rewrite Z.mod_pow2_bits_low.
  - rewrite Z.mod_pow2_bits_high; [lia|]. rewrite Z.lor_spec -(Z.mod_small a (2 ^ n)) // -(Z.mod_small b (2 ^ n)) // !Z.mod_pow2_bits_high //; lia.
Qed.

Lemma generate_bitmaps_bound self bitmaps :
  generate_bitmaps self = Ret bitmaps → 0 ≤ bitmaps.1 < 2 ^ 16 ∧ 0 ≤ bitmaps.2 < 2 ^ 16.
Proof.
  unfold generate_bitmaps. assert (Hgen : ∀ l e f, 0 ≤ e < 2 ^ 16 → 0 ≤ f < 2 ^ 16 →
    0 ≤ (foldl add_to_bitmaps (e, f) l).1 < 2 ^ 16 ∧ 0 ≤ (foldl add_to_bitmaps (e, f) l).2 < 2 ^ 16).
  { induction l as [|[i c] l IH]; intros e f He Hf; [done|]. cbn [foldl add_to_bitmaps fst snd].
    assert (Hw : 0 ≤ wrap 16 (Z.shiftl 1 i) < 2 ^ 16) by (apply Z.mod_pos_bound; lia).
    apply IH; [by apply lor_bound|]. destruct (Child_is_leaf c); [by apply lor_bound|done]. }
  pose proof (Hgen (map_to_list (children self)) 0 0 ltac:(lia) ltac:(lia)) as Hb. destruct (foldl _ _ _) as [e f]. intros Hret. unfold rust_assert in Hret.
  destruct (Z.lor e f =? e); [|done]. cbn in Hret. by injection Hret as <-.
Qed.

Lemma InternalNode_new_Ok children node : InternalNode_new children = Ret node → InternalNode_new_impl children = Ret (Ok node).
Proof. unfold InternalNode_new. destruct (InternalNode_new_impl children) as [[n|[]]|]; cbn; intros E; by simplify_eq. Qed.

(** A node that [InternalNode::new] made of children that can be written. *)
Definition internal_ok (node : InternalNode) : Prop :=
  nibble_keys (children node) ∧ map_Forall (λ _ c, child_ok c) (children node) ∧ InternalNode_new (children node) = Ret node.

Lemma internal_roundtrip node :
  internal_ok node →
  ∃ b, (∀ binary, InternalNode_serialize node binary = Ret (binary ++ b)) ∧ Forall is_byte b ∧ InternalNode_deserialize b = Ret (Ok node).
Proof.
  intros (Hn & Hc & Hnew). destruct (generate_bitmaps_ok node Hn) as ([e f] & Eg & (He & Hf & Hcov)). destruct (generate_bitmaps_bound _ _ Eg) as [Hbe Hbf]. cbn [fst snd] in *.
  assert (Hbit : ∀ i, Z.testbit e i = true → is_nibble i).
  { intros i Hi. destruct (decide (0 ≤ i)) as [H0|H0]; [|rewrite Z.testbit_neg_r in Hi; [lia|done]]. unfold is_nibble. split; [done|].
    destruct (decide (i < 16)); [done|]. rewrite -(Z.mod_small e (2 ^ 16)) // Z.mod_pow2_bits_high in Hi; [lia|done]. }
  destruct (children_roundtrip (Z.to_nat (count_ones e)) e f (children node)) as (b & Hw & Hb & Hr); [done|pose proof (count_ones_nonneg e); lia| |].
  { intros i Hi Hi1. pose proof (Hbit i Hi1) as Hnib. split; [done|]. destruct (Hcov i Hnib) as [E1 E2]. rewrite Hi1 in E1. symmetry in E1. apply bool_decide_eq_true_1 in E1 as [c Hci].
    exists c. split_and!; [done|by apply (Hc i c)|]. rewrite E2. unfold leaf_at. by rewrite Hci. }
  exists (LittleEndian.encode 2 e ++ LittleEndian.encode 2 f ++ b). split_and!.
  - intros binary. unfold InternalNode_serialize. rewrite Eg. run. by rewrite Hw -!app_assoc.
  - rewrite !Forall_app. by split_and!; [apply le_bytes..|].
  - unfold InternalNode_deserialize. rewrite read_u16_app //. cbn [try]. rewrite read_u16_app //. cbn [try].
    assert (Hsome : ∃ i c, children node !! i = Some c).
    { destruct (decide (children node = ∅)) as [E|Hne]; [|by apply map_choose in Hne]. rewrite E in Hnew. done. }
    destruct Hsome as (i & c & Hi). rewrite (proj2 (Z.eqb_neq e 0)).
    { intros ->. destruct (Hcov i (Hn i c Hi)) as [E1 _]. rewrite Z.bits_0 Hi in E1. by rewrite bool_decide_eq_true_2 in E1. }
    rewrite (proj2 (Z.eqb_eq _ _)).
    { apply Z.bits_inj'. intros j Hj. rewrite Z.land_spec. destruct (decide (j < 16)) as [Hj16|Hj16].
      - destruct (Hcov j (conj Hj Hj16)) as [-> ->]. unfold leaf_at. by destruct (children node !! j); [rewrite bool_decide_eq_true_2|].
      - rewrite -(Z.mod_small f (2 ^ 16)) // Z.mod_pow2_bits_high; [lia|]. by rewrite andb_false_r. }
    cbn [negb]. destruct (Hr ∅ []) as (cs' & E & Hlook). rewrite app_nil_r in E. rewrite E. run. cbn [try Z.eqb rust_assert]. run.
    assert (cs' = children node) as ->.
    { apply map_eq. intros j. rewrite Hlook lookup_empty. destruct (Z.testbit e j) eqn:Ej; [done|]. symmetry. destruct (children node !! j) as [c'|] eqn:Hj; [|done].
      destruct (Hcov j (Hn j c' Hj)) as [E1 _]. rewrite Ej Hj in E1. by rewrite bool_decide_eq_true_2 in E1. }
    by rewrite (InternalNode_new_Ok _ _ Hnew).
Qed.

(** ** Keys *)

(** A key of a node of the tree. *)
Definition key_ok (k : NodeKey) : Prop :=
  0 ≤ nk_version k < 2 ^ 64 ∧ ∃ p, Forall is_nibble p ∧ (length p <= ROOT_NIBBLE_HEIGHT)%nat ∧ nibble_path k = pack p.

Lemma le_encode_decode b : Forall is_byte b → LittleEndian.encode (length b) (LittleEndian.decode b) = b.
Proof.
  induction 1 as [|x b Hx _ IH]; [done|]. cbn [length LittleEndian.encode LittleEndian.decode]. unfold is_byte in Hx.
  rewrite (Z.mul_comm 256) Z.mod_add // Z.div_add // Z.mod_small // Z.div_small // Z.add_0_l. by rewrite IH.
Qed.

Lemma be_encode_decode b : Forall is_byte b → be_encode (length b) (be_decode b) = b.
Proof.
  intros Hb. unfold be_encode, be_decode. rewrite -(length_reverse b) le_encode_decode ?reverse_involutive //. by apply Forall_reverse.
Qed.

Lemma bytes_forallb b : Forall is_byte b → forallb LittleEndian.byte_ok b = true.
Proof.
  intros Hb. apply forallb_forall. intros x Hx%list_elem_of_In. apply (proj1 (Forall_forall _ _) Hb) in Hx. unfold LittleEndian.byte_ok, is_byte in *.
  apply andb_true_iff. rewrite Z.leb_le Z.ltb_lt. lia.
Qed.

Lemma be_decode_range b : Forall is_byte b → 0 ≤ be_decode b < 256 ^ Z.of_nat (length b).
Proof.
  intros Hb. unfold be_decode. rewrite -(length_reverse b). by apply LittleEndian.decode_range, bytes_forallb, Forall_reverse.
Qed.

Lemma read_exact_Some n r : (n <= length r)%nat → read_exact n r = Ok (take n r, drop n r).
Proof. intros Hn. unfold read_exact. by rewrite (proj2 (Nat.leb_le _ _) Hn). Qed.

(** A path with an odd number of nibbles ends with half a byte. *)
Lemma pack_odd_end l : (length l mod 2 = 1)%nat → pack_bytes (l ++ [0]) = pack_bytes l ∧ ∃ x, last (pack_bytes l) = Some x ∧ ∃ a, x = 16 * a ∧ (Forall is_nibble l → is_nibble a).
Proof.
  intros Hodd. destruct (path_cases l) as [->|[(l0 & a & -> & Hl)|(l0 & a & b & -> & Hl)]]; [done| |].
  - rewrite -app_assoc !(pack_bytes_app l0) //. cbn [app pack_bytes]. rewrite Z.add_0_r. split; [done|]. exists (16 * a). rewrite last_snoc. split; [done|]. exists a. split; [done|].
    rewrite Forall_app Forall_cons. tauto.
  - replace (length (l0 ++ [a; b])) with (S (S (length l0))) in Hodd by (rewrite length_app /=; lia). rewrite mod_S_S in Hodd. lia.
Qed.

Lemma unpack_last b x : last b = Some x → ∃ l, unpack b = l ++ [x mod 16] ∧ length l = (length b * 2 - 1)%nat.
Proof.
  induction b as [|y b IH] using rev_ind; [done|]. rewrite last_snoc. intros [= ->]. clear IH. exists (unpack b ++ [x / 16]).
  assert (Happ : ∀ l l', unpack (l ++ l') = unpack l ++ unpack l') by (induction l as [|? ? IH]; intros l'; [done|]; cbn; by rewrite IH).
  rewrite Happ /= -app_assoc. split; [done|]. rewrite !length_app length_unpack /=. lia.
Qed.

Lemma NodeKey_roundtrip k : key_ok k → NodeKey_decode (NodeKey_encode k) = Ret (Ok k).
Proof.
  destruct k as [v np]. intros (Hv & p & Hp & Hlen & E). cbn [nk_version nibble_path] in *. subst np. unfold NodeKey_decode, NodeKey_encode. cbn [nk_version nibble_path pack num_nibbles path_bytes].
  rewrite read_u64_app //. cbn [try app read_u8]. unfold wrap. assert (Hsmall : Z.of_nat (length p) < 256) by (unfold ROOT_NIBBLE_HEIGHT, LENGTH in Hlen; lia).
  rewrite Z.mod_small; [lia|]. rewrite Nat2Z.id (proj2 (Nat.leb_le _ _) Hlen) length_pack_bytes Nat.eqb_refl. cbn [negb].
  assert (Hbytes : (length (pack_bytes p) <= LENGTH)%nat).
  { rewrite length_pack_bytes. unfold ROOT_NIBBLE_HEIGHT in Hlen. pose proof (Nat.div_mod_eq (length p + 1) 2). unfold LENGTH in *. lia. }
  destruct (Nat.eqb_spec (length p mod 2) 0) as [He|Ho].
  - rewrite new_even_pack //; [by apply pack_bytes_ok|]. run. cbn [try]. rewrite unpack_pack_nibbles // He. done.
  - assert (Hodd : (length p mod 2 = 1)%nat) by (pose proof (Nat.mod_upper_bound (length p) 2 ltac:(lia)); lia).
    destruct (pack_odd_end p Hodd) as (_ & x & Hx & a & -> & Ha). rewrite Hx. cbn [expect]. run.
    assert (Z.land (16 * a) 15 = 0) as Hz by (rewrite byte_low Z.mul_comm; by apply Z.mod_mul). rewrite Hz. cbn [Z.eqb negb].
    unfold new_odd. rewrite (proj2 (Nat.leb_le _ _)); [exact Hbytes|]. run. rewrite Hx. cbn [expect]. run. rewrite Hz. cbn [Z.eqb rust_assert]. run. cbn [try].
    do 4 f_equal. rewrite length_pack_bytes. unfold pack. f_equal. pose proof (Nat.div_mod_eq (length p) 2) as Hdm. rewrite Hodd in Hdm.
    replace (length p + 1)%nat with ((length p / 2 + 1) * 2)%nat by lia. rewrite Nat.div_mul //. lia.
Qed.

(** Bytes with a valid number of nibbles are the bytes of a path. *)
Lemma bytes_path n b :
  Forall is_byte b → (n <= ROOT_NIBBLE_HEIGHT)%nat → length b = ((n + 1) / 2)%nat →
  ((n mod 2 = 1)%nat → ∃ x, last b = Some x ∧ x mod 16 = 0) →
  ∃ p, Forall is_nibble p ∧ length p = n ∧ pack_bytes p = b.
Proof.
  intros Hb Hn Hlen Hodd. pose proof (unpack_nibbles b Hb) as Hu. pose proof (pack_unpack b Hb) as Hpu. pose proof (Nat.div_mod_eq n 2) as Hdm.
  pose proof (Nat.mod_upper_bound n 2 ltac:(lia)) as Hlt. destruct (decide (n mod 2 = 0)%nat) as [He|Ho].
  - exists (unpack b). split_and!; [done| |done]. rewrite length_unpack Hlen half_even_up //. lia.
  - assert (Hmod : (n mod 2 = 1)%nat) by lia. destruct (Hodd Hmod) as (x & Hx & Hz). destruct (unpack_last b x Hx) as (l & El & Hl). rewrite Hz in El.
    assert (Hln : length l = n).
    { rewrite Hl Hlen. replace (n + 1)%nat with ((n / 2 + 1) * 2)%nat by lia. rewrite Nat.div_mul //. lia. }
    exists l. split_and!; [|done|].
    + rewrite El in Hu. by apply Forall_app in Hu as [Hu _].
    + rewrite -Hln in Hmod. destruct (pack_odd_end l Hmod) as [E _]. by rewrite -E -El.
Qed.

Lemma NodeKey_decode_total val :
  Forall is_byte val → ∃ r, NodeKey_decode val = Ret r ∧ ∀ k, r = Ok k → key_ok k ∧ NodeKey_encode k = val.
Proof.
  intros Hval. unfold NodeKey_decode, read_u64_be. destruct (decide (8 <= length val)%nat) as [H8|H8].
  2: { unfold read_exact. rewrite (proj2 (Nat.leb_gt _ _)); [lia|]. eexists. split; [done|]. done. }
  rewrite read_exact_Some //. cbn [mbind result_bind try].
  assert (Htake : Forall is_byte (take 8 val)) by (by apply Forall_take). assert (Hdrop : Forall is_byte (drop 8 val)) by (by apply Forall_drop).
  pose proof (be_decode_range _ Htake) as Hv. pose proof (be_encode_decode _ Htake) as Ev. rewrite length_take Nat.min_l // in Hv, Ev.
  set (v := be_decode (take 8 val)) in *. destruct (drop 8 val) as [|n b] eqn:Ed; cbn [read_u8 try]; [eexists; split; [done|]; done|].
  apply Forall_cons in Hdrop as [Hn Hb]. unfold is_byte in Hn.
  destruct (Nat.leb_spec (Z.to_nat n) ROOT_NIBBLE_HEIGHT) as [Hle|Hgt]; cbn [negb]; [|eexists; split; [done|]; done].
  destruct (Nat.eqb_spec ((Z.to_nat n + 1) / 2) (length b)) as [Hlen|Hne]; cbn [negb]; [|eexists; split; [done|]; done].
  assert (Hbl : (length b <= LENGTH)%nat).
  { rewrite -Hlen. unfold ROOT_NIBBLE_HEIGHT, LENGTH in *. pose proof (Nat.div_mod_eq (Z.to_nat n + 1) 2). lia. }
  assert (Hdone : ∀ p np, Forall is_nibble p → length p = Z.to_nat n → pack_bytes p = b → np = pack p →
            ∀ k, Ok (mkNodeKey v np) = Ok (E := jmt_error) k → key_ok k ∧ NodeKey_encode k = val).
  { intros p np Hp Hpl Hpb -> k [= <-]. split; [split; [exact Hv|by exists p; rewrite Hpl]|]. unfold NodeKey_encode. cbn [nk_version nibble_path pack num_nibbles path_bytes].
    rewrite Ev Hpl Hpb Z2Nat.id; [lia|]. unfold wrap. rewrite Z.mod_small; [lia|]. by rewrite -{2}(take_drop 8 val) Ed. }
  destruct (Nat.eqb_spec (Z.to_nat n mod 2) 0) as [He|Ho].
  - rewrite new_even_pack //. run. cbn [try]. eexists. split; [done|]. apply (Hdone (unpack b)); [by apply unpack_nibbles| |by apply pack_unpack|done].
    rewrite length_unpack -Hlen half_even_up //. pose proof (Nat.div_mod_eq (Z.to_nat n) 2). lia.
  - assert (Hmod : (Z.to_nat n mod 2 = 1)%nat) by (pose proof (Nat.mod_upper_bound (Z.to_nat n) 2 ltac:(lia)); lia).
    destruct (last b) as [x|] eqn:Hx.
    2: { exfalso. apply last_None in Hx. subst b. cbn [length] in Hlen. apply Nat.div_small_iff in Hlen; [|lia]. destruct (Z.to_nat n) as [|]; [done|lia]. }
    cbn [expect]. run. destruct (Z.eqb_spec (Z.land x 15) 0) as [Hz|Hz]; cbn [negb]; [|eexists; split; [done|]; done].
    unfold new_odd. rewrite (proj2 (Nat.leb_le _ _)); [exact Hbl|]. run. rewrite Hx. cbn [expect]. run. rewrite Hz. cbn [Z.eqb rust_assert]. run. cbn [try].
    eexists. split; [done|]. rewrite byte_low in Hz. destruct (bytes_path (Z.to_nat n) b Hb Hle (eq_sym Hlen)) as (p & Hp & Hpl & Hpb); [by exists x|].
    apply (Hdone p); try done. unfold pack. rewrite Hpb. f_equal. rewrite -Hlen Hpl.
    pose proof (Nat.div_mod_eq (Z.to_nat n) 2) as Hdm. rewrite Hmod in Hdm. replace (Z.to_nat n + 1)%nat with ((Z.to_nat n / 2 + 1) * 2)%nat by lia. rewrite Nat.div_mul //. lia.
Qed.

(** ** The order of keys is the order of their bytes *)

(** [#[derive(Ord)]] compares the fields in their order. *)
Definition key_fields (k : NodeKey) : Z * (nat * list Z) := (nk_version k, (num_nibbles (nibble_path k), path_bytes (nibble_path k))).

#[global] Instance key_fields_inj : Inj (=) (=) key_fields.
Proof. intros [v [n b]] [v' [n' b']] [= -> -> ->]. done. Qed.

#[global] Program Instance NodeKey_order : KeyOrder NodeKey := {| key_le a b := key_le (key_fields a) (key_fields b) |}.
Next Obligation. intros a b. apply _. Defined.
Next Obligation. intros a b c. apply transitivity. Qed.
Next Obligation. intros a b. apply (total key_le). Qed.
Next Obligation. intros a b H1 H2. apply (inj key_fields). by apply (anti_symm key_le). Qed.

#[global] Instance StaleNodeIndex_eq_dec : EqDecision StaleNodeIndex.
Proof. solve_decision. Defined.
#[global] Instance StaleNodeIndex_countable : Countable StaleNodeIndex.
Proof.
  apply (inj_countable' (λ i, (stale_since_version i, stale_node_key i)) (λ '(v, k), mkStaleNodeIndex v k)). by intros [v k].
Defined.

Definition index_fields (i : StaleNodeIndex) : Z * NodeKey := (stale_since_version i, stale_node_key i).

#[global] Instance index_fields_inj : Inj (=) (=) index_fields.
Proof. intros [v k] [v' k'] [= -> ->]. done. Qed.

#[global] Program Instance StaleNodeIndex_order : KeyOrder StaleNodeIndex := {| key_le a b := key_le (index_fields a) (index_fields b) |}.
Next Obligation. intros a b. apply _. Defined.
Next Obligation. intros a b c. apply transitivity. Qed.
Next Obligation. intros a b. apply (total key_le). Qed.
Next Obligation. intros a b H1 H2. apply (inj index_fields). by apply (anti_symm key_le). Qed.

Lemma lex_leb_app x y a b :
  length x = length y → lex_leb (x ++ a) (y ++ b) = true ↔ (lex_leb x y = true ∧ ¬ lex_leb y x = true) ∨ (x = y ∧ lex_leb a b = true).
Proof.
  revert y. induction x as [|c x IH]; intros [|d y] Hlen; try done; cbn [app].
  - cbn. naive_solver.
  - injection Hlen as Hlen. rewrite !lex_leb_cons IH //. split.
    + intros [Hlt|[-> [[H1 H2]|[-> H1]]]]; [left|left|by right].
      * split; [by left|]. intros [?|[? _]]; lia.
      * split; [by right|]. intros [?|[_ H3]]; [lia|done].
    + intros [[[Hlt|[-> H1]] H2]|[[= -> ->] H1]]; [by left| |right; by split; [|right]]. right. split; [done|]. left. split; [done|].
      intros H3. apply H2. by right.
Qed.

Lemma be_encode_S n v : be_encode (S n) v = be_encode n (v / 256) ++ [v mod 256].
Proof. unfold be_encode. cbn [LittleEndian.encode]. by rewrite reverse_cons. Qed.

Lemma be_inj n v w : 0 ≤ v < 256 ^ Z.of_nat n → 0 ≤ w < 256 ^ Z.of_nat n → be_encode n v = be_encode n w → v = w.
Proof. intros Hv Hw E. by rewrite -(be_roundtrip n v) // -(be_roundtrip n w) // E. Qed.

Lemma be_order n v w : 0 ≤ v < 256 ^ Z.of_nat n → 0 ≤ w < 256 ^ Z.of_nat n → lex_leb (be_encode n v) (be_encode n w) = true ↔ v ≤ w.
Proof.
  revert v w. induction n as [|n IH]; intros v w Hv Hw; [change (256 ^ Z.of_nat 0) with 1 in *; split; [lia|done]|].
  rewrite Nat2Z.inj_succ Z.pow_succ_r in Hv, Hw; [lia..|]. rewrite !be_encode_S lex_leb_app; [by rewrite !be_length|].
  assert (Hv' : 0 ≤ v / 256 < 256 ^ Z.of_nat n) by (split; [apply Z.div_pos; lia|apply Z.div_lt_upper_bound; lia]).
  assert (Hw' : 0 ≤ w / 256 < 256 ^ Z.of_nat n) by (split; [apply Z.div_pos; lia|apply Z.div_lt_upper_bound; lia]).
  rewrite !IH //. pose proof (Z_div_mod_eq_full v 256). pose proof (Z_div_mod_eq_full w 256).
  pose proof (Z.mod_pos_bound v 256 ltac:(lia)). pose proof (Z.mod_pos_bound w 256 ltac:(lia)). rewrite lex_leb_cons. cbn [lex_leb]. split.
  - intros [[Hle Hgt]|[E [Hle|[Hle _]]]]; [lia|apply be_inj in E; [lia|done..]|apply be_inj in E; [lia|done..]].
  - intros Hle. destruct (decide (v / 256 = w / 256)) as [E|Hne]; [right; rewrite E; split; [done|]|left; lia].
    destruct (decide (v mod 256 = w mod 256)); [by right|left; lia].
Qed.

(** The bytes of keys are in the order of the keys, as the iterators of the database
    need it. *)
Lemma NodeKey_encode_order a b : key_ok a → key_ok b → lex_leb (NodeKey_encode a) (NodeKey_encode b) = true ↔ key_le a b.
Proof.
  destruct a as [v pa], b as [w pb]. intros (Hv & p & Hp & Hlp & Epa) (Hw & q & Hq & Hlq & Epb). cbn [nk_version nibble_path] in *. subst pa pb.
  unfold NodeKey_encode. cbn [nk_version nibble_path pack num_nibbles path_bytes]. rewrite lex_leb_app; [by rewrite !be_length|]. rewrite !be_order //.
  unfold ROOT_NIBBLE_HEIGHT, LENGTH in *. unfold wrap. rewrite !Z.mod_small; [lia..|]. cbn [app]. rewrite lex_leb_cons.
  change (key_le _ _) with ((v ≤ w ∧ ¬ w ≤ v) ∨ (v = w ∧ (((length p <= length q)%nat ∧ ¬ (length q <= length p)%nat) ∨
    (length p = length q ∧ lex_leb (pack_bytes p) (pack_bytes q) = true)))). rewrite -Nat2Z.inj_lt Nat2Z.inj_iff. split.
  - intros [[Hle Hgt]|[E [Hlt|[E' Hle]]]]; [left; by split|right|right]; (split; [by apply (be_inj 8)|]); [left; lia|right; by split].
  - intros [[Hle Hgt]|[-> [[Hle Hgt]|[E Hle]]]]; [left; by split|right; split; [done|left; lia]|right; split; [done|right; by split]].
Qed.

Lemma StaleNodeIndex_roundtrip i :
  0 ≤ stale_since_version i < 2 ^ 64 → key_ok (stale_node_key i) → StaleNodeIndex_decode_key (StaleNodeIndex_encode_key i) = Ret (Ok i).
Proof.
  destruct i as [v k]. cbn [stale_since_version stale_node_key]. intros Hv Hk. unfold StaleNodeIndex_decode_key, StaleNodeIndex_encode_key. cbn [stale_since_version stale_node_key].
  assert (Hlen : (0 < length (NodeKey_encode k))%nat) by (unfold NodeKey_encode; rewrite !length_app be_length /=; lia).
  rewrite length_app be_length (proj2 (Nat.ltb_lt _ _)); [lia|]. cbn [negb]. rewrite take_app_length' ?drop_app_length' ?be_length //.
  rewrite -(app_nil_r (be_encode 8 v)) read_u64_app //. cbn [try]. rewrite NodeKey_roundtrip //.
Qed.

Lemma StaleNodeIndex_encode_order a b :
  0 ≤ stale_since_version a < 2 ^ 64 → key_ok (stale_node_key a) → 0 ≤ stale_since_version b < 2 ^ 64 → key_ok (stale_node_key b) →
  lex_leb (StaleNodeIndex_encode_key a) (StaleNodeIndex_encode_key b) = true ↔ key_le a b.
Proof.
  intros Hva Hka Hvb Hkb. unfold StaleNodeIndex_encode_key. rewrite lex_leb_app; [by rewrite !be_length|]. rewrite !be_order // NodeKey_encode_order //.
  change (key_le a b) with ((stale_since_version a ≤ stale_since_version b ∧ ¬ stale_since_version b ≤ stale_since_version a) ∨
    (stale_since_version a = stale_since_version b ∧ key_le (stale_node_key a) (stale_node_key b))). split; (intros [?|[E ?]]; [by left|right]); (split; [|done]).
  - by apply (be_inj 8).
  - by rewrite E.
Qed.

(** ** Reading any bytes *)

Lemma read_varint_range n i num reader v rest :
  0 ≤ num < 2 ^ 64 → Forall is_byte reader → read_varint_loop n i num reader = Ok (v, rest) → 0 ≤ v < 2 ^ 64 ∧ Forall is_byte rest.
Proof.
  revert i num reader. induction n as [|n IH]; intros i num [|x reader] Hnum Hr; try done; apply Forall_cons in Hr as [Hx Hr]; cbn [read_varint_loop read_u8 mbind result_bind].
  - intros [= <- <-]. split; [|done]. apply lor_bound; [lia|done|]. apply Z.mod_pos_bound. lia.
  - assert (Hnum' : 0 ≤ Z.lor num (wrap 64 (Z.shiftl (Z.land x 127) (i * 7))) < 2 ^ 64) by (apply lor_bound; [lia|done|]; apply Z.mod_pos_bound; lia).
    destruct (_ =? _); [intros [= <- <-]; by split|]. by apply IH.
Qed.

Definition count_ok (c : Child) : Prop := ∃ n, Child_leaf_count c = Ret n ∧ 0 ≤ n < 2 ^ 64.

Lemma deserialize_children_total n e f acc reader :
  0 ≤ e < 2 ^ 16 → count_ones e = Z.of_nat n → Forall is_byte reader → map_Forall (λ _ c, count_ok c) acc →
  ∃ r, deserialize_children n e f acc reader = Ret r ∧ ∀ e' cs, r = Ok (e', cs) → e' = 0 ∧ map_Forall (λ _ c, count_ok c) cs.
Proof.
  revert e acc reader. induction n as [|n IH]; intros e acc reader He Hcount Hr Hacc; cbn [deserialize_children].
  { eexists. split; [done|]. intros e' cs [= <- <-]. split; [apply count_ones_0; [lia|done]|done]. }
  assert (Hpos : 0 < e) by (destruct (decide (e = 0)) as [->|]; [done|lia]). destruct (lowest_bit e Hpos) as (t & q & Hq & Ee).
  assert (Ht : (t < 16)%nat).
  { destruct (decide (t < 16)%nat) as [|Hge]; [done|]. exfalso. pose proof (Z.pow_le_mono_r 2 16 (Z.of_nat t) ltac:(lia) ltac:(lia)). nia. }
  assert (Ht64 : (t < 64)%nat) by lia. assert (Etz : trailing_zeros e = Z.of_nat t) by (rewrite Ee; by apply lowest_trailing).
  assert (Ecl : Z.land e (Z.lnot (Z.shiftl 1 (Z.of_nat t))) = 2 * q * 2 ^ Z.of_nat t) by (rewrite Ee; by apply lowest_clear). rewrite Etz Ecl.
  unfold deserialize_u64_varint. destruct (read_varint_loop 8 0 0 reader) as [[v r1]|] eqn:E1; cbn [try]; [|eexists; split; [done|]; done].
  destruct (read_varint_range 8 0 0 reader v r1 ltac:(lia) Hr E1) as [Hv Hr1].
  destruct (read_exact LENGTH r1) as [[bytes r2]|] eqn:E2; cbn [try]; [|eexists; split; [done|]; done].
  assert (Hr2 : Forall is_byte r2). { unfold read_exact in E2. destruct (LENGTH <=? length r1)%nat; [|done]. injection E2 as <- <-. by apply Forall_drop. }
  destruct (from_slice bytes) as [h|]; cbn [try]; [|eexists; split; [done|]; done].
  assert (Hnext : ∀ ty r3, Forall is_byte r3 → count_ok (mkChild h v ty) → ∃ r,
    (nibble ← Nibble_from (Z.of_nat t); deserialize_children n (2 * q * 2 ^ Z.of_nat t) f (<[nibble := mkChild h v ty]> acc) r3) = Ret r ∧
    ∀ e' cs, r = Ok (e', cs) → e' = 0 ∧ map_Forall (λ _ c, count_ok c) cs).
  { intros ty r3 Hr3 Hty. rewrite Nibble_from_Ret; [unfold is_nibble; lia|]. run. apply IH; [|pose proof (lowest_count t q Hq) as Hl; rewrite -Ee Hcount in Hl; lia|done|].
    - pose proof (Z.pow_pos_nonneg 2 (Z.of_nat t)). nia.
    - by apply map_Forall_insert_2. }
  destruct (negb (Z.land f (Z.shiftl 1 (Z.of_nat t)) =? 0)); cbn [try]; [apply Hnext; [done|by exists 1]|].
  destruct (read_varint_loop 8 0 0 r2) as [[c r3]|] eqn:E3; cbn [mbind result_bind try]; [|eexists; split; [done|]; done].
  destruct (read_varint_range 8 0 0 r2 c r3 ltac:(lia) Hr2 E3) as [Hc Hr3]. apply Hnext; [done|by exists c].
Qed.

(** The number of leaves below children, without a bound. *)
Definition leaves_below (c : Child) : Z := match child_type c with NodeType_Leaf => 1 | NodeType_Internal n => n | NodeType_Null => 0 end.
Definition total_leaves (cs : Children) : Z := foldr (λ c acc, leaves_below c + acc) 0 (values cs).

Lemma count_ok_leaves c : count_ok c → Child_leaf_count c = Ret (leaves_below c) ∧ 0 ≤ leaves_below c.
Proof. intros (n & Hn & Hb). unfold Child_leaf_count, leaves_below in *. destruct (child_type c); try done; injection Hn as ->; split; try done; lia. Qed.

Lemma usize_sum_total l acc :
  Forall count_ok l → 0 ≤ acc → acc + foldr (λ c acc, leaves_below c + acc) 0 l < 2 ^ 64 →
  foldl (λ acc x, a ← acc; u64_add a x) (Ret acc) (leaves_below <$> l) = Ret (acc + foldr (λ c acc, leaves_below c + acc) 0 l).
Proof.
  intros Hl. revert acc. induction Hl as [|c l Hc Hl IH]; intros acc Hacc Hb; cbn [fmap list_fmap foldl foldr] in *; [by rewrite Z.add_0_r|].
  destruct (count_ok_leaves c Hc) as [_ Hc0]. assert (Hrest : 0 ≤ foldr (λ c acc, leaves_below c + acc) 0 l).
  { clear -Hl. induction Hl as [|c l Hc _ IH]; cbn; [done|]. destruct (count_ok_leaves c Hc) as [_ ?]. lia. }
  run. rewrite u64_add_Ret; [unfold u64_max; lia|]. rewrite IH; [lia|lia|]. f_equal. lia.
Qed.

Lemma new_impl_total cs : map_Forall (λ _ c, count_ok c) cs → total_leaves cs < 2 ^ 64 → ∃ r, InternalNode_new_impl cs = Ret r.
Proof.
  intros Hcs Hb. unfold InternalNode_new_impl. unfold total_leaves in Hb. assert (Hall : Forall count_ok (values cs)).
  { unfold values. apply Forall_forall. intros c ([i c'] & -> & Hc%elem_of_map_to_list)%list_elem_of_fmap. by apply (Hcs i c'). }
  destruct (values cs) as [|c rest]; [by eexists|]. destruct ((length rest =? 0)%nat && Child_is_leaf c); [by eexists|].
  rewrite (mapM_Ret _ leaves_below).
  { intros x Hx. by apply count_ok_leaves, (proj1 (Forall_forall _ _) Hall). }
  run. unfold usize_sum. rewrite usize_sum_total //. by run; eexists.
Qed.

(** The claims of this file. *)

Section claims.
Context {K : Type} `{LeafBcs K}.

Definition node_ok (n : Node K) : Prop := match n with Node_Internal i => internal_ok i | _ => True end.

(** C30: a node that the tree writes is read back as it was. *)
Theorem node_codec_roundtrip `{!LeafBcsLaws K} (n : Node K) :
  node_ok n → ∃ b, Node_encode n = Ret b ∧ Node_decode b = Ret (Ok n).
Proof.
  destruct n as [i|l|]; cbn [node_ok Node_encode].
  - intros Hi. destruct (internal_roundtrip i Hi) as (b & Hw & _ & Hr). exists (TAG_INTERNAL :: b). rewrite Hw. split; [done|]. cbn [Node_decode Z.eqb TAG_INTERNAL Pos.eqb].
    rewrite Hr. by run.
  - intros _. eexists. split; [done|]. cbn [Node_decode TAG_LEAF TAG_INTERNAL Z.eqb Pos.eqb]. by rewrite leaf_roundtrip.
  - intros _. by eexists.
Qed.

(** A key is read back from its bytes; any other bytes are an error; and the bytes of
    keys are in the order of the keys, which the iterators over nodes rely on. *)
Theorem node_key_codec (val : list Z) :
  Forall is_byte val →
  ∃ r, NodeKey_decode val = Ret r ∧ (∀ k, r = Ok k ↔ key_ok k ∧ NodeKey_encode k = val) ∧
    ∀ a b, key_ok a → key_ok b → lex_leb (NodeKey_encode a) (NodeKey_encode b) = true ↔ key_le a b.
Proof.
  intros Hval. destruct (NodeKey_decode_total val Hval) as (r & E & Hr). exists r. split_and!; [done| |intros a b; apply NodeKey_encode_order].
  intros k. split; [by apply Hr|]. intros [Hk <-]. rewrite NodeKey_roundtrip // in E. by injection E.
Qed.

(** C36: reading a node from any bytes succeeds or fails with an error; when it panics, the
    leaf counts of the children in the bytes add up to more than 64 bits. *)
Theorem decode_panics_only_on_overflow (val : list Z) :
  Forall is_byte val → Node_decode val = Panic →
  ∃ e f reader cs, val = TAG_INTERNAL :: LittleEndian.encode 2 e ++ LittleEndian.encode 2 f ++ reader ∧
    deserialize_children (Z.to_nat (count_ones e)) e f ∅ reader = Ret (Ok (0, cs)) ∧ 2 ^ 64 ≤ total_leaves cs.
Proof.
  intros Hval. destruct val as [|tag rest]; [done|]. apply Forall_cons in Hval as [_ Hrest]. cbn [Node_decode].
  destruct (Z.eqb_spec tag TAG_INTERNAL) as [->|_]; [|by destruct (tag =? TAG_LEAF); [|destruct (tag =? TAG_NULL)]].
  unfold InternalNode_deserialize, read_u16_le, read_exact.
  destruct (Nat.leb_spec 2 (length rest)) as [H2|]; cbn [mbind result_bind try]; [|done]. set (e := LittleEndian.decode (take 2 rest)).
  destruct (Nat.leb_spec 2 (length (drop 2 rest))) as [H4|]; cbn [mbind result_bind try]; [|done]. set (f := LittleEndian.decode (take 2 (drop 2 rest))).
  destruct (e =? 0); [done|]. destruct (negb (Z.land e f =? f)); [done|]. set (reader := drop 2 (drop 2 rest)).
  assert (He : 0 ≤ e < 2 ^ 16).
  { pose proof (LittleEndian.decode_range (take 2 rest)) as Hd. rewrite length_take Nat.min_l // in Hd. apply Hd, bytes_forallb. by apply Forall_take. }
  destruct (deserialize_children_total (Z.to_nat (count_ones e)) e f ∅ reader) as (r & E & Hr);
    [done|pose proof (count_ones_nonneg e); lia|by do 2 apply Forall_drop|done|]. rewrite E. run. destruct r as [[e' cs]|]; cbn [try]; [|done].
  destruct (Hr e' cs eq_refl) as [-> Hcs]. cbn [Z.eqb rust_assert]. run. intros Hpanic. exists e, f, reader, cs. split_and!; [|done|].
  - f_equal. assert (E1 : LittleEndian.encode 2 e = take 2 rest).
    { pose proof (le_encode_decode (take 2 rest) ltac:(by apply Forall_take)) as El. by rewrite length_take Nat.min_l // in El. }
    assert (E2 : LittleEndian.encode 2 f = take 2 (drop 2 rest)).
    { pose proof (le_encode_decode (take 2 (drop 2 rest)) ltac:(by apply Forall_take, Forall_drop)) as El. by rewrite length_take Nat.min_l // in El. }
    by rewrite E1 E2 !take_drop.
  - destruct (decide (total_leaves cs < 2 ^ 64)) as [Hlt|]; [|lia]. exfalso. destruct (new_impl_total cs Hcs Hlt) as [r Er]. rewrite Er in Hpanic. cbn in Hpanic. by destruct r.
Qed.
End claims.
