(* ===== verification/StateMerkleDb.v ===== *)
(** * The database of the state tree

    Models [storage/aptosdb/src/state_merkle_db.rs] with its node caches
    ([versioned_node_cache.rs], [lru_node_cache.rs]) and the pruners of
    [storage/aptosdb/src/pruner/state_store/mod.rs], [state_pruner_manager.rs] and
    [state_pruner_worker.rs].  The columns of the database are maps in key order, written
    in atomic batches, as in [SchemaDb]; the LRU cache of the [lru] crate is an interface. *)
From S2P Require Import Prelude U64 NibblePath SparseMerkle JmtNode JellyfishMerkle JellyfishTree JmtCodec.
Local Open Scope Z_scope.
Local Open Scope rust_scope.

(** ** Caches *)

(** [lru::LruCache] with paths as keys. *)
Class LruCache (V : Type) : Type := {
  lru : Type;
  lru_get : lru → NibblePath → lru * option V;
  lru_put : lru → NibblePath → V → lru;
  lru_contents : lru → gmap NibblePath V;
}.

(** [get] returns what the cache holds; [put] may evict entries. *)
Class LruCacheLaws (V : Type) `{LruCache V} : Prop := {
  lru_get_result : ∀ c k, (lru_get c k).2 = lru_contents c !! k;
  lru_get_contents : ∀ c k, lru_contents (lru_get c k).1 = lru_contents c;
  lru_put_contents : ∀ c k v, lru_contents (lru_put c k v) ⊆ <[k := v]> (lru_contents c);
}.

Section db.
Context {SH : SparseMerkleHashers} {K : Type}.
Local Notation Node := (Node K).
Context {LRU : LruCache (Version * Node)}.
Context (hash_iter : gmap Z Node → list (Z * Node)).

(** [struct LruNodeCache]: 256 shards, by the first byte of the path. *)
Definition NUM_SHARDS : nat := 256.
Record LruNodeCache : Type := mkLruNodeCache { shards : list lru }.

Definition shard (nibble_path : NibblePath) : nat := match path_bytes nibble_path with [] => 0 | b :: _ => Z.to_nat b end.

Definition lru_cache_get (self : LruNodeCache) (node_key : NodeKey) : comp (LruNodeCache * option Node) :=
  r ← expect (shards self !! shard (nibble_path node_key));
  let '(r, ret) := lru_get r (nibble_path node_key) in
  Ret (mkLruNodeCache (<[shard (nibble_path node_key) := r]> (shards self)),
       '(version, node) ← ret; if version =? nk_version node_key then Some node else None).

Definition lru_cache_put (self : LruNodeCache) (node_key : NodeKey) (node : Node) : comp LruNodeCache :=
  w ← expect (shards self !! shard (nibble_path node_key));
  Ret (mkLruNodeCache (<[shard (nibble_path node_key) := lru_put w (nibble_path node_key) (nk_version node_key, node)]> (shards self))).

(** [struct VersionedNodeCache]: the nodes that the last versions wrote. *)
Definition NodeCache : Type := gmap NodeKey Node.
Definition VersionedNodeCache : Type := list (Version * NodeCache).
Definition NUM_VERSIONS_TO_CACHE : nat := 2.

Definition add_version (self : VersionedNodeCache) (version : Version) (nodes : NodeCache) : comp VersionedNodeCache :=
  (match last self with Some (last_version, _) => rust_assert (last_version <? version) | None => Ret tt end);;
  Ret (self ++ [(version, nodes)]).

Definition get_version (self : VersionedNodeCache) (version : Version) : option NodeCache :=
  snd <$> head (filter (λ e, e.1 = version) (reverse self)).

(** The nodes of the oldest version go to the LRU cache; the order is not specified. *)
Definition maybe_evict_version (self : VersionedNodeCache) (lru_cache : LruNodeCache) : comp (VersionedNodeCache * LruNodeCache) :=
  if (NUM_VERSIONS_TO_CACHE <? length self)%nat then
    match self with
    | (_, cache) :: rest =>
        lru_cache ← foldl (λ acc '(node_key, node), c ← acc; lru_cache_put c node_key node) (Ret lru_cache) (map_to_list cache);
        Ret (rest, lru_cache)
    | [] => Ret (self, lru_cache)
    end
  else Ret (self, lru_cache).

(** ** The columns *)

(** [StaleNodeIndexSchema] and [StaleNodeIndexCrossEpochSchema], and the progress that the
    pruner of each saves. *)
Inductive StaleSchema : Type := StaleNodeIndexSchema | StaleNodeIndexCrossEpochSchema.

Record Columns : Type := mkColumns {
  jellyfish_merkle_node : gmap NodeKey Node;
  stale_node_index : StaleSchema → gmap StaleNodeIndex ();
  pruner_progress : StaleSchema → option Version;
}.

#[global] Instance StaleSchema_eq_dec : EqDecision StaleSchema.
Proof. solve_decision. Defined.

(** [SchemaBatch]: what is put and deleted, in order. *)
Inductive WriteRow : Type :=
  | PutNode (key : NodeKey) (node : Node)
  | DeleteNode (key : NodeKey)
  | PutStale (s : StaleSchema) (i : StaleNodeIndex)
  | DeleteStale (s : StaleSchema) (i : StaleNodeIndex)
  | PutProgress (s : StaleSchema) (v : Version).

Definition write_row (c : Columns) (r : WriteRow) : Columns :=
  match r with
  | PutNode key node => mkColumns (<[key := node]> (jellyfish_merkle_node c)) (stale_node_index c) (pruner_progress c)
  | DeleteNode key => mkColumns (delete key (jellyfish_merkle_node c)) (stale_node_index c) (pruner_progress c)
  | PutStale s i =>
      mkColumns (jellyfish_merkle_node c)
        (λ s', if decide (s' = s) then <[i := ()]> (stale_node_index c s') else stale_node_index c s') (pruner_progress c)
  | DeleteStale s i =>
      mkColumns (jellyfish_merkle_node c)
        (λ s', if decide (s' = s) then delete i (stale_node_index c s') else stale_node_index c s') (pruner_progress c)
  | PutProgress s v =>
      mkColumns (jellyfish_merkle_node c) (stale_node_index c) (λ s', if decide (s' = s) then Some v else pruner_progress c s')
  end.

Definition write_schemas (c : Columns) (batch : list WriteRow) : Columns := foldl write_row c batch.

(** ** [StateMerkleDb] *)

Record StateMerkleDb : Type := mkStateMerkleDb {
  db : Columns;
  enable_cache : bool;
  version_cache : VersionedNodeCache;
  lru_cache : LruNodeCache;
}.

(** [TreeReader::get_node_option]; it touches the LRU cache. *)
Definition get_node_option (self : StateMerkleDb) (node_key : NodeKey) : comp (StateMerkleDb * option Node) :=
  let stored := jellyfish_merkle_node (db self) !! node_key in
  if negb (enable_cache self) then Ret (self, stored) else
  match get_version (version_cache self) (nk_version node_key) with
  | Some node_cache => Ret (self, node_cache !! node_key)
  | None =>
      '(lru_cache, cached) ← lru_cache_get (lru_cache self) node_key;
      match cached with
      | Some node => Ret (mkStateMerkleDb (db self) (enable_cache self) (version_cache self) lru_cache, Some node)
      | None =>
          lru_cache ← match stored with Some node => lru_cache_put lru_cache node_key node | None => Ret lru_cache end;
          Ret (mkStateMerkleDb (db self) (enable_cache self) (version_cache self) lru_cache, stored)
      end
  end.

(** What a read returns. *)
Definition reader_of (self : StateMerkleDb) : TreeReader K := λ node_key,
  match get_node_option self node_key with Ret (_, n) => Ok n | Panic => Err Anyhow end.

(** The rows for the stale nodes of an update: those from before the last epoch ending are
    left to the epoch snapshot pruner. *)
Definition stale_row (previous_epoch_ending_version : option Version) (row : StaleNodeIndex) : WriteRow :=
  if match previous_epoch_ending_version with Some v => nk_version (stale_node_key row) <=? v | None => false end
  then PutStale StaleNodeIndexCrossEpochSchema row
  else PutStale StaleNodeIndexSchema row.

Definition merklize_value_set (self : StateMerkleDb) (value_set : list (HashValue * option (HashValue * K))) (node_hashes : HashCache)
    (version : Version) (base_version previous_epoch_ending_version : option Version) :
    comp (result jmt_error (StateMerkleDb * list WriteRow * HashValue)) :=
  let* (new_root_hash, tree_update_batch) := batch_put_value_set hash_iter (reader_of self) value_set node_hashes base_version version in
  let node_batch := concat (node_batch tree_update_batch) in
  version_cache ← (if enable_cache self then add_version (version_cache self) version (list_to_map (reverse node_batch))
                   else Ret (version_cache self));
  let batch := ((λ '(node_key, node), PutNode node_key node) <$> node_batch) ++
               (stale_row previous_epoch_ending_version <$> concat (stale_node_index_batch tree_update_batch)) in
  Ret (Ok (mkStateMerkleDb (db self) (enable_cache self) version_cache (lru_cache self), batch, new_root_hash)).

(** The last key at or before the root of the version before. *)
Definition get_state_snapshot_version_before (self : StateMerkleDb) (next_version : Version) : comp (option Version) :=
  if 0 <? next_version then
    key ← new_empty_path (next_version - 1);
    Ret (nk_version ∘ fst <$> last (filter (λ row, key_le row.1 key) (btree_iter (jellyfish_merkle_node (db self)))))
  else Ret None.

(** ** Pruners *)

(** [struct StateMerklePruner<S>]: the progress is the minimal readable version, and
    whether everything before it is gone. *)
Record StateMerklePruner : Type := mkPruner { target_version : Version; progress : Version * bool }.

(** [new], with [initialize]. *)
Definition StateMerklePruner_new (s : StaleSchema) (state_merkle_db : Columns) : StateMerklePruner :=
  mkPruner 0 (default 0 (pruner_progress state_merkle_db s), false).

Definition min_readable_version (self : StateMerklePruner) : Version := (progress self).1.

Definition is_pruning_pending (self : StateMerklePruner) : bool :=
  (min_readable_version self <? target_version self) || negb (progress self).2.

(** At most [batch_size + 1] rows from the seek on, up to the target. *)
Fixpoint fetch (n : nat) (target_version : Version) (rows : list StaleNodeIndex) : list StaleNodeIndex :=
  match n, rows with
  | S n, index :: rows => if stale_since_version index <=? target_version then index :: fetch n target_version rows else []
  | _, _ => []
  end.

Definition get_stale_node_indices (s : StaleSchema) (c : Columns) (start_version target_version : Version) (batch_size : nat) :
    comp (list StaleNodeIndex * bool) :=
  root ← new_empty_path 0;
  let rows := filter (λ i, key_le (mkStaleNodeIndex start_version root) i) (btree_iter (stale_node_index c s)).*1 in
  let indices := fetch (S batch_size) target_version rows in
  Ret (if (batch_size <? length indices)%nat then (take (length indices - 1) indices, false) else (indices, true)).

Definition delete_rows (s : StaleSchema) (indices : list StaleNodeIndex) : list WriteRow :=
  indices ≫= λ index, [DeleteNode (stale_node_key index); DeleteStale s index].

(** With an [existing_schema_batch], the rows are added to it and nothing is written. *)
Definition prune_state_merkle (s : StaleSchema) (self : StateMerklePruner) (c : Columns) (min_readable_version target : Version)
    (batch_size : nat) (existing_schema_batch : option (list WriteRow)) :
    comp (StateMerklePruner * Columns * option (list WriteRow) * Version) :=
  rust_assert (negb (batch_size =? 0)%nat);;
  if target <? min_readable_version then Ret (self, c, existing_schema_batch, min_readable_version) else
  '(indices, is_end_of_target_version) ← get_stale_node_indices s c min_readable_version target batch_size;
  match last indices with
  | None => Ret (mkPruner (target_version self) (target, is_end_of_target_version), c, existing_schema_batch, target)
  | Some index =>
      let new_min_readable_version := stale_since_version index in
      let self := mkPruner (target_version self) (new_min_readable_version, is_end_of_target_version) in
      match existing_schema_batch with
      | Some batch => Ret (self, c, Some (batch ++ delete_rows s indices), new_min_readable_version)
      | None =>
          let batch := delete_rows s indices ++ [PutProgress s new_min_readable_version] in
          Ret (self, write_schemas c batch, None, new_min_readable_version)
      end
  end.

Definition prune (s : StaleSchema) (self : StateMerklePruner) (c : Columns) (batch_size : nat) : comp (StateMerklePruner * Columns) :=
  if negb (is_pruning_pending self) then Ret (self, c) else
  '(self, c, _, _) ← prune_state_merkle s self c (min_readable_version self) (target_version self) batch_size None;
  Ret (self, c).

(** [prune_genesis]: the rows that are stale since version 1 at most. *)
Definition prune_genesis (c : Columns) (batch : list WriteRow) : comp (list WriteRow) :=
  let state_pruner := StateMerklePruner_new StaleNodeIndexCrossEpochSchema c in
  '(_, _, batch, _) ← prune_state_merkle StaleNodeIndexCrossEpochSchema state_pruner c (min_readable_version state_pruner) 1 1 (Some batch);
  expect batch.

(** [StatePrunerWorker::set_target_db_version]. *)
Definition set_target_db_version (self : StateMerklePruner) (target_db_version : Version) : StateMerklePruner :=
  if target_version self <? target_db_version then mkPruner target_db_version (progress self) else self.

(** [StatePrunerManager::maybe_set_pruner_target_db_version]; the window is its
    configuration, if it is enabled. *)
Definition maybe_set_pruner_target_db_version (prune_window : option Version) (self : StateMerklePruner) (latest_version : Version) :
    StateMerklePruner :=
  match prune_window with
  | Some prune_window => set_target_db_version self (Z.max 0 (latest_version - prune_window))
  | None => self
  end.
End db.
