(* ===== verification/StateMerklePipeline.v ===== *)
(** * Committing and pruning the state tree

    The threads that work on the database of the state tree: the snapshot committer
    ([state_snapshot_committer.rs]) makes batches, the batch committer
    ([state_merkle_batch_committer.rs]) writes them, and one pruner for each column of
    stale nodes deletes nodes, while anyone reads.  The steps interleave in any order.
    Every version from the progress of the pruners on stays readable, and so does every
    epoch ending that the epoch snapshot pruner has not reached. *)
From S2P Require Import Prelude U64 NibblePath SparseMerkle JmtNode JellyfishMerkle JellyfishTree JellyfishUpdate JellyfishInsert JellyfishSound JmtCodec StateMerkleDb.
Local Open Scope Z_scope.
Local Open Scope rust_scope.

Section pipeline.
Context {SH : SparseMerkleHashers} {K : Type}.
Local Notation Node := (Node K).
Context {LRU : LruCache (Version * Node)}.
Local Notation state := (gmap HashValue (HashValue * (K * Version))).
Local Notation WriteRow := (WriteRow (K := K)).
Local Notation Columns := (Columns (K := K)).
Local Notation StateMerkleDb := (StateMerkleDb (K := K)).

Context (hash_iter : gmap Z Node → list (Z * Node)).

(** The configuration of the pruners, and the versions that end an epoch, which the ledger
    database has in [EpochByVersionSchema]. *)
Context (prune_window : StaleSchema → option Version) (batch_size : nat) (epoch_ending : Version → bool).

(** [outgoing] is what the snapshot committer waits to hand over, as the channel has no
    buffer; [committing] is what the batch committer works on, and whether it is written. *)
Record Pipeline : Type := mkPipeline {
  state_merkle_db : StateMerkleDb;
  outgoing : option (Version * list WriteRow);
  committing : option (Version * list WriteRow * bool);
  pruners : StaleSchema → StateMerklePruner;
}.

(** The states of the versions that have been merklized, the latest first. *)
Definition StateHistory : Type := list (Version * state).

Definition latest (hist : StateHistory) : option Version := fst <$> head hist.
Definition latest_state (hist : StateHistory) : state := default ∅ (snd <$> head hist).

(** [get_previous_epoch_ending] is at or after every epoch ending before the version. *)
Definition covers_epochs (version : Version) (previous_epoch_ending_version : option Version) : Prop :=
  ∀ e, epoch_ending e = true → e < version → ∃ v, previous_epoch_ending_version = Some v ∧ e ≤ v.

(** The updates of the next version, and what comes with them. *)
Record next_update (hist : StateHistory) (value_set : list (HashValue * option (HashValue * K))) (node_hashes : HashCache)
    (version : Version) (previous_epoch_ending_version : option Version) : Prop := {
  nv_version : match latest hist with Some v => v < version | None => True end;
  nv_keys : Forall (λ kv, hash_ok kv.1) value_set;
  nv_bound : Z.of_nat (size (updated_state version (latest_state hist) (collect_map value_set))) < 2 ^ 64;
  nv_hashes : cache_ok version (latest_state hist) (collect_map value_set) node_hashes;
  nv_epochs : covers_epochs version previous_epoch_ending_version;
}.

Definition with_db (p : Pipeline) (d : StateMerkleDb) : Pipeline := mkPipeline d (outgoing p) (committing p) (pruners p).
Definition with_columns (d : StateMerkleDb) (c : Columns) : StateMerkleDb := mkStateMerkleDb c (enable_cache d) (version_cache d) (lru_cache d).

(** The end of the batch committer's turn: eviction from the cache, and new targets. *)
Definition finish_batch (p : Pipeline) (version : Version) : comp Pipeline :=
  let d := state_merkle_db p in
  '(version_cache, lru_cache) ← (if enable_cache d then maybe_evict_version (version_cache d) (lru_cache d) else Ret (version_cache d, lru_cache d));
  Ret (mkPipeline (mkStateMerkleDb (db d) (enable_cache d) version_cache lru_cache) (outgoing p) None
         (λ s, maybe_set_pruner_target_db_version (prune_window s) (pruners p s) version)).

Inductive pipeline_step : Pipeline * StateHistory → Pipeline * StateHistory → Prop :=
  | step_merklize p hist value_set node_hashes version previous_epoch_ending_version d batch root_hash :
      outgoing p = None → next_update hist value_set node_hashes version previous_epoch_ending_version →
      merklize_value_set hash_iter (state_merkle_db p) value_set node_hashes version (latest hist) previous_epoch_ending_version =
        Ret (Ok (d, batch, root_hash)) →
      pipeline_step (p, hist)
        (mkPipeline d (Some (version, batch)) (committing p) (pruners p),
         (version, updated_state version (latest_state hist) (collect_map value_set)) :: hist)
  | step_send p hist version batch :
      outgoing p = Some (version, batch) → committing p = None →
      pipeline_step (p, hist) (mkPipeline (state_merkle_db p) None (Some (version, batch, false)) (pruners p), hist)
  | step_write p hist version batch :
      committing p = Some (version, batch, false) →
      pipeline_step (p, hist)
        (mkPipeline (with_columns (state_merkle_db p) (write_schemas (db (state_merkle_db p)) batch)) (outgoing p)
           (Some (version, batch, true)) (pruners p), hist)
  | step_finish p hist version batch p' :
      committing p = Some (version, batch, true) → finish_batch p version = Ret p' → pipeline_step (p, hist) (p', hist)
  | step_prune p hist s pruner columns :
      is_Some (prune_window s) → prune s (pruners p s) (db (state_merkle_db p)) batch_size = Ret (pruner, columns) →
      pipeline_step (p, hist)
        (mkPipeline (with_columns (state_merkle_db p) columns) (outgoing p) (committing p)
           (λ s', if decide (s' = s) then pruner else pruners p s'), hist)
  | step_read p hist key d n :
      get_node_option (state_merkle_db p) key = Ret (d, n) → pipeline_step (p, hist) (with_db p d, hist).

(** [AptosDB::error_if_state_merkle_pruned], the check before a version is read. *)
Definition error_if_state_merkle_pruned (p : Pipeline) (version : Version) : result jmt_error () :=
  let min_readable_version := StateMerkleDb.min_readable_version (pruners p StaleNodeIndexSchema) in
  if min_readable_version <=? version then Ok tt else
  let min_readable_epoch_snapshot_version := StateMerkleDb.min_readable_version (pruners p StaleNodeIndexCrossEpochSchema) in
  if min_readable_epoch_snapshot_version <=? version then if epoch_ending version then Ok tt else Err Anyhow
  else Err Anyhow.

(** [AptosDB::get_state_snapshot_before], with that of [StateDb]. *)
Definition get_state_snapshot_before (p : Pipeline) (next_version : Version) : comp (result jmt_error (option (Version * HashValue))) :=
  let? _ := error_if_state_merkle_pruned p next_version in
  ver ← get_state_snapshot_version_before (state_merkle_db p) next_version;
  match ver with
  | Some ver => let* root_hash := get_root_hash (reader_of (state_merkle_db p)) ver in Ret (Ok (Some (ver, root_hash)))
  | None => Ret (Ok None)
  end.

(** An empty database, as it is opened. *)
Definition empty_columns : Columns := mkColumns ∅ (λ _, ∅) (λ _, None).

Definition initial (p : Pipeline) : Prop :=
  db (state_merkle_db p) = empty_columns ∧ version_cache (state_merkle_db p) = [] ∧
  length (shards (lru_cache (state_merkle_db p))) = NUM_SHARDS ∧ Forall (λ c, lru_contents c = ∅) (shards (lru_cache (state_merkle_db p))) ∧
  outgoing p = None ∧ committing p = None ∧ ∀ s, pruners p s = StateMerklePruner_new s empty_columns.

Definition reachable (p : Pipeline) (hist : StateHistory) : Prop := ∃ p0, initial p0 ∧ rtc pipeline_step (p0, []) (p, hist).
End pipeline.
