(* ===== verification/StateMerkleSafety.v ===== *)
(** * Readable versions stay readable

    The invariant of the pipeline of [StateMerklePipeline]: every node that was written is
    in the database, in the versioned cache, or was pruned after the tree of no readable
    version uses it any more. *)
From S2P Require Import Prelude U64 NibblePath SparseMerkle JmtNode JellyfishMerkle JellyfishTree JellyfishUpdate JellyfishInsert JellyfishSound JmtCodec StateMerkleDb StateMerklePipeline.
Local Open Scope Z_scope.
Local Open Scope rust_scope.

(** ** Rows and caches *)

Section rows.
Context {SH : SparseMerkleHashers} {K : Type}.
Local Notation Node := (Node K).
Context {LRU : LruCache (Version * Node)} {LAWS : LruCacheLaws (Version * Node)}.
Implicit Types (c : Columns (K := K)) (b : list (WriteRow (K := K))).

Lemma write_rows_app c b b' : write_schemas c (b ++ b') = write_schemas (write_schemas c b) b'.
Proof. apply foldl_app. Qed.

(** The rows that [merklize_value_set] makes. *)
Definition batch_rows (previous_epoch_ending_version : option Version) (nodes : list (NodeKey * Node)) (stales : list StaleNodeIndex) : list WriteRow :=
  ((λ '(node_key, node), PutNode node_key node) <$> nodes) ++ (stale_row previous_epoch_ending_version <$> stales).

(** The column of a stale node. *)
Definition column_of (previous_epoch_ending_version : option Version) (i : StaleNodeIndex) : StaleSchema :=
  if match previous_epoch_ending_version with Some v => nk_version (stale_node_key i) <=? v | None => false end
  then StaleNodeIndexCrossEpochSchema else StaleNodeIndexSchema.

Lemma stale_row_column prev i : stale_row (K := K) prev i = PutStale (column_of prev i) i.
Proof. unfold stale_row, column_of. by destruct (match prev with Some _ => _ | None => _ end). Qed.

Lemma write_put_nodes c (nodes : list (NodeKey * Node)) :
  let c' := write_schemas c ((λ '(node_key, node), PutNode node_key node) <$> nodes) in
  stale_node_index c' = stale_node_index c ∧ pruner_progress c' = pruner_progress c ∧
  ∀ k, jellyfish_merkle_node c' !! k = match (list_to_map (reverse nodes) : gmap NodeKey Node) !! k with Some n => Some n | None => jellyfish_merkle_node c !! k end.
Proof.
  cbv zeta. induction nodes as [|[k0 n0] nodes IH] using rev_ind; [done|]. rewrite fmap_app write_rows_app reverse_snoc. cbn.
  destruct IH as (-> & -> & IH). split_and!; [done..|]. intros k. destruct (decide (k = k0)) as [->|Hne].
  - by rewrite !lookup_insert_eq.
  - rewrite !lookup_insert_ne //.
Qed.

Lemma write_put_stales c prev (stales : list StaleNodeIndex) :
  let c' := write_schemas c (stale_row prev <$> stales) in
  jellyfish_merkle_node c' = jellyfish_merkle_node c ∧ pruner_progress c' = pruner_progress c ∧
  ∀ s i, is_Some (stale_node_index c' s !! i) ↔ is_Some (stale_node_index c s !! i) ∨ (i ∈ stales ∧ column_of prev i = s).
Proof.
  cbv zeta. revert c. induction stales as [|j stales IH]; intros c.
  - split_and!; [done..|]. intros s i. split; [by left|]. intros [?|[?%elem_of_nil _]]; done.
  - cbn [fmap list_fmap]. change (write_schemas c (stale_row prev j :: ?l)) with (write_schemas (write_row c (stale_row prev j)) l).
    rewrite stale_row_column. destruct (IH (write_row c (PutStale (column_of prev j) j))) as (-> & -> & IH'). split_and!; [done..|]. intros s i. rewrite IH'. cbn.
    case_decide as Hs; [|rewrite elem_of_cons; naive_solver]. subst s. destruct (decide (i = j)) as [->|Hne].
    + rewrite lookup_insert_eq elem_of_cons. naive_solver.
    + rewrite lookup_insert_ne // elem_of_cons. naive_solver.
Qed.

Lemma write_deletes c s (indices : list StaleNodeIndex) :
  let c' := write_schemas c (delete_rows s indices) in
  pruner_progress c' = pruner_progress c ∧
  (∀ k, jellyfish_merkle_node c' !! k = if decide (k ∈ stale_node_key <$> indices) then None else jellyfish_merkle_node c !! k) ∧
  ∀ s' i, stale_node_index c' s' !! i = if decide (s' = s ∧ i ∈ indices) then None else stale_node_index c s' !! i.
Proof.
  cbv zeta. revert c. induction indices as [|j indices IH]; intros c.
  - split_and!; [done|..].
    + intros k. case_decide as Hin; [by apply elem_of_nil in Hin|done].
    + intros s' i. case_decide as Hin; [by destruct Hin as [_ ?%elem_of_nil]|done].
  - change (delete_rows s (j :: indices)) with ([DeleteNode (stale_node_key j); DeleteStale s j] ++ delete_rows (K := K) s indices). rewrite write_rows_app.
    destruct (IH (write_schemas c [DeleteNode (stale_node_key j); DeleteStale s j])) as (-> & IHn & IHs). split_and!; [done| |].
    + intros k. rewrite IHn. cbn. pose proof (elem_of_cons (stale_node_key <$> indices) k (stale_node_key j)) as Hcons. destruct (decide (k = stale_node_key j)) as [->|Hne].
      * rewrite lookup_delete_eq. repeat case_decide; naive_solver.
      * rewrite lookup_delete_ne //. repeat case_decide; naive_solver.
    + intros s' i. rewrite IHs. cbn. pose proof (elem_of_cons indices i j) as Hcons. destruct (decide (s' = s)) as [->|]; [|repeat case_decide; naive_solver].
      destruct (decide (i = j)) as [->|]; [rewrite lookup_delete_eq|rewrite lookup_delete_ne //]; repeat case_decide; naive_solver.
Qed.
End rows.

Section caches.
Context {SH : SparseMerkleHashers} {K : Type}.
Local Notation Node := (Node K).
Context {LRU : LruCache (Version * Node)} {LAWS : LruCacheLaws (Version * Node)}.

(** [full] are all nodes ever written. *)
Implicit Types (full : gmap NodeKey Node) (d : StateMerkleDb (K := K)) (l : LruNodeCache (K := K)).

Definition fits (key : NodeKey) : Prop := (shard (nibble_path key) < NUM_SHARDS)%nat.

Lemma under_fits key : under [] key → fits key.
Proof.
  intros (q & Hq & Hn). unfold fits, shard. rewrite Hq. cbn [app] in Hn |- *. cbn [pack path_bytes]. pose proof (pack_bytes_ok q Hn) as Hb. unfold NUM_SHARDS.
  destruct (pack_bytes q) as [|b l]; [lia|]. apply Forall_cons in Hb as [Hb _]. unfold is_byte in Hb. lia.
Qed.

(** The LRU cache has nodes that were written. *)
Definition lru_ok full l : Prop :=
  length (shards l) = NUM_SHARDS ∧
  ∀ c path v n, c ∈ shards l → lru_contents c !! path = Some (v, n) → full !! mkNodeKey v path = Some n.

Lemma lru_cache_get_ok full l key :
  lru_ok full l → fits key → ∃ l' r, lru_cache_get l key = Ret (l', r) ∧ lru_ok full l' ∧ ∀ n, r = Some n → full !! key = Some n.
Proof.
  intros [Hlen Hl] Hfit. unfold lru_cache_get. destruct (lookup_lt_is_Some_2 (shards l) (shard (nibble_path key))) as [c Hc]; [by rewrite Hlen|].
  rewrite Hc. cbn [expect]. run. pose proof (lru_get_result c (nibble_path key)) as Hres. pose proof (lru_get_contents c (nibble_path key)) as Hcont.
  destruct (lru_get c (nibble_path key)) as [c' ret]. cbn [fst snd] in *. eexists _, _. split_and!; [done| |].
  - split; cbn [shards]; [by rewrite length_insert|]. intros c0 path v n Hin Hn. apply list_elem_of_lookup in Hin as [i Hi].
    apply list_lookup_insert_Some in Hi as [(_ & <- & _)|[_ Hi]].
    + rewrite Hcont in Hn. apply (Hl c); [by apply list_elem_of_lookup_2 in Hc|done].
    + apply (Hl c0); [by apply list_elem_of_lookup_2 in Hi|done].
  - intros n. subst ret. destruct (lru_contents c !! nibble_path key) as [[v n']|] eqn:E; cbn; [|done]. destruct (Z.eqb_spec v (nk_version key)) as [->|]; [|done].
    intros [= <-]. apply list_elem_of_lookup_2 in Hc. specialize (Hl c _ _ _ Hc E). by destruct key.
Qed.

Lemma lru_cache_put_ok full l key n :
  lru_ok full l → fits key → full !! key = Some n → ∃ l', lru_cache_put l key n = Ret l' ∧ lru_ok full l'.
Proof.
  intros [Hlen Hl] Hfit Hn. unfold lru_cache_put. destruct (lookup_lt_is_Some_2 (shards l) (shard (nibble_path key))) as [c Hc]; [by rewrite Hlen|].
  rewrite Hc. cbn [expect]. run. eexists. split; [done|]. split; cbn [shards]; [by rewrite length_insert|].
  intros c0 path v n0 Hin Hn0. apply list_elem_of_lookup in Hin as [i Hi]. apply list_lookup_insert_Some in Hi as [(_ & <- & _)|[_ Hi]].
  - eapply lookup_weaken in Hn0; [|apply lru_put_contents]. apply lookup_insert_Some in Hn0 as [[<- [= <- <-]]|[_ Hn0]]; [by destruct key|].
    apply (Hl c); [by apply list_elem_of_lookup_2 in Hc|done].
  - apply (Hl c0); [by apply list_elem_of_lookup_2 in Hi|done].
Qed.

Lemma lru_ok_mono full full' l : full ⊆ full' → lru_ok full l → lru_ok full' l.
Proof. intros Hsub [Hlen Hl]. split; [done|]. intros c path v n Hc Hn. eapply lookup_weaken; [by eapply Hl|done]. Qed.

(** The caches: [versions] are those that were written. *)
Record caches_ok full (versions : list Version) d : Prop := {
  co_enabled : enable_cache d = true;
  co_full : ∀ k n, full !! k = Some n → nk_version k ∈ versions ∧ under [] k;
  co_versions : ∀ v nodes, (v, nodes) ∈ version_cache d →
    v ∈ versions ∧ nodes ⊆ full ∧ ∀ k, nk_version k = v → nodes !! k = full !! k;
  co_sorted : StronglySorted (λ a b, a.1 < b.1) (version_cache d);
  co_lru : lru_ok full (lru_cache d);
  co_stored : jellyfish_merkle_node (db d) ⊆ full;
}.

Lemma get_version_Some (c : VersionedNodeCache (K := K)) v nodes : get_version c v = Some nodes → (v, nodes) ∈ c.
Proof.
  unfold get_version. destruct (head _) as [[v' nodes']|] eqn:E; [|done]. cbn. intros [= <-]. apply head_Some_elem_of, list_elem_of_filter in E as [<- E].
  by rewrite elem_of_reverse in E.
Qed.

Lemma get_version_None (c : VersionedNodeCache (K := K)) v : get_version c v = None → v ∉ c.*1.
Proof.
  unfold get_version. rewrite fmap_None head_None. intros E ([v' nodes] & -> & Hin)%list_elem_of_fmap. cbn in E.
  assert ((v', nodes) ∈ filter (λ e, e.1 = v') (reverse c)) as Hin' by (apply list_elem_of_filter; by rewrite elem_of_reverse). rewrite E in Hin'. by apply elem_of_nil in Hin'.
Qed.

(** A read returns a node that was written, and it finds every node in the database or of
    a cached version. *)
Lemma get_node_option_ok full versions d key :
  caches_ok full versions d → fits key →
  ∃ d' n, get_node_option d key = Ret (d', n) ∧ caches_ok full versions d' ∧ db d' = db d ∧ version_cache d' = version_cache d ∧
    (∀ x, n = Some x → full !! key = Some x) ∧
    (is_Some (jellyfish_merkle_node (db d) !! key) ∨ nk_version key ∈ (version_cache d).*1 → n = full !! key).
Proof.
  intros [He Hf Hv Hs Hl Hst] Hfit. unfold get_node_option. rewrite He. cbn [negb]. destruct (get_version (version_cache d) (nk_version key)) as [nodes|] eqn:Eg.
  - apply get_version_Some in Eg. destruct (Hv _ _ Eg) as (_ & _ & Hn). exists d, (nodes !! key). rewrite (Hn key) //.
  - apply get_version_None in Eg. destruct (lru_cache_get_ok full _ key Hl Hfit) as (l' & r & -> & Hl' & Hr). run. destruct r as [n|].
    + eexists _, _. split_and!; [done|by split|done|done|intros x [= <-]; by apply Hr|]. intros _. by rewrite (Hr n).
    + destruct (jellyfish_merkle_node (db d) !! key) as [n|] eqn:En.
      * assert (Hn : full !! key = Some n) by (by eapply lookup_weaken). destruct (lru_cache_put_ok full l' key n Hl' Hfit Hn) as (l2 & -> & Hl2). run.
        eexists _, _. split_and!; [done|by split|done|done|by intros x [= <-]|done].
      * run. eexists _, _. split_and!; [done|by split|done|done|done|]. intros [[x Hx]|Hin]; [done|by destruct Eg].
Qed.

Lemma reader_live full versions d key n :
  caches_ok full versions d → full !! key = Some n →
  is_Some (jellyfish_merkle_node (db d) !! key) ∨ nk_version key ∈ (version_cache d).*1 → reader_of d key = Ok (Some n).
Proof.
  intros Hok Hn Hlive. destruct (get_node_option_ok full versions d key Hok) as (d' & r & E & _ & _ & _ & _ & Hr).
  - apply under_fits. by eapply co_full.
  - unfold reader_of. rewrite E. by rewrite Hr // Hn.
Qed.
(** A read never returns anything else than what was written. *)
Lemma reader_misses full versions d : caches_ok full versions d → misses_from (reader_of d) (reads full).
Proof.
  intros Hok key. unfold reader_of, reads, get_node. destruct (decide (fits key)) as [Hfit|Hfit].
  - destruct (get_node_option_ok full versions d key Hok Hfit) as (d' & n & -> & _ & _ & _ & Hn & _). destruct n as [x|]; [left|right; by eexists].
    by rewrite (Hn x).
  - unfold get_node_option. rewrite (co_enabled _ _ _ Hok). cbn [negb]. destruct (get_version _ _) as [nodes|] eqn:Eg.
    + apply get_version_Some, (co_versions _ _ _ Hok) in Eg as (_ & Hsub & _). destruct (nodes !! key) as [x|] eqn:Ex; [|right; by eexists].
      destruct Hfit. by eapply under_fits, co_full, lookup_weaken.
    + unfold lru_cache_get. rewrite lookup_ge_None_2; [unfold fits in Hfit; rewrite (proj1 (co_lru _ _ _ Hok)); lia|]. right. by eexists.
Qed.
End caches.

(** ** The invariant *)

Section safety.
Context {SH : SparseMerkleHashers} {K : Type}.
Local Notation Node := (Node K).
Context {LRU : LruCache (Version * Node)} {LAWS : LruCacheLaws (Version * Node)}.
Local Notation Pipeline := (Pipeline (K := K)).
Local Notation StateHistory := (StateHistory (K := K)).
Context (hash_iter : gmap Z Node → list (Z * Node)) (Hiter : ∀ m, hash_iter m ≡ₚ map_to_list m).
Context (prune_window : StaleSchema → option Version) (batch_size : nat) (epoch_ending : Version → bool).
Implicit Types (full : gmap NodeKey Node) (p : Pipeline) (hist : StateHistory).

(** A row of a column of stale nodes: no tree uses the node from [stale_since_version] on;
    what the state pruner deletes is younger than every epoch ending before. *)
Record stale_ok full hist (s : StaleSchema) (i : StaleNodeIndex) : Prop := {
  so_version : nk_version (stale_node_key i) < stale_since_version i;
  so_since : stale_since_version i ∈ hist.*1;
  so_trees : ∀ w m, (w, m) ∈ hist → stale_since_version i ≤ w → ¬ tree_nodes (reads full) w (stale_node_key i);
  so_epochs : s = StaleNodeIndexSchema → ∀ e, epoch_ending e = true → e < stale_since_version i → e < nk_version (stale_node_key i);
}.

(** A batch that is not written yet. *)
Definition pending_batch full hist (version : Version) (batch : list WriteRow) : Prop :=
  ∃ prev nodes stales, batch = batch_rows prev nodes stales ∧ NoDup nodes.*1 ∧
    (∀ k n, (k, n) ∈ nodes ↔ full !! k = Some n ∧ nk_version k = version) ∧
    ∀ i, i ∈ stales → stale_ok full hist (column_of prev i) i.

Definition unwritten p (version : Version) : Prop :=
  (∃ batch, outgoing p = Some (version, batch)) ∨ ∃ batch, committing p = Some (version, batch, false).

Definition pruned full hist (pruners : StaleSchema → StateMerklePruner) (k : NodeKey) : Prop :=
  ∃ s i, stale_node_key i = k ∧ stale_ok full hist s i ∧ stale_since_version i ≤ min_readable_version (pruners s).

Record pipeline_inv full p hist : Prop := {
  pi_caches : caches_ok full hist.*1 (state_merkle_db p);
  pi_sorted : StronglySorted (λ a b, b.1 < a.1) hist;
  pi_trees : ∀ w m, (w, m) ∈ hist → keys_ok m ∧ has_tree (reads full) w m;
  pi_nodes : ∀ k, is_Some (full !! k) →
    is_Some (jellyfish_merkle_node (db (state_merkle_db p)) !! k) ∨ unwritten p (nk_version k) ∨ pruned full hist (pruners p) k;
  pi_outgoing : ∀ v batch, outgoing p = Some (v, batch) →
    fst <$> last (version_cache (state_merkle_db p)) = Some v ∧ pending_batch full hist v batch;
  pi_committing : ∀ v batch, committing p = Some (v, batch, false) →
    v ∈ (version_cache (state_merkle_db p)).*1 ∧ pending_batch full hist v batch;
  pi_stale : ∀ s i, is_Some (stale_node_index (db (state_merkle_db p)) s !! i) → stale_ok full hist s i;
}.

Lemma unwritten_cached full p hist v : pipeline_inv full p hist → unwritten p v → v ∈ (version_cache (state_merkle_db p)).*1.
Proof.
  intros Hi [[b Hb]|[b Hb]]; [|by eapply pi_committing]. eapply pi_outgoing in Hb as [Hl _]; [|done].
  apply fmap_Some in Hl as ([v' c] & Hl & ->). apply last_Some_elem_of in Hl. by apply (list_elem_of_fmap_2 fst) in Hl.
Qed.

(** What a version still needs is found by a read. *)
Lemma inv_readable full p hist w m :
  pipeline_inv full p hist → (w, m) ∈ hist → (∀ k, tree_nodes (reads full) w k → ¬ pruned full hist (pruners p) k) →
  keys_ok m ∧ has_tree (reader_of (state_merkle_db p)) w m ∧
  ∀ k, tree_nodes (reader_of (state_merkle_db p)) w k → tree_nodes (reads full) w k ∧ reader_of (state_merkle_db p) k = reads full k.
Proof.
  intros Hi Hw Hk. destruct (pi_trees _ _ _ Hi w m Hw) as [Hm Ht]. split; [done|].
  assert (Hrd : ∀ k, tree_nodes (reads full) w k → reader_of (state_merkle_db p) k = reads full k); cycle 1.
  { destruct (has_tree_frame _ (reader_of (state_merkle_db p)) _ _ Ht Hrd) as [Ht' Hn]. split; [done|]. intros k Hin%Hn. by auto. }
  intros k Hin.
  destruct (tree_nodes_read _ _ _ Hin) as [n Hn]. unfold reads in *. injection Hn as Hn. rewrite Hn.
  eapply reader_live; [by eapply pi_caches|done|]. destruct (pi_nodes _ _ _ Hi k) as [Hdb|[Hun|Hpr]]; [by exists n|by left|right; by eapply unwritten_cached|by apply Hk in Hpr].
Qed.

Lemma history_latest hist w m : StronglySorted (λ a b, b.1 < a.1) hist → (w, m) ∈ hist → ∃ v, latest hist = Some v ∧ w ≤ v.
Proof.
  destruct hist as [|[v m'] hist]; [by intros _ ?%elem_of_nil|]. intros [_ Hs]%StronglySorted_inv [E|Hin]%elem_of_cons; exists v; (split; [done|]).
  - simplify_eq. done.
  - rewrite Forall_forall in Hs. specialize (Hs _ Hin). cbn in Hs. lia.
Qed.

Lemma history_versions hist w : StronglySorted (λ a b, b.1 < a.1) hist → w ∈ hist.*1 → ∃ v, latest hist = Some v ∧ w ≤ v.
Proof. intros Hs ([w' m] & -> & Hin)%list_elem_of_fmap. by eapply history_latest. Qed.

(** The latest version is always readable. *)
Lemma inv_base full p hist version :
  pipeline_inv full p hist → match latest hist with Some v => v < version | None => True end →
  base_tree (reader_of (state_merkle_db p)) (latest hist) version (latest_state hist) ∧ keys_ok (latest_state hist) ∧
  ∀ k, base_nodes (reader_of (state_merkle_db p)) (latest hist) k →
    base_nodes (reads full) (latest hist) k ∧ reader_of (state_merkle_db p) k = reads full k.
Proof.
  intros Hi Hv. destruct hist as [|[v m] hist'] eqn:E; cbn in *; [split_and!; [done| |done]; apply map_Forall_empty|].
  assert (Hin : (v, m) ∈ hist) by (rewrite E; by left). rewrite -E in Hi. destruct (inv_readable full p hist v m Hi Hin) as (Hm & Ht & Hn); [|done].
  intros k Hk (s & i & <- & Hst & _). destruct (history_versions hist _ (pi_sorted _ _ _ Hi) (so_since _ _ _ _ Hst)) as (v' & Hl & Hle). rewrite E in Hl. cbn in Hl. simplify_eq.
  by apply (so_trees _ _ _ _ Hst v' m).
Qed.

Lemma last_cached full versions d v : caches_ok full versions d → fst <$> last (version_cache d) = Some v → v ∈ versions.
Proof. intros Hc ([v' c] & Hl & ->)%fmap_Some. apply last_Some_elem_of in Hl. by eapply co_versions in Hl as [? _]. Qed.

(** Merklization succeeds. *)
Lemma inv_merklize full p hist value_set node_hashes version prev :
  pipeline_inv full p hist → next_update epoch_ending hist value_set node_hashes version prev →
  let d := state_merkle_db p in
  let m := updated_state version (latest_state hist) (collect_map value_set) in
  ∃ b, merklize_value_set hash_iter d value_set node_hashes version (latest hist) prev =
      Ret (Ok (mkStateMerkleDb (db d) (enable_cache d) (version_cache d ++ [(version, list_to_map (reverse (new_nodes b)))]) (lru_cache d),
        batch_rows prev (new_nodes b) (concat (stale_node_index_batch b)), smt_root fst m)) ∧
    batch_ok (reader_of d) (latest hist) version m b.
Proof.
  intros Hi Hn. cbv zeta. destruct (inv_base full p hist version Hi (nv_version _ _ _ _ _ _ Hn)) as (Hbase & Hkeys & _).
  destruct (batch_put_value_set_ok hash_iter _ value_set node_hashes (latest hist) version (latest_state hist) Hiter Hkeys (nv_keys _ _ _ _ _ _ Hn) Hbase
    (nv_bound _ _ _ _ _ _ Hn) (nv_hashes _ _ _ _ _ _ Hn)) as (b & E & Hb).
  exists b. split; [|done]. unfold merklize_value_set. rewrite E. cbn [try]. pose proof (pi_caches _ _ _ Hi) as Hc. rewrite (co_enabled _ _ _ Hc). unfold add_version.
  replace (match last _ with Some (last_version, _) => rust_assert (last_version <? version) | None => Ret tt end) with (Ret tt).
  { run. unfold new_nodes, batch_rows. done. }
  destruct (last _) as [[v c]|] eqn:El; [|done]. assert (v ∈ hist.*1) as Hv by (eapply last_cached; [done|by rewrite El]).
  destruct (history_versions _ _ (pi_sorted _ _ _ Hi) Hv) as (v' & Hl & Hle). pose proof (nv_version _ _ _ _ _ _ Hn) as Hlt. rewrite Hl in Hlt. cbn in Hlt.
  unfold rust_assert. by rewrite (proj2 (Z.ltb_lt v version)); [lia|].
Qed.

(** ** A new version *)

Section merklized.
Context full p hist (value_set : list (HashValue * option (HashValue * K))) (node_hashes : HashCache) (version : Version) (prev : option Version).
Context (Hi : pipeline_inv full p hist) (Hn : next_update epoch_ending hist value_set node_hashes version prev).
Let m' := updated_state version (latest_state hist) (collect_map value_set).
Context (b : TreeUpdateBatch (K := K)) (Hb : batch_ok (reader_of (state_merkle_db p)) (latest hist) version m' b).

Let full' : gmap NodeKey Node := write_nodes full b.
Let hist' : StateHistory := (version, m') :: hist.

Lemma new_is_later w : w ∈ hist.*1 → w < version.
Proof.
  intros Hw. destruct (history_versions _ _ (pi_sorted _ _ _ Hi) Hw) as (v' & Hl & Hle). pose proof (nv_version _ _ _ _ _ _ Hn) as Hlt. rewrite Hl in Hlt. cbn in Hlt. lia.
Qed.

Lemma full_new k n : full' !! k = Some n ↔ (k, n) ∈ new_nodes b ∨ full !! k = Some n.
Proof.
  eapply write_nodes_lookup; [done|]. intros k' [n' Hk]. destruct (co_full _ _ _ (pi_caches _ _ _ Hi) _ _ Hk) as [Hv%new_is_later _]. done.
Qed.

Lemma full_sub : full ⊆ full'.
Proof. apply map_subseteq_spec. intros k n Hk. apply full_new. by right. Qed.

(** The trees of the versions before are unchanged. *)
Lemma old_trees w m : (w, m) ∈ hist → has_tree (reads full') w m ∧ ∀ k, tree_nodes (reads full') w k ↔ tree_nodes (reads full) w k.
Proof.
  intros Hw. apply has_tree_frame; [by eapply pi_trees|]. intros k (n & Hk)%tree_nodes_read. unfold reads in *. injection Hk as Hk. rewrite Hk.
  f_equal. apply full_new. by right.
Qed.

(** The new tree has the new nodes and what is left of the tree before. *)
Lemma new_trees :
  has_tree (reads full') version m' ∧
  ∀ k, tree_nodes (reads full') version k ↔ k ∈ (new_nodes b).*1 ∨ (base_nodes (reader_of (state_merkle_db p)) (latest hist) k ∧ k ∉ stale_nodes b).
Proof.
  destruct (inv_base full p hist version Hi (nv_version _ _ _ _ _ _ Hn)) as (_ & _ & Hsame). apply (new_tree _ _ _ _ _ Hb).
  - intros k x Hx. unfold reads. f_equal. apply full_new. by left.
  - intros k [Hk Hrd]%Hsame _. rewrite Hrd. unfold reads. f_equal. assert (∃ v, tree_nodes (reads full) v k) as [v (n & Hkn)%tree_nodes_read].
    { destruct (latest hist) as [v|]; [by exists v|done]. }
    unfold reads in Hkn. injection Hkn as Hkn. rewrite Hkn. apply full_new. by right.
Qed.

Lemma base_old k : base_nodes (reader_of (state_merkle_db p)) (latest hist) k → ∃ v m, latest hist = Some v ∧ (v, m) ∈ hist ∧ tree_nodes (reads full) v k.
Proof.
  intros Hk. destruct (inv_base full p hist version Hi (nv_version _ _ _ _ _ _ Hn)) as (_ & _ & Hsame). apply Hsame in Hk as [Hk _].
  destruct hist as [|[v m] h]; [done|]. exists v, m. split_and!; [done|by left|done].
Qed.

(** Rows of stale nodes stay right. *)
Lemma stale_ok_new s i : stale_ok full hist s i → stale_ok full' hist' s i.
Proof.
  intros [Hv Hs Ht He]. split; [done|by right| |done]. intros w m [[= -> ->]|Hw]%elem_of_cons Hle; [|by rewrite (proj2 (old_trees w m Hw)); eauto].
  pose proof (new_is_later _ Hs) as Hlt. rewrite (proj2 new_trees). intros [([k n] & E & Hk)%list_elem_of_fmap|[Hk _]].
  - apply (new_nodes_version _ _ _ _ _ Hb) in Hk. cbn in E. subst k. lia.
  - apply base_old in Hk as (v & m0 & Hl & Hin & Hk). destruct (history_versions _ _ (pi_sorted _ _ _ Hi) Hs) as (v' & Hl' & Hle'). simplify_eq. by eapply Ht.
Qed.

Lemma pending_new v batch : v < version → pending_batch full hist v batch → pending_batch full' hist' v batch.
Proof.
  intros Hv (pv & nodes & stales & -> & Hnd & Hnodes & Hst). exists pv, nodes, stales. split_and!; [done..| |].
  - intros k n. rewrite Hnodes full_new. split; [tauto|]. intros [[Hk|?] E]; [|done]. apply (new_nodes_version _ _ _ _ _ Hb) in Hk. lia.
  - intros i Hin. by apply stale_ok_new, Hst.
Qed.

(** The new batch. *)
Lemma pending_batch_new : pending_batch full' hist' version (batch_rows prev (new_nodes b) (concat (stale_node_index_batch b))).
Proof.
  eexists prev, _, _. split_and!; [done|apply (new_nodes_NoDup _ _ _ _ _ Hb)| |].
  - intros k n. rewrite full_new. split.
    + intros Hk. split; [by left|]. by eapply new_nodes_version.
    + intros [[?|Hk] E]; [done|]. destruct (co_full _ _ _ (pi_caches _ _ _ Hi) _ _ Hk) as [Hv%new_is_later _]. lia.
  - intros i Hin. pose proof (stale_nodes_since _ _ _ _ _ Hb i Hin) as Hsince.
    assert (Hst : stale_node_key i ∈ stale_nodes b) by (by apply list_elem_of_fmap_2). pose proof (stale_nodes_base _ _ _ _ _ Hb _ Hst) as Hbase.
    destruct (base_old _ Hbase) as (v & m & Hl & Hvm & Hk). assert (Hkv : nk_version (stale_node_key i) ≤ v) by (eapply tree_nodes_version; [by eapply pi_trees|done]).
    assert (Hv : v < version) by (apply new_is_later; by apply (list_elem_of_fmap_2 fst) in Hvm). split.
    + lia.
    + rewrite Hsince. by left.
    + rewrite Hsince. intros w m0 [[= -> ->]|Hw]%elem_of_cons Hle.
      * rewrite (proj2 new_trees). intros [([k n] & E & Hk')%list_elem_of_fmap|[_ ?]]; [|done]. apply (new_nodes_version _ _ _ _ _ Hb) in Hk'. cbn in E. subst k. lia.
      * apply (list_elem_of_fmap_2 fst), new_is_later in Hw. cbn in Hw. lia.
    + rewrite Hsince. intros Hcol e He Hlt. destruct (nv_epochs _ _ _ _ _ _ Hn e He Hlt) as (v' & -> & Hle).
      unfold column_of in Hcol. destruct (Z.leb_spec (nk_version (stale_node_key i)) v'); [done|lia].
Qed.
End merklized.

Lemma inv_step_merklize full p hist value_set node_hashes version prev d batch root_hash :
  pipeline_inv full p hist → outgoing p = None → next_update epoch_ending hist value_set node_hashes version prev →
  merklize_value_set hash_iter (state_merkle_db p) value_set node_hashes version (latest hist) prev = Ret (Ok (d, batch, root_hash)) →
  ∃ full', pipeline_inv full' (mkPipeline d (Some (version, batch)) (committing p) (pruners p))
    ((version, updated_state version (latest_state hist) (collect_map value_set)) :: hist).
Proof.
  intros Hi Ho Hn E. destruct (inv_merklize _ _ _ _ _ _ _ Hi Hn) as (b & E' & Hb). rewrite E in E'. injection E' as -> -> _.
  exists (write_nodes full b). pose proof (pi_caches _ _ _ Hi) as [He Hf Hv Hs Hl Hst].
  pose proof (new_is_later full p hist _ _ _ _ Hi Hn) as Hlater. pose proof (full_new full p hist _ _ _ _ Hi Hn b Hb) as Hnew.
  pose proof (full_sub full p hist _ _ _ _ Hi Hn b Hb) as Hsub. pose proof (stale_ok_new full p hist _ _ _ _ Hi Hn b Hb) as Hstale.
  pose proof (new_trees full p hist _ _ _ _ Hi Hn b Hb) as [Htree Hin]. split; cbn [state_merkle_db outgoing committing pruners].
  - split; cbn [enable_cache version_cache lru_cache db]; [done| | | |by eapply lru_ok_mono|by etrans].
    + intros k n [Hk|Hk]%Hnew; [|destruct (Hf _ _ Hk); split; [by right|done]].
      split; [rewrite (new_nodes_version _ _ _ _ _ Hb _ _ Hk); by left|]. eapply tree_nodes_under, Hin. left. by apply (list_elem_of_fmap_2 fst) in Hk.
    + intros v nodes [Hc|[= -> ->]%list_elem_of_singleton]%elem_of_app; cbn [fmap list_fmap fst].
      * destruct (Hv _ _ Hc) as (Hvh & Hsn & Hsame). split_and!; [by right|by etrans|]. intros k Hk. rewrite Hsame //. symmetry. apply lookup_union_r, eq_None_not_Some.
        intros [x Hx%(node_rows_lookup (new_nodes b))]; [|apply (new_nodes_NoDup _ _ _ _ _ Hb)]. apply (new_nodes_version _ _ _ _ _ Hb) in Hx. apply Hlater in Hvh. lia.
      * split_and!; [by left|apply map_union_subseteq_l|]. intros k Hk. symmetry. unfold NodeCache. apply lookup_union_l, eq_None_not_Some. intros [x Hx]. apply Hf in Hx as [Hx%Hlater _]. lia.
    + apply StronglySorted_app. split_and!; [|done|repeat constructor]. intros [v c] y Hc ->%list_elem_of_singleton. cbn. apply Hv in Hc as [Hc _]. by apply Hlater.
  - constructor; [by eapply pi_sorted|]. apply Forall_forall. intros [w m] Hw. cbn. apply Hlater. by apply (list_elem_of_fmap_2 fst) in Hw.
  - intros w m [[= -> ->]|Hw]%elem_of_cons.
    + split; [|done]. apply updated_keys; [|apply collect_map_keys, (nv_keys _ _ _ _ _ _ Hn)]. by eapply inv_base, nv_version.
    + split; [by eapply pi_trees|]. by apply (old_trees full p hist _ _ _ _ Hi Hn b Hb).
  - intros k [n [Hk|Hk]%Hnew].
    + right; left; left. eexists. cbn. by rewrite (new_nodes_version _ _ _ _ _ Hb _ _ Hk).
    + destruct (pi_nodes _ _ _ Hi k) as [?|[Hun|(s & i & Hki & Hok & Hle)]]; [by exists n|by left|right; left|].
      * destruct Hun as [[bt Hbt]|Hun]; [by rewrite Ho in Hbt|by right].
      * right; right. exists s, i. split_and!; [done|by apply Hstale|done].
  - intros v batch [= <- <-]. rewrite last_snoc. split; [done|]. by apply (pending_batch_new full p hist _ _ _ _ Hi Hn b Hb).
  - intros v batch Hcm. destruct (pi_committing _ _ _ Hi _ _ Hcm) as [Hc Hp]. split; [cbn; rewrite fmap_app; apply elem_of_app; by left|].
    apply (pending_new full p hist _ _ _ _ Hi Hn b Hb); [|done]. apply Hlater. apply list_elem_of_fmap in Hc as ([v' c] & -> & Hc). by apply Hv in Hc as [? _].
  - intros s i Hsi. apply Hstale. by eapply pi_stale.
Qed.

Lemma inv_step_send full p hist version batch :
  pipeline_inv full p hist → outgoing p = Some (version, batch) → committing p = None →
  pipeline_inv full (mkPipeline (state_merkle_db p) None (Some (version, batch, false)) (pruners p)) hist.
Proof.
  intros Hi Ho Hc. pose proof Hi as [Hca Hs Ht Hn Hout Hcom Hst]. split; cbn [state_merkle_db outgoing committing pruners]; try done.
  - intros k Hk. destruct (Hn k Hk) as [?|[[[b Hb]|[b Hb]]|?]]; [by left| | |by right; right]; [|by rewrite Hc in Hb].
    right; left; right. exists batch. by simplify_eq.
  - intros v b [= <- <-]. split; [eapply unwritten_cached; [done|left; by exists batch]|by apply Hout].
Qed.

(** Writing a batch: its nodes, and the rows of what it makes stale. *)
Lemma inv_step_write full p hist version batch :
  pipeline_inv full p hist → committing p = Some (version, batch, false) →
  pipeline_inv full (mkPipeline (with_columns (state_merkle_db p) (write_schemas (db (state_merkle_db p)) batch)) (outgoing p)
    (Some (version, batch, true)) (pruners p)) hist.
Proof.
  intros Hi Hc. pose proof Hi as [[He Hf Hv Hsc Hl Hsub] Hs Ht Hn Hout Hcom Hst].
  destruct (Hcom _ _ Hc) as [_ (prev & nodes & stales & -> & Hnd & Hnodes & Hstales)]. unfold batch_rows. rewrite write_rows_app.
  destruct (write_put_nodes (db (state_merkle_db p)) nodes) as (Es & _ & En). cbv zeta in Es, En.
  set (c1 := write_schemas _ ((λ '(node_key, node), PutNode node_key node) <$> nodes)) in *.
  destruct (write_put_stales c1 prev stales) as (E2 & _ & Es2). cbv zeta in E2, Es2. set (c2 := write_schemas c1 _) in *.
  pose proof (λ k n, node_rows_lookup nodes k n Hnd) as Hmap.
  assert (Hdb : ∀ k, jellyfish_merkle_node c2 !! k = match (list_to_map (reverse nodes) : gmap NodeKey Node) !! k with Some n => Some n | None => jellyfish_merkle_node (db (state_merkle_db p)) !! k end) by (intros k; by rewrite E2 En).
  split; cbn [state_merkle_db outgoing committing pruners with_columns db version_cache enable_cache lru_cache]; try done.
  - split; cbn [enable_cache version_cache lru_cache db]; try done. apply map_subseteq_spec. intros k n. rewrite Hdb. destruct (list_to_map _ !! k) as [x|] eqn:E.
    + intros [= <-]. apply Hmap, Hnodes in E. tauto.
    + intros Hk. by eapply lookup_weaken.
  - intros k Hk. rewrite Hdb. destruct (list_to_map _ !! k) as [x|] eqn:E; [by left|]. destruct (Hn k Hk) as [?|[[?|[b Hb]]|?]]; [by left|by right; left; left| |by right; right].
    exfalso. destruct Hk as [n Hk]. assert (Hin : (k, n) ∈ nodes) by (apply Hnodes; split; [done|by simplify_eq]). apply Hmap in Hin. by rewrite Hin in E.
  - intros s i Hsi. apply Es2 in Hsi as [Hsi|[Hin <-]]; [|by apply Hstales]. rewrite Es in Hsi. by apply Hst.
Qed.

(** Evicting the oldest version: its batch is written. *)
Lemma put_all_ok full l (nodes : list (NodeKey * Node)) :
  lru_ok full l → (∀ k n, (k, n) ∈ nodes → full !! k = Some n ∧ fits k) →
  ∃ l', foldl (λ acc '(node_key, node), c ← acc; lru_cache_put c node_key node) (Ret l) nodes = Ret l' ∧ lru_ok full l'.
Proof.
  revert l. induction nodes as [|[k n] nodes IH]; intros l Hl Hn; cbn [foldl]; [by exists l|]. destruct (Hn k n) as [Hk Hf]; [by left|].
  run. destruct (lru_cache_put_ok full l k n Hl Hf Hk) as (l' & -> & Hl'). apply IH; [done|]. intros k' n' Hin. apply Hn. by right.
Qed.

Lemma maybe_evict_ok full versions d :
  caches_ok full versions d →
  ∃ vc l, maybe_evict_version (version_cache d) (lru_cache d) = Ret (vc, l) ∧ caches_ok full versions (mkStateMerkleDb (db d) (enable_cache d) vc l) ∧
    last vc = last (version_cache d).
Proof.
  intros [He Hf Hv Hs Hl Hst]. unfold maybe_evict_version. destruct (Nat.ltb_spec NUM_VERSIONS_TO_CACHE (length (version_cache d))) as [Hlen|_]; cycle 1.
  { eexists _, _. split_and!; [done|by split|done]. }
  destruct (version_cache d) as [|[v nodes] rest] eqn:E; [cbn in Hlen; lia|].
  destruct (Hv v nodes) as (_ & Hsub & _); [by left|]. destruct (put_all_ok full (lru_cache d) (map_to_list nodes) Hl) as (l & -> & Hl').
  { intros k n Hk%(elem_of_map_to_list (M := gmap NodeKey)). eapply lookup_weaken in Hk; [|exact Hsub]. split; [done|]. by eapply under_fits, Hf. }
  run. eexists _, _. split_and!; [done| |].
  - split; cbn [enable_cache version_cache lru_cache db]; try done; [|by apply StronglySorted_inv in Hs as [? _]]. intros v' c Hc. apply Hv. by right.
  - destruct rest as [|x rest]; [cbn in Hlen; unfold NUM_VERSIONS_TO_CACHE in Hlen; lia|done].
Qed.

Lemma min_readable_set_target (pruner : StateMerklePruner) w v :
  min_readable_version (maybe_set_pruner_target_db_version w pruner v) = min_readable_version pruner.
Proof. destruct w as [w|]; [|done]. cbn. unfold set_target_db_version. by destruct (target_version pruner <? _). Qed.

Lemma inv_step_finish full p hist version batch p' :
  pipeline_inv full p hist → committing p = Some (version, batch, true) → finish_batch prune_window p version = Ret p' → pipeline_inv full p' hist.
Proof.
  intros [Hca Hs Ht Hn Hout Hcom Hst] Hc. unfold finish_batch. rewrite (co_enabled _ _ _ Hca).
  destruct (maybe_evict_ok _ _ _ Hca) as (vc & l & -> & Hca' & Hlast). run. intros [= <-]. rewrite (co_enabled _ _ _ Hca) in Hca'.
  split; cbn [state_merkle_db outgoing committing pruners db version_cache]; try done.
  - intros k Hk. destruct (Hn k Hk) as [?|[[?|[b Hb]]|(s & i & Hi)]]; [by left|by right; left; left|by rewrite Hc in Hb|right; right].
    exists s, i. by rewrite min_readable_set_target.
  - intros v b Hb. rewrite Hlast. by apply Hout.
Qed.

(** ** Pruning *)

Lemma index_le_since (i j : StaleNodeIndex) : key_le i j → stale_since_version i ≤ stale_since_version j.
Proof. cbn. unfold pair_le. cbn. lia. Qed.

Lemma fetch_prefix n target rows : ∃ rest, rows = fetch n target rows ++ rest.
Proof.
  revert rows. induction n as [|n IH]; intros [|i rows]; cbn [fetch]; [by eexists..|]. destruct (stale_since_version i <=? target); [|by eexists].
  destruct (IH rows) as [rest E]. exists rest. cbn. by rewrite -E.
Qed.

(** The rows that are fetched: they are in the column, in order, from [start] on. *)
Lemma get_stale_node_indices_ok s (c : Columns (K := K)) start target :
  ∃ indices done, get_stale_node_indices s c start target batch_size = Ret (indices, done) ∧
    (∀ i, i ∈ indices → is_Some (stale_node_index c s !! i) ∧ start ≤ stale_since_version i) ∧
    ∀ i l, last indices = Some l → i ∈ indices → stale_since_version i ≤ stale_since_version l.
Proof.
  unfold get_stale_node_indices. rewrite empty_path. run.
  set (rows := filter _ _). destruct (fetch_prefix (S batch_size) target rows) as [rest E]. set (ind := fetch (S batch_size) target rows) in *.
  assert (Hpre : ∃ indices done rest', (if (batch_size <? length ind)%nat then (take (length ind - 1) ind, false) else (ind, true)) = (indices, done) ∧ rows = indices ++ rest').
  { destruct (batch_size <? length ind)%nat; [|by eexists _, _, _]. eexists _, _, (drop (length ind - 1) ind ++ rest). split; [done|]. by rewrite app_assoc take_drop. }
  destruct Hpre as (indices & dn & rest' & -> & Erows). exists indices, dn. split; [done|]. split.
  - intros i Hi. assert (Hin : i ∈ rows) by (rewrite Erows; apply elem_of_app; by left). apply list_elem_of_filter in Hin as [Hle Hin].
    split; [by apply elem_of_btree_keys|]. by apply index_le_since in Hle.
  - intros i l Hl Hi. assert (Hs : StronglySorted key_le rows) by apply StronglySorted_filter, btree_keys_sorted. rewrite Erows in Hs.
    apply StronglySorted_app in Hs as (_ & Hs & _). apply last_Some in Hl as [l' ->]. apply StronglySorted_app in Hs as (Hs & _ & _).
    apply elem_of_app in Hi as [Hi| ->%list_elem_of_singleton]; [|done]. apply index_le_since, Hs; [done|by left].
Qed.

(** A run of a pruner deletes nodes of rows up to its progress. *)
Lemma prune_ok s pruner (c : Columns (K := K)) pruner' c' :
  prune s pruner c batch_size = Ret (pruner', c') →
  min_readable_version pruner ≤ min_readable_version pruner' ∧
  (∀ k, jellyfish_merkle_node c' !! k = jellyfish_merkle_node c !! k ∨
    jellyfish_merkle_node c' !! k = None ∧
    ∃ i, stale_node_key i = k ∧ is_Some (stale_node_index c s !! i) ∧ stale_since_version i ≤ min_readable_version pruner') ∧
  ∀ s' i, is_Some (stale_node_index c' s' !! i) → is_Some (stale_node_index c s' !! i).
Proof.
  unfold prune. destruct (is_pruning_pending pruner); cbn [negb]; [|intros [= <- <-]; split_and!; [done|by left|done]].
  unfold prune_state_merkle. destruct (negb (batch_size =? 0)%nat) eqn:Eb; cbn [rust_assert]; [|done]. run.
  destruct (Z.ltb_spec (target_version pruner) (min_readable_version pruner)) as [|Hle]; [run; intros [= <- <-]; split_and!; [done|by left|done]|].
  destruct (get_stale_node_indices_ok s c (min_readable_version pruner) (target_version pruner)) as (indices & dn & -> & Hin & Hlast). run.
  destruct (last indices) as [l|] eqn:El; run; intros [= <- <-]; cbn [min_readable_version progress fst]; [|split_and!; [done|by left|done]].
  rewrite write_rows_app. destruct (write_deletes c s indices) as (_ & Hn & Hs). cbv zeta in Hn, Hs.
  split_and!; [apply Hin; by apply last_Some_elem_of|intros k; cbn; rewrite Hn|intros s' i; cbn; rewrite Hs; by case_decide].
  case_decide as Hk; [right|by left]. split; [done|]. apply list_elem_of_fmap in Hk as (i & -> & Hi). exists i. split_and!; [done|by apply Hin|by apply (Hlast i l)].
Qed.

Lemma inv_step_prune full p hist s pruner columns :
  pipeline_inv full p hist → prune s (pruners p s) (db (state_merkle_db p)) batch_size = Ret (pruner, columns) →
  pipeline_inv full (mkPipeline (with_columns (state_merkle_db p) columns) (outgoing p) (committing p)
    (λ s', if decide (s' = s) then pruner else pruners p s')) hist.
Proof.
  intros [[He Hf Hv Hsc Hl Hsub] Hs Ht Hn Hout Hcom Hst] (Hmin & Hnodes & Hrows)%prune_ok.
  split; cbn [state_merkle_db outgoing committing pruners with_columns db version_cache]; try done.
  - split; try done. cbn. apply map_subseteq_spec. intros k n Hk. destruct (Hnodes k) as [E|[E _]]; rewrite E in Hk; [by eapply lookup_weaken|done].
  - intros k Hk. assert (Hpr : pruned full hist (pruners p) k → pruned full hist (λ s', if decide (s' = s) then pruner else pruners p s') k).
    { intros (s' & i & Hki & Hok & Hle). exists s', i. split_and!; [done..|]. case_decide; [subst; lia|done]. }
    destruct (Hn k Hk) as [Hdb|[?|?]]; [|by right; left|right; right; by apply Hpr]. destruct (Hnodes k) as [->|[_ (i & Hki & Hi & Hle)]]; [by left|].
    right; right. exists s, i. split_and!; [done|by apply Hst|by rewrite decide_True].
  - intros s' i Hi. by apply Hst, Hrows.
Qed.

Lemma inv_step_read full p hist key d n :
  pipeline_inv full p hist → get_node_option (state_merkle_db p) key = Ret (d, n) → pipeline_inv full (with_db p d) hist.
Proof.
  intros [Hca Hs Ht Hn Hout Hcom Hst] E. assert (Hd : caches_ok full hist.*1 d ∧ db d = db (state_merkle_db p) ∧ version_cache d = version_cache (state_merkle_db p)).
  { destruct (decide (shard (nibble_path key) < NUM_SHARDS)%nat) as [Hfit|Hfit].
    - destruct (get_node_option_ok _ _ _ key Hca Hfit) as (d' & n' & E' & Hca' & Hdb & Hvc & _). rewrite E in E'. by injection E' as -> ->.
    - unfold get_node_option in E. rewrite (co_enabled _ _ _ Hca) in E. cbn [negb] in E. destruct (get_version _ _); [by injection E as <- _|].
      unfold lru_cache_get in E. rewrite lookup_ge_None_2 in E; [rewrite (proj1 (co_lru _ _ _ Hca)); lia|done]. }
  destruct Hd as (Hca' & Hdb & Hvc). split; cbn [state_merkle_db outgoing committing pruners with_db]; rewrite ?Hdb ?Hvc; done.
Qed.

(** ** All steps *)

Lemma inv_initial p : initial p → enable_cache (state_merkle_db p) = true → pipeline_inv ∅ p [].
Proof.
  intros (Hdb & Hvc & Hlen & Hempty & Ho & Hc & Hp) He. split; rewrite ?Hdb ?Hvc ?Ho ?Hc; try done.
  - split; rewrite ?Hdb ?Hvc; try done; [by intros v c ?%elem_of_nil|constructor|].
    split; [done|]. intros c path v n Hin. rewrite Forall_forall in Hempty. by rewrite Hempty // lookup_empty.
  - constructor.
  - by intros w m ?%elem_of_nil.
  - intros k. rewrite lookup_empty. by intros [x ?].
  - intros s i [x Hx]. by rewrite lookup_empty in Hx.
Qed.

Lemma step_enable_cache x y :
  pipeline_step hash_iter prune_window batch_size epoch_ending x y → enable_cache (state_merkle_db y.1) = enable_cache (state_merkle_db x.1).
Proof.
  intros [p hist vs nh v prev d b h _ _ E|p hist v b|p hist v b|p hist v b p' _ E|p hist s pr c _ E|p hist k d n E]; try done; cbn.
  - unfold merklize_value_set in E. returned E. destruct r as [[h' b']|e]; cbn [try] in E; [|done]. returned E. by simplify_eq.
  - unfold finish_batch in E. returned E. by simplify_eq.
  - unfold get_node_option in E. destruct (enable_cache (state_merkle_db p)) eqn:He; cbn [negb] in E; [|by simplify_eq].
    destruct (get_version _ _); [by simplify_eq|]. returned E. destruct o; [by simplify_eq|]. returned E. by simplify_eq.
Qed.

Lemma inv_step full p hist p' hist' :
  pipeline_inv full p hist → pipeline_step hash_iter prune_window batch_size epoch_ending (p, hist) (p', hist') → ∃ full', pipeline_inv full' p' hist'.
Proof.
  intros Hi Hstep. inversion Hstep; subst; [by eapply inv_step_merklize|exists full..].
  - by eapply inv_step_send.
  - by eapply inv_step_write.
  - by eapply inv_step_finish.
  - by eapply inv_step_prune.
  - by eapply inv_step_read.
Qed.

Lemma pipeline_reachable_inv p hist :
  reachable hash_iter prune_window batch_size epoch_ending p hist → enable_cache (state_merkle_db p) = true → ∃ full, pipeline_inv full p hist.
Proof.
  intros (p0 & H0 & Hr) He. cut (∀ x y, rtc (pipeline_step hash_iter prune_window batch_size epoch_ending) x y →
    enable_cache (state_merkle_db y.1) = enable_cache (state_merkle_db x.1) ∧ ∀ full, pipeline_inv full x.1 x.2 → ∃ full', pipeline_inv full' y.1 y.2).
  { intros Hcut. destruct (Hcut _ _ Hr) as [E Hinv]. cbn in E, Hinv. apply (Hinv ∅). apply inv_initial; [done|by rewrite -E]. }
  clear -Hiter LAWS. induction 1 as [x|[p h] [p' h'] z Hs Hr [E IH]]; [split; [done|]; intros full Hi; by exists full|].
  split; [by rewrite E; apply step_enable_cache in Hs|]. intros full Hi. destruct (inv_step _ _ _ _ _ Hi Hs) as [full' Hi']. by apply (IH full').
Qed.

(** ** The theorems *)

(** What passes the check of the database is not pruned, as long as the epoch snapshot
    pruner has not passed it. *)
Lemma checked_not_pruned full p hist w m k :
  pipeline_inv full p hist → (w, m) ∈ hist → error_if_state_merkle_pruned epoch_ending p w = Ok tt →
  min_readable_version (pruners p StaleNodeIndexCrossEpochSchema) ≤ w → tree_nodes (reads full) w k → ¬ pruned full hist (pruners p) k.
Proof.
  intros Hi Hw Hguard Hcross Hkey (s & i & <- & Hst & Hle). destruct (pi_trees _ _ _ Hi w m Hw) as [_ Hfull].
  pose proof (tree_nodes_version _ _ _ _ Hfull Hkey) as Hv. destruct (decide (stale_since_version i ≤ w)) as [Hsw|Hsw]; [by apply (so_trees _ _ _ _ Hst w m)|].
  destruct s; [|lia]. unfold error_if_state_merkle_pruned in Hguard.
  destruct (Z.leb_spec (min_readable_version (pruners p StaleNodeIndexSchema)) w); [lia|]. rewrite (proj2 (Z.leb_le _ _) Hcross) in Hguard.
  destruct (epoch_ending w) eqn:Ew; [|done]. pose proof (so_epochs _ _ _ _ Hst eq_refl w Ew). lia.
Qed.


(** C16: No read is wrong: in every state that the threads reach, a read of any key at any
    version that was merklized, pruned or not, returns the value of the state of that version
    with a proof that verifies, or it fails with an error. *)
Theorem reads_right_or_fail p hist w m k :
  reachable hash_iter prune_window batch_size epoch_ending p hist → enable_cache (state_merkle_db p) = true → (w, m) ∈ hist → hash_ok k →
  let r := get_with_proof (reader_of (state_merkle_db p)) k w in
  (∃ e, r = Ret (Err e)) ∨
  ∃ proof, r = Ret (Ok (m !! k, proof)) ∧ verify_by_hash proof (smt_root fst m) k (fst <$> m !! k) = Ret (Ok tt).
Proof.
  intros Hr He Hw Hk. cbv zeta. destruct (pipeline_reachable_inv _ _ Hr He) as [full Hi]. destruct (pi_trees _ _ _ Hi w m Hw) as [Hm Ht].
  destruct (get_with_proof_ok _ _ _ k Hm Hk Ht) as (proof & E & Hv).
  destruct (get_with_proof_fails (reader_of (state_merkle_db p)) (reads full) k w) as [->|?]; [by eapply reader_misses, pi_caches|right; by exists proof|by left].
Qed.

(** C9: The snapshot committer never fails: in every state that the threads reach, the next
    version is merklized on the latest one, and the root hash is that of the updated state. *)
Theorem merklize_never_fails p hist value_set node_hashes version prev :
  reachable hash_iter prune_window batch_size epoch_ending p hist → enable_cache (state_merkle_db p) = true →
  next_update epoch_ending hist value_set node_hashes version prev →
  let m := updated_state version (latest_state hist) (collect_map value_set) in
  ∃ d batch, merklize_value_set hash_iter (state_merkle_db p) value_set node_hashes version (latest hist) prev = Ret (Ok (d, batch, smt_root fst m)).
Proof.
  intros Hr He Hn. destruct (pipeline_reachable_inv _ _ Hr He) as [full Hi]. destruct (inv_merklize _ _ _ _ _ _ _ Hi Hn) as (b & -> & _). by eexists _, _.
Qed.

(** The snapshot before a version is the latest one, if that is written and passes the check
    itself. *)
Theorem snapshot_before_exact p hist w m next :
  reachable hash_iter prune_window batch_size epoch_ending p hist → enable_cache (state_merkle_db p) = true →
  (w, m) ∈ hist → 0 ≤ w < next → (∀ w' m', (w', m') ∈ hist → w' < next → w' ≤ w) → ¬ unwritten p w →
  error_if_state_merkle_pruned epoch_ending p next = Ok tt → error_if_state_merkle_pruned epoch_ending p w = Ok tt →
  min_readable_version (pruners p StaleNodeIndexCrossEpochSchema) ≤ w →
  get_state_snapshot_before epoch_ending p next = Ret (Ok (Some (w, smt_root fst m))).
Proof.
  intros Hr He Hw Hlt Hlatest Hwritten Hnext Hguard Hcross. destruct (pipeline_reachable_inv _ _ Hr He) as [full Hi]. pose proof (checked_not_pruned full p hist w m) as Hnp.
  destruct (inv_readable full p hist w m Hi Hw) as (Hm & Ht & _); [intros k; by apply Hnp|].
  unfold get_state_snapshot_before. rewrite Hnext. cbn [try]. unfold get_state_snapshot_version_before. rewrite (proj2 (Z.ltb_lt 0 next)); [lia|].
  rewrite empty_path. run. set (rows := filter _ _).
  assert (Hroot : is_Some (jellyfish_merkle_node (db (state_merkle_db p)) !! node_at w [])).
  { destruct (pi_trees _ _ _ Hi w m Hw) as [_ Hf]. assert (Hin : tree_nodes (reads full) w (node_at w [])).
    { destruct Hf as (node & Hrd & _). exists node. split; [done|apply in_tree_root]. }
    destruct (tree_nodes_read _ _ _ Hin) as [n Hn]. destruct (pi_nodes _ _ _ Hi (node_at w [])) as [?|[?|Hp]]; [injection Hn as Hn; by exists n|done|done|].
    by apply Hnp in Hp. }
  assert (Hver : nk_version ∘ fst <$> last rows = Some w).
  { destruct Hroot as [n Hn]. assert (Hin : (node_at w [], n) ∈ rows).
    { apply list_elem_of_filter. split; [|by apply elem_of_btree_iter]. cbn. unfold pair_le. cbn. destruct (decide (w = next - 1)) as [->|]; [right|left; lia].
      split; [done|]. unfold pair_le. cbn. by right. }
    destruct (last rows) as [[k x]|] eqn:El; [|apply last_None in El; rewrite El in Hin; by apply elem_of_nil in Hin]. cbn. f_equal.
    assert (Hk : nk_version k ≤ w).
    { apply last_Some_elem_of, list_elem_of_filter in El as [Hle Hk%elem_of_btree_iter]. eapply lookup_weaken in Hk; [|by eapply co_stored, pi_caches].
      apply (co_full _ _ _ (pi_caches _ _ _ Hi)) in Hk as [([w' m'] & Ew & Hw')%list_elem_of_fmap _]. cbn in Ew. rewrite Ew. apply (Hlatest w' m' Hw').
      cbn in Hle. unfold pair_le in Hle. cbn in Hle. lia. }
    apply last_Some in El as [l E]. assert (Hs : StronglySorted entry_le rows) by (apply StronglySorted_filter, btree_iter_sorted). rewrite E in Hs Hin.
    apply StronglySorted_app in Hs as (Hs & _). apply elem_of_app in Hin as [Hin|[= <- _]%list_elem_of_singleton]; [|done].
    specialize (Hs _ (k, x) Hin ltac:(by left)). unfold entry_le in Hs. cbn in Hs. unfold pair_le in Hs. cbn in Hs. lia. }
  rewrite Hver. run. destruct (get_root_ok _ _ _ Hm Ht) as [-> _]. by run.
Qed.
End safety.
