(* ===== verification/StateMerklePruner.v ===== *)
(** * What the pruners of the state tree delete

    A pruner that is run often enough deletes exactly the nodes that became stale between its
    progress and its target; a pruner that was opened on a saved progress does nothing and
    stays pending until its target has caught up. *)
From S2P Require Import Prelude U64 NibblePath SparseMerkle JmtNode JellyfishMerkle JellyfishTree JellyfishUpdate JellyfishInsert JellyfishSound JmtCodec StateMerkleDb StateMerklePipeline StateMerkleSafety.
Local Open Scope Z_scope.
Local Open Scope rust_scope.

Section pruner.
Context {SH : SparseMerkleHashers} {K : Type}.
Context (s : StaleSchema) (batch_size : nat).
Local Notation Columns := (Columns (K := K)).
Implicit Types (c : Columns) (self : StateMerklePruner).

(** The calls that the worker makes, one after the other. *)
Fixpoint prune_runs (n : nat) self c : comp (StateMerklePruner * Columns) :=
  match n with
  | O => Ret (self, c)
  | S n => '(self, c) ← prune s self c batch_size; prune_runs n self c
  end.

Definition is_row c (i : StaleNodeIndex) : Prop := is_Some (stale_node_index c s !! i).
Definition rows_ok c : Prop := ∀ i, is_row c i → 0 ≤ nk_version (stale_node_key i).

(** The rows from [lo] to [hi]. *)
Definition since_in (lo hi : Version) (i : StaleNodeIndex) : Prop := lo ≤ stale_since_version i ≤ hi.

(** [c'] is [c] without the [indices] and their nodes. *)
Record deleted c (indices : list StaleNodeIndex) c' : Prop := {
  del_rows : ∀ i, stale_node_index c' s !! i = if decide (i ∈ indices) then None else stale_node_index c s !! i;
  del_nodes : ∀ k, jellyfish_merkle_node c' !! k = if decide (k ∈ stale_node_key <$> indices) then None else jellyfish_merkle_node c !! k;
}.

Lemma seek_root lo i : 0 ≤ nk_version (stale_node_key i) → key_le (mkStaleNodeIndex lo (node_at 0 [])) i ↔ lo ≤ stale_since_version i.
Proof.
  intros Hv. split; [apply index_le_since|]. intros Hle. destruct i as [v [w [n b]]]. cbn in *. unfold pair_le. cbn. destruct (decide (lo = v)) as [->|]; [right|left; lia].
  split; [done|]. unfold pair_le. cbn. destruct (decide (w = 0)) as [->|]; [right|left; lia]. split; [done|]. unfold pair_le. cbn.
  destruct n as [|n]; [right|left; lia]. done.
Qed.

(** The rows that a run looks at, in order. *)
Definition window c (lo hi : Version) : list StaleNodeIndex :=
  filter (λ i, stale_since_version i ≤ hi) (filter (λ i, key_le (mkStaleNodeIndex lo (node_at 0 [])) i) (btree_iter (stale_node_index c s)).*1).

Lemma elem_of_window c lo hi i : rows_ok c → i ∈ window c lo hi ↔ is_row c i ∧ since_in lo hi i.
Proof.
  intros Hok. unfold window, is_row, since_in. rewrite !list_elem_of_filter elem_of_btree_keys. split.
  - intros (Hhi & Hlo & Hi). rewrite seek_root in Hlo; [by apply Hok|done].
  - intros (Hi & Hlo & Hhi). rewrite seek_root; [by apply Hok|done].
Qed.

Lemma window_sorted c lo hi : StronglySorted key_le (window c lo hi).
Proof. apply StronglySorted_filter, StronglySorted_filter, btree_keys_sorted. Qed.

Lemma fetch_take n hi rows : StronglySorted key_le rows → fetch n hi rows = take n (filter (λ i, stale_since_version i ≤ hi) rows).
Proof.
  revert n. induction rows as [|i rows IH]; intros [|n] Hs; cbn [fetch]; try done. apply StronglySorted_inv in Hs as [Hs Hall].
  destruct (Z.leb_spec (stale_since_version i) hi).
  - rewrite filter_cons_True //. cbn. by rewrite IH.
  - rewrite list_filter_none //. apply Forall_forall. intros j [->|Hj]%elem_of_cons; [lia|]. rewrite Forall_forall in Hall. specialize (Hall _ Hj). apply index_le_since in Hall. lia.
Qed.

Lemma get_stale_node_indices_window c lo hi :
  get_stale_node_indices s c lo hi batch_size = Ret (take batch_size (window c lo hi), bool_decide (length (window c lo hi) ≤ batch_size)%nat).
Proof.
  unfold get_stale_node_indices. rewrite empty_path. run. rewrite fetch_take; [apply StronglySorted_filter, btree_keys_sorted|].
  fold (window c lo hi). rewrite length_take. case_bool_decide as Hlen.
  - rewrite (proj2 (Nat.ltb_ge _ _)); [lia|]. rewrite !take_ge //. lia.
  - rewrite (proj2 (Nat.ltb_lt _ _)); [lia|]. rewrite take_take. do 3 f_equal. lia.
Qed.

Context (Hbatch : batch_size ≠ 0%nat).

(** One run. *)
Lemma prune_run self c :
  rows_ok c → is_pruning_pending self = true → min_readable_version self ≤ target_version self →
  let lo := min_readable_version self in
  let hi := target_version self in
  ∃ indices min' fully c', prune s self c batch_size = Ret (mkPruner hi (min', fully), c') ∧ deleted c indices c' ∧
    (∀ i, i ∈ indices → is_row c i ∧ since_in lo hi i) ∧ lo ≤ min' ≤ hi ∧ (indices = [] → min' = hi ∧ fully = true) ∧
    (fully = true → ∀ i, is_row c i → since_in lo hi i → i ∈ indices) ∧
    (∀ i, is_row c i → lo ≤ stale_since_version i < min' → i ∈ indices).
Proof.
  intros Hok Hp Hle. cbv zeta. set (lo := min_readable_version self) in *. set (hi := target_version self) in *.
  unfold prune. rewrite Hp. cbn [negb]. unfold prune_state_merkle. rewrite (proj2 (Nat.eqb_neq _ _) Hbatch). cbn [negb rust_assert]. run. fold lo hi.
  rewrite (proj2 (Z.ltb_ge _ _) Hle) get_stale_node_indices_window. run. pose proof (λ i, elem_of_window c lo hi i Hok) as Hin.
  pose proof (window_sorted c lo hi) as Hs. set (F := window c lo hi) in *.
  assert (Htake : ∀ i, i ∈ take batch_size F → is_row c i ∧ since_in lo hi i) by (intros i Hi%elem_of_take; apply Hin; by destruct Hi as (? & ?%list_elem_of_lookup_2 & _)).
  assert (Hall : bool_decide (length F ≤ batch_size)%nat = true → ∀ i, is_row c i → since_in lo hi i → i ∈ take batch_size F).
  { intros Hlen%bool_decide_eq_true i Hi Hsi. rewrite take_ge //. by apply Hin. }
  destruct (last (take batch_size F)) as [l|] eqn:El.
  - run. eexists (take batch_size F), _, _, _. split_and!; [done| |done|..|].
    + rewrite write_rows_app. destruct (write_deletes c s (take batch_size F)) as (_ & Hn & Hr). cbv zeta in Hn, Hr. split; intros x; cbn; [|apply Hn].
      rewrite Hr. repeat case_decide; naive_solver.
    + by apply last_Some_elem_of, Htake in El as [_ [? ?]].
    + by apply last_Some_elem_of, Htake in El as [_ [? ?]].
    + intros E. by rewrite E in El.
    + done.
    + intros i Hi Hlt. assert (Hsl : since_in lo hi l) by (by apply last_Some_elem_of, Htake in El as [_ ?]). unfold since_in in Hsl.
      assert (HiF : i ∈ F) by (apply Hin; split; [done|unfold since_in; lia]). rewrite -(take_drop batch_size F) in HiF Hs.
      apply elem_of_app in HiF as [?|HiF]; [done|]. apply StronglySorted_app in Hs as (Hs & _). specialize (Hs l i (last_Some_elem_of _ _ El) HiF).
      apply index_le_since in Hs. lia.
  - apply last_None in El. rewrite El in Hall. run. assert (HF : F = []) by (destruct F; [done|by destruct batch_size]). rewrite HF.
    eexists [], _, _, _. split_and!; [done|by split|by intros i ?%elem_of_nil|lia|lia|done|..].
    + intros _ i Hi Hsi. assert (i ∈ F) as Hx by (by apply Hin). by rewrite HF in Hx.
    + intros i Hi Hlt. assert (i ∈ F) as Hx by (apply Hin; split; [done|unfold since_in; lia]). by rewrite HF in Hx.
Qed.
Lemma deleted_trans c i1 c1 i2 c2 : deleted c i1 c1 → deleted c1 i2 c2 → deleted c (i1 ++ i2) c2.
Proof.
  intros [Hr1 Hn1] [Hr2 Hn2]. split; intros x.
  - rewrite Hr2 Hr1. pose proof (elem_of_app i1 i2 x). repeat case_decide; naive_solver.
  - rewrite Hn2 Hn1 fmap_app. pose proof (elem_of_app (stale_node_key <$> i1) (stale_node_key <$> i2) x). repeat case_decide; naive_solver.
Qed.

Lemma deleted_row c indices c' i : deleted c indices c' → is_row c' i ↔ is_row c i ∧ i ∉ indices.
Proof. intros [Hr _]. unfold is_row. rewrite Hr. case_decide; [|tauto]. split; [by intros [x ?]|tauto]. Qed.

Lemma deleted_size c i indices c' :
  deleted c indices c' → i ∈ indices → is_row c i → (size (stale_node_index c' s) < size (stale_node_index c s))%nat.
Proof.
  intros [Hr _] Hi Hrow. apply map_subset_size. apply map_subset_alt. split.
  - apply map_subseteq_spec. intros j x. rewrite Hr. by case_decide.
  - exists i. rewrite Hr decide_True //.
Qed.

Lemma prune_runs_idle n self c : is_pruning_pending self = false → prune_runs n self c = Ret (self, c).
Proof. intros Hp. induction n as [|n IH]; [done|]. cbn [prune_runs]. unfold prune. rewrite Hp. cbn [negb]. by run. Qed.

Lemma pruner_runs n self c :
  rows_ok c → (size (stale_node_index c s) < n)%nat → min_readable_version self ≤ target_version self →
  let lo := min_readable_version self in
  let hi := target_version self in
  ∃ self' c' indices, prune_runs n self c = Ret (self', c') ∧ is_pruning_pending self' = false ∧ min_readable_version self' = hi ∧
    deleted c indices c' ∧ (∀ i, i ∈ indices → is_row c i ∧ since_in lo hi i) ∧
    (is_pruning_pending self = true → ∀ i, is_row c i → since_in lo hi i → i ∈ indices).
Proof.
  cbv zeta. revert self c. induction n as [|n IH]; intros self c Hok Hn Hle; [lia|]. destruct (is_pruning_pending self) eqn:Ep; cycle 1.
  { exists self, c, []. rewrite prune_runs_idle //. pose proof Ep as [Ht%Z.ltb_ge _]%orb_false_iff. split_and!; [done|done|lia|by split|by intros i ?%elem_of_nil|done]. }
  destruct (prune_run self c Hok Ep Hle) as (i1 & min' & fully & c1 & E & Hd & Hin & Hmin & Hnil & Hfull & Hbelow). cbn [prune_runs]. rewrite E. run.
  set (self1 := mkPruner (target_version self) (min', fully)). destruct i1 as [|j i1].
  - destruct (Hnil eq_refl) as [-> ->]. assert (Hidle : is_pruning_pending self1 = false) by (unfold self1, is_pruning_pending; cbn; by rewrite Z.ltb_irrefl).
    exists self1, c1, []. rewrite prune_runs_idle //.
  - assert (Hrow : ∀ i, is_row c1 i ↔ is_row c i ∧ i ∉ j :: i1) by (intros i; by apply deleted_row).
    assert (Hj : j ∈ j :: i1) by (by left). pose proof (deleted_size _ j _ _ Hd Hj (proj1 (Hin j Hj))) as Hsize.
    destruct (IH self1 c1) as (self' & c' & i2 & E2 & Hidle & Hmin2 & Hd2 & Hin2 & Hall2);
      [intros i [Hi _]%Hrow; by apply Hok|lia|cbn; lia|]. cbn [self1 min_readable_version target_version progress fst] in *.
    exists self', c', ((j :: i1) ++ i2). split_and!; [done..|by eapply deleted_trans| |].
    + intros i [Hi|Hi]%elem_of_app; [by apply Hin|]. apply Hin2 in Hi as [[Hi _]%Hrow Hs]. split; [done|]. unfold since_in in *. lia.
    + intros _ i Hi Hs. apply elem_of_app. destruct (decide (i ∈ j :: i1)) as [|Hni]; [by left|right]. apply Hall2; [|by apply Hrow|].
      * destruct fully; [by destruct Hni; apply Hfull|]. unfold is_pruning_pending. cbn. apply orb_true_r.
      * unfold since_in in *. destruct (decide (stale_since_version i < min')); [|lia]. destruct Hni. apply Hbelow; [done|lia].
Qed.

(** C20: A pruner with work to do and a target that is not behind gets it done: after one more
    run than the column of stale nodes has rows, it has reached its target, it is idle, and
    exactly the nodes that became stale from its progress to its target are deleted. *)
Theorem pruner_catches_up self c :
  rows_ok c → is_pruning_pending self = true → min_readable_version self ≤ target_version self →
  let gone i := is_row c i ∧ since_in (min_readable_version self) (target_version self) i in
  ∃ self' c', prune_runs (S (size (stale_node_index c s))) self c = Ret (self', c') ∧
    is_pruning_pending self' = false ∧ min_readable_version self' = target_version self ∧
    (∀ i, is_row c' i ↔ is_row c i ∧ ¬ gone i) ∧
    (∀ i, gone i → jellyfish_merkle_node c' !! stale_node_key i = None) ∧
    (∀ k, (∀ i, gone i → stale_node_key i ≠ k) → jellyfish_merkle_node c' !! k = jellyfish_merkle_node c !! k).
Proof.
  intros Hok Hp Hle. cbv zeta. destruct (pruner_runs (S (size (stale_node_index c s))) self c Hok ltac:(lia) Hle) as (self' & c' & ind & E & Hidle & Hmin & Hd & Hin & Hall).
  exists self', c'. split_and!; [done..| | |].
  - intros i. rewrite (deleted_row _ _ _ _ Hd). specialize (Hin i). specialize (Hall Hp i). tauto.
  - intros i [Hi Hs]. rewrite (del_nodes _ _ _ Hd) decide_True //. apply list_elem_of_fmap_2. by apply Hall.
  - intros k Hk. rewrite (del_nodes _ _ _ Hd) decide_False //. intros (i & -> & Hi)%list_elem_of_fmap. by apply (Hk i); [apply Hin|].
Qed.

(** A pruner that is opened on a saved progress, before a target is set, does nothing when
    it runs and stays pending, so that its worker runs it again without a pause. *)
Theorem reopened_pruner_spins c v n :
  pruner_progress c s = Some v → 0 < v →
  let self := StateMerklePruner_new s c in prune_runs n self c = Ret (self, c) ∧ is_pruning_pending self = true.
Proof.
  intros Hv Hpos. cbv zeta. unfold StateMerklePruner_new. rewrite Hv. cbn [default]. assert (Hp : is_pruning_pending (mkPruner 0 (v, false)) = true) by apply orb_true_r.
  split; [|done]. induction n as [|n IH]; [done|]. cbn [prune_runs]. unfold prune. rewrite Hp. cbn [negb]. unfold prune_state_merkle.
  rewrite (proj2 (Nat.eqb_neq _ _) Hbatch). cbn [negb rust_assert]. run. cbn [target_version min_readable_version progress fst].
  rewrite (proj2 (Z.ltb_lt _ _) Hpos). by run.
Qed.
End pruner.

(** Pruning the genesis state adds the rows of at most one stale node to the batch, the
    first of those that are stale since version 0 or 1. *)
Theorem prune_genesis_one {SH : SparseMerkleHashers} {K} (c : Columns (K := K)) batch :
  pruner_progress c StaleNodeIndexCrossEpochSchema = None →
  prune_genesis c batch = Ret (batch ++ delete_rows StaleNodeIndexCrossEpochSchema (take 1 (window StaleNodeIndexCrossEpochSchema c 0 1))).
Proof.
  intros Hp. unfold prune_genesis, StateMerklePruner_new. rewrite Hp. cbn [default min_readable_version progress fst]. unfold prune_state_merkle.
  cbn [Nat.eqb negb rust_assert Z.ltb Z.compare]. run. rewrite get_stale_node_indices_window. run. destruct (take 1 (window StaleNodeIndexCrossEpochSchema c 0 1)) as [|i [|j l]] eqn:E.
  - cbn [last]. run. by rewrite app_nil_r.
  - cbn [last]. by run.
  - apply (f_equal length) in E. rewrite length_take in E. cbn [length] in E. lia.
Qed.
