(* ===== verification/StateMerkleExample.v ===== *)
(** * The state tree on concrete inputs

    Hash functions without collisions, an LRU cache of one entry for each shard, and runs of
    the pipeline of [StateMerklePipeline]: the hypotheses of the theorems on the state tree
    hold on them, and what is missing in the checks of the database shows. *)
From S2P Require Import Prelude U64 NibblePath SparseMerkle JmtNode JellyfishMerkle JellyfishTree JellyfishUpdate JellyfishInsert JellyfishSound JmtCodec StateMerkleDb StateMerklePipeline StateMerkleSafety StateMerklePruner.
Local Open Scope Z_scope.
Local Open Scope rust_scope.

(** ** Instances *)

#[local] Instance example_hashers : SparseMerkleHashers := {|
  hash_leaf k v := 1 :: Z.of_nat (length k) :: k ++ v;
  hash_internal l r := 2 :: Z.of_nat (length l) :: l ++ r;
|}.

(** An LRU cache with room for one entry. *)
#[local] Instance example_lru V : LruCache V := {|
  lru := option (NibblePath * V);
  lru_get c k := (c, '(k', v) ← c; if decide (k' = k) then Some v else None);
  lru_put c k v := Some (k, v);
  lru_contents c := match c with Some (k, v) => {[k := v]} | None => ∅ end;
|}.

#[local] Instance example_lru_laws V : LruCacheLaws V.
Proof.
  split; cbn; [|done|].
  - intros [[k' v]|] k; cbn; [|by rewrite lookup_empty]. case_decide as E; [by rewrite E lookup_singleton_eq|by rewrite lookup_singleton_ne].
  - intros c k v. rewrite -insert_empty. apply insert_mono, map_empty_subseteq.
Qed.

(** ** Runs *)

Section run.
Local Notation Node := (Node Z).
Context (prune_window : StaleSchema → option Version) (epoch_ending : Version → bool).
Local Notation Pipeline := (Pipeline (K := Z)).
Local Notation StateHistory := (StateHistory (K := Z)).
Local Notation step := (pipeline_step (K := Z) map_to_list prune_window 10 epoch_ending).

Definition start : Pipeline :=
  mkPipeline (mkStateMerkleDb empty_columns true [] (mkLruNodeCache (replicate NUM_SHARDS None))) None None (λ s, StateMerklePruner_new (K := Z) s empty_columns).

Definition quiet (x : Pipeline * StateHistory) : Prop := outgoing x.1 = None ∧ committing x.1 = None.

(** All of one commit, one step after the other. *)
Definition commit_all (x : Pipeline * StateHistory) (value_set : list (HashValue * option (HashValue * Z))) (version : Version) (prev : option Version) :
    comp (Pipeline * StateHistory) :=
  let '(p, hist) := x in
  r ← merklize_value_set map_to_list (state_merkle_db p) value_set None version (latest hist) prev;
  match r with
  | Ok (d, batch, _) =>
      p ← finish_batch prune_window (mkPipeline (with_columns d (write_schemas (db d) batch)) None (Some (version, batch, true)) (pruners p)) version;
      Ret (p, (version, updated_state version (latest_state hist) (collect_map value_set)) :: hist)
  | Err _ => Panic
  end.

Lemma start_initial : initial start.
Proof. split_and!; try done. apply Forall_replicate. done. Qed.

Lemma commit_steps x value_set version prev y :
  quiet x → next_update epoch_ending x.2 value_set None version prev → commit_all x value_set version prev = Ret y →
  rtc step x y ∧ quiet y ∧ y.2 = (version, updated_state version (latest_state x.2) (collect_map value_set)) :: x.2.
Proof.
  destruct x as [p hist]. intros [Ho Hc] Hn E. unfold commit_all in E. returned E. destruct r as [[[d batch] h]|e]; [|done]. returned E. simplify_eq.
  split_and!; [|unfold finish_batch in Hr0; returned Hr0; by simplify_eq|done].
  eapply rtc_l; [by eapply step_merklize|]. eapply rtc_l; [eapply step_send; [done|exact Hc]|]. eapply rtc_l; [by eapply step_write|].
  eapply rtc_l; [by eapply step_finish|]. apply rtc_refl.
Qed.
(** A sequence of commits. *)
Definition Update : Type := list (HashValue * option (HashValue * Z)) * Version * option Version.

Fixpoint commits (x : Pipeline * StateHistory) (us : list Update) : comp (Pipeline * StateHistory) :=
  match us with
  | [] => Ret x
  | (value_set, version, prev) :: us => x ← commit_all x value_set version prev; commits x us
  end.

Fixpoint updates_ok (hist : StateHistory) (us : list Update) : Prop :=
  match us with
  | [] => True
  | (value_set, version, prev) :: us =>
      next_update epoch_ending hist value_set None version prev ∧
      updates_ok ((version, updated_state version (latest_state hist) (collect_map value_set)) :: hist) us
  end.

Lemma commits_steps x us y : quiet x → updates_ok x.2 us → commits x us = Ret y → rtc step x y ∧ quiet y.
Proof.
  revert x. induction us as [|[[value_set version] prev] us IH]; intros x Hq Hok E; cbn [commits updates_ok] in *; [by simplify_eq|].
  destruct Hok as [Hn Hok]. returned E. destruct (commit_steps _ _ _ _ _ Hq Hn Hr) as (Hs & Hq' & Eh). rewrite -Eh in Hok.
  destruct (IH _ Hq' Hok E) as [Hs' Hq2]. split; [by etrans|done].
Qed.

(** Running the pruner of a column. *)
Definition run_pruner (s : StaleSchema) (x : Pipeline * StateHistory) : comp (Pipeline * StateHistory) :=
  let '(p, hist) := x in
  '(pruner, columns) ← prune s (pruners p s) (db (state_merkle_db p)) 10;
  Ret (mkPipeline (with_columns (state_merkle_db p) columns) (outgoing p) (committing p) (λ s', if decide (s' = s) then pruner else pruners p s'), hist).

Lemma run_pruner_steps s x y : is_Some (prune_window s) → run_pruner s x = Ret y → rtc step x y.
Proof. destruct x as [p hist]. intros Hw E. unfold run_pruner in E. returned E. simplify_eq. eapply rtc_l; [by eapply step_prune|apply rtc_refl]. Qed.
End run.

(** ** Five versions *)

Definition key (n : Z) : HashValue := n :: replicate 31 0.
Definition genesis_ends_epoch (v : Version) : bool := v =? 0.

Definition updates : list Update := [
  ([(key 1, Some ([1], 10)); (key 2, Some ([2], 20)); (key 16, Some ([3], 30))], 0, None);
  ([(key 1, Some ([4], 10))], 1, Some 0);
  ([(key 2, None); (key 32, Some ([5], 40))], 2, Some 0);
  ([(key 1, Some ([6], 10))], 3, Some 0);
  ([(key 16, Some ([7], 30))], 5, Some 0)].

Lemma key_hash_ok n : is_byte n → hash_ok (key n).
Proof. intros Hn. split; [done|]. constructor; [done|]. by apply Forall_replicate. Qed.

Lemma next_ok (hist : StateHistory (K := Z)) value_set version prev :
  match latest hist with Some v => v < version | None => True end → Forall (λ kv, hash_ok kv.1) value_set →
  Z.of_nat (size (updated_state version (latest_state hist) (collect_map value_set))) < 2 ^ 64 → prev = (if 0 <? version then Some 0 else None) →
  next_update genesis_ends_epoch hist value_set None version prev.
Proof.
  intros Hv Hk Hs ->. split; [done..|by intros c|]. intros e ->%Z.eqb_eq Hlt. rewrite (proj2 (Z.ltb_lt _ _) Hlt). by exists 0.
Qed.

Lemma updates_are_ok : updates_ok genesis_ends_epoch [] updates.
Proof.
  cbn [updates_ok updates]. split_and!; try done; apply next_ok; try done; repeat (constructor; [by apply key_hash_ok|]); by constructor.
Qed.

Definition run_of (us : list Update) (prune_window : StaleSchema → option Version) (s : StaleSchema) : comp (Pipeline (K := Z) * StateHistory (K := Z)) :=
  x ← commits prune_window (start, []) us; run_pruner s x.

Definition result_of {A} (x : A) (c : comp A) : A := match c with Ret y => y | Panic => x end.

Lemma run_reachable us prune_window s y :
  updates_ok genesis_ends_epoch [] us → is_Some (prune_window s) → run_of us prune_window s = Ret y → reachable map_to_list prune_window 10 genesis_ends_epoch y.1 y.2.
Proof.
  intros Hus Hw E. unfold run_of in E. returned E. exists start. split; [apply start_initial|].
  assert (Hq : quiet (start, [])) by (split; reflexivity). destruct (commits_steps prune_window genesis_ends_epoch (start, []) us _ Hq Hus Hr) as [Hs _].
  rewrite -surjective_pairing. etrans; [done|].
  by eapply run_pruner_steps.
Qed.

Lemma result_of_Ret {A} (x : A) c : (match c with Ret _ => true | Panic => false end) = true → c = Ret (result_of x c).
Proof. by destruct c. Qed.

Definition windows (s : StaleSchema) : option Version :=
  match s with StaleNodeIndexSchema => Some 1 | StaleNodeIndexCrossEpochSchema => Some 2 end.

(** The state pruner has run. *)
Definition pruned_state : Pipeline (K := Z) * StateHistory (K := Z) := result_of (start, []) (run_of updates windows StaleNodeIndexSchema).
(** The epoch snapshot pruner has run, the state pruner has not. *)
Definition pruned_epochs : Pipeline (K := Z) * StateHistory (K := Z) := result_of (start, []) (run_of updates windows StaleNodeIndexCrossEpochSchema).

Lemma pruned_state_reachable : reachable map_to_list windows 10 genesis_ends_epoch pruned_state.1 pruned_state.2.
Proof. apply (run_reachable updates _ StaleNodeIndexSchema); [apply updates_are_ok|by eexists|]. refine (result_of_Ret _ _ _). vm_compute. reflexivity. Qed.

Lemma pruned_epochs_reachable : reachable map_to_list windows 10 genesis_ends_epoch pruned_epochs.1 pruned_epochs.2.
Proof. apply (run_reachable updates _ StaleNodeIndexCrossEpochSchema); [apply updates_are_ok|by eexists|]. refine (result_of_Ret _ _ _). vm_compute. reflexivity. Qed.

(** The state of a version. *)
Definition state_of (hist : StateHistory (K := Z)) (v : Version) : gmap HashValue (HashValue * (Z * Version)) :=
  default ∅ (snd <$> head (filter (λ e, e.1 = v) hist)).

Lemma state_of_in hist v : bool_decide (v ∈ hist.*1) = true → (v, state_of hist v) ∈ hist.
Proof.
  intros ([w m] & -> & Hw)%bool_decide_eq_true%list_elem_of_fmap. unfold state_of. cbn. destruct (head _) as [[w' m']|] eqn:E.
  - apply head_Some_elem_of, list_elem_of_filter in E as [E Hin]. cbn in *. by subst.
  - assert ((w, m) ∈ filter (λ e, e.1 = w) hist) as Hin by (by apply list_elem_of_filter). apply head_None in E. rewrite E in Hin. by apply elem_of_nil in Hin.
Qed.

(** ** The hypotheses hold *)


Lemma reads_right_or_fail_witness :
  let r := get_with_proof (reader_of (state_merkle_db pruned_state.1)) (key 1) 1 in
  let m := state_of pruned_state.2 1 in
  (∃ e, r = Ret (Err e)) ∨ ∃ proof, r = Ret (Ok (m !! key 1, proof)) ∧ verify_by_hash proof (smt_root fst m) (key 1) (fst <$> m !! key 1) = Ret (Ok tt).
Proof.
  apply (reads_right_or_fail map_to_list ltac:(done) windows 10 genesis_ends_epoch pruned_state.1 pruned_state.2 1 (state_of pruned_state.2 1) (key 1)).
  - apply pruned_state_reachable.
  - vm_compute. reflexivity.
  - apply state_of_in. vm_compute. reflexivity.
  - by apply key_hash_ok.
Defined.

Lemma merklize_never_fails_witness :
  let m := updated_state 6 (latest_state pruned_epochs.2) (collect_map [(key 2, Some ([8], 20))]) in
  ∃ d batch, merklize_value_set map_to_list (state_merkle_db pruned_epochs.1) [(key 2, Some ([8], 20))] None 6 (latest pruned_epochs.2) (Some 0) =
    Ret (Ok (d, batch, smt_root fst m)).
Proof.
  apply (merklize_never_fails map_to_list ltac:(done) windows 10 genesis_ends_epoch).
  - apply pruned_epochs_reachable.
  - vm_compute. reflexivity.
  - apply next_ok; [vm_compute; reflexivity|repeat (constructor; [by apply key_hash_ok|]); by constructor|vm_compute; reflexivity|done].
Defined.

(** Two updates, one on the other. *)
Lemma update_is_exact_witness :
  ∃ b0 b1, let v0 := [(key 1, Some ([1], 10)); (key 2, Some ([2], 20))] in let v1 := [(key 1, Some ([3], 10)); (key 2, None)] in
    let m0 := updated_state 0 ∅ (collect_map v0) in let m1 := updated_state 1 m0 (collect_map v1) in
    batch_put_value_set map_to_list (reads ∅) v0 None None 0 = Ret (Ok (smt_root fst m0, b0)) ∧
    batch_put_value_set map_to_list (reads (write_nodes ∅ b0)) v1 None (Some 0) 1 = Ret (Ok (smt_root fst m1, b1)) ∧
    has_tree (reads (write_nodes (write_nodes ∅ b0) b1)) 1 m1 ∧ has_tree (reads (write_nodes (write_nodes ∅ b0) b1)) 0 m0.
Proof.
  assert (H0 : Forall (λ kv, hash_ok kv.1) [(key 1, Some ([1], 10)); (key 2, Some ([2], 20))]) by (repeat (constructor; [by apply key_hash_ok|]); by constructor).
  assert (H1 : Forall (λ kv : HashValue * option (HashValue * Z), hash_ok kv.1) [(key 1, Some ([3], 10)); (key 2, None)]) by (repeat (constructor; [by apply key_hash_ok|]); by constructor).
  destruct (update_is_exact map_to_list ∅ _ None None 0 ∅ ltac:(done) (map_Forall_empty _) H0 eq_refl) as (b0 & E0 & Ht0 & _ & Hn0 & _);
    [by intros k [n Hn]|vm_compute; reflexivity|by intros c|].
  destruct (update_is_exact map_to_list (write_nodes ∅ b0) _ None (Some 0) 1 (updated_state 0 ∅ (collect_map [(key 1, Some ([1], 10)); (key 2, Some ([2], 20))]))
    ltac:(done) (updated_keys _ _ _ (map_Forall_empty _) (collect_map_keys _ H0)) H1 (conj Z.lt_0_1 Ht0)) as (b1 & E1 & Ht1 & Hold & _);
    [|vm_compute; reflexivity|by intros c|].
  - intros k [n Hn]. unfold write_nodes in Hn. rewrite map_union_empty in Hn. apply elem_of_list_to_map_2 in Hn. rewrite elem_of_reverse in Hn.
    apply (list_elem_of_fmap_2 fst), Hn0 in Hn as [Hn _]. exact (Z.le_lt_trans _ _ _ (tree_nodes_version _ _ _ _ Ht0 Hn) Z.lt_0_1).
  - exists b0, b1. exact (conj E0 (conj E1 (conj Ht1 (proj1 (Hold _ _ Ht0))))).
Defined.

(** ** A proof *)

Lemma example_hash_inj (x y : HashInput) : hash_of x = hash_of y → x = y.
Proof.
  destruct x, y; cbn; try done; intros [= Hlen Happ]; apply app_inj_1 in Happ as [-> ->]; [done|lia|done|lia].
Qed.

Definition example_proof : SparseMerkleProof :=
  match get_with_proof (reader_of (state_merkle_db pruned_state.1)) (key 32) 5 with Ret (Ok (_, p)) => p | _ => mkSparseMerkleProof None [] end.

Lemma verified_is_true_witness :
  verify_by_hash example_proof (smt_root fst (state_of pruned_state.2 5)) (key 32) (Some [5]) = Ret (Ok tt) ∧
  Some [5] = fst <$> state_of pruned_state.2 5 !! key 32.
Proof.
  assert (Hv : verify_by_hash example_proof (smt_root fst (state_of pruned_state.2 5)) (key 32) (Some [5]) = Ret (Ok tt)) by (vm_compute; reflexivity).
  split; [exact Hv|]. apply (verified_is_true fst (state_of pruned_state.2 5) (key 32) example_proof (Some [5])).
  - clear Hv. by apply key_hash_ok.
  - apply (bool_decide_eq_true_1 _). vm_compute. reflexivity.
  - intros x y _ _. apply example_hash_inj.
  - exact Hv.
Defined.

(** ** Pruners *)

Lemma pruner_catches_up_witness :
  let c := db (state_merkle_db pruned_epochs.1) in
  let self := pruners pruned_epochs.1 StaleNodeIndexSchema in
  ∃ self' c', prune_runs StaleNodeIndexSchema 2 (S (size (stale_node_index c StaleNodeIndexSchema))) self c = Ret (self', c') ∧
    is_pruning_pending self' = false ∧ min_readable_version self' = target_version self.
Proof.
  cbv zeta. destruct (pruner_catches_up StaleNodeIndexSchema 2 ltac:(done) (pruners pruned_epochs.1 StaleNodeIndexSchema) (db (state_merkle_db pruned_epochs.1)))
    as (self' & c' & E & Hp & Hm & _).
  - intros i [[] Hi]. assert (Hall : map_Forall (λ i _, 0 ≤ nk_version (stale_node_key i)) (stale_node_index (db (state_merkle_db pruned_epochs.1)) StaleNodeIndexSchema)).
    { apply (bool_decide_eq_true_1 _). vm_compute. reflexivity. }
    exact (Hall i () Hi).
  - vm_compute. reflexivity.
  - vm_compute. intros [=].
  - exists self', c'. exact (conj E (conj Hp Hm)).
Defined.

Definition saved (v : Version) : Columns (K := Z) := mkColumns ∅ (λ _, ∅) (λ _, Some v).

Lemma reopened_pruner_spins_witness :
  prune_runs StaleNodeIndexSchema 1000 7 (StateMerklePruner_new StaleNodeIndexSchema (saved 3)) (saved 3) =
    Ret (StateMerklePruner_new StaleNodeIndexSchema (saved 3), saved 3).
Proof. exact (proj1 (reopened_pruner_spins StaleNodeIndexSchema 1000 ltac:(done) (saved 3) 3 7 eq_refl ltac:(done))). Defined.

(** Two nodes of the genesis state are stale. *)
Definition genesis_rows : Columns (K := Z) :=
  mkColumns ∅ (λ _, {[mkStaleNodeIndex 1 (node_at 0 []) := (); mkStaleNodeIndex 1 (node_at 0 [1]) := ()]}) (λ _, None).

Lemma prune_genesis_one_witness :
  prune_genesis genesis_rows [] = Ret ([] ++ delete_rows StaleNodeIndexCrossEpochSchema (take 1 (window StaleNodeIndexCrossEpochSchema genesis_rows 0 1))) ∧
  length (window StaleNodeIndexCrossEpochSchema genesis_rows 0 1) = 2%nat.
Proof. split; [exact (prune_genesis_one genesis_rows [] eq_refl)|vm_compute; reflexivity]. Defined.

(** ** Encodings *)

Lemma nibble_paths_are_lists_witness : from_iter [1; 2; 3] = Ret (pack [1; 2; 3]) ∧ pop (pack [1; 2; 3]) = Ret (pack [1; 2], Some 3).
Proof.
  destruct (nibble_paths_are_lists [1; 2; 3] 4 [1; 5]) as (H1 & _ & H2 & _); [by repeat constructor|cbn; lia|done|by repeat constructor|cbn; lia|]. by split.
Defined.

#[local] Instance example_bcs : LeafBcs Z := {|
  leaf_to_bytes l := Z.of_nat (length (account_key l)) :: (value_index l).1 :: (value_index l).2 :: account_key l ++ leaf_value_hash l;
  leaf_from_bytes b :=
    match b with
    | n :: k :: v :: b => Some (mkJmtLeaf (take (Z.to_nat n) b) (drop (Z.to_nat n) b) (k, v))
    | _ => None
    end;
|}.

#[local] Instance example_bcs_laws : LeafBcsLaws Z.
Proof. split. intros [k h [i v]]. cbn. by rewrite Nat2Z.id take_app_length drop_app_length. Qed.

Definition two_children : InternalNode :=
  mkInternalNode {[1 := mkChild (key 5) 3 NodeType_Leaf; 9 := mkChild (key 6) 300 (NodeType_Internal 200)]} 201.

Lemma node_codec_roundtrip_witness : ∃ b, Node_encode (Node_Internal (K := Z) two_children) = Ret b ∧ Node_decode b = Ret (Ok (Node_Internal (K := Z) two_children)).
Proof.
  apply (node_codec_roundtrip (Node_Internal (K := Z) two_children)). split; [|split; [|vm_compute; reflexivity]].
  - apply (bool_decide_eq_true_1 _). vm_compute. reflexivity.
  - intros i c Hc. cbn in Hc. unfold Children in Hc. apply lookup_insert_Some in Hc as [[<- <-]|[_ [<- <-]%lookup_singleton_Some]]; (split_and!; [by apply key_hash_ok|done..]).
Defined.

Lemma node_key_codec_witness :
  ∃ r, NodeKey_decode (NodeKey_encode (node_at 7 [1; 2; 3])) = Ret r ∧ ∀ k, r = Ok k ↔ key_ok k ∧ NodeKey_encode k = NodeKey_encode (node_at 7 [1; 2; 3]).
Proof.
  destruct (node_key_codec (NodeKey_encode (node_at 7 [1; 2; 3]))) as (r & E & Hr & _); [|by exists r].
  apply (bool_decide_eq_true_1 _). vm_compute. reflexivity.
Defined.

(** An internal node with two children of [2 ^ 63] leaves each. *)
Definition overflowing : list Z :=
  let child := [0] ++ replicate 32 0 ++ replicate 9 128 in [2; 3; 0; 0; 0] ++ child ++ child.

Lemma decode_panics_only_on_overflow_witness :
  Node_decode (K := Z) overflowing = Panic ∧
  ∃ e f reader cs, overflowing = TAG_INTERNAL :: LittleEndian.encode 2 e ++ LittleEndian.encode 2 f ++ reader ∧
    deserialize_children (Z.to_nat (count_ones e)) e f ∅ reader = Ret (Ok (0, cs)) ∧ 2 ^ 64 ≤ total_leaves cs.
Proof.
  assert (Hp : Node_decode (K := Z) overflowing = Panic) by (vm_compute; reflexivity). split; [exact Hp|].
  apply (decode_panics_only_on_overflow (K := Z) overflowing); [|exact Hp]. apply (bool_decide_eq_true_1 _). vm_compute. reflexivity.
Defined.

(** ** What the checks miss *)

(** C34: The check before a read looks at the state pruner first and lets any version pass that
    it has not reached.  While the epoch snapshot pruner is ahead of the state pruner, that
    includes versions whose nodes are already deleted. *)
Theorem check_misses_epoch_snapshot_pruner :
  ∃ (p : Pipeline (K := Z)) hist m, reachable map_to_list windows 10 genesis_ends_epoch p hist ∧ enable_cache (state_merkle_db p) = true ∧ (0, m) ∈ hist ∧
    error_if_state_merkle_pruned genesis_ends_epoch p 0 = Ok tt ∧ get_root_hash (reader_of (state_merkle_db p)) 0 = Ret (Err Anyhow).
Proof.
  exists pruned_epochs.1, pruned_epochs.2, (state_of pruned_epochs.2 0). split_and!.
  - apply pruned_epochs_reachable.
  - vm_compute. reflexivity.
  - apply state_of_in. vm_compute. reflexivity.
  - vm_compute. reflexivity.
  - vm_compute. reflexivity.
Qed.

(** One key, written at every version; the state pruner keeps the latest version only. *)
Definition rewrites : list Update := [
  ([(key 1, Some ([1], 10))], 0, None); ([(key 1, Some ([2], 10))], 1, Some 0); ([(key 1, Some ([3], 10))], 2, Some 0); ([(key 1, Some ([4], 10))], 3, Some 0)].

Lemma rewrites_are_ok : updates_ok genesis_ends_epoch [] rewrites.
Proof.
  cbn [updates_ok rewrites]. split_and!; try done; apply next_ok; try done; repeat (constructor; [by apply key_hash_ok|]); by constructor.
Qed.

Definition no_window (s : StaleSchema) : option Version :=
  match s with StaleNodeIndexSchema => Some 0 | StaleNodeIndexCrossEpochSchema => Some 2 end.

Definition rewritten : Pipeline (K := Z) * StateHistory (K := Z) := result_of (start, []) (run_of rewrites no_window StaleNodeIndexSchema).

Lemma rewritten_reachable : reachable map_to_list no_window 10 genesis_ends_epoch rewritten.1 rewritten.2.
Proof. apply (run_reachable rewrites _ StaleNodeIndexSchema); [apply rewrites_are_ok|by eexists|]. refine (result_of_Ret _ _ _). vm_compute. reflexivity. Qed.

(** The snapshot that is returned need not be the latest one before the version: the check is
    made for the version, not for the snapshot, and pruned snapshots are passed over. *)
Theorem snapshot_before_passes_over :
  ∃ (p : Pipeline (K := Z)) hist m2 h, reachable map_to_list no_window 10 genesis_ends_epoch p hist ∧ (2, m2) ∈ hist ∧
    get_state_snapshot_before genesis_ends_epoch p 3 = Ret (Ok (Some (0, h))).
Proof.
  exists rewritten.1, rewritten.2, (state_of rewritten.2 2). eexists. split_and!.
  - apply rewritten_reachable.
  - apply state_of_in. vm_compute. reflexivity.
  - vm_compute. reflexivity.
Qed.

(** The first version is merklized and handed over, but not written; there is no cache. *)
Definition uncached_start : Pipeline (K := Z) :=
  mkPipeline (mkStateMerkleDb empty_columns false [] (mkLruNodeCache (replicate NUM_SHARDS None))) None None (λ s, StateMerklePruner_new (K := Z) s empty_columns).

Definition first_updates : list (HashValue * option (HashValue * Z)) := [(key 1, Some ([1], 10)); (key 2, Some ([2], 20))].

Definition merklized := result jmt_error (StateMerkleDb (K := Z) * list (WriteRow (K := Z)) * HashValue).
Definition batch_of (c : comp merklized) : list WriteRow := match c with Ret (Ok (_, batch, _)) => batch | _ => [] end.

Lemma batch_of_Ok c : match c with Ret (Ok _) => true | _ => false end = true → ∃ d h, c = Ret (Ok (d, batch_of c, h)).
Proof. destruct c as [[[[d b] h]|e]|]; try done. intros _. by exists d, h. Qed.

Lemma uncached_same (d d' : StateMerkleDb (K := Z)) value_set version base prev batch h :
  enable_cache d = false → merklize_value_set map_to_list d value_set None version base prev = Ret (Ok (d', batch, h)) → d' = d.
Proof.
  intros He E. unfold merklize_value_set in E. returned E. destruct r as [[h' b']|e]; cbn [try] in E; [|done]. rewrite He in E. returned E. simplify_eq. rewrite -He. by destruct d.
Qed.

Definition first_batch : list WriteRow := batch_of (merklize_value_set map_to_list (state_merkle_db uncached_start) first_updates None 0 None None).

Definition handed_over : Pipeline (K := Z) * StateHistory (K := Z) :=
  (mkPipeline (state_merkle_db uncached_start) None (Some (0, first_batch, false)) (pruners uncached_start), [(0, updated_state 0 ∅ (collect_map first_updates))]).

Lemma first_merklized :
  ∃ h, merklize_value_set map_to_list (state_merkle_db uncached_start) first_updates None 0 None None = Ret (Ok (state_merkle_db uncached_start, first_batch, h)).
Proof.
  destruct (batch_of_Ok (merklize_value_set map_to_list (state_merkle_db uncached_start) first_updates None 0 None None)) as (d & h & E); [vm_compute; reflexivity|].
  exists h. pose proof (uncached_same (state_merkle_db uncached_start) d _ _ _ _ _ _ eq_refl E) as Ed. subst d. exact E.
Qed.

Lemma uncached_initial : initial uncached_start.
Proof. split_and!; try done. apply Forall_replicate. done. Qed.

Lemma first_ok : next_update genesis_ends_epoch [] first_updates None 0 None.
Proof. apply next_ok; [done|repeat (constructor; [by apply key_hash_ok|]); by constructor|vm_compute; reflexivity|done]. Qed.

Lemma handed_over_reachable : reachable map_to_list windows 10 genesis_ends_epoch handed_over.1 handed_over.2.
Proof.
  exists uncached_start. split; [apply uncached_initial|]. destruct first_merklized as [h E].
  refine (rtc_l _ _ _ _ (step_merklize _ _ _ _ uncached_start [] first_updates None 0 None _ _ _ eq_refl first_ok E) _).
  refine (rtc_l _ _ _ _ (step_send _ _ _ _ (mkPipeline (state_merkle_db uncached_start) (Some (0, first_batch)) None (pruners uncached_start)) _ 0 first_batch eq_refl eq_refl) _). apply rtc_refl.
Qed.

(** C35: Without the caches, the snapshot committer fails on a version whose base is merklized
    but not written yet. *)
Theorem uncached_committer_fails :
  ∃ (p : Pipeline (K := Z)) hist value_set version prev, reachable map_to_list windows 10 genesis_ends_epoch p hist ∧ outgoing p = None ∧
    next_update genesis_ends_epoch hist value_set None version prev ∧ enable_cache (state_merkle_db p) = false ∧
    ∃ e, merklize_value_set map_to_list (state_merkle_db p) value_set None version (latest hist) prev = Ret (Err e).
Proof.
  exists handed_over.1, handed_over.2, [(key 2, None)], 1, (Some 0). split_and!; [apply handed_over_reachable|done| |done|].
  - apply next_ok; [done|repeat (constructor; [by apply key_hash_ok|]); by constructor|vm_compute; reflexivity|done].
  - eexists. vm_compute. reflexivity.
Qed.
